(* ===== verification/_CoqProject ===== *)
-Q . S2P
Prelude.v
GoStd.v
IR.v
Cfg.v
Dominators.v
CfgFacts.v
StaticExpr.v
Typ.v
TypParse.v
TypTheorems.v
Verify.v
VerifyFacts.v
Semantics.v
Optimize.v
Dce.v
Reachable.v
ReachableTheorems.v
Ssa.v
Simplify.v
SimplifyFacts.v
Available.v
OptimizeTheorems.v
Cse.v
CseTheorems.v
Forward.v
ForwardTheorems.v
Bounds.v
BoundsFacts.v
BoundsRuns.v
BoundsTheorems.v
TailCall.v
TailCallFacts.v
TailCallLoop.v
TailCallTheorems.v
Token.v
Lexer.v
LexerFacts.v
Literals.v
Ast.v
AstFacts.v
ParserState.v
ParserType.v
ParserExpr.v
ParserStmt.v
ParserDecl.v
ParserFacts.v
ParserExprFacts.v
ParserStmtFacts.v
Parser.v
Grammar.v
GrammarFacts.v
GrammarInfix.v
StaticArgs.v
Layout.v
LayoutTheorems.v
WasmStructure.v
WasmControl.v
WasmOrder.v
WasmRun.v
WasmAnalysis.v
WasmScope.v
WasmSim.v
WasmWrites.v
WasmTheorems.v
WasmText.v
WasmScalar.v
WasmScalarTheorems.v
WasmPhis.v
WasmMemory.v
WasmModule.v
WasmModuleFacts.v
WasmBytes.v
WasmFormat.v
WasmBinary.v
WasmInstruction.v
WasmMeaning.v
WasmEncode.v
WasmLower.v
WasmBinaryTheorems.v
