(* ===== verification/Prelude.v ===== *)
(** * A verification library for the Kizu seed compiler

    Kizu's seed compiler is the Go program under [src/internal]: a lexer and a
    parser make a syntax tree, the checkers type it, lowering makes an IR in
    single assignment form, the passes of [internal/ir] verify and optimise it,
    and backends emit wasm or LLVM.  This library models the parts whose
    behaviour the kernel can check end to end: the spellings of types, static
    integer expressions, the lexer and the parser with the syntax tree, the IR
    with its verifier, its control flow and several of its passes, the wasm
    value layouts, control flow, scalar instructions and frames, the rendering
    of a wasm module's text as a binary, and the link inputs.

    ** Files

    Shared:
    - [Prelude]: results [Ok]/[Err] with [let*] and [check*], loops that stop
      at the first error, tactics; [GoStd]: the Go standard library the sources
      use (prefixes, [ParseInt], [FormatInt], [int64] wrap-around).

    Types ([internal/typ], [internal/staticexpr]):
    - [Typ]: trees, spelling ([TypeString] for [Type.String]), structural
      equality, substitution, static lengths.  [TypParse]: the parser and its
      table.  [TypTheorems]: printing and parsing are inverse, the parser ends,
      equality and substitution against specifications.
    - [StaticExpr]: the evaluator of static integer expressions, against a
      syntax tree with a denotation.

    The IR ([internal/ir]):
    - [IR] ([ir.go]): modules, functions, blocks, instructions, terminators.
    - [Cfg] ([verify.go]): positions, predecessors, reverse postorder,
      dominators.  [Dominators], [CfgFacts]: exact, and ending within the bound.
    - [Verify], [VerifyFacts] ([verify.go]): the verifier, the declarative
      [wellFormed] it decides, and that no execution of an accepted function
      reads a value that has not been computed.
    - [Semantics]: what a function computes on any machine.  It stands for no
      file; it is the specification of the passes.  A pass is correct when it
      [keeps] every run that is not stuck.
    - [Optimize] ([optimize.go]) with [Dce], [OptimizeTheorems]: constant
      folding, copy propagation, dead-code elimination.
    - [Simplify] ([simplify.go], [replaceFunctionValues] of [inline.go]) with
      [SimplifyFacts], [Ssa]: branch simplification.
    - [Available]: when one value may be read in place of another, on the
      dominator tree, and functions whose instructions became lists of instructions;
      the passes below are instances.
    - [Cse] ([cse.go], [renameInstrReads] of [rotate.go]) with [CseTheorems]:
      common subexpressions.
    - [Forward] ([forward.go]) with [ForwardTheorems]: field loads answered by
      the last write or load of the same field; the facts are about memory.
    - [Bounds] ([bounds.go]): counters, the walk that plans which index checks
      go, and applying the plan.  [BoundsFacts]: what the walk records;
      [BoundsRuns]: what holds at each point of a run; [BoundsTheorems].
    - [TailCall] ([tailcall.go]) with [TailCallFacts], [TailCallLoop],
      [TailCallTheorems]: a self call in tail position becomes a jump to a loop
      header, with an accumulator where the result is combined.
    - [Reachable] ([reachable.go], the link inputs of [ir.go]) with
      [ReachableTheorems]: what is kept for a set of roots, and what the linker
      is handed.

    The front end:
    - [Token], [Lexer] ([internal/token], [internal/lexer]) with [LexerFacts]:
      tokens tile every source.
    - [Literals] ([internal/quote], the literal readers of [parser.go]).
    - [Ast] ([internal/ast/ast.go]) with [AstFacts]: the syntax tree, its
      spelling, and when a tree has no holes.
    - [ParserState], [ParserType], [ParserExpr], [ParserStmt], [ParserDecl],
      [Parser] ([internal/parser/parser.go]): the parser's state and its
      lookahead, one function for each of its functions, and the whole parse.
      [ParserFacts], [ParserExprFacts], [ParserStmtFacts]: every function ends,
      keeps the errors there were, and leaves a hole only with an error.
    - [Grammar]: the expressions as a relation, without the parser;
      [GrammarFacts], [GrammarInfix]: the parser returns what it derives.
    - [StaticArgs]: what the text of a static argument means.

    The back end ([internal/wasm]):
    - [Layout] ([layout.go], [tagged.go]) with [LayoutTheorems]: sizes,
      alignments, offsets.
    - [WasmStructure] ([structure.go]): the analysis of a function's control
      flow.  [WasmOrder]: it finds the order and the dominators of [Cfg];
      [WasmAnalysis]: the interface [Structured] it gives the writer.
    - [WasmControl] ([control.go], [writeFunction] of [emit.go]): blocks written
      as nested [block]s, [loop]s and [if]s.  [WasmRun]: what such code does.
      [WasmScope]: the labels in scope; [WasmSim]: the simulation; [WasmWrites]:
      the writer never fails; [WasmTheorems].
    - [WasmText]: WebAssembly's text read back, the meaning of its integer
      instructions and of [local.set].  It stands for no file.
    - [WasmScalar] ([types.go], the scalar instructions of [control.go]) with
      [WasmScalarTheorems]: the text of arithmetic, comparisons, shifts and
      casts, against the integer rules of the language.
    - [WasmPhis] ([writePhiCopies] of [control.go]): the order the copies of an
      edge are written in.
    - [WasmMemory] ([frame.go], [memory.go]): the slots of a call's frame, loads
      and stores.
    - [WasmModule] ([module.go]) with [WasmModuleFacts]: the text of a module
      read as a tree, and the strings of its data.
    - [WasmBytes], [WasmBinary] ([binary.go]), [WasmInstruction]
      ([binary_instruction.go]): LEB128 numbers and vectors, the index spaces,
      the instructions and the sections of a binary.  [WasmFormat] reads a
      binary back and [WasmMeaning] says what a module's text declares; neither
      stands for a file.  [WasmEncode], [WasmLower], [WasmBinaryTheorems]: the
      bytes read back as what the text declares.

    ** How the state corresponds

    Go strings are byte strings, the lexer's text a list of runes; [int64] is
    [Z] with its wrap-around written out; Go maps are [gmap], flag sets and
    slices updated by index are lists.  A Go function that returns an error is
    a [result]; one that may panic, or whose loop carries a bound, returns an
    option and [None] stands for both.  A pass that mutates instructions in
    place is a function that returns the blocks with the changed instructions
    at the same positions: instructions are shared only within their block.
    The parser's methods are computations on its state ([ParserState.M]) that
    end with a value, with a panic, or out of their bound.  Its mutual recursion
    goes through the record [ParserType.Calls], which [ParserStmt.parser] ties at
    a depth.  A node the Go code leaves nil is [None] in the tree, and printing
    one is a panic.  Where tokens come from is the class [TokenSource]; the
    lexer is one instance, a list of tokens another.
    The text the wasm emitter appends is a list of items ([wcode]) where control
    flow is concerned, one for each construct, an instruction or the copies of an
    edge a single item; [WasmScalar] and [WasmPhis] give the strings of scalar
    instructions and of copies, and [e.values], the expression recorded for each
    value, is a map.  The emitter's other fields (layouts, parameters of
    functions, results held in locals) are arguments.
    A closure that changes captured variables ([visit] in [cse.go]) is a
    function on a record of those variables ([cseState]).

    ** What the theorems show

    - Safety of the verifier: [VerifyFacts.verify_exact], which also says that no
      index goes out of range, and [verify_no_undefined_read]; the rest of the
      file names single rules.
    - Passes keep every run: [OptimizeTheorems.constant_fold_preserves],
      [dead_code_preserves], [copy_propagation_preserves], [CseTheorems.cse_preserves],
      [ForwardTheorems.forward_preserves].  The machine is a parameter with the
      laws a pass needs as a class: [PureMachine], [IntMachine], [CopyMachine],
      [ExpressionMachine], [FieldMachine], [BoundsMachine]; [logMachine]
      satisfies the first four, [heapMachine] adds fields behind references
      that may alias, [arrayMachine] has Arrays and views.
    - Checks that go would have passed: [BoundsTheorems.bounds_preserves], for
      the runs in which no [array.set] is refused ([without]);
      [refused_set_unchecks] shows a run the pass does not keep, and
      [unsigned_check_stays] the checks it never answers.
    - The tail-call pass refines recursion: [TailCallTheorems.tail_recursion_preserves]
      says of [runs], where a call to the function itself runs it one level less
      deep, that the loop has every result the recursion has.  The machine's
      accumulator operations are the class [AccumulatorMachine]; [sizedMachine],
      integers of every width with a memory, is one.
    - Structured control flow: [WasmTheorems.structured_control_flow_runs], what
      the wasm backend writes runs as the function does, and [analyze_reducible].
      The first is for functions whose loops are left quietly ([QuietLoops], a
      condition on the function alone): the writer tests the code under the other
      arm of a loop's branch, which is proved to be enough for it, and nothing
      behind it; [early_copy_reaches_a_merge] is a function outside it.
    - The text of the wasm backend computes: [WasmScalarTheorems.scalar_block_runs]
      runs it against the machine of the rules of [SPEC.md], written down apart from
      the emitter, with [usize] and [isize] of 32 bits; where one of these has an
      exact result outside its bits the backend goes on at 64 and the theorem says
      nothing.  [WasmPhis.phi_copies_at_once] gives the copies of an edge the
      parallel meaning [WasmRun] takes them to have, when they can be put in an
      order; [cast_cycle_never_written] are copies that cannot.
      The examples beside them are inputs on which the emitter goes wrong.
    - The binary says what the text says: [WasmBinaryTheorems.binary_means_text],
      from any text the parser accepts to the bytes, which [WasmFormat] reads
      back as the module [WasmMeaning] gives the text.  [wat_parse_exact]: the
      parser accepts exactly the spellings of trees; [WasmBytes.leb_round_trip],
      [WasmModuleFacts.data_string_round_trip].
    - Memory of a call: [WasmMemory.frame_slots_apart], when the instructions that
      ask for slots have results of different names, and [store_load_round_trip],
      for every type that is held in a local.
    - Structure the passes rely on: the dominator tree is exact, reverse
      postorder lists the reachable blocks, the removal of unreachable blocks
      and the reachability pruning keep exactly what is reached.
    - Round trips: [TypTheorems.type_print_parse], [type_parse_canonical];
      [table_transparent] says what a table answers that has been told trees no
      text parses to.
    - The lexer: [LexerFacts.tokens_tile_source], with the text of every token,
      and one theorem for each class of token.
    - The parser: it ends on every source ([Parser.parse_terminates]),
      a parse without errors has no holes ([parse_complete]), a statement keeps
      the errors and the [// SAFETY:] text around it ([statement_keeps_state]),
      and it implements the grammar of expressions
      ([GrammarInfix.parse_expression_derives]), precedence, associativity,
      shifts and captures included, by the operator table of [SPEC.md].
    - Literals and static arguments mean what they spell:
      [Literals.integer_literal_exact], [quote_round_trip],
      [StaticArgs.static_argument_meaning].
    - Layouts: total on recursive declarations, aligned, fields and payloads
      apart and inside the value.
    - Termination of every loop with a bound, each beside its component.

    ** Bounds

    A bound is a number of rounds the loop does not exceed, and a theorem says so:
    the type and static-expression parsers are given the length of the text;
    the dominator iteration the number of blocks squared, because each pass
    but the last shrinks an ancestor set; the stack walk of unreachable-block
    removal twice the number of blocks; the chase of replacements the size of
    the map (a longer chain is a cycle); constant folding the number of
    instructions; the reachability worklist the names it starts from and
    every name an instruction holds; the common-subexpression walk one more
    than the number of blocks, the depth of the dominator tree; the walk of
    [inheritedFacts] the predecessors of the block and every predecessor list,
    what its stack can ever hold, as for the walk of [pathsMayWriteHeaders];
    counters are dropped as often as there are candidates, and the bounds walk
    is repeated as often as there are phis a counter can be; the loops of
    the lexer what is left of the input; a loop of the parser a round for each
    token that is left, counted from the current one and twice from peek on, its
    recursion four times that, because at most a type, an expression, a statement
    and a block nest without a token between them.  A layout takes its bound as an
    argument, and [LayoutTheorems.layout_total] gives one that is enough.
    The wasm analysis has the bounds of [Cfg], on names; the writer goes down the
    dominator tree, so as many levels as there are blocks; the loop of phi copies
    has two rounds a copy, one to park it and one to write it.  The module parser
    has two rounds a byte and one; the encoder of an instruction one more level
    than the place of its node in the tree; a LEB128 number five groups of seven
    bits for 32 and ten for 64.
    [runFunction] is granted a number of blocks, and [Exhausted] is an outcome
    of its own, so that [keeps] also says that a run that goes on goes on.

    ** What is not modelled

    Lowering, the type checker and the ownership checker work on the whole
    typed program.  Of the syntax tree, the spellings of structs and programs
    (they quote with the verb %q) and the rewritings in the other files of
    [internal/ast] are left out.  The grammar leaves out the [<] token, which
    the parser tells from a static argument list by scanning ahead, struct and
    buffer literals and the control-flow expressions.  Of the IR passes,
    inlining, rotation and versioning of loops and tables are not here, nor that
    branch simplification keeps every run.  Of the wasm backend, the instructions
    on aggregates, owners, floats and vectors, calls, the array headers [hoist.go]
    reads before a loop and the runtime are left out.  The emission of LLVM text
    is as large as lowering; the build cache, the formatter, the language server
    and the command line are I/O around the parts here. *)

From stdpp Require Import base list strings gmap.
From Stdlib Require Import ZArith Lia.

(** ** Results: a Go function that returns [(value, error)] *)

Inductive result (E A : Type) : Type :=
  | Ok (a : A)
  | Err (e : E).
Arguments Ok {E A} a.
Arguments Err {E A} e.

Declare Scope kizu_scope.
Delimit Scope kizu_scope with kizu.

Notation "'let*' x := e 'in' k" :=
  (match e with Ok x => k | Err err => Err err end)
  (at level 10, x pattern, e at level 200, k at level 200,
   format "'[hv' 'let*'  x  :=  e  'in'  '//' k ']'") : kizu_scope.

Notation "'check*' e 'in' k" :=
  (match e with Ok _ => k | Err err => Err err end)
  (at level 10, e at level 200, k at level 200)  : kizu_scope.

#[global] Open Scope kizu_scope.

Definition is_ok {E A} (r : result E A) : bool :=
  match r with Ok _ => true | Err _ => false end.

Definition to_option {E A} (r : result E A) : option A :=
  match r with Ok a => Some a | Err _ => None end.

(** A checker run over a list stops at the first error. *)
Section Loops.
Context {E A B : Type}.

Definition forall_ok (f : A -> result E unit) : list A -> result E unit :=
  fix go l := match l with
  | [] => Ok tt
  | x :: rest => check* f x in go rest
  end.

(** The same with the position of each element, as [for i, x := range l]. *)
Definition forall_ok_from (f : nat -> A -> result E unit) : nat -> list A -> result E unit :=
  fix go i l := match l with
  | [] => Ok tt
  | x :: rest => check* f i x in go (S i) rest
  end.

(** [for x := range l] over a function that returns an element or an error. *)
Definition map_ok (f : A -> result E B) : list A -> result E (list B) :=
  fix go l := match l with
  | [] => Ok []
  | x :: rest =>
      let* y := f x in
      let* ys := go rest in
      Ok (y :: ys)
  end.

(** Two lists of the same length, element by element. *)
Definition all2 (f : A -> B -> bool) : list A -> list B -> bool :=
  fix go l r := match l, r with
  | [], [] => true
  | x :: l, y :: r => f x y && go l r
  | _, _ => false
  end.
End Loops.

Section ResultLemmas.
Context {E A : Type}.

Lemma forall_ok_spec (f : A -> result E unit) l :
  forall_ok f l = Ok tt <-> Forall (fun x => f x = Ok tt) l.
Proof.
  induction l as [|x l IH]; simpl; [split; auto|].
  rewrite Forall_cons, <- IH.
  destruct (f x) as [[]|e]; [tauto | split; [discriminate | intros [? _]; discriminate]].
Qed.

Lemma forall_ok_from_spec (f : nat -> A -> result E unit) l i :
  forall_ok_from f i l = Ok tt <->
  forall k x, l !! k = Some x -> f (i + k) x = Ok tt.
Proof.
  revert i. induction l as [|x l IH]; intros i; simpl.
  { split; auto. intros _ k y Hk. rewrite lookup_nil in Hk. discriminate. }
  destruct (f i x) as [[]|e] eqn:Hf.
  - rewrite IH. split; intros H k y Hk.
    + destruct k as [|k]; simpl in Hk.
      * injection Hk as <-. rewrite Nat.add_0_r. exact Hf.
      * rewrite <- Nat.add_succ_comm. auto.
    + specialize (H (S k) y Hk). rewrite <- Nat.add_succ_comm in H. exact H.
  - split; [discriminate|]. intros H. specialize (H 0 x eq_refl).
    rewrite Nat.add_0_r in H. congruence.
Qed.

Lemma map_ok_Forall2 {B : Type} (f : A -> result E B) l ys :
  map_ok f l = Ok ys <-> Forall2 (fun x y => f x = Ok y) l ys.
Proof.
  revert ys. induction l as [|x l IH]; intros ys; simpl.
  { split; [intros [= <-]; constructor | inversion 1; reflexivity]. }
  destruct (f x) as [y|e] eqn:Hf.
  - destruct (map_ok f l) as [zs|e] eqn:Hm.
    + split.
      * intros [= <-]. constructor; [exact Hf | apply IH; reflexivity].
      * inversion 1 as [|? ? ? ? Hy Hrest]; subst.
        apply IH in Hrest. congruence.
    + split; [discriminate|]. inversion 1 as [|? ? ? ? Hy Hrest]; subst.
      apply IH in Hrest. discriminate.
  - split; [discriminate|]. inversion 1; congruence.
Qed.
End ResultLemmas.

Lemma all2_Forall2 {A B} (f : A -> B -> bool) l r :
  all2 f l r = true <-> Forall2 (fun x y => f x y = true) l r.
Proof.
  revert r. induction l as [|x l IH]; intros [|y r]; simpl.
  - split; auto.
  - split; [discriminate | inversion 1].
  - split; [discriminate | inversion 1].
  - rewrite andb_true_iff, IH. split; [intros [? ?]; constructor; auto | inversion 1; auto].
Qed.

Lemma forallb_elem {A} (f : A -> bool) l x : forallb f l = true -> x ∈ l -> f x = true.
Proof. intros H Hx. rewrite forallb_forall in H. apply H, list_elem_of_In, Hx. Qed.

(** [inv_ok] takes a chain of successful binds apart. *)
Ltac inv_ok :=
  repeat match goal with
  | H : Ok _ = Ok _ |- _ => injection H as H; subst
  | H : Err _ = Ok _ |- _ => discriminate H
  | H : Ok _ = Err _ |- _ => discriminate H
  | H : match ?e with Ok _ => _ | Err _ => _ end = Ok _ |- _ =>
      let E := fresh "Hok" in destruct e eqn:E; [|discriminate H]
  | u : unit |- _ => destruct u
  end.

(** [step_if] splits on the first boolean test of the goal or a hypothesis. *)
Ltac step_if :=
  match goal with
  | |- context [if ?b then _ else _] => let E := fresh "Hif" in destruct b eqn:E
  | H : context [if ?b then _ else _] |- _ => let E := fresh "Hif" in destruct b eqn:E
  end.

Create HintDb kizu discriminated.
