(* ===== verification/GoStd.v ===== *)
(** * The parts of Go's standard library the sources use

    Strings are byte strings ([String.string]); [int64] is [Z] with its
    wrap-around written out.  [strings.HasPrefix] and friends,
    [strconv.ParseInt(s, 10, 64)] and [strconv.FormatInt] are modelled as Go
    documents them, and the two integer conversions are shown to be inverse. *)

From stdpp Require Import base list strings.
From Stdlib Require Import ZArith Lia String Ascii.
From S2P Require Import Prelude.

#[local] Open Scope Z_scope.

(** ** Machine integers *)

Definition min_int64 : Z := - 2 ^ 63.
Definition max_int64 : Z := 2 ^ 63 - 1.

Definition in_int64 (z : Z) : Prop := min_int64 <= z <= max_int64.

Definition in_int64b (z : Z) : bool := (min_int64 <=? z) && (z <=? max_int64).

(** Go's two's complement wrap-around of [int64] arithmetic. *)
Definition wrap64 (z : Z) : Z := (z + 2 ^ 63) mod 2 ^ 64 - 2 ^ 63.

Lemma wrap64_range z : in_int64 (wrap64 z).
Proof.
  unfold in_int64, wrap64, min_int64, max_int64.
  pose proof (Z.mod_pos_bound (z + 2 ^ 63) (2 ^ 64) ltac:(lia)). lia.
Qed.

Lemma wrap64_id z : in_int64 z -> wrap64 z = z.
Proof.
  unfold in_int64, wrap64, min_int64, max_int64. intros H.
  rewrite Z.mod_small; lia.
Qed.

Lemma wrap64_idemp z : wrap64 (wrap64 z) = wrap64 z.
Proof. apply wrap64_id, wrap64_range. Qed.

Lemma wrap64_cong z : exists k, wrap64 z = z + k * 2 ^ 64.
Proof.
  unfold wrap64. exists (- ((z + 2 ^ 63) / 2 ^ 64)).
  pose proof (Z.div_mod (z + 2 ^ 63) (2 ^ 64) ltac:(lia)). lia.
Qed.

Lemma in_int64b_spec z : in_int64b z = true <-> in_int64 z.
Proof.
  unfold in_int64b, in_int64. rewrite andb_true_iff, !Z.leb_le. tauto.
Qed.

(** ** Byte strings *)

#[global] Arguments String.append !s1 s2 : simpl nomatch.

Fixpoint sdrop (n : nat) (s : string) : string :=
  match n, s with
  | O, _ => s
  | S n, String _ s => sdrop n s
  | S _, EmptyString => EmptyString
  end.

Fixpoint stake (n : nat) (s : string) : string :=
  match n, s with
  | O, _ => EmptyString
  | S n, String c s => String c (stake n s)
  | S _, EmptyString => EmptyString
  end.

(** [strings.HasPrefix(s, p)] *)
Definition HasPrefix (s p : string) : bool := String.prefix p s.

(** [strings.CutPrefix(s, p)] *)
Fixpoint CutPrefix (s p : string) {struct p} : option string :=
  match p, s with
  | EmptyString, _ => Some s
  | String a p', String b s' => if Ascii.eqb a b then CutPrefix s' p' else None
  | String _ _, EmptyString => None
  end.

(** [strings.TrimPrefix(s, p)] *)
Definition TrimPrefix (s p : string) : string :=
  match CutPrefix s p with Some rest => rest | None => s end.

(** [strings.HasSuffix(s, p)] *)
Definition HasSuffix (s p : string) : bool :=
  (String.length p <=? String.length s)%nat &&
  String.eqb (sdrop (String.length s - String.length p) s) p.

(** [strings.TrimSuffix(s, p)] *)
Definition TrimSuffix (s p : string) : string :=
  if HasSuffix s p then stake (String.length s - String.length p) s else s.

Lemma CutPrefix_app p s : CutPrefix (p +:+ s) p = Some s.
Proof.
  induction p as [|a p IH]; [reflexivity|].
  simpl. rewrite Ascii.eqb_refl. exact IH.
Qed.

Lemma CutPrefix_Some s p rest : CutPrefix s p = Some rest <-> s = p +:+ rest.
Proof.
  split; [|intros ->; apply CutPrefix_app].
  revert s. induction p as [|a p IH]; intros s; simpl; [intros [= ->]; reflexivity|].
  destruct s as [|b s]; [discriminate|].
  destruct (Ascii.eqb_spec a b) as [->|]; [|discriminate].
  intros H. apply IH in H. subst s. reflexivity.
Qed.

Lemma HasPrefix_CutPrefix s p : HasPrefix s p = bool_decide (is_Some (CutPrefix s p)).
Proof.
  unfold HasPrefix. revert s. induction p as [|a p IH]; intros s; cbn [String.prefix CutPrefix].
  { destruct s; reflexivity. }
  destruct s as [|b s]; [reflexivity|]. cbn [String.prefix].
  destruct (Ascii.eqb_spec a b) as [->|Hne].
  - destruct (ascii_dec b b) as [_|]; [apply IH | congruence].
  - destruct (ascii_dec a b); [congruence | reflexivity].
Qed.

Lemma HasPrefix_true s p : HasPrefix s p = true <-> exists rest, s = p +:+ rest.
Proof.
  rewrite HasPrefix_CutPrefix, bool_decide_eq_true.
  split; intros [rest H]; exists rest; apply CutPrefix_Some; auto.
Qed.

(** [for pos < len(s) && p(s[pos]) { pos++ }]: the bytes passed and the rest. *)
Fixpoint sspan (p : ascii -> bool) (s : string) : string * string :=
  match s with
  | EmptyString => (EmptyString, EmptyString)
  | String c rest =>
      if p c then (String c (fst (sspan p rest)), snd (sspan p rest)) else (EmptyString, s)
  end.

Fixpoint sall (p : ascii -> bool) (s : string) : bool :=
  match s with
  | EmptyString => true
  | String c rest => p c && sall p rest
  end.

Definition starts (p : ascii -> bool) (s : string) : bool :=
  match s with EmptyString => false | String c _ => p c end.

Lemma sspan_app p a rest :
  sall p a = true -> starts p rest = false -> sspan p (a +:+ rest) = (a, rest).
Proof.
  intros Ha Hr. induction a as [|c a IH]; cbn [append sall sspan] in *.
  - destruct rest as [|c rest]; [reflexivity|]. cbn [starts sspan] in *. rewrite Hr. reflexivity.
  - apply andb_true_iff in Ha as [Hc Ha]. cbn [sspan]. rewrite Hc, IH by exact Ha. reflexivity.
Qed.

Lemma sspan_eq p s : s = fst (sspan p s) +:+ snd (sspan p s).
Proof.
  induction s as [|c s IH]; simpl; [reflexivity|].
  destruct (p c); cbn [fst snd append]; [f_equal; exact IH | reflexivity].
Qed.

Lemma sspan_all p s : sall p (fst (sspan p s)) = true.
Proof.
  induction s as [|c s IH]; simpl; [reflexivity|].
  destruct (p c) eqn:Hc; simpl; [rewrite Hc; exact IH | reflexivity].
Qed.

Lemma sspan_starts p s : starts p (snd (sspan p s)) = false.
Proof. induction s as [|c s IH]; simpl; [reflexivity|]. destruct (p c) eqn:Hc; simpl; auto. Qed.

Lemma slength_app a b : String.length (a +:+ b) = (String.length a + String.length b)%nat.
Proof. induction a as [|c a IH]; cbn [append String.length]; [reflexivity|]. simpl. f_equal. exact IH. Qed.

Lemma sapp_assoc a b c : (a +:+ b) +:+ c = a +:+ (b +:+ c).
Proof. induction a as [|x a IH]; cbn [append]; [reflexivity|]. f_equal. exact IH. Qed.

Lemma sapp_nil_r s : s +:+ EmptyString = s.
Proof. induction s as [|x s IH]; cbn [append]; [reflexivity|]. f_equal. exact IH. Qed.

Lemma sall_app p a b : sall p (a +:+ b) = sall p a && sall p b.
Proof. induction a as [|c a IH]; cbn [append sall]; [reflexivity|]. rewrite IH. apply andb_assoc. Qed.

Lemma sspan_length p s : (String.length (snd (sspan p s)) <= String.length s)%nat.
Proof. rewrite (sspan_eq p s) at 2. rewrite slength_app. lia. Qed.

(** ** [strconv.ParseInt(s, 10, 64)] and [strconv.FormatInt(n, 10)] *)

Definition is_digit (c : ascii) : bool :=
  let n := nat_of_ascii c in (48 <=? n)%nat && (n <=? 57)%nat.

Definition digit_val (c : ascii) : Z := Z.of_nat (nat_of_ascii c) - 48.

Definition digit_char (d : Z) : ascii := ascii_of_nat (Z.to_nat (d + 48)).

(** The digit loop of [ParseUint]: [None] is a syntax error. *)
Fixpoint parse_digits (acc : Z) (s : string) : option Z :=
  match s with
  | EmptyString => Some acc
  | String c rest => if is_digit c then parse_digits (acc * 10 + digit_val c) rest else None
  end.

Definition parse_uint (s : string) : option Z :=
  match s with EmptyString => None | _ => parse_digits 0 s end.

(** The sign and the range check of [ParseInt]. *)
Definition signed_value (neg : bool) (u : option Z) : option Z :=
  match u with
  | Some n =>
      let v := if neg then - n else n in
      if in_int64b v then Some v else None
  | None => None
  end.

(** [None] stands for both of Go's errors, syntax and range. *)
Definition ParseInt (s : string) : option Z :=
  match s with
  | String c rest =>
      if Ascii.eqb c "+" then signed_value false (parse_uint rest)
      else if Ascii.eqb c "-" then signed_value true (parse_uint rest)
      else signed_value false (parse_uint s)
  | EmptyString => None
  end.

(** The digits of [n >= 0] in front of [acc], least significant last. *)
Fixpoint format_digits (fuel : nat) (n : Z) (acc : string) : string :=
  match fuel with
  | O => acc
  | S fuel =>
      let acc := String (digit_char (n mod 10)) acc in
      if n / 10 =? 0 then acc else format_digits fuel (n / 10) acc
  end.

Definition format_uint (n : Z) : string :=
  format_digits (S (Z.to_nat (Z.log2 n))) n EmptyString.

Definition FormatInt (n : Z) : string :=
  if n <? 0 then String "-" (format_uint (- n)) else format_uint n.

(** ** [strconv.ParseUint(s, 10, bits)] and base 0

    A base of 0 takes the base from the prefix of the text, [0x], [0o], [0b] or a
    leading [0] for octal, and allows underscores between digits. *)

Definition charCode (c : ascii) : Z := Z.of_nat (nat_of_ascii c).

(** [lower(c)] *)
Definition lowerCode (c : ascii) : Z := Z.lor (charCode c) 32.

Definition within (bits : Z) (u : option Z) : option Z :=
  match u with Some n => if n <? 2 ^ bits then Some n else None | None => None end.

(** [strconv.ParseUint(s, 10, bits)] *)
Definition ParseUint (s : string) (bits : Z) : option Z := within bits (parse_uint s).

(** The prefix of base 0: the base, and the digits. *)
Definition cutBase (s : string) : Z * string :=
  match s with
  | String "0" rest =>
      match rest with
      | String x (String _ _ as digits) =>
          if lowerCode x =? 98 then (2, digits)
          else if lowerCode x =? 111 then (8, digits)
          else if lowerCode x =? 120 then (16, digits)
          else (8, rest)
      | _ => (8, rest)
      end
  | _ => (10, s)
  end.

(** The digit loop, which passes underscores over. *)
Fixpoint base_digits (base acc : Z) (s : string) : option Z :=
  match s with
  | EmptyString => Some acc
  | String c rest =>
      if Ascii.eqb c "_" then base_digits base acc rest else
      let digit :=
        if is_digit c then Some (digit_val c)
        else if (97 <=? lowerCode c) && (lowerCode c <=? 122) then Some (lowerCode c - 97 + 10)
        else None in
      match digit with
      | Some d => if base <=? d then None else base_digits base (acc * base + d) rest
      | None => None
      end
  end.

(** What [underscoreOK] last saw: nothing, a digit, an underscore, another character. *)
Inductive sawChar : Type := sawStart | sawDigit | sawUnderscore | sawOther.

Fixpoint underscores_ok (hex : bool) (saw : sawChar) (s : string) : bool :=
  match s with
  | EmptyString => match saw with sawUnderscore => false | _ => true end
  | String c rest =>
      if is_digit c || (hex && (97 <=? lowerCode c) && (lowerCode c <=? 102))
      then underscores_ok hex sawDigit rest
      else if Ascii.eqb c "_" then
        match saw with sawDigit => underscores_ok hex sawUnderscore rest | _ => false end
      else match saw with sawUnderscore => false | _ => underscores_ok hex sawOther rest end
  end.

(** [underscoreOK(s)] *)
Definition underscoreOK (s : string) : bool :=
  let s := match s with
           | String c rest => if Ascii.eqb c "-" || Ascii.eqb c "+" then rest else s
           | EmptyString => s
           end in
  match s with
  | String "0" (String x rest) =>
      if (lowerCode x =? 98) || (lowerCode x =? 111) || (lowerCode x =? 120)
      then underscores_ok (lowerCode x =? 120) sawDigit rest
      else underscores_ok false sawStart s
  | _ => underscores_ok false sawStart s
  end.

(** [strconv.ParseUint(s, 0, bits)] *)
Definition ParseUint0 (s : string) (bits : Z) : option Z :=
  match s with
  | EmptyString => None
  | _ =>
      let (base, digits) := cutBase s in
      if negb (sall (fun c => negb (Ascii.eqb c "_")) s) && negb (underscoreOK s) then None
      else within bits (base_digits base 0 digits)
  end.

(** [strconv.ParseInt(s, 0, 64)] *)
Definition ParseInt0 (s : string) : option Z :=
  match s with
  | String c rest =>
      if Ascii.eqb c "+" then signed_value false (ParseUint0 rest 64)
      else if Ascii.eqb c "-" then signed_value true (ParseUint0 rest 64)
      else signed_value false (ParseUint0 s 64)
  | EmptyString => None
  end.

Lemma digit_char_digit d : 0 <= d < 10 -> is_digit (digit_char d) = true /\ digit_val (digit_char d) = d.
Proof.
  intros H. assert (d = 0 \/ d = 1 \/ d = 2 \/ d = 3 \/ d = 4 \/ d = 5 \/ d = 6 \/ d = 7 \/ d = 8 \/ d = 9) by lia.
  repeat (destruct H0 as [->|H0]; [vm_compute; auto|]). subst; vm_compute; auto.
Qed.

Lemma log2_div10 n : 10 <= n -> (Z.to_nat (Z.log2 (n / 10)) < Z.to_nat (Z.log2 n))%nat.
Proof.
  intros H.
  assert (0 < n / 10) by (apply Z.div_str_pos; lia).
  assert (Z.log2 (n / 10) < Z.log2 n).
  { apply Z.log2_lt_pow2; [lia|].
    pose proof (Z.log2_spec n ltac:(lia)) as [_ Hub].
    rewrite Z.pow_succ_r in Hub by apply Z.log2_nonneg.
    apply Z.div_lt_upper_bound; [lia|].
    pose proof (Z.log2_nonneg n).
    pose proof (Z.pow_pos_nonneg 2 (Z.log2 n) ltac:(lia) ltac:(lia)). lia. }
  pose proof (Z.log2_nonneg (n / 10)). lia.
Qed.

(** Reading back what [format_digits] wrote continues with the rest. *)
Lemma parse_format_digits fuel n acc :
  0 <= n -> (Z.to_nat (Z.log2 n) < fuel)%nat ->
  parse_digits 0 (format_digits fuel n acc) = parse_digits n acc /\
  exists c rest, format_digits fuel n acc = String c rest /\ is_digit c = true.
Proof.
  revert n acc. induction fuel as [|fuel IH]; intros n acc Hn Hf; [lia|].
  cbn [format_digits]. set (acc' := String (digit_char (n mod 10)) acc).
  destruct (digit_char_digit (n mod 10)) as [Hd Hv]; [apply Z.mod_pos_bound; lia|].
  assert (Hstep : forall a, parse_digits a acc' = parse_digits (a * 10 + n mod 10) acc).
  { intros a. unfold acc'. simpl. rewrite Hd, Hv. reflexivity. }
  destruct (Z.eqb_spec (n / 10) 0) as [Hz|Hnz].
  - split.
    + rewrite Hstep. f_equal. pose proof (Z.div_mod n 10 ltac:(lia)). lia.
    + unfold acc'. eauto.
  - assert (10 <= n).
    { destruct (Z.le_gt_cases 10 n); [assumption|]. rewrite Z.div_small in Hnz; lia. }
    destruct (IH (n / 10) acc') as (Hk & Hc).
    { apply Z.div_pos; lia. }
    { pose proof (log2_div10 n ltac:(lia)). lia. }
    split; [|exact Hc].
    rewrite Hk, Hstep. f_equal. pose proof (Z.div_mod n 10 ltac:(lia)). lia.
Qed.

Lemma format_uint_spec n :
  0 <= n ->
  parse_uint (format_uint n) = Some n /\
  exists c rest, format_uint n = String c rest /\ is_digit c = true.
Proof.
  intros Hn. unfold format_uint.
  destruct (parse_format_digits (S (Z.to_nat (Z.log2 n))) n EmptyString Hn ltac:(lia))
    as (Hp & c & rest & Hc & Hd).
  split; [|eauto]. unfold parse_uint. rewrite Hc in Hp |- *. exact Hp.
Qed.

Lemma sall_format_digits fuel n acc :
  0 <= n -> sall is_digit acc = true -> sall is_digit (format_digits fuel n acc) = true.
Proof.
  revert n acc. induction fuel as [|fuel IH]; intros n acc Hn Hacc; [exact Hacc|].
  cbn [format_digits].
  destruct (digit_char_digit (n mod 10)) as [Hd _]; [apply Z.mod_pos_bound; lia|].
  assert (Hacc' : sall is_digit (String (digit_char (n mod 10)) acc) = true).
  { simpl. rewrite Hd, Hacc. reflexivity. }
  destruct (n / 10 =? 0); [exact Hacc'|]. apply IH; [apply Z.div_pos; lia | exact Hacc'].
Qed.

Lemma sall_format_uint n : 0 <= n -> sall is_digit (format_uint n) = true.
Proof. intros Hn. apply sall_format_digits; auto. Qed.

(** [ParseInt] reads back what [FormatInt] wrote. *)
Lemma ParseInt_FormatInt n : in_int64 n -> ParseInt (FormatInt n) = Some n.
Proof.
  intros H. pose proof (proj2 (in_int64b_spec n) H) as Hb.
  unfold FormatInt. destruct (Z.ltb_spec n 0) as [Hneg|Hpos].
  - destruct (format_uint_spec (- n)) as [Hp _]; [lia|].
    unfold ParseInt, signed_value. simpl. rewrite Hp, Z.opp_involutive, Hb. reflexivity.
  - destruct (format_uint_spec n Hpos) as [Hp (c & rest & Hc & Hd)].
    unfold ParseInt, signed_value. rewrite Hc in Hp |- *.
    destruct (Ascii.eqb_spec c "+") as [->|_]; [discriminate Hd|].
    destruct (Ascii.eqb_spec c "-") as [->|_]; [discriminate Hd|].
    rewrite Hp, Hb. reflexivity.
Qed.

Lemma signed_value_range neg u n : signed_value neg u = Some n -> in_int64 n.
Proof.
  destruct u as [m|]; simpl; [|discriminate]. step_if; [|discriminate].
  intros [= <-]. apply in_int64b_spec. assumption.
Qed.

Lemma ParseInt_range s n : ParseInt s = Some n -> in_int64 n.
Proof.
  destruct s as [|c rest]; simpl; [discriminate|].
  repeat step_if; apply signed_value_range.
Qed.

Lemma parse_digits_nonneg s acc n : 0 <= acc -> parse_digits acc s = Some n -> 0 <= n.
Proof.
  revert acc. induction s as [|c s IH]; intros acc Ha H; simpl in H; [congruence|].
  destruct (is_digit c) eqn:Hd; [|discriminate]. eapply IH; [|exact H].
  unfold is_digit in Hd. rewrite andb_true_iff, !Nat.leb_le in Hd. unfold digit_val. lia.
Qed.

Lemma ParseInt_digit_nonneg s n : starts is_digit s = true -> ParseInt s = Some n -> 0 <= n.
Proof.
  destruct s as [|c s]; [discriminate|]. cbn [starts]. intros Hd H. unfold ParseInt in H.
  destruct (Ascii.eqb_spec c "+") as [->|_]; [discriminate Hd|].
  destruct (Ascii.eqb_spec c "-") as [->|_]; [discriminate Hd|].
  unfold signed_value, parse_uint in H. destruct (parse_digits 0 (String c s)) as [m|] eqn:Hp; [|discriminate].
  apply parse_digits_nonneg in Hp; [|lia]. cbv zeta in H. destruct (in_int64b m); [congruence | discriminate].
Qed.

Lemma FormatInt_inj n m : in_int64 n -> in_int64 m -> FormatInt n = FormatInt m -> n = m.
Proof.
  intros Hn Hm H. apply ParseInt_FormatInt in Hn, Hm. rewrite H in Hn. congruence.
Qed.

#[export] Hint Resolve wrap64_range wrap64_id ParseInt_FormatInt ParseInt_range : kizu.
