(* ===== verification/IR.v ===== *)
(** * The IR data model ([internal/ir/ir.go], parts of [helpers.go])

    A module is a list of functions, a function a list of basic blocks, a
    block a list of instructions and one terminator.  Operations and types are
    the strings the compiler writes.  An instruction is a value here: the Go
    code shares [*Instr] pointers only inside the one block that holds them,
    so a pass that mutates an instruction in place is a pass that returns the
    block with the changed instruction at the same index. *)

From stdpp Require Import base list strings gmap.
From Stdlib Require Import ZArith String.
From S2P Require Import Prelude GoStd.

#[local] Open Scope string_scope.

(** A source position range.  Passes only carry it. *)
Record Span : Type := mkSpan { spanSource : Z; spanStart : Z * Z; spanEnd : Z * Z }.

(** A named, typed SSA value. *)
Record Value : Type := mkValue { vName : string; vType : string }.

Definition noValue : Value := mkValue "" "".

(** How a call hands over one parameter. *)
Inductive Passing : Type := PassValue | PassCallerStorage | PassCopyAddress.

Record Param : Type := mkParam { pName : string; pType : string; pPassing : Passing }.

Record FieldArg : Type := mkFieldArg { faName : string; faValue : Value }.

Record Incoming : Type := mkIncoming { inBlock : string; inValue : Value }.

(** [clReceiver] stands for the AST node a cleanup was written on: only the
    identity of the node is read, and only while lowering. *)
Record Cleanup : Type := mkCleanup {
  clOp : string;
  clArgs : list Value;
  clLoads : list bool;
  clExternABI : string;
  clExternName : string;
  clCallParams : list Param;
  clVariadicFixed : Z;
  clOnError : bool;
  clReceiver : option Z
}.

Record Instr : Type := mkInstr {
  iResult : Value;
  iOp : string;
  iArgs : list Value;
  iExternABI : string;
  iExternName : string;
  iCallParams : list Param;
  iVariadicFixed : Z;
  iImmediate : string;
  iFields : list FieldArg;
  iIncoming : list Incoming;
  iCleanups : list Cleanup;
  iSpan : option Span
}.

Record Terminator : Type := mkTerminator {
  tOp : string;
  tValue : Value;
  tCond : Value;
  tTarget : string;
  tElse : string
}.

Record Block : Type := mkBlock {
  bName : string;
  bInstrs : list Instr;
  bTerminator : Terminator
}.

Record Function : Type := mkFunction {
  fName : string;
  fParams : list Param;
  fReturn : string;
  fBlocks : list Block;
  fExportABI : string;
  fExportName : string
}.

Record Field : Type := mkField { fieldName : string; fieldType : string }.

Record Struct : Type := mkStruct { sName : string; sFields : list Field }.

Record Enum : Type := mkEnum {
  eName : string;
  eTags : gmap string Z;
  eOrigins : list string
}.

Record UnionVariant : Type := mkUnionVariant {
  uvName : string;
  uvIndex : Z;
  uvPayload : string
}.

Record Union : Type := mkUnion { uName : string; uVariants : gmap string UnionVariant }.

Record Extern : Type := mkExtern { exABI : string; exLibrary : string; exFramework : string }.

Record Module_ : Type := mkModule {
  mStructs : gmap string Struct;
  mEnums : gmap string Enum;
  mErrorSets : gmap string Enum;
  mUnions : gmap string Union;
  mFunctions : list Function;
  mExterns : gmap string Extern
}.

#[export] Instance Value_eq_dec : EqDecision Value.
Proof. solve_decision. Defined.
#[export] Instance Passing_eq_dec : EqDecision Passing.
Proof. solve_decision. Defined.
#[export] Instance Param_eq_dec : EqDecision Param.
Proof. solve_decision. Defined.
#[export] Instance Incoming_eq_dec : EqDecision Incoming.
Proof. solve_decision. Defined.

(** ** Small operations *)

(** [Terminator.Successors]: the targets that are named, in order. *)
Definition Successors (t : Terminator) : list string :=
  filter (fun target => target <> "") [tTarget t; tElse t].

(** [Param.Value] *)
Definition paramValue (p : Param) : Value := mkValue (pName p) (pType p).

(** [derefType]: [T] for [&T] and [&var T]. *)
Definition derefType (name : string) : string :=
  if HasPrefix name "&var " then TrimPrefix name "&var "
  else if HasPrefix name "&" then TrimPrefix name "&"
  else name.

(** [Param.TakesAddressOf] *)
Definition TakesAddressOf (p : Param) (argType : string) : bool :=
  bool_decide (pPassing p = PassCopyAddress) &&
  negb (String.eqb (pType p) argType) &&
  String.eqb (derefType (pType p)) argType.

(** ** Functional updates: what a pass writes through a pointer *)

Definition set_iArgs (f : list Value -> list Value) (i : Instr) : Instr :=
  mkInstr (iResult i) (iOp i) (f (iArgs i)) (iExternABI i) (iExternName i) (iCallParams i)
    (iVariadicFixed i) (iImmediate i) (iFields i) (iIncoming i) (iCleanups i) (iSpan i).

Definition set_iIncoming (f : list Incoming -> list Incoming) (i : Instr) : Instr :=
  mkInstr (iResult i) (iOp i) (iArgs i) (iExternABI i) (iExternName i) (iCallParams i)
    (iVariadicFixed i) (iImmediate i) (iFields i) (f (iIncoming i)) (iCleanups i) (iSpan i).

(** [instr.Op = "const"; instr.Args = nil; instr.Immediate = text] *)
Definition become_const (text : string) (i : Instr) : Instr :=
  mkInstr (iResult i) "const" [] (iExternABI i) (iExternName i) (iCallParams i)
    (iVariadicFixed i) text (iFields i) (iIncoming i) (iCleanups i) (iSpan i).

Definition set_bInstrs (f : list Instr -> list Instr) (b : Block) : Block :=
  mkBlock (bName b) (f (bInstrs b)) (bTerminator b).

Definition set_bTerminator (f : Terminator -> Terminator) (b : Block) : Block :=
  mkBlock (bName b) (bInstrs b) (f (bTerminator b)).

Definition set_fBlocks (f : list Block -> list Block) (fn : Function) : Function :=
  mkFunction (fName fn) (fParams fn) (fReturn fn) (f (fBlocks fn)) (fExportABI fn) (fExportName fn).

Definition set_mFunctions (f : list Function -> list Function) (m : Module_) : Module_ :=
  mkModule (mStructs m) (mEnums m) (mErrorSets m) (mUnions m) (f (mFunctions m)) (mExterns m).

Definition set_mErrorSets (f : gmap string Enum -> gmap string Enum) (m : Module_) : Module_ :=
  mkModule (mStructs m) (mEnums m) (f (mErrorSets m)) (mUnions m) (mFunctions m) (mExterns m).

(** A plain instruction, as the passes and the witnesses write them. *)
Definition instr (r : Value) (op : string) (args : list Value) (imm : string) : Instr :=
  mkInstr r op args "" "" [] 0 imm [] [] [] None.

Definition phi (r : Value) (inc : list Incoming) : Instr :=
  mkInstr r "phi" [] "" "" [] 0 "" [] inc [] None.

Definition jump (target : string) : Terminator :=
  mkTerminator "jump" noValue noValue target "".

Definition branch (cond : Value) (target els : string) : Terminator :=
  mkTerminator "branch" noValue cond target els.

Definition ret (v : Value) : Terminator := mkTerminator "return" v noValue "" "".

Lemma elem_of_Successors t s :
  s ∈ Successors t <-> s <> "" /\ (s = tTarget t \/ s = tElse t).
Proof.
  unfold Successors. rewrite list_elem_of_filter, !elem_of_cons, elem_of_nil. tauto.
Qed.
