(* ===== verification/Cfg.v ===== *)
(** * Control flow of one function ([internal/ir/verify.go])

    Block positions, predecessors, reverse postorder and the dominator tree
    (the Cooper-Harvey-Kennedy iteration).  [None] is a Go panic (an index out
    of range, which an [idom] of -1 would give) or a loop that ran out of its
    bound; [CfgFacts] and [Dominators] show neither happens.  A function without
    blocks is outside their statements: [reversePostorder] marks block 0 before
    it looks for it, which panics in Go, and every caller checks first. *)

From stdpp Require Import base list strings gmap.
From S2P Require Import Prelude GoStd IR.

(** [at]: the position of each block by name; a later block of the same name
    wins, as the map assignment does. *)
Fixpoint blockIndexFrom (i : nat) (blocks : list Block) (at_ : gmap string nat) : gmap string nat :=
  match blocks with
  | [] => at_
  | block :: rest => blockIndexFrom (S i) rest (<[bName block := i]> at_)
  end.

Definition blockIndex (fn : Function) : gmap string nat := blockIndexFrom 0 (fBlocks fn) ∅.

(** The positions a block's terminator can reach. *)
Definition succPositions (fn : Function) (at_ : gmap string nat) (position : nat) : list nat :=
  match fBlocks fn !! position with
  | Some block => omap (fun target => at_ !! target) (Successors (bTerminator block))
  | None => []
  end.

(** [blockPredecessors] *)
Definition addEdge (position : nat) (preds : list (list nat)) (to : nat) : list (list nat) :=
  alter (fun l => l ++ [position]) to preds.

Definition blockPredecessors (fn : Function) (at_ : gmap string nat) : list (list nat) :=
  foldl (fun preds position => foldl (addEdge position) preds (succPositions fn at_ position))
        (replicate (length (fBlocks fn)) [])
        (seq 0 (length (fBlocks fn))).

(** [reversePostorder]: the closure [visit] over [visited] and [order]. *)
Fixpoint visit (fuel : nat) (succs : nat -> list nat) (position : nat)
    (st : list bool * list nat) : list bool * list nat :=
  match fuel with
  | O => st
  | S fuel =>
      match fst st !! position with
      | Some false =>
          let st' := foldl (fun st to => visit fuel succs to st)
                           (<[position := true]> (fst st), snd st) (succs position) in
          (fst st', snd st' ++ [position])
      | _ => st
      end
  end.

Definition reversePostorder (fn : Function) : list nat :=
  let n := length (fBlocks fn) in
  reverse (snd (visit (S n) (succPositions fn (blockIndex fn)) 0 (replicate n false, []))).

(** [dominatorTree]: [None] in [place] and [idom] is the Go code's -1. *)
Record dominatorTree : Type := mkTree {
  place : list (option nat);
  idom : list (option nat)
}.

(** One step up the tree, [d.idom[i]]. *)
Definition parent (idom : list (option nat)) (i : nat) : option nat := mjoin (idom !! i).

(** [for from > bound { from = d.idom[from] }] *)
Fixpoint climb (fuel : nat) (idom : list (option nat)) (from bound : nat) : option nat :=
  if decide (bound < from) then
    match fuel with
    | O => None
    | S fuel =>
        match parent idom from with
        | Some up => climb fuel idom up bound
        | None => None
        end
    end
  else Some from.

(** [dominatorTree.meet] *)
Fixpoint meetLoop (fuel : nat) (idom : list (option nat)) (left right : nat) : option nat :=
  if decide (left = right) then Some left
  else match fuel with
  | O => None
  | S fuel =>
      match climb left idom left right with
      | Some left' =>
          match climb right idom right left' with
          | Some right' => meetLoop fuel idom left' right'
          | None => None
          end
      | None => None
      end
  end.

Definition meet (idom : list (option nat)) (left right : nat) : option nat :=
  meetLoop (left + right) idom left right.

(** The loop over one block's predecessors: the meet of the ones whose
    immediate dominator is known. *)
Definition meetPred (place idom : list (option nat)) (acc : option nat) (pred : nat)
  : option (option nat) :=
  match mjoin (place !! pred) with
  | None => Some acc
  | Some at_ =>
      match parent idom at_ with
      | None => Some acc
      | Some _ =>
          match acc with
          | None => Some (Some at_)
          | Some m => Some <$> meet idom m at_
          end
      end
  end.

Fixpoint meetPreds (place idom : list (option nat)) (acc : option nat) (preds : list nat)
  : option (option nat) :=
  match preds with
  | [] => Some acc
  | pred :: rest => acc' ← meetPred place idom acc pred; meetPreds place idom acc' rest
  end.

(** One position of the pass: [if meet >= 0 && tree.idom[position] != meet]. *)
Definition improve (place : list (option nat)) (order : list nat) (preds : list (list nat))
    (position : nat) (st : list (option nat) * bool) : option (list (option nat) * bool) :=
  m ← meetPreds place (fst st) None (default [] (order !! position ≫= (preds !!.)));
  match m with
  | None => Some st
  | Some m =>
      if decide (parent (fst st) position = Some m) then Some st
      else Some (<[position := Some m]> (fst st), true)
  end.

Fixpoint improveAll (place : list (option nat)) (order : list nat) (preds : list (list nat))
    (positions : list nat) (st : list (option nat) * bool) : option (list (option nat) * bool) :=
  match positions with
  | [] => Some st
  | position :: rest =>
      st' ← improve place order preds position st;
      improveAll place order preds rest st'
  end.

(** [for changed := true; changed; { ... }] *)
Fixpoint iterate (fuel : nat) (place : list (option nat)) (order : list nat)
    (preds : list (list nat)) (idom : list (option nat)) : option (list (option nat)) :=
  match fuel with
  | O => None
  | S fuel =>
      match improveAll place order preds (seq 1 (length order - 1)) (idom, false) with
      | Some (idom', changed) =>
          if changed : bool then iterate fuel place order preds idom' else Some idom'
      | None => None
      end
  end.

(** [tree.place[position] = at] for each block of the order. *)
Definition placeOf (n : nat) (order : list nat) : list (option nat) :=
  foldl (fun (place : list (option nat)) (entry : nat * nat) =>
           <[entry.2 := Some entry.1]> place)
        (replicate n None) (imap (fun at_ position : nat => (at_, position)) order).

(** Passes the iteration may take: [Dominators] shows they are enough. *)
Definition passBound (n : nat) : nat := n * n + 3.

Definition buildDominatorTree (fn : Function) (preds : list (list nat)) : option dominatorTree :=
  let order := reversePostorder fn in
  let n := length order in
  let place := placeOf (length (fBlocks fn)) order in
  match order with
  | [] => Some (mkTree place [])
  | _ :: _ =>
      idom ← iterate (passBound n) place order preds (<[0 := Some 0]> (replicate n None));
      Some (mkTree place idom)
  end.

(** [dominatorTree.dominates] *)
Fixpoint walkUp (fuel : nat) (idom : list (option nat)) (at_ target : nat) : option bool :=
  if decide (at_ = target) then Some true
  else match parent idom at_ with
  | None => None
  | Some next =>
      if decide (next = at_) then Some false
      else match fuel with
      | O => None
      | S fuel => walkUp fuel idom next target
      end
  end.

Definition dominates (d : dominatorTree) (dominator block : nat) : option bool :=
  match mjoin (place d !! block) with
  | None => Some true
  | Some at_ =>
      match mjoin (place d !! dominator) with
      | None => Some false
      | Some target => walkUp at_ (idom d) at_ target
      end
  end.
