(* ===== verification/Dominators.v ===== *)
(** * The dominator iteration, over reverse-postorder indices

    The tree is studied by the set of ancestors of each index.  One pass of
    the iteration visits the indices in increasing order; the invariant [Inv]
    says the ancestors of every index only ever shrink, which bounds the number
    of passes, and that they always include the true dominators. *)

From stdpp Require Import base list.
From Stdlib Require Import Lia Wf_nat.
From S2P Require Import Prelude IR Cfg.

(** ** Trees of parents that decrease *)

(** The first [N] indices have a parent, and only the root is its own. *)
Record tree_upto (N : nat) (idom : list (option nat)) : Prop := {
  tree_pos : 0 < N;
  tree_root : parent idom 0 = Some 0;
  tree_lt q : 0 < q < N -> exists j, parent idom q = Some j /\ j < q;
  tree_none q : N <= q -> parent idom q = None
}.

(** [anc idom z x]: [z] is [x] or one of its ancestors. *)
Inductive anc (idom : list (option nat)) (z : nat) : nat -> Prop :=
  | anc_refl : is_Some (parent idom z) -> anc idom z z
  | anc_up x y : parent idom x = Some y -> anc idom z y -> anc idom z x.

Section Trees.
Context {N : nat} {idom : list (option nat)} (T : tree_upto N idom).

Lemma tree_some q : q < N -> exists j, parent idom q = Some j /\ j <= q.
Proof.
  intros Hq. destruct (decide (q = 0)) as [->|Hne].
  - exists 0. split; [apply T | lia].
  - destruct (tree_lt _ _ T q) as (j & Hj & Hlt); [lia|]. exists j. split; [exact Hj | lia].
Qed.

Lemma tree_bound q j : parent idom q = Some j -> q < N /\ j <= q.
Proof.
  intros Hj. destruct (decide (q < N)) as [Hq|Hq].
  - destruct (tree_some q Hq) as (j' & Hj' & Hle). split; [exact Hq|]. congruence.
  - rewrite (tree_none _ _ T q) in Hj by lia. discriminate.
Qed.

Lemma anc_self x : x < N -> anc idom x x.
Proof. intros Hx. constructor. destruct (tree_some x Hx) as (j & -> & _). eauto. Qed.

Lemma anc_bound z x : anc idom z x -> z <= x /\ x < N.
Proof.
  induction 1 as [[j Hj]|x y Hp _ [IH1 IH2]].
  - apply tree_bound in Hj. lia.
  - apply tree_bound in Hp. lia.
Qed.

Lemma anc_inv z x :
  anc idom z x -> z = x \/ (0 < x /\ exists y, parent idom x = Some y /\ y < x /\ anc idom z y).
Proof.
  intros H. inversion H as [|x' y Hp Hy]; subst; [auto|].
  destruct (decide (x = 0)) as [->|Hx].
  - left. apply anc_bound in H. lia.
  - right. split; [lia|]. exists y. split; [exact Hp|]. split; [|exact Hy].
    destruct (tree_bound _ _ Hp) as [Hb _].
    destruct (tree_lt _ _ T x) as (j & Hj & Hlt); [lia|]. congruence.
Qed.

Lemma anc_trans a b c : anc idom a b -> anc idom b c -> anc idom a c.
Proof. intros Hab. induction 1; [exact Hab | eapply anc_up; eauto]. Qed.

Lemma anc_linear y z x : anc idom y x -> anc idom z x -> y <= z -> anc idom y z.
Proof.
  intros Hy Hz Hle. induction Hz as [_|x j Hp Hz IH]; [exact Hy|].
  apply anc_inv in Hy as [<-|(_ & j' & Hp' & _ & Hy)].
  - pose proof (anc_bound _ _ Hz) as Hb. destruct (tree_bound _ _ Hp) as [_ Hj].
    assert (z = y) as -> by lia. apply anc_self.
    destruct (tree_bound _ _ Hp). lia.
  - apply IH. congruence.
Qed.

Lemma anc_zero x : x < N -> anc idom 0 x.
Proof.
  induction (lt_wf x) as [x _ IH]. intros Hx.
  destruct (decide (x = 0)) as [->|Hne]; [apply anc_self; lia|].
  destruct (tree_lt _ _ T x) as (j & Hj & Hlt); [lia|].
  eapply anc_up; [exact Hj|]. apply IH; lia.
Qed.

Lemma anc_parent z x y : anc idom z x -> parent idom x = Some y -> z = x \/ anc idom z y.
Proof.
  intros Hz Hp. apply anc_inv in Hz as [->|(_ & y' & Hp' & _ & Hy)]; [auto|].
  right. congruence.
Qed.

Lemma climb_spec fuel x bound :
  x < N -> x <= fuel ->
  exists y, climb fuel idom x bound = Some y /\ y <= bound /\ anc idom y x /\
    forall z, z <= bound -> anc idom z x -> anc idom z y.
Proof.
  revert x. induction fuel as [|fuel IH]; intros x Hx Hf; simpl.
  all: destruct (decide (bound < x)) as [Hb|Hb];
    [|exists x; split; [reflexivity|]; split; [lia|]; auto using anc_self].
  - lia.
  - destruct (tree_lt _ _ T x) as (j & Hj & Hlt); [lia|]. rewrite Hj.
    destruct (IH j) as (y & Hc & Hle & Hy & Hz); [lia..|].
    exists y. split; [exact Hc|]. split; [exact Hle|].
    split; [eapply anc_up; eauto|]. intros z Hzb Hzx.
    apply Hz; [exact Hzb|]. destruct (anc_parent z x j Hzx Hj) as [->|]; [lia|assumption].
Qed.

(** [meet] returns the nearest common ancestor. *)
Lemma meetLoop_spec fuel l r :
  l < N -> r < N -> l + r <= fuel ->
  exists m, meetLoop fuel idom l r = Some m /\ m < N /\
    forall z, anc idom z m <-> anc idom z l /\ anc idom z r.
Proof.
  revert l r. induction fuel as [|fuel IH]; intros l r Hl Hr Hf; simpl.
  all: destruct (decide (l = r)) as [->|Hne];
    [exists r; split; [reflexivity|]; split; [exact Hr | tauto]|].
  - lia.
  - destruct (climb_spec l l r Hl ltac:(lia)) as (l' & -> & Hlb & Hla & Hlz).
    destruct (climb_spec r r l' Hr ltac:(lia)) as (r' & -> & Hrb & Hra & Hrz).
    pose proof (anc_bound _ _ Hla). pose proof (anc_bound _ _ Hra).
    destruct (IH l' r') as (m & Hm & HmN & Hz); [lia..|].
    exists m. split; [exact Hm|]. split; [exact HmN|]. intros z. rewrite Hz. split.
    + intros [Ha Hb]. split; eauto using anc_trans.
    + intros [Ha Hb]. pose proof (anc_bound _ _ Ha). pose proof (anc_bound _ _ Hb).
      assert (Hzl' : anc idom z l') by (apply Hlz; [lia | exact Ha]).
      split; [exact Hzl'|]. apply Hrz; [|exact Hb]. apply anc_bound in Hzl'. lia.
Qed.

Lemma meet_spec l r :
  l < N -> r < N ->
  exists m, meet idom l r = Some m /\ m < N /\
    forall z, anc idom z m <-> anc idom z l /\ anc idom z r.
Proof. intros. apply meetLoop_spec; auto. Qed.

(** [walkUp] decides ancestry. *)
Lemma walkUp_spec fuel x target :
  x < N -> x <= fuel ->
  exists b, walkUp fuel idom x target = Some b /\ (b = true <-> anc idom target x).
Proof.
  revert x. induction fuel as [|fuel IH]; intros x Hx Hf; simpl.
  all: destruct (decide (x = target)) as [->|Hne];
    [exists true; split; [reflexivity|]; split; auto using anc_self|].
  - assert (x = 0) as -> by lia. rewrite (tree_root _ _ T). simpl.
    exists false. split; [reflexivity|]. split; [discriminate|].
    intros H. apply anc_bound in H. lia.
  - destruct (decide (x = 0)) as [->|Hx0].
    + rewrite (tree_root _ _ T). simpl. exists false. split; [reflexivity|].
      split; [discriminate|]. intros H. apply anc_bound in H. lia.
    + destruct (tree_lt _ _ T x) as (j & Hj & Hlt); [lia|]. rewrite Hj.
      destruct (decide (j = x)); [lia|].
      destruct (IH j) as (b & Hb & Hiff); [lia..|].
      exists b. split; [exact Hb|]. rewrite Hiff. split.
      * intros H. eapply anc_up; eauto.
      * intros H. destruct (anc_parent _ _ _ H Hj) as [->|]; [congruence|assumption].
Qed.

Lemma anc_dec z x : {anc idom z x} + {~ anc idom z x}.
Proof.
  destruct (decide (x < N)) as [Hx|Hx].
  - destruct (walkUp x idom x z) as [[]|] eqn:Hw.
    + left. destruct (walkUp_spec x x z Hx (le_n x)) as (b & Hb & Hiff).
      apply Hiff. congruence.
    + right. destruct (walkUp_spec x x z Hx (le_n x)) as (b & Hb & Hiff).
      rewrite <- Hiff. congruence.
    + exfalso. destruct (walkUp_spec x x z Hx (le_n x)) as (b & Hb & _). congruence.
  - right. intros H. apply anc_bound in H. lia.
Qed.
End Trees.

(** ** Changing one parent *)

Section Update.
Context {N : nat} {idom : list (option nat)} (T : tree_upto N idom).
Context (p m : nat) (Hp : 0 < p) (HpN : p <= N) (Hlen : p < length idom) (Hm : m < p).

Let idom' := <[p := Some m]> idom.
Let N' := N `max` S p.

Lemma parent_update_ne q : q <> p -> parent idom' q = parent idom q.
Proof. intros Hq. unfold parent, idom'. rewrite list_lookup_insert_ne by congruence. reflexivity. Qed.

Lemma parent_update : parent idom' p = Some m.
Proof. unfold parent, idom'. rewrite list_lookup_insert_eq by exact Hlen. reflexivity. Qed.

Lemma tree_update : tree_upto N' idom'.
Proof.
  unfold N'. split.
  - lia.
  - rewrite parent_update_ne by lia. apply T.
  - intros q Hq. destruct (decide (q = p)) as [->|Hne].
    + exists m. split; [apply parent_update | exact Hm].
    + rewrite parent_update_ne by exact Hne. apply T. lia.
  - intros q Hq. rewrite parent_update_ne by lia. apply T. lia.
Qed.

Let T' := tree_update.

Lemma anc_update_below z x : x < p -> anc idom' z x <-> anc idom z x.
Proof.
  induction (lt_wf x) as [x _ IH]. intros Hx. split; intros H.
  - apply (anc_inv T') in H as [->|(_ & y & Hy & Hlt & H)]; [apply (anc_self T); lia|].
    rewrite parent_update_ne in Hy by lia. apply IH in H; [|lia..]. eapply anc_up; eauto.
  - apply (anc_inv T) in H as [->|(_ & y & Hy & Hlt & H)]; [apply (anc_self T'); unfold N'; lia|].
    apply IH in H; [|lia..]. eapply anc_up; [rewrite parent_update_ne by lia|]; eauto.
Qed.

Lemma anc_update_at z : anc idom' z p <-> z = p \/ anc idom z m.
Proof.
  rewrite <- (anc_update_below z m Hm). split.
  - intros H. apply (anc_parent T') with (y := m) in H; [exact H | apply parent_update].
  - intros [->|H]; [apply (anc_self T'); unfold N'; lia|].
    eapply anc_up; [apply parent_update | exact H].
Qed.

(** Above [p], and along chains that avoid [p], nothing changes. *)
Lemma anc_update_above z x : p <= z -> x <> p -> anc idom' z x <-> anc idom z x.
Proof.
  intros Hz. induction (lt_wf x) as [x _ IH]. intros Hx. split; intros H.
  - pose proof (anc_bound T' _ _ H) as Hb. unfold N' in Hb.
    apply (anc_inv T') in H as [->|(_ & y & Hy & Hlt & H)]; [apply (anc_self T); lia|].
    rewrite parent_update_ne in Hy by lia. eapply anc_up; [exact Hy|].
    destruct (decide (y = p)) as [->|Hyp]; [|apply IH; auto].
    pose proof (anc_bound T' _ _ H). assert (z = p) as -> by lia.
    apply (anc_self T). destruct (tree_bound T _ _ Hy). lia.
  - pose proof (anc_bound T _ _ H) as Hb.
    apply (anc_inv T) in H as [->|(_ & y & Hy & Hlt & H)].
    + apply (anc_self T'). unfold N'. lia.
    + eapply anc_up; [rewrite parent_update_ne by lia; exact Hy|].
      destruct (decide (y = p)) as [->|Hyp]; [|apply IH; auto].
      pose proof (anc_bound T _ _ H). assert (z = p) as -> by lia.
      apply (anc_self T'). unfold N'. lia.
Qed.

Lemma anc_update_avoid z x : ~ anc idom p x -> x <> p -> anc idom' z x <-> anc idom z x.
Proof.
  induction (lt_wf x) as [x _ IH]. intros Hav Hx.
  assert (Hy : forall y, parent idom x = Some y -> y < x -> y <> p /\ ~ anc idom p y).
  { intros y Hy Hlt. split.
    - intros ->. apply Hav. eapply anc_up; [exact Hy|]. apply (anc_self T).
      destruct (tree_bound T _ _ Hy). lia.
    - intros H. apply Hav. eapply anc_up; eauto. }
  split; intros H.
  - pose proof (anc_bound T' _ _ H) as Hb. unfold N' in Hb.
    apply (anc_inv T') in H as [->|(_ & y & Hyp & Hlt & H)]; [apply (anc_self T); lia|].
    rewrite parent_update_ne in Hyp by lia. destruct (Hy y Hyp Hlt) as [H1 H2].
    eapply anc_up; [exact Hyp|]. apply IH; auto.
  - pose proof (anc_bound T _ _ H) as Hb.
    apply (anc_inv T) in H as [->|(_ & y & Hyp & Hlt & H)]; [apply (anc_self T'); unfold N'; lia|].
    destruct (Hy y Hyp Hlt) as [H1 H2].
    eapply anc_up; [rewrite parent_update_ne by lia; exact Hyp|]. apply IH; auto.
Qed.

(** Ancestors below [p] of an index above [p] that has [p] as ancestor. *)
Lemma anc_update_through z x :
  z <= p -> anc idom p x -> x <> p -> anc idom' z x <-> anc idom' z p.
Proof.
  intros Hz Hx Hne. assert (Hpx : anc idom' p x) by (apply anc_update_above; auto).
  split; intros H.
  - eapply (anc_linear T'); eauto.
  - eapply anc_trans; eauto.
Qed.
End Update.

(** ** One pass over the blocks *)

Definition potential (idom : list (option nat)) : nat := sum_list (default 0 <$> idom).

Lemma sum_list_insert (l : list nat) i x y :
  l !! i = Some x -> sum_list (<[i := y]> l) + x = sum_list l + y.
Proof.
  revert i. induction l as [|a l IH]; intros [|i] H; simpl in *; try discriminate.
  - injection H as ->. lia.
  - specialize (IH i H). lia.
Qed.

Lemma potential_insert idom p old m :
  parent idom p = Some old -> potential (<[p := Some m]> idom) + old = potential idom + m.
Proof.
  unfold parent, potential. destruct (idom !! p) as [[o|]|] eqn:Hp; try discriminate.
  simpl. intros [= ->]. rewrite list_fmap_insert. simpl.
  apply sum_list_insert. rewrite list_lookup_fmap, Hp. reflexivity.
Qed.

Lemma potential_bound n idom :
  length idom = n -> (forall q j, parent idom q = Some j -> j < n) -> potential idom <= n * n.
Proof.
  intros Hlen Hb. unfold potential.
  assert (H : forall l : list nat, Forall (fun x => x <= n) l -> sum_list l <= length l * n).
  { induction 1 as [|x l Hx _ IH]; simpl; lia. }
  specialize (H (default 0 <$> idom)). rewrite length_fmap, Hlen in H. apply H.
  apply Forall_forall. intros x Hx. apply list_elem_of_fmap in Hx as (o & -> & Ho).
  destruct o as [j|]; simpl; [|lia].
  apply list_elem_of_lookup in Ho as [q Hq].
  specialize (Hb q j). unfold parent in Hb. rewrite Hq in Hb. specialize (Hb eq_refl). lia.
Qed.

Section Pass.
Context (place : list (option nat)) (order : list nat) (preds : list (list nat)).

(** The predecessors of an index, as indices. *)
Definition predsOf (i : nat) : list nat :=
  omap (fun pred => mjoin (place !! pred)) (default [] (order !! i ≫= (preds !!.))).

(** The indices whose meet an index takes. *)
Definition inMeet (idom : list (option nat)) (ats : list nat) (z : nat) : Prop :=
  forall r, r ∈ ats -> is_Some (parent idom r) -> anc idom z r.

Lemma meetPreds_spec N idom (T : tree_upto N idom) l acc :
  (forall a, acc = Some a -> a < N) ->
  exists res, meetPreds place idom acc l = Some res /\
    (res = None -> acc = None /\
       forall r, r ∈ omap (fun pred => mjoin (place !! pred)) l -> ~ r < N) /\
    (forall m, res = Some m -> m < N /\ forall z,
       anc idom z m <-> (forall a, acc = Some a -> anc idom z a) /\
                        inMeet idom (omap (fun pred => mjoin (place !! pred)) l) z).
Proof.
  revert acc. induction l as [|pred l IH]; intros acc Hacc; simpl.
  { exists acc. split; [reflexivity|]. split.
    - intros ->. split; [reflexivity|]. intros r Hr. inversion Hr.
    - intros m ->. split; [auto|]. intros z. split; [|intros [H _]; auto].
      intros H. split; [intros a [= <-]; exact H | intros r Hr; inversion Hr]. }
  unfold meetPred. destruct (mjoin (place !! pred)) as [at_|] eqn:Hat; simpl; [|apply IH, Hacc].
  destruct (parent idom at_) as [j|] eqn:Hpar; simpl.
  2: { destruct (IH acc Hacc) as (res & Hres & Hnone & Hsome).
       exists res. split; [exact Hres|]. split.
       - intros Hr. destruct (Hnone Hr) as [Ha Hl]. split; [exact Ha|].
         intros r [->|Hr']%elem_of_cons; [|auto].
         intros Hlt. destruct (tree_some T _ Hlt) as (j & Hj & _). congruence.
       - intros m Hm. destruct (Hsome m Hm) as [HmN Hz]. split; [exact HmN|].
         intros z. rewrite (Hz z). split; intros [H1 H2]; (split; [exact H1|]).
         + intros r [->|Hr']%elem_of_cons Hsm; [|auto].
           rewrite Hpar in Hsm. destruct Hsm as [? Hsm]. discriminate.
         + intros r Hr' Hsm. apply H2; [right|]; assumption. }
  destruct (tree_bound T _ _ Hpar) as [HatN _].
  assert (Hacc' : exists a', meetPreds place idom acc (pred :: l) = meetPreds place idom (Some a') l
                   /\ a' < N /\ forall z, anc idom z a' <->
                        (forall a, acc = Some a -> anc idom z a) /\ anc idom z at_).
  { simpl. unfold meetPred. rewrite Hat. simpl. rewrite Hpar.
    destruct acc as [a|].
    - destruct (meet_spec T a at_ (Hacc a eq_refl) HatN) as (m & Hm & HmN & Hz).
      exists m. rewrite Hm. split; [reflexivity|]. split; [exact HmN|].
      intros z. rewrite Hz. split; intros [H1 H2]; split; auto. intros a' [= <-]. exact H1.
    - exists at_. split; [reflexivity|]. split; [exact HatN|].
      intros z. split; [intros H; split; [discriminate|exact H] | tauto]. }
  destruct Hacc' as (a' & Heq & Ha' & Hza). simpl in Heq. unfold meetPred in Heq.
  rewrite Hat in Heq. simpl in Heq. rewrite Hpar in Heq. rewrite Heq.
  destruct (IH (Some a')) as (res & Hres & Hnone & Hsome); [intros a [= <-]; exact Ha'|].
  exists res. split; [exact Hres|]. split.
  - intros Hr. destruct (Hnone Hr) as [? _]. discriminate.
  - intros m Hm. destruct (Hsome m Hm) as [HmN Hz]. split; [exact HmN|].
    intros z. rewrite (Hz z). split.
    + intros [H1 H2]. specialize (H1 a' eq_refl). apply Hza in H1 as [H1 H1'].
      split; [exact H1|]. intros r [->|Hr']%elem_of_cons Hsm; auto.
    + intros [H1 H2]. split.
      * intros a [= <-]. apply Hza. split; [exact H1|]. apply H2; [left | eauto].
      * intros r Hr' Hsm. apply H2; [right|]; assumption.
Qed.

Context (n : nat) (Hn : length order = n).
Context (Hfwd : forall q, 0 < q < n -> exists r, r ∈ predsOf q /\ r < q).
(** A relation closed the way dominance is: it stands for the true one. *)
Context (dom : nat -> nat -> Prop).
Context (dom_root : forall d, dom d 0 -> d = 0).
Context (dom_pred : forall d q r, 0 < q < n -> dom d q -> d <> q -> r ∈ predsOf q -> dom d r).

Record Inv (p N : nat) (idom : list (option nat)) : Prop := {
  inv_len : length idom = n;
  inv_tree : tree_upto N idom;
  (** updating any index can only shrink its ancestors *)
  inv_shrink q : 0 < q < N -> forall z, inMeet idom (predsOf q) z -> anc idom z q;
  (** an ancestor is still one of every forward predecessor's *)
  inv_fresh q y r : 0 < q < N -> anc idom y q -> y <> q -> q < p \/ p <= y ->
    r ∈ predsOf q -> r < q -> anc idom y r;
  inv_dom q d : q < N -> dom d q -> anc idom d q
}.

Definition fixed (idom : list (option nat)) (p : nat) : Prop :=
  exists m, parent idom p = Some m /\ forall z, anc idom z m <-> inMeet idom (predsOf p) z.

(** The index [p] changes its parent to the meet [m] of its predecessors. *)
Section Step.
Context {p N : nat} {old : list (option nat)} {m : nat}.
Context (I : Inv p N old) (Hp : 0 < p < n) (HpN : p <= N <= n).
Context (Hm : m < p) (Hz : forall z, anc old z m <-> inMeet old (predsOf p) z).

Let new := <[p := Some m]> old.
Let T : tree_upto N old := inv_tree _ _ _ I.

Lemma step_len : p < length old.
Proof. rewrite (inv_len _ _ _ I). lia. Qed.

Lemma step_tree : tree_upto (N `max` S p) new.
Proof. apply (tree_update T); try lia. apply step_len. Qed.

Lemma step_below z x : x < p -> anc new z x <-> anc old z x.
Proof. apply (anc_update_below T); try lia. apply step_len. Qed.

Lemma step_at z : anc new z p <-> z = p \/ anc old z m.
Proof. apply (anc_update_at T); try lia. apply step_len. Qed.

Lemma step_above z x : p <= z -> x <> p -> anc new z x <-> anc old z x.
Proof. apply (anc_update_above T); try lia. apply step_len. Qed.

Lemma step_avoid z x : ~ anc old p x -> x <> p -> anc new z x <-> anc old z x.
Proof. apply (anc_update_avoid T); try lia. apply step_len. Qed.

Lemma step_through z x : z <= p -> anc old p x -> x <> p -> anc new z x <-> anc new z p.
Proof. apply (anc_update_through T); try lia. apply step_len. Qed.

Lemma step_some r : r < N -> is_Some (parent new r).
Proof.
  intros Hr. destruct (tree_some step_tree r) as (j & -> & _); [lia | eauto].
Qed.

(** Every index keeps only ancestors it had. *)
Lemma step_mono z x : anc new z x -> x < N -> anc old z x.
Proof.
  intros H Hx.
  assert (Hat : p < N -> forall z, anc new z p -> anc old z p).
  { intros HpltN y [->|Hy]%step_at; [apply (anc_self T), HpltN|].
    apply (inv_shrink _ _ _ I); [lia|]. apply Hz, Hy. }
  destruct (decide (x = p)) as [->|Hne]; [apply Hat; auto|].
  destruct (decide (p <= z)) as [Hpz|Hpz]; [apply step_above; auto|].
  destruct (decide (x < p)) as [Hlt|Hge]; [apply step_below; auto|].
  destruct (anc_dec T p x) as [Hpx|Hpx]; [|apply step_avoid; auto].
  eapply anc_trans; [|exact Hpx]. apply Hat; [lia|].
  apply (step_through z x); auto; lia.
Qed.

(** An ancestor below [p] of an index that goes through [p] survives when a
    forward predecessor kept it: [fresh] makes that one go through [p] too. *)
Lemma step_keep z q r :
  z < p -> p < q < N -> anc old z q -> r ∈ predsOf q -> r < q -> anc new z r -> anc new z q.
Proof.
  intros Hzp Hq Hzq Hr Hrq Hzr.
  destruct (anc_dec T p q) as [Hpq|Hpq]; [|apply step_avoid; auto; lia].
  assert (Hpr : anc old p r) by (apply (inv_fresh _ _ _ I q p r); auto; lia).
  apply step_through; auto; [lia..|].
  destruct (decide (r = p)) as [->|Hne]; [exact Hzr|].
  apply (step_through z r); auto. lia.
Qed.

Lemma step_shrink q z :
  0 < q < N `max` S p -> inMeet new (predsOf q) z -> anc new z q.
Proof.
  intros Hq Hin.
  assert (Hold : inMeet old (predsOf q) z).
  { intros r Hr [j Hj]. destruct (tree_bound T _ _ Hj) as [HrN _].
    apply step_mono; [apply Hin; auto using step_some | exact HrN]. }
  destruct (decide (q = p)) as [->|Hqp]; [apply step_at; right; apply Hz, Hold|].
  assert (Hzq : anc old z q) by (apply (inv_shrink _ _ _ I); [lia | exact Hold]).
  destruct (decide (p <= z)) as [Hpz|Hpz]; [apply step_above; auto|].
  destruct (decide (q < p)) as [Hlt|Hge]; [apply step_below; auto|].
  destruct (Hfwd q) as (r & Hr & Hrq); [lia|].
  apply (step_keep z q r); auto; [lia..|].
  apply Hin; [exact Hr|]. apply step_some. lia.
Qed.

Lemma step_fresh q y r :
  0 < q < N `max` S p -> anc new y q -> y <> q -> q < S p \/ S p <= y ->
  r ∈ predsOf q -> r < q -> anc new y r.
Proof.
  intros Hq Hy Hyq Hcase Hr Hrq.
  destruct (decide (q = p)) as [->|Hqp].
  { apply step_at in Hy as [Hy|Hy]; [congruence|]. apply step_below; [lia|].
    apply (proj1 (Hz y) Hy r Hr). destruct (tree_some T r) as (j & -> & _); [lia | eauto]. }
  destruct (decide (q < p)) as [Hlt|Hge].
  { apply step_below; [lia|]. apply step_below in Hy; [|lia].
    apply (inv_fresh _ _ _ I q); auto. lia. }
  apply step_above in Hy; [|lia|exact Hqp].
  pose proof (anc_bound T _ _ Hy).
  assert (Hyr : anc old y r) by (apply (inv_fresh _ _ _ I q); auto; lia).
  pose proof (anc_bound T _ _ Hyr). apply step_above; auto; lia.
Qed.

Lemma step_dom q d : q < N `max` S p -> dom d q -> anc new d q.
Proof.
  revert d. induction (lt_wf q) as [q _ IH]. intros d Hq Hd.
  destruct (decide (d = q)) as [->|Hdq]; [apply (anc_self step_tree); lia|].
  destruct (decide (q = 0)) as [->|Hq0]; [apply dom_root in Hd; congruence|].
  destruct (decide (q = p)) as [->|Hqp].
  { apply step_at. right. apply Hz. intros r Hr [j Hj]. destruct (tree_bound T _ _ Hj).
    apply (inv_dom _ _ _ I); [lia|]. apply (dom_pred d p r); auto. }
  assert (Hdq' : anc old d q) by (apply (inv_dom _ _ _ I); [lia | exact Hd]).
  destruct (decide (q < p)) as [Hlt|Hge]; [apply step_below; auto|].
  destruct (decide (p <= d)) as [Hpd|Hpd]; [apply step_above; auto|].
  destruct (Hfwd q) as (r & Hr & Hrq); [lia|].
  apply (step_keep d q r); auto; [lia..|].
  apply IH; [exact Hrq | lia | apply (dom_pred d q r); auto; lia].
Qed.

Lemma step_inv : Inv (S p) (N `max` S p) new.
Proof.
  split.
  - unfold new. rewrite length_insert. apply I.
  - apply step_tree.
  - intros q Hq z. apply step_shrink, Hq.
  - exact step_fresh.
  - exact step_dom.
Qed.
End Step.

(** One position of a pass keeps the invariant; it either leaves a parent
    that is already the meet or lowers it. *)
Lemma improve_spec p N idom ch :
  Inv p N idom -> 0 < p < n -> p <= N <= n ->
  exists idom' ch', improve place order preds p (idom, ch) = Some (idom', ch') /\
    Inv (S p) (N `max` S p) idom' /\
    ((idom' = idom /\ ch' = ch /\ fixed idom p) \/
     (ch' = true /\ (p < N -> potential idom' < potential idom))).
Proof.
  intros I Hp HpN. pose proof (inv_tree _ _ _ I) as T.
  unfold improve. simpl.
  destruct (meetPreds_spec N idom T (default [] (order !! p ≫= (preds !!.))) None)
    as (res & Hres & Hnone & Hsome); [discriminate|].
  rewrite Hres. simpl. fold (predsOf p) in Hnone, Hsome.
  destruct (Hfwd p Hp) as (r & Hr & Hrp).
  destruct res as [m|]; [|destruct (Hnone eq_refl) as [_ H]; exfalso; apply (H r Hr); lia].
  destruct (Hsome m eq_refl) as [HmN Hz'].
  assert (Hz : forall z, anc idom z m <-> inMeet idom (predsOf p) z).
  { intros z. rewrite Hz'. split; [tauto|]. intros H. split; [discriminate | exact H]. }
  assert (Hmr : anc idom m r).
  { apply (proj1 (Hz m) (anc_self T m HmN) r Hr).
    destruct (tree_some T r) as (j & -> & _); [lia | eauto]. }
  pose proof (anc_bound T _ _ Hmr) as Hmb. assert (Hm : m < p) by lia.
  assert (Hstep : Inv (S p) (N `max` S p) (<[p := Some m]> idom)) by (apply step_inv; auto).
  destruct (decide (parent idom p = Some m)) as [Heq|Hneq].
  - assert (Hsame : <[p := Some m]> idom = idom).
    { apply list_insert_id. unfold parent in Heq. destruct (idom !! p) as [[?|]|]; simpl in Heq; congruence. }
    rewrite Hsame in Hstep. exists idom, ch. split; [reflexivity|]. split; [exact Hstep|].
    left. repeat split. exists m. auto.
  - exists (<[p := Some m]> idom), true. split; [reflexivity|]. split; [exact Hstep|].
    right. split; [reflexivity|]. intros HpltN.
    destruct (tree_lt _ _ T p) as (o & Ho & Hop); [lia|].
    assert (Hmo : anc idom m p) by (apply (inv_shrink _ _ _ I); [lia|]; apply Hz, (anc_self T), HmN).
    destruct (anc_parent T _ _ _ Hmo Ho) as [->|Hmo']; [lia|].
    apply (anc_bound T) in Hmo'. pose proof (potential_insert idom p o m Ho).
    assert (m <> o) by congruence. lia.
Qed.

Lemma improveAll_spec k p N idom ch :
  Inv p N idom -> 0 < p -> p + k = n -> p <= N <= n ->
  exists idom' ch', improveAll place order preds (seq p k) (idom, ch) = Some (idom', ch') /\
    Inv n n idom' /\
    ((idom' = idom /\ ch' = ch /\ forall q, p <= q < n -> fixed idom q) \/
     (ch' = true /\ (N = n -> potential idom' < potential idom))).
Proof.
  revert p N idom ch. induction k as [|k IH]; intros p N idom ch I Hp Hk HN; simpl.
  - exists idom, ch. split; [reflexivity|]. replace n with p at 1 by lia.
    replace n with N by lia. split; [exact I|]. left. repeat split. intros; lia.
  - destruct (improve_spec p N idom ch I) as (idom1 & ch1 & -> & I1 & Hcase); [lia..|].
    simpl. destruct (IH (S p) (N `max` S p) idom1 ch1 I1) as (idom2 & ch2 & H2 & I2 & Hcase2); [lia..|].
    exists idom2, ch2. split; [exact H2|]. split; [exact I2|].
    destruct Hcase as [(-> & -> & Hfix)|(-> & Hpot)], Hcase2 as [(-> & -> & Hfix2)|(-> & Hpot2)].
    + left. repeat split. intros q Hq. destruct (decide (q = p)) as [->|]; [exact Hfix|].
      apply Hfix2. lia.
    + right. split; [reflexivity|]. intros ->. apply Hpot2. lia.
    + right. split; [reflexivity|]. intros ->. apply Hpot. lia.
    + right. split; [reflexivity|]. intros ->. specialize (Hpot ltac:(lia)).
      specialize (Hpot2 ltac:(lia)). lia.
Qed.

Lemma Inv_restart idom : Inv n n idom -> Inv 1 n idom.
Proof.
  intros I. split; try apply I. intros q y r Hq Hy Hyq _ Hr Hrq.
  apply (inv_fresh _ _ _ I q); auto. lia.
Qed.

(** The iteration ends, at a tree every index of which is the meet of its
    predecessors. *)
Lemma iterate_spec fuel idom :
  Inv 1 n idom -> 0 < n -> potential idom < fuel ->
  exists idom', iterate fuel place order preds idom = Some idom' /\
    Inv n n idom' /\ forall q, 0 < q < n -> fixed idom' q.
Proof.
  revert idom. induction fuel as [|fuel IH]; intros idom I H0 Hf; [lia|].
  simpl. rewrite Hn.
  destruct (improveAll_spec (n - 1) 1 n idom false I) as (idom' & ch & -> & I' & Hcase); [lia..|].
  destruct Hcase as [(-> & -> & Hfix)|(-> & Hpot)].
  - exists idom. split; [reflexivity|]. split; [exact I'|]. intros q Hq. apply Hfix. lia.
  - specialize (Hpot eq_refl). apply IH; [apply Inv_restart, I' | exact H0 | lia].
Qed.

Definition startTree : list (option nat) := <[0 := Some 0]> (replicate n None).

Lemma parent_start q : 0 < n -> parent startTree q = if decide (q = 0) then Some 0 else None.
Proof.
  intros H0. unfold parent, startTree. destruct (decide (q = 0)) as [->|Hq].
  - rewrite list_lookup_insert_eq; [reflexivity|]. rewrite length_replicate. exact H0.
  - rewrite list_lookup_insert_ne by congruence.
    destruct (decide (q < n)) as [Hlt|Hge].
    + rewrite lookup_replicate_2 by exact Hlt. reflexivity.
    + rewrite lookup_ge_None_2; [reflexivity|]. rewrite length_replicate. lia.
Qed.

Lemma Inv_start : 0 < n -> Inv 1 1 startTree.
Proof.
  intros H0. assert (T : tree_upto 1 startTree).
  { split; [lia | rewrite parent_start by exact H0; reflexivity | lia |].
    intros q Hq. rewrite parent_start by exact H0. destruct (decide (q = 0)); [lia | reflexivity]. }
  split; [| exact T | lia | lia |].
  - unfold startTree. rewrite length_insert, length_replicate. reflexivity.
  - intros q d Hq Hd. assert (q = 0) as -> by lia. apply dom_root in Hd as ->.
    apply (anc_self T). lia.
Qed.

(** The bound the model gives the iteration is enough. *)
Lemma iterate_start :
  0 < n ->
  exists idom, iterate (passBound n) place order preds startTree = Some idom /\
    Inv n n idom /\ forall q, 0 < q < n -> fixed idom q.
Proof.
  intros H0. unfold passBound. replace (n * n + 3) with (S (n * n + 2)) by lia.
  cbn [iterate]. rewrite Hn.
  destruct (improveAll_spec (n - 1) 1 1 startTree false (Inv_start H0))
    as (idom & ch & -> & I & Hcase); [lia..|].
  destruct ch.
  - apply iterate_spec; [apply Inv_restart, I | exact H0 |].
    assert (potential idom <= n * n); [|lia].
    apply potential_bound; [apply I|]. intros q j Hj.
    destruct (tree_bound (inv_tree _ _ _ I) _ _ Hj). lia.
  - exists idom. split; [reflexivity|]. split; [exact I|]. intros q Hq.
    destruct Hcase as [(-> & _ & Hfix)|(? & _)]; [apply Hfix; lia | discriminate].
Qed.

(** At the end the ancestors of an index are exactly its dominators, for any
    [dom] that is also the least such relation along paths. *)
Lemma fixed_anc idom q z r :
  Inv n n idom -> 0 < q < n -> fixed idom q -> anc idom z q -> z <> q ->
  r ∈ predsOf q -> r < n -> anc idom z r.
Proof.
  intros I Hq (m & Hm & Hz) Ha Hne Hr Hrn.
  destruct (anc_parent (inv_tree _ _ _ I) _ _ _ Ha Hm) as [|Ham]; [congruence|].
  apply (proj1 (Hz z) Ham r Hr). destruct (tree_some (inv_tree _ _ _ I) r Hrn) as (j & -> & _). eauto.
Qed.
End Pass.
