(* ===== verification/CfgFacts.v ===== *)
(** * Correctness of the control-flow algorithms

    [reversePostorder] lists exactly the reachable blocks, each after one of
    its predecessors; [buildDominatorTree] never panics and ends within its
    bound; [dominates] decides dominance over paths from the entry. *)

From stdpp Require Import base list gmap strings.
From Stdlib Require Import Lia.
From S2P Require Import Prelude IR Cfg Dominators.

(** ** Paths, reachability and dominance: the specification *)

Section Paths.
Context (succs : nat -> list nat).

(** [path a l b]: [l] lists the blocks a walk from [a] to [b] visits. *)
Inductive path (a : nat) : list nat -> nat -> Prop :=
  | path_one : path a [a] a
  | path_step l b c : path a l b -> c ∈ succs b -> path a (l ++ [c]) c.

Definition reach (a b : nat) : Prop := exists l, path a l b.

(** Every walk from the entry to [b] goes through [d]. *)
Definition dominated_by (d b : nat) : Prop := forall l, path 0 l b -> d ∈ l.

Lemma reach_refl a : reach a a.
Proof. exists [a]. constructor. Qed.

Lemma reach_step a b c : reach a b -> c ∈ succs b -> reach a c.
Proof. intros [l Hl] Hc. exists (l ++ [c]). econstructor; eauto. Qed.

Lemma path_start a l b : path a l b -> a ∈ l.
Proof. induction 1; [left | apply elem_of_app; auto]. Qed.

Lemma path_end a l b : path a l b -> b ∈ l.
Proof. destruct 1; [left | apply elem_of_app; right; left]. Qed.

Lemma path_app a l b k c : path a l b -> path b k c -> reach a c.
Proof.
  intros Hl Hk. induction Hk as [|k b' c Hk IH Hc]; [exists l; exact Hl|].
  eapply reach_step; eauto.
Qed.

Lemma reach_trans a b c : reach a b -> reach b c -> reach a c.
Proof. intros [l Hl] [k Hk]. eapply path_app; eauto. Qed.

Lemma path_reach a l b x : path a l b -> x ∈ l -> reach a x.
Proof.
  induction 1 as [|l b c Hl IH Hc]; intros Hx.
  - apply list_elem_of_singleton in Hx as ->. apply reach_refl.
  - apply elem_of_app in Hx as [Hx|Hx%list_elem_of_singleton]; [auto|]. subst x.
    exists (l ++ [c]). econstructor; eauto.
Qed.
End Paths.

(** ** Depth-first search *)

Definition marked (vis : list bool) (q : nat) : Prop := vis !! q = Some true.

Fixpoint unvisited (vis : list bool) : nat :=
  match vis with
  | [] => 0
  | true :: rest => unvisited rest
  | false :: rest => S (unvisited rest)
  end.

Lemma unvisited_mark vis p : vis !! p = Some false -> unvisited vis = S (unvisited (<[p := true]> vis)).
Proof.
  revert p. induction vis as [|b vis IH]; intros [|p] H; simpl in *; try discriminate.
  - injection H as ->. reflexivity.
  - rewrite (IH p H). destruct b; reflexivity.
Qed.

Lemma unvisited_antitone vis vis' :
  length vis = length vis' -> (forall q, marked vis q -> marked vis' q) ->
  unvisited vis' <= unvisited vis.
Proof.
  unfold marked. revert vis'.
  induction vis as [|b vis IH]; intros [|b' vis'] Hl H; simpl in *; try lia.
  assert (unvisited vis' <= unvisited vis) by (apply IH; [lia | intros q; apply (H (S q))]).
  specialize (H 0). simpl in H. destruct b, b'; try lia. specialize (H eq_refl). discriminate.
Qed.

Lemma unvisited_replicate n : unvisited (replicate n false) = n.
Proof. induction n; simpl; congruence. Qed.

Section Dfs.
Context (succs : nat -> list nat) (n : nat).
Context (Hsuccs : forall p q, p < n -> q ∈ succs p -> q < n).

(** What a part of the search adds to [vis]: the blocks [new], in postorder. *)
Record added (vis vis' : list bool) (new : list nat) : Prop := {
  add_len0 : length vis = n;
  add_len : length vis' = n;
  add_marked q : marked vis' q <-> marked vis q \/ q ∈ new;
  add_nodup : NoDup new;
  add_fresh q : q ∈ new -> vis !! q = Some false;
  add_closed q s : q ∈ new -> s ∈ succs q -> marked vis' s
}.

(** Each block of [new] outside [roots] has a predecessor that ends later. *)
Definition parented (roots : nat -> Prop) (new : list nat) : Prop :=
  forall i q, new !! i = Some q ->
    roots q \/ exists j s, i < j /\ new !! j = Some s /\ q ∈ succs s.

Lemma added_nil vis : length vis = n -> added vis vis [].
Proof.
  intros Hl. split; [exact Hl | exact Hl | | constructor | |]; setoid_rewrite elem_of_nil; tauto.
Qed.

Lemma not_marked vis q : length vis = n -> q < n -> ~ marked vis q -> vis !! q = Some false.
Proof.
  intros Hl Hq Hm. destruct (lookup_lt_is_Some_2 vis q ltac:(lia)) as [[] Hv]; [contradiction|exact Hv].
Qed.

Lemma added_app vis vis1 vis2 new1 new2 :
  added vis vis1 new1 -> added vis1 vis2 new2 -> added vis vis2 (new1 ++ new2).
Proof.
  intros [L0 L1 M1 N1 F1 C1] [_ L2 M2 N2 F2 C2]. split; [exact L0 | exact L2 | | | |].
  - intros q. rewrite M2, M1, elem_of_app. tauto.
  - apply NoDup_app. split; [exact N1|]. split; [|exact N2].
    intros q Hq1 Hq2. apply F2 in Hq2. assert (marked vis1 q) by (apply M1; auto).
    unfold marked in *. congruence.
  - intros q [Hq|Hq]%elem_of_app; [auto|]. apply F2 in Hq.
    apply not_marked; [exact L0 | rewrite <- L1; eapply lookup_lt_Some, Hq |].
    intros Hm. assert (marked vis1 q) by (apply M1; auto). unfold marked in *. congruence.
  - intros q s [Hq|Hq]%elem_of_app Hs; [|eauto]. apply M2. left. eauto.
Qed.

Lemma parented_app roots new1 new2 :
  parented roots new1 -> parented roots new2 -> parented roots (new1 ++ new2).
Proof.
  intros H1 H2 i q Hi. apply lookup_app_Some in Hi as [Hi|[Hge Hi]].
  - destruct (H1 i q Hi) as [Hr|(j & s & Hj & Hs & Hq)]; [auto|].
    right. exists j, s. split; [exact Hj|]. split; [apply lookup_app_l_Some, Hs | exact Hq].
  - destruct (H2 _ q Hi) as [Hr|(j & s & Hj & Hs & Hq)]; [auto|].
    right. exists (length new1 + j), s. split; [lia|]. split; [|exact Hq].
    rewrite lookup_app_r by lia. replace (length new1 + j - length new1) with j by lia. exact Hs.
Qed.

Lemma parented_weaken (r1 r2 : nat -> Prop) new :
  (forall q, r1 q -> r2 q) -> parented r1 new -> parented r2 new.
Proof. intros H Hp i q Hi. destruct (Hp i q Hi) as [Hr|Hr]; auto. Qed.

Lemma mark_added p vis vis' new :
  vis !! p = Some false -> length vis = n ->
  added (<[p := true]> vis) vis' new -> (forall s, s ∈ succs p -> marked vis' s) ->
  added vis vis' (new ++ [p]).
Proof.
  intros Hv Hl [L0 L1 M N F C] Hs.
  assert (Hpl : p < length vis) by (eapply lookup_lt_Some, Hv).
  assert (Hpm : marked (<[p := true]> vis) p) by (unfold marked; apply list_lookup_insert_eq, Hpl).
  assert (Hpn : p ∉ new) by (intros Hin%F; unfold marked in Hpm; congruence).
  assert (Hne : forall q, q <> p -> <[p := true]> vis !! q = vis !! q).
  { intros q Hq. apply list_lookup_insert_ne. congruence. }
  split; [exact Hl | exact L1 | | | |].
  - intros q. rewrite M, elem_of_app, list_elem_of_singleton. unfold marked.
    destruct (decide (q = p)) as [->|Hq]; [tauto|]. rewrite Hne by exact Hq. tauto.
  - apply NoDup_app. split; [exact N|]. split; [set_solver | apply NoDup_singleton].
  - intros q [Hq|Hq%list_elem_of_singleton]%elem_of_app; [|subst; exact Hv].
    rewrite <- (Hne q); [apply F, Hq | intros ->; contradiction].
  - intros q s [Hq|Hq%list_elem_of_singleton]%elem_of_app Hqs; [eauto | subst; auto].
Qed.

(** What a call of [visit] does. *)
Definition visit_post (p : nat) (vis : list bool) (ord : list nat) (st : list bool * list nat) : Prop :=
  exists new, st.2 = ord ++ new /\ added vis st.1 new /\ marked st.1 p /\
    (forall q, q ∈ new -> reach succs p q) /\ parented (eq p) new /\
    (vis !! p = Some false -> exists new', new = new' ++ [p]).

Lemma visit_list_spec fuel l vis ord :
  (forall p vis ord, unvisited vis < fuel -> length vis = n -> p < n ->
     visit_post p vis ord (visit fuel succs p (vis, ord))) ->
  unvisited vis < fuel -> length vis = n -> (forall p, p ∈ l -> p < n) ->
  exists new vis', foldl (fun st to => visit fuel succs to st) (vis, ord) l = (vis', ord ++ new) /\
    added vis vis' new /\ (forall p, p ∈ l -> marked vis' p) /\
    (forall q, q ∈ new -> exists p, p ∈ l /\ reach succs p q) /\ parented (fun q => q ∈ l) new.
Proof.
  intros Hvisit. revert vis ord. induction l as [|p l IH]; intros vis ord Hf Hl Hb; simpl.
  - exists [], vis. rewrite app_nil_r. split; [reflexivity|].
    split; [apply added_nil, Hl|]. repeat split; [intros p Hp; inversion Hp | intros q Hq; inversion Hq |].
    intros i q Hi. rewrite lookup_nil in Hi. discriminate.
  - destruct (Hvisit p vis ord Hf Hl (Hb p ltac:(left))) as (new1 & E1 & A1 & M1 & R1 & P1 & _).
    destruct (visit fuel succs p (vis, ord)) as [vis1 ord1]. simpl in *. subst ord1.
    destruct (IH vis1 (ord ++ new1)) as (new2 & vis2 & E2 & A2 & M2 & R2 & P2).
    { assert (unvisited vis1 <= unvisited vis); [|lia].
      apply unvisited_antitone; [rewrite (add_len _ _ _ A1); exact Hl|].
      intros q Hq. apply (add_marked _ _ _ A1). auto. }
    { apply A1. } { intros q Hq. apply Hb. right. exact Hq. }
    exists (new1 ++ new2), vis2. rewrite app_assoc. split; [exact E2|].
    split; [eapply added_app; eauto|]. repeat split.
    + intros q [->|Hq]%elem_of_cons; [|auto]. apply (add_marked _ _ _ A2). auto.
    + intros q [Hq|Hq]%elem_of_app; [exists p; split; [left | auto]|].
      destruct (R2 q Hq) as (p' & Hp' & Hr). exists p'. split; [right|]; assumption.
    + apply parented_app; [eapply parented_weaken, P1 | eapply parented_weaken, P2].
      * intros q <-. left.
      * intros q Hq. right. exact Hq.
Qed.

Lemma visit_spec fuel p vis ord :
  unvisited vis < fuel -> length vis = n -> p < n ->
  visit_post p vis ord (visit fuel succs p (vis, ord)).
Proof.
  revert p vis ord. induction fuel as [|fuel IH]; intros p vis ord Hf Hl Hp; [lia|].
  simpl. destruct (vis !! p) as [[]|] eqn:Hv.
  - exists []. rewrite app_nil_r. split; [reflexivity|]. split; [apply added_nil, Hl|].
    split; [exact Hv|]. split; [set_solver|]. split; [|congruence].
    intros i q Hi. rewrite lookup_nil in Hi. discriminate.
  - pose proof (unvisited_mark vis p Hv) as Hu.
    destruct (visit_list_spec fuel (succs p) (<[p := true]> vis) ord IH) as (new & vis' & E & A & M & R & P).
    { lia. } { rewrite length_insert. exact Hl. } { intros q. apply Hsuccs, Hp. }
    rewrite E. simpl. exists (new ++ [p]). rewrite app_assoc. simpl. split; [reflexivity|].
    assert (Hpm : marked (<[p := true]> vis) p).
    { unfold marked. apply list_lookup_insert_eq. lia. }
    split; [|split; [apply (add_marked _ _ _ A); auto|split; [|split; [|intros _; eauto]]]].
    + apply (mark_added p vis vis' new); auto.
    + intros q [Hq|Hq%list_elem_of_singleton]%elem_of_app; [|subst; apply reach_refl].
      destruct (R q Hq) as (s & Hs & Hr). eapply reach_trans; [|exact Hr].
      eapply reach_step; [apply reach_refl | exact Hs].
    + intros i q Hi. apply lookup_app_Some in Hi as [Hi|[Hge Hi]].
      * right. destruct (P i q Hi) as [Hq|(j & s & Hj & Hs & Hq)].
        -- exists (length new), p. split; [eapply lookup_lt_Some, Hi|].
           split; [apply list_lookup_middle; reflexivity | exact Hq].
        -- exists j, s. split; [exact Hj|]. split; [apply lookup_app_l_Some, Hs | exact Hq].
      * left. apply list_lookup_singleton_Some in Hi as [_ Hi]. exact Hi.
  - apply lookup_ge_None in Hv. lia.
Qed.
End Dfs.

(** ** One function *)

Lemma blockIndexFrom_bound i blocks m name pos :
  blockIndexFrom i blocks m !! name = Some pos ->
  m !! name = Some pos \/
  exists k block, pos = i + k /\ blocks !! k = Some block /\ bName block = name.
Proof.
  revert i m. induction blocks as [|block blocks IH]; intros i m H; simpl in H; [auto|].
  apply IH in H as [H|(k & b & -> & Hb & Hname)].
  - destruct (decide (bName block = name)) as [<-|Hne].
    + rewrite lookup_insert_eq in H. injection H as <-. right. exists 0, block.
      split; [lia|]. auto.
    + rewrite lookup_insert_ne in H by exact Hne. auto.
  - right. exists (S k), b. split; [lia|]. auto.
Qed.

(** A name of the index names the block at that position. *)
Lemma blockIndex_Some fn name pos :
  blockIndex fn !! name = Some pos ->
  exists block, fBlocks fn !! pos = Some block /\ bName block = name.
Proof.
  intros H. apply blockIndexFrom_bound in H as [H|(k & block & -> & Hk & Hn)].
  - rewrite lookup_empty in H. discriminate.
  - eauto.
Qed.

Lemma blockIndexFrom_is_Some i blocks m name :
  is_Some (blockIndexFrom i blocks m !! name) <-> is_Some (m !! name) \/ name ∈ (bName <$> blocks).
Proof.
  revert i m. induction blocks as [|block blocks IH]; intros i m; simpl.
  - rewrite elem_of_nil. tauto.
  - rewrite IH, elem_of_cons. destruct (decide (bName block = name)) as [<-|Hne].
    + rewrite lookup_insert_eq. split; intros _; [right; left; reflexivity | left; eauto].
    + rewrite lookup_insert_ne by exact Hne. split; intros [H|H]; auto.
      destruct H as [H|H]; [congruence | auto].
Qed.

Lemma blockIndex_is_Some fn name :
  is_Some (blockIndex fn !! name) <-> exists block, block ∈ fBlocks fn /\ bName block = name.
Proof.
  unfold blockIndex. rewrite blockIndexFrom_is_Some, lookup_empty, list_elem_of_fmap.
  split; [intros [[? ?]|(b & -> & Hb)]; [discriminate | eauto] | intros (b & Hb & <-); right; eauto].
Qed.

(** [placeOf] inverts the order. *)
Lemma placeOf_from l i0 (place : list (option nat)) pos :
  NoDup l -> (forall q, q ∈ l -> q < length place) ->
  foldl (fun (place : list (option nat)) (entry : nat * nat) => <[entry.2 := Some entry.1]> place)
        place (imap (fun k position : nat => (i0 + k, position)) l) !! pos =
  match list_find (eq pos) l with
  | Some (k, _) => Some (Some (i0 + k))
  | None => place !! pos
  end.
Proof.
  revert i0 place. induction l as [|q l IH]; intros i0 place Hnd Hb; simpl; [reflexivity|].
  apply NoDup_cons in Hnd as [Hq Hnd].
  assert (Himap : imap ((fun k position : nat => (i0 + k, position)) ∘ S) l =
                  imap (fun k position : nat => (S i0 + k, position)) l).
  { apply imap_ext. intros k x _. simpl. f_equal. lia. }
  rewrite Himap, IH; [|exact Hnd |].
  2: { intros x Hx. rewrite length_insert. apply Hb. right. exact Hx. }
  destruct (decide (pos = q)) as [->|Hne].
  - destruct (list_find (eq q) l) as [[k x]|] eqn:Hf.
    + apply list_find_Some in Hf as (Hk & <- & _). exfalso. apply Hq. eapply list_elem_of_lookup_2, Hk.
    + rewrite Nat.add_0_r. apply list_lookup_insert_eq. apply Hb. left.
  - destruct (list_find (eq pos) l) as [[k x]|]; simpl; [f_equal; f_equal; lia|].
    apply list_lookup_insert_ne. congruence.
Qed.

Lemma placeOf_spec n l pos i :
  NoDup l -> (forall q, q ∈ l -> q < n) ->
  mjoin (placeOf n l !! pos) = Some i <-> l !! i = Some pos.
Proof.
  intros Hnd Hb. unfold placeOf.
  pose proof (placeOf_from l 0 (replicate n None) pos Hnd) as H. simpl in H.
  rewrite H by (intros q; rewrite length_replicate; apply Hb).
  destruct (list_find (eq pos) l) as [[k x]|] eqn:Hf; simpl.
  - apply list_find_Some in Hf as (Hk & <- & _). split; [intros [= <-]; exact Hk|].
    intros Hi. f_equal. eapply NoDup_lookup; eauto.
  - apply list_find_None in Hf. split.
    + destruct (replicate n None !! pos) as [o|] eqn:Hr; [|discriminate].
      apply lookup_replicate in Hr as [-> _]. discriminate.
    + intros Hi. rewrite Forall_lookup in Hf. exfalso. apply (Hf i pos Hi). reflexivity.
Qed.

(** The predecessors of a block are the positions that name it, in order and
    as often as they do. *)
Lemma addEdges_lookup position targets preds to :
  foldl (addEdge position) preds targets !! to =
  (fun l => l ++ replicate (length (filter (eq to) targets)) position) <$> preds !! to.
Proof.
  revert preds. induction targets as [|q targets IH]; intros preds; simpl.
  - destruct (preds !! to); simpl; [rewrite app_nil_r|]; reflexivity.
  - rewrite IH. unfold addEdge. destruct (decide (q = to)) as [->|Hne].
    + rewrite list_lookup_alter_eq. rewrite filter_cons_True by reflexivity.
      destruct (preds !! to); simpl; [rewrite <- app_assoc|]; reflexivity.
    + rewrite list_lookup_alter_ne by exact Hne. rewrite filter_cons_False by congruence. reflexivity.
Qed.

Definition predecessorsOf (succs : nat -> list nat) (n to : nat) : list nat :=
  seq 0 n ≫= fun position => replicate (length (filter (eq to) (succs position))) position.

Lemma blockPredecessors_from fn idx k n preds to :
  foldl (fun preds position => foldl (addEdge position) preds (succPositions fn idx position))
        preds (seq k n) !! to =
  (fun l => l ++ (seq k n ≫= fun position =>
     replicate (length (filter (eq to) (succPositions fn idx position))) position)) <$> preds !! to.
Proof.
  revert k preds. induction n as [|n IH]; intros k preds; simpl.
  - destruct (preds !! to); simpl; [rewrite app_nil_r|]; reflexivity.
  - rewrite IH, addEdges_lookup. destruct (preds !! to); simpl; [rewrite <- app_assoc|]; reflexivity.
Qed.

Lemma blockPredecessors_lookup fn idx to :
  to < length (fBlocks fn) ->
  blockPredecessors fn idx !! to = Some (predecessorsOf (succPositions fn idx) (length (fBlocks fn)) to).
Proof.
  intros Hto. unfold blockPredecessors. rewrite blockPredecessors_from.
  rewrite lookup_replicate_2 by exact Hto. reflexivity.
Qed.

Lemma elem_of_predecessorsOf succs n to p :
  p ∈ predecessorsOf succs n to <-> p < n /\ to ∈ succs p.
Proof.
  unfold predecessorsOf. rewrite list_elem_of_bind. setoid_rewrite elem_of_seq.
  split.
  - intros (q & Hp & Hq). apply elem_of_replicate in Hp as [-> Hlen]. split; [lia|].
    destruct (filter (eq to) (succs q)) as [|x l] eqn:Hf; [simpl in Hlen; lia|].
    assert (Hx : x ∈ filter (eq to) (succs q)) by (rewrite Hf; left).
    apply list_elem_of_filter in Hx as [<- Hx]. exact Hx.
  - intros [Hp Hto]. exists p. split; [|lia]. apply elem_of_replicate. split; [reflexivity|].
    assert (Hx : to ∈ filter (eq to) (succs p)) by (apply list_elem_of_filter; auto).
    destruct (filter (eq to) (succs p)); [inversion Hx | simpl; lia].
Qed.

Section OneFunction.
Context (fn : Function).

Definition at_ : gmap string nat := blockIndex fn.
Definition size : nat := length (fBlocks fn).
Definition succs : nat -> list nat := succPositions fn at_.

Lemma succs_bound p q : q ∈ succs p -> p < size /\ q < size.
Proof.
  unfold succs, succPositions. destruct (fBlocks fn !! p) as [block|] eqn:Hb; [|intros H; inversion H].
  intros Hq. apply list_elem_of_omap in Hq as (name & _ & Hname).
  apply blockIndex_Some in Hname as (b & Hqb & _).
  split; eapply lookup_lt_Some; eauto.
Qed.

Definition order : list nat := reversePostorder fn.

(** Block 0 exists: what every caller of the tree checks first. *)
Context (Hne : 0 < size).

Lemma order_spec :
  NoDup order /\ (forall q, q ∈ order <-> reach succs 0 q) /\ order !! 0 = Some 0 /\
  (forall i q, 0 < i -> order !! i = Some q ->
     exists j s, j < i /\ order !! j = Some s /\ q ∈ succs s).
Proof.
  unfold order, reversePostorder. fold at_. fold succs. fold size.
  destruct (visit_spec succs size (fun p q _ H => proj2 (succs_bound p q H)) (S size) 0
              (replicate size false) []) as (new & E & A & M & R & P & Hlast).
  { rewrite unvisited_replicate. lia. } { apply length_replicate. } { exact Hne. }
  rewrite E. simpl.
  destruct (Hlast (lookup_replicate_2 _ _ _ Hne)) as (new' & Hnew).
  assert (Hin : forall q, q ∈ new <-> reach succs 0 q).
  { intros q. split; [apply R|]. intros [l Hl].
    enough (H : forall a l q, path succs a l q -> a ∈ new -> q ∈ new).
    { eapply H; [exact Hl|]. rewrite Hnew. set_solver. }
    clear l q Hl. induction 1 as [|l b c Hl IH Hc]; intros Ha; [exact Ha|].
    specialize (IH Ha). pose proof (add_closed _ _ _ _ _ A b c IH Hc) as Hmk.
    apply (add_marked _ _ _ _ _ A) in Hmk as [Hmk|Hmk]; [|exact Hmk].
    unfold marked in Hmk. apply lookup_replicate in Hmk as [? _]. discriminate. }
  split; [|split; [|split]].
  - rewrite reverse_Permutation. apply A.
  - intros q. rewrite elem_of_reverse. apply Hin.
  - rewrite Hnew, reverse_snoc. reflexivity.
  - intros i q Hi Hq. apply reverse_lookup_Some in Hq as [Hq Hlt].
    destruct (P _ _ Hq) as [<-|(j & s & Hj & Hs & Hqs)].
    + exfalso. assert (Hd : new !! (length new - 1) = Some 0).
      { rewrite Hnew, length_app. simpl. rewrite lookup_app_r by lia.
        replace (length new' + 1 - 1 - length new') with 0 by lia. reflexivity. }
      pose proof (NoDup_lookup _ _ _ _ (add_nodup _ _ _ _ _ A) Hq Hd). lia.
    + exists (length new - 1 - j), s. pose proof (lookup_lt_Some _ _ _ Hs).
      split; [lia|]. split; [|exact Hqs].
      rewrite reverse_lookup by lia. replace (length new - S (length new - 1 - j)) with j by lia. exact Hs.
Qed.

Definition predLists : list (list nat) := blockPredecessors fn at_.
Definition places : list (option nat) := placeOf size order.

Lemma order_bound q : q ∈ order -> q < size.
Proof.
  intros Hq. apply (proj1 (proj2 order_spec)) in Hq as [l Hl].
  destruct Hl as [|l b c Hl Hc]; [exact Hne|]. apply succs_bound in Hc. lia.
Qed.

Lemma places_spec pos i : mjoin (places !! pos) = Some i <-> order !! i = Some pos.
Proof. apply placeOf_spec; [apply order_spec | apply order_bound]. Qed.

Lemma order_inj i j q : order !! i = Some q -> order !! j = Some q -> i = j.
Proof. apply NoDup_lookup, order_spec. Qed.

Lemma order_reach q : reach succs 0 q -> exists i, order !! i = Some q.
Proof. intros H. apply list_elem_of_lookup. apply order_spec, H. Qed.

(** Dominance between indices of the order. *)
Definition domIndex (d q : nat) : Prop :=
  exists pd pq, order !! d = Some pd /\ order !! q = Some pq /\ dominated_by succs pd pq.

Lemma domIndex_root d : domIndex d 0 -> d = 0.
Proof.
  intros (pd & pq & Hd & Hq & H). destruct order_spec as (_ & _ & H0 & _).
  assert (pq = 0) as -> by congruence. specialize (H [0] (path_one _ _)).
  apply list_elem_of_singleton in H as ->. eapply order_inj; eauto.
Qed.

Lemma order_pos : 0 < length order.
Proof. destruct order_spec as (_ & _ & H0 & _). eapply lookup_lt_Some, H0. Qed.

(** The iteration over any lists of the predecessors, in any order. *)
Section Lists.
Context (lists : list (list nat)).
Context (lists_spec : forall i j, j ∈ predsOf places order lists i <->
  exists p q, order !! i = Some p /\ order !! j = Some q /\ p ∈ succs q).

Lemma order_forward q :
  0 < q < length order -> exists r, r ∈ predsOf places order lists q /\ r < q.
Proof.
  intros Hq. destruct (lookup_lt_is_Some_2 order q ltac:(lia)) as [p Hp].
  destruct order_spec as (_ & _ & _ & Hpar).
  destruct (Hpar q p) as (j & s & Hj & Hs & Hps); [lia | exact Hp |].
  exists j. split; [|exact Hj]. apply lists_spec. eauto.
Qed.

Lemma domIndex_pred d q r :
  0 < q < length order -> domIndex d q -> d <> q ->
  r ∈ predsOf places order lists q -> domIndex d r.
Proof.
  intros _ (pd & pq & Hd & Hq & H) Hne' Hr.
  apply lists_spec in Hr as (pq' & pr & Hq' & Hr & Hs).
  assert (pq' = pq) as -> by congruence. exists pd, pr. split; [exact Hd|]. split; [exact Hr|].
  intros l Hl. specialize (H (l ++ [pq]) (path_step _ _ _ _ _ Hl Hs)).
  apply elem_of_app in H as [H|H%list_elem_of_singleton]; [exact H|].
  subst. exfalso. apply Hne'. eapply order_inj; eauto.
Qed.

Definition finished (idom : list (option nat)) : Prop :=
  Inv places order lists (length order) domIndex (length order) (length order) idom /\
  forall q, 0 < q < length order -> fixed places order lists idom q.

(** The iteration neither panics nor runs out. *)
Lemma iterate_finishes :
  exists idom, iterate (passBound (length order)) places order lists (startTree (length order)) = Some idom /\
    finished idom.
Proof.
  exact (iterate_start places order lists (length order) eq_refl order_forward domIndex
           domIndex_root domIndex_pred order_pos).
Qed.

(** An ancestor in the tree is on every path. *)
Lemma anc_sound idom (F : finished idom) l b :
  path succs 0 l b -> forall z q pz, order !! q = Some b -> order !! z = Some pz ->
  anc idom z q -> pz ∈ l.
Proof.
  destruct F as [I Hfix].
  pose proof (inv_tree _ _ _ _ _ _ _ _ I) as T.
  destruct order_spec as (_ & Hin & H0 & _).
  induction 1 as [|l b c Hl IH Hc]; intros z q pz Hq Hz Ha.
  - assert (q = 0) as -> by (eapply order_inj; eauto).
    apply (anc_bound T) in Ha. assert (z = 0) as -> by lia.
    assert (pz = 0) as -> by congruence. left.
  - apply elem_of_app. destruct (decide (z = q)) as [->|Hzq].
    { right. apply list_elem_of_singleton. congruence. }
    left. destruct (order_reach b) as [r Hr]; [exists l; exact Hl|].
    destruct (decide (q = 0)) as [->|Hq0].
    { apply (anc_bound T) in Ha. lia. }
    apply (IH z r pz Hr Hz).
    eapply (fixed_anc _ _ _ _ domIndex idom q z r); eauto.
    + split; [lia | eapply lookup_lt_Some, Hq].
    + apply Hfix. split; [lia | eapply lookup_lt_Some, Hq].
    + apply lists_spec. eauto.
    + eapply lookup_lt_Some, Hr.
Qed.

(** The ancestors of an index are its dominators. *)
Lemma anc_exact idom (F : finished idom) z q :
  q < length order -> anc idom z q <-> domIndex z q.
Proof.
  intros Hq. pose proof (inv_tree _ _ _ _ _ _ _ _ (proj1 F)) as T. split.
  - intros Ha. destruct (anc_bound T _ _ Ha) as [Hz _].
    destruct (lookup_lt_is_Some_2 order z ltac:(lia)) as [pz Hpz].
    destruct (lookup_lt_is_Some_2 order q Hq) as [pq Hpq].
    exists pz, pq. split; [exact Hpz|]. split; [exact Hpq|]. intros l Hl. eapply anc_sound; eauto.
  - apply (inv_dom _ _ _ _ _ _ _ _ (proj1 F)), Hq.
Qed.
End Lists.

Lemma predsOf_spec i j :
  j ∈ predsOf places order predLists i <->
  exists p q, order !! i = Some p /\ order !! j = Some q /\ p ∈ succs q.
Proof.
  unfold predsOf. rewrite list_elem_of_omap. split.
  - intros (q & Hq & Hj). apply places_spec in Hj.
    destruct (order !! i) as [p|] eqn:Hi; simpl in Hq; [|inversion Hq].
    pose proof (order_bound p (list_elem_of_lookup_2 _ _ _ Hi)) as Hp.
    unfold predLists in Hq. rewrite blockPredecessors_lookup in Hq by exact Hp.
    apply elem_of_predecessorsOf in Hq as [_ Hq]. eauto.
  - intros (p & q & Hi & Hj & Hp). exists q. rewrite places_spec. split; [|exact Hj].
    rewrite Hi. simpl. pose proof (succs_bound _ _ Hp) as [Hqs Hps].
    unfold predLists. rewrite blockPredecessors_lookup by exact Hps.
    apply elem_of_predecessorsOf. auto.
Qed.

(** The tree is built. *)
Lemma buildDominatorTree_some :
  exists idom, buildDominatorTree fn predLists = Some (mkTree places idom) /\ finished predLists idom.
Proof.
  destruct (iterate_finishes predLists predsOf_spec) as (idom & Hit & F).
  exists idom. split; [|exact F]. unfold buildDominatorTree. fold order. fold size. fold places.
  pose proof order_pos. destruct order as [|o rest] eqn:Ho; [simpl in *; lia|].
  unfold startTree in Hit. rewrite Hit. reflexivity.
Qed.

(** [dominates] answers exactly the dominance question. *)
Lemma dominates_spec :
  exists tree, buildDominatorTree fn predLists = Some tree /\
    forall d b, exists r, dominates tree d b = Some r /\ (r = true <-> dominated_by succs d b).
Proof.
  destruct buildDominatorTree_some as (idom & Hb & F). pose proof (proj1 F) as I. exists (mkTree places idom).
  split; [exact Hb|]. intros d b. unfold dominates. cbn [place Cfg.idom].
  pose proof (inv_tree _ _ _ _ _ _ _ _ I) as T.
  destruct (mjoin (places !! b)) as [q|] eqn:Hq.
  2: { exists true. split; [reflexivity|]. split; [|reflexivity]. intros _ l Hl.
       destruct (order_reach b) as [i Hi]; [exists l; exact Hl|].
       apply places_spec in Hi. congruence. }
  apply places_spec in Hq.
  destruct (mjoin (places !! d)) as [z|] eqn:Hz.
  - apply places_spec in Hz.
    destruct (walkUp_spec T q q z) as (r & Hr & Hiff); [eapply lookup_lt_Some, Hq | lia |].
    exists r. split; [exact Hr|]. rewrite Hiff. split.
    + intros Ha l Hl. eapply (anc_sound predLists predsOf_spec idom F); eauto.
    + intros Hd. apply (inv_dom _ _ _ _ _ _ _ _ I); [eapply lookup_lt_Some, Hq|].
      exists d, b. auto.
  - exists false. split; [reflexivity|]. split; [discriminate|]. intros Hd. exfalso.
    destruct order_spec as (_ & Hin & _).
    destruct (proj1 (Hin b)) as [l Hl]; [eapply list_elem_of_lookup_2, Hq|].
    destruct (order_reach d) as [i Hi]; [eapply path_reach; [exact Hl | apply Hd, Hl]|].
    apply places_spec in Hi. congruence.
Qed.

(** The tree names, for each block but the first, an earlier block of the order
    that is on every path to it. *)
Lemma immediate_dominators :
  exists tree, buildDominatorTree fn predLists = Some tree /\
    forall i, 0 < i < length order -> exists up p c, parent (Cfg.idom tree) i = Some up /\ up < i /\
      order !! up = Some p /\ order !! i = Some c /\ p <> c /\ dominated_by succs p c.
Proof.
  destruct buildDominatorTree_some as (idom & Hb & F). pose proof (proj1 F) as I. exists (mkTree places idom). split; [exact Hb|].
  intros i Hi. cbn [Cfg.idom]. pose proof (inv_tree _ _ _ _ _ _ _ _ I) as T.
  destruct (tree_lt _ _ T i Hi) as (up & Hup & Hlt).
  destruct (lookup_lt_is_Some_2 order up ltac:(lia)) as [p Hp].
  destruct (lookup_lt_is_Some_2 order i ltac:(lia)) as [c Hc]. exists up, p, c.
  split; [exact Hup|]. split; [exact Hlt|]. split; [exact Hp|]. split; [exact Hc|]. split.
  - intros ->. pose proof (order_inj up i c Hp Hc). lia.
  - intros l Hl. eapply (anc_sound predLists predsOf_spec idom F l c Hl up i p Hc Hp). eapply anc_up; [exact Hup|]. apply (anc_self T). lia.
Qed.
End OneFunction.
