(* ===== verification/StaticExpr.v ===== *)
(** * Static integer expressions ([internal/staticexpr/staticexpr.go])

    The evaluator of canonical expression text.  Its position in the text is
    the suffix still unread.  The specification is an expression tree with a
    printer and a denotation; the evaluator agrees with both. *)

From stdpp Require Import base list strings sets.
From Stdlib Require Import ZArith Lia String Ascii.
From S2P Require Import Prelude GoStd.

#[local] Open Scope Z_scope.

(** Why an evaluation fails.  [OutOfFuel] is the model's bound, which
    [Eval_total] shows is never reached. *)
Inductive StaticError : Type :=
  | EndsEarly
  | UnexpectedText (rest : string)
  | UnexpectedByte (c : ascii)
  | LiteralRange (digits : string)
  | NotCompileTime (name : string)
  | Malformed
  | DividesByZero
  | NotArithmetic (op : ascii)
  | OutOfFuel.

Definition isNameByte (c : ascii) : bool :=
  let n := nat_of_ascii c in
  Ascii.eqb c "_" || ((97 <=? n) && (n <=? 122))%nat || ((65 <=? n) && (n <=? 90))%nat ||
  ((48 <=? n) && (n <=? 57))%nat.

(** [Is] *)
Definition Is (text : string) : bool := HasPrefix text "(".

(** [apply]: one binary operation on [int64]; division truncates, and the
    quotient of the least value by -1 wraps. *)
Definition apply (op : ascii) (lhs rhs : Z) : result StaticError Z :=
  if Ascii.eqb op "+" then Ok (wrap64 (lhs + rhs))
  else if Ascii.eqb op "-" then Ok (wrap64 (lhs - rhs))
  else if Ascii.eqb op "*" then Ok (wrap64 (lhs * rhs))
  else if Ascii.eqb op "/" || Ascii.eqb op "%" then
    if rhs =? 0 then Err DividesByZero
    else if Ascii.eqb op "/" then Ok (wrap64 (Z.quot lhs rhs))
    else Ok (wrap64 (Z.rem lhs rhs))
  else Err (NotArithmetic op).

Section Evaluator.
Context (lookup : string -> option Z).

(** [evaluator.operation], with [term] for the operands; [s] is the text
    after the opening parenthesis. *)
Definition operation (term : string -> result StaticError (Z * string)) (s : string)
  : result StaticError (Z * string) :=
  let* (lhs, s) := term s in
  match s with
  | String sp1 (String op (String sp2 s)) =>
      if Ascii.eqb sp1 " " && Ascii.eqb sp2 " " then
        let* (rhs, s) := term s in
        match s with
        | String close s =>
            if Ascii.eqb close ")" then
              let* v := apply op lhs rhs in Ok (v, s)
            else Err Malformed
        | EmptyString => Err Malformed
        end
      else Err Malformed
  | _ => Err Malformed
  end.

(** [evaluator.term] *)
Fixpoint term (fuel : nat) (s : string) : result StaticError (Z * string) :=
  match fuel with
  | O => Err OutOfFuel
  | S fuel =>
      match s with
      | EmptyString => Err EndsEarly
      | String c rest =>
          if Ascii.eqb c "(" then operation (term fuel) rest
          else if Ascii.eqb c "-" then
            let* (value, s) := term fuel rest in Ok (wrap64 (- value), s)
          else if is_digit c then
            let (digits, s) := sspan is_digit s in
            match ParseInt digits with
            | Some value => Ok (value, s)
            | None => Err (LiteralRange digits)
            end
          else if isNameByte c then
            let (name, s) := sspan isNameByte s in
            match lookup name with
            | Some value => Ok (value, s)
            | None => Err (NotCompileTime name)
            end
          else Err (UnexpectedByte c)
      end
  end.

Definition Eval_ (text : string) : result StaticError Z :=
  let* (value, rest) := term (S (String.length text)) text in
  match rest with
  | EmptyString => Ok value
  | _ => Err (UnexpectedText rest)
  end.
End Evaluator.

(** [Names]: the runs of name bytes that do not start with a digit. *)
Fixpoint namesFrom (fuel : nat) (text : string) : list string :=
  match fuel with
  | O => []
  | S fuel =>
      match text with
      | EmptyString => []
      | String c rest =>
          if isNameByte c then
            let (name, rest) := sspan isNameByte text in
            if is_digit c then namesFrom fuel rest else name :: namesFrom fuel rest
          else namesFrom fuel rest
      end
  end.

Definition Names (text : string) : list string := namesFrom (String.length text) text.

(** ** The specification: expression trees *)

Inductive sexpr : Type :=
  | Lit (n : Z)
  | Var (x : string)
  | Neg (e : sexpr)
  | Bin (op : ascii) (l r : sexpr).

Definition validName (x : string) : bool :=
  sall isNameByte x && starts isNameByte x && negb (starts is_digit x).

Definition arithOp (op : ascii) : bool :=
  Ascii.eqb op "+" || Ascii.eqb op "-" || Ascii.eqb op "*" || Ascii.eqb op "/" || Ascii.eqb op "%".

Fixpoint canonical (e : sexpr) : bool :=
  match e with
  | Lit n => (0 <=? n) && (n <=? max_int64)
  | Var x => validName x
  | Neg e => canonical e
  | Bin op l r => arithOp op && canonical l && canonical r
  end.

Fixpoint print (e : sexpr) : string :=
  match e with
  | Lit n => FormatInt n
  | Var x => x
  | Neg e => String "-" (print e)
  | Bin op l r =>
      String "(" (print l +:+ String " " (String op (String " " (print r +:+ ")"))))
  end.

Fixpoint denote (lookup : string -> option Z) (e : sexpr) : result StaticError Z :=
  match e with
  | Lit n => Ok n
  | Var x => match lookup x with Some v => Ok v | None => Err (NotCompileTime x) end
  | Neg e => let* v := denote lookup e in Ok (wrap64 (- v))
  | Bin op l r =>
      let* v := denote lookup l in
      let* w := denote lookup r in
      apply op v w
  end.

Fixpoint vars (e : sexpr) : list string :=
  match e with
  | Lit _ => []
  | Var x => [x]
  | Neg e => vars e
  | Bin _ l r => vars l ++ vars r
  end.

(** ** Lemmas *)

Lemma is_digit_name c : is_digit c = true -> isNameByte c = true.
Proof. unfold is_digit, isNameByte. intros ->. rewrite !orb_true_r. reflexivity. Qed.

Lemma validName_start x :
  validName x = true ->
  exists c rest, x = String c rest /\ isNameByte c = true /\ is_digit c = false /\
    sall isNameByte x = true.
Proof.
  unfold validName. destruct x as [|c rest]; [discriminate|]. cbn [starts].
  rewrite !andb_true_iff, negb_true_iff. intros [[Hall Hc] Hd]. eauto 6.
Qed.

(** A byte of a name is none of the punctuation the evaluator tests first. *)
Lemma isNameByte_not c : isNameByte c = true -> Ascii.eqb c "(" = false /\ Ascii.eqb c "-" = false.
Proof.
  intros H. split; [destruct (Ascii.eqb_spec c "(") as [->|] | destruct (Ascii.eqb_spec c "-") as [->|]];
    try reflexivity; discriminate H.
Qed.

Lemma format_uint_start n :
  0 <= n -> exists c rest, format_uint n = String c rest /\ is_digit c = true.
Proof. intros H. apply format_uint_spec in H as [_ H]. exact H. Qed.

Section EvaluatorFacts.
Context (lookup : string -> option Z).

(** Every success leaves less text, and the bound is never reached. *)
Definition progresses (s : string) (r : result StaticError (Z * string)) : Prop :=
  match r with
  | Ok (_, rest) => (String.length rest < String.length s)%nat
  | Err e => e <> OutOfFuel
  end.

Lemma apply_error op l r e : apply op l r = Err e -> e <> OutOfFuel.
Proof. unfold apply. repeat step_if; congruence. Qed.

Lemma operation_progress (t : string -> result StaticError (Z * string)) c s :
  (forall s', (String.length s' <= String.length s)%nat -> progresses s' (t s')) ->
  progresses (String c s) (operation t s).
Proof.
  intros Ht. unfold operation. pose proof (Ht s (le_n _)) as H1.
  destruct (t s) as [[lhs s1]|e1]; [simpl in H1 | exact H1].
  destruct s1 as [|sp1 [|op [|sp2 s2]]]; try (simpl; congruence).
  destruct (Ascii.eqb sp1 " " && Ascii.eqb sp2 " "); [|simpl; congruence].
  pose proof (Ht s2) as H2. destruct (t s2) as [[rhs s3]|e2]; simpl in *; [|apply H2; lia].
  destruct s3 as [|cl s3]; [congruence|]. destruct (Ascii.eqb cl ")"); [|congruence].
  destruct (apply op lhs rhs) as [v|e] eqn:He.
  - specialize (H2 ltac:(lia)). simpl in *. lia.
  - eapply apply_error, He.
Qed.

Lemma term_progress fuel s :
  (String.length s < fuel)%nat -> progresses s (term lookup fuel s).
Proof.
  revert s. induction fuel as [|fuel IH]; intros s Hf; [lia|].
  destruct s as [|c rest]; [simpl; congruence|]. cbn [term]. simpl in Hf.
  destruct (Ascii.eqb c "("); [apply operation_progress; intros s' Hs'; apply IH; lia|].
  destruct (Ascii.eqb c "-").
  { specialize (IH rest ltac:(lia)). destruct (term lookup fuel rest) as [[v s]|e]; simpl in *; [lia|exact IH]. }
  destruct (is_digit c) eqn:Hd.
  { pose proof (sspan_length is_digit rest) as Hl. cbn [sspan]. rewrite Hd. cbv beta iota.
    match goal with |- context [ParseInt ?d] => destruct (ParseInt d) end; simpl; [lia|congruence]. }
  destruct (isNameByte c) eqn:Hn; [|simpl; congruence].
  pose proof (sspan_length isNameByte rest) as Hl. cbn [sspan]. rewrite Hn. cbv beta iota.
  match goal with |- context [lookup ?x] => destruct (lookup x) end; simpl; [lia|congruence].
Qed.

(** Evaluating a printed tree gives what the tree denotes, error for error. *)
Lemma term_print e rest fuel :
  canonical e = true -> starts isNameByte rest = false ->
  (String.length (print e +:+ rest) < fuel)%nat ->
  term lookup fuel (print e +:+ rest) = let* v := denote lookup e in Ok (v, rest).
Proof.
  revert rest fuel. induction e as [n|x|e IH|op l IHl r IHr]; intros rest fuel Hc Hr Hf;
    (destruct fuel as [|fuel]; [lia|]).
  - (* literal *)
    cbn [canonical] in Hc. rewrite andb_true_iff, !Z.leb_le in Hc. destruct Hc as [H0 Hmax].
    cbn [print denote] in *. unfold FormatInt in *.
    destruct (Z.ltb_spec n 0) as [|_]; [lia|].
    destruct (format_uint_start n H0) as (c & s & Heq & Hd).
    pose proof (sall_format_uint n H0) as Hall.
    assert (Hstart : starts is_digit rest = false).
    { destruct rest as [|a rest]; [reflexivity|]. simpl in *.
      destruct (is_digit a) eqn:Ha; [apply is_digit_name in Ha; congruence | reflexivity]. }
    pose proof (sspan_app is_digit (format_uint n) rest Hall Hstart) as Hspan.
    assert (Hp : ParseInt (format_uint n) = Some n).
    { pose proof (ParseInt_FormatInt n) as H. unfold FormatInt in H.
      destruct (Z.ltb_spec n 0); [lia|]. apply H. unfold in_int64, min_int64. lia. }
    rewrite Heq in *. cbn [append] in *. cbn [term].
    destruct (isNameByte_not c (is_digit_name c Hd)) as [-> ->]. rewrite Hd.
    rewrite Hspan, Hp. reflexivity.
  - (* name *)
    cbn [canonical print denote] in *.
    destruct (validName_start x Hc) as (c & s & -> & Hn & Hd & Hall).
    pose proof (sspan_app isNameByte (String c s) rest Hall Hr) as Hspan.
    cbn [append] in *. cbn [term]. destruct (isNameByte_not c Hn) as [-> ->].
    rewrite Hd, Hn, Hspan. destruct (lookup (String c s)); reflexivity.
  - (* negation *)
    cbn [canonical print denote append] in *. cbn [term]. simpl in Hf.
    change (Ascii.eqb "-" "(") with false. change (Ascii.eqb "-" "-") with true. cbv iota.
    rewrite IH by (auto; lia). destruct (denote lookup e); reflexivity.
  - (* operation *)
    cbn [canonical] in Hc. rewrite !andb_true_iff in Hc. destruct Hc as [[Hop Hl] Hrc].
    cbn [print denote append] in *. cbn [term].
    change (Ascii.eqb "(" "(") with true. cbv iota.
    unfold operation. rewrite sapp_assoc in Hf |- *. cbn [append] in Hf |- *.
    rewrite sapp_assoc in Hf |- *. cbn [append String.length] in Hf |- *.
    rewrite slength_app in Hf. cbn [String.length] in Hf. rewrite slength_app in Hf. cbn [String.length] in Hf.
    rewrite IHl; [|exact Hl | reflexivity |].
    2: { rewrite slength_app. cbn [String.length]. rewrite slength_app. cbn [String.length]. lia. }
    destruct (denote lookup l) as [v|err]; [|reflexivity].
    change (Ascii.eqb " " " " && Ascii.eqb " " " ") with true. cbv iota.
    rewrite IHr; [|exact Hrc | reflexivity |].
    2: { rewrite slength_app. cbn [String.length]. lia. }
    destruct (denote lookup r) as [w|err]; [|reflexivity].
    change (Ascii.eqb ")" ")") with true. cbv iota.
    destruct (apply op v w); reflexivity.
Qed.

Lemma apply_range op l r v : apply op l r = Ok v -> in_int64 v.
Proof.
  unfold apply. repeat step_if; intros H; inv_ok; try discriminate; apply wrap64_range.
Qed.

Context (lookup_range : forall x v, lookup x = Some v -> in_int64 v).

Lemma operation_range (t : string -> result StaticError (Z * string)) s v rest :
  operation t s = Ok (v, rest) -> in_int64 v.
Proof.
  unfold operation. destruct (t s) as [[lhs s1]|]; [|discriminate].
  destruct s1 as [|sp1 [|op [|sp2 s2]]]; try discriminate.
  step_if; [|discriminate]. destruct (t s2) as [[rhs s3]|]; [|discriminate].
  destruct s3 as [|cl s3]; [discriminate|]. step_if; [|discriminate].
  destruct (apply op lhs rhs) eqn:He; [|discriminate].
  intros [= <- _]. eapply apply_range, He.
Qed.

Lemma term_range fuel s v rest : term lookup fuel s = Ok (v, rest) -> in_int64 v.
Proof.
  destruct fuel as [|fuel]; [discriminate|]. destruct s as [|c s]; [discriminate|]. cbn [term].
  destruct (Ascii.eqb c "("); [apply operation_range|].
  destruct (Ascii.eqb c "-").
  { destruct (term lookup fuel s) as [[w s']|]; [|discriminate]. intros [= <- _]. apply wrap64_range. }
  destruct (is_digit c).
  { destruct (sspan is_digit (String c s)) as [digits s'].
    destruct (ParseInt digits) eqn:Hp; [|discriminate]. intros [= <- _]. eapply ParseInt_range, Hp. }
  destruct (isNameByte c); [|discriminate].
  destruct (sspan isNameByte (String c s)) as [name s'].
  destruct (lookup name) eqn:Hl; [|discriminate]. intros [= <- _]. eapply lookup_range, Hl.
Qed.
End EvaluatorFacts.

(** ** The names a text reads *)

Lemma namesFrom_fuel f1 f2 s :
  (String.length s <= f1)%nat -> (String.length s <= f2)%nat -> namesFrom f1 s = namesFrom f2 s.
Proof.
  revert f2 s. induction f1 as [|f1 IH]; intros f2 s H1 H2.
  - destruct s as [|c s]; [destruct f2; reflexivity | simpl in H1; lia].
  - destruct s as [|c s]; [destruct f2; reflexivity|]. simpl in H1.
    destruct f2 as [|f2]; [simpl in H2; lia|]. simpl in H2. cbn [namesFrom sspan].
    destruct (isNameByte c) eqn:Hn; [|apply IH; lia]. cbv beta iota.
    pose proof (sspan_length isNameByte s) as Hl.
    rewrite (IH f2 (snd (sspan isNameByte s))) by lia. reflexivity.
Qed.

Lemma Names_skip c s : isNameByte c = false -> Names (String c s) = Names s.
Proof. intros Hc. unfold Names. cbn [String.length namesFrom]. rewrite Hc. reflexivity. Qed.

Lemma Names_run x rest :
  sall isNameByte x = true -> starts isNameByte x = true -> starts isNameByte rest = false ->
  Names (x +:+ rest) = if starts is_digit x then Names rest else x :: Names rest.
Proof.
  intros Hall Hst Hr. destruct x as [|c x]; [discriminate|].
  pose proof (sspan_app isNameByte (String c x) rest Hall Hr) as Hspan.
  cbn [starts append] in *. unfold Names at 1. cbn [String.length namesFrom]. rewrite Hst, Hspan.
  unfold Names. rewrite (namesFrom_fuel _ (String.length rest) rest); [reflexivity | | lia].
  rewrite slength_app. lia.
Qed.

Lemma sall_digit_name s : sall is_digit s = true -> sall isNameByte s = true.
Proof.
  induction s as [|c s IH]; [reflexivity|]. simpl. rewrite !andb_true_iff.
  intros [Hc Hs]. auto using is_digit_name.
Qed.

Lemma Names_print_app e rest :
  canonical e = true -> starts isNameByte rest = false -> Names (print e +:+ rest) = vars e ++ Names rest.
Proof.
  revert rest. induction e as [n|x|e IH|op l IHl r IHr]; intros rest Hc Hr; cbn [canonical print vars] in *.
  - rewrite andb_true_iff, !Z.leb_le in Hc. destruct Hc as [H0 _].
    unfold FormatInt. destruct (Z.ltb_spec n 0); [lia|].
    destruct (format_uint_start n H0) as (c & s & Heq & Hd).
    rewrite Names_run; [rewrite Heq; simpl; rewrite Hd; reflexivity | | | exact Hr].
    + apply sall_digit_name, sall_format_uint, H0.
    + rewrite Heq. simpl. apply is_digit_name, Hd.
  - destruct (validName_start x Hc) as (c & s & -> & Hn & Hd & Hall).
    rewrite Names_run; auto. simpl. rewrite Hd. reflexivity.
  - cbn [append]. rewrite Names_skip by reflexivity. auto.
  - rewrite !andb_true_iff in Hc. destruct Hc as [[Hop Hl] Hrc].
    cbn [append]. rewrite Names_skip by reflexivity.
    rewrite sapp_assoc. cbn [append]. rewrite sapp_assoc. cbn [append].
    rewrite IHl by auto. rewrite Names_skip by reflexivity.
    assert (Hopb : isNameByte op = false).
    { unfold arithOp in Hop. rewrite !orb_true_iff in Hop.
      repeat destruct Hop as [Hop|Hop]; apply Ascii.eqb_eq in Hop as ->; reflexivity. }
    rewrite (Names_skip op) by exact Hopb. rewrite Names_skip by reflexivity.
    rewrite IHr by auto. rewrite Names_skip by reflexivity. apply app_assoc.
Qed.

Lemma denote_bound lookup e :
  (forall x, x ∈ vars e -> is_Some (lookup x)) ->
  forall name, denote lookup e <> Err (NotCompileTime name).
Proof.
  induction e as [n|x|e IH|op l IHl r IHr]; intros Hb name; simpl in *.
  - discriminate.
  - destruct (Hb x ltac:(left)) as [v ->]. discriminate.
  - destruct (denote lookup e) eqn:He; [discriminate|]. intros H. apply (IH Hb name). congruence.
  - destruct (denote lookup l) eqn:Hl.
    2: { intros H. apply (IHl ltac:(set_solver) name). congruence. }
    destruct (denote lookup r) eqn:Hr.
    2: { intros H. apply (IHr ltac:(set_solver) name). congruence. }
    unfold apply. repeat step_if; discriminate.
Qed.

(** ** Properties *)

(** Evaluating the canonical spelling of a static expression gives exactly
    the value, or exactly the error, of the expression: 64-bit wrap-around
    arithmetic, truncating division, operands left to right. *)
Theorem static_eval_print lookup e :
  canonical e = true -> Eval_ lookup (print e) = denote lookup e.
Proof.
  intros Hc. unfold Eval_.
  pose proof (term_print lookup e "" (S (String.length (print e))) Hc eq_refl) as H.
  rewrite sapp_nil_r in H. rewrite H by lia. destruct (denote lookup e); reflexivity.
Qed.

Definition sample_lookup (x : string) : option Z :=
  if String.eqb x "n1" then Some 3 else if String.eqb x "k2" then Some 2 else None.

Definition sample_expr : sexpr :=
  Bin "/" (Bin "+" (Bin "*" (Var "n1") (Lit 8)) (Neg (Var "k2"))) (Lit 5).

Lemma static_eval_print_witness :
  print sample_expr = "(((n1 * 8) + -k2) / 5)"%string /\
  Eval_ sample_lookup (print sample_expr) = Ok 4.
Proof.
  split; [reflexivity|].
  rewrite (static_eval_print sample_lookup sample_expr) by reflexivity. reflexivity.
Defined.

(** Evaluation of any text at all ends: the model's bound is never
    reached, and with 64-bit names every value it returns is a 64-bit
    integer. *)
Theorem static_eval_total lookup text :
  (forall x v, lookup x = Some v -> in_int64 v) ->
  match Eval_ lookup text with
  | Ok v => in_int64 v
  | Err e => e <> OutOfFuel
  end.
Proof.
  intros Hl. unfold Eval_.
  pose proof (term_progress lookup (S (String.length text)) text ltac:(lia)) as Hp.
  destruct (term lookup (S (String.length text)) text) as [[v rest]|e] eqn:Ht; [|exact Hp].
  apply (term_range lookup Hl) in Ht. destruct rest; [exact Ht | discriminate].
Qed.

Lemma static_eval_total_witness :
  (forall x v, sample_lookup x = Some v -> in_int64 v) /\
  match Eval_ sample_lookup "(n1 * (k2" with Ok v => in_int64 v | Err e => e <> OutOfFuel end.
Proof.
  assert (H : forall x v, sample_lookup x = Some v -> in_int64 v).
  { intros x v. unfold sample_lookup, in_int64, min_int64, max_int64.
    destruct (String.eqb x "n1"); [intros [= <-]; lia|].
    destruct (String.eqb x "k2"); [intros [= <-]; lia | discriminate]. }
  split; [exact H | exact (static_eval_total sample_lookup "(n1 * (k2" H)].
Defined.

(** [Names] lists exactly the names of a canonical expression, in reading
    order, so an expression all of whose names are bound never fails because
    a name is not a compile-time integer. *)
Theorem static_names_bound lookup e :
  canonical e = true ->
  Names (print e) = vars e /\
  ((forall x, x ∈ Names (print e) -> is_Some (lookup x)) ->
   forall name, Eval_ lookup (print e) <> Err (NotCompileTime name)).
Proof.
  intros Hc. pose proof (Names_print_app e "" Hc eq_refl) as Hn.
  rewrite sapp_nil_r in Hn. change (Names "") with (@nil string) in Hn. rewrite app_nil_r in Hn.
  split; [exact Hn|]. rewrite Hn. intros Hb name. unfold Eval_.
  pose proof (term_print lookup e "" (S (String.length (print e))) Hc eq_refl) as Ht.
  rewrite sapp_nil_r in Ht. rewrite Ht by lia.
  pose proof (denote_bound lookup e Hb name).
  destruct (denote lookup e); [discriminate | congruence].
Qed.

Lemma static_names_bound_witness :
  Names (print sample_expr) = ["n1"; "k2"]%string /\
  forall name, Eval_ sample_lookup (print sample_expr) <> Err (NotCompileTime name).
Proof.
  destruct (static_names_bound sample_lookup sample_expr eq_refl) as [Hn Hb].
  split; [exact Hn|]. apply Hb. rewrite Hn. intros x Hx.
  apply elem_of_cons in Hx as [->|Hx]; [eexists; reflexivity|].
  apply list_elem_of_singleton in Hx as ->. eexists; reflexivity.
Defined.
