(* ===== verification/Typ.v ===== *)
(** * Types as the compiler parses and prints them ([internal/typ/typ.go])

    The tree, its spelling, structural equality, name mapping, substitution of
    type parameters, and the binding of static array lengths.  A Go [Type]
    that may be nil is an [option]; only [ErrorUnion.Err] ever is. *)

From stdpp Require Import base list strings gmap.
From Stdlib Require Import ZArith Lia String Ascii.
From S2P Require Import Prelude GoStd StaticExpr.

#[local] Open Scope Z_scope.
#[local] Open Scope string_scope.
#[local] Set Warnings "-register-all".

Inductive Ty : Type :=
  | Name (Path : list string) (Args : list Ty)
  | Slice (Elem : Ty)
  | Buffer (Size : Z) (Len : string) (Elem : Ty)
  | Borrow (Elem : Ty) (Mut : bool)
  | Optional (Elem : Ty)
  | Const (Elem : Ty)
  | Func (Params : list Ty) (Result : Ty) (Unsafe : bool) (ABI : string)
  | ErrorUnion (Err : option Ty) (Ok : Ty).

(** Induction with a hypothesis for every type inside a list or an option. *)
Section TyInd.
Context (P : Ty -> Prop).
Context (HName : forall p args, Forall P args -> P (Name p args)).
Context (HSlice : forall e, P e -> P (Slice e)).
Context (HBuffer : forall s l e, P e -> P (Buffer s l e)).
Context (HBorrow : forall e m, P e -> P (Borrow e m)).
Context (HOptional : forall e, P e -> P (Optional e)).
Context (HConst : forall e, P e -> P (Const e)).
Context (HFunc : forall ps r u a, Forall P ps -> P r -> P (Func ps r u a)).
Context (HUnion : forall e o, (forall t, e = Some t -> P t) -> P o -> P (ErrorUnion e o)).

Fixpoint Ty_rect' (t : Ty) : P t :=
  let all := fix all (l : list Ty) : Forall P l :=
    match l with
    | [] => Forall_nil_2 P
    | x :: l => Forall_cons_2 P x l (Ty_rect' x) (all l)
    end in
  match t with
  | Name p args => HName p args (all args)
  | Slice e => HSlice e (Ty_rect' e)
  | Buffer s l e => HBuffer s l e (Ty_rect' e)
  | Borrow e m => HBorrow e m (Ty_rect' e)
  | Optional e => HOptional e (Ty_rect' e)
  | Const e => HConst e (Ty_rect' e)
  | Func ps r u a => HFunc ps r u a (all ps) (Ty_rect' r)
  | ErrorUnion e o =>
      HUnion e o
        (match e with
         | Some x => fun t H => match H in _ = y return match y with Some t => P t | None => True end
                                with eq_refl => Ty_rect' x end
         | None => fun t H => match H with end
         end) (Ty_rect' o)
  end.
End TyInd.

(** ** Spelling *)

(** [VectorOf] *)
Definition VectorOf (name : string) : option (string * Z) :=
  if String.eqb name "f64x2" then Some ("f64", 2)
  else if String.eqb name "f32x4" then Some ("f32", 4)
  else if String.eqb name "i64x2" then Some ("i64", 2)
  else if String.eqb name "i32x4" then Some ("i32", 4)
  else if String.eqb name "i16x8" then Some ("i16", 8)
  else if String.eqb name "u64x2" then Some ("u64", 2)
  else if String.eqb name "u32x4" then Some ("u32", 4)
  else if String.eqb name "u16x8" then Some ("u16", 8)
  else None.

Definition IsVector (name : string) : bool := bool_decide (is_Some (VectorOf name)).

(** [Buffer.LenText] *)
Definition LenText (size : Z) (len : string) : string :=
  if String.eqb len "" then FormatInt size else len.

(** [strings.Join] *)
Fixpoint Join (parts : list string) (sep : string) : string :=
  match parts with
  | [] => ""
  | [x] => x
  | x :: rest => x +:+ sep +:+ Join rest sep
  end.

(** The head of a function pointer's spelling. *)
Definition funcHead (unsafe : bool) (abi : string) : string :=
  let head := if unsafe then "unsafe fn(" else "fn(" in
  if String.eqb abi "" then head
  else "extern " +:+ String "034" (abi +:+ String "034" " fn(").

(** [Type.String], one case per node. *)
Fixpoint TypeString (t : Ty) : string :=
  match t with
  | Name path args =>
      let name := Join path "::" in
      match args with
      | [] => name
      | _ => name +:+ "<" +:+ Join (map TypeString args) ", " +:+ ">"
      end
  | Slice e => "[]" +:+ TypeString e
  | Buffer size len e => "[" +:+ LenText size len +:+ "]" +:+ TypeString e
  | Borrow e true => "&var " +:+ TypeString e
  | Borrow e false => "&" +:+ TypeString e
  | Optional e => "?" +:+ TypeString e
  | Const e => "const " +:+ TypeString e
  | ErrorUnion None ok => "!" +:+ TypeString ok
  | ErrorUnion (Some e) ok => TypeString e +:+ "!" +:+ TypeString ok
  | Func params r unsafe abi =>
      funcHead unsafe abi +:+ Join (map TypeString params) ", " +:+ ") -> " +:+ TypeString r
  end.

(** [IsFuncSpelling] *)
Definition IsFuncSpelling (text : string) : bool :=
  HasPrefix text "fn(" || HasPrefix text "unsafe fn(" || HasPrefix text (funcHead false "c").

(** [Text] *)
Definition Text (t : option Ty) : string :=
  match t with Some t => TypeString t | None => "" end.

(** ** Structural equality *)

(** [Equal] on two types that may be absent. *)
Definition EqualOpt (equal : Ty -> Ty -> bool) (lhs rhs : option Ty) : bool :=
  match lhs, rhs with
  | Some l, Some r => equal l r
  | None, None => true
  | _, _ => false
  end.

(** [equal], one case per node.  [Func.equal] does not read the ABI. *)
Fixpoint equal (t other : Ty) : bool :=
  match t, other with
  | Name path args, Name path' args' =>
      (List.length path =? List.length path')%nat && (List.length args =? List.length args')%nat &&
      all2 String.eqb path path' && all2 equal args args'
  | Slice e, Slice e' => equal e e'
  | Buffer size len e, Buffer size' len' e' => (size =? size')%Z && String.eqb len len' && equal e e'
  | Borrow e mut, Borrow e' mut' => Bool.eqb mut mut' && equal e e'
  | Optional e, Optional e' => equal e e'
  | Const e, Const e' => equal e e'
  | ErrorUnion err ok, ErrorUnion err' ok' =>
      match err, err' with
      | Some l, Some r => equal l r
      | None, None => true
      | _, _ => false
      end && equal ok ok'
  | Func params r unsafe _, Func params' r' unsafe' _ =>
      Bool.eqb unsafe unsafe' && (List.length params =? List.length params')%nat &&
      all2 equal params params' && equal r r'
  | _, _ => false
  end.

Definition Equal : option Ty -> option Ty -> bool := EqualOpt equal.

(** ** Rewriting names and walking *)

(** [MapNames], with [mapNameNode] and [mapFuncNode] as its cases.  The success
    side of an error union is mapped before its error side. *)
Fixpoint MapNames {E} (rename : list string -> result E (list string)) (t : Ty) : result E Ty :=
  match t with
  | Name path args =>
      let* path := rename path in
      let* args := map_ok (MapNames rename) args in
      Ok (Name path args)
  | Slice e => let* e := MapNames rename e in Ok (Slice e)
  | Buffer size len e => let* e := MapNames rename e in Ok (Buffer size len e)
  | Borrow e mut => let* e := MapNames rename e in Ok (Borrow e mut)
  | Optional e => let* e := MapNames rename e in Ok (Optional e)
  | Const e => let* e := MapNames rename e in Ok (Const e)
  | Func params r unsafe abi =>
      let* params := map_ok (MapNames rename) params in
      let* r := MapNames rename r in
      Ok (Func params r unsafe abi)
  | ErrorUnion err ok =>
      let* ok := MapNames rename ok in
      match err with
      | None => Ok (ErrorUnion None ok)
      | Some e => let* e := MapNames rename e in Ok (ErrorUnion (Some e) ok)
      end
  end.

(** [Walk]: the types it visits, outermost first. *)
Fixpoint Walk (t : Ty) : list Ty :=
  t :: match t with
  | Name _ args => flat_map Walk args
  | Slice e | Buffer _ _ e | Borrow e _ | Optional e | Const e => Walk e
  | Func params r _ _ => (flat_map Walk params ++ Walk r)%list
  | ErrorUnion (Some e) ok => (Walk e ++ Walk ok)%list
  | ErrorUnion None ok => Walk ok
  end.

(** ** Substitution of type parameters *)

(** [Substitute] past its test for an empty map, with [substituteName] and
    [substituteFunc] as its cases. *)
Fixpoint substitute (subst : gmap string Ty) (t : Ty) : Ty :=
  match t with
  | Name path args =>
      match path, args with
      | [name], [] => default t (subst !! name)
      | _, [] => t
      | _, _ => Name path (map (substitute subst) args)
      end
  | Slice e => Slice (substitute subst e)
  | Buffer size len e => Buffer size len (substitute subst e)
  | Borrow e mut => Borrow (substitute subst e) mut
  | Optional e => Optional (substitute subst e)
  | Const e => Const (substitute subst e)
  | Func params r unsafe abi =>
      Func (map (substitute subst) params) (substitute subst r) unsafe abi
  | ErrorUnion err ok =>
      ErrorUnion (match err with Some e => Some (substitute subst e) | None => None end)
                 (substitute subst ok)
  end.

Definition Substitute (t : Ty) (subst : gmap string Ty) : Ty :=
  if decide (base.size subst = 0%nat) then t else substitute subst t.

(** ** Array lengths that wait on static names *)

(** [wrappedElem] *)
Definition wrappedElem (t : Ty) : option Ty :=
  match t with
  | Slice e | Borrow e _ | Optional e | Const e => Some e
  | _ => None
  end.

(** [HasStaticLength] and [anyStaticLength]; the last line of the Go code asks
    [wrappedElem] for the element of the four wrapping nodes. *)
Fixpoint HasStaticLength (t : Ty) : bool :=
  match t with
  | Name _ args => existsb HasStaticLength args
  | Buffer _ len e => negb (String.eqb len "") || HasStaticLength e
  | Func params r _ _ => existsb HasStaticLength params || HasStaticLength r
  | ErrorUnion err ok =>
      HasStaticLength ok || match err with Some e => HasStaticLength e | None => false end
  | Slice e | Borrow e _ | Optional e | Const e => HasStaticLength e
  end.

(** Every error of this package; [OutOfFuel] is the parser model's bound. *)
Inductive TypeError : Type :=
  | TrailingText
  | UnbalancedClose
  | UnbalancedOpen
  | EmptyArgument
  | UnclosedParen
  | ExpectedArrow
  | ExpectedBracket
  | ExpectedSize
  | SizeRange
  | ExpectedName
  | UnclosedAngle
  | LengthError (e : StaticError)
  | LengthNotPositive (size : Z)
  | OutOfFuel.

Section Binding.
Context (value : string -> option Z).

(** The end of [bindBuffer], once the element is bound. *)
Definition bindLength (size : Z) (len : string) (elem : Ty) : result TypeError Ty :=
  if String.eqb len "" then Ok (Buffer size len elem)
  else if existsb (fun name => bool_decide (value name = None)) (Names len)
  then Ok (Buffer size len elem)
  else match Eval_ value len with
  | Err e => Err (LengthError e)
  | Ok size =>
      if (size <=? 0)%Z then Err (LengthNotPositive size) else Ok (Buffer size "" elem)
  end.

(** [BindLengths], with [bindBuffer], [bindFunc] and [bindErrorUnion] as its
    cases. *)
Fixpoint BindLengths (t : Ty) : result TypeError Ty :=
  if HasStaticLength t then
    match t with
    | Name path args =>
        match args with
        | [] => Ok t
        | _ => let* args := map_ok BindLengths args in Ok (Name path args)
        end
    | Buffer size len e => let* e := BindLengths e in bindLength size len e
    | Slice e => let* e := BindLengths e in Ok (Slice e)
    | Borrow e mut => let* e := BindLengths e in Ok (Borrow e mut)
    | Optional e => let* e := BindLengths e in Ok (Optional e)
    | Const e => let* e := BindLengths e in Ok (Const e)
    | Func params r unsafe abi =>
        let* params := map_ok BindLengths params in
        let* r := BindLengths r in
        Ok (Func params r unsafe abi)
    | ErrorUnion err ok =>
        let* ok := BindLengths ok in
        match err with
        | Some e => let* e := BindLengths e in Ok (ErrorUnion (Some e) ok)
        | None => Ok (ErrorUnion None ok)
        end
    end
  else Ok t.
End Binding.

(** [HasStaticLengthText] *)
Fixpoint HasStaticLengthText (text : string) : bool :=
  match text with
  | String c (String d _ as rest) =>
      (Ascii.eqb c "[" && negb (Ascii.eqb d "]") && negb (is_digit d)) || HasStaticLengthText rest
  | _ => false
  end.

(** ** Questions about one spelling or one node *)

(** [ErrorUnionParts] *)
Definition ErrorUnionParts (t : Ty) : option (option Ty * Ty) :=
  match t with ErrorUnion err ok => Some (err, ok) | _ => None end.

(** [AbsorbsErrorSet] *)
Definition AbsorbsErrorSet (want got : Ty) : bool :=
  match ErrorUnionParts want with
  | Some (None, wantSuccess) =>
      match ErrorUnionParts got with
      | Some (Some _, gotSuccess) => equal gotSuccess wantSuccess
      | _ => false
      end
  | _ => false
  end.

(** [OptionalElem] *)
Definition OptionalElem (text : string) : option string :=
  if negb (HasPrefix text "?") || HasPrefix text "?ptr<" then None else Some (sdrop 1 text).

(** [NullablePointerElem] *)
Definition NullablePointerElem (text : string) : option string :=
  if HasPrefix text "?ptr<" then Some (sdrop 1 text) else None.

(** [OpenableElem] *)
Definition OpenableElem (text : string) : option string :=
  match OptionalElem text with
  | Some elem => Some elem
  | None => NullablePointerElem text
  end.

(** [BorrowOptionalElem] *)
Definition BorrowOptionalElem (text : string) : option (string * bool) :=
  match CutPrefix text "?&var " with
  | Some elem => Some (elem, true)
  | None =>
      match CutPrefix text "?&" with
      | Some elem => Some (elem, false)
      | None => None
      end
  end.

(** [IsMapKey] and its table *)
Definition mapKeyTypes : gset string :=
  list_to_set ["i8"; "i16"; "i32"; "i64"; "u8"; "u16"; "u32"; "u64"; "isize"; "usize"].

Definition IsMapKey (text : string) : bool :=
  String.eqb text "[]u8" || bool_decide (text ∈ mapKeyTypes).

(** [ShiftInt64]; a Go shift count is unsigned, so a negative [amount] is its
    two's complement. *)
Definition ShiftInt64 (op : string) (value amount : Z) : Z :=
  let shift (amount : Z) :=
    let amount := if (amount <? 0)%Z then (amount + 2 ^ 64)%Z else amount in
    if String.eqb op "<<" then wrap64 (Z.shiftl value amount) else Z.shiftr value amount in
  if (64 <=? amount)%Z then
    if String.eqb op "<<" then 0%Z else shift 63%Z
  else shift amount.

(** ** Splitting a static argument list *)

(** The UTF-8 encodings of the white space [strings.TrimSpace] removes. *)
Definition byte (n : nat) : string := String (ascii_of_nat n) "".

Definition spaceEncodings : list string :=
  [byte 9; byte 10; byte 11; byte 12; byte 13; byte 32;
   byte 194 +:+ byte 133; byte 194 +:+ byte 160;
   byte 225 +:+ byte 154 +:+ byte 128;
   byte 226 +:+ byte 128 +:+ byte 128; byte 226 +:+ byte 128 +:+ byte 129;
   byte 226 +:+ byte 128 +:+ byte 130; byte 226 +:+ byte 128 +:+ byte 131;
   byte 226 +:+ byte 128 +:+ byte 132; byte 226 +:+ byte 128 +:+ byte 133;
   byte 226 +:+ byte 128 +:+ byte 134; byte 226 +:+ byte 128 +:+ byte 135;
   byte 226 +:+ byte 128 +:+ byte 136; byte 226 +:+ byte 128 +:+ byte 137;
   byte 226 +:+ byte 128 +:+ byte 138; byte 226 +:+ byte 128 +:+ byte 168;
   byte 226 +:+ byte 128 +:+ byte 169; byte 226 +:+ byte 128 +:+ byte 175;
   byte 226 +:+ byte 129 +:+ byte 159; byte 227 +:+ byte 128 +:+ byte 128].

Fixpoint trimLeft (fuel : nat) (s : string) : string :=
  match fuel, List.find (HasPrefix s) spaceEncodings with
  | S fuel, Some sp => trimLeft fuel (TrimPrefix s sp)
  | _, _ => s
  end.

Fixpoint trimRight (fuel : nat) (s : string) : string :=
  match fuel, List.find (HasSuffix s) spaceEncodings with
  | S fuel, Some sp => trimRight fuel (TrimSuffix s sp)
  | _, _ => s
  end.

(** [strings.TrimSpace]: each step removes a byte, so the length is enough. *)
Definition TrimSpace (s : string) : string :=
  trimRight (String.length s) (trimLeft (String.length s) s).

(** The loop of [SplitArgs]: [cur] is [text[start:idx]]. *)
Fixpoint splitArgsFrom (text cur : string) (depth : Z) (parts : list string)
  : result TypeError (list string) :=
  match text with
  | EmptyString =>
      if negb (depth =? 0)%Z then Err UnbalancedOpen
      else
        let parts := (parts ++ [TrimSpace cur])%list in
        if existsb (fun part => String.eqb part "") parts then Err EmptyArgument else Ok parts
  | String ch rest =>
      let cur' := cur +:+ String ch "" in
      if Ascii.eqb ch "<" then splitArgsFrom rest cur' (depth + 1) parts
      else if Ascii.eqb ch ">" then
        if (depth - 1 <? 0)%Z then Err UnbalancedClose
        else splitArgsFrom rest cur' (depth - 1) parts
      else if Ascii.eqb ch "," && (depth =? 0)%Z then
        splitArgsFrom rest "" depth (parts ++ [TrimSpace cur])%list
      else splitArgsFrom rest cur' depth parts
  end.

Definition SplitArgs (text : string) : result TypeError (list string) :=
  splitArgsFrom text "" 0 [].
