(* ===== verification/TypParse.v ===== *)
(** * Reading a type spelling back ([internal/typ/parse.go], [Parse], [SubstituteText])

    The parser's position is the suffix of the input still unread, so
    [accept] is [CutPrefix].  Each function takes a bound on its recursion;
    [TypParse] shows the bound [Parse] gives is never reached. *)

From stdpp Require Import base list strings gmap.
From Stdlib Require Import ZArith Lia String Ascii.
From S2P Require Import Prelude GoStd StaticExpr Typ.

#[local] Open Scope string_scope.

(** [isLengthByte] and the byte test of [parseIdent] are the same set. *)
Definition isLengthByte : ascii -> bool := isNameByte.

(** [parser.skipLength]: the length passed and the rest. *)
Fixpoint skipLength (depth : nat) (passed input : string) : result TypeError (string * string) :=
  match input with
  | EmptyString => Err ExpectedBracket
  | String ch rest =>
      let next depth := skipLength depth (passed +:+ String ch "") rest in
      if Ascii.eqb ch "(" then next (S depth)
      else if Ascii.eqb ch ")" && (0 <? depth)%nat then next (pred depth)
      else if (depth =? 0)%nat && negb (isLengthByte ch) then
        if String.eqb passed "" then Err ExpectedSize else Ok (passed, input)
      else next depth
  end.

(** The separator between two entries: [p.accept(",")], then [p.accept(" ")]. *)
Definition acceptComma (s : string) : option string :=
  match CutPrefix s "," with
  | Some s => Some (TrimPrefix s " ")
  | None => None
  end.

(** The path of [parser.parseName]: identifiers between [::]. *)
Fixpoint parsePath (fuel : nat) (s : string) : result TypeError (list string * string) :=
  match fuel with
  | O => Err OutOfFuel
  | S fuel =>
      let (part, s) := sspan isNameByte s in
      if String.eqb part "" then Err ExpectedName
      else match CutPrefix s "::" with
      | Some s =>
          let* (path, s) := parsePath fuel s in
          Ok (part :: path, s)
      | None => Ok ([part], s)
      end
  end.

(** What one level of the parser does, given the parsers of the level below:
    [type_] for [parseType], [prefix_] for [parsePrefix], [list_] for the loop
    over comma-separated types. *)
Section Level.
Context (type_ prefix_ : string -> result TypeError (Ty * string)).
Context (list_ : string -> result TypeError (list Ty * string)).

(** [parser.parseType] *)
Definition parseTypeBody (s : string) : result TypeError (Ty * string) :=
  let* (lhs, s) := prefix_ s in
  match CutPrefix s "!" with
  | None => Ok (lhs, s)
  | Some s =>
      let* (ok, s) := prefix_ s in
      Ok (ErrorUnion (Some lhs) ok, s)
  end.

(** The loop [for { arg := parseType(); if accept(",") {...continue}; break }] *)
Definition parseListBody (s : string) : result TypeError (list Ty * string) :=
  let* (t, s) := type_ s in
  match acceptComma s with
  | Some s =>
      let* (ts, s) := list_ s in
      Ok (t :: ts, s)
  | None => Ok ([t], s)
  end.

(** [parser.parseFunc] *)
Definition parseFunc (unsafe : bool) (abi : string) (s : string)
  : result TypeError (Ty * string) :=
  let* (params, s) :=
    match CutPrefix s ")" with
    | Some s => Ok ([], s)
    | None =>
        let* (params, s) := list_ s in
        match CutPrefix s ")" with
        | Some s => Ok (params, s)
        | None => Err UnclosedParen
        end
    end in
  match CutPrefix s " -> " with
  | None => Err ExpectedArrow
  | Some s =>
      let* (r, s) := type_ s in
      Ok (Func params r unsafe abi, s)
  end.

(** [parser.parseBuffer], past the opening bracket *)
Definition parseBuffer (s : string) : result TypeError (Ty * string) :=
  let* (len, s) := skipLength 0 "" s in
  match CutPrefix s "]" with
  | None => Err ExpectedBracket
  | Some s =>
      let* (elem, s) := prefix_ s in
      if negb (starts is_digit len) then Ok (Buffer 0 len elem, s)
      else match ParseInt len with
      | Some size => Ok (Buffer size "" elem, s)
      | None => Err SizeRange
      end
  end.

(** [parser.parseName] *)
Definition parseName (s : string) : result TypeError (Ty * string) :=
  let* (path, s) := parsePath (S (String.length s)) s in
  match CutPrefix s "<" with
  | None => Ok (Name path [], s)
  | Some s =>
      let* (args, s) := list_ s in
      match CutPrefix s ">" with
      | Some s => Ok (Name path args, s)
      | None => Err UnclosedAngle
      end
  end.

(** One wrapping case of [parser.parsePrefix]. *)
Definition wrap (node : Ty -> Ty) (s : string) : result TypeError (Ty * string) :=
  let* (elem, s) := prefix_ s in Ok (node elem, s).

(** [parser.parsePrefix], the cases in the order of its switch; a [[] starts
    [parseBracketed]. *)
Definition parsePrefixBody (s : string) : result TypeError (Ty * string) :=
  match CutPrefix s "!" with Some s => wrap (ErrorUnion None) s | None =>
  match CutPrefix s "[" with
  | Some rest =>
      match CutPrefix s "[]" with Some s => wrap Slice s | None => parseBuffer rest end
  | None =>
  match CutPrefix s "&var " with Some s => wrap (fun e => Borrow e true) s | None =>
  match CutPrefix s "&" with Some s => wrap (fun e => Borrow e false) s | None =>
  match CutPrefix s "?" with Some s => wrap Optional s | None =>
  match CutPrefix s "unsafe fn(" with Some s => parseFunc true "" s | None =>
  match CutPrefix s (funcHead false "c") with Some s => parseFunc false "c" s | None =>
  match CutPrefix s "fn(" with Some s => parseFunc false "" s | None =>
  match CutPrefix s "const " with Some s => wrap Const s | None =>
  parseName s
  end end end end end end end end end.
End Level.

(** The three mutually recursive parsers, by level. *)
Record parsers : Type := mkParsers {
  atType : string -> result TypeError (Ty * string);
  atPrefix : string -> result TypeError (Ty * string);
  atList : string -> result TypeError (list Ty * string)
}.

Fixpoint parserAt (fuel : nat) : parsers :=
  match fuel with
  | O => mkParsers (fun _ => Err OutOfFuel) (fun _ => Err OutOfFuel) (fun _ => Err OutOfFuel)
  | S fuel =>
      let below := parserAt fuel in
      let prefix_ := parsePrefixBody (atType below) (atPrefix below) (atList below) in
      let type_ := parseTypeBody prefix_ in
      mkParsers type_ prefix_ (parseListBody type_ (atList below))
  end.

(** [Parse] *)
Definition Parse (text : string) : result TypeError Ty :=
  let* (parsed, rest) := atType (parserAt (S (String.length text))) text in
  match rest with
  | EmptyString => Ok parsed
  | _ => Err TrailingText
  end.

(** [SubstituteText]: the replacements are parsed in the map's order, which
    decides only which of several errors is returned. *)
Fixpoint parseReplacements (l : list (string * string)) : result TypeError (gmap string Ty) :=
  match l with
  | [] => Ok ∅
  | (name, replacement) :: rest =>
      let* value := Parse replacement in
      let* others := parseReplacements rest in
      Ok (<[name := value]> others)
  end.

Definition SubstituteText (text : string) (subst : gmap string string) : result TypeError string :=
  if decide (base.size subst = 0%nat) then Ok text
  else
    let* parsed := Parse text in
    let* replacements := parseReplacements (map_to_list subst) in
    Ok (TypeString (Substitute parsed replacements)).

(** [BindLengthsText] *)
Definition BindLengthsText (text : string) (value : string -> option Z) : string :=
  if HasStaticLengthText text then
    match Parse text with
    | Ok parsed =>
        match BindLengths value parsed with Ok bound => TypeString bound | Err _ => text end
    | Err _ => text
    end
  else text.

(** [Table]: parsed types under their canonical spelling. *)
Abbreviation Table := (gmap string Ty).

(** [NewTable] *)
Definition NewTable : Table := ∅.

(** [Table.Remember] *)
Definition Remember (t : Table) (value : Ty) : Ty * Table :=
  let name := TypeString value in
  match t !! name with
  | Some parsed => (parsed, t)
  | None => (value, <[name := value]> t)
  end.

(** [Table.Parse] *)
Definition TableParse (t : Table) (text : string) : result TypeError Ty * Table :=
  match t !! text with
  | Some parsed => (Ok parsed, t)
  | None =>
      match Parse text with
      | Ok parsed => let (value, t) := Remember t parsed in (Ok value, t)
      | Err e => (Err e, t)
      end
  end.

Example parse_map :
  Parse "std::map::Map<[]u8, [(n * 2)]?&var T>" =
  Ok (Name ["std"; "map"; "Map"]
        [Slice (Name ["u8"] []); Buffer 0 "(n * 2)" (Optional (Borrow (Name ["T"] []) true))]).
Proof. vm_compute. reflexivity. Qed.

(** * Types print and parse back

    [wf] marks the trees a spelling can stand for.  Every spelling of such a
    tree parses to the tree, every tree the parser returns is such a tree, and
    the parser never reaches its bound. *)

(** ** Trees a spelling can stand for *)

(** A type that a following [!] would be read into: it ends in the result of a
    function pointer, which the parser reads with the error unions inside. *)
Fixpoint noBang (t : Ty) : bool :=
  match t with
  | Name _ _ => false
  | Slice e | Buffer _ _ e | Borrow e _ | Optional e | Const e => noBang e
  | Func _ r _ _ => match r with ErrorUnion (Some _) ok => noBang ok | _ => true end
  | ErrorUnion _ ok => noBang ok
  end.

Definition typeNoBang (t : Ty) : bool :=
  match t with ErrorUnion (Some _) ok => noBang ok | _ => true end.

Definition validIdent (x : string) : bool := sall isNameByte x && negb (String.eqb x "").

Definition validLength (size : Z) (len : string) : bool :=
  if String.eqb len "" then (0 <=? size)%Z && (size <=? max_int64)%Z
  else (size =? 0)%Z && negb (starts is_digit len) &&
    match skipLength 0 "" (len +:+ "]") with
    | Ok (passed, rest) => String.eqb passed len && String.eqb rest "]"
    | Err _ => false
    end.

Definition validABI (unsafe : bool) (abi : string) : bool :=
  String.eqb abi "" || (String.eqb abi "c" && negb unsafe).

(** [wf true] is what [parseType] can return, [wf false] what [parsePrefix] can. *)
Fixpoint wf (top : bool) (t : Ty) : bool :=
  match t with
  | Name path args =>
      negb (bool_decide (path = [])) && forallb validIdent path && forallb (wf true) args
  | Slice e | Borrow e _ | Optional e | Const e => wf false e
  | Buffer size len e => validLength size len && wf false e
  | Func params r unsafe abi => forallb (wf true) params && wf true r && validABI unsafe abi
  | ErrorUnion None ok => wf false ok
  | ErrorUnion (Some e) ok => top && wf false e && negb (noBang e) && wf false ok
  end.

Lemma wf_top t : wf false t = true -> wf true t = true.
Proof. destruct t as [| | | | | | |[]]; simpl; auto. discriminate. Qed.

(** ** Text that can follow a type *)

Definition isBang (c : ascii) : bool := Ascii.eqb c "!".

Definition isFollow (c : ascii) : bool :=
  Ascii.eqb c "," || Ascii.eqb c ">" || Ascii.eqb c ")" || Ascii.eqb c "!".

Definition follow (s : string) : Prop := s = "" \/ starts isFollow s = true.

Lemma isFollow_cases c : isFollow c = true -> c = ","%char \/ c = ">"%char \/ c = ")"%char \/ c = "!"%char.
Proof.
  unfold isFollow. rewrite !orb_true_iff, !Ascii.eqb_eq. tauto.
Qed.

Lemma follow_name s : follow s -> starts isNameByte s = false.
Proof.
  intros [->|H]; [reflexivity|]. destruct s as [|c s]; [reflexivity|].
  apply isFollow_cases in H as [->|[->|[->| ->]]]; reflexivity.
Qed.

Lemma CutPrefix_cons_ne c d s p : c <> d -> CutPrefix (String c s) (String d p) = None.
Proof.
  intros H. cbn [CutPrefix]. destruct (Ascii.eqb_spec d c) as [->|]; [congruence | reflexivity].
Qed.

Lemma starts_bang s : starts isBang s = false <-> CutPrefix s "!" = None.
Proof.
  destruct s as [|c s]; [split; reflexivity|]. cbn [starts CutPrefix]. unfold isBang.
  rewrite Ascii.eqb_sym. destruct (Ascii.eqb "!" c); split; congruence.
Qed.

(** A name followed by no name byte is not the start of a keyword spelling. *)
Lemma CutPrefix_keyword x rest kw c p :
  sall isNameByte x = true -> starts isNameByte rest = false ->
  sall isNameByte kw = true -> isNameByte c = false -> starts (Ascii.eqb c) rest = false ->
  CutPrefix (x +:+ rest) (kw +:+ String c p) = None.
Proof.
  intros Hx Hr Hkw Hc Hrc. destruct (CutPrefix _ _) as [s|] eqn:Hcut; [|reflexivity].
  apply CutPrefix_Some in Hcut. rewrite sapp_assoc in Hcut.
  pose proof (sspan_app isNameByte x rest Hx Hr) as H1.
  pose proof (sspan_app isNameByte kw (String c (p +:+ s)) Hkw Hc) as H2.
  change (String c p +:+ s) with (String c (p +:+ s)) in Hcut.
  rewrite Hcut, H2 in H1. injection H1 as _ Heq. rewrite <- Heq in Hrc.
  cbn [starts] in Hrc. rewrite Ascii.eqb_refl in Hrc. discriminate.
Qed.

Lemma validIdent_inv x :
  validIdent x = true -> sall isNameByte x = true /\ exists c s, x = String c s /\ isNameByte c = true.
Proof.
  unfold validIdent. rewrite andb_true_iff, negb_true_iff. intros [Hall Hne].
  split; [exact Hall|]. destruct x as [|c s]; [discriminate|].
  apply andb_true_iff in Hall as [Hc _]. eauto.
Qed.

(** The bytes a spelling can start with. *)
Definition isHead (c : ascii) : bool :=
  isNameByte c || Ascii.eqb c "!" || Ascii.eqb c "[" || Ascii.eqb c "&" || Ascii.eqb c "?".

Lemma Join_head path sep :
  path <> [] -> forallb validIdent path = true ->
  exists c s, Join path sep = String c s /\ isNameByte c = true.
Proof.
  destruct path as [|x path]; [congruence|]. intros _. cbn [forallb].
  rewrite andb_true_iff. intros [Hx _].
  apply validIdent_inv in Hx as (_ & c & s & -> & Hc).
  destruct path; cbn [Join append]; eauto.
Qed.

Lemma TypeString_head top t :
  wf top t = true -> exists c s, TypeString t = String c s /\ isHead c = true.
Proof.
  revert top. induction t as [path args _|e IH|size len e IH|e m IH|e IH|e IH|ps r u a _ _|err ok IHe IHo]
    using Ty_rect'; intros top Hwf; cbn [wf] in Hwf.
  - rewrite !andb_true_iff, negb_true_iff, bool_decide_eq_false in Hwf.
    destruct Hwf as [[Hne Hp] _].
    destruct (Join_head path "::" Hne Hp) as (c & s & Hj & Hc).
    assert (Hh : isHead c = true) by (unfold isHead; rewrite Hc; reflexivity).
    cbn [TypeString]. rewrite Hj. destruct args; cbn [append]; eauto.
  - cbn [TypeString append]. eauto.
  - cbn [TypeString append]. eauto.
  - destruct m; cbn [TypeString append]; eauto.
  - cbn [TypeString append]. eauto.
  - cbn [TypeString append]. eauto.
  - cbn [TypeString]. unfold funcHead. destruct (String.eqb a ""), u; cbn [append]; eauto.
  - destruct err as [e|]; [|cbn [TypeString append]; eauto].
    rewrite !andb_true_iff in Hwf. destruct Hwf as [[[_ He] _] _].
    destruct (IHe e eq_refl false He) as (c & s & Hs & Hc).
    cbn [TypeString]. rewrite Hs. cbn [append]. eauto.
Qed.

(** ** Parsing a spelling *)

Lemma parsePath_Join path rest fuel :
  path <> [] -> forallb validIdent path = true ->
  starts isNameByte rest = false -> CutPrefix rest "::" = None ->
  (String.length (Join path "::" +:+ rest) < fuel)%nat ->
  parsePath fuel (Join path "::" +:+ rest) = Ok (path, rest).
Proof.
  revert fuel. induction path as [|x path IH]; intros fuel Hne Hp Hr Hcut Hf; [congruence|].
  destruct fuel as [|fuel]; [lia|]. cbn [forallb] in Hp. apply andb_true_iff in Hp as [Hx Hp].
  apply validIdent_inv in Hx as (Hall & c & s & -> & Hc).
  cbn [parsePath]. destruct path as [|y path].
  - cbn [Join] in *. rewrite (sspan_app _ _ _ Hall Hr).
    change (String.eqb (String c s) "") with false. cbv iota. rewrite Hcut. reflexivity.
  - change (Join (String c s :: y :: path) "::")
      with (String c s +:+ "::" +:+ Join (y :: path) "::") in *.
    rewrite !sapp_assoc in Hf |- *.
    rewrite (sspan_app isNameByte (String c s) ("::" +:+ (Join (y :: path) "::" +:+ rest)) Hall eq_refl).
    change (String.eqb (String c s) "") with false. cbv iota.
    rewrite CutPrefix_app, IH; [reflexivity | discriminate | exact Hp | exact Hr | exact Hcut |].
    rewrite slength_app in Hf. change (String.length (String c s)) with (S (String.length s)) in Hf.
    rewrite slength_app in Hf. lia.
Qed.

Lemma skipLength_app d p s rest passed r :
  skipLength d p s = Ok (passed, r) -> skipLength d p (s +:+ rest) = Ok (passed, r +:+ rest).
Proof.
  revert d p. induction s as [|c s IH]; intros d p H; [discriminate|].
  cbn [append skipLength] in *.
  destruct (Ascii.eqb c "("); [auto|].
  destruct (Ascii.eqb c ")" && (0 <? d)%nat); [auto|].
  destruct ((d =? 0)%nat && negb (isLengthByte c)); [|auto].
  destruct (String.eqb p ""); [discriminate|]. injection H as <- <-. reflexivity.
Qed.

Lemma skipLength_name p x rest :
  sall isNameByte x = true -> p +:+ x <> "" ->
  skipLength 0 p (x +:+ String "]" rest) = Ok (p +:+ x, String "]" rest).
Proof.
  revert p. induction x as [|c x IH]; intros p Hall Hne.
  - rewrite sapp_nil_r in *. cbn [append skipLength].
    change (Ascii.eqb "]" "(") with false. change (Ascii.eqb "]" ")") with false.
    change ((0 =? 0)%nat && negb (isLengthByte "]")) with true. cbv iota. cbn [andb].
    destruct (String.eqb_spec p ""); [congruence | reflexivity].
  - cbn [sall] in Hall. apply andb_true_iff in Hall as [Hc Hx]. cbn [append skipLength].
    destruct (isNameByte_not c Hc) as [-> _].
    assert (Hcl : Ascii.eqb c ")" = false).
    { destruct (Ascii.eqb_spec c ")") as [->|]; [discriminate Hc | reflexivity]. }
    rewrite Hcl. unfold isLengthByte. rewrite Hc. cbn [andb negb].
    replace (p +:+ String c x) with ((p +:+ String c "") +:+ x) in * by (rewrite sapp_assoc; reflexivity).
    apply IH; auto.
Qed.

(** The length of an array is read back, with the bracket that ends it. *)
Lemma parse_length size len rest :
  validLength size len = true ->
  skipLength 0 "" (LenText size len +:+ "]" +:+ rest) = Ok (LenText size len, "]" +:+ rest) /\
  CutPrefix ("[" +:+ LenText size len +:+ "]" +:+ rest) "[]" = None /\
  (if negb (starts is_digit (LenText size len)) then Some (0%Z, LenText size len)
   else match ParseInt (LenText size len) with Some n => Some (n, "") | None => None end)
  = Some (size, len).
Proof.
  unfold validLength, LenText. destruct (String.eqb_spec len "") as [->|Hne].
  - rewrite andb_true_iff, !Z.leb_le. intros [H0 Hmax].
    assert (Hp : ParseInt (FormatInt size) = Some size).
    { apply ParseInt_FormatInt. unfold in_int64, min_int64. lia. }
    unfold FormatInt in *. destruct (Z.ltb_spec size 0); [lia|].
    destruct (format_uint_start size H0) as (c & s & Heq & Hd).
    pose proof (sall_digit_name _ (sall_format_uint size H0)) as Hall. rewrite Heq in *.
    split; [|split].
    + apply (skipLength_name "" (String c s) rest Hall). discriminate.
    + destruct c as [[] [] [] [] [] [] [] []]; try discriminate Hd; reflexivity.
    + cbn [starts]. rewrite Hd. cbn [negb]. rewrite Hp. reflexivity.
  - rewrite !andb_true_iff, negb_true_iff, Z.eqb_eq. intros [[-> Hd] Hskip].
    destruct (skipLength 0 "" (len +:+ "]")) as [[passed r]|e] eqn:Hs; [|discriminate].
    rewrite andb_true_iff, !String.eqb_eq in Hskip. destruct Hskip as [-> ->].
    split; [|split].
    + apply (skipLength_app _ _ _ rest) in Hs. rewrite sapp_assoc in Hs. exact Hs.
    + destruct len as [|c len]; [congruence|]. cbn [append CutPrefix].
      change (Ascii.eqb "[" "[") with true. cbv iota.
      destruct (Ascii.eqb_spec "]" c) as [<-|]; [discriminate Hs | reflexivity].
    + rewrite Hd. reflexivity.
Qed.

(** What is proved of each tree, for every text that may follow it. *)
Definition prefixReads (t : Ty) : Prop := forall fuel rest,
  wf false t = true -> follow rest -> (noBang t = true -> starts isBang rest = false) ->
  (String.length (TypeString t +:+ rest) < fuel)%nat ->
  atPrefix (parserAt fuel) (TypeString t +:+ rest) = Ok (t, rest).

Definition typeReads (t : Ty) : Prop := forall fuel rest,
  wf true t = true -> follow rest -> (typeNoBang t = true -> starts isBang rest = false) ->
  (String.length (TypeString t +:+ rest) < fuel)%nat ->
  atType (parserAt fuel) (TypeString t +:+ rest) = Ok (t, rest).

(** A prefix type at the top: no [!] follows, so [parseType] stops there. *)
Lemma typeReads_prefix t : wf true t = wf false t -> typeNoBang t = true -> prefixReads t -> typeReads t.
Proof.
  intros Hwf Hb Hp fuel rest Hw Hfol Hbang Hf. destruct fuel as [|fuel]; [lia|].
  specialize (Hp (S fuel) rest). cbn [atPrefix atType parserAt] in *. unfold parseTypeBody.
  rewrite Hp; [|congruence | exact Hfol | auto | exact Hf].
  rewrite (proj1 (starts_bang rest) (Hbang Hb)). reflexivity.
Qed.

Lemma typeReads_union e ok : prefixReads e -> prefixReads ok -> typeReads (ErrorUnion (Some e) ok).
Proof.
  intros He Hok fuel rest Hw Hfol Hbang Hf. destruct fuel as [|fuel]; [lia|].
  cbn [wf typeNoBang] in *. rewrite !andb_true_iff, negb_true_iff in Hw.
  destruct Hw as [[[_ Hwe] Hnb] Hwo].
  cbn [TypeString] in *. rewrite !sapp_assoc in Hf |- *.
  specialize (He (S fuel) ("!" +:+ (TypeString ok +:+ rest))).
  specialize (Hok (S fuel) rest). cbn [atPrefix atType parserAt] in *. unfold parseTypeBody.
  rewrite He; [|exact Hwe | right; reflexivity | congruence | exact Hf].
  rewrite CutPrefix_app. rewrite Hok; auto.
  rewrite slength_app in Hf.
  cbn [append String.length] in Hf. lia.
Qed.

Lemma acceptComma_follow s : starts (fun c => Ascii.eqb c ">" || Ascii.eqb c ")") s = true -> acceptComma s = None.
Proof.
  destruct s as [|c s]; [discriminate|]. cbn [starts]. rewrite orb_true_iff, !Ascii.eqb_eq.
  intros [-> | ->]; reflexivity.
Qed.

(** A comma-separated list followed by its closing byte. *)
Lemma list_reads ts fuel rest :
  ts <> [] -> Forall typeReads ts -> forallb (wf true) ts = true ->
  starts (fun c => Ascii.eqb c ">" || Ascii.eqb c ")") rest = true ->
  (String.length (Join (map TypeString ts) ", " +:+ rest) < fuel)%nat ->
  atList (parserAt fuel) (Join (map TypeString ts) ", " +:+ rest) = Ok (ts, rest).
Proof.
  intros Hne Hts. revert fuel. induction Hts as [|t ts Ht Hts IH]; intros fuel Hw Hr Hf; [congruence|].
  cbn [forallb] in Hw. apply andb_true_iff in Hw as [Hwt Hw].
  destruct fuel as [|fuel]; [lia|]. destruct ts as [|u ts].
  - cbn [map Join] in *. specialize (Ht (S fuel) rest). cbn [atType atList parserAt] in *.
    unfold parseListBody. rewrite Ht; [rewrite acceptComma_follow by exact Hr; reflexivity | exact Hwt | | | exact Hf].
    + destruct rest as [|c rest]; [discriminate|]. cbn [starts] in Hr.
      rewrite orb_true_iff, !Ascii.eqb_eq in Hr. destruct Hr as [-> | ->]; right; reflexivity.
    + intros _. destruct rest as [|c rest]; [discriminate|]. cbn [starts] in Hr.
      rewrite orb_true_iff, !Ascii.eqb_eq in Hr. destruct Hr as [-> | ->]; reflexivity.
  - set (tail := Join (map TypeString (u :: ts)) ", " +:+ rest) in *.
    assert (Heq : Join (map TypeString (t :: u :: ts)) ", " +:+ rest = TypeString t +:+ ", " +:+ tail).
    { cbn [map Join]. rewrite !sapp_assoc. reflexivity. }
    rewrite Heq in Hf |- *. specialize (Ht (S fuel) (", " +:+ tail)).
    cbn [atType atList parserAt] in *. unfold parseListBody.
    rewrite Ht; [|exact Hwt | right; reflexivity | reflexivity | exact Hf].
    change (acceptComma (", " +:+ tail)) with (Some tail). cbv iota.
    rewrite slength_app in Hf. cbn [append String.length] in Hf.
    unfold tail. rewrite IH; [reflexivity | discriminate | exact Hw | exact Hr | fold tail; lia].
Qed.

(** A text that starts with a name reaches the last case of [parsePrefix]. *)
Lemma parsePrefix_name type_ prefix_ list_ c x rest :
  sall isNameByte (String c x) = true -> starts isNameByte rest = false ->
  starts (Ascii.eqb " ") rest = false -> starts (Ascii.eqb "(") rest = false ->
  parsePrefixBody type_ prefix_ list_ (String c x +:+ rest) = parseName list_ (String c x +:+ rest).
Proof.
  intros Hall Hr Hsp Hpar. unfold parsePrefixBody.
  assert (Hhead : forall d p, isNameByte d = false -> CutPrefix (String c x +:+ rest) (String d p) = None).
  { intros d p Hd. apply CutPrefix_cons_ne. intros ->.
    cbn [sall] in Hall. rewrite Hd in Hall. discriminate. }
  rewrite !Hhead by reflexivity.
  assert (Hspace : forall kw p, sall isNameByte kw = true ->
            CutPrefix (String c x +:+ rest) (kw +:+ String " " p) = None).
  { intros kw p Hkw. apply CutPrefix_keyword; auto. }
  assert (Hparen : forall kw p, sall isNameByte kw = true ->
            CutPrefix (String c x +:+ rest) (kw +:+ String "(" p) = None).
  { intros kw p Hkw. apply CutPrefix_keyword; auto. }
  pose proof (Hspace "unsafe" "fn(" eq_refl) as H1.
  pose proof (Hspace "extern" (String "034" "c" +:+ String "034" " fn(") eq_refl) as H2.
  pose proof (Hparen "fn" "" eq_refl) as H3.
  pose proof (Hspace "const" "" eq_refl) as H4.
  change ("unsafe" +:+ String " " "fn(") with "unsafe fn(" in H1.
  change ("extern" +:+ String " " (String "034" "c" +:+ String "034" " fn(")) with (funcHead false "c") in H2.
  change ("fn" +:+ String "(" "") with "fn(" in H3.
  change ("const" +:+ String " " "") with "const " in H4.
  rewrite H1, H2, H3, H4. reflexivity.
Qed.

(** The text after a name: its arguments, if any, then what follows the type. *)
Definition afterPath (args : list Ty) (rest : string) : string :=
  match args with
  | [] => rest
  | _ => "<" +:+ Join (map TypeString args) ", " +:+ ">" +:+ rest
  end.

Lemma TypeString_Name path args rest :
  TypeString (Name path args) +:+ rest = Join path "::" +:+ afterPath args rest.
Proof. destruct args; cbn [TypeString afterPath]; rewrite ?sapp_assoc; reflexivity. Qed.

Lemma afterPath_starts args rest p :
  follow rest -> p "<"%char = false -> p ","%char = false -> p ">"%char = false ->
  p ")"%char = false -> p "!"%char = false -> starts p (afterPath args rest) = false.
Proof.
  intros Hf H1 H2 H3 H4 H5. destruct args; [|exact H1]. cbn [afterPath].
  destruct Hf as [->|Hf]; [reflexivity|]. destruct rest as [|c rest]; [reflexivity|].
  apply isFollow_cases in Hf as [->|[->|[->| ->]]]; assumption.
Qed.

Lemma afterPath_cut args rest p :
  follow rest -> starts (fun c => Ascii.eqb c ":" || Ascii.eqb c "<") p = true ->
  CutPrefix (afterPath args rest) p = match args with [] => None | _ => CutPrefix (afterPath args rest) p end.
Proof.
  intros Hf Hp. destruct args; [|reflexivity]. cbn [afterPath].
  destruct p as [|d p]; [discriminate|]. cbn [starts] in Hp.
  rewrite orb_true_iff, !Ascii.eqb_eq in Hp.
  destruct Hf as [->|Hf]; [reflexivity|]. destruct rest as [|c rest]; [discriminate|].
  apply CutPrefix_cons_ne.
  apply isFollow_cases in Hf as [->|[->|[->| ->]]]; destruct Hp as [-> | ->]; discriminate.
Qed.

Lemma prefixReads_Name path args : Forall typeReads args -> prefixReads (Name path args).
Proof.
  intros Hargs fuel rest Hw Hfol _ Hf. destruct fuel as [|fuel]; [lia|].
  cbn [wf] in Hw. rewrite !andb_true_iff, negb_true_iff, bool_decide_eq_false in Hw.
  destruct Hw as [[Hne Hp] Hwa]. rewrite TypeString_Name in Hf |- *.
  cbn [atPrefix parserAt].
  (* the first segment *)
  assert (Hsplit : exists c x tail, Join path "::" +:+ afterPath args rest = String c x +:+ tail /\
            sall isNameByte (String c x) = true /\ starts isNameByte tail = false /\
            starts (Ascii.eqb " ") tail = false /\ starts (Ascii.eqb "(") tail = false).
  { destruct path as [|y path]; [congruence|]. cbn [forallb] in Hp.
    apply andb_true_iff in Hp as [Hy _]. apply validIdent_inv in Hy as (Hall & c & x & -> & _).
    destruct path as [|z path].
    - exists c, x, (afterPath args rest). cbn [Join].
      repeat split; auto; apply afterPath_starts; auto.
    - exists c, x, ("::" +:+ Join (z :: path) "::" +:+ afterPath args rest).
      change (Join (String c x :: z :: path) "::") with (String c x +:+ "::" +:+ Join (z :: path) "::").
      rewrite !sapp_assoc. repeat split; auto. }
  destruct Hsplit as (c & x & tail & Heq & Hall & Ht1 & Ht2 & Ht3).
  rewrite Heq, parsePrefix_name by auto. rewrite <- Heq. unfold parseName.
  rewrite parsePath_Join; [|exact Hne | exact Hp | | | lia].
  2: { apply afterPath_starts; auto. }
  2: { rewrite afterPath_cut by auto. destruct args; reflexivity. }
  destruct args as [|a args].
  - cbn [afterPath]. pose proof (afterPath_cut [] rest "<" Hfol eq_refl) as Hc.
    cbn [afterPath] in Hc. rewrite Hc. reflexivity.
  - cbn [afterPath] in Hf |- *. rewrite slength_app in Hf. rewrite CutPrefix_app.
    rewrite list_reads; [|discriminate | exact Hargs | exact Hwa | reflexivity |].
    + rewrite CutPrefix_app. reflexivity.
    + rewrite slength_app in Hf. cbn [String.length] in Hf. lia.
Qed.

(** One wrapping node: its own text, then the element. *)
Lemma wrap_reads fuel node e rest (Hw : wf false e = true) :
  prefixReads e -> follow rest -> (noBang e = true -> starts isBang rest = false) ->
  (String.length (TypeString e +:+ rest) < fuel)%nat ->
  wrap (atPrefix (parserAt fuel)) node (TypeString e +:+ rest) = Ok (node e, rest).
Proof. intros He Hf Hb Hl. unfold wrap. rewrite (He fuel rest) by auto. reflexivity. Qed.

Lemma borrow_not_var e rest :
  wf false e = true -> follow rest -> CutPrefix (TypeString e +:+ rest) "var " = None.
Proof.
  intros Hw Hf. destruct e as [path args|e|size len e|e m|e|e|ps r u a|err ok]; cbn [wf] in Hw.
  - rewrite !andb_true_iff, negb_true_iff, bool_decide_eq_false in Hw.
    destruct Hw as [[Hne Hp] _]. rewrite TypeString_Name.
    destruct path as [|y path]; [congruence|]. cbn [forallb] in Hp.
    apply andb_true_iff in Hp as [Hy _]. apply validIdent_inv in Hy as (Hall & _).
    change "var " with ("var" +:+ String " " "").
    destruct path as [|z path].
    + cbn [Join]. apply CutPrefix_keyword; auto; apply afterPath_starts; auto.
    + change (Join (y :: z :: path) "::") with (y +:+ "::" +:+ Join (z :: path) "::").
      rewrite !sapp_assoc. apply CutPrefix_keyword; auto.
  - reflexivity.
  - reflexivity.
  - destruct m; reflexivity.
  - reflexivity.
  - reflexivity.
  - cbn [TypeString]. unfold funcHead. destruct (String.eqb a ""), u; reflexivity.
  - destruct err; [discriminate | reflexivity].
Qed.

(** The bound left for the element of a node. *)
Ltac length_of H := rewrite ?slength_app in H; cbn [String.length] in H; rewrite ?slength_app; lia.

Lemma prefixReads_Slice e : prefixReads e -> prefixReads (Slice e).
Proof.
  intros He fuel rest Hw Hfol Hb Hf. destruct fuel as [|fuel]; [lia|].
  cbn [wf noBang] in *. change (TypeString (Slice e) +:+ rest) with ("[]" +:+ (TypeString e +:+ rest)) in *.
  cbn [atPrefix parserAt]. unfold parsePrefixBody.
  change (CutPrefix ("[]" +:+ ?s) "!") with (@None string).
  change (CutPrefix ("[]" +:+ ?s) "[") with (Some ("]" +:+ s)).
  rewrite CutPrefix_app. apply wrap_reads; auto. length_of Hf.
Qed.

Lemma prefixReads_Buffer size len e : prefixReads e -> prefixReads (Buffer size len e).
Proof.
  intros He fuel rest Hw Hfol Hb Hf. destruct fuel as [|fuel]; [lia|].
  cbn [wf noBang] in *. rewrite andb_true_iff in Hw. destruct Hw as [Hlen Hw].
  set (text := LenText size len) in *.
  assert (Heq : TypeString (Buffer size len e) +:+ rest =
                "[" +:+ (text +:+ ("]" +:+ (TypeString e +:+ rest)))).
  { cbn [TypeString]. fold text. rewrite !sapp_assoc. reflexivity. }
  rewrite Heq in Hf |- *.
  destruct (parse_length size len (TypeString e +:+ rest) Hlen) as (Hskip & Hnot & Hval).
  fold text in Hskip, Hnot, Hval.
  cbn [atPrefix parserAt]. unfold parsePrefixBody.
  change (CutPrefix ("[" +:+ ?s) "!") with (@None string).
  rewrite CutPrefix_app, Hnot. unfold parseBuffer. rewrite Hskip, CutPrefix_app.
  rewrite (He fuel rest); auto; [|length_of Hf].
  destruct (negb (starts is_digit text)); [congruence|].
  destruct (ParseInt text); congruence.
Qed.

Lemma prefixReads_Borrow e m : prefixReads e -> prefixReads (Borrow e m).
Proof.
  intros He fuel rest Hw Hfol Hb Hf. destruct fuel as [|fuel]; [lia|]. cbn [wf noBang] in *.
  cbn [atPrefix parserAt]. unfold parsePrefixBody. destruct m.
  - change (TypeString (Borrow e true) +:+ rest) with ("&var " +:+ (TypeString e +:+ rest)) in *.
    change (CutPrefix ("&var " +:+ ?s) "!") with (@None string).
    change (CutPrefix ("&var " +:+ ?s) "[") with (@None string).
    rewrite CutPrefix_app. apply (wrap_reads fuel (fun e => Borrow e true)); auto. length_of Hf.
  - change (TypeString (Borrow e false) +:+ rest) with ("&" +:+ (TypeString e +:+ rest)) in *.
    change (CutPrefix ("&" +:+ ?s) "!") with (@None string).
    change (CutPrefix ("&" +:+ ?s) "[") with (@None string).
    change (CutPrefix ("&" +:+ ?s) "&var ") with (CutPrefix s "var ").
    rewrite borrow_not_var by auto. rewrite CutPrefix_app.
    apply (wrap_reads fuel (fun e => Borrow e false)); auto. length_of Hf.
Qed.

Lemma prefixReads_Optional e : prefixReads e -> prefixReads (Optional e).
Proof.
  intros He fuel rest Hw Hfol Hb Hf. destruct fuel as [|fuel]; [lia|]. cbn [wf noBang] in *.
  change (TypeString (Optional e) +:+ rest) with ("?" +:+ (TypeString e +:+ rest)) in *.
  cbn [atPrefix parserAt]. unfold parsePrefixBody.
  repeat match goal with
  | |- context [CutPrefix ("?" +:+ ?s) ?p] =>
      change (CutPrefix ("?" +:+ s) p) with (@None string)
  end.
  rewrite CutPrefix_app. apply wrap_reads; auto. length_of Hf.
Qed.

Lemma prefixReads_Const e : prefixReads e -> prefixReads (Const e).
Proof.
  intros He fuel rest Hw Hfol Hb Hf. destruct fuel as [|fuel]; [lia|]. cbn [wf noBang] in *.
  change (TypeString (Const e) +:+ rest) with ("const " +:+ (TypeString e +:+ rest)) in *.
  cbn [atPrefix parserAt]. unfold parsePrefixBody.
  repeat match goal with
  | |- context [CutPrefix ("const " +:+ ?s) ?p] =>
      change (CutPrefix ("const " +:+ s) p) with (@None string)
  end.
  rewrite CutPrefix_app. apply wrap_reads; auto. length_of Hf.
Qed.

Lemma prefixReads_Union ok : prefixReads ok -> prefixReads (ErrorUnion None ok).
Proof.
  intros He fuel rest Hw Hfol Hb Hf. destruct fuel as [|fuel]; [lia|]. cbn [wf noBang] in *.
  change (TypeString (ErrorUnion None ok) +:+ rest) with ("!" +:+ (TypeString ok +:+ rest)) in *.
  cbn [atPrefix parserAt]. unfold parsePrefixBody. rewrite CutPrefix_app.
  apply wrap_reads; auto. length_of Hf.
Qed.

Lemma parsePrefix_func type_ prefix_ list_ unsafe abi s :
  validABI unsafe abi = true ->
  parsePrefixBody type_ prefix_ list_ (funcHead unsafe abi +:+ s) = parseFunc type_ list_ unsafe abi s.
Proof.
  unfold validABI. rewrite orb_true_iff, andb_true_iff, !String.eqb_eq, negb_true_iff.
  intros [->|[-> ->]]; [destruct unsafe|]; unfold parsePrefixBody.
  all: repeat match goal with
  | |- context [CutPrefix (?h +:+ ?s) ?p] =>
      first [ change (CutPrefix (h +:+ s) p) with (@None string)
            | change (CutPrefix (h +:+ s) p) with (CutPrefix (h +:+ s) h); rewrite (CutPrefix_app h s) ]
  end; reflexivity.
Qed.

Lemma Join_not_close ts rest :
  ts <> [] -> forallb (wf true) ts = true -> CutPrefix (Join (map TypeString ts) ", " +:+ rest) ")" = None.
Proof.
  destruct ts as [|t ts]; [congruence|]. intros _. cbn [forallb]. rewrite andb_true_iff. intros [Ht _].
  destruct (TypeString_head true t Ht) as (c & s & Hs & Hc).
  assert (Hj : exists s', Join (map TypeString (t :: ts)) ", " +:+ rest = String c s').
  { cbn [map Join]. rewrite Hs. destruct (map TypeString ts); cbn [append]; eauto. }
  destruct Hj as [s' ->]. apply CutPrefix_cons_ne. intros ->. discriminate Hc.
Qed.

Lemma prefixReads_Func ps r unsafe abi :
  Forall typeReads ps -> typeReads r -> prefixReads (Func ps r unsafe abi).
Proof.
  intros Hps Hr fuel rest Hw Hfol Hb Hf. destruct fuel as [|fuel]; [lia|].
  cbn [wf] in Hw. rewrite !andb_true_iff in Hw. destruct Hw as [[Hwp Hwr] Habi].
  set (tail := TypeString r +:+ rest) in *.
  assert (Heq : TypeString (Func ps r unsafe abi) +:+ rest =
    funcHead unsafe abi +:+ (Join (map TypeString ps) ", " +:+ (")" +:+ (" -> " +:+ tail)))).
  { cbn [TypeString]. unfold tail. rewrite !sapp_assoc. reflexivity. }
  rewrite Heq in Hf |- *.
  cbn [atPrefix parserAt]. rewrite parsePrefix_func by exact Habi.
  assert (Hhead : (1 <= String.length (funcHead unsafe abi))%nat).
  { unfold funcHead. destruct (String.eqb abi ""), unsafe; cbn [append String.length]; lia. }
  rewrite slength_app in Hf.
  assert (Hparams : match CutPrefix (Join (map TypeString ps) ", " +:+ (")" +:+ (" -> " +:+ tail))) ")" with
    | Some s => Ok ([], s)
    | None =>
        let* (params, s) := atList (parserAt fuel) (Join (map TypeString ps) ", " +:+ (")" +:+ (" -> " +:+ tail))) in
        match CutPrefix s ")" with Some s => Ok (params, s) | None => Err UnclosedParen end
    end = Ok (ps, " -> " +:+ tail)).
  { destruct ps as [|p ps].
    - cbn [map Join]. reflexivity.
    - rewrite Join_not_close by (auto; discriminate).
      rewrite list_reads; [rewrite CutPrefix_app; reflexivity | discriminate | exact Hps | exact Hwp | reflexivity | lia]. }
  unfold parseFunc. rewrite Hparams, CutPrefix_app. unfold tail in *.
  rewrite (Hr fuel rest); [reflexivity | exact Hwr | exact Hfol | |].
  - intros Ht. apply Hb. cbn [noBang]. destruct r as [| | | | | | |[]]; auto.
  - pose proof (slength_app ")" (" -> " +:+ (TypeString r +:+ rest))) as H1.
    pose proof (slength_app " -> " (TypeString r +:+ rest)) as H2.
    pose proof (slength_app (Join (map TypeString ps) ", ") (")" +:+ (" -> " +:+ (TypeString r +:+ rest)))). lia.
Qed.

Lemma Forall_typeReads l : Forall (fun t => prefixReads t /\ typeReads t) l -> Forall typeReads l.
Proof. intros H. eapply Forall_impl; [exact H|]. intros t [_ Ht]. exact Ht. Qed.

Lemma reads t : prefixReads t /\ typeReads t.
Proof.
  assert (Hboth : forall t, wf true t = wf false t -> typeNoBang t = true -> prefixReads t ->
            prefixReads t /\ typeReads t) by (intros; split; [assumption | apply typeReads_prefix; assumption]).
  induction t as [path args IH|e [IH _]|size len e [IH _]|e m [IH _]|e [IH _]|e [IH _]
                 |ps r u a IHp [_ IHr]|err ok IHe [IHo _]] using Ty_rect'.
  - apply Hboth; auto. apply prefixReads_Name, Forall_typeReads, IH.
  - apply Hboth; auto. apply prefixReads_Slice, IH.
  - apply Hboth; auto. apply prefixReads_Buffer, IH.
  - apply Hboth; auto. apply prefixReads_Borrow, IH.
  - apply Hboth; auto. apply prefixReads_Optional, IH.
  - apply Hboth; auto. apply prefixReads_Const, IH.
  - apply Hboth; auto. apply prefixReads_Func; [apply Forall_typeReads, IHp | exact IHr].
  - destruct err as [e|].
    + split; [|apply typeReads_union; [apply (IHe e eq_refl) | exact IHo]].
      intros fuel rest Hw. discriminate Hw.
    + apply Hboth; auto. apply prefixReads_Union, IHo.
Qed.

(** The spelling of a well-formed tree parses to the tree. *)
Lemma Parse_TypeString t : wf true t = true -> Parse (TypeString t) = Ok t.
Proof.
  intros Hw. unfold Parse. destruct (reads t) as [_ Ht].
  specialize (Ht (S (String.length (TypeString t))) "" Hw (or_introl eq_refl) (fun _ => eq_refl)).
  rewrite sapp_nil_r in Ht. rewrite Ht by lia. reflexivity.
Qed.

Lemma TypeString_inj t u : wf true t = true -> wf true u = true -> TypeString t = TypeString u -> t = u.
Proof.
  intros Ht Hu H. apply Parse_TypeString in Ht, Hu. rewrite H in Ht. congruence.
Qed.

(** ** What the parser returns *)

Lemma CutPrefix_length s p rest :
  CutPrefix s p = Some rest -> String.length s = (String.length p + String.length rest)%nat.
Proof. intros H. apply CutPrefix_Some in H as ->. apply slength_app. Qed.

Definition typePost (top : bool) (s : string) (r : result TypeError (Ty * string)) : Prop :=
  match r with
  | Ok (t, rest) =>
      (String.length rest < String.length s)%nat /\ wf top t = true /\
      ((if top then typeNoBang t else noBang t) = true -> starts isBang rest = false)
  | Err e => e <> OutOfFuel
  end.

Definition listPost (s : string) (r : result TypeError (list Ty * string)) : Prop :=
  match r with
  | Ok (ts, rest) => (String.length rest < String.length s)%nat /\ forallb (wf true) ts = true /\ ts <> []
  | Err e => e <> OutOfFuel
  end.

Lemma skipLength_spec d p s passed r :
  skipLength d p s = Ok (passed, r) ->
  exists x, s = x +:+ r /\ passed = p +:+ x /\ passed <> "" /\
    forall rest, r = "]" +:+ rest -> skipLength d p (x +:+ "]") = Ok (passed, "]").
Proof.
  revert d p. induction s as [|c s IH]; intros d p H; [discriminate|]. cbn [skipLength] in H.
  assert (Hnext : forall d', skipLength d' (p +:+ String c "") s = Ok (passed, r) ->
    exists x, String c s = String c x +:+ r /\ passed = p +:+ String c x /\ passed <> "" /\
      forall rest, r = "]" +:+ rest ->
        skipLength d' (p +:+ String c "") (x +:+ "]") = Ok (passed, "]")).
  { intros d' H'. destruct (IH d' _ H') as (x & -> & -> & Hne & Hx).
    exists x. rewrite sapp_assoc in *. repeat split; auto. }
  destruct (Ascii.eqb c "(") eqn:E1.
  { destruct (Hnext _ H) as (x & H1 & H2 & H3 & H4). exists (String c x).
    repeat split; auto. cbn [append skipLength]. rewrite E1. exact H4. }
  destruct (Ascii.eqb c ")" && (0 <? d)%nat) eqn:E2.
  { destruct (Hnext _ H) as (x & H1 & H2 & H3 & H4). exists (String c x).
    repeat split; auto. cbn [append skipLength]. rewrite E1, E2. exact H4. }
  destruct ((d =? 0)%nat && negb (isLengthByte c)) eqn:E3.
  - destruct (String.eqb_spec p "") as [|Hp]; [discriminate|]. injection H as <- <-.
    exists "". rewrite sapp_nil_r. repeat split; auto. intros rest [= -> ->].
    cbn [append skipLength]. change (Ascii.eqb "]" "(") with false. cbv iota.
    rewrite E2, E3. destruct (String.eqb_spec p ""); [congruence | reflexivity].
  - destruct (Hnext _ H) as (x & H1 & H2 & H3 & H4). exists (String c x).
    repeat split; auto. cbn [append skipLength]. rewrite E1, E2, E3. exact H4.
Qed.

Lemma skipLength_error d p s e : skipLength d p s = Err e -> e <> OutOfFuel.
Proof.
  revert d p. induction s as [|c s IH]; intros d p; cbn [skipLength]; [congruence|].
  repeat step_if; try apply IH; congruence.
Qed.

Lemma parsePath_spec fuel s :
  (String.length s < fuel)%nat ->
  match parsePath fuel s with
  | Ok (path, rest) => (String.length rest < String.length s)%nat /\ path <> [] /\ forallb validIdent path = true
  | Err e => e <> OutOfFuel
  end.
Proof.
  revert s. induction fuel as [|fuel IH]; intros s Hf; [lia|]. cbn [parsePath].
  pose proof (sspan_all isNameByte s) as Hall. pose proof (sspan_eq isNameByte s) as Heq.
  destruct (sspan isNameByte s) as [part s1]. cbn [fst snd] in *.
  destruct (String.eqb_spec part "") as [|Hne]; [congruence|].
  assert (Hv : validIdent part = true).
  { unfold validIdent. rewrite Hall. destruct (String.eqb_spec part ""); [congruence | reflexivity]. }
  assert (Hl : (String.length s1 < String.length s)%nat).
  { rewrite Heq, slength_app. destruct part; [congruence | cbn [String.length]; lia]. }
  destruct (CutPrefix s1 "::") as [s2|] eqn:Hc.
  - apply CutPrefix_length in Hc. cbn [String.length] in Hc. specialize (IH s2 ltac:(lia)).
    destruct (parsePath fuel s2) as [[path rest]|e]; [|exact IH]. destruct IH as (H1 & H2 & H3).
    split; [lia|]. split; [discriminate|]. cbn [forallb]. rewrite Hv, H3. reflexivity.
  - split; [exact Hl|]. split; [discriminate|]. cbn [forallb]. rewrite Hv. reflexivity.
Qed.

(** [post_cases H] takes one parser result with its postcondition apart. *)
Ltac post_case H := match type of H with
  | typePost _ _ ?r => let t := fresh "t" in let s := fresh "s" in let e := fresh "e" in
      destruct r as [[t s]|e]; [cbn [typePost] in H | cbn [typePost] in *; exact H]
  | listPost _ ?r => let t := fresh "ts" in let s := fresh "s" in let e := fresh "e" in
      destruct r as [[t s]|e]; [cbn [listPost] in H | cbn [listPost typePost] in *; exact H]
  end.

Section Posts.
Context (type_ prefix_ : string -> result TypeError (Ty * string)).
Context (list_ : string -> result TypeError (list Ty * string)).
Context (n : nat).
Context (Htype : forall s, (String.length s < n)%nat -> typePost true s (type_ s)).
Context (Hprefix : forall s, (String.length s < n)%nat -> typePost false s (prefix_ s)).
Context (Hlist : forall s, (String.length s < n)%nat -> listPost s (list_ s)).

Lemma wrap_post node s s' :
  (forall e, wf false (node e) = wf false e /\ noBang (node e) = noBang e) ->
  (String.length s' < String.length s <= n)%nat -> typePost false s (wrap prefix_ node s').
Proof.
  intros Hnode Hl. unfold wrap. pose proof (Hprefix s' ltac:(lia)) as H. post_case H.
  destruct H as (H1 & H2 & H3). destruct (Hnode t) as [Hw Hb]. simpl.
  rewrite Hw, Hb. split; [lia | auto].
Qed.

Lemma parseFunc_post unsafe abi s s' :
  validABI unsafe abi = true -> (String.length s' < String.length s <= n)%nat ->
  typePost false s (parseFunc type_ list_ unsafe abi s').
Proof.
  intros Habi Hl. unfold parseFunc.
  assert (Hps : match (match CutPrefix s' ")" with
    | Some s => Ok ([], s)
    | None => let* (params, s) := list_ s' in
        match CutPrefix s ")" with Some s => Ok (params, s) | None => Err UnclosedParen end
    end) with
    | Ok (ps, r) => (String.length r < String.length s')%nat /\ forallb (wf true) ps = true
    | Err e => e <> OutOfFuel end).
  { destruct (CutPrefix s' ")") as [s1|] eqn:Hc.
    - apply CutPrefix_length in Hc. cbn [String.length] in Hc. split; [lia | reflexivity].
    - pose proof (Hlist s' ltac:(lia)) as H. destruct (list_ s') as [[ts s1]|e]; [|exact H].
      destruct H as (H1 & H2 & _). destruct (CutPrefix s1 ")") as [s2|] eqn:Hc2; [|congruence].
      apply CutPrefix_length in Hc2. cbn [String.length] in Hc2. split; [lia | exact H2]. }
  destruct (match CutPrefix s' ")" with Some _ => _ | None => _ end) as [[ps s1]|e]; [|exact Hps].
  destruct Hps as [Hl1 Hwp]. destruct (CutPrefix s1 " -> ") as [s2|] eqn:Hc; [|simpl; congruence].
  apply CutPrefix_length in Hc. cbn [String.length] in Hc.
  pose proof (Htype s2 ltac:(lia)) as H. post_case H. destruct H as (H1 & H2 & H3). simpl.
  rewrite Hwp, H2, Habi. split; [lia|]. split; [reflexivity|].
  intros Hb. apply H3. destruct t as [| | | | | | |[]]; auto.
Qed.

Lemma parseBuffer_post s s' :
  (String.length s' < String.length s <= n)%nat -> typePost false s (parseBuffer prefix_ s').
Proof.
  intros Hl. unfold parseBuffer.
  destruct (skipLength 0 "" s') as [[len s1]|e] eqn:Hs; [|simpl; eapply skipLength_error, Hs].
  destruct (skipLength_spec _ _ _ _ _ Hs) as (x & -> & Hlen & Hne & Hclose).
  cbn [append] in Hlen. subst x.
  destruct (CutPrefix s1 "]") as [s2|] eqn:Hc; [|simpl; congruence].
  pose proof (CutPrefix_length _ _ _ Hc) as Hc'. cbn [String.length] in Hc'.
  apply CutPrefix_Some in Hc. specialize (Hclose s2 Hc).
  rewrite slength_app in Hl.
  pose proof (Hprefix s2 ltac:(lia)) as H. post_case H. destruct H as (H1 & H2 & H3).
  destruct (starts is_digit len) eqn:Hd; cbn [negb].
  - destruct (ParseInt len) as [size|] eqn:Hp; [|simpl; congruence]. simpl. rewrite H2.
    split; [lia|]. split; [|exact H3]. unfold validLength. simpl.
    pose proof (ParseInt_range _ _ Hp) as Hr. unfold in_int64 in Hr.
    assert (0 <= size)%Z by (eapply ParseInt_digit_nonneg; eauto).
    rewrite andb_true_r, andb_true_iff, !Z.leb_le. lia.
  - simpl. rewrite H2. split; [lia|]. split; [|exact H3].
    unfold validLength. destruct (String.eqb_spec len ""); [congruence|].
    rewrite Hd, Hclose, !String.eqb_refl. reflexivity.
Qed.

Lemma parseName_post s : (String.length s <= n)%nat -> typePost false s (parseName list_ s).
Proof.
  intros Hl. unfold parseName. pose proof (parsePath_spec (S (String.length s)) s ltac:(lia)) as H.
  destruct (parsePath (S (String.length s)) s) as [[path s1]|e]; [|exact H].
  destruct H as (H1 & Hne & Hp).
  assert (Hwf : forall args, forallb (wf true) args = true -> wf false (Name path args) = true).
  { intros args Ha. cbn [wf]. rewrite Ha, Hp, bool_decide_false by exact Hne. reflexivity. }
  destruct (CutPrefix s1 "<") as [s2|] eqn:Hc.
  2: { cbn [typePost]. split; [lia|]. split; [apply Hwf; reflexivity | discriminate]. }
  apply CutPrefix_length in Hc. cbn [String.length] in Hc.
  pose proof (Hlist s2 ltac:(lia)) as H. destruct (list_ s2) as [[ts s3]|e]; [|exact H].
  destruct H as (H2 & H3 & _). destruct (CutPrefix s3 ">") as [s4|] eqn:Hc4; [|simpl; congruence].
  apply CutPrefix_length in Hc4. cbn [String.length] in Hc4. cbn [typePost].
  split; [lia|]. split; [apply Hwf, H3 | discriminate].
Qed.

Lemma parsePrefixBody_post s :
  (String.length s <= n)%nat -> typePost false s (parsePrefixBody type_ prefix_ list_ s).
Proof.
  intros Hl. unfold parsePrefixBody.
  repeat match goal with
  | |- typePost _ _ (match CutPrefix s ?p with Some _ => _ | None => _ end) =>
      let H := fresh "Hc" in let s' := fresh "s'" in
      destruct (CutPrefix s p) as [s'|] eqn:H;
      [apply CutPrefix_length in H; cbn [append String.length funcHead String.eqb] in H|]
  end.
  all: try (apply wrap_post; [intros e; split; reflexivity | lia]).
  all: try (apply parseFunc_post; [reflexivity | simpl in *; lia]).
  - apply parseBuffer_post. lia.
  - apply parseName_post, Hl.
Qed.
End Posts.

Lemma acceptComma_length s s' : acceptComma s = Some s' -> (String.length s' < String.length s)%nat.
Proof.
  unfold acceptComma. destruct (CutPrefix s ",") as [s1|] eqn:Hc; [|discriminate]. intros [= <-].
  apply CutPrefix_length in Hc. cbn [String.length] in Hc. unfold TrimPrefix.
  destruct (CutPrefix s1 " ") as [s2|] eqn:Hc2; [|lia].
  apply CutPrefix_length in Hc2. cbn [String.length] in Hc2. lia.
Qed.

Lemma parseTypeBody_post prefix_ n s :
  (forall s, (String.length s <= n)%nat -> typePost false s (prefix_ s)) ->
  (String.length s <= n)%nat -> typePost true s (parseTypeBody prefix_ s).
Proof.
  intros Hprefix Hl. unfold parseTypeBody. pose proof (Hprefix s Hl) as H. post_case H.
  destruct H as (H1 & H2 & H3). destruct (CutPrefix s0 "!") as [s1|] eqn:Hc.
  - pose proof (CutPrefix_length _ _ _ Hc) as Hc'. cbn [String.length] in Hc'.
    pose proof (Hprefix s1 ltac:(lia)) as H. post_case H. destruct H as (H4 & H5 & H6).
    cbn [typePost wf typeNoBang andb]. rewrite H2, H5. split; [lia|]. split; [|exact H6].
    destruct (noBang t) eqn:Hb; [|reflexivity].
    specialize (H3 eq_refl). apply starts_bang in H3. congruence.
  - cbn [typePost]. split; [exact H1|]. split; [apply wf_top, H2|].
    intros _. apply starts_bang, Hc.
Qed.

Lemma parserAt_post fuel s :
  (String.length s < fuel)%nat ->
  typePost true s (atType (parserAt fuel) s) /\ typePost false s (atPrefix (parserAt fuel) s) /\
  listPost s (atList (parserAt fuel) s).
Proof.
  revert s. induction fuel as [|n IH]; intros s Hl; [lia|].
  assert (Hprefix : forall s, (String.length s <= n)%nat -> typePost false s (atPrefix (parserAt (S n)) s)).
  { intros s' Hl'. cbn [parserAt atPrefix]. apply (parsePrefixBody_post _ _ _ n); auto; intros x Hx; apply IH, Hx. }
  assert (Htype : typePost true s (atType (parserAt (S n)) s)).
  { cbn [parserAt atType]. apply (parseTypeBody_post _ n); [exact Hprefix | lia]. }
  split; [exact Htype|]. split; [apply Hprefix; lia|].
  change (atList (parserAt (S n)) s) with (parseListBody (atType (parserAt (S n))) (atList (parserAt n)) s).
  unfold parseListBody. post_case Htype. destruct Htype as (H1 & H2 & _).
  destruct (acceptComma s0) as [s1|] eqn:Hc.
  - apply acceptComma_length in Hc. destruct (IH s1 ltac:(lia)) as (_ & _ & H). post_case H.
    destruct H as (H3 & H4 & _). cbn [listPost forallb]. rewrite H2, H4. split; [lia | auto].
  - cbn [listPost forallb]. rewrite H2. auto.
Qed.

Lemma Parse_wf s t : Parse s = Ok t -> wf true t = true.
Proof.
  unfold Parse. destruct (parserAt_post (S (String.length s)) s ltac:(lia)) as (H & _ & _).
  destruct (atType _ s) as [[u rest]|e]; [|discriminate]. destruct H as (_ & Hw & _).
  destruct rest; [|discriminate]. intros [= ->]. exact Hw.
Qed.

Lemma Parse_fuel s : Parse s <> Err OutOfFuel.
Proof.
  unfold Parse. destruct (parserAt_post (S (String.length s)) s ltac:(lia)) as (H & _ & _).
  destruct (atType _ s) as [[u rest]|e]; [destruct rest; discriminate|]. cbn [typePost] in H. congruence.
Qed.

(** ** The retained table *)

(** Every entry of a table is under its own spelling, and well-formed unless it
    is a tree the table was told to retain. *)
Definition TableOk (told : list Ty) (t : Table) : Prop :=
  forall text value, t !! text = Some value -> text = TypeString value /\ (wf true value = true \/ value ∈ told).

Lemma TableOk_empty : TableOk [] NewTable.
Proof. intros text value H. unfold NewTable in H. rewrite lookup_empty in H. discriminate. Qed.

Lemma TableOk_Remember told told' t value :
  (forall v, v ∈ told -> v ∈ told') -> wf true value = true \/ value ∈ told' -> TableOk told t ->
  TableOk told' (snd (Remember t value)).
Proof.
  intros Hsub Hw Ht. assert (Ht' : TableOk told' t) by (intros s v Hv; destruct (Ht s v Hv) as [H1 [H2|H2]]; auto).
  unfold Remember. destruct (t !! TypeString value); [exact Ht'|].
  intros text v H. cbn [snd] in H. apply lookup_insert_Some in H as [[<- <-]|[_ H]]; auto.
Qed.

(** [Remember] answers with a tree of the same spelling: the well-formed one, or
    one it was told that is not well-formed. *)
Lemma Remember_spec told t value :
  TableOk told t -> TypeString (fst (Remember t value)) = TypeString value /\
  (wf true value = true -> fst (Remember t value) = value \/ fst (Remember t value) ∈ told /\ wf true (fst (Remember t value)) = false).
Proof.
  intros Ht. unfold Remember. destruct (t !! TypeString value) as [v|] eqn:Hv; [|cbn; auto].
  apply Ht in Hv as [Hs Hv]. cbn [fst]. split; [auto|]. intros Hw. destruct (wf true v) eqn:Hwv.
  - left. symmetry. apply TypeString_inj; auto.
  - right. destruct Hv as [Hv|Hv]; [discriminate | auto].
Qed.

(** What [TableParse] answers, and the table it leaves. *)
Lemma TableParse_spec told t text :
  TableOk told t ->
  (fst (TableParse t text) = Parse text \/
   exists v, v ∈ told /\ wf true v = false /\ fst (TableParse t text) = Ok v /\
     (TypeString v = text \/ exists p, Parse text = Ok p /\ TypeString v = TypeString p)) /\
  TableOk told (snd (TableParse t text)).
Proof.
  intros Ht. unfold TableParse. destruct (t !! text) as [v|] eqn:Hv.
  - split; [|exact Ht]. apply Ht in Hv as [-> Hv]. cbn [fst]. destruct (wf true v) eqn:Hw.
    + left. symmetry. apply Parse_TypeString, Hw.
    + right. exists v. destruct Hv as [Hv|Hv]; [discriminate | auto].
  - destruct (Parse text) as [p|e] eqn:Hp; [|split; [left; reflexivity | exact Ht]]. pose proof (Parse_wf _ _ Hp) as Hw.
    destruct (Remember_spec told t p Ht) as [Hs Hr]. specialize (Hr Hw).
    pose proof (TableOk_Remember told told t p (fun _ H => H) (or_introl Hw) Ht) as H2.
    destruct (Remember t p) as [u t'] eqn:Er. cbn [fst snd] in *. split; [|exact H2].
    destruct Hr as [->|[Hin Hwu]]; [left; reflexivity | right; exists u; eauto 8].
Qed.
