(* ===== verification/TypTheorems.v ===== *)
(** * What the types of [internal/typ] promise

    The spelling is a faithful key: printing and parsing are inverse on the
    trees the parser returns, and the retained table cannot be told from the
    parser.  Structural equality, substitution and the binding of static
    lengths against their specifications. *)

From stdpp Require Import base list strings gmap.
From Stdlib Require Import ZArith Lia String Ascii.
From S2P Require Import Prelude GoStd StaticExpr Typ TypParse.

#[local] Open Scope string_scope.

(** ** Spelling *)

(** C33. Printing a well-formed type and parsing the text gives the type back:
    [Parse] is the inverse of [String]. *)
Theorem type_print_parse t : wf true t = true -> Parse (TypeString t) = Ok t.
Proof. apply Parse_TypeString. Qed.

Definition sample_type : Ty :=
  ErrorUnion (Some (Name ["io"; "Error"] []))
    (Func [Slice (Name ["u8"] []); Buffer 0 "(n * 2)" (Borrow (Name ["T"] []) true)]
          (Optional (Name ["Map"] [Name ["i32"] []; Const (Buffer 16 "" (Name ["u8"] []))])) false "c").

Lemma type_print_parse_witness :
  wf true sample_type = true /\ Parse (TypeString sample_type) = Ok sample_type.
Proof. assert (H : wf true sample_type = true) by reflexivity. split; [exact H | exact (type_print_parse _ H)]. Defined.

(** C34. Parsing ends on every text, and a type read from any text is
    well-formed and canonical: its own spelling reads back to the same type,
    so two parsed types with one spelling are one type. *)
Theorem type_parse_canonical s t :
  Parse s = Ok t ->
  wf true t = true /\ Parse (TypeString t) = Ok t /\
  forall s' t', Parse s' = Ok t' -> (TypeString t = TypeString t' <-> t = t').
Proof.
  intros H%Parse_wf. split; [exact H|]. split; [apply Parse_TypeString, H|].
  intros s' t' H'%Parse_wf. split; [apply TypeString_inj; auto | congruence].
Qed.

Lemma type_parse_canonical_witness :
  exists t, Parse "fn(i32,i64) -> [007]u8" = Ok t /\ TypeString t = "fn(i32, i64) -> [7]u8" /\
  Parse (TypeString t) = Ok t.
Proof.
  eexists. split; [vm_compute; reflexivity|]. split; [reflexivity|].
  apply (type_parse_canonical "fn(i32,i64) -> [007]u8"). vm_compute. reflexivity.
Defined.

(** C35. The type parser terminates on every text: the bound the model gives it
    is never what ends it. *)
Theorem type_parse_total text : Parse text <> Err OutOfFuel.
Proof. apply Parse_fuel. Qed.

(** A table as the compiler can reach it: made empty, asked for spellings, and
    told to retain trees, of which any may come from elsewhere than [Parse].  The
    list is what it was told. *)
Inductive table_reach : list Ty -> Table -> Prop :=
  | reach_new : table_reach [] NewTable
  | reach_parse told t text : table_reach told t -> table_reach told (snd (TableParse t text))
  | reach_remember told t value : table_reach told t -> table_reach (value :: told) (snd (Remember t value)).

Lemma table_reach_ok told t : table_reach told t -> TableOk told t.
Proof.
  induction 1 as [|told t text _ IH|told t value _ IH]; [apply TableOk_empty | apply TableParse_spec, IH |].
  apply (TableOk_Remember told); [intros v Hv; right; exact Hv | right; left | exact IH].
Qed.

(** C36. What a type table answers for a text, whatever it was asked and told
    before: what the parser gives, the errors included, unless it was told to
    retain a tree no text parses to, and that tree is spelled as the text is or
    as the type the text parses to.  [Remember] answers with a tree of the same
    spelling, and for a tree of the parser's with that tree under the same
    condition. *)
Theorem table_transparent told t :
  table_reach told t ->
  (forall text, fst (TableParse t text) = Parse text \/
     exists v, v ∈ told /\ (forall s, Parse s <> Ok v) /\ fst (TableParse t text) = Ok v /\
       (TypeString v = text \/ exists p, Parse text = Ok p /\ TypeString v = TypeString p)) /\
  (forall value, TypeString (fst (Remember t value)) = TypeString value /\
     (forall s, Parse s = Ok value -> fst (Remember t value) = value \/
        fst (Remember t value) ∈ told /\ forall s, Parse s <> Ok (fst (Remember t value)))).
Proof.
  intros H%table_reach_ok. assert (Hno : forall v, wf true v = false -> forall s, Parse s <> Ok v).
  { intros v Hw s Hs%Parse_wf. congruence. }
  split.
  - intros text. destruct (TableParse_spec told t text H) as [[E|(v & Hin & Hw & E & Hs)] _]; [auto|]. right. exists v. auto 6.
  - intros value. destruct (Remember_spec told t value H) as [Hs Hr]. split; [exact Hs|]. intros s Hp%Parse_wf.
    destruct (Hr Hp) as [E|[Hin Hw]]; auto.
Qed.

Lemma table_transparent_witness :
  fst (TableParse (snd (TableParse NewTable "[]u8")) "[]u8") = Ok (Slice (Name ["u8"] [])).
Proof.
  destruct (table_transparent _ _ (reach_parse _ _ "[]u8" reach_new)) as [H _].
  destruct (H "[]u8") as [E|(v & Hv & _)]; [rewrite E; vm_compute; reflexivity | inversion Hv].
Defined.

(** A tree the source parser builds for [?E!i64] and the type parser never
    does: told to a table, it is what the table answers. *)
Example retained_tree_answers :
  let tree := Optional (ErrorUnion (Some (Name ["E"] [])) (Name ["i64"] [])) in
  TypeString tree = "?E!i64" /\ Parse "?E!i64" = Ok (ErrorUnion (Some (Optional (Name ["E"] []))) (Name ["i64"] [])) /\
  fst (TableParse (snd (Remember NewTable tree)) "?E!i64") = Ok tree.
Proof. vm_compute. auto. Qed.

(** ** Structural equality *)

(** A type with the calling convention of its function pointers forgotten. *)
Fixpoint eraseABI (t : Ty) : Ty :=
  match t with
  | Name path args => Name path (map eraseABI args)
  | Slice e => Slice (eraseABI e)
  | Buffer size len e => Buffer size len (eraseABI e)
  | Borrow e mut => Borrow (eraseABI e) mut
  | Optional e => Optional (eraseABI e)
  | Const e => Const (eraseABI e)
  | Func ps r unsafe _ => Func (map eraseABI ps) (eraseABI r) unsafe ""
  | ErrorUnion err ok => ErrorUnion (option_map eraseABI err) (eraseABI ok)
  end.

Definition equalSpec (t : Ty) : Prop := forall u, equal t u = true <-> eraseABI t = eraseABI u.

Lemma all2_equal ts us :
  Forall equalSpec ts -> all2 equal ts us = true <-> map eraseABI ts = map eraseABI us.
Proof.
  intros H. revert us. induction H as [|t ts Ht Hts IH]; intros [|u us]; cbn [all2 map];
    [split; auto | split; discriminate | split; discriminate |].
  rewrite andb_true_iff, (Ht u), IH. split; [intros [-> ->]; reflexivity | intros [=]; auto].
Qed.

Lemma all2_eqb path path' : all2 String.eqb path path' = true <-> path = path'.
Proof.
  revert path'. induction path as [|x path IH]; intros [|y path']; cbn [all2];
    [split; auto | split; discriminate | split; discriminate |].
  rewrite andb_true_iff, String.eqb_eq, IH. split; [intros [-> ->]; reflexivity | intros [=]; auto].
Qed.

Lemma all2_length {A B} (f : A -> B -> bool) l r : all2 f l r = true -> List.length l = List.length r.
Proof.
  revert r. induction l as [|x l IH]; intros [|y r]; cbn [all2]; try discriminate; auto.
  rewrite andb_true_iff. intros [_ H]. cbn [List.length]. f_equal. auto.
Qed.

Lemma length_all2 {A B} (f : A -> B -> bool) l r :
  (List.length l =? List.length r)%nat && all2 f l r = all2 f l r.
Proof.
  destruct (all2 f l r) eqn:H; [|apply andb_false_r]. apply all2_length in H.
  rewrite H, Nat.eqb_refl. reflexivity.
Qed.

Lemma equal_spec t : equalSpec t.
Proof.
  induction t as [path args IH|e IH|size len e IH|e m IH|e IH|e IH|ps r u a IHp IHr|err ok IHe IHo]
    using Ty_rect'; intros [path' args'|e'|size' len' e'|e' m'|e'|e'|ps' r' u' a'|err' ok'];
    cbn [equal eraseABI]; try (split; discriminate).
  - rewrite <- andb_assoc, (andb_comm (all2 String.eqb path path')), andb_assoc,
      <- (andb_assoc (List.length path =? List.length path')%nat), length_all2,
      <- andb_assoc, (andb_comm (all2 equal args args')), andb_assoc, length_all2, andb_true_iff,
      all2_eqb, (all2_equal args args' IH).
    split; [intros [-> ->]; reflexivity | intros [=]; auto].
  - rewrite (IH e'). split; [intros ->; reflexivity | intros [=]; auto].
  - rewrite !andb_true_iff, Z.eqb_eq, String.eqb_eq, (IH e').
    split; [intros [[-> ->] ->]; reflexivity | intros [=]; auto].
  - rewrite andb_true_iff, eqb_true_iff, (IH e'). split; [intros [-> ->]; reflexivity | intros [=]; auto].
  - rewrite (IH e'). split; [intros ->; reflexivity | intros [=]; auto].
  - rewrite (IH e'). split; [intros ->; reflexivity | intros [=]; auto].
  - rewrite <- (andb_assoc (Bool.eqb u u')), length_all2, !andb_true_iff, eqb_true_iff,
      (all2_equal ps ps' IHp), (IHr r').
    split; [intros [[-> ->] ->]; reflexivity | intros [=]; auto].
  - rewrite andb_true_iff, (IHo ok'). destruct err as [e|], err' as [e'|]; cbn [option_map].
    2, 3: split; [intros [? _]; discriminate | discriminate].
    + rewrite (IHe e eq_refl e'). split; [intros [-> ->]; reflexivity | intros [=]; auto].
    + split; [intros [_ ->]; reflexivity | intros [=]; auto].
Qed.

(** [Equal] holds exactly between types that differ at most in the calling
    convention of function pointers inside them; a missing type equals only a
    missing type. *)
Theorem type_equal_spec l r :
  Equal l r = true <-> option_map eraseABI l = option_map eraseABI r.
Proof.
  destruct l as [l|], r as [r|]; cbn [Equal EqualOpt option_map].
  - rewrite (equal_spec l r). split; [intros ->; reflexivity | intros [=]; auto].
  - split; discriminate.
  - split; discriminate.
  - split; auto.
Qed.

(** Two function pointers that differ only in their calling convention
    print differently and still compare equal. *)
Theorem type_equal_ignores_abi ps r unsafe :
  equal (Func ps r unsafe "c") (Func ps r unsafe "") = true /\
  TypeString (Func ps r unsafe "c") <> TypeString (Func ps r unsafe "").
Proof.
  split; [apply equal_spec; reflexivity|]. cbn [TypeString funcHead]. destruct unsafe; discriminate.
Qed.

(** ** Substitution *)

(** First [s1], then [s2]. *)
Definition compose (s1 s2 : gmap string Ty) : gmap string Ty := (substitute s2 <$> s1) ∪ s2.

Lemma map_Forall_eq {A B} (f g : A -> B) l : Forall (fun x => f x = g x) l -> map f l = map g l.
Proof. induction 1; cbn [map]; congruence. Qed.

Lemma substitute_compose s1 s2 t : substitute s2 (substitute s1 t) = substitute (compose s1 s2) t.
Proof.
  induction t as [path args IH|e IH|size len e IH|e m IH|e IH|e IH|ps r u a IHp IHr|err ok IHe IHo]
    using Ty_rect'; cbn [substitute]; try congruence.
  - destruct path as [|x [|y path]], args as [|a args]; try reflexivity.
    + cbn [substitute]. f_equal. rewrite map_map. apply map_Forall_eq, IH.
    + unfold compose. rewrite lookup_union, lookup_fmap. destruct (s1 !! x) as [v|]; cbn [fmap option_fmap option_map default substitute].
      * destruct (s2 !! x); reflexivity.
      * destruct (s2 !! x); reflexivity.
    + cbn [substitute]. f_equal. rewrite map_map. apply map_Forall_eq, IH.
    + cbn [substitute]. f_equal. rewrite map_map. apply map_Forall_eq, IH.
  - rewrite map_map, (map_Forall_eq _ _ _ IHp), IHr. reflexivity.
  - destruct err as [e|]; [rewrite (IHe e eq_refl)|]; rewrite IHo; reflexivity.
Qed.

Lemma substitute_empty t : substitute ∅ t = t.
Proof.
  induction t as [path args IH|e IH|size len e IH|e m IH|e IH|e IH|ps r u a IHp IHr|err ok IHe IHo]
    using Ty_rect'; cbn [substitute]; try congruence.
  - assert (H : map (substitute ∅) args = args).
    { rewrite <- (map_id args) at 2. apply map_Forall_eq, IH. }
    destruct path as [|x [|y path]], args as [|a args]; try reflexivity;
      first [rewrite lookup_empty; reflexivity | cbn [map] in *; congruence].
  - rewrite (map_Forall_eq _ id ps IHp), map_id, IHr. reflexivity.
  - destruct err as [e|]; [rewrite (IHe e eq_refl)|]; rewrite IHo; reflexivity.
Qed.

Lemma Substitute_eq t s : Substitute t s = substitute s t.
Proof.
  unfold Substitute. destruct (decide (base.size s = 0%nat)) as [H|H]; [|reflexivity].
  apply map_size_empty_inv in H as ->. symmetry. apply substitute_empty.
Qed.

(** Substituting twice is substituting once with the composed map, the
    shortcut for an empty map included: instantiating a generic type through
    two layers of parameters loses nothing. *)
Theorem substitute_twice t s1 s2 :
  Substitute (Substitute t s1) s2 = Substitute t (compose s1 s2) /\ Substitute t ∅ = t.
Proof.
  rewrite !Substitute_eq, substitute_compose, substitute_empty. auto.
Qed.

(** ** Static lengths *)

(** The names the lengths of a type wait on. *)
Fixpoint lengthNames (t : Ty) : list string :=
  match t with
  | Name _ args => flat_map lengthNames args
  | Slice e | Borrow e _ | Optional e | Const e => lengthNames e
  | Buffer _ len e => (Names len ++ lengthNames e)%list
  | Func ps r _ _ => (flat_map lengthNames ps ++ lengthNames r)%list
  | ErrorUnion err ok =>
      (match err with Some e => lengthNames e | None => [] end ++ lengthNames ok)%list
  end.

(** Every length that is a number is a positive one. *)
Fixpoint sizesPositive (t : Ty) : bool :=
  match t with
  | Name _ args => forallb sizesPositive args
  | Slice e | Borrow e _ | Optional e | Const e => sizesPositive e
  | Buffer size len e => (negb (String.eqb len "") || (0 <? size)%Z) && sizesPositive e
  | Func ps r _ _ => forallb sizesPositive ps && sizesPositive r
  | ErrorUnion err ok => match err with Some e => sizesPositive e | None => true end && sizesPositive ok
  end.

Section BindSpec.
Context (value : string -> option Z).

Definition allBound (names : list string) : Prop := forall x, x ∈ names -> is_Some (value x).

Lemma allBound_app l r : allBound (l ++ r)%list <-> allBound l /\ allBound r.
Proof.
  unfold allBound. setoid_rewrite elem_of_app. split; [intros H; split; auto | intros [? ?] x [?|?]; auto].
Qed.

Definition bindGoal (t : Ty) : Prop := forall t',
  allBound (lengthNames t) -> BindLengths value t = Ok t' ->
  HasStaticLength t' = false /\ (sizesPositive t = true -> sizesPositive t' = true).

Lemma bind_skip t : HasStaticLength t = false -> BindLengths value t = Ok t.
Proof. intros H. destruct t; cbn [BindLengths]; rewrite H; reflexivity. Qed.

(** It is enough to treat the types that wait on a length. *)
Lemma bindGoal_static t : (HasStaticLength t = true -> bindGoal t) -> bindGoal t.
Proof.
  intros H. destruct (HasStaticLength t) eqn:Hs; [apply H; reflexivity|].
  intros t' _ Hb. rewrite bind_skip in Hb by exact Hs. injection Hb as <-. auto.
Qed.

Lemma bind_list ts ts' :
  Forall bindGoal ts -> allBound (flat_map lengthNames ts) -> map_ok (BindLengths value) ts = Ok ts' ->
  existsb HasStaticLength ts' = false /\
  (forallb sizesPositive ts = true -> forallb sizesPositive ts' = true).
Proof.
  intros H. revert ts'. induction H as [|t ts Ht Hts IH]; intros ts'; cbn [map_ok flat_map].
  { intros _ [= <-]. auto. }
  rewrite allBound_app. intros [Hb Hbs] Hm. inv_ok.
  destruct (Ht _ Hb Hok) as [H1 H2]. destruct (IH _ Hbs eq_refl) as [H3 H4].
  cbn [existsb forallb]. rewrite H1, H3, !andb_true_iff. intuition.
Qed.

Lemma bindLength_goal size len e t' :
  allBound (Names len) -> bindLength value size len e = Ok t' ->
  HasStaticLength e = false ->
  HasStaticLength t' = false /\ exists size', t' = Buffer size' "" e /\ (len = "" /\ size' = size \/ (0 < size')%Z).
Proof.
  intros Hb H He. unfold bindLength in H. destruct (String.eqb_spec len "") as [->|Hne].
  { injection H as <-. cbn [HasStaticLength]. rewrite He. split; [reflexivity | eauto 6]. }
  destruct (existsb _ (Names len)) eqn:Hex.
  { apply existsb_exists in Hex as (x & Hx & Hv). apply bool_decide_eq_true in Hv.
    apply list_elem_of_In, Hb in Hx as [v Hx]. congruence. }
  destruct (Eval_ value len) as [v|err]; [|discriminate]. destruct (Z.leb_spec v 0); [discriminate|].
  injection H as <-. cbn [HasStaticLength]. rewrite He. split; [reflexivity | eauto 6].
Qed.

Lemma bind_goal t : bindGoal t.
Proof.
  induction t as [path args IH|e IH|size len e IH|e m IH|e IH|e IH|ps r u a IHp IHr|err ok IHe IHo]
    using Ty_rect'; apply bindGoal_static; intros Hs t' Hb H; cbn [BindLengths] in H;
    rewrite Hs in H; cbn [lengthNames] in Hb; rewrite ?allBound_app in Hb.
  - destruct args as [|a args]; [discriminate Hs|]. inv_ok. eapply bind_list; eauto.
  - inv_ok. exact (IH _ Hb Hok).
  - inv_ok. destruct Hb as [Hb1 Hb2]. destruct (IH _ Hb2 Hok) as [H1 H2].
    destruct (bindLength_goal _ _ _ _ Hb1 H H1) as (H3 & size' & -> & Hsz). split; [exact H3|].
    cbn [sizesPositive]. rewrite !andb_true_iff. intros [H4 H5]. split; [|auto].
    destruct Hsz as [[-> ->]|Hsz]; [exact H4|]. apply Z.ltb_lt in Hsz. rewrite Hsz. reflexivity.
  - inv_ok. exact (IH _ Hb Hok).
  - inv_ok. exact (IH _ Hb Hok).
  - inv_ok. exact (IH _ Hb Hok).
  - inv_ok. destruct Hb as [Hb1 Hb2]. destruct (IHr _ Hb2 Hok0) as [H1 H2].
    destruct (bind_list _ _ IHp Hb1 Hok) as [H3 H4]. cbn [HasStaticLength sizesPositive].
    rewrite H1, H3, !andb_true_iff. intuition.
  - destruct Hb as [Hb1 Hb2]. destruct err as [e|]; inv_ok; destruct (IHo _ Hb2 Hok) as [H1 H2];
      cbn [HasStaticLength sizesPositive]; [|rewrite H1; auto].
    destruct (IHe e eq_refl _ Hb1 Hok0) as [H3 H4]. rewrite H1, H3, !andb_true_iff. intuition.
Qed.
End BindSpec.

(** When every name the lengths of a type mention has a value and binding
    succeeds, no static length is left and every array length is positive; a
    type without static lengths is returned as it is. *)
Theorem bind_lengths_closed value t t' :
  (forall x, x ∈ lengthNames t -> is_Some (value x)) ->
  BindLengths value t = Ok t' ->
  HasStaticLength t' = false /\
  (sizesPositive t = true -> sizesPositive t' = true) /\
  (HasStaticLength t = false -> t' = t).
Proof.
  intros Hb H. destruct (bind_goal value t t' Hb H) as [H1 H2]. split; [exact H1|]. split; [exact H2|].
  intros Hs. rewrite bind_skip in H by exact Hs. congruence.
Qed.

Definition one_name (x : string) : option Z := if String.eqb x "n" then Some 3%Z else None.

Lemma bind_lengths_closed_witness :
  HasStaticLength (Buffer 6 "" (Slice (Name ["u8"] []))) = false /\
  BindLengths one_name (Buffer 0 "(n * 2)" (Slice (Name ["u8"] []))) = Ok (Buffer 6 "" (Slice (Name ["u8"] []))).
Proof.
  assert (H : BindLengths one_name (Buffer 0 "(n * 2)" (Slice (Name ["u8"] []))) =
              Ok (Buffer 6 "" (Slice (Name ["u8"] [])))) by (vm_compute; reflexivity).
  split; [|exact H].
  apply (bind_lengths_closed one_name (Buffer 0 "(n * 2)" (Slice (Name ["u8"] [])))); [|exact H].
  intros x Hx. vm_compute in Hx. apply list_elem_of_singleton in Hx as ->. eexists; reflexivity.
Defined.

(** ** Compile-time shifts *)

#[local] Open Scope Z_scope.

(** [ShiftInt64] on 64-bit operands: a left shift is multiplication by a
    power of two wrapped to 64 bits, zero from 64 on; a right shift is floor
    division at every amount; the result is always a 64-bit integer. *)
Theorem shift_int64_spec value amount :
  in_int64 value -> 0 <= amount ->
  ShiftInt64 "<<" value amount = wrap64 (value * 2 ^ amount) /\
  ShiftInt64 ">>" value amount = value / 2 ^ amount /\
  in_int64 (ShiftInt64 "<<" value amount) /\ in_int64 (ShiftInt64 ">>" value amount).
Proof.
  intros Hv Ha. unfold ShiftInt64. cbn [String.eqb Ascii.eqb Bool.eqb].
  assert (Hshift : forall a, 0 <= a -> Z.shiftr value a = value / 2 ^ a) by (intros; apply Z.shiftr_div_pow2; lia).
  assert (Hdiv : forall a, 0 <= a -> in_int64 (value / 2 ^ a)).
  { intros a Hge. unfold in_int64, min_int64, max_int64 in *. pose proof (Z.pow_pos_nonneg 2 a ltac:(lia) Hge).
    split; [apply Z.div_le_lower_bound; nia | apply Z.div_le_upper_bound; nia]. }
  destruct (Z.leb_spec 64 amount) as [Hbig|Hsmall].
  - assert (Hs : value / 2 ^ amount = value / 2 ^ 63).
    { replace amount with (63 + (amount - 63)) by lia. rewrite Z.pow_add_r, <- Z.div_div by lia.
      unfold in_int64, min_int64, max_int64 in Hv. destruct (Z_lt_le_dec value 0) as [Hn|Hp].
      - replace (value / 2 ^ 63) with (-1) by (apply (Z.div_unique _ _ _ (value + 2 ^ 63)); lia).
        symmetry. pose proof (Z.pow_gt_1 2 (amount - 63) ltac:(lia)) as [Hp _].
        specialize (Hp ltac:(lia)). apply (Z.div_unique _ _ _ (2 ^ (amount - 63) - 1)); lia.
      - rewrite (Z.div_small value) by lia. apply Z.div_0_l. pose proof (Z.pow_pos_nonneg 2 (amount - 63)). lia. }
    assert (Hz : wrap64 (value * 2 ^ amount) = 0).
    { replace amount with (64 + (amount - 64)) by lia. rewrite Z.pow_add_r by lia.
      unfold wrap64. replace (value * (2 ^ 64 * 2 ^ (amount - 64)) + 2 ^ 63)
        with (2 ^ 63 + (value * 2 ^ (amount - 64)) * 2 ^ 64) by ring.
      rewrite Z.mod_add by lia. reflexivity. }
    cbn [Z.ltb Z.compare]. rewrite Hz, Hs, <- Hshift by lia. repeat split; try reflexivity.
    + unfold min_int64. lia.
    + unfold max_int64. lia.
    + rewrite Hshift by lia. apply Hdiv. lia.
    + rewrite Hshift by lia. apply Hdiv. lia.
  - destruct (Z.ltb_spec amount 0); [lia|]. rewrite Z.shiftl_mul_pow2, Hshift by lia.
    repeat split; try reflexivity; first [apply wrap64_range | apply Hdiv; lia].
Qed.

Lemma shift_int64_spec_witness :
  ShiftInt64 "<<" 3 62 = wrap64 (3 * 2 ^ 62) /\ ShiftInt64 ">>" (-1) 70 = -1 / 2 ^ 70.
Proof.
  split; [apply (shift_int64_spec 3 62) | apply (shift_int64_spec (-1) 70)];
    unfold in_int64, min_int64, max_int64; lia.
Defined.
