(* ===== verification/Verify.v ===== *)
(** * The IR verifier ([internal/ir/verify.go])

    [Verify] reports the first way a module is not well formed.  The verifier
    record of the Go code is the parameters of the definitions here: the
    module, the declared parameters by function name ([params]), the function
    being read and its block positions ([at_]).  The verifier's type
    table is only asked, never told a tree, so it answers as [Parse] does
    ([TypTheorems.table_transparent]) and the types are read with [Parse].  An
    index out of range is the error [GoPanic], which stands for no error of the
    code. *)

From stdpp Require Import base list strings gmap.
From Stdlib Require Import ZArith Lia String.
From S2P Require Import Prelude GoStd IR Cfg Typ TypParse.

#[local] Open Scope string_scope.

(** Every failure [Verify] reports; [GoPanic] is a Go panic, an index out of
    the range of a slice or one inside the dominator tree, or a loop that does
    not end: [VerifyFacts.verify_exact] shows that none is reached. *)
Inductive VerifyError : Type :=
  | IndirectNoCallee (fn block : string)
  | IndirectArity (fn block : string) (args params declared : nat)
  | Mismatch (fn position block got want : string)
  | NoTerminator (fn block : string)
  | MissingTarget (fn block target : string)
  | PhiNotPredecessor (fn result block from : string)
  | PhiMissing (fn result block pred : string)
  | PhiCount (fn result block : string) (incoming edges : nat)
  | PhiNotDominated (fn result block value from definedAt : string)
  | ReadBeforeDefinition (fn block value : string)
  | NotDominating (fn block value definedAt : string)
  | GoPanic.

Abbreviation checked := (result VerifyError unit).

(** [l[k]] and [l[k] = x] *)
Definition index {A} (l : list A) (k : nat) : result VerifyError A :=
  match l !! k with Some x => Ok x | None => Err GoPanic end.

Definition setIndex {A} (l : list A) (k : nat) (x : A) : result VerifyError (list A) :=
  if decide (k < List.length l) then Ok (<[k := x]> l) else Err GoPanic.

(** [funcPointerNode] of [internal/ir/lower.go]: the parameters of the pointer. *)
Definition funcPointerNode (text : string) : option (list Ty) :=
  if IsFuncSpelling text then
    match Parse text with
    | Ok (Func params _ _ _) => Some params
    | _ => None
    end
  else None.

(** [errorUnionParts] of [internal/ir/helpers.go] *)
Definition errorUnionParts (result : string) : option (string * string) :=
  match Parse result with
  | Ok parsed =>
      match ErrorUnionParts parsed with
      | Some (errorType, success) => Some (Text errorType, TypeString success)
      | None => None
      end
  | Err _ => None
  end.

(** [directCallee] of [internal/ir/reachable.go] *)
Definition directCallee (op : string) : option string :=
  match CutPrefix op "func.addr." with
  | Some name => Some name
  | None =>
      if String.eqb op "call.indirect" then None
      else if HasPrefix op "call." then Some (TrimPrefix op "call.")
      else None
  end.

(** [lendsSharedBorrow] *)
Definition lendsSharedBorrow (want got : string) : bool :=
  HasPrefix want "&" && negb (HasPrefix want "&var ") &&
  HasPrefix got "&var " && String.eqb (derefType want) (derefType got).

(** [argumentFits] *)
Definition argumentFits (param : Param) (got : string) : bool :=
  String.eqb (pType param) got || TakesAddressOf param got || lendsSharedBorrow (pType param) got.

(** [fillsNullablePointer] *)
Definition fillsNullablePointer (want got : string) : bool :=
  HasPrefix want "?ptr<" && String.eqb (sdrop 1 want) got.

(** [absorbsErrorSet] *)
Definition absorbsErrorSet (want got : string) : bool :=
  match Parse want with
  | Err _ => false
  | Ok wantType =>
      match Parse got with
      | Err _ => false
      | Ok gotType => AbsorbsErrorSet wantType gotType
      end
  end.

(** Where an instruction result is defined: [definition]. *)
Record definition : Type := mkDefinition { defBlock : nat; defStep : nat }.

(** [valueDefiningBlocks]: a later definition of the same name wins. *)
Fixpoint defineSteps (position step : nat) (instrs : list Instr) (defined : gmap string definition)
  : gmap string definition :=
  match instrs with
  | [] => defined
  | instr :: rest =>
      defineSteps position (S step) rest
        (if String.eqb (vName (iResult instr)) "" then defined
         else <[vName (iResult instr) := mkDefinition position step]> defined)
  end.

Fixpoint defineBlocks (position : nat) (blocks : list Block) (defined : gmap string definition)
  : gmap string definition :=
  match blocks with
  | [] => defined
  | block :: rest => defineBlocks (S position) rest (defineSteps position 0 (bInstrs block) defined)
  end.

Definition valueDefiningBlocks (fn : Function) : gmap string definition :=
  defineBlocks 0 (fBlocks fn) ∅.

Section Verifier.
Context (module : Module_) (params : gmap string (list Param)) (fn : Function).
Context (at_ : gmap string nat).

(** [fail] *)
Definition fail (block : Block) (position want got : string) : checked :=
  Err (Mismatch (fName fn) position (bName block) got want).

(** The loop of [call] and of [indirectCall] over the declared parameters;
    [args] has as many elements. *)
Fixpoint checkArguments (block : Block) (label : string) (index : Z) (declared : list Param)
    (args : list Value) : checked :=
  match declared, args with
  | param :: declared, arg :: args =>
      if argumentFits param (vType arg)
      then checkArguments block label (index + 1) declared args
      else fail block (label +:+ FormatInt index) (pType param) (vType arg)
  | _, _ => Ok tt
  end.

(** [indirectCall] *)
Definition indirectCall (block : Block) (instr : Instr) : checked :=
  match iArgs instr with
  | [] => Err (IndirectNoCallee (fName fn) (bName block))
  | callee :: args =>
      match funcPointerNode (vType callee) with
      | None => fail block "call.indirect callee" "function pointer" (vType callee)
      | Some node =>
          if negb (List.length (iCallParams instr) =? List.length args)%nat ||
             negb (List.length node =? List.length (iCallParams instr))%nat
          then Err (IndirectArity (fName fn) (bName block) (List.length args)
                      (List.length (iCallParams instr)) (List.length node))
          else checkArguments block "call.indirect argument " 0 (iCallParams instr) args
      end
  end.

(** [call] *)
Definition call (block : Block) (instr : Instr) (callee : string) : checked :=
  match params !! callee with
  | None => Ok tt
  | Some declared =>
      if negb (List.length declared =? List.length (iArgs instr))%nat then Ok tt
      else checkArguments block ("call " +:+ callee +:+ " argument ") 0 declared (iArgs instr)
  end.

(** [structLiteral] *)
Definition structLiteral (block : Block) (instr : Instr) : checked :=
  let T := vType (iResult instr) in
  let declaredFields := match mStructs module !! T with Some s => sFields s | None => [] end in
  forall_ok (fun field =>
    forall_ok (fun declared =>
      if negb (String.eqb (fieldName declared) (faName field)) then Ok tt
      else if negb (String.eqb (fieldType declared) (vType (faValue field)))
      then fail block (T +:+ "." +:+ faName field) (fieldType declared) (vType (faValue field))
      else Ok tt) declaredFields) (iFields instr).

(** [unionPayload] *)
Definition unionPayload (block : Block) (instr : Instr) : checked :=
  let T := vType (iResult instr) in
  match mUnions module !! T ≫= fun u => uVariants u !! iImmediate instr with
  | None => Ok tt
  | Some variant =>
      match iArgs instr with
      | [arg] =>
          if String.eqb (uvPayload variant) "" || String.eqb (uvPayload variant) (vType arg) then Ok tt
          else fail block (T +:+ "::" +:+ uvName variant +:+ " payload") (uvPayload variant) (vType arg)
      | _ => Ok tt
      end
  end.

(** [successWrap] *)
Definition successWrap (block : Block) (instr : Instr) : checked :=
  let T := vType (iResult instr) in
  match errorUnionParts T, iArgs instr with
  | Some (_, success), [arg] =>
      if String.eqb success (vType arg) then Ok tt
      else fail block ("success wrapped as " +:+ T) success (vType arg)
  | _, _ => Ok tt
  end.

(** [verifier.instr] *)
Definition checkInstr (block : Block) (instr : Instr) : checked :=
  if String.eqb (iOp instr) "struct.new" then structLiteral block instr
  else if String.eqb (iOp instr) "union.new" then unionPayload block instr
  else if String.eqb (iOp instr) "error.ok" then successWrap block instr
  else if String.eqb (iOp instr) "call.indirect" then indirectCall block instr
  else match directCallee (iOp instr) with
  | Some callee => call block instr callee
  | None => Ok tt
  end.

(** [verifier.terminator] *)
Definition terminator (block : Block) : checked :=
  let term := bTerminator block in
  if String.eqb (tOp term) "" then Err (NoTerminator (fName fn) (bName block))
  else check* forall_ok (fun target =>
         match at_ !! target with
         | Some _ => Ok tt
         | None => Err (MissingTarget (fName fn) (bName block) target)
         end) (Successors term) in
  let got := vType (tValue term) in
  if negb (String.eqb (tOp term) "return") || String.eqb got "" || absorbsErrorSet (fReturn fn) got
  then Ok tt
  else if negb (String.eqb (fReturn fn) got) && negb (fillsNullablePointer (fReturn fn) got)
  then fail block "return value" (fReturn fn) got
  else Ok tt.

(** The first loop of [verifier.function]. *)
Definition checkBlock (block : Block) : checked :=
  check* forall_ok (checkInstr block) (bInstrs block) in terminator block.

(** *** Phis against predecessors, with the two reused flag sets *)

Fixpoint markIncoming (block : Block) (instr : Instr) (arrives named : list bool)
    (incoming : list Incoming) : result VerifyError (list bool) :=
  match incoming with
  | [] => Ok named
  | i :: rest =>
      let refused := Err (PhiNotPredecessor (fName fn) (vName (iResult instr)) (bName block) (inBlock i)) in
      match at_ !! inBlock i with
      | None => refused
      | Some from =>
          let* arrived := index arrives from in
          if arrived : bool then
            let* named := setIndex named from true in
            markIncoming block instr arrives named rest
          else refused
      end
  end.

(** [named[v.at[incoming.Block]] = false]; a missing name reads as 0. *)
Fixpoint clearNamed (named : list bool) (incoming : list Incoming) : result VerifyError (list bool) :=
  match incoming with
  | [] => Ok named
  | i :: rest =>
      let* named := setIndex named (default 0 (at_ !! inBlock i)) false in
      clearNamed named rest
  end.

(** [phiEdges] *)
Definition phiEdges (block : Block) (instr : Instr) (preds : list nat) (arrives named : list bool)
  : result VerifyError (list bool) :=
  let* named := markIncoming block instr arrives named (iIncoming instr) in
  check* forall_ok (fun pred =>
    let* known := index named pred in
    if known : bool then Ok tt
    else let* from := index (fBlocks fn) pred in
         Err (PhiMissing (fName fn) (vName (iResult instr)) (bName block) (bName from))) preds in
  if negb (List.length (iIncoming instr) =? List.length preds)%nat
  then Err (PhiCount (fName fn) (vName (iResult instr)) (bName block)
              (List.length (iIncoming instr)) (List.length preds))
  else clearNamed named (iIncoming instr).

(** The phis of one block, in order. *)
Fixpoint phiBlock (block : Block) (preds : list nat) (arrives named : list bool)
    (instrs : list Instr) : result VerifyError (list bool) :=
  match instrs with
  | [] => Ok named
  | instr :: rest =>
      if String.eqb (iOp instr) "phi" then
        let* named := phiEdges block instr preds arrives named in
        phiBlock block preds arrives named rest
      else phiBlock block preds arrives named rest
  end.

(** The two loops over [preds[position]]. *)
Fixpoint setFlags (value : bool) (flags : list bool) (positions : list nat) : result VerifyError (list bool) :=
  match positions with
  | [] => Ok flags
  | position :: rest =>
      let* flags := setIndex flags position value in
      setFlags value flags rest
  end.

(** [phiIncomingMatchesPredecessors], from block [position] on. *)
Fixpoint phiBlocks (preds : list (list nat)) (arrives named : list bool) (position : nat)
    (blocks : list Block) : checked :=
  match blocks with
  | [] => Ok tt
  | block :: rest =>
      let* here := index preds position in
      let* arrives := setFlags true arrives here in
      let* named := phiBlock block here arrives named (bInstrs block) in
      let* arrives := setFlags false arrives here in
      phiBlocks preds arrives named (S position) rest
  end.

Definition phiIncomingMatchesPredecessors (preds : list (list nat)) : checked :=
  let flags := replicate (List.length (fBlocks fn)) false in
  phiBlocks preds flags flags 0 (fBlocks fn).

(** *** Dominance *)

(** One incoming of [phiIncomingDominates]. *)
Definition incomingDominates (tree : dominatorTree) (definedIn : gmap string definition)
    (block : Block) (instr : Instr) (i : Incoming) : checked :=
  match definedIn !! vName (inValue i), at_ !! inBlock i with
  | Some defined, Some from =>
      match dominates tree (defBlock defined) from with
      | Some true => Ok tt
      | Some false =>
          let* definedAt := index (fBlocks fn) (defBlock defined) in
          Err (PhiNotDominated (fName fn) (vName (iResult instr)) (bName block)
                 (vName (inValue i)) (inBlock i) (bName definedAt))
      | None => Err GoPanic
      end
  | _, _ => Ok tt
  end.

(** [phiIncomingDominates] *)
Definition phiIncomingDominates (preds : list (list nat)) : checked :=
  match fBlocks fn with
  | [] => Ok tt
  | _ =>
      let definedIn := valueDefiningBlocks fn in
      match buildDominatorTree fn preds with
      | None => Err GoPanic
      | Some tree =>
          forall_ok (fun block =>
            forall_ok (fun instr =>
              if negb (String.eqb (iOp instr) "phi") then Ok tt
              else forall_ok (incomingDominates tree definedIn block instr) (iIncoming instr))
              (bInstrs block)) (fBlocks fn)
      end
  end.

(** [dominatesUse] *)
Definition dominatesUse (tree : dominatorTree) (definedIn : gmap string definition)
    (position step : nat) (block : Block) (operand : Value) : checked :=
  match definedIn !! vName operand with
  | None => Ok tt
  | Some defined =>
      if (defBlock defined =? position)%nat then
        if (defStep defined <? step)%nat then Ok tt
        else Err (ReadBeforeDefinition (fName fn) (bName block) (vName operand))
      else match dominates tree (defBlock defined) position with
      | Some true => Ok tt
      | Some false =>
          let* definedAt := index (fBlocks fn) (defBlock defined) in
          Err (NotDominating (fName fn) (bName block) (vName operand) (bName definedAt))
      | None => Err GoPanic
      end
  end.

(** The values [checkOperands] walks, in its order. *)
Definition readOperands (instr : Instr) : list Value :=
  (iArgs instr ++ map faValue (iFields instr) ++ flat_map clArgs (iCleanups instr))%list.

(** [checkOperands] *)
Definition checkOperands (tree : dominatorTree) (definedIn : gmap string definition)
    (position step : nat) (block : Block) (instr : Instr) : checked :=
  forall_ok (dominatesUse tree definedIn position step block) (readOperands instr).

(** [valuesDominateUses] *)
Definition valuesDominateUses (preds : list (list nat)) : checked :=
  match fBlocks fn with
  | [] => Ok tt
  | _ =>
      let definedIn := valueDefiningBlocks fn in
      match buildDominatorTree fn preds with
      | None => Err GoPanic
      | Some tree =>
          forall_ok_from (fun position block =>
            check* forall_ok_from (fun step instr =>
              if String.eqb (iOp instr) "phi" then Ok tt
              else checkOperands tree definedIn position step block instr) 0 (bInstrs block) in
            forall_ok (dominatesUse tree definedIn position (List.length (bInstrs block)) block)
              [tCond (bTerminator block); tValue (bTerminator block)]) 0 (fBlocks fn)
      end
  end.
End Verifier.

(** [verifier.function] *)
Definition verifyFunction (module : Module_) (params : gmap string (list Param)) (fn : Function)
  : checked :=
  let at_ := blockIndex fn in
  check* forall_ok (checkBlock module params fn at_) (fBlocks fn) in
  let preds := blockPredecessors fn at_ in
  check* phiIncomingMatchesPredecessors fn at_ preds in
  check* phiIncomingDominates fn at_ preds in
  valuesDominateUses fn preds.

(** The parameters by function name: a later function of the same name wins. *)
Definition declaredParams (functions : list Function) : gmap string (list Param) :=
  foldl (fun params fn => <[fName fn := fParams fn]> params) ∅ functions.

(** [Verify] *)
Definition Verify (module : Module_) : checked :=
  forall_ok (verifyFunction module (declaredParams (mFunctions module))) (mFunctions module).
