(* ===== verification/VerifyFacts.v ===== *)
(** * What the verifier's loops decide ([internal/ir/verify.go])

    [wellFormed] says declaratively what a function must satisfy; the lemmas
    here take each loop of the verifier to its part of it. *)

From stdpp Require Import base list strings gmap.
From Stdlib Require Import ZArith Lia String.
From S2P Require Import Prelude GoStd IR Cfg Dominators CfgFacts Typ TypParse Verify.

#[local] Open Scope string_scope.

(** ** The specification *)

Section Spec.
Context (module : Module_) (params : gmap string (list Param)) (fn : Function).

Definition fits (declared : Param) (arg : Value) : Prop := argumentFits declared (vType arg) = true.

(** The slot an instruction fills holds what its declaration asks for. *)
Definition slotFits (i : Instr) : Prop :=
  if String.eqb (iOp i) "struct.new" then
    forall s field declared, mStructs module !! vType (iResult i) = Some s ->
      field ∈ iFields i -> declared ∈ sFields s -> fieldName declared = faName field ->
      fieldType declared = vType (faValue field)
  else if String.eqb (iOp i) "union.new" then
    forall u variant arg, mUnions module !! vType (iResult i) = Some u ->
      uVariants u !! iImmediate i = Some variant -> iArgs i = [arg] ->
      uvPayload variant = "" \/ uvPayload variant = vType arg
  else if String.eqb (iOp i) "error.ok" then
    forall e success arg, errorUnionParts (vType (iResult i)) = Some (e, success) ->
      iArgs i = [arg] -> success = vType arg
  else if String.eqb (iOp i) "call.indirect" then
    exists callee args node, iArgs i = callee :: args /\ funcPointerNode (vType callee) = Some node /\
      List.length node = List.length args /\ Forall2 fits (iCallParams i) args
  else forall callee declared, directCallee (iOp i) = Some callee -> params !! callee = Some declared ->
    List.length declared = List.length (iArgs i) -> Forall2 fits declared (iArgs i).

(** A block ends, names blocks that exist, and returns what is declared. *)
Definition endsWell (b : Block) : Prop :=
  tOp (bTerminator b) <> "" /\
  (forall target, target ∈ Successors (bTerminator b) -> exists q, at_ fn !! target = Some q) /\
  (tOp (bTerminator b) = "return" -> vType (tValue (bTerminator b)) <> "" ->
   fReturn fn = vType (tValue (bTerminator b)) \/
   absorbsErrorSet (fReturn fn) (vType (tValue (bTerminator b))) = true \/
   fillsNullablePointer (fReturn fn) (vType (tValue (bTerminator b))) = true).

(** A phi of block [p] names exactly the blocks that jump to [p], and has as
    many incoming values as [p] has incoming edges. *)
Definition phiCovers (p : nat) (i : Instr) : Prop :=
  (forall inc, inc ∈ iIncoming i -> exists q, at_ fn !! inBlock inc = Some q /\ p ∈ succs fn q) /\
  (forall q, p ∈ succs fn q -> exists inc, inc ∈ iIncoming i /\ at_ fn !! inBlock inc = Some q) /\
  List.length (iIncoming i) = List.length (predecessorsOf (succs fn) (CfgFacts.size fn) p).

(** The value a phi takes on an edge is defined on every path to the edge. *)
Definition phiDominated (i : Instr) : Prop :=
  forall inc d q, inc ∈ iIncoming i -> valueDefiningBlocks fn !! vName (inValue inc) = Some d ->
    at_ fn !! inBlock inc = Some q -> dominated_by (succs fn) (defBlock d) q.

(** A value read at step [step] of block [p] is defined on every path there. *)
Definition defined_at (p step : nat) (v : Value) : Prop :=
  forall d, valueDefiningBlocks fn !! vName v = Some d ->
    (defBlock d = p /\ defStep d < step) \/ (defBlock d <> p /\ dominated_by (succs fn) (defBlock d) p).

Record wellFormed : Prop := mkWellFormed {
  wf_slots : forall b i, b ∈ fBlocks fn -> i ∈ bInstrs b -> slotFits i;
  wf_ends : forall b, b ∈ fBlocks fn -> endsWell b;
  wf_phis : forall p b i, fBlocks fn !! p = Some b -> i ∈ bInstrs b -> iOp i = "phi" ->
    phiCovers p i /\ phiDominated i;
  wf_uses : forall p b s i v, fBlocks fn !! p = Some b -> bInstrs b !! s = Some i -> iOp i <> "phi" ->
    v ∈ readOperands i -> defined_at p s v;
  wf_ends_uses : forall p b v, fBlocks fn !! p = Some b ->
    v ∈ [tCond (bTerminator b); tValue (bTerminator b)] -> defined_at p (List.length (bInstrs b)) v
}.
End Spec.

(** ** Slots *)

Section Slots.
Context (module : Module_) (params : gmap string (list Param)) (fn : Function) (block : Block).

Lemma checkArguments_spec label index declared args :
  List.length declared = List.length args ->
  checkArguments fn block label index declared args = Ok tt <-> Forall2 fits declared args.
Proof.
  revert index args. induction declared as [|p declared IH]; intros index [|a args]; cbn [checkArguments List.length];
    try discriminate; intros Hl.
  { split; [constructor | reflexivity]. }
  unfold fits at 1. destruct (argumentFits p (vType a)) eqn:Hf; unfold fail.
  - rewrite IH by congruence. split; [constructor; assumption | inversion 1; assumption].
  - split; [discriminate | inversion 1; congruence].
Qed.

Lemma structLiteral_spec i :
  structLiteral module fn block i = Ok tt <->
  forall s field declared, mStructs module !! vType (iResult i) = Some s ->
    field ∈ iFields i -> declared ∈ sFields s -> fieldName declared = faName field ->
    fieldType declared = vType (faValue field).
Proof.
  unfold structLiteral, fail. rewrite forall_ok_spec, Forall_forall.
  setoid_rewrite forall_ok_spec. setoid_rewrite Forall_forall.
  destruct (mStructs module !! vType (iResult i)) as [s|].
  - split.
    + intros H s' field declared [= <-] Hf Hd Hn. specialize (H field Hf declared Hd). cbn beta in H.
      rewrite Hn, String.eqb_refl in H. cbn [negb] in H.
      destruct (String.eqb_spec (fieldType declared) (vType (faValue field))); [assumption | discriminate].
    + intros H field Hf declared Hd. specialize (H s field declared eq_refl Hf Hd).
      destruct (String.eqb_spec (fieldName declared) (faName field)) as [Hn|]; [|reflexivity].
      rewrite (H Hn), String.eqb_refl. reflexivity.
  - split; [discriminate|]. intros _ field _ declared Hd. inversion Hd.
Qed.

Lemma unionPayload_spec i :
  unionPayload module fn block i = Ok tt <->
  forall u variant arg, mUnions module !! vType (iResult i) = Some u ->
    uVariants u !! iImmediate i = Some variant -> iArgs i = [arg] ->
    uvPayload variant = "" \/ uvPayload variant = vType arg.
Proof.
  unfold unionPayload, fail. destruct (mUnions module !! vType (iResult i)) as [u|]; cbn [mbind option_bind].
  2: { split; [discriminate | reflexivity]. }
  destruct (uVariants u !! iImmediate i) as [variant|] eqn:Hv.
  2: { split; [intros _ ? ? ? [= <-]; congruence | reflexivity]. }
  destruct (iArgs i) as [|arg [|b l]]; [split; [discriminate | reflexivity] | | split; [discriminate | reflexivity]].
  destruct (String.eqb_spec (uvPayload variant) "") as [He|He];
    destruct (String.eqb_spec (uvPayload variant) (vType arg)) as [Ha|Ha]; cbn [orb].
  1, 2, 3: split; [|reflexivity]; intros _ u' v' a' [= <-] Hv' [= <-];
    assert (v' = variant) as -> by congruence; auto.
  split; [discriminate|]. intros H. destruct (H u variant arg eq_refl Hv eq_refl); congruence.
Qed.

Lemma successWrap_spec i :
  successWrap fn block i = Ok tt <->
  forall e success arg, errorUnionParts (vType (iResult i)) = Some (e, success) ->
    iArgs i = [arg] -> success = vType arg.
Proof.
  unfold successWrap, fail. destruct (errorUnionParts (vType (iResult i))) as [[e success]|].
  2: { split; [discriminate | reflexivity]. }
  destruct (iArgs i) as [|arg [|b l]]; [split; [discriminate | reflexivity] | | split; [discriminate | reflexivity]].
  destruct (String.eqb_spec success (vType arg)) as [->|Hne].
  - split; [|reflexivity]. intros _ ? ? ? [= <- <-] [= <-]. reflexivity.
  - split; [discriminate|]. intros H. destruct Hne. eapply H; reflexivity.
Qed.

Lemma indirectCall_spec i :
  indirectCall fn block i = Ok tt <->
  exists callee args node, iArgs i = callee :: args /\ funcPointerNode (vType callee) = Some node /\
    List.length node = List.length args /\ Forall2 fits (iCallParams i) args.
Proof.
  unfold indirectCall, fail. destruct (iArgs i) as [|callee args].
  { split; [discriminate | intros (? & ? & ? & ? & _); discriminate]. }
  destruct (funcPointerNode (vType callee)) as [node|] eqn:Hn.
  2: { split; [discriminate | intros (? & ? & ? & [= <- <-] & ? & _); congruence]. }
  destruct (Nat.eqb_spec (List.length (iCallParams i)) (List.length args)) as [H1|H1];
    destruct (Nat.eqb_spec (List.length node) (List.length (iCallParams i))) as [H2|H2]; cbn [negb orb].
  2, 3, 4: split; [discriminate|]; intros (c & a & n & [= <- <-] & Hn' & H3 & H4);
    apply Forall2_length in H4; assert (n = node) as -> by congruence; congruence.
  rewrite checkArguments_spec by exact H1. split.
  - intros H. exists callee, args, node. repeat split; auto. congruence.
  - intros (c & a & n & [= <- <-] & _ & _ & H). exact H.
Qed.

Lemma call_spec i callee :
  call params fn block i callee = Ok tt <->
  forall declared, params !! callee = Some declared ->
    List.length declared = List.length (iArgs i) -> Forall2 fits declared (iArgs i).
Proof.
  unfold call. destruct (params !! callee) as [declared|].
  2: { split; [discriminate | reflexivity]. }
  destruct (Nat.eqb_spec (List.length declared) (List.length (iArgs i))) as [H1|H1]; cbn [negb].
  - rewrite checkArguments_spec by exact H1.
    split; [intros H d [= <-] _; exact H | intros H; apply H; auto].
  - split; [intros _ d [= <-]; congruence | reflexivity].
Qed.

Lemma checkInstr_spec i : checkInstr module params fn block i = Ok tt <-> slotFits module params i.
Proof.
  unfold checkInstr, slotFits.
  destruct (String.eqb (iOp i) "struct.new"); [apply structLiteral_spec|].
  destruct (String.eqb (iOp i) "union.new"); [apply unionPayload_spec|].
  destruct (String.eqb (iOp i) "error.ok"); [apply successWrap_spec|].
  destruct (String.eqb (iOp i) "call.indirect"); [apply indirectCall_spec|].
  destruct (directCallee (iOp i)) as [callee|].
  - rewrite call_spec. split; [intros H c d [= <-]; apply H | intros H d; apply H; reflexivity].
  - split; [discriminate | reflexivity].
Qed.

Lemma targets_spec l :
  forall_ok (fun target => match at_ fn !! target with
    | Some _ => Ok tt | None => Err (MissingTarget (fName fn) (bName block) target) end) l = Ok tt <->
  forall target, target ∈ l -> exists q, at_ fn !! target = Some q.
Proof.
  rewrite forall_ok_spec, Forall_forall. split; intros H target Ht; specialize (H target Ht).
  - destruct (at_ fn !! target); [eauto | discriminate].
  - destruct H as [q ->]. reflexivity.
Qed.

Lemma terminator_spec : terminator fn (at_ fn) block = Ok tt <-> endsWell fn block.
Proof.
  unfold terminator, endsWell, fail. rewrite <- (targets_spec (Successors (bTerminator block))).
  destruct (String.eqb_spec (tOp (bTerminator block)) "") as [->|Hop].
  { split; [discriminate | intros [[] _]; reflexivity]. }
  destruct (forall_ok _ (Successors (bTerminator block))) as [[]|e]; [|split; [discriminate | intros (_ & ? & _); discriminate]].
  set (got := vType (tValue (bTerminator block))).
  assert (Hr : forall P : Prop, P <-> tOp (bTerminator block) <> "" /\ @Ok VerifyError unit tt = Ok tt /\ P) by tauto.
  rewrite <- Hr. clear Hr.
  destruct (String.eqb_spec (tOp (bTerminator block)) "return"); cbn [negb orb]; [|tauto].
  destruct (String.eqb_spec got "") as [->|Hg]; cbn [orb]; [tauto|].
  destruct (absorbsErrorSet (fReturn fn) got) eqn:Ha; [tauto|].
  destruct (String.eqb_spec (fReturn fn) got); cbn [negb andb]; [tauto|].
  destruct (fillsNullablePointer (fReturn fn) got) eqn:Hf; cbn [negb]; [tauto|].
  split; [discriminate|]. intros H. destruct (H e Hg) as [?|[?|?]]; congruence.
Qed.
End Slots.

(** ** Phis against predecessors: the reused flag sets *)

Section Phis.
Context (fn : Function).

Lemma index_ok {A} (l : list A) k x : l !! k = Some x -> index l k = Ok x.
Proof. unfold index. intros ->. reflexivity. Qed.

Lemma setIndex_ok {A} (l : list A) k x : k < List.length l -> setIndex l k x = Ok (<[k := x]> l).
Proof. intros H. unfold setIndex. rewrite decide_True by exact H. reflexivity. Qed.

(** What [setFlags] writes when every position is in range. *)
Definition flagged (v : bool) (flags : list bool) (l : list nat) : list bool :=
  foldl (fun flags p => <[p := v]> flags) flags l.

Lemma flagged_length v flags l : List.length (flagged v flags l) = List.length flags.
Proof.
  revert flags. induction l as [|p l IH]; intros flags; [reflexivity|].
  cbn [flagged foldl]. fold (flagged v (<[p := v]> flags) l). rewrite IH. apply length_insert.
Qed.

Lemma setFlags_ok v flags l : (forall p, p ∈ l -> p < List.length flags) -> setFlags v flags l = Ok (flagged v flags l).
Proof.
  revert flags. induction l as [|p l IH]; intros flags Hl; [reflexivity|]. cbn [setFlags].
  rewrite setIndex_ok by (apply Hl; left). apply IH. intros q Hq. rewrite length_insert. apply Hl. right. exact Hq.
Qed.

Lemma flagged_lookup v flags l q :
  q < List.length flags -> flagged v flags l !! q = if decide (q ∈ l) then Some v else flags !! q.
Proof.
  revert flags. induction l as [|p l IH]; intros flags Hq; [reflexivity|].
  change (flagged v flags (p :: l)) with (flagged v (<[p := v]> flags) l).
  rewrite IH by (rewrite length_insert; exact Hq).
  destruct (decide (q ∈ l)) as [H|H]; destruct (decide (q ∈ p :: l)) as [H'|H'].
  - reflexivity.
  - exfalso. apply H'. right. exact H.
  - apply elem_of_cons in H' as [->|H']; [|contradiction]. apply list_lookup_insert_eq, Hq.
  - apply list_lookup_insert_ne. intros ->. apply H'. left.
Qed.

(** Flags that are all down. *)
Definition noFlags : list bool := replicate (CfgFacts.size fn) false.

Lemma noFlags_length : List.length noFlags = CfgFacts.size fn.
Proof. apply length_replicate. Qed.

Lemma flagged_undo l : flagged false (flagged true noFlags l) l = noFlags.
Proof.
  pose proof noFlags_length as Hl. apply list_eq_same_length with (CfgFacts.size fn);
    [exact Hl | rewrite !flagged_length; exact Hl |].
  intros q x y Hq Hx Hy. rewrite flagged_lookup in Hx by (rewrite flagged_length, Hl; exact Hq).
  rewrite flagged_lookup in Hx by (rewrite Hl; exact Hq).
  apply lookup_replicate in Hy as [-> _]. destruct (decide (q ∈ l)); [congruence|].
  apply lookup_replicate in Hx as [-> _]. reflexivity.
Qed.

Lemma flag_set l q : q < CfgFacts.size fn -> index (flagged true noFlags l) q = Ok (bool_decide (q ∈ l)).
Proof.
  intros Hq. apply index_ok. rewrite flagged_lookup by (rewrite noFlags_length; exact Hq).
  destruct (decide (q ∈ l)); [rewrite bool_decide_true by assumption; reflexivity|].
  rewrite bool_decide_false by assumption. unfold noFlags. rewrite lookup_replicate_2 by exact Hq. reflexivity.
Qed.

Lemma at_bound name q : at_ fn !! name = Some q -> q < CfgFacts.size fn.
Proof. intros (b & Hb & _)%blockIndex_Some. eapply lookup_lt_Some, Hb. Qed.

(** The positions a phi's incoming values name. *)
Definition incomingAt (incs : list Incoming) : list nat := omap (fun i => at_ fn !! inBlock i) incs.

Definition arriveFrom (preds : list nat) (inc : Incoming) : Prop :=
  exists q, at_ fn !! inBlock inc = Some q /\ q ∈ preds.

Lemma markIncoming_spec block i preds named incs named' :
  List.length named = CfgFacts.size fn ->
  markIncoming fn (at_ fn) block i (flagged true noFlags preds) named incs = Ok named' <->
  Forall (arriveFrom preds) incs /\ named' = flagged true named (incomingAt incs).
Proof.
  revert named. induction incs as [|inc incs IH]; intros named Hlen; cbn [markIncoming].
  { split; [intros [= <-]; split; [constructor | reflexivity] | intros [_ ->]; reflexivity]. }
  unfold incomingAt. cbn [omap list_omap]. fold (incomingAt incs).
  rewrite Forall_cons. unfold arriveFrom at 1. destruct (at_ fn !! inBlock inc) as [q|] eqn:Hq.
  2: { split; [discriminate | intros [[(q & ? & _) _] _]; discriminate]. }
  pose proof (at_bound _ _ Hq) as Hb. rewrite flag_set by exact Hb. case_bool_decide as Hin.
  - rewrite setIndex_ok by (rewrite Hlen; exact Hb). rewrite IH by (rewrite length_insert; exact Hlen). split.
    + intros [H ->]. split; [eauto | reflexivity].
    + intros [[_ H] ->]. split; [exact H | reflexivity].
  - split; [discriminate|]. intros [[(q' & [= <-] & ?) _] _]. contradiction.
Qed.

Lemma clearNamed_spec preds named incs :
  List.length named = CfgFacts.size fn -> Forall (arriveFrom preds) incs ->
  clearNamed (at_ fn) named incs = Ok (flagged false named (incomingAt incs)).
Proof.
  intros Hlen H. revert named Hlen. induction H as [|inc incs (q & Hq & _) H IH]; intros named Hlen; [reflexivity|].
  unfold incomingAt. cbn [omap list_omap]. rewrite Hq. fold (incomingAt incs).
  cbn [clearNamed]. rewrite Hq. cbn [default id from_option]. rewrite setIndex_ok by (rewrite Hlen; eapply at_bound, Hq).
  apply IH. rewrite length_insert. exact Hlen.
Qed.

(** The predecessors of a block are positions of the function. *)
Lemma predecessors_bound p q : q ∈ predecessorsOf (succs fn) (CfgFacts.size fn) p -> q < CfgFacts.size fn.
Proof. rewrite elem_of_predecessorsOf. tauto. Qed.

Lemma phiEdges_spec p block i named' :
  p < CfgFacts.size fn ->
  let preds := predecessorsOf (succs fn) (CfgFacts.size fn) p in
  phiEdges fn (at_ fn) block i preds (flagged true noFlags preds) noFlags = Ok named' <->
  phiCovers fn p i /\ named' = noFlags.
Proof.
  intros Hp preds. unfold phiEdges, phiCovers. fold preds.
  assert (Hmem : forall q, q ∈ preds <-> p ∈ succs fn q).
  { intros q. unfold preds. rewrite elem_of_predecessorsOf. split; [tauto|].
    intros H. split; [apply succs_bound in H; lia | exact H]. }
  assert (Hall : Forall (arriveFrom preds) (iIncoming i) <->
    forall inc, inc ∈ iIncoming i -> exists q, at_ fn !! inBlock inc = Some q /\ p ∈ succs fn q).
  { rewrite Forall_forall. unfold arriveFrom. setoid_rewrite Hmem. reflexivity. }
  rewrite <- Hall. destruct (markIncoming _ _ _ _ _ _ _) as [named|e] eqn:Hm.
  2: { split; [discriminate|]. intros [[H _] _].
       pose proof (proj2 (markIncoming_spec block i preds noFlags (iIncoming i) _ noFlags_length) (conj H eq_refl)). congruence. }
  apply markIncoming_spec in Hm as [Hfrom ->]; [|apply noFlags_length].
  match goal with |- context [forall_ok ?f preds] => assert (Hnamed : forall_ok f preds = Ok tt <->
    forall q, p ∈ succs fn q -> exists inc, inc ∈ iIncoming i /\ at_ fn !! inBlock inc = Some q) end.
  { rewrite forall_ok_spec, Forall_forall. split; intros H q Hq.
    - pose proof Hq as Hq'. apply succs_bound in Hq' as [Hq' _]. apply Hmem, H in Hq.
      rewrite flag_set in Hq by exact Hq'. case_bool_decide as Hin; [|destruct (index (fBlocks fn) q); discriminate].
      apply list_elem_of_omap in Hin as (inc & Hinc & Hat). eauto.
    - apply Hmem in Hq. rewrite flag_set by (apply succs_bound in Hq; lia).
      rewrite bool_decide_true; [reflexivity|]. destruct (H q Hq) as (inc & Hinc & Hat).
      apply list_elem_of_omap. eauto. }
  rewrite <- Hnamed. destruct (forall_ok _ preds) as [[]|e]; [|split; [discriminate | intros [(_ & ? & _) _]; discriminate]].
  destruct (Nat.eqb_spec (List.length (iIncoming i)) (List.length preds)) as [Hl|Hl]; cbn [negb].
  - rewrite (clearNamed_spec preds) by (exact Hfrom || rewrite flagged_length; apply noFlags_length). rewrite flagged_undo. split.
    + intros [= <-]. auto.
    + intros [_ ->]. reflexivity.
  - split; [discriminate | intros [(_ & _ & ?) _]; contradiction].
Qed.

Lemma phiBlock_spec p block named' instrs :
  p < CfgFacts.size fn ->
  let preds := predecessorsOf (succs fn) (CfgFacts.size fn) p in
  phiBlock fn (at_ fn) block preds (flagged true noFlags preds) noFlags instrs = Ok named' <->
  (forall i, i ∈ instrs -> iOp i = "phi" -> phiCovers fn p i) /\ named' = noFlags.
Proof.
  intros Hp preds. induction instrs as [|i instrs IH]; cbn [phiBlock].
  { split; [intros [= <-]; split; [|reflexivity]; intros i Hi; inversion Hi | intros [_ ->]; reflexivity]. }
  destruct (String.eqb_spec (iOp i) "phi") as [Hop|Hop].
  - destruct (phiEdges _ _ _ _ _ _ _) as [named|e] eqn:He.
    + apply (phiEdges_spec p block i named Hp) in He as [Hc ->]. rewrite IH.
      setoid_rewrite elem_of_cons. split; [intros [H ->]; split; [intros j [->|Hj]; auto | reflexivity]|].
      intros [H ->]. split; auto.
    + split; [discriminate|]. intros [H _].
      pose proof (proj2 (phiEdges_spec p block i noFlags Hp) (conj (H i (list_elem_of_here _ _) Hop) eq_refl)).
      unfold preds in He. congruence.
  - rewrite IH. setoid_rewrite elem_of_cons.
    split; [intros [H ->]; split; [intros j [->|Hj]; [contradiction | auto] | reflexivity]|].
    intros [H ->]. split; auto.
Qed.

Lemma phiBlocks_spec preds k blocks :
  (forall p, p < CfgFacts.size fn -> preds !! p = Some (predecessorsOf (succs fn) (CfgFacts.size fn) p)) ->
  k + List.length blocks = CfgFacts.size fn ->
  phiBlocks fn (at_ fn) preds noFlags noFlags k blocks = Ok tt <->
  forall j b i, blocks !! j = Some b -> i ∈ bInstrs b -> iOp i = "phi" -> phiCovers fn (k + j) i.
Proof.
  intros Hpreds. revert k. induction blocks as [|b blocks IH]; intros k Hk; cbn [phiBlocks List.length] in *.
  { split; [|reflexivity]. intros _ j c i Hj. discriminate. }
  assert (Hflags : forall v flags, List.length flags = CfgFacts.size fn ->
    setFlags v flags (predecessorsOf (succs fn) (CfgFacts.size fn) k) =
    Ok (flagged v flags (predecessorsOf (succs fn) (CfgFacts.size fn) k))).
  { intros v flags Hf. apply setFlags_ok. intros q Hq. rewrite Hf. eapply predecessors_bound, Hq. }
  rewrite (index_ok preds k _ (Hpreds k ltac:(lia))), Hflags by apply noFlags_length.
  destruct (phiBlock _ _ _ _ _ _ _) as [named|e] eqn:He.
  - apply phiBlock_spec in He as [Hc ->]; [|lia]. rewrite Hflags by (rewrite flagged_length; apply noFlags_length).
    rewrite flagged_undo, IH by lia. split.
    + intros H [|j] c i Hj Hi Hop; [injection Hj as <-; rewrite Nat.add_0_r; auto|].
      rewrite <- Nat.add_succ_comm. eapply H; eauto.
    + intros H j c i Hj. rewrite Nat.add_succ_comm. apply (H (S j)), Hj.
  - split; [discriminate|]. intros H. exfalso.
    assert (Hb : forall i, i ∈ bInstrs b -> iOp i = "phi" -> phiCovers fn k i).
    { intros i. pose proof (H 0 b i eq_refl) as H0. rewrite Nat.add_0_r in H0. exact H0. }
    pose proof (proj2 (phiBlock_spec k b noFlags (bInstrs b) ltac:(lia)) (conj Hb eq_refl)).
    congruence.
Qed.

Lemma phis_match_spec :
  phiIncomingMatchesPredecessors fn (at_ fn) (predLists fn) = Ok tt <->
  forall p b i, fBlocks fn !! p = Some b -> i ∈ bInstrs b -> iOp i = "phi" -> phiCovers fn p i.
Proof.
  unfold phiIncomingMatchesPredecessors. apply (phiBlocks_spec (predLists fn) 0); [|reflexivity].
  intros p Hp. apply blockPredecessors_lookup, Hp.
Qed.
End Phis.

(** ** Dominance of definitions over uses *)

Section Dominance.
Context (fn : Function) (tree : dominatorTree).
Context (Htree : forall d b, exists r, dominates tree d b = Some r /\ (r = true <-> dominated_by (succs fn) d b)).

Lemma incomingDominates_spec block i inc :
  incomingDominates fn (at_ fn) tree (valueDefiningBlocks fn) block i inc = Ok tt <->
  forall d q, valueDefiningBlocks fn !! vName (inValue inc) = Some d -> at_ fn !! inBlock inc = Some q ->
    dominated_by (succs fn) (defBlock d) q.
Proof.
  unfold incomingDominates. destruct (valueDefiningBlocks fn !! vName (inValue inc)) as [d|];
    [|split; [discriminate | reflexivity]].
  destruct (at_ fn !! inBlock inc) as [q|]; [|split; [discriminate | reflexivity]].
  destruct (Htree (defBlock d) q) as (r & -> & Hr). destruct r.
  - split; [|reflexivity]. intros _ d' q' [= <-] [= <-]. apply Hr. reflexivity.
  - split; [destruct (index (fBlocks fn) (defBlock d)); discriminate|]. intros H. specialize (H d q eq_refl eq_refl). apply Hr in H. discriminate.
Qed.

Lemma dominatesUse_spec p step block v :
  dominatesUse fn tree (valueDefiningBlocks fn) p step block v = Ok tt <-> defined_at fn p step v.
Proof.
  unfold dominatesUse, defined_at. destruct (valueDefiningBlocks fn !! vName v) as [d|];
    [|split; [discriminate | reflexivity]].
  destruct (Nat.eqb_spec (defBlock d) p) as [Hb|Hb].
  - destruct (Nat.ltb_spec (defStep d) step) as [Hs|Hs].
    + split; [|reflexivity]. intros _ d' [= <-]. auto.
    + split; [discriminate|]. intros H. destruct (H d eq_refl) as [[_ ?]|[? _]]; [lia | contradiction].
  - destruct (Htree (defBlock d) p) as (r & -> & Hr). destruct r.
    + split; [|reflexivity]. intros _ d' [= <-]. right. split; [exact Hb | apply Hr; reflexivity].
    + split; [destruct (index (fBlocks fn) (defBlock d)); discriminate|]. intros H. destruct (H d eq_refl) as [[? _]|[_ H']]; [contradiction|].
      apply Hr in H'. discriminate.
Qed.

Lemma checkOperands_spec p step block i :
  checkOperands fn tree (valueDefiningBlocks fn) p step block i = Ok tt <->
  forall v, v ∈ readOperands i -> defined_at fn p step v.
Proof.
  unfold checkOperands. rewrite forall_ok_spec, Forall_forall.
  split; intros H v Hv; apply (dominatesUse_spec p step block), H, Hv.
Qed.
End Dominance.

Lemma blocks_cases fn : fBlocks fn = [] \/ 0 < CfgFacts.size fn.
Proof. unfold CfgFacts.size. destruct (fBlocks fn); [left | right; simpl; lia]; reflexivity. Qed.

Lemma phiIncomingDominates_spec fn :
  phiIncomingDominates fn (at_ fn) (predLists fn) = Ok tt <->
  forall p b i, fBlocks fn !! p = Some b -> i ∈ bInstrs b -> iOp i = "phi" -> phiDominated fn i.
Proof.
  unfold phiIncomingDominates. destruct (blocks_cases fn) as [H0|Hne].
  { rewrite H0. split; [discriminate | reflexivity]. }
  destruct (dominates_spec fn Hne) as (tree & -> & Htree).
  assert (Hfor : forall x : checked, match fBlocks fn with [] => Ok tt | _ :: _ => x end = x).
  { intros x. unfold CfgFacts.size in Hne. destruct (fBlocks fn); [simpl in Hne; lia | reflexivity]. }
  rewrite Hfor, forall_ok_spec, Forall_forall. split.
  - intros H p b i Hb Hi Hop inc d q Hinc Hd Hq.
    specialize (H b (list_elem_of_lookup_2 _ _ _ Hb)). rewrite forall_ok_spec, Forall_forall in H.
    specialize (H i Hi). rewrite Hop in H. cbn [String.eqb Ascii.eqb Bool.eqb negb] in H.
    rewrite forall_ok_spec, Forall_forall in H.
    eapply (incomingDominates_spec fn tree Htree); [apply H, Hinc | exact Hd | exact Hq].
  - intros H b Hb. apply forall_ok_spec, Forall_forall. intros i Hi.
    destruct (String.eqb_spec (iOp i) "phi") as [Hop|]; [|reflexivity]. cbn [negb].
    apply forall_ok_spec, Forall_forall. intros inc Hinc.
    apply (incomingDominates_spec fn tree Htree). intros d q Hd Hq.
    apply list_elem_of_lookup in Hb as [p Hb]. eapply H; eauto.
Qed.

Lemma forall_values (Q : Value -> Prop) v w : (forall x, x ∈ [v; w] -> Q x) <-> Forall Q [v; w].
Proof. rewrite Forall_forall. reflexivity. Qed.

Lemma valuesDominateUses_spec fn :
  valuesDominateUses fn (predLists fn) = Ok tt <->
  (forall p b s i v, fBlocks fn !! p = Some b -> bInstrs b !! s = Some i -> iOp i <> "phi" ->
     v ∈ readOperands i -> defined_at fn p s v) /\
  (forall p b v, fBlocks fn !! p = Some b -> v ∈ [tCond (bTerminator b); tValue (bTerminator b)] ->
     defined_at fn p (List.length (bInstrs b)) v).
Proof.
  unfold valuesDominateUses. destruct (blocks_cases fn) as [H0|Hne].
  { rewrite H0. split; [|reflexivity]. intros _. split; discriminate. }
  destruct (dominates_spec fn Hne) as (tree & -> & Htree).
  assert (Hfor : forall x : checked, match fBlocks fn with [] => Ok tt | _ :: _ => x end = x).
  { intros x. unfold CfgFacts.size in Hne. destruct (fBlocks fn); [simpl in Hne; lia | reflexivity]. }
  rewrite Hfor, forall_ok_from_spec. split.
  - intros H. split.
    + intros p b s i v Hb Hi Hop. specialize (H p b Hb). inv_ok. rewrite forall_ok_from_spec in Hok.
      specialize (Hok s i Hi). rewrite (proj2 (String.eqb_neq _ _) Hop) in Hok.
      apply (checkOperands_spec fn tree Htree) with (1 := Hok).
    + intros p b v Hb Hv. specialize (H p b Hb). inv_ok. rewrite forall_ok_spec, Forall_forall in H.
      apply (dominatesUse_spec fn tree Htree) with (1 := H v Hv).
  - intros [Hu Ht] p b Hb. cbn [Nat.add].
    assert (H1 : forall_ok_from (fun step i => if String.eqb (iOp i) "phi" then Ok tt
        else checkOperands fn tree (valueDefiningBlocks fn) p step b i) 0 (bInstrs b) = Ok tt).
    { apply forall_ok_from_spec. intros s i Hi. destruct (String.eqb_spec (iOp i) "phi"); [reflexivity|].
      apply (checkOperands_spec fn tree Htree). intros v. eapply Hu; eauto. }
    rewrite H1. apply forall_ok_spec, Forall_forall. intros v Hv.
    apply (dominatesUse_spec fn tree Htree). eapply Ht; eauto.
Qed.

(** ** The whole verifier *)

Lemma checkBlock_spec module params fn b :
  checkBlock module params fn (at_ fn) b = Ok tt <->
  (forall i, i ∈ bInstrs b -> slotFits module params i) /\ endsWell fn b.
Proof.
  unfold checkBlock. rewrite <- (terminator_spec fn b).
  assert (H : forall_ok (checkInstr module params fn b) (bInstrs b) = Ok tt <->
              forall i, i ∈ bInstrs b -> slotFits module params i).
  { rewrite forall_ok_spec, Forall_forall. split; intros H i Hi; apply (checkInstr_spec module params fn b), H, Hi. }
  rewrite <- H. destruct (forall_ok _ (bInstrs b)) as [[]|e]; [tauto|].
  split; [discriminate | intros [? _]; discriminate].
Qed.

Lemma verifyFunction_spec module params fn :
  verifyFunction module params fn = Ok tt <-> wellFormed module params fn.
Proof.
  unfold verifyFunction. change (blockIndex fn) with (at_ fn).
  change (blockPredecessors fn (at_ fn)) with (predLists fn). split.
  - intros H. inv_ok. rewrite forall_ok_spec, Forall_forall in Hok.
    rewrite phis_match_spec in Hok0. rewrite phiIncomingDominates_spec in Hok1.
    rewrite valuesDominateUses_spec in H. destruct H as [Hu Ht].
    split; [| | | exact Hu | exact Ht].
    + intros b i Hb Hi. apply (proj1 (checkBlock_spec module params fn b) (Hok b Hb)), Hi.
    + intros b Hb. apply (proj1 (checkBlock_spec module params fn b) (Hok b Hb)).
    + intros p b i Hb Hi Hop. split; eauto.
  - intros [Hs He Hp Hu Ht].
    assert (H1 : forall_ok (checkBlock module params fn (at_ fn)) (fBlocks fn) = Ok tt).
    { apply forall_ok_spec, Forall_forall. intros b Hb. apply checkBlock_spec. split; eauto. }
    rewrite H1, (proj2 (phis_match_spec fn)), (proj2 (phiIncomingDominates_spec fn)).
    + apply valuesDominateUses_spec. auto.
    + intros p b i Hb Hi Hop. apply (Hp p b i Hb Hi Hop).
    + intros p b i Hb Hi Hop. apply (Hp p b i Hb Hi Hop).
Qed.

Lemma Verify_spec module :
  Verify module = Ok tt <->
  forall fn, fn ∈ mFunctions module -> wellFormed module (declaredParams (mFunctions module)) fn.
Proof.
  unfold Verify. rewrite forall_ok_spec, Forall_forall.
  split; intros H fn Hfn; apply verifyFunction_spec, H, Hfn.
Qed.

(** ** The definition map *)

Lemma defineSteps_valid p instrs step defined x d :
  defineSteps p step instrs defined !! x = Some d ->
  defined !! x = Some d \/
  (defBlock d = p /\ step <= defStep d /\
   exists i, instrs !! (defStep d - step) = Some i /\ vName (iResult i) = x).
Proof.
  revert step defined. induction instrs as [|i instrs IH]; intros step defined; cbn [defineSteps]; [auto|].
  intros [H|(H1 & H2 & j & H3 & H4)]%IH.
  - destruct (String.eqb (vName (iResult i)) ""); [auto|].
    apply lookup_insert_Some in H as [[<- <-]|[_ H]]; [|auto].
    right. cbn [defBlock defStep]. rewrite Nat.sub_diag. split; [auto|]. split; [lia|]. exists i. auto.
  - right. split; [exact H1|]. split; [lia|]. exists j. split; [|exact H4].
    replace (defStep d - step) with (S (defStep d - S step)) by lia. exact H3.
Qed.

Lemma defineBlocks_valid p blocks defined x d :
  defineBlocks p blocks defined !! x = Some d ->
  defined !! x = Some d \/
  exists b i, p <= defBlock d /\ blocks !! (defBlock d - p) = Some b /\
    bInstrs b !! defStep d = Some i /\ vName (iResult i) = x.
Proof.
  revert p defined. induction blocks as [|b blocks IH]; intros p defined; cbn [defineBlocks]; [auto|].
  intros [H|(c & i & H1 & H2 & H3 & H4)]%IH.
  - apply defineSteps_valid in H as [H|(H1 & _ & i & H2 & H3)]; [auto|]. right.
    exists b, i. rewrite H1, Nat.sub_diag. rewrite Nat.sub_0_r in H2. auto.
  - right. exists c, i. split; [lia|]. split; [|auto].
    replace (defBlock d - p) with (S (defBlock d - S p)) by lia. exact H2.
Qed.

(** ** No panic

    Every index the verifier uses is in range and every loop ends, whatever the
    module: the flag sets have a flag a block, and positions come from the
    block index or the definition map. *)

Definition calm {A} (r : result VerifyError A) : Prop := r <> Err GoPanic.

Lemma calm_bind {A B} (r : result VerifyError A) (k : A -> result VerifyError B) :
  calm r -> (forall x, r = Ok x -> calm (k x)) -> calm (let* x := r in k x).
Proof. destruct r as [x|e]; intros Hr Hk; [apply Hk; reflexivity|]. intros [= ->]. apply Hr. reflexivity. Qed.

Lemma calm_forall {A} (f : A -> checked) l : (forall x, x ∈ l -> calm (f x)) -> calm (forall_ok f l).
Proof.
  induction l as [|x l IH]; intros H; [discriminate|]. cbn [forall_ok]. apply calm_bind; [apply H; left|].
  intros _ _. apply IH. intros y Hy. apply H. right. exact Hy.
Qed.

Lemma calm_forall_from {A} (f : nat -> A -> checked) l i :
  (forall k x, l !! k = Some x -> calm (f (i + k) x)) -> calm (forall_ok_from f i l).
Proof.
  revert i. induction l as [|x l IH]; intros i H; [discriminate|]. cbn [forall_ok_from]. apply calm_bind.
  - pose proof (H 0 x eq_refl) as H0. rewrite Nat.add_0_r in H0. exact H0.
  - intros _ _. apply IH. intros k y Hk. rewrite Nat.add_succ_comm. apply H, Hk.
Qed.

Lemma calm_index {A B} (l : list A) k (e : A -> result VerifyError B) :
  k < List.length l -> (forall x, calm (e x)) -> calm (let* x := index l k in e x).
Proof. intros [x Hx]%lookup_lt_is_Some_2 H. rewrite (index_ok _ _ _ Hx). apply H. Qed.

Lemma checkArguments_calm fn b label k declared args : calm (checkArguments fn b label k declared args).
Proof.
  revert k args. induction declared as [|p declared IH]; intros k [|a args]; cbn [checkArguments]; try discriminate.
  destruct (argumentFits _ _); [apply IH | discriminate].
Qed.

Lemma checkInstr_calm module params fn b i : calm (checkInstr module params fn b i).
Proof.
  unfold checkInstr. destruct (String.eqb (iOp i) "struct.new").
  { apply calm_forall. intros field _. apply calm_forall. intros declared _.
    destruct (negb _); [discriminate|]. destruct (negb _); discriminate. }
  destruct (String.eqb (iOp i) "union.new").
  { unfold unionPayload. destruct (_ ≫= _); [|discriminate]. destruct (iArgs i) as [|? [|]]; try discriminate.
    destruct (_ || _); discriminate. }
  destruct (String.eqb (iOp i) "error.ok").
  { unfold successWrap. destruct (errorUnionParts _) as [[]|]; [|discriminate]. destruct (iArgs i) as [|? [|]]; try discriminate.
    destruct (String.eqb _ _); discriminate. }
  destruct (String.eqb (iOp i) "call.indirect").
  { unfold indirectCall. destruct (iArgs i); [discriminate|]. destruct (funcPointerNode _); [|discriminate].
    destruct (_ || _); [discriminate | apply checkArguments_calm]. }
  destruct (directCallee (iOp i)); [|discriminate]. unfold call. destruct (params !! s); [|discriminate].
  destruct (negb _); [discriminate | apply checkArguments_calm].
Qed.

Lemma checkBlock_calm module params fn b : calm (checkBlock module params fn (at_ fn) b).
Proof.
  unfold checkBlock. apply calm_bind; [apply calm_forall; intros i _; apply checkInstr_calm|]. intros _ _.
  unfold terminator. destruct (String.eqb _ ""); [discriminate|]. apply calm_bind.
  - apply calm_forall. intros target _. destruct (_ !! target); discriminate.
  - intros _ _. destruct (_ || _); [discriminate|]. destruct (_ && _); discriminate.
Qed.

Section PhisCalm.
Context (fn : Function).

Lemma markIncoming_calm block i preds named incs :
  List.length named = CfgFacts.size fn -> calm (markIncoming fn (at_ fn) block i (flagged true (noFlags fn) preds) named incs).
Proof.
  revert named. induction incs as [|inc incs IH]; intros named Hlen; [discriminate|]. cbn [markIncoming].
  destruct (at_ fn !! inBlock inc) as [q|] eqn:Hq; [|discriminate]. pose proof (at_bound _ _ _ Hq) as Hb.
  rewrite flag_set by exact Hb. destruct (bool_decide _); [|discriminate]. rewrite setIndex_ok by (rewrite Hlen; exact Hb).
  apply IH. rewrite length_insert. exact Hlen.
Qed.

Lemma phiEdges_calm p block i :
  let preds := predecessorsOf (succs fn) (CfgFacts.size fn) p in
  calm (phiEdges fn (at_ fn) block i preds (flagged true (noFlags fn) preds) (noFlags fn)).
Proof.
  intros preds. unfold phiEdges. apply calm_bind; [apply markIncoming_calm, noFlags_length|].
  intros named [Hfrom ->]%markIncoming_spec; [|apply noFlags_length]. apply calm_bind.
  - apply calm_forall. intros q Hq%predecessors_bound. rewrite flag_set by exact Hq. destruct (bool_decide _); [discriminate|].
    apply calm_index; [exact Hq | discriminate].
  - intros _ _. destruct (negb _); [discriminate|].
    rewrite (clearNamed_spec fn preds) by (exact Hfrom || rewrite flagged_length; apply noFlags_length). discriminate.
Qed.

Lemma phiBlock_calm p block instrs :
  p < CfgFacts.size fn ->
  let preds := predecessorsOf (succs fn) (CfgFacts.size fn) p in
  calm (phiBlock fn (at_ fn) block preds (flagged true (noFlags fn) preds) (noFlags fn) instrs).
Proof.
  intros Hp preds. induction instrs as [|i instrs IH]; [discriminate|]. cbn [phiBlock].
  destruct (String.eqb (iOp i) "phi"); [|exact IH]. apply calm_bind; [apply phiEdges_calm|].
  intros named [_ ->]%phiEdges_spec; [exact IH | exact Hp].
Qed.

Lemma phiBlocks_calm preds k blocks :
  (forall p, p < CfgFacts.size fn -> preds !! p = Some (predecessorsOf (succs fn) (CfgFacts.size fn) p)) ->
  k + List.length blocks = CfgFacts.size fn ->
  calm (phiBlocks fn (at_ fn) preds (noFlags fn) (noFlags fn) k blocks).
Proof.
  intros Hpreds. revert k. induction blocks as [|b blocks IH]; intros k Hk; [discriminate|]. cbn [phiBlocks List.length] in *.
  assert (Hflags : forall v flags, List.length flags = CfgFacts.size fn ->
    setFlags v flags (predecessorsOf (succs fn) (CfgFacts.size fn) k) =
    Ok (flagged v flags (predecessorsOf (succs fn) (CfgFacts.size fn) k))).
  { intros v flags Hf. apply setFlags_ok. intros q Hq. rewrite Hf. eapply predecessors_bound, Hq. }
  rewrite (index_ok preds k _ (Hpreds k ltac:(lia))), Hflags by apply noFlags_length.
  apply calm_bind; [apply phiBlock_calm; lia|]. intros named [_ ->]%phiBlock_spec; [|lia].
  rewrite Hflags by (rewrite flagged_length; apply noFlags_length). rewrite flagged_undo. apply IH. lia.
Qed.
End PhisCalm.

Section DominanceCalm.
Context (fn : Function) (tree : dominatorTree).
Context (Htree : forall d b, exists r, dominates tree d b = Some r /\ (r = true <-> dominated_by (succs fn) d b)).

(** The block of a recorded definition is one of the function's. *)
Lemma definition_block x d : valueDefiningBlocks fn !! x = Some d -> defBlock d < List.length (fBlocks fn).
Proof.
  unfold valueDefiningBlocks. intros [H|(b & _ & _ & Hb & _)]%defineBlocks_valid; [rewrite lookup_empty in H; discriminate|].
  rewrite Nat.sub_0_r in Hb. eapply lookup_lt_Some, Hb.
Qed.

Lemma incomingDominates_calm block i inc :
  calm (incomingDominates fn (at_ fn) tree (valueDefiningBlocks fn) block i inc).
Proof.
  unfold incomingDominates. destruct (valueDefiningBlocks fn !! _) as [d|] eqn:Hd; [|discriminate].
  destruct (at_ fn !! inBlock inc) as [q|]; [|discriminate]. destruct (Htree (defBlock d) q) as ([] & -> & _); [discriminate|].
  apply calm_index; [eapply definition_block, Hd | discriminate].
Qed.

Lemma dominatesUse_calm p step block v : calm (dominatesUse fn tree (valueDefiningBlocks fn) p step block v).
Proof.
  unfold dominatesUse. destruct (valueDefiningBlocks fn !! _) as [d|] eqn:Hd; [|discriminate].
  destruct (defBlock d =? p)%nat; [destruct (defStep d <? step)%nat; discriminate|].
  destruct (Htree (defBlock d) p) as ([] & -> & _); [discriminate|].
  apply calm_index; [eapply definition_block, Hd | discriminate].
Qed.
End DominanceCalm.

Lemma phiIncomingDominates_calm fn : calm (phiIncomingDominates fn (at_ fn) (predLists fn)).
Proof.
  unfold phiIncomingDominates. destruct (fBlocks fn) as [|b0 bs] eqn:E; [discriminate|].
  destruct (dominates_spec fn) as (tree & -> & Htree); [unfold CfgFacts.size; rewrite E; cbn; lia|].
  apply calm_forall. intros b _. apply calm_forall. intros i _. destruct (negb _); [discriminate|].
  apply calm_forall. intros inc _. apply incomingDominates_calm, Htree.
Qed.

Lemma valuesDominateUses_calm fn : calm (valuesDominateUses fn (predLists fn)).
Proof.
  unfold valuesDominateUses. destruct (fBlocks fn) as [|b0 bs] eqn:E; [discriminate|].
  destruct (dominates_spec fn) as (tree & -> & Htree); [unfold CfgFacts.size; rewrite E; cbn; lia|].
  apply calm_forall_from. intros p b _. apply calm_bind.
  - apply calm_forall_from. intros s i _. destruct (String.eqb _ "phi"); [discriminate|].
    apply calm_forall. intros v _. apply dominatesUse_calm, Htree.
  - intros _ _. apply calm_forall. intros v _. apply dominatesUse_calm, Htree.
Qed.

Lemma Verify_calm module : calm (Verify module).
Proof.
  apply calm_forall. intros fn _. unfold verifyFunction. change (blockIndex fn) with (at_ fn).
  change (blockPredecessors fn (at_ fn)) with (predLists fn).
  apply calm_bind; [apply calm_forall; intros b _; apply checkBlock_calm|]. intros _ _.
  apply calm_bind; [|intros _ _; apply calm_bind; [apply phiIncomingDominates_calm | intros _ _; apply valuesDominateUses_calm]].
  apply (phiBlocks_calm fn (predLists fn) 0); [|reflexivity]. intros p Hp. apply blockPredecessors_lookup, Hp.
Qed.

(** * What the verifier and its dominator tree promise ([internal/ir/verify.go])

    The dominator tree is exact and is always built; [Verify] accepts exactly
    the well-formed modules; in an accepted function no execution reads a
    value that has not been computed. *)

#[local] Open Scope list_scope.

(** ** The control-flow graph *)

(** C3. For every function with a block, the Cooper-Harvey-Kennedy iteration
    ends without a panic, and [dominates d b] answers, for every pair of
    positions, whether every path from the entry to [b] passes through [d]. *)
Theorem dominator_tree_exact fn :
  0 < List.length (fBlocks fn) ->
  exists tree, buildDominatorTree fn (blockPredecessors fn (blockIndex fn)) = Some tree /\
    forall d b, exists r, dominates tree d b = Some r /\
      (r = true <-> forall l, path (succPositions fn (blockIndex fn)) 0 l b -> d ∈ l).
Proof. exact (dominates_spec fn). Qed.

(** A diamond with a loop back to its head and an unreachable block. *)
Definition sample_cfg : Function :=
  let c := mkValue "c" "bool" in
  mkFunction "f" [] "i32"
    [mkBlock "entry" [] (jump "head");
     mkBlock "head" [] (branch c "then" "else");
     mkBlock "then" [] (jump "merge");
     mkBlock "else" [] (jump "merge");
     mkBlock "merge" [] (branch c "head" "exit");
     mkBlock "exit" [] (ret (mkValue "" ""));
     mkBlock "dead" [] (jump "exit")] "" "".

Lemma dominator_tree_exact_witness :
  (match buildDominatorTree sample_cfg (blockPredecessors sample_cfg (blockIndex sample_cfg)) with
   | Some t => (dominates t 1 5, dominates t 2 4, dominates t 4 6)
   | None => (None, None, None)
   end = (Some true, Some false, Some true)) /\
  exists tree, buildDominatorTree sample_cfg (blockPredecessors sample_cfg (blockIndex sample_cfg)) = Some tree /\
    forall d b, exists r, dominates tree d b = Some r /\
      (r = true <-> forall l, path (succPositions sample_cfg (blockIndex sample_cfg)) 0 l b -> d ∈ l).
Proof. split; [vm_compute; reflexivity|]. apply dominator_tree_exact. simpl. lia. Defined.

(** C37. [reversePostorder] lists exactly the blocks the entry can reach, each
    once, the entry first, and every other block has a predecessor listed
    before it. *)
Theorem reverse_postorder_exact fn :
  0 < List.length (fBlocks fn) ->
  NoDup (reversePostorder fn) /\ reversePostorder fn !! 0 = Some 0 /\
  (forall q, q ∈ reversePostorder fn <-> reach (succPositions fn (blockIndex fn)) 0 q) /\
  (forall i q, 0 < i -> reversePostorder fn !! i = Some q ->
     exists j s, j < i /\ reversePostorder fn !! j = Some s /\ q ∈ succPositions fn (blockIndex fn) s).
Proof. intros H. destruct (order_spec fn H) as (H1 & H2 & H3 & H4). auto. Qed.

Lemma reverse_postorder_exact_witness :
  reversePostorder sample_cfg = [0; 1; 3; 2; 4; 5] /\ NoDup (reversePostorder sample_cfg).
Proof.
  split; [vm_compute; reflexivity|]. apply (reverse_postorder_exact sample_cfg). simpl. lia.
Defined.

Lemma filter_replicate (p k n : nat) :
  List.length (filter (eq p) (replicate n k)) = if decide (p = k) then n else 0.
Proof.
  induction n as [|n IH]; cbn [replicate]; [case_decide; reflexivity|].
  rewrite filter_cons. destruct (decide (p = k)); simpl; rewrite IH; reflexivity.
Qed.

Lemma count_edges (mult : nat -> nat) p k n :
  List.length (filter (eq p) (seq k n ≫= fun position => replicate (mult position) position)) =
  if decide (k <= p < k + n) then mult p else 0.
Proof.
  revert k. induction n as [|n IH]; intros k; [simpl; case_decide; lia|].
  cbn [seq]. rewrite bind_cons, filter_app, length_app, filter_replicate, IH.
  destruct (decide (p = k)) as [->|Hne]; repeat case_decide; lia.
Qed.

(** [blockPredecessors] is the transpose of the successor relation: block
    [p] appears among the predecessors of [q] as often as the terminator of [p]
    names [q]. *)
Theorem block_predecessors_transpose fn q :
  q < List.length (fBlocks fn) ->
  exists preds, blockPredecessors fn (blockIndex fn) !! q = Some preds /\
    forall p, List.length (filter (eq p) preds) =
      List.length (filter (eq q) (succPositions fn (blockIndex fn) p)).
Proof.
  intros Hq. eexists. split; [apply blockPredecessors_lookup, Hq|]. intros p.
  unfold predecessorsOf. rewrite (count_edges (fun p => List.length (filter (eq q) (succPositions fn (blockIndex fn) p)))).
  case_decide; [reflexivity|].
  unfold succPositions. rewrite lookup_ge_None_2 by lia. reflexivity.
Qed.

Lemma block_predecessors_transpose_witness :
  blockPredecessors sample_cfg (blockIndex sample_cfg) !! 4 = Some [2; 3] /\
  exists preds, blockPredecessors sample_cfg (blockIndex sample_cfg) !! 4 = Some preds /\
    forall p, List.length (filter (eq p) preds) =
      List.length (filter (eq 4) (succPositions sample_cfg (blockIndex sample_cfg) p)).
Proof. split; [vm_compute; reflexivity|]. apply block_predecessors_transpose. simpl. lia. Defined.

(** ** Verification *)

(** C2. [Verify] accepts a module exactly when each of its functions is
    well-formed, and answers every module without a Go panic: no index of its
    flag sets, positions and blocks is out of range, and the iteration of the
    dominator tree ends.  Each of those would be [GoPanic]. *)
Theorem verify_exact module :
  (Verify module = Ok tt <->
   forall fn, fn ∈ mFunctions module -> wellFormed module (declaredParams (mFunctions module)) fn) /\
  Verify module <> Err GoPanic.
Proof. split; [apply Verify_spec | apply Verify_calm]. Qed.

(** *** Execution of one function, as far as reads are concerned *)

Definition stepsOf (fn : Function) (p : nat) : nat :=
  match fBlocks fn !! p with Some b => List.length (bInstrs b) | None => 0 end.

(** [exec fn h from p s]: control entered block [p] over the edge from [from]
    ([None] at the entry), the instructions computed so far are [h], and the
    one at step [s] of [p] is next. *)
Inductive exec (fn : Function) : list (nat * nat) -> option nat -> nat -> nat -> Prop :=
  | exec_start : exec fn [] None 0 0
  | exec_instr h from p s : exec fn h from p s -> s < stepsOf fn p ->
      exec fn (h ++ [(p, s)]) from p (S s)
  | exec_jump h from p q : exec fn h from p (stepsOf fn p) ->
      q ∈ succPositions fn (blockIndex fn) p -> exec fn h (Some p) q 0.

(** Every step of block [b] has been computed. *)
Definition done (fn : Function) (h : list (nat * nat)) (b : nat) : Prop :=
  forall t, t < stepsOf fn b -> (b, t) ∈ h.

(** Control came along a path whose blocks are done. *)
Definition arrived (fn : Function) (h : list (nat * nat)) (from : option nat) (p : nat) : Prop :=
  match from with
  | None => p = 0
  | Some q => exists l, path (succs fn) 0 l q /\ p ∈ succs fn q /\ forall b, b ∈ l -> done fn h b
  end.

Lemma exec_inv fn h from p s :
  exec fn h from p s -> arrived fn h from p /\ s <= stepsOf fn p /\ forall t, t < s -> (p, t) ∈ h.
Proof.
  assert (Hmono : forall h x b, done fn h b -> done fn (h ++ [x]) b).
  { intros h0 x b H t Ht. apply elem_of_app. left. auto. }
  induction 1 as [|h from p s H (Ha & Hs & Hd) Hlt|h from p q H (Ha & Hs & Hd) Hq].
  - split; [reflexivity|]. split; [lia|]. intros t Ht. lia.
  - split; [|split; [lia|]].
    + destruct from as [q|]; [|exact Ha]. destruct Ha as (l & Hl & Hp & Hb). exists l.
      split; [exact Hl|]. split; [exact Hp|]. eauto.
    + intros t Ht. apply elem_of_app. destruct (decide (t = s)) as [->|].
      * right. left.
      * left. apply Hd. lia.
  - split; [|split; [lia | intros t Ht; lia]]. cbn [arrived].
    destruct from as [r|].
    + destruct Ha as (l & Hl & Hp & Hb). exists (l ++ [p]). split; [econstructor; eauto|].
      split; [exact Hq|]. intros b [Hin|Hin%list_elem_of_singleton]%elem_of_app; [auto | subst; exact Hd].
    + cbn [arrived] in Ha. subst p. exists [0]. split; [constructor|]. split; [exact Hq|].
      intros b Hin%list_elem_of_singleton. subst. exact Hd.
Qed.

(** A recorded definition is a point of the function that computes the name. *)
Lemma valueDefiningBlocks_valid fn x d :
  valueDefiningBlocks fn !! x = Some d ->
  defStep d < stepsOf fn (defBlock d).
Proof.
  unfold valueDefiningBlocks, stepsOf. intros [H|(b & i & _ & Hb & Hi & _)]%defineBlocks_valid.
  - rewrite lookup_empty in H. discriminate.
  - rewrite Nat.sub_0_r in Hb. rewrite Hb. eapply lookup_lt_Some, Hi.
Qed.

(** A value is computed when it is defined by an instruction at all. *)
Definition computed (fn : Function) (h : list (nat * nat)) (v : Value) : Prop :=
  forall d, valueDefiningBlocks fn !! vName v = Some d -> (defBlock d, defStep d) ∈ h.

Lemma defined_at_computed fn h from p s v :
  exec fn h from p s -> defined_at fn p s v -> computed fn h v.
Proof.
  intros (Ha & _ & Hd)%exec_inv Hv d Hdef. destruct (Hv d Hdef) as [[<- Hs]|[Hne Hdom]]; [auto|].
  apply valueDefiningBlocks_valid in Hdef. destruct from as [q|]; cbn [arrived] in Ha.
  - destruct Ha as (l & Hl & Hp & Hb).
    specialize (Hdom (l ++ [p]) (path_step _ _ _ _ _ Hl Hp)).
    apply elem_of_app in Hdom as [Hin|Hin%list_elem_of_singleton]; [apply Hb; assumption | contradiction].
  - subst p. specialize (Hdom [0] (path_one _ _)). apply list_elem_of_singleton in Hdom. contradiction.
Qed.

(** A phi has a value for the edge control came on, and it was computed. *)
Lemma phi_edge_computed module params fn h q p s b i :
  wellFormed module params fn -> exec fn h (Some q) p s -> fBlocks fn !! p = Some b ->
  bInstrs b !! s = Some i -> iOp i = "phi" ->
  (exists inc, inc ∈ iIncoming i /\ blockIndex fn !! inBlock inc = Some q) /\
  forall inc, inc ∈ iIncoming i -> blockIndex fn !! inBlock inc = Some q -> computed fn h (inValue inc).
Proof.
  intros Hwf ((l & Hl & Hp & Hdone) & _ & _)%exec_inv Hb Hi Hop.
  destruct (wf_phis _ _ _ Hwf p b i Hb (list_elem_of_lookup_2 _ _ _ Hi) Hop) as [(_ & Hcov & _) Hdom].
  split; [apply Hcov, Hp|]. intros inc Hinc Hat d Hd.
  apply Hdone; [eapply (Hdom inc d q); eauto | eapply valueDefiningBlocks_valid, Hd].
Qed.

(** C1. In a verified module no execution of a function reads a value before
    it is computed.  At every point control can reach, each operand an ordinary
    instruction or the terminator reads has been computed by its defining
    instruction; a phi has an incoming value for the edge control arrived on,
    and every value it names for that edge has been computed. *)
Theorem verify_no_undefined_read module fn h from p s b :
  Verify module = Ok tt -> fn ∈ mFunctions module -> exec fn h from p s -> fBlocks fn !! p = Some b ->
  (forall i v, bInstrs b !! s = Some i -> iOp i <> "phi" -> v ∈ readOperands i -> computed fn h v) /\
  (s = stepsOf fn p -> computed fn h (tCond (bTerminator b)) /\ computed fn h (tValue (bTerminator b))) /\
  (forall i q, bInstrs b !! s = Some i -> iOp i = "phi" -> from = Some q ->
     (exists inc, inc ∈ iIncoming i /\ blockIndex fn !! inBlock inc = Some q) /\
     forall inc, inc ∈ iIncoming i -> blockIndex fn !! inBlock inc = Some q -> computed fn h (inValue inc)).
Proof.
  intros Hv Hfn He Hb. apply Verify_spec with (fn := fn) in Hv; [|exact Hfn].
  split; [|split].
  - intros i v Hi Hop Hin. eapply defined_at_computed; [exact He|]. eapply (wf_uses _ _ _ Hv); eauto.
  - intros ->. unfold stepsOf in He. rewrite Hb in He.
    split; (eapply defined_at_computed; [exact He | eapply (wf_ends_uses _ _ _ Hv); [exact Hb|]]); [left | right; left].
  - intros i q Hi Hop ->. eapply phi_edge_computed; eauto.
Qed.

(** A verified loop: [i] counts down from the parameter [n]. *)
Definition sample_loop : Function :=
  let n := mkValue "n" "i32" in let i := mkValue "i" "i32" in
  let j := mkValue "j" "i32" in let c := mkValue "c" "bool" in let one := mkValue "one" "i32" in
  mkFunction "count" [mkParam "n" "i32" PassValue] "i32"
    [mkBlock "entry" [instr one "const" [] "1"] (jump "head");
     mkBlock "head"
       [phi i [mkIncoming "entry" n; mkIncoming "body" j]; instr c "cmp.gt" [i; one] ""]
       (branch c "body" "exit");
     mkBlock "body" [instr j "binary.-" [i; one] ""] (jump "head");
     mkBlock "exit" [] (ret i)] "" "".

Definition sample_module : Module_ := mkModule ∅ ∅ ∅ ∅ [sample_loop] ∅.

Lemma verify_no_undefined_read_witness :
  Verify sample_module = Ok tt /\
  computed sample_loop [(0, 0); (1, 0); (1, 1)] (mkValue "i" "i32").
Proof.
  assert (Hv : Verify sample_module = Ok tt) by (vm_compute; reflexivity).
  assert (He : exec sample_loop [(0, 0); (1, 0); (1, 1)] (Some 1) 2 0).
  { apply (exec_jump _ _ (Some 0) 1 2); [|vm_compute; left].
    apply (exec_instr _ [(0, 0); (1, 0)] (Some 0) 1 1); [|vm_compute; lia].
    apply (exec_instr _ [(0, 0)] (Some 0) 1 0); [|vm_compute; lia].
    apply (exec_jump _ _ None 0 1); [|vm_compute; left].
    apply (exec_instr _ [] None 0 0); [constructor | vm_compute; lia]. }
  split; [exact Hv|].
  eapply (verify_no_undefined_read sample_module sample_loop _ _ 2 0 _ Hv);
    [left | exact He | reflexivity | reflexivity | discriminate | left].
Defined.

(** In a verified module every block ends with an operation, and every
    target it names is a block of the same function. *)
Theorem verify_targets_exist module fn b :
  Verify module = Ok tt -> fn ∈ mFunctions module -> b ∈ fBlocks fn ->
  tOp (bTerminator b) <> "" /\
  forall target, target ∈ Successors (bTerminator b) -> exists c, c ∈ fBlocks fn /\ bName c = target.
Proof.
  intros Hv Hfn Hb. apply Verify_spec with (fn := fn) in Hv; [|exact Hfn].
  destruct (wf_ends _ _ _ Hv b Hb) as (H1 & H2 & _). split; [exact H1|].
  intros target Ht. destruct (H2 target Ht) as [q Hq].
  apply blockIndex_Some in Hq as (c & Hc & Hn). exists c. split; [|exact Hn].
  eapply list_elem_of_lookup_2, Hc.
Qed.

Lemma verify_targets_exist_witness :
  Verify sample_module = Ok tt /\ exists c, c ∈ fBlocks sample_loop /\ bName c = "exit".
Proof.
  assert (Hv : Verify sample_module = Ok tt) by (vm_compute; reflexivity). split; [exact Hv|].
  apply (verify_targets_exist sample_module sample_loop
           (default (mkBlock "" [] (jump "")) (fBlocks sample_loop !! 1)) Hv); [left | right; left | right; left].
Defined.


Definition sample_call : Module_ :=
  mkModule ∅ ∅ ∅ ∅
    [mkFunction "callee" [mkParam "x" "&[]u8" PassValue] "void"
       [mkBlock "entry" [] (ret noValue)] "" "";
     mkFunction "caller" [mkParam "y" "&var []u8" PassValue] "void"
       [mkBlock "entry" [instr noValue "call.callee" [mkValue "y" "&var []u8"] ""] (ret noValue)] "" ""] ∅.


(** The edge count of [phiEdges] is a count of the whole phi and not of
    each predecessor: for a block reached twice from one block and once from
    another, it accepts a phi that has one value for the doubled edge and two
    for the single one. *)
Theorem phi_count_not_per_edge :
  exists fn b i preds,
    preds = [1; 1; 2] /\ map inBlock (iIncoming i) = ["one"; "two"; "two"] /\
    blockPredecessors fn (blockIndex fn) !! 3 = Some preds /\ fBlocks fn !! 3 = Some b /\ bInstrs b = [i] /\
    phiIncomingMatchesPredecessors fn (blockIndex fn) (blockPredecessors fn (blockIndex fn)) = Ok tt.
Proof.
  set (c := mkValue "c" "bool"). set (n := mkValue "n" "i32").
  exists (mkFunction "f" [] "i32"
    [mkBlock "entry" [] (branch c "one" "two");
     mkBlock "one" [] (branch c "merge" "merge");
     mkBlock "two" [] (jump "merge");
     mkBlock "merge" [phi (mkValue "x" "i32") [mkIncoming "one" n; mkIncoming "two" n; mkIncoming "two" n]]
       (ret (mkValue "x" "i32"))] "" "").
  do 3 eexists. repeat split; vm_compute; reflexivity.
Qed.
