(* ===== verification/Semantics.v ===== *)
(** * Running IR

    What a function computes, for any machine: the passes of [internal/ir] are
    correct when they keep this.  A machine interprets one operation on the
    values of its operands; the control flow, the parallel phis at a block's
    entry and the order of instructions are what every backend gives them.
    Nothing here models a file: it is the specification the passes are proved
    against. *)

From stdpp Require Import base list strings gmap.
From Stdlib Require Import ZArith Lia String.
From S2P Require Import Prelude GoStd IR Cfg CfgFacts Verify.

#[local] Open Scope string_scope.
#[local] Open Scope list_scope.

(** ** Machines *)

(** What one operation does: a value and a new memory, the end of the run (a
    panic, an error returned early), or nothing the machine defines. *)
Inductive step (V M X : Type) : Type :=
  | Next (v : V) (m : M)
  | Halt (s : X)
  | Undefined.
Arguments Next {V M X} v m.
Arguments Halt {V M X} s.
Arguments Undefined {V M X}.

(** An operation sees an instruction without the names of its values. *)
Definition unnamed (v : Value) : Value := mkValue "" (vType v).

Definition shape (i : Instr) : Instr :=
  mkInstr (unnamed (iResult i)) (iOp i) (map unnamed (iArgs i)) (iExternABI i) (iExternName i)
    (iCallParams i) (iVariadicFixed i) (iImmediate i)
    (map (fun f => mkFieldArg (faName f) (unnamed (faValue f))) (iFields i)) []
    (map (fun c => mkCleanup (clOp c) (map unnamed (clArgs c)) (clLoads c) (clExternABI c)
                     (clExternName c) (clCallParams c) (clVariadicFixed c) (clOnError c) None) (iCleanups i))
    None.

Class Machine (V M X : Type) : Type := {
  literal : Value -> option V;          (** an operand no instruction computes *)
  operation : Instr -> list V -> M -> step V M X;
  truth : V -> option bool              (** what a branch reads from its condition *)
}.

(** How a run ends; [Stuck] is a run the program never has, [Exhausted] one
    that needs more blocks than were granted. *)
Inductive outcome (V M X : Type) : Type :=
  | Returned (v : option V) (m : M)
  | Stopped (s : X)
  | Unreachable
  | Stuck
  | Exhausted.
Arguments Returned {V M X} v m.
Arguments Stopped {V M X} s.
Arguments Unreachable {V M X}.
Arguments Stuck {V M X}.
Arguments Exhausted {V M X}.

Section Run.
Context {V M X : Type} {machine : Machine V M X}.

Abbreviation env := (gmap string V).

(** The value of an operand: a computed value, or a literal. *)
Definition operand (ρ : env) (v : Value) : option V :=
  match ρ !! vName v with
  | Some x => Some x
  | None => literal v
  end.

(** The value a phi takes on the edge from [from]. *)
Definition phiValue (from : string) (entry : env) (i : Instr) : option V :=
  match List.find (fun inc => String.eqb (inBlock inc) from) (iIncoming i) with
  | Some inc => operand entry (inValue inc)
  | None => None
  end.

(** One instruction: a phi reads the values at the block's entry. *)
Definition runInstr (from : string) (entry ρ : env) (m : M) (i : Instr) : step V M X :=
  if String.eqb (iOp i) "phi" then
    match phiValue from entry i with
    | Some v => Next v m
    | None => Undefined
    end
  else match mapM (operand ρ) (readOperands i) with
  | Some vs => operation (shape i) vs m
  | None => Undefined
  end.

Definition assign (ρ : env) (i : Instr) (v : V) : env :=
  if String.eqb (vName (iResult i)) "" then ρ else <[vName (iResult i) := v]> ρ.

Fixpoint runInstrs (from : string) (entry ρ : env) (m : M) (instrs : list Instr)
  : env * M + outcome V M X :=
  match instrs with
  | [] => inl (ρ, m)
  | i :: rest =>
      match runInstr from entry ρ m i with
      | Next v m => runInstrs from entry (assign ρ i v) m rest
      | Halt s => inr (Stopped s)
      | Undefined => inr Stuck
      end
  end.

(** Where control goes after a block: another block, or the end. *)
Definition runTerminator (ρ : env) (m : M) (t : Terminator) : string + outcome V M X :=
  if String.eqb (tOp t) "jump" then inl (tTarget t)
  else if String.eqb (tOp t) "branch" then
    match operand ρ (tCond t) ≫= truth with
    | Some true => inl (tTarget t)
    | Some false => inl (tElse t)
    | None => inr Stuck
    end
  else if String.eqb (tOp t) "return" then
    if String.eqb (vType (tValue t)) "void" || String.eqb (vType (tValue t)) "" then inr (Returned None m)
    else match operand ρ (tValue t) with
    | Some v => inr (Returned (Some v) m)
    | None => inr Stuck
    end
  else if String.eqb (tOp t) "unreachable" then inr Unreachable
  else inr Stuck.

Fixpoint runBlocks (fuel : nat) (fn : Function) (from : string) (cur : nat) (ρ : env) (m : M)
  : outcome V M X :=
  match fuel with
  | O => Exhausted
  | S fuel =>
      match fBlocks fn !! cur with
      | None => Stuck
      | Some b =>
          match runInstrs from ρ ρ m (bInstrs b) with
          | inr o => o
          | inl (ρ, m) =>
              match runTerminator ρ m (bTerminator b) with
              | inr o => o
              | inl target =>
                  match blockIndex fn !! target with
                  | Some next => runBlocks fuel fn (bName b) next ρ m
                  | None => Stuck
                  end
              end
          end
      end
  end.

(** The parameters' values, then the entry block. *)
Definition bindParams (params : list Param) (args : list V) : env :=
  list_to_map (zip (map pName params) args).

Definition runFunction (fuel : nat) (fn : Function) (args : list V) (m : M) : outcome V M X :=
  runBlocks fuel fn "" 0 (bindParams (fParams fn) args) m.
End Run.

(** A pass keeps a function when every run that the program can have ends the
    same way, after the same number of blocks. *)
Definition keeps {V M X} {machine : Machine V M X} (before after : Function) : Prop :=
  forall fuel args m, runFunction fuel before args m <> Stuck ->
    runFunction fuel after args m = runFunction fuel before args m.

(** A sequence runs its parts in turn. *)
Lemma runInstrs_app {V M X} {machine : Machine V M X} from e l1 l2 (ρ : gmap string V) m :
  runInstrs (X := X) from e ρ m (l1 ++ l2) =
  match runInstrs from e ρ m l1 with inl (ρ1, m1) => runInstrs from e ρ1 m1 l2 | inr o => inr o end.
Proof.
  revert ρ m. induction l1 as [|i l1 IH]; intros ρ m; [reflexivity|]. cbn [app runInstrs].
  destruct (runInstr from e ρ m i); [apply IH | reflexivity | reflexivity].
Qed.

Section KeepBlocks.
Context {V M X : Type} {machine : Machine V M X}.

Lemma keeps_refl fn : keeps fn fn.
Proof. intros fuel args m _. reflexivity. Qed.

Lemma keeps_trans f g h : keeps f g -> keeps g h -> keeps f h.
Proof.
  intros Hfg Hgh fuel args m Hs. rewrite Hgh, Hfg; auto.
  rewrite Hfg by exact Hs. exact Hs.
Qed.

(** Block names decide the positions. *)
Lemma blockIndexFrom_names k l l' acc :
  map bName l = map bName l' -> blockIndexFrom k l acc = blockIndexFrom k l' acc.
Proof.
  revert k l' acc. induction l as [|b l IH]; intros k [|b' l'] acc H; cbn [map] in H; try discriminate; [reflexivity|].
  injection H as Hb Hl. cbn [blockIndexFrom]. rewrite Hb. apply IH, Hl.
Qed.

Lemma blockIndex_names f g :
  map bName (fBlocks f) = map bName (fBlocks g) -> blockIndex f = blockIndex g.
Proof. apply blockIndexFrom_names. Qed.
End KeepBlocks.
