(* ===== verification/Optimize.v ===== *)
(** * The local cleanup passes ([internal/ir/optimize.go])

    Constant folding, copy propagation and dead-code elimination.  A pass
    mutates instructions in place and threads a map of what it knows through
    the instructions of all blocks in order; here it returns the instructions
    and the map. *)

From stdpp Require Import base list strings gmap.
From Stdlib Require Import ZArith Lia String.
From S2P Require Import Prelude GoStd IR.

#[local] Open Scope string_scope.
#[local] Open Scope Z_scope.

(** [for _, x := range l] over a loop body that rewrites [x] and the state. *)
Section Accum.
Context {S A B : Type} (f : S -> A -> B * S).

Fixpoint mapAccum (s : S) (l : list A) : list B * S :=
  match l with
  | [] => ([], s)
  | x :: rest =>
      let (y, s) := f s x in
      let (ys, s) := mapAccum s rest in
      (y :: ys, s)
  end.
End Accum.

(** ** Constant folding *)

Abbreviation constants := (gmap string Z).

(** [recordConstant] *)
Definition recordConstant (consts : constants) (i : Instr) : constants :=
  if negb (String.eqb (iOp i) "const") || negb (String.eqb (vType (iResult i)) "i64") then consts
  else match ParseInt (iImmediate i) with
  | Some value => <[vName (iResult i) := value]> consts
  | None => consts
  end.

Definition recordConstants (consts : constants) (blocks : list Block) : constants :=
  foldl (fun consts b => foldl recordConstant consts (bInstrs b)) consts blocks.

(** [integerConstant] *)
Definition integerConstant (value : Value) (consts : constants) : option Z :=
  if negb (String.eqb (vType value) "i64") then None
  else match consts !! vName value with
  | Some known => Some known
  | None => ParseInt (vName value)
  end.

(** [foldBinary]: 64-bit signed arithmetic, which wraps. *)
Definition foldBinary (op : string) (lhs rhs : Z) : option Z :=
  if String.eqb op "binary.+" then Some (wrap64 (lhs + rhs))
  else if String.eqb op "binary.-" then Some (wrap64 (lhs - rhs))
  else if String.eqb op "binary.*" then Some (wrap64 (lhs * rhs))
  else if String.eqb op "binary.&" then Some (Z.land lhs rhs)
  else if String.eqb op "binary.|" then Some (Z.lor lhs rhs)
  else if String.eqb op "binary.^" then Some (Z.lxor lhs rhs)
  else None.

(** [foldComparison] *)
Definition foldComparison (op : string) (lhs rhs : Z) : option bool :=
  if String.eqb op "binary.<" then Some (lhs <? rhs)
  else if String.eqb op "binary.<=" then Some (lhs <=? rhs)
  else if String.eqb op "binary.>" then Some (rhs <? lhs)
  else if String.eqb op "binary.>=" then Some (rhs <=? lhs)
  else if String.eqb op "binary.==" then Some (lhs =? rhs)
  else if String.eqb op "binary.!=" then Some (negb (lhs =? rhs))
  else None.

Definition FormatBool (b : bool) : string := if b then "true" else "false".

(** [foldInstr]: the folded instruction and what is known after it, when it
    folds. *)
Definition foldInstr (i : Instr) (consts : constants) : option (Instr * constants) :=
  match iArgs i with
  | [a; b] =>
      if String.eqb (iOp i) "const" then None
      else match integerConstant a consts, integerConstant b consts with
      | Some lhs, Some rhs =>
          if String.eqb (vType (iResult i)) "i64" then
            match foldBinary (iOp i) lhs rhs with
            | Some value =>
                Some (become_const (FormatInt value) i, <[vName (iResult i) := value]> consts)
            | None => None
            end
          else if String.eqb (vType (iResult i)) "bool" then
            match foldComparison (iOp i) lhs rhs with
            | Some value => Some (become_const (FormatBool value) i, consts)
            | None => None
            end
          else None
      | _, _ => None
      end
  | _ => None
  end.

(** One pass over the blocks; the state is [(consts, changed)]. *)
Definition foldOne (st : constants * bool) (i : Instr) : Instr * (constants * bool) :=
  match foldInstr i st.1 with
  | Some (i, consts) => (i, (consts, true))
  | None => (i, st)
  end.

(** A loop over the instructions of every block. *)
Definition overInstrs {S} (f : S -> Instr -> Instr * S) (s : S) (b : Block) : Block * S :=
  let (instrs, s) := mapAccum f s (bInstrs b) in
  (set_bInstrs (fun _ => instrs) b, s).

Definition foldPass (consts : constants) (blocks : list Block) : list Block * (constants * bool) :=
  mapAccum (overInstrs foldOne) (consts, false) blocks.

(** [for changed := true; changed; { ... }] *)
Fixpoint foldLoop (fuel : nat) (consts : constants) (blocks : list Block) : option (list Block) :=
  match fuel with
  | O => None
  | S fuel =>
      let '(blocks, (consts, changed)) := foldPass consts blocks in
      if changed : bool then foldLoop fuel consts blocks else Some blocks
  end.

(** Every pass but the last folds an instruction: [Dce] shows this bound
    is enough. *)
Definition foldBound (blocks : list Block) : nat :=
  S (List.length (flat_map bInstrs blocks)).

Definition constantFoldFunction (fn : Function) : option Function :=
  match foldLoop (foldBound (fBlocks fn)) (recordConstants ∅ (fBlocks fn)) (fBlocks fn) with
  | Some blocks => Some (set_fBlocks (fun _ => blocks) fn)
  | None => None
  end.

(** [ConstantFold] *)
Definition ConstantFold (m : Module_) : option Module_ :=
  fns ← mapM constantFoldFunction (mFunctions m);
  Some (set_mFunctions (fun _ => fns) m).

(** ** Copy propagation *)

Abbreviation copies_map := (gmap string Value).

Definition replaceValue (copies : copies_map) (v : Value) : Value := default v (copies !! vName v).

(** Every value an instruction reads, rewritten by [f]: the loops of
    [replaceArgs], and of [replaceFunctionValues] and [renameInstrReads]
    elsewhere. *)
Definition mapReads (f : Value -> Value) (i : Instr) : Instr :=
  mkInstr (iResult i) (iOp i) (map f (iArgs i)) (iExternABI i) (iExternName i) (iCallParams i)
    (iVariadicFixed i) (iImmediate i)
    (map (fun fa => mkFieldArg (faName fa) (f (faValue fa))) (iFields i))
    (map (fun inc => mkIncoming (inBlock inc) (f (inValue inc))) (iIncoming i))
    (map (fun c => mkCleanup (clOp c) (map f (clArgs c)) (clLoads c) (clExternABI c) (clExternName c)
                     (clCallParams c) (clVariadicFixed c) (clOnError c) (clReceiver c)) (iCleanups i))
    (iSpan i).

(** [replaceArgs] *)
Definition replaceArgs (copies : copies_map) (i : Instr) : Instr := mapReads (replaceValue copies) i.

(** [replaceTerminatorArgs] *)
Definition mapTerminator (f : Value -> Value) (t : Terminator) : Terminator :=
  mkTerminator (tOp t) (f (tValue t)) (f (tCond t)) (tTarget t) (tElse t).

Definition replaceTerminatorArgs (copies : copies_map) (t : Terminator) : Terminator :=
  mapTerminator (replaceValue copies) t.

Definition copyInstr (copies : copies_map) (i : Instr) : Instr * copies_map :=
  let i := replaceArgs copies i in
  (i, match iArgs i with
      | [source] => if String.eqb (iOp i) "id" then <[vName (iResult i) := source]> copies else copies
      | _ => copies
      end).

Definition copyBlock (copies : copies_map) (b : Block) : Block * copies_map :=
  let (b, copies) := overInstrs copyInstr copies b in
  (set_bTerminator (replaceTerminatorArgs copies) b, copies).

Definition copyPropagateFunction (fn : Function) : Function :=
  set_fBlocks (fun blocks => (mapAccum copyBlock ∅ blocks).1) fn.

(** [CopyPropagate] *)
Definition CopyPropagate (m : Module_) : Module_ :=
  set_mFunctions (map copyPropagateFunction) m.

(** ** Dead-code elimination *)

(** The names one instruction reads. *)
Definition instrReads (i : Instr) : list string :=
  (map vName (iArgs i) ++ map (fun inc => vName (inValue inc)) (iIncoming i) ++
   map (fun fa => vName (faValue fa)) (iFields i) ++
   flat_map (fun c => map vName (clArgs c)) (iCleanups i))%list.

Definition blockReads (b : Block) : list string :=
  (flat_map instrReads (bInstrs b) ++ [vName (tValue (bTerminator b)); vName (tCond (bTerminator b))])%list.

(** [usedValues] *)
Definition usedValues (fn : Function) : gset string := list_to_set (flat_map blockReads (fBlocks fn)).

(** The names of [isPureOp]'s switch. *)
Definition pureOps : list string :=
  ["const"; "id"; "phi"; "cast"; "struct.new"; "local.slot"; "ref.load";
   "opt.null"; "opt.some"; "opt.has"; "opt.value"; "ptr.has"; "ptr.value";
   "error.ok"; "error.error"; "error.has"; "error.value"; "error.code";
   "union.new"; "union.tag"; "union.payload"; "union.payload_ref"; "union.load";
   "slice.len"; "slice.index"; "slice.compare"; "slice.slice"; "slice.ptr"; "slice.from_ptr";
   "ptr.offset";
   "buffer.new"; "buffer.as_bytes";
   "float.bits"; "float.from_bits"; "float.sqrt"; "float.floor"; "float.ceil"; "float.trunc";
   "float.fma"; "table.get"; "vector.new"; "vector.lane";
   "box.borrow"; "box.borrow_mut";
   "array.new"; "array.len"; "array.capacity"; "array.get"; "array.at"; "array.at_mut";
   "array.as_bytes"; "map.new"; "map.len"; "map.get"; "map.contains"; "map.at";
   "map.at_mut"; "map.key_at"; "arena.new"; "arena.len"].

(** [isPureOp] *)
Definition isPureOp (op : string) : bool :=
  if existsb (String.eqb op) pureOps then true
  else if HasPrefix op "field.ref.set." then false
  else HasPrefix op "binary." || HasPrefix op "unary." || HasPrefix op "field." || HasPrefix op "func.addr.".

(** [hasEffect] *)
Definition hasEffect (i : Instr) : bool := negb (isPureOp (iOp i)).

(** [keepLiveInstrs] *)
Definition keepLiveInstrs (instrs : list Instr) (used : gset string) : list Instr :=
  List.filter (fun i => hasEffect i || bool_decide (vName (iResult i) ∈ used)) instrs.

Definition deadCodeEliminateFunction (fn : Function) : Function :=
  let used := usedValues fn in
  set_fBlocks (map (set_bInstrs (fun instrs => keepLiveInstrs instrs used))) fn.

(** [DeadCodeEliminate] *)
Definition DeadCodeEliminate (m : Module_) : Module_ :=
  set_mFunctions (map deadCodeEliminateFunction) m.
