(* ===== verification/Dce.v ===== *)
(** * Dead-code elimination keeps every run ([DeadCodeEliminate]) *)

From stdpp Require Import base list strings gmap.
From Stdlib Require Import ZArith Lia String.
From S2P Require Import Prelude GoStd IR Cfg Verify Semantics Optimize.

#[local] Open Scope string_scope.
#[local] Open Scope list_scope.

(** What [isPureOp] says of an operation: it writes no memory and cannot end
    the run on its own. *)
Class PureMachine {V M X} (machine : Machine V M X) : Prop := {
  pure_step : forall i vs m, isPureOp (iOp i) = true ->
    match operation i vs m with
    | Next _ m' => m' = m
    | Halt _ => False
    | Undefined => True
    end
}.

(** [r'] does what [r] does, unless [r] is stuck. *)
Definition refines {V M X} (r r' : outcome V M X) : Prop := r <> Stuck -> r' = r.

Section Dce.
Context {V M X : Type} {machine : Machine V M X} {pure : PureMachine machine}.

Abbreviation env := (gmap string V).

(** Environments that agree on the names that are read. *)
Definition agree (used : gset string) (ρ ρ' : env) : Prop := forall x, x ∈ used -> ρ !! x = ρ' !! x.

Lemma agree_operand used ρ ρ' v : agree used ρ ρ' -> vName v ∈ used -> operand ρ v = operand ρ' v.
Proof. intros H Hv. unfold operand. rewrite (H _ Hv). reflexivity. Qed.

Lemma agree_assign used ρ ρ' i v : agree used ρ ρ' -> agree used (assign ρ i v) (assign ρ' i v).
Proof.
  intros H x Hx. unfold assign. destruct (String.eqb _ _); [auto|].
  destruct (decide (x = vName (iResult i))) as [->|Hne].
  - rewrite !lookup_insert_eq. reflexivity.
  - rewrite !lookup_insert_ne by congruence. auto.
Qed.

Lemma agree_skip used ρ ρ' i v :
  agree used ρ ρ' -> vName (iResult i) ∉ used -> agree used (assign ρ i v) ρ'.
Proof.
  intros H Hi x Hx. unfold assign. destruct (String.eqb _ _); [auto|].
  rewrite lookup_insert_ne by congruence. auto.
Qed.

(** The names one instruction reads are used. *)
Definition readsIn (used : gset string) (i : Instr) : Prop := forall x, x ∈ instrReads i -> x ∈ used.

Lemma readOperands_reads i v : v ∈ readOperands i -> vName v ∈ instrReads i.
Proof.
  unfold readOperands, instrReads. rewrite !elem_of_app. intros [H|[H|H]].
  - left. apply list_elem_of_fmap_2, H.
  - right. right. left. apply list_elem_of_fmap in H as (fa & -> & H).
    apply (list_elem_of_fmap_2 (fun fa => vName (faValue fa))), H.
  - right. right. right. apply list_elem_of_In, in_flat_map in H as (c & Hc & Hv).
    apply list_elem_of_In, in_flat_map. exists c. split; [exact Hc|]. apply in_map, Hv.
Qed.

Lemma find_in {A} (f : A -> bool) l x : List.find f l = Some x -> x ∈ l.
Proof. intros H. apply List.find_some in H as [H _]. apply list_elem_of_In, H. Qed.

Lemma agree_runInstr used from e e' ρ ρ' m i :
  agree used e e' -> agree used ρ ρ' -> readsIn used i -> runInstr from e' ρ' m i = runInstr from e ρ m i.
Proof.
  intros He Hρ Hr. unfold runInstr. destruct (String.eqb (iOp i) "phi").
  - unfold phiValue. destruct (List.find _ _) as [inc|] eqn:Hf; [|reflexivity].
    apply find_in in Hf. rewrite (agree_operand used e e'); [reflexivity | exact He |].
    apply Hr. unfold instrReads. rewrite !elem_of_app. right. left.
    apply (list_elem_of_fmap_2 (fun inc => vName (inValue inc))), Hf.
  - assert (Heq : mapM (operand ρ') (readOperands i) = mapM (operand ρ) (readOperands i)).
    { assert (Hall : forall v, v ∈ readOperands i -> vName v ∈ used) by (intros v Hv; apply Hr, readOperands_reads, Hv).
      induction (readOperands i) as [|v l IH]; [reflexivity|]. cbn [mapM].
      rewrite (agree_operand used ρ ρ') by (auto; apply Hall; left).
      unfold mbind. rewrite IH by (intros w Hw; apply Hall; right; exact Hw). reflexivity. }
    rewrite Heq. reflexivity.
Qed.

Definition agreeResult (used : gset string) (r r' : env * M + outcome V M X) : Prop :=
  match r with
  | inl (ρ, m) => exists ρ', r' = inl (ρ', m) /\ agree used ρ ρ'
  | inr o => refines o match r' with inr o' => o' | inl _ => Stuck end /\ (o <> Stuck -> exists o', r' = inr o')
  end.

Lemma pure_runInstr from e ρ m i :
  hasEffect i = false ->
  match runInstr from e ρ m i with Next _ m' => m' = m | Halt _ => False | Undefined => True end.
Proof.
  unfold hasEffect. rewrite negb_false_iff. intros Hp. unfold runInstr.
  destruct (String.eqb (iOp i) "phi"); [destruct (phiValue from e i); [reflexivity | exact I]|].
  destruct (mapM (operand ρ) (readOperands i)) as [vs|]; [|exact I].
  apply (pure_step (shape i) vs m), Hp.
Qed.

Lemma agree_runInstrs used from e e' ρ ρ' m l :
  agree used e e' -> agree used ρ ρ' -> (forall i, i ∈ l -> readsIn used i) ->
  agreeResult used (runInstrs from e ρ m l) (runInstrs from e' ρ' m (keepLiveInstrs l used)).
Proof.
  intros He. revert ρ ρ' m. induction l as [|i l IH]; intros ρ ρ' m Hρ Hr.
  { cbn. eauto. }
  assert (Hr' : forall i, i ∈ l -> readsIn used i) by (intros j Hj; apply Hr; right; exact Hj).
  cbn [runInstrs keepLiveInstrs List.filter]. fold (keepLiveInstrs l used).
  destruct (hasEffect i || bool_decide (vName (iResult i) ∈ used)) eqn:Hk.
  - cbn [runInstrs]. rewrite (agree_runInstr used from e e' ρ ρ' m i) by (auto; apply Hr; left).
    destruct (runInstr from e ρ m i) as [v m'|x|]; [|cbn..].
    + apply IH; [apply agree_assign, Hρ | exact Hr'].
    + split; [intros _; reflexivity | eauto].
    + split; [intros []; reflexivity | intros []; reflexivity].
  - apply orb_false_iff in Hk as [Hp Hu]. apply bool_decide_eq_false in Hu.
    pose proof (pure_runInstr from e ρ m i Hp) as Hs.
    destruct (runInstr from e ρ m i) as [v m'|x|]; [|contradiction|].
    + subst m'. apply IH; [apply agree_skip; assumption | exact Hr'].
    + cbn. split; [intros []; reflexivity | intros []; reflexivity].
Qed.

Lemma used_reads fn b i :
  b ∈ fBlocks fn -> i ∈ bInstrs b -> readsIn (usedValues fn) i.
Proof.
  intros Hb Hi x Hx. apply elem_of_list_to_set, list_elem_of_In, in_flat_map. exists b.
  split; [apply list_elem_of_In, Hb|]. apply in_or_app. left. apply in_flat_map. exists i.
  split; apply list_elem_of_In; assumption.
Qed.

Lemma used_terminator fn b v :
  b ∈ fBlocks fn -> v = tValue (bTerminator b) \/ v = tCond (bTerminator b) -> vName v ∈ usedValues fn.
Proof.
  intros Hb Hv. apply elem_of_list_to_set, list_elem_of_In, in_flat_map. exists b.
  split; [apply list_elem_of_In, Hb|]. apply in_or_app. right. destruct Hv as [->| ->]; simpl; auto.
Qed.

Lemma agree_terminator used ρ ρ' m t :
  agree used ρ ρ' -> vName (tValue t) ∈ used -> vName (tCond t) ∈ used ->
  runTerminator ρ' m t = runTerminator (X := X) ρ m t.
Proof.
  intros H Hv Hc. unfold runTerminator.
  rewrite (agree_operand used ρ ρ' (tValue t)), (agree_operand used ρ ρ' (tCond t)) by assumption.
  reflexivity.
Qed.

Lemma dce_runBlocks fn fuel from cur ρ ρ' m :
  agree (usedValues fn) ρ ρ' ->
  refines (runBlocks fuel fn from cur ρ m) (runBlocks fuel (deadCodeEliminateFunction fn) from cur ρ' m).
Proof.
  revert from cur ρ ρ' m. induction fuel as [|fuel IH]; intros from cur ρ ρ' m Hρ Hs; [reflexivity|].
  revert Hs. cbn [runBlocks]. unfold deadCodeEliminateFunction at 1. cbn [fBlocks set_fBlocks].
  rewrite list_lookup_fmap. destruct (fBlocks fn !! cur) as [b|] eqn:Hb; [|intros []; reflexivity].
  cbn [fmap option_fmap option_map set_bInstrs bInstrs bTerminator bName].
  pose proof (list_elem_of_lookup_2 _ _ _ Hb) as Hin.
  pose proof (agree_runInstrs (usedValues fn) from ρ ρ' ρ ρ' m (bInstrs b) Hρ Hρ (fun i => used_reads fn b i Hin)) as H.
  destruct (runInstrs from ρ ρ m (bInstrs b)) as [[ρ1 m1]|o].
  - destruct H as (ρ1' & -> & Hag).
    rewrite (agree_terminator (usedValues fn) ρ1 ρ1') by (auto; eapply used_terminator; eauto).
    destruct (runTerminator ρ1 m1 (bTerminator b)) as [target|o]; [|reflexivity].
    rewrite (blockIndex_names (deadCodeEliminateFunction fn) fn).
    2: { cbn. rewrite map_map. reflexivity. }
    destruct (blockIndex fn !! target) as [next|]; [|intros []; reflexivity]. apply IH, Hag.
  - destruct H as [H1 H2]. intros Hs. destruct (H2 Hs) as [o' Ho']. specialize (H1 Hs).
    rewrite Ho' in *. exact H1.
Qed.

Lemma dce_keeps fn : keeps fn (deadCodeEliminateFunction fn).
Proof. intros fuel args m Hs. apply dce_runBlocks; [intros x _; reflexivity | exact Hs]. Qed.
End Dce.

(** * Constant folding keeps every run and ends ([ConstantFold])

    The machine computes on 64-bit words; the folding computes on the signed
    64-bit integers of the compiler.  What the pass knows is sound for every
    run, so each folded instruction computes what the one before it did. *)

(** ** Words *)

Section Words.
Local Open Scope Z_scope.

Definition toWord (z : Z) : Z := z mod 2 ^ 64.

Definition signed (w : Z) : Z := if w <? 2 ^ 63 then w else w - 2 ^ 64.

(** The machine's operations on words. *)
Definition wordOp (op : string) : option (Z -> Z -> Z) :=
  if String.eqb op "binary.+" then Some (fun a b => (a + b) mod 2 ^ 64)
  else if String.eqb op "binary.-" then Some (fun a b => (a - b) mod 2 ^ 64)
  else if String.eqb op "binary.*" then Some (fun a b => (a * b) mod 2 ^ 64)
  else if String.eqb op "binary.&" then Some Z.land
  else if String.eqb op "binary.|" then Some Z.lor
  else if String.eqb op "binary.^" then Some Z.lxor
  else None.

Definition wordCompare (op : string) : option (Z -> Z -> bool) :=
  if String.eqb op "binary.<" then Some (fun a b => signed a <? signed b)
  else if String.eqb op "binary.<=" then Some (fun a b => signed a <=? signed b)
  else if String.eqb op "binary.>" then Some (fun a b => signed b <? signed a)
  else if String.eqb op "binary.>=" then Some (fun a b => signed b <=? signed a)
  else if String.eqb op "binary.==" then Some (fun a b => a =? b)
  else if String.eqb op "binary.!=" then Some (fun a b => negb (a =? b))
  else None.

Lemma signed_toWord z : in_int64 z -> signed (toWord z) = z.
Proof.
  unfold in_int64, min_int64, max_int64, signed, toWord. intros H.
  destruct (Z_lt_le_dec z 0) as [Hn|Hp].
  - replace (z mod 2 ^ 64) with (z + 2 ^ 64) by (apply Z.mod_unique with (-1); lia).
    destruct (Z.ltb_spec (z + 2 ^ 64) (2 ^ 63)); lia.
  - rewrite Z.mod_small by lia. destruct (Z.ltb_spec z (2 ^ 63)); lia.
Qed.

Lemma toWord_inj a b : in_int64 a -> in_int64 b -> toWord a = toWord b -> a = b.
Proof. intros Ha Hb H. rewrite <- (signed_toWord a Ha), <- (signed_toWord b Hb), H. reflexivity. Qed.

Lemma toWord_wrap z : toWord (wrap64 z) = toWord z.
Proof. unfold toWord. destruct (wrap64_cong z) as [k ->]. apply Z.mod_add. lia. Qed.

(** The bits of a word are the low bits of the integer. *)
Lemma toWord_testbit z i : Z.testbit (toWord z) i = (i <? 64) && Z.testbit z i.
Proof.
  unfold toWord. destruct (Z.ltb_spec i 64) as [H|H]; cbn [andb].
  - apply Z.mod_pow2_bits_low, H.
  - apply Z.mod_pow2_bits_high. lia.
Qed.

Lemma toWord_bits (f : Z -> Z -> Z) (g : bool -> bool -> bool) a b :
  (forall x y i, 0 <= i -> Z.testbit (f x y) i = g (Z.testbit x i) (Z.testbit y i)) -> g false false = false ->
  toWord (f a b) = f (toWord a) (toWord b).
Proof.
  intros Hf Hg. apply Z.bits_inj'. intros i Hi. rewrite toWord_testbit, !Hf, !toWord_testbit by lia.
  destruct (i <? 64); cbn [andb]; auto.
Qed.

(** An integer is 64-bit when everything past bit 62 is its sign. *)
Lemma in_int64_shift z : in_int64 z <-> Z.shiftr z 63 = 0 \/ Z.shiftr z 63 = -1.
Proof.
  unfold in_int64, min_int64, max_int64. rewrite Z.shiftr_div_pow2 by lia.
  pose proof (Z.div_mod z (2 ^ 63) ltac:(lia)). pose proof (Z.mod_pos_bound z (2 ^ 63) ltac:(lia)). nia.
Qed.

Lemma in_int64_bits (f : Z -> Z -> Z) a b :
  (forall x y, Z.shiftr (f x y) 63 = f (Z.shiftr x 63) (Z.shiftr y 63)) ->
  (forall x y, (x = 0 \/ x = -1) -> (y = 0 \/ y = -1) -> f x y = 0 \/ f x y = -1) ->
  in_int64 a -> in_int64 b -> in_int64 (f a b).
Proof. rewrite !in_int64_shift. intros Hs Hf Ha Hb. rewrite Hs. auto. Qed.

Lemma foldBinary_word op a b v :
  in_int64 a -> in_int64 b -> foldBinary op a b = Some v ->
  in_int64 v /\ exists f, wordOp op = Some f /\ toWord v = f (toWord a) (toWord b).
Proof.
  intros Ha Hb. unfold foldBinary, wordOp.
  assert (Hmod : forall f : Z -> Z -> Z, (forall x y, f x y mod 2 ^ 64 = f (x mod 2 ^ 64) (y mod 2 ^ 64) mod 2 ^ 64) ->
    in_int64 (wrap64 (f a b)) /\ toWord (wrap64 (f a b)) = f (toWord a) (toWord b) mod 2 ^ 64).
  { intros f Hf. split; [apply wrap64_range|]. rewrite toWord_wrap. apply Hf. }
  destruct (String.eqb op "binary.+").
  { intros [= <-]. destruct (Hmod Z.add) as [H1 H2]; [intros x y; apply Zplus_mod | eauto]. }
  destruct (String.eqb op "binary.-").
  { intros [= <-]. destruct (Hmod Z.sub) as [H1 H2]; [intros x y; apply Zminus_mod | eauto]. }
  destruct (String.eqb op "binary.*").
  { intros [= <-]. destruct (Hmod Z.mul) as [H1 H2]; [intros x y; apply Zmult_mod | eauto]. }
  destruct (String.eqb op "binary.&").
  { intros [= <-]. split.
    - apply in_int64_bits; auto; [intros; apply Z.shiftr_land | intros x y [->| ->] [->| ->]; auto].
    - exists Z.land. split; [reflexivity|]. apply (toWord_bits Z.land andb); [intros; apply Z.land_spec | reflexivity]. }
  destruct (String.eqb op "binary.|").
  { intros [= <-]. split.
    - apply in_int64_bits; auto; [intros; apply Z.shiftr_lor | intros x y [->| ->] [->| ->]; auto].
    - exists Z.lor. split; [reflexivity|]. apply (toWord_bits Z.lor orb); [intros; apply Z.lor_spec | reflexivity]. }
  destruct (String.eqb op "binary.^"); [|discriminate].
  intros [= <-]. split.
  - apply in_int64_bits; auto; [intros; apply Z.shiftr_lxor | intros x y [->| ->] [->| ->]; auto].
  - exists Z.lxor. split; [reflexivity|]. apply (toWord_bits Z.lxor xorb); [intros; apply Z.lxor_spec | reflexivity].
Qed.

Lemma foldComparison_word op a b v :
  in_int64 a -> in_int64 b -> foldComparison op a b = Some v ->
  exists f, wordCompare op = Some f /\ f (toWord a) (toWord b) = v.
Proof.
  intros Ha Hb. unfold foldComparison, wordCompare.
  assert (Heq : (toWord a =? toWord b) = (a =? b)).
  { destruct (Z.eqb_spec a b) as [->|Hne]; [apply Z.eqb_refl|]. apply Z.eqb_neq. intros H.
    apply Hne, toWord_inj; assumption. }
  repeat (match goal with |- context [String.eqb op ?s] => destruct (String.eqb op s) end;
    [intros [= <-]; eexists; split; [reflexivity|]; cbv beta; rewrite ?signed_toWord, ?Heq by assumption; reflexivity|]).
  discriminate.
Qed.
End Words.

(** ** What the pass relies on *)

(** The machine gives 64-bit integers and their constants and operators the
    meaning of words. *)
Class IntMachine {V M X} (machine : Machine V M X) : Type := {
  word : Z -> V;
  boolean : bool -> V;
  literal_int : forall v n, vType v = "i64" -> ParseInt (vName v) = Some n ->
    literal v = Some (word (toWord n));
  const_int : forall i m n, iOp i = "const" -> vType (iResult i) = "i64" ->
    ParseInt (iImmediate i) = Some n -> operation i [] m = Next (word (toWord n)) m;
  const_bool : forall i m b, iOp i = "const" -> vType (iResult i) = "bool" ->
    iImmediate i = FormatBool b -> operation i [] m = Next (boolean b) m;
  binary_int : forall i m a b f, wordOp (iOp i) = Some f -> vType (iResult i) = "i64" ->
    map vType (iArgs i) = ["i64"; "i64"] -> operation i [word a; word b] m = Next (word (f a b)) m;
  compare_int : forall i m a b f, wordCompare (iOp i) = Some f -> vType (iResult i) = "bool" ->
    map vType (iArgs i) = ["i64"; "i64"] -> operation i [word a; word b] m = Next (boolean (f a b)) m
}.

Definition instrsOf (blocks : list Block) : list Instr := flat_map bInstrs blocks.

Definition resultName (i : Instr) : string := vName (iResult i).

(** The names a function computes, each entry one definition. *)
Definition definedNames (fn : Function) : list string :=
  filter (fun x => x <> "") (map pName (fParams fn) ++ map resultName (instrsOf (fBlocks fn))).

(** Static single assignment, as lowering produces it: one definition per
    name, no definition under the spelling of a literal, a name for every
    integer result, and operators and constants without fields or cleanups. *)
Record ssa {V M X} {machine : Machine V M X} (fn : Function) : Prop := mkSsa {
  ssa_once : NoDup (definedNames fn);
  ssa_params : "" ∉ map pName (fParams fn);
  ssa_literal : forall x ty, x ∈ definedNames fn -> literal (mkValue x ty) = None;
  ssa_named : forall i, i ∈ instrsOf (fBlocks fn) -> vType (iResult i) = "i64" -> resultName i <> "";
  ssa_plain : forall i, i ∈ instrsOf (fBlocks fn) -> iOp i = "const" \/ HasPrefix (iOp i) "binary." = true ->
    iFields i = [] /\ iCleanups i = [] /\ (iOp i = "const" -> iArgs i = [])
}.

Section Fold.
Context {V M X : Type} {machine : Machine V M X} {ints : IntMachine machine}.

Abbreviation env := (gmap string V).

(** No name of an environment is a literal. *)
Definition namesOk (ρ : env) : Prop := forall x v ty, ρ !! x = Some v -> literal (mkValue x ty) = None.

(** The environment agrees with the known constants. *)
Definition respects (consts : constants) (ρ : env) : Prop :=
  forall x n v, consts !! x = Some n -> ρ !! x = Some v -> v = word (toWord n).

Lemma respects_mono consts consts' ρ : consts ⊆ consts' -> respects consts' ρ -> respects consts ρ.
Proof. intros Hsub H x n v Hx Hv. eapply H; [eapply lookup_weaken; eauto | exact Hv]. Qed.

(** What [i] computes wherever it runs under the known constants. *)
Definition computes (consts : constants) (i : Instr) (v : V) : Prop :=
  forall from e ρ m, namesOk ρ -> respects consts ρ ->
    runInstr from e ρ m i = Undefined \/ runInstr from e ρ m i = Next v m.

Definition sameRun (consts : constants) (i0 i : Instr) : Prop :=
  forall from e ρ m, namesOk ρ -> respects consts ρ ->
    runInstr from e ρ m i0 = Undefined \/ runInstr from e ρ m i = runInstr from e ρ m i0.

(** Constants whose names are literals nowhere, with values that are 64-bit. *)
Definition constsOk (consts : constants) : Prop :=
  forall x n, consts !! x = Some n -> in_int64 n /\ forall ty, literal (mkValue x ty) = None.

Lemma integerConstant_sound consts ρ v n x :
  constsOk consts -> namesOk ρ -> respects consts ρ -> integerConstant v consts = Some n ->
  operand ρ v = Some x -> in_int64 n /\ vType v = "i64" /\ x = word (toWord n).
Proof.
  intros Hc Hn Hr. unfold integerConstant, operand.
  destruct (String.eqb_spec (vType v) "i64") as [Ht|]; cbn [negb]; [|discriminate].
  assert (Hv : forall y, y = vName v -> mkValue y (vType v) = v) by (intros y ->; destruct v; reflexivity).
  destruct (consts !! vName v) as [k|] eqn:Hk.
  - intros [= ->]. destruct (Hc _ _ Hk) as [Hi Hl]. destruct (ρ !! vName v) as [y|] eqn:Hy.
    + intros [= <-]. split; [exact Hi|]. split; [exact Ht | exact (Hr _ _ _ Hk Hy)].
    + rewrite <- (Hv (vName v) eq_refl), Hl. discriminate.
  - intros Hp. pose proof (literal_int v n Ht Hp) as Hlit.
    destruct (ρ !! vName v) as [y|] eqn:Hy.
    + pose proof (Hn _ _ (vType v) Hy) as Hl. rewrite (Hv _ eq_refl) in Hl. congruence.
    + intros Hx. split; [eapply ParseInt_range, Hp|]. split; [exact Ht | congruence].
Qed.

Lemma runInstr_plain from e ρ m i :
  iOp i <> "phi" -> iFields i = [] -> iCleanups i = [] ->
  runInstr from e ρ m i =
  match mapM (operand ρ) (iArgs i) with Some vs => operation (shape i) vs m | None => Undefined end.
Proof.
  intros Hop Hf Hcl. unfold runInstr, readOperands. rewrite (proj2 (String.eqb_neq _ _) Hop), Hf, Hcl.
  cbn [map flat_map]. rewrite !app_nil_r. reflexivity.
Qed.

(** The two known operands of an instruction evaluate to their words. *)
Lemma known_operands consts ρ a b na nb :
  constsOk consts -> namesOk ρ -> respects consts ρ ->
  integerConstant a consts = Some na -> integerConstant b consts = Some nb ->
  mapM (operand ρ) [a; b] = None \/
  (mapM (operand ρ) [a; b] = Some [word (toWord na); word (toWord nb)] /\
   in_int64 na /\ in_int64 nb /\ vType a = "i64" /\ vType b = "i64").
Proof.
  intros Hc Hn Hr Ha Hb. cbn [mapM].
  destruct (operand ρ a) as [va|] eqn:Hva; [|left; reflexivity].
  destruct (operand ρ b) as [vb|] eqn:Hvb; [|left; reflexivity]. right.
  destruct (integerConstant_sound _ _ _ _ _ Hc Hn Hr Ha Hva) as (H1 & H2 & ->).
  destruct (integerConstant_sound _ _ _ _ _ Hc Hn Hr Hb Hvb) as (H3 & H4 & ->).
  split; [reflexivity | auto].
Qed.

Lemma wordOp_prefix op f : wordOp op = Some f -> HasPrefix op "binary." = true /\ op <> "phi".
Proof.
  unfold wordOp. repeat (match goal with |- context [String.eqb op ?s] => destruct (String.eqb_spec op s) as [->|] end;
    [intros _; split; [reflexivity | discriminate]|]). discriminate.
Qed.

Lemma wordCompare_prefix op f : wordCompare op = Some f -> HasPrefix op "binary." = true /\ op <> "phi".
Proof.
  unfold wordCompare. repeat (match goal with |- context [String.eqb op ?s] => destruct (String.eqb_spec op s) as [->|] end;
    [intros _; split; [reflexivity | discriminate]|]). discriminate.
Qed.

Lemma shape_args i : map vType (iArgs (shape i)) = map vType (iArgs i).
Proof. cbn. rewrite map_map. reflexivity. Qed.

(** A foldable pair of 64-bit integers is always in range: whether the run
    reaches it or not, the constants the pass holds are. *)
Lemma integerConstant_range consts v n :
  constsOk consts -> integerConstant v consts = Some n -> in_int64 n /\ vType v = "i64".
Proof.
  intros Hc. unfold integerConstant. destruct (String.eqb_spec (vType v) "i64"); cbn [negb]; [|discriminate].
  destruct (consts !! vName v) as [k|] eqn:Hk.
  - intros [= <-]. split; [apply (Hc _ _ Hk) | assumption].
  - intros H. split; [eapply ParseInt_range, H | assumption].
Qed.

Lemma foldInstr_int consts i a b na nb v :
  constsOk consts -> iArgs i = [a; b] -> integerConstant a consts = Some na -> integerConstant b consts = Some nb ->
  vType (iResult i) = "i64" -> foldBinary (iOp i) na nb = Some v ->
  (HasPrefix (iOp i) "binary." = true -> iFields i = [] /\ iCleanups i = []) ->
  in_int64 v /\ computes consts i (word (toWord v)).
Proof.
  intros Hc Hargs Ha Hb Ht Hf Hplain.
  destruct (integerConstant_range _ _ _ Hc Ha) as [Hia Hta].
  destruct (integerConstant_range _ _ _ Hc Hb) as [Hib Htb].
  destruct (foldBinary_word _ _ _ _ Hia Hib Hf) as (Hv & f & Hw & Hval). split; [exact Hv|].
  destruct (wordOp_prefix _ _ Hw) as [Hp Hphi]. destruct (Hplain Hp) as [Hfields Hcl].
  intros from e ρ m Hn Hr. rewrite runInstr_plain by assumption. rewrite Hargs.
  destruct (known_operands _ _ _ _ _ _ Hc Hn Hr Ha Hb) as [->|(-> & _)]; [left; reflexivity|]. right.
  rewrite (binary_int (shape i) m _ _ f); [rewrite Hval; reflexivity | exact Hw | exact Ht |].
  rewrite shape_args, Hargs. cbn. rewrite Hta, Htb. reflexivity.
Qed.

Lemma foldInstr_bool consts i a b na nb v :
  constsOk consts -> iArgs i = [a; b] -> integerConstant a consts = Some na -> integerConstant b consts = Some nb ->
  vType (iResult i) = "bool" -> foldComparison (iOp i) na nb = Some v ->
  (HasPrefix (iOp i) "binary." = true -> iFields i = [] /\ iCleanups i = []) ->
  computes consts i (boolean v).
Proof.
  intros Hc Hargs Ha Hb Ht Hf Hplain.
  destruct (integerConstant_range _ _ _ Hc Ha) as [Hia Hta].
  destruct (integerConstant_range _ _ _ Hc Hb) as [Hib Htb].
  destruct (foldComparison_word _ _ _ _ Hia Hib Hf) as (f & Hw & Hval).
  destruct (wordCompare_prefix _ _ Hw) as [Hp Hphi]. destruct (Hplain Hp) as [Hfields Hcl].
  intros from e ρ m Hn Hr. rewrite runInstr_plain by assumption. rewrite Hargs.
  destruct (known_operands _ _ _ _ _ _ Hc Hn Hr Ha Hb) as [->|(-> & _)]; [left; reflexivity|]. right.
  rewrite (compare_int (shape i) m _ _ f); [rewrite Hval; reflexivity | exact Hw | exact Ht |].
  rewrite shape_args, Hargs. cbn. rewrite Hta, Htb. reflexivity.
Qed.

Lemma runInstr_const from e ρ m i text :
  iFields i = [] -> iCleanups i = [] ->
  runInstr from e ρ m (become_const text i) = operation (shape (become_const text i)) [] m.
Proof. intros Hf Hcl. rewrite runInstr_plain; [reflexivity | discriminate | exact Hf | exact Hcl]. Qed.

(** An instruction may become the constant it computes. *)
Lemma const_same consts i text v :
  iFields i = [] -> iCleanups i = [] -> computes consts i v ->
  (forall m, operation (shape (become_const text i)) [] m = Next v m) -> sameRun consts i (become_const text i).
Proof.
  intros Hf Hcl Hc Hop from e ρ m Hn Hr. destruct (Hc from e ρ m Hn Hr) as [E|E]; [left; exact E|]. right.
  rewrite runInstr_const, Hop by assumption. symmetry. exact E.
Qed.

(** What one successful fold gives. *)
Lemma foldInstr_spec consts i i' consts' :
  constsOk consts -> foldInstr i consts = Some (i', consts') ->
  (HasPrefix (iOp i) "binary." = true -> iFields i = [] /\ iCleanups i = []) ->
  iResult i' = iResult i /\ iOp i <> "const" /\ iOp i' = "const" /\ iArgs i' = [] /\
  iFields i' = iFields i /\ iCleanups i' = iCleanups i /\ sameRun consts i i' /\
  (consts' = consts \/
   exists n, vType (iResult i) = "i64" /\ consts' = <[resultName i := n]> consts /\ in_int64 n /\
     computes consts i (word (toWord n))).
Proof.
  intros Hc Hfold Hplain. unfold foldInstr in Hfold.
  destruct (iArgs i) as [|a [|b [|]]] eqn:Hargs; try discriminate.
  destruct (String.eqb_spec (iOp i) "const") as [|Hop]; [discriminate|].
  destruct (integerConstant a consts) as [na|] eqn:Ha; [|discriminate].
  destruct (integerConstant b consts) as [nb|] eqn:Hb; [|discriminate].
  destruct (String.eqb_spec (vType (iResult i)) "i64") as [Ht|_].
  - destruct (foldBinary (iOp i) na nb) as [v|] eqn:Hf; [|discriminate]. injection Hfold as <- <-.
    destruct (foldInstr_int _ _ _ _ _ _ _ Hc Hargs Ha Hb Ht Hf Hplain) as [Hv Hcomp].
    destruct (integerConstant_range _ _ _ Hc Ha) as [Hia _]. destruct (integerConstant_range _ _ _ Hc Hb) as [Hib _].
    destruct (foldBinary_word _ _ _ _ Hia Hib Hf) as (_ & f & Hw & _).
    destruct (Hplain (proj1 (wordOp_prefix _ _ Hw))) as [Hfi Hcl].
    assert (Hopr : forall m, operation (shape (become_const (FormatInt v) i)) [] m = Next (word (toWord v)) m).
    { intros m. apply const_int; [reflexivity | exact Ht | apply ParseInt_FormatInt, Hv]. }
    repeat split; auto; [|right; exists v; auto].
    eapply const_same; eassumption.
  - destruct (String.eqb_spec (vType (iResult i)) "bool") as [Ht|]; [|discriminate].
    destruct (foldComparison (iOp i) na nb) as [v|] eqn:Hf; [|discriminate]. injection Hfold as <- <-.
    pose proof (foldInstr_bool _ _ _ _ _ _ _ Hc Hargs Ha Hb Ht Hf Hplain) as Hcomp.
    destruct (integerConstant_range _ _ _ Hc Ha) as [Hia _]. destruct (integerConstant_range _ _ _ Hc Hb) as [Hib _].
    destruct (foldComparison_word _ _ _ _ Hia Hib Hf) as (f & Hw & _).
    destruct (Hplain (proj1 (wordCompare_prefix _ _ Hw))) as [Hfi Hcl].
    assert (Hopr : forall m, operation (shape (become_const (FormatBool v) i)) [] m = Next (boolean v) m).
    { intros m. apply const_bool; [reflexivity | exact Ht | reflexivity]. }
    repeat split; auto.
    eapply const_same; eassumption.
Qed.
End Fold.

(** ** One pass *)

Lemma mapAccum_flat {S} (f : S -> Instr -> Instr * S) s blocks :
  let (bs, s1) := mapAccum (overInstrs f) s blocks in
  let (l, s2) := mapAccum f s (instrsOf blocks) in
  instrsOf bs = l /\ s1 = s2 /\
  Forall2 (fun b b' => bName b' = bName b /\ bTerminator b' = bTerminator b /\
                       List.length (bInstrs b') = List.length (bInstrs b)) blocks bs.
Proof.
  assert (Happ : forall l r s, mapAccum f s (l ++ r) =
    let (l', s) := mapAccum f s l in let (r', s) := mapAccum f s r in (l' ++ r', s)).
  { induction l as [|x l IH]; intros r s0; cbn [mapAccum app]; [destruct (mapAccum f s0 r); reflexivity|].
    destruct (f s0 x) as [y s1]. rewrite IH. destruct (mapAccum f s1 l) as [l' s2].
    destruct (mapAccum f s2 r); reflexivity. }
  assert (Hlen : forall l s, List.length (fst (mapAccum f s l)) = List.length l).
  { induction l as [|x l IH]; intros s0; cbn [mapAccum]; [reflexivity|]. destruct (f s0 x) as [y s1].
    specialize (IH s1). destruct (mapAccum f s1 l). cbn in *. congruence. }
  revert s. induction blocks as [|b blocks IH]; intros s; cbn [mapAccum instrsOf flat_map]; [repeat constructor|].
  unfold overInstrs at 1. rewrite Happ. specialize (Hlen (bInstrs b) s).
  destruct (mapAccum f s (bInstrs b)) as [l1 s1]. specialize (IH s1). fold (instrsOf blocks).
  destruct (mapAccum (overInstrs f) s1 blocks) as [bs s2], (mapAccum f s1 (instrsOf blocks)) as [l2 s3].
  destruct IH as (<- & -> & H). cbn. split; [reflexivity|]. split; [reflexivity|].
  constructor; [|exact H]. cbn. auto.
Qed.

Section Pass.
Context {V M X : Type} {machine : Machine V M X} {ints : IntMachine machine}.
Context (fn : Function) (Hssa : ssa fn).

Abbreviation origin := (instrsOf (fBlocks fn)).

(** An instruction after some folding, against the one it was. *)
Definition foldedFrom (consts : constants) (i0 i : Instr) : Prop :=
  iResult i = iResult i0 /\ (i = i0 \/ iOp i = "const") /\ sameRun consts i0 i.

Record passInv (consts : constants) (cur : list Instr) : Prop := mkPassInv {
  pi_rel : Forall2 (foldedFrom consts) origin cur;
  pi_dom : forall i n, i ∈ cur -> consts !! resultName i = Some n -> iOp i = "const";
  pi_good : forall x n, consts !! x = Some n -> x <> "" /\ in_int64 n /\
    exists i0, i0 ∈ origin /\ resultName i0 = x /\ computes consts i0 (word (toWord n))
}.

Lemma defined_result i : i ∈ origin -> resultName i <> "" -> resultName i ∈ definedNames fn.
Proof.
  intros Hi Hne. apply list_elem_of_filter. split; [exact Hne|]. apply elem_of_app. right.
  apply list_elem_of_fmap_2, Hi.
Qed.

Lemma names_unique l1 x l2 y :
  NoDup (filter (fun x => x <> "") (l1 ++ x :: l2)) -> y ∈ l1 ++ l2 -> y = x -> x <> "" -> False.
Proof.
  intros Hnd Hy -> Hne. rewrite filter_app, filter_cons_True in Hnd by exact Hne.
  apply NoDup_app in Hnd as (_ & Hd & Hr). apply NoDup_cons in Hr as [Hr _].
  apply elem_of_app in Hy as [Hy|Hy].
  - apply (Hd x); [apply list_elem_of_filter; auto | left].
  - apply Hr, list_elem_of_filter. auto.
Qed.

Lemma NoDup_results : NoDup (filter (fun x => x <> "") (map resultName origin)).
Proof.
  pose proof (ssa_once _ Hssa) as H. unfold definedNames in H. rewrite filter_app in H.
  apply NoDup_app in H. apply H.
Qed.

(** One name, one instruction. *)
Lemma result_unique l i j : NoDup (filter (fun x => x <> "") (map resultName l)) ->
  i ∈ l -> j ∈ l -> resultName i = resultName j -> resultName i <> "" -> i = j.
Proof.
  intros Hnd Hi Hj Heq Hne. destruct (list_elem_of_split _ _ Hi) as (l1 & l2 & ->).
  rewrite map_app in Hnd. cbn [map] in Hnd. apply elem_of_app in Hj as [Hj|Hj].
  - exfalso. eapply (names_unique _ _ _ (resultName j) Hnd); [|symmetry; exact Heq|exact Hne].
    apply elem_of_app. left. apply list_elem_of_fmap_2, Hj.
  - apply elem_of_cons in Hj as [->|Hj]; [reflexivity|].
    exfalso. eapply (names_unique _ _ _ (resultName j) Hnd); [|symmetry; exact Heq|exact Hne].
    apply elem_of_app. right. apply list_elem_of_fmap_2, Hj.
Qed.

Lemma passInv_ok consts cur : passInv consts cur -> constsOk consts.
Proof.
  intros [_ _ Hg] x n Hx. destruct (Hg x n Hx) as (Hne & Hn & i0 & Hi & <- & _). split; [exact Hn|].
  intros ty. apply (ssa_literal _ Hssa). apply defined_result; assumption.
Qed.

Lemma passInv_names consts cur : passInv consts cur -> map resultName cur = map resultName origin.
Proof.
  intros [H _ _]. induction H as [|i0 i l0 l (Hr & _) _ IH]; [reflexivity|].
  cbn [map]. unfold resultName at 1 3. rewrite Hr, IH. reflexivity.
Qed.

Lemma foldedFrom_mono consts consts' i0 i : consts ⊆ consts' -> foldedFrom consts i0 i -> foldedFrom consts' i0 i.
Proof.
  intros Hsub (Hr & Hor & Hs). repeat split; auto. intros from e ρ m Hn Hres.
  apply Hs; [exact Hn | eapply respects_mono; eauto].
Qed.

Lemma computes_mono consts consts' i v : consts ⊆ consts' -> computes consts i v -> computes consts' i v.
Proof. intros Hsub H from e ρ m Hn Hr. apply H; [exact Hn | eapply respects_mono; eauto]. Qed.

(** Which instruction of the function one of the list is. *)
Lemma foldedFrom_split consts done i rest :
  Forall2 (foldedFrom consts) origin (done ++ i :: rest) ->
  exists done0 i0 rest0, origin = done0 ++ i0 :: rest0 /\ Forall2 (foldedFrom consts) done0 done /\
    foldedFrom consts i0 i /\ Forall2 (foldedFrom consts) rest0 rest.
Proof.
  intros H. apply Forall2_app_inv_r in H as (done0 & l & Hd & Hl & ->).
  apply Forall2_cons_inv_r in Hl as (i0 & rest0 & Hi & Hr & ->). eauto 8.
Qed.

Lemma plain_binary i : i ∈ origin -> HasPrefix (iOp i) "binary." = true -> iFields i = [] /\ iCleanups i = [].
Proof. intros Hi Hp. destruct (ssa_plain _ Hssa i Hi (or_intror Hp)) as (H1 & H2 & _). auto. Qed.

(** What a fold adds to the known constants is new. *)
Lemma fold_extends consts consts' done i rest :
  (forall j n, j ∈ done ++ i :: rest -> consts !! resultName j = Some n -> iOp j = "const") ->
  NoDup (filter (fun x => x <> "") (map resultName done ++ resultName i :: map resultName rest)) ->
  iOp i <> "const" -> i ∈ origin ->
  (consts' = consts \/ exists n, vType (iResult i) = "i64" /\ consts' = <[resultName i := n]> consts /\
     in_int64 n /\ computes consts i (word (toWord n))) ->
  consts ⊆ consts' /\
  (forall j n, j ∈ done ++ rest -> consts' !! resultName j = Some n -> consts !! resultName j = Some n) /\
  (forall x n, consts' !! x = Some n -> consts !! x = Some n \/
     x = resultName i /\ x <> "" /\ in_int64 n /\ computes consts i (word (toWord n))).
Proof.
  intros Hdom Hnd Hop Hi0 [->|(n & Ht & -> & Hn & Hcomp)]; [split; [reflexivity | auto]|].
  pose proof (ssa_named _ Hssa i Hi0 Ht) as Hne.
  assert (Hfresh : consts !! resultName i = None).
  { destruct (consts !! resultName i) as [k|] eqn:Hk; [|reflexivity]. exfalso. apply Hop.
    eapply Hdom; [|exact Hk]. apply elem_of_app. right. left. }
  split; [apply insert_subseteq, Hfresh|]. split.
  - intros j k Hj Hk. rewrite lookup_insert_ne in Hk; [exact Hk|]. intros Heq.
    eapply (names_unique _ _ _ (resultName j) Hnd); [|symmetry; exact Heq|exact Hne].
    apply elem_of_app. apply elem_of_app in Hj as [Hj|Hj]; [left|right]; apply list_elem_of_fmap_2, Hj.
  - intros x k Hk. apply lookup_insert_Some in Hk as [[<- <-]|[_ Hk]]; [right; auto | left; exact Hk].
Qed.

Lemma passInv_fold consts done i rest i' consts' :
  passInv consts (done ++ i :: rest) -> foldInstr i consts = Some (i', consts') ->
  passInv consts' (done ++ i' :: rest) /\ iOp i <> "const" /\ iOp i' = "const".
Proof.
  intros I Hf. pose proof (passInv_ok _ _ I) as Hok. pose proof (passInv_names _ _ I) as Hnames.
  destruct I as [Hrel Hdom Hgood].
  destruct (foldedFrom_split _ _ _ _ Hrel) as (d0 & i0 & r0 & Horig & Hd & (Hres & Hor & Hsame) & Hr).
  assert (Hi0 : i0 ∈ origin) by (rewrite Horig; apply elem_of_app; right; left).
  assert (Heq : iOp i <> "const" -> i = i0) by (intros ?; destruct Hor; [assumption | contradiction]).
  assert (Hop : iOp i <> "const").
  { unfold foldInstr in Hf. destruct (iArgs i) as [|? [|? [|]]]; try discriminate.
    destruct (String.eqb_spec (iOp i) "const"); [discriminate | assumption]. }
  specialize (Heq Hop). subst i0.
  destruct (foldInstr_spec _ _ _ _ Hok Hf (plain_binary i Hi0)) as (H1 & _ & H3 & _ & _ & _ & H7 & H8).
  assert (Hnd : NoDup (filter (fun x => x <> "") (map resultName done ++ resultName i :: map resultName rest))).
  { pose proof NoDup_results as H. rewrite <- Hnames, map_app in H. exact H. }
  destruct (fold_extends consts consts' done i rest Hdom Hnd Hop Hi0 H8) as (Hsub & Hother & Hnew).
  split; [|auto]. split.
  - rewrite Horig. apply Forall2_app; [eapply Forall2_impl; [exact Hd | intros ? ?; apply foldedFrom_mono, Hsub]|].
    constructor; [|eapply Forall2_impl; [exact Hr | intros ? ?; apply foldedFrom_mono, Hsub]].
    apply (foldedFrom_mono consts); [exact Hsub|]. split; [exact H1 | auto].
  - intros j n Hj Hk. apply elem_of_app in Hj as [Hj|Hj%elem_of_cons].
    + eapply Hdom; [apply elem_of_app; left; exact Hj | apply Hother; [rewrite elem_of_app; auto | exact Hk]].
    + destruct Hj as [->|Hj]; [exact H3|].
      eapply Hdom; [apply elem_of_app; right; right; exact Hj | apply Hother; [rewrite elem_of_app; auto | exact Hk]].
  - intros x n Hk. destruct (Hnew x n Hk) as [Hk'|(-> & Hne & Hn & Hcomp)].
    + destruct (Hgood x n Hk') as (Hne & Hn & j & Hj & Hjx & Hcomp). split; [exact Hne|]. split; [exact Hn|].
      exists j. split; [exact Hj|]. split; [exact Hjx | eapply computes_mono; eauto].
    + split; [exact Hne|]. split; [exact Hn|]. exists i. split; [exact Hi0|]. split; [reflexivity | eapply computes_mono; eauto].
Qed.
End Pass.

(** ** The loop *)

(** Instructions a pass could still fold. *)
Definition pending (l : list Instr) : nat := List.length (filter (fun i => iOp i <> "const") l).

Lemma pending_cons i l : pending (i :: l) = (if decide (iOp i <> "const") then 1 else 0) + pending l.
Proof. unfold pending. rewrite filter_cons. case_decide; reflexivity. Qed.

Lemma foldInstr_op i consts i' consts' :
  foldInstr i consts = Some (i', consts') -> iOp i <> "const" /\ iOp i' = "const".
Proof.
  unfold foldInstr. destruct (iArgs i) as [|a [|b [|]]]; try discriminate.
  destruct (String.eqb_spec (iOp i) "const"); [discriminate|].
  destruct (integerConstant a consts), (integerConstant b consts); try discriminate.
  destruct (String.eqb _ "i64"); [destruct (foldBinary _ _ _); [|discriminate] |
    destruct (String.eqb _ "bool"); [destruct (foldComparison _ _ _); [|discriminate] | discriminate]];
    intros [= <- <-]; auto.
Qed.

Lemma pass_pending st l :
  let (l', st') := mapAccum foldOne st l in
  pending l' <= pending l /\ (st'.2 = true -> st.2 = true \/ pending l' < pending l).
Proof.
  revert st. induction l as [|i l IH]; intros st; cbn [mapAccum]; [split; auto|].
  unfold foldOne at 1. destruct (foldInstr i st.1) as [[i' consts]|] eqn:Hf.
  - apply foldInstr_op in Hf as [Hop Hop']. specialize (IH (consts, true)).
    destruct (mapAccum foldOne (consts, true) l) as [l' st']. destruct IH as [H1 _].
    rewrite !pending_cons. rewrite decide_False by tauto. rewrite decide_True by exact Hop. lia.
  - specialize (IH st). destruct (mapAccum foldOne st l) as [l' st']. destruct IH as [H1 H2].
    rewrite !pending_cons. case_decide; split; try lia; intros H3; destruct (H2 H3); auto; right; lia.
Qed.

Lemma foldLoop_total fuel consts blocks :
  pending (instrsOf blocks) < fuel -> foldLoop fuel consts blocks <> None.
Proof.
  revert consts blocks. induction fuel as [|fuel IH]; intros consts blocks Hf; [lia|].
  cbn [foldLoop]. unfold foldPass. pose proof (mapAccum_flat foldOne (consts, false) blocks) as H.
  pose proof (pass_pending (consts, false) (instrsOf blocks)) as Hp.
  destruct (mapAccum (overInstrs foldOne) (consts, false) blocks) as [bs [c ch]].
  destruct (mapAccum foldOne (consts, false) (instrsOf blocks)) as [l st].
  destruct H as (<- & <- & _). destruct Hp as [_ Hp]. destruct ch; [|discriminate].
  apply IH. destruct (Hp eq_refl) as [Hc|Hc]; [discriminate | lia].
Qed.

Lemma constantFoldFunction_total fn : constantFoldFunction fn <> None.
Proof.
  unfold constantFoldFunction, foldBound.
  destruct (foldLoop _ _ (fBlocks fn)) eqn:H; [discriminate|]. exfalso. revert H. apply foldLoop_total.
  pose proof (length_filter (fun i => iOp i <> "const") (instrsOf (fBlocks fn))).
  unfold pending, instrsOf in *. lia.
Qed.

Definition sameSkeleton (b b' : Block) : Prop :=
  bName b' = bName b /\ bTerminator b' = bTerminator b /\ List.length (bInstrs b') = List.length (bInstrs b).

Lemma skeleton_names l l' : Forall2 sameSkeleton l l' -> map bName l' = map bName l.
Proof. induction 1 as [|b b' l l' (E & _) _ IH]; [reflexivity|]. cbn [map]. congruence. Qed.

Section Loop.
Context {V M X : Type} {machine : Machine V M X} {ints : IntMachine machine}.
Context (fn : Function) (Hssa : ssa fn).

Lemma passInv_accum consts ch done rest :
  passInv fn consts (done ++ rest) ->
  let (rest', st) := mapAccum foldOne (consts, ch) rest in passInv fn st.1 (done ++ rest').
Proof.
  revert consts ch done. induction rest as [|i rest IH]; intros consts ch done I; cbn [mapAccum]; [exact I|].
  unfold foldOne at 1. cbn [fst]. destruct (foldInstr i consts) as [[i' consts']|] eqn:Hf.
  - destruct (passInv_fold fn Hssa _ _ _ _ _ _ I Hf) as [I' _].
    specialize (IH consts' true (done ++ [i'])). rewrite <- app_assoc in IH. specialize (IH I').
    destruct (mapAccum foldOne (consts', true) rest). rewrite <- app_assoc in IH. exact IH.
  - specialize (IH consts ch (done ++ [i])). rewrite <- app_assoc in IH. specialize (IH I).
    destruct (mapAccum foldOne (consts, ch) rest). rewrite <- app_assoc in IH. exact IH.
Qed.

Lemma foldLoop_inv fuel consts blocks blocks' :
  passInv fn consts (instrsOf blocks) -> Forall2 sameSkeleton (fBlocks fn) blocks ->
  foldLoop fuel consts blocks = Some blocks' ->
  Forall2 sameSkeleton (fBlocks fn) blocks' /\ exists consts', passInv fn consts' (instrsOf blocks').
Proof.
  revert consts blocks. induction fuel as [|fuel IH]; intros consts blocks I Hs; [discriminate|].
  cbn [foldLoop]. unfold foldPass. pose proof (mapAccum_flat foldOne (consts, false) blocks) as H.
  pose proof (passInv_accum consts false [] (instrsOf blocks) I) as I'.
  destruct (mapAccum (overInstrs foldOne) (consts, false) blocks) as [bs [c ch]].
  destruct (mapAccum foldOne (consts, false) (instrsOf blocks)) as [l st].
  destruct H as (<- & <- & Hb). cbn [fst app] in I'.
  assert (Hs' : Forall2 sameSkeleton (fBlocks fn) bs).
  { clear -Hs Hb. revert bs Hb. induction Hs as [|b0 b l0 l (H1 & H2 & H3) _ IHs]; intros bs Hb.
    - inversion Hb. constructor.
    - inversion Hb as [|? b' ? l' (E1 & E2 & E3)]; subst. constructor; [|auto].
      unfold sameSkeleton. split; [congruence|]. split; congruence. }
  destruct ch; [apply IH; assumption|]. intros [= <-]. eauto.
Qed.

(** *** What is known before the first pass *)

Lemma recorded consts0 l x n :
  foldl recordConstant consts0 l !! x = Some n ->
  consts0 !! x = Some n \/ exists i, i ∈ l /\ resultName i = x /\ iOp i = "const" /\
    vType (iResult i) = "i64" /\ ParseInt (iImmediate i) = Some n.
Proof.
  revert consts0. induction l as [|i l IH]; intros consts0 H; cbn [foldl] in H; [auto|].
  apply IH in H as [H|(j & Hj & H)]; [|right; exists j; split; [right; exact Hj | exact H]].
  unfold recordConstant in H. destruct (String.eqb_spec (iOp i) "const"); cbn [negb orb] in H; [|auto].
  destruct (String.eqb_spec (vType (iResult i)) "i64"); cbn [negb] in H; [|auto].
  destruct (ParseInt (iImmediate i)) as [k|] eqn:Hk; [|auto].
  apply lookup_insert_Some in H as [[<- <-]|[_ H]]; [|auto].
  right. exists i. split; [left|]. auto.
Qed.

Lemma recordConstants_flat consts blocks :
  recordConstants consts blocks = foldl recordConstant consts (instrsOf blocks).
Proof.
  revert consts. induction blocks as [|b blocks IH]; intros consts; [reflexivity|].
  cbn [recordConstants foldl instrsOf flat_map]. rewrite foldl_app. apply IH.
Qed.

Lemma constant_recorded x n :
  recordConstants ∅ (fBlocks fn) !! x = Some n ->
  exists i, i ∈ instrsOf (fBlocks fn) /\ resultName i = x /\ iOp i = "const" /\
    vType (iResult i) = "i64" /\ ParseInt (iImmediate i) = Some n.
Proof.
  rewrite recordConstants_flat. intros H. apply recorded in H as [H|H]; [|exact H].
  rewrite lookup_empty in H. discriminate.
Qed.

Lemma passInv_start : passInv fn (recordConstants ∅ (fBlocks fn)) (instrsOf (fBlocks fn)).
Proof.
  split.
  - apply Forall_Forall2_diag, Forall_forall. intros i _. split; [reflexivity|]. split; [auto|].
    intros from e ρ m _ _. right. reflexivity.
  - intros i n Hi Hx. destruct (constant_recorded _ _ Hx) as (j & Hj & Heq & Hop & Ht & _).
    assert (j = i) as <-; [|exact Hop].
    eapply result_unique; [apply (NoDup_results fn Hssa) | exact Hj | exact Hi | exact Heq |].
    apply (ssa_named _ Hssa); assumption.
  - intros x n Hx. destruct (constant_recorded _ _ Hx) as (j & Hj & <- & Hop & Ht & Hp).
    split; [apply (ssa_named _ Hssa); assumption|]. split; [eapply ParseInt_range, Hp|].
    exists j. split; [exact Hj|]. split; [reflexivity|]. intros from e ρ m _ _. right.
    destruct (ssa_plain _ Hssa j Hj (or_introl Hop)) as (Hf & Hc & Ha).
    rewrite runInstr_plain by (auto; rewrite Hop; discriminate). rewrite (Ha Hop).
    apply (const_int (shape j)); assumption.
Qed.
End Loop.

(** ** Lockstep *)

Section Lockstep.
Context {V M X : Type} {machine : Machine V M X} {ints : IntMachine machine}.
Context (fn : Function) (Hssa : ssa fn) (consts : constants).
Context (Hgood : forall x n, consts !! x = Some n -> x <> "" /\ in_int64 n /\
  exists i0, i0 ∈ instrsOf (fBlocks fn) /\ resultName i0 = x /\ computes consts i0 (word (toWord n))).

Definition envOk (ρ : gmap string V) : Prop := namesOk ρ /\ respects consts ρ.

Lemma envOk_assign ρ i v from e m m' :
  envOk ρ -> i ∈ instrsOf (fBlocks fn) -> runInstr from e ρ m i = Next v m' -> envOk (assign ρ i v).
Proof.
  intros [Hn Hr] Hi Hrun. unfold assign. destruct (String.eqb_spec (vName (iResult i)) "") as [|Hne]; [split; assumption|].
  split.
  - intros x w ty Hx. apply lookup_insert_Some in Hx as [[<- _]|[_ Hx]]; [|eapply Hn, Hx].
    apply (ssa_literal _ Hssa), (defined_result fn); assumption.
  - intros x n w Hx Hw. apply lookup_insert_Some in Hw as [[<- <-]|[_ Hw]]; [|eapply Hr; eauto].
    destruct (Hgood _ _ Hx) as (_ & _ & i0 & Hi0 & Heq & Hcomp).
    assert (i0 = i) as ->.
    { eapply result_unique; [apply (NoDup_results fn Hssa) | exact Hi0 | exact Hi | exact Heq |].
      rewrite Heq. exact Hne. }
    destruct (Hcomp from e ρ m Hn Hr) as [E|E]; congruence.
Qed.

Definition sameEnd (r r' : gmap string V * M + outcome V M X) : Prop :=
  match r with
  | inl (ρ, m) => r' = inl (ρ, m) /\ envOk ρ
  | inr o => o <> Stuck -> r' = inr o
  end.

Lemma fold_runInstrs from e ρ m l0 l :
  Forall2 (foldedFrom consts) l0 l -> (forall i, i ∈ l0 -> i ∈ instrsOf (fBlocks fn)) -> envOk ρ ->
  sameEnd (runInstrs from e ρ m l0) (runInstrs from e ρ m l).
Proof.
  intros H. revert ρ m. induction H as [|i0 i l0 l (Hres & _ & Hsame) _ IH]; intros ρ m Hin Hok; cbn [runInstrs].
  { split; [reflexivity | exact Hok]. }
  destruct (Hsame from e ρ m (proj1 Hok) (proj2 Hok)) as [E|E]; [rewrite E; intros []; reflexivity|].
  rewrite E. destruct (runInstr from e ρ m i0) as [v m'|x|] eqn:Hrun.
  - replace (assign ρ i v) with (assign ρ i0 v) by (unfold assign; rewrite Hres; reflexivity).
    apply IH; [intros j Hj; apply Hin; right; exact Hj|].
    eapply envOk_assign; [exact Hok | apply Hin; left | exact Hrun].
  - intros _. reflexivity.
  - intros []. reflexivity.
Qed.

Context (blocks : list Block) (Hskel : Forall2 sameSkeleton (fBlocks fn) blocks).
Context (Hrel : Forall2 (foldedFrom consts) (instrsOf (fBlocks fn)) (instrsOf blocks)).

Abbreviation after := (set_fBlocks (fun _ => blocks) fn).

Lemma folded_block cur b :
  fBlocks fn !! cur = Some b ->
  exists b', blocks !! cur = Some b' /\ bName b' = bName b /\ bTerminator b' = bTerminator b /\
    Forall2 (foldedFrom consts) (bInstrs b) (bInstrs b').
Proof.
  revert cur. clear Hgood. revert Hrel. generalize (fBlocks fn) Hskel. clear Hskel.
  induction 1 as [|b0 b0' l l' (H1 & H2 & H3) _ IH]; intros Hr cur Hb; [discriminate|].
  cbn [instrsOf flat_map] in Hr. apply Forall2_app_inv in Hr as [Hr1 Hr2]; [|congruence].
  destruct cur as [|cur]; cbn in Hb |- *; [injection Hb as <-; eauto | apply IH; assumption].
Qed.

Lemma fold_runBlocks fuel from cur ρ m :
  envOk ρ -> refines (runBlocks fuel fn from cur ρ m) (runBlocks fuel after from cur ρ m).
Proof.
  revert from cur ρ m. induction fuel as [|fuel IH]; intros from cur ρ m Hok Hs; [reflexivity|].
  revert Hs. cbn [runBlocks]. cbn [fBlocks set_fBlocks].
  destruct (fBlocks fn !! cur) as [b|] eqn:Hb; [|intros []; reflexivity].
  destruct (folded_block cur b Hb) as (b' & -> & Hname & Hterm & Hinstrs).
  pose proof (fold_runInstrs from ρ ρ m _ _ Hinstrs) as H.
  specialize (H ltac:(intros i Hi; apply list_elem_of_In, in_flat_map; exists b;
                      split; apply list_elem_of_In; [eapply list_elem_of_lookup_2, Hb | exact Hi]) Hok).
  destruct (runInstrs from ρ ρ m (bInstrs b)) as [[ρ1 m1]|o].
  - destruct H as [-> Hok1]. rewrite Hname, Hterm.
    destruct (runTerminator ρ1 m1 (bTerminator b)) as [target|o]; [|reflexivity].
    rewrite (blockIndex_names after fn).
    2: { apply skeleton_names, Hskel. }
    destruct (blockIndex fn !! target) as [next|]; [|intros []; reflexivity]. apply IH, Hok1.
  - intros Hs. rewrite H by exact Hs. reflexivity.
Qed.

Lemma envOk_params args : envOk (bindParams (fParams fn) args).
Proof.
  assert (Hdom : forall x v, bindParams (fParams fn) args !! x = Some v -> x ∈ map pName (fParams fn)).
  { intros x v Hx. apply elem_of_list_to_map_2, elem_of_zip_l in Hx. exact Hx. }
  split.
  - intros x v ty Hx.
    apply (ssa_literal _ Hssa), list_elem_of_filter. split; [|apply elem_of_app; left; eapply Hdom, Hx].
    intros ->. apply (ssa_params _ Hssa). eapply Hdom, Hx.
  - intros x n v Hx Hv. exfalso. destruct (Hgood x n Hx) as (Hne & _ & i & Hi & <- & _).
    pose proof (ssa_once _ Hssa) as Hnd. unfold definedNames in Hnd. rewrite filter_app in Hnd.
    apply NoDup_app in Hnd as (_ & Hd & _). apply (Hd (resultName i)); apply list_elem_of_filter; split; auto.
    + eapply Hdom, Hv.
    + apply list_elem_of_fmap_2, Hi.
Qed.
End Lockstep.

Lemma constant_fold_keeps {V M X} {machine : Machine V M X} {ints : IntMachine machine} fn fn' :
  ssa fn -> constantFoldFunction fn = Some fn' -> keeps fn fn'.
Proof.
  intros Hssa H. unfold constantFoldFunction in H. destruct (foldLoop _ _ _) as [blocks|] eqn:Hf; [|discriminate].
  injection H as <-.
  assert (Hrefl : Forall2 sameSkeleton (fBlocks fn) (fBlocks fn)).
  { apply Forall_Forall2_diag, Forall_forall. intros b _. repeat split. }
  destruct (foldLoop_inv fn Hssa _ _ _ _ (passInv_start fn Hssa) Hrefl Hf) as (Hskel & consts & [Hrel _ Hgood]).
  intros fuel args m Hs. unfold runFunction.
  apply (fold_runBlocks fn Hssa consts Hgood blocks Hskel Hrel); [apply envOk_params; assumption | exact Hs].
Qed.
