(* ===== verification/Reachable.v ===== *)
(** * Worklists, and what reachability keeps ([internal/ir/reachable.go])

    The compiler closes several relations the same way: a set of what was
    reached, a queue of what is left to read, and a rule that queues each name
    at most once.  The loop is proved
    once, then used by the pruning of functions and error sets. *)

From stdpp Require Import base list strings gmap sets relations sorting.
From Stdlib Require Import Lia String ZArith Ascii.
From S2P Require Import Prelude GoStd IR Verify.

Section Worklist.
Context (allowed : string -> bool) (next : string -> list string).

(** Queue one name, unless it is not allowed or was reached before. *)
Definition enqueue (st : gset string * list string) (name : string) : gset string * list string :=
  if negb (allowed name) || bool_decide (name ∈ st.1) then st
  else ({[name]} ∪ st.1, st.2 ++ [name]).

(** [for len(queue) > 0 { name := queue[0]; queue = queue[1:]; ... }] *)
Fixpoint worklist (fuel : nat) (seen : gset string) (queue : list string) : option (gset string) :=
  match queue with
  | [] => Some seen
  | name :: queue =>
      match fuel with
      | O => None
      | S fuel =>
          let st := foldl enqueue (seen, queue) (next name) in
          worklist fuel st.1 st.2
      end
  end.

(** One step of the relation the loop closes. *)
Definition edge (a b : string) : Prop := b ∈ next a /\ allowed b = true.

Definition reachableFrom (start : gset string) (x : string) : Prop :=
  exists s, s ∈ start /\ rtc edge s x.

(** What queueing a list of names does. *)
Lemma enqueue_list names seen queue :
  exists new, foldl enqueue (seen, queue) names = (list_to_set new ∪ seen, queue ++ new) /\
    NoDup new /\ (forall x, x ∈ new -> x ∈ names /\ allowed x = true /\ x ∉ seen) /\
    forall x, x ∈ names -> allowed x = true -> x ∈ new \/ x ∈ seen.
Proof.
  revert seen queue. induction names as [|name names IH]; intros seen queue; cbn [foldl].
  { exists []. cbn [list_to_set]. rewrite app_nil_r, (left_id_L ∅ (∪)). split; [reflexivity|].
    split; [constructor|]. split; intros x Hx; inversion Hx. }
  unfold enqueue at 2. cbn [fst snd].
  destruct (allowed name) eqn:Ha; cbn [negb orb]; [case_bool_decide as Hs|].
  - destruct (IH seen queue) as (new & -> & Hnd & Hnew & Hall). exists new. split; [reflexivity|].
    split; [exact Hnd|]. split; [intros x Hx; destruct (Hnew x Hx) as (? & ? & ?); repeat split; auto; right; auto|].
    intros x [->|Hx]%elem_of_cons Hax; auto.
  - destruct (IH ({[name]} ∪ seen) (queue ++ [name])) as (new & -> & Hnd & Hnew & Hall).
    exists (name :: new). cbn [list_to_set]. rewrite <- app_assoc. split; [f_equal; set_solver|].
    split.
    { apply NoDup_cons. split; [|exact Hnd]. intros Hin. destruct (Hnew _ Hin) as (_ & _ & Hn). set_solver. }
    split.
    + intros x [->|Hx]%elem_of_cons; [repeat split; auto; left|].
      destruct (Hnew x Hx) as (H1 & H2 & H3). repeat split; [right; exact H1 | exact H2 | set_solver].
    + intros x [->|Hx]%elem_of_cons Hax; [left; left|]. destruct (Hall x Hx Hax) as [H|H]; [left; right; exact H|].
      apply elem_of_union in H as [H%elem_of_singleton|H]; [subst; left; left | right; exact H].
  - destruct (IH seen queue) as (new & -> & Hnd & Hnew & Hall). exists new. split; [reflexivity|].
    split; [exact Hnd|]. split; [intros x Hx; destruct (Hnew x Hx) as (? & ? & ?); repeat split; auto; right; auto|].
    intros x [->|Hx]%elem_of_cons Hax; [congruence | auto].
Qed.

(** The loop's invariant: everything reached is reachable, and what was read
    already is closed. *)
Record wlInv (start seen : gset string) (queue : list string) : Prop := mkWlInv {
  wl_start : start ⊆ seen;
  wl_queue : forall x, x ∈ queue -> x ∈ seen;
  wl_sound : forall x, x ∈ seen -> reachableFrom start x;
  wl_closed : forall x y, x ∈ seen -> x ∉ queue -> edge x y -> y ∈ seen
}.

Lemma wlInv_step start seen name queue :
  wlInv start seen (name :: queue) ->
  let st := foldl enqueue (seen, queue) (next name) in wlInv start st.1 st.2.
Proof.
  intros [Hst Hq Hso Hcl]. destruct (enqueue_list (next name) seen queue) as (new & -> & _ & Hnew & Hall).
  cbn [fst snd]. split.
  - set_solver.
  - intros x [Hx|Hx]%elem_of_app; apply elem_of_union; [right; apply Hq; right; exact Hx|].
    left. apply elem_of_list_to_set, Hx.
  - intros x [Hx%elem_of_list_to_set|Hx]%elem_of_union; [|auto].
    destruct (Hnew x Hx) as (Hn & Ha & _). destruct (Hso name) as (s & Hs & Hr); [apply Hq; left|].
    exists s. split; [exact Hs|]. eapply rtc_r; [exact Hr | split; assumption].
  - intros x y Hx Hxq [Hy Hay]. apply elem_of_union.
    assert (Hxn : x ∉ new) by (intros Hx'; apply Hxq, elem_of_app; right; exact Hx').
    apply elem_of_union in Hx as [Hx%elem_of_list_to_set|Hx]; [contradiction|].
    destruct (decide (x = name)) as [->|Hne].
    + destruct (Hall y Hy Hay) as [H|H]; [left; apply elem_of_list_to_set, H | right; exact H].
    + right. eapply Hcl; [exact Hx | | split; eassumption].
      intros [->|Hin]%elem_of_cons; [contradiction|]. apply Hxq, elem_of_app. left. exact Hin.
Qed.

Lemma wlInv_end start seen : wlInv start seen [] -> forall x, x ∈ seen <-> reachableFrom start x.
Proof.
  intros [Hst _ Hso Hcl] x. split; [apply Hso|]. intros (s & Hs & Hr).
  apply Hst in Hs. clear Hst Hso. induction Hr as [|s y x Hxy _ IH]; [exact Hs|].
  apply IH. eapply Hcl; [exact Hs | apply not_elem_of_nil | exact Hxy].
Qed.

(** Names the loop can still reach bound its rounds. *)
Lemma worklist_spec (bound : gset string) start fuel seen queue :
  (forall a b, edge a b -> b ∈ bound) ->
  wlInv start seen queue -> List.length queue + size (bound ∖ seen) <= fuel ->
  exists seen', worklist fuel seen queue = Some seen' /\ forall x, x ∈ seen' <-> reachableFrom start x.
Proof.
  intros Hb. revert seen queue. induction fuel as [|fuel IH]; intros seen queue I Hf; destruct queue as [|name queue];
    try (exists seen; split; [reflexivity | apply wlInv_end, I]); [cbn in Hf; lia|].
  cbn [worklist]. apply IH; [apply wlInv_step, I|].
  destruct (enqueue_list (next name) seen queue) as (new & -> & Hnd & Hnew & _). cbn [fst snd].
  rewrite length_app. cbn [List.length] in Hf.
  assert (Hsize : List.length new + size (bound ∖ (list_to_set new ∪ seen)) <= size (bound ∖ seen)).
  { rewrite <- (size_list_to_set (C := gset string) new Hnd), <- size_union by set_solver.
    apply subseteq_size. intros x [Hx%elem_of_list_to_set|Hx]%elem_of_union; [|set_solver].
    destruct (Hnew x Hx) as (H1 & H2 & H3). apply elem_of_difference. split; [eapply Hb; split; eassumption | exact H3]. }
  lia.
Qed.

Lemma wlInv_start (names : list string) :
  wlInv (list_to_set names) (list_to_set names) names.
Proof.
  split; [reflexivity | intros x Hx; apply elem_of_list_to_set, Hx | |].
  - intros x Hx. exists x. split; [exact Hx | constructor].
  - intros x y Hx Hq. apply elem_of_list_to_set in Hx. contradiction.
Qed.
End Worklist.

(** * Keeping what is reached ([internal/ir/reachable.go])

    The closure over direct calls and taken addresses from the roots and the
    exports, and the pruning of error sets no kept function names. *)

#[local] Open Scope string_scope.
#[local] Open Scope list_scope.

(** [directCallees] *)
Definition directCallees (fn : Function) : list string :=
  flat_map (fun b => flat_map (fun i =>
    match directCallee (iOp i) with
    | Some callee => if String.eqb (iExternABI i) "" then [callee] else []
    | None => []
    end ++
    flat_map (fun c => match directCallee (clOp c) with
      | Some callee => if String.eqb (clExternABI c) "" then [callee] else []
      | None => []
      end) (iCleanups i)) (bInstrs b)) (fBlocks fn).

(** [functions]: a later function of the same name wins. *)
Definition functionsByName (fns : list Function) : gmap string Function :=
  foldl (fun functions fn => <[fName fn := fn]> functions) ∅ fns.

Definition defined (functions : gmap string Function) (name : string) : bool :=
  bool_decide (is_Some (functions !! name)).

(** [enqueueReachableFunction] *)
Definition enqueueReachableFunction (functions : gmap string Function) :=
  enqueue (defined functions).

Definition exported (exportABI : string) (allExports : bool) (fn : Function) : bool :=
  negb (String.eqb (fExportABI fn) "") && (allExports || String.eqb (fExportABI fn) exportABI).

(** [seedReachableFunctions] *)
Definition seedReachableFunctions (m : Module_) (functions : gmap string Function) (exportABI : string)
    (allExports : bool) (roots : list string) : gset string * list string :=
  let st := foldl (enqueueReachableFunction functions) (∅, []) roots in
  foldl (fun st fn => if exported exportABI allExports fn
                      then enqueueReachableFunction functions st (fName fn) else st) st (mFunctions m).

(** What the loop reads from one reached function. *)
Definition calleesOf (functions : gmap string Function) (name : string) : list string :=
  match functions !! name with Some fn => directCallees fn | None => [] end.

(** [typeNames]: the runs of name bytes and colons of a type spelling. *)
Definition isTypeNameByte (c : ascii) : bool :=
  Ascii.eqb c "_" || Ascii.eqb c ":" ||
  (nat_of_ascii "0" <=? nat_of_ascii c)%nat && (nat_of_ascii c <=? nat_of_ascii "9")%nat ||
  (nat_of_ascii "a" <=? nat_of_ascii c)%nat && (nat_of_ascii c <=? nat_of_ascii "z")%nat ||
  (nat_of_ascii "A" <=? nat_of_ascii c)%nat && (nat_of_ascii c <=? nat_of_ascii "Z")%nat.

Fixpoint typeNamesFrom (word : string) (s : string) : list string :=
  match s with
  | EmptyString => if String.eqb word "" then [] else [word]
  | String c rest =>
      if isTypeNameByte c then typeNamesFrom (String.append word (String c "")) rest
      else (if String.eqb word "" then [] else [word]) ++ typeNamesFrom "" rest
  end.

Definition typeNames (spelling : string) : list string := typeNamesFrom "" spelling.

(** The type spellings [KeepReferencedErrorSets] notes, in order. *)
Definition notedTypes (fns : list Function) : list string :=
  flat_map (fun fn =>
    map pType (fParams fn) ++ [fReturn fn] ++
    flat_map (fun b =>
      flat_map (fun i => vType (iResult i) :: map vType (iArgs i) ++ [iImmediate i]) (bInstrs b) ++
      [vType (tValue (bTerminator b))]) (fBlocks fn)) fns.

(** [referenced] before the queue: the error sets those spellings name. *)
Definition referencedSets (m : Module_) : gset string :=
  list_to_set (List.filter (fun name => bool_decide (is_Some (mErrorSets m !! name)))
                 (flat_map typeNames (notedTypes (mFunctions m)))).

Definition originsOf (m : Module_) (name : string) : list string :=
  match mErrorSets m !! name with Some set => eOrigins set | None => [] end.

(** Every name the queue can hold. *)
Definition allOrigins (m : Module_) : gset string :=
  list_to_set (flat_map (fun entry : string * Enum => eOrigins entry.2) (map_to_list (mErrorSets m))).

(** [KeepReferencedErrorSets]; the order of the queue does not show. *)
Definition KeepReferencedErrorSets (m : Module_) : option Module_ :=
  let start := referencedSets m in
  referenced ← worklist (fun _ => true) (originsOf m) (size start + size (allOrigins m)) start (elements start);
  Some (set_mErrorSets (filter (fun entry => entry.1 ∈ referenced)) m).

(** [keepReachableFunctions] *)
Definition keepReachableFunctions (m : Module_) (exportABI : string) (allExports : bool)
    (roots : list string) : option Module_ :=
  let functions := functionsByName (mFunctions m) in
  let (reachable, queue) := seedReachableFunctions m functions exportABI allExports roots in
  match queue with
  | [] => Some m
  | _ =>
      reachable ← worklist (defined functions) (calleesOf functions)
                    (List.length queue + size (dom functions)) reachable queue;
      KeepReferencedErrorSets
        (set_mFunctions (List.filter (fun fn => bool_decide (fName fn ∈ reachable))) m)
  end.

(** [KeepReachableFunctions] *)
Definition KeepReachableFunctions (m : Module_) (roots : list string) : option Module_ :=
  keepReachableFunctions m "" true roots.

(** [KeepTargetReachableFunctions] *)
Definition KeepTargetReachableFunctions (m : Module_) (exportABI : string) (roots : list string)
  : option Module_ := keepReachableFunctions m exportABI false roots.

(** * What the linker is handed ([LinkInputs] of [internal/ir/ir.go]) *)

(** The foreign names of the calls and the cleanups, in the order of the code. *)
Definition externNames (m : Module_) : list string :=
  flat_map (fun fn => flat_map (fun b => flat_map (fun i =>
    List.filter (fun name => negb (String.eqb name "")) (iExternName i :: map clExternName (iCleanups i)))
    (bInstrs b)) (fBlocks fn)) (mFunctions m).

(** One half of [visit]: a name that is not empty and not seen is appended;
    the list holds exactly the names seen. *)
Definition note (name : string) (found : list string) : list string :=
  if String.eqb name "" || bool_decide (name ∈ found) then found else found ++ [name].

(** [visit] *)
Definition visitExtern (m : Module_) (st : list string * list string) (name : string) : list string * list string :=
  match mExterns m !! name with
  | None => st
  | Some extern => (note (exLibrary extern) st.1, note (exFramework extern) st.2)
  end.

(** [LinkInputs]: [sort.Strings] orders by bytes. *)
Definition LinkInputs (m : Module_) : list string * list string :=
  let (libraries, frameworks) := foldl (visitExtern m) ([], []) (externNames m) in
  (merge_sort String.le libraries, merge_sort String.le frameworks).

(** ** What is linked *)

Lemma note_elem name found x : x ∈ note name found <-> x ∈ found \/ x = name /\ name <> "".
Proof.
  unfold note. destruct (String.eqb_spec name "") as [->|Hne]; [naive_solver|]. cbn [orb].
  case_bool_decide; [naive_solver|]. rewrite elem_of_app, list_elem_of_singleton. naive_solver.
Qed.

Lemma note_NoDup name found : NoDup found -> NoDup (note name found).
Proof.
  intros H. unfold note. destruct (String.eqb name ""); [exact H|]. cbn [orb]. case_bool_decide; [exact H|].
  apply NoDup_app. split; [exact H|]. split; [|apply NoDup_singleton].
  intros x Hx Hin. apply list_elem_of_singleton in Hin. subst x. contradiction.
Qed.

Lemma visit_elem m names st :
  let st' := foldl (visitExtern m) st names in
  (NoDup st.1 -> NoDup st'.1) /\ (NoDup st.2 -> NoDup st'.2) /\
  (forall x, x ∈ st'.1 <-> x ∈ st.1 \/ x <> "" /\ exists name e, name ∈ names /\ mExterns m !! name = Some e /\ exLibrary e = x) /\
  (forall x, x ∈ st'.2 <-> x ∈ st.2 \/ x <> "" /\ exists name e, name ∈ names /\ mExterns m !! name = Some e /\ exFramework e = x).
Proof.
  revert st. induction names as [|name names IH]; intros st; cbn [foldl].
  { split; [auto|]. split; [auto|]. split; intros x; set_solver. }
  destruct (IH (visitExtern m st name)) as (H1 & H2 & H3 & H4). unfold visitExtern in *.
  destruct (mExterns m !! name) as [e|] eqn:He; cbn [fst snd] in *.
  - split; [intros H; apply H1, note_NoDup, H|]. split; [intros H; apply H2, note_NoDup, H|].
    split; intros x; [rewrite H3 | rewrite H4]; rewrite note_elem; set_solver.
  - split; [exact H1|]. split; [exact H2|]. split; intros x; [rewrite H3 | rewrite H4]; set_solver.
Qed.

(** A foreign function an instruction or a cleanup of the module still calls. *)
Inductive callsForeign (m : Module_) : string -> Prop :=
  | called_by_instr fn b i : fn ∈ mFunctions m -> b ∈ fBlocks fn -> i ∈ bInstrs b -> iExternName i <> "" ->
      callsForeign m (iExternName i)
  | called_by_cleanup fn b i c : fn ∈ mFunctions m -> b ∈ fBlocks fn -> i ∈ bInstrs b -> c ∈ iCleanups i ->
      clExternName c <> "" -> callsForeign m (clExternName c).

Lemma externNames_calls m name : name ∈ externNames m <-> callsForeign m name.
Proof.
  unfold externNames. rewrite list_elem_of_In, in_flat_map. split.
  - intros (fn & Hfn & (b & Hb & (i & Hi & [Hin Hne]%filter_In)%in_flat_map)%in_flat_map).
    apply list_elem_of_In in Hfn, Hb, Hi. apply negb_true_iff, String.eqb_neq in Hne.
    destruct Hin as [<-|(c & <- & Hc)%in_map_iff]; [eapply called_by_instr; eassumption|].
    apply list_elem_of_In in Hc. eapply called_by_cleanup; eassumption.
  - assert (Hkeep : forall x l, x <> "" -> In x l -> In x (List.filter (fun n => negb (String.eqb n "")) l)).
    { intros x l Hx Hl. apply filter_In. split; [exact Hl|]. apply negb_true_iff, String.eqb_neq, Hx. }
    intros [fn b i Hfn Hb Hi Hne|fn b i c Hfn Hb Hi Hc Hne]; exists fn; (split; [apply list_elem_of_In, Hfn|]);
      apply in_flat_map; exists b; (split; [apply list_elem_of_In, Hb|]); apply in_flat_map; exists i;
      (split; [apply list_elem_of_In, Hi|]); apply Hkeep; [exact Hne | left; reflexivity | exact Hne | right].
    apply in_map, list_elem_of_In, Hc.
Qed.

(** C39. The libraries and frameworks handed to the linker are sorted, each
    occurs once, and they are exactly the named ones of the declarations that
    an instruction or a cleanup of the module still calls. *)
Theorem link_inputs_exact m :
  let (libraries, frameworks) := LinkInputs m in
  (NoDup libraries /\ Sorted String.le libraries /\
   forall x, x ∈ libraries <-> x <> "" /\ exists name e, callsForeign m name /\ mExterns m !! name = Some e /\ exLibrary e = x) /\
  (NoDup frameworks /\ Sorted String.le frameworks /\
   forall x, x ∈ frameworks <-> x <> "" /\ exists name e, callsForeign m name /\ mExterns m !! name = Some e /\ exFramework e = x).
Proof.
  unfold LinkInputs. destruct (visit_elem m (externNames m) ([], [])) as (H1 & H2 & H3 & H4).
  destruct (foldl _ _ _) as [libraries frameworks]. cbn [fst snd] in *. setoid_rewrite <- externNames_calls.
  split; (split; [rewrite merge_sort_Permutation; auto using NoDup_nil_2|]; split; [apply Sorted_merge_sort, _|]);
    intros x; rewrite merge_sort_Permutation; [rewrite H3 | rewrite H4]; set_solver.
Qed.
