(* ===== verification/ReachableTheorems.v ===== *)
(** * What the reachability pruning promises ([internal/ir/reachable.go]) *)

From stdpp Require Import base list strings gmap sets relations.
From Stdlib Require Import ZArith Lia String.
From S2P Require Import Prelude GoStd IR Verify Reachable.

#[local] Open Scope string_scope.
#[local] Open Scope list_scope.

(** ** The specification *)

(** An operation of a function that the language's own calling convention
    runs: an instruction's or a cleanup's. *)
Definition runsOp (fn : Function) (op : string) : Prop :=
  exists b i, b ∈ fBlocks fn /\ i ∈ bInstrs b /\
    ((iExternABI i = "" /\ iOp i = op) \/ exists c, c ∈ iCleanups i /\ clExternABI c = "" /\ clOp c = op).

(** A function calls another one directly or takes its address. *)
Definition refersToName (fn : Function) (name : string) : Prop :=
  exists op, runsOp fn op /\ (op = "func.addr." +:+ name \/ op = "call." +:+ name /\ op <> "call.indirect").

Section Live.
Context (m : Module_) (exportABI : string) (allExports : bool) (roots : list string).

Abbreviation functions := (functionsByName (mFunctions m)).

(** A requested root or a selected export the module defines. *)
Definition isEntry (name : string) : Prop :=
  is_Some (functions !! name) /\
  (name ∈ roots \/ exists fn, fn ∈ mFunctions m /\ fExportABI fn <> "" /\ (allExports = true \/ fExportABI fn = exportABI) /\ fName fn = name).

(** [a] calls [b] or takes its address, and the module defines [b]. *)
Definition refersTo (a b : string) : Prop :=
  exists fn, functions !! a = Some fn /\ refersToName fn b /\ is_Some (functions !! b).

Definition live (name : string) : Prop := exists r, isEntry r /\ rtc refersTo r name.
End Live.

(** ** Facts *)

Lemma directCallee_spec op name :
  directCallee op = Some name <-> op = "func.addr." +:+ name \/ op = "call." +:+ name /\ op <> "call.indirect".
Proof.
  unfold directCallee. destruct (CutPrefix op "func.addr.") as [rest|] eqn:Hc.
  - apply CutPrefix_Some in Hc as ->. split; [intros [= ->]; auto|].
    intros [H|[H _]]; [apply (f_equal (fun s => CutPrefix s "func.addr.")) in H; rewrite !CutPrefix_app in H; congruence | discriminate H].
  - assert (Hno : forall n, op <> "func.addr." +:+ n) by (intros n ->; rewrite CutPrefix_app in Hc; discriminate).
    destruct (String.eqb_spec op "call.indirect") as [->|Hi]; [split; [discriminate | intros [H|[_ H]]; [apply Hno in H; destruct H | contradiction]]|].
    destruct (HasPrefix op "call.") eqn:Hp.
    + apply HasPrefix_true in Hp as [rest ->]. unfold TrimPrefix. rewrite CutPrefix_app. split; [intros [= ->]; auto|].
      intros [H|[H _]]; [apply Hno in H; destruct H|].
      apply (f_equal (fun s => CutPrefix s "call.")) in H. rewrite !CutPrefix_app in H. congruence.
    + split; [discriminate|]. intros [H|[-> _]]; [apply Hno in H; destruct H|].
      assert (HasPrefix ("call." +:+ name) "call." = true) by (apply HasPrefix_true; eauto). congruence.
Qed.

(** The names one call test gives. *)
Lemma callee_elem op abi name :
  name ∈ match directCallee op with Some callee => if String.eqb abi "" then [callee] else [] | None => [] end <->
  abi = "" /\ directCallee op = Some name.
Proof.
  destruct (directCallee op) as [callee|]; [|rewrite elem_of_nil; split; [intros [] | intros [_ H]; discriminate H]].
  destruct (String.eqb_spec abi "") as [->|Hne].
  - rewrite list_elem_of_singleton. split; [intros ->; auto | intros [_ [= ->]]; reflexivity].
  - rewrite elem_of_nil. split; [intros [] | intros [H _]; contradiction].
Qed.

Lemma directCallees_spec fn name : name ∈ directCallees fn <-> refersToName fn name.
Proof.
  unfold directCallees, refersToName, runsOp. rewrite list_elem_of_In, in_flat_map.
  setoid_rewrite in_flat_map. setoid_rewrite in_app_iff. setoid_rewrite in_flat_map.
  repeat setoid_rewrite <- list_elem_of_In. setoid_rewrite callee_elem. setoid_rewrite directCallee_spec. split.
  - intros (b & Hb & i & Hi & [[Ha Ho]|(c & Hc & Ha & Ho)]).
    + exists (iOp i). split; [exists b, i; auto | exact Ho].
    + exists (clOp c). split; [exists b, i; eauto 8 | exact Ho].
  - intros (op & (b & i & Hb & Hi & [[Ha <-]|(c & Hc & Ha & <-)]) & Ho); exists b; (split; [exact Hb|]); exists i;
      (split; [exact Hi|]); eauto 8.
Qed.

Lemma functionsByName_dom fns name :
  is_Some (functionsByName fns !! name) <-> exists fn, fn ∈ fns /\ fName fn = name.
Proof.
  unfold functionsByName. assert (H : forall acc : gmap string Function, is_Some (foldl (fun functions fn => <[fName fn := fn]> functions) acc fns !! name) <->
    is_Some (acc !! name) \/ exists fn, fn ∈ fns /\ fName fn = name).
  { induction fns as [|fn fns IH]; intros acc; cbn [foldl].
    { split; [auto | intros [H|(fn & H & _)]; [exact H | inversion H]]. }
    rewrite IH, lookup_insert_is_Some'. split.
    - intros [[H|H]|(g & Hg & Hn)]; [right; exists fn; split; [left | exact H] | auto | right; exists g; split; [right; exact Hg | exact Hn]].
    - intros [H|(g & [->|Hg]%elem_of_cons & Hn)]; [auto | left; left; exact Hn | right; eauto]. }
  rewrite H, lookup_empty. split; [intros [[x Hx]|Hf]; [discriminate | exact Hf] | auto].
Qed.

Lemma functionsByName_unique fns fn :
  NoDup (map fName fns) -> fn ∈ fns -> functionsByName fns !! fName fn = Some fn.
Proof.
  unfold functionsByName. generalize (∅ : gmap string Function). induction fns as [|g fns IH]; intros acc Hnd Hin; [inversion Hin|].
  cbn [map foldl] in *. apply NoDup_cons in Hnd as [Hg Hnd]. apply elem_of_cons in Hin as [->|Hin]; [|auto].
  clear IH. assert (Hacc : <[fName g := g]> acc !! fName g = Some g) by apply lookup_insert_eq.
  revert Hacc. generalize (<[fName g := g]> acc). induction fns as [|h fns IHf]; intros a Ha; [exact Ha|].
  cbn [foldl map] in *. apply not_elem_of_cons in Hg as [Hne Hg]. apply NoDup_cons in Hnd as [_ Hnd].
  apply IHf; [exact Hg | exact Hnd |]. rewrite lookup_insert_ne by congruence. exact Ha.
Qed.

Section Seed.
Context (functions : gmap string Function).

(** The set is the queue, and the queue holds what was asked and is defined. *)
Definition seeded (st : gset string * list string) (P : string -> Prop) : Prop :=
  st.1 = list_to_set st.2 /\ forall x, x ∈ st.2 <-> P x.

Lemma seeded_enqueue st P name :
  seeded st P ->
  seeded (enqueueReachableFunction functions st name) (fun x => P x \/ x = name /\ is_Some (functions !! x)).
Proof.
  intros [H1 H2]. unfold enqueueReachableFunction, enqueue, defined.
  case_bool_decide as Hd; cbn [negb orb].
  - case_bool_decide as Hs.
    + split; [exact H1|]. intros x. rewrite H2. split; [auto|]. intros [H|[-> _]]; [exact H|].
      apply H2. rewrite H1, elem_of_list_to_set in Hs. exact Hs.
    + split; cbn [fst snd].
      * rewrite H1, list_to_set_app_L. cbn. rewrite (right_id_L ∅ (∪)). apply (comm_L (∪)).
      * intros x. rewrite elem_of_app, H2, list_elem_of_singleton.
        split; [intros [H|H]; [auto|right; split; [exact H | subst; exact Hd]] | tauto].
  - split; [exact H1|]. intros x. rewrite H2. split; [auto|]. intros [H|[-> H]]; [exact H | contradiction].
Qed.

Lemma seeded_iff st (P Q : string -> Prop) : (forall x, P x <-> Q x) -> seeded st P -> seeded st Q.
Proof. intros H [H1 H2]. split; [exact H1|]. intros x. rewrite H2. apply H. Qed.

Lemma seeded_roots roots st P :
  seeded st P ->
  seeded (foldl (enqueueReachableFunction functions) st roots)
         (fun x => P x \/ x ∈ roots /\ is_Some (functions !! x)).
Proof.
  revert st P. induction roots as [|r roots IH]; intros st P H; cbn [foldl].
  { eapply seeded_iff; [|exact H]. intros x. split; [auto | intros [?|[Hx _]]; [assumption | inversion Hx]]. }
  eapply seeded_iff; [|apply IH, seeded_enqueue, H]. intros x. cbn beta. rewrite elem_of_cons. naive_solver.
Qed.

Lemma exported_spec exportABI allExports fn :
  exported exportABI allExports fn = true <-> fExportABI fn <> "" /\ (allExports = true \/ fExportABI fn = exportABI).
Proof. unfold exported. rewrite andb_true_iff, negb_true_iff, orb_true_iff, String.eqb_neq, String.eqb_eq. reflexivity. Qed.

Lemma seeded_exports exportABI allExports fns st P :
  seeded st P ->
  seeded (foldl (fun st fn => if exported exportABI allExports fn
                              then enqueueReachableFunction functions st (fName fn) else st) st fns)
         (fun x => P x \/ is_Some (functions !! x) /\
            exists fn, fn ∈ fns /\ exported exportABI allExports fn = true /\ fName fn = x).
Proof.
  revert st P. induction fns as [|fn fns IH]; intros st P H; cbn [foldl].
  { eapply seeded_iff; [|exact H]. intros x. split; [auto | intros [?|(_ & g & Hg & _)]; [assumption | inversion Hg]]. }
  destruct (exported exportABI allExports fn) eqn:He.
  - eapply seeded_iff; [|apply IH, seeded_enqueue, H]. intros x. cbn beta. setoid_rewrite elem_of_cons. naive_solver.
  - eapply seeded_iff; [|apply IH, H]. intros x. cbn beta. setoid_rewrite elem_of_cons.
    split; [naive_solver|]. intros [HP|(Hx & g & [->|Hg] & Hg2 & Hg3)]; [auto | congruence | right; eauto 6].
Qed.
End Seed.

Lemma seed_spec m exportABI allExports roots :
  seeded (seedReachableFunctions m (functionsByName (mFunctions m)) exportABI allExports roots)
    (isEntry m exportABI allExports roots).
Proof.
  unfold seedReachableFunctions. eapply seeded_iff; [|apply seeded_exports, seeded_roots].
  2: { instantiate (1 := fun _ => False). split; [reflexivity|]. intros x. cbn. rewrite elem_of_nil. reflexivity. }
  intros x. unfold isEntry. cbn beta. setoid_rewrite exported_spec. naive_solver.
Qed.

(** ** Error sets *)

(** [a] is a combined set that takes members from [b]. *)
Definition hasOrigin (m : Module_) (a b : string) : Prop := b ∈ originsOf m a.

Lemma rtc_iff {A} (R Q : A -> A -> Prop) x y : (forall a b, R a b <-> Q a b) -> rtc R x y <-> rtc Q x y.
Proof. intros H. split; (induction 1 as [x|x y z Hxy _ IH]; [constructor | econstructor; [apply H, Hxy | exact IH]]). Qed.

Lemma error_sets_spec m :
  exists m', KeepReferencedErrorSets m = Some m' /\ mFunctions m' = mFunctions m /\
    forall name set, mErrorSets m' !! name = Some set <->
      mErrorSets m !! name = Some set /\ exists s, s ∈ referencedSets m /\ rtc (hasOrigin m) s name.
Proof.
  unfold KeepReferencedErrorSets.
  destruct (worklist_spec (fun _ => true) (originsOf m) (allOrigins m) (referencedSets m)
    (size (referencedSets m) + size (allOrigins m)) (referencedSets m) (elements (referencedSets m)))
    as (seen & -> & Hseen).
  - intros a b [Hb _]. unfold originsOf in Hb. destruct (mErrorSets m !! a) as [e|] eqn:He; [|inversion Hb].
    apply elem_of_list_to_set, list_elem_of_In, in_flat_map. exists (a, e).
    split; [apply list_elem_of_In, elem_of_map_to_list, He | apply list_elem_of_In, Hb].
  - pose proof (wlInv_start (fun _ => true) (originsOf m) (elements (referencedSets m))) as H.
    rewrite list_to_set_elements_L in H. exact H.
  - change (List.length (elements (referencedSets m))) with (size (referencedSets m)).
    pose proof (subseteq_size (allOrigins m ∖ referencedSets m) (allOrigins m) ltac:(set_solver)). lia.
  - cbn [mbind option_bind]. eexists. split; [reflexivity|]. split; [reflexivity|].
    intros name set. cbn [mErrorSets set_mErrorSets]. rewrite map_lookup_filter_Some. cbn [fst].
    rewrite Hseen. unfold reachableFrom.
    assert (H : forall s, rtc (edge (fun _ => true) (originsOf m)) s name <-> rtc (hasOrigin m) s name).
    { intros s. apply rtc_iff. intros a b. unfold edge, hasOrigin. tauto. }
    setoid_rewrite H. reflexivity.
Qed.

(** ** Properties *)

Lemma keep_functions_spec m exportABI allExports roots :
  exists m', keepReachableFunctions m exportABI allExports roots = Some m' /\
    ((forall name, ~ isEntry m exportABI allExports roots name) -> m' = m) /\
    ((exists name, isEntry m exportABI allExports roots name) ->
     sublist (mFunctions m') (mFunctions m) /\
     forall fn, fn ∈ mFunctions m' <-> fn ∈ mFunctions m /\ live m exportABI allExports roots (fName fn)).
Proof.
  unfold keepReachableFunctions. pose proof (seed_spec m exportABI allExports roots) as Hseed.
  destruct (seedReachableFunctions _ _ _ _ _) as [seen queue]. destruct Hseed as [Hset Hq]. cbn [fst snd] in *.
  destruct queue as [|q0 queue].
  { exists m. split; [reflexivity|]. split; [reflexivity|]. intros [name Hn]. apply Hq in Hn. inversion Hn. }
  set (q := q0 :: queue) in *. set (functions := functionsByName (mFunctions m)) in *.
  destruct (worklist_spec (defined functions) (calleesOf functions) (dom functions) (list_to_set q)
    (List.length q + size (dom functions)) (list_to_set q) q) as (seen' & Hwl & Hlive).
  - intros a b [_ Hb]. apply bool_decide_eq_true in Hb. apply elem_of_dom, Hb.
  - apply wlInv_start.
  - pose proof (subseteq_size (dom functions ∖ list_to_set q) (dom functions) ltac:(set_solver)). lia.
  - rewrite Hset, Hwl. cbn [mbind option_bind].
    destruct (error_sets_spec (set_mFunctions (List.filter (fun fn => bool_decide (fName fn ∈ seen'))) m)) as (m' & -> & Hf & _).
    exists m'. split; [reflexivity|]. split; [intros H; destruct (H q0); apply Hq; left|]. intros _. rewrite Hf.
    cbn [mFunctions set_mFunctions]. split.
    { clear. induction (mFunctions m) as [|fn l IH]; cbn [List.filter]; [constructor|].
      destruct (bool_decide _); constructor; exact IH. }
    intros fn. rewrite !list_elem_of_In, filter_In, bool_decide_eq_true, Hlive. unfold reachableFrom, live.
    assert (H : forall s, rtc (edge (defined functions) (calleesOf functions)) s (fName fn) <-> rtc (refersTo m) s (fName fn)).
    { intros s. apply rtc_iff. intros a b. unfold edge, refersTo, calleesOf, defined. fold functions.
      setoid_rewrite <- directCallees_spec.
      rewrite bool_decide_eq_true. destruct (functions !! a) as [g|] eqn:Hg; [naive_solver|].
      split; [intros [Hb _]; inversion Hb | intros (? & ? & _); discriminate]. }
    setoid_rewrite H. setoid_rewrite elem_of_list_to_set. setoid_rewrite Hq. reflexivity.
Qed.

(** C32. Pruning ends on every module. Without a defined root or export it
    changes nothing; otherwise it keeps, in their order, exactly the functions
    some root or selected export reaches over direct calls and taken addresses. *)
Theorem keep_reachable_exact m exportABI allExports roots :
  exists m', keepReachableFunctions m exportABI allExports roots = Some m' /\
    ((forall name, ~ isEntry m exportABI allExports roots name) -> m' = m) /\
    ((exists name, isEntry m exportABI allExports roots name) ->
     sublist (mFunctions m') (mFunctions m) /\
     forall fn, fn ∈ mFunctions m' <-> fn ∈ mFunctions m /\ live m exportABI allExports roots (fName fn)).
Proof. apply keep_functions_spec. Qed.

(** Pruning leaves no dangling reference: when function names are unique,
    every function of the module that a kept function calls or takes the
    address of is kept too. *)
Theorem keep_reachable_closed m exportABI allExports roots m' fn callee g :
  NoDup (map fName (mFunctions m)) ->
  keepReachableFunctions m exportABI allExports roots = Some m' ->
  fn ∈ mFunctions m' -> refersToName fn callee -> g ∈ mFunctions m -> fName g = callee ->
  g ∈ mFunctions m'.
Proof.
  intros Hnd Hk Hfn Hc Hg Hn. destruct (keep_functions_spec m exportABI allExports roots) as (m1 & Hk1 & H1 & H2).
  assert (m1 = m') as -> by congruence.
  set (queue := (seedReachableFunctions m (functionsByName (mFunctions m)) exportABI allExports roots).2).
  destruct (decide (queue = [])) as [He|He]; unfold queue in He.
  - rewrite H1; [exact Hg|]. intros name Hen.
    apply (proj2 (seed_spec m exportABI allExports roots)) in Hen. rewrite He in Hen. inversion Hen.
  - destruct (seedReachableFunctions _ _ _ _ _).2 as [|q0 q] eqn:Hq; [contradiction|]. clear queue.
    assert (Hex : exists name, isEntry m exportABI allExports roots name).
    { exists q0. apply (proj2 (seed_spec m exportABI allExports roots)). rewrite Hq. left. }
    destruct (H2 Hex) as [_ H3]. apply H3 in Hfn as [Hfm (r & Hr & Hrtc)]. apply H3.
    split; [exact Hg|]. exists r. split; [exact Hr|]. eapply rtc_r; [exact Hrtc|].
    exists fn. split; [apply functionsByName_unique; assumption|]. rewrite Hn. split; [exact Hc|].
    rewrite <- Hn. apply functionsByName_dom. eauto.
Qed.

Definition sample_calls : Module_ :=
  let f name ops := mkFunction name [] "void"
    [mkBlock "entry" (map (fun op => instr (mkValue "" "void") op [] "") ops) (ret (mkValue "" "void"))] "" "" in
  mkModule ∅ ∅ ∅ ∅ [f "main" ["call.a"; "call.print"]; f "dead" ["call.a"]; f "a" ["func.addr.b"]; f "b" ["call.a"]] ∅.

Lemma keep_reachable_closed_witness :
  exists m', keepReachableFunctions sample_calls "" true ["main"] = Some m' /\
    map fName (mFunctions m') = ["main"; "a"; "b"] /\
    forall g, g ∈ mFunctions sample_calls -> fName g = "b" -> g ∈ mFunctions m'.
Proof.
  destruct (keepReachableFunctions sample_calls "" true ["main"]) as [m'|] eqn:Hk; [|vm_compute in Hk; discriminate].
  exists m'. split; [reflexivity|].
  assert (Hm : map fName (mFunctions m') = ["main"; "a"; "b"] /\ (mFunctions sample_calls !! 2) = (mFunctions m' !! 1)).
  { vm_compute in Hk. injection Hk as <-. split; vm_compute; reflexivity. }
  destruct Hm as [Hm Ha]. split; [exact Hm|]. intros g Hg Hn.
  destruct (mFunctions m' !! 1) as [fa|] eqn:Hfa; [|discriminate Ha].
  eapply (keep_reachable_closed sample_calls "" true ["main"] m' fa "b" g); [| exact Hk | | | exact Hg | exact Hn].
  - apply (bool_decide_unpack _). vm_compute. exact I.
  - eapply list_elem_of_lookup_2, Hfa.
  - cbn in Ha. injection Ha as <-. apply directCallees_spec. left.
Defined.

(** The pruning of error sets ends, touches nothing else, and keeps a set
    exactly when some kept function names it in a type or a set kept for that
    reason takes members from it. *)
Theorem error_sets_exact m :
  exists m', KeepReferencedErrorSets m = Some m' /\ mFunctions m' = mFunctions m /\
    forall name set, mErrorSets m' !! name = Some set <->
      mErrorSets m !! name = Some set /\ exists s, s ∈ referencedSets m /\ rtc (hasOrigin m) s name.
Proof. apply error_sets_spec. Qed.
