(* ===== verification/Ssa.v ===== *)
(** * Executions of a function with one definition per name

    Histories of program points, where a name is defined, and what a verified
    function guarantees at a point: shared by the proofs about passes that
    replace one name by another. *)

From stdpp Require Import base list strings gmap.
From Stdlib Require Import ZArith Lia String.
From S2P Require Import Prelude GoStd IR Cfg CfgFacts Verify VerifyFacts Optimize Dce.

#[local] Open Scope string_scope.
#[local] Open Scope list_scope.

(** One definition per name, and a name for every phi. *)
Record definesOnce (fn : Function) : Prop := mkDefinesOnce {
  once_nodup : NoDup (filter (fun x => x <> "") (map resultName (instrsOf (fBlocks fn))));
  once_phis : forall i, i ∈ instrsOf (fBlocks fn) -> iOp i = "phi" -> resultName i <> ""
}.

(** The instruction at a point. *)
Definition instrAt (fn : Function) (p s : nat) (i : Instr) : Prop :=
  exists b, fBlocks fn !! p = Some b /\ bInstrs b !! s = Some i.

Lemma instrAt_in fn p s i : instrAt fn p s i -> i ∈ instrsOf (fBlocks fn).
Proof.
  intros (b & Hb & Hi). apply list_elem_of_In, in_flat_map. exists b.
  split; apply list_elem_of_In; eapply list_elem_of_lookup_2; eauto.
Qed.

Lemma instrAt_steps fn p s i : instrAt fn p s i -> s < stepsOf fn p.
Proof. intros (b & Hb & Hi). unfold stepsOf. rewrite Hb. eapply lookup_lt_Some, Hi. Qed.

(** ** The definition map finds the one definition *)

Lemma defineSteps_other p step instrs defined x :
  x ∉ map resultName instrs -> defineSteps p step instrs defined !! x = defined !! x.
Proof.
  revert step defined. induction instrs as [|i instrs IH]; intros step defined Hx; [reflexivity|].
  cbn [map] in Hx. apply not_elem_of_cons in Hx as [Hne Hx]. cbn [defineSteps]. rewrite IH by exact Hx.
  destruct (String.eqb _ ""); [reflexivity|]. apply lookup_insert_ne. unfold resultName in Hne. congruence.
Qed.

Lemma defineSteps_at p step l1 i l2 defined :
  resultName i <> "" -> resultName i ∉ map resultName l2 ->
  defineSteps p step (l1 ++ i :: l2) defined !! resultName i = Some (mkDefinition p (step + List.length l1)).
Proof.
  intros Hne Hl2. revert step defined. induction l1 as [|j l1 IH]; intros step defined; cbn [app defineSteps List.length].
  - rewrite defineSteps_other by exact Hl2. unfold resultName in *.
    rewrite (proj2 (String.eqb_neq _ _) Hne), lookup_insert_eq, Nat.add_0_r. reflexivity.
  - rewrite IH. do 2 f_equal; lia.
Qed.

Lemma defineBlocks_other p blocks defined x :
  x ∉ map resultName (instrsOf blocks) -> defineBlocks p blocks defined !! x = defined !! x.
Proof.
  revert p defined. induction blocks as [|b blocks IH]; intros p defined Hx; [reflexivity|].
  unfold instrsOf in Hx. cbn [flat_map] in Hx. rewrite map_app in Hx. apply not_elem_of_app in Hx as [H1 H2].
  cbn [defineBlocks]. rewrite IH by exact H2. apply defineSteps_other, H1.
Qed.

Lemma defineBlocks_at p l1 b l2 i1 i i2 defined :
  bInstrs b = i1 ++ i :: i2 -> resultName i <> "" ->
  resultName i ∉ map resultName i2 -> resultName i ∉ map resultName (instrsOf l2) ->
  defineBlocks p (l1 ++ b :: l2) defined !! resultName i =
  Some (mkDefinition (p + List.length l1) (List.length i1)).
Proof.
  intros Hb Hne H1 H2. revert p defined. induction l1 as [|c l1 IH]; intros p defined; cbn [app defineBlocks List.length].
  - rewrite defineBlocks_other by exact H2. rewrite Hb, defineSteps_at by assumption. rewrite Nat.add_0_r. reflexivity.
  - rewrite IH. do 2 f_equal; lia.
Qed.

Lemma definition_at fn p s i :
  definesOnce fn -> instrAt fn p s i -> resultName i <> "" ->
  valueDefiningBlocks fn !! resultName i = Some (mkDefinition p s).
Proof.
  intros [Hnd _] (b & Hb & Hi) Hne.
  apply list_elem_of_split_length in Hb as (l1 & l2 & Hblocks & ->).
  apply list_elem_of_split_length in Hi as (i1 & i2 & Hinstrs & ->).
  unfold valueDefiningBlocks. rewrite Hblocks in Hnd |- *.
  unfold instrsOf in Hnd. rewrite flat_map_app in Hnd. cbn [flat_map] in Hnd. rewrite Hinstrs in Hnd.
  rewrite <- app_assoc in Hnd.
  change ((i :: i2) ++ flat_map bInstrs l2) with (i :: (i2 ++ flat_map bInstrs l2)) in Hnd.
  rewrite app_assoc, map_app in Hnd. cbn [map] in Hnd.
  rewrite (defineBlocks_at 0 l1 b l2 i1 i i2); [reflexivity | exact Hinstrs | exact Hne | |];
    intros Hin; eapply (names_unique _ _ _ (resultName i) Hnd); auto;
    apply elem_of_app; right; rewrite map_app; apply elem_of_app; auto.
Qed.

(** ** Histories *)

(** Control reaches every step of a reachable block. *)
Lemma exec_steps fn h from p s :
  exec fn h from p 0 -> s <= stepsOf fn p -> exists h', exec fn h' from p s.
Proof.
  intros He. induction s as [|s IH]; intros Hs; [eauto|].
  destruct IH as [h' H]; [lia|]. exists (h' ++ [(p, s)]). apply exec_instr; [exact H | lia].
Qed.

Lemma exec_reach fn p s :
  reach (succs fn) 0 p -> s <= stepsOf fn p -> exists h from, exec fn h from p s.
Proof.
  intros [l Hl]. revert s. induction Hl as [|l b c _ IH Hc]; intros s Hs.
  - destruct (exec_steps fn [] None 0 s) as [h H]; [constructor | exact Hs | eauto].
  - destruct (IH (stepsOf fn b)) as (h & from & H); [lia|].
    destruct (exec_steps fn h (Some b) c s) as [h' H']; [econstructor; eauto | exact Hs | eauto].
Qed.

(** Each point of a history was next once. *)
Lemma exec_prefix fn h from p s h1 d h2 :
  exec fn h from p s -> h = h1 ++ d :: h2 -> exists from', exec fn h1 from' d.1 d.2.
Proof.
  intros He. revert h2. induction He as [|h from p s He IH Hs|h from p q He IH Hq]; intros h2 Heq.
  - destruct h1; discriminate.
  - destruct h2 as [|x h2' _] using rev_ind.
    + apply app_inj_tail in Heq as [-> <-]. eauto.
    + rewrite app_comm_cons, app_assoc in Heq. apply app_inj_tail in Heq as [-> <-]. eapply IH. reflexivity.
  - eapply IH, Heq.
Qed.
