(* ===== verification/Simplify.v ===== *)
(** * Branch simplification ([internal/ir/simplify.go])

    Constant branches become jumps, unreachable blocks and the phi values from
    them go, trivial phis become the value they merge, and the tests of
    results that cannot fail are answered.  [None] is a loop that does not
    end: the chase of replacements in [replaceFunctionValues] is the only one
    that can, on a cycle. *)

From stdpp Require Import base list strings gmap.
From Stdlib Require Import ZArith Lia String.
From S2P Require Import Prelude GoStd IR Cfg Optimize.

#[local] Open Scope string_scope.
#[local] Open Scope list_scope.

(** ** [replaceFunctionValues] of [internal/ir/inline.go] *)

Abbreviation replacements_map := (gmap string Value).

(** [resolve]: follow a replacement that is itself replaced.  A chain without
    a cycle visits each replaced name at most once. *)
Fixpoint resolveFrom (fuel : nat) (replacements : replacements_map) (value : Value) : option Value :=
  match replacements !! vName value with
  | None => Some value
  | Some next =>
      match fuel with
      | O => None
      | S fuel => resolveFrom fuel replacements next
      end
  end.

Definition resolve (replacements : replacements_map) : Value -> option Value :=
  resolveFrom (size replacements) replacements.

(** The reads of one instruction, each rewritten by a function that may not
    end. *)
Definition mapReadsM (f : Value -> option Value) (i : Instr) : option Instr :=
  args ← mapM f (iArgs i);
  incoming ← mapM (fun inc => mkIncoming (inBlock inc) <$> f (inValue inc)) (iIncoming i);
  fields ← mapM (fun fa => mkFieldArg (faName fa) <$> f (faValue fa)) (iFields i);
  cleanups ← mapM (fun c => (fun args => mkCleanup (clOp c) args (clLoads c) (clExternABI c) (clExternName c)
                     (clCallParams c) (clVariadicFixed c) (clOnError c) (clReceiver c)) <$> mapM f (clArgs c))
               (iCleanups i);
  Some (mkInstr (iResult i) (iOp i) args (iExternABI i) (iExternName i) (iCallParams i)
          (iVariadicFixed i) (iImmediate i) fields incoming cleanups (iSpan i)).

Definition mapBlockReadsM (f : Value -> option Value) (b : Block) : option Block :=
  instrs ← mapM (mapReadsM f) (bInstrs b);
  value ← f (tValue (bTerminator b));
  cond ← f (tCond (bTerminator b));
  Some (mkBlock (bName b) instrs
          (mkTerminator (tOp (bTerminator b)) value cond (tTarget (bTerminator b)) (tElse (bTerminator b)))).

Definition replaceFunctionValues (blocks : list Block) (replacements : replacements_map)
  : option (list Block) :=
  mapM (mapBlockReadsM (resolve replacements)) blocks.

(** ** Results that are known *)

Definition succeededNames (blocks : list Block) : gset string :=
  list_to_set (flat_map (fun b => flat_map (fun i =>
    match iArgs i with
    | [] => if String.eqb (iOp i) "error.ok" then [vName (iResult i)] else []
    | _ => []
    end) (bInstrs b)) blocks).

(** The loop body of [foldKnownResults]: [None] drops the instruction. *)
Definition foldKnownResult (succeeded : gset string) (i : Instr) : option Instr :=
  match iArgs i with
  | [arg] =>
      if bool_decide (vName arg ∈ succeeded) then
        if String.eqb (iOp i) "error.try" && String.eqb (vType (iResult i)) "void" then None
        else if String.eqb (iOp i) "error.has" then Some (become_const "true" i)
        else Some i
      else Some i
  | _ => Some i
  end.

(** [foldKnownResults] *)
Definition foldKnownResults (blocks : list Block) : list Block :=
  let succeeded := succeededNames blocks in
  map (set_bInstrs (omap (foldKnownResult succeeded))) blocks.

(** ** Branches *)

(** [known]: a later constant of the same name wins. *)
Definition knownConditions (blocks : list Block) : gmap string bool :=
  foldl (fun known b => foldl (fun known i =>
    if String.eqb (iOp i) "const" && String.eqb (vType (iResult i)) "bool"
    then <[vName (iResult i) := String.eqb (iImmediate i) "true"]> known else known) known (bInstrs b))
    ∅ blocks.

(** [dead]: the blocks that hold nothing but [unreachable]. *)
Definition deadBlocks (blocks : list Block) : gset string :=
  list_to_set (map bName (List.filter (fun b =>
    match bInstrs b with [] => String.eqb (tOp (bTerminator b)) "unreachable" | _ => false end) blocks)).

(** [branchTaken] *)
Definition branchTaken (term : Terminator) (known : gmap string bool) (dead : gset string) : option bool :=
  if negb (String.eqb (tOp term) "branch") then None
  else match known !! vName (tCond term) with
  | Some taken => Some taken
  | None =>
      if bool_decide (tElse term ∈ dead) && negb (bool_decide (tTarget term ∈ dead)) then Some true
      else if bool_decide (tTarget term ∈ dead) && negb (bool_decide (tElse term ∈ dead)) then Some false
      else None
  end.

(** The inner loop of [dropIncoming]: the first value from [from] goes. *)
Fixpoint dropFirst (from : string) (incoming : list Incoming) : list Incoming :=
  match incoming with
  | [] => []
  | inc :: rest => if String.eqb (inBlock inc) from then rest else inc :: dropFirst from rest
  end.

(** [dropIncoming] *)
Definition dropIncoming (blocks : list Block) (target from : string) : list Block :=
  map (fun b => if String.eqb (bName b) target
    then set_bInstrs (map (fun i => if String.eqb (iOp i) "phi" then set_iIncoming (dropFirst from) i else i)) b
    else b) blocks.

(** The second loop of [simplifyBranchesIn], at one position. *)
Definition simplifyBlock (known : gmap string bool) (dead : gset string) (st : list Block * bool) (position : nat)
  : list Block * bool :=
  match st.1 !! position with
  | None => st
  | Some b =>
      let term := bTerminator b in
      match branchTaken term known dead with
      | None => st
      | Some taken =>
          let (target, dropped) := if taken : bool then (tTarget term, tElse term) else (tElse term, tTarget term) in
          let blocks := alter (set_bTerminator (fun _ => jump target)) position st.1 in
          (dropIncoming blocks dropped (bName b), true)
      end
  end.

(** ** Unreachable blocks *)

(** The stack walk of [removeUnreachableBlocks]. *)
Fixpoint reachWalk (fuel : nat) (succs : nat -> list nat) (reached : list bool) (stack : list nat)
  : option (list bool) :=
  match stack with
  | [] => Some reached
  | position :: stack =>
      match fuel with
      | O => None
      | S fuel =>
          match reached !! position with
          | Some false =>
              let reached := <[position := true]> reached in
              let fresh := List.filter (fun next => negb (default false (reached !! next))) (succs position) in
              reachWalk fuel succs reached (reverse fresh ++ stack)
          | _ => reachWalk fuel succs reached stack
          end
      end
  end.

(** Each round pops an entry, and each block pushes its successors once. *)
Definition walkBound (blocks : list Block) : nat := S (2 * List.length blocks).

Definition reachedBlocks (fn : Function) : option (list bool) :=
  reachWalk (walkBound (fBlocks fn)) (succPositions fn (blockIndex fn))
    (replicate (List.length (fBlocks fn)) false) [0].

(** The blocks whose flag is up. *)
Fixpoint keepReached (reached : list bool) (blocks : list Block) : list Block :=
  match reached, blocks with
  | true :: reached, b :: blocks => b :: keepReached reached blocks
  | _ :: reached, _ :: blocks => keepReached reached blocks
  | _, _ => []
  end.

Definition keepLiveIncoming (live : gset string) (i : Instr) : Instr :=
  if String.eqb (iOp i) "phi"
  then set_iIncoming (List.filter (fun edge => bool_decide (inBlock edge ∈ live))) i
  else i.

(** [removeUnreachableBlocks] *)
Definition removeUnreachableBlocks (fn : Function) : option (list Block) :=
  reached ← reachedBlocks fn;
  let kept := keepReached reached (fBlocks fn) in
  let live := list_to_set (map bName kept) in
  Some (map (set_bInstrs (map (keepLiveIncoming live))) kept).

(** ** Trivial phis *)

(** The loop of [trivialPhiValue]: [only] so far, [None] past a second value. *)
Fixpoint onlyValue (self : string) (only : option Value) (incoming : list Incoming) : option (option Value) :=
  match incoming with
  | [] => Some only
  | inc :: rest =>
      let value := inValue inc in
      if String.eqb (vName value) self then onlyValue self only rest
      else match only with
      | Some o => if String.eqb (vName o) (vName value) then onlyValue self (Some value) rest else None
      | None => onlyValue self (Some value) rest
      end
  end.

(** [trivialPhiValue] *)
Definition trivialPhiValue (i : Instr) : option Value :=
  if negb (String.eqb (iOp i) "phi") || (List.length (iIncoming i) =? 0)%nat then None
  else mjoin (onlyValue (vName (iResult i)) None (iIncoming i)).

(** One round of [foldTrivialPhis]. *)
Definition trivialReplacements (blocks : list Block) : replacements_map :=
  foldl (fun replacements b => foldl (fun replacements i =>
    match trivialPhiValue i with
    | Some value => <[vName (iResult i) := value]> replacements
    | None => replacements
    end) replacements (bInstrs b)) ∅ blocks.

Definition dropTrivialPhis (blocks : list Block) : list Block :=
  map (set_bInstrs (List.filter (fun i => bool_decide (trivialPhiValue i = None)))) blocks.

(** [foldTrivialPhis]: each round but the last drops a phi. *)
Fixpoint foldTrivialPhis (fuel : nat) (blocks : list Block) : option (list Block) :=
  match fuel with
  | O => None
  | S fuel =>
      let replacements := trivialReplacements blocks in
      let blocks := dropTrivialPhis blocks in
      if decide (size replacements = 0) then Some blocks
      else blocks ← replaceFunctionValues blocks replacements; foldTrivialPhis fuel blocks
  end.

Definition instrCount (blocks : list Block) : nat := List.length (flat_map bInstrs blocks).

(** [simplifyBranchesIn] *)
Definition simplifyBranchesIn (fn : Function) : option Function :=
  match fBlocks fn with
  | [] => Some fn
  | _ =>
      let blocks := foldKnownResults (fBlocks fn) in
      let known := knownConditions blocks in
      let dead := deadBlocks blocks in
      let (blocks, changed) := foldl (simplifyBlock known dead) (blocks, false) (seq 0 (List.length blocks)) in
      if negb changed then Some (set_fBlocks (fun _ => blocks) fn)
      else
        blocks ← removeUnreachableBlocks (set_fBlocks (fun _ => blocks) fn);
        blocks ← foldTrivialPhis (S (instrCount blocks)) blocks;
        Some (set_fBlocks (fun _ => blocks) fn)
  end.

(** [SimplifyBranches] *)
Definition SimplifyBranches (m : Module_) : option Module_ :=
  fns ← mapM simplifyBranchesIn (mFunctions m);
  Some (set_mFunctions (fun _ => fns) m).
