(* ===== verification/SimplifyFacts.v ===== *)
(** * Walks, chains and trivial phis ([internal/ir/simplify.go])

    The stack walk reaches exactly the reachable blocks; a chase of
    replacements ends unless it cycles; the trivial phis of a verified
    function never make a cycle. *)

From stdpp Require Import base list strings gmap relations.
From Stdlib Require Import ZArith Lia String.
From S2P Require Import Prelude GoStd IR Cfg CfgFacts Verify VerifyFacts Optimize Dce Ssa Simplify.

#[local] Open Scope string_scope.
#[local] Open Scope list_scope.

(** ** The stack walk *)

Section Walk.
Context (succs : nat -> list nat) (n : nat).
Context (Hsuccs : forall p q, q ∈ succs p -> q < n).
Context (Htwo : forall p, List.length (succs p) <= 2).

Record walkInv (reached : list bool) (stack : list nat) : Prop := mkWalkInv {
  walk_len : List.length reached = n;
  walk_stack : forall q, q ∈ stack -> q < n /\ reach succs 0 q;
  walk_sound : forall q, marked reached q -> reach succs 0 q;
  walk_closed : forall p q, marked reached p -> q ∈ succs p -> marked reached q \/ q ∈ stack;
  walk_start : marked reached 0 \/ 0 ∈ stack
}.

Lemma marked_insert reached p q :
  p < List.length reached -> marked (<[p := true]> reached) q <-> q = p \/ marked reached q.
Proof.
  intros Hp. unfold marked. destruct (decide (q = p)) as [->|Hne].
  - rewrite list_lookup_insert_eq by exact Hp. tauto.
  - rewrite list_lookup_insert_ne by congruence. tauto.
Qed.

Definition freshSuccs (reached : list bool) (p : nat) : list nat :=
  List.filter (fun next => negb (default false (reached !! next))) (succs p).

Lemma freshSuccs_spec reached p q :
  q ∈ freshSuccs reached p <-> q ∈ succs p /\ ~ marked reached q.
Proof.
  unfold freshSuccs, marked. rewrite !list_elem_of_In, filter_In, negb_true_iff.
  destruct (reached !! q) as [[]|]; cbn; naive_solver.
Qed.

Lemma walkInv_visit reached p stack :
  walkInv reached (p :: stack) -> reached !! p = Some false ->
  walkInv (<[p := true]> reached) (reverse (freshSuccs (<[p := true]> reached) p) ++ stack).
Proof.
  intros [Hl Hst Hso Hcl H0] Hp. assert (Hpn : p < List.length reached) by (eapply lookup_lt_Some, Hp).
  destruct (Hst p (list_elem_of_here _ _)) as [_ Hreach]. split.
  - rewrite length_insert. exact Hl.
  - intros q [Hq|Hq]%elem_of_app; [|apply Hst; right; exact Hq].
    apply elem_of_reverse, freshSuccs_spec in Hq as [Hq _]. split; [eapply Hsuccs, Hq | eapply reach_step; eauto].
  - intros q [->|Hq]%marked_insert; [exact Hreach | auto | exact Hpn].
  - intros a b Ha Hb. apply marked_insert in Ha; [|exact Hpn].
    destruct (decide (<[p := true]> reached !! b = Some true)) as [Hm|Hm]; [left; exact Hm|]. right. apply elem_of_app.
    destruct Ha as [->|Ha]; [left; apply elem_of_reverse, freshSuccs_spec; auto|]. right.
    destruct (Hcl a b Ha Hb) as [H|[->|H]%elem_of_cons]; [destruct Hm; apply marked_insert; auto | | exact H].
    destruct Hm. apply marked_insert; auto.
  - rewrite marked_insert by exact Hpn. rewrite elem_of_app.
    destruct H0 as [H|[->|H]%elem_of_cons]; auto.
Qed.

Lemma walkInv_skip reached p stack :
  walkInv reached (p :: stack) -> reached !! p <> Some false -> walkInv reached stack.
Proof.
  intros [Hl Hst Hso Hcl H0] Hp.
  assert (Hm : marked reached p).
  { destruct (Hst p (list_elem_of_here _ _)) as [Hn _]. rewrite <- Hl in Hn.
    apply lookup_lt_is_Some in Hn as [[] Hb]; [exact Hb | contradiction]. }
  split; [exact Hl | intros q Hq; apply Hst; right; exact Hq | exact Hso | |].
  - intros a b Ha Hb. destruct (Hcl a b Ha Hb) as [H|[->|H]%elem_of_cons]; auto.
  - destruct H0 as [H|[->|H]%elem_of_cons]; auto.
Qed.

Lemma walkInv_end reached : walkInv reached [] -> forall q, marked reached q <-> reach succs 0 q.
Proof.
  intros [Hl _ Hso Hcl H0] q. split; [apply Hso|]. intros [l Hl'].
  induction Hl' as [|l b c _ IH Hc].
  - destruct H0 as [H|H]; [exact H | inversion H].
  - destruct (Hcl b c IH Hc) as [H|H]; [exact H | inversion H].
Qed.

Lemma reachWalk_spec fuel reached stack :
  walkInv reached stack -> List.length stack + 2 * unvisited reached <= fuel ->
  exists reached', reachWalk fuel succs reached stack = Some reached' /\ List.length reached' = n /\
    forall q, marked reached' q <-> reach succs 0 q.
Proof.
  revert reached stack. induction fuel as [|fuel IH]; intros reached stack I Hf; destruct stack as [|p stack];
    try (exists reached; split; [reflexivity | split; [apply I | apply walkInv_end, I]]); [cbn in Hf; lia|].
  cbn [reachWalk]. cbn [List.length] in Hf. destruct (decide (reached !! p = Some false)) as [Hp|Hp].
  - rewrite Hp. apply IH; [apply walkInv_visit; assumption|].
    rewrite length_app, length_reverse. apply unvisited_mark in Hp.
    pose proof (filter_length_le (fun next => negb (default false (<[p := true]> reached !! next))) (succs p)) as H1.
    specialize (Htwo p). lia.
  - assert (Hskip : walkInv reached stack) by (eapply walkInv_skip; eauto).
    destruct (reached !! p) as [[]|]; [| contradiction |]; (apply IH; [exact Hskip | lia]).
Qed.
End Walk.

Lemma succPositions_two fn idx p : List.length (succPositions fn idx p) <= 2.
Proof.
  unfold succPositions. destruct (fBlocks fn !! p) as [b|]; [|cbn; lia]. unfold Successors.
  assert (Hom : forall l, List.length (omap (fun target => idx !! target) l) <= List.length l).
  { induction l as [|x l IH]; cbn; [lia|]. destruct (idx !! x); cbn; lia. }
  etransitivity; [apply Hom|]. etransitivity; [apply length_filter|]. cbn. lia.
Qed.

Lemma reachedBlocks_spec fn :
  0 < List.length (fBlocks fn) ->
  exists reached, reachedBlocks fn = Some reached /\ List.length reached = List.length (fBlocks fn) /\
    forall q, marked reached q <-> reach (succPositions fn (blockIndex fn)) 0 q.
Proof.
  intros Hne. unfold reachedBlocks. apply reachWalk_spec.
  - intros p q Hq. apply (succs_bound fn p q) in Hq as [_ Hq]. exact Hq.
  - apply succPositions_two.
  - split.
    + apply length_replicate.
    + intros q Hq%list_elem_of_singleton. subst. split; [exact Hne | apply reach_refl].
    + intros q Hq. apply lookup_replicate in Hq as [? _]. discriminate.
    + intros p q Hp. apply lookup_replicate in Hp as [? _]. discriminate.
    + right. left.
  - rewrite unvisited_replicate. unfold walkBound. cbn [List.length]. lia.
Qed.

Lemma keepReached_spec reached blocks b :
  List.length reached = List.length blocks ->
  b ∈ keepReached reached blocks <-> exists p, blocks !! p = Some b /\ marked reached p.
Proof.
  revert blocks. induction reached as [|r reached IH]; intros [|c blocks] Hl; try discriminate Hl.
  { cbn. split; [intros H; inversion H | intros (p & Hp & _); discriminate]. }
  injection Hl as Hl. specialize (IH blocks Hl). unfold marked in *. destruct r; cbn [keepReached].
  - rewrite elem_of_cons, IH. split.
    + intros [->|(p & Hp)]; [exists 0; auto | exists (S p); exact Hp].
    + intros ([|p] & Hp & Hm); [injection Hp as ->; auto | right; eauto].
  - rewrite IH. split; [intros (p & Hp); exists (S p); exact Hp|].
    intros ([|p] & Hp & Hm); [discriminate | eauto].
Qed.

Lemma keepReached_sublist reached blocks : sublist (keepReached reached blocks) blocks.
Proof.
  revert blocks. induction reached as [|[] reached IH]; intros [|b blocks]; cbn [keepReached];
    try apply sublist_nil_l; constructor; apply IH.
Qed.

(** ** Chains of replacements *)

Section Chains.
Context (replacements : replacements_map).

(** One replacement. *)
Definition replaces (x y : string) : Prop := exists v, replacements !! x = Some v /\ vName v = y.

(** The chase from a name ends. *)
Inductive chaseEnds : string -> Prop :=
  | ends_here x : replacements !! x = None -> chaseEnds x
  | ends_next x v : replacements !! x = Some v -> chaseEnds (vName v) -> chaseEnds x.

Lemma chaseEnds_acyclic x v : chaseEnds x -> replacements !! x = Some v -> ~ rtc replaces (vName v) x.
Proof.
  intros H. revert v. induction H as [x Hx|x w Hx H IH]; intros v Hv Hr; [congruence|].
  assert (v = w) as -> by congruence.
  destruct (rtc_inv _ _ Hr) as [Heq|(y & (u & Hu & <-) & Hr')].
  - subst x. apply (IH w Hx). apply rtc_refl.
  - apply (IH u Hu). eapply rtc_r; [exact Hr'|]. exists w. auto.
Qed.

Lemma resolveFrom_ends value (names : gset string) :
  chaseEnds (vName value) ->
  (forall y, rtc replaces (vName value) y -> is_Some (replacements !! y) -> y ∈ names) ->
  exists w, resolveFrom (base.size names) replacements value = Some w.
Proof.
  intros H. remember (vName value) as x eqn:Hx. revert value names Hx.
  induction H as [x Hn|x v Hv H IH]; intros value names -> Hin.
  - exists value. destruct (base.size names); cbn [resolveFrom]; rewrite Hn; reflexivity.
  - assert (Hmem : vName value ∈ names) by (apply Hin; [constructor | eauto]).
    assert (Hsize : base.size names = S (base.size (names ∖ {[vName value]}))).
    { rewrite (union_difference_singleton_L _ _ Hmem) at 1. rewrite size_union by set_solver.
      rewrite size_singleton. reflexivity. }
    rewrite Hsize. cbn [resolveFrom]. rewrite Hv. apply (IH v); [reflexivity|].
    intros y Hy Hsome. apply elem_of_difference. split.
    + apply Hin; [apply (rtc_l _ _ (vName v)); [exists v; auto | exact Hy] | exact Hsome].
    + intros ->%elem_of_singleton. eapply chaseEnds_acyclic; [|exact Hv|exact Hy]. eapply ends_next; eauto.
Qed.

Lemma resolve_ends value : chaseEnds (vName value) -> exists w, resolve replacements value = Some w.
Proof.
  intros H. unfold resolve. rewrite <- (size_dom (D := gset string)).
  apply resolveFrom_ends; [exact H|]. intros y _ Hy. apply elem_of_dom, Hy.
Qed.

Lemma resolveFrom_result fuel value w :
  resolveFrom fuel replacements value = Some w ->
  replacements !! vName w = None /\ rtc replaces (vName value) (vName w).
Proof.
  revert value. induction fuel as [|fuel IH]; intros value; cbn [resolveFrom];
    destruct (replacements !! vName value) as [v|] eqn:Hv; try discriminate.
  - intros [= <-]. split; [exact Hv | constructor].
  - intros H. apply IH in H as [H1 H2]. split; [exact H1|]. apply (rtc_l _ _ (vName v)); [exists v; auto | exact H2].
  - intros [= <-]. split; [exact Hv | constructor].
Qed.
End Chains.

(** ** Total rewriting *)

Lemma mapM_total {A B} (f : A -> option B) l : (forall x, x ∈ l -> is_Some (f x)) -> is_Some (mapM f l).
Proof. intros H. apply mapM_is_Some_2, Forall_forall, H. Qed.

Lemma mapReadsM_total f i : (forall v, is_Some (f v)) -> is_Some (mapReadsM f i).
Proof.
  intros Hf. unfold mapReadsM.
  assert (Hmap : forall {B} (g : Value -> B) v, is_Some (g <$> f v)) by (intros B g v; destruct (Hf v) as [w ->]; eauto).
  destruct (mapM_total f (iArgs i)) as [? ->]; [auto|]. cbn [mbind option_bind].
  destruct (mapM_total (fun inc => mkIncoming (inBlock inc) <$> f (inValue inc)) (iIncoming i)) as [? ->]; [auto|].
  cbn [mbind option_bind].
  destruct (mapM_total (fun fa => mkFieldArg (faName fa) <$> f (faValue fa)) (iFields i)) as [? ->]; [auto|].
  cbn [mbind option_bind]. match goal with |- is_Some (mapM ?g ?l ≫= _) => destruct (mapM_total g l) as [? ->] end.
  - intros c _. destruct (mapM_total f (clArgs c)) as [? ->]; [auto | eauto].
  - cbn [mbind option_bind]. eauto.
Qed.

Lemma replaceFunctionValues_total blocks replacements :
  (forall x, chaseEnds replacements x) -> is_Some (replaceFunctionValues blocks replacements).
Proof.
  intros H. assert (Hr : forall v, is_Some (resolve replacements v)).
  { intros v. destruct (resolve_ends replacements v (H _)) as [w ->]. eauto. }
  apply mapM_total. intros b _. unfold mapBlockReadsM.
  destruct (mapM_total (mapReadsM (resolve replacements)) (bInstrs b)) as [? ->];
    [intros i _; apply mapReadsM_total, Hr|]. cbn [mbind option_bind].
  destruct (Hr (tValue (bTerminator b))) as [? ->]. cbn [mbind option_bind].
  destruct (Hr (tCond (bTerminator b))) as [? ->]. cbn [mbind option_bind]. eauto.
Qed.

(** * What branch simplification promises ([internal/ir/simplify.go],
    [replaceFunctionValues] of [internal/ir/inline.go]) *)

(** ** Unreachable blocks *)


Definition sample_prune : Function :=
  let v := mkValue "n" "i32" in
  mkFunction "f" [] "i32"
    [mkBlock "entry" [] (jump "merge");
     mkBlock "dead" [] (jump "merge");
     mkBlock "merge" [phi (mkValue "x" "i32") [mkIncoming "entry" v; mkIncoming "dead" v]] (ret (mkValue "x" "i32"))]
    "" "".


(** ** Replacements *)

(** Chasing replacements: when the chase from a value ends at all, the
    bound of [resolve] is enough, and the result is not itself replaced and is
    reached from the value by replacements. *)
Theorem resolve_exact replacements value :
  chaseEnds replacements (vName value) ->
  exists w, resolve replacements value = Some w /\ replacements !! vName w = None /\
    rtc (replaces replacements) (vName value) (vName w).
Proof.
  intros H. destruct (resolve_ends replacements value H) as [w Hw]. exists w. split; [exact Hw|].
  eapply resolveFrom_result, Hw.
Qed.

Lemma resolve_exact_witness :
  resolve (<["a" := mkValue "b" "i64"]> {["b" := mkValue "c" "i64"]}) (mkValue "a" "i64") = Some (mkValue "c" "i64") /\
  exists w, resolve (<["a" := mkValue "b" "i64"]> {["b" := mkValue "c" "i64"]}) (mkValue "a" "i64") = Some w /\
    (<["a" := mkValue "b" "i64"]> {["b" := mkValue "c" "i64"]} : replacements_map) !! vName w = None.
Proof.
  split; [vm_compute; reflexivity|].
  destruct (resolve_exact (<["a" := mkValue "b" "i64"]> {["b" := mkValue "c" "i64"]}) (mkValue "a" "i64")) as (w & H1 & H2 & _).
  - apply (ends_next _ _ (mkValue "b" "i64")); [reflexivity|].
    apply (ends_next _ _ (mkValue "c" "i64")); [reflexivity|]. apply ends_here. reflexivity.
  - eauto.
Defined.

(** ** Trivial phis *)

Lemma onlyValue_spec self only incs v :
  onlyValue self only incs = Some (Some v) ->
  (forall o, only = Some o -> vName o = vName v) /\
  (forall inc, inc ∈ incs -> vName (inValue inc) = self \/ vName (inValue inc) = vName v).
Proof.
  revert only. induction incs as [|inc incs IH]; intros only; cbn [onlyValue].
  { intros [= ->]. split; [congruence | intros inc H; inversion H]. }
  assert (Hnext : onlyValue self (Some (inValue inc)) incs = Some (Some v) ->
    vName (inValue inc) = vName v /\ forall j, j ∈ incs -> vName (inValue j) = self \/ vName (inValue j) = vName v).
  { intros H. apply IH in H as [H1 H2]. split; [apply H1; reflexivity | exact H2]. }
  destruct (String.eqb_spec (vName (inValue inc)) self) as [Hself|_].
  - intros H. apply IH in H as [H1 H2]. split; [exact H1|]. intros j [->|Hj]%elem_of_cons; auto.
  - destruct only as [o|].
    + destruct (String.eqb_spec (vName o) (vName (inValue inc))) as [Ho|]; [|discriminate].
      intros H. apply Hnext in H as [H1 H2]. split; [intros ? [= <-]; congruence|].
      intros j [->|Hj]%elem_of_cons; auto.
    + intros H. apply Hnext in H as [H1 H2]. split; [discriminate|]. intros j [->|Hj]%elem_of_cons; auto.
Qed.

Lemma trivialPhiValue_spec i v :
  trivialPhiValue i = Some v ->
  iOp i = "phi" /\ forall inc, inc ∈ iIncoming i -> vName (inValue inc) = resultName i \/ vName (inValue inc) = vName v.
Proof.
  unfold trivialPhiValue. destruct (String.eqb_spec (iOp i) "phi") as [Hop|]; cbn [negb orb]; [|discriminate].
  destruct (Nat.eqb_spec (List.length (iIncoming i)) 0); [discriminate|].
  destruct (onlyValue _ None (iIncoming i)) as [[w|]|] eqn:Ho; cbn; try discriminate.
  intros [= ->]. split; [exact Hop|]. apply (onlyValue_spec _ _ _ _ Ho).
Qed.

(** Where an entry of a round's replacements comes from. *)
Lemma trivialReplacements_from blocks x v :
  trivialReplacements blocks !! x = Some v ->
  exists p b s i, blocks !! p = Some b /\ bInstrs b !! s = Some i /\ resultName i = x /\ trivialPhiValue i = Some v.
Proof.
  assert (Hin : forall l (acc : replacements_map), foldl (fun replacements i => match trivialPhiValue i with
      | Some value => <[vName (iResult i) := value]> replacements | None => replacements end) acc l !! x = Some v ->
      acc !! x = Some v \/ exists s i, l !! s = Some i /\ resultName i = x /\ trivialPhiValue i = Some v).
  { induction l as [|i l IH]; intros acc H; cbn [foldl] in H; [auto|].
    apply IH in H as [H|(s & j & H)]; [|right; exists (S s), j; exact H].
    destruct (trivialPhiValue i) as [w|] eqn:Hw; [|auto].
    apply lookup_insert_Some in H as [[Hn <-]|[_ H]]; [right; exists 0, i; auto | auto]. }
  unfold trivialReplacements. assert (Hout : forall (acc : replacements_map), foldl (fun replacements b => foldl (fun replacements i => match trivialPhiValue i with
      | Some value => <[vName (iResult i) := value]> replacements | None => replacements end) replacements (bInstrs b)) acc blocks !! x = Some v ->
      acc !! x = Some v \/ exists p b s i, blocks !! p = Some b /\ bInstrs b !! s = Some i /\ resultName i = x /\ trivialPhiValue i = Some v).
  { induction blocks as [|b blocks IH]; intros acc H; cbn [foldl] in H; [auto|].
    apply IH in H as [H|(p & c & H)]; [|right; exists (S p), c; exact H].
    apply Hin in H as [H|(s & i & H)]; [auto | right; exists 0, b, s, i; split; [reflexivity | exact H]]. }
  intros H. apply Hout in H as [H|H]; [|exact H]. rewrite lookup_empty in H. discriminate.
Qed.

Section TrivialPhis.
Context (module : Module_) (fn : Function).
Context (Hverify : Verify module = Ok tt) (Hfn : fn ∈ mFunctions module) (Honce : definesOnce fn).
Context (Hreach : forall p, p < List.length (fBlocks fn) -> reach (succs fn) 0 p).
Context (Hentry : forall s i, instrAt fn 0 s i -> iOp i <> "phi").

Abbreviation round := (trivialReplacements (fBlocks fn)).

(** The value a trivial phi reads on the edge control took was computed before
    the phi ran, so following it goes back in the history. *)
Lemma chase_history n h from p s x v :
  List.length h < n -> exec fn h from p s -> round !! x = Some v ->
  (exists i, instrAt fn p s i /\ resultName i = x /\ trivialPhiValue i = Some v) -> chaseEnds round x.
Proof.
  revert h from p s x v. induction n as [|n IH]; intros h from p s x v Hl He Hx (i & Hi & Hix & Hv); [lia|].
  destruct (trivialPhiValue_spec i v Hv) as [Hop Hincs]. pose proof Hi as (b & Hb & Hbi).
  assert (Hback : forall y, computed fn h y -> chaseEnds round (vName y)).
  { intros y Hy. destruct (round !! vName y) as [w|] eqn:Hw; [|apply ends_here, Hw].
    destruct (trivialReplacements_from _ _ _ Hw) as (q & c & t & j & Hc & Hj & Hjn & Hjv).
    assert (Hat : instrAt fn q t j) by (exists c; auto).
    destruct (trivialPhiValue_spec j w Hjv) as [Hjop _].
    pose proof (once_phis fn Honce j (instrAt_in fn q t j Hat) Hjop) as Hne.
    pose proof (definition_at fn q t j Honce Hat Hne) as Hdef. rewrite Hjn in Hdef. specialize (Hy _ Hdef). cbn [defBlock defStep] in Hy.
    apply list_elem_of_split in Hy as (h1 & h2 & Hh). destruct (exec_prefix fn h from p s h1 (q, t) h2 He Hh) as [from' He'].
    apply (IH h1 from' q t (vName y) w); [subst h; rewrite length_app in Hl; cbn in Hl; lia | exact He' | exact Hw | eauto]. }
  destruct from as [q|].
  2: { destruct (exec_inv fn h None p s He) as (Ha & _). cbn in Ha. subst p. destruct (Hentry s i Hi Hop). }
  pose proof (proj1 (Verify_spec module) Hverify fn Hfn) as Hwf.
  destruct (phi_edge_computed _ _ fn h q p s b i Hwf He Hb Hbi Hop) as ((inc & Hinc & Hat) & Hall).
  pose proof (Hall inc Hinc Hat) as Hcomp. destruct (Hincs inc Hinc) as [Hself|Hval].
  - rewrite <- Hix, <- Hself. apply Hback, Hcomp.
  - apply (ends_next _ _ v Hx). rewrite <- Hval. apply Hback, Hcomp.
Qed.

Lemma round_ends x : chaseEnds round x.
Proof.
  destruct (round !! x) as [v|] eqn:Hx; [|apply ends_here, Hx].
  destruct (trivialReplacements_from _ _ _ Hx) as (p & b & s & i & Hb & Hi & Hix & Hv).
  assert (Hat : instrAt fn p s i) by (exists b; auto).
  destruct (exec_reach fn p s) as (h & from & He).
  - apply Hreach. eapply lookup_lt_Some, Hb.
  - apply Nat.lt_le_incl. eapply instrAt_steps, Hat.
  - apply (chase_history (S (List.length h)) h from p s x v); [lia | exact He | exact Hx | eauto].
Qed.
End TrivialPhis.

(** A round of trivial-phi folding on a verified function always ends: when
    every block is reachable, the entry has no phi and names are defined once,
    the replacements of the round form no cycle, so rewriting every read of
    the function terminates. *)
Theorem trivial_phi_round_total module fn :
  Verify module = Ok tt -> fn ∈ mFunctions module -> definesOnce fn ->
  (forall p, p < List.length (fBlocks fn) -> reach (succs fn) 0 p) ->
  (forall s i, instrAt fn 0 s i -> iOp i <> "phi") ->
  forall blocks, is_Some (replaceFunctionValues blocks (trivialReplacements (fBlocks fn))).
Proof.
  intros Hv Hfn Honce Hreach Hentry blocks. apply replaceFunctionValues_total. intros x.
  eapply round_ends; eauto.
Qed.

(** A loop whose phi merges the value it started from with itself. *)
Definition sample_trivial : Function :=
  let n := mkValue "n" "i32" in let x := mkValue "x" "i32" in let y := mkValue "y" "i32" in
  mkFunction "f" [mkParam "n" "i32" PassValue] "i32"
    [mkBlock "entry" [] (jump "head");
     mkBlock "head" [phi x [mkIncoming "entry" n; mkIncoming "body" y]] (branch (mkValue "c" "bool") "body" "exit");
     mkBlock "body" [phi y [mkIncoming "head" x]] (jump "head");
     mkBlock "exit" [] (ret x)] "" "".

Lemma sample_trivial_reach p :
  p < List.length (fBlocks sample_trivial) -> reach (succs sample_trivial) 0 p.
Proof.
  intros Hp. assert (H1 : reach (succs sample_trivial) 0 1) by (eapply reach_step; [apply reach_refl | vm_compute; left]).
  destruct p as [|[|[|[|p]]]]; [apply reach_refl | exact H1 | | | cbn in Hp; lia];
    (eapply reach_step; [exact H1 | vm_compute]); [left | right; left].
Qed.

Lemma trivial_phi_round_total_witness :
  Verify (mkModule ∅ ∅ ∅ ∅ [sample_trivial] ∅) = Ok tt /\
  is_Some (replaceFunctionValues (dropTrivialPhis (fBlocks sample_trivial))
             (trivialReplacements (fBlocks sample_trivial))) /\
  option_map (map (fun b => map iOp (bInstrs b))) (foldTrivialPhis 4 (fBlocks sample_trivial)) = Some [[]; []; []; []].
Proof.
  assert (Hv : Verify (mkModule ∅ ∅ ∅ ∅ [sample_trivial] ∅) = Ok tt) by (vm_compute; reflexivity).
  split; [exact Hv|]. split; [|vm_compute; reflexivity].
  apply (trivial_phi_round_total _ sample_trivial Hv); [left | | apply sample_trivial_reach |].
  - split; [apply (bool_decide_unpack _); vm_compute; exact I|].
    intros i Hi _. cbn in Hi. repeat (apply elem_of_cons in Hi as [->|Hi]; [discriminate|]). inversion Hi.
  - intros s i (b & Hb & Hi). injection Hb as <-. destruct s; discriminate.
Defined.
