(* ===== verification/Available.v ===== *)
(** * Facts about available values

    A value is available where its definition has run on every path.  A fact
    that holds when a value has just been computed, and speaks of that value
    and of values available at its definition, holds wherever the value is
    available: none of them can be computed again in between.  This is what
    makes it sound to read one value in place of another. *)

From stdpp Require Import base list strings gmap.
From Stdlib Require Import ZArith Lia String.
From S2P Require Import Prelude GoStd IR Cfg CfgFacts Verify VerifyFacts Semantics Optimize Dce Ssa Simplify.

#[local] Open Scope string_scope.
#[local] Open Scope list_scope.

(** A function as lowering makes it: verified, in single assignment, with
    block names that are unique and not empty. *)
Record sound (module : Module_) (params : gmap string (list Param)) (fn : Function) : Prop := mkSound {
  sound_wf : wellFormed module params fn;
  sound_once : definesOnce fn;
  sound_blocks : NoDup (map bName (fBlocks fn));
  sound_named : "" ∉ map bName (fBlocks fn)
}.

Section Available.
Context (module : Module_) (params : gmap string (list Param)) (fn : Function).
Context (Hsound : sound module params fn).

Abbreviation defs := (valueDefiningBlocks fn).

(** A definition has run on every path to a point. *)
Definition before (d : definition) (p s : nat) : Prop :=
  (defBlock d = p /\ defStep d < s) \/ (defBlock d <> p /\ dominated_by (succs fn) (defBlock d) p).

Definition availAt (p s : nat) (x : string) : Prop := exists d, defs !! x = Some d /\ before d p s.

(** A name no instruction defines, or an available one: it is [defined_at]. *)
Definition settledAt (p s : nat) (x : string) : Prop := forall d, defs !! x = Some d -> before d p s.

Lemma dominated_antisym a b : reach (succs fn) 0 b -> dominated_by (succs fn) a b -> dominated_by (succs fn) b a -> a = b.
Proof.
  intros [l Hl] Hab Hba. destruct (decide (a = b)) as [|Hne]; [assumption|]. exfalso.
  assert (H : forall n c k, List.length k < n -> path (succs fn) 0 k c -> c = a \/ c = b -> False); [|eapply (H _ b l); eauto].
  induction n as [|n IH]; intros c k Hn Hk Hc; [lia|].
  assert (Hother : exists c' k', List.length k' < List.length k /\ path (succs fn) 0 k' c' /\ (c' = a \/ c' = b)).
  { assert (Hx : exists x, x ∈ k /\ x <> c /\ (x = a \/ x = b)).
    { destruct Hc as [->| ->]; [exists b | exists a]; (split; [apply Hba || apply Hab; assumption | split; [congruence | auto]]). }
    destruct Hx as (x & Hin & Hxc & Hx). revert Hin. clear -Hk Hxc Hx. induction Hk as [|k y z Hk IHk Hz]; intros Hin.
    - apply list_elem_of_singleton in Hin. congruence.
    - apply elem_of_app in Hin as [Hin|Hin%list_elem_of_singleton]; [|congruence].
      destruct (decide (x = y)) as [->|Hne].
      + exists y, k. rewrite length_app. cbn. split; [lia|]. split; assumption.
      + destruct (IHk Hne Hin) as (c' & k' & H1 & H2 & H3). exists c', k'. rewrite length_app. split; [lia|]. auto. }
  destruct Hother as (c' & k' & H1 & H2 & H3). apply (IH c' k'); [lia | exact H2 | exact H3].
Qed.

Lemma dominated_reach a b : reach (succs fn) 0 b -> dominated_by (succs fn) a b -> reach (succs fn) 0 a.
Proof. intros [l Hl] H. eapply path_reach; [exact Hl | apply H, Hl]. Qed.

(** What is before a point before which something else is. *)
Lemma dominated_trans a b c : reach (succs fn) 0 c -> dominated_by (succs fn) a b -> dominated_by (succs fn) b c -> dominated_by (succs fn) a c.
Proof.
  intros Hc Hab Hbc l Hl. pose proof (Hbc l Hl) as Hb. clear Hc Hbc. revert Hb.
  induction Hl as [|l y z Hl IH Hz]; intros Hb.
  - apply list_elem_of_singleton in Hb as ->. apply (Hab [0]). constructor.
  - apply elem_of_app in Hb as [Hb|Hb%list_elem_of_singleton].
    + apply elem_of_app. left. apply IH, Hb.
    + subst b. apply Hab. econstructor; eassumption.
Qed.

Lemma before_trans d e p s :
  reach (succs fn) 0 p -> before d (defBlock e) (defStep e) -> before e p s -> before d p s.
Proof.
  intros Hp [[H1 H2]|[H1 H2]] [[H3 H4]|[H3 H4]]; unfold before.
  - left. lia.
  - right. rewrite H1. auto.
  - right. rewrite <- H3. auto.
  - right. split; [|eapply dominated_trans; eassumption]. intros E. apply H1.
    rewrite <- E in H4. eapply dominated_antisym; [|exact H2 | exact H4].
    rewrite E in H4. eapply dominated_reach; eassumption.
Qed.

Lemma before_reach d p s : reach (succs fn) 0 p -> before d p s -> reach (succs fn) 0 (defBlock d).
Proof. intros Hp [[-> _]|[_ H]]; [exact Hp | eapply dominated_reach; eassumption]. Qed.

Lemma settled_S p s x : settledAt p s x -> settledAt p (S s) x.
Proof. intros H d Hd. destruct (H d Hd) as [[H1 H2]|H1]; [left; split; [exact H1 | lia] | right; exact H1]. Qed.

(** What is settled in a block is settled in the blocks it dominates. *)
Lemma settled_enter a s p x : reach (succs fn) 0 p -> a <> p -> dominated_by (succs fn) a p -> settledAt a s x -> settledAt p 0 x.
Proof.
  intros Hp Hne Hd H d Hdef. right. destruct (H d Hdef) as [[E _]|[H1 H2]]; [rewrite E; auto|].
  split; [|eapply dominated_trans; eassumption]. intros E. apply Hne.
  rewrite E in H2. eapply dominated_antisym; [exact Hp | exact Hd | exact H2].
Qed.

(** The instruction a recorded definition points at. *)
Lemma defs_instr x d : defs !! x = Some d -> x <> "" /\ exists i, instrAt fn (defBlock d) (defStep d) i /\ resultName i = x.
Proof.
  intros Hd. assert (Hne : x <> "").
  { intros ->. revert Hd. unfold valueDefiningBlocks. generalize 0.
    assert (Hs : forall p l st (m : gmap string definition), m !! "" = None -> defineSteps p st l m !! "" = None).
    { intros p l. induction l as [|i l IH]; intros st m Hm; [exact Hm|]. cbn [defineSteps]. apply IH.
      destruct (String.eqb_spec (vName (iResult i)) ""); [exact Hm|]. rewrite lookup_insert_ne by congruence. exact Hm. }
    assert (Hb : forall l p (m : gmap string definition), m !! "" = None -> defineBlocks p l m !! "" = None).
    { induction l as [|b l IH]; intros p m Hm; [exact Hm|]. cbn [defineBlocks]. apply IH, Hs, Hm. }
    intros n. rewrite Hb by apply lookup_empty. discriminate. }
  split; [exact Hne|]. unfold valueDefiningBlocks in Hd.
  apply defineBlocks_valid in Hd as [Hd|(b & i & _ & Hb & Hi & Hx)]; [rewrite lookup_empty in Hd; discriminate|].
  rewrite Nat.sub_0_r in Hb. exists i. split; [exists b; auto | exact Hx].
Qed.

Lemma defs_at p s i : instrAt fn p s i -> resultName i <> "" -> defs !! resultName i = Some (mkDefinition p s).
Proof. apply definition_at, (sound_once _ _ _ Hsound). Qed.

Lemma instrAt_fun p s i j : instrAt fn p s i -> instrAt fn p s j -> i = j.
Proof. intros (b & Hb & Hi) (c & Hc & Hj). congruence. Qed.

Section Facts.
Context {V : Type}.
Abbreviation env := (gmap string V).

Context (fact : string -> env -> Prop) (deps : string -> list string).
Context (fact_local : forall x (ρ ρ' : env), ρ !! x = ρ' !! x -> (forall y, y ∈ deps x -> ρ !! y = ρ' !! y) -> fact x ρ -> fact x ρ').
Context (deps_settled : forall x d y, reach (succs fn) 0 (defBlock d) -> defs !! x = Some d -> y ∈ deps x ->
  settledAt (defBlock d) (defStep d) y).

Definition factsAt (p s : nat) (ρ : env) : Prop := forall x, availAt p s x -> fact x ρ.

Lemma facts_start ρ : factsAt 0 0 ρ.
Proof.
  intros x (d & _ & [[_ H]|[Hne Hdom]]); [lia|]. specialize (Hdom [0] (path_one _ _)).
  apply list_elem_of_singleton in Hdom. contradiction.
Qed.

Lemma facts_jump p q ρ : q ∈ succs fn p -> factsAt p (stepsOf fn p) ρ -> factsAt q 0 ρ.
Proof.
  intros Hq H x (d & Hd & [[_ Hs]|[Hne Hdom]]); [lia|]. apply H. exists d. split; [exact Hd|].
  assert (Hp : dominated_by (succs fn) (defBlock d) p).
  { intros l Hl. specialize (Hdom (l ++ [q]) (path_step _ _ _ _ _ Hl Hq)).
    apply elem_of_app in Hdom as [Hin|Hin%list_elem_of_singleton]; [exact Hin | contradiction]. }
  destruct (decide (defBlock d = p)) as [E|E]; [left | right; auto]. split; [exact E|].
  rewrite <- E. eapply valueDefiningBlocks_valid, Hd.
Qed.

(** What is available after an instruction was so before it, or is its result. *)
Lemma avail_step p s x : availAt p (S s) x -> availAt p s x \/ defs !! x = Some (mkDefinition p s).
Proof.
  intros (d & Hd & [[H1 H2]|H]); [|left; exists d; split; [exact Hd | right; exact H]].
  destruct (decide (defStep d = s)) as [E|E]; [right; destruct d; cbn in *; subst; exact Hd|].
  left. exists d. split; [exact Hd|]. left. split; [exact H1 | lia].
Qed.

Lemma facts_step p s i v (ρ : env) :
  reach (succs fn) 0 p -> instrAt fn p s i -> factsAt p s ρ ->
  (resultName i <> "" -> fact (resultName i) (assign ρ i v)) -> factsAt p (S s) (assign ρ i v).
Proof.
  intros Hp Hi H Hnew x Hx. apply avail_step in Hx as [Hx|Hx].
  2: { destruct (defs_instr x _ Hx) as [Hne (j & Hj & <-)]. cbn in Hj. rewrite <- (instrAt_fun _ _ _ _ Hi Hj) in *. auto. }
  unfold assign. destruct (String.eqb_spec (vName (iResult i)) "") as [|Hne]; [apply H, Hx|].
  pose proof (defs_at _ _ _ Hi Hne) as Hdef. destruct Hx as (d & Hd & Hb).
  assert (Hxi : x <> resultName i).
  { intros ->. rewrite Hdef in Hd. injection Hd as <-. destruct Hb as [[_ Hb]|[Hb _]]; cbn in Hb; [lia | congruence]. }
  assert (Hother : forall y, y ∈ deps x -> y <> resultName i).
  { intros y Hy ->. pose proof (deps_settled _ _ _ (before_reach _ _ _ Hp Hb) Hd Hy _ Hdef) as Hold. unfold before in Hold, Hb. cbn in Hold.
    destruct Hold as [[O1 O2]|[O1 O2]], Hb as [[B1 B2]|[B1 B2]]; try lia; try congruence.
    apply B1. eapply dominated_antisym; [exact Hp | exact B2 | exact O2]. }
  apply (fact_local x ρ); [rewrite lookup_insert_ne by (unfold resultName in *; congruence); reflexivity | | apply H; exists d; auto].
  intros y Hy. rewrite lookup_insert_ne; [reflexivity|]. specialize (Hother y Hy). unfold resultName in Hother. congruence.
Qed.
End Facts.
End Available.

(** * Reading one value in place of another

    Two functions with the same blocks, run side by side: when each
    instruction does the same under the facts that hold where it stands, the
    functions run the same.  The passes that replace reads are instances. *)

Section Keep.
Context {V M X : Type} {machine : Machine V M X}.
Context (module : Module_) (params : gmap string (list Param)) (fn fn' : Function).
Context (Hsound : sound module params fn).

Abbreviation env := (gmap string V).

Context (fact : string -> env -> Prop) (deps : string -> list string).
Context (fact_local : forall x (ρ ρ' : env), ρ !! x = ρ' !! x -> (forall y, y ∈ deps x -> ρ !! y = ρ' !! y) -> fact x ρ -> fact x ρ').
Context (deps_settled : forall x d y, reach (succs fn) 0 (defBlock d) -> valueDefiningBlocks fn !! x = Some d -> y ∈ deps x ->
  settledAt fn (defBlock d) (defStep d) y).

(** The values a block was entered with: at the entry, or at the end of the
    block control came from. *)
Definition enteredFrom (p : nat) (from : string) (e : env) : Prop :=
  (from = "" /\ p = 0) \/
  exists q b, p ∈ succs fn q /\ reach (succs fn) 0 q /\ fBlocks fn !! q = Some b /\ bName b = from /\
    factsAt fn fact q (stepsOf fn q) e.

(** What else holds of the values and the memory at a point. *)
Context (inv : nat -> nat -> env -> M -> Prop).

(** Where a step of a run stands. *)
Record standing (p s : nat) (from : string) (e ρ : env) (m : M) : Prop := mkStanding {
  st_reach : reach (succs fn) 0 p;
  st_facts : factsAt fn fact p s ρ;
  st_entry : enteredFrom p from e;
  st_inv : inv p s ρ m
}.

Context (inv_start : forall ρ m, inv 0 0 ρ m).
Context (inv_step : forall p s i from e ρ m v m', standing p s from e ρ m -> instrAt fn p s i ->
  runInstr (X := X) from e ρ m i = Next v m' -> inv p (S s) (assign ρ i v) m').
Context (inv_jump : forall p q ρ m, reach (succs fn) 0 p -> q ∈ succs fn p -> factsAt fn fact p (stepsOf fn p) ρ ->
  inv p (stepsOf fn p) ρ m -> inv q 0 ρ m).

Context (names_same : map bName (fBlocks fn') = map bName (fBlocks fn)).
Context (instr_same : forall p b b', fBlocks fn !! p = Some b -> fBlocks fn' !! p = Some b' ->
  List.length (bInstrs b') = List.length (bInstrs b)).
Context (instr_keeps : forall p s i b' i' from e ρ m, standing p s from e ρ m -> instrAt fn p s i ->
  fBlocks fn' !! p = Some b' -> bInstrs b' !! s = Some i' ->
  iResult i' = iResult i /\ (runInstr from e ρ m i = Undefined \/ runInstr from e ρ m i' = runInstr from e ρ m i)).
Context (establishes : forall p s i from e ρ m v m', standing p s from e ρ m -> instrAt fn p s i ->
  runInstr (X := X) from e ρ m i = Next v m' -> resultName i <> "" -> fact (resultName i) (assign ρ i v)).
Context (terminator_keeps : forall p b b' ρ m, reach (succs fn) 0 p -> factsAt fn fact p (stepsOf fn p) ρ ->
  fBlocks fn !! p = Some b -> fBlocks fn' !! p = Some b' ->
  runTerminator (X := X) ρ m (bTerminator b) = inr Stuck \/
  runTerminator (X := X) ρ m (bTerminator b') = runTerminator ρ m (bTerminator b)).

Lemma keep_instrs p b b' from e l : forall l' s ρ m,
  standing p s from e ρ m -> fBlocks fn !! p = Some b -> fBlocks fn' !! p = Some b' ->
  l = drop s (bInstrs b) -> l' = drop s (bInstrs b') -> s <= stepsOf fn p ->
  runInstrs from e ρ m l = inr Stuck \/
  (runInstrs from e ρ m l' = runInstrs from e ρ m l /\
   forall ρ1 m1, runInstrs from e ρ m l = inl (ρ1, m1) -> factsAt fn fact p (stepsOf fn p) ρ1 /\ inv p (stepsOf fn p) ρ1 m1).
Proof.
  assert (Hsteps : fBlocks fn !! p = Some b -> stepsOf fn p = List.length (bInstrs b)) by (unfold stepsOf; intros ->; reflexivity).
  induction l as [|i l IH]; intros l' s ρ m Hst Hb Hb' Hl Hl' Hle; rewrite (Hsteps Hb) in *; pose proof (instr_same p b b' Hb Hb') as Hlen.
  - assert (Hs : List.length (bInstrs b) <= s) by (apply (f_equal List.length) in Hl; rewrite length_drop in Hl; cbn in Hl; lia).
    rewrite drop_ge in Hl' by lia. subst l'. right. split; [reflexivity|]. cbn [runInstrs]. intros ρ1 m1 [= <- <-].
    assert (s = List.length (bInstrs b)) as -> by lia. destruct Hst as [_ Hf _ Hi]. auto.
  - assert (Hi : bInstrs b !! s = Some i) by (rewrite <- (Nat.add_0_r s), <- lookup_drop, <- Hl; reflexivity).
    assert (Htl : l = drop (S s) (bInstrs b)) by (rewrite (drop_S _ _ _ Hi) in Hl; congruence).
    destruct (lookup_lt_is_Some_2 (bInstrs b') s) as [i' Hi']; [rewrite Hlen; eapply lookup_lt_Some, Hi|].
    rewrite (drop_S _ _ _ Hi') in Hl'. subst l'. cbn [runInstrs].
    assert (Hat : instrAt fn p s i) by (exists b; auto).
    destruct (instr_keeps p s i b' i' from e ρ m Hst Hat Hb' Hi') as [Hres [Hk|Hk]]; [rewrite Hk; auto|]. rewrite Hk.
    destruct (runInstr from e ρ m i) as [v m'|x|] eqn:Hrun; [|right; split; [reflexivity | discriminate] | auto].
    assert (Has : assign ρ i' v = assign ρ i v) by (unfold assign; rewrite Hres; reflexivity). rewrite Has.
    pose proof (lookup_lt_Some _ _ _ Hi). apply (IH _ (S s)); [|exact Hb | exact Hb' | exact Htl | reflexivity | lia].
    split; [apply Hst | | apply Hst | eapply inv_step; eauto].
    eapply facts_step; [exact Hsound | exact fact_local | exact deps_settled | apply Hst | exact Hat | apply Hst |].
    intros Hne. eapply establishes; eauto.
Qed.

Lemma target_succ p b (ρ : env) m target next :
  fBlocks fn !! p = Some b -> runTerminator (X := X) ρ m (bTerminator b) = inl target ->
  blockIndex fn !! target = Some next -> next ∈ succs fn p.
Proof.
  intros Hb Ht Hn. assert (Hin : target = tTarget (bTerminator b) \/ target = tElse (bTerminator b)).
  { unfold runTerminator in Ht. destruct (String.eqb _ "jump"); [injection Ht as <-; auto|].
    destruct (String.eqb _ "branch").
    - destruct (operand ρ _ ≫= truth) as [[]|]; try discriminate; injection Ht as <-; auto.
    - destruct (String.eqb _ "return"); [destruct (_ || _); [discriminate|]; destruct (operand ρ _); discriminate|].
      destruct (String.eqb _ "unreachable"); discriminate. }
  assert (Hne : target <> "").
  { intros ->. apply blockIndex_Some in Hn as (c & Hc & E). apply (sound_named _ _ _ Hsound). rewrite <- E.
    apply list_elem_of_fmap_2. eapply list_elem_of_lookup_2, Hc. }
  unfold succs, succPositions. rewrite Hb. apply list_elem_of_omap. exists target. split; [|exact Hn].
  apply elem_of_Successors. auto.
Qed.

Lemma keep_blocks fuel : forall from cur ρ m,
  standing cur 0 from ρ ρ m -> refines (runBlocks fuel fn from cur ρ m) (runBlocks fuel fn' from cur ρ m).
Proof.
  induction fuel as [|fuel IH]; intros from cur ρ m Hst; [intros _; reflexivity|]. intros Hs. cbn [runBlocks] in *.
  destruct (fBlocks fn !! cur) as [b|] eqn:Hb; [|contradiction].
  assert (Hname : map bName (fBlocks fn') !! cur = Some (bName b)) by (rewrite names_same, list_lookup_fmap, Hb; reflexivity).
  rewrite list_lookup_fmap in Hname. destruct (fBlocks fn' !! cur) as [b'|] eqn:Hb'; [|discriminate].
  injection Hname as Hname.
  destruct (keep_instrs cur b b' from ρ (bInstrs b) (bInstrs b') 0 ρ m Hst Hb Hb' eq_refl eq_refl (Nat.le_0_l _)) as [E|[E Hfacts]];
    [rewrite E in Hs; contradiction|]. rewrite E.
  destruct (runInstrs from ρ ρ m (bInstrs b)) as [[ρ1 m1]|o]; [|reflexivity]. destruct (Hfacts ρ1 m1 eq_refl) as [Hf1 Hi1].
  destruct Hst as [Hr Hf He Hinv].
  destruct (terminator_keeps cur b b' ρ1 m1 Hr Hf1 Hb Hb') as [Et|Et]; [rewrite Et in Hs; contradiction|]. rewrite Et.
  destruct (runTerminator ρ1 m1 (bTerminator b)) as [target|o] eqn:Ht; [|reflexivity].
  rewrite (blockIndex_names fn' fn names_same), Hname.
  destruct (blockIndex fn !! target) as [next|] eqn:Hn; [|contradiction].
  pose proof (target_succ cur b ρ1 m1 target next Hb Ht Hn) as Hsucc. apply IH; [|exact Hs].
  split; [eapply reach_step; eauto | eapply facts_jump; eauto | right; exists cur, b; auto | eapply inv_jump; eauto].
Qed.

Lemma keep_function : map pName (fParams fn') = map pName (fParams fn) -> keeps fn fn'.
Proof.
  intros E fuel args m Hs. unfold runFunction, bindParams in *. rewrite E. apply keep_blocks; [|exact Hs].
  split; [apply reach_refl | apply facts_start | left; auto | apply inv_start].
Qed.
End Keep.

(** ** One replacement for every read *)

Lemma shape_mapReads f i : (forall v, v ∈ readOperands i -> vType (f v) = vType v) -> shape (mapReads f i) = shape i.
Proof.
  intros Hf. unfold shape, mapReads. cbn [iResult iOp iArgs iExternABI iExternName iCallParams iVariadicFixed iImmediate iFields iCleanups].
  assert (Hun : forall l, (forall v, v ∈ l -> v ∈ readOperands i) -> map unnamed (map f l) = map unnamed l).
  { intros l Hl. rewrite map_map. apply map_ext_in. intros v Hv. unfold unnamed. rewrite Hf; [reflexivity|].
    apply Hl, list_elem_of_In, Hv. }
  unfold readOperands in Hun. f_equal.
  - apply Hun. intros v Hv. apply elem_of_app. auto.
  - rewrite map_map. apply map_ext_in. intros fa Hfa. cbn [faName faValue]. unfold unnamed. f_equal. f_equal. apply Hf.
    unfold readOperands. rewrite !elem_of_app. right. left. apply list_elem_of_fmap_2, list_elem_of_In, Hfa.
  - rewrite map_map. apply map_ext_in. intros c Hc. cbn [clOp clArgs clLoads clExternABI clExternName clCallParams clVariadicFixed clOnError].
    f_equal. apply Hun. intros v Hv. rewrite !elem_of_app. right. right. apply list_elem_of_In, in_flat_map.
    exists c. split; [exact Hc | apply list_elem_of_In, Hv].
Qed.

Lemma readOperands_mapReads f i : readOperands (mapReads f i) = map f (readOperands i).
Proof.
  unfold readOperands, mapReads. cbn [iArgs iFields iCleanups]. rewrite !map_app, !map_map. f_equal. f_equal.
  induction (iCleanups i) as [|c l IH]; [reflexivity|]. cbn [map flat_map clArgs]. rewrite map_app, IH. reflexivity.
Qed.

(** The value read in place of another. *)
Definition replaced (K : gmap string Value) (v : Value) : Value := default v (K !! vName v).

Section Replace.
Context {V M X : Type} {machine : Machine V M X}.
Context (module : Module_) (params : gmap string (list Param)) (fn : Function).
Context (Hsound : sound module params fn).
Context (K : gmap string Value).

Abbreviation env := (gmap string V).

(** The reads of a value have the type of the instruction that computes it. *)
Definition typedRead (v : Value) : Prop :=
  forall j, j ∈ instrsOf (fBlocks fn) -> resultName j = vName v -> vName v <> "" -> vType v = vType (iResult j).

(** What a replacement promises: the two values are one where the first is
    available, and have one type. *)
Context (fact : string -> env -> Prop) (inv : nat -> nat -> env -> M -> Prop).
Context (fact_equal : forall x e ρ, K !! x = Some e -> fact x ρ -> exists v, ρ !! x = Some v /\ operand ρ e = Some v).
Context (K_defined : forall x e, K !! x = Some e -> exists p s j, instrAt fn p s j /\ resultName j = x /\ x <> "" /\
  vType e = vType (iResult j)).

Lemma replaced_type v : typedRead v -> vType (replaced K v) = vType v.
Proof.
  intros Ht. unfold replaced. destruct (K !! vName v) as [e|] eqn:He; [|reflexivity]. cbn [default id].
  destruct (K_defined _ _ He) as (p & s & j & Hj & Hn & Hne & Hty). rewrite Hty. symmetry.
  apply Ht; [eapply instrAt_in, Hj | exact Hn | exact Hne].
Qed.

Lemma replaced_operand p s (ρ : env) v :
  factsAt fn fact p s ρ -> settledAt fn p s (vName v) -> operand ρ (replaced K v) = operand ρ v.
Proof.
  intros Hf Hs. unfold replaced. destruct (K !! vName v) as [e|] eqn:He; [|reflexivity]. cbn [default id].
  destruct (K_defined _ _ He) as (q & t & j & Hj & Hn & Hne & _).
  assert (Hd : valueDefiningBlocks fn !! vName v = Some (mkDefinition q t)).
  { rewrite <- Hn. eapply defs_at; [exact Hsound | exact Hj | congruence]. }
  destruct (fact_equal _ _ ρ He) as (w & Hw & Ho); [apply Hf; exists (mkDefinition q t); auto|].
  unfold operand at 2. rewrite Hw. exact Ho.
Qed.

Lemma replaced_operands p s (ρ : env) l :
  factsAt fn fact p s ρ -> (forall v, v ∈ l -> settledAt fn p s (vName v)) ->
  mapM (operand ρ) (map (replaced K) l) = mapM (operand ρ) l.
Proof.
  intros Hf Hl. induction l as [|v l IH]; [reflexivity|]. cbn [map mapM].
  rewrite (replaced_operand p s) by (auto; apply Hl; left). unfold mbind. rewrite IH; [reflexivity|].
  intros w Hw. apply Hl. right. exact Hw.
Qed.

(** An instruction with its reads replaced does the same. *)
Lemma replaced_instr p s i from (e ρ : env) m :
  standing fn fact inv p s from e ρ m -> instrAt fn p s i -> (forall v, v ∈ readOperands i -> typedRead v) ->
  runInstr from e ρ m (mapReads (replaced K) i) = runInstr from e ρ m i \/ runInstr (X := X) from e ρ m i = Undefined.
Proof.
  intros [Hr Hf He _] (b & Hb & Hi) Hty. pose proof (sound_wf _ _ _ Hsound) as Hwf. unfold runInstr.
  change (iOp (mapReads (replaced K) i)) with (iOp i). destruct (String.eqb_spec (iOp i) "phi") as [Hop|Hop].
  - unfold phiValue. change (iIncoming (mapReads (replaced K) i)) with
      (map (fun inc => mkIncoming (inBlock inc) (replaced K (inValue inc))) (iIncoming i)).
    assert (Hfind : forall l, List.find (fun inc => String.eqb (inBlock inc) from)
        (map (fun inc => mkIncoming (inBlock inc) (replaced K (inValue inc))) l) =
        option_map (fun inc => mkIncoming (inBlock inc) (replaced K (inValue inc)))
          (List.find (fun inc => String.eqb (inBlock inc) from) l)).
    { induction l as [|inc l IH]; [reflexivity|]. cbn [map List.find inBlock]. destruct (String.eqb (inBlock inc) from); [reflexivity | exact IH]. }
    rewrite Hfind. destruct (List.find _ (iIncoming i)) as [inc|] eqn:Hinc; [|right; reflexivity]. cbn [option_map inValue]. left.
    pose proof (List.find_some _ _ Hinc) as [Hin Hfrom]. apply String.eqb_eq in Hfrom. apply list_elem_of_In in Hin.
    destruct (wf_phis _ _ _ Hwf p b i Hb (list_elem_of_lookup_2 _ _ _ Hi) Hop) as [(Hcov & _ & _) Hdom].
    destruct (Hcov inc Hin) as (q & Hq & Hsucc).
    destruct He as [[-> ->]|(q' & c & Hs & Hq' & Hc & Hn & Hfe)].
    + exfalso. unfold at_ in Hq. rewrite Hfrom in Hq. apply blockIndex_Some in Hq as (c & Hc & Hn).
      apply (sound_named _ _ _ Hsound). rewrite <- Hn. apply list_elem_of_fmap_2. eapply list_elem_of_lookup_2, Hc.
    + assert (q = q') as ->.
      { unfold at_ in Hq. rewrite Hfrom, <- Hn in Hq. apply blockIndex_Some in Hq as (c' & Hc' & Hn').
        eapply (NoDup_lookup _ _ _ (bName c) (sound_blocks _ _ _ Hsound)); rewrite list_lookup_fmap;
          [rewrite Hc'; cbn; congruence | rewrite Hc; reflexivity]. }
      rewrite (replaced_operand q' (stepsOf fn q')); [reflexivity | exact Hfe |].
      intros d Hd. pose proof (Hdom inc d q' Hin Hd Hq) as Hdq.
      destruct (decide (defBlock d = q')) as [E|E]; [left | right; auto]. split; [exact E|].
      rewrite <- E. eapply valueDefiningBlocks_valid, Hd.
  - left. rewrite readOperands_mapReads, (replaced_operands p s ρ).
    + destruct (mapM (operand ρ) (readOperands i)); [|reflexivity]. rewrite shape_mapReads; [reflexivity|].
      intros v Hv. apply replaced_type, Hty, Hv.
    + exact Hf.
    + intros v Hv. exact (wf_uses _ _ _ Hwf p b s i v Hb Hi Hop Hv).
Qed.

Lemma replaced_terminator p b (ρ : env) m :
  factsAt fn fact p (stepsOf fn p) ρ -> fBlocks fn !! p = Some b ->
  typedRead (tValue (bTerminator b)) ->
  runTerminator (X := X) ρ m (mapTerminator (replaced K) (bTerminator b)) = runTerminator ρ m (bTerminator b).
Proof.
  intros Hf Hb Hty. pose proof (wf_ends_uses _ _ _ (sound_wf _ _ _ Hsound) p b) as Huse.
  assert (Hop : forall v, v ∈ [tCond (bTerminator b); tValue (bTerminator b)] -> operand ρ (replaced K v) = operand ρ v).
  { intros v Hv. apply (replaced_operand p (stepsOf fn p)); [exact Hf|]. unfold stepsOf. rewrite Hb. apply (Huse v Hb Hv). }
  unfold runTerminator, mapTerminator. cbn [tOp tValue tCond tTarget tElse].
  rewrite !Hop by (repeat (left || right)). rewrite replaced_type by exact Hty. reflexivity.
Qed.
End Replace.

(** * One map of replacements applied to every read

    What [replaceFunctionValues] makes of a function when no replacement is
    itself replaced, and that the function runs the same when a value and its
    replacement are one: shared by the passes that end with it. *)

(** No replacement is itself replaced. *)
Definition flat (K : replacements_map) : Prop := forall x e, K !! x = Some e -> K !! vName e = None.

Lemma resolve_flat K v : flat K -> resolve K v = Some (replaced K v).
Proof.
  intros Hflat. unfold resolve, replaced. destruct (K !! vName v) as [e|] eqn:He.
  - pose proof (Hflat _ _ He) as Hn. assert (Hs : base.size K <> 0).
    { rewrite map_size_non_empty_iff. intros ->. rewrite lookup_empty in He. discriminate. }
    destruct (base.size K) as [|n]; [contradiction|]. cbn [resolveFrom]. rewrite He. destruct n; cbn [resolveFrom]; rewrite Hn; reflexivity.
  - destruct (base.size K); cbn [resolveFrom]; rewrite He; reflexivity.
Qed.

Lemma mapM_Some {A B} (f : A -> option B) (g : A -> B) l : (forall x, f x = Some (g x)) -> mapM f l = Some (map g l).
Proof. intros Hf. induction l as [|x l IH]; [reflexivity|]. cbn [mapM map]. rewrite Hf. unfold mbind. cbn. rewrite IH. reflexivity. Qed.

Definition replaceBlock (K : replacements_map) (b : Block) : Block :=
  mkBlock (bName b) (map (mapReads (replaced K)) (bInstrs b)) (mapTerminator (replaced K) (bTerminator b)).

Lemma map_ext_elem {A B} (f g : A -> B) l : (forall x, x ∈ l -> f x = g x) -> map f l = map g l.
Proof. intros H. apply map_ext_in. intros x Hx. apply H, list_elem_of_In, Hx. Qed.

Lemma elem_args i a : a ∈ iArgs i -> a ∈ readOperands i.
Proof. intros H. apply elem_of_app. auto. Qed.

Lemma elem_fields i fa : fa ∈ iFields i -> faValue fa ∈ readOperands i.
Proof. intros H. unfold readOperands. rewrite !elem_of_app. right. left. apply list_elem_of_fmap_2, H. Qed.

Lemma elem_cleanups i c a : c ∈ iCleanups i -> a ∈ clArgs c -> a ∈ readOperands i.
Proof.
  intros Hc Ha. unfold readOperands. rewrite !elem_of_app. right. right. apply list_elem_of_In, in_flat_map.
  exists c. split; apply list_elem_of_In; assumption.
Qed.

Lemma mapReads_id i : mapReads (fun v => v) i = i.
Proof.
  destruct i as [res op args abi name params fixed imm fields incoming cleanups span]. unfold mapReads. cbn. f_equal.
  - apply map_id.
  - rewrite <- (map_id fields) at 2. apply map_ext. intros []; reflexivity.
  - rewrite <- (map_id incoming) at 2. apply map_ext. intros []; reflexivity.
  - rewrite <- (map_id cleanups) at 2. apply map_ext. intros []; cbn. rewrite map_id. reflexivity.
Qed.

Lemma mapReadsM_Some f r i : (forall v, f v = Some (r v)) -> mapReadsM f i = Some (mapReads r i).
Proof.
  intros Hf. unfold mapReadsM. rewrite (mapM_Some f r) by exact Hf. cbn [mbind option_bind].
  rewrite (mapM_Some _ (fun inc => mkIncoming (inBlock inc) (r (inValue inc)))) by (intros x; rewrite Hf; reflexivity).
  cbn [mbind option_bind].
  rewrite (mapM_Some _ (fun fa => mkFieldArg (faName fa) (r (faValue fa)))) by (intros x; rewrite Hf; reflexivity).
  cbn [mbind option_bind].
  rewrite (mapM_Some _ (fun c => mkCleanup (clOp c) (map r (clArgs c)) (clLoads c) (clExternABI c) (clExternName c)
                     (clCallParams c) (clVariadicFixed c) (clOnError c) (clReceiver c)))
    by (intros c; rewrite (mapM_Some f r) by exact Hf; reflexivity).
  reflexivity.
Qed.

Lemma replaceFunctionValues_flat blocks K :
  flat K -> replaceFunctionValues blocks K = Some (map (replaceBlock K) blocks).
Proof.
  intros Hflat. apply mapM_Some. intros b. unfold mapBlockReadsM.
  rewrite (mapM_Some _ (mapReads (replaced K))) by (intros i; apply mapReadsM_Some; intros v; apply resolve_flat, Hflat).
  cbn [mbind option_bind]. rewrite !resolve_flat by exact Hflat. reflexivity.
Qed.

Lemma replaceBlock_empty b : replaceBlock ∅ b = b.
Proof.
  assert (Hr : forall v, replaced ∅ v = v) by (intros v; unfold replaced; rewrite lookup_empty; reflexivity).
  unfold replaceBlock. destruct b as [n l [op v c t e]]. unfold mapTerminator. cbn. rewrite !Hr. f_equal.
  rewrite <- (map_id l) at 2. apply map_ext. intros i. rewrite <- (mapReads_id i) at 2.
  unfold mapReads. f_equal; apply map_ext; intros x; rewrite ?Hr; reflexivity.
Qed.

(** [typedRead], as a test. *)
Lemma typedRead_test fn v :
  String.eqb (vName v) "" || forallb (fun j => negb (String.eqb (resultName j) (vName v)) || String.eqb (vType v) (vType (iResult j)))
    (instrsOf (fBlocks fn)) = true -> typedRead fn v.
Proof.
  intros H j Hj Hn Hne. rewrite (proj2 (String.eqb_neq _ _) Hne) in H. cbn [orb] in H. rewrite forallb_forall in H.
  specialize (H j (proj1 (list_elem_of_In _ _) Hj)). rewrite Hn, String.eqb_refl in H. apply String.eqb_eq, H.
Qed.

(** ** Environments that agree on a value's name *)

Section Agreement.
Context {V M X : Type} {machine : Machine V M X}.

Lemma operand_agree (ρ ρ' : gmap string V) a : ρ !! vName a = ρ' !! vName a -> operand ρ a = operand ρ' a.
Proof. intros H. unfold operand. rewrite H. reflexivity. Qed.

(** An assignment leaves what is settled before it. *)
Lemma settled_assign module params fn p s i a v (ρ : gmap string V) :
  sound module params fn -> instrAt fn p s i -> settledAt fn p s a -> assign ρ i v !! a = ρ !! a.
Proof.
  intros Hsound Hi Hs. unfold assign. destruct (String.eqb_spec (vName (iResult i)) "") as [|Hne]; [reflexivity|].
  apply lookup_insert_ne. intros <-. specialize (Hs _ (defs_at module params fn Hsound p s i Hi Hne)). unfold before in Hs.
  cbn [defBlock defStep] in Hs. destruct Hs as [[_ Hs]|[Hs _]]; [lia | congruence].
Qed.
End Agreement.

Section Replaced.
Context {V M X : Type} {machine : Machine V M X}.
Context (module : Module_) (params : gmap string (list Param)) (fn : Function).
Context (Hsound : sound module params fn) (K : replacements_map).

Abbreviation env := (gmap string V).

Context (fact : string -> env -> Prop) (inv : nat -> nat -> env -> M -> Prop).
Context (fact_equal : forall x e ρ, K !! x = Some e -> fact x ρ -> exists v, ρ !! x = Some v /\ operand ρ e = Some v).
Context (K_defined : forall x e, K !! x = Some e -> exists p s j, instrAt fn p s j /\ resultName j = x /\ x <> "" /\
  vType e = vType (iResult j)).
Context (Hreads : forall i v, i ∈ instrsOf (fBlocks fn) -> v ∈ readOperands i -> typedRead fn v).
Context (Hends : forall b, b ∈ fBlocks fn -> typedRead fn (tValue (bTerminator b))).
Context (deps : string -> list string).
Context (fact_local : forall x (ρ ρ' : env), ρ !! x = ρ' !! x -> (forall y, y ∈ deps x -> ρ !! y = ρ' !! y) -> fact x ρ -> fact x ρ').
Context (deps_settled : forall x d y, reach (succs fn) 0 (defBlock d) -> valueDefiningBlocks fn !! x = Some d -> y ∈ deps x ->
  settledAt fn (defBlock d) (defStep d) y).
Context (inv_start : forall ρ m, inv 0 0 ρ m).
Context (inv_step : forall p s i from e ρ m v m', standing fn fact inv p s from e ρ m -> instrAt fn p s i ->
  runInstr (X := X) from e ρ m i = Next v m' -> inv p (S s) (assign ρ i v) m').
Context (inv_jump : forall p q ρ m, reach (succs fn) 0 p -> q ∈ succs fn p -> factsAt fn fact p (stepsOf fn p) ρ ->
  inv p (stepsOf fn p) ρ m -> inv q 0 ρ m).
Context (establishes : forall p s i from e ρ m v m', standing fn fact inv p s from e ρ m -> instrAt fn p s i ->
  runInstr (X := X) from e ρ m i = Next v m' -> resultName i <> "" -> fact (resultName i) (assign ρ i v)).

(** The function with every read replaced runs the same. *)
Lemma replaced_keeps : keeps fn (set_fBlocks (fun _ => map (replaceBlock K) (fBlocks fn)) fn).
Proof.
  apply (keep_function module params fn _ Hsound fact deps fact_local deps_settled inv inv_start inv_step inv_jump).
  - cbn [set_fBlocks fBlocks]. rewrite map_map. reflexivity.
  - intros p b b' Hb Hb'. cbn [set_fBlocks fBlocks] in Hb'. rewrite list_lookup_fmap, Hb in Hb'. injection Hb' as <-.
    cbn [replaceBlock bInstrs]. apply length_map.
  - intros p s i b' i' from e ρ m Hst Hat Hb' Hi'. pose proof Hat as (b & Hb & Hi). cbn [set_fBlocks fBlocks] in Hb'.
    rewrite list_lookup_fmap, Hb in Hb'. injection Hb' as <-. cbn [replaceBlock bInstrs] in Hi'.
    rewrite list_lookup_fmap, Hi in Hi'. injection Hi' as <-. split; [reflexivity|].
    destruct (replaced_instr (X := X) module params fn Hsound K fact inv fact_equal K_defined p s i from e ρ m Hst Hat) as [E|E]; auto.
    intros v Hv. eapply Hreads; [eapply instrAt_in, Hat | exact Hv].
  - exact establishes.
  - intros p b b' ρ m _ Hf Hb Hb'. cbn [set_fBlocks fBlocks] in Hb'. rewrite list_lookup_fmap, Hb in Hb'. injection Hb' as <-.
    right. cbn [replaceBlock bTerminator]. eapply (replaced_terminator module params fn Hsound K fact fact_equal K_defined); [exact Hf | exact Hb|].
    apply Hends. eapply list_elem_of_lookup_2, Hb.
  - reflexivity.
Qed.
End Replaced.

(** * Expanding instructions

    Two functions with the same blocks, where each instruction of the first
    became a list of the second: none, one, or several that compute hidden
    names on the way.  When each list does what its instruction does under the
    facts and the invariant that hold where it stands, the functions run the
    same.  The first function is run by a machine on which some operations are
    left undefined: the runs the transformation does not promise to keep. *)

(** The machine without the operations that are refused. *)
Definition without {V M X} (machine : Machine V M X) (refused : Instr -> list V -> M -> bool) : Machine V M X := {|
  literal := literal (Machine := machine);
  operation i vs m := if refused i vs m then Undefined else operation (Machine := machine) i vs m;
  truth := truth (Machine := machine)
|}.

Section Expand.
Context {V M X : Type} {machine : Machine V M X} (refused : Instr -> list V -> M -> bool).
Context (module : Module_) (params : gmap string (list Param)) (fn fn' : Function).
Context (Hsound : sound module params fn).

Abbreviation env := (gmap string V).
Abbreviation covered := (without machine refused).

(** The names the second function adds. *)
Context (hidden : string -> Prop).

Definition agrees (ρ ρ' : env) : Prop := forall x, ~ hidden x -> ρ' !! x = ρ !! x.

Context (fact : string -> env -> Prop) (deps : string -> list string).
Context (fact_local : forall x (ρ ρ' : env), ρ !! x = ρ' !! x -> (forall y, y ∈ deps x -> ρ !! y = ρ' !! y) -> fact x ρ -> fact x ρ').
Context (deps_settled : forall x d y, reach (succs fn) 0 (defBlock d) -> valueDefiningBlocks fn !! x = Some d -> y ∈ deps x ->
  settledAt fn (defBlock d) (defStep d) y).
Context (inv : nat -> nat -> env -> M -> Prop).

(** The values a block was entered with, and what held at the end of the block
    control came from. *)
Definition arrived (p : nat) (from : string) (e : env) : Prop :=
  (from = "" /\ p = 0) \/
  exists q b m, p ∈ succs fn q /\ reach (succs fn) 0 q /\ fBlocks fn !! q = Some b /\ bName b = from /\
    factsAt fn fact q (stepsOf fn q) e /\ inv q (stepsOf fn q) e m.

Record reached (p s : nat) (from : string) (e ρ : env) (m : M) : Prop := mkReached {
  re_reach : reach (succs fn) 0 p;
  re_facts : factsAt fn fact p s ρ;
  re_entry : arrived p from e;
  re_inv : inv p s ρ m
}.

Lemma reached_standing p s from e ρ m : reached p s from e ρ m -> standing fn fact inv p s from e ρ m.
Proof.
  intros [H1 H2 H3 H4]. split; [exact H1 | exact H2 | | exact H4].
  destruct H3 as [H3|(q & b & m' & G1 & G2 & G3 & G4 & G5 & _)]; [left; exact H3 | right; exists q, b; auto].
Qed.

Context (inv_step : forall p s i from e ρ m v m', reached p s from e ρ m -> instrAt fn p s i ->
  runInstr (machine := covered) from e ρ m i = Next v m' -> inv p (S s) (assign ρ i v) m').
Context (inv_jump : forall p q b ρ m target, reach (succs fn) 0 p -> q ∈ succs fn p -> factsAt fn fact p (stepsOf fn p) ρ ->
  inv p (stepsOf fn p) ρ m -> fBlocks fn !! p = Some b -> runTerminator (X := X) ρ m (bTerminator b) = inl target ->
  blockIndex fn !! target = Some q -> inv q 0 ρ m).
Context (establishes : forall p s i from e ρ m v m', reached p s from e ρ m -> instrAt fn p s i ->
  runInstr (machine := covered) from e ρ m i = Next v m' -> resultName i <> "" -> fact (resultName i) (assign ρ i v)).

(** Where a block went, and what the instruction at a place became. *)
Context (matches : nat -> nat -> Prop) (expansion : nat -> nat -> list Instr).
Context (matches_start : matches 0 0).
Context (matches_jump : forall target q, reach (succs fn) 0 q -> blockIndex fn !! target = Some q ->
  exists q', blockIndex fn' !! target = Some q' /\ matches q q').
Context (block_expands : forall p p' b, reach (succs fn) 0 p -> matches p p' -> fBlocks fn !! p = Some b ->
  exists b', fBlocks fn' !! p' = Some b' /\ bName b' = bName b /\
    bInstrs b' = List.concat (map (expansion p) (seq 0 (List.length (bInstrs b))))).

(** The list does what the instruction does. *)
Definition expands (from : string) (e e' ρ ρ' : env) (m : M) (i : Instr) (l : list Instr) : Prop :=
  match runInstr (machine := covered) from e ρ m i with
  | Next v m' => exists ρ1, runInstrs from e' ρ' m l = inl (ρ1, m') /\ agrees (assign ρ i v) ρ1
  | Halt x => runInstrs from e' ρ' m l = inr (Stopped x)
  | Undefined => True
  end.

Context (instr_expands : forall p s i from e e' ρ ρ' m, reached p s from e ρ m -> instrAt fn p s i ->
  agrees e e' -> agrees ρ ρ' -> expands from e e' ρ ρ' m i (expansion p s)).
Context (terminator_expands : forall p p' b b' ρ ρ' m, reach (succs fn) 0 p -> factsAt fn fact p (stepsOf fn p) ρ ->
  matches p p' -> fBlocks fn !! p = Some b -> fBlocks fn' !! p' = Some b' -> agrees ρ ρ' ->
  runTerminator (X := X) ρ' m (bTerminator b') = runTerminator ρ m (bTerminator b)).

Lemma expand_instrs p b from e e' : fBlocks fn !! p = Some b -> agrees e e' -> forall l s ρ ρ' m,
  reached p s from e ρ m -> l = drop s (bInstrs b) -> s <= List.length (bInstrs b) -> agrees ρ ρ' ->
  match runInstrs (machine := covered) from e ρ m l with
  | inl (ρ1, m1) => exists ρ1', runInstrs from e' ρ' m (List.concat (map (expansion p) (seq s (List.length l)))) = inl (ρ1', m1) /\
      agrees ρ1 ρ1' /\ reached p (List.length (bInstrs b)) from e ρ1 m1
  | inr Stuck => True
  | inr o => runInstrs from e' ρ' m (List.concat (map (expansion p) (seq s (List.length l)))) = inr o
  end.
Proof.
  intros Hb Hee. induction l as [|i l IH]; intros s ρ ρ' m Hst Hl Hle Hag.
  - assert (s = List.length (bInstrs b)) as -> by (apply (f_equal List.length) in Hl; rewrite length_drop in Hl; cbn in Hl; lia).
    cbn. exists ρ'. auto.
  - assert (Hi : bInstrs b !! s = Some i) by (rewrite <- (Nat.add_0_r s), <- lookup_drop, <- Hl; reflexivity).
    assert (Htl : l = drop (S s) (bInstrs b)) by (rewrite (drop_S _ _ _ Hi) in Hl; congruence).
    assert (Hat : instrAt fn p s i) by (exists b; auto). pose proof (lookup_lt_Some _ _ _ Hi).
    pose proof (instr_expands p s i from e e' ρ ρ' m Hst Hat Hee Hag) as Hx. unfold expands in Hx.
    cbn [runInstrs List.length seq map List.concat]. rewrite runInstrs_app.
    destruct (runInstr (machine := covered) from e ρ m i) as [v m'|x|] eqn:Hrun; [|rewrite Hx; reflexivity | exact I].
    destruct Hx as (ρ1 & -> & Hag1). apply (IH (S s)); [|exact Htl | lia | exact Hag1].
    split; [apply Hst | | apply Hst | eapply inv_step; eauto].
    eapply facts_step; [exact Hsound | exact fact_local | exact deps_settled | apply Hst | exact Hat | apply Hst |].
    intros Hne. eapply establishes; eauto.
Qed.

Lemma expand_blocks fuel : forall from cur cur' ρ ρ' m,
  reached cur 0 from ρ ρ m -> matches cur cur' -> agrees ρ ρ' ->
  refines (runBlocks (machine := covered) fuel fn from cur ρ m) (runBlocks fuel fn' from cur' ρ' m).
Proof.
  induction fuel as [|fuel IH]; intros from cur cur' ρ ρ' m Hst Hm Hag; [intros _; reflexivity|]. intros Hs. cbn [runBlocks] in *.
  destruct (fBlocks fn !! cur) as [b|] eqn:Hb; [|contradiction].
  destruct (block_expands cur cur' b) as (b' & Hb' & Hname & Hinstrs); [apply Hst | exact Hm | exact Hb|]. rewrite Hb'.
  pose proof (expand_instrs cur b from ρ ρ' Hb Hag (bInstrs b) 0 ρ ρ' m Hst eq_refl (Nat.le_0_l _) Hag) as Hx.
  rewrite <- Hinstrs in Hx.
  destruct (runInstrs (machine := covered) from ρ ρ m (bInstrs b)) as [[ρ1 m1]|o].
  2: { destruct o; try contradiction; rewrite Hx; reflexivity. }
  destruct Hx as (ρ1' & -> & Hag1 & Hst1). replace (List.length (bInstrs b)) with (stepsOf fn cur) in Hst1 by (unfold stepsOf; rewrite Hb; reflexivity). destruct Hst1 as [Hr Hf He Hinv].
  rewrite (terminator_expands cur cur' b b' ρ1 ρ1' m1 Hr Hf Hm Hb Hb' Hag1).
  change (runTerminator (machine := covered) ρ1 m1 (bTerminator b)) with (runTerminator (X := X) ρ1 m1 (bTerminator b)) in *.
  destruct (runTerminator ρ1 m1 (bTerminator b)) as [target|o] eqn:Ht; [|reflexivity].
  destruct (blockIndex fn !! target) as [next|] eqn:Hn; [|contradiction].
  pose proof (target_succ module params fn Hsound cur b ρ1 m1 target next Hb Ht Hn) as Hsucc.
  assert (Hnext : reach (succs fn) 0 next) by (eapply reach_step; eauto).
  destruct (matches_jump target next Hnext Hn) as (next' & -> & Hm'). rewrite Hname.
  apply IH; [|exact Hm' | exact Hag1 | exact Hs].
  split; [exact Hnext | eapply facts_jump; [exact Hsucc | exact Hf] | right; exists cur, b, m1; auto 10 |
    exact (inv_jump cur next b ρ1 m1 target Hr Hsucc Hf Hinv Hb Ht Hn)].
Qed.

Lemma expand_function fuel args m :
  map pName (fParams fn') = map pName (fParams fn) -> inv 0 0 (bindParams (fParams fn) args) m ->
  refines (runFunction (machine := covered) fuel fn args m) (runFunction fuel fn' args m).
Proof.
  intros E Hinv Hs. unfold runFunction, bindParams in *. rewrite E. apply expand_blocks; [|exact matches_start | intros x _; reflexivity | exact Hs].
  split; [apply reach_refl | apply facts_start | left; auto | exact Hinv].
Qed.

(** A run on the covered operations is a run. *)
Lemma covered_blocks fuel : forall from cur ρ m,
  refines (runBlocks (machine := covered) fuel fn from cur ρ m) (runBlocks fuel fn from cur ρ m).
Proof.
  assert (Hi : forall from e ρ m i, runInstr (machine := covered) from e ρ m i = Undefined \/
    runInstr (machine := covered) from e ρ m i = runInstr from e ρ m i).
  { intros from e ρ m i. unfold runInstr. change (phiValue (machine := covered)) with (phiValue (X := X) (V := V)).
    change (operand (machine := covered)) with (operand (X := X) (V := V)).
    destruct (String.eqb (iOp i) "phi"); [right; reflexivity|]. destruct (mapM (operand ρ) (readOperands i)); [|auto].
    cbn [operation without]. destruct (refused (shape i) l m); auto. }
  assert (Hl : forall from e l ρ m, runInstrs (machine := covered) from e ρ m l = inr Stuck \/
    runInstrs (machine := covered) from e ρ m l = runInstrs from e ρ m l).
  { intros from e. induction l as [|i l IH]; intros ρ m; [right; reflexivity|]. cbn [runInstrs].
    destruct (Hi from e ρ m i) as [->| ->]; [auto|]. destruct (runInstr from e ρ m i); auto. }
  induction fuel as [|fuel IH]; intros from cur ρ m Hs; [reflexivity|]. cbn [runBlocks] in *.
  destruct (fBlocks fn !! cur) as [b|]; [|contradiction].
  destruct (Hl from ρ (bInstrs b) ρ m) as [E|E]; rewrite E in *; [contradiction|].
  destruct (runInstrs (machine := machine) from ρ ρ m (bInstrs b)) as [[ρ1 m1]|o]; [|reflexivity].
  change (runTerminator (machine := covered) ρ1 m1 (bTerminator b)) with (runTerminator (X := X) ρ1 m1 (bTerminator b)) in *.
  destruct (runTerminator ρ1 m1 (bTerminator b)); [|reflexivity]. destruct (blockIndex fn !! _); [|reflexivity]. apply IH, Hs.
Qed.
End Expand.
