(* ===== verification/OptimizeTheorems.v ===== *)
(** * What the local passes promise ([internal/ir/optimize.go]) *)

From stdpp Require Import base list strings gmap.
From Stdlib Require Import ZArith Lia String.
From S2P Require Import Prelude GoStd IR Cfg CfgFacts Verify VerifyFacts Semantics Optimize Dce.
From S2P Require Import Ssa Simplify Available.

#[local] Open Scope string_scope.
#[local] Open Scope list_scope.

(** ** A machine to run examples on: words, and a memory that is a log *)

Definition logOperation (i : Instr) (vs : list Z) (m : list Z) : step Z (list Z) unit :=
  if String.eqb (iOp i) "const" then
    if String.eqb (vType (iResult i)) "i64" then
      match ParseInt (iImmediate i) with Some n => Next (toWord n) m | None => Undefined end
    else Next (if String.eqb (iImmediate i) "true" then 1%Z else 0%Z) m
  else if String.eqb (iOp i) "call.log" then
    match vs with [a] => Next 0%Z (m ++ [a]) | _ => Undefined end
  else if String.eqb (iOp i) "call.exit" then Halt tt
  else match vs with
  | [a] => if String.eqb (iOp i) "id" then Next a m else Undefined
  | [a; b] =>
      match wordOp (iOp i), wordCompare (iOp i) with
      | Some f, _ => Next (f a b) m
      | None, Some f => Next (if f a b then 1%Z else 0%Z) m
      | None, None => Undefined
      end
  | _ => Undefined
  end.

#[export] Instance logMachine : Machine Z (list Z) unit := {
  literal v := if String.eqb (vType v) "i64" then toWord <$> ParseInt (vName v) else None;
  operation := logOperation;
  truth v := Some (negb (v =? 0)%Z)
}.

#[export] Instance logPure : PureMachine logMachine.
Proof.
  split. intros i vs m Hp. cbn [operation logMachine]. unfold logOperation.
  destruct (String.eqb_spec (iOp i) "const").
  { destruct (String.eqb _ "i64"); [destruct (ParseInt _)|]; auto. }
  destruct (String.eqb_spec (iOp i) "call.log") as [E|_]; [rewrite E in Hp; discriminate|].
  destruct (String.eqb_spec (iOp i) "call.exit") as [E|_]; [rewrite E in Hp; discriminate|].
  destruct vs as [|a [|b [|]]]; auto; [destruct (String.eqb _ "id"); auto|].
  destruct (wordOp (iOp i)), (wordCompare (iOp i)); auto.
Qed.

Lemma wordOp_not_compare op f : wordCompare op = Some f -> wordOp op = None.
Proof.
  unfold wordCompare. repeat (match goal with |- context [String.eqb op ?s] => destruct (String.eqb_spec op s) as [->|] end;
    [intros _; reflexivity|]). discriminate.
Qed.

Lemma word_not_special op :
  HasPrefix op "binary." = true -> op <> "const" /\ op <> "call.log" /\ op <> "call.exit".
Proof. intros H. repeat split; intros ->; discriminate H. Qed.

#[export] Instance logInts : IntMachine logMachine.
Proof.
  refine {| word := fun w => w; boolean := fun b => if b then 1%Z else 0%Z |}; cbn [literal operation logMachine].
  - intros v n -> ->. reflexivity.
  - intros i m n Hop Ht Hp. unfold logOperation. rewrite Hop, Ht, Hp. reflexivity.
  - intros i m b Hop Ht Hp. unfold logOperation. rewrite Hop, Ht, Hp. destruct b; reflexivity.
  - intros i m a b f Hop Ht _. destruct (word_not_special _ (proj1 (wordOp_prefix _ _ Hop))) as (H1 & H2 & H3).
    unfold logOperation. rewrite (proj2 (String.eqb_neq _ _) H1), (proj2 (String.eqb_neq _ _) H2),
      (proj2 (String.eqb_neq _ _) H3), Hop. reflexivity.
  - intros i m a b f Hop Ht _. destruct (word_not_special _ (proj1 (wordCompare_prefix _ _ Hop))) as (H1 & H2 & H3).
    unfold logOperation. rewrite (proj2 (String.eqb_neq _ _) H1), (proj2 (String.eqb_neq _ _) H2),
      (proj2 (String.eqb_neq _ _) H3), (wordOp_not_compare _ _ Hop), Hop. reflexivity.
Defined.

(** ** Constant folding *)

(** C4. Constant folding ends and keeps every run: a function in static single
    assignment has a folded form, and on any machine whose 64-bit integers are
    words the two end in the same way with the same result, memory and number
    of blocks, for all arguments, unless the original is stuck. *)
Theorem constant_fold_preserves {V M X} {machine : Machine V M X} {ints : IntMachine machine} fn :
  ssa fn -> exists fn', constantFoldFunction fn = Some fn' /\
  forall fuel args m, runFunction fuel fn args m <> Stuck ->
    runFunction fuel fn' args m = runFunction fuel fn args m.
Proof.
  intros H. pose proof (constantFoldFunction_total fn). destruct (constantFoldFunction fn) as [fn'|] eqn:E; [|contradiction].
  exists fn'. split; [reflexivity | exact (constant_fold_keeps fn fn' H E)].
Qed.

(** Counts to [x = (2^63-1) + 1] and logs it when that is below zero. *)
Definition sample_fold : Function :=
  let v x := mkValue x "i64" in
  mkFunction "f" [mkParam "%p" "i64" PassValue] "i64"
    [mkBlock "entry" [instr (v "%a") "const" [] "9223372036854775807";
                      instr (v "%x") "binary.+" [v "%a"; v "1"] "";
                      instr (mkValue "%c" "bool") "binary.<" [v "%x"; v "0"] "";
                      instr (v "%d") "binary.*" [v "%p"; v "%p"] ""]
       (branch (mkValue "%c" "bool") "log" "end");
     mkBlock "log" [instr (mkValue "" "void") "call.log" [v "%x"] ""] (jump "end");
     mkBlock "end" [] (ret (v "%x"))] "" "".

Lemma sample_fold_ssa : ssa (machine := logMachine) sample_fold.
Proof.
  split.
  - apply (bool_decide_unpack _). vm_compute. exact I.
  - vm_compute. intros H. inversion H as [|? ? ? H']; inversion H'.
  - intros x ty Hx. change (definedNames sample_fold) with ["%p"; "%a"; "%x"; "%c"; "%d"] in Hx.
    unfold literal, logMachine; cbn [vType vName]. destruct (String.eqb ty "i64"); [|reflexivity].
    repeat (apply elem_of_cons in Hx as [->|Hx]; [reflexivity|]). inversion Hx.
  - intros i Hi Ht. cbn in Hi. repeat (apply elem_of_cons in Hi as [->|Hi]; [discriminate|]). inversion Hi.
  - intros i Hi Hop. cbn in Hi.
    repeat (apply elem_of_cons in Hi as [->|Hi]; [split; [reflexivity | split; [reflexivity | try reflexivity; discriminate]]|]).
    inversion Hi.
Qed.

Lemma constant_fold_preserves_witness :
  exists fn', constantFoldFunction sample_fold = Some fn' /\
    map iOp (instrsOf (fBlocks fn')) = ["const"; "const"; "const"; "binary.*"; "call.log"] /\
    runFunction (machine := logMachine) 5 fn' [7%Z] [] = Returned (Some (2 ^ 63)%Z) [(2 ^ 63)%Z].
Proof.
  destruct (constant_fold_preserves sample_fold sample_fold_ssa) as (fn' & H & Hrun).
  exists fn'. split; [exact H|]. split; [vm_compute in H; injection H as <-; reflexivity|].
  rewrite (Hrun 5 [7%Z] []).
  - vm_compute. reflexivity.
  - vm_compute. discriminate.
Defined.

(** The folding loop ends on every module: each pass but the last turns
    another instruction into a constant. *)
Theorem constant_fold_total m : ConstantFold m <> None.
Proof.
  unfold ConstantFold. assert (H : mapM constantFoldFunction (mFunctions m) <> None).
  { induction (mFunctions m) as [|fn l IH]; [discriminate|]. cbn [mapM].
    pose proof (constantFoldFunction_total fn). destruct (constantFoldFunction fn); [|contradiction].
    cbn. destruct (mapM constantFoldFunction l); [discriminate | contradiction]. }
  destruct (mapM constantFoldFunction (mFunctions m)); [discriminate | contradiction].
Qed.

(** The compiler's folded arithmetic is the target's: on 64-bit operands
    [foldBinary] gives a 64-bit integer whose word is the machine's result on
    the operands' words, and [foldComparison] what the machine compares. *)
Theorem fold_arithmetic_word op a b :
  in_int64 a -> in_int64 b ->
  (forall v, foldBinary op a b = Some v ->
     in_int64 v /\ exists f, wordOp op = Some f /\ toWord v = f (toWord a) (toWord b)) /\
  (forall v, foldComparison op a b = Some v ->
     exists f, wordCompare op = Some f /\ f (toWord a) (toWord b) = v).
Proof. intros Ha Hb. split; intros v; [apply foldBinary_word | apply foldComparison_word]; assumption. Qed.

Lemma fold_arithmetic_word_witness :
  foldBinary "binary.*" (- 2 ^ 63) (-1) = Some (- 2 ^ 63)%Z /\
  exists f, wordOp "binary.*" = Some f /\ toWord (- 2 ^ 63) = f (toWord (- 2 ^ 63)) (toWord (-1)).
Proof.
  assert (H : foldBinary "binary.*" (- 2 ^ 63) (-1) = Some (- 2 ^ 63)%Z) by (vm_compute; reflexivity).
  split; [exact H|].
  apply (fold_arithmetic_word "binary.*" (- 2 ^ 63) (-1)); [| | exact H];
    unfold in_int64, min_int64, max_int64; lia.
Defined.

(** ** Dead-code elimination *)

(** C6. Dead-code elimination keeps every run: on any machine where an
    operation [isPureOp] lists writes no memory and cannot end the run,
    removing the unread ones changes no result, no memory and no way to stop. *)
Theorem dead_code_preserves {V M X} {machine : Machine V M X} {pure : PureMachine machine} fn :
  forall fuel args m, runFunction fuel fn args m <> Stuck ->
    runFunction fuel (deadCodeEliminateFunction fn) args m = runFunction fuel fn args m.
Proof. exact (dce_keeps fn). Qed.

Lemma dead_code_preserves_witness :
  map iOp (instrsOf (fBlocks (deadCodeEliminateFunction sample_fold))) =
    ["const"; "binary.+"; "binary.<"; "call.log"] /\
  runFunction 5 (deadCodeEliminateFunction sample_fold) [7%Z] [] = Returned (Some (2 ^ 63)%Z) [(2 ^ 63)%Z].
Proof.
  split; [vm_compute; reflexivity|].
  rewrite (dead_code_preserves sample_fold); [vm_compute; reflexivity | vm_compute; discriminate].
Defined.

(** What dead-code elimination keeps: the instructions with an effect and
    the ones whose result some instruction or terminator of the function
    reads, in their order; nothing else is left. *)
Theorem dead_code_exact fn p b :
  fBlocks fn !! p = Some b ->
  exists b', fBlocks (deadCodeEliminateFunction fn) !! p = Some b' /\
    bName b' = bName b /\ bTerminator b' = bTerminator b /\ sublist (bInstrs b') (bInstrs b) /\
    forall i, i ∈ bInstrs b' <-> i ∈ bInstrs b /\
      (isPureOp (iOp i) = false \/ exists c, c ∈ fBlocks fn /\ vName (iResult i) ∈ blockReads c).
Proof.
  intros Hb. unfold deadCodeEliminateFunction. cbn [fBlocks set_fBlocks]. rewrite list_lookup_fmap, Hb.
  eexists. split; [reflexivity|]. cbn [set_bInstrs bName bTerminator bInstrs].
  split; [reflexivity|]. split; [reflexivity|]. split.
  - unfold keepLiveInstrs. clear. induction (bInstrs b) as [|i l IH]; cbn [List.filter]; [constructor|].
    destruct (hasEffect i || _); constructor; exact IH.
  - intros i. unfold keepLiveInstrs, hasEffect. rewrite !list_elem_of_In, filter_In, orb_true_iff, negb_true_iff,
      bool_decide_eq_true. unfold usedValues. rewrite elem_of_list_to_set, list_elem_of_In, in_flat_map.
    setoid_rewrite list_elem_of_In. reflexivity.
Qed.

Lemma dead_code_exact_witness :
  exists b', fBlocks (deadCodeEliminateFunction sample_fold) !! 0 = Some b' /\
    ~ instr (mkValue "%d" "i64") "binary.*" [mkValue "%p" "i64"; mkValue "%p" "i64"] "" ∈ bInstrs b'.
Proof.
  destruct (dead_code_exact sample_fold 0 _ eq_refl) as (b' & Hb & _ & _ & _ & H).
  exists b'. split; [exact Hb|]. intros [_ [Hp|(c & Hc & Hr)]]%H; [discriminate Hp|].
  cbn in Hc. repeat (apply elem_of_cons in Hc as [->|Hc]; [vm_compute in Hr; repeat (apply elem_of_cons in Hr as [Hr|Hr]; [discriminate Hr|]); inversion Hr|]).
  inversion Hc.
Defined.

(** ** Copy propagation

    The pass records a copy where it meets it, so a read is replaced when the
    copy comes earlier in the list of blocks, which need not be every read. *)

(** What a copy is to a machine: its operand. *)
Class CopyMachine {V M X} (machine : Machine V M X) : Prop := {
  copy_value : forall i a x m v m', iOp i = "id" -> iArgs i = [a] -> iFields i = [] -> iCleanups i = [] ->
    operation i [x] m = Next v m' -> v = x
}.

(** What lowering makes: reads have the type of what they read, a copy has a
    name, the type of its operand and nothing else. *)
Record copyable (fn : Function) : Prop := mkCopyable {
  co_reads : forall i v, i ∈ instrsOf (fBlocks fn) -> v ∈ readOperands i -> typedRead fn v;
  co_ends : forall b, b ∈ fBlocks fn -> typedRead fn (tValue (bTerminator b));
  co_copies : forall i a, i ∈ instrsOf (fBlocks fn) -> iOp i = "id" -> iArgs i = [a] ->
    resultName i <> "" /\ vType a = vType (iResult i) /\ iFields i = [] /\ iCleanups i = []
}.

Section Copies.
Context (module : Module_) (params : gmap string (list Param)) (fn : Function).
Context (Hsound : sound module params fn) (Hco : copyable fn).

(** A copy the pass has recorded, in a map that has the copies before it. *)
Definition copied (K : copies_map) (x : string) (e : Value) : Prop :=
  exists p s i a, instrAt fn p s i /\ iOp i = "id" /\ iArgs i = [a] /\ resultName i = x /\ vType e = vType (iResult i) /\
    (reach (succs fn) 0 p -> settledAt fn p s (vName e)) /\ (e = a \/ K !! vName a = Some e).

Definition recordedCopies (K : copies_map) : Prop := forall x e, K !! x = Some e -> copied K x e.

Lemma copied_mono K K' x e : K ⊆ K' -> copied K x e -> copied K' x e.
Proof.
  intros Hs (p & s & i & a & H1 & H2 & H3 & H4 & H5 & H6 & H7). exists p, s, i, a. split_and!; auto.
  destruct H7; [auto | right; eapply lookup_weaken; eassumption].
Qed.

(** The operand of a copy, replaced. *)
Lemma copied_here K p s i a : recordedCopies K -> instrAt fn p s i -> iOp i = "id" -> iArgs i = [a] ->
  copied K (resultName i) (replaceValue K a).
Proof.
  intros HK Hi Hop Ha. pose proof (instrAt_in _ _ _ _ Hi) as Hin. destruct (co_copies _ Hco i a Hin Hop Ha) as (_ & Hty & _).
  assert (Hread : a ∈ readOperands i) by (apply elem_args; rewrite Ha; left).
  assert (Hset : settledAt fn p s (vName a)).
  { destruct Hi as (b & Hb & Hs). apply (wf_uses _ _ _ (sound_wf _ _ _ Hsound) p b s i a Hb Hs); [congruence | exact Hread]. }
  exists p, s, i, a. split; [exact Hi|]. split; [exact Hop|]. split; [exact Ha|]. split; [reflexivity|]. unfold replaceValue.
  destruct (K !! vName a) as [e|] eqn:He; cbn [default id]; [|split; [exact Hty | auto]].
  destruct (HK _ _ He) as (q & t & j & c & Hj & Hjop & Hjc & Hn & Hjty & Hjset & _).
  destruct (co_copies _ Hco j c (instrAt_in _ _ _ _ Hj) Hjop Hjc) as (Hne & _).
  split; [|split; [|auto]].
  - rewrite Hjty, <- Hty. symmetry. apply (co_reads _ Hco i a Hin Hread j); [eapply instrAt_in, Hj | exact Hn | congruence].
  - intros Hp d Hd. pose proof (defs_at module params fn Hsound q t j Hj Hne) as Hdef. rewrite Hn in Hdef.
    assert (Hq : reach (succs fn) 0 q) by (apply (before_reach fn (mkDefinition q t) p s Hp), Hset, Hdef).
    eapply (before_trans fn d (mkDefinition q t) p s Hp); [apply Hjset; assumption | apply Hset, Hdef].
Qed.

(** ** What the pass leaves *)

Abbreviation named l := (filter (fun x => x <> "") (map resultName l)).

Lemma copyInstrs_spec p b : fBlocks fn !! p = Some b -> forall l s K l' K' done,
  mapAccum copyInstr K l = (l', K') -> l = drop s (bInstrs b) -> recordedCopies K -> (forall x e, K !! x = Some e -> x ∈ done) ->
  NoDup (done ++ named l) ->
  K ⊆ K' /\ recordedCopies K' /\ (forall x e, K' !! x = Some e -> x ∈ done ++ named l) /\ List.length l' = List.length l /\
  (forall k i, l !! k = Some i -> exists Ks, Ks ⊆ K' /\ l' !! k = Some (mapReads (replaced Ks) i)).
Proof.
  intros Hb. induction l as [|i l IH]; intros s K l' K' done Hrun Hl HK Hdone Hnd; cbn [mapAccum] in Hrun.
  - injection Hrun as <- <-. split; [reflexivity|]. split; [exact HK|]. split; [intros x e Hx; cbn; rewrite app_nil_r; eapply Hdone, Hx|].
    split; [reflexivity|]. intros k i H. rewrite lookup_nil in H. discriminate.
  - destruct (copyInstr K i) as [i1 K1] eqn:Hc. destruct (mapAccum copyInstr K1 l) as [l1 K2] eqn:Hrest. injection Hrun as <- <-.
    assert (Hi : bInstrs b !! s = Some i) by (rewrite <- (Nat.add_0_r s), <- lookup_drop, <- Hl; reflexivity).
    assert (Htl : l = drop (S s) (bInstrs b)) by (rewrite (drop_S _ _ _ Hi) in Hl; congruence).
    assert (Hat : instrAt fn p s i) by (exists b; auto).
    set (here := if decide (resultName i = "") then [] else [resultName i]).
    assert (Hnamed : named (i :: l) = here ++ named l).
    { cbn [map]. unfold here. destruct (decide (resultName i = "")) as [E|E].
      - rewrite filter_cons_False by tauto. reflexivity.
      - rewrite filter_cons_True by exact E. reflexivity. }
    rewrite Hnamed, app_assoc in Hnd |- *.
    unfold copyInstr in Hc. injection Hc as <- HK1.
    assert (Hcases : K1 = K \/ exists a, iOp i = "id" /\ iArgs i = [a] /\ K1 = <[resultName i := replaceValue K a]> K).
    { rewrite <- HK1. unfold replaceArgs, mapReads. cbn [iArgs iOp iResult]. destruct (iArgs i) as [|a [|]]; cbn [map]; auto.
      destruct (String.eqb_spec (iOp i) "id"); [|auto]. right. exists a. auto. }
    assert (HK1' : K ⊆ K1 /\ recordedCopies K1 /\ (forall x e, K1 !! x = Some e -> x ∈ done ++ here)).
    { destruct Hcases as [->|(a & Hop & Ha & ->)].
      - split; [reflexivity|]. split; [exact HK|]. intros x e Hx. apply elem_of_app. left. eapply Hdone, Hx.
      - destruct (co_copies _ Hco i a (instrAt_in _ _ _ _ Hat) Hop Ha) as (Hne & _).
        assert (Hh : here = [resultName i]) by (unfold here; destruct (decide (resultName i = "")); [contradiction | reflexivity]).
        assert (Hfresh : K !! resultName i = None).
        { destruct (K !! resultName i) as [e|] eqn:He; [|reflexivity]. exfalso. apply Hdone in He. rewrite Hh in Hnd.
          apply NoDup_app in Hnd as (Hnd & _). apply NoDup_app in Hnd as (_ & Hnd & _). apply (Hnd _ He). left. }
        assert (Hsub : K ⊆ <[resultName i := replaceValue K a]> K) by (apply insert_subseteq, Hfresh).
        split; [exact Hsub|]. split.
        + intros x e Hx. apply (copied_mono K); [exact Hsub|]. apply lookup_insert_Some in Hx as [[<- <-]|[_ Hx]]; [|apply HK, Hx].
          eapply copied_here; eassumption.
        + intros x e Hx. apply elem_of_app. rewrite Hh. apply lookup_insert_Some in Hx as [[<- <-]|[_ Hx]]; [right; left | left; eapply Hdone, Hx]. }
    destruct HK1' as (Hsub & Hrec & Hin). destruct (IH (S s) K1 l1 K2 (done ++ here) Hrest Htl Hrec Hin Hnd) as (G1 & G2 & G3 & G4 & G5).
    split; [etransitivity; eassumption|]. split; [exact G2|]. split; [exact G3|]. split; [cbn; congruence|].
    intros [|k] j Hj; cbn [lookup list_lookup] in *; [|apply G5, Hj]. injection Hj as <-. exists K. split; [etransitivity; eassumption | reflexivity].
Qed.

Lemma copyBlocks_spec l : forall p K l' K' done,
  mapAccum copyBlock K l = (l', K') -> l = drop p (fBlocks fn) -> recordedCopies K -> (forall x e, K !! x = Some e -> x ∈ done) ->
  NoDup (done ++ named (instrsOf l)) ->
  K ⊆ K' /\ recordedCopies K' /\ List.length l' = List.length l /\
  (forall k b, l !! k = Some b -> exists b' Kt, l' !! k = Some b' /\ bName b' = bName b /\ Kt ⊆ K' /\ bTerminator b' = mapTerminator (replaced Kt) (bTerminator b) /\
     List.length (bInstrs b') = List.length (bInstrs b) /\
     forall s i, bInstrs b !! s = Some i -> exists Ks, Ks ⊆ K' /\ bInstrs b' !! s = Some (mapReads (replaced Ks) i)).
Proof.
  induction l as [|b l IH]; intros p K l' K' done Hrun Hl HK Hdone Hnd; cbn [mapAccum] in Hrun.
  - injection Hrun as <- <-. split; [reflexivity|]. split; [exact HK|]. split; [reflexivity|]. intros k b H. rewrite lookup_nil in H. discriminate.
  - destruct (copyBlock K b) as [b1 K1] eqn:Hc. destruct (mapAccum copyBlock K1 l) as [l1 K2] eqn:Hrest. injection Hrun as <- <-.
    assert (Hb : fBlocks fn !! p = Some b) by (rewrite <- (Nat.add_0_r p), <- lookup_drop, <- Hl; reflexivity).
    assert (Htl : l = drop (S p) (fBlocks fn)) by (rewrite (drop_S _ _ _ Hb) in Hl; congruence).
    unfold copyBlock, overInstrs in Hc. destruct (mapAccum copyInstr K (bInstrs b)) as [is1 K1'] eqn:Hins. injection Hc as <- ->.
    assert (Hsplit : named (instrsOf (b :: l)) = named (bInstrs b) ++ named (instrsOf l)).
    { unfold instrsOf. cbn [flat_map]. rewrite map_app, filter_app. reflexivity. }
    rewrite Hsplit, app_assoc in Hnd. pose proof (proj1 (proj1 (NoDup_app _ _) Hnd)) as Hnd1.
    destruct (copyInstrs_spec p b Hb (bInstrs b) 0 K is1 K1 done Hins eq_refl HK Hdone Hnd1) as (G1 & G2 & G3 & G4 & G5).
    destruct (IH (S p) K1 l1 K2 _ Hrest Htl G2 G3 Hnd) as (H1 & H2 & H3 & H4).
    split; [etransitivity; eassumption|]. split; [exact H2|]. split; [cbn; congruence|]. intros [|k] c Hk; cbn [lookup list_lookup] in *; [|apply H4, Hk].
    injection Hk as <-. eexists _, K1. split; [reflexivity|]. cbn [set_bTerminator set_bInstrs bName bInstrs bTerminator]. split; [reflexivity|].
    split; [exact H1|]. split; [reflexivity|]. split; [exact G4|]. intros s i Hi. destruct (G5 s i Hi) as (Ks & Hs & E). exists Ks.
    split; [etransitivity; eassumption | exact E].
Qed.

(** ** Runs *)

Context {V M X : Type} {machine : Machine V M X} {copies : CopyMachine machine}.
Context (K : copies_map) (HK : recordedCopies K).

Abbreviation env := (gmap string V).

(** A copy is what it copies. *)
Definition sameValue (x : string) (ρ : env) : Prop := forall e, K !! x = Some e -> exists v, ρ !! x = Some v /\ operand ρ e = Some v.

Definition copySource (x : string) : list string := match K !! x with Some e => [vName e] | None => [] end.

Lemma copy_local x (ρ ρ' : env) : ρ !! x = ρ' !! x -> (forall y, y ∈ copySource x -> ρ !! y = ρ' !! y) -> sameValue x ρ -> sameValue x ρ'.
Proof.
  intros Hx Hd H e He. destruct (H e He) as (v & Hv & Ho). exists v. rewrite <- Hx. split; [exact Hv|].
  rewrite <- Ho. apply operand_agree. symmetry. apply Hd. unfold copySource. rewrite He. left.
Qed.

Lemma copy_named x e : K !! x = Some e -> exists p s j, instrAt fn p s j /\ resultName j = x /\ x <> "" /\ vType e = vType (iResult j).
Proof.
  intros He. destruct (HK x e He) as (p & s & i & a & Hi & Hop & Ha & <- & Hty & _).
  destruct (co_copies _ Hco i a (instrAt_in _ _ _ _ Hi) Hop Ha) as (Hne & _). exists p, s, i. auto.
Qed.

Lemma copy_settled x d y : reach (succs fn) 0 (defBlock d) -> valueDefiningBlocks fn !! x = Some d -> y ∈ copySource x ->
  settledAt fn (defBlock d) (defStep d) y.
Proof.
  intros Hr Hd Hy. unfold copySource in Hy. destruct (K !! x) as [e|] eqn:He; [|inversion Hy]. apply list_elem_of_singleton in Hy as ->.
  destruct (HK x e He) as (p & s & i & a & Hi & Hop & Ha & <- & _ & Hset & _).
  destruct (co_copies _ Hco i a (instrAt_in _ _ _ _ Hi) Hop Ha) as (Hne & _).
  rewrite (defs_at module params fn Hsound p s i Hi Hne) in Hd. injection Hd as <-. apply Hset, Hr.
Qed.

Abbreviation anywhere := (fun (_ _ : nat) (_ : env) (_ : M) => True).

Lemma copy_establishes p s i from (e ρ : env) m v m' :
  standing fn sameValue anywhere p s from e ρ m -> instrAt fn p s i -> runInstr (X := X) from e ρ m i = Next v m' ->
  resultName i <> "" -> sameValue (resultName i) (assign ρ i v).
Proof.
  intros [Hp Hf _ _] Hi Hrun Hne w Hw. destruct (HK _ _ Hw) as (q & t & j & a & Hj & Hop & Ha & Hn & _ & Hset & Hsrc).
  pose proof (defs_at module params fn Hsound p s i Hi Hne) as D1.
  pose proof (defs_at module params fn Hsound q t j Hj ltac:(congruence)) as D2. rewrite Hn, D1 in D2. injection D2 as <- <-.
  rewrite (instrAt_fun fn _ _ _ _ Hj Hi) in *. destruct (co_copies _ Hco i a (instrAt_in _ _ _ _ Hi) Hop Ha) as (_ & _ & Hfi & Hcl).
  exists v. split; [unfold assign, resultName in *; rewrite (proj2 (String.eqb_neq _ _) Hne); apply lookup_insert_eq|].
  assert (Hread : readOperands i = [a]) by (unfold readOperands; rewrite Hfi, Hcl, Ha; reflexivity).
  unfold runInstr in Hrun. rewrite (proj2 (String.eqb_neq _ _) (ltac:(congruence) : iOp i <> "phi")), Hread in Hrun. cbn [mapM] in Hrun.
  destruct (operand ρ a) as [x|] eqn:Hx; [|discriminate]. cbn [mbind option_bind mret option_ret] in Hrun.
  assert (v = x) as ->.
  { eapply (copy_value (shape i) (unnamed a)); [exact Hop | cbn [shape iArgs]; rewrite Ha; reflexivity | cbn [shape iFields]; rewrite Hfi; reflexivity |
      cbn [shape iCleanups]; rewrite Hcl; reflexivity | exact Hrun]. }
  assert (Ho : operand ρ w = Some x).
  { destruct Hsrc as [->|Hk]; [exact Hx|]. assert (Hsa : settledAt fn p s (vName a)).
    { destruct Hi as (b & Hb & Hs). apply (wf_uses _ _ _ (sound_wf _ _ _ Hsound) p b s i a Hb Hs); [congruence | rewrite Hread; left]. }
    destruct (copy_named _ _ Hk) as (q' & t' & j' & Hj' & Hn' & Hne' & _).
    pose proof (defs_at module params fn Hsound q' t' j' Hj' ltac:(congruence)) as D'. rewrite Hn' in D'.
    destruct (Hf (vName a) (ex_intro _ _ (conj D' (Hsa _ D'))) w Hk) as (y & Hy & Hwy). unfold operand in Hx. rewrite Hy in Hx. congruence. }
  rewrite <- Ho. apply operand_agree. apply (settled_assign module params fn p s i _ x ρ Hsound Hi), Hset, Hp.
Qed.
End Copies.

(** C5. Copy propagation keeps every run: on any machine where a copy is its
    operand, a verified function in single assignment and the function with
    the recorded copies read in place of their results end in the same way
    with the same result, memory and number of blocks, for all arguments,
    unless the original is stuck; blocks are walked in the order they are
    listed in, whatever control does. *)
Theorem copy_propagation_preserves {V M X} {machine : Machine V M X} {copies : CopyMachine machine} module params fn :
  sound module params fn -> copyable fn ->
  forall fuel args m, runFunction fuel fn args m <> Stuck ->
    runFunction fuel (copyPropagateFunction fn) args m = runFunction (X := X) fuel fn args m.
Proof.
  intros Hs Hco. unfold copyPropagateFunction. destruct (mapAccum copyBlock ∅ (fBlocks fn)) as [blocks K] eqn:Hrun.
  destruct (copyBlocks_spec module params fn Hs Hco (fBlocks fn) 0 ∅ blocks K [] Hrun eq_refl) as (_ & HK & Hlen & Hblocks).
  { intros x e H. rewrite lookup_empty in H. discriminate. } { intros x e H. rewrite lookup_empty in H. discriminate. }
  { apply (sound_once _ _ _ Hs). }
  assert (Hfn : set_fBlocks (fun blocks => (mapAccum copyBlock ∅ blocks).1) fn = set_fBlocks (fun _ => blocks) fn)
    by (unfold set_fBlocks; rewrite Hrun; reflexivity).
  rewrite Hfn. assert (Hequal : forall Ks x e (ρ : gmap string V), Ks ⊆ K -> Ks !! x = Some e -> sameValue K x ρ -> exists v, ρ !! x = Some v /\ operand (X := X) ρ e = Some v).
  { intros Ks x e ρ Hsub He H. apply H. eapply lookup_weaken; eassumption. }
  assert (Hnamed : forall Ks x e, Ks ⊆ K -> Ks !! x = Some e -> exists p s j, instrAt fn p s j /\ resultName j = x /\ x <> "" /\ vType e = vType (iResult j)).
  { intros Ks x e Hsub He. eapply copy_named; [exact Hco | exact HK | eapply lookup_weaken; eassumption]. }
  apply (keep_function module params fn _ Hs (sameValue K) (copySource K) (copy_local K) (copy_settled module params fn Hs Hco K HK) (fun _ _ _ _ => True));
    try (intros; exact I); cbn [set_fBlocks fBlocks fst].
  - apply list_eq. intros p. rewrite !list_lookup_fmap. destruct (fBlocks fn !! p) as [b|] eqn:Hb.
    + destruct (Hblocks p b Hb) as (b' & Kt & -> & Hn & _). cbn. congruence.
    + apply lookup_ge_None in Hb. rewrite (proj2 (lookup_ge_None blocks p)) by lia. reflexivity.
  - intros p b b' Hb Hb'. destruct (Hblocks p b Hb) as (c & Kt & Hc & _ & _ & _ & Hl & _). assert (c = b') as -> by congruence. exact Hl.
  - intros p s i b' i' from e ρ m Hst Hat Hb' Hi'. pose proof Hat as (b & Hb & Hi).
    destruct (Hblocks p b Hb) as (c & Kt & Hc & _ & _ & _ & _ & Hinstrs). assert (c = b') as -> by congruence.
    destruct (Hinstrs s i Hi) as (Ks & Hsub & E). assert (i' = mapReads (replaced Ks) i) as -> by congruence. split; [reflexivity|].
    destruct (replaced_instr (X := X) module params fn Hs Ks (sameValue K) (fun _ _ _ _ => True) (fun x e ρ => Hequal Ks x e ρ Hsub)
      (fun x e => Hnamed Ks x e Hsub) p s i from e ρ m Hst Hat) as [H|H]; auto.
    intros v Hv. apply (co_reads _ Hco i v (instrAt_in _ _ _ _ Hat) Hv).
  - intros p s i from e ρ m v m'. apply (copy_establishes module params fn Hs Hco K HK).
  - intros p b b' ρ m _ Hf Hb Hb'. destruct (Hblocks p b Hb) as (c & Kt & Hc & _ & Hsub & Ht & _). assert (c = b') as -> by congruence. right. rewrite Ht.
    apply (replaced_terminator module params fn Hs Kt (sameValue K) (fun x e ρ => Hequal Kt x e ρ Hsub) (fun x e => Hnamed Kt x e Hsub) p); [exact Hf | exact Hb|].
    apply (co_ends _ Hco b). eapply list_elem_of_lookup_2, Hb.
  - reflexivity.
Qed.

#[export] Instance logCopies : CopyMachine logMachine.
Proof.
  split. intros i a x m v m' Hop _ _ _. cbn [operation logMachine]. unfold logOperation. rewrite Hop. cbn. congruence.
Qed.

(** A copy of a copy is read in both branches, and by a phi. *)
Definition sample_copies : Function :=
  let v x := mkValue x "i64" in let c := mkValue "%c" "bool" in
  mkFunction "f" [mkParam "%p" "i64" PassValue] "i64"
    [mkBlock "entry" [instr (v "%a") "id" [v "%p"] ""; instr (v "%b") "id" [v "%a"] "";
                      instr c "binary.<" [v "%b"; v "3"] ""] (branch c "then" "else");
     mkBlock "then" [instr (v "%d") "binary.+" [v "%b"; v "%a"] ""] (jump "end");
     mkBlock "else" [instr (mkValue "" "void") "call.log" [v "%b"] ""] (jump "end");
     mkBlock "end" [mkInstr (v "%x") "phi" [] "" "" [] 0 "" [] [mkIncoming "then" (v "%d"); mkIncoming "else" (v "%b")] [] None]
       (ret (v "%x"))] "" "".

(** [copyable], as a test. *)
Definition copyableb (fn : Function) : bool :=
  let instrs := instrsOf (fBlocks fn) in
  let typed v := String.eqb (vName v) "" || forallb (fun j => negb (String.eqb (resultName j) (vName v)) || String.eqb (vType v) (vType (iResult j))) instrs in
  forallb (fun i => forallb typed (readOperands i) &&
    match iArgs i with
    | [a] => negb (String.eqb (iOp i) "id") || (negb (String.eqb (resultName i) "") && String.eqb (vType a) (vType (iResult i)) &&
               bool_decide (iFields i = []) && bool_decide (iCleanups i = []))
    | _ => true
    end) instrs &&
  forallb (fun b => typed (tValue (bTerminator b))) (fBlocks fn).

Lemma copyableb_true fn : copyableb fn = true -> copyable fn.
Proof.
  unfold copyableb. intros [Hi Ht]%andb_true_iff. rewrite forallb_forall in Hi, Ht. split.
  - intros i v Hin%list_elem_of_In Hv%list_elem_of_In. apply Hi, andb_true_iff in Hin as [Hin _].
    rewrite forallb_forall in Hin. apply typedRead_test, Hin, Hv.
  - intros b Hb%list_elem_of_In. apply typedRead_test, Ht, Hb.
  - intros i a Hin%list_elem_of_In Hop Ha. apply Hi, andb_true_iff in Hin as [_ Hin]. rewrite Ha, Hop in Hin. cbn [String.eqb Ascii.eqb Bool.eqb negb orb] in Hin.
    rewrite !andb_true_iff, negb_true_iff, String.eqb_neq, String.eqb_eq, !bool_decide_eq_true in Hin. tauto.
Qed.

Lemma copy_propagation_preserves_witness :
  map (fun b => map (fun i => map vName (readOperands i)) (bInstrs b)) (fBlocks (copyPropagateFunction sample_copies)) =
    [[["%p"]; ["%p"]; ["%p"; "3"]]; [["%p"; "%p"]]; [["%p"]]; [[]]] /\
  runFunction 5 (copyPropagateFunction sample_copies) [2%Z] [] = Returned (Some 4%Z) [] /\
  runFunction 5 (copyPropagateFunction sample_copies) [5%Z] [] = Returned (Some 5%Z) [5%Z].
Proof.
  split; [vm_compute; reflexivity|]. split; (rewrite (copy_propagation_preserves (mkModule ∅ ∅ ∅ ∅ [sample_copies] ∅) ∅ sample_copies);
    [vm_compute; reflexivity | | apply copyableb_true; vm_compute; reflexivity | vm_compute; discriminate]);
  (split; [apply verifyFunction_spec; vm_compute; reflexivity | | apply (bool_decide_unpack _); vm_compute; exact I |
      apply (bool_decide_unpack _); vm_compute; exact I];
    split; [apply (bool_decide_unpack _); vm_compute; exact I|];
    intros i Hi Hop; cbn in Hi; repeat (apply elem_of_cons in Hi as [->|Hi]; [first [discriminate Hop | discriminate]|]); inversion Hi).
Defined.
