(* ===== verification/Cse.v ===== *)
(** * Common subexpressions ([internal/ir/cse.go])

    The walk of the dominator tree with the results the dominators computed.
    [None] is a panic or a bound that was reached; [Cse] shows that
    neither happens. *)

From stdpp Require Import base list strings gmap.
From Stdlib Require Import ZArith Lia String Ascii.
From S2P Require Import Prelude GoStd IR Cfg Dominators CfgFacts Verify VerifyFacts Semantics Optimize Dce.
From S2P Require Import Ssa Simplify SimplifyFacts Available.

#[local] Open Scope string_scope.
#[local] Open Scope list_scope.

(** [renameInstrReads] of [internal/ir/rotate.go]: every read but a phi's. *)
Definition renameInstrReads (rename : Value -> option Value) (i : Instr) : option Instr :=
  args ← mapM rename (iArgs i);
  fields ← mapM (fun fa => mkFieldArg (faName fa) <$> rename (faValue fa)) (iFields i);
  cleanups ← mapM (fun c => (fun args => mkCleanup (clOp c) args (clLoads c) (clExternABI c) (clExternName c)
                     (clCallParams c) (clVariadicFixed c) (clOnError c) (clReceiver c)) <$> mapM rename (clArgs c))
               (iCleanups i);
  Some (mkInstr (iResult i) (iOp i) args (iExternABI i) (iExternName i) (iCallParams i)
          (iVariadicFixed i) (iImmediate i) fields (iIncoming i) cleanups (iSpan i)).

(** [computesFromOperands] *)
Definition computesFromOperands (i : Instr) : bool :=
  let op := iOp i in
  if String.eqb op "const" || String.eqb op "cast" || String.eqb op "union.tag" || String.eqb op "union.payload" then true
  else if HasPrefix op "binary." then forallb (fun arg => negb (HasPrefix (vType arg) "[]")) (iArgs i)
  else if HasPrefix op "unary." then true
  else HasPrefix op "field." && negb (HasPrefix op "field.ref") &&
       negb (HasPrefix op "field.addr.") && negb (HasPrefix op "field.set.").

(** The loop over the arguments in [expressionKey]. *)
Fixpoint argsKey (args : list Value) : string :=
  match args with
  | [] => ""
  | arg :: rest => "|" +:+ vName arg +:+ ":" +:+ vType arg +:+ argsKey rest
  end.

(** [expressionKey] *)
Definition expressionKey (i : Instr) : option string :=
  if String.eqb (vName (iResult i)) "" || String.eqb (vType (iResult i)) "void" ||
     negb (List.length (iCleanups i) =? 0)%nat || negb (computesFromOperands i)
  then None
  else Some (iOp i +:+ "|" +:+ iImmediate i +:+ "|" +:+ vType (iResult i) +:+ argsKey (iArgs i)).

(** The maps [replacements] and [available]. *)
Abbreviation available_map := (gmap string Value).

(** One instruction of [visit]: the renamed instruction and the maps; [added]
    are the keys this block put into [available]. *)
Definition cseInstr (st : replacements_map * available_map * list string) (i : Instr)
  : option (Instr * (replacements_map * available_map * list string)) :=
  let '(replacements, available, added) := st in
  i ← renameInstrReads (resolve replacements) i;
  Some (i, match expressionKey i with
  | None => st
  | Some key =>
      match available !! key with
      | Some earlier => (<[vName (iResult i) := earlier]> replacements, available, added)
      | None => (replacements, <[key := iResult i]> available, added ++ [key])
      end
  end).

Fixpoint cseInstrs (st : replacements_map * available_map * list string) (instrs : list Instr)
  : option (list Instr * (replacements_map * available_map * list string)) :=
  match instrs with
  | [] => Some ([], st)
  | i :: rest =>
      '(i, st) ← cseInstr st i;
      '(rest, st) ← cseInstrs st rest;
      Some (i :: rest, st)
  end.

(** What the closure [visit] changes. *)
Record cseState : Type := mkCse {
  csBlocks : list Block;
  csReplacements : replacements_map;
  csAvailable : available_map
}.

(** [for _, child := range children[position] { visit(child) }] *)
Fixpoint cseChildren (visit : nat -> cseState -> option cseState) (children : list nat) (st : cseState)
  : option cseState :=
  match children with
  | [] => Some st
  | child :: rest => st ← visit child st; cseChildren visit rest st
  end.

(** [visit] *)
Fixpoint cseVisit (fuel : nat) (children : list (list nat)) (position : nat) (st : cseState) : option cseState :=
  match fuel with
  | O => None
  | S fuel =>
      b ← csBlocks st !! position;
      '(instrs, (replacements, available, added)) ← cseInstrs (csReplacements st, csAvailable st, []) (bInstrs b);
      cs ← children !! position;
      st ← cseChildren (cseVisit fuel children) cs
             (mkCse (alter (set_bInstrs (fun _ => instrs)) position (csBlocks st)) replacements available);
      Some (mkCse (csBlocks st) (csReplacements st)
              (foldl (fun available key => delete key available) (csAvailable st) added))
  end.

(** The children of each block in the dominator tree. *)
Fixpoint childrenFrom (order : list nat) (idom : list (option nat)) (indexes : list nat) (children : list (list nat))
  : option (list (list nat)) :=
  match indexes with
  | [] => Some children
  | index :: rest =>
      up ← Cfg.parent idom index;
      parent ← order !! up;
      child ← order !! index;
      childrenFrom order idom rest (alter (fun l => l ++ [child]) parent children)
  end.

Definition dominatorChildren (fn : Function) (idom : list (option nat)) : option (list (list nat)) :=
  let order := reversePostorder fn in
  childrenFrom order idom (seq 1 (List.length order - 1)) (replicate (List.length (fBlocks fn)) []).

(** [eliminateCommonSubexpressionsIn] *)
Definition eliminateCommonSubexpressionsIn (fn : Function) : option Function :=
  match fBlocks fn with
  | [] => Some fn
  | _ =>
      tree ← buildDominatorTree fn (blockPredecessors fn (blockIndex fn));
      children ← dominatorChildren fn (idom tree);
      first ← reversePostorder fn !! 0;
      st ← cseVisit (S (List.length (fBlocks fn))) children first (mkCse (fBlocks fn) ∅ ∅);
      if decide (base.size (csReplacements st) = 0) then Some (set_fBlocks (fun _ => csBlocks st) fn)
      else
        blocks ← replaceFunctionValues (csBlocks st) (csReplacements st);
        Some (set_fBlocks (fun _ => blocks) fn)
  end.

(** [EliminateCommonSubexpressions] *)
Definition EliminateCommonSubexpressions (m : Module_) : option Module_ :=
  fns ← mapM eliminateCommonSubexpressionsIn (mFunctions m);
  Some (set_mFunctions (fun _ => fns) m).

(** * The walk of the dominator tree ([eliminateCommonSubexpressionsIn])

    The children of a block are the blocks it immediately dominates, so the
    walk enters each block once and after its dominators; what [available]
    holds at a block was computed by a block on every path to it. *)

(** ** The children lists *)

Section Children.
Context (order : list nat) (idom : list (option nat)).

Definition childOf (p index : nat) : option nat :=
  up ← Cfg.parent idom index; if decide (order !! up = Some p) then order !! index else None.

Lemma childrenFrom_spec indexes children :
  (forall index, index ∈ indexes -> exists up p c, Cfg.parent idom index = Some up /\ order !! up = Some p /\ order !! index = Some c) ->
  exists children', childrenFrom order idom indexes children = Some children' /\
    forall p, children' !! p = (fun cs => cs ++ omap (childOf p) indexes) <$> children !! p.
Proof.
  revert children. induction indexes as [|index indexes IH]; intros children Hall; cbn [childrenFrom].
  - exists children. split; [reflexivity|]. intros p. destruct (children !! p); cbn; [rewrite app_nil_r|]; reflexivity.
  - destruct (Hall index) as (up & q & c & Hup & Hq & Hc); [left|]. rewrite Hup. cbn [mbind option_bind].
    rewrite Hq. cbn [mbind option_bind]. rewrite Hc. cbn [mbind option_bind].
    destruct (IH (alter (fun l => l ++ [c]) q children)) as (children' & -> & Hch); [intros i Hi; apply Hall; right; exact Hi|].
    exists children'. split; [reflexivity|]. intros p. rewrite Hch. cbn [omap list_omap]. unfold childOf at 2.
    rewrite Hup. cbn [mbind option_bind]. rewrite Hq. destruct (decide (q = p)) as [->|Hne].
    + rewrite list_lookup_alter_eq. destruct (decide (Some p = Some p)) as [_|]; [|contradiction]. rewrite Hc. destruct (children !! p); cbn; [|reflexivity].
      rewrite <- app_assoc. reflexivity.
    + rewrite list_lookup_alter_ne by congruence. destruct (decide (Some q = Some p)); [congruence | reflexivity].
Qed.

Lemma childOf_Some p index c :
  childOf p index = Some c <-> exists up, Cfg.parent idom index = Some up /\ order !! up = Some p /\ order !! index = Some c.
Proof.
  unfold childOf. destruct (Cfg.parent idom index) as [up|]; cbn [mbind option_bind].
  - case_decide as Hup; split.
    + intros H. exists up. auto.
    + intros (? & [= <-] & _ & H). exact H.
    + discriminate.
    + intros (? & [= <-] & H & _). contradiction.
  - split; [discriminate | intros (? & ? & _); discriminate].
Qed.

Lemma NoDup_omap {A B} (f : A -> option B) l :
  (forall x y z, f x = Some z -> f y = Some z -> x = y) -> NoDup l -> NoDup (omap f l).
Proof.
  intros Hf. induction 1 as [|x l Hx _ IH]; cbn; [constructor|]. destruct (f x) as [z|] eqn:Hz; [|exact IH].
  constructor; [|exact IH]. intros (y & Hy & Hyz)%list_elem_of_omap. rewrite (Hf x y z Hz Hyz) in Hx. contradiction.
Qed.
End Children.

(** What the walk relies on: the lists form the dominator tree. *)
Record dominatorForest (fn : Function) (rank : nat -> nat) (children : list (list nat)) : Prop := mkForest {
  forest_some p : p < List.length (fBlocks fn) -> is_Some (children !! p);
  forest_nodup p cs : children !! p = Some cs -> NoDup cs;
  forest_parent p q cs cs' c : children !! p = Some cs -> c ∈ cs -> children !! q = Some cs' -> c ∈ cs' -> p = q;
  forest_dominated p cs c : children !! p = Some cs -> c ∈ cs ->
    p <> c /\ dominated_by (succs fn) p c /\ reach (succs fn) 0 c;
  forest_rank p cs c : children !! p = Some cs -> c ∈ cs -> reach (succs fn) 0 p -> rank p < rank c <= List.length (fBlocks fn)
}.

Lemma dominatorChildren_spec fn :
  0 < List.length (fBlocks fn) ->
  exists tree children rank, buildDominatorTree fn (blockPredecessors fn (blockIndex fn)) = Some tree /\
    dominatorChildren fn (idom tree) = Some children /\ dominatorForest fn rank children.
Proof.
  intros Hne. destruct (immediate_dominators fn Hne) as (tree & Hb & Htree). set (idom := Cfg.idom tree) in *.
  destruct (order_spec fn Hne) as (Hnd & Hin & H0 & _).
  assert (Hbound : forall q, q ∈ order fn -> q < List.length (fBlocks fn)) by (intros q; apply (order_bound fn Hne)).
  assert (Hall : forall index, index ∈ seq 1 (List.length (order fn) - 1) -> exists up p c,
    Cfg.parent idom index = Some up /\ order fn !! up = Some p /\ order fn !! index = Some c).
  { intros index Hi. apply elem_of_seq in Hi. destruct (Htree index ltac:(lia)) as (up & p & c & H1 & _ & H2 & H3 & _). eauto 8. }
  destruct (childrenFrom_spec (order fn) idom _ (replicate (List.length (fBlocks fn)) []) Hall) as (children & Hch & Hspec).
  set (rank := fun q => match list_find (eq q) (order fn) with Some (i, _) => i | None => 0 end).
  assert (Hrank : forall i q, order fn !! i = Some q -> rank q = i).
  { intros i q Hq. unfold rank. destruct (list_find (eq q) (order fn)) as [[j q']|] eqn:Hf.
    - apply list_find_Some in Hf as (Hj & <- & _). eapply (order_inj fn Hne); eassumption.
    - apply list_find_None in Hf. rewrite Forall_forall in Hf. destruct (Hf q); [eapply list_elem_of_lookup_2, Hq | reflexivity]. }
  assert (Hget : forall p cs c, children !! p = Some cs -> c ∈ cs -> exists index up,
    0 < index < List.length (order fn) /\ Cfg.parent idom index = Some up /\ order fn !! up = Some p /\ order fn !! index = Some c).
  { intros p cs c Hp Hc. rewrite Hspec in Hp. destruct (replicate _ [] !! p) as [l|] eqn:Hl; [|discriminate].
    apply lookup_replicate in Hl as [-> _]. injection Hp as <-. apply list_elem_of_omap in Hc as (index & Hi & Hc).
    apply elem_of_seq in Hi. apply childOf_Some in Hc as (up & H1 & H2 & H3). exists index, up. split; [lia|]. auto. }
  exists tree, children, rank. split; [exact Hb|]. split; [exact Hch|]. split.
  - intros p Hp. rewrite Hspec, (proj2 (lookup_replicate _ _ _ _)) by auto. cbn. eauto.
  - intros p cs Hp. rewrite Hspec in Hp. destruct (replicate _ [] !! p) as [l|] eqn:Hl; [|discriminate].
    apply lookup_replicate in Hl as [-> _]. injection Hp as <-. apply NoDup_omap; [|apply NoDup_seq].
    intros x y z (? & _ & _ & Hx)%childOf_Some (? & _ & _ & Hy)%childOf_Some. eapply (order_inj fn Hne); eassumption.
  - intros p q cs cs' c Hp Hc Hq Hc'. destruct (Hget _ _ _ Hp Hc) as (i & up & _ & U1 & U2 & U3).
    destruct (Hget _ _ _ Hq Hc') as (i' & up' & _ & W1 & W2 & W3).
    assert (i = i') as -> by (eapply (order_inj fn Hne); eassumption). congruence.
  - intros p cs c Hp Hc. destruct (Hget _ _ _ Hp Hc) as (i & up & Hi & U1 & U2 & U3).
    destruct (Htree i Hi) as (up' & p' & c' & H1 & _ & H2 & H3 & Hpc & Hd).
    assert (up' = up) as -> by congruence. assert (p' = p) as -> by congruence. assert (c' = c) as -> by congruence.
    split; [exact Hpc|]. split; [exact Hd|]. apply Hin. eapply list_elem_of_lookup_2, U3.
  - intros p cs c Hp Hc _. destruct (Hget _ _ _ Hp Hc) as (i & up & Hi & U1 & U2 & U3).
    destruct (Htree i Hi) as (up' & p' & c' & H1 & Hlt & _). assert (up' = up) as -> by congruence.
    rewrite (Hrank _ _ U2), (Hrank _ _ U3). split; [exact Hlt|].
    assert (Hlen : List.length (order fn) <= List.length (fBlocks fn)).
    { rewrite <- (length_seq (List.length (fBlocks fn)) 0). apply submseteq_length, NoDup_submseteq; [exact Hnd|].
      intros x Hx. apply elem_of_seq. split; [lia|]. apply Hbound, Hx. }
    lia.
Qed.

(** ** Renaming under the replacements made so far *)

Definition mapOperands (r : Value -> Value) (i : Instr) : Instr :=
  mkInstr (iResult i) (iOp i) (map r (iArgs i)) (iExternABI i) (iExternName i) (iCallParams i)
    (iVariadicFixed i) (iImmediate i)
    (map (fun fa => mkFieldArg (faName fa) (r (faValue fa))) (iFields i)) (iIncoming i)
    (map (fun c => mkCleanup (clOp c) (map r (clArgs c)) (clLoads c) (clExternABI c) (clExternName c)
                     (clCallParams c) (clVariadicFixed c) (clOnError c) (clReceiver c)) (iCleanups i)) (iSpan i).

Lemma renameInstrReads_total f r i : (forall v, f v = Some (r v)) -> renameInstrReads f i = Some (mapOperands r i).
Proof.
  intros Hf. unfold renameInstrReads. rewrite (mapM_Some f r) by exact Hf. cbn [mbind option_bind].
  rewrite (mapM_Some _ (fun fa => mkFieldArg (faName fa) (r (faValue fa)))) by (intros x; rewrite Hf; reflexivity).
  cbn [mbind option_bind].
  rewrite (mapM_Some _ (fun c => mkCleanup (clOp c) (map r (clArgs c)) (clLoads c) (clExternABI c) (clExternName c)
                     (clCallParams c) (clVariadicFixed c) (clOnError c) (clReceiver c)))
    by (intros c; rewrite (mapM_Some f r) by exact Hf; reflexivity).
  reflexivity.
Qed.

Definition renamedTo (K : replacements_map) (i j : Instr) : Prop :=
  exists r, j = mapOperands r i /\ forall a, a ∈ readOperands i -> r a = a \/ K !! vName a = Some (r a).

Lemma renamedTo_mono K K' i j : K ⊆ K' -> renamedTo K i j -> renamedTo K' i j.
Proof.
  intros Hsub (r & -> & Hr). exists r. split; [reflexivity|]. intros a Ha.
  destruct (Hr a Ha) as [H|H]; [auto | right; eapply lookup_weaken; eassumption].
Qed.

Lemma renamedTo_refl K i : renamedTo K i i.
Proof.
  exists (fun v => v). split; [|auto]. destruct i as [res op args abi name params fixed imm fields incoming cleanups span].
  unfold mapOperands. cbn. rewrite map_id. f_equal.
  - rewrite <- (map_id fields) at 1. apply map_ext. intros []; reflexivity.
  - rewrite <- (map_id cleanups) at 1. apply map_ext. intros []; cbn. rewrite map_id. reflexivity.
Qed.

Section Walk.
Context (module : Module_) (params : gmap string (list Param)) (fn : Function).
Context (Hsound : sound module params fn).
Context (rank : nat -> nat) (children : list (list nat)) (F : dominatorForest fn rank children).

(** ** The forest *)

Definition child (p c : nat) : Prop := exists cs, children !! p = Some cs /\ c ∈ cs.
Definition desc : nat -> nat -> Prop := rtc child.

Lemma desc_dominated p q : reach (succs fn) 0 p -> desc p q -> dominated_by (succs fn) p q /\ reach (succs fn) 0 q.
Proof.
  intros Hp H. induction H as [p|p c q (cs & Hcs & Hc) _ IH].
  - split; [|exact Hp]. intros l Hl. eapply path_end, Hl.
  - destruct (forest_dominated _ _ _ F _ _ _ Hcs Hc) as (_ & Hd & Hr). destruct (IH Hr) as [H1 H2].
    split; [|exact H2]. eapply dominated_trans; eassumption.
Qed.

Lemma child_not_up p c : reach (succs fn) 0 p -> child p c -> ~ desc c p.
Proof.
  intros Hp (cs & Hcs & Hc) H. destruct (forest_dominated _ _ _ F _ _ _ Hcs Hc) as (Hne & Hd & Hr).
  apply Hne. eapply dominated_antisym; [exact Hr | exact Hd | apply desc_dominated; assumption].
Qed.

Lemma desc_linear a b q : desc a q -> desc b q -> desc a b \/ desc b a.
Proof.
  intros H. revert q H b. apply (rtc_ind_r (fun q => forall b, desc b q -> desc a b \/ desc b a)); [auto|].
  intros y z Hay Hyz IH b Hb.
  apply rtc_inv_r in Hb as [->|(y' & Hby & Hyz')].
  - left. eapply rtc_r; eassumption.
  - apply IH. destruct Hyz as (cs & Hcs & Hz), Hyz' as (cs' & Hcs' & Hz').
    rewrite (forest_parent _ _ _ F _ _ _ _ _ Hcs Hz Hcs' Hz'). exact Hby.
Qed.

Lemma desc_apart p c1 c2 q : reach (succs fn) 0 p -> child p c1 -> child p c2 -> c1 <> c2 -> desc c1 q -> desc c2 q -> False.
Proof.
  assert (Hone : forall a b, reach (succs fn) 0 p -> child p a -> child p b -> a <> b -> desc a b -> False).
  { intros a b Hp Ha Hb Hne H. apply rtc_inv_r in H as [|(y & Hay & Hyb)]; [contradiction|].
    destruct Hb as (cs & Hcs & Hb), Hyb as (cs' & Hcs' & Hyb).
    rewrite (forest_parent _ _ _ F _ _ _ _ _ Hcs' Hyb Hcs Hb) in Hay. eapply child_not_up; eassumption. }
  intros Hp H1 H2 Hne Hq1 Hq2. destruct (desc_linear _ _ _ Hq1 Hq2) as [H|H]; [eapply (Hone c1 c2) | eapply (Hone c2 c1)]; eauto.
Qed.

(** ** What the maps hold *)

(** The instruction at a point, renamed, spells a key. *)
Definition exprAt (K : replacements_map) (p s : nat) (i j : Instr) (key : string) : Prop :=
  instrAt fn p s i /\ renamedTo K i j /\ expressionKey j = Some key.

Definition linked (K : replacements_map) (x : string) (e : Value) : Prop :=
  exists px sx ix jx pe se ie je key, exprAt K px sx ix jx key /\ resultName ix = x /\ exprAt K pe se ie je key /\
    iResult ie = e /\ before fn (mkDefinition pe se) px sx.

(** The results of the entered blocks, and of [p] before step [s]. *)
Definition seenAt (D : nat -> Prop) (p s : nat) (x : string) : Prop :=
  exists q t i, instrAt fn q t i /\ resultName i = x /\ x <> "" /\ (D q \/ q = p /\ t < s).

Record kInv (Seen : string -> Prop) (K : replacements_map) : Prop := mkKInv {
  k_linked x e : K !! x = Some e -> linked K x e;
  k_seen x e : K !! x = Some e -> Seen x /\ Seen (vName e) /\ K !! vName e = None
}.

Definition avInv (Seen : string -> Prop) (K : replacements_map) (p s : nat) (Av : available_map) : Prop :=
  forall key e, Av !! key = Some e ->
    (exists pe se ie je, exprAt K pe se ie je key /\ iResult ie = e /\ before fn (mkDefinition pe se) p s) /\
    Seen (vName e) /\ K !! vName e = None.

(** New replacements are of results that had not been seen. *)
Definition grows (Seen : string -> Prop) (K K' : replacements_map) : Prop := forall x, Seen x -> K' !! x = K !! x.

Lemma grows_sub Seen K K' : kInv Seen K -> grows Seen K K' -> K ⊆ K'.
Proof.
  intros I H. apply map_subseteq_spec. intros x e Hx. rewrite H; [exact Hx|]. apply (k_seen _ _ I x e Hx).
Qed.

Lemma grows_trans (S1 S2 : string -> Prop) K K1 K2 :
  (forall x, S1 x -> S2 x) -> grows S1 K K1 -> grows S2 K1 K2 -> grows S1 K K2.
Proof. intros Hs H1 H2 x Hx. rewrite H2, H1 by auto. reflexivity. Qed.

Lemma exprAt_mono K K' p s i j key : K ⊆ K' -> exprAt K p s i j key -> exprAt K' p s i j key.
Proof. intros Hs (H1 & H2 & H3). split; [exact H1|]. split; [eapply renamedTo_mono; eassumption | exact H3]. Qed.

Lemma linked_mono K K' x e : K ⊆ K' -> linked K x e -> linked K' x e.
Proof.
  intros Hs (px & sx & ix & jx & pe & se & ie & je & key & H1 & H2 & H3 & H4).
  exists px, sx, ix, jx, pe, se, ie, je, key. split; [eapply exprAt_mono; eassumption|]. split; [exact H2|].
  split; [eapply exprAt_mono; eassumption | exact H4].
Qed.

Lemma kInv_weaken (S1 S2 : string -> Prop) K : (forall x, S1 x -> S2 x) -> kInv S1 K -> kInv S2 K.
Proof.
  intros Hs [H1 H2]. split; [exact H1|]. intros x e Hx. destruct (H2 x e Hx) as (A & B & C). auto.
Qed.

Lemma avInv_mono (S1 S2 : string -> Prop) K K' p s Av :
  (forall x, S1 x -> S2 x) -> kInv S1 K -> grows S1 K K' -> avInv S1 K p s Av -> avInv S2 K' p s Av.
Proof.
  intros Hs I Hg H key e He. destruct (H key e He) as ((pe & se & ie & je & H1 & H2) & H3 & H4).
  split; [exists pe, se, ie, je; split; [eapply exprAt_mono; [eapply grows_sub; eassumption | exact H1] | exact H2]|].
  split; [auto|]. rewrite Hg by exact H3. exact H4.
Qed.

Lemma kInv_flat Seen K : kInv Seen K -> flat K.
Proof. intros I x e Hx. apply (k_seen _ _ I x e Hx). Qed.

(** ** One block *)

Lemma seenAt_mono (D1 D2 : nat -> Prop) p s1 s2 x :
  (forall q, D1 q -> D2 q) -> s1 <= s2 -> seenAt D1 p s1 x -> seenAt D2 p s2 x.
Proof.
  intros HD Hs (q & t & i & H1 & H2 & H3 & H4). exists q, t, i. split; [exact H1|]. split; [exact H2|]. split; [exact H3|].
  destruct H4 as [H4|[H4 H5]]; [auto | right; split; [exact H4 | lia]].
Qed.

Lemma seenAt_now D p s i : instrAt fn p s i -> resultName i <> "" -> seenAt D p (S s) (resultName i).
Proof. intros Hi Hne. exists p, s, i. split; [exact Hi|]. split; [reflexivity|]. split; [exact Hne | right; lia]. Qed.

Lemma seenAt_fresh D p s i : ~ D p -> instrAt fn p s i -> resultName i <> "" -> ~ seenAt D p s (resultName i).
Proof.
  intros HD Hi Hne (q & t & j & Hj & Hn & _ & Hseen).
  pose proof (defs_at module params fn Hsound p s i Hi Hne) as H1.
  pose proof (defs_at module params fn Hsound q t j Hj ltac:(congruence)) as H2. rewrite Hn in H2.
  assert (q = p /\ t = s) as [-> ->] by (split; congruence). destruct Hseen as [H|[_ H]]; [contradiction | lia].
Qed.

Lemma seenAt_done (D1 D2 : nat -> Prop) p s q x :
  (forall q, D1 q -> D2 q) -> D2 p -> seenAt D1 p s x -> seenAt D2 q 0 x.
Proof.
  intros HD Hp (r & t & i & H1 & H2 & H3 & H4). exists r, t, i. split; [exact H1|]. split; [exact H2|]. split; [exact H3|].
  left. destruct H4 as [H4|[-> _]]; auto.
Qed.

Lemma before_S d p s : before fn d p s -> before fn d p (S s).
Proof. intros [[H1 H2]|H]; [left; split; [exact H1 | lia] | right; exact H]. Qed.

(** What [available] was when the block was entered, from what it is now and
    the keys added since. *)
Definition restores (Av0 Av : available_map) (added : list string) : Prop :=
  forall key, Av0 !! key = if decide (key ∈ added) then None else Av !! key.

Lemma restores_delete Av0 Av added :
  restores Av0 Av added -> foldl (fun available key => delete key available) Av added = Av0.
Proof.
  intros H. apply map_eq. intros key. rewrite H. clear H. revert Av. induction added as [|k added IH]; intros Av; cbn [foldl].
  - reflexivity.
  - rewrite IH. destruct (decide (key ∈ added)) as [Hin|Hin].
    + rewrite decide_True by (right; exact Hin). reflexivity.
    + destruct (decide (key = k)) as [->|Hne].
      * rewrite lookup_delete_eq, decide_True by left. reflexivity.
      * rewrite lookup_delete_ne, decide_False by (rewrite ?elem_of_cons; intuition congruence). reflexivity.
Qed.

Lemma restores_add Av0 Av added key e :
  Av !! key = None -> restores Av0 Av added -> restores Av0 (<[key := e]> Av) (added ++ [key]).
Proof.
  intros Hnone H k. rewrite H. destruct (decide (k = key)) as [->|Hne].
  - rewrite (decide_True (P := key ∈ added ++ [key])) by (apply elem_of_app; right; left).
    destruct (decide (key ∈ added)); [reflexivity | exact Hnone].
  - rewrite lookup_insert_ne by congruence. destruct (decide (k ∈ added)) as [Hin|Hin].
    + rewrite decide_True by (apply elem_of_app; auto). reflexivity.
    + rewrite decide_False; [reflexivity|]. rewrite elem_of_app, list_elem_of_singleton. tauto.
Qed.

(** Where a block's walk stands. *)
Record atStep (D : nat -> Prop) (p s : nat) (Av0 : available_map) (st : replacements_map * available_map * list string) : Prop := mkAtStep {
  at_kinv : kInv (seenAt D p s) st.1.1;
  at_avinv : avInv (seenAt D p s) st.1.1 p s st.1.2;
  at_restores : restores Av0 st.1.2 st.2
}.

Lemma avInv_step D p s K Av :
  kInv (seenAt D p s) K -> avInv (seenAt D p s) K p s Av -> avInv (seenAt D p (S s)) K p (S s) Av.
Proof.
  intros I H key e He. destruct (H key e He) as ((pe & se & ie & je & H1 & H2 & H3) & H4 & H5).
  split; [exists pe, se, ie, je; split; [exact H1 | split; [exact H2 | apply before_S, H3]]|].
  split; [|exact H5]. eapply seenAt_mono; [| |exact H4]; [auto | lia].
Qed.

Lemma cseInstr_spec D p s i Av0 st :
  ~ D p -> instrAt fn p s i -> atStep D p s Av0 st ->
  exists j st', cseInstr st i = Some (j, st') /\ renamedTo st.1.1 i j /\ atStep D p (S s) Av0 st' /\
    grows (seenAt D p s) st.1.1 st'.1.1.
Proof.
  intros HD Hi [I A R]. destruct st as [[K Av] added]. cbn [fst snd] in *. cbn [cseInstr].
  rewrite (renameInstrReads_total _ (replaced K)) by (intros v; apply resolve_flat; eapply kInv_flat, I).
  cbn [mbind option_bind]. set (j := mapOperands (replaced K) i).
  assert (Hren : renamedTo K i j).
  { exists (replaced K). split; [reflexivity|]. intros a _. unfold replaced. destruct (K !! vName a); auto. }
  assert (Hweak : forall x, seenAt D p s x -> seenAt D p (S s) x) by (intros x; apply seenAt_mono; [auto | lia]).
  destruct (expressionKey j) as [key|] eqn:Hkey.
  2: { do 2 eexists. split; [reflexivity|]. split; [exact Hren|]. split; [|intros x _; reflexivity].
       split; cbn [fst snd]; [eapply kInv_weaken; eassumption | apply avInv_step; assumption | exact R]. }
  assert (Hne : resultName i <> "").
  { unfold expressionKey in Hkey. destruct (String.eqb_spec (vName (iResult j)) ""); [discriminate | assumption]. }
  pose proof (seenAt_fresh D p s i HD Hi Hne) as Hfresh. pose proof (seenAt_now D p s i Hi Hne) as Hnow.
  assert (Hexpr : exprAt K p s i j key) by (split; [exact Hi | split; assumption]).
  assert (Hknone : K !! resultName i = None).
  { destruct (K !! resultName i) eqn:E; [|reflexivity]. exfalso. apply Hfresh. apply (k_seen _ _ I _ _ E). }
  change (vName (iResult j)) with (resultName i). change (iResult j) with (iResult i).
  destruct (Av !! key) as [e|] eqn:He.
  - destruct (A key e He) as ((pe & se & ie & je & E1 & E2 & E3) & Hseen & Hnone).
    assert (Hg : grows (seenAt D p s) K (<[resultName i := e]> K)).
    { intros x Hx. apply lookup_insert_ne. intros <-. contradiction. }
    pose proof (grows_sub _ _ _ I Hg) as Hsub.
    assert (I' : kInv (seenAt D p (S s)) (<[resultName i := e]> K)).
    { split; intros x e' Hx; apply lookup_insert_Some in Hx as [[<- <-]|[Hx1 Hx2]].
      - exists p, s, i, j, pe, se, ie, je, key. split; [eapply exprAt_mono; eassumption|]. split; [reflexivity|].
        split; [eapply exprAt_mono; eassumption | auto].
      - eapply linked_mono; [exact Hsub | apply (k_linked _ _ I), Hx2].
      - split; [exact Hnow|]. split; [apply Hweak, Hseen|]. rewrite Hg by exact Hseen. exact Hnone.
      - destruct (k_seen _ _ I x e' Hx2) as (B1 & B2 & B3). split; [apply Hweak, B1|]. split; [apply Hweak, B2|].
        rewrite Hg by exact B2. exact B3. }
    do 2 eexists. split; [reflexivity|]. split; [exact Hren|]. split; [|exact Hg]. split; cbn [fst snd]; [exact I' | | exact R].
    pose proof (avInv_step D p s K Av I A) as A'. intros k w Hk.
    destruct (A' k w Hk) as ((q & t & iw & jw & W1 & W2) & W3 & W4). destruct (A k w Hk) as (_ & W5 & _).
    split; [exists q, t, iw, jw; split; [eapply exprAt_mono; eassumption | exact W2]|]. split; [exact W3|].
    rewrite Hg by exact W5. exact W4.
  - do 2 eexists. split; [reflexivity|]. split; [exact Hren|]. split; [|intros x _; reflexivity].
    split; cbn [fst snd]; [eapply kInv_weaken; eassumption | | apply restores_add; assumption].
    pose proof (avInv_step D p s K Av I A) as A'. intros k w Hk.
    apply lookup_insert_Some in Hk as [[<- <-]|[_ Hk]]; [|exact (A' k w Hk)].
    split; [exists p, s, i, j; split; [exact Hexpr | split; [reflexivity | left; cbn; lia]]|]. split; [exact Hnow | exact Hknone].
Qed.

Lemma cseInstrs_spec D p b Av0 l : forall s st,
  ~ D p -> fBlocks fn !! p = Some b -> l = drop s (bInstrs b) -> s <= List.length (bInstrs b) -> atStep D p s Av0 st ->
  exists l' st', cseInstrs st l = Some (l', st') /\ Forall2 (renamedTo st'.1.1) l l' /\
    atStep D p (List.length (bInstrs b)) Av0 st' /\ grows (seenAt D p s) st.1.1 st'.1.1.
Proof.
  induction l as [|i l IH]; intros s st HD Hb Hl Hs Hst; cbn [cseInstrs].
  - assert (s = List.length (bInstrs b)) as -> by (apply (f_equal List.length) in Hl; rewrite length_drop in Hl; cbn in Hl; lia).
    exists [], st. split; [reflexivity|]. split; [constructor|]. split; [exact Hst | intros x _; reflexivity].
  - assert (Hi : bInstrs b !! s = Some i) by (rewrite <- (Nat.add_0_r s), <- lookup_drop, <- Hl; reflexivity).
    assert (Htl : l = drop (S s) (bInstrs b)) by (rewrite (drop_S _ _ _ Hi) in Hl; congruence).
    destruct (cseInstr_spec D p s i Av0 st HD) as (j & st1 & -> & Hj & Hst1 & Hg1); [exists b; auto | exact Hst|].
    cbn [mbind option_bind]. pose proof (lookup_lt_Some _ _ _ Hi).
    destruct (IH (S s) st1 HD Hb Htl ltac:(lia) Hst1) as (l' & st2 & -> & Hl' & Hst2 & Hg2). cbn [mbind option_bind].
    assert (Hg : grows (seenAt D p s) st.1.1 st2.1.1).
    { eapply grows_trans; [|exact Hg1|exact Hg2]. intros x. apply seenAt_mono; [auto | lia]. }
    do 2 eexists. split; [reflexivity|]. split; [|split; [exact Hst2 | exact Hg]]. constructor; [|exact Hl'].
    eapply renamedTo_mono; [|exact Hj]. eapply grows_sub; [apply Hst | exact Hg].
Qed.

(** ** The whole walk *)

(** The blocks so far: renamed where the walk has been, untouched elsewhere. *)
Definition blocksInv (D : nat -> Prop) (K : replacements_map) (blocks : list Block) : Prop :=
  List.length blocks = List.length (fBlocks fn) /\
  forall q b, fBlocks fn !! q = Some b -> exists b', blocks !! q = Some b' /\
    bName b' = bName b /\ bTerminator b' = bTerminator b /\ Forall2 (renamedTo K) (bInstrs b) (bInstrs b') /\
    (~ D q -> b' = b).

Lemma blocksInv_mono (D1 D2 : nat -> Prop) K K' blocks :
  (forall q, D1 q -> D2 q) -> K ⊆ K' -> blocksInv D1 K blocks -> blocksInv D2 K' blocks.
Proof.
  intros HD HK [Hl H]. split; [exact Hl|]. intros q b Hb. destruct (H q b Hb) as (b' & H1 & H2 & H3 & H4 & H5).
  exists b'. split; [exact H1|]. split; [exact H2|]. split; [exact H3|]. split; [|auto].
  eapply Forall2_impl; [exact H4 | intros ? ?; apply renamedTo_mono, HK].
Qed.

Lemma blocksInv_alter D K K' blocks p b l' :
  K ⊆ K' -> fBlocks fn !! p = Some b -> Forall2 (renamedTo K') (bInstrs b) l' -> ~ D p -> blocksInv D K blocks ->
  blocksInv (fun q => D q \/ q = p) K' (alter (set_bInstrs (fun _ => l')) p blocks).
Proof.
  intros HK Hb Hl' HD [Hlen H]. split; [rewrite length_alter; exact Hlen|]. intros q c Hc.
  destruct (H q c Hc) as (c' & H1 & H2 & H3 & H4 & H5). destruct (decide (q = p)) as [->|Hne].
  - assert (c = b) as -> by congruence. rewrite (H5 HD) in H1. exists (set_bInstrs (fun _ => l') b).
    rewrite list_lookup_alter_eq, H1. split; [reflexivity|]. split; [reflexivity|]. split; [reflexivity|].
    split; [exact Hl' | intros Hn; destruct Hn; auto].
  - exists c'. rewrite list_lookup_alter_ne by congruence. split; [exact H1|]. split; [exact H2|]. split; [exact H3|].
    split; [eapply Forall2_impl; [exact H4 | intros ? ?; apply renamedTo_mono, HK] | auto].
Qed.

(** What holds when a block, or a list of siblings, is entered. *)
Record ready (D : nat -> Prop) (p s : nat) (st : cseState) : Prop := mkReady {
  rd_kinv : kInv (seenAt D p s) (csReplacements st);
  rd_avinv : avInv (seenAt D p s) (csReplacements st) p s (csAvailable st);
  rd_blocks : blocksInv D (csReplacements st) (csBlocks st)
}.

(** What holds after it; [W] are the blocks that were entered. *)
Record walked (D W : nat -> Prop) (p s : nat) (st st' : cseState) : Prop := mkWalked {
  wk_kinv : kInv (seenAt (fun q => D q \/ W q) p s) (csReplacements st');
  wk_grows : grows (seenAt D p s) (csReplacements st) (csReplacements st');
  wk_available : csAvailable st' = csAvailable st;
  wk_blocks : blocksInv (fun q => D q \/ W q) (csReplacements st') (csBlocks st')
}.

(** Entering a child: what the parent's end has is before the child. *)
Lemma avInv_child (D : nat -> Prop) p c K Av :
  reach (succs fn) 0 p -> child p c -> D p -> avInv (seenAt D p 0) K p (stepsOf fn p) Av -> avInv (seenAt D c 0) K c 0 Av.
Proof.
  intros Hp (cs & Hcs & Hc) HD H key e He. destruct (forest_dominated _ _ _ F _ _ _ Hcs Hc) as (Hne & Hd & Hr).
  destruct (H key e He) as ((pe & se & ie & je & H1 & H2 & H3) & H4 & H5). split; [|split; [|exact H5]].
  - exists pe, se, ie, je. split; [exact H1|]. split; [exact H2|]. right. unfold before in H3. cbn [defBlock defStep] in *.
    destruct H3 as [[-> _]|[H3 H3']]; [auto|]. split; [|eapply dominated_trans; eassumption]. intros ->.
    apply Hne. symmetry. eapply dominated_antisym; [exact Hp | exact H3' | exact Hd].
  - eapply seenAt_done; [| |exact H4]; auto.
Qed.

Lemma cseChildren_spec visit p :
  reach (succs fn) 0 p ->
  (forall c, child p c -> forall D st, (forall q, desc c q -> ~ D q) -> ready D c 0 st ->
     exists st', visit c st = Some st' /\ walked D (desc c) c 0 st st') ->
  forall cs (D : nat -> Prop) st, D p -> NoDup cs -> (forall c, c ∈ cs -> child p c) -> (forall c q, c ∈ cs -> desc c q -> ~ D q) ->
  kInv (seenAt D p 0) (csReplacements st) -> avInv (seenAt D p 0) (csReplacements st) p (stepsOf fn p) (csAvailable st) ->
  blocksInv D (csReplacements st) (csBlocks st) ->
  exists st', cseChildren visit cs st = Some st' /\ walked D (fun q => exists c, c ∈ cs /\ desc c q) p 0 st st'.
Proof.
  intros Hp Hvisit. induction cs as [|c cs IH]; intros D st HDp Hnd Hch Hnew I A B; cbn [cseChildren].
  - exists st. split; [reflexivity|]. split; [|intros x _; reflexivity | reflexivity |].
    + eapply kInv_weaken; [|exact I]. intros x. apply seenAt_mono; auto.
    + eapply blocksInv_mono; [|reflexivity|exact B]. auto.
  - apply NoDup_cons in Hnd as [Hc Hnd].
    assert (Hseen : forall D' x, seenAt D' p 0 x -> seenAt D' c 0 x).
    { intros D' x (q & t & i & H1 & H2 & H3 & [H4|[_ H4]]); [exists q, t, i; auto 6 | lia]. }
    assert (Hseen' : forall D' x, seenAt D' c 0 x -> seenAt D' p 0 x).
    { intros D' x (q & t & i & H1 & H2 & H3 & [H4|[_ H4]]); [exists q, t, i; auto 6 | lia]. }
    destruct (Hvisit c (Hch c ltac:(left)) D st) as (st1 & -> & [W1 W2 W3 W4]).
    { intros q. apply Hnew. left. }
    { split; [eapply kInv_weaken; [apply Hseen | exact I] | eapply avInv_child; eauto; apply Hch; left | exact B]. }
    cbn [mbind option_bind].
    assert (Hg1 : grows (seenAt D p 0) (csReplacements st) (csReplacements st1)) by (intros x Hx; apply W2, Hseen, Hx).
    destruct (IH (fun q => D q \/ desc c q) st1) as (st2 & -> & [V1 V2 V3 V4]); auto.
    { intros c' Hc'. apply Hch. right. exact Hc'. }
    { intros c' q Hc' Hq [HDq|Hcq]; [eapply Hnew; [right; exact Hc' | exact Hq | exact HDq]|].
      eapply (desc_apart p c c' q); eauto; [apply Hch; left | apply Hch; right; exact Hc' | congruence]. }
    { eapply kInv_weaken; [apply Hseen' | exact W1]. }
    { rewrite W3. eapply avInv_mono; [|exact I|exact Hg1|exact A]. intros x. apply seenAt_mono; auto. }
    exists st2. split; [reflexivity|].
    assert (Hset : forall q, (D q \/ desc c q) \/ (exists c', c' ∈ cs /\ desc c' q) -> D q \/ exists c', c' ∈ c :: cs /\ desc c' q).
    { intros q [[H|H]|(c' & H1 & H2)]; [auto | right; exists c; split; [left | exact H] | right; exists c'; split; [right; exact H1 | exact H2]]. }
    split; [| | congruence |].
    + eapply kInv_weaken; [|exact V1]. intros x. apply seenAt_mono; auto.
    + eapply grows_trans; [|exact Hg1|exact V2]. intros x. apply seenAt_mono; auto.
    + eapply blocksInv_mono; [|reflexivity|exact V4]. exact Hset.
Qed.

Lemma cseVisit_spec fuel : forall p D st,
  reach (succs fn) 0 p -> (forall q, desc p q -> ~ D q) -> p < List.length (fBlocks fn) ->
  List.length (fBlocks fn) - rank p < fuel -> ready D p 0 st ->
  exists st', cseVisit fuel children p st = Some st' /\ walked D (desc p) p 0 st st'.
Proof.
  induction fuel as [|fuel IH]; intros p D st Hp HD Hlt Hfuel [I A B]; [lia|]. cbn [cseVisit].
  assert (HDp : ~ D p) by (apply HD; constructor).
  destruct (lookup_lt_is_Some_2 (fBlocks fn) p Hlt) as [b Hb].
  destruct (proj2 B p b Hb) as (b' & Hb' & _ & _ & _ & Hsame). rewrite (Hsame HDp) in Hb'. rewrite Hb'. cbn [mbind option_bind].
  destruct (cseInstrs_spec D p b (csAvailable st) (bInstrs b) 0 (csReplacements st, csAvailable st, [])) as (l' & [[K1 Av1] added] & -> & Hl' & [I1 A1 R1] & Hg1);
    [exact HDp | exact Hb | reflexivity | lia | split; [exact I | exact A | intros key; reflexivity] |].
  cbn [mbind option_bind fst snd] in *. destruct (forest_some _ _ _ F p Hlt) as [cs Hcs]. rewrite Hcs. cbn [mbind option_bind].
  set (D1 := fun q => D q \/ q = p). set (st1 := mkCse _ K1 Av1).
  assert (Hsteps : stepsOf fn p = List.length (bInstrs b)) by (unfold stepsOf; rewrite Hb; reflexivity).
  assert (Hto : forall x, seenAt D p (List.length (bInstrs b)) x -> seenAt D1 p 0 x).
  { intros x. apply seenAt_done; unfold D1; auto. }
  destruct (cseChildren_spec (cseVisit fuel children) p Hp) with (cs := cs) (D := D1) (st := st1) as (st2 & -> & [W1 W2 W3 W4]).
  - intros c Hc D0 st0 H0 Hready. pose proof Hc as (cs' & Hcs' & Hin). destruct (forest_dominated _ _ _ F _ _ _ Hcs' Hin) as (_ & _ & Hr).
    apply IH; [exact Hr | exact H0 | | | exact Hready].
    + destruct (order_spec fn ltac:(unfold CfgFacts.size; lia)) as (_ & Ho & _). eapply order_bound; [unfold CfgFacts.size; lia|]. apply Ho, Hr.
    + pose proof (forest_rank _ _ _ F _ _ _ Hcs' Hin Hp). lia.
  - right. reflexivity.
  - eapply forest_nodup; eassumption.
  - intros c Hc. exists cs. auto.
  - intros c q Hc Hq [HDq| ->]; [|eapply child_not_up; [exact Hp | exists cs; eauto | exact Hq]].
    apply (HD q); [eapply rtc_l; [exists cs; eauto | exact Hq] | exact HDq].
  - eapply kInv_weaken; [exact Hto | exact I1].
  - rewrite Hsteps. intros key e He. destruct (A1 key e He) as (H1 & H2 & H3). auto.
  - unfold st1. cbn [csReplacements csBlocks].
    apply (blocksInv_alter D (csReplacements st) K1 (csBlocks st) p b l'); [eapply grows_sub; eassumption | exact Hb | exact Hl' | exact HDp | exact B].
  - cbn [mbind option_bind]. eexists. split; [reflexivity|]. split; cbn [csBlocks csReplacements csAvailable].
    + eapply kInv_weaken; [|exact W1]. intros x. apply seenAt_mono; [|lia]. unfold D1.
      intros q [[H| ->]|(c & Hc & Hq)]; [auto | right; constructor | right; eapply rtc_l; [exists cs; eauto | exact Hq]].
    + apply (grows_trans (seenAt D p 0) (seenAt D p (List.length (bInstrs b))) (csReplacements st) K1 (csReplacements st2));
        [intros x; apply seenAt_mono; [auto | lia] | exact Hg1 |].
      intros x Hx. apply (W2 x), Hto, Hx.
    + rewrite W3. apply restores_delete, R1.
    + eapply blocksInv_mono; [|reflexivity|exact W4]. unfold D1.
      intros q [[H| ->]|(c & Hc & Hq)]; [auto | right; constructor | right; eapply rtc_l; [exists cs; eauto | exact Hq]].
Qed.
End Walk.

(** * The spelling of an expression ([expressionKey] of [internal/ir/cse.go])

    Two instructions with one key compute the same: the operation, the
    immediate, the result's type and the operands can be read back from it,
    as long as the parts hold no separator. *)

(** A string without the byte [c]. *)
Definition noByte (c : Ascii.ascii) : string -> bool := sall (fun x => negb (Ascii.eqb x c)).

Abbreviation bar := ("|"%char).
Abbreviation colon := (":"%char).

Lemma sapp_empty s : s +:+ "" = s.
Proof. induction s as [|x s IH]; [reflexivity|]. cbn [append]. f_equal. exact IH. Qed.

(** Nothing follows, or what follows begins with [c]. *)
Definition endsOr (c : Ascii.ascii) (t : string) : Prop := t = "" \/ exists t', t = String c t'.

Lemma noByte_split c s s' t t' :
  noByte c s = true -> noByte c s' = true -> endsOr c t -> endsOr c t' ->
  s +:+ t = s' +:+ t' -> s = s' /\ t = t'.
Proof.
  intros Hs Hs' Ht Ht' H. set (p := fun x => negb (Ascii.eqb x c)).
  assert (Hst : forall u, endsOr c u -> starts p u = false).
  { intros u [->|[u' ->]]; [reflexivity|]. cbn. unfold p. rewrite Ascii.eqb_refl. reflexivity. }
  pose proof (sspan_app p s t Hs (Hst t Ht)) as E. rewrite H, (sspan_app p s' t' Hs' (Hst t' Ht')) in E.
  injection E as -> ->. auto.
Qed.

(** The part after the last [c]. *)
Lemma noByte_last c s s' t t' :
  noByte c t = true -> noByte c t' = true -> s +:+ String c t = s' +:+ String c t' -> s = s' /\ t = t'.
Proof.
  assert (Hmid : forall s u, noByte c (s +:+ String c u) = false).
  { intros u1 u. unfold noByte. induction u1 as [|x u1 IH]; cbn [append sall]; [rewrite Ascii.eqb_refl; reflexivity|].
    rewrite IH. apply andb_false_r. }
  intros Ht Ht'. revert s'. induction s as [|x s IH]; intros [|x' s'] H; cbn [append] in H.
  - injection H as ->. auto.
  - injection H as -> ->. rewrite Hmid in Ht. discriminate.
  - injection H as -> <-. rewrite Hmid in Ht'. discriminate.
  - injection H as -> H. destruct (IH s' H) as [-> ->]. auto.
Qed.

(** ** Parts a key can be taken apart into *)

Definition plainValue (v : Value) : bool := noByte bar (vName v) && noByte colon (vName v) && noByte bar (vType v).

Definition plainOp (op : string) : bool :=
  String.eqb op "binary.|" || noByte bar op && negb (String.eqb op "binary.").

(** The operations the pass keys, whatever their operands. *)
Definition keyedOp (op : string) : bool :=
  String.eqb op "const" || String.eqb op "cast" || String.eqb op "union.tag" || String.eqb op "union.payload" ||
  HasPrefix op "binary." || HasPrefix op "unary." || HasPrefix op "field.".

Lemma computes_keyedOp i : computesFromOperands i = true -> keyedOp (iOp i) = true.
Proof.
  unfold computesFromOperands, keyedOp. destruct (String.eqb (iOp i) "const"), (String.eqb (iOp i) "cast"),
    (String.eqb (iOp i) "union.tag"), (String.eqb (iOp i) "union.payload"); cbn [orb]; try reflexivity.
  destruct (HasPrefix (iOp i) "binary."), (HasPrefix (iOp i) "unary."), (HasPrefix (iOp i) "field."); cbn; intros H; auto.
Qed.

Lemma keyedOp_not_phi op : keyedOp op = true -> op <> "phi".
Proof. intros H ->. discriminate H. Qed.

(** A keyed instruction as lowering makes it: a constant reads nothing and
    may hold any text; the other operations are spelled without separators. *)
Definition plainExpression (i : Instr) : Prop :=
  iFields i = [] /\ plainValue (iResult i) = true /\
  if String.eqb (iOp i) "const" then iArgs i = []
  else plainOp (iOp i) = true /\ noByte bar (iImmediate i) = true /\ forallb plainValue (iArgs i) = true.

Lemma argsKey_ends args : endsOr bar (argsKey args).
Proof. destruct args as [|a args]; [left; reflexivity | right; cbn; eauto]. Qed.

Lemma argsKey_inj args args' :
  forallb plainValue args = true -> forallb plainValue args' = true -> argsKey args = argsKey args' -> args = args'.
Proof.
  revert args'. induction args as [|[x tx] args IH]; intros [|[y ty] args'] H H' E; try discriminate E; [reflexivity|].
  cbn [forallb] in H, H'. unfold plainValue in H at 1, H' at 1. cbn [vName vType] in H, H'.
  rewrite !andb_true_iff in H, H'. destruct H as [[[_ Hx] Hxt] H], H' as [[[_ Hy] Hyt] H'].
  cbn [argsKey vName vType] in E. cbn [append] in E. injection E as E.
  apply noByte_split with (c := colon) in E as [-> E]; [| assumption | assumption | right; eauto | right; eauto].
  injection E as E. apply noByte_split with (c := bar) in E as [-> E]; [| assumption | assumption | |]; try apply argsKey_ends.
  f_equal. apply IH; assumption.
Qed.

Lemma plainOp_split op op' t t' :
  plainOp op = true -> plainOp op' = true -> op +:+ String bar t = op' +:+ String bar t' -> op = op' /\ t = t'.
Proof.
  unfold plainOp. intros H H' E. destruct (String.eqb_spec op "binary.|") as [->|Hn], (String.eqb_spec op' "binary.|") as [->|Hn'].
  - injection E as ->. auto.
  - cbn [orb] in H'. apply andb_true_iff in H' as [H' Hb]. change ("binary.|" +:+ String bar t) with ("binary." +:+ String bar (String bar t)) in E.
    apply noByte_split with (c := bar) in E as [<- _]; [discriminate Hb | reflexivity | exact H' | right; eauto | right; eauto].
  - cbn [orb] in H. apply andb_true_iff in H as [H Hb]. change ("binary.|" +:+ String bar t') with ("binary." +:+ String bar (String bar t')) in E.
    apply noByte_split with (c := bar) in E as [-> _]; [discriminate Hb | exact H | reflexivity | right; eauto | right; eauto].
  - cbn [orb] in H, H'. apply andb_true_iff in H as [H _], H' as [H' _].
    apply noByte_split with (c := bar) in E as [-> E]; [|assumption|assumption|right; eauto|right; eauto]. injection E as ->. auto.
Qed.

(** What a key says. *)
Definition sameExpression (i j : Instr) : Prop :=
  iOp i = iOp j /\ iImmediate i = iImmediate j /\ vType (iResult i) = vType (iResult j) /\ iArgs i = iArgs j.

Lemma expressionKey_Some i key :
  expressionKey i = Some key ->
  vName (iResult i) <> "" /\ iCleanups i = [] /\ computesFromOperands i = true /\
  key = iOp i +:+ "|" +:+ iImmediate i +:+ "|" +:+ vType (iResult i) +:+ argsKey (iArgs i).
Proof.
  unfold expressionKey. destruct (String.eqb_spec (vName (iResult i)) "") as [|Hne]; [discriminate|].
  destruct (String.eqb _ "void"); [discriminate|]. destruct (iCleanups i); [|discriminate].
  destruct (computesFromOperands i); [|discriminate]. intros [= <-]. auto.
Qed.

Lemma const_op_split op t t' :
  plainOp op = true -> op <> "const" -> "const" +:+ String bar t = op +:+ String bar t' -> False.
Proof.
  intros Hp Hn E. apply plainOp_split in E as [E _]; [congruence | reflexivity | exact Hp].
Qed.

Lemma expressionKey_inj i j key :
  plainExpression i -> plainExpression j -> expressionKey i = Some key -> expressionKey j = Some key -> sameExpression i j.
Proof.
  intros (_ & Hi & Pi) (_ & Hj & Pj) (_ & _ & _ & ->)%expressionKey_Some (_ & _ & _ & E)%expressionKey_Some.
  unfold plainValue in Hi, Hj. rewrite !andb_true_iff in Hi, Hj. destruct Hi as [_ Hi], Hj as [_ Hj].
  cbn [append] in E. unfold sameExpression.
  destruct (String.eqb_spec (iOp i) "const") as [Ei|Ei], (String.eqb_spec (iOp j) "const") as [Ej|Ej].
  - rewrite Ei, Ej, Pi, Pj in *. cbn [argsKey] in E. injection E as E.
    rewrite !sapp_empty in E. apply noByte_last in E as [-> ->]; auto.
  - destruct Pj as (Pj & _). rewrite Ei in E. destruct (const_op_split _ _ _ Pj Ej E).
  - destruct Pi as (Pi & _). rewrite Ej in E. destruct (const_op_split _ _ _ Pi Ei (eq_sym E)).
  - destruct Pi as (Pi & Mi & Ai), Pj as (Pj & Mj & Aj).
    apply plainOp_split in E as [-> E]; [|assumption|assumption].
    apply noByte_split with (c := bar) in E as [-> E]; [|assumption|assumption|right; eauto|right; eauto]. injection E as E.
    apply noByte_split with (c := bar) in E as [-> E]; try apply argsKey_ends; [|assumption|assumption].
    rewrite (argsKey_inj _ _ Ai Aj E). auto.
Qed.
