(* ===== verification/CseTheorems.v ===== *)
(** * Common subexpressions keep every run ([internal/ir/cse.go])

    The walk leaves a map from results to earlier results; the function is the
    original with that map applied to every read.  A result and its
    replacement have one value wherever the result is available. *)

From stdpp Require Import base list strings gmap.
From Stdlib Require Import ZArith Lia String Ascii.
From S2P Require Import Prelude GoStd IR Cfg Dominators CfgFacts Verify VerifyFacts Semantics Optimize.
From S2P Require Import Dce OptimizeTheorems Ssa Simplify SimplifyFacts Available Cse.

#[local] Open Scope string_scope.
#[local] Open Scope list_scope.

(** ** The function that comes out *)

(** Replacing again after a partial renaming. *)
Lemma mapReads_mapOperands f r i :
  (forall a, a ∈ readOperands i -> f (r a) = f a) -> mapReads f (mapOperands r i) = mapReads f i.
Proof.
  intros H. unfold mapReads, mapOperands.
  cbn [iResult iOp iArgs iExternABI iExternName iCallParams iVariadicFixed iImmediate iFields iIncoming iCleanups iSpan].
  rewrite !map_map. f_equal.
  - apply map_ext_elem. intros a Ha. apply H, elem_args, Ha.
  - apply map_ext_elem. intros fa Hfa. cbn [faName faValue]. rewrite H; [reflexivity | apply elem_fields, Hfa].
  - apply map_ext_elem. intros c Hc. cbn [clOp clArgs clLoads clExternABI clExternName clCallParams clVariadicFixed clOnError clReceiver].
    rewrite map_map. f_equal. apply map_ext_elem. intros a Ha. eapply H, elem_cleanups; eassumption.
Qed.

Lemma replaced_renamed K i j : flat K -> renamedTo K i j -> mapReads (replaced K) j = mapReads (replaced K) i.
Proof.
  intros Hflat (r & -> & Hr). apply mapReads_mapOperands. intros a Ha. destruct (Hr a Ha) as [->|Hk]; [reflexivity|].
  unfold replaced at 2. rewrite Hk. unfold replaced. rewrite (Hflat _ _ Hk). reflexivity.
Qed.

Lemma replaceBlock_renamed K b b' :
  flat K -> bName b' = bName b -> bTerminator b' = bTerminator b -> Forall2 (renamedTo K) (bInstrs b) (bInstrs b') ->
  replaceBlock K b' = replaceBlock K b.
Proof.
  intros Hflat Hn Ht Hi. unfold replaceBlock. rewrite Hn, Ht. f_equal.
  induction Hi as [|i j l l' Hij _ IH]; [reflexivity|]. cbn [map]. rewrite IH, (replaced_renamed K i j); auto.
Qed.

Lemma list_eq_map {A} (f : A -> A) l l' :
  List.length l' = List.length l -> (forall q b, l !! q = Some b -> exists b', l' !! q = Some b' /\ f b' = f b) ->
  map f l' = map f l.
Proof.
  intros Hlen H. apply list_eq. intros q. rewrite !list_lookup_fmap. destruct (l !! q) as [b|] eqn:Hb.
  - destruct (H q b Hb) as (b' & -> & Hf). cbn. congruence.
  - apply lookup_ge_None in Hb. rewrite (proj2 (lookup_ge_None l' q)) by lia. reflexivity.
Qed.

(** The whole walk: one map, flat, applied to every read. *)
Lemma cse_result module params fn :
  sound module params fn -> fBlocks fn <> [] ->
  exists K, kInv fn (fun _ => True) K /\
    eliminateCommonSubexpressionsIn fn = Some (set_fBlocks (fun _ => map (replaceBlock K) (fBlocks fn)) fn).
Proof.
  intros Hs Hne. assert (Hlen : 0 < List.length (fBlocks fn)) by (destruct (fBlocks fn); [contradiction | cbn; lia]).
  destruct (dominatorChildren_spec fn Hlen) as (tree & children & rank & Htree & Hch & F).
  destruct (order_spec fn Hlen) as (_ & _ & H0 & _).
  destruct (cseVisit_spec module params fn Hs rank children F (S (List.length (fBlocks fn))) 0 (fun _ => False) (mkCse (fBlocks fn) ∅ ∅))
    as (st & Hst & [I _ _ [Hl B]]); [apply reach_refl | tauto | exact Hlen | lia | |].
  { split; cbn [csReplacements csAvailable csBlocks];
      [split; intros x e H; rewrite lookup_empty in H; discriminate | intros k e H; rewrite lookup_empty in H; discriminate |].
    split; [reflexivity|]. intros q b Hb. exists b. repeat split; [exact Hb|].
    induction (bInstrs b); constructor; auto using renamedTo_refl. }
  set (K := csReplacements st) in *. exists K. split; [eapply kInv_weaken; [|exact I]; auto|].
  assert (Hflat : flat K) by (eapply kInv_flat, I).
  unfold eliminateCommonSubexpressionsIn. rewrite Htree. cbn [mbind option_bind]. rewrite Hch. cbn [mbind option_bind].
  unfold order in H0. rewrite H0. cbn [mbind option_bind]. rewrite Hst. cbn [mbind option_bind]. fold K.
  assert (Hblocks : map (replaceBlock K) (csBlocks st) = map (replaceBlock K) (fBlocks fn)).
  { apply list_eq_map; [exact Hl|]. intros q b Hb. destruct (B q b Hb) as (b' & H1 & H2 & H3 & H4 & _).
    exists b'. split; [exact H1 | apply replaceBlock_renamed; assumption]. }
  destruct (fBlocks fn) as [|b0 l] eqn:E; [contradiction|]. case_decide as Hsz.
  - apply map_size_empty_iff in Hsz. rewrite <- Hblocks. rewrite Hsz.
    rewrite (map_ext _ (fun b => b) replaceBlock_empty), map_id. reflexivity.
  - rewrite replaceFunctionValues_flat by exact Hflat. cbn [mbind option_bind]. rewrite Hblocks. reflexivity.
Qed.

(** ** Values of expressions *)

(** What every machine's keyed operations are: a function of the operation,
    the immediate, the types and the operands, that leaves the memory. *)
Class ExpressionMachine {V M X} (machine : Machine V M X) : Prop := {
  expression_value : forall i j vs (m m1 : M) v, computesFromOperands i = true ->
    iCleanups i = [] -> iCleanups j = [] -> iFields i = [] -> iFields j = [] ->
    iOp i = iOp j -> iImmediate i = iImmediate j -> vType (iResult i) = vType (iResult j) ->
    map vType (iArgs i) = map vType (iArgs j) ->
    operation i vs m = Next v m1 -> forall m', operation j vs m' = Next v m'
}.

(** What lowering makes: a read has the type of the instruction it reads, and
    the instructions the pass keys are spelled without separators. *)
Record expressible (fn : Function) : Prop := mkExpressible {
  ex_reads : forall i v, i ∈ instrsOf (fBlocks fn) -> v ∈ readOperands i -> typedRead fn v;
  ex_ends : forall b, b ∈ fBlocks fn -> typedRead fn (tValue (bTerminator b));
  ex_plain : forall i, i ∈ instrsOf (fBlocks fn) -> keyedOp (iOp i) = true -> plainExpression i
}.

Section Values.
Context {V M X : Type} {machine : Machine V M X} {expressions : ExpressionMachine machine}.
Context (module : Module_) (params : gmap string (list Param)) (fn : Function).
Context (Hsound : sound module params fn) (Hex : expressible fn).
Context (K : replacements_map) (HK : kInv fn (fun _ => True) K).

Abbreviation env := (gmap string V).

Lemma exprAt_in p s i j key : exprAt fn K p s i j key -> i ∈ instrsOf (fBlocks fn).
Proof. intros [H _]. eapply instrAt_in, H. Qed.

Lemma exprAt_keyed p s i j key : exprAt fn K p s i j key ->
  keyedOp (iOp i) = true /\ resultName i <> "" /\ plainExpression i /\ iCleanups i = [].
Proof.
  intros H. pose proof H as (Hi & (r & -> & _) & (Hne & Hc & Hop & _)%expressionKey_Some).
  apply computes_keyedOp in Hop. split; [exact Hop|]. split; [exact Hne|].
  split; [apply (ex_plain _ Hex); [eapply instrAt_in, Hi | exact Hop]|].
  cbn [mapOperands iCleanups] in Hc. apply map_eq_nil in Hc. exact Hc.
Qed.

Lemma K_plain x e : K !! x = Some e -> plainValue e = true.
Proof.
  intros Hx. destruct (k_linked _ _ _ HK x e Hx) as (px & sx & ix & jx & pe & se & ie & je & key & _ & _ & He & <- & _).
  apply exprAt_keyed in He as (_ & _ & (_ & H & _) & _). exact H.
Qed.

Lemma exprAt_plain p s i j key : exprAt fn K p s i j key -> plainExpression j.
Proof.
  intros H. pose proof (exprAt_keyed _ _ _ _ _ H) as (_ & _ & (Hf & Hr & Hp) & _). destruct H as (_ & (r & -> & Hren) & _).
  unfold plainExpression, mapOperands. cbn [iFields iResult iOp iArgs iImmediate]. rewrite Hf.
  split; [reflexivity|]. split; [exact Hr|]. destruct (String.eqb (iOp i) "const"); [rewrite Hp; reflexivity|].
  destruct Hp as (H1 & H2 & H3). split; [exact H1|]. split; [exact H2|]. rewrite forallb_forall in *.
  intros b (a & <- & Ha)%in_map_iff. destruct (Hren a) as [->|Hk]; [apply elem_args, list_elem_of_In, Ha | apply H3, Ha |].
  eapply K_plain, Hk.
Qed.

(** A replacement is the result of an instruction that computes the same. *)
Lemma linked_same x e : K !! x = Some e -> exists px sx ix jx kx pe se ie je ke,
  exprAt fn K px sx ix jx kx /\ resultName ix = x /\ exprAt fn K pe se ie je ke /\ iResult ie = e /\
  before fn (mkDefinition pe se) px sx /\ sameExpression jx je.
Proof.
  intros Hx. destruct (k_linked _ _ _ HK x e Hx) as (px & sx & ix & jx & pe & se & ie & je & key & H1 & H2 & H3 & H4 & H5).
  exists px, sx, ix, jx, key, pe, se, ie, je, key. do 5 (split; [assumption|]).
  apply (expressionKey_inj jx je key); [eapply exprAt_plain, H1 | eapply exprAt_plain, H3 | apply H1 | apply H3].
Qed.

Lemma exprAt_result p s i j key : exprAt fn K p s i j key -> iResult j = iResult i /\ iOp j = iOp i /\ iImmediate j = iImmediate i.
Proof. intros (_ & (r & -> & _) & _). auto. Qed.

Lemma K_defined x e : K !! x = Some e -> exists p s j, instrAt fn p s j /\ resultName j = x /\ x <> "" /\ vType e = vType (iResult j).
Proof.
  intros Hx. destruct (linked_same x e Hx) as (px & sx & ix & jx & kx & pe & se & ie & je & ke & H1 & <- & H3 & <- & _ & (_ & _ & Ht & _)).
  exists px, sx, ix. split; [apply H1|]. split; [reflexivity|]. split; [eapply exprAt_keyed, H1|].
  rewrite (proj1 (exprAt_result _ _ _ _ _ H1)), (proj1 (exprAt_result _ _ _ _ _ H3)) in Ht. congruence.
Qed.

Lemma exprAt_types p s i j key : exprAt fn K p s i j key -> map vType (iArgs j) = map vType (iArgs i).
Proof.
  intros H. pose proof (exprAt_in _ _ _ _ _ H) as Hin. destruct H as (_ & (r & -> & Hr) & _). cbn [mapOperands iArgs].
  rewrite map_map. apply map_ext_elem. intros a Ha%elem_args. destruct (Hr a Ha) as [->|Hk]; [reflexivity|].
  rewrite <- (replaced_type fn K K_defined a) by (eapply ex_reads; eassumption). unfold replaced. rewrite Hk. reflexivity.
Qed.

(** The operation of an expression depends on what its key spells. *)
Lemma exprAt_operation p s i j k q t i' j' k' vs (m m1 : M) v :
  exprAt fn K p s i j k -> exprAt fn K q t i' j' k' -> sameExpression j j' ->
  operation (shape i) vs m = Next (X := X) v m1 -> forall m', operation (shape i') vs m' = Next (X := X) v m'.
Proof.
  intros H H' (E1 & E2 & E3 & E4). pose proof (exprAt_keyed _ _ _ _ _ H) as (_ & _ & (Hf & _) & Hc).
  pose proof (exprAt_keyed _ _ _ _ _ H') as (_ & _ & (Hf' & _) & Hc').
  destruct (exprAt_result _ _ _ _ _ H) as (R1 & R2 & R3). destruct (exprAt_result _ _ _ _ _ H') as (R1' & R2' & R3').
  pose proof (exprAt_types _ _ _ _ _ H) as T. pose proof (exprAt_types _ _ _ _ _ H') as T'. rewrite <- E4, T in T'.
  assert (Hty : forall l, map vType (map unnamed l) = map vType l) by (intros l; rewrite map_map; reflexivity).
  apply (expression_value (shape i) (shape i') vs m m1 v); unfold shape; cbn [iCleanups iFields iOp iImmediate iResult iArgs vType unnamed].
  - destruct H as (_ & _ & (_ & _ & Hop & _)%expressionKey_Some). rewrite <- Hop. unfold computesFromOperands. rewrite R2. cbn [iOp iArgs].
    assert (Hall : forall l, forallb (fun arg => negb (HasPrefix (vType arg) "[]")) l = forallb (fun ty => negb (HasPrefix ty "[]")) (map vType l)).
    { induction l as [|a l IH]; [reflexivity|]. cbn [map forallb]. rewrite IH. reflexivity. }
    rewrite !Hall, Hty, T. reflexivity.
  - rewrite Hc. reflexivity.
  - rewrite Hc'. reflexivity.
  - rewrite Hf. reflexivity.
  - rewrite Hf'. reflexivity.
  - congruence.
  - congruence.
  - congruence.
  - rewrite !Hty. exact T'.
Qed.

(** ** What holds where a value is available *)

(** The names the value of [x] rests on. *)
Definition deps (x : string) : list string :=
  match K !! x with Some e => [vName e] | None => [] end ++
  flat_map (fun i => if String.eqb (resultName i) x && keyedOp (iOp i)
    then map vName (iArgs i) ++ map (fun a => vName (replaced K a)) (iArgs i) else []) (instrsOf (fBlocks fn)).

Definition fact (x : string) (ρ : env) : Prop :=
  (forall e, K !! x = Some e -> exists v, ρ !! x = Some v /\ operand ρ e = Some v) /\
  (forall p s i j key, exprAt fn K p s i j key -> resultName i = x ->
     exists v vs, ρ !! x = Some v /\ mapM (operand ρ) (iArgs j) = Some vs /\
       forall m, operation (shape i) vs m = Next (X := X) v m).

(** The values say nothing of the memory. *)
Definition anywhere (p s : nat) (ρ : env) (m : M) : Prop := True.

Lemma instrsOf_at i : i ∈ instrsOf (fBlocks fn) -> exists p s, instrAt fn p s i.
Proof.
  intros (b & Hb & Hi)%list_elem_of_In%in_flat_map. apply list_elem_of_In in Hb, Hi.
  apply list_elem_of_lookup_1 in Hb as [p Hp], Hi as [s Hs]. exists p, s, b. auto.
Qed.

Lemma deps_link x e : K !! x = Some e -> vName e ∈ deps x.
Proof. intros H. apply elem_of_app. left. rewrite H. left. Qed.

Lemma deps_arg p s i j key a : exprAt fn K p s i j key -> a ∈ iArgs j -> vName a ∈ deps (resultName i).
Proof.
  intros H Ha. pose proof (exprAt_in _ _ _ _ _ H) as Hin. destruct (exprAt_keyed _ _ _ _ _ H) as (Hk & _).
  destruct H as (_ & (r & -> & Hr) & _). apply list_elem_of_fmap in Ha as (b & -> & Hb).
  apply elem_of_app. right. apply list_elem_of_In, in_flat_map. exists i. split; [apply list_elem_of_In, Hin|].
  rewrite String.eqb_refl, Hk. apply in_app_iff. destruct (Hr b (elem_args _ _ Hb)) as [->|He]; [left | right].
  - apply in_map, list_elem_of_In, Hb.
  - apply in_map_iff. exists b. unfold replaced. rewrite He. split; [reflexivity | apply list_elem_of_In, Hb].
Qed.

Lemma linked_settled x e d :
  K !! x = Some e -> valueDefiningBlocks fn !! x = Some d -> settledAt fn (defBlock d) (defStep d) (vName e).
Proof.
  intros Hx Hd d' Hd'. destruct (linked_same x e Hx) as (px & sx & ix & jx & kx & pe & se & ie & je & ke & H1 & <- & H3 & <- & Hb & _).
  rewrite (defs_at _ _ _ Hsound px sx ix (proj1 H1)) in Hd by (eapply exprAt_keyed, H1). injection Hd as <-.
  change (vName (iResult ie)) with (resultName ie) in Hd'.
  rewrite (defs_at _ _ _ Hsound pe se ie (proj1 H3)) in Hd' by (eapply exprAt_keyed, H3). injection Hd' as <-. exact Hb.
Qed.

Lemma settled_replaced p s a : reach (succs fn) 0 p -> settledAt fn p s (vName a) -> settledAt fn p s (vName (replaced K a)).
Proof.
  intros Hp Hs. unfold replaced. destruct (K !! vName a) as [e|] eqn:He; [|exact Hs]. cbn [default id]. intros d' Hd'.
  destruct (K_defined _ _ He) as (q & t & j & Hj & Hn & Hne & _).
  pose proof (defs_at _ _ _ Hsound q t j Hj ltac:(congruence)) as Hd. rewrite Hn in Hd.
  eapply before_trans; [exact Hp | eapply (linked_settled _ _ _ He Hd), Hd' | apply Hs, Hd].
Qed.

Lemma deps_settled x d y :
  reach (succs fn) 0 (defBlock d) -> valueDefiningBlocks fn !! x = Some d -> y ∈ deps x -> settledAt fn (defBlock d) (defStep d) y.
Proof.
  intros Hp Hd [Hy|Hy]%elem_of_app.
  - destruct (K !! x) as [e|] eqn:He; [|inversion Hy]. apply list_elem_of_singleton in Hy as ->. eapply linked_settled; eassumption.
  - apply list_elem_of_In, in_flat_map in Hy as (i & Hi%list_elem_of_In & Hy).
    destruct (String.eqb_spec (resultName i) x) as [<-|]; [|inversion Hy].
    destruct (keyedOp (iOp i)) eqn:Hk; [|inversion Hy]. cbn [andb] in Hy.
    destruct (defs_instr fn _ _ Hd) as [Hne _]. destruct (instrsOf_at i Hi) as (p & s & Hat).
    rewrite (defs_at _ _ _ Hsound p s i Hat Hne) in Hd. injection Hd as <-. cbn [defBlock defStep] in *.
    assert (Hargs : forall a, a ∈ iArgs i -> settledAt fn p s (vName a)).
    { intros a Ha. destruct Hat as (b & Hb & Hs).
      exact (wf_uses _ _ _ (sound_wf _ _ _ Hsound) p b s i a Hb Hs (keyedOp_not_phi _ Hk) (elem_args _ _ Ha)). }
    apply in_app_iff in Hy as [(a & <- & Ha%list_elem_of_In)%in_map_iff|(a & <- & Ha%list_elem_of_In)%in_map_iff].
    + apply Hargs, Ha.
    + apply settled_replaced; [exact Hp | apply Hargs, Ha].
Qed.

Lemma operands_agree (ρ ρ' : env) l :
  (forall a, a ∈ l -> ρ !! vName a = ρ' !! vName a) -> mapM (operand ρ) l = mapM (operand ρ') l.
Proof.
  intros H. induction l as [|a l IH]; [reflexivity|]. cbn [mapM]. rewrite (operand_agree ρ ρ' a) by (apply H; left).
  unfold mbind. rewrite IH; [reflexivity|]. intros b Hb. apply H. right. exact Hb.
Qed.

Lemma fact_local x (ρ ρ' : env) :
  ρ !! x = ρ' !! x -> (forall y, y ∈ deps x -> ρ !! y = ρ' !! y) -> fact x ρ -> fact x ρ'.
Proof.
  intros Hx Hdeps [H1 H2]. split.
  - intros e He. destruct (H1 e He) as (v & Hv & Ho). exists v. rewrite <- Hx. split; [exact Hv|].
    rewrite <- Ho. apply operand_agree. symmetry. apply Hdeps, deps_link, He.
  - intros p s i j key Hi Hn. destruct (H2 p s i j key Hi Hn) as (v & vs & Hv & Hvs & Hop). exists v, vs.
    rewrite <- Hx. split; [exact Hv|]. split; [|exact Hop]. rewrite <- Hvs. apply operands_agree.
    intros a Ha. symmetry. apply Hdeps. rewrite <- Hn. eapply deps_arg; eassumption.
Qed.

Lemma fact_equal x e ρ : K !! x = Some e -> fact x ρ -> exists v, ρ !! x = Some v /\ operand ρ e = Some v.
Proof. intros He [H _]. apply H, He. Qed.

(** An expression that has just run. *)
Lemma expression_ran p s i j key from (e ρ : env) m v m' :
  standing fn fact anywhere p s from e ρ m -> exprAt fn K p s i j key -> runInstr (X := X) from e ρ m i = Next v m' ->
  exists vs, mapM (operand ρ) (iArgs j) = Some vs /\ forall m1, operation (shape i) vs m1 = Next (X := X) v m1.
Proof.
  intros [Hp Hf _ _] H Hrun. destruct (exprAt_keyed _ _ _ _ _ H) as (Hk & Hne & (Hfields & _) & Hc). pose proof (proj1 H) as Hat.
  unfold runInstr in Hrun. rewrite (proj2 (String.eqb_neq _ _) (keyedOp_not_phi _ Hk)) in Hrun.
  assert (Hreads : readOperands i = iArgs i) by (unfold readOperands; rewrite Hfields, Hc; cbn; rewrite app_nil_r; reflexivity).
  rewrite Hreads in Hrun. destruct (mapM (operand ρ) (iArgs i)) as [vs|] eqn:Hvs; [|discriminate]. exists vs. split.
  - rewrite <- Hvs. destruct H as (_ & (r & -> & Hr) & _). cbn [mapOperands iArgs].
    assert (Hargs : forall a, a ∈ iArgs i -> operand ρ (r a) = operand ρ a).
    { intros a Ha. destruct (Hr a (elem_args _ _ Ha)) as [->|He]; [reflexivity|].
      pose proof (replaced_operand module params fn Hsound K fact fact_equal K_defined p s ρ a Hf) as E.
      unfold replaced in E. rewrite He in E. apply E. destruct Hat as (b & Hb & Hi).
      exact (wf_uses _ _ _ (sound_wf _ _ _ Hsound) p b s i a Hb Hi (keyedOp_not_phi _ Hk) (elem_args _ _ Ha)). }
    clear -Hargs. induction (iArgs i) as [|a l IH]; [reflexivity|]. cbn [map mapM]. rewrite Hargs by left.
    unfold mbind. rewrite IH; [reflexivity|]. intros b Hb. apply Hargs. right. exact Hb.
  - eapply (exprAt_operation p s i j key p s i j key); [exact H | exact H | repeat split | exact Hrun].
Qed.

Lemma establishes p s i from (e ρ : env) m v m' :
  standing fn fact anywhere p s from e ρ m -> instrAt fn p s i -> runInstr (X := X) from e ρ m i = Next v m' ->
  resultName i <> "" -> fact (resultName i) (assign ρ i v).
Proof.
  intros Hst Hat Hrun Hne. pose proof (st_reach _ _ _ _ _ _ _ _ _ Hst) as Hp. pose proof (st_facts _ _ _ _ _ _ _ _ _ Hst) as Hf.
  pose proof (defs_at _ _ _ Hsound p s i Hat Hne) as Hdef.
  assert (Hnew : assign ρ i v !! resultName i = Some v).
  { unfold assign, resultName in *. rewrite (proj2 (String.eqb_neq _ _) Hne). apply lookup_insert_eq. }
  assert (Hkept : forall y, y ∈ deps (resultName i) -> assign ρ i v !! y = ρ !! y).
  { intros y Hy. eapply settled_assign; [exact Hsound | exact Hat|]. exact (deps_settled _ (mkDefinition p s) _ Hp Hdef Hy). }
  assert (Hsame : forall q t i', instrAt fn q t i' -> resultName i' = resultName i -> q = p /\ t = s /\ i' = i).
  { intros q t i' Hi' Hn. pose proof (defs_at _ _ _ Hsound q t i' Hi' ltac:(congruence)) as Hd.
    rewrite Hn, Hdef in Hd. injection Hd as <- <-. split; [reflexivity|]. split; [reflexivity|]. eapply instrAt_fun; eassumption. }
  split.
  - intros e' He. destruct (linked_same _ _ He) as (px & sx & ix & jx & kx & pe & se & ie & je & ke & H1 & Hn & H3 & <- & Hb & Hexp).
    destruct (Hsame px sx ix (proj1 H1) Hn) as (-> & -> & ->). exists v. split; [exact Hnew|].
    rewrite (operand_agree (assign ρ i v) ρ) by (apply Hkept, deps_link, He).
    destruct (expression_ran _ _ _ _ _ _ _ _ _ _ _ Hst H1 Hrun) as (vs & Hvs & Hop).
    destruct (proj2 (Hf (resultName ie) (ex_intro _ _ (conj (defs_at _ _ _ Hsound pe se ie (proj1 H3)
      (proj1 (proj2 (exprAt_keyed _ _ _ _ _ H3)))) Hb))) pe se ie je ke H3 eq_refl) as (w & ws & Hw & Hws & Hopw).
    pose proof Hexp as (_ & _ & _ & Ha). rewrite Ha in Hvs. assert (ws = vs) as -> by congruence.
    unfold operand. change (vName (iResult ie)) with (resultName ie). rewrite Hw.
    pose proof (exprAt_operation _ _ _ _ _ _ _ _ _ _ _ _ _ _ H1 H3 Hexp (Hop m) m) as E. rewrite Hopw in E. congruence.
  - intros q t i' j' key H Hn. destruct (Hsame q t i' (proj1 H) Hn) as (-> & -> & ->).
    destruct (expression_ran _ _ _ _ _ _ _ _ _ _ _ Hst H Hrun) as (vs & Hvs & Hop). exists v, vs.
    split; [exact Hnew|]. split; [|exact Hop]. rewrite <- Hvs. apply operands_agree. intros a Ha.
    apply Hkept. eapply deps_arg; eassumption.
Qed.

(** The function with every read replaced runs the same. *)
Lemma cse_keeps_replaced : keeps fn (set_fBlocks (fun _ => map (replaceBlock K) (fBlocks fn)) fn).
Proof.
  apply (replaced_keeps module params fn Hsound K fact anywhere fact_equal K_defined (ex_reads _ Hex) (ex_ends _ Hex)
    deps fact_local deps_settled); [split | split | split | exact establishes].
Qed.
End Values.

(** ** The property *)

(** [expressible], as a test. *)
Definition expressibleb (fn : Function) : bool :=
  let instrs := instrsOf (fBlocks fn) in
  let typed v := String.eqb (vName v) "" || forallb (fun j => negb (String.eqb (resultName j) (vName v)) || String.eqb (vType v) (vType (iResult j))) instrs in
  forallb (fun i => forallb typed (readOperands i) &&
    (negb (keyedOp (iOp i)) || bool_decide (iFields i = []) && plainValue (iResult i) &&
     if String.eqb (iOp i) "const" then bool_decide (iArgs i = [])
     else plainOp (iOp i) && noByte "|"%char (iImmediate i) && forallb plainValue (iArgs i))) instrs &&
  forallb (fun b => typed (tValue (bTerminator b))) (fBlocks fn).

Lemma expressibleb_true fn : expressibleb fn = true -> expressible fn.
Proof.
  unfold expressibleb. intros [Hi Ht]%andb_true_iff. rewrite forallb_forall in Hi, Ht. split.
  - intros i v Hin%list_elem_of_In Hv%list_elem_of_In. apply Hi, andb_true_iff in Hin as [Hin _].
    rewrite forallb_forall in Hin. apply typedRead_test, Hin, Hv.
  - intros b Hb%list_elem_of_In. apply typedRead_test, Ht, Hb.
  - intros i Hin%list_elem_of_In Hk. apply Hi, andb_true_iff in Hin as [_ Hin]. rewrite Hk in Hin. cbn [negb orb] in Hin.
    rewrite !andb_true_iff in Hin. destruct Hin as [[Hf%bool_decide_eq_true Hr] Hp]. split; [exact Hf|]. split; [exact Hr|].
    destruct (String.eqb (iOp i) "const"); [apply bool_decide_eq_true in Hp; exact Hp|].
    rewrite !andb_true_iff in Hp. tauto.
Qed.

(** C7. Common subexpression elimination ends and keeps every run: on a
    verified function in single assignment, on any machine whose arithmetic,
    casts, constants and field reads follow from their operands, the walk
    neither panics nor runs out, keeps the blocks' names, and the function it
    leaves ends in the same way with the same result, memory and number of
    blocks, for all arguments, unless the original is stuck. *)
Theorem cse_preserves {V M X} {machine : Machine V M X} {expressions : ExpressionMachine machine} module params fn :
  sound module params fn -> expressible fn ->
  exists fn', eliminateCommonSubexpressionsIn fn = Some fn' /\ map bName (fBlocks fn') = map bName (fBlocks fn) /\
    forall fuel args m, runFunction fuel fn args m <> Stuck ->
      runFunction fuel fn' args m = runFunction (X := X) fuel fn args m.
Proof.
  intros Hs Hex. destruct (fBlocks fn) as [|b l] eqn:E.
  - exists fn. unfold eliminateCommonSubexpressionsIn. rewrite E. split; [reflexivity|]. split; [reflexivity | apply keeps_refl].
  - destruct (cse_result module params fn Hs) as (K & HK & Hrun); [congruence|]. rewrite Hrun. eexists. split; [reflexivity|].
    split; [cbn [set_fBlocks fBlocks]; rewrite map_map, E; reflexivity|]. eapply cse_keeps_replaced; eassumption.
Qed.

#[export] Instance logExpressions : ExpressionMachine logMachine.
Proof.
  split. intros i j vs m m1 v Hop _ _ _ _ Eop Eimm Ety _ H m'. cbn [operation logMachine] in *. revert H.
  unfold logOperation. rewrite <- Eop, <- Eimm, <- Ety. destruct (String.eqb_spec (iOp i) "const").
  { destruct (String.eqb _ "i64"); [destruct (ParseInt _); [|discriminate]|]; congruence. }
  destruct (String.eqb_spec (iOp i) "call.log") as [E|_]; [apply computes_keyedOp in Hop; rewrite E in Hop; discriminate|].
  destruct (String.eqb_spec (iOp i) "call.exit") as [E|_]; [discriminate|].
  destruct vs as [|a [|b [|]]]; try discriminate; [destruct (String.eqb _ "id"); [congruence | discriminate]|].
  destruct (wordOp (iOp i)), (wordCompare (iOp i)); congruence || discriminate.
Qed.

(** [p+1] is computed in the entry and in both branches; the copies in the
    branches are no longer read, and neither branch reads the other's. *)
Definition sample_cse : Function :=
  let v x := mkValue x "i64" in let c := mkValue "%c" "bool" in
  mkFunction "f" [mkParam "%p" "i64" PassValue] "i64"
    [mkBlock "entry" [instr (v "%a") "binary.+" [v "%p"; v "1"] ""; instr c "binary.<" [v "%p"; v "3"] ""] (branch c "then" "else");
     mkBlock "then" [instr (v "%b") "binary.+" [v "%p"; v "1"] ""; instr (v "%d") "binary.*" [v "%b"; v "%a"] "";
                     instr (mkValue "" "void") "call.log" [v "%d"] ""] (jump "end");
     mkBlock "else" [instr (v "%e") "binary.*" [v "%a"; v "%a"] ""; instr (mkValue "" "void") "call.log" [v "%e"] ""] (jump "end");
     mkBlock "end" [instr (v "%f") "binary.+" [v "%p"; v "1"] ""] (ret (v "%f"))] "" "".

Lemma cse_preserves_witness :
  exists fn', eliminateCommonSubexpressionsIn sample_cse = Some fn' /\
    map (fun b => map (fun i => map vName (iArgs i)) (bInstrs b)) (fBlocks fn') =
      [[["%p"; "1"]; ["%p"; "3"]]; [["%p"; "1"]; ["%a"; "%a"]; ["%d"]]; [["%a"; "%a"]; ["%e"]]; [["%p"; "1"]]] /\
    runFunction (machine := logMachine) 5 fn' [2%Z] [] = Returned (Some 3%Z) [9%Z].
Proof.
  destruct (cse_preserves (machine := logMachine) (mkModule ∅ ∅ ∅ ∅ [sample_cse] ∅) ∅ sample_cse) as (fn' & H & _ & Hrun).
  - split; [apply verifyFunction_spec; vm_compute; reflexivity | | apply (bool_decide_unpack _); vm_compute; exact I |
      apply (bool_decide_unpack _); vm_compute; exact I].
    split; [apply (bool_decide_unpack _); vm_compute; exact I|].
    intros i Hi Hop. cbn in Hi. repeat (apply elem_of_cons in Hi as [->|Hi]; [discriminate|]). inversion Hi.
  - apply expressibleb_true. vm_compute. reflexivity.
  - exists fn'. split; [exact H|]. split; [vm_compute in H; injection H as <-; reflexivity|].
    rewrite Hrun; vm_compute; [reflexivity | discriminate].
Defined.
