(* ===== verification/Forward.v ===== *)
(** * Forwarding field loads ([internal/ir/forward.go])

    What is known of struct fields behind references flows down the dominator
    tree, and a read of a known field becomes the known value.  [None] is a
    panic or a bound that was reached; [Forward] shows that neither
    happens. *)

From stdpp Require Import base list strings gmap.
From Stdlib Require Import ZArith Lia String.
From S2P Require Import Prelude GoStd IR Cfg Dominators CfgFacts Verify VerifyFacts Optimize Dce Ssa.
From S2P Require Import Simplify Available.

#[local] Open Scope string_scope.
#[local] Open Scope list_scope.

(** [isWrappingInteger] of [internal/ir/tailcall.go] *)
Definition isWrappingInteger (typ : string) : bool :=
  bool_decide (typ ∈ ["i8"; "i16"; "i32"; "i64"; "u8"; "u16"; "u32"; "u64"; "isize"; "usize"]).

(** [isForwardScalar] *)
Definition isForwardScalar (typ : string) : bool :=
  String.eqb typ "bool" || String.eqb typ "f32" || String.eqb typ "f64" || isWrappingInteger typ.

(** [forwardVisitLimit] *)
Definition forwardVisitLimit : nat := 64.

(** [fieldKey] *)
Record fieldKey : Type := mkFieldKey {
  fkRef : string;
  fkStruct : string;
  fkField : string;
  fkScalar : bool
}.

#[export] Instance fieldKey_eq_dec : EqDecision fieldKey.
Proof. solve_decision. Defined.

#[export] Instance fieldKey_countable : Countable fieldKey.
Proof.
  refine (inj_countable' (fun k => (fkRef k, fkStruct k, fkField k, fkScalar k))
            (fun t => mkFieldKey t.1.1.1 t.1.1.2 t.1.2 t.2) _). intros []; reflexivity.
Defined.

(** [fieldFacts] *)
Abbreviation fieldFacts := (gmap fieldKey Value).

(** [forgetWrites] *)
Definition forgetWrites (i : Instr) (facts : fieldFacts) : fieldFacts :=
  match CutPrefix (iOp i) "field.ref.set.", iArgs i with
  | Some field, [ref; value] =>
      if negb (isForwardScalar (vType value)) then ∅
      else filter (fun entry => ~ (fkStruct entry.1 = derefType (vType ref) /\ fkField entry.1 = field)) facts
  | _, _ => if negb (isPureOp (iOp i)) then ∅ else facts
  end.

(** [forwardInstr]: the facts and the replacements after an instruction. *)
Definition forwardInstr (i : Instr) (st : fieldFacts * replacements_map) : option (fieldFacts * replacements_map) :=
  let (facts, replacements) := st in
  match CutPrefix (iOp i) "field.ref.set.", iArgs i with
  | Some field, [ref; value] =>
      let facts := forgetWrites i facts in
      let key := mkFieldKey (vName ref) (derefType (vType ref)) field (isForwardScalar (vType value)) in
      if fkScalar key then v ← resolve replacements value; Some (<[key := v]> facts, replacements)
      else Some (facts, replacements)
  | _, _ =>
      match CutPrefix (iOp i) "field.ref.", iArgs i with
      | Some field, [ref] =>
          let key := mkFieldKey (vName ref) (derefType (vType ref)) field (isForwardScalar (vType (iResult i))) in
          if negb (fkScalar key) then Some (facts, replacements)
          else match facts !! key with
          | Some known =>
              if String.eqb (vType known) (vType (iResult i))
              then Some (facts, <[vName (iResult i) := known]> replacements)
              else Some (<[key := iResult i]> facts, replacements)
          | None => Some (<[key := iResult i]> facts, replacements)
          end
      | _, _ => Some (forgetWrites i facts, replacements)
      end
  end.

Fixpoint forwardInstrs (instrs : list Instr) (st : fieldFacts * replacements_map) : option (fieldFacts * replacements_map) :=
  match instrs with
  | [] => Some st
  | i :: rest => st ← forwardInstr i st; forwardInstrs rest st
  end.

(** The loop over a block's instructions in [inheritedFacts]; the flag is its
    early return. *)
Fixpoint forgetInstrs (instrs : list Instr) (facts : fieldFacts) : fieldFacts * bool :=
  match instrs with
  | [] => (facts, false)
  | i :: rest =>
      let facts := forgetWrites i facts in
      if decide (base.size facts = 0) then (facts, true) else forgetInstrs rest facts
  end.

(** The stack walk of [inheritedFacts]; the top of the stack comes first. *)
Fixpoint inheritWalk (fuel : nat) (blocks : list Block) (preds : list (list nat)) (position idom : nat)
    (visited : gset nat) (facts : fieldFacts) (stack : list nat) : option fieldFacts :=
  match stack with
  | [] => Some facts
  | block :: stack =>
      match fuel with
      | O => None
      | S fuel =>
          if decide (block = idom \/ block ∈ visited)
          then inheritWalk fuel blocks preds position idom visited facts stack
          else
            let visited := {[block]} ∪ visited in
            if decide (forwardVisitLimit < base.size visited) then Some ∅
            else
              b ← blocks !! block;
              let '(facts, done) := forgetInstrs (bInstrs b) facts in
              if done : bool then Some facts
              else if decide (block = position)
              then inheritWalk fuel blocks preds position idom visited facts stack
              else
                more ← preds !! block;
                inheritWalk fuel blocks preds position idom visited facts (reverse more ++ stack)
      end
  end.

(** [inheritedFacts]: a block's predecessors are pushed once. *)
Definition inheritedFacts (fn : Function) (preds : list (list nat)) (position idom : nat) (from : fieldFacts)
  : option fieldFacts :=
  if decide (base.size from = 0) then Some ∅
  else
    ps ← preds !! position;
    if decide (ps = [idom]) then Some from
    else inheritWalk (List.length ps + List.length (List.concat preds)) (fBlocks fn) preds position idom ∅ from (reverse ps).

(** The loop over the order in [forwardFieldLoadsIn]: the facts at the ends of
    the blocks so far, and the replacements. *)
Fixpoint forwardBlocks (fn : Function) (preds : list (list nat)) (idom : list (option nat)) (order : list nat)
    (index : nat) (positions : list nat) (st : list fieldFacts * replacements_map) : option (list fieldFacts * replacements_map) :=
  match positions with
  | [] => Some st
  | position :: positions =>
      let (ends, replacements) := st in
      facts ← (if (0 <? index)%nat then
        up ← Cfg.parent idom index;
        d ← order !! up;
        from ← ends !! d;
        inheritedFacts fn preds position d from
      else Some ∅);
      b ← fBlocks fn !! position;
      '(facts, replacements) ← forwardInstrs (bInstrs b) (facts, replacements);
      forwardBlocks fn preds idom order (S index) positions (<[position := facts]> ends, replacements)
  end.

(** [forwardFieldLoadsIn] *)
Definition forwardFieldLoadsIn (fn : Function) : option Function :=
  match fBlocks fn with
  | [] => Some fn
  | _ =>
      let preds := blockPredecessors fn (blockIndex fn) in
      tree ← buildDominatorTree fn preds;
      let order := reversePostorder fn in
      '(_, replacements) ← forwardBlocks fn preds (idom tree) order 0 order
        (replicate (List.length (fBlocks fn)) ∅, ∅);
      if decide (base.size replacements = 0) then Some fn
      else
        blocks ← replaceFunctionValues (fBlocks fn) replacements;
        Some (set_fBlocks (fun _ => blocks) fn)
  end.

(** [ForwardFieldLoads] *)
Definition ForwardFieldLoads (m : Module_) : option Module_ :=
  fns ← mapM forwardFieldLoadsIn (mFunctions m);
  Some (set_mFunctions (fun _ => fns) m).

(** * What a block inherits, and what the pass records ([internal/ir/forward.go])

    A fact a block inherits from its dominator is forgotten by no block on a
    path between the two; the replacements and facts of the whole pass form a
    record that the run of the function can be held against. *)

(** ** What one instruction forgets *)

Definition forgetsKey (i : Instr) (k : fieldKey) : bool :=
  match CutPrefix (iOp i) "field.ref.set.", iArgs i with
  | Some field, [ref; value] =>
      negb (isForwardScalar (vType value)) ||
      bool_decide (fkStruct k = derefType (vType ref) /\ fkField k = field)
  | _, _ => negb (isPureOp (iOp i))
  end.

Lemma forgetWrites_lookup i facts k v :
  forgetWrites i facts !! k = Some v <-> facts !! k = Some v /\ forgetsKey i k = false.
Proof.
  unfold forgetWrites, forgetsKey.
  assert (Hall : forall b : bool, (if b then (∅ : fieldFacts) else facts) !! k = Some v <-> facts !! k = Some v /\ b = false).
  { intros []; [rewrite lookup_empty; split; [discriminate | intros [_ H]; discriminate] | tauto]. }
  destruct (CutPrefix (iOp i) "field.ref.set.") as [field|]; [|apply Hall].
  destruct (iArgs i) as [|ref [|value [|]]]; try apply Hall.
  destruct (negb (isForwardScalar (vType value))); cbn [orb].
  - rewrite lookup_empty. split; [discriminate | intros [_ H]; discriminate].
  - rewrite map_lookup_filter_Some, bool_decide_eq_false. tauto.
Qed.

(** No instruction of the block forgets the key. *)
Definition clean (fn : Function) (p : nat) (k : fieldKey) : Prop := forall s i, instrAt fn p s i -> forgetsKey i k = false.

Lemma forgetInstrs_spec instrs : forall facts facts' done, forgetInstrs instrs facts = (facts', done) ->
  forall k v, facts' !! k = Some v -> facts !! k = Some v /\ forall i, i ∈ instrs -> forgetsKey i k = false.
Proof.
  induction instrs as [|i instrs IH]; intros facts facts' done; cbn [forgetInstrs].
  - intros [= <- <-] k v H. split; [exact H | intros i Hi; inversion Hi].
  - case_decide as Hs.
    + intros [= <- <-] k v H. apply map_size_empty_iff in Hs. rewrite Hs, lookup_empty in H. discriminate.
    + intros H k v Hk. destruct (IH _ _ _ H k v Hk) as [H1 H2]. apply forgetWrites_lookup in H1 as [H1 H3].
      split; [exact H1|]. intros j [->|Hj]%elem_of_cons; auto.
Qed.

(** ** The walk back to the dominator *)

(** Blocks on a path from [a] to the start of [c] that does not meet [a]
    again. *)
Inductive between (succs : nat -> list nat) (a c : nat) : nat -> Prop :=
  | between_pred b : c ∈ succs b -> b <> a -> between succs a c b
  | between_back b b' : between succs a c b' -> b' ∈ succs b -> b <> a -> between succs a c b.

Lemma between_extend succs a p q b : p <> a -> q ∈ succs p -> between succs a p b -> between succs a q b.
Proof.
  intros Hp Hq H. induction H as [b Hb Hne|b b' _ IH Hb Hne].
  - eapply between_back; [apply between_pred; eassumption | exact Hb | exact Hne].
  - eapply between_back; eassumption.
Qed.

Section Weight.
(** The predecessors the walk can still push. *)
Fixpoint weight (visited : gset nat) (q : nat) (preds : list (list nat)) : nat :=
  match preds with
  | [] => 0
  | ps :: rest => (if decide (q ∈ visited) then 0 else List.length ps) + weight visited (S q) rest
  end.

Lemma weight_other visited b q preds : b < q -> weight ({[b]} ∪ visited) q preds = weight visited q preds.
Proof.
  revert q. induction preds as [|ps preds IH]; intros q Hb; [reflexivity|]. cbn [weight]. rewrite IH by lia. f_equal.
  destruct (decide (q ∈ visited)); [rewrite decide_True by set_solver | rewrite decide_False by set_solver by lia]; reflexivity.
Qed.

Lemma weight_visit visited b q preds ps :
  preds !! b = Some ps -> q + b ∉ visited -> weight ({[q + b]} ∪ visited) q preds + List.length ps = weight visited q preds.
Proof.
  revert b q. induction preds as [|ps' preds IH]; intros b q Hb Hv; [discriminate|]. cbn [weight]. destruct b as [|b].
  - injection Hb as ->. rewrite Nat.add_0_r in *. rewrite weight_other by lia.
    rewrite (decide_True (P := q ∈ {[q]} ∪ visited)) by set_solver. rewrite decide_False by assumption. lia.
  - rewrite <- Nat.add_succ_comm in *. rewrite <- (IH b (S q) Hb Hv).
    destruct (decide (q ∈ visited)); [rewrite decide_True by set_solver; lia|].
    rewrite decide_False; [lia|]. intros [H%elem_of_singleton|H]%elem_of_union; [lia | contradiction].
Qed.

Lemma weight_none q preds : weight ∅ q preds = List.length (List.concat preds).
Proof.
  revert q. induction preds as [|ps preds IH]; intros q; [reflexivity|]. cbn [weight List.concat].
  rewrite decide_False by set_solver. rewrite length_app, IH. reflexivity.
Qed.
End Weight.

Section Inherit.
Context (fn : Function).

Abbreviation preds := (blockPredecessors fn (blockIndex fn)).
Abbreviation n := (List.length (fBlocks fn)).

Lemma preds_some q : q < n -> exists ps, preds !! q = Some ps /\ forall p, p ∈ ps <-> q ∈ succs fn p.
Proof.
  intros Hq. eexists. split; [apply blockPredecessors_lookup, Hq|]. intros p. rewrite elem_of_predecessorsOf.
  split; [intros [_ H]; exact H | intros H; split; [apply (succs_bound fn p q), H | exact H]].
Qed.

Context (position idom : nat) (from : fieldFacts).
Context (Hposition : position < n).

Record inheritInv (visited : gset nat) (facts : fieldFacts) (stack : list nat) : Prop := mkInheritInv {
  ih_bound : forall q, q ∈ stack -> q < n;
  ih_facts : forall k v, facts !! k = Some v -> from !! k = Some v /\ forall q, q ∈ visited -> clean fn q k;
  ih_closed : forall q r, q = position \/ q ∈ visited -> q ∈ succs fn r -> r = idom \/ r ∈ visited \/ r ∈ stack
}.

Lemma inheritInv_skip visited facts block stack :
  block = idom \/ block ∈ visited -> inheritInv visited facts (block :: stack) -> inheritInv visited facts stack.
Proof.
  intros Hb [H1 H2 H3]. split; [intros q Hq; apply H1; right; exact Hq | exact H2|].
  intros q r Hq Hr. destruct (H3 q r Hq Hr) as [H|[H|[->|H]%elem_of_cons]]; [auto | auto | | auto]. destruct Hb; auto.
Qed.

Lemma inheritInv_visit visited facts facts' block stack b done more ps :
  inheritInv visited facts (block :: stack) -> fBlocks fn !! block = Some b -> forgetInstrs (bInstrs b) facts = (facts', done) ->
  preds !! block = Some ps -> more = (if decide (block = position) then [] else reverse ps) ->
  inheritInv ({[block]} ∪ visited) facts' (more ++ stack).
Proof.
  intros [H1 H2 H3] Hb Hf Hps ->. pose proof (H1 block ltac:(left)) as Hn.
  destruct (preds_some block Hn) as (ps' & Hps' & Hiff). assert (ps' = ps) as -> by congruence. split.
  - intros q [Hq|Hq]%elem_of_app; [|apply H1; right; exact Hq]. case_decide; [inversion Hq|].
    apply elem_of_reverse, Hiff in Hq. apply (succs_bound fn q block) in Hq. apply Hq.
  - intros k v Hk. destruct (forgetInstrs_spec _ _ _ _ Hf k v Hk) as [Hk1 Hk2]. destruct (H2 k v Hk1) as [G1 G2].
    split; [exact G1|]. intros q [->%elem_of_singleton|Hq]%elem_of_union; [|apply G2, Hq].
    intros s i (c & Hc & Hi). apply Hk2. assert (c = b) as -> by congruence. eapply list_elem_of_lookup_2, Hi.
  - intros q r Hq Hr. assert (Hold : q = position \/ q ∈ visited -> r = idom \/ r ∈ {[block]} ∪ visited \/ r ∈ (if decide (block = position) then [] else reverse ps) ++ stack).
    { intros Hq'. destruct (H3 q r Hq' Hr) as [H|[H|[->|H]%elem_of_cons]]; [auto | set_solver | set_solver | right; right; apply elem_of_app; auto]. }
    destruct Hq as [Hq|[->%elem_of_singleton|Hq]%elem_of_union]; [auto | | auto].
    case_decide as Hp; [subst; auto|]. right. right. apply elem_of_app. left. apply elem_of_reverse, Hiff, Hr.
Qed.

Lemma inheritInv_end visited facts : inheritInv visited facts [] ->
  forall k v, facts !! k = Some v -> from !! k = Some v /\ forall q, between (succs fn) idom position q -> clean fn q k.
Proof.
  intros [_ H2 H3] k v Hk. destruct (H2 k v Hk) as [G1 G2]. split; [exact G1|]. intros q Hq. apply G2.
  induction Hq as [b Hb Hne|b b' _ IH Hb Hne].
  - destruct (H3 position b (or_introl eq_refl) Hb) as [H|[H|H]]; [contradiction | exact H | inversion H].
  - destruct (H3 b' b (or_intror IH) Hb) as [H|[H|H]]; [contradiction | exact H | inversion H].
Qed.

Definition inherited (facts : fieldFacts) : Prop :=
  forall k v, facts !! k = Some v -> from !! k = Some v /\ forall q, between (succs fn) idom position q -> clean fn q k.

Lemma inherited_empty : inherited ∅.
Proof. intros k v H. rewrite lookup_empty in H. discriminate. Qed.

Lemma inheritWalk_spec fuel : forall visited facts stack,
  inheritInv visited facts stack -> List.length stack + weight visited 0 preds <= fuel ->
  exists facts', inheritWalk fuel (fBlocks fn) preds position idom visited facts stack = Some facts' /\ inherited facts'.
Proof.
  induction fuel as [|fuel IH]; intros visited facts stack I Hf; destruct stack as [|block stack]; cbn [inheritWalk];
    try (exists facts; split; [reflexivity | exact (inheritInv_end _ _ I)]); [cbn in Hf; lia|].
  cbn [List.length] in Hf. case_decide as Hskip; [apply IH; [eapply inheritInv_skip; eauto | lia]|].
  case_decide; [exists ∅; split; [reflexivity | exact inherited_empty]|].
  pose proof (ih_bound _ _ _ I block ltac:(left)) as Hn. destruct (lookup_lt_is_Some_2 (fBlocks fn) block Hn) as [b Hb].
  rewrite Hb. cbn [mbind option_bind]. destruct (forgetInstrs (bInstrs b) facts) as [facts' done] eqn:Hfi.
  destruct (preds_some block Hn) as (ps & Hps & _).
  pose proof (inheritInv_visit visited facts facts' block stack b done _ ps I Hb Hfi Hps eq_refl) as I'.
  pose proof (weight_visit visited block 0 preds ps Hps ltac:(cbn; tauto)) as Hw. cbn [Nat.add] in Hw.
  assert (Hearly : done = true -> inherited facts').
  { intros ->. clear -Hfi. revert facts Hfi. induction (bInstrs b) as [|i l IH]; intros facts; cbn [forgetInstrs]; [discriminate|].
    case_decide as Hs; [|apply IH]. intros [= <-]. apply map_size_empty_iff in Hs. rewrite Hs. exact inherited_empty. }
  destruct done; [exists facts'; auto|]. case_decide as Hp.
  - apply IH; [exact I' | lia].
  - rewrite Hps. cbn [mbind option_bind]. apply IH; [exact I'|]. rewrite length_app, length_reverse. lia.
Qed.

(** A block inherits facts of its dominator that nothing in between forgets. *)
Lemma inheritedFacts_spec : exists facts, inheritedFacts fn preds position idom from = Some facts /\ inherited facts.
Proof.
  unfold inheritedFacts. case_decide; [exists ∅; split; [reflexivity | exact inherited_empty]|].
  destruct (preds_some position Hposition) as (ps & Hps & Hiff). rewrite Hps. cbn [mbind option_bind]. case_decide as Hone.
  - exists from. split; [reflexivity|]. intros k v Hk. split; [exact Hk|]. intros q Hq. exfalso.
    induction Hq as [b Hb Hne|]; [|assumption]. apply Hiff in Hb. rewrite Hone in Hb. apply list_elem_of_singleton in Hb. contradiction.
  - apply inheritWalk_spec; [|rewrite length_reverse, weight_none; lia]. split.
    + intros q Hq%elem_of_reverse%Hiff. apply (succs_bound fn q position), Hq.
    + intros k v Hk. split; [exact Hk|]. intros q Hq. set_solver.
    + intros q r [->|Hq] Hr; [|set_solver]. right. right. apply elem_of_reverse, Hiff, Hr.
Qed.
End Inherit.

(** ** What the pass records *)

(** The field an instruction reads, when it can be forwarded. *)
Definition readsField (i : Instr) : bool :=
  match CutPrefix (iOp i) "field.ref.", iArgs i with Some _, [_] => true | _, _ => false end.

Definition readKey (i : Instr) : option fieldKey :=
  match CutPrefix (iOp i) "field.ref.", iArgs i with
  | Some field, [ref] =>
      if isForwardScalar (vType (iResult i)) then Some (mkFieldKey (vName ref) (derefType (vType ref)) field true) else None
  | _, _ => None
  end.

(** The field an instruction writes, with the value. *)
Definition writeKey (i : Instr) : option (fieldKey * Value) :=
  match CutPrefix (iOp i) "field.ref.set.", iArgs i with
  | Some field, [ref; value] =>
      if isForwardScalar (vType value) then Some (mkFieldKey (vName ref) (derefType (vType ref)) field true, value) else None
  | _, _ => None
  end.

Lemma forwardInstr_eq i facts K : forwardInstr i (facts, K) =
  match writeKey i with
  | Some (k, v) => v' ← resolve K v; Some (<[k := v']> (forgetWrites i facts), K)
  | None => if readsField i then
      match readKey i with
      | Some k => match facts !! k with
        | Some known => if String.eqb (vType known) (vType (iResult i)) then Some (facts, <[resultName i := known]> K)
                        else Some (<[k := iResult i]> facts, K)
        | None => Some (<[k := iResult i]> facts, K)
        end
      | None => Some (facts, K)
      end
    else Some (forgetWrites i facts, K)
  end.
Proof.
  unfold forwardInstr, writeKey, readKey, readsField, resultName.
  destruct (CutPrefix (iOp i) "field.ref.set.") as [f|], (CutPrefix (iOp i) "field.ref.") as [f'|];
    destruct (iArgs i) as [|a [|b [|]]]; try reflexivity; cbn [fkScalar];
    destruct (isForwardScalar _) eqn:Hs; cbn [negb]; rewrite ?Hs; reflexivity.
Qed.

(** One instruction between two fact maps, under the final replacements. *)
Definition fstep (K : replacements_map) (i : Instr) (facts facts' : fieldFacts) : Prop :=
  match writeKey i with
  | Some (k, v) => exists v', (v' = v \/ K !! vName v = Some v') /\ vType v' = vType v /\ facts' = <[k := v']> (forgetWrites i facts)
  | None => if readsField i then
      facts' = facts \/ exists k, readKey i = Some k /\ facts' = <[k := iResult i]> facts
    else facts' = forgetWrites i facts
  end.

Lemma fstep_mono K K' i facts facts' : K ⊆ K' -> fstep K i facts facts' -> fstep K' i facts facts'.
Proof.
  intros Hs. unfold fstep. destruct (writeKey i) as [[k v]|]; [|auto].
  intros (v' & [H|H] & E); exists v'; (split; [|exact E]); [auto | right; eapply lookup_weaken; eassumption].
Qed.

Section Pass.
Context (module : Module_) (params : gmap string (list Param)) (fn : Function).
Context (Hsound : sound module params fn).
Context (Hnamed : forall i, i ∈ instrsOf (fBlocks fn) -> is_Some (readKey i) -> resultName i <> "").

(** The facts at each point the pass has read, [Done] the instructions it has
    passed and [At] the points it has been at. *)
Record recorded (Done At : nat -> nat -> Prop) (F : nat -> nat -> fieldFacts) (K : replacements_map) : Prop := mkRecorded {
  rc_at p s : Done p s -> At p s;
  rc_step p s i : Done p s -> instrAt fn p s i -> fstep K i (F p s) (F p (S s));
  rc_settled p s k v : At p s -> F p s !! k = Some v ->
    settledAt fn p s (fkRef k) /\ settledAt fn p s (vName v) /\ K !! vName v = None;
  rc_replaced x e : K !! x = Some e -> exists p s i k, Done p s /\ instrAt fn p s i /\ resultName i = x /\ x <> "" /\
    readKey i = Some k /\ F p s !! k = Some e /\ vType e = vType (iResult i)
}.

Definition update {A} (F : nat -> nat -> A) (p s : nat) (facts : A) (q t : nat) : A :=
  if decide (q = p /\ t = s) then facts else F q t.

Lemma update_eq {A} (F : nat -> nat -> A) p s facts : update F p s facts p s = facts.
Proof. unfold update. rewrite decide_True by auto. reflexivity. Qed.

Lemma update_ne {A} (F : nat -> nat -> A) p s facts q t : q <> p \/ t <> s -> update F p s facts q t = F q t.
Proof. intros H. unfold update. rewrite decide_False by tauto. reflexivity. Qed.

Definition finished (D : nat -> Prop) (q t : nat) : Prop := D q /\ t <= stepsOf fn q.

Definition passed (D : nat -> Prop) (p s q t : nat) : Prop := finished D q t \/ q = p /\ t < s.

Lemma passed_S D p s q t : passed D p (S s) q t <-> passed D p s q t \/ q = p /\ t = s.
Proof. unfold passed. destruct (decide (t = s)), (decide (t < s)); intuition lia. Qed.

(** The blocks read so far: reachable, and with every block their dominators. *)
Record ordered (D : nat -> Prop) : Prop := mkOrdered {
  or_reach p : D p -> reach (succs fn) 0 p;
  or_closed p d : D p -> dominated_by (succs fn) d p -> D d
}.

Section Step.
Context (D : nat -> Prop) (p s : nat) (i : Instr) (F : nat -> nat -> fieldFacts) (K : replacements_map).
Context (HD : ordered D) (Hp : ~ D p) (Hreach : reach (succs fn) 0 p) (Hi : instrAt fn p s i).
Context (R : recorded (passed D p s) (passed D p (S s)) F K).

Lemma fresh_result : K !! resultName i = None.
Proof.
  destruct (K !! resultName i) as [e|] eqn:He; [|reflexivity]. exfalso.
  destruct (rc_replaced _ _ _ _ R _ _ He) as (q & t & j & k & Hd & Hj & Hn & Hne & _).
  pose proof (defs_at module params fn Hsound p s i Hi Hne) as H1.
  pose proof (defs_at module params fn Hsound q t j Hj ltac:(congruence)) as H2. rewrite Hn, H1 in H2. injection H2 as -> ->.
  destruct Hd as [[Hd _]|[_ Hd]]; [contradiction | lia].
Qed.

Lemma settled_not_result q t y : passed D p (S s) q t -> settledAt fn q t y -> resultName i <> "" -> y <> resultName i.
Proof using Hsound HD Hp Hi.
  clear R K F Hreach.
  intros Hq Hy Hne ->. specialize (Hy _ (defs_at module params fn Hsound p s i Hi Hne)). unfold before in Hy. cbn [defBlock defStep] in Hy.
  destruct Hq as [[Hq _]|[-> Hq]].
  - destruct Hy as [[-> _]|[_ Hy]]; [contradiction|]. apply Hp. eapply or_closed; eassumption.
  - destruct Hy as [[_ Hy]|[Hy _]]; [lia | congruence].
Qed.

(** The record after the instruction, from what it adds. *)
Lemma recorded_extend facts' K' :
  (K' = K \/ exists k e, K' = <[resultName i := e]> K /\ readKey i = Some k /\ F p s !! k = Some e /\ vType e = vType (iResult i)) ->
  fstep K' i (F p s) facts' ->
  (forall k v, facts' !! k = Some v -> settledAt fn p (S s) (fkRef k) /\ settledAt fn p (S s) (vName v) /\ K' !! vName v = None) ->
  recorded (passed D p (S s)) (passed D p (S (S s))) (update F p (S s) facts') K'.
Proof.
  intros HK Hstep Hfacts.
  assert (Hin : i ∈ instrsOf (fBlocks fn)) by (eapply instrAt_in, Hi).
  assert (Hsub : K ⊆ K').
  { destruct HK as [->|(k & e & -> & _)]; [reflexivity|]. apply insert_subseteq, fresh_result. }
  assert (Hkeep : forall q t v, passed D p (S s) q t -> settledAt fn q t (vName v) -> K !! vName v = None -> K' !! vName v = None).
  { intros q t v Hq Hv Hn. destruct HK as [->|(k & e & -> & Hk & _)]; [exact Hn|].
    rewrite lookup_insert_ne; [exact Hn|]. intros E. eapply (settled_not_result q t); [exact Hq | exact Hv | | symmetry; exact E].
    apply Hnamed; [exact Hin | eauto]. }
  assert (Hold : forall q t, passed D p (S s) q t -> update F p (S s) facts' q t = F q t).
  { intros q t [[Hq _]|[-> Ht]]; apply update_ne; [left; intros ->; contradiction | right; lia]. }
  assert (Hnext : forall q t, passed D p s q t -> update F p (S s) facts' q (S t) = F q (S t)).
  { intros q t [[Hq _]|[-> Ht]]; apply update_ne; [left; intros ->; contradiction | right; lia]. }
  split.
  - intros q t [Hq|[-> Hq]]; [left; exact Hq | right; lia].
  - intros q t j [Hd|[-> ->]]%passed_S Hj.
    + rewrite Hold, Hnext by (exact Hd || apply (rc_at _ _ _ _ R), Hd).
      eapply fstep_mono; [exact Hsub | eapply rc_step; eassumption].
    + rewrite update_eq, Hold by (right; lia). rewrite (instrAt_fun fn _ _ _ _ Hj Hi). exact Hstep.
  - intros q t k v [Hq|[-> ->]]%passed_S Hv; [|rewrite update_eq in Hv; apply Hfacts, Hv].
    rewrite Hold in Hv by exact Hq. destruct (rc_settled _ _ _ _ R q t k v Hq Hv) as (H1 & H2 & H3).
    split; [exact H1|]. split; [exact H2|]. eapply Hkeep; eassumption.
  - intros x e Hx. assert (Hcases : K !! x = Some e \/ exists k, x = resultName i /\ readKey i = Some k /\ F p s !! k = Some e /\ vType e = vType (iResult i)).
    { destruct HK as [->|(k & e' & -> & H1 & H2 & H3)]; [auto|]. apply lookup_insert_Some in Hx as [[<- <-]|[_ Hx]]; [right; exists k; auto | auto]. }
    destruct Hcases as [Hk|(k & -> & H1 & H2 & H3)].
    + destruct (rc_replaced _ _ _ _ R x e Hk) as (q & t & j & k & Hd & G1 & G2 & G3 & G4 & G5 & G6).
      exists q, t, j, k. rewrite Hold by apply (rc_at _ _ _ _ R), Hd. split; [apply passed_S; auto | auto 10].
    + exists p, s, i, k. rewrite Hold by (right; lia). split; [right; lia|]. split; [exact Hi|]. split; [reflexivity|].
      split; [apply Hnamed; [exact Hin | eauto] | auto].
Qed.

Lemma written_settled k v : writeKey i = Some (k, v) ->
  settledAt fn p s (fkRef k) /\ settledAt fn p s (vName v) /\ iOp i <> "phi".
Proof.
  intros H. unfold writeKey in H. destruct (CutPrefix (iOp i) "field.ref.set.") as [f|] eqn:Hop; [|discriminate].
  assert (Hphi : iOp i <> "phi") by (intros E; rewrite E in Hop; discriminate).
  destruct (iArgs i) as [|a [|b [|]]] eqn:Ha; try discriminate. destruct (isForwardScalar _); [|discriminate]. injection H as <- <-.
  destruct Hi as (blk & Hb & Hs).
  assert (Hall : forall w, w ∈ iArgs i -> settledAt fn p s (vName w)).
  { intros w Hw. apply (wf_uses _ _ _ (sound_wf _ _ _ Hsound) p blk s i w Hb Hs Hphi). apply elem_of_app. auto. }
  rewrite Ha in Hall. split; [apply Hall; left|]. split; [apply Hall; right; left | exact Hphi].
Qed.

Lemma read_settled k : readKey i = Some k -> settledAt fn p s (fkRef k).
Proof.
  intros H. unfold readKey in H. destruct (CutPrefix (iOp i) "field.ref.") as [f|] eqn:Hop; [|discriminate].
  assert (Hphi : iOp i <> "phi") by (intros E; rewrite E in Hop; discriminate).
  destruct (iArgs i) as [|a [|]] eqn:Ha; try discriminate. destruct (isForwardScalar _); [|discriminate]. injection H as <-.
  destruct Hi as (blk & Hb & Hs). cbn [fkRef].
  apply (wf_uses _ _ _ (sound_wf _ _ _ Hsound) p blk s i a Hb Hs Hphi). apply elem_of_app. left. rewrite Ha. left.
Qed.

(** What a settled name resolves to is settled, and is not replaced. *)
Lemma recorded_flat : flat K.
Proof.
  intros x e Hx. destruct (rc_replaced _ _ _ _ R x e Hx) as (q & t & j & k & Hd & _ & _ & _ & _ & G & _).
  eapply (rc_settled _ _ _ _ R q t k e); [apply (rc_at _ _ _ _ R), Hd | exact G].
Qed.

Lemma replaced_settled v : settledAt fn p s (vName v) -> settledAt fn p s (vName (replaced K v)) /\ K !! vName (replaced K v) = None.
Proof.
  intros Hv. unfold replaced. destruct (K !! vName v) as [e|] eqn:He; [|auto]. cbn [default id].
  split; [|eapply recorded_flat, He]. destruct (rc_replaced _ _ _ _ R _ _ He) as (q & t & j & k & Hd & Hj & Hn & Hne & _ & G & _).
  destruct (rc_settled _ _ _ _ R q t k e (rc_at _ _ _ _ R _ _ Hd) G) as (_ & H & _). intros d' Hd'.
  pose proof (defs_at module params fn Hsound q t j Hj ltac:(congruence)) as Hdef. rewrite Hn in Hdef.
  eapply (before_trans fn d' (mkDefinition q t) p s); [exact Hreach | apply H, Hd' | apply Hv, Hdef].
Qed.

Lemma replaced_vtype v : (forall w, w ∈ readOperands i -> typedRead fn w) -> v ∈ iArgs i -> vType (replaced K v) = vType v.
Proof.
  intros Ht Hv. unfold replaced. destruct (K !! vName v) as [e|] eqn:He; [|reflexivity]. cbn [default id].
  destruct (rc_replaced _ _ _ _ R _ _ He) as (q & t & j & k & _ & Hj & Hn & Hne & _ & _ & Hty). rewrite Hty. symmetry.
  apply (Ht v); [apply elem_of_app; auto | eapply instrAt_in, Hj | exact Hn | exact Hne].
Qed.

Lemma result_settled : settledAt fn p (S s) (resultName i).
Proof.
  intros d Hd. destruct (defs_instr fn _ _ Hd) as [Hne _].
  rewrite (defs_at module params fn Hsound p s i Hi Hne) in Hd. injection Hd as <-. left. cbn. lia.
Qed.

Lemma forwardInstr_spec : (forall w, w ∈ readOperands i -> typedRead fn w) ->
  exists facts' K', forwardInstr i (F p s, K) = Some (facts', K') /\
    recorded (passed D p (S s)) (passed D p (S (S s))) (update F p (S s) facts') K'.
Proof.
  intros Htyped. assert (Hat : passed D p (S s) p s) by (right; lia).
  assert (Hfacts : forall k v, F p s !! k = Some v -> settledAt fn p (S s) (fkRef k) /\ settledAt fn p (S s) (vName v) /\ K !! vName v = None).
  { intros k v Hk. destruct (rc_settled _ _ _ _ R p s k v Hat Hk) as (H1 & H2 & H3). auto using settled_S. }
  assert (Hforget : forall k v, forgetWrites i (F p s) !! k = Some v -> settledAt fn p (S s) (fkRef k) /\ settledAt fn p (S s) (vName v) /\ K !! vName v = None).
  { intros k v [Hk _]%forgetWrites_lookup. apply Hfacts, Hk. }
  rewrite forwardInstr_eq. pose proof recorded_extend as Hext. unfold fstep in Hext. destruct (writeKey i) as [[k v]|] eqn:Hw.
  - rewrite resolve_flat by exact recorded_flat. cbn [mbind option_bind]. do 2 eexists. split; [reflexivity|].
    destruct (written_settled k v Hw) as (Hk & Hv & _). destruct (replaced_settled v Hv) as [Hv1 Hv2].
    apply Hext; [auto | |].
    + exists (replaced K v). split; [unfold replaced; destruct (K !! vName v); auto|]. split; [|reflexivity].
      apply replaced_vtype; [exact Htyped|]. unfold writeKey in Hw. destruct (CutPrefix _ _); [|discriminate].
      destruct (iArgs i) as [|a [|b [|]]]; try discriminate. destruct (isForwardScalar _); [|discriminate]. injection Hw as _ <-. right; left.
    + intros k' v' Hk'. apply lookup_insert_Some in Hk' as [[<- <-]|[_ Hk']]; [auto using settled_S | apply Hforget, Hk'].
  - destruct (readsField i) eqn:Hr; [|do 2 eexists; split; [reflexivity|]; apply Hext; auto].
    destruct (readKey i) as [k|] eqn:Hk; [|do 2 eexists; split; [reflexivity|]; apply Hext; auto].
    assert (Hnew : recorded (passed D p (S s)) (passed D p (S (S s))) (update F p (S s) (<[k := iResult i]> (F p s))) K).
    { apply Hext; [auto | right; eauto |]. intros k' v' Hk'. apply lookup_insert_Some in Hk' as [[<- <-]|[_ Hk']]; [|apply Hfacts, Hk'].
      split; [apply settled_S, read_settled, Hk|]. split; [exact result_settled | exact fresh_result]. }
    destruct (F p s !! k) as [known|] eqn:Hknown; [|eauto]. destruct (String.eqb_spec (vType known) (vType (iResult i))) as [Hty|]; [|eauto].
    do 2 eexists. split; [reflexivity|]. apply Hext; [right; exists k, known; auto | auto |].
    intros k' v' Hk'. destruct (Hfacts k' v' Hk') as (H1 & H2 & H3). split; [exact H1|]. split; [exact H2|].
    destruct (rc_settled _ _ _ _ R p s k' v' Hat Hk') as (_ & H2' & _).
    rewrite lookup_insert_ne; [exact H3|]. intros E. eapply (settled_not_result p s); [exact Hat | exact H2' | | symmetry; exact E].
    apply Hnamed; [eapply instrAt_in, Hi | rewrite Hk; eauto].
Qed.
End Step.

(** ** One block *)

Context (Htyped : forall i v, i ∈ instrsOf (fBlocks fn) -> v ∈ readOperands i -> typedRead fn v).

Lemma recorded_iff (Done Done' At At' : nat -> nat -> Prop) F K :
  (forall q t, Done' q t -> At' q t) ->
  (forall q t i, Done' q t -> instrAt fn q t i -> Done q t) -> (forall q t, Done q t -> Done' q t) -> (forall q t, At' q t -> At q t) ->
  recorded Done At F K -> recorded Done' At' F K.
Proof.
  intros H0 H1 H2 H3 [R1 R2 R3 R4]. split; [exact H0 | intros; eapply R2; eauto | intros; eapply R3; eauto |].
  intros x e Hx. destruct (R4 x e Hx) as (p & s & i & k & Hd & Hr). exists p, s, i, k. auto.
Qed.

Lemma forwardInstrs_spec D p b l : ordered D -> ~ D p -> reach (succs fn) 0 p -> fBlocks fn !! p = Some b ->
  forall s F K, l = drop s (bInstrs b) -> s <= List.length (bInstrs b) -> recorded (passed D p s) (passed D p (S s)) F K ->
  exists F' K', forwardInstrs l (F p s, K) = Some (F' p (List.length (bInstrs b)), K') /\
    recorded (passed D p (List.length (bInstrs b))) (passed D p (S (List.length (bInstrs b)))) F' K' /\
    (forall q t, q <> p \/ t <= s -> F' q t = F q t).
Proof.
  intros HD Hp Hr Hb. induction l as [|i l IH]; intros s F K Hl Hle R; cbn [forwardInstrs].
  - assert (s = List.length (bInstrs b)) as -> by (apply (f_equal List.length) in Hl; rewrite length_drop in Hl; cbn in Hl; lia).
    exists F, K. auto.
  - assert (Hi : bInstrs b !! s = Some i) by (rewrite <- (Nat.add_0_r s), <- lookup_drop, <- Hl; reflexivity).
    assert (Htl : l = drop (S s) (bInstrs b)) by (rewrite (drop_S _ _ _ Hi) in Hl; congruence).
    assert (Hat : instrAt fn p s i) by (exists b; auto). pose proof (lookup_lt_Some _ _ _ Hi).
    destruct (forwardInstr_spec D p s i F K HD Hp Hr Hat R) as (facts' & K1 & -> & R1).
    { intros w. apply Htyped. eapply instrAt_in, Hat. }
    cbn [mbind option_bind]. rewrite <- (update_eq F p (S s) facts').
    destruct (IH (S s) (update F p (S s) facts') K1 Htl ltac:(lia) R1) as (F' & K' & -> & R' & Hsame).
    exists F', K'. split; [reflexivity|]. split; [exact R'|]. intros q t Hq. rewrite Hsame by (destruct Hq; [auto | right; lia]).
    apply update_ne. destruct Hq; [auto | right; lia].
Qed.

(** ** All blocks *)

(** Where the facts at a block's start come from. *)
Definition entered (D : nat -> Prop) (F : nat -> nat -> fieldFacts) : Prop :=
  forall p, D p -> F p 0 = ∅ \/ exists d, D d /\ d <> p /\ dominated_by (succs fn) d p /\
    inherited fn p d (F d (stepsOf fn d)) (F p 0).

Record soFar (D : nat -> Prop) (F : nat -> nat -> fieldFacts) (ends : list fieldFacts) (K : replacements_map) : Prop := mkSoFar {
  sf_recorded : recorded (finished D) (finished D) F K;
  sf_entered : entered D F;
  sf_ends p : D p -> ends !! p = Some (F p (stepsOf fn p));
  sf_length : List.length ends = List.length (fBlocks fn)
}.

Lemma forward_block D p b facts F ends K :
  ordered D -> ~ D p -> reach (succs fn) 0 p -> fBlocks fn !! p = Some b -> soFar D F ends K ->
  facts = ∅ \/ (exists d, D d /\ d <> p /\ dominated_by (succs fn) d p /\ inherited fn p d (F d (stepsOf fn d)) facts) ->
  exists F' facts' K', forwardInstrs (bInstrs b) (facts, K) = Some (facts', K') /\
    soFar (fun q => D q \/ q = p) F' (<[p := facts']> ends) K'.
Proof.
  intros HD Hp Hr Hb [R En Hends Hlen] Hfacts.
  assert (Hsteps : stepsOf fn p = List.length (bInstrs b)) by (unfold stepsOf; rewrite Hb; reflexivity).
  assert (Hold : forall q t, D q -> update F p 0 facts q t = F q t) by (intros q t Hq; apply update_ne; left; intros ->; contradiction).
  assert (R0 : recorded (passed D p 0) (passed D p 1) (update F p 0 facts) K).
  { destruct R as [R1 R2 R3 R4]. split.
    - intros q t [H|H]; [left; exact H | lia].
    - intros q t i [[Hq Ht]|[_ H]] Hi; [|lia]. rewrite !Hold by exact Hq. eapply R2; [split; eassumption | exact Hi].
    - intros q t k v [[Hq Ht]|[-> Ht]] Hk; [rewrite Hold in Hk by exact Hq; eapply R3; [split|]; eassumption|].
      assert (t = 0) as -> by lia. rewrite update_eq in Hk. destruct Hfacts as [->|(d & Hd & Hne & Hdom & Hinh)]; [rewrite lookup_empty in Hk; discriminate|].
      destruct (Hinh k v Hk) as [Hk' _]. destruct (R3 d (stepsOf fn d) k v (conj Hd (le_n _)) Hk') as (H1 & H2 & H3).
      split; [|split; [|exact H3]]; eapply settled_enter; eassumption.
    - intros x e Hx. destruct (R4 x e Hx) as (q & t & i & k & Hd & H1 & H2 & H3 & H4 & H5 & H6).
      exists q, t, i, k. rewrite Hold by apply Hd. split; [left; exact Hd | auto 10]. }
  destruct (forwardInstrs_spec D p b (bInstrs b) HD Hp Hr Hb 0 _ K eq_refl (Nat.le_0_l _) R0) as (F' & K' & Hrun & R' & Hsame).
  rewrite update_eq in Hrun. exists F', (F' p (List.length (bInstrs b))), K'. split; [exact Hrun|].
  assert (Hsame' : forall q t, D q -> F' q t = F q t).
  { intros q t Hq. rewrite Hsame by (left; intros ->; contradiction). apply Hold, Hq. }
  split; [| | |rewrite length_insert; exact Hlen].
  - eapply recorded_iff; [auto | | | | exact R'].
    + intros q t i [[Hq|Hq] Ht] Hi; [left; split; assumption|]. subst q. right. split; [reflexivity|].
      rewrite <- Hsteps. eapply instrAt_steps, Hi.
    + intros q t [[Hq Ht]|[-> Ht]]; [split; auto | split; [auto | lia]].
    + intros q t [[Hq|Hq] Ht]; [left; split; assumption|]. subst q. right. split; [reflexivity | lia].
  - intros q [Hq|Hq].
    + destruct (En q Hq) as [H|(d & Hd & H)]; [left; rewrite Hsame' by exact Hq; exact H|]. right. exists d.
      rewrite !Hsame' by assumption. tauto.
    + subst q. assert (E : F' p 0 = facts) by (rewrite Hsame by (right; lia); apply update_eq). rewrite E.
      destruct Hfacts as [H|(d & Hd & H)]; [left; exact H|]. right. exists d. rewrite Hsame' by exact Hd. tauto.
  - intros q [Hq|Hq].
    + rewrite list_lookup_insert_ne by (intros ->; contradiction). rewrite Hsame' by exact Hq. apply Hends, Hq.
    + subst q. rewrite Hsteps. apply list_lookup_insert_eq. rewrite Hlen. eapply lookup_lt_Some, Hb.
Qed.

Lemma soFar_iff (D D' : nat -> Prop) F ends K : (forall q, D q <-> D' q) -> soFar D F ends K -> soFar D' F ends K.
Proof.
  intros H [R En Hends Hlen]. split; [| | |exact Hlen].
  - eapply recorded_iff; [| | | |exact R]; unfold finished; intros q; specialize (H q); tauto.
  - intros p Hp%H. destruct (En p Hp) as [Hf|(d & Hd%H & Hr)]; [auto | right; exists d; auto].
  - intros p Hp%H. auto.
Qed.

Context (Hblocks : 0 < List.length (fBlocks fn)).

(** The order names the dominators of a block before the block. *)
Lemma order_ordered done rest : order fn = done ++ rest -> ordered (fun q => q ∈ done).
Proof.
  intros Ho. destruct (order_spec fn Hblocks) as (_ & Hin & H0 & Hpred).
  assert (Hpath : forall i q, order fn !! i = Some q -> exists l, path (succs fn) 0 l q /\ forall x, x ∈ l -> exists j, j <= i /\ order fn !! j = Some x).
  { induction i as [i IH] using lt_wf_ind. intros q Hq. destruct (decide (i = 0)) as [->|Hne].
    - assert (q = 0) as -> by congruence. exists [0]. split; [constructor|]. intros x ->%list_elem_of_singleton. exists 0. auto.
    - destruct (Hpred i q ltac:(lia) Hq) as (j & r & Hj & Hr & Hs). destruct (IH j Hj r Hr) as (l & Hl & Hall).
      exists (l ++ [q]). split; [econstructor; eassumption|]. intros x [Hx|Hx%list_elem_of_singleton]%elem_of_app.
      + destruct (Hall x Hx) as (k & Hk & Hkx). exists k. split; [lia | exact Hkx].
      + subst x. exists i. auto. }
  split.
  - intros p Hp. apply Hin. rewrite Ho. apply elem_of_app. auto.
  - intros p d Hp Hd. apply list_elem_of_lookup in Hp as [i Hi].
    assert (Hi' : order fn !! i = Some p) by (rewrite Ho; apply lookup_app_l_Some, Hi).
    destruct (Hpath i p Hi') as (l & Hl & Hall). destruct (Hall d (Hd l Hl)) as (j & Hj & Hjd).
    pose proof (lookup_lt_Some _ _ _ Hi). rewrite Ho, lookup_app_l in Hjd by lia. eapply list_elem_of_lookup_2, Hjd.
Qed.

Lemma forwardBlocks_spec tree :
  (forall i, 0 < i < List.length (order fn) -> exists up p c, Cfg.parent (Cfg.idom tree) i = Some up /\ up < i /\
     order fn !! up = Some p /\ order fn !! i = Some c /\ p <> c /\ dominated_by (succs fn) p c) ->
  forall positions done F ends K, order fn = done ++ positions -> soFar (fun q => q ∈ done) F ends K ->
  exists F' ends' K', forwardBlocks fn (blockPredecessors fn (blockIndex fn)) (Cfg.idom tree) (order fn) (List.length done) positions (ends, K) =
      Some (ends', K') /\ soFar (fun q => q ∈ order fn) F' ends' K'.
Proof.
  intros Htree. induction positions as [|p positions IH]; intros done F ends K Ho S; cbn [forwardBlocks].
  - rewrite app_nil_r in Ho. exists F, ends, K. split; [reflexivity|]. rewrite Ho. exact S.
  - destruct (order_spec fn Hblocks) as (Hnd & Hin & _).
    assert (Hpo : order fn !! List.length done = Some p) by (rewrite Ho, lookup_app_r, Nat.sub_diag by lia; reflexivity).
    assert (Hmem : p ∈ order fn) by (eapply list_elem_of_lookup_2, Hpo).
    assert (Hp : p ∉ done) by (rewrite Ho in Hnd; apply NoDup_app in Hnd as (_ & Hd & _); intros Hx; apply (Hd p Hx); left).
    assert (Hlt : p < List.length (fBlocks fn)) by exact (order_bound fn Hblocks p Hmem).
    destruct (lookup_lt_is_Some_2 (fBlocks fn) p Hlt) as [b Hb].
    assert (Hstart : exists facts, (if (0 <? List.length done)%nat then up ← Cfg.parent (Cfg.idom tree) (List.length done); d ← order fn !! up;
        from ← ends !! d; inheritedFacts fn (blockPredecessors fn (blockIndex fn)) p d from else Some ∅) = Some facts /\
      (facts = ∅ \/ exists d, d ∈ done /\ d <> p /\ dominated_by (succs fn) d p /\ inherited fn p d (F d (stepsOf fn d)) facts)).
    { destruct (Nat.ltb_spec 0 (List.length done)) as [Hpos|]; [|exists ∅; auto].
      destruct (Htree (List.length done)) as (up & d & c & Hup & Hlt' & Hd & Hc & Hne & Hdom); [split; [exact Hpos | eapply lookup_lt_Some, Hpo]|].
      assert (c = p) as -> by congruence. rewrite Hup. cbn [mbind option_bind]. rewrite Hd. cbn [mbind option_bind].
      assert (Hdin : d ∈ done) by (rewrite Ho, lookup_app_l in Hd by exact Hlt'; eapply list_elem_of_lookup_2, Hd).
      rewrite (sf_ends _ _ _ _ S d Hdin). cbn [mbind option_bind].
      destruct (inheritedFacts_spec fn p d (F d (stepsOf fn d)) Hlt) as (facts & Hf & Hinh). exists facts. split; [exact Hf|]. right. exists d. auto. }
    destruct Hstart as (facts & -> & Hfacts). cbn [mbind option_bind]. rewrite Hb. cbn [mbind option_bind].
    destruct (forward_block (fun q => q ∈ done) p b facts F ends K) as (F' & facts' & K' & Hrun & S'); auto.
    { eapply order_ordered, Ho. } { apply Hin, Hmem. }
    rewrite Hrun. cbn [mbind option_bind]. replace (Datatypes.S (List.length done)) with (List.length (done ++ [p])) by (rewrite length_app; cbn; lia).
    eapply IH; [rewrite <- app_assoc; exact Ho|]. eapply soFar_iff; [|exact S'].
    intros q. rewrite elem_of_app, list_elem_of_singleton. reflexivity.
Qed.

(** The whole pass leaves a record of every reachable block. *)
Lemma forward_recorded : exists tree F ends K,
  buildDominatorTree fn (blockPredecessors fn (blockIndex fn)) = Some tree /\
  forwardBlocks fn (blockPredecessors fn (blockIndex fn)) (Cfg.idom tree) (order fn) 0 (order fn)
    (replicate (List.length (fBlocks fn)) ∅, ∅) = Some (ends, K) /\
  recorded (finished (reach (succs fn) 0)) (finished (reach (succs fn) 0)) F K /\ entered (reach (succs fn) 0) F /\ flat K.
Proof.
  destruct (immediate_dominators fn Hblocks) as (tree & Htree & Hparent).
  destruct (forwardBlocks_spec tree Hparent (order fn) [] (fun _ _ => ∅) (replicate (List.length (fBlocks fn)) ∅) ∅ eq_refl) as (F & ends & K & Hrun & S).
  { split; [split | | |].
    - intros q t H. exact H.
    - intros q t i [Hq _]. inversion Hq.
    - intros q t k v [Hq _]. inversion Hq.
    - intros x e H. rewrite lookup_empty in H. discriminate.
    - intros q Hq. inversion Hq.
    - intros q Hq. inversion Hq.
    - apply length_replicate. }
  exists tree, F, ends, K. split; [exact Htree|]. split; [exact Hrun|].
  apply (soFar_iff _ (reach (succs fn) 0)) in S; [|apply (order_spec fn Hblocks)]. destruct S as [R En _ _].
  split; [exact R|]. split; [exact En|]. intros x e Hx.
  destruct (rc_replaced _ _ _ _ R x e Hx) as (q & t & j & k & Hd & _ & _ & _ & _ & G & _). eapply (rc_settled _ _ _ _ R q t k e); [exact Hd | exact G].
Qed.
End Pass.
