(* ===== verification/ForwardTheorems.v ===== *)
(** * Forwarding field loads keeps every run ([internal/ir/forward.go])

    What the pass knows of a field at a point is what memory holds there: a
    fact a block starts with held at the end of a dominator, and no block on
    the way since has changed it. *)

From stdpp Require Import base list strings gmap.
From Stdlib Require Import ZArith Lia String.
From S2P Require Import Prelude GoStd IR Cfg Dominators CfgFacts Verify VerifyFacts Semantics Optimize Dce.
From S2P Require Import OptimizeTheorems Ssa Simplify Available Forward.

#[local] Open Scope string_scope.
#[local] Open Scope list_scope.

(** What memory is to a machine with struct fields behind references: a read
    returns what the field of the struct holds at its type and leaves memory,
    and a write of a scalar changes no field but that one.  References may
    reach the same struct. *)
Class FieldMachine {V M X} (machine : Machine V M X) : Type := {
  load : string -> string -> string -> V -> M -> option V;
  field_read : forall i a field r m v m1, CutPrefix (iOp i) "field.ref." = Some field -> iArgs i = [a] ->
    iFields i = [] -> iCleanups i = [] -> operation i [r] m = Next v m1 ->
    m1 = m /\ load (derefType (vType a)) field (vType (iResult i)) r m = Some v;
  field_write : forall i a b field r x m v m1, CutPrefix (iOp i) "field.ref.set." = Some field -> iArgs i = [a; b] ->
    iFields i = [] -> iCleanups i = [] -> isForwardScalar (vType b) = true -> operation i [r; x] m = Next v m1 ->
    load (derefType (vType a)) field (vType b) r m1 = Some x /\
    forall strct f ty r', ~ (strct = derefType (vType a) /\ f = field) -> isForwardScalar ty = true ->
      load strct f ty r' m1 = load strct f ty r' m
}.

(** What lowering makes: reads have the type of what they read, field
    operations carry nothing but their operands, a forwarded read has a name. *)
Record forwardable (fn : Function) : Prop := mkForwardable {
  fo_reads : forall i v, i ∈ instrsOf (fBlocks fn) -> v ∈ readOperands i -> typedRead fn v;
  fo_ends : forall b, b ∈ fBlocks fn -> typedRead fn (tValue (bTerminator b));
  fo_fields : forall i, i ∈ instrsOf (fBlocks fn) -> HasPrefix (iOp i) "field.ref." = true -> iFields i = [] /\ iCleanups i = [];
  fo_named : forall i, i ∈ instrsOf (fBlocks fn) -> is_Some (readKey i) -> resultName i <> ""
}.

Section Forwarding.
Context {V M X : Type} {machine : Machine V M X} {pure : PureMachine machine} {fields : FieldMachine machine}.
Context (module : Module_) (params : gmap string (list Param)) (fn : Function).
Context (Hsound : sound module params fn) (Hfo : forwardable fn).
(** A reference is not spelled as a literal. *)
Context (Hrefs : forall i a, i ∈ instrsOf (fBlocks fn) -> HasPrefix (iOp i) "field.ref." = true -> head (iArgs i) = Some a ->
  literal a = None).
Context (F : nat -> nat -> fieldFacts) (K : replacements_map).
Context (R : recorded fn (finished fn (reach (succs fn) 0)) (finished fn (reach (succs fn) 0)) F K).
Context (En : entered fn (reach (succs fn) 0) F).

Abbreviation env := (gmap string V).

(** ** Facts *)

(** The field holds the value. *)
Definition holds (k : fieldKey) (v : Value) (ρ : env) (m : M) : Prop :=
  isForwardScalar (vType v) = true /\
  exists r x, ρ !! fkRef k = Some r /\ operand ρ v = Some x /\ load (X := X) (fkStruct k) (fkField k) (vType v) r m = Some x.

(** What is known at a point, and what every dominator's end still says. *)
Definition known (p s : nat) (ρ : env) (m : M) : Prop :=
  (forall k v, F p s !! k = Some v -> holds k v ρ m) /\
  (forall a k v, a <> p -> dominated_by (succs fn) a p -> reach (succs fn) 0 a -> F a (stepsOf fn a) !! k = Some v ->
     (forall b, between (succs fn) a p b -> clean fn b k) ->
     (forall t i, t < s -> instrAt fn p t i -> forgetsKey i k = false) -> holds k v ρ m).

Definition fact (x : string) (ρ : env) : Prop :=
  forall e, K !! x = Some e -> exists v, ρ !! x = Some v /\ operand ρ e = Some v.

Definition deps (x : string) : list string := match K !! x with Some e => [vName e] | None => [] end.

Lemma forwarded_defined x e : K !! x = Some e -> exists p s j, instrAt fn p s j /\ resultName j = x /\ x <> "" /\ vType e = vType (iResult j).
Proof.
  intros Hx. destruct (rc_replaced _ _ _ _ _ R x e Hx) as (p & s & i & k & _ & H1 & H2 & H3 & _ & _ & H4). eauto 8.
Qed.

Lemma K_settled x e d : K !! x = Some e -> valueDefiningBlocks fn !! x = Some d -> settledAt fn (defBlock d) (defStep d) (vName e).
Proof.
  intros Hx Hd. destruct (rc_replaced _ _ _ _ _ R x e Hx) as (p & s & i & k & Hf & Hi & <- & Hne & _ & Hk & _).
  rewrite (defs_at module params fn Hsound p s i Hi Hne) in Hd. injection Hd as <-.
  eapply (rc_settled _ _ _ _ _ R p s k e Hf Hk).
Qed.

Lemma forwarded_deps_settled x d y : reach (succs fn) 0 (defBlock d) -> valueDefiningBlocks fn !! x = Some d -> y ∈ deps x ->
  settledAt fn (defBlock d) (defStep d) y.
Proof.
  intros _ Hd Hy. unfold deps in Hy. destruct (K !! x) as [e|] eqn:He; [|inversion Hy].
  apply list_elem_of_singleton in Hy as ->. eapply K_settled; eassumption.
Qed.

Lemma K_settled_at p s x e : reach (succs fn) 0 p -> K !! x = Some e -> settledAt fn p s x -> settledAt fn p s (vName e).
Proof.
  intros Hp Hx Hs d' Hd'. destruct (forwarded_defined x e Hx) as (q & t & j & Hj & Hn & Hne & _).
  pose proof (defs_at module params fn Hsound q t j Hj ltac:(congruence)) as Hd. rewrite Hn in Hd.
  eapply before_trans; [exact Hp | eapply (K_settled x e _ Hx Hd), Hd' | apply Hs, Hd].
Qed.

Lemma forwarded_local x (ρ ρ' : env) : ρ !! x = ρ' !! x -> (forall y, y ∈ deps x -> ρ !! y = ρ' !! y) -> fact x ρ -> fact x ρ'.
Proof.
  intros Hx Hd H e He. destruct (H e He) as (v & Hv & Ho). exists v. rewrite <- Hx. split; [exact Hv|].
  rewrite <- Ho. apply operand_agree. symmetry. apply Hd. unfold deps. rewrite He. left.
Qed.

Lemma forwarded_equal x e ρ : K !! x = Some e -> fact x ρ -> exists v, ρ !! x = Some v /\ operand ρ e = Some v.
Proof. intros He H. apply H, He. Qed.

(** ** One instruction *)

Lemma holds_assign p s i k w v (ρ : env) m :
  instrAt fn p s i -> settledAt fn p s (fkRef k) -> settledAt fn p s (vName w) -> holds k w ρ m -> holds k w (assign ρ i v) m.
Proof.
  intros Hi Hk Hw (Hs & r & x & H1 & H2 & H3). split; [exact Hs|]. exists r, x.
  rewrite (settled_assign module params fn p s i _ v ρ Hsound Hi Hk). split; [exact H1|]. split; [|exact H3].
  rewrite <- H2. apply operand_agree. apply (settled_assign module params fn p s); assumption.
Qed.

(** Instructions that forget nothing leave memory; a write leaves every other
    field. *)
Lemma pure_memory from (e ρ : env) m i v m' :
  runInstr (X := X) from e ρ m i = Next v m' -> isPureOp (iOp i) = true -> m' = m.
Proof.
  unfold runInstr. destruct (String.eqb (iOp i) "phi"); [destruct (phiValue from e i); [congruence | discriminate]|].
  destruct (mapM (operand ρ) (readOperands i)) as [vs|]; [|discriminate]. intros H Hp.
  pose proof (pure_step (shape i) vs m Hp) as Hs. rewrite H in Hs. exact Hs.
Qed.

Lemma field_prefix op f : CutPrefix op "field.ref.set." = Some f -> HasPrefix op "field.ref." = true.
Proof. intros H%CutPrefix_Some. rewrite H. apply HasPrefix_true. exists ("set." +:+ f). reflexivity. Qed.

Lemma field_prefix_read op f : CutPrefix op "field.ref." = Some f -> HasPrefix op "field.ref." = true.
Proof. intros H%CutPrefix_Some. rewrite H. apply HasPrefix_true. exists f. reflexivity. Qed.

Lemma field_not_phi op : HasPrefix op "field.ref." = true -> op <> "phi".
Proof. intros H ->. discriminate H. Qed.

(** The operands of a field operation. *)
Lemma field_operands p s i from (e ρ : env) m v m' :
  instrAt fn p s i -> HasPrefix (iOp i) "field.ref." = true -> runInstr (X := X) from e ρ m i = Next v m' ->
  exists vs, mapM (operand ρ) (iArgs i) = Some vs /\ operation (shape i) vs m = Next (X := X) v m' /\
    iFields (shape i) = [] /\ iCleanups (shape i) = [].
Proof.
  intros Hi Hop Hrun. destruct (fo_fields _ Hfo i (instrAt_in _ _ _ _ Hi) Hop) as [Hf Hc]. unfold runInstr in Hrun.
  rewrite (proj2 (String.eqb_neq _ _) (field_not_phi _ Hop)) in Hrun.
  assert (Hreads : readOperands i = iArgs i) by (unfold readOperands; rewrite Hf, Hc; cbn; rewrite app_nil_r; reflexivity).
  rewrite Hreads in Hrun. destruct (mapM (operand ρ) (iArgs i)) as [vs|]; [|discriminate]. exists vs. cbn [shape iFields iCleanups].
  rewrite Hf, Hc. auto.
Qed.

Lemma ref_computed i a (ρ : env) r : i ∈ instrsOf (fBlocks fn) -> HasPrefix (iOp i) "field.ref." = true -> head (iArgs i) = Some a ->
  operand ρ a = Some r -> ρ !! vName a = Some r.
Proof.
  intros Hi Hop Ha Ho. unfold operand in Ho. destruct (ρ !! vName a); [exact Ho|]. rewrite (Hrefs i a Hi Hop Ha) in Ho. discriminate.
Qed.

(** What a write runs. *)
Lemma write_ran p s i from (e ρ : env) m v m' f a b :
  instrAt fn p s i -> CutPrefix (iOp i) "field.ref.set." = Some f -> iArgs i = [a; b] -> isForwardScalar (vType b) = true ->
  runInstr (X := X) from e ρ m i = Next v m' ->
  exists r x, ρ !! vName a = Some r /\ operand ρ b = Some x /\
    load (X := X) (derefType (vType a)) f (vType b) r m' = Some x /\
    forall strct g ty r', ~ (strct = derefType (vType a) /\ g = f) -> isForwardScalar ty = true ->
      load (X := X) strct g ty r' m' = load (X := X) strct g ty r' m.
Proof.
  intros Hi Hop Ha Hs Hrun. pose proof (field_prefix _ _ Hop) as Hpre.
  destruct (field_operands p s i from e ρ m v m' Hi Hpre Hrun) as (vs & Hvs & Hrun' & Hf & Hc). rewrite Ha in Hvs. cbn [mapM] in Hvs.
  destruct (operand ρ a) as [r|] eqn:Hr; [|discriminate]. destruct (operand ρ b) as [x|] eqn:Hx; [|discriminate]. injection Hvs as <-.
  exists r, x. split; [eapply (ref_computed i); [eapply instrAt_in, Hi | exact Hpre | rewrite Ha; reflexivity | exact Hr]|].
  split; [reflexivity|]. apply (field_write (shape i) (unnamed a) (unnamed b) f r x m v m'); auto.
  cbn [shape iArgs]. rewrite Ha. reflexivity.
Qed.

(** What a read runs. *)
Lemma read_ran p s i from (e ρ : env) m v m' f a :
  instrAt fn p s i -> CutPrefix (iOp i) "field.ref." = Some f -> iArgs i = [a] -> runInstr (X := X) from e ρ m i = Next v m' ->
  m' = m /\ exists r, ρ !! vName a = Some r /\ load (X := X) (derefType (vType a)) f (vType (iResult i)) r m = Some v.
Proof.
  intros Hi Hop Ha Hrun. pose proof (field_prefix_read _ _ Hop) as Hpre.
  destruct (field_operands p s i from e ρ m v m' Hi Hpre Hrun) as (vs & Hvs & Hrun' & Hf & Hc). rewrite Ha in Hvs. cbn [mapM] in Hvs.
  destruct (operand ρ a) as [r|] eqn:Hr; [|discriminate]. injection Hvs as <-.
  destruct (field_read (shape i) (unnamed a) f r m v m' Hop) as [-> Hl]; auto; [cbn [shape iArgs]; rewrite Ha; reflexivity|].
  split; [reflexivity|]. exists r. split; [|exact Hl].
  eapply (ref_computed i); [eapply instrAt_in, Hi | exact Hpre | rewrite Ha; reflexivity | exact Hr].
Qed.

(** A fact an instruction does not forget holds after it. *)
Lemma holds_kept p s i k w from (e ρ : env) m v m' :
  instrAt fn p s i -> settledAt fn p s (fkRef k) -> settledAt fn p s (vName w) -> forgetsKey i k = false ->
  runInstr (X := X) from e ρ m i = Next v m' -> holds k w ρ m -> holds k w (assign ρ i v) m'.
Proof.
  intros Hi Hk Hw Hforget Hrun Hh. apply (holds_assign p s); [exact Hi | exact Hk | exact Hw|]. unfold forgetsKey in Hforget.
  assert (Hpure : negb (isPureOp (iOp i)) = false -> holds k w ρ m').
  { intros Hp%negb_false_iff. rewrite (pure_memory _ _ _ _ _ _ _ Hrun Hp). exact Hh. }
  destruct (CutPrefix (iOp i) "field.ref.set.") as [f|] eqn:Hop; [|auto].
  destruct (iArgs i) as [|a [|b [|]]] eqn:Ha; auto. apply orb_false_iff in Hforget as [Hs Hne].
  apply negb_false_iff in Hs. apply bool_decide_eq_false in Hne.
  destruct (write_ran p s i from e ρ m v m' f a b Hi Hop Ha Hs Hrun) as (_ & _ & _ & _ & _ & Hframe).
  destruct Hh as (Hsc & r & x & H1 & H2 & H3). split; [exact Hsc|]. exists r, x. rewrite Hframe; auto.
Qed.

Lemma uses_settled p s i a : instrAt fn p s i -> iOp i <> "phi" -> a ∈ iArgs i -> settledAt fn p s (vName a).
Proof.
  intros (b & Hb & Hs) Hop Ha. apply (wf_uses _ _ _ (sound_wf _ _ _ Hsound) p b s i a Hb Hs Hop). apply elem_args, Ha.
Qed.

Lemma at_finished p s i : reach (succs fn) 0 p -> instrAt fn p s i -> finished fn (reach (succs fn) 0) p s.
Proof. intros Hp Hi. split; [exact Hp|]. apply instrAt_steps in Hi. lia. Qed.

(** What a write makes known. *)
Lemma holds_written p s i from (e ρ : env) m v m' k b w :
  reach (succs fn) 0 p -> factsAt fn fact p s ρ -> instrAt fn p s i -> writeKey i = Some (k, b) ->
  (w = b \/ K !! vName b = Some w) -> vType w = vType b -> runInstr (X := X) from e ρ m i = Next v m' -> holds k w (assign ρ i v) m'.
Proof.
  intros Hp Hf Hi Hk Hw Hty Hrun. unfold writeKey in Hk. destruct (CutPrefix (iOp i) "field.ref.set.") as [f|] eqn:Hop; [|discriminate].
  destruct (iArgs i) as [|a [|b' [|]]] eqn:Ha; try discriminate. destruct (isForwardScalar (vType b')) eqn:Hs; [|discriminate].
  injection Hk as <- ->. pose proof (field_not_phi _ (field_prefix _ _ Hop)) as Hphi.
  destruct (write_ran p s i from e ρ m v m' f a b Hi Hop Ha Hs Hrun) as (r & x & Hr & Hx & Hl & _).
  assert (Hb : settledAt fn p s (vName b)) by (apply (uses_settled p s i b Hi Hphi); rewrite Ha; right; left).
  assert (Hw' : settledAt fn p s (vName w) /\ operand ρ w = Some x).
  { destruct Hw as [->|Hw]; [auto|]. split; [eapply K_settled_at; eassumption|]. rewrite <- Hx.
    pose proof (replaced_operand module params fn Hsound K fact forwarded_equal forwarded_defined p s ρ b Hf Hb) as E.
    unfold replaced in E. rewrite Hw in E. exact E. }
  destruct Hw' as [Hw1 Hw2]. split; [rewrite Hty; exact Hs|]. exists r, x. cbn [fkRef fkStruct fkField]. split; [|split; [|rewrite Hty; exact Hl]].
  - rewrite (settled_assign module params fn p s i (vName a) v ρ Hsound Hi); [exact Hr|]. apply (uses_settled p s i a Hi Hphi). rewrite Ha. left.
  - rewrite <- Hw2. apply operand_agree. apply (settled_assign module params fn p s); assumption.
Qed.

(** What a read makes known. *)
Lemma holds_read p s i from (e ρ : env) m v m' k :
  instrAt fn p s i -> readKey i = Some k -> runInstr (X := X) from e ρ m i = Next v m' -> holds k (iResult i) (assign ρ i v) m'.
Proof.
  intros Hi Hk Hrun. assert (Hne : resultName i <> "") by (apply (fo_named _ Hfo); [eapply instrAt_in, Hi | eauto]).
  unfold readKey in Hk. destruct (CutPrefix (iOp i) "field.ref.") as [f|] eqn:Hop; [|discriminate].
  destruct (iArgs i) as [|a [|]] eqn:Ha; try discriminate. destruct (isForwardScalar _) eqn:Hs; [|discriminate]. injection Hk as <-.
  pose proof (field_not_phi _ (field_prefix_read _ _ Hop)) as Hphi.
  destruct (read_ran p s i from e ρ m v m' f a Hi Hop Ha Hrun) as (-> & r & Hr & Hl).
  split; [exact Hs|]. exists r, v. cbn [fkRef fkStruct fkField]. split; [|split; [|exact Hl]].
  - rewrite (settled_assign module params fn p s i (vName a) v ρ Hsound Hi); [exact Hr|]. apply (uses_settled p s i a Hi Hphi). rewrite Ha. left.
  - unfold operand, assign. unfold resultName in Hne. rewrite (proj2 (String.eqb_neq _ _) Hne), lookup_insert_eq. reflexivity.
Qed.

Lemma known_step p s i from (e ρ : env) m v m' :
  standing fn fact known p s from e ρ m -> instrAt fn p s i -> runInstr (X := X) from e ρ m i = Next v m' ->
  known p (S s) (assign ρ i v) m'.
Proof.
  intros [Hp Hf _ [Hk1 Hk2]] Hi Hrun. pose proof (at_finished p s i Hp Hi) as Hfin.
  assert (Hkept : forall k w, F p s !! k = Some w -> forgetsKey i k = false -> holds k w (assign ρ i v) m').
  { intros k w Hw Hc. destruct (rc_settled _ _ _ _ _ R p s k w Hfin Hw) as (H1 & H2 & _).
    eapply holds_kept; eauto. }
  split.
  - intros k w Hw. pose proof (rc_step _ _ _ _ _ R p s i Hfin Hi) as Hst. unfold fstep in Hst.
    destruct (writeKey i) as [[k0 b]|] eqn:Hwk.
    + destruct Hst as (w' & Hw' & Hty & E). rewrite E in Hw. apply lookup_insert_Some in Hw as [[<- <-]|[_ Hw]].
      * eapply holds_written; eassumption.
      * apply forgetWrites_lookup in Hw as [Hw Hc]. apply Hkept; assumption.
    + destruct (readsField i) eqn:Hr.
      2: { rewrite Hst in Hw. apply forgetWrites_lookup in Hw as [Hw Hc]. apply Hkept; assumption. }
      assert (Hm : m' = m).
      { unfold readsField in Hr. destruct (CutPrefix (iOp i) "field.ref.") as [f|] eqn:Hop; [|discriminate].
        destruct (iArgs i) as [|a [|]] eqn:Ha; try discriminate. apply (read_ran p s i from e ρ m v m' f a Hi Hop Ha Hrun). }
      assert (Hold : forall w, F p s !! k = Some w -> holds k w (assign ρ i v) m').
      { intros w0 Hw0. destruct (rc_settled _ _ _ _ _ R p s k w0 Hfin Hw0) as (H1 & H2 & _). rewrite Hm.
        eapply holds_assign; eauto. }
      destruct Hst as [E|(k0 & Hk0 & E)]; rewrite E in Hw; [apply Hold, Hw|].
      apply lookup_insert_Some in Hw as [[<- <-]|[_ Hw]]; [eapply holds_read; eassumption | apply Hold, Hw].
  - intros a k w Hne Hdom Ha Hw Hb Ht. destruct (rc_settled _ _ _ _ _ R a (stepsOf fn a) k w (conj Ha (le_n _)) Hw) as (H1 & H2 & _).
    assert (Hup : forall x, settledAt fn a (stepsOf fn a) x -> settledAt fn p s x).
    { intros x Hx. apply (settled_enter fn a (stepsOf fn a) p x Hp Hne Hdom) in Hx. clear -Hx. induction s; auto using settled_S. }
    eapply holds_kept; [exact Hi | apply Hup, H1 | apply Hup, H2 | apply (Ht s i); [lia | exact Hi] | exact Hrun |].
    apply (Hk2 a k w); auto. intros t j Hts Hj. apply (Ht t j); [lia | exact Hj].
Qed.

Lemma known_jump p q (ρ : env) m :
  reach (succs fn) 0 p -> q ∈ succs fn p -> factsAt fn fact p (stepsOf fn p) ρ -> known p (stepsOf fn p) ρ m -> known q 0 ρ m.
Proof.
  intros Hp Hq _ [Hk1 Hk2].
  assert (Hdom : forall a k v, a <> q -> dominated_by (succs fn) a q -> reach (succs fn) 0 a -> F a (stepsOf fn a) !! k = Some v ->
    (forall b, between (succs fn) a q b -> clean fn b k) -> holds k v ρ m).
  { intros a k v Hne Hd Ha Hv Hb. destruct (decide (a = p)) as [->|Hap]; [apply Hk1, Hv|].
    assert (Hclean : clean fn p k) by (apply Hb, between_pred; auto).
    apply (Hk2 a k v); [exact Hap | | exact Ha | exact Hv | | intros t i _ Hi; eapply Hclean, Hi].
    - intros l Hl. specialize (Hd (l ++ [q]) (path_step _ _ _ _ _ Hl Hq)).
      apply elem_of_app in Hd as [Hd|Hd%list_elem_of_singleton]; [exact Hd | contradiction].
    - intros b Hbt. apply Hb. eapply between_extend; [|exact Hq | exact Hbt]. auto. }
  split; [|intros a k v Hne Hd Ha Hv Hb _; eapply Hdom; eassumption].
  intros k v Hv. destruct (En q) as [E|(d & Hd & Hne & Hdd & Hinh)]; [eapply reach_step; eassumption | rewrite E, lookup_empty in Hv; discriminate|].
  destruct (Hinh k v Hv) as [Hv' Hb]. eapply Hdom; eassumption.
Qed.

Lemma known_start (ρ : env) m : known 0 0 ρ m.
Proof.
  assert (Hno : forall d, d <> 0 -> ~ dominated_by (succs fn) d 0).
  { intros d Hne Hd. specialize (Hd [0] (path_one _ _)). apply list_elem_of_singleton in Hd. contradiction. }
  split; [|intros a k v Hne Hd; destruct (Hno a Hne Hd)].
  intros k v Hv. destruct (En 0 (reach_refl _ _)) as [E|(d & _ & Hne & Hd & _)]; [rewrite E, lookup_empty in Hv; discriminate|].
  destruct (Hno d Hne Hd).
Qed.

(** A replaced read returns the value known to be there. *)
Lemma forwarded_establishes p s i from (e ρ : env) m v m' :
  standing fn fact known p s from e ρ m -> instrAt fn p s i -> runInstr (X := X) from e ρ m i = Next v m' ->
  resultName i <> "" -> fact (resultName i) (assign ρ i v).
Proof.
  intros [Hp _ _ [Hk1 _]] Hi Hrun Hne w Hw. destruct (rc_replaced _ _ _ _ _ R _ _ Hw) as (q & t & j & k & Hfin & Hj & Hn & _ & Hk & Hfact & Hty).
  pose proof (defs_at module params fn Hsound p s i Hi Hne) as D1.
  pose proof (defs_at module params fn Hsound q t j Hj ltac:(congruence)) as D2. rewrite Hn, D1 in D2. injection D2 as <- <-.
  rewrite (instrAt_fun fn _ _ _ _ Hj Hi) in *. destruct (Hk1 k w Hfact) as (_ & r & x & H1 & H2 & H3).
  destruct (rc_settled _ _ _ _ _ R p s k w Hfin Hfact) as (_ & Hset & _). unfold readKey in Hk.
  destruct (CutPrefix (iOp i) "field.ref.") as [f|] eqn:Hop; [|discriminate].
  destruct (iArgs i) as [|a [|]] eqn:Ha; try discriminate. destruct (isForwardScalar _); [|discriminate]. injection Hk as <-.
  destruct (read_ran p s i from e ρ m v m' f a Hi Hop Ha Hrun) as (_ & r' & Hr' & Hl). cbn [fkRef fkStruct fkField] in *.
  assert (r' = r) as -> by congruence. rewrite Hty in H3. assert (x = v) as -> by congruence. exists v. split.
  - unfold assign, resultName in *. rewrite (proj2 (String.eqb_neq _ _) Hne). apply lookup_insert_eq.
  - rewrite <- H2. apply operand_agree. apply (settled_assign module params fn p s); assumption.
Qed.

Lemma forward_keeps_replaced : keeps fn (set_fBlocks (fun _ => map (replaceBlock K) (fBlocks fn)) fn).
Proof.
  apply (replaced_keeps module params fn Hsound K fact known forwarded_equal forwarded_defined (fo_reads _ Hfo) (fo_ends _ Hfo)
    deps forwarded_local forwarded_deps_settled known_start known_step known_jump forwarded_establishes).
Qed.
End Forwarding.

(** ** The property *)

(** C8. Forwarding field loads ends and keeps every run: on a verified function
    in single assignment, on any machine where a write of a scalar field
    changes that field of structs of that type and nothing else and pure
    operations leave memory, the walk over the dominator tree neither panics
    nor runs out, and the function it leaves ends in the same way with the
    same result, memory and number of blocks, for all arguments, unless the
    original is stuck.  References may alias. *)
Theorem forward_preserves {V M X} {machine : Machine V M X} {pure : PureMachine machine} {fields : FieldMachine machine} module params fn :
  sound module params fn -> forwardable fn ->
  (forall i a, i ∈ instrsOf (fBlocks fn) -> HasPrefix (iOp i) "field.ref." = true -> head (iArgs i) = Some a -> literal (X := X) a = None) ->
  exists fn', forwardFieldLoadsIn fn = Some fn' /\ map bName (fBlocks fn') = map bName (fBlocks fn) /\
    forall fuel args m, runFunction fuel fn args m <> Stuck ->
      runFunction fuel fn' args m = runFunction (X := X) fuel fn args m.
Proof.
  intros Hs Hfo Hrefs. destruct (fBlocks fn) as [|b0 l] eqn:E.
  { exists fn. unfold forwardFieldLoadsIn. rewrite E. split; [reflexivity|]. split; [reflexivity | apply keeps_refl]. }
  assert (Hlen : 0 < List.length (fBlocks fn)) by (rewrite E; cbn; lia).
  destruct (forward_recorded module params fn Hs (fo_named _ Hfo) (fo_reads _ Hfo) Hlen) as (tree & F & ends & K & Htree & Hrun & R & En & Hflat).
  exists (set_fBlocks (fun _ => map (replaceBlock K) (fBlocks fn)) fn). split; [|split].
  - unfold forwardFieldLoadsIn. rewrite Htree. cbn [mbind option_bind]. unfold order in Hrun. rewrite Hrun. cbn [mbind option_bind].
    rewrite E in *. destruct (decide (base.size K = 0)) as [Hsz|Hsz].
    + apply map_size_empty_iff in Hsz. rewrite Hsz, (map_ext _ (fun b => b) replaceBlock_empty), map_id, <- E. destruct fn; reflexivity.
    + rewrite replaceFunctionValues_flat by exact Hflat. reflexivity.
  - cbn [set_fBlocks fBlocks]. rewrite map_map, E. reflexivity.
  - rewrite <- E in Hrefs. exact (forward_keeps_replaced module params fn Hs Hfo Hrefs F K R En).
Qed.

(** A machine with struct fields: memory lists the writes to a field of the
    struct a word points at, the last one first, next to the log. *)
Abbreviation heap := (list (string * string * Z * Z)).

Fixpoint heapRead (h : heap) (strct field : string) (r : Z) : option Z :=
  match h with
  | [] => None
  | (s, f, r', x) :: h => if String.eqb s strct && String.eqb f field && (r' =? r)%Z then Some x else heapRead h strct field r
  end.

Definition heapOperation (types : list string) (op : string) (result : string) (vs : list Z) (m : heap * list Z)
  : option (step Z (heap * list Z) unit) :=
  match CutPrefix op "field.ref.set.", types, vs with
  | Some field, [ref; ty], [r; x] =>
      Some (if isForwardScalar ty then Next 0%Z ((derefType ref, field, r, x) :: m.1, m.2) else Undefined)
  | _, _, _ =>
      match CutPrefix op "field.ref.", types, vs with
      | Some field, [ref], [r] =>
          Some (match heapRead m.1 (derefType ref) field r with Some x => Next x m | None => Undefined end)
      | Some _, _, _ => Some Undefined
      | None, _, _ => None
      end
  end.

Definition withLog (h : heap) (r : step Z (list Z) unit) : step Z (heap * list Z) unit :=
  match r with Next v l => Next v (h, l) | Halt x => Halt x | Undefined => Undefined end.

#[export] Instance heapMachine : Machine Z (heap * list Z) unit := {
  literal := literal (Machine := logMachine);
  operation i vs m :=
    match heapOperation (map vType (iArgs i)) (iOp i) (vType (iResult i)) vs m with
    | Some r => r
    | None => withLog m.1 (operation (Machine := logMachine) i vs m.2)
    end;
  truth := truth (Machine := logMachine)
}.

#[export] Instance heapPure : PureMachine heapMachine.
Proof.
  split. intros i vs [h l] Hp. cbn [operation heapMachine]. unfold heapOperation.
  destruct (CutPrefix (iOp i) "field.ref.set.") as [f|] eqn:Hset.
  { apply CutPrefix_Some in Hset. rewrite Hset in Hp. destruct f; discriminate Hp. }
  destruct (CutPrefix (iOp i) "field.ref.") as [f|].
  - destruct (map vType (iArgs i)) as [|? [|]], vs as [|? [|]]; try exact I. cbn [fst]. destruct (heapRead h _ _ _); [reflexivity | exact I].
  - pose proof (pure_step (machine := logMachine) i vs l Hp) as H. cbn [fst snd]. destruct (operation i vs l); cbn in *; [congruence | exact H | exact I].
Qed.

#[export] Instance heapFields : FieldMachine heapMachine.
Proof.
  refine {| load := fun strct field ty r (m : heap * list Z) => heapRead m.1 strct field r |}; cbn [operation heapMachine].
  - intros i a field r [h l] v m1 Hop Ha _ _. unfold heapOperation. rewrite Ha, Hop. cbn [map].
    destruct (CutPrefix (iOp i) "field.ref.set."); cbn [fst]; (destruct (heapRead h _ _ _) as [x|] eqn:Hx; [|discriminate]);
      intros [= <- <-]; auto.
  - intros i a b field r x [h l] v m1 Hop Ha _ _ Hs. unfold heapOperation. rewrite Ha, Hop. cbn [map]. rewrite Hs.
    intros [= <- <-]. cbn [fst heapRead]. rewrite !String.eqb_refl, Z.eqb_refl. split; [reflexivity|]. intros strct f ty r' Hne _.
    destruct (String.eqb_spec (derefType (vType a)) strct), (String.eqb_spec field f); try reflexivity. subst. tauto.
Defined.

(** The field [n] is written and read back; both reads in the branches are
    known from the entry until a write or a call; the last read follows two
    paths that may have written. *)
Definition sample_forward : Function :=
  let v x := mkValue x "i64" in let r := mkValue "%r" "&var S" in let c := mkValue "%c" "bool" in
  mkFunction "f" [mkParam "%r" "&var S" PassValue; mkParam "%p" "i64" PassValue] "i64"
    [mkBlock "entry" [instr (mkValue "" "void") "field.ref.set.n" [r; v "%p"] ""; instr (v "%a") "field.ref.n" [r] "";
                      instr c "binary.<" [v "%a"; v "3"] ""] (branch c "then" "else");
     mkBlock "then" [instr (v "%b") "field.ref.n" [r] ""; instr (v "%d") "binary.*" [v "%b"; v "%a"] "";
                     instr (mkValue "" "void") "field.ref.set.n" [r; v "%d"] ""] (jump "end");
     mkBlock "else" [instr (v "%e") "field.ref.n" [r] "";
                     instr (mkValue "" "void") "call.log" [v "%e"] ""; instr (v "%g") "field.ref.n" [r] ""] (jump "end");
     mkBlock "end" [instr (v "%f") "field.ref.n" [r] ""] (ret (v "%f"))] "" "".

(** [forwardable], as a test. *)
Definition forwardableb (fn : Function) : bool :=
  let instrs := instrsOf (fBlocks fn) in
  let typed v := String.eqb (vName v) "" || forallb (fun j => negb (String.eqb (resultName j) (vName v)) || String.eqb (vType v) (vType (iResult j))) instrs in
  forallb (fun i => forallb typed (readOperands i) &&
    (negb (HasPrefix (iOp i) "field.ref.") || bool_decide (iFields i = []) && bool_decide (iCleanups i = [])) &&
    (negb (bool_decide (is_Some (readKey i))) || negb (String.eqb (resultName i) ""))) instrs &&
  forallb (fun b => typed (tValue (bTerminator b))) (fBlocks fn).

Lemma forwardableb_true fn : forwardableb fn = true -> forwardable fn.
Proof.
  unfold forwardableb. intros [Hi Ht]%andb_true_iff. rewrite forallb_forall in Hi, Ht. split.
  - intros i v Hin%list_elem_of_In Hv%list_elem_of_In. apply Hi in Hin. rewrite !andb_true_iff in Hin.
    destruct Hin as [[Hin _] _]. rewrite forallb_forall in Hin. apply typedRead_test, Hin, Hv.
  - intros b Hb%list_elem_of_In. apply typedRead_test, Ht, Hb.
  - intros i Hin%list_elem_of_In Hp. apply Hi in Hin. rewrite !andb_true_iff, Hp in Hin. destruct Hin as [[_ Hin] _].
    cbn [negb orb] in Hin. apply andb_true_iff in Hin as [H1 H2]. apply bool_decide_eq_true in H1, H2. auto.
  - intros i Hin%list_elem_of_In Hk Hn. apply Hi in Hin. rewrite !andb_true_iff in Hin. destruct Hin as [_ Hin].
    rewrite bool_decide_eq_true_2, Hn in Hin by exact Hk. discriminate Hin.
Qed.

Lemma forward_preserves_witness :
  exists fn', forwardFieldLoadsIn sample_forward = Some fn' /\
    map (fun b => map (fun i => map vName (iArgs i)) (bInstrs b)) (fBlocks fn') =
      [[["%r"; "%p"]; ["%r"]; ["%p"; "3"]]; [["%r"]; ["%p"; "%p"]; ["%r"; "%d"]]; [["%r"]; ["%p"]; ["%r"]]; [["%r"]]] /\
    runFunction (machine := heapMachine) 5 fn' [7%Z; 2%Z] ([], []) = Returned (Some 4%Z) ([("S", "n", 7%Z, 4%Z); ("S", "n", 7%Z, 2%Z)], []) /\
    runFunction (machine := heapMachine) 5 fn' [7%Z; 5%Z] ([], []) = Returned (Some 5%Z) ([("S", "n", 7%Z, 5%Z)], [5%Z]).
Proof.
  destruct (forward_preserves (machine := heapMachine) (mkModule ∅ ∅ ∅ ∅ [sample_forward] ∅) ∅ sample_forward) as (fn' & H & _ & Hrun).
  - split; [apply verifyFunction_spec; vm_compute; reflexivity | | apply (bool_decide_unpack _); vm_compute; exact I |
      apply (bool_decide_unpack _); vm_compute; exact I].
    split; [apply (bool_decide_unpack _); vm_compute; exact I|].
    intros i Hi Hop. cbn in Hi. repeat (apply elem_of_cons in Hi as [->|Hi]; [discriminate|]). inversion Hi.
  - apply forwardableb_true. vm_compute. reflexivity.
  - intros i a Hi Hop Ha. cbn in Hi.
    repeat (apply elem_of_cons in Hi as [->|Hi]; [try discriminate; injection Ha as <-; reflexivity|]). inversion Hi.
  - exists fn'. split; [exact H|]. split; [vm_compute in H; injection H as <-; reflexivity|].
    split; (rewrite Hrun; vm_compute; [reflexivity | discriminate]).
Defined.
