(* ===== verification/Bounds.v ===== *)
(** * Bounds-check elimination ([internal/ir/bounds.go])

    Facts about indices and lengths flow down the dominator tree; a check they
    answer is dropped, and an Array operation whose check they answer becomes a
    borrow and an access through it.  A walk plans on the function as it is;
    the plan is then applied.  [None] is a panic or a bound that was reached.

    The Go code keys a plan by the instruction's address, here by its block and
    its place in it.  [copyFacts] is the sharing of a value. *)

From stdpp Require Import base list strings gmap.
From Stdlib Require Import ZArith Lia String.
From S2P Require Import Prelude GoStd IR Cfg Optimize Simplify Forward.

#[local] Open Scope string_scope.
#[local] Open Scope list_scope.

(** ** Facts and plans *)

(** [boundsFacts] *)
Record boundsFacts : Type := mkBoundsFacts {
  bfLess : gset (string * string);
  bfNonneg : gset string;
  bfLength : gmap string Value;
  bfViewLength : gmap string Value;
  bfChecked : gset (string * string)
}.

(** [newBoundsFacts] *)
Definition newBoundsFacts : boundsFacts := mkBoundsFacts ∅ ∅ ∅ ∅ ∅.

(** [forgetHeaders] *)
Definition forgetHeaders (f : boundsFacts) : boundsFacts :=
  mkBoundsFacts (bfLess f) (bfNonneg f) ∅ (bfViewLength f) ∅.

Definition addLess (x y : string) (f : boundsFacts) : boundsFacts :=
  mkBoundsFacts ({[(x, y)]} ∪ bfLess f) (bfNonneg f) (bfLength f) (bfViewLength f) (bfChecked f).
Definition addNonneg (x : string) (f : boundsFacts) : boundsFacts :=
  mkBoundsFacts (bfLess f) ({[x]} ∪ bfNonneg f) (bfLength f) (bfViewLength f) (bfChecked f).
Definition addChecked (key : string * string) (f : boundsFacts) : boundsFacts :=
  mkBoundsFacts (bfLess f) (bfNonneg f) (bfLength f) (bfViewLength f) ({[key]} ∪ bfChecked f).

(** [lengths[container] = value], in the map of the kind of length. *)
Definition addLength (view : bool) (container : string) (value : Value) (f : boundsFacts) : boundsFacts :=
  if view then mkBoundsFacts (bfLess f) (bfNonneg f) (bfLength f) (<[container := value]> (bfViewLength f)) (bfChecked f)
  else mkBoundsFacts (bfLess f) (bfNonneg f) (<[container := value]> (bfLength f)) (bfViewLength f) (bfChecked f).

(** An instruction of the function. *)
Abbreviation place := (nat * nat)%type.

(** [boundsPlan] *)
Record boundsPlan : Type := mkBoundsPlan {
  bpDrops : gset place;
  bpAnswered : gset place;
  bpAliases : replacements_map;
  bpUnsafeSteps : gset string
}.

Definition newPlan : boundsPlan := mkBoundsPlan ∅ ∅ ∅ ∅.

Definition addDrop (at_ : place) (p : boundsPlan) : boundsPlan :=
  mkBoundsPlan ({[at_]} ∪ bpDrops p) (bpAnswered p) (bpAliases p) (bpUnsafeSteps p).
Definition addAnswered (at_ : place) (p : boundsPlan) : boundsPlan :=
  mkBoundsPlan (bpDrops p) ({[at_]} ∪ bpAnswered p) (bpAliases p) (bpUnsafeSteps p).
Definition addAlias (name : string) (value : Value) (p : boundsPlan) : boundsPlan :=
  mkBoundsPlan (bpDrops p) (bpAnswered p) (<[name := value]> (bpAliases p)) (bpUnsafeSteps p).
Definition addUnsafe (names : list string) (p : boundsPlan) : boundsPlan :=
  mkBoundsPlan (bpDrops p) (bpAnswered p) (bpAliases p) (list_to_set names ∪ bpUnsafeSteps p).

(** ** Constants, steps and counters *)

(** [w.defs]: the instruction that computes each name. *)
Definition instrDefs (fn : Function) : gmap string Instr :=
  foldl (fun defs i => if String.eqb (vName (iResult i)) "" then defs else <[vName (iResult i) := i]> defs)
    ∅ (flat_map bInstrs (fBlocks fn)).

Section Counters.
Variable defs : gmap string Instr.

(** [constantValue] *)
Definition constantValue (value : Value) : option Z :=
  if negb (String.eqb (vType value) "i64") then None else
  match defs !! vName value with
  | Some i => if String.eqb (iOp i) "const" then ParseInt (iImmediate i) else None
  | None => ParseInt (vName value)
  end.

(** [nonNegativeConstant] *)
Definition nonNegativeConstant (value : Value) : bool :=
  match constantValue value with Some number => (0 <=? number)%Z | None => false end.

Definition isConstant (value : Value) (n : Z) : bool := bool_decide (constantValue value = Some n).

(** [stepOf] *)
Definition stepOf (value : Value) : option string :=
  match defs !! vName value with
  | Some i =>
      match iArgs i with
      | [a; b] =>
          if negb (String.eqb (iOp i) "binary.+") || negb (String.eqb (vType (iResult i)) "i64") then None
          else if isConstant b 1 then Some (vName a)
          else if isConstant a 1 then Some (vName b)
          else None
      | _ => None
      end
  | None => None
  end.

(** [countsUp] *)
Definition countsUp (counters : gset string) (phi : Instr) : bool :=
  forallb (fun incoming =>
    nonNegativeConstant (inValue incoming) ||
    match stepOf (inValue incoming) with Some from => bool_decide (from ∈ counters) | None => false end) (iIncoming phi).

(** [dropCounters] *)
Definition dropCounters (instrs : list Instr) (counters : gset string) : gset string * bool :=
  foldl (fun '(counters, changed) i =>
    if bool_decide (vName (iResult i) ∈ counters) && negb (countsUp counters i)
    then (counters ∖ {[vName (iResult i)]}, true) else (counters, changed)) (counters, false) instrs.

(** [for changed := true; changed;] *)
Fixpoint dropLoop (fuel : nat) (instrs : list Instr) (counters : gset string) : option (gset string) :=
  match fuel with
  | O => None
  | S fuel =>
      let '(counters, changed) := dropCounters instrs counters in
      if changed : bool then dropLoop fuel instrs counters else Some counters
  end.

(** The phis that may count. *)
Definition candidates (instrs : list Instr) (excluded : gset string) : gset string :=
  foldl (fun counters i =>
    if String.eqb (iOp i) "phi" && String.eqb (vType (iResult i)) "i64" && negb (bool_decide (vName (iResult i) ∈ excluded))
    then {[vName (iResult i)]} ∪ counters else counters) ∅ instrs.

(** The steps one instruction is fed by. *)
Definition addSteps (counters : gset string) (steps : gmap string (list string)) (i : Instr) : gmap string (list string) :=
  if negb (bool_decide (vName (iResult i) ∈ counters)) then steps else
  foldl (fun steps incoming =>
    match stepOf (inValue incoming) with
    | Some _ => <[vName (inValue incoming) := default [] (steps !! vName (inValue incoming)) ++ [vName (iResult i)]]> steps
    | None => steps
    end) steps (iIncoming i).

(** [loopCounters]: each round but the last drops a candidate. *)
Definition loopCounters (instrs : list Instr) (excluded : gset string)
    : option (gset string * gmap string (list string)) :=
  let first := candidates instrs excluded in
  counters ← dropLoop (S (base.size first)) instrs first;
  Some (counters, foldl (addSteps counters) ∅ instrs).
End Counters.

(** ** The walk *)

(** [leavesHeaders] *)
Definition leavesHeaders (op : string) : bool :=
  bool_decide (op ∈ ["cond_fail"; "array.set"; "array.swap"; "array.get_or_panic"; "slice.store"]) ||
  isPureOp op || HasPrefix op "field.ref.set.".

(** [negatedComparison] *)
Definition negatedComparison (op : string) : string :=
  if String.eqb op "binary.<" then "binary.>="
  else if String.eqb op "binary.>=" then "binary.<"
  else if String.eqb op "binary.>" then "binary.<="
  else if String.eqb op "binary.<=" then "binary.>"
  else "".

(** [hasUpperBound] *)
Definition hasUpperBound (f : boundsFacts) (name : string) : bool :=
  existsb (fun pair => String.eqb pair.1 name) (elements (bfLess f)).

(** [resolvedName] *)
Definition resolvedName (aliases : replacements_map) (name : string) : option string :=
  vName <$> resolve aliases (mkValue name "").

(** [boundsWalker], less the function and the plan. *)
Record boundsWalker : Type := mkBoundsWalker {
  bwDefs : gmap string Instr;
  bwCounter : gset string;
  bwSteps : gmap string (list string)
}.

Section Walk.
Variable w : boundsWalker.

(** [learnCondition] *)
Definition learnCondition (aliases : replacements_map) (facts : boundsFacts) (cond : Value) (holds : bool) : option boundsFacts :=
  match bwDefs w !! vName cond with
  | None => Some facts
  | Some i =>
      match iArgs i with
      | [a; b] =>
          if negb (String.eqb (vType a) "i64") then Some facts else
          x ← resolvedName aliases (vName a);
          y ← resolvedName aliases (vName b);
          let op := if holds then iOp i else negatedComparison (iOp i) in
          Some (if String.eqb op "binary.<" then addLess x y facts
                else if String.eqb op "binary.>" then addLess y x facts
                else if String.eqb op "binary.>=" then if nonNegativeConstant (bwDefs w) b then addNonneg x facts else facts
                else if String.eqb op "binary.<=" then if nonNegativeConstant (bwDefs w) a then addNonneg y facts else facts
                else facts)
      | _ => Some facts
      end
  end.

(** [learnEdge] *)
Definition learnEdge (aliases : replacements_map) (facts : boundsFacts) (term : Terminator) (target : string) : option boundsFacts :=
  if negb (String.eqb (tOp term) "branch") || String.eqb (tTarget term) (tElse term) then Some facts
  else learnCondition aliases facts (tCond term) (String.eqb (tTarget term) target).

(** [nonNegative] *)
Definition nonNegative (aliases : replacements_map) (facts : boundsFacts) (value : Value) : option bool :=
  name ← resolvedName aliases (vName value);
  Some (bool_decide (name ∈ bfNonneg facts) || bool_decide (name ∈ bwCounter w) || nonNegativeConstant (bwDefs w) value ||
        match bwDefs w !! name with
        | Some i => String.eqb (iOp i) "array.len" || String.eqb (iOp i) "slice.len"
        | None => false
        end).

(** What the failing condition of a check compares. *)
Definition comparison (cond : Value) : option (string * Value * Value) :=
  match bwDefs w !! vName cond with
  | Some i => match iArgs i with
              | [a; b] => if String.eqb (vType a) "i64" then Some (iOp i, a, b) else None
              | _ => None
              end
  | None => None
  end.

(** Whether the condition cannot hold. *)
Definition cannotFail (aliases : replacements_map) (facts : boundsFacts) (cond : Value) : option bool :=
  match comparison cond with
  | None => Some false
  | Some (op, a, b) =>
      if String.eqb op "binary.<" then
        if isConstant (bwDefs w) b 0 then nonNegative aliases facts a else Some false
      else if String.eqb op "binary.>=" then
        x ← resolvedName aliases (vName a);
        y ← resolvedName aliases (vName b);
        Some (bool_decide ((x, y) ∈ bfLess facts))
      else Some false
  end.

(** [visitCondFail] *)
Definition visitCondFail (at_ : place) (facts : boundsFacts) (plan : boundsPlan) (i : Instr) : option (boundsFacts * boundsPlan) :=
  match iArgs i with
  | [] => Some (facts, plan)
  | cond :: _ =>
      answered ← cannotFail (bpAliases plan) facts cond;
      if answered : bool then Some (facts, addDrop at_ plan)
      else facts ← learnCondition (bpAliases plan) facts cond false; Some (facts, plan)
  end.

(** [visitLength] *)
Definition visitLength (facts : boundsFacts) (plan : boundsPlan) (i : Instr) : boundsFacts * boundsPlan :=
  match iArgs i with
  | [a] =>
      let view := String.eqb (iOp i) "slice.len" in
      let record := (addLength view (vName a) (iResult i) facts, plan) in
      match (if view then bfViewLength facts else bfLength facts) !! vName a with
      | Some known =>
          if String.eqb (vType known) (vType (iResult i)) then (facts, addAlias (vName (iResult i)) known plan) else record
      | None => record
      end
  | _ => (facts, plan)
  end.

(** Whether the check of an Array operation is answered. *)
Definition answersCheck (aliases : replacements_map) (facts : boundsFacts) (array index : Value) : option bool :=
  if bool_decide ((vName array, vName index) ∈ bfChecked facts) then Some true else
  positive ← nonNegative aliases facts index;
  if negb positive then Some false else
  match bfLength facts !! vName array with
  | None => Some false
  | Some length =>
      x ← resolvedName aliases (vName index);
      y ← resolvedName aliases (vName length);
      Some (bool_decide ((x, y) ∈ bfLess facts))
  end.

(** [visitArrayCheck] *)
Definition visitArrayCheck (at_ : place) (facts : boundsFacts) (plan : boundsPlan) (i : Instr) : option (boundsFacts * boundsPlan) :=
  match iArgs i with
  | array :: index :: _ =>
      answered ← answersCheck (bpAliases plan) facts array index;
      let plan := if answered && HasPrefix (vType array) "&" then addAnswered at_ plan else plan in
      let facts := if String.eqb (iOp i) "array.get_or_panic" || String.eqb (iOp i) "array.set"
                   then addChecked (vName array, vName index) facts else facts in
      Some (facts, plan)
  | _ => Some (facts, plan)
  end.

(** The counters a step is taken for without a bound. *)
Definition unboundedSteps (facts : boundsFacts) (i : Instr) : list string :=
  if negb (String.eqb (iOp i) "binary.+") then [] else
  match default [] (bwSteps w !! vName (iResult i)) with
  | [] => []
  | fed => if hasUpperBound facts (default "" (stepOf (bwDefs w) (iResult i))) then [] else fed
  end.

(** [visit] *)
Definition visit (at_ : place) (facts : boundsFacts) (plan : boundsPlan) (i : Instr) : option (boundsFacts * boundsPlan) :=
  if String.eqb (iOp i) "cond_fail" then visitCondFail at_ facts plan i
  else if bool_decide (iOp i ∈ ["array.len"; "slice.len"]) then Some (visitLength facts plan i)
  else if bool_decide (iOp i ∈ ["array.get_or_panic"; "array.set"; "array.at"; "array.at_mut"]) then visitArrayCheck at_ facts plan i
  else
    let plan := addUnsafe (unboundedSteps facts i) plan in
    Some (if negb (leavesHeaders (iOp i)) then forgetHeaders facts else facts, plan).

(** The loop over a block's instructions in [walk]. *)
Fixpoint visitAll (block step : nat) (facts : boundsFacts) (plan : boundsPlan) (instrs : list Instr)
    : option (boundsFacts * boundsPlan) :=
  match instrs with
  | [] => Some (facts, plan)
  | i :: rest =>
      '(facts, plan) ← visit (block, step) facts plan i;
      visitAll block (S step) facts plan rest
  end.
End Walk.

(** The stack walk of [pathsMayWriteHeaders]; the top of the stack comes first. *)
Fixpoint writesWalk (fuel : nat) (blocks : list Block) (preds : list (list nat)) (position idom : nat)
    (visited : gset nat) (stack : list nat) : option bool :=
  match stack with
  | [] => Some false
  | block :: stack =>
      match fuel with
      | O => None
      | S fuel =>
          if decide (block = idom \/ block ∈ visited)
          then writesWalk fuel blocks preds position idom visited stack
          else
            let visited := {[block]} ∪ visited in
            if decide (forwardVisitLimit < base.size visited) then Some true
            else
              b ← blocks !! block;
              if existsb (fun i => negb (leavesHeaders (iOp i))) (bInstrs b) then Some true
              else if decide (block = position)
              then writesWalk fuel blocks preds position idom visited stack
              else
                more ← preds !! block;
                writesWalk fuel blocks preds position idom visited (reverse more ++ stack)
      end
  end.

(** [pathsMayWriteHeaders]: a block's predecessors are pushed once. *)
Definition pathsMayWriteHeaders (fn : Function) (preds : list (list nat)) (position idom : nat) : option bool :=
  ps ← preds !! position;
  writesWalk (List.length ps + List.length (List.concat preds)) (fBlocks fn) preds position idom ∅ (reverse ps).

(** What a block starts with, from the end of its immediate dominator. *)
Definition entryFacts (w : boundsWalker) (fn : Function) (preds : list (list nat)) (aliases : replacements_map)
    (position idom : nat) (from : boundsFacts) : option boundsFacts :=
  ps ← preds !! position;
  b ← fBlocks fn !! position;
  d ← fBlocks fn !! idom;
  if decide (ps = [idom]) then learnEdge w aliases from (bTerminator d) (bName b)
  else
    writes ← pathsMayWriteHeaders fn preds position idom;
    Some (if writes : bool then forgetHeaders from else from).

(** The loop of [walk]: the facts at the ends of the blocks so far, and the
    plan. *)
Fixpoint walkBlocks (w : boundsWalker) (fn : Function) (preds : list (list nat)) (idom : list (option nat)) (order : list nat)
    (index : nat) (positions : list nat) (st : list boundsFacts * boundsPlan) : option (list boundsFacts * boundsPlan) :=
  match positions with
  | [] => Some st
  | position :: positions =>
      let (ends, plan) := st in
      facts ← (if (0 <? index)%nat then
        up ← Cfg.parent idom index;
        d ← order !! up;
        from ← ends !! d;
        entryFacts w fn preds (bpAliases plan) position d from
      else Some newBoundsFacts);
      b ← fBlocks fn !! position;
      '(facts, plan) ← visitAll w position 0 facts plan (bInstrs b);
      walkBlocks w fn preds idom order (S index) positions (<[position := facts]> ends, plan)
  end.

(** [walk] *)
Definition walk (w : boundsWalker) (fn : Function) (preds : list (list nat)) (idom : list (option nat)) (order : list nat)
    : option boundsPlan :=
  snd <$> walkBlocks w fn preds idom order 0 order (replicate (List.length (fBlocks fn)) newBoundsFacts, newPlan).

(** The loop of [eliminateBoundsChecksIn]: each round but the last excludes a
    counter more. *)
Fixpoint planLoop (fuel : nat) (fn : Function) (preds : list (list nat)) (idom : list (option nat)) (order : list nat)
    (excluded : gset string) : option (boundsWalker * boundsPlan) :=
  match fuel with
  | O => None
  | S fuel =>
      let instrs := flat_map bInstrs (fBlocks fn) in
      '(counters, steps) ← loopCounters (instrDefs fn) instrs excluded;
      let w := mkBoundsWalker (instrDefs fn) counters steps in
      plan ← walk w fn preds idom order;
      if decide (bpUnsafeSteps plan = ∅) then Some (w, plan)
      else planLoop fuel fn preds idom order (bpUnsafeSteps plan ∪ excluded)
  end.

(** ** Applying a plan *)

Definition elementType (array : Value) : string :=
  TrimSuffix (TrimPrefix (derefType (vType array)) "std::array::Array<") ">".

(** [answeredAccess]: the instructions, and whether the result is a borrow that
    is present. *)
Definition answeredAccess (i : Instr) (prefix : string) : option (list Instr * bool) :=
  match iArgs i with
  | array :: index :: rest =>
      let elem := elementType array in
      if String.eqb (iOp i) "array.at" || String.eqb (iOp i) "array.at_mut" then Some ([i], true)
      else if String.eqb (iOp i) "array.get_or_panic" then
        let borrow := mkValue (prefix +:+ "at") ("?&" +:+ elem) in
        let ref := mkValue (prefix +:+ "ref") ("&" +:+ elem) in
        Some ([instr borrow "array.at" [array; index] ""; instr ref "opt.value" [borrow] "";
               instr (iResult i) "ref.load" [ref] ""], false)
      else
        match rest with
        | value :: _ =>
            let borrow := mkValue (prefix +:+ "at") ("?&var " +:+ elem) in
            let ref := mkValue (prefix +:+ "ref") ("&var " +:+ elem) in
            Some ([instr borrow "array.at_mut" [array; index] ""; instr ref "opt.value" [borrow] "";
                   instr (mkValue "" "void") "ref.store" [ref; value] ""; instr (iResult i) "error.ok" [] ""], false)
        | [] => None
        end
  | _ => None
  end.

(** What [applyBoundsPlan] has counted and found present so far. *)
Definition sites : Type := nat * gset string.

Definition sitePrefix (site : nat) : string := "%bce" +:+ FormatInt (Z.of_nat site) +:+ ".".

(** What one instruction becomes: nothing, itself, or an access whose check is
    answered. *)
Definition applyInstr (plan : boundsPlan) (at_ : place) (st : sites) (i : Instr) : option (list Instr * sites) :=
  if bool_decide (at_ ∈ bpDrops plan) then Some ([], st)
  else if negb (bool_decide (at_ ∈ bpAnswered plan)) then Some ([i], st)
  else
    let site := S st.1 in
    '(out, borrowed) ← answeredAccess i (sitePrefix site);
    Some (out, (site, if borrowed : bool then {[vName (iResult i)]} ∪ st.2 else st.2)).

(** The loop over a block's instructions. *)
Fixpoint applyInstrs (plan : boundsPlan) (block step : nat) (st : sites) (instrs : list Instr) : option (list Instr * sites) :=
  match instrs with
  | [] => Some ([], st)
  | i :: rest =>
      '(out, st) ← applyInstr plan (block, step) st i;
      '(more, st) ← applyInstrs plan block (S step) st rest;
      Some (out ++ more, st)
  end.

Fixpoint applyBlocks (plan : boundsPlan) (block : nat) (st : sites) (blocks : list Block) : option (list Block * sites) :=
  match blocks with
  | [] => Some ([], st)
  | b :: rest =>
      '(instrs, st) ← applyInstrs plan block 0 st (bInstrs b);
      '(more, st) ← applyBlocks plan (S block) st rest;
      Some (mkBlock (bName b) instrs (bTerminator b) :: more, st)
  end.

(** The last loop: whether a present borrow is there is known. *)
Definition knownPresent (present : gset string) (i : Instr) : Instr :=
  match iArgs i with
  | [a] =>
      if String.eqb (iOp i) "opt.has" && bool_decide (vName a ∈ present)
      then mkInstr (iResult i) "const" [] (iExternABI i) (iExternName i) (iCallParams i) (iVariadicFixed i) "true"
             (iFields i) (iIncoming i) (iCleanups i) (iSpan i)
      else i
  | _ => i
  end.

(** [applyBoundsPlan] *)
Definition applyBoundsPlan (fn : Function) (plan : boundsPlan) : option Function :=
  blocks ← (if decide (base.size (bpAliases plan) = 0) then Some (fBlocks fn)
            else replaceFunctionValues (fBlocks fn) (bpAliases plan));
  '(blocks, (_, present)) ← applyBlocks plan 0 (0, ∅) blocks;
  Some (set_fBlocks (fun _ =>
    if decide (base.size present = 0) then blocks
    else map (fun b => mkBlock (bName b) (map (knownPresent present) (bInstrs b)) (bTerminator b)) blocks) fn).

(** The phis a counter can be among. *)
Definition counterBound (fn : Function) : nat := S (base.size (candidates (flat_map bInstrs (fBlocks fn)) ∅)).

(** [eliminateBoundsChecksIn] *)
Definition eliminateBoundsChecksIn (fn : Function) : option Function :=
  match fBlocks fn with
  | [] => Some fn
  | _ =>
      let preds := blockPredecessors fn (blockIndex fn) in
      tree ← buildDominatorTree fn preds;
      '(_, plan) ← planLoop (counterBound fn) fn preds (idom tree) (reversePostorder fn) ∅;
      if decide (base.size (bpDrops plan) = 0 /\ base.size (bpAnswered plan) = 0 /\ base.size (bpAliases plan) = 0)
      then Some fn else applyBoundsPlan fn plan
  end.

(** [EliminateBoundsChecks] *)
Definition EliminateBoundsChecks (m : Module_) : option Module_ :=
  fns ← mapM eliminateBoundsChecksIn (mFunctions m);
  Some (set_mFunctions (fun _ => fns) m).
