(* ===== verification/BoundsFacts.v ===== *)
(** * What the bounds walk records ([internal/ir/bounds.go])

    A fact of the walk is an atom: an order, a sign, a length, a passed check.
    What an instruction or an edge teaches is justified by the instruction that
    computes the condition, under the aliases made so far; the walk never
    fails, and leaves for every reachable point the atoms known there, for
    every block where its first atoms come from, and for every drop, answer and
    alias of the plan the atoms that justify it. *)

From stdpp Require Import base list strings gmap.
From Stdlib Require Import ZArith Lia String.
From S2P Require Import Prelude GoStd IR Cfg Dominators CfgFacts Verify VerifyFacts Optimize Dce Ssa.
From S2P Require Import Simplify Available Forward Bounds.

#[local] Open Scope string_scope.
#[local] Open Scope list_scope.

(** ** Blocks that leave headers *)

Definition quiet (fn : Function) (p : nat) : Prop := forall s i, instrAt fn p s i -> leavesHeaders (iOp i) = true.

Lemma quiet_block fn p b : fBlocks fn !! p = Some b ->
  existsb (fun i => negb (leavesHeaders (iOp i))) (bInstrs b) = false -> quiet fn p.
Proof.
  intros Hb He s i (c & Hc & Hi). assert (c = b) as -> by congruence.
  destruct (leavesHeaders (iOp i)) eqn:Hl; [reflexivity|]. exfalso. apply not_true_iff_false in He. apply He.
  apply existsb_exists. exists i. split; [apply list_elem_of_In; eapply list_elem_of_lookup_2, Hi | rewrite Hl; reflexivity].
Qed.

Section Writes.
Context (fn : Function) (position idom : nat).

Abbreviation preds := (blockPredecessors fn (blockIndex fn)).
Abbreviation n := (List.length (fBlocks fn)).

Context (Hposition : position < n).

Record writesInv (visited : gset nat) (stack : list nat) : Prop := mkWritesInv {
  wi_bound : forall q, q ∈ stack -> q < n;
  wi_quiet : forall q, q ∈ visited -> quiet fn q;
  wi_closed : forall q r, q = position \/ q ∈ visited -> q ∈ succs fn r -> r = idom \/ r ∈ visited \/ r ∈ stack
}.

Lemma writesInv_skip visited block stack :
  block = idom \/ block ∈ visited -> writesInv visited (block :: stack) -> writesInv visited stack.
Proof.
  intros Hb [H1 H2 H3]. split; [intros q Hq; apply H1; right; exact Hq | exact H2|].
  intros q r Hq Hr. destruct (H3 q r Hq Hr) as [H|[H|[->|H]%elem_of_cons]]; [auto | auto | | auto]. destruct Hb; auto.
Qed.

Lemma writesInv_visit visited block stack ps :
  writesInv visited (block :: stack) -> quiet fn block -> preds !! block = Some ps ->
  writesInv ({[block]} ∪ visited) ((if decide (block = position) then [] else reverse ps) ++ stack).
Proof.
  intros [H1 H2 H3] Hq Hps. pose proof (H1 block ltac:(left)) as Hn.
  destruct (preds_some fn block Hn) as (ps' & Hps' & Hiff). assert (ps' = ps) as -> by congruence. split.
  - intros q [Hin|Hin]%elem_of_app; [|apply H1; right; exact Hin]. case_decide; [inversion Hin|].
    apply elem_of_reverse, Hiff in Hin. apply (succs_bound fn q block) in Hin. apply Hin.
  - intros q [->%elem_of_singleton|Hin]%elem_of_union; auto.
  - intros q r Hin Hr.
    assert (Hold : q = position \/ q ∈ visited -> r = idom \/ r ∈ {[block]} ∪ visited \/ r ∈ (if decide (block = position) then [] else reverse ps) ++ stack).
    { intros Hin'. destruct (H3 q r Hin' Hr) as [H|[H|[->|H]%elem_of_cons]]; [auto | set_solver | set_solver | right; right; apply elem_of_app; auto]. }
    destruct Hin as [Hin|[->%elem_of_singleton|Hin]%elem_of_union]; [auto | | auto].
    case_decide as Hp; [subst; auto|]. right. right. apply elem_of_app. left. apply elem_of_reverse, Hiff, Hr.
Qed.

Lemma writesInv_end visited : writesInv visited [] -> forall q, between (succs fn) idom position q -> quiet fn q.
Proof.
  intros [_ H2 H3] q Hq. apply H2. induction Hq as [b Hb Hne|b b' _ IH Hb Hne].
  - destruct (H3 position b (or_introl eq_refl) Hb) as [H|[H|H]]; [contradiction | exact H | inversion H].
  - destruct (H3 b' b (or_intror IH) Hb) as [H|[H|H]]; [contradiction | exact H | inversion H].
Qed.

Lemma writesWalk_spec fuel : forall visited stack,
  writesInv visited stack -> List.length stack + weight visited 0 preds <= fuel ->
  exists r, writesWalk fuel (fBlocks fn) preds position idom visited stack = Some r /\
    (r = false -> forall q, between (succs fn) idom position q -> quiet fn q).
Proof.
  induction fuel as [|fuel IH]; intros visited stack I Hf; destruct stack as [|block stack]; cbn [writesWalk];
    try (exists false; split; [reflexivity | intros _; exact (writesInv_end _ I)]); [cbn in Hf; lia|].
  cbn [List.length] in Hf. case_decide as Hskip; [apply IH; [eapply writesInv_skip; eauto | lia]|].
  assert (Htrue : exists r, Some true = Some r /\ (r = false -> forall q, between (succs fn) idom position q -> quiet fn q)).
  { exists true. split; [reflexivity | discriminate]. }
  case_decide; [exact Htrue|].
  pose proof (wi_bound _ _ I block ltac:(left)) as Hn. destruct (lookup_lt_is_Some_2 (fBlocks fn) block Hn) as [b Hb].
  rewrite Hb. cbn [mbind option_bind]. destruct (existsb _ (bInstrs b)) eqn:Hw; [exact Htrue|].
  destruct (preds_some fn block Hn) as (ps & Hps & _).
  pose proof (writesInv_visit visited block stack ps I (quiet_block fn block b Hb Hw) Hps) as I'.
  pose proof (weight_visit visited block 0 preds ps Hps ltac:(cbn; tauto)) as Hwt. cbn [Nat.add] in Hwt.
  case_decide as Hp.
  - apply IH; [exact I' | lia].
  - rewrite Hps. cbn [mbind option_bind]. apply IH; [exact I'|]. rewrite length_app, length_reverse. lia.
Qed.

Lemma pathsMayWriteHeaders_spec : exists r, pathsMayWriteHeaders fn preds position idom = Some r /\
  (r = false -> forall q, between (succs fn) idom position q -> quiet fn q).
Proof.
  unfold pathsMayWriteHeaders. destruct (preds_some fn position Hposition) as (ps & Hps & Hiff). rewrite Hps. cbn [mbind option_bind].
  apply writesWalk_spec; [|rewrite length_reverse, weight_none; lia]. split.
  - intros q Hq%elem_of_reverse%Hiff. apply (succs_bound fn q position), Hq.
  - intros q Hq. set_solver.
  - intros q r [->|Hq] Hr; [|set_solver]. right. right. apply elem_of_reverse, Hiff, Hr.
Qed.
End Writes.

(** ** Atoms *)

Inductive atom : Type :=
  | ALess (x y : string)
  | ANonneg (x : string)
  | ALength (view : bool) (container : string) (v : Value)
  | AChecked (array index : string).

Definition knows (f : boundsFacts) (a : atom) : Prop :=
  match a with
  | ALess x y => (x, y) ∈ bfLess f
  | ANonneg x => x ∈ bfNonneg f
  | ALength view c v => (if view : bool then bfViewLength f else bfLength f) !! c = Some v
  | AChecked array index => (array, index) ∈ bfChecked f
  end.

Definition aboutHeader (a : atom) : bool :=
  match a with ALength false _ _ | AChecked _ _ => true | _ => false end.

Definition atomNames (a : atom) : list string :=
  match a with
  | ALess x y => [x; y]
  | ANonneg x => [x]
  | ALength _ c v => [c; vName v]
  | AChecked array index => [array; index]
  end.

Lemma knows_new a : ~ knows newBoundsFacts a.
Proof. destruct a as [| |[]|]; cbn; rewrite ?lookup_empty; set_solver. Qed.

Lemma knows_forget f a : knows (forgetHeaders f) a -> knows f a /\ aboutHeader a = false.
Proof. destruct a as [| |[]|]; cbn; rewrite ?lookup_empty; try (split; [assumption | reflexivity]); [discriminate | set_solver]. Qed.

Lemma knows_less f x y a : knows (addLess x y f) a -> knows f a \/ a = ALess x y.
Proof. destruct a as [x' y'| |[]|]; cbn; auto. rewrite elem_of_union, elem_of_singleton. intros [[= -> ->]|H]; auto. Qed.

Lemma knows_nonneg f x a : knows (addNonneg x f) a -> knows f a \/ a = ANonneg x.
Proof. destruct a as [|x'|[]|]; cbn; auto. rewrite elem_of_union, elem_of_singleton. intros [->|H]; auto. Qed.

Lemma knows_checked f key a : knows (addChecked key f) a -> knows f a \/ a = AChecked key.1 key.2.
Proof. destruct a as [| |[]|x y]; cbn; auto. rewrite elem_of_union, elem_of_singleton. intros [<-|H]; auto. Qed.

Lemma knows_length f view c v a : knows (addLength view c v f) a -> knows f a \/ a = ALength view c v.
Proof.
  destruct view, a as [| |[] c' v'|]; cbn; auto; rewrite lookup_insert_Some; intros [[<- <-]|[_ H]]; auto.
Qed.

(** ** The instruction that computes a name *)

Lemma elem_instrsOf fn i : i ∈ instrsOf (fBlocks fn) -> exists p s, instrAt fn p s i.
Proof.
  intros Hi%list_elem_of_In. unfold instrsOf in Hi. apply in_flat_map in Hi as (b & Hb%list_elem_of_In & Hi%list_elem_of_In).
  apply list_elem_of_lookup in Hb as [p Hb], Hi as [s Hi]. exists p, s, b. auto.
Qed.

Lemma instrDefs_some fn x i : instrDefs fn !! x = Some i -> x <> "" /\ resultName i = x /\ exists p s, instrAt fn p s i.
Proof.
  assert (H : forall l (acc : gmap string Instr), (forall j, acc !! x = Some j -> x <> "" /\ resultName j = x /\ j ∈ instrsOf (fBlocks fn)) ->
    (forall j, j ∈ l -> j ∈ instrsOf (fBlocks fn)) ->
    forall j, foldl (fun defs i => if String.eqb (vName (iResult i)) "" then defs else <[vName (iResult i) := i]> defs) acc l !! x = Some j ->
    x <> "" /\ resultName j = x /\ j ∈ instrsOf (fBlocks fn)).
  { induction l as [|k l IH]; intros acc Hacc Hl j; cbn [foldl]; [apply Hacc|]. apply IH; [|intros; apply Hl; right; assumption].
    intros j' Hj'. destruct (String.eqb_spec (vName (iResult k)) ""); [apply Hacc, Hj'|].
    apply lookup_insert_Some in Hj' as [[<- <-]|[_ Hj']]; [|apply Hacc, Hj'].
    split; [assumption|]. split; [reflexivity|]. apply Hl. left. }
  intros Hx. destruct (H (flat_map bInstrs (fBlocks fn)) ∅) with (j := i) as (H1 & H2 & H3); [| auto | exact Hx |].
  - intros j Hj. rewrite lookup_empty in Hj. discriminate.
  - split; [exact H1|]. split; [exact H2|]. apply elem_instrsOf, H3.
Qed.

Lemma instrDefs_at module params fn p s i : sound module params fn -> instrAt fn p s i -> resultName i <> "" ->
  instrDefs fn !! resultName i = Some i.
Proof.
  intros Hsound Hi Hne.
  assert (Hsome : forall l (acc : gmap string Instr), i ∈ l \/ is_Some (acc !! resultName i) ->
    is_Some (foldl (fun defs i => if String.eqb (vName (iResult i)) "" then defs else <[vName (iResult i) := i]> defs) acc l !! resultName i)).
  { induction l as [|k l IH]; intros acc [H|H]; cbn [foldl]; [inversion H | exact H | |]; apply IH.
    - apply elem_of_cons in H as [<-|H]; [|auto]. right. unfold resultName in *.
      rewrite (proj2 (String.eqb_neq _ _) Hne), lookup_insert_eq. eauto.
    - right. destruct (String.eqb _ ""); [exact H|]. destruct (decide (vName (iResult k) = resultName i)) as [->|E].
      + rewrite lookup_insert_eq. eauto.
      + rewrite lookup_insert_ne by exact E. exact H. }
  destruct (Hsome (flat_map bInstrs (fBlocks fn)) ∅) as [j Hj]; [left; eapply instrAt_in, Hi|].
  change (instrDefs fn !! resultName i = Some j) in Hj. rewrite Hj. f_equal.
  destruct (instrDefs_some fn _ _ Hj) as (_ & Hn & q & t & Hq).
  pose proof (defs_at module params fn Hsound p s i Hi Hne) as D1.
  pose proof (defs_at module params fn Hsound q t j Hq ltac:(congruence)) as D2. rewrite Hn, D1 in D2. injection D2 as <- <-.
  eapply instrAt_fun; eassumption.
Qed.

(** ** What justifies an atom and a step of the plan *)

(** The name, or the one its alias stands for. *)
Definition standsFor (K : replacements_map) (x y : string) : Prop := y = x \/ exists e, K !! x = Some e /\ y = vName e.

Lemma standsFor_mono K K' x y : K ⊆ K' -> standsFor K x y -> standsFor K' x y.
Proof. intros Hs [->|(e & He & ->)]; [left; reflexivity | right; exists e; split; [eapply lookup_weaken; eassumption | reflexivity]]. Qed.

Lemma resolvedName_flat K x : flat K -> exists y, resolvedName K x = Some y /\ standsFor K x y.
Proof.
  intros Hflat. unfold resolvedName. rewrite resolve_flat by exact Hflat. cbn [fmap option_fmap option_map]. eexists. split; [reflexivity|].
  unfold replaced. cbn [vName]. destruct (K !! x) as [e|] eqn:He; [right; exists e; auto | left; reflexivity].
Qed.

Section Justified.
Context (w : boundsWalker) (K : replacements_map).

(** What a condition being [holds] says. *)
Definition says (cond : Value) (holds : bool) (a : atom) : Prop :=
  exists i x y x' y', bwDefs w !! vName cond = Some i /\ iArgs i = [x; y] /\ vType x = "i64" /\
    standsFor K (vName x) x' /\ standsFor K (vName y) y' /\
    let op := if holds then iOp i else negatedComparison (iOp i) in
    (op = "binary.<" /\ a = ALess x' y') \/ (op = "binary.>" /\ a = ALess y' x') \/
    (op = "binary.>=" /\ nonNegativeConstant (bwDefs w) y = true /\ a = ANonneg x') \/
    (op = "binary.<=" /\ nonNegativeConstant (bwDefs w) x = true /\ a = ANonneg y').

(** The operations whose check an Array operation carries. *)
Definition accesses : list string := ["array.get_or_panic"; "array.set"; "array.at"; "array.at_mut"].

(** What an instruction that ran teaches. *)
Definition learns (i : Instr) (a : atom) : Prop :=
  (iOp i = "cond_fail" /\ exists c rest, iArgs i = c :: rest /\ says c false a) \/
  (iOp i ∈ ["array.len"; "slice.len"] /\ exists c, iArgs i = [c] /\ a = ALength (String.eqb (iOp i) "slice.len") (vName c) (iResult i)) \/
  (iOp i ∈ ["array.get_or_panic"; "array.set"] /\ exists array index rest, iArgs i = array :: index :: rest /\
     a = AChecked (vName array) (vName index)).

Definition positive (f : boundsFacts) (v : Value) : Prop :=
  exists x, standsFor K (vName v) x /\
    (x ∈ bfNonneg f \/ x ∈ bwCounter w \/ nonNegativeConstant (bwDefs w) v = true \/
     exists i, bwDefs w !! x = Some i /\ iOp i ∈ ["array.len"; "slice.len"]).

Definition below (f : boundsFacts) (x y : string) : Prop :=
  exists x' y', standsFor K x x' /\ standsFor K y y' /\ (x', y') ∈ bfLess f.

(** The condition of a dropped check cannot hold. *)
Definition refuted (f : boundsFacts) (i : Instr) : Prop :=
  iOp i = "cond_fail" /\ exists c rest op a b, iArgs i = c :: rest /\ comparison w c = Some (op, a, b) /\
    ((op = "binary.<" /\ isConstant (bwDefs w) b 0 = true /\ positive f a) \/
     (op = "binary.>=" /\ below f (vName a) (vName b))).

(** The index of an answered access is in range. *)
Definition inRange (f : boundsFacts) (array index : Value) : Prop :=
  (vName array, vName index) ∈ bfChecked f \/
  positive f index /\ exists len, bfLength f !! vName array = Some len /\ below f (vName index) (vName len).

Definition accessed (f : boundsFacts) (i : Instr) : Prop :=
  iOp i ∈ accesses /\ exists array index rest, iArgs i = array :: index :: rest /\ HasPrefix (vType array) "&" = true /\ inRange f array index.

(** An alias names the length known of the same container. *)
Definition aliased (f : boundsFacts) (i : Instr) (e : Value) : Prop :=
  iOp i ∈ ["array.len"; "slice.len"] /\ vType e = vType (iResult i) /\
  exists c, iArgs i = [c] /\ knows f (ALength (String.eqb (iOp i) "slice.len") (vName c) e).
End Justified.

Lemma says_mono w K K' c h a : K ⊆ K' -> says w K c h a -> says w K' c h a.
Proof.
  intros Hs (i & x & y & x' & y' & H1 & H2 & H3 & H4 & H5 & H6). exists i, x, y, x', y'.
  split_and!; eauto using standsFor_mono.
Qed.

Lemma learns_mono w K K' i a : K ⊆ K' -> learns w K i a -> learns w K' i a.
Proof.
  intros Hs [(H1 & c & rest & H2 & H3)|H]; [left | right; exact H]. split; [exact H1|]. exists c, rest. eauto using says_mono.
Qed.

Lemma positive_mono w K K' f v : K ⊆ K' -> positive w K f v -> positive w K' f v.
Proof. intros Hs (x & H1 & H2). exists x. eauto using standsFor_mono. Qed.

Lemma below_mono K K' f x y : K ⊆ K' -> below K f x y -> below K' f x y.
Proof. intros Hs (x' & y' & H1 & H2 & H3). exists x', y'. eauto using standsFor_mono. Qed.

Lemma refuted_mono w K K' f i : K ⊆ K' -> refuted w K f i -> refuted w K' f i.
Proof.
  intros Hs (H1 & c & rest & op & a & b & H2 & H3 & H4). split; [exact H1|]. exists c, rest, op, a, b. split; [exact H2|]. split; [exact H3|].
  destruct H4 as [(G1 & G2 & G3)|(G1 & G2)]; [left | right]; eauto using positive_mono, below_mono.
Qed.

Lemma inRange_mono w K K' f array index : K ⊆ K' -> inRange w K f array index -> inRange w K' f array index.
Proof.
  intros Hs [H|(H1 & len & H2 & H3)]; [left; exact H | right]. split; [eauto using positive_mono|]. exists len. eauto using below_mono.
Qed.

Lemma accessed_mono w K K' f i : K ⊆ K' -> accessed w K f i -> accessed w K' f i.
Proof.
  intros Hs (H1 & array & index & rest & H2 & H3 & H4). split; [exact H1|]. exists array, index, rest. eauto using inRange_mono.
Qed.

(** ** The visits, under flat aliases *)

Section Visits.
Context (w : boundsWalker).

Lemma learnCondition_spec K f c h : flat K -> exists f', learnCondition w K f c h = Some f' /\
  forall a, knows f' a -> knows f a \/ says w K c h a.
Proof.
  intros Hflat. assert (Hsame : exists f', Some f = Some f' /\ forall a, knows f' a -> knows f a \/ says w K c h a) by (exists f; auto).
  unfold learnCondition. destruct (bwDefs w !! vName c) as [i|] eqn:Hd; [|exact Hsame].
  destruct (iArgs i) as [|x [|y [|]]] eqn:Ha; try exact Hsame. destruct (String.eqb_spec (vType x) "i64") as [Ht|]; [|exact Hsame].
  destruct (resolvedName_flat K (vName x) Hflat) as (x' & -> & Hx). destruct (resolvedName_flat K (vName y) Hflat) as (y' & -> & Hy).
  cbn [negb mbind option_bind]. eexists. split; [reflexivity|]. intros a.
  assert (Hsays : forall P : Prop, P -> (P -> let op := if h then iOp i else negatedComparison (iOp i) in
    (op = "binary.<" /\ a = ALess x' y') \/ (op = "binary.>" /\ a = ALess y' x') \/
    (op = "binary.>=" /\ nonNegativeConstant (bwDefs w) y = true /\ a = ANonneg x') \/
    (op = "binary.<=" /\ nonNegativeConstant (bwDefs w) x = true /\ a = ANonneg y')) -> says w K c h a).
  { intros P HP Himp. exists i, x, y, x', y'. auto 10. }
  cbn zeta in Hsays. set (op := if h then iOp i else negatedComparison (iOp i)) in *.
  destruct (String.eqb_spec op "binary.<") as [E|]; [intros [H|H]%knows_less; [auto | right; apply (Hsays _ H); auto]|].
  destruct (String.eqb_spec op "binary.>") as [E|]; [intros [H|H]%knows_less; [auto | right; apply (Hsays _ H); auto]|].
  destruct (String.eqb_spec op "binary.>=") as [E|].
  { destruct (nonNegativeConstant (bwDefs w) y) eqn:Hn; [|auto]. intros [H|H]%knows_nonneg; [auto | right; apply (Hsays _ H); auto 10]. }
  destruct (String.eqb_spec op "binary.<=") as [E|]; [|auto].
  destruct (nonNegativeConstant (bwDefs w) x) eqn:Hn; [|auto]. intros [H|H]%knows_nonneg; [auto | right; apply (Hsays _ H); auto 10].
Qed.

Lemma nonNegative_spec K f v : flat K -> exists r, nonNegative w K f v = Some r /\ (r = true -> positive w K f v).
Proof.
  intros Hflat. unfold nonNegative. destruct (resolvedName_flat K (vName v) Hflat) as (x & -> & Hx). cbn [mbind option_bind].
  eexists. split; [reflexivity|]. intros H. exists x. split; [exact Hx|]. rewrite !orb_true_iff, !bool_decide_eq_true in H.
  destruct H as [[[H|H]|H]|H]; auto. right. right. right. destruct (bwDefs w !! x) as [i|] eqn:Hd; [|discriminate].
  exists i. split; [reflexivity|]. apply orb_true_iff in H as [->%String.eqb_eq | ->%String.eqb_eq]; set_solver.
Qed.

Lemma below_spec K f x y : flat K -> exists x' y', resolvedName K x = Some x' /\ resolvedName K y = Some y' /\
  (bool_decide ((x', y') ∈ bfLess f) = true -> below K f x y).
Proof.
  intros Hflat. destruct (resolvedName_flat K x Hflat) as (x' & Hx & Sx), (resolvedName_flat K y Hflat) as (y' & Hy & Sy).
  exists x', y'. split; [exact Hx|]. split; [exact Hy|]. intros H%bool_decide_eq_true. exists x', y'. auto.
Qed.

Lemma cannotFail_spec K f c : flat K -> exists r, cannotFail w K f c = Some r /\
  (r = true -> exists op a b, comparison w c = Some (op, a, b) /\
    ((op = "binary.<" /\ isConstant (bwDefs w) b 0 = true /\ positive w K f a) \/ (op = "binary.>=" /\ below K f (vName a) (vName b)))).
Proof.
  intros Hflat. unfold cannotFail. destruct (comparison w c) as [[[op a] b]|]; [|exists false; split; [reflexivity | discriminate]].
  assert (Hno : exists r, Some false = Some r /\ (r = true -> exists op' a' b', Some (op, a, b) = Some (op', a', b') /\
    ((op' = "binary.<" /\ isConstant (bwDefs w) b' 0 = true /\ positive w K f a') \/ (op' = "binary.>=" /\ below K f (vName a') (vName b'))))).
  { exists false. split; [reflexivity | discriminate]. }
  destruct (String.eqb_spec op "binary.<") as [->|].
  - destruct (isConstant (bwDefs w) b 0) eqn:Hz; [|exact Hno]. destruct (nonNegative_spec K f a Hflat) as (r & -> & Hr).
    exists r. split; [reflexivity|]. intros ->. exists "binary.<", a, b. split; [reflexivity|]. left. auto.
  - destruct (String.eqb_spec op "binary.>=") as [->|]; [|exact Hno].
    destruct (below_spec K f (vName a) (vName b) Hflat) as (x & y & -> & -> & Hb). cbn [mbind option_bind]. eexists. split; [reflexivity|].
    intros H. exists "binary.>=", a, b. split; [reflexivity|]. right. auto.
Qed.

Lemma answersCheck_spec K f array index : flat K -> exists r, answersCheck w K f array index = Some r /\ (r = true -> inRange w K f array index).
Proof.
  intros Hflat. unfold answersCheck. case_bool_decide as Hc; [exists true; split; [reflexivity | left; exact Hc]|].
  destruct (nonNegative_spec K f index Hflat) as (r & -> & Hr). cbn [mbind option_bind].
  destruct r; cbn [negb]; [|exists false; split; [reflexivity | discriminate]].
  destruct (bfLength f !! vName array) as [len|] eqn:Hl; [|exists false; split; [reflexivity | discriminate]].
  destruct (below_spec K f (vName index) (vName len) Hflat) as (x & y & -> & -> & Hb). cbn [mbind option_bind].
  eexists. split; [reflexivity|]. intros H. right. split; [auto|]. exists len. auto.
Qed.

(** What one visit does. *)
Definition forgetsAtom (i : Instr) (a : atom) : bool := aboutHeader a && negb (leavesHeaders (iOp i)).

Record visited (at_ : nat * nat) (i : Instr) (f f' : boundsFacts) (plan plan' : boundsPlan) : Prop := mkVisited {
  vi_facts a : knows f' a -> knows f a /\ forgetsAtom i a = false \/ learns w (bpAliases plan) i a;
  vi_aliases : bpAliases plan' = bpAliases plan \/
    exists e, bpAliases plan' = <[resultName i := e]> (bpAliases plan) /\ aliased f i e /\ f' = f;
  vi_drops q : q ∈ bpDrops plan' -> q ∈ bpDrops plan \/ q = at_ /\ refuted w (bpAliases plan) f i;
  vi_answered q : q ∈ bpAnswered plan' -> q ∈ bpAnswered plan \/ q = at_ /\ accessed w (bpAliases plan) f i;
  vi_unsafe x : x ∈ bpUnsafeSteps plan' <-> x ∈ bpUnsafeSteps plan \/ x ∈ unboundedSteps w f i
}.

Lemma leaves_keeps i a : leavesHeaders (iOp i) = true -> forgetsAtom i a = false.
Proof. intros H. unfold forgetsAtom. rewrite H. apply andb_false_r. Qed.

Lemma unbounded_other f i : iOp i <> "binary.+" -> unboundedSteps w f i = [].
Proof. intros H. unfold unboundedSteps. rewrite (proj2 (String.eqb_neq _ _) H). reflexivity. Qed.

Lemma visited_facts at_ i f f' plan : iOp i <> "binary.+" -> leavesHeaders (iOp i) = true ->
  (forall a, knows f' a -> knows f a \/ learns w (bpAliases plan) i a) -> visited at_ i f f' plan plan.
Proof.
  intros Ho Hl H. split; auto; [|intros x; rewrite unbounded_other by exact Ho; set_solver].
  intros a Ha. destruct (H a Ha); auto using leaves_keeps.
Qed.

Lemma visitCondFail_spec at_ f plan i : flat (bpAliases plan) -> iOp i = "cond_fail" ->
  exists f' plan', visitCondFail w at_ f plan i = Some (f', plan') /\ visited at_ i f f' plan plan'.
Proof.
  intros Hflat Hop. assert (Hadd : iOp i <> "binary.+") by congruence. assert (Hl : leavesHeaders (iOp i) = true) by (rewrite Hop; reflexivity).
  unfold visitCondFail. destruct (iArgs i) as [|c rest] eqn:Ha.
  { exists f, plan. split; [reflexivity|]. apply visited_facts; auto. }
  destruct (cannotFail_spec _ f c Hflat) as (r & -> & Hr). cbn [mbind option_bind]. destruct r.
  - exists f, (addDrop at_ plan). split; [reflexivity|]. destruct (Hr eq_refl) as (op & a & b & H1 & H2). split; auto.
    + intros x Hx. left. split; [exact Hx | apply leaves_keeps, Hl].
    + cbn. intros q [->%elem_of_singleton|Hq]%elem_of_union; [|auto]. right. split; [reflexivity|]. split; [exact Hop|].
      exists c, rest, op, a, b. auto.
    + intros x. rewrite unbounded_other by exact Hadd. cbn. set_solver.
  - destruct (learnCondition_spec _ f c false Hflat) as (f' & -> & Hf). exists f', plan. split; [reflexivity|].
    apply visited_facts; [exact Hadd | exact Hl|]. intros a Hk. destruct (Hf a Hk) as [H|H]; [auto|]. right. left. split; [exact Hop|]. exists c, rest. auto.
Qed.

Lemma visitLength_spec at_ f plan i : iOp i ∈ ["array.len"; "slice.len"] ->
  visited at_ i f (visitLength f plan i).1 plan (visitLength f plan i).2.
Proof.
  intros Hop. assert (Hadd : iOp i <> "binary.+") by (intros E; rewrite E in Hop; set_solver).
  assert (Hl : leavesHeaders (iOp i) = true) by (apply elem_of_cons in Hop as [-> | ->%list_elem_of_singleton]; reflexivity).
  unfold visitLength. destruct (iArgs i) as [|c [|]] eqn:Ha; try (apply visited_facts; cbn; auto).
  set (view := String.eqb (iOp i) "slice.len").
  assert (Hrecord : visited at_ i f (addLength view (vName c) (iResult i) f) plan plan).
  { apply visited_facts; [exact Hadd | exact Hl|]. intros a [H| ->]%knows_length; [auto|]. right. right. left. split; [exact Hop|]. exists c. auto. }
  destruct ((if view then bfViewLength f else bfLength f) !! vName c) as [known|] eqn:Hk; [|exact Hrecord].
  destruct (String.eqb_spec (vType known) (vType (iResult i))) as [Ht|]; [|exact Hrecord]. cbn [fst snd]. split; auto.
  - intros a H. left. split; [exact H | apply leaves_keeps, Hl].
  - right. exists known. split; [reflexivity|]. split; [|reflexivity]. split; [exact Hop|]. split; [exact Ht|]. exists c. split; [exact Ha | exact Hk].
  - intros x. rewrite unbounded_other by exact Hadd. cbn. set_solver.
Qed.

Lemma visitArrayCheck_spec at_ f plan i : flat (bpAliases plan) -> iOp i ∈ accesses ->
  exists f' plan', visitArrayCheck w at_ f plan i = Some (f', plan') /\ visited at_ i f f' plan plan'.
Proof.
  intros Hflat Hop. assert (Hadd : iOp i <> "binary.+") by (intros E; rewrite E in Hop; unfold accesses in Hop; set_solver).
  assert (Hl : leavesHeaders (iOp i) = true).
  { unfold accesses in Hop. repeat (apply elem_of_cons in Hop as [->|Hop]; [reflexivity|]). inversion Hop. }
  assert (Hnone : visited at_ i f f plan plan) by (apply visited_facts; auto).
  unfold visitArrayCheck. destruct (iArgs i) as [|array [|index rest]] eqn:Ha; [eauto | eauto|].
  destruct (answersCheck_spec _ f array index Hflat) as (r & -> & Hr). cbn [mbind option_bind]. do 2 eexists. split; [reflexivity|].
  set (plan' := if r && HasPrefix (vType array) "&" then addAnswered at_ plan else plan).
  assert (Hp : bpAliases plan' = bpAliases plan /\ bpDrops plan' = bpDrops plan /\ bpUnsafeSteps plan' = bpUnsafeSteps plan)
    by (unfold plan'; destruct (r && HasPrefix (vType array) "&"); auto). destruct Hp as (Hp1 & Hp2 & Hp3). split; [| auto | rewrite Hp2; auto | |].
  - intros a Hk. assert (Hk' : knows f a \/ (iOp i ∈ ["array.get_or_panic"; "array.set"] /\ a = AChecked (vName array) (vName index))).
    { destruct (String.eqb_spec (iOp i) "array.get_or_panic") as [E|]; [|destruct (String.eqb_spec (iOp i) "array.set") as [E|]]; cbn [orb] in Hk; [| |auto];
        apply knows_checked in Hk as [Hk|Hk]; auto; right; (split; [rewrite E; set_solver | exact Hk]). }
    destruct Hk' as [H|[H1 H2]]; [left; split; [exact H | apply leaves_keeps, Hl]|]. right. right. right. split; [exact H1|]. exists array, index, rest. auto.
  - intros q Hq. unfold plan' in Hq. destruct (r && HasPrefix (vType array) "&") eqn:Hrp; [|auto].
    apply andb_true_iff in Hrp as [-> Hpre]. cbn in Hq. apply elem_of_union in Hq as [->%elem_of_singleton|Hq]; [|auto].
    right. split; [reflexivity|]. split; [exact Hop|]. exists array, index, rest. auto.
  - intros x. rewrite unbounded_other, Hp3 by exact Hadd. set_solver.
Qed.

Lemma visit_visited at_ f plan i : flat (bpAliases plan) ->
  exists f' plan', visit w at_ f plan i = Some (f', plan') /\ visited at_ i f f' plan plan'.
Proof.
  intros Hflat. unfold visit. destruct (String.eqb_spec (iOp i) "cond_fail") as [Hop|_]; [apply visitCondFail_spec; assumption|].
  case_bool_decide as Hlen.
  { pose proof (visitLength_spec at_ f plan i Hlen) as H. destruct (visitLength f plan i) as [f' plan']. exists f', plan'. auto. }
  case_bool_decide as Hacc; [apply visitArrayCheck_spec; assumption|]. do 2 eexists. split; [reflexivity|]. split; auto.
  - intros a Hk. left. unfold forgetsAtom. destruct (leavesHeaders (iOp i)); cbn [negb] in *; [rewrite andb_false_r; auto|].
    apply knows_forget in Hk as [H1 H2]. rewrite H2. auto.
  - intros x. cbn. rewrite elem_of_union, elem_of_list_to_set. tauto.
Qed.
End Visits.

(** ** The record of a walk *)

Section Pass.
Context (module : Module_) (params : gmap string (list Param)) (fn : Function).
Context (Hsound : sound module params fn).
Context (Hnamed : forall i, i ∈ instrsOf (fBlocks fn) -> iOp i ∈ ["array.len"; "slice.len"] -> resultName i <> "").
Context (w : boundsWalker) (Hdefs : bwDefs w = instrDefs fn).

(** A length that aliases stand for: computed, and not itself an alias. *)
Definition lengthResult (K : replacements_map) (v : Value) : Prop :=
  K !! vName v = None /\ exists j, j ∈ instrsOf (fBlocks fn) /\ iResult j = v.

(** The facts at each point the walk has read, [Done] the instructions it has
    passed and [At] the points it has been at. *)
Record walked (Done At : nat -> nat -> Prop) (F : nat -> nat -> boundsFacts) (plan : boundsPlan) : Prop := mkWalked {
  wk_at p s : Done p s -> At p s;
  wk_step p s i a : Done p s -> instrAt fn p s i -> knows (F p (S s)) a ->
    knows (F p s) a /\ forgetsAtom i a = false \/ learns w (bpAliases plan) i a;
  wk_unsafe p s i x : Done p s -> instrAt fn p s i -> x ∈ unboundedSteps w (F p s) i -> x ∈ bpUnsafeSteps plan;
  wk_settled p s a : At p s -> knows (F p s) a ->
    (forall x, x ∈ atomNames a -> settledAt fn p s x) /\ (forall view c v, a = ALength view c v -> lengthResult (bpAliases plan) v);
  wk_alias x e : bpAliases plan !! x = Some e -> exists p s i, Done p s /\ instrAt fn p s i /\ resultName i = x /\ x <> "" /\ aliased (F p s) i e;
  wk_drop q : q ∈ bpDrops plan -> exists i, Done q.1 q.2 /\ instrAt fn q.1 q.2 i /\ refuted w (bpAliases plan) (F q.1 q.2) i;
  wk_answered q : q ∈ bpAnswered plan -> exists i, Done q.1 q.2 /\ instrAt fn q.1 q.2 i /\ accessed w (bpAliases plan) (F q.1 q.2) i;
  wk_only x : x ∈ bpUnsafeSteps plan -> exists p s i, Done p s /\ instrAt fn p s i /\ x ∈ unboundedSteps w (F p s) i
}.

Lemma walked_flat Done At F plan : walked Done At F plan -> flat (bpAliases plan).
Proof.
  intros R x e Hx. destruct (wk_alias _ _ _ _ R x e Hx) as (p & s & i & Hd & _ & _ & _ & _ & _ & c & _ & Hk).
  destruct (wk_settled _ _ _ _ R p s _ (wk_at _ _ _ _ R _ _ Hd) Hk) as [_ H]. apply (H _ _ _ eq_refl).
Qed.

(** A name an alias stands for is settled where the alias is. *)
Lemma stands_settled Done At F plan p s x y : walked Done At F plan -> reach (succs fn) 0 p -> settledAt fn p s x ->
  standsFor (bpAliases plan) x y -> settledAt fn p s y.
Proof.
  intros R Hp Hx [->|(e & He & ->)]; [exact Hx|].
  destruct (wk_alias _ _ _ _ R x e He) as (q & t & i & Hd & Hi & Hn & Hne & _ & _ & c & _ & Hk).
  destruct (wk_settled _ _ _ _ R q t _ (wk_at _ _ _ _ R _ _ Hd) Hk) as [H _]. intros d Hd'.
  pose proof (defs_at module params fn Hsound q t i Hi ltac:(congruence)) as Hdef. rewrite Hn in Hdef.
  eapply (before_trans fn d (mkDefinition q t) p s); [exact Hp | eapply H; [right; left | exact Hd'] | apply Hx, Hdef].
Qed.

(** The operands of what computes a settled name are settled. *)
Lemma operand_settled p s x i a : reach (succs fn) 0 p -> settledAt fn p s x -> bwDefs w !! x = Some i -> iOp i <> "phi" -> a ∈ iArgs i ->
  settledAt fn p s (vName a).
Proof.
  intros Hp Hx Hi Hop Ha. rewrite Hdefs in Hi. destruct (instrDefs_some fn x i Hi) as (Hne & <- & q & t & Hat).
  pose proof (defs_at module params fn Hsound q t i Hat Hne) as Hdef. destruct Hat as (b & Hb & Hs).
  pose proof (wf_uses _ _ _ (sound_wf _ _ _ Hsound) q b t i a Hb Hs Hop (elem_args _ _ Ha)) as Hu.
  intros d Hd. eapply (before_trans fn d (mkDefinition q t) p s); [exact Hp | apply Hu, Hd | apply Hx, Hdef].
Qed.

Lemma says_settled Done At F plan p s c h a : walked Done At F plan -> reach (succs fn) 0 p -> settledAt fn p s (vName c) ->
  says w (bpAliases plan) c h a ->
  (forall x, x ∈ atomNames a -> settledAt fn p s x) /\ (forall view c v, a = ALength view c v -> lengthResult (bpAliases plan) v).
Proof.
  intros R Hp Hc (i & x & y & x' & y' & Hi & Ha & _ & Hx & Hy & Hop). cbn zeta in Hop.
  assert (Hphi : iOp i <> "phi") by (intros E; rewrite E in Hop; destruct h; cbn in Hop; destruct Hop as [[H _]|[[H _]|[[H _]|[H _]]]]; discriminate H).
  assert (Sx : settledAt fn p s x') by (eapply stands_settled; [exact R | exact Hp | | exact Hx]; apply (operand_settled p s (vName c) i x Hp Hc Hi Hphi); rewrite Ha; left).
  assert (Sy : settledAt fn p s y') by (eapply stands_settled; [exact R | exact Hp | | exact Hy]; apply (operand_settled p s (vName c) i y Hp Hc Hi Hphi); rewrite Ha; right; left).
  assert (Hcases : (forall z, z ∈ atomNames a -> z = x' \/ z = y') /\ forall view c v, a <> ALength view c v).
  { destruct Hop as [[_ ->]|[[_ ->]|[(_ & _ & ->)|(_ & _ & ->)]]]; (split; [cbn; set_solver | congruence]). }
  destruct Hcases as [H1 H2]. split; [intros z [-> | ->]%H1; assumption | intros view c' v E; destruct (H2 _ _ _ E)].
Qed.

Section Step.
Context (D : nat -> Prop) (p s : nat) (i : Instr) (F : nat -> nat -> boundsFacts) (plan : boundsPlan).
Context (HD : ordered fn D) (Hp : ~ D p) (Hreach : reach (succs fn) 0 p) (Hi : instrAt fn p s i).
Context (R : walked (passed fn D p s) (passed fn D p (S s)) F plan).

Lemma result_unaliased : bpAliases plan !! resultName i = None.
Proof.
  destruct (bpAliases plan !! resultName i) as [e|] eqn:He; [|reflexivity]. exfalso.
  destruct (wk_alias _ _ _ _ R _ _ He) as (q & t & j & Hd & Hj & Hn & Hne & _).
  pose proof (defs_at module params fn Hsound p s i Hi Hne) as H1.
  pose proof (defs_at module params fn Hsound q t j Hj ltac:(congruence)) as H2. rewrite Hn, H1 in H2. injection H2 as -> ->.
  destruct Hd as [[Hd _]|[_ Hd]]; [contradiction | lia].
Qed.

Lemma arg_settled a : iOp i <> "phi" -> a ∈ iArgs i -> settledAt fn p s (vName a).
Proof.
  destruct Hi as (b & Hb & Hs). intros Hop Ha. apply (wf_uses _ _ _ (sound_wf _ _ _ Hsound) p b s i a Hb Hs Hop (elem_args _ _ Ha)).
Qed.

Lemma learned_settled a : learns w (bpAliases plan) i a ->
  (forall x, x ∈ atomNames a -> settledAt fn p (S s) x) /\ (forall view c v, a = ALength view c v -> lengthResult (bpAliases plan) v).
Proof.
  intros [(Hop & c & rest & Ha & Hs)|[(Hop & c & Ha & ->)|(Hop & array & index & rest & Ha & ->)]].
  - destruct (says_settled _ _ F plan p s c false a R Hreach) as [H1 H2]; [|exact Hs|split; [intros x Hx; apply settled_S, H1, Hx | exact H2]].
    apply arg_settled; [congruence | rewrite Ha; left].
  - split.
    + cbn. intros x [->|[->|H]%elem_of_cons]%elem_of_cons; [| |inversion H].
      * apply settled_S, arg_settled; [intros E; rewrite E in Hop; set_solver | rewrite Ha; left].
      * eapply result_settled; eassumption.
    + intros view c' v [= _ _ <-]. split; [apply result_unaliased | exists i; split; [eapply instrAt_in, Hi | reflexivity]].
  - split; [|discriminate]. assert (Hphi : iOp i <> "phi") by (intros E; rewrite E in Hop; set_solver).
    cbn. intros x [->|[->|H]%elem_of_cons]%elem_of_cons; [| |inversion H]; apply settled_S, arg_settled; auto; rewrite Ha; [left | right; left].
Qed.

(** The record after the instruction. *)
Lemma walked_visit f' plan' : visited w (p, s) i (F p s) f' plan plan' ->
  walked (passed fn D p (S s)) (passed fn D p (S (S s))) (update F p (S s) f') plan'.
Proof.
  intros [Vf Va Vd Vn Vu]. assert (Hin : i ∈ instrsOf (fBlocks fn)) by (eapply instrAt_in, Hi).
  assert (Hsub : bpAliases plan ⊆ bpAliases plan').
  { destruct Va as [->|(e & -> & _)]; [reflexivity|]. apply insert_subseteq, result_unaliased. }
  assert (Hold : forall q t, passed fn D p (S s) q t -> update F p (S s) f' q t = F q t).
  { intros q t [[Hq _]|[-> Ht]]; apply update_ne; [left; intros ->; contradiction | right; lia]. }
  assert (Hnext : forall q t, passed fn D p s q t -> update F p (S s) f' q (S t) = F q (S t)).
  { intros q t [[Hq _]|[-> Ht]]; apply update_ne; [left; intros ->; contradiction | right; lia]. }
  assert (Hkeep : forall q t x, passed fn D p (S s) q t -> settledAt fn q t x -> bpAliases plan !! x = None -> bpAliases plan' !! x = None).
  { intros q t x Hq Hx Hn. destruct Va as [->|(e & -> & Hal & _)]; [exact Hn|]. rewrite lookup_insert_ne; [exact Hn|].
    intros <-. eapply (settled_not_result module params fn Hsound D p s i HD Hp Hi q t); [exact Hq | exact Hx | | reflexivity]. apply Hnamed; [exact Hin | apply Hal]. }
  assert (Hhere : passed fn D p (S s) p s) by (right; lia). assert (Hjust : update F p (S s) f' p s = F p s) by (apply Hold; exact Hhere).
  split.
  - intros q t [Hq|[-> Hq]]; [left; exact Hq | right; lia].
  - intros q t j a [Hd|[-> ->]]%passed_S Hj Hk.
    + rewrite Hold by (apply (wk_at _ _ _ _ R), Hd). rewrite Hnext in Hk by exact Hd.
      destruct (wk_step _ _ _ _ R q t j a Hd Hj Hk) as [H|H]; [left; exact H | right; eapply learns_mono; eassumption].
    + rewrite update_eq in Hk. rewrite Hjust, (instrAt_fun fn _ _ _ _ Hj Hi). destruct (Vf a Hk) as [H|H]; [left; exact H | right; eapply learns_mono; eassumption].
  - intros q t j x [Hd|[-> ->]]%passed_S Hj Hx; apply Vu.
    + left. rewrite Hold in Hx by (apply (wk_at _ _ _ _ R), Hd). eapply wk_unsafe; eassumption.
    + right. rewrite Hjust, (instrAt_fun fn _ _ _ _ Hj Hi) in Hx. exact Hx.
  - assert (Hcarry : forall q t a, passed fn D p (S s) q t -> knows (F q t) a ->
      (forall x, x ∈ atomNames a -> settledAt fn q t x) /\ (forall view c v, a = ALength view c v -> lengthResult (bpAliases plan') v)).
    { intros q t a Hq Hk. destruct (wk_settled _ _ _ _ R q t a Hq Hk) as [H1 H2]. split; [exact H1|].
      intros view c v ->. destruct (H2 _ _ _ eq_refl) as [H3 H4]. split; [|exact H4]. eapply Hkeep; [exact Hq | apply H1; right; left | exact H3]. }
    intros q t a [Hq|[-> ->]]%passed_S Hk; [rewrite Hold in Hk by exact Hq; apply Hcarry; assumption|].
    rewrite update_eq in Hk. assert (Hsafe : knows (F p s) a -> (forall x, x ∈ atomNames a -> settledAt fn p (S s) x) /\
        (forall view c v, a = ALength view c v -> lengthResult (bpAliases plan') v)).
    { intros H. destruct (Hcarry p s a Hhere H) as [H1 H2]. split; [intros x Hx; apply settled_S, H1, Hx | exact H2]. }
    destruct Va as [E|(e & _ & _ & ->)]; [|apply Hsafe, Hk].
    destruct (Vf a Hk) as [[H _]|H]; [apply Hsafe, H | rewrite E; apply learned_settled, H].
  - intros x e Hx. assert (Hcases : bpAliases plan !! x = Some e \/ x = resultName i /\ aliased (F p s) i e).
    { destruct Va as [E|(e' & E & Hal & _)]; rewrite E in Hx; [auto|]. apply lookup_insert_Some in Hx as [[<- <-]|[_ Hx]]; auto. }
    destruct Hcases as [Hk|[-> Hal]].
    + destruct (wk_alias _ _ _ _ R x e Hk) as (q & t & j & Hd & G1 & G2 & G3 & G4). exists q, t, j.
      rewrite Hold by apply (wk_at _ _ _ _ R), Hd. split; [apply passed_S; auto | auto].
    + exists p, s, i. rewrite Hjust. split; [right; lia|]. split; [exact Hi|]. split; [reflexivity|].
      split; [apply Hnamed; [exact Hin | apply Hal] | exact Hal].
  - intros q Hq. destruct (Vd q Hq) as [Hq'|[-> Hr]].
    + destruct (wk_drop _ _ _ _ R q Hq') as (j & Hd & Hj & Hr). exists j. rewrite Hold by apply (wk_at _ _ _ _ R), Hd.
      split; [apply passed_S; auto|]. split; [exact Hj | eapply refuted_mono; eassumption].
    + exists i. cbn [fst snd]. rewrite Hjust. split; [right; lia|]. split; [exact Hi | eapply refuted_mono; eassumption].
  - intros q Hq. destruct (Vn q Hq) as [Hq'|[-> Hr]].
    + destruct (wk_answered _ _ _ _ R q Hq') as (j & Hd & Hj & Hr). exists j. rewrite Hold by apply (wk_at _ _ _ _ R), Hd.
      split; [apply passed_S; auto|]. split; [exact Hj | eapply accessed_mono; eassumption].
    + exists i. cbn [fst snd]. rewrite Hjust. split; [right; lia|]. split; [exact Hi | eapply accessed_mono; eassumption].
  - intros x [Hx|Hx]%Vu.
    + destruct (wk_only _ _ _ _ R x Hx) as (q & t & j & Hd & Hj & Hr). exists q, t, j.
      rewrite Hold by apply (wk_at _ _ _ _ R), Hd. split; [apply passed_S; auto | auto].
    + exists p, s, i. rewrite Hjust. split; [right; lia | auto].
Qed.
End Step.

(** ** One block *)

Lemma walked_iff (Done Done' At At' : nat -> nat -> Prop) F plan :
  (forall q t, Done' q t -> At' q t) ->
  (forall q t i, Done' q t -> instrAt fn q t i -> Done q t) -> (forall q t, Done q t -> Done' q t) -> (forall q t, At' q t -> At q t) ->
  walked Done At F plan -> walked Done' At' F plan.
Proof.
  intros H0 H1 H2 H3 [R1 R2 R3 R4 R5 R6 R7 R8]. split; [exact H0 | intros; eapply R2; eauto | intros; eapply R3; eauto | intros; eapply R4; eauto | | | |].
  - intros x e Hx. destruct (R5 x e Hx) as (p & s & i & Hd & Hr). exists p, s, i. auto.
  - intros q Hq. destruct (R6 q Hq) as (i & Hd & Hr). exists i. auto.
  - intros q Hq. destruct (R7 q Hq) as (i & Hd & Hr). exists i. auto.
  - intros x Hx. destruct (R8 x Hx) as (p & s & i & Hd & Hr). exists p, s, i. auto.
Qed.

Lemma visitAll_spec D p b l : ordered fn D -> ~ D p -> reach (succs fn) 0 p -> fBlocks fn !! p = Some b ->
  forall s F plan, l = drop s (bInstrs b) -> s <= List.length (bInstrs b) -> walked (passed fn D p s) (passed fn D p (S s)) F plan ->
  exists F' plan', visitAll w p s (F p s) plan l = Some (F' p (List.length (bInstrs b)), plan') /\ bpAliases plan ⊆ bpAliases plan' /\
    walked (passed fn D p (List.length (bInstrs b))) (passed fn D p (S (List.length (bInstrs b)))) F' plan' /\
    (forall q t, q <> p \/ t <= s -> F' q t = F q t).
Proof.
  intros HD Hp Hr Hb. induction l as [|i l IH]; intros s F plan Hl Hle R; cbn [visitAll].
  - assert (s = List.length (bInstrs b)) as -> by (apply (f_equal List.length) in Hl; rewrite length_drop in Hl; cbn in Hl; lia).
    exists F, plan. auto.
  - assert (Hi : bInstrs b !! s = Some i) by (rewrite <- (Nat.add_0_r s), <- lookup_drop, <- Hl; reflexivity).
    assert (Htl : l = drop (S s) (bInstrs b)) by (rewrite (drop_S _ _ _ Hi) in Hl; congruence).
    assert (Hat : instrAt fn p s i) by (exists b; auto). pose proof (lookup_lt_Some _ _ _ Hi).
    destruct (visit_visited w (p, s) (F p s) plan i (walked_flat _ _ _ _ R)) as (f' & plan1 & -> & Hv).
    cbn [mbind option_bind]. rewrite <- (update_eq F p (S s) f').
    destruct (IH (S s) (update F p (S s) f') plan1 Htl ltac:(lia)) as (F' & plan' & -> & Hsub & R' & Hsame).
    { eapply walked_visit; eassumption. }
    exists F', plan'. split; [reflexivity|]. split; [|split; [exact R'|]].
    + etransitivity; [|exact Hsub]. destruct (vi_aliases _ _ _ _ _ _ _ Hv) as [->|(e & -> & _)]; [reflexivity|].
      apply insert_subseteq. eapply result_unaliased; eassumption.
    + intros q t Hq. rewrite Hsame by (destruct Hq; [auto | right; lia]). apply update_ne. destruct Hq; [auto | right; lia].
Qed.

(** ** Where a block's first facts come from *)

Definition edgeSays (K : replacements_map) (d p : nat) (a : atom) : Prop :=
  (forall r, p ∈ succs fn r -> r = d) /\ exists bd bp, fBlocks fn !! d = Some bd /\ fBlocks fn !! p = Some bp /\
    tOp (bTerminator bd) = "branch" /\ tTarget (bTerminator bd) <> tElse (bTerminator bd) /\
    says w K (tCond (bTerminator bd)) (String.eqb (tTarget (bTerminator bd)) (bName bp)) a.

Definition comes (K : replacements_map) (d p : nat) (f f0 : boundsFacts) : Prop := forall a, knows f0 a ->
  knows f a /\ (aboutHeader a = true -> forall b, between (succs fn) d p b -> quiet fn b) \/ edgeSays K d p a.

Lemma comes_mono K K' d p f f0 : K ⊆ K' -> comes K d p f f0 -> comes K' d p f f0.
Proof.
  intros Hs H a Ha. destruct (H a Ha) as [H1|(H1 & bd & bp & H2 & H3 & H4 & H5 & H6)]; [left; exact H1 | right].
  split; [exact H1|]. exists bd, bp. eauto 10 using says_mono.
Qed.

Lemma comes_settled Done At F plan d p f0 : walked Done At F plan -> At d (stepsOf fn d) -> reach (succs fn) 0 p -> d <> p ->
  dominated_by (succs fn) d p -> comes (bpAliases plan) d p (F d (stepsOf fn d)) f0 -> forall a, knows f0 a ->
  (forall x, x ∈ atomNames a -> settledAt fn p 0 x) /\ (forall view c v, a = ALength view c v -> lengthResult (bpAliases plan) v).
Proof.
  intros R Hat Hp Hne Hdom Hc a Ha. destruct (Hc a Ha) as [[H _]|(_ & bd & bp & Hd & _ & _ & _ & Hs)].
  - destruct (wk_settled _ _ _ _ R d (stepsOf fn d) a Hat H) as [H1 H2]. split; [|exact H2].
    intros x Hx. eapply settled_enter; [exact Hp | exact Hne | exact Hdom | apply H1, Hx].
  - pose proof (dominated_reach fn d p Hp Hdom) as Hrd.
    destruct (says_settled _ _ F plan d (stepsOf fn d) (tCond (bTerminator bd)) (String.eqb (tTarget (bTerminator bd)) (bName bp)) a R Hrd) as [H1 H2]; [|exact Hs|].
    + assert (Hu : defined_at fn d (List.length (bInstrs bd)) (tCond (bTerminator bd))).
      { apply (wf_ends_uses _ _ _ (sound_wf _ _ _ Hsound) d bd _ Hd). left. }
      unfold stepsOf. rewrite Hd. exact Hu.
    + split; [|exact H2]. intros x Hx. eapply settled_enter; [exact Hp | exact Hne | exact Hdom | apply H1, Hx].
Qed.

Abbreviation preds := (blockPredecessors fn (blockIndex fn)).

Lemma entryFacts_spec K p d f : flat K -> p < List.length (fBlocks fn) -> d < List.length (fBlocks fn) ->
  exists f0, entryFacts w fn preds K p d f = Some f0 /\ comes K d p f f0.
Proof.
  intros Hflat Hp Hd. destruct (lookup_lt_is_Some_2 (fBlocks fn) p Hp) as [bp Hbp]. destruct (lookup_lt_is_Some_2 (fBlocks fn) d Hd) as [bd Hbd].
  unfold entryFacts. destruct (preds_some fn p Hp) as (ps & -> & Hiff). rewrite Hbp, Hbd. cbn [mbind option_bind].
  case_decide as Hone.
  - assert (Hsole : forall r, p ∈ succs fn r -> r = d) by (intros r Hr%Hiff; rewrite Hone in Hr; apply list_elem_of_singleton, Hr).
    assert (Hfrom : forall a, knows f a -> knows f a /\ (aboutHeader a = true -> forall b, between (succs fn) d p b -> quiet fn b)).
    { intros a Ha. split; [exact Ha|]. intros _ q Hq. exfalso. induction Hq as [b Hb Hne|]; [|assumption]. apply Hsole in Hb. contradiction. }
    unfold learnEdge. destruct (negb (String.eqb (tOp (bTerminator bd)) "branch") || String.eqb (tTarget (bTerminator bd)) (tElse (bTerminator bd))) eqn:Hb.
    { exists f. split; [reflexivity|]. intros a Ha. left. apply Hfrom, Ha. }
    apply orb_false_iff in Hb as [Hop%negb_false_iff%String.eqb_eq Hne%String.eqb_neq].
    destruct (learnCondition_spec w K f (tCond (bTerminator bd)) (String.eqb (tTarget (bTerminator bd)) (bName bp)) Hflat) as (f' & -> & Hf).
    exists f'. split; [reflexivity|]. intros a Ha. destruct (Hf a Ha) as [H|H]; [left; apply Hfrom, H | right].
    split; [exact Hsole|]. exists bd, bp. auto 10.
  - destruct (pathsMayWriteHeaders_spec fn p d Hp) as (r & -> & Hr). cbn [mbind option_bind]. eexists. split; [reflexivity|].
    intros a Ha. left. destruct r; [apply knows_forget in Ha as [H1 H2]; split; [exact H1 | congruence] | auto].
Qed.

(** ** All blocks *)

Definition begun (K : replacements_map) (D : nat -> Prop) (F : nat -> nat -> boundsFacts) : Prop :=
  forall p, D p -> (forall a, ~ knows (F p 0) a) \/ exists d, D d /\ d <> p /\ dominated_by (succs fn) d p /\
    comes K d p (F d (stepsOf fn d)) (F p 0).

Record walkedSoFar (D : nat -> Prop) (F : nat -> nat -> boundsFacts) (ends : list boundsFacts) (plan : boundsPlan) : Prop := mkWalkedSoFar {
  ws_walked : walked (finished fn D) (finished fn D) F plan;
  ws_begun : begun (bpAliases plan) D F;
  ws_ends p : D p -> ends !! p = Some (F p (stepsOf fn p));
  ws_length : List.length ends = List.length (fBlocks fn)
}.

Lemma walk_block D p b f0 F ends plan :
  ordered fn D -> ~ D p -> reach (succs fn) 0 p -> fBlocks fn !! p = Some b -> walkedSoFar D F ends plan ->
  (forall a, ~ knows f0 a) \/ (exists d, D d /\ d <> p /\ dominated_by (succs fn) d p /\ comes (bpAliases plan) d p (F d (stepsOf fn d)) f0) ->
  exists F' f' plan', visitAll w p 0 f0 plan (bInstrs b) = Some (f', plan') /\
    walkedSoFar (fun q => D q \/ q = p) F' (<[p := f']> ends) plan'.
Proof.
  intros HD Hp Hr Hb [R En Hends Hlen] Hfacts.
  assert (Hsteps : stepsOf fn p = List.length (bInstrs b)) by (unfold stepsOf; rewrite Hb; reflexivity).
  assert (Hold : forall q t, D q -> update F p 0 f0 q t = F q t) by (intros q t Hq; apply update_ne; left; intros ->; contradiction).
  assert (R0 : walked (passed fn D p 0) (passed fn D p 1) (update F p 0 f0) plan).
  { pose proof R as [R1 R2 R3 R4 R5 R6 R7 R8]. split.
    - intros q t [H|H]; [left; exact H | lia].
    - intros q t i a [[Hq Ht]|[_ H]] Hi; [|lia]. rewrite !Hold by exact Hq. eapply R2; [split; eassumption | exact Hi].
    - intros q t i x [[Hq Ht]|[_ H]] Hi; [|lia]. rewrite !Hold by exact Hq. eapply R3; [split; eassumption | exact Hi].
    - intros q t a [[Hq Ht]|[-> Ht]] Hk; [rewrite Hold in Hk by exact Hq; eapply R4; [split|]; eassumption|].
      assert (t = 0) as -> by lia. rewrite update_eq in Hk. destruct Hfacts as [H|(d & Hd & Hne & Hdom & Hc)]; [destruct (H a Hk)|].
      eapply (comes_settled _ _ F plan d p f0 R (conj Hd (le_n _)) Hr Hne Hdom Hc a Hk).
    - intros x e Hx. destruct (R5 x e Hx) as (q & t & i & Hd & H). exists q, t, i. rewrite Hold by apply Hd. split; [left; exact Hd | exact H].
    - intros q Hq. destruct (R6 q Hq) as (i & Hd & H). exists i. rewrite Hold by apply Hd. split; [left; exact Hd | exact H].
    - intros q Hq. destruct (R7 q Hq) as (i & Hd & H). exists i. rewrite Hold by apply Hd. split; [left; exact Hd | exact H].
    - intros x Hx. destruct (R8 x Hx) as (q & t & i & Hd & H). exists q, t, i. rewrite Hold by apply Hd. split; [left; exact Hd | exact H]. }
  destruct (visitAll_spec D p b (bInstrs b) HD Hp Hr Hb 0 _ plan eq_refl (Nat.le_0_l _) R0) as (F' & plan' & Hrun & Hsub & R' & Hsame).
  rewrite update_eq in Hrun. exists F', (F' p (List.length (bInstrs b))), plan'. split; [exact Hrun|].
  assert (Hsame' : forall q t, D q -> F' q t = F q t).
  { intros q t Hq. rewrite Hsame by (left; intros ->; contradiction). apply Hold, Hq. }
  split; [| | |rewrite length_insert; exact Hlen].
  - eapply walked_iff; [auto | | | | exact R'].
    + intros q t i [[Hq|Hq] Ht] Hi; [left; split; assumption|]. subst q. right. split; [reflexivity|].
      rewrite <- Hsteps. eapply instrAt_steps, Hi.
    + intros q t [[Hq Ht]|[-> Ht]]; [split; auto | split; [auto | lia]].
    + intros q t [[Hq|Hq] Ht]; [left; split; assumption|]. subst q. right. split; [reflexivity | lia].
  - intros q [Hq|Hq].
    + destruct (En q Hq) as [H|(d & Hd & H1 & H2 & H3)]; [left; rewrite Hsame' by exact Hq; exact H|]. right. exists d.
      rewrite !Hsame' by assumption. eauto 10 using comes_mono.
    + subst q. assert (E : F' p 0 = f0) by (rewrite Hsame by (right; lia); apply update_eq). rewrite E.
      destruct Hfacts as [H|(d & Hd & H1 & H2 & H3)]; [left; exact H|]. right. exists d. rewrite Hsame' by exact Hd. eauto 10 using comes_mono.
  - intros q [Hq|Hq].
    + rewrite list_lookup_insert_ne by (intros ->; contradiction). rewrite Hsame' by exact Hq. apply Hends, Hq.
    + subst q. rewrite Hsteps. apply list_lookup_insert_eq. rewrite Hlen. eapply lookup_lt_Some, Hb.
Qed.

Lemma walkedSoFar_iff (D D' : nat -> Prop) F ends plan : (forall q, D q <-> D' q) -> walkedSoFar D F ends plan -> walkedSoFar D' F ends plan.
Proof.
  intros H [R En Hends Hlen]. split; [| | |exact Hlen].
  - eapply walked_iff; [| | | |exact R]; unfold finished; intros q; specialize (H q); tauto.
  - intros p Hp%H. destruct (En p Hp) as [Hf|(d & Hd%H & Hr)]; [auto | right; exists d; auto].
  - intros p Hp%H. auto.
Qed.

Context (Hblocks : 0 < List.length (fBlocks fn)).

Lemma walkBlocks_spec tree :
  (forall i, 0 < i < List.length (order fn) -> exists up p c, Cfg.parent (Cfg.idom tree) i = Some up /\ up < i /\
     order fn !! up = Some p /\ order fn !! i = Some c /\ p <> c /\ dominated_by (succs fn) p c) ->
  forall positions done F ends plan, order fn = done ++ positions -> walkedSoFar (fun q => q ∈ done) F ends plan ->
  exists F' ends' plan', walkBlocks w fn preds (Cfg.idom tree) (order fn) (List.length done) positions (ends, plan) =
      Some (ends', plan') /\ walkedSoFar (fun q => q ∈ order fn) F' ends' plan'.
Proof.
  intros Htree. induction positions as [|p positions IH]; intros done F ends plan Ho S; cbn [walkBlocks].
  - rewrite app_nil_r in Ho. exists F, ends, plan. split; [reflexivity|]. rewrite Ho. exact S.
  - destruct (order_spec fn Hblocks) as (Hnd & Hin & _).
    assert (Hpo : order fn !! List.length done = Some p) by (rewrite Ho, lookup_app_r, Nat.sub_diag by lia; reflexivity).
    assert (Hmem : p ∈ order fn) by (eapply list_elem_of_lookup_2, Hpo).
    assert (Hp : p ∉ done) by (rewrite Ho in Hnd; apply NoDup_app in Hnd as (_ & Hd & _); intros Hx; apply (Hd p Hx); left).
    assert (Hlt : p < List.length (fBlocks fn)) by exact (order_bound fn Hblocks p Hmem).
    destruct (lookup_lt_is_Some_2 (fBlocks fn) p Hlt) as [b Hb].
    assert (Hstart : exists f0, (if (0 <? List.length done)%nat then up ← Cfg.parent (Cfg.idom tree) (List.length done); d ← order fn !! up;
        from ← ends !! d; entryFacts w fn preds (bpAliases plan) p d from else Some newBoundsFacts) = Some f0 /\
      ((forall a, ~ knows f0 a) \/ exists d, d ∈ done /\ d <> p /\ dominated_by (succs fn) d p /\ comes (bpAliases plan) d p (F d (stepsOf fn d)) f0)).
    { destruct (Nat.ltb_spec 0 (List.length done)) as [Hpos|]; [|exists newBoundsFacts; split; [reflexivity | left; apply knows_new]].
      destruct (Htree (List.length done)) as (up & d & c & Hup & Hlt' & Hd & Hc & Hne & Hdom); [split; [exact Hpos | eapply lookup_lt_Some, Hpo]|].
      assert (c = p) as -> by congruence. rewrite Hup. cbn [mbind option_bind]. rewrite Hd. cbn [mbind option_bind].
      assert (Hdin : d ∈ done) by (rewrite Ho, lookup_app_l in Hd by exact Hlt'; eapply list_elem_of_lookup_2, Hd).
      rewrite (ws_ends _ _ _ _ S d Hdin). cbn [mbind option_bind].
      assert (Hdlt : d < List.length (fBlocks fn)) by (apply (order_bound fn Hblocks); eapply list_elem_of_lookup_2, Hd).
      destruct (entryFacts_spec (bpAliases plan) p d (F d (stepsOf fn d)) (walked_flat _ _ _ _ (ws_walked _ _ _ _ S)) Hlt Hdlt) as (f0 & Hf & Hc').
      exists f0. split; [exact Hf|]. right. exists d. auto. }
    destruct Hstart as (f0 & -> & Hfacts). cbn [mbind option_bind]. rewrite Hb. cbn [mbind option_bind].
    destruct (walk_block (fun q => q ∈ done) p b f0 F ends plan) as (F' & f' & plan' & Hrun & S'); auto.
    { eapply order_ordered; [exact Hblocks | exact Ho]. } { apply Hin, Hmem. }
    rewrite Hrun. cbn [mbind option_bind]. replace (Datatypes.S (List.length done)) with (List.length (done ++ [p])) by (rewrite length_app; cbn; lia).
    eapply IH; [rewrite <- app_assoc; exact Ho|]. eapply walkedSoFar_iff; [|exact S'].
    intros q. rewrite elem_of_app, list_elem_of_singleton. reflexivity.
Qed.

(** One walk leaves a record of every reachable block. *)
Lemma walk_recorded tree :
  (forall i, 0 < i < List.length (order fn) -> exists up p c, Cfg.parent (Cfg.idom tree) i = Some up /\ up < i /\
     order fn !! up = Some p /\ order fn !! i = Some c /\ p <> c /\ dominated_by (succs fn) p c) ->
  exists F plan, walk w fn preds (Cfg.idom tree) (order fn) = Some plan /\
    walked (finished fn (reach (succs fn) 0)) (finished fn (reach (succs fn) 0)) F plan /\ begun (bpAliases plan) (reach (succs fn) 0) F.
Proof.
  intros Htree.
  destruct (walkBlocks_spec tree Htree (order fn) [] (fun _ _ => newBoundsFacts) (replicate (List.length (fBlocks fn)) newBoundsFacts) newPlan eq_refl)
    as (F & ends & plan & Hrun & S).
  { split; [split | | |].
    - intros q t H. exact H.
    - intros q t i a [Hq _]. inversion Hq.
    - intros q t i x [Hq _]. inversion Hq.
    - intros q t a [Hq _]. inversion Hq.
    - intros x e H. cbn in H. rewrite lookup_empty in H. discriminate.
    - cbn. set_solver.
    - cbn. set_solver.
    - cbn. set_solver.
    - intros q Hq. inversion Hq.
    - intros q Hq. inversion Hq.
    - apply length_replicate. }
  apply (walkedSoFar_iff _ (reach (succs fn) 0)) in S; [|apply (order_spec fn Hblocks)]. destruct S as [R En _ _].
  exists F, plan. split; [|auto]. unfold walk. cbn [List.length] in Hrun. rewrite Hrun. reflexivity.
Qed.
End Pass.

(** ** The counters *)

Section CounterFacts.
Context (defs : gmap string Instr) (instrs : list Instr).

Lemma candidates_spec excluded x : x ∈ candidates instrs excluded <->
  exists i, i ∈ instrs /\ iOp i = "phi" /\ vType (iResult i) = "i64" /\ resultName i = x /\ x ∉ excluded.
Proof.
  unfold candidates. assert (H : forall l (acc : gset string), x ∈ foldl (fun counters i =>
      if String.eqb (iOp i) "phi" && String.eqb (vType (iResult i)) "i64" && negb (bool_decide (vName (iResult i) ∈ excluded))
      then {[vName (iResult i)]} ∪ counters else counters) acc l <->
    x ∈ acc \/ exists i, i ∈ l /\ iOp i = "phi" /\ vType (iResult i) = "i64" /\ resultName i = x /\ x ∉ excluded).
  { induction l as [|i l IH]; intros acc; cbn [foldl]; [split; [auto | intros [H|(i & H & _)]; [exact H | inversion H]]|].
    rewrite IH. setoid_rewrite elem_of_cons.
    destruct (String.eqb (iOp i) "phi" && String.eqb (vType (iResult i)) "i64" && negb (bool_decide (vName (iResult i) ∈ excluded))) eqn:E.
    - rewrite !andb_true_iff, negb_true_iff, bool_decide_eq_false in E. destruct E as [[E1%String.eqb_eq E2%String.eqb_eq] E3].
      rewrite elem_of_union, elem_of_singleton. split.
      + intros [[->|H]|(j & H & H')]; [right; exists i; auto 10 | auto | right; exists j; auto].
      + intros [H|(j & [->|H] & H')]; [auto | destruct H' as (_ & _ & <- & _); auto | right; exists j; auto].
    - split; [intros [H|(j & H & H')]; [auto | right; exists j; auto]|]. intros [H|(j & [->|H] & H')]; [auto | | right; exists j; auto].
      exfalso. destruct H' as (H1 & H2 & <- & H3). apply not_true_iff_false in E. apply E.
      rewrite !andb_true_iff, negb_true_iff, bool_decide_eq_false, !String.eqb_eq. auto. }
  rewrite H. split; [intros [Hx|Hx]; [set_solver | exact Hx] | auto].
Qed.

Lemma dropCounters_spec l : forall c0 ch0 c1 ch1,
  foldl (fun '(counters, changed) i =>
    if bool_decide (vName (iResult i) ∈ counters) && negb (countsUp defs counters i)
    then (counters ∖ {[vName (iResult i)]}, true) else (counters, changed)) (c0, ch0) l = (c1, ch1) ->
  c1 ⊆ c0 /\ (ch0 = true -> ch1 = true) /\
  (ch1 = false -> c1 = c0 /\ forall i, i ∈ l -> resultName i ∈ c0 -> countsUp defs c0 i = true) /\
  (ch0 = false -> ch1 = true -> exists x, x ∈ c0 /\ x ∉ c1).
Proof.
  induction l as [|i l IH]; intros c0 ch0 c1 ch1; cbn [foldl].
  - intros [= <- <-]. split; [reflexivity|]. split; [auto|]. split; [intros _; split; [reflexivity | intros i H; inversion H] | congruence].
  - destruct (bool_decide (vName (iResult i) ∈ c0) && negb (countsUp defs c0 i)) eqn:E; intros H; apply IH in H as (H1 & H2 & H3 & H4).
    + apply andb_true_iff in E as [Hin%bool_decide_eq_true _]. specialize (H2 eq_refl). split; [set_solver|]. split; [auto|].
      split; [congruence|]. intros _ _. exists (vName (iResult i)). split; [exact Hin | set_solver].
    + split; [exact H1|]. split; [exact H2|]. split; [|exact H4]. intros Hf. destruct (H3 Hf) as [-> G]. split; [reflexivity|].
      intros j [->|Hj]%elem_of_cons Hc; [|auto]. apply andb_false_iff in E as [E%bool_decide_eq_false|E%negb_false_iff]; [contradiction | exact E].
Qed.

Lemma dropLoop_spec fuel : forall counters, base.size counters < fuel ->
  exists c, dropLoop defs fuel instrs counters = Some c /\ c ⊆ counters /\
    forall i, i ∈ instrs -> resultName i ∈ c -> countsUp defs c i = true.
Proof.
  induction fuel as [|fuel IH]; intros counters Hf; [lia|]. cbn [dropLoop].
  destruct (dropCounters defs instrs counters) as [c1 ch] eqn:E. apply dropCounters_spec in E as (H1 & _ & H3 & H4). destruct ch.
  - destruct (H4 eq_refl eq_refl) as (x & Hx & Hx'). destruct (IH c1) as (c & -> & Hc & Hup).
    + assert (c1 ⊂ counters) as Hlt%subset_size by set_solver. lia.
    + exists c. split; [reflexivity|]. split; [set_solver | exact Hup].
  - destruct (H3 eq_refl) as [-> Hup]. exists counters. auto.
Qed.

Definition feeds (counters : gset string) (y x : string) : Prop :=
  exists i inc, i ∈ instrs /\ resultName i = x /\ x ∈ counters /\ inc ∈ iIncoming i /\ vName (inValue inc) = y /\ is_Some (stepOf defs (inValue inc)).

Lemma steps_spec counters y x :
  x ∈ default [] (foldl (addSteps defs counters) ∅ instrs !! y) <-> feeds counters y x.
Proof.
  assert (Hinc : forall i l (steps : gmap string (list string)),
    x ∈ default [] (foldl (fun steps incoming => match stepOf defs (inValue incoming) with
      | Some _ => <[vName (inValue incoming) := default [] (steps !! vName (inValue incoming)) ++ [vName (iResult i)]]> steps
      | None => steps end) steps l !! y) <->
    x ∈ default [] (steps !! y) \/ exists inc, inc ∈ l /\ resultName i = x /\ vName (inValue inc) = y /\ is_Some (stepOf defs (inValue inc))).
  { intros i. induction l as [|inc l IH]; intros steps; cbn [foldl]; [split; [auto | intros [H|(inc & H & _)]; [exact H | inversion H]]|].
    rewrite IH. setoid_rewrite elem_of_cons. destruct (stepOf defs (inValue inc)) as [from|] eqn:Hs.
    - destruct (decide (vName (inValue inc) = y)) as [<-|Hne].
      + rewrite lookup_insert_eq. cbn [default id]. rewrite elem_of_app, list_elem_of_singleton. split.
        * intros [[H| ->]|(j & H & H')]; [auto | right; exists inc; eauto | right; exists j; auto].
        * intros [H|(j & [->|H] & H')]; [auto | destruct H' as (<- & _); auto | right; exists j; auto].
      + rewrite lookup_insert_ne by exact Hne. split.
        * intros [H|(j & H & H')]; [auto | right; exists j; auto].
        * intros [H|(j & [->|H] & H')]; [auto | destruct H' as (_ & ? & _); contradiction | right; exists j; auto].
    - split.
      + intros [H|(j & H & H')]; [auto | right; exists j; auto].
      + intros [H|(j & [->|H] & H')]; [auto | rewrite Hs in H'; destruct H' as (_ & _ & [? ?]); discriminate | right; exists j; auto]. }
  assert (H : forall l (steps : gmap string (list string)), x ∈ default [] (foldl (addSteps defs counters) steps l !! y) <->
    x ∈ default [] (steps !! y) \/ exists i inc, i ∈ l /\ resultName i = x /\ x ∈ counters /\ inc ∈ iIncoming i /\ vName (inValue inc) = y /\ is_Some (stepOf defs (inValue inc))).
  { induction l as [|i l IH]; intros steps; cbn [foldl]; [split; [auto | intros [H|(i & inc & H & _)]; [exact H | inversion H]]|].
    rewrite IH. setoid_rewrite elem_of_cons. unfold addSteps. case_bool_decide as Hc; cbn [negb].
    - rewrite Hinc. split.
      + intros [[H|(inc & H1 & H2 & H3 & H4)]|(j & inc & H & H')]; [auto | right; exists i, inc | right; exists j, inc; auto].
        unfold resultName in *. subst x. auto 10.
      + intros [H|(j & inc & [->|H] & H1 & H2 & H3 & H4 & H5)]; [auto | left; right; exists inc; auto | right; exists j, inc; auto 10].
    - split; [intros [H|(j & inc & H & H')]; [auto | right; exists j, inc; auto]|].
      intros [H|(j & inc & [->|H] & H1 & H2 & H')]; [auto | unfold resultName in H1; subst x; contradiction | right; exists j, inc; auto]. }
  rewrite H, lookup_empty. split; [intros [Hx|Hx]; [inversion Hx | exact Hx] | auto].
Qed.

(** What the counters of a round are. *)
Record counted (excluded counters : gset string) (steps : gmap string (list string)) : Prop := mkCounted {
  ct_phi x : x ∈ counters -> x ∈ candidates instrs excluded;
  ct_up i : i ∈ instrs -> resultName i ∈ counters -> countsUp defs counters i = true;
  ct_steps y x : x ∈ default [] (steps !! y) <-> feeds counters y x
}.

Lemma loopCounters_spec excluded : exists counters steps, loopCounters defs instrs excluded = Some (counters, steps) /\ counted excluded counters steps.
Proof.
  unfold loopCounters. destruct (dropLoop_spec (S (base.size (candidates instrs excluded))) (candidates instrs excluded)) as (c & -> & Hc & Hup); [lia|].
  cbn [mbind option_bind]. do 2 eexists. split; [reflexivity|]. split; [set_solver | exact Hup | intros y x; apply steps_spec].
Qed.
End CounterFacts.

(** ** The whole plan *)

Section Plan.
Context (module : Module_) (params : gmap string (list Param)) (fn : Function).
Context (Hsound : sound module params fn).
Context (Hnamed : forall i, i ∈ instrsOf (fBlocks fn) -> iOp i ∈ ["array.len"; "slice.len"] -> resultName i <> "").
Context (Hblocks : 0 < List.length (fBlocks fn)).

(** A walk with counters every step of which is taken below a bound. *)
Record planned (w : boundsWalker) (F : nat -> nat -> boundsFacts) (plan : boundsPlan) : Prop := mkPlanned {
  pl_defs : bwDefs w = instrDefs fn;
  pl_counted : exists excluded, counted (instrDefs fn) (instrsOf (fBlocks fn)) excluded (bwCounter w) (bwSteps w);
  pl_walked : walked fn w (finished fn (reach (succs fn) 0)) (finished fn (reach (succs fn) 0)) F plan;
  pl_begun : begun fn w (bpAliases plan) (reach (succs fn) 0) F;
  pl_safe : bpUnsafeSteps plan = ∅
}.

Lemma planLoop_spec tree :
  (forall i, 0 < i < List.length (order fn) -> exists up p c, Cfg.parent (Cfg.idom tree) i = Some up /\ up < i /\
     order fn !! up = Some p /\ order fn !! i = Some c /\ p <> c /\ dominated_by (succs fn) p c) ->
  forall fuel excluded, base.size (candidates (instrsOf (fBlocks fn)) excluded) < fuel ->
  exists w F plan, planLoop fuel fn (blockPredecessors fn (blockIndex fn)) (Cfg.idom tree) (order fn) excluded = Some (w, plan) /\ planned w F plan.
Proof.
  intros Htree. induction fuel as [|fuel IH]; intros excluded Hf; [lia|]. cbn [planLoop].
  destruct (loopCounters_spec (instrDefs fn) (instrsOf (fBlocks fn)) excluded) as (counters & steps & Hc & Hct).
  unfold instrsOf in Hc. rewrite Hc. cbn [mbind option_bind]. set (w := mkBoundsWalker (instrDefs fn) counters steps).
  destruct (walk_recorded module params fn Hsound Hnamed w eq_refl Hblocks tree Htree) as (F & plan & -> & R & En). cbn [mbind option_bind].
  case_decide as Hu; [exists w, F, plan; split; [reflexivity|]; split; eauto|].
  apply IH. assert (Hun : exists x, x ∈ bpUnsafeSteps plan) by (apply set_choose_L, Hu). destruct Hun as [x Hx].
  assert (Hin : x ∈ candidates (instrsOf (fBlocks fn)) excluded).
  { destruct (wk_only _ _ _ _ _ _ R x Hx) as (p & s & i & _ & _ & H). unfold unboundedSteps in H.
    destruct (negb (String.eqb (iOp i) "binary.+")); [inversion H|]. cbn [bwSteps w] in H.
    pose proof (ct_steps _ _ _ _ _ Hct (vName (iResult i)) x) as Hs.
    destruct (default [] (steps !! vName (iResult i))) as [|y l] eqn:Hd; [inversion H|]. destruct (hasUpperBound _ _); [inversion H|].
    apply Hs in H as (_ & _ & _ & _ & H & _). eapply ct_phi; eassumption. }
  assert (candidates (instrsOf (fBlocks fn)) (bpUnsafeSteps plan ∪ excluded) ⊂ candidates (instrsOf (fBlocks fn)) excluded) as Hlt%subset_size; [|lia].
  split.
  - intros y. rewrite !candidates_spec. intros (i & H1 & H2 & H3 & H4 & H5). exists i. split_and!; auto. set_solver.
  - intros Hsub. specialize (Hsub x Hin). apply candidates_spec in Hsub as (i & _ & _ & _ & _ & H). set_solver.
Qed.

(** The whole planning ends. *)
Lemma plan_recorded : exists tree w F plan, buildDominatorTree fn (blockPredecessors fn (blockIndex fn)) = Some tree /\
  planLoop (counterBound fn) fn (blockPredecessors fn (blockIndex fn)) (Cfg.idom tree) (reversePostorder fn) ∅ = Some (w, plan) /\ planned w F plan.
Proof.
  destruct (immediate_dominators fn Hblocks) as (tree & Htree & Hparent).
  destruct (planLoop_spec tree Hparent (counterBound fn) ∅) as (w & F & plan & H & Hp); [unfold counterBound, instrsOf; lia|].
  exists tree, w, F, plan. auto.
Qed.
End Plan.

(** ** Applying a plan *)

(** What an Array operation is called with. *)
Definition accessArgs (i : Instr) : Prop :=
  iOp i ∈ accesses /\ List.length (iArgs i) = if String.eqb (iOp i) "array.set" then 3 else 2.

(** The names an answered access computes on the way. *)
Definition hidden (x : string) : Prop := HasPrefix x "%bce" = true.

Lemma sitePrefix_hidden n x : hidden (sitePrefix n +:+ x).
Proof. unfold hidden, sitePrefix. apply HasPrefix_true. rewrite !sapp_assoc. eexists. reflexivity. Qed.

Section Apply.
Context (plan : boundsPlan).

Definition becomes (at_ : nat * nat) (i : Instr) (o : list Instr) : Prop :=
  (at_ ∈ bpDrops plan /\ o = []) \/ (at_ ∉ bpDrops plan /\ at_ ∉ bpAnswered plan /\ o = [i]) \/
  (at_ ∉ bpDrops plan /\ at_ ∈ bpAnswered plan /\ exists n b, answeredAccess i (sitePrefix n) = Some (o, b)).

(** A borrow that is present: the result of an answered [at] or [at_mut]. *)
Definition borrows (at_ : nat * nat) (i : Instr) (x : string) : Prop :=
  at_ ∈ bpAnswered plan /\ iOp i ∈ ["array.at"; "array.at_mut"] /\ resultName i = x.

Lemma answeredAccess_some i prefix : accessArgs i -> exists o b, answeredAccess i prefix = Some (o, b) /\
  (b = true -> iOp i ∈ ["array.at"; "array.at_mut"]).
Proof.
  intros [Hop Hlen]. unfold answeredAccess. destruct (iArgs i) as [|a [|x rest]]; [destruct (String.eqb _ _); discriminate Hlen | destruct (String.eqb _ _); discriminate Hlen|].
  destruct (String.eqb_spec (iOp i) "array.at") as [E|]; [cbn [orb]; do 2 eexists; split; [reflexivity|]; intros _; rewrite E; left|].
  destruct (String.eqb_spec (iOp i) "array.at_mut") as [E|]; [cbn [orb]; do 2 eexists; split; [reflexivity|]; intros _; rewrite E; right; left|].
  cbn [orb]. destruct (String.eqb_spec (iOp i) "array.get_or_panic"); [do 2 eexists; split; [reflexivity | discriminate]|].
  destruct (String.eqb_spec (iOp i) "array.set") as [E|].
  - destruct rest; [discriminate Hlen|]. do 2 eexists. split; [reflexivity | discriminate].
  - unfold accesses in Hop. set_solver.
Qed.

Lemma applyInstr_spec at_ i st : (at_ ∈ bpAnswered plan -> accessArgs i) ->
  exists o st', applyInstr plan at_ st i = Some (o, st') /\ becomes at_ i o /\ (forall x, x ∈ st'.2 -> x ∈ st.2 \/ borrows at_ i x).
Proof.
  intros Hargs. unfold applyInstr, becomes. case_bool_decide as Hd; [exists [], st; auto|].
  case_bool_decide as Ha; cbn [negb]; [|exists [i], st; auto 10].
  destruct (answeredAccess_some i (sitePrefix (S st.1)) (Hargs Ha)) as (o & b & E & Hb). cbn zeta.
  rewrite E. cbn [mbind option_bind]. do 2 eexists. split; [reflexivity|]. split; [right; right; eauto|]. cbn [snd]. intros x Hx.
  destruct b; [|auto]. apply elem_of_union in Hx as [->%elem_of_singleton|Hx]; [|auto]. right. split; [exact Ha|]. split; [auto | reflexivity].
Qed.

Lemma applyInstrs_spec block l : forall step (st : sites),
  (forall k i, l !! k = Some i -> (block, step + k) ∈ bpAnswered plan -> accessArgs i) ->
  exists outs st', applyInstrs plan block step st l = Some (List.concat outs, st') /\ List.length outs = List.length l /\
    (forall k i, l !! k = Some i -> exists o, outs !! k = Some o /\ becomes (block, step + k) i o) /\
    (forall x, x ∈ st'.2 -> x ∈ st.2 \/ exists k i, l !! k = Some i /\ borrows (block, step + k) i x).
Proof.
  induction l as [|i l IH]; intros step st Hargs; cbn [applyInstrs].
  - exists [], st. split; [reflexivity|]. split; [reflexivity|]. split; [intros k i H; rewrite lookup_nil in H; discriminate | auto].
  -
    destruct (applyInstr_spec (block, step) i st) as (o & st1 & -> & Ho & Hst1).
    { intros Ha. apply (Hargs 0 i eq_refl). rewrite Nat.add_0_r. exact Ha. }
    cbn [mbind option_bind].
    destruct (IH (S step) st1) as (outs & st' & -> & Hlen & Hout & Hst').
    { intros k j Hk Hj. apply (Hargs (S k) j Hk). rewrite Nat.add_succ_r. exact Hj. }
    cbn [mbind option_bind]. exists (o :: outs), st'. split; [reflexivity|]. split; [cbn; congruence|]. split.
    + intros [|k] j Hj; cbn [lookup list_lookup] in *; [injection Hj as <-; exists o; rewrite Nat.add_0_r; auto|].
      destruct (Hout k j Hj) as (o' & H1 & H2). exists o'. split; [exact H1|]. rewrite Nat.add_succ_r. exact H2.
    + intros x Hx. destruct (Hst' x Hx) as [H|(k & j & H1 & H2)].
      * destruct (Hst1 x H) as [H'|H']; [auto|]. right. exists 0, i. rewrite Nat.add_0_r. auto.
      * right. exists (S k), j. rewrite Nat.add_succ_r. auto.
Qed.

Lemma applyBlocks_spec blocks : forall block (st : sites),
  (forall k b s i, blocks !! k = Some b -> bInstrs b !! s = Some i -> (block + k, s) ∈ bpAnswered plan -> accessArgs i) ->
  exists res st' (outss : list (list (list Instr))), applyBlocks plan block st blocks = Some (res, st') /\ List.length res = List.length blocks /\
    (forall k b, blocks !! k = Some b -> exists outs, outss !! k = Some outs /\ res !! k = Some (mkBlock (bName b) (List.concat outs) (bTerminator b)) /\
       List.length outs = List.length (bInstrs b) /\
       forall s i, bInstrs b !! s = Some i -> exists o, outs !! s = Some o /\ becomes (block + k, s) i o) /\
    (forall x, x ∈ st'.2 -> x ∈ st.2 \/ exists k b s i, blocks !! k = Some b /\ bInstrs b !! s = Some i /\ borrows (block + k, s) i x).
Proof.
  induction blocks as [|b blocks IH]; intros block st Hargs; cbn [applyBlocks].
  - exists [], st, []. split; [reflexivity|]. split; [reflexivity|]. split; [intros k b H; rewrite lookup_nil in H; discriminate | auto].
  - destruct (applyInstrs_spec block (bInstrs b) 0 st) as (outs & st1 & -> & Hlen & Hout & Hst1).
    { intros s i Hi Ha. apply (Hargs 0 b s i eq_refl Hi). rewrite Nat.add_0_r. exact Ha. }
    cbn [mbind option_bind]. destruct (IH (S block) st1) as (res & st' & outss & -> & Hlen' & Hres & Hst').
    { intros k c s i Hk Hi Ha. apply (Hargs (S k) c s i Hk Hi). rewrite Nat.add_succ_r. exact Ha. }
    cbn [mbind option_bind]. eexists _, st', (outs :: outss). split; [reflexivity|]. split; [cbn; congruence|]. split.
    + intros [|k] c Hc; cbn [lookup list_lookup] in *.
      * injection Hc as <-. exists outs. rewrite Nat.add_0_r. auto.
      * destruct (Hres k c Hc) as (outs' & H0 & H1 & H2 & H3). exists outs'. rewrite Nat.add_succ_r. auto.
    + intros x Hx. destruct (Hst' x Hx) as [H|(k & c & s & i & H1 & H2 & H3)].
      * destruct (Hst1 x H) as [H'|(s & i & H1 & H2)]; [auto|]. right. exists 0, b, s, i. rewrite Nat.add_0_r. auto.
      * right. exists (S k), c, s, i. rewrite Nat.add_succ_r. auto.
Qed.
End Apply.
