(* ===== verification/BoundsRuns.v ===== *)
(** * Runs under the bounds walk ([internal/ir/bounds.go])

    The atoms the walk knows at a point hold there: an order or a sign of
    values for as long as they are not computed again, a length or a passed
    check until an instruction that can change an Array's header.  So a
    dropped check would have passed, an answered access is in range, and an
    aliased length is the length it stands for: what the plan makes of each
    instruction does what the instruction does. *)

From stdpp Require Import base list strings gmap.
From Stdlib Require Import ZArith Lia String.
From S2P Require Import Prelude GoStd IR Cfg Dominators CfgFacts Verify VerifyFacts Semantics Optimize Dce.
From S2P Require Import Ssa Simplify Available Forward Bounds BoundsFacts.

#[local] Open Scope string_scope.
#[local] Open Scope list_scope.

Definition orders : list string := ["binary.<"; "binary.>"; "binary.>="; "binary.<="].

(** What a machine with 64-bit integers, Arrays and views does.  An access in
    range is a borrow and a read or write through it; a set out of range
    returns an error. *)
Class BoundsMachine {V M X} (machine : Machine V M X) : Type := {
  int64 : V -> option Z;                   (** the integer a value is *)
  header : M -> V -> option Z;             (** the length of the Array a reference reaches *)
  view : V -> option Z;                    (** the length of a view *)
  slot : M -> V -> Z -> V;                 (** the reference to an element *)
  present : V -> option V;                 (** what an optional holds *)
  load : string -> M -> V -> option V;     (** what a reference holds, at a type *)
  put : M -> V -> V -> option M;           (** memory after a write through a reference *)
  success : string -> V;                   (** the success of an error union *)
  yes : V;                                 (** [true] *)
  int64_range v n : int64 v = Some n -> in_int64 n;
  int64_inj v v' n : int64 v = Some n -> int64 v' = Some n -> v = v';
  header_range m a n : header m a = Some n -> (0 <= n)%Z;
  view_range a n : view a = Some n -> (0 <= n)%Z;
  literal_int v n : vType v = "i64" -> ParseInt (vName v) = Some n -> exists x, literal v = Some x /\ int64 x = Some n;
  literal_plain v x : literal v = Some x -> (forall m, header m x = None) /\ view x = None;
  const_int i m v m' n : iOp i = "const" -> vType (iResult i) = "i64" -> ParseInt (iImmediate i) = Some n ->
    operation i [] m = Next v m' -> int64 v = Some n;
  const_yes i m : iOp i = "const" -> vType (iResult i) = "bool" -> iImmediate i = "true" -> operation i [] m = Next yes m;
  add_int i x y m v m' : iOp i = "binary.+" -> vType (iResult i) = "i64" -> operation i [x; y] m = Next v m' ->
    exists k l, int64 x = Some k /\ int64 y = Some l /\ int64 v = Some (wrap64 (k + l));
  compare_int i a b x y m v m' : iOp i ∈ orders -> iArgs i = [a; b] -> vType a = "i64" -> vType b = "i64" ->
    operation i [x; y] m = Next v m' -> exists k l, int64 x = Some k /\ int64 y = Some l /\ truth v = foldComparison (iOp i) k l;
  cond_fail_passes i c vs m v m' : iOp i = "cond_fail" -> operation i (c :: vs) m = Next v m' -> truth c = Some false;
  cond_fail_holds i c vs m : iOp i = "cond_fail" -> truth c = Some false -> exists v, operation i (c :: vs) m = Next v m;
  array_len i a m v m' : iOp i = "array.len" -> operation i [a] m = Next v m' -> exists n, header m a = Some n /\ int64 v = Some n;
  slice_len i a m v m' : iOp i = "slice.len" -> operation i [a] m = Next v m' -> exists n, view a = Some n /\ int64 v = Some n;
  headers_left i vs m v m' a : leavesHeaders (iOp i) = true -> operation i vs m = Next v m' -> header m' a = header m a;
  at_borrows i a x m n k : iOp i ∈ ["array.at"; "array.at_mut"] -> header m a = Some n -> int64 x = Some k -> (0 <= k < n)%Z ->
    exists b, operation i [a; x] m = Next b m /\ present b = Some (slot m a k);
  get_loads i a x m : iOp i = "array.get_or_panic" ->
    match operation i [a; x] m with
    | Next v m' => exists n k, header m a = Some n /\ int64 x = Some k /\ (0 <= k < n)%Z /\ m' = m /\
        load (vType (iResult i)) m (slot m a k) = Some v
    | Halt _ => forall n k, header m a = Some n -> int64 x = Some k -> ~ (0 <= k < n)%Z
    | Undefined => True
    end;
  set_stores i a x e m n k : iOp i = "array.set" -> header m a = Some n -> int64 x = Some k -> (0 <= k < n)%Z ->
    match operation i [a; x; e] m with
    | Next v m' => v = success (vType (iResult i)) /\ put m (slot m a k) e = Some m'
    | Halt _ => False
    | Undefined => True
    end;
  opt_has i b r m : iOp i = "opt.has" -> present b = Some r -> operation i [b] m = Next yes m;
  opt_value i b r m : iOp i = "opt.value" -> present b = Some r -> operation i [b] m = Next r m;
  ref_load i r v m : iOp i = "ref.load" -> load (vType (iResult i)) m r = Some v -> operation i [r] m = Next v m;
  ref_store i r v m m' : iOp i = "ref.store" -> put m r v = Some m' -> exists u, operation i [r; v] m = Next u m';
  error_ok i m : iOp i = "error.ok" -> operation i [] m = Next (success (vType (iResult i))) m
}.

(** A set whose index is out of range. *)
Definition setRefused {V M X} {machine : Machine V M X} {bounds : BoundsMachine machine} (i : Instr) (vs : list V) (m : M) : bool :=
  String.eqb (iOp i) "array.set" &&
  match vs with
  | a :: x :: _ =>
      match header m a, int64 x with
      | Some n, Some k => negb ((0 <=? k)%Z && (k <? n)%Z)
      | _, _ => true
      end
  | _ => true
  end.

(** The operations of bounds, which carry nothing but their operands. *)
Definition boundsOps : list string :=
  ["cond_fail"; "array.len"; "slice.len"; "opt.has"; "const"; "binary.+"] ++ accesses ++ orders.

(** What each is called with. *)
Definition wellCalled (i : Instr) : Prop :=
  (iOp i ∈ boundsOps -> iFields i = [] /\ iCleanups i = []) /\
  (iOp i = "cond_fail" -> resultName i = "") /\
  (iOp i ∈ ["array.len"; "slice.len"] -> List.length (iArgs i) = 1 /\ resultName i <> "" /\ vType (iResult i) = "i64") /\
  (iOp i = "opt.has" -> List.length (iArgs i) = 1 /\ vType (iResult i) = "bool") /\
  (iOp i = "const" -> iArgs i = []) /\
  (iOp i ∈ accesses -> accessArgs i /\ (forall x, iArgs i !! 1 = Some x -> vType x = "i64") /\
     (iOp i ∈ ["array.at"; "array.at_mut"] -> resultName i <> "")) /\
  (forall a b, iArgs i = [a; b] ->
     (iOp i ∈ orders -> vType a = "i64" -> vType b = "i64") /\
     (iOp i = "binary.+" -> vType (iResult i) = "i64" -> vType a = "i64" /\ vType b = "i64")).

(** What lowering makes: reads have the type of what they read, operations are
    called as they are declared, and names are neither numbers nor the ones
    the pass makes. *)
Record boundable (fn : Function) : Prop := mkBoundable {
  bo_reads : forall i v, i ∈ instrsOf (fBlocks fn) -> v ∈ readOperands i -> typedRead fn v /\ ~ hidden (vName v);
  bo_incoming : forall i inc, i ∈ instrsOf (fBlocks fn) -> inc ∈ iIncoming i -> typedRead fn (inValue inc) /\ ~ hidden (vName (inValue inc));
  bo_ends : forall b, b ∈ fBlocks fn -> typedRead fn (tValue (bTerminator b)) /\ ~ hidden (vName (tValue (bTerminator b))) /\ ~ hidden (vName (tCond (bTerminator b)));
  bo_called : forall i, i ∈ instrsOf (fBlocks fn) -> wellCalled i;
  bo_names : forall i, i ∈ instrsOf (fBlocks fn) -> ~ hidden (resultName i) /\ ParseInt (resultName i) = None;
  bo_params : forall p, p ∈ fParams fn -> ParseInt (pName p) = None
}.

(** ** What holds where *)

Section Holds.
Context {V M X : Type} {machine : Machine V M X} {bounds : BoundsMachine machine}.
Context (module : Module_) (params : gmap string (list Param)) (fn : Function).
Context (Hsound : sound module params fn) (Hbo : boundable fn).
Context (w : boundsWalker) (F : nat -> nat -> boundsFacts) (plan : boundsPlan).
Context (P : planned fn w F plan).

Abbreviation env := (gmap string V).
Abbreviation K := (bpAliases plan).
Abbreviation covered := (without machine setRefused).
Abbreviation defs := (instrDefs fn).

(** The integer a name stands for. *)
Definition valueOf (ρ : env) (x : string) : option Z := operand ρ (mkValue x "i64") ≫= int64.

Definition holds (a : atom) (ρ : env) (m : M) : Prop :=
  match a with
  | ALess x y => exists k l, valueOf ρ x = Some k /\ valueOf ρ y = Some l /\ (k < l)%Z
  | ANonneg x => exists k, valueOf ρ x = Some k /\ (0 <= k)%Z
  | ALength vw c v => exists r n, ρ !! c = Some r /\ (if vw : bool then view r else header m r) = Some n /\ valueOf ρ (vName v) = Some n
  | AChecked a x => exists r n k, ρ !! a = Some r /\ header m r = Some n /\ valueOf ρ x = Some k /\ (0 <= k < n)%Z
  end.

(** What the passing of a dominator's end still says. *)
Definition since (p s d : nat) (a : atom) : Prop := aboutHeader a = true ->
  (forall b, between (succs fn) d p b -> quiet fn b) /\ forall t i, t < s -> instrAt fn p t i -> leavesHeaders (iOp i) = true.

Record known (p s : nat) (ρ : env) (m : M) : Prop := mkKnown {
  kn_here a : knows (F p s) a -> holds a ρ m;
  kn_above d a : d <> p -> dominated_by (succs fn) d p -> reach (succs fn) 0 d -> knows (F d (stepsOf fn d)) a -> since p s d a -> holds a ρ m;
  kn_names x n : ParseInt x = Some n -> ρ !! x = None
}.

(** A name whose value is not negative wherever it is available. *)
Definition positiveName (x : string) : Prop :=
  x ∈ bwCounter w \/ (exists i, defs !! x = Some i /\ iOp i ∈ ["array.len"; "slice.len"]) \/ default [] (bwSteps w !! x) <> [].

Definition borrowed (x : string) : Prop := exists p s i, instrAt fn p s i /\ borrows plan (p, s) i x.

(** What a computed value is, from the instruction that computes it. *)
Record fact (x : string) (ρ : env) : Prop := mkFact {
  fa_alias e : K !! x = Some e -> exists v, ρ !! x = Some v /\ operand ρ e = Some v;
  fa_const i n : defs !! x = Some i -> iOp i = "const" -> vType (iResult i) = "i64" -> ParseInt (iImmediate i) = Some n ->
    exists v, ρ !! x = Some v /\ int64 v = Some n;
  fa_compare i a b : defs !! x = Some i -> iArgs i = [a; b] -> vType a = "i64" -> iOp i ∈ orders ->
    exists v k l, ρ !! x = Some v /\ valueOf ρ (vName a) = Some k /\ valueOf ρ (vName b) = Some l /\ truth v = foldComparison (iOp i) k l;
  fa_positive : positiveName x -> exists v n, ρ !! x = Some v /\ int64 v = Some n /\ (0 <= n)%Z;
  fa_present : borrowed x -> exists v r, ρ !! x = Some v /\ present v = Some r
}.

Definition deps (x : string) : list string :=
  match defs !! x with Some i => if String.eqb (iOp i) "phi" then [] else map vName (iArgs i) | None => [] end ++
  match K !! x with Some e => [vName e] | None => [] end.

(** ** Values *)

Lemma valueOf_agree (ρ ρ' : env) x : ρ !! x = ρ' !! x -> valueOf ρ x = valueOf ρ' x.
Proof. intros H. unfold valueOf. rewrite (operand_agree ρ ρ') by exact H. reflexivity. Qed.

Lemma valueOf_operand (ρ : env) v x : vType v = "i64" -> operand ρ v = Some x -> valueOf ρ (vName v) = int64 x.
Proof. intros Ht Ho. unfold valueOf. rewrite <- Ht. destruct v as [n t]. cbn [vName vType]. rewrite Ho. reflexivity. Qed.

Lemma valueOf_name (ρ : env) x v : ρ !! x = Some v -> valueOf ρ x = int64 v.
Proof. intros H. unfold valueOf, operand. cbn [vName]. rewrite H. reflexivity. Qed.

Lemma bounded_deps_local x (ρ ρ' : env) : ρ !! x = ρ' !! x -> (forall y, y ∈ deps x -> ρ !! y = ρ' !! y) -> fact x ρ -> fact x ρ'.
Proof.
  intros Hx Hd [H1 H2 H3 H4 H5]. rewrite Hx in *.
  split; [|exact H2| |exact H4|exact H5].
  - intros e He. destruct (H1 e He) as (v & Hv & Ho). exists v. split; [exact Hv|]. rewrite <- Ho. apply operand_agree. symmetry. apply Hd.
    unfold deps. rewrite He. apply elem_of_app. right. left.
  - intros i a b Hi Ha Ht Hop. destruct (H3 i a b Hi Ha Ht Hop) as (v & k & l & Hv & Hk & Hl & Htr). exists v, k, l.
    assert (Hin : forall y, y ∈ [vName a; vName b] -> ρ !! y = ρ' !! y).
    { intros y Hy. apply Hd. unfold deps. rewrite Hi. apply elem_of_app. left.
      destruct (String.eqb_spec (iOp i) "phi") as [E|]; [rewrite E in Hop; unfold orders in Hop; set_solver|]. rewrite Ha. exact Hy. }
    rewrite <- (valueOf_agree ρ ρ' (vName a)), <- (valueOf_agree ρ ρ' (vName b)) by (apply Hin; repeat (left || right)). auto.
Qed.

(** The operands of what a name is computed by, and what an alias stands for,
    are settled where it is. *)
Lemma alias_defined x e : K !! x = Some e -> exists p s j, instrAt fn p s j /\ resultName j = x /\ x <> "" /\ vType e = vType (iResult j) /\ vType e = "i64".
Proof.
  intros He. destruct (wk_alias _ _ _ _ _ _ (pl_walked _ _ _ _ P) x e He) as (p & s & i & _ & Hi & Hn & Hne & Hop & Ht & _).
  exists p, s, i. split; [exact Hi|]. split; [exact Hn|]. split; [exact Hne|]. split; [exact Ht|]. rewrite Ht.
  destruct (bo_called _ Hbo i (instrAt_in _ _ _ _ Hi)) as (_ & _ & H & _). apply H, Hop.
Qed.

Lemma alias_defined' x e : K !! x = Some e -> exists p s j, instrAt fn p s j /\ resultName j = x /\ x <> "" /\ vType e = vType (iResult j).
Proof. intros (p & s & j & H1 & H2 & H3 & H4 & _)%alias_defined. eauto 10. Qed.

Lemma def_here x d : defs !! x = Some d -> exists p s, instrAt fn p s d /\ resultName d = x /\ valueDefiningBlocks fn !! x = Some (mkDefinition p s).
Proof.
  intros Hd. destruct (instrDefs_some fn x d Hd) as (Hne & <- & p & s & Hi). exists p, s. split; [exact Hi|]. split; [reflexivity|].
  eapply defs_at; eassumption.
Qed.

Lemma bounded_deps_settled x d y : reach (succs fn) 0 (defBlock d) -> valueDefiningBlocks fn !! x = Some d -> y ∈ deps x ->
  settledAt fn (defBlock d) (defStep d) y.
Proof.
  intros Hr Hd Hy. unfold deps in Hy. apply elem_of_app in Hy as [Hy|Hy].
  - destruct (defs !! x) as [i|] eqn:Hi; [|inversion Hy]. destruct (String.eqb_spec (iOp i) "phi") as [|Hphi]; [inversion Hy|].
    apply list_elem_of_fmap in Hy as (a & -> & Ha). destruct (def_here x i Hi) as (p & s & (b & Hb & Hs) & _ & E).
    rewrite E in Hd. injection Hd as <-. exact (wf_uses _ _ _ (sound_wf _ _ _ Hsound) p b s i a Hb Hs Hphi (elem_args _ _ Ha)).
  - destruct (K !! x) as [e|] eqn:He; [|inversion Hy]. apply list_elem_of_singleton in Hy as ->.
    destruct (wk_alias _ _ _ _ _ _ (pl_walked _ _ _ _ P) x e He) as (p & s & i & Hf & Hi & <- & Hne & _ & _ & c & _ & Hk).
    rewrite (defs_at module params fn Hsound p s i Hi Hne) in Hd. injection Hd as <-.
    destruct (wk_settled _ _ _ _ _ _ (pl_walked _ _ _ _ P) p s _ Hf Hk) as [H _]. apply H. right. left.
Qed.

(** ** What facts say of operands *)

Section At.
Context (p s : nat) (ρ : env) (m : M).
Context (Hp : reach (succs fn) 0 p) (Hf : factsAt fn fact p s ρ).
Context (Hnames : forall x n, ParseInt x = Some n -> ρ !! x = None).

Lemma fact_settled x i : settledAt fn p s x -> defs !! x = Some i -> fact x ρ.
Proof. intros Hs Hi. destruct (def_here x i Hi) as (q & t & _ & _ & E). apply Hf. exists (mkDefinition q t). auto. Qed.

Lemma fact_aliased x e : settledAt fn p s x -> K !! x = Some e -> fact x ρ.
Proof.
  intros Hs He. destruct (alias_defined x e He) as (q & t & j & Hj & <- & Hne & _).
  apply Hf. exists (mkDefinition q t). pose proof (defs_at module params fn Hsound q t j Hj Hne) as E. auto.
Qed.

Lemma stands_value x y : settledAt fn p s x -> standsFor K x y -> valueOf ρ y = valueOf ρ x.
Proof.
  intros Hs [->|(e & He & ->)]; [reflexivity|]. destruct (fa_alias _ _ (fact_aliased x e Hs He) e He) as (v & Hv & Ho).
  destruct (alias_defined x e He) as (_ & _ & _ & _ & _ & _ & _ & Ht).
  rewrite (valueOf_operand ρ e v Ht Ho), (valueOf_name ρ x v Hv). reflexivity.
Qed.

Lemma constant_value v n : settledAt fn p s (vName v) -> typedRead fn v -> constantValue defs v = Some n -> valueOf ρ (vName v) = Some n.
Proof.
  intros Hs Ht. unfold constantValue. destruct (String.eqb_spec (vType v) "i64") as [Hty|]; [|discriminate]. cbn [negb].
  destruct (defs !! vName v) as [i|] eqn:Hi.
  - destruct (String.eqb_spec (iOp i) "const") as [Hop|]; [|discriminate]. intros Hn.
    destruct (def_here _ i Hi) as (q & t & Hat & Hname & _). destruct (instrDefs_some fn _ i Hi) as (Hne & _).
    assert (Hti : vType (iResult i) = "i64") by (rewrite <- (Ht i (instrAt_in _ _ _ _ Hat) Hname Hne); exact Hty).
    destruct (fa_const _ _ (fact_settled _ i Hs Hi) i n Hi Hop Hti Hn) as (x & Hx & Hint). rewrite (valueOf_name ρ _ x Hx). exact Hint.
  - intros Hn. destruct (literal_int v n Hty Hn) as (x & Hl & Hint). rewrite (valueOf_operand ρ v x Hty); [exact Hint|].
    unfold operand. rewrite (Hnames _ n Hn). exact Hl.
Qed.

Lemma nonNegative_value v : settledAt fn p s (vName v) -> typedRead fn v -> nonNegativeConstant defs v = true ->
  exists n, valueOf ρ (vName v) = Some n /\ (0 <= n)%Z.
Proof.
  intros Hs Ht. unfold nonNegativeConstant. destruct (constantValue defs v) as [n|] eqn:Hn; [|discriminate]. intros H%Z.leb_le.
  exists n. split; [apply constant_value; assumption | exact H].
Qed.

Lemma counter_named x : x ∈ bwCounter w -> exists i, defs !! x = Some i /\ iOp i = "phi" /\ vType (iResult i) = "i64".
Proof.
  intros Hx. destruct (pl_counted _ _ _ _ P) as [ex Hct]. pose proof (ct_phi _ _ _ _ _ Hct x Hx) as H.
  apply candidates_spec in H as (i & Hi & Hop & Ht & <- & _). exists i. split; [|auto]. destruct (elem_instrsOf fn i Hi) as (q & t & Hat).
  eapply instrDefs_at; [exact Hsound | exact Hat | apply (once_phis _ (sound_once _ _ _ Hsound) i Hi Hop)].
Qed.

Lemma positive_value v : settledAt fn p s (vName v) -> typedRead fn v -> (forall a, knows (F p s) a -> holds a ρ m) ->
  positive w K (F p s) v -> exists n, valueOf ρ (vName v) = Some n /\ (0 <= n)%Z.
Proof.
  intros Hs Ht Hk (x & Hx & H). rewrite <- (stands_value _ x Hs Hx). rewrite (pl_defs _ _ _ _ P) in H.
  assert (Hsx : settledAt fn p s x) by (eapply stands_settled; [exact Hsound | eapply pl_walked, P | exact Hp | exact Hs | exact Hx]).
  assert (Hname : forall i, defs !! x = Some i -> positiveName x -> exists n, valueOf ρ x = Some n /\ (0 <= n)%Z).
  { intros i Hi Hpos. destruct (fa_positive _ _ (fact_settled x i Hsx Hi) Hpos) as (u & n & Hu & Hn & H0).
    exists n. rewrite (valueOf_name ρ x u Hu). auto. }
  destruct H as [H|[H|[H|(i & Hi & Hop)]]].
  - apply (Hk (ANonneg x) H).
  - destruct (counter_named x H) as (i & Hi & _). apply (Hname i Hi). left. exact H.
  - rewrite (stands_value _ x Hs Hx). apply nonNegative_value; assumption.
  - apply (Hname i Hi). right. left. eauto.
Qed.

Lemma below_value x y : settledAt fn p s x -> settledAt fn p s y -> (forall a, knows (F p s) a -> holds a ρ m) ->
  below K (F p s) x y -> exists k l, valueOf ρ x = Some k /\ valueOf ρ y = Some l /\ (k < l)%Z.
Proof.
  intros Hx Hy Hk (x' & y' & Sx & Sy & H). rewrite <- (stands_value x x' Hx Sx), <- (stands_value y y' Hy Sy). apply (Hk (ALess x' y') H).
Qed.

Lemma compared c i a b : settledAt fn p s (vName c) -> defs !! vName c = Some i -> iArgs i = [a; b] -> vType a = "i64" -> iOp i ∈ orders ->
  exists v k l, operand ρ c = Some v /\ valueOf ρ (vName a) = Some k /\ valueOf ρ (vName b) = Some l /\ truth v = foldComparison (iOp i) k l.
Proof.
  intros Hs Hi Ha Ht Hop. destruct (fa_compare _ _ (fact_settled _ i Hs Hi) i a b Hi Ha Ht Hop) as (v & k & l & Hv & H).
  exists v, k, l. split; [unfold operand; rewrite Hv; reflexivity | exact H].
Qed.

(** The operands of what computes a settled condition. *)
Lemma compared_args c i a : settledAt fn p s (vName c) -> defs !! vName c = Some i -> iOp i ∈ orders -> a ∈ iArgs i ->
  settledAt fn p s (vName a) /\ typedRead fn a.
Proof.
  intros Hs Hi Hop Ha. assert (Hphi : iOp i <> "phi") by (intros E; rewrite E in Hop; unfold orders in Hop; set_solver).
  split; [eapply operand_settled; [exact Hsound | eapply pl_defs, P | exact Hp | exact Hs | rewrite (pl_defs _ _ _ _ P); exact Hi | exact Hphi | exact Ha]|].
  destruct (def_here _ i Hi) as (q & t & Hat & _). apply (bo_reads _ Hbo i a (instrAt_in _ _ _ _ Hat) (elem_args _ _ Ha)).
Qed.

Lemma says_order h i : (let op := if h : bool then iOp i else negatedComparison (iOp i) in op ∈ orders) -> iOp i ∈ orders.
Proof.
  cbn zeta. destruct h; [auto|]. unfold negatedComparison, orders.
  repeat (match goal with |- context [String.eqb (iOp i) ?s] => destruct (String.eqb_spec (iOp i) s) as [->|]; [set_solver|] end). set_solver.
Qed.

Lemma says_holds c h a v : settledAt fn p s (vName c) -> operand ρ c = Some v -> truth v = Some h -> says w K c h a -> holds a ρ m.
Proof.
  intros Hs Hv Htr (i & x & y & x' & y' & Hi & Ha & Hty & Sx & Sy & Hop). rewrite (pl_defs _ _ _ _ P) in Hi, Hop. cbn zeta in Hop.
  assert (Hord : iOp i ∈ orders).
  { apply (says_order h). cbn zeta. unfold orders. destruct Hop as [[-> _]|[[-> _]|[[-> _]|[-> _]]]]; set_solver. }
  destruct (compared c i x y Hs Hi Ha Hty Hord) as (v' & k & l & Hv' & Hk & Hl & Hc). assert (v' = v) as -> by congruence.
  destruct (compared_args c i x Hs Hi Hord ltac:(rewrite Ha; left)) as [Hsx Htx].
  destruct (compared_args c i y Hs Hi Hord ltac:(rewrite Ha; right; left)) as [Hsy Hty'].
  assert (Ex : valueOf ρ x' = Some k) by (rewrite (stands_value _ x' Hsx Sx); exact Hk).
  assert (Ey : valueOf ρ y' = Some l) by (rewrite (stands_value _ y' Hsy Sy); exact Hl).
  assert (Hposx : nonNegativeConstant defs x = true -> (0 <= k)%Z).
  { intros H. destruct (nonNegative_value x Hsx Htx H) as (n & Hn & H0). congruence. }
  assert (Hposy : nonNegativeConstant defs y = true -> (0 <= l)%Z).
  { intros H. destruct (nonNegative_value y Hsy Hty' H) as (n & Hn & H0). congruence. }
  rewrite Hc in Htr. clear Hc Hs Hi Sx Sy Hv Hv' Hk Hl. unfold orders in Hord.
  repeat (apply elem_of_cons in Hord as [E|Hord]; [rewrite E in Htr, Hop|]); try (inversion Hord; fail);
    cbn in Htr; injection Htr as <-;
    (destruct (_ <? _)%Z eqn:Hcmp || destruct (_ <=? _)%Z eqn:Hcmp);
    rewrite ?Z.ltb_lt, ?Z.leb_le, ?Z.ltb_ge, ?Z.leb_gt in Hcmp; cbn in Hop;
    destruct Hop as [[Ho ->]|[[Ho ->]|[(Ho & Hn & ->)|(Ho & Hn & ->)]]]; try discriminate Ho; cbn [holds];
    repeat match goal with H : _ = true -> _ |- _ => first [specialize (H Hn) | clear H] end;
    rewrite ?Ex, ?Ey; first [exists k, l; split_and!; [reflexivity | reflexivity | lia] | exists l, k; split_and!; [reflexivity | reflexivity | lia] |
      exists k; split; [reflexivity | lia] | exists l; split; [reflexivity | lia]].
Qed.

(** The index of an answered access is in range. *)
Lemma inRange_holds array index : s <= stepsOf fn p -> settledAt fn p s (vName array) -> settledAt fn p s (vName index) -> typedRead fn index ->
  (forall a, knows (F p s) a -> holds a ρ m) -> inRange w K (F p s) array index -> holds (AChecked (vName array) (vName index)) ρ m.
Proof.
  intros Hle Ha Hx Ht Hk [H|(Hpos & len & Hlen & Hb)]; [apply (Hk (AChecked (vName array) (vName index)) H)|].
  destruct (positive_value index Hx Ht Hk Hpos) as (k & Ek & H0).
  pose proof (Hk (ALength false (vName array) len) Hlen) as (r & n & Hr & Hn & En).
  assert (Hsl : settledAt fn p s (vName len)).
  { destruct (wk_settled _ _ _ _ _ _ (pl_walked _ _ _ _ P) p s (ALength false (vName array) len) (conj Hp Hle) Hlen) as [H _].
    apply H. right. left. }
  destruct (below_value _ _ Hx Hsl Hk Hb) as (k' & l & Ek' & El & Hlt). assert (k' = k) as -> by congruence. assert (l = n) as -> by congruence.
  exists r, n, k. auto 10.
Qed.
End At.

(** ** One instruction *)

Abbreviation reachedAt := (reached fn fact known).

Lemma plain_operands i : iFields i = [] -> iCleanups i = [] -> readOperands i = iArgs i.
Proof. intros Hf Hc. unfold readOperands. rewrite Hf, Hc. cbn. apply app_nil_r. Qed.

(** What an instruction other than a phi ran. *)
Lemma covered_ran from (e ρ : env) m i v m' : iOp i <> "phi" -> runInstr (machine := covered) from e ρ m i = Next v m' ->
  exists vs, mapM (operand ρ) (readOperands i) = Some vs /\ operation (shape i) vs m = Next (X := X) v m' /\ setRefused (shape i) vs m = false.
Proof.
  intros Hop. unfold runInstr. rewrite (proj2 (String.eqb_neq _ _) Hop). change (operand (machine := covered)) with (operand (X := X) (V := V)).
  destruct (mapM (operand ρ) (readOperands i)) as [vs|]; [|discriminate]. cbn [operation without].
  destruct (setRefused (shape i) vs m) eqn:Hr; [discriminate|]. intros H. exists vs. auto.
Qed.

(** A bounds operation ran on the values of its arguments. *)
Lemma bounds_ran p s from (e ρ : env) m i v m' : instrAt fn p s i -> iOp i ∈ boundsOps -> runInstr (machine := covered) from e ρ m i = Next v m' ->
  exists vs, mapM (operand ρ) (iArgs i) = Some vs /\ operation (shape i) vs m = Next (X := X) v m' /\ setRefused (shape i) vs m = false.
Proof.
  intros Hi Hop Hrun. destruct (bo_called _ Hbo i (instrAt_in _ _ _ _ Hi)) as (H & _). destruct (H Hop) as [Hf Hc].
  rewrite <- (plain_operands i Hf Hc). apply (covered_ran from e); [|exact Hrun]. intros E. rewrite E in Hop. unfold boundsOps, accesses, orders in Hop. set_solver.
Qed.

Lemma header_kept from (e ρ : env) m i v m' a : runInstr (machine := covered) from e ρ m i = Next v m' -> leavesHeaders (iOp i) = true ->
  header m' a = header m a.
Proof.
  intros Hrun Hl. destruct (decide (iOp i = "phi")) as [Hop|Hop].
  - unfold runInstr in Hrun. rewrite Hop in Hrun. cbn in Hrun. destruct (phiValue _ _ _); [|discriminate]. congruence.
  - destruct (covered_ran from e ρ m i v m' Hop Hrun) as (vs & _ & H & _). eapply headers_left; [|exact H]. exact Hl.
Qed.

Lemma atom_assign p s i a v (ρ : env) m : instrAt fn p s i -> (forall x, x ∈ atomNames a -> settledAt fn p s x) -> holds a ρ m -> holds a (assign ρ i v) m.
Proof.
  intros Hi Hs. assert (Hsame : forall x, x ∈ atomNames a -> assign ρ i v !! x = ρ !! x).
  { intros x Hx. apply (settled_assign module params fn p s i x v ρ Hsound Hi), Hs, Hx. }
  assert (Hval : forall x, x ∈ atomNames a -> valueOf (assign ρ i v) x = valueOf ρ x) by (intros x Hx; apply valueOf_agree, Hsame, Hx).
  destruct a; cbn [holds atomNames] in *; rewrite ?Hsame, ?Hval by repeat (left || right); auto.
Qed.

Lemma holds_header a (ρ : env) m m' : (forall r, header m' r = header m r) -> holds a ρ m -> holds a ρ m'.
Proof.
  intros Hh. destruct a as [| |[]|]; cbn [holds]; auto; [intros (r & n & H1 & H2 & H3) | intros (r & n & k & H1 & H2 & H3)]; exists r, n;
    rewrite ?Hh; [|exists k]; rewrite ?Hh; auto.
Qed.

(** What an instruction leaves known. *)
Lemma atom_kept p s i a v from (e ρ : env) m m' : instrAt fn p s i -> (forall x, x ∈ atomNames a -> settledAt fn p s x) ->
  forgetsAtom i a = false -> runInstr (machine := covered) from e ρ m i = Next v m' -> holds a ρ m -> holds a (assign ρ i v) m'.
Proof.
  intros Hi Hs Hf Hrun H. apply (atom_assign p s i a v ρ m' Hi Hs). unfold forgetsAtom in Hf.
  destruct (aboutHeader a) eqn:Hab.
  - cbn [andb] in Hf. apply negb_false_iff in Hf. eapply holds_header; [|exact H]. intros r. eapply header_kept; eassumption.
  - destruct a as [| |[]|]; try discriminate Hab; exact H.
Qed.

Lemma assign_result (ρ : env) i v : resultName i <> "" -> assign ρ i v !! resultName i = Some v.
Proof. intros Hne. unfold assign, resultName in *. rewrite (proj2 (String.eqb_neq _ _) Hne). apply lookup_insert_eq. Qed.

Lemma args_settled p s i a : instrAt fn p s i -> iOp i <> "phi" -> a ∈ iArgs i -> settledAt fn p s (vName a) /\ typedRead fn a.
Proof.
  intros Hi Hop Ha. split; [|apply (bo_reads _ Hbo i a (instrAt_in _ _ _ _ Hi) (elem_args _ _ Ha))].
  destruct Hi as (b & Hb & Hs). exact (wf_uses _ _ _ (sound_wf _ _ _ Hsound) p b s i a Hb Hs Hop (elem_args _ _ Ha)).
Qed.

(** A container is computed, not spelled. *)
Lemma header_computed (ρ : env) a r m n : operand ρ a = Some r -> header m r = Some n -> ρ !! vName a = Some r.
Proof.
  unfold operand. destruct (ρ !! vName a); [auto|]. intros Hl Hh. destruct (literal_plain a r Hl) as [H _]. rewrite H in Hh. discriminate.
Qed.

Lemma view_computed (ρ : env) a r n : operand ρ a = Some r -> view r = Some n -> ρ !! vName a = Some r.
Proof.
  unfold operand. destruct (ρ !! vName a); [auto|]. intros Hl Hh. destruct (literal_plain a r Hl) as [_ H]. rewrite H in Hh. discriminate.
Qed.

(** A length read returns the length. *)
Lemma length_ran p s from (e ρ : env) m i v m' : instrAt fn p s i -> iOp i ∈ ["array.len"; "slice.len"] ->
  runInstr (machine := covered) from e ρ m i = Next v m' ->
  exists c r n, iArgs i = [c] /\ ρ !! vName c = Some r /\ int64 v = Some n /\
    (if String.eqb (iOp i) "slice.len" then view r else header m r) = Some n.
Proof.
  intros Hi Hop Hrun. destruct (bo_called _ Hbo i (instrAt_in _ _ _ _ Hi)) as (_ & _ & H & _). destruct (H Hop) as (Hlen & _).
  assert (Hin : iOp i ∈ boundsOps) by (unfold boundsOps, accesses, orders; set_solver).
  destruct (bounds_ran p s from e ρ m i v m' Hi Hin Hrun) as (vs & Hvs & Hrun' & _). destruct (iArgs i) as [|c [|]]; try discriminate Hlen.
  cbn [mapM] in Hvs. destruct (operand ρ c) as [r|] eqn:Hr; [|discriminate]. injection Hvs as <-. exists c, r.
  apply elem_of_cons in Hop as [E|E%list_elem_of_singleton]; rewrite E; cbn.
  - destruct (array_len (shape i) r m v m' E Hrun') as (n & Hn & Hv). exists n. split; [reflexivity|]. split; [eapply header_computed; eassumption | auto].
  - destruct (slice_len (shape i) r m v m' E Hrun') as (n & Hn & Hv). exists n. split; [reflexivity|]. split; [eapply view_computed; eassumption | auto].
Qed.

Lemma access_op op : op ∈ accesses -> op <> "phi" /\ op ∈ boundsOps.
Proof. unfold boundsOps. intros H. split; [intros ->; unfold accesses in H; set_solver | set_solver]. Qed.

(** An Array operation that ran on an index in range, or one that checks it. *)
Lemma access_ran p s from (e ρ : env) m i v m' array index rest : instrAt fn p s i -> iOp i ∈ ["array.get_or_panic"; "array.set"] ->
  iArgs i = array :: index :: rest -> runInstr (machine := covered) from e ρ m i = Next v m' ->
  holds (AChecked (vName array) (vName index)) ρ m.
Proof.
  intros Hi Hop Ha Hrun. assert (Hacc : iOp i ∈ accesses) by (unfold accesses; set_solver). destruct (access_op _ Hacc) as [_ Hin].
  destruct (bo_called _ Hbo i (instrAt_in _ _ _ _ Hi)) as (_ & _ & _ & _ & _ & H & _). destruct (H Hacc) as ([_ Hlen] & Hty & _). clear H.
  rewrite Ha in Hty. specialize (Hty index eq_refl).
  destruct (bounds_ran p s from e ρ m i v m' Hi Hin Hrun) as (vs & Hvs & Hrun' & Href). rewrite Ha in Hvs. cbn [mapM] in Hvs.
  destruct (operand ρ array) as [r|] eqn:Hr; [|discriminate]. destruct (operand ρ index) as [x|] eqn:Hx; [|discriminate].
  destruct (mapM (operand ρ) rest) as [us|] eqn:Hus; [|discriminate]. injection Hvs as <-. cbn [holds]. rewrite (valueOf_operand ρ index x Hty Hx).
  apply elem_of_cons in Hop as [E|E%list_elem_of_singleton].
  - rewrite Ha, E in Hlen. cbn in Hlen. destruct rest; [|discriminate Hlen]. injection Hus as <-.
    pose proof (get_loads (shape i) r x m E) as H. rewrite Hrun' in H. destruct H as (n & k & Hn & Hk & Hb & _).
    exists r, n, k. split; [eapply header_computed; eassumption | auto].
  - unfold setRefused in Href. cbn [shape iOp] in Href. rewrite E in Href. cbn [String.eqb Ascii.eqb Bool.eqb andb] in Href.
    destruct (header m r) as [n|] eqn:Hn; [|discriminate]. destruct (int64 x) as [k|]; [|discriminate].
    apply negb_false_iff, andb_true_iff in Href as [H1%Z.leb_le H2%Z.ltb_lt]. exists r, n, k. split; [eapply header_computed; eassumption | auto].
Qed.

Lemma len_named i : i ∈ instrsOf (fBlocks fn) -> iOp i ∈ ["array.len"; "slice.len"] -> resultName i <> "".
Proof. intros Hi Hop. destruct (bo_called _ Hbo i Hi) as (_ & _ & H & _). apply H, Hop. Qed.

(** What an instruction teaches holds after it. *)
Lemma learned_holds p s from e (ρ : env) m i v m' a : reachedAt p s from e ρ m -> instrAt fn p s i ->
  runInstr (machine := covered) from e ρ m i = Next v m' -> learns w K i a -> holds a (assign ρ i v) m'.
Proof.
  intros [Hp Hf _ Hk] Hi Hrun Hl. destruct Hl as [(Hop & c & rest & Ha & Hs)|[(Hop & c & Ha & ->)|(Hop & array & index & rest & Ha & ->)]].
  - assert (Hphi : iOp i <> "phi") by congruence.
    destruct (args_settled p s i c Hi Hphi ltac:(rewrite Ha; left)) as [Hsc _].
    destruct (bounds_ran p s from e ρ m i v m' Hi ltac:(rewrite Hop; left) Hrun) as (vs & Hvs & Hrun' & _). rewrite Ha in Hvs. cbn [mapM] in Hvs.
    destruct (operand ρ c) as [cv|] eqn:Hcv; [|discriminate]. destruct (mapM (operand ρ) rest) as [us|]; [|discriminate]. injection Hvs as <-.
    pose proof (cond_fail_passes (shape i) cv us m v m' Hop Hrun') as Htr.
    destruct (says_settled module params fn Hsound len_named w (pl_defs _ _ _ _ P) _ _ F plan p s c false a (pl_walked _ _ _ _ P) Hp Hsc Hs) as [Hnames _].
    apply (atom_kept p s i a v from e ρ m m' Hi Hnames); [apply leaves_keeps; rewrite Hop; reflexivity | exact Hrun|].
    apply (says_holds p s ρ m Hp Hf (kn_names _ _ _ _ Hk) c false a cv Hsc Hcv Htr Hs).
  - destruct (length_ran p s from e ρ m i v m' Hi Hop Hrun) as (c' & r & n & Ha' & Hr & Hv & Hlen). assert (c' = c) as -> by congruence.
    destruct (bo_called _ Hbo i (instrAt_in _ _ _ _ Hi)) as (_ & _ & H & _). destruct (H Hop) as (_ & Hne & _).
    assert (Hphi : iOp i <> "phi") by (intros E; rewrite E in Hop; set_solver).
    destruct (args_settled p s i c Hi Hphi ltac:(rewrite Ha; left)) as [Hsc _]. cbn [holds]. exists r, n.
    rewrite (settled_assign module params fn p s i (vName c) v ρ Hsound Hi Hsc). split; [exact Hr|]. split.
    + assert (Hh : header m' r = header m r).
      { eapply header_kept; [exact Hrun|]. apply elem_of_cons in Hop as [-> | ->%list_elem_of_singleton]; reflexivity. }
      destruct (String.eqb (iOp i) "slice.len"); [exact Hlen | rewrite Hh; exact Hlen].
    + rewrite (valueOf_name _ (vName (iResult i)) v); [exact Hv | exact (assign_result ρ i v Hne)].
  - assert (Hphi : iOp i <> "phi") by (intros E; rewrite E in Hop; set_solver).
    destruct (args_settled p s i array Hi Hphi ltac:(rewrite Ha; left)) as [Hsa _].
    destruct (args_settled p s i index Hi Hphi ltac:(rewrite Ha; right; left)) as [Hsx _].
    apply (atom_kept p s i (AChecked (vName array) (vName index)) v from e ρ m m' Hi); [cbn; set_solver | | exact Hrun | eapply access_ran; eassumption].
    apply leaves_keeps. apply elem_of_cons in Hop as [-> | ->%list_elem_of_singleton]; reflexivity.
Qed.

Lemma at_walked p s i : reach (succs fn) 0 p -> instrAt fn p s i -> finished fn (reach (succs fn) 0) p s.
Proof. intros Hp Hi. split; [exact Hp|]. apply instrAt_steps in Hi. lia. Qed.

Lemma atoms_step p s i from (e ρ : env) m v m' : reachedAt p s from e ρ m -> instrAt fn p s i ->
  runInstr (machine := covered) from e ρ m i = Next v m' -> known p (S s) (assign ρ i v) m'.
Proof.
  intros Hre Hi Hrun. pose proof Hre as [Hp Hf _ [Hk1 Hk2 Hk3]]. pose proof (at_walked p s i Hp Hi) as Hfin. pose proof (pl_walked _ _ _ _ P) as R. split.
  - intros a Ha. destruct (wk_step _ _ _ _ _ _ R p s i a Hfin Hi Ha) as [[H Hforget]|H]; [|eapply learned_holds; eassumption].
    eapply atom_kept; [exact Hi | apply (wk_settled _ _ _ _ _ _ R p s a Hfin H) | exact Hforget | exact Hrun | apply Hk1, H].
  - intros d a Hne Hdom Hd Ha Hsince. destruct (wk_settled _ _ _ _ _ _ R d (stepsOf fn d) a (conj Hd (le_n _)) Ha) as [Hs _].
    assert (Hup : forall x, x ∈ atomNames a -> settledAt fn p s x).
    { intros x Hx. apply Hs in Hx. apply (settled_enter fn d (stepsOf fn d) p x Hp Hne Hdom) in Hx. clear -Hx. induction s; auto using settled_S. }
    apply (atom_kept p s i a v from e ρ m m' Hi Hup); [|exact Hrun|].
    + unfold forgetsAtom. destruct (aboutHeader a) eqn:Hab; [|reflexivity]. destruct (Hsince Hab) as [_ H]. rewrite (H s i ltac:(lia) Hi). reflexivity.
    + apply (Hk2 d a Hne Hdom Hd Ha). intros Hab. destruct (Hsince Hab) as [H1 H2]. split; [exact H1|]. intros t j Ht Hj. apply (H2 t j); [lia | exact Hj].
  - intros x n Hn. unfold assign. destruct (String.eqb _ ""); [apply (Hk3 x n Hn)|]. rewrite lookup_insert_ne; [apply (Hk3 x n Hn)|].
    intros <-. destruct (bo_names _ Hbo i (instrAt_in _ _ _ _ Hi)) as [_ H]. unfold resultName in H. congruence.
Qed.

Lemma block_named q target b : blockIndex fn !! target = Some q -> fBlocks fn !! q = Some b -> bName b = target.
Proof. intros H Hb. apply blockIndex_Some in H as (c & Hc & Hn). congruence. Qed.

(** What the edge that was taken says. *)
Lemma edge_holds p q b (ρ : env) m target a : reach (succs fn) 0 p -> q ∈ succs fn p -> factsAt fn fact p (stepsOf fn p) ρ -> known p (stepsOf fn p) ρ m ->
  fBlocks fn !! p = Some b -> runTerminator (X := X) ρ m (bTerminator b) = inl target -> blockIndex fn !! target = Some q ->
  forall d, edgeSays fn w K d q a -> holds a ρ m.
Proof.
  intros Hp Hq Hf Hk Hb Ht Hn d (Hsole & bd & bp & Hbd & Hbp & Hop & Hne & Hs). specialize (Hsole p Hq). subst d.
  assert (bd = b) as -> by congruence. rewrite (block_named q target bp Hn Hbp) in Hs.
  unfold runTerminator in Ht. rewrite Hop in Ht. cbn in Ht.
  destruct (operand ρ (tCond (bTerminator b))) as [v|] eqn:Hv; [|discriminate]. cbn [mbind option_bind] in Ht.
  assert (Hsc : settledAt fn p (stepsOf fn p) (vName (tCond (bTerminator b)))).
  { unfold stepsOf. rewrite Hb. apply (wf_ends_uses _ _ _ (sound_wf _ _ _ Hsound) p b (tCond (bTerminator b)) Hb). left. }
  apply (says_holds p (stepsOf fn p) ρ m Hp Hf (kn_names _ _ _ _ Hk) (tCond (bTerminator b)) (String.eqb (tTarget (bTerminator b)) target) a v Hsc Hv); [|exact Hs].
  destruct (truth v) as [[]|]; [|  | discriminate]; injection Ht as <-; [rewrite String.eqb_refl; reflexivity|].
  rewrite (proj2 (String.eqb_neq _ _) Hne). reflexivity.
Qed.

Lemma atoms_jump p q b (ρ : env) m target : reach (succs fn) 0 p -> q ∈ succs fn p -> factsAt fn fact p (stepsOf fn p) ρ -> known p (stepsOf fn p) ρ m ->
  fBlocks fn !! p = Some b -> runTerminator (X := X) ρ m (bTerminator b) = inl target -> blockIndex fn !! target = Some q -> known q 0 ρ m.
Proof.
  intros Hp Hq Hf Hk Hb Ht Hn. pose proof Hk as [Hk1 Hk2 Hk3].
  assert (Hdom : forall d a, d <> q -> dominated_by (succs fn) d q -> reach (succs fn) 0 d -> knows (F d (stepsOf fn d)) a ->
    (aboutHeader a = true -> forall b, between (succs fn) d q b -> quiet fn b) -> holds a ρ m).
  { intros d a Hne Hd Hr Ha Hq'. destruct (decide (d = p)) as [->|Hdp]; [apply Hk1, Ha|]. apply (Hk2 d a); [exact Hdp | | exact Hr | exact Ha|].
    - intros l Hl. specialize (Hd (l ++ [q]) (path_step _ _ _ _ _ Hl Hq)).
      apply elem_of_app in Hd as [Hd|Hd%list_elem_of_singleton]; [exact Hd | contradiction].
    - intros Hab. specialize (Hq' Hab). split; [|intros t i _ Hi; apply (Hq' p) with (s := t); [apply between_pred; auto | exact Hi]].
      intros c Hc. apply Hq'. eapply between_extend; [|exact Hq | exact Hc]. auto. }
  split; [| |exact Hk3].
  - intros a Ha. destruct (pl_begun _ _ _ _ P q) as [H|(d & Hd & Hne & Hdd & Hc)]; [eapply reach_step; eassumption | destruct (H a Ha)|].
    destruct (Hc a Ha) as [[H1 H2]|H]; [eapply Hdom; eassumption | exact (edge_holds p q b ρ m target a Hp Hq Hf Hk Hb Ht Hn d H)].
  - intros d a Hne Hd Hr Ha Hs. eapply Hdom; eauto. intros Hab. apply (Hs Hab).
Qed.

Lemma atoms_start (args : list V) m : known 0 0 (bindParams (fParams fn) args) m.
Proof.
  assert (Hno : forall d, d <> 0 -> ~ dominated_by (succs fn) d 0).
  { intros d Hne Hd. specialize (Hd [0] (path_one _ _)). apply list_elem_of_singleton in Hd. contradiction. }
  split.
  - intros a Ha. destruct (pl_begun _ _ _ _ P 0 (reach_refl _ _)) as [H|(d & _ & Hne & Hd & _)]; [destruct (H a Ha) | destruct (Hno d Hne Hd)].
  - intros d a Hne Hd. destruct (Hno d Hne Hd).
  - intros x n Hn. unfold bindParams. apply not_elem_of_list_to_map_1. intros Hin. apply list_elem_of_fmap in Hin as ([y v] & -> & Hin). cbn in Hn.
    apply elem_of_zip_l, list_elem_of_fmap in Hin as (prm & -> & Hin). rewrite (bo_params _ Hbo prm Hin) in Hn. discriminate.
Qed.

(** ** What a computed value is *)

(** An access in range: the values of the Array and of the index. *)
Lemma access_operands (ρ : env) m array index : vType index = "i64" -> holds (AChecked (vName array) (vName index)) ρ m ->
  forall a x, operand ρ array = Some a -> operand ρ index = Some x -> exists n k, header m a = Some n /\ int64 x = Some k /\ (0 <= k < n)%Z.
Proof.
  intros Ht (r & n & k & Hr & Hn & Hk & Hb) a x Ha Hx. unfold operand in Ha. rewrite Hr in Ha. injection Ha as <-.
  rewrite (valueOf_operand ρ index x Ht Hx) in Hk. exists n, k. auto.
Qed.

(** What is answered at an instruction of the run. *)
Lemma answered_holds p s from e (ρ : env) m i array index rest : reachedAt p s from e ρ m -> instrAt fn p s i -> (p, s) ∈ bpAnswered plan ->
  iArgs i = array :: index :: rest -> iOp i ∈ accesses /\ vType index = "i64" /\ holds (AChecked (vName array) (vName index)) ρ m.
Proof.
  intros [Hp Hf _ Hk] Hi Hans Ha. destruct (wk_answered _ _ _ _ _ _ (pl_walked _ _ _ _ P) (p, s) Hans) as (j & [_ Hle] & Hj & Hacc). cbn [fst snd] in *.
  rewrite (instrAt_fun fn _ _ _ _ Hj Hi) in Hacc. destruct Hacc as (Hop & array' & index' & rest' & Ha' & _ & Hr).
  rewrite Ha in Ha'. injection Ha' as <- <- <-. split; [exact Hop|]. destruct (access_op _ Hop) as [Hphi _].
  destruct (bo_called _ Hbo i (instrAt_in _ _ _ _ Hi)) as (_ & _ & _ & _ & _ & H & _). destruct (H Hop) as (_ & Hty & _).
  rewrite Ha in Hty. specialize (Hty index eq_refl). split; [exact Hty|].
  destruct (args_settled p s i array Hi Hphi ltac:(rewrite Ha; left)) as [Hsa _].
  destruct (args_settled p s i index Hi Hphi ltac:(rewrite Ha; right; left)) as [Hsx Htx].
  apply (inRange_holds p s ρ m Hp Hf (kn_names _ _ _ _ Hk)); auto. apply (kn_here _ _ _ _ Hk).
Qed.

(** The value a phi takes was computed where control came from. *)
Lemma phi_ran p s from e (ρ : env) m i v m' : reachedAt p s from e ρ m -> instrAt fn p s i -> iOp i = "phi" ->
  runInstr (machine := covered) from e ρ m i = Next v m' ->
  exists inc q m0, inc ∈ iIncoming i /\ operand e (inValue inc) = Some v /\ reach (succs fn) 0 q /\ factsAt fn fact q (stepsOf fn q) e /\
    known q (stepsOf fn q) e m0 /\ settledAt fn q (stepsOf fn q) (vName (inValue inc)).
Proof.
  intros [Hp _ He _] (b & Hb & Hi) Hop Hrun. pose proof (sound_wf _ _ _ Hsound) as Hwf. unfold runInstr in Hrun. rewrite Hop in Hrun. cbn in Hrun.
  unfold phiValue in Hrun. destruct (List.find _ (iIncoming i)) as [inc|] eqn:Hinc; [|discriminate].
  pose proof (List.find_some _ _ Hinc) as [Hin Hfrom]. apply String.eqb_eq in Hfrom. apply list_elem_of_In in Hin.
  change (operand (machine := covered)) with (operand (X := X) (V := V)) in Hrun.
  destruct (operand e (inValue inc)) as [x|] eqn:Hx; [|discriminate]. injection Hrun as <- <-.
  destruct (wf_phis _ _ _ Hwf p b i Hb (list_elem_of_lookup_2 _ _ _ Hi) Hop) as [(Hcov & _ & _) Hdom].
  destruct (Hcov inc Hin) as (q & Hq & Hsucc).
  destruct He as [[-> ->]|(q' & c & m0 & Hs & Hq' & Hc & Hn & Hfe & Hke)].
  - exfalso. unfold at_ in Hq. rewrite Hfrom in Hq. apply blockIndex_Some in Hq as (c & Hc & Hn).
    apply (sound_named _ _ _ Hsound). rewrite <- Hn. apply list_elem_of_fmap_2. eapply list_elem_of_lookup_2, Hc.
  - assert (q = q') as ->.
    { unfold at_ in Hq. rewrite Hfrom, <- Hn in Hq. apply blockIndex_Some in Hq as (c' & Hc' & Hn').
      eapply (NoDup_lookup _ _ _ (bName c) (sound_blocks _ _ _ Hsound)); rewrite list_lookup_fmap;
        [rewrite Hc'; cbn; congruence | rewrite Hc; reflexivity]. }
    exists inc, q', m0. split; [exact Hin|]. split; [exact Hx|]. split; [exact Hq'|]. split; [exact Hfe|]. split; [exact Hke|].
    intros d Hd. pose proof (Hdom inc d q' Hin Hd Hq) as Hdq.
    destruct (decide (defBlock d = q')) as [E|E]; [left | right; auto]. split; [exact E|].
    rewrite <- E. eapply valueDefiningBlocks_valid, Hd.
Qed.

Section Establish.
Context (p s : nat) (from : string) (e ρ : env) (m : M) (i : Instr) (v : V) (m' : M).
Context (Hre : reachedAt p s from e ρ m) (Hi : instrAt fn p s i).
Context (Hrun : runInstr (machine := covered) from e ρ m i = Next v m') (Hne : resultName i <> "").

Lemma defs_result : defs !! resultName i = Some i.
Proof. eapply instrDefs_at; eassumption. Qed.

Lemma settled_value x : settledAt fn p s x -> valueOf (assign ρ i v) x = valueOf ρ x.
Proof. intros Hs. apply valueOf_agree, (settled_assign module params fn p s i x v ρ Hsound Hi Hs). Qed.

Lemma establish_alias al : K !! resultName i = Some al -> operand (assign ρ i v) al = Some v.
Proof.
  intros He. destruct (wk_alias _ _ _ _ _ _ (pl_walked _ _ _ _ P) _ _ He) as (q & t & j & Hfin & Hj & Hn & _ & Hop & Hty & c & Ha & Hk).
  pose proof (defs_at module params fn Hsound p s i Hi Hne) as D1.
  pose proof (defs_at module params fn Hsound q t j Hj ltac:(congruence)) as D2. rewrite Hn, D1 in D2. injection D2 as <- <-.
  rewrite (instrAt_fun fn _ _ _ _ Hj Hi) in *. destruct (wk_settled _ _ _ _ _ _ (pl_walked _ _ _ _ P) p s _ Hfin Hk) as [Hset _].
  destruct (kn_here _ _ _ _ (re_inv _ _ _ _ _ _ _ _ _ Hre) _ Hk) as (r & n & Hr & Hlen & Hval).
  destruct (length_ran p s from e ρ m i v m' Hi Hop Hrun) as (c' & r' & n' & Ha' & Hr' & Hv & Hlen').
  assert (c' = c) as -> by congruence. assert (r' = r) as -> by congruence. assert (n' = n) as -> by congruence.
  rewrite <- (settled_value (vName al)) in Hval by (apply Hset; right; left).
  destruct (bo_called _ Hbo i (instrAt_in _ _ _ _ Hi)) as (_ & _ & H & _). destruct (H Hop) as (_ & _ & Hint). rewrite Hint in Hty.
  unfold valueOf in Hval. destruct al as [x ty]. cbn [vName vType] in *. subst ty. destruct (operand _ _) as [u|]; [|discriminate].
  cbn in Hval. f_equal. eapply int64_inj; eassumption.
Qed.

Lemma establish_const n : iOp i = "const" -> vType (iResult i) = "i64" -> ParseInt (iImmediate i) = Some n -> int64 v = Some n.
Proof.
  intros Hop Hty Hn. destruct (bounds_ran p s from e ρ m i v m' Hi ltac:(rewrite Hop; unfold boundsOps; set_solver) Hrun) as (vs & Hvs & Hrun' & _).
  destruct (bo_called _ Hbo i (instrAt_in _ _ _ _ Hi)) as (_ & _ & _ & _ & H & _). rewrite (H Hop) in Hvs. injection Hvs as <-.
  eapply (const_int (shape i)); eassumption.
Qed.

Lemma establish_compare a b : iArgs i = [a; b] -> vType a = "i64" -> iOp i ∈ orders ->
  exists k l, valueOf (assign ρ i v) (vName a) = Some k /\ valueOf (assign ρ i v) (vName b) = Some l /\ truth v = foldComparison (iOp i) k l.
Proof.
  intros Ha Hta Hop. assert (Hin : iOp i ∈ boundsOps) by (unfold boundsOps; set_solver).
  assert (Hphi : iOp i <> "phi") by (intros E; rewrite E in Hop; unfold orders in Hop; set_solver).
  destruct (bo_called _ Hbo i (instrAt_in _ _ _ _ Hi)) as (_ & _ & _ & _ & _ & _ & H). pose proof (proj1 (H a b Ha) Hop Hta) as Htb.
  destruct (bounds_ran p s from e ρ m i v m' Hi Hin Hrun) as (vs & Hvs & Hrun' & _). rewrite Ha in Hvs. cbn [mapM] in Hvs.
  destruct (operand ρ a) as [x|] eqn:Hx; [|discriminate]. destruct (operand ρ b) as [y|] eqn:Hy; [|discriminate]. injection Hvs as <-.
  destruct (compare_int (shape i) (unnamed a) (unnamed b) x y m v m' Hop) as (k & l & Hk & Hl & Htr); auto; [cbn [shape iArgs]; rewrite Ha; reflexivity|].
  exists k, l. rewrite !settled_value by (apply (args_settled p s i); [exact Hi | exact Hphi | rewrite Ha; repeat (left || right)]).
  rewrite (valueOf_operand ρ a x Hta Hx), (valueOf_operand ρ b y Htb Hy). auto.
Qed.

Lemma establish_present : borrowed (resultName i) -> exists r, present v = Some r.
Proof.
  intros (q & t & j & Hj & Hans & Hop & Hn).
  pose proof (defs_at module params fn Hsound p s i Hi Hne) as D1.
  pose proof (defs_at module params fn Hsound q t j Hj ltac:(congruence)) as D2. rewrite Hn, D1 in D2. injection D2 as <- <-.
  rewrite (instrAt_fun fn _ _ _ _ Hj Hi) in *. assert (Hacc : iOp i ∈ accesses) by (unfold accesses; set_solver).
  destruct (bo_called _ Hbo i (instrAt_in _ _ _ _ Hi)) as (_ & _ & _ & _ & _ & H & _). destruct (H Hacc) as [[_ Hlen] _].
  assert (Hlen2 : List.length (iArgs i) = 2).
  { rewrite Hlen. destruct (String.eqb_spec (iOp i) "array.set") as [E|]; [rewrite E in Hop; set_solver | reflexivity]. }
  destruct (iArgs i) as [|array [|index [|]]] eqn:Ha; try discriminate Hlen2.
  destruct (answered_holds p s from e ρ m i array index [] Hre Hi Hans Ha) as (_ & Hty & Hh).
  destruct (bounds_ran p s from e ρ m i v m' Hi (proj2 (access_op _ Hacc)) Hrun) as (vs & Hvs & Hrun' & _). rewrite Ha in Hvs. cbn [mapM] in Hvs.
  destruct (operand ρ array) as [r|] eqn:Hr; [|discriminate]. destruct (operand ρ index) as [x|] eqn:Hx; [|discriminate]. injection Hvs as <-.
  destruct (access_operands ρ m array index Hty Hh r x Hr Hx) as (n & k & Hn' & Hk & Hb).
  destruct (at_borrows (shape i) r x m n k Hop Hn' Hk Hb) as (b & Hb' & Hpr). rewrite Hrun' in Hb'. injection Hb' as <- <-. eauto.
Qed.

(** A length is not negative. *)
Lemma establish_length : iOp i ∈ ["array.len"; "slice.len"] -> exists n, int64 v = Some n /\ (0 <= n)%Z.
Proof.
  intros Hop. destruct (length_ran p s from e ρ m i v m' Hi Hop Hrun) as (c & r & n & _ & _ & Hv & Hlen). exists n. split; [exact Hv|].
  destruct (String.eqb (iOp i) "slice.len"); [eapply view_range; eassumption | eapply header_range; eassumption].
Qed.

(** A counter takes a constant that is not negative or a bounded step. *)
Lemma establish_counter : resultName i ∈ bwCounter w -> exists n, int64 v = Some n /\ (0 <= n)%Z.
Proof.
  intros Hc. destruct (counter_named _ Hc) as (i' & Hi' & Hop & _). rewrite defs_result in Hi'. injection Hi' as <-.
  destruct (phi_ran p s from e ρ m i v m' Hre Hi Hop Hrun) as (inc & q & m0 & Hin & Hv & Hq & Hfq & Hkq & Hsq).
  destruct (pl_counted _ _ _ _ P) as [ex Hct]. pose proof (ct_up _ _ _ _ _ Hct i (instrAt_in _ _ _ _ Hi) Hc) as Hup. unfold countsUp in Hup.
  rewrite forallb_forall in Hup. specialize (Hup inc (proj1 (list_elem_of_In _ _) Hin)). apply orb_true_iff in Hup as [Hup|Hup].
  - assert (Hty : vType (inValue inc) = "i64").
    { unfold nonNegativeConstant, constantValue in Hup. destruct (String.eqb_spec (vType (inValue inc)) "i64"); [assumption | discriminate Hup]. }
    destruct (nonNegative_value q (stepsOf fn q) e Hfq (kn_names _ _ _ _ Hkq) (inValue inc) Hsq) as (n & Hn & H0); [|exact Hup|].
    { apply (bo_incoming _ Hbo i inc (instrAt_in _ _ _ _ Hi) Hin). }
    exists n. rewrite <- (valueOf_operand e (inValue inc) v Hty Hv). auto.
  - destruct (stepOf defs (inValue inc)) as [from'|] eqn:Hst; [|discriminate].
    assert (Hpos : positiveName (vName (inValue inc))).
    { right. right. intros E. pose proof (proj2 (ct_steps _ _ _ _ _ Hct (vName (inValue inc)) (resultName i))) as H. rewrite E in H.
      assert (Hf : feeds defs (instrsOf (fBlocks fn)) (bwCounter w) (vName (inValue inc)) (resultName i)).
      { exists i, inc. split; [eapply instrAt_in, Hi|]. rewrite Hst. eauto 10. }
      specialize (H Hf). inversion H. }
    assert (Hdef : exists j, defs !! vName (inValue inc) = Some j) by (unfold stepOf in Hst; destruct (defs !! _); [eauto | discriminate]).
    destruct Hdef as [j Hj]. destruct (fa_positive _ _ (fact_settled q (stepsOf fn q) e Hfq _ j Hsq Hj) Hpos) as (u & n & Hu & Hn & H0).
    unfold operand in Hv. rewrite Hu in Hv. injection Hv as ->. eauto.
Qed.

Lemma establish_step : default [] (bwSteps w !! resultName i) <> [] -> exists n, int64 v = Some n /\ (0 <= n)%Z.
Proof.
  intros Hsteps. destruct (pl_counted _ _ _ _ P) as [ex Hct].
  destruct (default [] (bwSteps w !! resultName i)) as [|x fed] eqn:Hfed; [contradiction|]. clear Hsteps.
  assert (Hfeeds : feeds defs (instrsOf (fBlocks fn)) (bwCounter w) (resultName i) x).
  { apply (ct_steps _ _ _ _ _ Hct). rewrite Hfed. left. }
  destruct Hfeeds as (j & inc & Hj & Hjn & Hxc & Hin & Hname & [from' Hst]).
  pose proof (ct_up _ _ _ _ _ Hct j Hj ltac:(congruence)) as Hup. unfold countsUp in Hup.
  rewrite forallb_forall in Hup. specialize (Hup inc (proj1 (list_elem_of_In _ _) Hin)). rewrite Hst in Hup.
  assert (Hst' : stepOf defs (iResult i) = Some from').
  { unfold stepOf in Hst |- *. rewrite Hname in Hst. exact Hst. }
  unfold stepOf in Hst. rewrite Hname, defs_result in Hst.
  destruct (iArgs i) as [|a [|b [|]]] eqn:Ha; try discriminate.
  destruct (negb (String.eqb (iOp i) "binary.+") || negb (String.eqb (vType (iResult i)) "i64")) eqn:Hguard; [discriminate|].
  apply orb_false_iff in Hguard as [Hop%negb_false_iff%String.eqb_eq Hty%negb_false_iff%String.eqb_eq].
  assert (Hcounter : from' ∈ bwCounter w).
  { apply orb_true_iff in Hup as [Hup|Hup]; [|apply bool_decide_eq_true in Hup; exact Hup]. exfalso.
    unfold nonNegativeConstant, constantValue in Hup. rewrite Hname, defs_result, Hop in Hup. destruct (negb _); discriminate Hup. }
  pose proof Hre as [Hp Hf _ Hk].
  assert (Hbound : hasUpperBound (F p s) from' = true).
  { pose proof (wk_unsafe _ _ _ _ _ _ (pl_walked _ _ _ _ P) p s i x (at_walked p s i Hp Hi) Hi) as H.
    unfold unboundedSteps in H. rewrite Hop in H. cbn [String.eqb Ascii.eqb Bool.eqb negb] in H. unfold resultName in Hfed. rewrite Hfed in H.
    rewrite (pl_defs _ _ _ _ P), Hst' in H. cbn [default id] in H. destruct (hasUpperBound (F p s) from'); [reflexivity|]. exfalso.
    assert (Hx : x ∈ bpUnsafeSteps plan) by (apply H; left). rewrite (pl_safe _ _ _ _ P) in Hx. set_solver. }
  apply existsb_exists in Hbound as ([x1 x2] & Hless%list_elem_of_In & Heq%String.eqb_eq). cbn in Heq. subst x1.
  apply elem_of_elements in Hless. destruct (kn_here _ _ _ _ Hk (ALess from' x2) Hless) as (k & l & Hk1 & Hl & Hlt).
  assert (Hmax : (l < 2 ^ 63)%Z).
  { unfold valueOf in Hl. destruct (operand ρ (mkValue x2 "i64")) as [u|]; [|discriminate]. cbn in Hl. apply int64_range in Hl.
    unfold in_int64, min_int64, max_int64 in Hl. lia. }
  assert (Hphi : iOp i <> "phi") by congruence.
  assert (Hsettled : forall c, c ∈ [a; b] -> settledAt fn p s (vName c) /\ typedRead fn c).
  { intros c Hc. apply (args_settled p s i c Hi Hphi). rewrite Ha. exact Hc. }
  assert (Hpos : forall c, c ∈ [a; b] -> vName c = from' -> (0 <= k)%Z).
  { intros c Hc E. destruct (counter_named from' Hcounter) as (j' & Hj' & _). destruct (Hsettled c Hc) as [Hs _]. rewrite E in Hs.
    destruct (fa_positive _ _ (fact_settled p s ρ Hf from' j' Hs Hj') (or_introl Hcounter)) as (u & n & Hu & Hn & H0).
    rewrite (valueOf_name ρ from' u Hu) in Hk1. congruence. }
  destruct (bo_called _ Hbo i (instrAt_in _ _ _ _ Hi)) as (_ & _ & _ & _ & _ & _ & H). destruct (proj2 (H a b Ha) Hop Hty) as [Hta Htb].
  destruct (bounds_ran p s from e ρ m i v m' Hi ltac:(rewrite Hop; unfold boundsOps; set_solver) Hrun) as (vs & Hvs & Hrun' & _).
  rewrite Ha in Hvs. cbn [mapM] in Hvs.
  destruct (operand ρ a) as [y|] eqn:Hy; [|discriminate]. destruct (operand ρ b) as [z|] eqn:Hz; [|discriminate]. injection Hvs as <-.
  destruct (add_int (shape i) y z m v m' Hop Hty Hrun') as (ky & kz & Hky & Hkz & Hsum).
  assert (Hone : forall c, c ∈ [a; b] -> isConstant defs c 1 = true -> valueOf ρ (vName c) = Some 1%Z).
  { intros c Hc Hone%bool_decide_eq_true. destruct (Hsettled c Hc) as [Hs Ht].
    apply (constant_value p s ρ Hf (kn_names _ _ _ _ Hk) c 1 Hs Ht Hone). }
  pose proof (valueOf_operand ρ a y Hta Hy) as Ea. pose proof (valueOf_operand ρ b z Htb Hz) as Eb. rewrite Hky in Ea. rewrite Hkz in Eb.
  assert (Hsum' : (0 <= k)%Z /\ (ky + kz = k + 1)%Z).
  { destruct (isConstant defs b 1) eqn:Hb1.
    - injection Hst as <-. split; [apply (Hpos a); [left | reflexivity]|]. pose proof (Hone b ltac:(right; left) Hb1). assert (kz = 1%Z) by congruence.
      assert (ky = k) by congruence. lia.
    - destruct (isConstant defs a 1) eqn:Ha1; [|discriminate]. injection Hst as <-. split; [apply (Hpos b); [right; left | reflexivity]|].
      pose proof (Hone a ltac:(left) Ha1). assert (ky = 1%Z) by congruence. assert (kz = k) by congruence. lia. }
  destruct Hsum' as [H0 E]. exists (k + 1)%Z. rewrite Hsum, E, wrap64_id; [split; [reflexivity | lia]|].
  unfold in_int64, min_int64, max_int64. lia.
Qed.

Lemma established : fact (resultName i) (assign ρ i v).
Proof.
  pose proof (assign_result ρ i v Hne) as Hv. split.
  - intros al He. exists v. split; [exact Hv | apply establish_alias, He].
  - intros j n Hj Hop Hty Hn. rewrite defs_result in Hj. injection Hj as <-. exists v. split; [exact Hv | apply establish_const; assumption].
  - intros j a b Hj Ha Ht Hop. rewrite defs_result in Hj. injection Hj as <-. destruct (establish_compare a b Ha Ht Hop) as (k & l & H). exists v, k, l. auto.
  - intros [Hc|[(j & Hj & Hop)|Hst]].
    + destruct (establish_counter Hc) as (n & Hn). exists v, n. auto.
    + rewrite defs_result in Hj. injection Hj as <-. destruct (establish_length Hop) as (n & Hn). exists v, n. auto.
    + destruct (establish_step Hst) as (n & Hn). exists v, n. auto.
  - intros Hb. destruct (establish_present Hb) as [r Hr]. exists v, r. auto.
Qed.
End Establish.

(** ** What an instruction becomes *)

Abbreviation agrees := (agrees hidden).

Lemma agrees_operand (ρ ρ' : env) a : agrees ρ ρ' -> ~ hidden (vName a) -> operand ρ' a = operand ρ a.
Proof. intros H Hh. apply operand_agree. apply H, Hh. Qed.

Lemma agrees_operands (ρ ρ' : env) l : agrees ρ ρ' -> (forall a, a ∈ l -> ~ hidden (vName a)) -> mapM (operand ρ') l = mapM (operand ρ) l.
Proof.
  intros H Hl. induction l as [|a l IH]; [reflexivity|]. cbn [mapM]. rewrite (agrees_operand ρ ρ' a H) by (apply Hl; left).
  rewrite IH; [reflexivity|]. intros b Hb. apply Hl. right. exact Hb.
Qed.

Lemma agrees_assign (ρ ρ' : env) i v : agrees ρ ρ' -> agrees (assign ρ i v) (assign ρ' i v).
Proof.
  intros H x Hx. unfold assign. destruct (String.eqb (vName (iResult i)) ""); [apply H, Hx|].
  destruct (decide (vName (iResult i) = x)) as [->|Hne]; [rewrite !lookup_insert_eq; reflexivity|].
  rewrite !lookup_insert_ne by exact Hne. apply H, Hx.
Qed.

Lemma agrees_hidden (ρ ρ' : env) x v : agrees ρ ρ' -> hidden x -> agrees ρ (<[x := v]> ρ').
Proof. intros H Hh y Hy. rewrite lookup_insert_ne by congruence. apply H, Hy. Qed.

(** The replaced reads are not hidden. *)
Lemma replaced_visible v : ~ hidden (vName v) -> ~ hidden (vName (replaced K v)).
Proof.
  intros Hv. unfold replaced. destruct (K !! vName v) as [e|] eqn:He; [|exact Hv]. cbn [default id].
  destruct (wk_alias _ _ _ _ _ _ (pl_walked _ _ _ _ P) _ e He) as (p & s & i & Hf & _ & _ & _ & _ & _ & c & _ & Hk).
  destruct (wk_settled _ _ _ _ _ _ (pl_walked _ _ _ _ P) p s _ Hf Hk) as [_ H]. destruct (H _ _ _ eq_refl) as [_ (j & Hj & <-)].
  apply (bo_names _ Hbo j Hj).
Qed.

Lemma bounded_equal x e (ρ : env) : K !! x = Some e -> fact x ρ -> exists v, ρ !! x = Some v /\ operand ρ e = Some v.
Proof. intros He H. apply (fa_alias _ _ H e He). Qed.

Section Becomes.
Context (p s : nat) (from : string) (e e' ρ ρ' : env) (m : M) (i : Instr).
Context (Hre : reachedAt p s from e ρ m) (Hi : instrAt fn p s i) (Hee : agrees e e') (Hag : agrees ρ ρ').

Abbreviation i' := (mapReads (replaced K) i).
Abbreviation expandsTo := (expands setRefused hidden from e e' ρ ρ' m i).

Lemma reads_visible a : a ∈ readOperands i -> ~ hidden (vName (replaced K a)).
Proof. intros Ha. apply replaced_visible, (bo_reads _ Hbo i a (instrAt_in _ _ _ _ Hi) Ha). Qed.

(** The values of the replaced arguments. *)
Lemma replaced_args : iOp i <> "phi" -> mapM (operand ρ') (readOperands i') = mapM (operand ρ) (readOperands i).
Proof.
  intros Hop. rewrite readOperands_mapReads, (agrees_operands ρ ρ').
  - apply (replaced_operands module params fn Hsound K fact bounded_equal alias_defined' p s); [apply Hre|].
    intros v Hv. destruct Hi as (b & Hb & Hs). exact (wf_uses _ _ _ (sound_wf _ _ _ Hsound) p b s i v Hb Hs Hop Hv).
  - exact Hag.
  - intros a Ha. apply list_elem_of_fmap in Ha as (a0 & -> & Ha). apply reads_visible, Ha.
Qed.

Lemma replaced_arg a : iOp i <> "phi" -> a ∈ iArgs i -> operand ρ' (replaced K a) = operand ρ a.
Proof.
  intros Hop Ha. rewrite (agrees_operand ρ ρ' _ Hag) by (apply reads_visible, elem_args, Ha).
  apply (replaced_operand module params fn Hsound K fact bounded_equal alias_defined' p s); [apply Hre|]. apply (args_settled p s i a Hi Hop Ha).
Qed.

Lemma shape_same : shape i' = shape i.
Proof.
  apply shape_mapReads. intros v Hv. apply (replaced_type fn K alias_defined').
  apply (bo_reads _ Hbo i v (instrAt_in _ _ _ _ Hi) Hv).
Qed.

(** An instruction with its reads replaced. *)
Lemma kept_same : runInstr (machine := covered) from e ρ m i = Undefined \/ runInstr from e' ρ' m i' = runInstr (machine := covered) from e ρ m i.
Proof.
  destruct (decide (iOp i = "phi")) as [Hop|Hop].
  - assert (Hsame : runInstr (machine := covered) from e ρ m i = runInstr (machine := machine) from e ρ m i) by (unfold runInstr; rewrite Hop; reflexivity).
    rewrite Hsame.
    destruct (replaced_instr (X := X) module params fn Hsound K fact known bounded_equal alias_defined' p s i from e ρ m
      (reached_standing fn fact known p s from e ρ m Hre) Hi) as [E|E]; [intros v Hv; apply (bo_reads _ Hbo i v (instrAt_in _ _ _ _ Hi) Hv) | | auto].
    right. rewrite <- E. unfold runInstr. change (iOp i') with (iOp i). rewrite Hop. cbn [String.eqb Ascii.eqb Bool.eqb].
    assert (Hphi : phiValue from e' i' = phiValue from e i'); [|rewrite Hphi; reflexivity]. unfold phiValue.
    destruct (List.find _ (iIncoming i')) as [inc|] eqn:Hinc; [|reflexivity]. apply List.find_some in Hinc as [Hin _].
    apply list_elem_of_In, list_elem_of_fmap in Hin as (inc0 & -> & Hin). cbn [inValue]. apply agrees_operand; [exact Hee|].
    apply replaced_visible, (bo_incoming _ Hbo i inc0 (instrAt_in _ _ _ _ Hi) Hin).
  - unfold runInstr. change (iOp i') with (iOp i). rewrite (proj2 (String.eqb_neq _ _) Hop), (replaced_args Hop), shape_same.
    change (operand (machine := covered)) with (operand (X := X) (V := V)).
    destruct (mapM (operand ρ) (readOperands i)) as [vs|]; [|auto]. cbn [operation without]. destruct (setRefused (shape i) vs m); auto.
Qed.

(** One instruction that does the same. *)
Lemma one_expands j : iResult j = iResult i -> (runInstr (machine := covered) from e ρ m i = Undefined \/
  runInstr from e' ρ' m j = runInstr (machine := covered) from e ρ m i) -> expandsTo [j].
Proof.
  intros Hres H. unfold expands. cbn [runInstrs]. destruct H as [E|E]; [rewrite E; exact I|]. rewrite E.
  destruct (runInstr (machine := covered) from e ρ m i) as [v m'|x|]; [|reflexivity | exact I].
  exists (assign ρ' j v). split; [reflexivity|]. assert (Hj : assign ρ' j v = assign ρ' i v) by (unfold assign; rewrite Hres; reflexivity).
  rewrite Hj. apply agrees_assign, Hag.
Qed.

(** A present borrow is there. *)
Lemma known_expands names : (forall x, x ∈ names -> x <> "" /\ borrowed x) -> expandsTo [knownPresent names i'].
Proof.
  intros Hnames. assert (Hkept : expandsTo [i']) by (apply one_expands; [reflexivity | apply kept_same]).
  unfold knownPresent. change (iArgs i') with (map (replaced K) (iArgs i)). destruct (iArgs i) as [|a [|]] eqn:Ha; try exact Hkept.
  cbn [map]. change (iOp i') with (iOp i).
  destruct (String.eqb_spec (iOp i) "opt.has") as [Hop|]; [|exact Hkept]. case_bool_decide as Hin; [|exact Hkept]. cbn [andb].
  apply one_expands; [reflexivity|]. assert (Hphi : iOp i <> "phi") by congruence. destruct kept_same as [E|E]; [auto|]. right. rewrite <- E.
  destruct (Hnames _ Hin) as [Hne Hb]. destruct Hre as [Hp Hf _ _].
  assert (Hs : settledAt fn p s (vName (replaced K a))).
  { eapply stands_settled; [exact Hsound | eapply pl_walked, P | exact Hp | apply (args_settled p s i a Hi Hphi); rewrite Ha; left|].
    unfold replaced. destruct (K !! vName a) as [al|] eqn:Hal; [right; exists al; auto | left; reflexivity]. }
  destruct Hb as (q & t & j & Hj & Hans & Hjop & Hn).
  assert (Hfact : fact (vName (replaced K a)) ρ).
  { apply (fact_settled p s ρ Hf _ j Hs). rewrite <- Hn. apply (instrDefs_at module params fn q t); [exact Hsound | exact Hj | congruence]. }
  destruct (fa_present _ _ Hfact) as (b & r & Hb & Hr); [exists q, t, j; split; [exact Hj|]; split; auto|].
  destruct (bo_called _ Hbo i (instrAt_in _ _ _ _ Hi)) as (Hplain & _ & _ & Hhas & _). destruct (Hhas Hop) as [_ Hty].
  destruct (Hplain ltac:(rewrite Hop; unfold boundsOps; set_solver)) as [Hfi Hcl].
  assert (Hvs : mapM (operand ρ) (readOperands i) = Some [b]).
  { rewrite <- (replaced_args Hphi), readOperands_mapReads, (plain_operands i Hfi Hcl), Ha. cbn [map mapM].
    rewrite (agrees_operand ρ ρ' _ Hag) by (apply reads_visible, elem_args; rewrite Ha; left). unfold operand. rewrite Hb. reflexivity. }
  unfold runInstr. cbn [iOp readOperands iArgs iFields iCleanups]. change (iOp i') with (iOp i). rewrite (proj2 (String.eqb_neq _ _) Hphi), (replaced_args Hphi), Hvs, shape_same.
  rewrite (opt_has (shape i) b r m Hop Hr). cbn [String.eqb Ascii.eqb Bool.eqb].
  unfold mapReads, readOperands. cbn [iArgs iFields iCleanups iOp]. rewrite Hfi, Hcl. cbn [map flat_map app mapM mret option_ret].
  apply const_yes; [reflexivity | exact Hty | reflexivity].
Qed.

(** A dropped check passes. *)
Lemma drop_expands : (p, s) ∈ bpDrops plan -> expandsTo [].
Proof.
  intros Hd. destruct (wk_drop _ _ _ _ _ _ (pl_walked _ _ _ _ P) (p, s) Hd) as (j & [_ Hle] & Hj & Hr). cbn [fst snd] in *.
  rewrite (instrAt_fun fn _ _ _ _ Hj Hi) in Hr. destruct Hr as (Hop & c & rest & op & a & b & Ha & Hcmp & Hcase).
  assert (Hphi : iOp i <> "phi") by congruence. destruct Hre as [Hp Hf _ Hk].
  destruct (args_settled p s i c Hi Hphi ltac:(rewrite Ha; left)) as [Hsc _].
  destruct (bo_called _ Hbo i (instrAt_in _ _ _ _ Hi)) as (Hplain & Hcond & _). pose proof (Hcond Hop) as Hres. destruct (Hplain ltac:(rewrite Hop; left)) as [Hfi Hcl].
  unfold comparison in Hcmp. rewrite (pl_defs _ _ _ _ P) in Hcmp, Hcase.
  destruct (defs !! vName c) as [d|] eqn:Hdef; [|discriminate]. destruct (iArgs d) as [|a0 [|b0 [|]]] eqn:Hda; try discriminate.
  destruct (String.eqb_spec (vType a0) "i64") as [Hty|]; [|discriminate]. injection Hcmp as <- <- <-.
  assert (Hord : iOp d ∈ orders) by (unfold orders; destruct Hcase as [[-> _]|[-> _]]; set_solver).
  destruct (compared p s ρ Hf c d a0 b0 Hsc Hdef Hda Hty Hord) as (v & k & l & Hv & Hk1 & Hl & Htr).
  destruct (compared_args p s ρ Hp Hf (kn_names _ _ _ _ Hk) c d a0 Hsc Hdef Hord ltac:(rewrite Hda; left)) as [Hsa Hta].
  destruct (compared_args p s ρ Hp Hf (kn_names _ _ _ _ Hk) c d b0 Hsc Hdef Hord ltac:(rewrite Hda; right; left)) as [Hsb Htb].
  assert (Hfalse : truth v = Some false).
  { rewrite Htr. destruct Hcase as [(E & Hz & Hpos)|(E & Hb)]; rewrite E; cbn; f_equal.
    - apply bool_decide_eq_true in Hz. pose proof (constant_value p s ρ Hf (kn_names _ _ _ _ Hk) b0 0 Hsb Htb Hz).
      destruct (positive_value p s ρ m Hp Hf (kn_names _ _ _ _ Hk) a0 Hsa Hta (kn_here _ _ _ _ Hk) Hpos) as (n & Hn & H0).
      apply Z.ltb_ge. assert (n = k) by congruence. assert (l = 0%Z) by congruence. lia.
    - destruct (below_value p s ρ m Hf _ _ Hsa Hsb (kn_here _ _ _ _ Hk) Hb) as (k' & l' & Hk' & Hl' & Hlt).
      apply Z.leb_gt. assert (k' = k) by congruence. assert (l' = l) by congruence. lia. }
  unfold expands, runInstr. rewrite (proj2 (String.eqb_neq _ _) Hphi), (plain_operands i Hfi Hcl), Ha.
  change (operand (machine := covered)) with (operand (X := X) (V := V)). cbn [mapM]. rewrite Hv.
  cbn [mbind option_bind]. destruct (mapM (operand ρ) rest) as [us|]; [|exact I]. cbn [mbind option_bind mret option_ret operation without].
  unfold setRefused at 1. cbn [shape iOp]. rewrite Hop. cbn [String.eqb Ascii.eqb Bool.eqb andb].
  destruct (cond_fail_holds (shape i) v us m Hop Hfalse) as [u Hu]. rewrite Hu. exists ρ'. split; [reflexivity|].
  unfold assign, resultName in *. rewrite Hres. exact Hag.
Qed.

(** The instructions an answered access becomes, on values. *)
Lemma run_made (σ : env) (μ : M) res op args imm rest vs v μ' : op <> "phi" -> mapM (operand σ) args = Some vs ->
  operation (shape (instr res op args imm)) vs μ = Next (X := X) v μ' ->
  runInstrs from e' σ μ (instr res op args imm :: rest) = runInstrs from e' (assign σ (instr res op args imm) v) μ' rest.
Proof.
  intros Hop Hvs Hrun. assert (Hone : runInstr from e' σ μ (instr res op args imm) = Next v μ').
  { unfold runInstr. change (iOp (instr res op args imm)) with op. rewrite (proj2 (String.eqb_neq _ _) Hop).
    rewrite (plain_operands (instr res op args imm)) by reflexivity. change (iArgs (instr res op args imm)) with args. rewrite Hvs. exact Hrun. }
  cbn [runInstrs]. rewrite Hone. reflexivity.
Qed.

Lemma name_suffix prefix x y : x <> y -> prefix +:+ x <> prefix +:+ y.
Proof. intros Hne E. apply Hne. induction prefix as [|c prefix IH]; [exact E|]. injection E as E. auto. Qed.

Lemma assign_name (σ : env) res op args imm v : vName res <> "" -> assign σ (instr res op args imm) v = <[vName res := v]> σ.
Proof. intros Hne. unfold assign. cbn [instr iResult]. rewrite (proj2 (String.eqb_neq _ _) Hne). reflexivity. Qed.

Lemma operand_insert (σ : env) name ty v : operand (<[name := v]> σ) (mkValue name ty) = Some v.
Proof. unfold operand. cbn [vName]. rewrite lookup_insert_eq. reflexivity. Qed.

Lemma operand_hidden (σ : env) name v a : hidden name -> ~ hidden (vName a) -> operand (<[name := v]> σ) a = operand σ a.
Proof. intros Hh Ha. apply operand_agree. apply lookup_insert_ne. congruence. Qed.

Lemma site_named n x : sitePrefix n +:+ x <> "".
Proof. unfold sitePrefix. destruct (FormatInt (Z.of_nat n)); discriminate. Qed.

(** The values an answered access is called with. *)
Lemma access_called array index rest : (p, s) ∈ bpAnswered plan -> iArgs i = array :: index :: rest ->
  runInstr (machine := covered) from e ρ m i = Undefined \/
  exists a k vs n z, mapM (operand ρ') (map (replaced K) [array; index]) = Some [a; k] /\
    mapM (operand ρ') (map (replaced K) rest) = Some vs /\
    runInstr (machine := covered) from e ρ m i = operation (shape i) (a :: k :: vs) m /\
    header m a = Some n /\ int64 k = Some z /\ (0 <= z < n)%Z.
Proof.
  intros Hans Ha. destruct (answered_holds p s from e ρ m i array index rest Hre Hi Hans Ha) as (Hacc & Hty & Hh).
  destruct (access_op _ Hacc) as [Hphi Hin]. destruct (bo_called _ Hbo i (instrAt_in _ _ _ _ Hi)) as (Hplain & _). destruct (Hplain Hin) as [Hfi Hcl].
  pose proof (replaced_args Hphi) as Hargs. rewrite readOperands_mapReads, (plain_operands i Hfi Hcl), Ha in Hargs. cbn [map mapM] in Hargs |- *.
  unfold runInstr. rewrite (proj2 (String.eqb_neq _ _) Hphi), (plain_operands i Hfi Hcl), Ha.
  change (operand (machine := covered)) with (operand (X := X) (V := V)). cbn [mapM].
  rewrite !replaced_arg in * by (try exact Hphi; rewrite Ha; repeat (left || right)).
  destruct (operand ρ array) as [a|] eqn:Ea; [|auto]. destruct (operand ρ index) as [k|] eqn:Ek; [|auto].
  cbn [mbind option_bind mret option_ret] in *.
  destruct (mapM (operand ρ) rest) as [vs|] eqn:Er; [|auto]. cbn [mbind option_bind mret option_ret operation without] in *.
  destruct (setRefused (shape i) (a :: k :: vs) m); [auto|]. right.
  destruct (access_operands ρ m array index Hty Hh a k Ea Ek) as (n & z & H1 & H2 & H3). exists a, k, vs, n, z.
  split; [reflexivity|]. split; [|auto 10]. destruct (mapM (operand ρ') (map (replaced K) rest)) as [us|]; [injection Hargs as ->; reflexivity | discriminate].
Qed.

(** A borrow of an element in range, and the reference in it. *)
Lemma borrow_runs n op ty rty args a k l z rest : op ∈ ["array.at"; "array.at_mut"] -> mapM (operand ρ') args = Some [a; k] ->
  header m a = Some l -> int64 k = Some z -> (0 <= z < l)%Z ->
  let borrow := mkValue (sitePrefix n +:+ "at") ty in
  let ref := mkValue (sitePrefix n +:+ "ref") rty in
  exists ρ1, runInstrs from e' ρ' m (instr borrow op args "" :: instr ref "opt.value" [borrow] "" :: rest) = runInstrs (X := X) from e' ρ1 m rest /\
    agrees ρ ρ1 /\ operand ρ1 ref = Some (slot m a z) /\ forall v, ~ hidden (vName v) -> operand ρ1 v = operand ρ' v.
Proof.
  intros Hop Hargs Hl Hz Hb borrow ref.
  destruct (at_borrows (shape (instr borrow op args "")) a k m l z Hop Hl Hz Hb) as (b & Hrun & Hpr).
  assert (Hphi : op <> "phi") by (intros ->; set_solver).
  rewrite (run_made ρ' m borrow op args "" _ [a; k] b m Hphi Hargs Hrun), assign_name by apply site_named. cbn [borrow ref vName].
  set (ρ1 := <[sitePrefix n +:+ "at" := b]> ρ').
  assert (Hborrow : mapM (operand ρ1) [borrow] = Some [b]) by (cbn [mapM]; unfold ρ1, borrow; rewrite operand_insert; reflexivity).
  pose proof (opt_value (shape (instr ref "opt.value" [borrow] "")) b _ m eq_refl Hpr) as Hval.
  rewrite (run_made ρ1 m ref "opt.value" [borrow] "" _ [b] _ m ltac:(discriminate) Hborrow Hval), assign_name by apply site_named. cbn [borrow ref vName].
  eexists. split; [reflexivity|]. split; [apply agrees_hidden; [apply agrees_hidden; [exact Hag|]|]; apply sitePrefix_hidden|].
  split; [apply operand_insert|]. intros v Hv. rewrite operand_hidden by (apply sitePrefix_hidden || exact Hv).
  apply operand_hidden; [apply sitePrefix_hidden | exact Hv].
Qed.

Lemma get_expands n ty rty array index : (p, s) ∈ bpAnswered plan -> iOp i = "array.get_or_panic" -> iArgs i = [array; index] ->
  expandsTo [instr (mkValue (sitePrefix n +:+ "at") ty) "array.at" [replaced K array; replaced K index] "";
             instr (mkValue (sitePrefix n +:+ "ref") rty) "opt.value" [mkValue (sitePrefix n +:+ "at") ty] "";
             instr (iResult i) "ref.load" [mkValue (sitePrefix n +:+ "ref") rty] ""].
Proof.
  intros Hans Hop Ha. unfold expands. destruct (access_called array index [] Hans Ha) as [E|(a & k & vs & l & z & Hargs & Hvs & E & Hl & Hz & Hb)]; rewrite E; [exact I|].
  injection Hvs as <-. pose proof (get_loads (shape i) a k m Hop) as Hget.
  destruct (operation (shape i) [a; k] m) as [v m'|x|]; [|destruct (Hget l z Hl Hz Hb) | exact I].
  destruct Hget as (l' & z' & Hl' & Hz' & _ & -> & Hload). assert (z' = z) as -> by congruence.
  destruct (borrow_runs n "array.at" ty rty [replaced K array; replaced K index] a k l z
    [instr (iResult i) "ref.load" [mkValue (sitePrefix n +:+ "ref") rty] ""] ltac:(left) Hargs Hl Hz Hb) as (ρ1 & -> & Hag1 & Href & _).
  exists (assign ρ1 i v). split; [|apply agrees_assign, Hag1].
  assert (Hr : mapM (operand ρ1) [mkValue (sitePrefix n +:+ "ref") rty] = Some [slot m a z]) by (cbn [mapM]; rewrite Href; reflexivity).
  rewrite (run_made ρ1 m (iResult i) "ref.load" _ "" [] [slot m a z] v m ltac:(discriminate) Hr); [reflexivity|].
  apply ref_load; [reflexivity | exact Hload].
Qed.

Lemma set_expands n ty rty array index value : (p, s) ∈ bpAnswered plan -> iOp i = "array.set" -> iArgs i = [array; index; value] ->
  expandsTo [instr (mkValue (sitePrefix n +:+ "at") ty) "array.at_mut" [replaced K array; replaced K index] "";
             instr (mkValue (sitePrefix n +:+ "ref") rty) "opt.value" [mkValue (sitePrefix n +:+ "at") ty] "";
             instr (mkValue "" "void") "ref.store" [mkValue (sitePrefix n +:+ "ref") rty; replaced K value] "";
             instr (iResult i) "error.ok" [] ""].
Proof.
  intros Hans Hop Ha. unfold expands. destruct (access_called array index [value] Hans Ha) as [E|(a & k & vs & l & z & Hargs & Hvs & E & Hl & Hz & Hb)]; rewrite E; [exact I|].
  cbn [map mapM] in Hvs. destruct (operand ρ' (replaced K value)) as [u|] eqn:Hu; [|discriminate]. injection Hvs as <-.
  pose proof (set_stores (shape i) a k u m l z Hop Hl Hz Hb) as Hset.
  destruct (operation (shape i) [a; k; u] m) as [v m'|x|]; [|destruct Hset | exact I]. destruct Hset as [-> Hput].
  destruct (borrow_runs n "array.at_mut" ty rty [replaced K array; replaced K index] a k l z
    [instr (mkValue "" "void") "ref.store" [mkValue (sitePrefix n +:+ "ref") rty; replaced K value] ""; instr (iResult i) "error.ok" [] ""]
    ltac:(right; left) Hargs Hl Hz Hb) as (ρ1 & -> & Hag1 & Href & Hsame).
  assert (Hr : mapM (operand ρ1) [mkValue (sitePrefix n +:+ "ref") rty; replaced K value] = Some [slot m a z; u]).
  { cbn [mapM]. rewrite Href, Hsame, Hu; [reflexivity|]. apply reads_visible, elem_args. rewrite Ha. repeat (left || right). }
  destruct (ref_store (shape (instr (mkValue "" "void") "ref.store" [mkValue (sitePrefix n +:+ "ref") rty; replaced K value] "")) _ u m m' eq_refl Hput) as [y Hy].
  rewrite (run_made ρ1 m _ "ref.store" _ "" _ _ y m' ltac:(discriminate) Hr Hy).
  assert (Hvoid : forall l, assign ρ1 (instr (mkValue "" "void") "ref.store" l "") y = ρ1) by reflexivity. rewrite Hvoid.
  exists (assign ρ1 i (success (vType (iResult i)))). split; [|apply agrees_assign, Hag1].
  rewrite (run_made ρ1 m' (iResult i) "error.ok" [] "" [] [] (success (vType (iResult i))) m' ltac:(discriminate) eq_refl); [reflexivity|].
  apply (error_ok (shape (instr (iResult i) "error.ok" [] ""))). reflexivity.
Qed.

Lemma known_other names j : iOp j <> "opt.has" -> knownPresent names j = j.
Proof. intros H. unfold knownPresent. destruct (iArgs j) as [|a [|]]; try reflexivity. rewrite (proj2 (String.eqb_neq _ _) H). reflexivity. Qed.

(** What the plan makes of an instruction does what it does. *)
Lemma becomes_expands names o : (forall x, x ∈ names -> x <> "" /\ borrowed x) -> becomes plan (p, s) i' o -> expandsTo (map (knownPresent names) o).
Proof.
  intros Hnames [[Hd ->]|[(_ & _ & ->)|(_ & Hans & n & b & Ho)]]; [apply drop_expands, Hd | apply known_expands, Hnames|].
  destruct (wk_answered _ _ _ _ _ _ (pl_walked _ _ _ _ P) (p, s) Hans) as (j & _ & Hj & Hacc & _). cbn [fst snd] in Hj.
  rewrite (instrAt_fun fn _ _ _ _ Hj Hi) in Hacc.
  destruct (bo_called _ Hbo i (instrAt_in _ _ _ _ Hi)) as (_ & _ & _ & _ & _ & H & _). destruct (H Hacc) as [[_ Hlen] _].
  unfold answeredAccess in Ho. change (iArgs i') with (map (replaced K) (iArgs i)) in Ho. change (iOp i') with (iOp i) in Ho.
  unfold accesses in Hacc. repeat (apply elem_of_cons in Hacc as [E|Hacc]; [rewrite E in Hlen, Ho; cbn in Hlen|]); try (inversion Hacc; fail);
    destruct (iArgs i) as [|array [|index rest]] eqn:Ha; try discriminate Hlen; cbn in Ho.
  - destruct rest; [|discriminate Hlen]. injection Ho as <- _. cbn [map]. rewrite !known_other by discriminate. apply get_expands; assumption.
  - destruct rest as [|value [|]]; try discriminate Hlen. cbn in Ho. injection Ho as <- _. cbn [map]. rewrite !known_other by discriminate. apply set_expands; assumption.
  - injection Ho as <- _. apply known_expands, Hnames.
  - injection Ho as <- _. apply known_expands, Hnames.
Qed.
End Becomes.

(** ** The function the plan leaves *)

Lemma map_lookup_seq {A B} (f : A -> B) (l : list A) d : map (fun k => f (default d (l !! k))) (seq 0 (List.length l)) = map f l.
Proof.
  apply list_eq. intros k. rewrite !list_lookup_fmap. destruct (l !! k) as [x|] eqn:Hx.
  - rewrite lookup_seq_lt by (eapply lookup_lt_Some, Hx). cbn. rewrite Hx. reflexivity.
  - rewrite lookup_seq_ge by (apply lookup_ge_None, Hx). reflexivity.
Qed.

Definition knownBlock (names : gset string) (b : Block) : Block := mkBlock (bName b) (map (knownPresent names) (bInstrs b)) (bTerminator b).

Lemma planned_args k b s i : map (replaceBlock K) (fBlocks fn) !! k = Some b -> bInstrs b !! s = Some i -> (0 + k, s) ∈ bpAnswered plan -> accessArgs i.
Proof.
  intros Hb Hi Hans. rewrite list_lookup_fmap in Hb. destruct (fBlocks fn !! k) as [b0|] eqn:Hb0; [|discriminate]. injection Hb as <-.
  cbn [replaceBlock bInstrs] in Hi. rewrite list_lookup_fmap in Hi. destruct (bInstrs b0 !! s) as [i0|] eqn:Hi0; [|discriminate]. injection Hi as <-.
  assert (Hat : instrAt fn k s i0) by (exists b0; auto).
  destruct (wk_answered _ _ _ _ _ _ (pl_walked _ _ _ _ P) (k, s) Hans) as (j & _ & Hj & Hacc & _). cbn [fst snd] in Hj.
  rewrite (instrAt_fun fn _ _ _ _ Hj Hat) in Hacc.
  destruct (bo_called _ Hbo i0 (instrAt_in _ _ _ _ Hat)) as (_ & _ & _ & _ & _ & H & _). destruct (H Hacc) as [[_ Hlen] _].
  split; [exact Hacc|]. cbn [mapReads iArgs iOp]. rewrite length_map. exact Hlen.
Qed.

(** The blocks after the plan is applied, and that they run the same. *)
Lemma applied_keeps : exists res st, applyBlocks plan 0 (0, ∅) (map (replaceBlock K) (fBlocks fn)) = Some (res, st) /\
  map bName res = map bName (fBlocks fn) /\
  forall fuel args m, refines (runFunction (machine := covered) fuel fn args m)
    (runFunction fuel (set_fBlocks (fun _ => map (knownBlock st.2) res) fn) args m).
Proof.
  destruct (applyBlocks_spec plan (map (replaceBlock K) (fBlocks fn)) 0 (0, ∅)) as (res & st & outss & Hrun & Hlen & Hres & Hst).
  { intros k b s i. apply planned_args. }
  assert (Hblock : forall p b, fBlocks fn !! p = Some b -> exists outs, outss !! p = Some outs /\
    res !! p = Some (mkBlock (bName b) (List.concat outs) (mapTerminator (replaced K) (bTerminator b))) /\ List.length outs = List.length (bInstrs b) /\
    forall s i, bInstrs b !! s = Some i -> exists o, outs !! s = Some o /\ becomes plan (p, s) (mapReads (replaced K) i) o).
  { intros p b Hb. destruct (Hres p (replaceBlock K b)) as (outs & H0 & H1 & H2 & H3); [rewrite list_lookup_fmap, Hb; reflexivity|].
    cbn [replaceBlock bInstrs bName bTerminator] in *. rewrite length_map in H2. exists outs. split; [exact H0|]. split; [exact H1|]. split; [exact H2|].
    intros s i Hi. apply (H3 s). rewrite list_lookup_fmap, Hi. reflexivity. }
  assert (Hnames : map bName res = map bName (fBlocks fn)).
  { apply list_eq. intros p. rewrite !list_lookup_fmap. rewrite length_map in Hlen. destruct (fBlocks fn !! p) as [b|] eqn:Hb.
    - destruct (Hblock p b Hb) as (outs & _ & -> & _). reflexivity.
    - apply lookup_ge_None in Hb. rewrite (proj2 (lookup_ge_None res p)) by lia. reflexivity. }
  exists res, st. split; [exact Hrun|]. split; [exact Hnames|]. intros fuel args m.
  apply (expand_function setRefused module params fn (set_fBlocks (fun _ => map (knownBlock st.2) res) fn) Hsound hidden fact deps
    bounded_deps_local bounded_deps_settled known atoms_step atoms_jump
    (fun p s i from e ρ m v m' => established p s from e ρ m i v m')
    eq (fun p s => map (knownPresent st.2) (default [] (default [] (outss !! p) !! s)))).
  - reflexivity.
  - intros target q _ Hq. exists q. rewrite <- Hq. split; [|reflexivity]. rewrite (blockIndex_names _ fn); [reflexivity|].
    cbn [set_fBlocks fBlocks]. rewrite map_map. exact Hnames.
  - intros p p' b _ <- Hb. cbn [set_fBlocks fBlocks]. rewrite list_lookup_fmap.
    destruct (Hblock p b Hb) as (outs & Ho & Hr & Hl & _). rewrite Hr. eexists. split; [reflexivity|]. split; [reflexivity|].
    cbn [knownBlock bInstrs]. rewrite Ho. cbn [default id].
    rewrite concat_map, <- Hl. f_equal. symmetry. apply (map_lookup_seq (map (knownPresent st.2)) outs []).
  - intros p s i from e e' ρ ρ' m0 Hre Hi Hee Hag. pose proof Hi as (b & Hb & Hs). destruct (Hblock p b Hb) as (outs & Ho & _ & _ & Hbec).
    destruct (Hbec s i Hs) as (o & Hos & Hbo'). rewrite Ho. cbn [default id]. rewrite Hos. cbn [default id].
    apply (becomes_expands p s from e e' ρ ρ' m0 i Hre Hi Hee Hag st.2 o); [|exact Hbo'].
    intros x Hx. destruct (Hst x Hx) as [H|(k & c & t & j & Hc & Hj & Hans & Hop & Hn)]; [cbn in H; set_solver|].
    rewrite list_lookup_fmap in Hc. destruct (fBlocks fn !! k) as [b0|] eqn:Hb0; [|discriminate]. injection Hc as <-.
    cbn [replaceBlock bInstrs] in Hj. rewrite list_lookup_fmap in Hj. destruct (bInstrs b0 !! t) as [j0|] eqn:Hj0; [|discriminate]. injection Hj as <-.
    assert (Hat : instrAt fn k t j0) by (exists b0; auto). split; [|exists k, t, j0; split; [exact Hat|]; split; [exact Hans | auto]].
    rewrite <- Hn. change (resultName (mapReads (replaced K) j0)) with (resultName j0). destruct (bo_called _ Hbo j0 (instrAt_in _ _ _ _ Hat)) as (_ & _ & _ & _ & _ & H & _).
    apply H; [|exact Hop]. change (iOp (mapReads (replaced K) j0)) with (iOp j0) in Hop. unfold accesses. set_solver.
  - intros p p' b b' ρ ρ' m0 Hr Hf <- Hb Hb' Hag. cbn [set_fBlocks fBlocks] in Hb'. rewrite list_lookup_fmap in Hb'.
    destruct (Hblock p b Hb) as (outs & _ & Hr' & _). rewrite Hr' in Hb'. injection Hb' as <-. cbn [knownBlock bTerminator].
    destruct (bo_ends _ Hbo b (list_elem_of_lookup_2 _ _ _ Hb)) as (Hty & Hv & Hc).
    transitivity (runTerminator (X := X) ρ m0 (mapTerminator (replaced K) (bTerminator b))).
    + unfold runTerminator, mapTerminator. cbn [tOp tValue tCond tTarget tElse].
      rewrite (agrees_operand ρ ρ' _ Hag (replaced_visible _ Hc)), (agrees_operand ρ ρ' _ Hag (replaced_visible _ Hv)). reflexivity.
    + apply (replaced_terminator module params fn Hsound K fact bounded_equal alias_defined' p); assumption.
  - reflexivity.
  - apply atoms_start.
Qed.
End Holds.
