(* ===== verification/BoundsTheorems.v ===== *)
(** * Eliminating bounds checks keeps every run ([internal/ir/bounds.go])

    The pass ends, and keeps every run in which no [array.set] is refused; a
    run in which one is refused shows that the others are not kept. *)

From stdpp Require Import base list strings gmap.
From Stdlib Require Import ZArith Lia String.
From S2P Require Import Prelude GoStd IR Cfg Dominators CfgFacts Verify VerifyFacts Semantics Optimize Dce.
From S2P Require Import Ssa Simplify Available Forward Bounds BoundsFacts BoundsRuns.

#[local] Open Scope string_scope.
#[local] Open Scope list_scope.

Lemma knownBlock_empty b : knownBlock ∅ b = b.
Proof.
  assert (Hid : forall i, knownPresent ∅ i = i).
  { intros i. unfold knownPresent. destruct (iArgs i) as [|a [|]]; try reflexivity. rewrite bool_decide_eq_false_2 by set_solver. rewrite andb_false_r. reflexivity. }
  destruct b as [n l t]. unfold knownBlock. cbn. rewrite (map_ext _ _ Hid), map_id. reflexivity.
Qed.

Lemma known_blocks (names : gset string) res : (if decide (base.size names = 0) then res
    else map (fun b => mkBlock (bName b) (map (knownPresent names) (bInstrs b)) (bTerminator b)) res) = map (knownBlock names) res.
Proof.
  case_decide as Hz; [|reflexivity]. apply size_empty_inv, leibniz_equiv in Hz. subst names.
  rewrite (map_ext _ _ knownBlock_empty), map_id. reflexivity.
Qed.

(** C9. Eliminating bounds checks ends and keeps the runs it is meant to keep:
    on a verified function in single assignment whose operations are called as
    lowering calls them, on any machine with 64-bit integers, Arrays and views
    where an access in range is a borrow and a read or write through it, the
    counters settle, the walks neither panic nor run out, and the function the
    plan leaves ends in the same way with the same result, memory and number
    of blocks, for all arguments, whenever the original is not stuck and no
    [array.set] is refused for its index.  So every check that was dropped would
    have passed, and every access whose check was answered is in range. *)
Theorem bounds_preserves {V M X} {machine : Machine V M X} {bounds : BoundsMachine machine} module params fn :
  sound module params fn -> boundable fn ->
  exists fn', eliminateBoundsChecksIn fn = Some fn' /\ map bName (fBlocks fn') = map bName (fBlocks fn) /\
    forall fuel args m, runFunction (machine := without machine setRefused) fuel fn args m <> Stuck ->
      runFunction fuel fn' args m = runFunction (X := X) fuel fn args m.
Proof.
  intros Hs Hbo. destruct (fBlocks fn) as [|b0 l] eqn:E.
  { exists fn. unfold eliminateBoundsChecksIn. rewrite E. auto. }
  assert (Hlen : 0 < List.length (fBlocks fn)) by (rewrite E; cbn; lia).
  destruct (plan_recorded module params fn Hs (len_named fn Hbo) Hlen) as (tree & w & F & plan & Htree & Hplan & P).
  destruct (applied_keeps module params fn Hs Hbo w F plan P) as (res & st & Happly & Hnames & Hkeeps).
  assert (Hrun : eliminateBoundsChecksIn fn =
    if decide (base.size (bpDrops plan) = 0 /\ base.size (bpAnswered plan) = 0 /\ base.size (bpAliases plan) = 0)
    then Some fn else applyBoundsPlan fn plan).
  { unfold eliminateBoundsChecksIn. rewrite E, Htree. cbn [mbind option_bind]. rewrite Hplan. reflexivity. }
  assert (Hcovered : forall fuel args m, refines (runFunction (machine := without machine setRefused) fuel fn args m) (runFunction fuel fn args m)).
  { intros fuel args m. apply covered_blocks. }
  rewrite <- E. rewrite Hrun. case_decide as Hsize.
  { exists fn. split; [reflexivity|]. auto. }
  assert (Hblocks : (if decide (base.size (bpAliases plan) = 0) then Some (fBlocks fn) else replaceFunctionValues (fBlocks fn) (bpAliases plan)) =
    Some (map (replaceBlock (bpAliases plan)) (fBlocks fn))).
  { case_decide as Hz; [|apply replaceFunctionValues_flat; eapply walked_flat, pl_walked, P].
    apply map_size_empty_iff in Hz. rewrite Hz, (map_ext _ (fun b => b) replaceBlock_empty), map_id. reflexivity. }
  unfold applyBoundsPlan. rewrite Hblocks. cbn [mbind option_bind]. rewrite Happly. cbn [mbind option_bind]. destruct st as [sites names].
  eexists. split; [reflexivity|].
  rewrite known_blocks. split; [cbn [set_fBlocks fBlocks]; rewrite map_map; exact Hnames|].
  intros fuel args m Hstuck. rewrite (Hcovered fuel args m Hstuck). exact (Hkeeps fuel args m Hstuck).
Qed.

(** ** A machine with Arrays *)

Inductive datum : Type :=
  | Word (n : Z)
  | Flag (b : bool)
  | ArrayAt (r : nat)
  | View (l : list Z)
  | Slot (r : nat) (k : Z)
  | Borrow (slot : option (nat * Z))
  | Success
  | OutOfBounds.

(** Arrays of words, by the place a reference points at. *)
Abbreviation arrays := (gmap nat (list Z)).

Definition asInt (v : datum) : option Z :=
  match v with Word n => if in_int64b n then Some n else None | _ => None end.

Definition lengthAt (m : arrays) (v : datum) : option Z :=
  match v with ArrayAt r => (fun l => Z.of_nat (List.length l)) <$> m !! r | _ => None end.

Definition viewLength (v : datum) : option Z :=
  match v with View l => Some (Z.of_nat (List.length l)) | _ => None end.

Definition inside (m : arrays) (a x : datum) : option (nat * Z) :=
  match a, lengthAt m a, asInt x with
  | ArrayAt r, Some n, Some k => if (0 <=? k)%Z && (k <? n)%Z then Some (r, k) else None
  | _, _, _ => None
  end.

Definition wordAt (m : arrays) (r : nat) (k : Z) : option Z := m !! r ≫= fun l => l !! Z.to_nat k.

Definition writeAt (m : arrays) (v w : datum) : option arrays :=
  match v, w with
  | Slot r k, Word n => (fun l => <[r := <[Z.to_nat k := n]> l]> m) <$> m !! r
  | _, _ => None
  end.

Definition yields {X} (v : option datum) (m : arrays) : step datum arrays X :=
  match v with Some v => Next v m | None => Undefined end.

Definition lengthWord (n : option Z) : option datum := n ≫= fun n => if in_int64b n then Some (Word n) else None.

Definition arrayOperation (i : Instr) (vs : list datum) (m : arrays) : step datum arrays unit :=
  let op := iOp i in
  if String.eqb op "cond_fail" then match vs with Flag true :: _ => Halt tt | Flag false :: _ => Next Success m | _ => Undefined end else
  match vs with
  | [] =>
      if String.eqb op "const" then
        if String.eqb (vType (iResult i)) "i64" then yields (Word <$> ParseInt (iImmediate i)) m
        else Next (Flag (String.eqb (iImmediate i) "true")) m
      else if String.eqb op "error.ok" then Next Success m else Undefined
  | [a] =>
      if String.eqb op "array.len" then yields (lengthWord (lengthAt m a)) m
      else if String.eqb op "slice.len" then yields (lengthWord (viewLength a)) m
      else if String.eqb op "opt.has" then match a with Borrow o => Next (Flag (bool_decide (is_Some o))) m | _ => Undefined end
      else if String.eqb op "opt.value" then match a with Borrow (Some (r, k)) => Next (Slot r k) m | _ => Undefined end
      else if String.eqb op "ref.load" then match a with Slot r k => yields (Word <$> wordAt m r k) m | _ => Undefined end
      else Undefined
  | [a; b] =>
      if String.eqb op "binary.+" then yields (x ← asInt a; y ← asInt b; Some (Word (wrap64 (x + y)))) m
      else if String.eqb op "array.at" || String.eqb op "array.at_mut" then Next (Borrow (inside m a b)) m
      else if String.eqb op "array.get_or_panic" then
        match inside m a b with Some (r, k) => yields (Word <$> wordAt m r k) m | None => Halt tt end
      else if String.eqb op "ref.store" then match writeAt m a b with Some m' => Next Success m' | None => Undefined end
      else if String.eqb op "array.push" then
        match a, b with ArrayAt r, Word n => match m !! r with Some l => Next Success (<[r := l ++ [n]]> m) | None => Undefined end | _, _ => Undefined end
      else if bool_decide (op ∈ orders) then yields (x ← asInt a; y ← asInt b; Flag <$> foldComparison op x y) m
      else Undefined
  | [a; b; c] =>
      if String.eqb op "array.set" then
        match inside m a b with
        | Some (r, k) => match writeAt m (Slot r k) c with Some m' => Next Success m' | None => Undefined end
        | None => Next OutOfBounds m
        end
      else Undefined
  | _ => Undefined
  end.

#[export] Instance arrayMachine : Machine datum arrays unit := {
  literal v := if String.eqb (vType v) "i64" then Word <$> ParseInt (vName v) else None;
  operation := arrayOperation;
  truth v := match v with Flag b => Some b | _ => None end
}.

Lemma asInt_some v n : asInt v = Some n <-> v = Word n /\ in_int64 n.
Proof.
  unfold asInt. destruct v; try (split; [discriminate | intros [? _]; discriminate]). destruct (in_int64b n0) eqn:H.
  - apply in_int64b_spec in H. split; [intros [= <-]; auto | intros [[= <-] _]; reflexivity].
  - split; [discriminate|]. intros [[= <-] Hn]. apply in_int64b_spec in Hn. congruence.
Qed.

Lemma asInt_word n : in_int64 n -> asInt (Word n) = Some n.
Proof. intros H. apply asInt_some. auto. Qed.

Lemma lengthWord_some n v : lengthWord n = Some v -> exists k, n = Some k /\ asInt v = Some k.
Proof.
  unfold lengthWord. destruct n as [k|]; [|discriminate]. cbn. destruct (in_int64b k) eqn:H; [|discriminate]. intros [= <-]. exists k.
  split; [reflexivity | apply asInt_word, in_int64b_spec, H].
Qed.

Lemma inside_some m a x r k : inside m a x = Some (r, k) <->
  a = ArrayAt r /\ exists n, lengthAt m a = Some n /\ asInt x = Some k /\ (0 <= k < n)%Z.
Proof.
  unfold inside. split.
  - destruct a as [| |r'| | | | |]; try discriminate. destruct (lengthAt m (ArrayAt r')) as [n|]; [|discriminate].
    destruct (asInt x) as [k'|]; [|discriminate]. destruct ((0 <=? k')%Z && (k' <? n)%Z) eqn:Hb; [|discriminate]. intros [= -> ->].
    split; [reflexivity|]. exists n. apply andb_true_iff in Hb as [H1%Z.leb_le H2%Z.ltb_lt]. auto.
  - intros [-> (n & Hn & Hx & Hb)]. rewrite Hn, Hx. rewrite (proj2 (Z.leb_le _ _)), (proj2 (Z.ltb_lt _ _)) by lia. reflexivity.
Qed.

Lemma lengthAt_array m a n : lengthAt m a = Some n -> exists r, a = ArrayAt r.
Proof. destruct a; try discriminate. eauto. Qed.

Lemma writeAt_length m v w m' a : writeAt m v w = Some m' -> lengthAt m' a = lengthAt m a.
Proof.
  unfold writeAt. destruct v as [| | | |r k| | |]; try discriminate. destruct w; try discriminate.
  destruct (m !! r) as [l|] eqn:Hl; [|discriminate]. cbn. intros [= <-]. destruct a as [| |r'| | | | |]; try reflexivity. cbn.
  destruct (decide (r = r')) as [<-|Hne]; [rewrite lookup_insert_eq, Hl; cbn; rewrite length_insert; reflexivity | rewrite lookup_insert_ne by exact Hne; reflexivity].
Qed.

Lemma arrays_left i vs m v m' a : leavesHeaders (iOp i) = true -> arrayOperation i vs m = Next v m' -> lengthAt m' a = lengthAt m a.
Proof.
  intros Hl. unfold arrayOperation, yields.
  destruct (String.eqb (iOp i) "cond_fail"); [destruct vs as [|[|[]| | | | | |] ?]; congruence|].
  destruct vs as [|x [|y [|z [|]]]]; try discriminate;
    repeat (match goal with |- context [if ?b then _ else _] => destruct b eqn:?; try discriminate end);
    repeat (match goal with |- context [match ?b with _ => _ end] => destruct b eqn:?; try discriminate end); try congruence;
    intros [= <- <-]; try (eapply writeAt_length; eassumption).
  match goal with H : String.eqb (iOp i) "array.push" = true |- _ => apply String.eqb_eq in H; rewrite H in Hl; discriminate Hl end.
Qed.

#[export] Instance arrayBounds : BoundsMachine arrayMachine.
Proof.
  refine {| int64 := asInt; header := lengthAt; view := viewLength;
    slot := fun _ a k => match a with ArrayAt r => Slot r k | _ => Success end;
    present := fun v => match v with Borrow (Some (r, k)) => Some (Slot r k) | _ => None end;
    load := fun _ m v => match v with Slot r k => Word <$> wordAt m r k | _ => None end;
    put := writeAt; success := fun _ => Success; yes := Flag true |}; cbn [literal operation truth arrayMachine].
  - intros v n H%asInt_some. apply H.
  - intros v v' n H%asInt_some H'%asInt_some. destruct H, H'. congruence.
  - intros m a n H. destruct (lengthAt_array m a n H) as [r ->]. cbn in H. destruct (m !! r); [|discriminate]. injection H as <-. lia.
  - intros a n H. destruct a; try discriminate. injection H as <-. lia.
  - intros v n -> Hp. rewrite String.eqb_refl, Hp. exists (Word n). split; [reflexivity | apply asInt_word; eapply ParseInt_range, Hp].
  - intros v x H. destruct (String.eqb (vType v) "i64"); [|discriminate]. destruct (ParseInt (vName v)); [|discriminate]. injection H as <-. auto.
  - intros i m v m' n Hop Hty Hp. unfold arrayOperation. rewrite Hop, Hty, Hp. cbn. intros [= <- <-]. apply asInt_word. eapply ParseInt_range, Hp.
  - intros i m Hop Hty Him. unfold arrayOperation. rewrite Hop, Hty, Him. reflexivity.
  - intros i x y m v m' Hop _. unfold arrayOperation. rewrite Hop. cbn. destruct (asInt x) as [k|]; [|discriminate]. destruct (asInt y) as [l|]; [|discriminate].
    cbn. intros [= <- <-]. exists k, l. split; [reflexivity|]. split; [reflexivity|]. apply asInt_word, wrap64_range.
  - intros i a b x y m v m' Hop _ _ _. unfold arrayOperation.
    assert (Hord : bool_decide (iOp i ∈ orders) = true) by (apply bool_decide_eq_true, Hop).
    unfold orders in Hop. repeat (apply elem_of_cons in Hop as [E|Hop]; [rewrite Hord, E; cbn;
      destruct (asInt x) as [k|]; [|discriminate]; (destruct (asInt y) as [l|]; [|discriminate]); cbn; intros [= <- <-]; exists k, l; auto|]). inversion Hop.
  - intros i c vs m v m' Hop. unfold arrayOperation. rewrite Hop. cbn. destruct c as [|[]| | | | | |]; try discriminate. reflexivity.
  - intros i c vs m Hop Hc. unfold arrayOperation. rewrite Hop. cbn. destruct c as [|[]| | | | | |]; try discriminate. eauto.
  - intros i a m v m' Hop. unfold arrayOperation, yields. rewrite Hop. cbn. destruct (lengthWord (lengthAt m a)) as [u|] eqn:H; [|discriminate].
    intros [= <- <-]. apply lengthWord_some, H.
  - intros i a m v m' Hop. unfold arrayOperation, yields. rewrite Hop. cbn. destruct (lengthWord (viewLength a)) as [u|] eqn:H; [|discriminate].
    intros [= <- <-]. apply lengthWord_some, H.
  - exact arrays_left.
  - intros i a x m n k Hop Hn Hk Hb. destruct (lengthAt_array m a n Hn) as [r ->]. exists (Borrow (Some (r, k))).
    assert (Hin : inside m (ArrayAt r) x = Some (r, k)) by (apply inside_some; eauto).
    apply elem_of_cons in Hop as [E|E%list_elem_of_singleton]; unfold arrayOperation; rewrite E, Hin; auto.
  - intros i a x m Hop. unfold arrayOperation. rewrite Hop. cbn. destruct (inside m a x) as [[r k]|] eqn:Hin.
    + apply inside_some in Hin as (-> & n & Hn & Hk & Hb). unfold yields. destruct (wordAt m r k) as [u|] eqn:Hu; [|exact I]. cbn. exists n, k. rewrite Hu. auto 10.
    + intros n k Hn Hk Hb. destruct (lengthAt_array m a n Hn) as [r ->]. enough (inside m (ArrayAt r) x = Some (r, k)) by congruence.
      apply inside_some. eauto.
  - intros i a x e m n k Hop Hn Hk Hb. destruct (lengthAt_array m a n Hn) as [r ->]. unfold arrayOperation. rewrite Hop.
    assert (Hin : inside m (ArrayAt r) x = Some (r, k)) by (apply inside_some; eauto). cbn [String.eqb Ascii.eqb Bool.eqb]. rewrite Hin.
    destruct (writeAt m (Slot r k) e); [auto | exact I].
  - intros i b r m Hop Hr. unfold arrayOperation. rewrite Hop. cbn. destruct b as [| | | | |[[]|]| |]; try discriminate. reflexivity.
  - intros i b r m Hop Hr. unfold arrayOperation. rewrite Hop. cbn. destruct b as [| | | | |[[]|]| |]; try discriminate. congruence.
  - intros i r v m Hop Hr. unfold arrayOperation, yields. rewrite Hop. cbn. destruct r; try discriminate. rewrite Hr. reflexivity.
  - intros i r v m m' Hop Hput. unfold arrayOperation. rewrite Hop. cbn. rewrite Hput. eauto.
  - intros i m Hop. unfold arrayOperation. rewrite Hop. reflexivity.
Defined.

(** ** Functions *)

Definition wellCalledb (i : Instr) : bool :=
  let op := iOp i in
  implb (bool_decide (op ∈ boundsOps)) (bool_decide (iFields i = []) && bool_decide (iCleanups i = [])) &&
  implb (String.eqb op "cond_fail") (String.eqb (resultName i) "") &&
  implb (bool_decide (op ∈ ["array.len"; "slice.len"]))
    (Nat.eqb (List.length (iArgs i)) 1 && negb (String.eqb (resultName i) "") && String.eqb (vType (iResult i)) "i64") &&
  implb (String.eqb op "opt.has") (Nat.eqb (List.length (iArgs i)) 1 && String.eqb (vType (iResult i)) "bool") &&
  implb (String.eqb op "const") (bool_decide (iArgs i = [])) &&
  implb (bool_decide (op ∈ accesses))
    (Nat.eqb (List.length (iArgs i)) (if String.eqb op "array.set" then 3 else 2) &&
     match iArgs i !! 1 with Some x => String.eqb (vType x) "i64" | None => true end &&
     implb (bool_decide (op ∈ ["array.at"; "array.at_mut"])) (negb (String.eqb (resultName i) ""))) &&
  match iArgs i with
  | [a; b] =>
      implb (bool_decide (op ∈ orders) && String.eqb (vType a) "i64") (String.eqb (vType b) "i64") &&
      implb (String.eqb op "binary.+" && String.eqb (vType (iResult i)) "i64") (String.eqb (vType a) "i64" && String.eqb (vType b) "i64")
  | _ => true
  end.

Lemma wellCalledb_true i : wellCalledb i = true -> wellCalled i.
Proof.
  unfold wellCalledb. rewrite !andb_true_iff, !implb_true_iff, !bool_decide_eq_true, !String.eqb_eq.
  intros [[[[[[H1 H2] H3] H4] H5] H6] H7]. split; [|split; [|split; [|split; [|split; [|split]]]]].
  - intros H. specialize (H1 H). rewrite andb_true_iff, !bool_decide_eq_true in H1. exact H1.
  - exact H2.
  - intros H. specialize (H3 H). rewrite !andb_true_iff, Nat.eqb_eq, negb_true_iff, String.eqb_neq, String.eqb_eq in H3. tauto.
  - intros H. specialize (H4 H). rewrite andb_true_iff, Nat.eqb_eq, String.eqb_eq in H4. exact H4.
  - exact H5.
  - intros H. specialize (H6 H). rewrite !andb_true_iff, Nat.eqb_eq, implb_true_iff, bool_decide_eq_true, negb_true_iff, String.eqb_neq in H6.
    destruct H6 as [[G1 G2] G3]. split; [split; assumption|]. split; [|exact G3]. intros x Hx. rewrite Hx in G2. apply String.eqb_eq, G2.
  - intros a b Ha. rewrite Ha in H7. rewrite andb_true_iff, !implb_true_iff, !andb_true_iff, bool_decide_eq_true, !String.eqb_eq in H7. tauto.
Qed.

(** [boundable], as a test. *)
Definition boundableb (fn : Function) : bool :=
  let instrs := instrsOf (fBlocks fn) in
  let typed v := String.eqb (vName v) "" || forallb (fun j => negb (String.eqb (resultName j) (vName v)) || String.eqb (vType v) (vType (iResult j))) instrs in
  let visible x := negb (HasPrefix x "%bce") in
  let read v := typed v && visible (vName v) in
  let unnumbered x := bool_decide (ParseInt x = None) in
  forallb (fun i => forallb read (readOperands i) && forallb (fun inc => read (inValue inc)) (iIncoming i) && wellCalledb i &&
    visible (resultName i) && unnumbered (resultName i)) instrs &&
  forallb (fun b => read (tValue (bTerminator b)) && visible (vName (tCond (bTerminator b)))) (fBlocks fn) &&
  forallb (fun p => unnumbered (pName p)) (fParams fn).

Lemma boundableb_true fn : boundableb fn = true -> boundable fn.
Proof.
  unfold boundableb. rewrite !andb_true_iff, !forallb_forall. intros [[Hi Ht] Hp].
  assert (Hread : forall v, (String.eqb (vName v) "" || forallb (fun j => negb (String.eqb (resultName j) (vName v)) || String.eqb (vType v) (vType (iResult j)))
      (instrsOf (fBlocks fn))) && negb (HasPrefix (vName v) "%bce") = true -> typedRead fn v /\ ~ hidden (vName v)).
  { intros v [H1 H2]%andb_true_iff. split; [apply typedRead_test, H1|]. unfold hidden. apply negb_true_iff in H2. congruence. }
  assert (Hinstr : forall i, i ∈ instrsOf (fBlocks fn) -> (forall v, v ∈ readOperands i -> typedRead fn v /\ ~ hidden (vName v)) /\
    (forall inc, inc ∈ iIncoming i -> typedRead fn (inValue inc) /\ ~ hidden (vName (inValue inc))) /\ wellCalled i /\
    ~ hidden (resultName i) /\ ParseInt (resultName i) = None).
  { intros i Hin%list_elem_of_In%Hi. rewrite !andb_true_iff, !forallb_forall, bool_decide_eq_true, negb_true_iff in Hin.
    destruct Hin as [[[[H1 H2] H3] H4] H5]. split; [intros v Hv%list_elem_of_In; apply Hread, H1, Hv|].
    split; [intros inc Hv%list_elem_of_In; apply Hread, H2, Hv|]. split; [apply wellCalledb_true, H3|]. split; [unfold hidden; congruence | exact H5]. }
  split.
  - intros i v Hin. apply Hinstr, Hin.
  - intros i inc Hin. apply Hinstr, Hin.
  - intros b Hb%list_elem_of_In%Ht. apply andb_true_iff in Hb as [H1 H2]. destruct (Hread _ H1) as [G1 G2]. split; [exact G1|]. split; [exact G2|].
    unfold hidden. apply negb_true_iff in H2. congruence.
  - intros i Hin. apply Hinstr, Hin.
  - intros i Hin. apply Hinstr, Hin.
  - intros p Hin%list_elem_of_In%Hp. apply bool_decide_eq_true in Hin. exact Hin.
Qed.

(** Sums an Array into its elements, below the length that was read first; the
    checks of the view and of the Array are answered by the loop's condition
    and the counter. *)
Definition sample_bounds : Function :=
  let v x := mkValue x "i64" in let a := mkValue "%a" "&var std::array::Array<i64>" in let c x := mkValue x "bool" in
  let sl := mkValue "%v" "[]i64" in let b := mkValue "%b" "?&i64" in
  let arg x := mkParam x "i64" PassValue in
  mkFunction "sum" [mkParam "%a" "&var std::array::Array<i64>" PassValue; mkParam "%v" "[]i64" PassValue] "i64"
    [mkBlock "entry" [instr (v "%n") "array.len" [a] ""; instr (v "%zero") "const" [] "0"] (jump "head");
     mkBlock "head" [mkInstr (v "%i") "phi" [] "" "" [] 0 "" [] [mkIncoming "entry" (v "%zero"); mkIncoming "next" (v "%j")] [] None;
                     mkInstr (v "%s") "phi" [] "" "" [] 0 "" [] [mkIncoming "entry" (v "0"); mkIncoming "next" (v "%t")] [] None;
                     instr (c "%c") "binary.<" [v "%i"; v "%n"] ""] (branch (c "%c") "body" "end");
     mkBlock "body" [instr (c "%neg") "binary.<" [v "%i"; v "0"] ""; instr (mkValue "" "void") "cond_fail" [c "%neg"] "";
                     instr (v "%w") "slice.len" [sl] ""; instr (c "%out") "binary.>=" [v "%i"; v "%w"] "";
                     instr (mkValue "" "void") "cond_fail" [c "%out"; v "%i"; v "%w"] "";
                     instr (v "%x") "array.get_or_panic" [a; v "%i"] ""; instr (v "%t") "binary.+" [v "%s"; v "%x"] "";
                     instr b "array.at" [a; v "%i"] ""; instr (c "%h") "opt.has" [b] ""] (jump "store");
     mkBlock "store" [instr (v "%m") "array.len" [a] ""; instr (c "%past") "binary.>=" [v "%i"; v "%m"] "";
                      instr (mkValue "" "void") "cond_fail" [c "%past"] "";
                      instr (mkValue "%e" "std::array::Error!void") "array.set" [a; v "%i"; v "%t"] ""] (jump "next");
     mkBlock "next" [instr (v "%j") "binary.+" [v "%i"; v "1"] ""] (jump "head");
     mkBlock "end" [] (ret (v "%s"))] "" "".

Lemma bounds_preserves_witness :
  exists fn', eliminateBoundsChecksIn sample_bounds = Some fn' /\
    map (fun b => map iOp (bInstrs b)) (fBlocks fn') =
      [["array.len"; "const"]; ["phi"; "phi"; "binary.<"];
       ["binary.<"; "slice.len"; "binary.>="; "cond_fail"; "array.at"; "opt.value"; "ref.load"; "binary.+"; "array.at"; "const"];
       ["array.len"; "binary.>="; "array.at_mut"; "opt.value"; "ref.store"; "error.ok"]; ["binary.+"]; []] /\
    runFunction (machine := arrayMachine) 30 fn' [ArrayAt 0; View [1; 2; 3]%Z] {[0 := [5; 6; 7]%Z]} =
      Returned (Some (Word 18)) {[0 := [5; 11; 18]%Z]} /\
    runFunction (machine := arrayMachine) 30 fn' [ArrayAt 0; View [1; 2]%Z] {[0 := [5; 6; 7]%Z]} = Stopped tt.
Proof.
  destruct (bounds_preserves (machine := arrayMachine) (mkModule ∅ ∅ ∅ ∅ [sample_bounds] ∅) ∅ sample_bounds) as (fn' & H & _ & Hrun).
  - split; [apply verifyFunction_spec; vm_compute; reflexivity | | apply (bool_decide_unpack _); vm_compute; exact I |
      apply (bool_decide_unpack _); vm_compute; exact I].
    split; [apply (bool_decide_unpack _); vm_compute; exact I|].
    intros i Hi Hop. cbn in Hi. repeat (apply elem_of_cons in Hi as [->|Hi]; [discriminate|]). inversion Hi.
  - apply boundableb_true. vm_compute. reflexivity.
  - exists fn'. split; [exact H|]. split; [vm_compute in H; injection H as <-; reflexivity|].
    split; (rewrite Hrun; vm_compute; [reflexivity | discriminate]).
Defined.

(** Sets the element at [%k] and reads it back.  [set] returns an error when
    the index is out of range and the function goes on: nothing has checked the
    index the read uses. *)
Definition refused_set : Function :=
  let v x := mkValue x "i64" in let a := mkValue "%a" "&var std::array::Array<i64>" in
  mkFunction "f" [mkParam "%a" "&var std::array::Array<i64>" PassValue; mkParam "%k" "i64" PassValue] "i64"
    [mkBlock "entry" [instr (mkValue "%e" "std::array::Error!void") "array.set" [a; v "%k"; v "7"] "";
                      instr (v "%x") "array.get_or_panic" [a; v "%k"] ""] (ret (v "%x"))] "" "".

(** A refused [array.set] counts as a passed check: on a function that sets
    an element and reads it back, which the program panics on when the index is
    out of range, the pass answers the check of the read, and the function it
    leaves takes the value of a borrow that is absent. *)
Theorem refused_set_unchecks :
  sound (mkModule ∅ ∅ ∅ ∅ [refused_set] ∅) ∅ refused_set /\ boundable refused_set /\
  (exists fn', eliminateBoundsChecksIn refused_set = Some fn' /\
    map iOp (instrsOf (fBlocks fn')) = ["array.set"; "array.at"; "opt.value"; "ref.load"] /\
    runFunction (machine := arrayMachine) 2 refused_set [ArrayAt 0; Word 3] {[0 := [5; 6; 7]%Z]} = Stopped tt /\
    runFunction (machine := arrayMachine) 2 fn' [ArrayAt 0; Word 3] {[0 := [5; 6; 7]%Z]} = Stuck) /\
  runFunction (machine := without arrayMachine setRefused) 2 refused_set [ArrayAt 0; Word 3] {[0 := [5; 6; 7]%Z]} = Stuck.
Proof.
  split; [|split; [apply boundableb_true; vm_compute; reflexivity | split; [|vm_compute; reflexivity]]].
  - split; [apply verifyFunction_spec; vm_compute; reflexivity | | apply (bool_decide_unpack _); vm_compute; exact I |
      apply (bool_decide_unpack _); vm_compute; exact I].
    split; [apply (bool_decide_unpack _); vm_compute; exact I|].
    intros i Hi Hop. cbn in Hi. repeat (apply elem_of_cons in Hi as [->|Hi]; [discriminate|]). inversion Hi.
  - destruct (eliminateBoundsChecksIn refused_set) as [fn'|] eqn:H; [|vm_compute in H; discriminate].
    exists fn'. split; [reflexivity|]. vm_compute in H. injection H as <-. repeat split; vm_compute; reflexivity.
Qed.

(** A check that compares unsigned numbers, as lowering writes the check of an
    index into a view, is neither answered nor learned from. *)
Lemma unsigned_check_stays w at_ facts plan i c rest cond a b :
  iOp i = "cond_fail" -> iArgs i = c :: rest -> bwDefs w !! vName c = Some cond -> iArgs cond = [a; b] -> vType a <> "i64" ->
  visit w at_ facts plan i = Some (facts, plan).
Proof.
  intros Hop Ha Hc Hargs Hty%String.eqb_neq. unfold visit, visitCondFail, cannotFail, comparison, learnCondition.
  rewrite Hop, Ha, Hc, Hargs, Hty. reflexivity.
Qed.
