(* ===== verification/TailCall.v ===== *)
(** * Tail calls become jumps ([internal/ir/tailcall.go])

    A call of a function to itself whose result is returned, as it is or
    combined by one associative and commutative operation, becomes a jump back
    to the start.  A block and a call are the pointers of the Go code; here they
    are positions, which stay the same until the blocks are rewritten. *)

From stdpp Require Import base list strings gmap.
From Stdlib Require Import ZArith Lia String.
From S2P Require Import Prelude GoStd IR Optimize Verify Simplify Forward.

#[local] Open Scope string_scope.
#[local] Open Scope list_scope.

(** [tailSite]: the call is a position in its block, and the block a position
    in the function, kept beside the site. *)
Record tailSite : Type := mkTailSite {
  siteCall : nat;
  siteOp : string;
  siteOther : Value
}.

(** [accumulatorOps]: the operations, and the value each starts from. *)
Definition accumulatorOps (op : string) : option string :=
  if String.eqb op "binary.+" then Some "0"
  else if String.eqb op "binary.*" then Some "1"
  else if String.eqb op "binary.|" then Some "0"
  else if String.eqb op "binary.^" then Some "0"
  else None.

(** [isLoopScalar] *)
Definition isLoopScalar (typ : string) : bool :=
  String.eqb typ "bool" || String.eqb typ "f32" || String.eqb typ "f64" || isWrappingInteger typ.

(** [readsValue]: what [renameInstrReads] visits. *)
Definition readsValue (i : Instr) (name : string) : bool :=
  existsb (fun value => String.eqb (vName value) name) (readOperands i).

(** [accumulatedSite]: the operation and the other value. *)
Definition accumulatedSite (b : Block) (call : Instr) (after : list Instr) : option (string * Value) :=
  match last after with
  | None => None
  | Some combine =>
      if negb (String.eqb (vName (iResult combine)) (vName (tValue (bTerminator b)))) then None
      else match iArgs combine with
      | [lhs; rhs] =>
          if negb (bool_decide (is_Some (accumulatorOps (iOp combine)))) then None
          else
            let result := vName (iResult call) in
            if negb (String.eqb (vName lhs) result) && negb (String.eqb (vName rhs) result) then None
            else
              let other := if String.eqb (vName lhs) result then rhs else lhs in
              if String.eqb (vName other) result then None
              else if existsb (fun i => negb (isPureOp (iOp i)) || readsValue i result) (removelast after) then None
              else Some (iOp combine, other)
      | _ => None
      end
  end.

(** The loop of [tailSiteOf] from the end of the block: the last call, between
    what precedes and what follows it. *)
Fixpoint lastCall (self : string) (instrs : list Instr) : option (list Instr * Instr * list Instr) :=
  match instrs with
  | [] => None
  | i :: rest =>
      match lastCall self rest with
      | Some (before, call, after) => Some (i :: before, call, after)
      | None => if String.eqb (iOp i) self then Some ([], i, rest) else None
      end
  end.

(** [tailSiteOf] *)
Definition tailSiteOf (fn : Function) (b : Block) : option tailSite :=
  let term := bTerminator b in
  if negb (String.eqb (tOp term) "return") || negb (String.eqb (vType (tValue term)) (fReturn fn)) ||
     String.eqb (fReturn fn) "void" then None
  else match lastCall ("call." +:+ fName fn) (bInstrs b) with
  | None => None
  | Some (before, call, after) =>
      if negb (String.eqb (iExternABI call) "") || negb (List.length (iArgs call) =? List.length (fParams fn))%nat ||
         negb (List.length (iCleanups call) =? 0)%nat then None
      else match after with
      | [] =>
          if String.eqb (vName (tValue term)) (vName (iResult call))
          then Some (mkTailSite (List.length before) "" noValue) else None
      | _ =>
          '(op, other) ← accumulatedSite b call after;
          Some (mkTailSite (List.length before) op other)
      end
  end.

(** The loop over the blocks in [eliminateTailRecursionIn]: the sites with the
    positions of their blocks, and the operation they share; [None] is its
    return when two sites disagree. *)
Fixpoint tailSites (fn : Function) (position : nat) (blocks : list Block) (op : string)
  : option (list (nat * tailSite) * string) :=
  match blocks with
  | [] => Some ([], op)
  | b :: rest =>
      match tailSiteOf fn b with
      | None => tailSites fn (S position) rest op
      | Some site =>
          if negb (String.eqb (siteOp site) "") && negb (String.eqb op "") && negb (String.eqb op (siteOp site)) then None
          else
            let op := if String.eqb (siteOp site) "" then op else siteOp site in
            '(sites, op) ← tailSites fn (S position) rest op;
            Some ((position, site) :: sites, op)
      end
  end.

(** The name of a parameter's phi. *)
Definition treName (name : string) : string := "%tre." +:+ TrimPrefix name "%".

Definition treParam (p : Param) : Value := mkValue (treName (pName p)) (pType p).

Definition treParams (params : list Param) : replacements_map :=
  foldl (fun replacements p => <[pName p := treParam p]> replacements) ∅ params.

(** The [kept] loop of [rewriteTailSite]. *)
Definition keptInstrs (call : nat) (returned : string) (instrs : list Instr) : list Instr :=
  map snd (List.filter (fun entry : nat * Instr => negb ((entry.1 =? call)%nat || String.eqb (vName (iResult entry.2)) returned))
    (imap pair instrs)).

(** [phi.Incoming = append(phi.Incoming, Incoming{...})] *)
Definition addIncoming (from : string) (value : Value) : Instr -> Instr :=
  set_iIncoming (fun incoming => incoming ++ [mkIncoming from value]).

(** The loop over the call's arguments. *)
Fixpoint feedPhis (from : string) (args : list Value) (phis : list Instr) : list Instr :=
  match args, phis with
  | arg :: args, phi :: phis => addIncoming from arg phi :: feedPhis from args phis
  | _, _ => phis
  end.

(** [rewriteTailSite]: the block, the phis and the accumulator's phi after it. *)
Definition rewriteTailSite (op : string) (other : Value) (call : nat) (index : nat) (header : string)
    (phis : list Instr) (acc : option Instr) (b : Block) : option (Block * list Instr * option Instr) :=
  site ← bInstrs b !! call;
  let kept := keptInstrs call (vName (tValue (bTerminator b))) (bInstrs b) in
  let phis := feedPhis (bName b) (iArgs site) phis in
  match acc with
  | None => Some (mkBlock (bName b) kept (jump header), phis, None)
  | Some acc =>
      if String.eqb op "" then
        Some (mkBlock (bName b) kept (jump header), phis, Some (addIncoming (bName b) (iResult acc) acc))
      else
        let folded := instr (mkValue ("%tre.acc.site" +:+ FormatInt (Z.of_nat index)) (vType (iResult acc)))
                        op [iResult acc; other] "" in
        Some (mkBlock (bName b) (kept ++ [folded]) (jump header), phis, Some (addIncoming (bName b) (iResult folded) acc))
  end.

(** The loop over the sites in [rewriteTailRecursion]. *)
Fixpoint rewriteTailSites (params : replacements_map) (header : string) (index : nat) (sites : list (nat * tailSite))
    (st : list Block * list Instr * option Instr) : option (list Block * list Instr * option Instr) :=
  match sites with
  | [] => Some st
  | (position, site) :: sites =>
      let '(blocks, phis, acc) := st in
      b ← blocks !! position;
      let other := default (siteOther site) (params !! vName (siteOther site)) in
      '(b, phis, acc) ← rewriteTailSite (siteOp site) other (siteCall site) index header phis acc b;
      rewriteTailSites params header (S index) sites (<[position := b]> blocks, phis, acc)
  end.

(** The loop over the other returns. *)
Definition combineReturn (op : string) (acc : Instr) (isSite : list nat) (index : nat) (b : Block) : Block :=
  if bool_decide (index ∈ isSite) || negb (String.eqb (tOp (bTerminator b)) "return") then b
  else
    let term := bTerminator b in
    let combined := instr (mkValue ("%tre.acc.ret" +:+ FormatInt (Z.of_nat index)) (vType (iResult acc))) op
                      [iResult acc; tValue term] "" in
    mkBlock (bName b) (bInstrs b ++ [combined])
      (mkTerminator (tOp term) (iResult combined) (tCond term) (tTarget term) (tElse term)).

Definition treEntry : string := "tre.entry".

(** The phi of a parameter, and the accumulator's. *)
Definition paramPhi (p : Param) : Instr := phi (treParam p) [mkIncoming treEntry (paramValue p)].

Definition accIdentity (fn : Function) (text : string) : Instr :=
  instr (mkValue "%tre.acc.identity" (fReturn fn)) "const" [] text.

Definition accPhi (fn : Function) (text : string) : Instr :=
  phi (mkValue "%tre.acc.phi" (fReturn fn)) [mkIncoming treEntry (iResult (accIdentity fn text))].

(** [rewriteTailRecursion]; [text] is [accumulatorOps[op]]. *)
Definition rewriteTailRecursion (fn : Function) (sites : list (nat * tailSite)) (op : string) : option Function :=
  start ← fBlocks fn !! 0;
  let text := default "" (accumulatorOps op) in
  let params := treParams (fParams fn) in
  blocks ← replaceFunctionValues (fBlocks fn) params;
  let hasAcc := negb (String.eqb op "") in
  let acc := if hasAcc then Some (accPhi fn text) else None in
  let entry := mkBlock treEntry (if hasAcc then [accIdentity fn text] else []) (jump (bName start)) in
  '(blocks, phis, acc) ← rewriteTailSites params (bName start) 0 sites (blocks, map paramPhi (fParams fn), acc);
  let blocks := match acc with
  | Some acc => imap (combineReturn op acc (map fst sites)) blocks
  | None => blocks
  end in
  let phis := phis ++ match acc with Some acc => [acc] | None => [] end in
  Some (set_fBlocks (fun _ => entry :: alter (set_bInstrs (app phis)) 0 blocks) fn).

(** [eliminateTailRecursionIn] *)
Definition eliminateTailRecursionIn (fn : Function) : option Function :=
  if (List.length (fBlocks fn) =? 0)%nat || String.eqb (fName fn) "main" || negb (String.eqb (fExportABI fn) "")
  then Some fn
  else if existsb (fun p => negb (bool_decide (pPassing p = PassValue)) || negb (isLoopScalar (pType p))) (fParams fn)
  then Some fn
  else match tailSites fn 0 (fBlocks fn) "" with
  | None | Some ([], _) => Some fn
  | Some (sites, op) =>
      if negb (String.eqb op "") && negb (isWrappingInteger (fReturn fn)) then Some fn
      else rewriteTailRecursion fn sites op
  end.

(** [EliminateTailRecursion] *)
Definition EliminateTailRecursion (m : Module_) : option Module_ :=
  fns ← mapM eliminateTailRecursionIn (mFunctions m);
  Some (set_mFunctions (fun _ => fns) m).

(** [fact n = if n < 1 { 1 } else { n * fact(n - 1) }] becomes a loop with an
    accumulator. *)
Definition sample_fact : Function :=
  let v x := mkValue x "i64" in let c := mkValue "%c" "bool" in
  mkFunction "fact" [mkParam "%n" "i64" PassValue] "i64"
    [mkBlock "entry" [instr c "binary.<" [v "%n"; v "1"] ""] (branch c "then" "else");
     mkBlock "then" [] (ret (v "1"));
     mkBlock "else" [instr (v "%m") "binary.-" [v "%n"; v "1"] ""; instr (v "%r") "call.fact" [v "%m"] "";
                     instr (v "%p") "binary.*" [v "%n"; v "%r"] ""] (ret (v "%p"))] "" "".

Example sample_fact_loop : eliminateTailRecursionIn sample_fact =
  let v x := mkValue x "i64" in let c := mkValue "%c" "bool" in
  Some (mkFunction "fact" [mkParam "%n" "i64" PassValue] "i64"
    [mkBlock "tre.entry" [instr (v "%tre.acc.identity") "const" [] "1"] (jump "entry");
     mkBlock "entry" [phi (v "%tre.n") [mkIncoming "tre.entry" (v "%n"); mkIncoming "else" (v "%m")];
                      phi (v "%tre.acc.phi") [mkIncoming "tre.entry" (v "%tre.acc.identity"); mkIncoming "else" (v "%tre.acc.site0")];
                      instr c "binary.<" [v "%tre.n"; v "1"] ""] (branch c "then" "else");
     mkBlock "then" [instr (v "%tre.acc.ret1") "binary.*" [v "%tre.acc.phi"; v "1"] ""] (ret (v "%tre.acc.ret1"));
     mkBlock "else" [instr (v "%m") "binary.-" [v "%tre.n"; v "1"] "";
                     instr (v "%tre.acc.site0") "binary.*" [v "%tre.acc.phi"; v "%tre.n"] ""] (jump "entry")] "" "").
Proof. reflexivity. Qed.
