(* ===== verification/TailCallFacts.v ===== *)
(** * What the rewriting of tail calls leaves ([internal/ir/tailcall.go])

    The shape of a site, the sites of a function, and the blocks and the phis
    the loops of [rewriteTailRecursion] make, each in one statement. *)

From stdpp Require Import base list strings gmap.
From Stdlib Require Import ZArith Lia String Ascii.
From S2P Require Import Prelude GoStd IR Cfg CfgFacts Verify VerifyFacts Semantics Optimize Dce Ssa.
From S2P Require Import Simplify Available Forward TailCall.

#[local] Open Scope string_scope.
#[local] Open Scope list_scope.

(** ** Sites *)

(** What follows the call of a site. *)
Inductive siteEnd (b : Block) (call : Instr) : list Instr -> string -> Value -> Prop :=
  | plain_end : vName (tValue (bTerminator b)) = resultName call -> siteEnd b call [] "" noValue
  | combined_end between combine lhs rhs other text :
      resultName combine = vName (tValue (bTerminator b)) -> accumulatorOps (iOp combine) = Some text ->
      iArgs combine = [lhs; rhs] ->
      (vName lhs = resultName call /\ other = rhs) \/ (vName rhs = resultName call /\ other = lhs) ->
      vName other <> resultName call ->
      Forall (fun i => isPureOp (iOp i) = true /\ readsValue i (resultName call) = false) between ->
      siteEnd b call (between ++ [combine]) (iOp combine) other.

Record siteAt (fn : Function) (b : Block) (site : tailSite) (before : list Instr) (call : Instr) (after : list Instr) : Prop := mkSiteAt {
  sa_site : tailSiteOf fn b = Some site;
  sa_split : bInstrs b = before ++ call :: after;
  sa_position : siteCall site = List.length before;
  sa_op : iOp call = "call." +:+ fName fn;
  sa_abi : iExternABI call = "";
  sa_args : List.length (iArgs call) = List.length (fParams fn);
  sa_cleanups : iCleanups call = [];
  sa_return : tOp (bTerminator b) = "return";
  sa_type : vType (tValue (bTerminator b)) = fReturn fn;
  sa_value : fReturn fn <> "void";
  sa_end : siteEnd b call after (siteOp site) (siteOther site)
}.

Lemma lastCall_spec self instrs before call after :
  lastCall self instrs = Some (before, call, after) -> instrs = before ++ call :: after /\ iOp call = self.
Proof.
  revert before call after. induction instrs as [|i instrs IH]; intros before call after; [discriminate|]. cbn [lastCall].
  destruct (lastCall self instrs) as [[[b c] a]|] eqn:E.
  - intros [= <- <- <-]. destruct (IH _ _ _ eq_refl) as [-> Hop]. auto.
  - destruct (String.eqb_spec (iOp i) self); [|discriminate]. intros [= <- <- <-]. auto.
Qed.

Lemma last_removelast {A} (l : list A) x : last l = Some x -> l = removelast l ++ [x].
Proof. intros [l0 ->]%last_Some. rewrite removelast_last. reflexivity. Qed.

Lemma accumulatedSite_spec b call after op other :
  accumulatedSite b call after = Some (op, other) -> siteEnd b call after op other.
Proof.
  unfold accumulatedSite. destruct (last after) as [combine|] eqn:Hlast; [|discriminate].
  destruct (String.eqb_spec (vName (iResult combine)) (vName (tValue (bTerminator b)))) as [Hr|]; [|discriminate]. cbn [negb].
  destruct (iArgs combine) as [|lhs [|rhs [|]]] eqn:Hargs; try discriminate.
  destruct (bool_decide (is_Some (accumulatorOps (iOp combine)))) eqn:Hop; [|discriminate]. cbn [negb].
  apply bool_decide_eq_true in Hop as [text Hop].
  destruct (negb _ && negb _) eqn:Hside; [discriminate|].
  destruct (String.eqb (vName (if String.eqb _ _ then _ else _)) _) eqn:Hother; [discriminate|].
  destruct (existsb _ _) eqn:Hpure; [discriminate|]. intros [= <- <-].
  rewrite (last_removelast _ _ Hlast). apply String.eqb_neq in Hother. eapply combined_end; eauto.
  - unfold resultName. destruct (String.eqb_spec (vName lhs) (vName (iResult call))); [left; auto | right].
    cbn [negb andb] in Hside. apply negb_false_iff, String.eqb_eq in Hside. auto.
  - apply Forall_forall. intros i Hi. apply not_true_iff_false in Hpure. rewrite existsb_exists in Hpure.
    destruct (isPureOp (iOp i)) eqn:Hp, (readsValue i (resultName call)) eqn:Hread; auto;
      exfalso; apply Hpure; exists i; (split; [apply list_elem_of_In, Hi|]); unfold resultName in Hread; rewrite Hp, ?Hread; reflexivity.
Qed.

Lemma tailSiteOf_spec fn b site :
  tailSiteOf fn b = Some site -> exists before call after, siteAt fn b site before call after.
Proof.
  intros Hsite. pose proof Hsite as H. unfold tailSiteOf in H. destruct (String.eqb_spec (tOp (bTerminator b)) "return") as [Hret|]; [|discriminate].
  destruct (String.eqb_spec (vType (tValue (bTerminator b))) (fReturn fn)) as [Hty|]; [|discriminate].
  destruct (String.eqb_spec (fReturn fn) "void") as [|Hvoid]; [discriminate|]. cbn [negb orb] in H.
  destruct (lastCall _ _) as [[[before call] after]|] eqn:Hlast; [|discriminate].
  apply lastCall_spec in Hlast as [Hsplit Hop]. exists before, call, after.
  destruct (String.eqb_spec (iExternABI call) "") as [Habi|]; [|discriminate].
  destruct (Nat.eqb_spec (List.length (iArgs call)) (List.length (fParams fn))) as [Hargs|]; [|discriminate].
  destruct (iCleanups call) eqn:Hclean; [|discriminate]. cbn in H.
  destruct after as [|i after].
  - destruct (String.eqb_spec (vName (tValue (bTerminator b))) (vName (iResult call))) as [Hn|]; [|discriminate].
    injection H as <-. split; auto. constructor. exact Hn.
  - destruct (accumulatedSite b call (i :: after)) as [[op other]|] eqn:Hacc; [|discriminate]. injection H as <-.
    split; auto. apply accumulatedSite_spec, Hacc.
Qed.

(** ** The sites of a function *)

Lemma tailSites_spec fn blocks position op sites op' :
  tailSites fn position blocks op = Some (sites, op') ->
  NoDup (map fst sites) /\
  (forall p site, (p, site) ∈ sites <-> exists b, position <= p /\ blocks !! (p - position) = Some b /\ tailSiteOf fn b = Some site) /\
  (forall p site, (p, site) ∈ sites -> siteOp site = "" \/ siteOp site = op') /\
  (op' = op \/ op = "" /\ exists p site, (p, site) ∈ sites /\ siteOp site = op').
Proof.
  revert position op sites. induction blocks as [|b blocks IH]; intros position op sites H; cbn [tailSites] in H.
  - injection H as <- <-. split; [constructor|]. split; [|split; [intros p site Hp; inversion Hp | auto]].
    intros p site. split; [intros Hp; inversion Hp | intros (b & _ & Hb & _); rewrite lookup_nil in Hb; discriminate].
  - assert (Hshift : forall p, S position <= p -> (b :: blocks) !! (p - position) = blocks !! (p - S position)).
    { intros p Hp. replace (p - position) with (S (p - S position)) by lia. reflexivity. }
    destruct (tailSiteOf fn b) as [site|] eqn:Hsite.
    + destruct (negb _ && negb _ && negb _) eqn:Hsame; [discriminate|].
      destruct (tailSites fn (S position) blocks _) as [[rest op1]|] eqn:Hrest; [|discriminate]. injection H as <- <-.
      destruct (IH _ _ _ Hrest) as (Hnd & Hin & Hops & Hfirst).
      assert (Hop : siteOp site = "" \/ siteOp site = op1).
      { destruct (String.eqb_spec (siteOp site) ""); [auto|]. right. destruct Hfirst as [E|[E _]]; [congruence | contradiction]. }
      split; [|split; [|split]].
      * cbn [map]. constructor; [|exact Hnd]. intros Hp. apply list_elem_of_fmap in Hp as ([p s] & E & Hp). cbn in E. subst p.
        apply Hin in Hp as (_ & Hle & _). lia.
      * intros p s. rewrite elem_of_cons, Hin. split.
        -- intros [[= -> ->]|(c & Hle & Hc & Hs)].
           ++ exists b. rewrite Nat.sub_diag. auto.
           ++ exists c. rewrite Hshift by lia. auto with lia.
        -- intros (c & Hle & Hc & Hs). destruct (decide (p = position)) as [->|Hne].
           ++ rewrite Nat.sub_diag in Hc. injection Hc as <-. left. congruence.
           ++ right. exists c. rewrite <- Hshift by lia. auto with lia.
      * intros p s [[= -> ->]|Hp]%elem_of_cons; [exact Hop | eauto].
      * destruct (String.eqb_spec (siteOp site) "") as [E|E].
        -- destruct Hfirst as [->|[Hop0 (p & s & Hp & Hs)]]; [auto|]. right. split; [exact Hop0|]. exists p, s.
           split; [right; exact Hp | exact Hs].
        -- destruct (String.eqb_spec op "") as [->|E2].
           ++ right. split; [reflexivity|]. exists position, site. split; [left|]. destruct Hop as [|]; [contradiction | assumption].
           ++ cbn [negb andb] in Hsame. apply negb_false_iff, String.eqb_eq in Hsame. subst op.
              left. destruct Hfirst as [|[]]; [assumption | contradiction].
    + destruct (IH _ _ _ H) as (Hnd & Hin & Hops & Hfirst). split; [exact Hnd|]. split; [|split; [exact Hops | exact Hfirst]].
      intros p s. rewrite Hin. split; intros (c & Hle & Hc & Hs).
      * exists c. rewrite Hshift by lia. auto with lia.
      * destruct (decide (p = position)) as [->|Hne]; [rewrite Nat.sub_diag in Hc; injection Hc as <-; congruence|].
        exists c. rewrite <- Hshift by lia. auto with lia.
Qed.

(** ** One site *)

Lemma filter_positions {A} (P : nat * A -> bool) (Q : A -> bool) (l : list A) k :
  (forall i x, l !! i = Some x -> P (k + i, x) = Q x) ->
  map snd (List.filter P (imap (fun i x => (k + i, x)) l)) = List.filter Q l.
Proof.
  revert k. induction l as [|x l IH]; intros k H; [reflexivity|]. rewrite imap_cons. cbn [List.filter].
  rewrite (H 0 x eq_refl). change (imap _ l) with (imap (fun i x => (k + S i, x)) l).
  rewrite (imap_ext _ (fun i x => (S k + i, x))) by (intros; f_equal; lia).
  assert (E : map snd (List.filter P (imap (fun i x => (S k + i, x)) l)) = List.filter Q l).
  { apply IH. intros i y Hi. rewrite <- (H (S i) y Hi). f_equal. f_equal. lia. }
  destruct (Q x); cbn [map]; rewrite E; reflexivity.
Qed.

Lemma filter_all {A} (Q : A -> bool) l : Forall (fun x => Q x = true) l -> List.filter Q l = l.
Proof. induction 1 as [|x l Hx _ IH]; [reflexivity|]. cbn [List.filter]. rewrite Hx, IH. reflexivity. Qed.

Definition notReturned (returned : string) (i : Instr) : bool := negb (String.eqb (resultName i) returned).

Lemma keptInstrs_split returned before call after :
  Forall (fun i => notReturned returned i = true) before ->
  keptInstrs (List.length before) returned (before ++ call :: after) = before ++ List.filter (notReturned returned) after.
Proof.
  intros Hb. unfold keptInstrs. rewrite imap_app, List.filter_app, map_app. f_equal.
  - transitivity (List.filter (notReturned returned) before); [|apply filter_all, Hb]. apply (filter_positions _ _ _ 0). intros i x Hi. cbn [Nat.add fst snd].
    apply lookup_lt_Some in Hi. rewrite (proj2 (Nat.eqb_neq _ _)) by lia. reflexivity.
  - rewrite imap_cons. cbn [List.filter]. unfold compose. rewrite Nat.add_0_r. cbn [fst]. rewrite Nat.eqb_refl. cbn [orb negb].
    rewrite (imap_ext _ (fun i x => (S (List.length before) + i, x))) by (intros; f_equal; lia).
    apply filter_positions. intros i x _. cbn [fst snd]. rewrite (proj2 (Nat.eqb_neq _ _)) by lia. reflexivity.
Qed.

(** What stays of a site's block, and what its accumulator becomes. *)
Definition siteFold (acc : option Instr) (params : replacements_map) (index : nat) (site : tailSite) : list Instr :=
  match acc with
  | Some acc =>
      if String.eqb (siteOp site) "" then []
      else [instr (mkValue ("%tre.acc.site" +:+ FormatInt (Z.of_nat index)) (vType (iResult acc))) (siteOp site)
              [iResult acc; default (siteOther site) (params !! vName (siteOther site))] ""]
  | None => []
  end.

Definition siteNext (acc : Instr) (index : nat) (site : tailSite) : Value :=
  if String.eqb (siteOp site) "" then iResult acc
  else mkValue ("%tre.acc.site" +:+ FormatInt (Z.of_nat index)) (vType (iResult acc)).

Definition siteBlock (acc : option Instr) (params : replacements_map) (header : string) (index : nat) (site : tailSite) (b : Block) : Block :=
  mkBlock (bName b) (keptInstrs (siteCall site) (vName (tValue (bTerminator b))) (bInstrs b) ++ siteFold acc params index site) (jump header).

(** The incoming values a phi has gained. *)
Definition gains (i i' : Instr) (R : Incoming -> Prop) : Prop :=
  iResult i' = iResult i /\ iOp i' = iOp i /\ forall inc, inc ∈ iIncoming i' <-> inc ∈ iIncoming i \/ R inc.

Lemma gains_add i i' from v R :
  gains (addIncoming from v i) i' R -> gains i i' (fun inc => inc = mkIncoming from v \/ R inc).
Proof.
  intros (H1 & H2 & H3). split; [exact H1|]. split; [exact H2|]. intros inc. rewrite H3. cbn [addIncoming set_iIncoming iIncoming].
  rewrite elem_of_app, list_elem_of_singleton. tauto.
Qed.

Lemma gains_iff i i' (R R' : Incoming -> Prop) : (forall inc, R inc <-> R' inc) -> gains i i' R -> gains i i' R'.
Proof. intros H (H1 & H2 & H3). split; [exact H1|]. split; [exact H2|]. intros inc. rewrite H3, H. reflexivity. Qed.

Lemma feedPhis_lookup from args phis j ph arg :
  phis !! j = Some ph -> args !! j = Some arg -> feedPhis from args phis !! j = Some (addIncoming from arg ph).
Proof.
  revert phis j. induction args as [|a args IH]; intros [|p phis] [|j]; cbn; try discriminate; [congruence | apply IH].
Qed.

Lemma feedPhis_length from args phis : List.length (feedPhis from args phis) = List.length phis.
Proof. revert phis. induction args as [|a args IH]; intros [|p phis]; cbn; auto. Qed.

(** ** Every site *)

Definition feeds (blocks : list Block) (sites : list (nat * tailSite)) (j : nat) (inc : Incoming) : Prop :=
  exists p site b call arg, (p, site) ∈ sites /\ blocks !! p = Some b /\ bInstrs b !! siteCall site = Some call /\
    iArgs call !! j = Some arg /\ inc = mkIncoming (bName b) arg.

Definition accFeeds (blocks : list Block) (acc : Instr) (index : nat) (sites : list (nat * tailSite)) (inc : Incoming) : Prop :=
  exists k p site b, sites !! k = Some (p, site) /\ blocks !! p = Some b /\ inc = mkIncoming (bName b) (siteNext acc (index + k) site).

(** Every site's call, with one argument for each phi. *)
Definition siteCalls (blocks : list Block) (sites : list (nat * tailSite)) (n : nat) : Prop :=
  forall p site, (p, site) ∈ sites -> exists b call, blocks !! p = Some b /\ bInstrs b !! siteCall site = Some call /\
    List.length (iArgs call) = n.

Definition accGains (blocks : list Block) (index : nat) (sites : list (nat * tailSite)) (acc acc' : option Instr) : Prop :=
  match acc, acc' with
  | Some acc, Some acc' => gains acc acc' (accFeeds blocks acc index sites)
  | None, None => True
  | _, _ => False
  end.

Record rewrittenSites (params : replacements_map) (header : string) (index : nat) (sites : list (nat * tailSite))
    (blocks blocks' : list Block) (phis phis' : list Instr) (acc acc' : option Instr) : Prop := mkRewrittenSites {
  rw_others : forall p, p ∉ map fst sites -> blocks' !! p = blocks !! p;
  rw_sites : forall k p site b, sites !! k = Some (p, site) -> blocks !! p = Some b ->
    blocks' !! p = Some (siteBlock acc params header (index + k) site b);
  rw_phis : List.length phis' = List.length phis;
  rw_phi : forall j ph, phis !! j = Some ph -> exists ph', phis' !! j = Some ph' /\ gains ph ph' (feeds blocks sites j);
  rw_acc : accGains blocks index sites acc acc'
}.

Lemma feeds_cons blocks p site sites b b' call j arg inc :
  p ∉ map fst sites -> blocks !! p = Some b -> bInstrs b !! siteCall site = Some call -> iArgs call !! j = Some arg ->
  inc = mkIncoming (bName b) arg \/ feeds (<[p := b']> blocks) sites j inc <-> feeds blocks ((p, site) :: sites) j inc.
Proof.
  intros Hp Hb Hcall Harg. split.
  - intros [->|(q & s & c & i & a & Hin & Hc & H)].
    + exists p, site, b, call, arg. repeat split; auto. left.
    + exists q, s, c, i, a. split; [right; exact Hin|]. split; [|exact H]. rewrite list_lookup_insert_ne in Hc; [exact Hc|].
      intros ->. apply Hp, list_elem_of_fmap. exists (q, s). auto.
  - intros (q & s & c & i & a & [[= -> ->]|Hin]%elem_of_cons & Hc & Hi & Ha & ->).
    + left. congruence.
    + right. exists q, s, c, i, a. rewrite list_lookup_insert_ne; [auto|].
      intros ->. apply Hp, list_elem_of_fmap. exists (q, s). auto.
Qed.

Lemma accFeeds_cons blocks p site sites b b' acc index inc :
  p ∉ map fst sites -> blocks !! p = Some b ->
  inc = mkIncoming (bName b) (siteNext acc index site) \/ accFeeds (<[p := b']> blocks) acc (S index) sites inc <->
  accFeeds blocks acc index ((p, site) :: sites) inc.
Proof.
  intros Hp Hb. split.
  - intros [->|(k & q & s & c & Hk & Hc & ->)].
    + exists 0, p, site, b. rewrite Nat.add_0_r. auto.
    + exists (S k), q, s, c. rewrite <- Nat.add_succ_comm. rewrite list_lookup_insert_ne in Hc; [auto|].
      intros ->. apply Hp, list_elem_of_fmap. exists (q, s). split; [reflexivity | eapply list_elem_of_lookup_2, Hk].
  - intros ([|k] & q & s & c & Hk & Hc & ->).
    + injection Hk as <- <-. rewrite Nat.add_0_r. left. congruence.
    + right. exists k, q, s, c. rewrite <- Nat.add_succ_comm. rewrite list_lookup_insert_ne; [auto|].
      intros ->. apply Hp, list_elem_of_fmap. exists (q, s). split; [reflexivity | eapply list_elem_of_lookup_2, Hk].
Qed.

(** One turn of the loop. *)
Lemma rewriteTailSite_spec params header index site phis acc b call :
  bInstrs b !! siteCall site = Some call ->
  rewriteTailSite (siteOp site) (default (siteOther site) (params !! vName (siteOther site))) (siteCall site) index header phis acc b =
  Some (siteBlock acc params header index site b, feedPhis (bName b) (iArgs call) phis,
        (fun a => addIncoming (bName b) (siteNext a index site) a) <$> acc).
Proof.
  intros Hc. unfold rewriteTailSite, siteBlock, siteFold, siteNext. rewrite Hc. cbn [mbind option_bind].
  destruct acc as [a|]; [destruct (String.eqb (siteOp site) "")|]; rewrite ?app_nil_r; reflexivity.
Qed.

Lemma rewriteTailSites_spec params header index sites blocks phis acc :
  NoDup (map fst sites) -> siteCalls blocks sites (List.length phis) ->
  exists blocks' phis' acc', rewriteTailSites params header index sites (blocks, phis, acc) = Some (blocks', phis', acc') /\
    rewrittenSites params header index sites blocks blocks' phis phis' acc acc'.
Proof.
  revert index blocks phis acc. induction sites as [|[p site] sites IH]; intros index blocks phis acc Hnd Hcalls.
  - exists blocks, phis, acc. split; [reflexivity|]. split; auto.
    + intros k p site b Hk. rewrite lookup_nil in Hk. discriminate.
    + intros j ph Hj. exists ph. split; [exact Hj|]. split; [reflexivity|]. split; [reflexivity|]. intros inc.
      split; [auto | intros [|(p & s & b & c & a & H & _)]; [assumption | inversion H]].
    + destruct acc as [a|]; [|exact I]. split; [reflexivity|]. split; [reflexivity|]. intros inc.
      split; [auto | intros [|(k & p & s & b & H & _)]; [assumption | rewrite lookup_nil in H; discriminate]].
  - cbn [map] in Hnd. apply NoDup_cons in Hnd as [Hp Hnd].
    destruct (Hcalls p site) as (b & call & Hb & Hcall & Hargs); [left|].
    cbn [rewriteTailSites]. rewrite Hb. cbn [mbind option_bind]. rewrite (rewriteTailSite_spec _ _ _ _ _ _ _ _ Hcall).
    cbn [mbind option_bind]. edestruct (IH (S index)) as (blocks' & phis' & acc' & -> & [H1 H2 H3 H4 H5]); [exact Hnd | |].
    { intros q s Hs. destruct (Hcalls q s) as (c & i & Hc & Hi & Ha); [right; exact Hs|]. exists c, i.
      rewrite feedPhis_length, list_lookup_insert_ne; [auto|]. intros ->. apply Hp, list_elem_of_fmap. exists (q, s). auto. }
    exists blocks', phis', acc'. split; [reflexivity|]. split.
    + intros q [Hne Hq]%not_elem_of_cons. rewrite H1 by exact Hq. apply list_lookup_insert_ne. auto.
    + intros [|k] q s c Hk Hc.
      * injection Hk as <- <-. rewrite Nat.add_0_r, H1 by exact Hp. rewrite list_lookup_insert_eq by (eapply lookup_lt_Some, Hb). rewrite Hb in Hc. injection Hc as <-. reflexivity.
      * rewrite <- Nat.add_succ_comm, (H2 k q s c Hk); [destruct acc; reflexivity|]. rewrite list_lookup_insert_ne; [exact Hc|].
        intros ->. apply Hp, list_elem_of_fmap. exists (q, s). split; [reflexivity | eapply list_elem_of_lookup_2, Hk].
    + rewrite H3. apply feedPhis_length.
    + intros j ph Hj. destruct (lookup_lt_is_Some_2 (iArgs call) j) as [arg Harg]; [rewrite Hargs; eapply lookup_lt_Some, Hj|].
      destruct (H4 j _ (feedPhis_lookup _ _ _ _ _ _ Hj Harg)) as (ph' & Hph & Hg). exists ph'. split; [exact Hph|].
      eapply gains_iff; [|apply gains_add, Hg]. intros inc. eapply feeds_cons; eassumption.
    + unfold accGains in *. destruct acc as [a|], acc' as [a'|]; try contradiction; [|exact I]. cbn [fmap option_fmap option_map] in H5.
      eapply gains_iff; [|apply gains_add, H5]. intros inc. exact (accFeeds_cons _ _ _ _ _ _ a _ inc Hp Hb).
Qed.

(** * The loop a function with tail calls becomes ([internal/ir/tailcall.go])

    What the pass relies on, and the function it leaves, block by block: the
    new entry, the header's phis with what each site feeds them, and the bodies. *)

(** ** What lowering guarantees *)

(** Every read of a function. *)
Definition functionReads (blocks : list Block) : list Value :=
  flat_map (fun b => flat_map (fun i => readOperands i ++ map inValue (iIncoming i)) (bInstrs b) ++
                     [tValue (bTerminator b); tCond (bTerminator b)]) blocks.

(** "a parameter's name is an identifier, which holds no dot" *)
Definition paramSpelling (p : Param) : Prop :=
  exists name, pName p = "%" +:+ name /\ sall (fun c => negb (Ascii.eqb c ".")) name = true.

Record loopable (fn : Function) : Prop := mkLoopable {
  lo_once : definesOnce fn;
  lo_blocks : NoDup (map bName (fBlocks fn));
  lo_named : "" ∉ map bName (fBlocks fn);
  lo_entry : treEntry ∉ map bName (fBlocks fn);
  lo_start : forall q, 0 ∉ succs fn q;
  lo_params : forall p, p ∈ fParams fn -> paramSpelling p;
  lo_distinct : NoDup (map pName (fParams fn));
  lo_undefined : forall p i, p ∈ fParams fn -> i ∈ instrsOf (fBlocks fn) -> resultName i <> pName p;
  lo_results : forall i, i ∈ instrsOf (fBlocks fn) -> HasPrefix (resultName i) "%tre." = false;
  lo_reads : forall v, v ∈ functionReads (fBlocks fn) -> HasPrefix (vName v) "%tre." = false;
  lo_types : forall p v, p ∈ fParams fn -> v ∈ functionReads (fBlocks fn) -> vName v = pName p -> vType v = pType p;
  lo_return : fReturn fn <> "";
  lo_returned : forall b, b ∈ fBlocks fn -> tOp (bTerminator b) = "return" -> fReturn fn <> "void" ->
    vName (tValue (bTerminator b)) <> "" /\ vType (tValue (bTerminator b)) = fReturn fn /\ typedRead fn (tValue (bTerminator b));
  lo_calls : forall i, i ∈ instrsOf (fBlocks fn) -> iOp i = "call." +:+ fName fn -> fReturn fn <> "void" -> resultName i <> "";
  lo_combines : forall i, i ∈ instrsOf (fBlocks fn) -> is_Some (accumulatorOps (iOp i)) ->
    iFields i = [] /\ iCleanups i = [] /\ Forall (fun a => vType a = vType (iResult i)) (iArgs i)
}.

(** ** The phis of the parameters *)

Lemma treName_spelling p : paramSpelling p -> exists name, pName p = "%" +:+ name /\ treName (pName p) = "%tre." +:+ name /\
  sall (fun c => negb (Ascii.eqb c ".")) name = true.
Proof.
  intros (name & E & H). exists name. split; [exact E|]. split; [|exact H].
  unfold treName, TrimPrefix. rewrite E, CutPrefix_app. reflexivity.
Qed.

Lemma treName_prefix x : HasPrefix (treName x) "%tre." = true.
Proof. apply HasPrefix_true. unfold treName. eauto. Qed.

(** A parameter is no phi's name, and not where the accumulator's are. *)
Lemma param_not_tre p : paramSpelling p -> HasPrefix (pName p) "%tre." = false.
Proof.
  intros (name & E & H). rewrite E. destruct (HasPrefix _ _) eqn:Hp; [|reflexivity].
  apply HasPrefix_true in Hp as [rest Hr]. cbn in Hr. injection Hr as ->. discriminate H.
Qed.

Lemma treName_not_acc p suffix : paramSpelling p -> treName (pName p) <> "%tre.acc." +:+ suffix.
Proof.
  intros (name & _ & -> & H)%treName_spelling E. cbn in E. injection E as ->. discriminate H.
Qed.

Lemma treName_inj p q : paramSpelling p -> paramSpelling q -> treName (pName p) = treName (pName q) -> pName p = pName q.
Proof.
  intros (n & Ep & -> & _)%treName_spelling (m & Eq & -> & _)%treName_spelling E. cbn in E. injection E as ->. congruence.
Qed.

Lemma treParams_from l K0 x :
  (forall p, p ∈ l -> x <> pName p) -> foldl (fun K p => <[pName p := treParam p]> K) K0 l !! x = (K0 : replacements_map) !! x.
Proof.
  revert K0. induction l as [|p l IH]; intros K0 H; [reflexivity|]. cbn [foldl]. rewrite IH by (intros q Hq; apply H; right; exact Hq).
  apply lookup_insert_ne. intros E. exact (H p ltac:(left) (eq_sym E)).
Qed.

Lemma treParams_lookup params x e :
  NoDup (map pName params) -> treParams params !! x = Some e <-> exists p, p ∈ params /\ pName p = x /\ e = treParam p.
Proof.
  unfold treParams. assert (H : forall l (K0 : replacements_map), NoDup (map pName l) ->
    foldl (fun K p => <[pName p := treParam p]> K) K0 l !! x = Some e <->
    (exists p, p ∈ l /\ pName p = x /\ e = treParam p) \/ (K0 !! x = Some e /\ forall p, p ∈ l -> x <> pName p)).
  { induction l as [|p l IH]; intros K0 Hnd; cbn [foldl].
    - split; [intros H; right; split; [exact H | intros p Hp; inversion Hp] | intros [(p & Hp & _)|[H _]]; [inversion Hp | exact H]].
    - cbn [map] in Hnd. apply NoDup_cons in Hnd as [Hp Hnd]. rewrite IH by exact Hnd. split.
      + intros [(q & Hq & H)|[H1 H2]]; [left; exists q; split; [right; exact Hq | exact H]|].
        destruct (decide (x = pName p)) as [->|Hne].
        * rewrite lookup_insert_eq in H1. injection H1 as <-. left. exists p. split; [left | auto].
        * rewrite lookup_insert_ne in H1 by congruence. right. split; [exact H1|]. intros q [->|Hq]%elem_of_cons; auto.
      + intros [(q & [->|Hq]%elem_of_cons & <- & ->)|[H1 H2]].
        * right. rewrite lookup_insert_eq. split; [reflexivity|]. intros q Hq E. apply Hp. rewrite E. apply list_elem_of_fmap_2, Hq.
        * left. eauto.
        * right. rewrite lookup_insert_ne by (intros E; exact (H2 p ltac:(left) (eq_sym E))). split; [exact H1|].
          intros q Hq. apply H2. right. exact Hq. }
  intros Hnd. rewrite H by exact Hnd. rewrite lookup_empty. split; [intros [?|[? _]]; [assumption | discriminate] | auto].
Qed.

Lemma treParams_flat params : NoDup (map pName params) -> (forall p, p ∈ params -> paramSpelling p) -> flat (treParams params).
Proof.
  intros Hnd Hs x e (p & Hp & _ & ->)%treParams_lookup; [|exact Hnd]. destruct (treParams params !! _) as [e'|] eqn:E; [|reflexivity].
  apply treParams_lookup in E as (q & Hq & E & _); [|exact Hnd]. pose proof (param_not_tre q (Hs q Hq)) as Hpre.
  rewrite E in Hpre. cbn [treParam vName] in Hpre. rewrite treName_prefix in Hpre. discriminate.
Qed.

(** ** The blocks of the loop *)

Section Shape.
Context (fn : Function) (sites : list (nat * tailSite)) (op : string).

Abbreviation K := (treParams (fParams fn)).
Abbreviation text := (default "" (accumulatorOps op)).

(** The accumulator's value in the header, when there is one. *)
Definition accValue : Value := mkValue "%tre.acc.phi" (fReturn fn).

Definition firstAcc : option Instr := if negb (String.eqb op "") then Some (accPhi fn text) else None.

Definition loopEntry (start : string) : Block :=
  mkBlock treEntry (if negb (String.eqb op "") then [accIdentity fn text] else []) (jump start).

Inductive newBody (start : string) (p : nat) (b : Block) : list Instr -> Terminator -> Prop :=
  | new_site k site before call after : sites !! k = Some (p, site) -> siteAt fn b site before call after ->
      newBody start p b (map (mapReads (replaced K)) (before ++ removelast after) ++ siteFold firstAcc K k site) (jump start)
  | new_return x : tailSiteOf fn b = None -> op <> "" -> tOp (bTerminator b) = "return" ->
      x = mkValue ("%tre.acc.ret" +:+ FormatInt (Z.of_nat p)) (fReturn fn) ->
      newBody start p b (map (mapReads (replaced K)) (bInstrs b) ++ [instr x op [accValue; replaced K (tValue (bTerminator b))] ""])
        (mkTerminator "return" x (replaced K (tCond (bTerminator b))) (tTarget (bTerminator b)) (tElse (bTerminator b)))
  | new_other : tailSiteOf fn b = None -> op = "" \/ tOp (bTerminator b) <> "return" ->
      newBody start p b (map (mapReads (replaced K)) (bInstrs b)) (mapTerminator (replaced K) (bTerminator b)).

Abbreviation blocks := (map (replaceBlock K) (fBlocks fn)).

Record loopShape (fn' : Function) (phis : list Instr) (acc : option Instr) (start : Block) : Prop := mkLoopShape {
  sh_name : fName fn' = fName fn;
  sh_params : fParams fn' = fParams fn;
  sh_returns : fReturn fn' = fReturn fn;
  sh_start : fBlocks fn !! 0 = Some start;
  sh_entry : fBlocks fn' !! 0 = Some (loopEntry (bName start));
  sh_body : forall p b, fBlocks fn !! p = Some b -> exists body term, newBody (bName start) p b body term /\
    fBlocks fn' !! S p = Some (mkBlock (bName b) ((if decide (p = 0) then phis ++ option_list acc else []) ++ body) term);
  sh_names : map bName (fBlocks fn') = treEntry :: map bName (fBlocks fn);
  sh_length : List.length phis = List.length (fParams fn);
  sh_phi : forall j p, fParams fn !! j = Some p -> exists ph, phis !! j = Some ph /\ gains (paramPhi p) ph (feeds blocks sites j);
  sh_acc : accGains blocks 0 sites firstAcc acc
}.

Context (Hlo : loopable fn) (Hsites : tailSites fn 0 (fBlocks fn) "" = Some (sites, op)).

Lemma site_elem p site : (p, site) ∈ sites <-> exists b, fBlocks fn !! p = Some b /\ tailSiteOf fn b = Some site.
Proof.
  destruct (tailSites_spec _ _ _ _ _ _ Hsites) as (_ & H & _). rewrite H. split; intros (b & Hb).
  - destruct Hb as (_ & Hb & Hs). rewrite Nat.sub_0_r in Hb. eauto.
  - exists b. rewrite Nat.sub_0_r. split; [lia | exact Hb].
Qed.

(** One definition per name, inside a block. *)
Lemma once_split b before i after x :
  b ∈ fBlocks fn -> bInstrs b = before ++ i :: after -> resultName i = x -> x <> "" ->
  Forall (fun j => resultName j <> x) (before ++ after).
Proof.
  intros Hb Hsplit Hi Hx. pose proof (once_nodup _ (lo_once _ Hlo)) as Hnd.
  apply list_elem_of_split in Hb as (l1 & l2 & Hl). rewrite Hl in Hnd. unfold instrsOf in Hnd.
  rewrite flat_map_app in Hnd. cbn [flat_map] in Hnd. rewrite Hsplit, <- app_assoc in Hnd.
  change ((i :: after) ++ flat_map bInstrs l2) with (i :: (after ++ flat_map bInstrs l2)) in Hnd. rewrite app_assoc, map_app in Hnd. cbn [map] in Hnd.
  apply Forall_forall. intros j Hj E. apply (names_unique _ _ _ (resultName i) Hnd); [| reflexivity | congruence].
  apply elem_of_app. apply elem_of_app in Hj as [Hj|Hj]; [left | right]; rewrite map_app; apply elem_of_app; [right | left];
    rewrite Hi, <- E; apply list_elem_of_fmap_2, Hj.
Qed.

Lemma notReturned_map f x l : Forall (fun j => resultName j <> x) l -> Forall (fun i => notReturned x i = true) (map (mapReads f) l).
Proof. intros H. apply Forall_fmap. eapply Forall_impl; [exact H|]. intros i Hi. apply negb_true_iff, String.eqb_neq, Hi. Qed.

Lemma kept_site b site before call after :
  b ∈ fBlocks fn -> siteAt fn b site before call after ->
  keptInstrs (siteCall site) (vName (replaced K (tValue (bTerminator b)))) (map (mapReads (replaced K)) (bInstrs b)) =
  map (mapReads (replaced K)) (before ++ removelast after).
Proof.
  intros Hb H. destruct (lo_returned _ Hlo b Hb (sa_return _ _ _ _ _ _ H) (sa_value _ _ _ _ _ _ H)) as (Hne & _).
  set (x := vName (tValue (bTerminator b))) in *.
  assert (Hx : vName (replaced K (tValue (bTerminator b))) = x).
  { unfold replaced. destruct (K !! _) as [e|] eqn:He; [|reflexivity]. exfalso.
    apply treParams_lookup in He as (p & Hp & Hn & _); [|apply (lo_distinct _ Hlo)].
    assert (exists i, i ∈ bInstrs b /\ resultName i = x) as (i & Hi & Hr).
    { destruct (sa_end _ _ _ _ _ _ H) as [E|between combine lhs rhs other text E];
        [exists call | exists combine]; rewrite (sa_split _ _ _ _ _ _ H); (split; [|exact E || exact (eq_sym E)]);
        rewrite ?elem_of_app, ?elem_of_cons, ?elem_of_app, ?list_elem_of_singleton; tauto. }
    apply (lo_undefined _ Hlo p i Hp); [|rewrite Hr, Hn; reflexivity]. apply list_elem_of_In, in_flat_map. exists b. split; apply list_elem_of_In; assumption. }
  rewrite Hx, (sa_split _ _ _ _ _ _ H), (sa_position _ _ _ _ _ _ H), !map_app. cbn [map].
  rewrite <- (length_map (mapReads (replaced K)) before), keptInstrs_split; [f_equal|]; destruct (sa_end _ _ _ _ _ _ H) as [E|between combine lhs rhs other text E].
  - reflexivity.
  - pose proof (once_split b (before ++ call :: between) combine [] x Hb) as Ho.
    rewrite removelast_last, map_app, List.filter_app. cbn [map List.filter]. unfold notReturned at 2.
    change (resultName (mapReads (replaced K) combine)) with (resultName combine). rewrite E, String.eqb_refl. cbn [negb]. rewrite app_nil_r.
    apply filter_all, notReturned_map. rewrite (sa_split _ _ _ _ _ _ H), <- app_assoc in Ho.
    specialize (Ho eq_refl E Hne). rewrite !Forall_app, Forall_cons in Ho. tauto.
  - apply notReturned_map. pose proof (once_split b before call [] x Hb (sa_split _ _ _ _ _ _ H) (eq_sym E) Hne) as Ho.
    rewrite app_nil_r in Ho. exact Ho.
  - apply notReturned_map. pose proof (once_split b (before ++ call :: between) combine [] x Hb) as Ho.
    rewrite (sa_split _ _ _ _ _ _ H), <- app_assoc in Ho. specialize (Ho eq_refl E Hne). rewrite !Forall_app, Forall_cons in Ho. tauto.
Qed.

Lemma block_replaced p b : fBlocks fn !! p = Some b -> blocks !! p = Some (replaceBlock K b).
Proof. intros Hb. rewrite list_lookup_fmap, Hb. reflexivity. Qed.

Lemma sites_called : siteCalls blocks sites (List.length (fParams fn)).
Proof.
  intros p site (b & Hb & Hs)%site_elem. apply tailSiteOf_spec in Hs as (before & call & after & H).
  exists (replaceBlock K b), (mapReads (replaced K) call). split; [apply block_replaced, Hb|]. cbn [replaceBlock bInstrs].
  rewrite (sa_split _ _ _ _ _ _ H), (sa_position _ _ _ _ _ _ H), map_app. split.
  - rewrite lookup_app_r by (rewrite length_map; lia). rewrite length_map, Nat.sub_diag. reflexivity.
  - cbn [mapReads iArgs]. rewrite length_map. apply H.
Qed.

(** The block at a position after both loops. *)
Lemma body_shape blocks' phis phis' acc header p b :
  rewrittenSites K header 0 sites blocks blocks' phis phis' firstAcc acc -> fBlocks fn !! p = Some b ->
  exists body term, newBody header p b body term /\
    match acc with Some acc => imap (combineReturn op acc (map fst sites)) blocks' | None => blocks' end !! p =
    Some (mkBlock (bName b) body term).
Proof.
  intros [Hother Hsite _ _ Hacc] Hb.
  assert (Hres : forall a, acc = Some a -> op <> "" /\ iResult a = accValue).
  { intros a ->. unfold accGains, firstAcc in Hacc. destruct (String.eqb_spec op ""); [contradiction|].
    split; [assumption | apply Hacc]. }
  assert (Hin : p ∈ map fst sites <-> is_Some (tailSiteOf fn b)).
  { rewrite list_elem_of_fmap. split.
    - intros ([q site] & -> & Hq). apply site_elem in Hq as (c & Hc & Hs). cbn [fst] in Hb. rewrite Hb in Hc. injection Hc as <-. eauto.
    - intros [site Hs]. exists (p, site). split; [reflexivity|]. apply site_elem. eauto. }
  destruct (tailSiteOf fn b) as [site|] eqn:Hs.
  - assert (Hps : (p, site) ∈ sites) by (apply site_elem; eauto).
    apply list_elem_of_lookup_1 in Hps as [k Hk]. destruct (tailSiteOf_spec _ _ _ Hs) as (before & call & after & H).
    exists (map (mapReads (replaced K)) (before ++ removelast after) ++ siteFold firstAcc K k site), (jump header).
    split; [eapply new_site; eauto|].
    assert (E : blocks' !! p = Some (mkBlock (bName b) (map (mapReads (replaced K)) (before ++ removelast after) ++ siteFold firstAcc K k site) (jump header))).
    { rewrite (Hsite k p site (replaceBlock K b) Hk (block_replaced _ _ Hb)). unfold siteBlock.
      cbn [replaceBlock bName bInstrs bTerminator mapTerminator tValue Nat.add].
      rewrite (kept_site b site before call after (list_elem_of_lookup_2 _ _ _ Hb) H). reflexivity. }
    destruct acc as [a|]; [|exact E]. rewrite list_lookup_imap, E. cbn [fmap option_fmap option_map]. unfold combineReturn.
    rewrite bool_decide_eq_true_2 by (apply Hin; eauto). reflexivity.
  - assert (E : blocks' !! p = Some (replaceBlock K b)).
    { rewrite Hother by (rewrite Hin; intros [? ?]; discriminate). apply block_replaced, Hb. }
    destruct acc as [a|]; [rewrite list_lookup_imap, E; cbn [fmap option_fmap option_map]; unfold combineReturn;
      rewrite bool_decide_eq_false_2 by (rewrite Hin; intros [? ?]; discriminate);
      cbn [orb replaceBlock bTerminator mapTerminator tOp]; destruct (Hres a eq_refl) as [Hop Ha];
      destruct (String.eqb_spec (tOp (bTerminator b)) "return") as [Hret|Hret]; cbn [negb]; rewrite ?Hret|].
    + do 2 eexists. split; [apply new_return; try reflexivity; assumption|]. rewrite Ha. reflexivity.
    + do 2 eexists. split; [apply new_other; auto|]. reflexivity.
    + do 2 eexists. split; [apply new_other; auto|]; [|exact E]. left. unfold accGains, firstAcc in Hacc.
      destruct (String.eqb_spec op ""); [assumption | contradiction].
Qed.

Lemma rewriteTailRecursion_shape :
  fBlocks fn <> [] -> exists fn' phis acc start, rewriteTailRecursion fn sites op = Some fn' /\ loopShape fn' phis acc start.
Proof.
  intros Hne. destruct (fBlocks fn !! 0) as [start|] eqn:Hstart; [|destruct (fBlocks fn); [contradiction | discriminate]].
  destruct (tailSites_spec _ _ _ _ _ _ Hsites) as (Hnd & _).
  destruct (rewriteTailSites_spec K (bName start) 0 sites blocks (map paramPhi (fParams fn)) firstAcc Hnd) as (blocks' & phis & acc & Hrun & Hrw).
  { rewrite length_map. apply sites_called. }
  unfold rewriteTailRecursion. rewrite Hstart. cbn [mbind option_bind].
  rewrite replaceFunctionValues_flat by (apply treParams_flat; [apply Hlo | apply (lo_params _ Hlo)]). cbn [mbind option_bind].
  fold firstAcc. rewrite Hrun. cbn [mbind option_bind].
  set (done := match acc with Some a => imap _ blocks' | None => blocks' end).
  assert (Hbody := fun p b => body_shape blocks' _ phis acc (bName start) p b Hrw). fold done in Hbody.
  change (match acc with Some a => [a] | None => [] end) with (option_list acc).
  assert (Hlen : List.length done = List.length (fBlocks fn)).
  { assert (forall p, is_Some (done !! p) <-> is_Some (fBlocks fn !! p)) as H.
    { intros p. split; [|intros [b Hb]; destruct (Hbody p b Hb) as (? & ? & _ & ->); eauto]. intros Hd.
      destruct (fBlocks fn !! p) eqn:Hp; [eauto|]. exfalso.
      assert (H0 : blocks' !! p = None).
      { rewrite (rw_others _ _ _ _ _ _ _ _ _ _ Hrw); [rewrite list_lookup_fmap, Hp; reflexivity|].
        intros ([q s] & -> & (b & Hb & _)%site_elem)%list_elem_of_fmap. cbn [fst] in Hp. congruence. }
      destruct Hd as [d Hd]. unfold done in Hd. destruct acc; [rewrite list_lookup_imap, H0 in Hd|]; congruence || discriminate. }
    apply Nat.le_antisymm; apply Nat.nlt_ge; intros Hlt; [apply lookup_lt_is_Some_2, H, lookup_lt_is_Some in Hlt |
      apply lookup_lt_is_Some_2, H, lookup_lt_is_Some in Hlt]; lia. }
  eexists _, phis, acc, start. split; [reflexivity|]. split; try reflexivity.
  - exact Hstart.
  - intros p b Hb. destruct (Hbody p b Hb) as (body & term & Hnew & Hd). exists body, term. split; [exact Hnew|].
    cbn [set_fBlocks fBlocks]. change ((?x :: ?l) !! S p) with (l !! p). destruct (decide (p = 0)) as [->|Hp].
    + rewrite list_lookup_alter_eq, Hd. reflexivity.
    + rewrite list_lookup_alter_ne by congruence. exact Hd.
  - cbn [set_fBlocks fBlocks map bName]. f_equal. apply list_eq. intros p. rewrite !list_lookup_fmap.
    destruct (fBlocks fn !! p) as [b|] eqn:Hb.
    + destruct (Hbody p b Hb) as (body & term & _ & Hd). destruct (decide (p = 0)) as [->|Hp];
        [rewrite list_lookup_alter_eq | rewrite list_lookup_alter_ne by congruence]; rewrite Hd; reflexivity.
    + rewrite (lookup_ge_None_2 (alter _ _ _)); [reflexivity|]. rewrite length_alter, Hlen. apply lookup_ge_None, Hb.
  - rewrite (rw_phis _ _ _ _ _ _ _ _ _ _ Hrw), length_map. reflexivity.
  - intros j p Hj. apply (rw_phi _ _ _ _ _ _ _ _ _ _ Hrw). rewrite list_lookup_fmap, Hj. reflexivity.
  - apply Hrw.
Qed.
End Shape.

(** * Running a function that calls itself

    [Semantics] leaves calls to the machine.  Here the calls of a function to
    itself run the function: [runs] is granted a depth, and each call one level
    less.  It is the specification of the tail-call pass. *)

(** Which values a type has. *)
Class ResultTypes (V : Type) : Type := fits : string -> V -> bool.

Section Runs.
Context {V M X : Type} (base : Machine V M X) {types : ResultTypes V}.

(** What a call sees of a run: a result, or the end of the whole run. *)
Definition toStep (o : outcome V M X) : step V M X :=
  match o with
  | Returned (Some v) m => Next v m
  | Stopped s => Halt s
  | _ => Undefined
  end.

Definition isSelfCall (fn : Function) (i : Instr) : bool :=
  String.eqb (iOp i) ("call." +:+ fName fn) && String.eqb (iExternABI i) "" &&
  (List.length (iArgs i) =? List.length (fParams fn))%nat && (List.length (iCleanups i) =? 0)%nat.

(** The machine whose calls to [fn] are [run]. *)
Definition selfMachine (fn : Function) (run : list V -> M -> outcome V M X) : Machine V M X := {|
  literal := literal;
  operation := fun i vs m =>
    if isSelfCall fn i then toStep (run (take (List.length (iArgs i)) vs) m) else operation i vs m;
  truth := truth
|}.

(** A function returns values of its type. *)
Definition typedResult (fn : Function) (o : outcome V M X) : outcome V M X :=
  match o with
  | Returned (Some v) m => if fits (fReturn fn) v then o else Stuck
  | Returned None m => if String.eqb (fReturn fn) "void" then o else Stuck
  | _ => o
  end.

Fixpoint runs (n : nat) (fn : Function) (args : list V) (m : M) : outcome V M X :=
  match n with
  | O => Exhausted
  | S n => typedResult fn (runFunction (machine := selfMachine fn (runs n fn)) (S n) fn args m)
  end.

(** How a program can see a run end. *)
Definition ends (o : outcome V M X) : Prop :=
  match o with
  | Returned _ _ | Stopped _ => True
  | _ => False
  end.
End Runs.

(** ** What the pass asks of a machine *)

(** The operations of [accumulatorOps] are associative and commutative, and the
    constant they start from changes no value of the type. *)
Class AccumulatorMachine {V M X} (machine : Machine V M X) {types : ResultTypes V} : Type := {
  accumulate : string -> string -> V -> V -> V;
  unit_of : string -> string -> V;
  accumulate_comm : forall op ty x y, is_Some (accumulatorOps op) -> accumulate op ty x y = accumulate op ty y x;
  accumulate_assoc : forall op ty x y z, is_Some (accumulatorOps op) ->
    accumulate op ty x (accumulate op ty y z) = accumulate op ty (accumulate op ty x y) z;
  accumulate_unit : forall op ty x, is_Some (accumulatorOps op) -> isWrappingInteger ty = true -> fits ty x = true ->
    accumulate op ty (unit_of op ty) x = x;
  accumulate_runs : forall i x y m, is_Some (accumulatorOps (iOp i)) -> isWrappingInteger (vType (iResult i)) = true ->
    map vType (iArgs i) = [vType (iResult i); vType (iResult i)] ->
    operation i [x; y] m = Next (accumulate (iOp i) (vType (iResult i)) x y) m;
  unit_runs : forall op text i m, accumulatorOps op = Some text -> isWrappingInteger (vType (iResult i)) = true ->
    iOp i = "const" -> iImmediate i = text -> operation i [] m = Next (unit_of op (vType (iResult i))) m
}.

(** An instruction that always computes a value, the same in every memory. *)
Definition steady {V M X} {machine : Machine V M X} (i : Instr) : Prop :=
  iOp i <> "phi" /\ forall vs, List.length vs = List.length (readOperands i) ->
    exists v, forall m, operation (shape i) vs m = Next v m.

(** ** Values of several operands *)

Lemma mapM_lookup {A B} (g : A -> option B) l ws j x w : mapM g l = Some ws -> l !! j = Some x -> ws !! j = Some w -> g x = Some w.
Proof.
  revert ws j. induction l as [|y l IH]; intros ws j; cbn [mapM]; [intros _ H; rewrite lookup_nil in H; discriminate|].
  destruct (g y) as [z|] eqn:Hy; [|discriminate]. cbn [mbind option_bind]. destruct (mapM g l) as [zs|]; [|discriminate].
  intros [= <-]. destruct j as [|j]; cbn; [congruence | apply IH; reflexivity].
Qed.

Lemma mapM_app {A B} (g : A -> option B) l1 l2 :
  mapM g (l1 ++ l2) = (ws1 ← mapM g l1; ws2 ← mapM g l2; Some (ws1 ++ ws2)).
Proof.
  induction l1 as [|x l1 IH]; cbn [app mapM].
  - cbn [mbind option_bind]. destruct (mapM g l2); reflexivity.
  - destruct (g x); [|reflexivity]. cbn [mbind option_bind]. rewrite IH. destruct (mapM g l1); [|reflexivity].
    cbn [mbind option_bind]. destruct (mapM g l2); reflexivity.
Qed.

(** ** From some number on *)

Definition eventually (P : nat -> Prop) : Prop := exists N, forall k, N <= k -> P k.

Lemma eventually_always (P : nat -> Prop) : (forall k, P k) -> eventually P.
Proof. exists 0. auto. Qed.

Lemma eventually_mono (P Q : nat -> Prop) : (forall k, P k -> Q k) -> eventually P -> eventually Q.
Proof. intros H [N HN]. exists N. auto. Qed.

Lemma eventually_and (P Q R : nat -> Prop) : (forall k, P k -> Q k -> R k) -> eventually P -> eventually Q -> eventually R.
Proof. intros H [N HN] [K HK]. exists (N + K). intros k Hk. apply H; [apply HN | apply HK]; lia. Qed.

Lemma eventually_succ (P : nat -> Prop) : eventually (fun k => P (S k)) -> eventually P.
Proof. intros [N HN]. exists (S N). intros [|k] Hk; [lia|]. apply HN. lia. Qed.

Lemma eventually_pred (P : nat -> Prop) : eventually P -> eventually (fun k => P (S k)).
Proof. intros [N HN]. exists N. intros k Hk. apply HN. lia. Qed.

(** The same for two numbers: a depth and a number of blocks. *)
Definition eventually2 (P : nat -> nat -> Prop) : Prop := exists N, forall k g, N <= k -> N <= g -> P k g.

Lemma eventually2_mono (P Q : nat -> nat -> Prop) : (forall k g, P k g -> Q k g) -> eventually2 P -> eventually2 Q.
Proof. intros H [N HN]. exists N. auto. Qed.

Lemma eventually2_and (P : nat -> Prop) (Q R : nat -> nat -> Prop) :
  (forall k g, P k -> Q k g -> R k g) -> eventually P -> eventually2 Q -> eventually2 R.
Proof. intros H [N HN] [K HK]. exists (N + K). intros k g Hk Hg. apply H; [apply HN | apply HK]; lia. Qed.

Lemma eventually2_left (P : nat -> Prop) (R : nat -> nat -> Prop) : (forall k g, P k -> R k g) -> eventually P -> eventually2 R.
Proof. intros H [N HN]. exists N. auto. Qed.

Lemma eventually2_succ (P : nat -> nat -> Prop) : eventually2 (fun k g => P k (S g)) -> eventually2 P.
Proof. intros [N HN]. exists (S N). intros k [|g] Hk Hg; [lia|]. apply HN; lia. Qed.

Lemma eventually2_diagonal (P : nat -> nat -> Prop) : eventually2 P -> eventually (fun k => P k k).
Proof. intros [N HN]. exists N. auto. Qed.

(** Instructions end a run only by stopping it. *)
Lemma runInstrs_end {V M X} {machine : Machine V M X} from e l (ρ : gmap string V) m o :
  runInstrs (X := X) from e ρ m l = inr o -> o = Stuck \/ exists s, o = Stopped s.
Proof.
  revert ρ m. induction l as [|i l IH]; intros ρ m; cbn [runInstrs]; [discriminate|].
  destruct (runInstr from e ρ m i); [apply IH | intros [= <-]; eauto | intros [= <-]; auto].
Qed.

(** ** More depth and more blocks change no run that ends *)

Section Monotone.
Context {V M X : Type} (base : Machine V M X) {types : ResultTypes V} (fn : Function).

(** One run of the calls answers what another does. *)
Definition answers (run run' : list V -> M -> outcome V M X) : Prop :=
  forall vs m, toStep (run vs m) <> Undefined -> toStep (run' vs m) = toStep (run vs m).

Context (run run' : list V -> M -> outcome V M X) (Hrun : answers run run').

Lemma runInstr_answers from (e ρ : gmap string V) m i :
  runInstr (machine := selfMachine base fn run) from e ρ m i <> Undefined ->
  runInstr (machine := selfMachine base fn run') from e ρ m i = runInstr (machine := selfMachine base fn run) from e ρ m i.
Proof.
  unfold runInstr. destruct (String.eqb _ "phi"); [reflexivity|].
  change (operand (machine := selfMachine base fn run)) with (operand (machine := base)).
  change (operand (machine := selfMachine base fn run')) with (operand (machine := base)).
  destruct (mapM (operand ρ) (readOperands i)) as [vs|]; [|reflexivity]. unfold selfMachine. cbn [operation].
  destruct (isSelfCall fn (shape i)); [apply Hrun | reflexivity].
Qed.

Lemma runInstrs_answers from (e : gmap string V) l : forall ρ m,
  runInstrs (machine := selfMachine base fn run) from e ρ m l <> inr Stuck ->
  runInstrs (machine := selfMachine base fn run') from e ρ m l = runInstrs (machine := selfMachine base fn run) from e ρ m l.
Proof.
  induction l as [|i l IH]; intros ρ m; [reflexivity|]. cbn [runInstrs]. pose proof (runInstr_answers from e ρ m i) as Hi.
  destruct (runInstr (machine := selfMachine base fn run) from e ρ m i); try (rewrite Hi by discriminate); [apply IH | reflexivity | contradiction].
Qed.

Lemma runBlocks_answers fuel : forall fuel' from cur (ρ : gmap string V) m, fuel <= fuel' ->
  ends (runBlocks (machine := selfMachine base fn run) fuel fn from cur ρ m) ->
  runBlocks (machine := selfMachine base fn run') fuel' fn from cur ρ m =
  runBlocks (machine := selfMachine base fn run) fuel fn from cur ρ m.
Proof.
  induction fuel as [|fuel IH]; intros [|fuel'] from cur ρ m Hle; [contradiction | contradiction | lia|]. cbn [runBlocks].
  destruct (fBlocks fn !! cur) as [b|]; [|contradiction]. pose proof (runInstrs_answers from ρ (bInstrs b) ρ m) as Hi.
  destruct (runInstrs (machine := selfMachine base fn run) from ρ ρ m (bInstrs b)) as [[ρ1 m1]|o].
  - rewrite Hi by discriminate.
    change (runTerminator (machine := selfMachine base fn run')) with (runTerminator (machine := base) (M := M) (X := X)).
    change (runTerminator (machine := selfMachine base fn run)) with (runTerminator (machine := base) (M := M) (X := X)).
    destruct (runTerminator ρ1 m1 (bTerminator b)) as [target|o]; [|reflexivity].
    destruct (blockIndex fn !! target); [|contradiction]. apply IH. lia.
  - intros Ho. rewrite Hi; [reflexivity|]. intros [= ->]. contradiction.
Qed.
End Monotone.

Lemma runs_monotone {V M X} (base : Machine V M X) {types : ResultTypes V} fn n k args m :
  n <= k -> ends (runs base n fn args m) -> runs base k fn args m = runs base n fn args m.
Proof.
  revert k args m. induction n as [|n IH]; intros [|k] args m Hle; [contradiction | contradiction | lia|]. cbn [runs]. intros Hends.
  assert (Hraw : ends (runFunction (machine := selfMachine base fn (runs base n fn)) (S n) fn args m)).
  { destruct (runFunction (S n) fn args m); try exact I; contradiction. }
  unfold runFunction in *. rewrite (runBlocks_answers base fn (runs base n fn) (runs base k fn)) with (fuel := S n); [reflexivity | | lia | exact Hraw].
  intros vs m' Hs. rewrite (IH k); [reflexivity | lia|].
  destruct (runs base n fn vs m') as [[v|] m''|s| | |]; try exact I; contradiction.
Qed.

(** * A recursive run and the loop's run, side by side

    The loop holds each value under the name the pass gave it, and values of
    earlier rounds under names nothing reads.  Under that relation an
    instruction, and a list of them, does the same in both; what stands between
    a call and its return does so before the call as well. *)

(** The names a run may compute. *)
Definition computedNames (fn : Function) : list string :=
  map pName (fParams fn) ++ filter (fun x => x <> "") (map resultName (instrsOf (fBlocks fn))).

(** What stands between a site's call and its return. *)
Definition afterCall (b : Block) (site : tailSite) : list Instr := drop (S (siteCall site)) (bInstrs b).

Lemma afterCall_site fn b site before call after : siteAt fn b site before call after -> afterCall b site = after.
Proof.
  intros H. unfold afterCall. rewrite (sa_split _ _ _ _ _ _ H), (sa_position _ _ _ _ _ _ H).
  change (call :: after) with ([call] ++ after). rewrite app_assoc. apply drop_app_length'. rewrite length_app. cbn. lia.
Qed.

(** What the proof asks of the machine: only what is not computed is a literal,
    and what stands between a call and its return always computes. *)
Record loopMachine {V M X} (machine : Machine V M X) (fn : Function) : Prop := mkLoopMachine {
  lm_literals : forall v, vName v = "" \/ vName v ∈ computedNames fn -> literal v = None;
  lm_steady : forall b site i, b ∈ fBlocks fn -> tailSiteOf fn b = Some site ->
    i ∈ removelast (afterCall b site) -> steady (machine := machine) i;
  lm_known : forall b site i v, b ∈ fBlocks fn -> tailSiteOf fn b = Some site ->
    i ∈ afterCall b site -> v ∈ readOperands i -> vName v ∈ computedNames fn \/ is_Some (literal v)
}.

Section Linked.
Context {V M X : Type} (base : Machine V M X) {types : ResultTypes V}.
Context (module : Module_) (params : gmap string (list Param)) (fn fn' : Function).
Context (Hsound : sound module params fn) (Hlo : loopable fn) (Hmachine : loopMachine base fn).
Context (Hname : fName fn' = fName fn) (Hparams : fParams fn' = fParams fn).

Abbreviation env := (gmap string V).
Abbreviation K := (treParams (fParams fn)).
Abbreviation ren := (replaced K).
Abbreviation E n := (selfMachine base fn (runs base n fn)).
Abbreviation E' k := (selfMachine base fn' (runs base k fn')).

Definition renamed (x : string) : string := vName (ren (mkValue x "")).

Lemma renamed_value v : vName (ren v) = renamed (vName v).
Proof. unfold renamed, replaced. cbn [vName]. destruct (K !! vName v); reflexivity. Qed.

Lemma renamed_cases x :
  (exists p, p ∈ fParams fn /\ pName p = x /\ renamed x = treName x) \/ (K !! x = None /\ renamed x = x).
Proof.
  unfold renamed, replaced. cbn [vName]. destruct (K !! x) as [e|] eqn:He; [left | right; auto].
  apply treParams_lookup in He as (p & Hp & <- & ->); [|apply Hlo]. exists p. auto.
Qed.

Lemma renamed_result i : i ∈ instrsOf (fBlocks fn) -> renamed (resultName i) = resultName i.
Proof.
  intros Hi. destruct (renamed_cases (resultName i)) as [(p & Hp & E & _)|[_ H]]; [|exact H].
  exfalso. exact (lo_undefined _ Hlo p i Hp Hi (eq_sym E)).
Qed.

(** Two names are one after the renaming only if they were before. *)
Lemma renamed_other i y : i ∈ instrsOf (fBlocks fn) -> y <> resultName i -> renamed y <> resultName i.
Proof.
  intros Hi Hne. destruct (renamed_cases y) as [(p & Hp & E & H)|[_ H]]; rewrite H; [|exact Hne].
  intros Ht. pose proof (lo_results _ Hlo i Hi) as Hpre. rewrite <- Ht, treName_prefix in Hpre. discriminate.
Qed.

(** [hidden] is a value the loop does not have. *)
Record linked (hidden : option string) (a : option V) (ρ ρ' : env) : Prop := mkLinked {
  lk_value : forall x v, Some x <> hidden -> ρ !! x = Some v -> ρ' !! renamed x = Some v;
  lk_dom : forall x, is_Some (ρ !! x) -> x ∈ computedNames fn;
  lk_names : forall x, is_Some (ρ' !! x) -> x ∈ computedNames fn \/ HasPrefix x "%tre." = true;
  lk_acc : forall x, a = Some x -> ρ' !! "%tre.acc.phi" = Some x
}.

Lemma result_computed i : i ∈ instrsOf (fBlocks fn) -> resultName i <> "" -> resultName i ∈ computedNames fn.
Proof. intros Hi Hne. apply elem_of_app. right. apply list_elem_of_filter. split; [exact Hne | apply list_elem_of_fmap_2, Hi]. Qed.

Lemma computed_not_tre x : x ∈ computedNames fn -> HasPrefix x "%tre." = false.
Proof.
  intros [(p & -> & Hp)%list_elem_of_fmap|[_ (i & -> & Hi)%list_elem_of_fmap]%list_elem_of_filter]%elem_of_app.
  - apply param_not_tre, Hlo, Hp.
  - apply Hlo, Hi.
Qed.

Lemma linked_assign hidden a ρ ρ' i v :
  i ∈ instrsOf (fBlocks fn) -> linked hidden a ρ ρ' -> linked hidden a (assign ρ i v) (assign ρ' i v).
Proof.
  intros Hi [H1 H0 H2 H3]. unfold assign. destruct (String.eqb_spec (vName (iResult i)) "") as [|Hne]; [split; assumption|].
  fold (resultName i) in *. split.
  - intros x w Hx. destruct (decide (x = resultName i)) as [->|Hxi].
    + rewrite renamed_result, !lookup_insert_eq by exact Hi. auto.
    + pose proof (renamed_other i x Hi Hxi). rewrite !lookup_insert_ne by congruence. auto.
  - intros x. destruct (decide (x = resultName i)) as [->|Hxi]; [intros _; apply result_computed; assumption|].
    rewrite lookup_insert_ne by congruence. apply H0.
  - intros x. destruct (decide (x = resultName i)) as [->|Hxi]; [left; apply result_computed; assumption|].
    rewrite lookup_insert_ne by congruence. apply H2.
  - intros x Hx. rewrite lookup_insert_ne; [auto|]. intros E. pose proof (lo_results _ Hlo i Hi) as Hp. rewrite E in Hp. discriminate.
Qed.

Lemma linked_hide a ρ ρ' i v : i ∈ instrsOf (fBlocks fn) -> linked None a ρ ρ' -> linked (Some (resultName i)) a (assign ρ i v) ρ'.
Proof.
  intros Hi [H1 H0 H2 H3]. unfold assign. destruct (String.eqb_spec (vName (iResult i)) "") as [|Hne];
    [split; auto; intros x w _; apply H1; discriminate|].
  fold (resultName i) in *. split; [| |exact H2 | exact H3].
  - intros x w Hx. rewrite lookup_insert_ne by congruence. apply H1. discriminate.
  - intros x. destruct (decide (x = resultName i)) as [->|Hxi]; [intros _; apply result_computed; assumption|].
    rewrite lookup_insert_ne by congruence. apply H0.
Qed.

(** A name of the accumulator's own. *)
Lemma linked_fresh hidden a ρ ρ' suffix v :
  suffix <> "phi" -> linked hidden a ρ ρ' -> linked hidden a ρ (<["%tre.acc." +:+ suffix := v]> ρ').
Proof.
  intros Hs [H1 H0 H2 H3]. split; [|exact H0 | |].
  - intros x w Hx Hw. rewrite lookup_insert_ne; [auto|]. intros E. destruct (renamed_cases x) as [(p & Hp & <- & H)|[HK H]]; rewrite H in E.
    + eapply treName_not_acc; [apply (lo_params _ Hlo p Hp) | symmetry; exact E].
    + pose proof (computed_not_tre x (H0 x (ex_intro _ w Hw))) as Hp. rewrite <- E in Hp. discriminate.
  - intros x. destruct (decide (x = "%tre.acc." +:+ suffix)) as [->|Hne]; [right; apply HasPrefix_true; eexists; reflexivity|].
    rewrite lookup_insert_ne by congruence. apply H2.
  - intros x Hx. rewrite lookup_insert_ne; [auto|]. intros E. apply Hs. cbn in E. congruence.
Qed.

(** ** Operands *)

Lemma reads_of_instr i v : i ∈ instrsOf (fBlocks fn) -> v ∈ readOperands i -> v ∈ functionReads (fBlocks fn).
Proof.
  intros (b & Hb & Hi)%list_elem_of_In%in_flat_map Hv. apply list_elem_of_In, in_flat_map. exists b. split; [exact Hb|].
  apply in_app_iff. left. apply in_flat_map. exists i. split; [exact Hi|]. apply in_app_iff. left. apply list_elem_of_In, Hv.
Qed.

Lemma reads_of_phi i inc : i ∈ instrsOf (fBlocks fn) -> inc ∈ iIncoming i -> inValue inc ∈ functionReads (fBlocks fn).
Proof.
  intros (b & Hb & Hi)%list_elem_of_In%in_flat_map Hv. apply list_elem_of_In, in_flat_map. exists b. split; [exact Hb|].
  apply in_app_iff. left. apply in_flat_map. exists i. split; [exact Hi|]. apply in_app_iff. right. apply in_map, list_elem_of_In, Hv.
Qed.

Lemma reads_of_terminator b v :
  b ∈ fBlocks fn -> v ∈ [tValue (bTerminator b); tCond (bTerminator b)] -> v ∈ functionReads (fBlocks fn).
Proof.
  intros Hb Hv. apply list_elem_of_In, in_flat_map. exists b. split; [apply list_elem_of_In, Hb|].
  apply in_app_iff. right. apply list_elem_of_In, Hv.
Qed.

Lemma ren_type v : v ∈ functionReads (fBlocks fn) -> vType (ren v) = vType v.
Proof.
  intros Hv. unfold replaced. destruct (K !! vName v) as [e|] eqn:He; [|reflexivity].
  apply treParams_lookup in He as (p & Hp & E & ->); [|apply Hlo]. symmetry. exact (lo_types _ Hlo p v Hp Hv (eq_sym E)).
Qed.

Lemma linked_operand hidden a ρ ρ' v w :
  linked hidden a ρ ρ' -> Some (vName v) <> hidden -> v ∈ functionReads (fBlocks fn) ->
  operand (machine := base) ρ v = Some w -> operand (machine := base) ρ' (ren v) = Some w.
Proof.
  intros [H1 H0 H2 H3] Hh Hv. unfold operand. rewrite renamed_value. destruct (ρ !! vName v) as [x|] eqn:Hx.
  - intros [= ->]. rewrite (H1 _ _ Hh Hx). reflexivity.
  - intros Hl. assert (Hc : vName v ∉ computedNames fn) by (intros Hc; rewrite (lm_literals _ _ Hmachine) in Hl by auto; discriminate).
    destruct (renamed_cases (vName v)) as [(p & Hp & E & _)|[HK E]].
    { exfalso. apply Hc, elem_of_app. left. rewrite <- E. apply list_elem_of_fmap_2, Hp. }
    rewrite E. unfold replaced. rewrite HK. cbn [default id]. destruct (ρ' !! vName v) eqn:Hn; [|exact Hl].
    exfalso. destruct (H2 _ (ex_intro _ _ Hn)) as [|Hpre]; [contradiction|].
    rewrite (lo_reads _ Hlo v Hv) in Hpre. discriminate.
Qed.

Lemma linked_operands hidden a ρ ρ' l ws :
  linked hidden a ρ ρ' -> (forall v, v ∈ l -> Some (vName v) <> hidden /\ v ∈ functionReads (fBlocks fn)) ->
  mapM (operand (machine := base) ρ) l = Some ws -> mapM (operand (machine := base) ρ') (map ren l) = Some ws.
Proof.
  intros Hl. revert ws. induction l as [|v l IH]; intros ws Hv H; [exact H|]. cbn [map]. cbn [mapM] in *.
  destruct (operand ρ v) as [w|] eqn:Hw; [|discriminate]. cbn [mbind option_bind] in H.
  destruct (Hv v ltac:(left)) as [Hh Hr]. rewrite (linked_operand _ _ _ _ _ _ Hl Hh Hr Hw). cbn [mbind option_bind].
  destruct (mapM (operand ρ) l) as [ws'|]; [|discriminate]. rewrite (IH ws'); [exact H | | reflexivity].
  intros u Hu. apply Hv. right. exact Hu.
Qed.

(** A phi reads what it read, when the values at the two entries are linked. *)
Lemma linked_phi a from e e' i v :
  linked None a e e' -> i ∈ instrsOf (fBlocks fn) ->
  phiValue (machine := base) from e i = Some v -> phiValue (machine := base) from e' (mapReads ren i) = Some v.
Proof.
  intros Hl Hi. unfold phiValue. cbn [mapReads iIncoming].
  pose proof (fun inc => reads_of_phi i inc Hi) as Hr. induction (iIncoming i) as [|inc l IH]; [discriminate|].
  cbn [map List.find inBlock]. destruct (String.eqb (inBlock inc) from).
  - cbn [inValue]. apply (linked_operand _ _ _ _ _ _ Hl); [discriminate | apply Hr; left].
  - apply IH. intros x Hx. apply Hr. right. exact Hx.
Qed.

(** ** Instructions *)

(** What the induction on the depth gives: a call of the loop ends as the call
    of the function did. *)
Definition callsAgree (n : nat) : Prop := forall args m r,
  List.length args = List.length (fParams fn) -> toStep (runs base n fn args m) = r -> r <> Undefined ->
  eventually (fun k => toStep (runs base k fn' args m) = r).

Lemma selfCall_same i : isSelfCall fn' i = isSelfCall fn i.
Proof. unfold isSelfCall. rewrite Hname, Hparams. reflexivity. Qed.

(** A phi of the block being run reads the same in both. *)
Definition phisAgree (from : string) (e : env) (from' : string) (e' : env) (i : Instr) : Prop :=
  iOp i = "phi" -> forall v, phiValue (machine := base) from e i = Some v ->
  phiValue (machine := base) from' e' (mapReads ren i) = Some v.

Lemma mapM_length {A B} (f : A -> option B) l ys : mapM f l = Some ys -> List.length ys = List.length l.
Proof.
  revert ys. induction l as [|x l IH]; intros ys; cbn [mapM]; [intros [= <-]; reflexivity|].
  destruct (f x) as [y|]; [|discriminate]. cbn [mbind option_bind]. destruct (mapM f l) as [zs|]; [|discriminate].
  intros [= <-]. cbn [List.length]. f_equal. apply IH. reflexivity.
Qed.

(** A call leaves the operands to the machine below. *)
Lemma operands_self f run ρ l : mapM (operand (machine := selfMachine base f run) ρ) l = mapM (operand (machine := base) ρ) l.
Proof. reflexivity. Qed.

Lemma phiValue_self f run from e i : phiValue (machine := selfMachine base f run) from e i = phiValue (machine := base) from e i.
Proof. reflexivity. Qed.

Lemma instr_linked n a from e ρ from' e' ρ' m i :
  callsAgree n -> i ∈ instrsOf (fBlocks fn) -> linked None a ρ ρ' -> phisAgree from e from' e' i ->
  runInstr (machine := E n) from e ρ m i <> Undefined ->
  eventually (fun k => runInstr (machine := E' k) from' e' ρ' m (mapReads ren i) = runInstr (machine := E n) from e ρ m i).
Proof.
  intros Hcalls Hi Hl Hphi. unfold runInstr. change (iOp (mapReads ren i)) with (iOp i).
  destruct (String.eqb_spec (iOp i) "phi") as [Hop|Hop].
  - rewrite phiValue_self. destruct (phiValue from e i) as [v|] eqn:Hv; [|contradiction]. intros _. apply eventually_always. intros k.
    rewrite phiValue_self, (Hphi Hop v Hv). reflexivity.
  - rewrite operands_self. destruct (mapM (operand ρ) (readOperands i)) as [ws|] eqn:Hws; [|contradiction]. intros Hrun.
    assert (Hws' : mapM (operand (machine := base) ρ') (map ren (readOperands i)) = Some ws).
    { refine (linked_operands _ _ _ _ _ _ Hl _ Hws). intros v Hv. split; [discriminate | eapply reads_of_instr; eauto]. }
    assert (Hshape : shape (mapReads ren i) = shape i).
    { apply shape_mapReads. intros v Hv. apply ren_type. eapply reads_of_instr; eauto. }
    rewrite readOperands_mapReads, Hshape. unfold selfMachine in Hrun |- * at 3. cbn [operation] in *.
    destruct (isSelfCall fn (shape i)) eqn:Hself.
    + refine (eventually_mono _ _ _ (Hcalls _ _ _ _ eq_refl Hrun)).
      * intros k Hk. rewrite operands_self, Hws'. unfold selfMachine. cbn [operation]. rewrite selfCall_same, Hself. exact Hk.
      * unfold isSelfCall in Hself. rewrite !andb_true_iff, !Nat.eqb_eq in Hself. destruct Hself as [[[_ _] Hn] _].
        rewrite length_take, <- Hn. pose proof (mapM_length _ _ _ Hws) as Hlen. unfold readOperands in Hlen. rewrite length_app in Hlen.
        cbn [shape iArgs]. rewrite length_map. lia.
    + apply eventually_always. intros k. rewrite operands_self, Hws'. unfold selfMachine. cbn [operation]. rewrite selfCall_same, Hself. reflexivity.
Qed.

Lemma instrs_linked n a from e from' e' l ρ ρ' m :
  callsAgree n -> Forall (fun i => i ∈ instrsOf (fBlocks fn) /\ phisAgree from e from' e' i) l -> linked None a ρ ρ' ->
  match runInstrs (machine := E n) from e ρ m l with
  | inl (ρ1, m1) => exists ρ1', linked None a ρ1 ρ1' /\
      eventually (fun k => runInstrs (machine := E' k) from' e' ρ' m (map (mapReads ren) l) = inl (ρ1', m1))
  | inr o => o <> Stuck -> eventually (fun k => runInstrs (machine := E' k) from' e' ρ' m (map (mapReads ren) l) = inr o)
  end.
Proof.
  intros Hcalls Hall. revert ρ ρ' m. induction Hall as [|i l [Hi Hphi] _ IH]; intros ρ ρ' m Hl; cbn [runInstrs map].
  - exists ρ'. split; [exact Hl|]. apply eventually_always. reflexivity.
  - pose proof (instr_linked n a from e ρ from' e' ρ' m i Hcalls Hi Hl Hphi) as Hev.
    destruct (runInstr from e ρ m i) as [v m1|s|] eqn:Hrun.
    + specialize (Hev ltac:(discriminate)). specialize (IH _ _ m1 (linked_assign _ _ _ _ i v Hi Hl)).
      destruct (runInstrs from e (assign ρ i v) m1 l) as [[ρ2 m2]|o].
      * destruct IH as (ρ2' & Hl2 & IH). exists ρ2'. split; [exact Hl2|].
        refine (eventually_and _ _ _ _ Hev IH). intros k Hk Hk2. rewrite Hk. exact Hk2.
      * intros Ho. refine (eventually_and _ _ _ _ Hev (IH Ho)). intros k Hk Hk2. rewrite Hk. exact Hk2.
    + intros _. refine (eventually_mono _ _ _ (Hev ltac:(discriminate))). intros k Hk. rewrite Hk. reflexivity.
    + intros Ho. contradiction.
Qed.

(** ** What is available in the recursive run *)

Record stands (p s : nat) (ρ : env) : Prop := mkStands {
  sd_reach : reach (succs fn) 0 p;
  sd_facts : factsAt fn (fun x ρ => is_Some (ρ !! x)) p s ρ;
  sd_params : forall q, q ∈ fParams fn -> is_Some (ρ !! pName q)
}.

(** A stretch of a block. *)
Definition stretch (p s : nat) (l : list Instr) : Prop := forall k i, l !! k = Some i -> instrAt fn p (s + k) i.

Lemma stretch_cons p s i l : stretch p s (i :: l) -> instrAt fn p s i /\ stretch p (S s) l.
Proof.
  intros H. split; [rewrite <- (Nat.add_0_r s); apply H; reflexivity|]. intros k j Hk.
  rewrite Nat.add_succ_comm. apply H. exact Hk.
Qed.

Lemma stretch_app p b l1 l2 l3 : fBlocks fn !! p = Some b -> bInstrs b = l1 ++ l2 ++ l3 -> stretch p (List.length l1) l2.
Proof.
  intros Hb Hsplit k i Hk. exists b. split; [exact Hb|]. rewrite Hsplit, lookup_app_r by lia.
  rewrite Nat.add_comm, Nat.add_sub. apply lookup_app_l_Some, Hk.
Qed.

Lemma stands_step p s i v ρ : instrAt fn p s i -> stands p s ρ -> stands p (S s) (assign ρ i v).
Proof.
  intros Hi [Hr Hf Hp]. split; [exact Hr | |].
  - apply (facts_step module params fn Hsound (fun x ρ => is_Some (ρ !! x)) (fun _ => [])); auto.
    + intros x ρ1 ρ2 -> _ H. exact H.
    + intros x d y _ _ H. inversion H.
    + intros Hne. unfold assign, resultName in *. rewrite (proj2 (String.eqb_neq _ _) Hne), lookup_insert_eq. eauto.
  - intros q Hq. unfold assign. destruct (String.eqb _ ""); [auto|].
    rewrite lookup_insert_ne; [auto|]. apply (lo_undefined _ Hlo q i Hq). eapply instrAt_in, Hi.
Qed.

Lemma stands_jump p q ρ : q ∈ succs fn p -> stands p (stepsOf fn p) ρ -> stands q 0 ρ.
Proof. intros Hq [Hr Hf Hp]. split; [eapply reach_step; eauto | eapply facts_jump; eauto | exact Hp]. Qed.

Lemma stands_run (machine : Machine V M X) p from e l : forall s ρ m ρ1 m1,
  stretch p s l -> stands p s ρ -> runInstrs (machine := machine) from e ρ m l = inl (ρ1, m1) -> stands p (s + List.length l) ρ1.
Proof.
  induction l as [|i l IH]; intros s ρ m ρ1 m1 Hl Hs; cbn [runInstrs List.length].
  - intros [= <- <-]. rewrite Nat.add_0_r. exact Hs.
  - apply stretch_cons in Hl as [Hi Hl]. destruct (runInstr from e ρ m i) as [v m'|x|]; try discriminate. intros H.
    rewrite <- Nat.add_succ_comm. eapply IH; [exact Hl | apply stands_step; eassumption | exact H].
Qed.

Lemma available_operand p s ρ v :
  stands p s ρ -> settledAt fn p s (vName v) -> vName v ∈ computedNames fn \/ is_Some (literal (Machine := base) v) ->
  is_Some (operand (machine := base) ρ v).
Proof.
  intros [Hr Hf Hp] Hs Hv. unfold operand. destruct (ρ !! vName v) eqn:Hx; [eauto|]. destruct Hv as [Hv|Hv]; [|exact Hv].
  exfalso. apply elem_of_app in Hv as [(q & E & Hq)%list_elem_of_fmap|[Hne (i & E & Hi)%list_elem_of_fmap]%list_elem_of_filter].
  - destruct (Hp q Hq) as [w Hw]. congruence.
  - apply list_elem_of_In, in_flat_map in Hi as (b & Hb & Hi).
    apply list_elem_of_In, list_elem_of_lookup_1 in Hb as [q Hb]. apply list_elem_of_In, list_elem_of_lookup_1 in Hi as [t Hi].
    assert (Hd : valueDefiningBlocks fn !! vName v = Some (mkDefinition q t)).
    { rewrite E. eapply defs_at; [exact Hsound | exists b; auto | congruence]. }
    destruct (Hf (vName v)) as [w Hw]; [|congruence]. eexists. split; [exact Hd | apply Hs, Hd].
Qed.

Lemma available_operands p s ρ l :
  stands p s ρ -> (forall v, v ∈ l -> settledAt fn p s (vName v) /\ (vName v ∈ computedNames fn \/ is_Some (literal (Machine := base) v))) ->
  exists ws, mapM (operand (machine := base) ρ) l = Some ws.
Proof.
  intros Hs. induction l as [|v l IH]; intros Hv; [eexists; reflexivity|]. cbn [mapM].
  destruct (Hv v ltac:(left)) as [H1 H2]. destruct (available_operand _ _ _ _ Hs H1 H2) as [w ->].
  destruct IH as [ws ->]; [intros u Hu; apply Hv; right; exact Hu|]. eexists. reflexivity.
Qed.

(** What is read at a point is not computed from there on in its block. *)
Lemma settled_later p s s' i x : settledAt fn p s x -> instrAt fn p s' i -> s <= s' -> resultName i <> "" -> resultName i <> x.
Proof.
  intros Hs Hi Hle Hne <-. destruct (Hs _ (defs_at _ _ _ Hsound _ _ _ Hi Hne)) as [[_ H]|[H _]]; cbn in H; [lia | congruence].
Qed.

(** ** What stands between a call and its return *)

Lemma pure_not_call i : isPureOp (iOp i) = true -> isSelfCall fn i = false.
Proof.
  intros Hp. unfold isSelfCall. destruct (String.eqb_spec (iOp i) ("call." +:+ fName fn)) as [E|]; [|reflexivity].
  rewrite E in Hp. discriminate Hp.
Qed.

Lemma assign_other ρ i v x : (resultName i <> "" -> resultName i <> x) -> assign (V := V) ρ i v !! x = ρ !! x.
Proof.
  intros H. unfold assign, resultName in *. destruct (String.eqb_spec (vName (iResult i)) ""); [reflexivity|].
  apply lookup_insert_ne. auto.
Qed.

(** It computes the same values with the call's result and without it. *)
Lemma steady_runs c a p l : forall s ρ ρ',
  stretch p s l -> stands p s ρ -> linked (Some c) a ρ ρ' ->
  Forall (fun i => i ∈ instrsOf (fBlocks fn) /\ isPureOp (iOp i) = true /\ steady (machine := base) i /\
    (forall v, v ∈ readOperands i -> vName v <> c /\ (vName v ∈ computedNames fn \/ is_Some (literal (Machine := base) v)))) l ->
  exists ρ1 ρ1', stands p (s + List.length l) ρ1 /\ linked (Some c) a ρ1 ρ1' /\
    (forall x, (forall i, i ∈ l -> resultName i <> "" -> resultName i <> x) -> ρ1 !! x = ρ !! x /\ ρ1' !! x = ρ' !! x) /\
    forall n k from e from' e' m, runInstrs (machine := E n) from e ρ m l = inl (ρ1, m) /\
      runInstrs (machine := E' k) from' e' ρ' m (map (mapReads ren) l) = inl (ρ1', m).
Proof.
  induction l as [|i l IH]; intros s ρ ρ' Hl Hs Hlk Hall.
  - exists ρ, ρ'. cbn [List.length]. rewrite Nat.add_0_r. split; [exact Hs|]. split; [exact Hlk|].
    split; [auto|]. intros. split; reflexivity.
  - apply stretch_cons in Hl as [Hi Hl]. apply Forall_cons in Hall as [(Hin & Hpure & [Hphi Hst] & Hv) Hall].
    destruct Hi as (b & Hb & Hbi). pose proof (wf_uses _ _ _ (sound_wf _ _ _ Hsound) p b s i) as Huse.
    destruct (available_operands p s ρ (readOperands i) Hs) as [ws Hws].
    { intros v Hr. split; [exact (Huse v Hb Hbi Hphi Hr) | apply Hv, Hr]. }
    destruct (Hst ws (mapM_length _ _ _ Hws)) as [w Hw].
    assert (Hws' : mapM (operand (machine := base) ρ') (map ren (readOperands i)) = Some ws).
    { refine (linked_operands _ _ _ _ _ _ Hlk _ Hws). intros v Hr. destruct (Hv v Hr) as [Hc _].
      split; [congruence | eapply reads_of_instr; eauto]. }
    assert (Hshape : shape (mapReads ren i) = shape i).
    { apply shape_mapReads. intros v Hr. apply ren_type. eapply reads_of_instr; eauto. }
    destruct (IH (S s) (assign ρ i w) (assign ρ' i w) Hl) as (ρ1 & ρ1' & H1 & H2 & H3 & H4);
      [apply stands_step; [exists b; auto | exact Hs] | apply linked_assign; assumption | exact Hall |].
    exists ρ1, ρ1'. cbn [List.length]. rewrite <- Nat.add_succ_comm. split; [exact H1|]. split; [exact H2|]. split.
    + intros x Hx. destruct (H3 x) as [-> ->]; [intros j Hj; apply Hx; right; exact Hj|].
      rewrite !assign_other by (apply Hx; left). auto.
    + intros n k from e from' e' m. destruct (H4 n k from e from' e' m) as [G1 G2]. cbn [runInstrs map]. unfold runInstr.
      change (iOp (mapReads ren i)) with (iOp i). rewrite (proj2 (String.eqb_neq _ _) Hphi).
      rewrite readOperands_mapReads, Hshape, !operands_self, Hws, Hws'. unfold selfMachine at 1 3. cbn [operation].
      rewrite selfCall_same, (pure_not_call (shape i)) by exact Hpure. rewrite Hw.
      change (assign ρ' (mapReads ren i) w) with (assign ρ' i w). auto.
Qed.
End Linked.
