(* ===== verification/TailCallLoop.v ===== *)
(** * The loop ends as the recursion does

    By induction on the depth the recursive run is granted, and inside it on the
    blocks it runs: a block of the loop is linked to the block it came from, and
    a jump back to the header stands for the call, with the accumulator holding
    what the callers still have to combine. *)

From stdpp Require Import base list strings gmap.
From Stdlib Require Import ZArith Lia String.
From S2P Require Import Prelude GoStd IR Cfg CfgFacts Verify VerifyFacts Semantics Optimize Dce Ssa Simplify Available Forward.
From S2P Require Import TailCall TailCallFacts.

#[local] Open Scope string_scope.
#[local] Open Scope list_scope.

(** The rest of a block, and what it jumps to. *)
Definition bodyRun {V M X} {machine : Machine V M X} (fuel : nat) (fn : Function) (name from : string)
    (e ρ : gmap string V) (m : M) (body : list Instr) (term : Terminator) : outcome V M X :=
  match runInstrs from e ρ m body with
  | inr o => o
  | inl (ρ, m) =>
      match runTerminator ρ m term with
      | inr o => o
      | inl target =>
          match blockIndex fn !! target with
          | Some next => runBlocks fuel fn name next ρ m
          | None => Stuck
          end
      end
  end.

Lemma runBlocks_body {V M X} (machine : Machine V M X) fuel fn from cur ρ m b :
  fBlocks fn !! cur = Some b ->
  runBlocks (machine := machine) (S fuel) fn from cur ρ m = bodyRun (machine := machine) fuel fn (bName b) from ρ ρ m (bInstrs b) (bTerminator b).
Proof. intros Hb. cbn [runBlocks]. rewrite Hb. reflexivity. Qed.

Section Loop.
Context {V M X : Type} (base : Machine V M X) {types : ResultTypes V} {adds : AccumulatorMachine base}.
Context (module : Module_) (params : gmap string (list Param)) (fn fn' : Function).
Context (sites : list (nat * tailSite)) (op : string) (phis : list Instr) (acc : option Instr) (start : Block).
Context (Hsound : sound module params fn) (Hlo : loopable fn) (Hmachine : loopMachine base fn).
Context (Hsites : tailSites fn 0 (fBlocks fn) "" = Some (sites, op)).
Context (Hshape : loopShape fn sites op fn' phis acc start).
Context (Hint : op = "" \/ isWrappingInteger (fReturn fn) = true).

Abbreviation env := (gmap string V).
Abbreviation K := (treParams (fParams fn)).
Abbreviation ren := (replaced K).
Abbreviation E n := (selfMachine base fn (runs base n fn)).
Abbreviation E' k := (selfMachine base fn' (runs base k fn')).
Abbreviation linked := (linked fn).
Abbreviation stands := (stands fn).
Abbreviation outcome := (outcome V M X).

(** ** The accumulator *)

(** There is an accumulator exactly when the sites share an operation. *)
Definition accFits (a : option V) : Prop := op = "" <-> a = None.

Definition accumulated (a : option V) (o : outcome) : outcome :=
  match a, o with
  | Some x, Returned (Some v) m => Returned (Some (accumulate op (fReturn fn) x v)) m
  | _, _ => o
  end.

(** The ends the loop is compared on. *)
Definition good (o : outcome) : Prop :=
  match o with
  | Returned (Some _) _ | Stopped _ => True
  | Returned None _ => op = ""
  | _ => False
  end.

Lemma good_not_stuck o : good o -> o <> Stuck.
Proof. destruct o; auto; contradiction || discriminate. Qed.

Lemma op_accumulates : op = "" \/ is_Some (accumulatorOps op).
Proof.
  destruct (tailSites_spec _ _ _ _ _ _ Hsites) as (_ & Hin & _ & [->|[_ (p & site & Hp & <-)]]); [auto|].
  apply Hin in Hp as (b & _ & _ & Hs). apply tailSiteOf_spec in Hs as (before & call & after & H).
  destruct (sa_end _ _ _ _ _ _ H); [auto | right; eauto].
Qed.

Lemma accumulates : op <> "" -> is_Some (accumulatorOps op) /\ isWrappingInteger (fReturn fn) = true.
Proof. intros Hne. destruct op_accumulates, Hint; auto; contradiction. Qed.

Lemma wrapping_not_void : op <> "" -> fReturn fn <> "void" /\ fReturn fn <> "".
Proof. intros [_ H]%accumulates. split; intros E; rewrite E in H; discriminate H. Qed.

(** ** Positions *)

Lemma index_loop target next : blockIndex fn !! target = Some next -> blockIndex fn' !! target = Some (S next).
Proof.
  intros (b & Hb & <-)%blockIndex_Some.
  assert (Hn : map bName (fBlocks fn') !! S next = Some (bName b)).
  { rewrite (sh_names _ _ _ _ _ _ _ Hshape). change (map bName (fBlocks fn) !! next = Some (bName b)).
    rewrite list_lookup_fmap, Hb. reflexivity. }
  assert (Hnd : NoDup (map bName (fBlocks fn'))).
  { rewrite (sh_names _ _ _ _ _ _ _ Hshape). constructor; apply Hlo. }
  destruct (proj2 (blockIndex_is_Some fn' (bName b))) as [j Hj].
  - rewrite list_lookup_fmap in Hn. destruct (fBlocks fn' !! S next) as [c|] eqn:Hc; [|discriminate]. injection Hn as E.
    exists c. split; [eapply list_elem_of_lookup_2, Hc | exact E].
  - rewrite Hj. f_equal. apply blockIndex_Some in Hj as (c & Hc & E).
    eapply NoDup_lookup; [exact Hnd | | exact Hn]. rewrite list_lookup_fmap, Hc. cbn. congruence.
Qed.

Lemma start_index : blockIndex fn' !! bName start = Some 1.
Proof.
  apply index_loop. pose proof (sh_start _ _ _ _ _ _ _ Hshape) as H0.
  destruct (proj2 (blockIndex_is_Some fn (bName start))) as [j Hj]; [exists start; split; [eapply list_elem_of_lookup_2, H0 | reflexivity]|].
  rewrite Hj. apply blockIndex_Some in Hj as (c & Hc & En). f_equal.
  apply (NoDup_lookup (map bName (fBlocks fn)) j 0 (bName start)); [apply Hlo | |]; rewrite list_lookup_fmap; [rewrite Hc | rewrite H0]; cbn; congruence.
Qed.

(** ** What the two runs share when a block's body starts *)

Record entered (p : nat) (b : Block) (a : option V) (from : string) (e ρ : env) (from' : string) (e' ρ' : env) : Prop := mkEntered {
  en_block : fBlocks fn !! p = Some b;
  en_stands : stands p 0 ρ;
  en_linked : linked None a ρ ρ';
  en_acc : accFits a;
  en_phis : Forall (phisAgree base fn from e from' e') (bInstrs b)
}.

Definition blocksLinked (n f : nat) : Prop := forall p from ρ ρ' m a,
  p <> 0 -> stands p 0 ρ -> linked None a ρ ρ' -> accFits a ->
  good (runBlocks (machine := E n) f fn from p ρ m) ->
  eventually2 (fun k g => runBlocks (machine := E' k) g fn' from (S p) ρ' m = accumulated a (runBlocks (machine := E n) f fn from p ρ m)).

Lemma block_instrs p b i : fBlocks fn !! p = Some b -> i ∈ bInstrs b -> i ∈ instrsOf (fBlocks fn).
Proof.
  intros Hb Hi. apply list_elem_of_In, in_flat_map. exists b. split; apply list_elem_of_In; [eapply list_elem_of_lookup_2, Hb | exact Hi].
Qed.

Lemma entered_instrs p b a from e ρ from' e' ρ' l rest :
  entered p b a from e ρ from' e' ρ' -> bInstrs b = l ++ rest ->
  Forall (fun i => i ∈ instrsOf (fBlocks fn) /\ phisAgree base fn from e from' e' i) l.
Proof.
  intros H Hl. apply Forall_forall. intros i Hi. assert (Hib : i ∈ bInstrs b) by (rewrite Hl; apply elem_of_app; auto).
  split; [eapply block_instrs; [apply H | exact Hib] | exact (proj1 (Forall_forall _ _) (en_phis _ _ _ _ _ _ _ _ _ H) i Hib)].
Qed.

Lemma stepsOf_block p b : fBlocks fn !! p = Some b -> stepsOf fn p = List.length (bInstrs b).
Proof. unfold stepsOf. intros ->. reflexivity. Qed.

(** The instructions of a whole block. *)
Lemma entered_run n p b a from e ρ from' e' ρ' m ρ1 m1 :
  entered p b a from e ρ from' e' ρ' -> runInstrs (machine := E n) from e ρ m (bInstrs b) = inl (ρ1, m1) ->
  stands p (stepsOf fn p) ρ1.
Proof.
  intros H Hrun. rewrite (stepsOf_block p b) by apply H.
  change (stands p (0 + List.length (bInstrs b)) ρ1). eapply (stands_run module params fn Hsound Hlo (E n)); [| apply H | exact Hrun].
  eapply (stretch_app fn p b [] (bInstrs b) []); [apply H | rewrite app_nil_r; reflexivity].
Qed.

Lemma linked_terminator n k a p b ρ ρ' m :
  fBlocks fn !! p = Some b -> linked None a ρ ρ' ->
  runTerminator (machine := E n) ρ m (bTerminator b) <> inr Stuck ->
  runTerminator (machine := E' k) ρ' m (mapTerminator ren (bTerminator b)) = runTerminator (machine := E n) ρ m (bTerminator b).
Proof.
  intros Hb Hl. pose proof (fun v => reads_of_terminator fn b v (list_elem_of_lookup_2 _ _ _ Hb)) as Hr.
  assert (Hop : forall v, v ∈ [tValue (bTerminator b); tCond (bTerminator b)] -> operand (machine := base) ρ v <> None ->
    operand (machine := base) ρ' (ren v) = operand (machine := base) ρ v).
  { intros v Hv Hne. destruct (operand ρ v) as [w|] eqn:Hw; [|contradiction].
    eapply (linked_operand base fn Hlo Hmachine); eauto; discriminate. }
  unfold runTerminator. change (operand (machine := E n)) with (operand (machine := base)).
  change (operand (machine := E' k)) with (operand (machine := base)). cbn [mapTerminator tOp tTarget tElse tCond tValue].
  rewrite (ren_type fn Hlo) by (apply Hr; left).
  destruct (String.eqb (tOp (bTerminator b)) "jump"); [reflexivity|].
  destruct (String.eqb (tOp (bTerminator b)) "branch").
  - pose proof (Hop (tCond (bTerminator b)) ltac:(right; left)) as Hc.
    destruct (operand ρ (tCond (bTerminator b))); [rewrite Hc by discriminate; reflexivity | contradiction].
  - destruct (String.eqb (tOp (bTerminator b)) "return"); [|reflexivity]. destruct (_ || _); [reflexivity|].
    pose proof (Hop (tValue (bTerminator b)) ltac:(left)) as Hc.
    destruct (operand ρ (tValue (bTerminator b))); [rewrite Hc by discriminate; reflexivity | contradiction].
Qed.

(** A block that stays as it is. *)
Lemma other_body n f p b a from e ρ from' e' ρ' m :
  callsAgree base fn fn' n -> blocksLinked n f -> entered p b a from e ρ from' e' ρ' ->
  op = "" \/ tOp (bTerminator b) <> "return" ->
  let o := bodyRun (machine := E n) f fn (bName b) from e ρ m (bInstrs b) (bTerminator b) in
  good o ->
  eventually2 (fun k g => bodyRun (machine := E' k) g fn' (bName b) from' e' ρ' m (map (mapReads ren) (bInstrs b))
    (mapTerminator ren (bTerminator b)) = accumulated a o).
Proof.
  intros Hcalls Hblocks Hen Hret o Hgood. unfold bodyRun in o.
  pose proof (instrs_linked base fn fn' Hlo Hmachine (sh_name _ _ _ _ _ _ _ Hshape) (sh_params _ _ _ _ _ _ _ Hshape) n a from e from' e'
    (bInstrs b) ρ ρ' m Hcalls (entered_instrs _ _ _ _ _ _ _ _ _ _ [] Hen (eq_sym (app_nil_r _))) (en_linked _ _ _ _ _ _ _ _ _ Hen)) as Hsim.
  destruct (runInstrs from e ρ m (bInstrs b)) as [[ρ1 m1]|o1] eqn:Hrun; subst o.
  2: { destruct (runInstrs_end _ _ _ _ _ _ Hrun) as [->|[s ->]]; [contradiction|].
       refine (eventually2_left _ _ _ (Hsim ltac:(discriminate))). intros k g Hk. unfold bodyRun. rewrite Hk. destruct a; reflexivity. }
  destruct Hsim as (ρ1' & Hl1 & Hsim). pose proof (entered_run n _ _ _ _ _ _ _ _ _ _ _ _ Hen Hrun) as Hst.
  pose proof (en_block _ _ _ _ _ _ _ _ _ Hen) as Hb.
  assert (Hterm : forall k, runTerminator (machine := E' k) ρ1' m1 (mapTerminator ren (bTerminator b)) = runTerminator (machine := E n) ρ1 m1 (bTerminator b)).
  { intros k. eapply linked_terminator; [exact Hb | exact Hl1|]. intros Es. rewrite Es in Hgood. contradiction. }
  destruct (runTerminator ρ1 m1 (bTerminator b)) as [target|o1] eqn:Ht.
  - destruct (blockIndex fn !! target) as [next|] eqn:Hn; [|contradiction].
    pose proof (target_succ (machine := E n) module params fn Hsound p b ρ1 m1 target next Hb Ht Hn) as Hsucc.
    assert (Hnext : next <> 0) by (intros ->; exact (lo_start _ Hlo p Hsucc)).
    refine (eventually2_and _ _ _ _ Hsim (Hblocks next (bName b) ρ1 ρ1' m1 a Hnext (stands_jump _ _ _ _ Hsucc Hst) Hl1 (en_acc _ _ _ _ _ _ _ _ _ Hen) Hgood)).
    intros k g Hk Hg. unfold bodyRun. rewrite Hk, Hterm, (index_loop _ _ Hn). exact Hg.
  - refine (eventually2_left _ _ _ Hsim). intros k g Hk. unfold bodyRun. rewrite Hk, Hterm.
    destruct a as [x|]; [|reflexivity]. exfalso.
    assert (Hne : op <> "") by (intros E0; apply (en_acc _ _ _ _ _ _ _ _ _ Hen) in E0; discriminate).
    destruct Hret as [|Hret]; [contradiction|]. revert Ht. unfold runTerminator. rewrite (proj2 (String.eqb_neq _ _) Hret).
    destruct (String.eqb _ "jump"); [discriminate|]. destruct (String.eqb _ "branch").
    + destruct (operand ρ1 _ ≫= truth) as [[]|]; try discriminate. intros [= <-]. contradiction.
    + destruct (String.eqb _ "unreachable"); intros [= <-]; contradiction.
Qed.

(** ** The accumulator's operation *)

Lemma operand_assigned ρ i (v : V) w :
  resultName i <> "" -> vName w = resultName i -> operand (machine := base) (assign ρ i v) w = Some v.
Proof.
  intros Hne E0. unfold operand, assign, resultName in *. rewrite (proj2 (String.eqb_neq _ _) Hne), E0, lookup_insert_eq. reflexivity.
Qed.

Lemma not_call o x : is_Some (accumulatorOps o) -> o <> "call." +:+ x.
Proof. intros H E0. rewrite E0 in H. destruct H as [t H]. discriminate H. Qed.

(** An instruction that combines two values of the function's type, in either
    machine. *)
Lemma combine_runs f run from e ρ m i lhs rhs x y :
  is_Some (accumulatorOps (iOp i)) -> isWrappingInteger (fReturn fn) = true ->
  readOperands i = [lhs; rhs] -> iArgs i = [lhs; rhs] -> vType lhs = fReturn fn -> vType rhs = fReturn fn -> vType (iResult i) = fReturn fn ->
  operand (machine := base) ρ lhs = Some x -> operand (machine := base) ρ rhs = Some y ->
  runInstr (machine := selfMachine base f run) from e ρ m i = Next (accumulate (iOp i) (fReturn fn) x y) m.
Proof.
  intros Hop Hint' Hreads Hargs Hl Hr Ht Hx Hy. unfold runInstr.
  destruct (String.eqb_spec (iOp i) "phi") as [E0|_]; [rewrite E0 in Hop; destruct Hop; discriminate|].
  rewrite operands_self, Hreads. cbn [mapM]. rewrite Hx. cbn [mbind option_bind]. rewrite Hy. cbn [mbind option_bind].
  unfold selfMachine. cbn [operation]. unfold isSelfCall. cbn [shape iOp].
  rewrite (proj2 (String.eqb_neq _ _) (not_call _ (fName f) Hop)). cbn [andb]. rewrite <- Ht.
  apply (accumulate_runs (shape i)); cbn [shape iOp iResult iArgs unnamed vType]; [exact Hop | rewrite Ht; exact Hint'|].
  rewrite Hargs. cbn [map unnamed vType]. rewrite Hl, Hr, Ht. reflexivity.
Qed.

(** The operand the accumulator's phi is. *)
Lemma operand_acc a ρ ρ' x : linked None a ρ ρ' -> a = Some x -> operand (machine := base) ρ' (accValue fn) = Some x.
Proof. intros Hl ->. unfold operand. cbn. rewrite (lk_acc _ _ _ _ _ Hl x eq_refl). reflexivity. Qed.

(** A block whose return takes the accumulator in. *)
Lemma return_body n f p b a from e ρ from' e' ρ' m x :
  callsAgree base fn fn' n -> entered p b a from e ρ from' e' ρ' ->
  op <> "" -> tOp (bTerminator b) = "return" -> x = mkValue ("%tre.acc.ret" +:+ FormatInt (Z.of_nat p)) (fReturn fn) ->
  let o := bodyRun (machine := E n) f fn (bName b) from e ρ m (bInstrs b) (bTerminator b) in
  good o ->
  eventually2 (fun k g => bodyRun (machine := E' k) g fn' (bName b) from' e' ρ' m
    (map (mapReads ren) (bInstrs b) ++ [instr x op [accValue fn; ren (tValue (bTerminator b))] ""])
    (mkTerminator "return" x (ren (tCond (bTerminator b))) (tTarget (bTerminator b)) (tElse (bTerminator b))) = accumulated a o).
Proof.
  intros Hcalls Hen Hop Hret -> o Hgood. unfold bodyRun in o.
  pose proof (instrs_linked base fn fn' Hlo Hmachine (sh_name _ _ _ _ _ _ _ Hshape) (sh_params _ _ _ _ _ _ _ Hshape) n a from e from' e'
    (bInstrs b) ρ ρ' m Hcalls (entered_instrs _ _ _ _ _ _ _ _ _ _ [] Hen (eq_sym (app_nil_r _))) (en_linked _ _ _ _ _ _ _ _ _ Hen)) as Hsim.
  destruct a as [y|]; [|exfalso; apply Hop, (en_acc _ _ _ _ _ _ _ _ _ Hen); reflexivity].
  destruct (runInstrs from e ρ m (bInstrs b)) as [[ρ1 m1]|o1] eqn:Hrun; subst o.
  2: { destruct (runInstrs_end _ _ _ _ _ _ Hrun) as [->|[s ->]]; [contradiction|].
       refine (eventually2_left _ _ _ (Hsim ltac:(discriminate))). intros k g Hk. unfold bodyRun. rewrite runInstrs_app, Hk. reflexivity. }
  destruct Hsim as (ρ1' & Hl1 & Hsim). pose proof (list_elem_of_lookup_2 _ _ _ (en_block _ _ _ _ _ _ _ _ _ Hen)) as Hb.
  destruct (wrapping_not_void Hop) as [Hv1 Hv2]. destruct (accumulates Hop) as [Hacc Hi].
  destruct (lo_returned _ Hlo b Hb Hret Hv1) as (Hne & Hty & _).
  unfold runTerminator in *. rewrite Hret, Hty, (proj2 (String.eqb_neq _ _) Hv1), (proj2 (String.eqb_neq _ _) Hv2) in *.
  cbn [String.eqb Ascii.eqb Bool.eqb orb] in *. change (operand (machine := E n)) with (operand (machine := base)) in *.
  destruct (operand ρ1 (tValue (bTerminator b))) as [v|] eqn:Hv; [|contradiction].
  assert (Hread : tValue (bTerminator b) ∈ functionReads (fBlocks fn)) by (eapply reads_of_terminator; [exact Hb | left]).
  refine (eventually2_left _ _ _ Hsim). intros k g Hk. unfold bodyRun. rewrite runInstrs_app, Hk. cbn [runInstrs].
  rewrite (combine_runs _ _ from' e' ρ1' m1 (instr _ op _ "") (accValue fn) (ren (tValue (bTerminator b))) y v); try reflexivity; auto.
  - cbn [instr iResult vName vType]. unfold runTerminator. cbn [tOp tValue vType]. 
    rewrite (proj2 (String.eqb_neq _ _) Hv1), (proj2 (String.eqb_neq _ _) Hv2). cbn [String.eqb Ascii.eqb Bool.eqb orb].
    change (operand (machine := E' k)) with (operand (machine := base)). rewrite operand_assigned by (reflexivity || discriminate). reflexivity.
  - rewrite (ren_type fn Hlo) by exact Hread. exact Hty.
  - eapply operand_acc; [exact Hl1 | reflexivity].
  - eapply (linked_operand base fn Hlo Hmachine); [exact Hl1 | discriminate | exact Hread | exact Hv].
Qed.

(** ** The header *)

(** What the header's phis read on an edge: the arguments, and the accumulator. *)
Definition headerReady (from' : string) (ρ' : env) (args : list V) (a : option V) : Prop :=
  (forall j ph v, phis !! j = Some ph -> args !! j = Some v -> phiValue (machine := base) from' ρ' ph = Some v) /\
  (forall ac x, acc = Some ac -> a = Some x -> phiValue (machine := base) from' ρ' ac = Some x).

Lemma phi_found from (ρ : env) i v :
  (exists inc, inc ∈ iIncoming i /\ inBlock inc = from) ->
  (forall inc, inc ∈ iIncoming i -> inBlock inc = from -> operand (machine := base) ρ (inValue inc) = Some v) ->
  phiValue (machine := base) from ρ i = Some v.
Proof.
  intros (inc0 & Hin0 & Hn0) H. unfold phiValue. destruct (List.find _ (iIncoming i)) as [inc|] eqn:Hf.
  - apply List.find_some in Hf as [Hin Hn]. apply String.eqb_eq in Hn. apply H; [apply list_elem_of_In, Hin | exact Hn].
  - pose proof (List.find_none _ _ Hf inc0 (proj1 (list_elem_of_In _ _) Hin0)) as Hx. cbn in Hx.
    rewrite Hn0, String.eqb_refl in Hx. discriminate.
Qed.

(** The site a name is the block of. *)
Lemma named_site p b q c : fBlocks fn !! p = Some b -> map (replaceBlock K) (fBlocks fn) !! q = Some c -> bName c = bName b ->
  q = p /\ c = replaceBlock K b.
Proof.
  intros Hb Hc Hn. rewrite list_lookup_fmap in Hc. destruct (fBlocks fn !! q) as [d|] eqn:Hd; [|discriminate].
  injection Hc as <-. cbn [replaceBlock bName] in Hn. assert (q = p) as ->.
  { apply (NoDup_lookup (map bName (fBlocks fn)) q p (bName b)); [apply Hlo | |]; rewrite list_lookup_fmap; [rewrite Hd | rewrite Hb]; cbn; congruence. }
  split; congruence.
Qed.

Lemma entry_not_block p b : fBlocks fn !! p = Some b -> treEntry <> bName b.
Proof.
  intros Hb E0. apply (lo_entry _ Hlo). rewrite E0. apply list_elem_of_fmap_2. eapply list_elem_of_lookup_2, Hb.
Qed.

Lemma header_param j ph : phis !! j = Some ph -> exists q, fParams fn !! j = Some q /\
  gains (paramPhi q) ph (feeds (map (replaceBlock K) (fBlocks fn)) sites j).
Proof.
  intros Hj. destruct (fParams fn !! j) as [q|] eqn:Hq.
  - exists q. split; [reflexivity|]. destruct (sh_phi _ _ _ _ _ _ _ Hshape j q Hq) as (ph' & Hph & Hg). congruence.
  - apply lookup_ge_None in Hq. rewrite <- (sh_length _ _ _ _ _ _ _ Hshape) in Hq. apply lookup_lt_Some in Hj. lia.
Qed.

Lemma header_acc ac : acc = Some ac -> op <> "" /\
  gains (accPhi fn (default "" (accumulatorOps op))) ac
    (accFeeds (map (replaceBlock K) (fBlocks fn)) (accPhi fn (default "" (accumulatorOps op))) 0 sites).
Proof.
  intros ->. pose proof (sh_acc _ _ _ _ _ _ _ Hshape) as H. unfold accGains, firstAcc in H.
  destruct (String.eqb_spec op ""); [contradiction | auto].
Qed.

(** A site makes the header ready for the call's arguments. *)
Lemma site_ready p b k site before call after (ρ' : env) vs a :
  fBlocks fn !! p = Some b -> sites !! k = Some (p, site) -> siteAt fn b site before call after ->
  (forall j arg v, iArgs call !! j = Some arg -> vs !! j = Some v -> operand (machine := base) ρ' (ren arg) = Some v) ->
  List.length vs = List.length (fParams fn) ->
  (forall x, a = Some x -> operand (machine := base) ρ' (siteNext (accPhi fn (default "" (accumulatorOps op))) k site) = Some x) ->
  headerReady (bName b) ρ' vs a.
Proof.
  intros Hb Hk Hsite Hargs Hlen Hacc. pose proof (entry_not_block p b Hb) as Hentry. split.
  - intros j ph v Hj Hv. destruct (header_param j ph Hj) as (q & Hq & _ & _ & Hinc).
    destruct (lookup_lt_is_Some_2 (iArgs call) j) as [arg Harg].
    { rewrite (sa_args _ _ _ _ _ _ Hsite), <- Hlen. eapply lookup_lt_Some, Hv. }
    assert (Hcall : bInstrs (replaceBlock K b) !! siteCall site = Some (mapReads ren call)).
    { cbn [replaceBlock bInstrs]. rewrite (sa_split _ _ _ _ _ _ Hsite), (sa_position _ _ _ _ _ _ Hsite), map_app.
      rewrite lookup_app_r by (rewrite length_map; lia). rewrite length_map, Nat.sub_diag. reflexivity. }
    apply phi_found.
    + exists (mkIncoming (bName b) (ren arg)). split; [|reflexivity]. apply Hinc. right. exists p, site, (replaceBlock K b), (mapReads ren call), (ren arg).
      split; [eapply list_elem_of_lookup_2, Hk|]. split; [rewrite list_lookup_fmap, Hb; reflexivity|]. split; [exact Hcall|].
      split; [|reflexivity]. cbn [mapReads iArgs]. rewrite list_lookup_fmap, Harg. reflexivity.
    + intros inc Hin Hn. apply Hinc in Hin as [Hin|(p' & site' & c & call' & arg' & Hps & Hc & Hcall' & Harg' & ->)].
      * apply list_elem_of_singleton in Hin as ->. contradiction.
      * cbn [inBlock inValue] in *. destruct (named_site p b p' c Hb Hc Hn) as [-> ->].
        assert (site' = site) as ->.
        { apply (site_elem fn sites op Hsites) in Hps as (b' & Hb' & Hs').
          apply list_elem_of_lookup_2, (site_elem fn sites op Hsites) in Hk as (b'' & Hb'' & Hs''). congruence. }
        rewrite Hcall in Hcall'. injection Hcall' as <-. cbn [mapReads iArgs] in Harg'. rewrite list_lookup_fmap, Harg in Harg'.
        injection Harg' as <-. eapply Hargs; eassumption.
  - intros ac x Hac Ha. destruct (header_acc ac Hac) as (_ & _ & _ & Hinc). apply phi_found.
    + exists (mkIncoming (bName b) (siteNext (accPhi fn (default "" (accumulatorOps op))) k site)). split; [|reflexivity]. apply Hinc. right.
      exists k, p, site, (replaceBlock K b). split; [exact Hk|]. split; [rewrite list_lookup_fmap, Hb; reflexivity | reflexivity].
    + intros inc Hin Hn. apply Hinc in Hin as [Hin|(k' & p' & site' & c & Hps & Hc & ->)].
      * apply list_elem_of_singleton in Hin as ->. contradiction.
      * cbn [inBlock inValue Nat.add] in *. destruct (named_site p b p' c Hb Hc Hn) as [-> ->].
        destruct (tailSites_spec _ _ _ _ _ _ Hsites) as (Hnd & _).
        assert (k' = k) as ->.
        { apply (NoDup_lookup (map fst sites) k' k p); [exact Hnd | |]; rewrite list_lookup_fmap; [rewrite Hps | rewrite Hk]; reflexivity. }
        rewrite Hk in Hps. injection Hps as <-. apply Hacc, Ha.
Qed.

(** ** A site, in the loop *)

Definition knownNames (ρ' : env) : Prop := forall x, is_Some (ρ' !! x) -> x ∈ computedNames fn \/ HasPrefix x "%tre." = true.

(** What stays of the block after the call has run, without the call. *)
Record keptRun (call : Instr) (between : list Instr) (a : option V) (ρ1' ρ3' : env) : Prop := mkKeptRun {
  kr_runs : forall k from' e' m, runInstrs (machine := E' k) from' e' ρ1' m (map (mapReads ren) between) = inl (ρ3', m);
  kr_args : forall arg, arg ∈ iArgs call -> operand (machine := base) ρ3' (ren arg) = operand (machine := base) ρ1' (ren arg);
  kr_names : knownNames ρ3';
  kr_acc : forall x, a = Some x -> ρ3' !! "%tre.acc.phi" = Some x
}.

Lemma keptRun_nil call a ρ1 ρ1' : linked None a ρ1 ρ1' -> keptRun call [] a ρ1' ρ1'.
Proof. intros [_ _ H1 H2]. split; auto. Qed.

Lemma site_call_in p b site before call after :
  fBlocks fn !! p = Some b -> siteAt fn b site before call after -> call ∈ instrsOf (fBlocks fn) /\ instrAt fn p (List.length before) call.
Proof.
  intros Hb H. assert (Hi : bInstrs b !! List.length before = Some call).
  { rewrite (sa_split _ _ _ _ _ _ H), lookup_app_r, Nat.sub_diag by lia. reflexivity. }
  split; [eapply block_instrs; [exact Hb | eapply list_elem_of_lookup_2, Hi] | exists b; auto].
Qed.

(** What stands after the call is pure and does not read its result. *)
Lemma site_between b site before call after i :
  siteAt fn b site before call after -> i ∈ removelast after -> isPureOp (iOp i) = true /\ readsValue i (resultName call) = false.
Proof.
  intros H Hi. destruct (sa_end _ _ _ _ _ _ H) as [|between combine lhs rhs other text _ _ _ _ _ Hall]; [inversion Hi|].
  rewrite removelast_last in Hi. exact (proj1 (Forall_forall _ _) Hall i Hi).
Qed.

Lemma removelast_app_rest {A} (l : list A) : exists rest, l = removelast l ++ rest.
Proof. destruct (last l) as [x|] eqn:E0; [exists [x]; apply last_removelast, E0|]. apply last_None in E0 as ->. exists []. reflexivity. Qed.

Lemma kept_runs p b site before call after ρ1 ρ1' a w :
  fBlocks fn !! p = Some b -> siteAt fn b site before call after ->
  stands p (List.length before) ρ1 -> linked None a ρ1 ρ1' ->
  exists ρ3 ρ3', keptRun call (removelast after) a ρ1' ρ3' /\
    stands p (S (List.length before) + List.length (removelast after)) ρ3 /\
    linked (Some (resultName call)) a ρ3 ρ3' /\
    ρ3 !! resultName call = assign ρ1 call w !! resultName call /\
    forall n from e m, runInstrs (machine := E n) from e (assign ρ1 call w) m (removelast after) = inl (ρ3, m).
Proof.
  intros Hb Hsite Hst Hl. destruct (site_call_in p b site before call after Hb Hsite) as [Hin Hat].
  destruct (removelast_app_rest after) as [rest Hrest].
  assert (Hstretch : stretch fn p (S (List.length before)) (removelast after)).
  { replace (S (List.length before)) with (List.length (before ++ [call])) by (rewrite length_app; cbn; lia). eapply (stretch_app fn p b (before ++ [call]) _ rest); [exact Hb|].
    rewrite (sa_split _ _ _ _ _ _ Hsite), <- app_assoc, <- Hrest. reflexivity. }
  destruct (steady_runs base module params fn fn' Hsound Hlo Hmachine (sh_name _ _ _ _ _ _ _ Hshape) (sh_params _ _ _ _ _ _ _ Hshape)
    (resultName call) a p (removelast after) (S (List.length before)) (assign ρ1 call w) ρ1') as (ρ3 & ρ3' & H1 & H2 & H3 & H4).
  - exact Hstretch.
  - apply (stands_step module params fn Hsound Hlo); assumption.
  - apply linked_hide; assumption.
  - apply Forall_forall. intros i Hi. destruct (site_between _ _ _ _ _ _ Hsite Hi) as [Hp Hr].
    apply list_elem_of_lookup_1 in Hi as Hk. destruct Hk as [k Hk]. specialize (Hstretch k i Hk). pose proof (instrAt_in _ _ _ _ Hstretch) as Hii.
    split; [exact Hii|]. split; [exact Hp|]. split.
    { apply (lm_steady _ _ Hmachine b site); [eapply list_elem_of_lookup_2, Hb | apply Hsite |].
      rewrite (afterCall_site _ _ _ _ _ _ Hsite). eapply list_elem_of_lookup_2, Hk. }
    intros v Hv. split.
    + intros Hn. apply not_true_iff_false in Hr. apply Hr, existsb_exists. exists v. split; [apply list_elem_of_In, Hv | apply String.eqb_eq, Hn].
    + apply (lm_known _ _ Hmachine b site i); [eapply list_elem_of_lookup_2, Hb | apply Hsite | | exact Hv].
      rewrite (afterCall_site _ _ _ _ _ _ Hsite), Hrest. apply elem_of_app. left. exact Hi.
  - exists ρ3, ρ3'. split; [split|split; [exact H1|]; split; [exact H2|]; split].
    + intros k from' e' m. apply (H4 0 k "" ∅ from' e' m).
    + intros arg Harg. apply operand_agree. rewrite renamed_value. apply H3. intros i [k Hk]%list_elem_of_lookup_1 Hne E0.
      specialize (Hstretch k i Hk). destruct (renamed_cases fn Hlo (vName arg)) as [(q & Hq & En & Er)|[_ Er]]; rewrite Er in E0.
      * pose proof (lo_results _ Hlo i (instrAt_in _ _ _ _ Hstretch)) as Hp. rewrite E0, treName_prefix in Hp. discriminate.
      * destruct Hat as (b' & Hb' & Hci).
        pose proof (wf_uses _ _ _ (sound_wf _ _ _ Hsound) p b' (List.length before) call arg Hb' Hci) as Huse.
        refine (settled_later module params fn Hsound p (List.length before) _ i (vName arg) (Huse _ _) Hstretch _ Hne E0); [| |lia].
        -- rewrite (sa_op _ _ _ _ _ _ Hsite). discriminate.
        -- apply elem_args, Harg.
    + exact (lk_names _ _ _ _ _ H2).
    + exact (lk_acc _ _ _ _ _ H2).
    + apply H3. intros i [k Hk]%list_elem_of_lookup_1 Hne E0. specialize (Hstretch k i Hk).
      pose proof (defs_at module params fn Hsound _ _ _ Hstretch Hne) as Hd1. rewrite E0 in Hne, Hd1.
      pose proof (defs_at module params fn Hsound _ _ _ Hat Hne) as Hd2. rewrite Hd1 in Hd2. injection Hd2. lia.
    + intros n from e m. apply (H4 n 0 from e "" ∅ m).
Qed.

(** ** The accumulator's step *)

(** What the accumulator holds after a site: [y] is the other value. *)
Definition nextAcc (site : tailSite) (a y : option V) : option V :=
  if String.eqb (siteOp site) "" then a else x ← a; y ← y; Some (accumulate op (fReturn fn) x y).

(** The other value of a site that combines. *)
Definition otherValue (site : tailSite) (ρ' : env) (y : option V) : Prop :=
  siteOp site = "" \/ (siteOp site = op /\ op <> "" /\ vType (ren (siteOther site)) = fReturn fn /\
    exists w, y = Some w /\ operand (machine := base) ρ' (ren (siteOther site)) = Some w).

(** A name of the accumulator's hides no operand. *)
Lemma fresh_operand (ρ' : env) suffix z v :
  v ∈ functionReads (fBlocks fn) ->
  operand (machine := base) (<["%tre.acc." +:+ suffix := z]> ρ') (ren v) = operand (machine := base) ρ' (ren v).
Proof.
  intros Hv. apply operand_agree. rewrite renamed_value. apply lookup_insert_ne. intros E0.
  destruct (renamed_cases fn Hlo (vName v)) as [(q & Hq & En & Er)|[_ Er]]; rewrite Er in E0.
  - rewrite <- En in E0. exact (treName_not_acc q suffix (lo_params _ Hlo q Hq) (eq_sym E0)).
  - pose proof (lo_reads _ Hlo v Hv) as Hp. rewrite <- E0 in Hp. discriminate.
Qed.

Lemma fold_runs k site call between a ρ1' ρ3' y :
  keptRun call between a ρ1' ρ3' -> accFits a -> call ∈ instrsOf (fBlocks fn) ->
  otherValue site ρ3' y ->
  exists ρ4', (forall j from' e' m, runInstrs (machine := E' j) from' e' ρ3' m (siteFold (firstAcc fn op) K k site) = inl (ρ4', m)) /\
    knownNames ρ4' /\ (forall arg, arg ∈ iArgs call -> operand (machine := base) ρ4' (ren arg) = operand (machine := base) ρ1' (ren arg)) /\
    (forall x, nextAcc site a y = Some x ->
      operand (machine := base) ρ4' (siteNext (accPhi fn (default "" (accumulatorOps op))) k site) = Some x).
Proof.
  intros [_ H2 H3 H4] Ha Hin Hsite. unfold siteFold, siteNext, nextAcc, firstAcc.
  assert (Hstay : forall x, a = Some x -> operand (machine := base) ρ3' (accValue fn) = Some x).
  { intros x Hx. unfold operand. cbn [accValue vName]. rewrite (H4 x Hx). reflexivity. }
  destruct (String.eqb_spec (siteOp site) "") as [E0|Hne].
  { exists ρ3'. split; [|auto]. intros. destruct (String.eqb op ""); reflexivity. }
  destruct Hsite as [|(Hop & Hopne & Hty & w & -> & Hy)]; [contradiction|]. rewrite Hop, (proj2 (String.eqb_neq _ _) Hopne). cbn [negb].
  destruct a as [x|]; [|exfalso; apply Hopne, Ha; reflexivity]. destruct (accumulates Hopne) as [Hacc Hi].
  change (default (siteOther site) (K !! vName (siteOther site))) with (ren (siteOther site)).
  exists (<["%tre.acc." +:+ ("site" +:+ FormatInt (Z.of_nat k)) := accumulate op (fReturn fn) x w]> ρ3'). split; [|split; [|split]].
  - intros j from' e' m. cbn [runInstrs].
    rewrite (combine_runs _ _ _ _ _ _ (instr _ op _ "") (accValue fn) (ren (siteOther site)) x w); try reflexivity; auto.
  - intros z. destruct (decide (z = "%tre.acc." +:+ ("site" +:+ FormatInt (Z.of_nat k)))) as [->|Hz].
    + intros _. right. apply HasPrefix_true. eexists. reflexivity.
    + rewrite lookup_insert_ne by congruence. apply H3.
  - intros arg Harg. rewrite fresh_operand; [apply H2, Harg|]. eapply reads_of_instr; [exact Hin | apply elem_args, Harg].
  - intros z [= <-]. unfold operand. change ("%tre.acc.site" +:+ FormatInt (Z.of_nat k)) with ("%tre.acc." +:+ ("site" +:+ FormatInt (Z.of_nat k))).
    cbn [vName]. rewrite lookup_insert_eq. reflexivity.
Qed.

(** ** The call, in the recursion *)

Lemma call_runs n from e ρ m b site before call after :
  siteAt fn b site before call after -> runInstr (machine := E n) from e ρ m call <> Undefined ->
  exists vs, mapM (operand (machine := base) ρ) (iArgs call) = Some vs /\ List.length vs = List.length (fParams fn) /\
    runInstr (machine := E n) from e ρ m call = toStep (runs base n fn vs m).
Proof.
  intros H. unfold runInstr. destruct (String.eqb_spec (iOp call) "phi") as [E0|_]; [rewrite (sa_op _ _ _ _ _ _ H) in E0; discriminate|].
  rewrite operands_self. unfold readOperands. rewrite mapM_app. destruct (mapM (operand ρ) (iArgs call)) as [vs|] eqn:Hvs; [|contradiction].
  cbn [mbind option_bind]. pose proof (mapM_length _ _ _ Hvs) as Hlen. rewrite (sa_args _ _ _ _ _ _ H) in Hlen.
  destruct (mapM (operand (machine := base) ρ) (map faValue (iFields call) ++ flat_map clArgs (iCleanups call))) as [rest|];
    [|cbn [mbind option_bind]; contradiction]. cbn [mbind option_bind].
  assert (Hself : isSelfCall fn (shape call) = true).
  { unfold isSelfCall. cbn [shape iOp iExternABI iArgs iCleanups].
    rewrite (sa_op _ _ _ _ _ _ H), (sa_abi _ _ _ _ _ _ H), (sa_cleanups _ _ _ _ _ _ H), length_map, (sa_args _ _ _ _ _ _ H).
    rewrite !String.eqb_refl, Nat.eqb_refl. reflexivity. }
  unfold selfMachine. cbn [operation]. rewrite Hself. intros _. exists vs. split; [reflexivity|]. split; [exact Hlen|].
  cbn [shape iArgs]. rewrite length_map, (sa_args _ _ _ _ _ _ H), <- Hlen. rewrite take_app_length. reflexivity.
Qed.

(** ** What follows the call, in the recursion *)

Lemma site_returns n b site before call after ρ z m :
  siteAt fn b site before call after -> operand (machine := base) ρ (tValue (bTerminator b)) = Some z ->
  runTerminator (machine := E n) ρ m (bTerminator b) = inr (Returned (Some z) m).
Proof.
  intros H Hz. unfold runTerminator. rewrite (sa_return _ _ _ _ _ _ H), (sa_type _ _ _ _ _ _ H).
  rewrite (proj2 (String.eqb_neq _ _) (sa_value _ _ _ _ _ _ H)), (proj2 (String.eqb_neq _ _) (lo_return _ Hlo)).
  cbn [String.eqb Ascii.eqb Bool.eqb orb]. change (operand (machine := E n)) with (operand (machine := base)). rewrite Hz. reflexivity.
Qed.

(** The value a site returns, from the one its call gave. *)
Definition siteValue (site : tailSite) (y : option V) (w z : V) : Prop :=
  if String.eqb (siteOp site) "" then z = w
  else exists o, y = Some o /\ (z = accumulate op (fReturn fn) w o \/ z = accumulate op (fReturn fn) o w).

Lemma accumulated_site site a y w z m :
  accFits a -> siteOp site = "" \/ siteOp site = op -> siteValue site y w z ->
  accumulated (nextAcc site a y) (Returned (Some w) m) = accumulated a (Returned (Some z) m).
Proof.
  unfold siteValue, nextAcc, accumulated, accFits. intros Ha Hop. destruct (String.eqb_spec (siteOp site) "") as [E0|Hne].
  - intros ->. reflexivity.
  - destruct Hop as [|Hop]; [contradiction|]. rewrite Hop in Hne. intros (o & -> & Hz). destruct (accumulates Hne) as [Hacc _].
    destruct a as [x|]; [|exfalso; apply Hne, Ha; reflexivity]. cbn [mbind option_bind]. do 2 f_equal.
    rewrite <- accumulate_assoc by exact Hacc. destruct Hz as [->| ->]; [rewrite (accumulate_comm _ _ w o Hacc)|]; reflexivity.
Qed.

(** A site that combines, spelled out. *)
Record combinedSite (b : Block) (site : tailSite) (call : Instr) (after : list Instr) (combine : Instr) (lhs rhs : Value) : Prop := mkCombinedSite {
  cs_after : after = removelast after ++ [combine];
  cs_op : siteOp site = iOp combine;
  cs_accumulates : is_Some (accumulatorOps (iOp combine));
  cs_returned : resultName combine = vName (tValue (bTerminator b));
  cs_args : iArgs combine = [lhs; rhs];
  cs_side : (vName lhs = resultName call /\ siteOther site = rhs) \/ (vName rhs = resultName call /\ siteOther site = lhs);
  cs_other : vName (siteOther site) <> resultName call
}.

Lemma site_cases b site call after : siteEnd b call after (siteOp site) (siteOther site) ->
  (after = [] /\ siteOp site = "" /\ vName (tValue (bTerminator b)) = resultName call) \/
  exists combine lhs rhs, combinedSite b site call after combine lhs rhs.
Proof.
  intros H. inversion H as [Hret E1 E2|between combine lhs rhs other text Hret Hop Hargs Hside Hother Hall E1 E2 E3]; [left; auto | right].
  exists combine, lhs, rhs. split; rewrite ?removelast_last; eauto; congruence.
Qed.

(** What the verifier and the machine know of the combining instruction. *)
Lemma combine_facts p b k site before call after combine lhs rhs :
  fBlocks fn !! p = Some b -> sites !! k = Some (p, site) -> siteAt fn b site before call after ->
  combinedSite b site call after combine lhs rhs ->
  siteOp site = op /\ op <> "" /\ combine ∈ instrsOf (fBlocks fn) /\
  instrAt fn p (S (List.length before) + List.length (removelast after)) combine /\ iOp combine <> "phi" /\
  readOperands combine = [lhs; rhs] /\ vType (iResult combine) = fReturn fn /\ vType lhs = fReturn fn /\ vType rhs = fReturn fn.
Proof.
  intros Hb Hk Hsite Hc. assert (Hne : siteOp site <> "").
  { rewrite (cs_op _ _ _ _ _ _ _ Hc). intros E0. destruct (cs_accumulates _ _ _ _ _ _ _ Hc) as [x Hx]. rewrite E0 in Hx. discriminate. }
  assert (Hop : siteOp site = op).
  { destruct (tailSites_spec _ _ _ _ _ _ Hsites) as (_ & _ & Hops & _).
    destruct (Hops p site (list_elem_of_lookup_2 _ _ _ Hk)); [contradiction | assumption]. }
  assert (Hat : bInstrs b !! (S (List.length before) + List.length (removelast after)) = Some combine).
  { rewrite (sa_split _ _ _ _ _ _ Hsite), lookup_app_r by lia.
    replace (S (List.length before) + List.length (removelast after) - List.length before) with (S (List.length (removelast after))) by lia.
    change (after !! List.length (removelast after) = Some combine).
    assert (Hlast : (removelast after ++ [combine]) !! List.length (removelast after) = Some combine)
      by (rewrite lookup_app_r, Nat.sub_diag by lia; reflexivity).
    rewrite <- (cs_after _ _ _ _ _ _ _ Hc) in Hlast. exact Hlast. }
  assert (Hin : combine ∈ instrsOf (fBlocks fn)) by (eapply block_instrs; [exact Hb | eapply list_elem_of_lookup_2, Hat]).
  destruct (lo_combines _ Hlo combine Hin (cs_accumulates _ _ _ _ _ _ _ Hc)) as (Hf & Hcl & Hty).
  destruct (lo_returned _ Hlo b (list_elem_of_lookup_2 _ _ _ Hb) (sa_return _ _ _ _ _ _ Hsite) (sa_value _ _ _ _ _ _ Hsite)) as (Hnr & Hrt & Htyped).
  assert (Hres : vType (iResult combine) = fReturn fn).
  { rewrite <- Hrt. symmetry. apply Htyped; [exact Hin | apply Hc | exact Hnr]. }
  rewrite (cs_args _ _ _ _ _ _ _ Hc) in Hty. apply Forall_cons in Hty as [Hl Hty]. apply Forall_cons in Hty as [Hr _].
  split; [exact Hop|]. split; [congruence|]. split; [exact Hin|]. split; [exists b; auto|].
  split; [intros E0; destruct (cs_accumulates _ _ _ _ _ _ _ Hc) as [x Hx]; rewrite E0 in Hx; discriminate|].
  split; [unfold readOperands; rewrite Hf, Hcl, (cs_args _ _ _ _ _ _ _ Hc); reflexivity|]. split; [exact Hres|]. split; congruence.
Qed.

Lemma site_tail p b k site before call after ρ1 ρ1' a w :
  fBlocks fn !! p = Some b -> sites !! k = Some (p, site) -> siteAt fn b site before call after ->
  stands p (List.length before) ρ1 -> linked None a ρ1 ρ1' ->
  exists y ρ3', keptRun call (removelast after) a ρ1' ρ3' /\ otherValue site ρ3' y /\
    forall n from e m, exists ρ5 z, runInstrs (machine := E n) from e (assign ρ1 call w) m after = inl (ρ5, m) /\
      operand (machine := base) ρ5 (tValue (bTerminator b)) = Some z /\ siteValue site y w z.
Proof.
  intros Hb Hk Hsite Hst Hl. destruct (kept_runs p b site before call after ρ1 ρ1' a w Hb Hsite Hst Hl) as (ρ3 & ρ3' & Hkept & Hst3 & Hl3 & Hcall & Hrun).
  destruct (site_call_in p b site before call after Hb Hsite) as [Hin _].
  pose proof (lo_calls _ Hlo call Hin (sa_op _ _ _ _ _ _ Hsite) (sa_value _ _ _ _ _ _ Hsite)) as Hnamed.
  unfold otherValue, siteValue. destruct (site_cases b site call after (sa_end _ _ _ _ _ _ Hsite)) as [(-> & Hop & Hret)|(combine & lhs & rhs & Hc)].
  - exists None, ρ3'. split; [exact Hkept|]. split; [auto|]. intros n from e m. exists (assign ρ1 call w), w. split; [reflexivity|].
    split; [apply operand_assigned; assumption | rewrite Hop; reflexivity].
  - destruct (combine_facts p b k site before call after combine lhs rhs Hb Hk Hsite Hc)
      as (Hop & Hopne & Hcin & (b' & Hb' & Hat) & Hphi & Hreads & Hres & Hlty & Hrty).
    assert (Hov : siteOther site ∈ readOperands combine).
    { rewrite Hreads. destruct (cs_side _ _ _ _ _ _ _ Hc) as [[_ ->]|[_ ->]]; [right; left | left]. }
    pose proof (wf_uses _ _ _ (sound_wf _ _ _ Hsound) p b' _ combine (siteOther site) Hb' Hat Hphi Hov) as Hset.
    destruct (available_operand base module params fn Hsound _ _ _ _ Hst3 Hset) as [o Ho].
    { apply (lm_known _ _ Hmachine b site combine); [eapply list_elem_of_lookup_2, Hb | apply Hsite | | exact Hov].
      rewrite (afterCall_site _ _ _ _ _ _ Hsite), (cs_after _ _ _ _ _ _ _ Hc). apply elem_of_app. right. left. }
    assert (Hread : siteOther site ∈ functionReads (fBlocks fn)) by (eapply reads_of_instr; eassumption).
    exists (Some o), ρ3'. split; [exact Hkept|]. split.
    { right. split; [exact Hop|]. split; [exact Hopne|]. split.
      - rewrite (ren_type fn Hlo) by exact Hread. destruct (cs_side _ _ _ _ _ _ _ Hc) as [[_ ->]|[_ ->]]; assumption.
      - exists o. split; [reflexivity|]. eapply (linked_operand base fn Hlo Hmachine); [exact Hl3 | | exact Hread | exact Ho].
        intros E0. injection E0 as E0. exact (cs_other _ _ _ _ _ _ _ Hc E0). }
    intros n from e m. set (ρ5 := fun z => assign ρ3 combine z).
    assert (Hnc : resultName combine <> "").
    { rewrite (cs_returned _ _ _ _ _ _ _ Hc). eapply (lo_returned _ Hlo); [eapply list_elem_of_lookup_2, Hb | apply Hsite | apply Hsite]. }
    assert (Hw : forall v, vName v = resultName call -> operand (machine := base) ρ3 v = Some w).
    { intros v Hv. unfold operand. rewrite Hv, Hcall. unfold assign, resultName in *.
      rewrite (proj2 (String.eqb_neq _ _) Hnamed), lookup_insert_eq. reflexivity. }
    destruct (accumulates Hopne) as [_ Hi]. rewrite (cs_after _ _ _ _ _ _ _ Hc). rewrite (proj2 (String.eqb_neq _ _)) by congruence.
    assert (Hrun2 : forall x y, operand (machine := base) ρ3 lhs = Some x -> operand (machine := base) ρ3 rhs = Some y ->
      runInstrs (machine := E n) from e (assign ρ1 call w) m (removelast after ++ [combine]) =
      inl (ρ5 (accumulate op (fReturn fn) x y), m)).
    { intros x y Hx Hy. rewrite runInstrs_app, Hrun. cbn [runInstrs].
      rewrite (combine_runs _ _ _ _ _ _ combine lhs rhs x y (cs_accumulates _ _ _ _ _ _ _ Hc) Hi Hreads (cs_args _ _ _ _ _ _ _ Hc) Hlty Hrty Hres Hx Hy).
      rewrite <- (cs_op _ _ _ _ _ _ _ Hc), Hop. reflexivity. }
    destruct (cs_side _ _ _ _ _ _ _ Hc) as [[Hs E0]|[Hs E0]]; rewrite E0 in Ho.
    + eexists _, _. split; [apply Hrun2; [apply Hw, Hs | exact Ho]|]. split; [apply operand_assigned; [exact Hnc | symmetry; apply Hc]|]. eauto.
    + eexists _, _. split; [apply Hrun2; [exact Ho | apply Hw, Hs]|]. split; [apply operand_assigned; [exact Hnc | symmetry; apply Hc]|]. eauto.
Qed.

(** ** Back to the header *)

(** From the header on, with what the phis read there. *)
Definition enters (n : nat) : Prop := forall f from' ρ' args m a,
  List.length args = List.length (fParams fn) -> accFits a -> knownNames ρ' -> headerReady from' ρ' args a ->
  let o := runFunction (machine := E n) f fn args m in
  good o -> eventually2 (fun k g => runBlocks (machine := E' k) g fn' from' 1 ρ' m = accumulated a o).

Definition ofStep (r : step V M X) : outcome :=
  match r with Next v m => Returned (Some v) m | Halt s => Stopped s | Undefined => Stuck end.

(** What a call gives is what the function run one level below gives. *)
Lemma toStep_runs n vs m r : toStep (runs base n fn vs m) = r -> r <> Undefined ->
  exists n', n = S n' /\ runFunction (machine := E n') (S n') fn vs m = ofStep r /\ good (ofStep r) /\
    typedResult fn (ofStep r) = ofStep r.
Proof.
  intros <- Hr. destruct n as [|n]; [contradiction|]. exists n. split; [reflexivity|]. cbn [runs] in *.
  destruct (runFunction (S n) fn vs m) as [[v|] m'|s| | |]; cbn [typedResult] in *.
  - destruct (fits (fReturn fn) v) eqn:Hf; [|contradiction]. cbn [toStep ofStep typedResult]. rewrite Hf. split; [reflexivity|]. split; [exact I | reflexivity].
  - destruct (String.eqb _ _); contradiction.
  - split; [reflexivity|]. split; [exact I | reflexivity].
  - contradiction.
  - contradiction.
  - contradiction.
Qed.

Lemma loop_again n vs m r from' ρ' a :
  (forall n', n = S n' -> enters n') -> List.length vs = List.length (fParams fn) -> accFits a -> knownNames ρ' ->
  headerReady from' ρ' vs a -> toStep (runs base n fn vs m) = r -> r <> Undefined ->
  eventually2 (fun k g => runBlocks (machine := E' k) g fn' from' 1 ρ' m = accumulated a (ofStep r)).
Proof.
  intros Hn Hlen Ha Hnames Hready Hr Hne. destruct (toStep_runs n vs m r Hr Hne) as (n' & E0 & Hrun & Hgood & _).
  pose proof (Hn n' E0 (S n') from' ρ' vs m a Hlen Ha Hnames Hready) as Hev. cbn zeta in Hev. rewrite Hrun in Hev. apply Hev, Hgood.
Qed.

(** The kept part of a site's block, then the jump. *)
Lemma site_jump n p b k site before call after a ρ1 ρ1' ρ3' y from e m1 from' e' m (before' : list Instr) (ρ' : env) :
  (forall n', n = S n' -> enters n') -> fBlocks fn !! p = Some b -> sites !! k = Some (p, site) -> siteAt fn b site before call after ->
  linked None a ρ1 ρ1' -> accFits a -> keptRun call (removelast after) a ρ1' ρ3' -> otherValue site ρ3' y ->
  runInstr (machine := E n) from e ρ1 m1 call <> Undefined ->
  eventually (fun j => runInstrs (machine := E' j) from' e' ρ' m before' = inl (ρ1', m1)) ->
  eventually2 (fun j g => bodyRun (machine := E' j) g fn' (bName b) from' e' ρ' m
    ((before' ++ map (mapReads ren) (removelast after)) ++ siteFold (firstAcc fn op) K k site) (jump (bName start)) =
    accumulated (nextAcc site a y) (ofStep (runInstr (machine := E n) from e ρ1 m1 call))).
Proof.
  intros Henters Hb Hk Hsite Hl Ha Hkept Hy Hcall Hev.
  destruct (call_runs n from e ρ1 m1 b site before call after Hsite Hcall) as (vs & Hvs & Hlen & Hstep). rewrite Hstep in *.
  destruct (site_call_in p b site before call after Hb Hsite) as [Hin _].
  destruct (fold_runs k site call (removelast after) a ρ1' ρ3' y Hkept Ha Hin Hy) as (ρ4' & Hfold & Hnames & Hargs & Hnext).
  assert (Hfits : accFits (nextAcc site a y)).
  { unfold nextAcc, accFits in *. destruct (String.eqb_spec (siteOp site) ""); [exact Ha|].
    destruct Hy as [|(_ & Hop & _ & o & -> & _)]; [contradiction|]. destruct a as [x|]; [|exfalso; apply Hop, Ha; reflexivity].
    cbn. split; [contradiction | discriminate]. }
  assert (Hready : headerReady (bName b) ρ4' vs (nextAcc site a y)).
  { eapply site_ready; eauto. intros j arg v Harg Hv. pose proof (list_elem_of_lookup_2 _ _ _ Harg) as Hai. rewrite Hargs by exact Hai.
    eapply (linked_operand base fn Hlo Hmachine); [exact Hl | discriminate | eapply reads_of_instr; [exact Hin | apply elem_args, Hai] |].
    eapply mapM_lookup; eassumption. }
  refine (eventually2_and _ _ _ _ Hev (loop_again n vs m1 _ (bName b) ρ4' (nextAcc site a y) Henters Hlen Hfits Hnames Hready eq_refl Hcall)).
  intros j g Hj Hg. unfold bodyRun. rewrite !runInstrs_app, Hj, (kr_runs _ _ _ _ _ Hkept), Hfold.
  cbn [runTerminator jump tOp tTarget String.eqb Ascii.eqb Bool.eqb]. rewrite start_index. exact Hg.
Qed.

Lemma accumulated_stopped a s : accumulated a (Stopped s) = Stopped s.
Proof. destruct a; reflexivity. Qed.

Lemma accumulated_stuck a : accumulated a Stuck = Stuck.
Proof. destruct a; reflexivity. Qed.

(** A block that ends in a tail call. *)
Lemma site_body n f p b k site before call after a from e ρ from' e' ρ' m :
  callsAgree base fn fn' n -> (forall n', n = S n' -> enters n') -> entered p b a from e ρ from' e' ρ' ->
  sites !! k = Some (p, site) -> siteAt fn b site before call after ->
  let o := bodyRun (machine := E n) f fn (bName b) from e ρ m (bInstrs b) (bTerminator b) in
  good o ->
  eventually2 (fun j g => bodyRun (machine := E' j) g fn' (bName b) from' e' ρ' m
    (map (mapReads ren) (before ++ removelast after) ++ siteFold (firstAcc fn op) K k site) (jump (bName start)) = accumulated a o).
Proof.
  intros Hcalls Henters Hen Hk Hsite o Hgood. unfold bodyRun in o. subst o. rewrite map_app.
  pose proof (en_block _ _ _ _ _ _ _ _ _ Hen) as Hb. pose proof (en_acc _ _ _ _ _ _ _ _ _ Hen) as Ha.
  pose proof (sa_split _ _ _ _ _ _ Hsite) as Hsplit. rewrite Hsplit, runInstrs_app in *.
  pose proof (instrs_linked base fn fn' Hlo Hmachine (sh_name _ _ _ _ _ _ _ Hshape) (sh_params _ _ _ _ _ _ _ Hshape) n a from e from' e'
    before ρ ρ' m Hcalls (entered_instrs _ _ _ _ _ _ _ _ _ _ _ Hen Hsplit) (en_linked _ _ _ _ _ _ _ _ _ Hen)) as Hsim.
  destruct (runInstrs from e ρ m before) as [[ρ1 m1]|o1] eqn:Hrun.
  2: { destruct (runInstrs_end _ _ _ _ _ _ Hrun) as [->|[s ->]]; [contradiction|]. rewrite accumulated_stopped.
       refine (eventually2_left _ _ _ (Hsim ltac:(discriminate))). intros j g Hj. unfold bodyRun. rewrite !runInstrs_app, Hj. reflexivity. }
  destruct Hsim as (ρ1' & Hl1 & Hsim). assert (Hst : stands p (List.length before) ρ1).
  { apply (stands_run module params fn Hsound Hlo (E n) p from e before 0 ρ m ρ1 m1); [| apply Hen | exact Hrun].
    exact (stretch_app fn p b [] before (call :: after) Hb Hsplit). }
  cbn [runInstrs] in *. pose proof (fun ρ3' y => site_jump n p b k site before call after a ρ1 ρ1' ρ3' y from e m1 from' e' m
    (map (mapReads ren) before) ρ' Henters Hb Hk Hsite Hl1 Ha) as Hjump.
  destruct (runInstr from e ρ1 m1 call) as [w m2|s|] eqn:Hcall; [| |contradiction].
  - destruct (site_tail p b k site before call after ρ1 ρ1' a w Hb Hk Hsite Hst Hl1) as (y & ρ3' & Hkept & Hy & Htail).
    destruct (Htail n from e m2) as (ρ5 & z & Hr5 & Hz & Hval). rewrite Hr5 in *. rewrite (site_returns n b site before call after ρ5 z m2 Hsite Hz) in *.
    rewrite <- (accumulated_site site a y w z m2 Ha); [apply (Hjump ρ3' y Hkept Hy ltac:(discriminate) Hsim) | | exact Hval].
    destruct (tailSites_spec _ _ _ _ _ _ Hsites) as (_ & _ & Hops & _). exact (Hops p site (list_elem_of_lookup_2 _ _ _ Hk)).
  - assert (exists y ρ3', keptRun call (removelast after) a ρ1' ρ3' /\ otherValue site ρ3' y) as (y & ρ3' & Hkept & Hy).
    { destruct (site_cases b site call after (sa_end _ _ _ _ _ _ Hsite)) as [(-> & Hop & _)|_].
      - exists None, ρ1'. split; [eapply keptRun_nil, Hl1 | left; exact Hop].
      - destruct (site_tail p b k site before call after ρ1 ρ1' a (unit_of op (fReturn fn)) Hb Hk Hsite Hst Hl1) as (y & ρ3' & Hkept & Hy & _). eauto. }
    rewrite accumulated_stopped, <- (accumulated_stopped (nextAcc site a y)). exact (Hjump ρ3' y Hkept Hy ltac:(discriminate) Hsim).
Qed.

(** ** The induction *)

(** Whatever the pass made of a block, its body runs as the block did. *)
Lemma body_linked n f p b body term a from e ρ from' e' ρ' m :
  callsAgree base fn fn' n -> blocksLinked n f -> (forall n', n = S n' -> enters n') ->
  entered p b a from e ρ from' e' ρ' -> newBody fn sites op (bName start) p b body term ->
  let o := bodyRun (machine := E n) f fn (bName b) from e ρ m (bInstrs b) (bTerminator b) in
  good o -> eventually2 (fun j g => bodyRun (machine := E' j) g fn' (bName b) from' e' ρ' m body term = accumulated a o).
Proof.
  intros Hcalls Hblocks Henters Hen Hnew o Hgood. destruct Hnew as [k site before call after Hk Hsite|x Hnone Hop Hret Hx|Hnone Hret].
  - eapply site_body; eassumption.
  - eapply return_body; eassumption.
  - eapply other_body; eassumption.
Qed.

Lemma blocks_linked n : callsAgree base fn fn' n -> (forall n', n = S n' -> enters n') -> forall f, blocksLinked n f.
Proof.
  intros Hcalls Henters. induction f as [|f IH]; intros p from ρ ρ' m a Hp Hst Hl Ha Hgood; [contradiction|].
  destruct (fBlocks fn !! p) as [b|] eqn:Hb; [|cbn [runBlocks] in Hgood; rewrite Hb in Hgood; contradiction].
  rewrite (runBlocks_body (E n) f fn from p ρ m b Hb) in *.
  destruct (sh_body _ _ _ _ _ _ _ Hshape p b Hb) as (body & term & Hnew & Hb'). rewrite decide_False in Hb' by exact Hp.
  apply eventually2_succ. refine (eventually2_mono _ _ _ (body_linked n f p b body term a from ρ ρ from ρ' ρ' m Hcalls IH Henters _ Hnew Hgood)).
  - intros j g Hj. rewrite (runBlocks_body _ g fn' from (S p) ρ' m _ Hb'). exact Hj.
  - split; auto. apply Forall_forall. intros i Hi _ v. apply (linked_phi base fn Hlo Hmachine a); [exact Hl | eapply block_instrs; eassumption].
Qed.

(** ** The header's phis *)

Definition phiReads (from' : string) (e' : env) (ph : Instr) (w : V) : Prop :=
  iOp ph = "phi" /\ resultName ph <> "" /\ phiValue (machine := base) from' e' ph = Some w.

Lemma phis_run from' e' l ws : Forall2 (phiReads from' e') l ws -> NoDup (map resultName l) -> forall ρ,
  exists ρ1, (forall k m, runInstrs (machine := E' k) from' e' ρ m l = inl (ρ1, m)) /\
    (forall j ph w, l !! j = Some ph -> ws !! j = Some w -> ρ1 !! resultName ph = Some w) /\
    (forall x, x ∉ map resultName l -> ρ1 !! x = ρ !! x).
Proof.
  induction 1 as [|ph w l ws (Hop & Hne & Hw) _ IH]; intros Hnd ρ.
  - exists ρ. split; [reflexivity|]. split; [intros j ph w H; rewrite lookup_nil in H; discriminate | auto].
  - cbn [map] in Hnd. apply NoDup_cons in Hnd as [Hn Hnd]. destruct (IH Hnd (assign ρ ph w)) as (ρ1 & Hrun & Hval & Hother).
    exists ρ1. split; [|split].
    + intros k m. cbn [runInstrs]. unfold runInstr. rewrite Hop, String.eqb_refl, phiValue_self, Hw. apply Hrun.
    + intros [|j] ph' w' Hj Hw'; [|eapply Hval; eassumption]. injection Hj as <-. injection Hw' as <-. rewrite Hother by exact Hn.
      unfold assign, resultName in *. rewrite (proj2 (String.eqb_neq _ _) Hne), lookup_insert_eq. reflexivity.
    + intros x [Hx1 Hx2]%not_elem_of_cons. rewrite Hother by exact Hx2. apply assign_other. congruence.
Qed.

Lemma header_names : map resultName phis = map (fun p => treName (pName p)) (fParams fn).
Proof.
  apply list_eq. intros j. rewrite !list_lookup_fmap. destruct (phis !! j) as [ph|] eqn:Hj.
  - destruct (header_param j ph Hj) as (q & Hq & Hres & _). rewrite Hq. cbn. unfold resultName. rewrite Hres. reflexivity.
  - rewrite (lookup_ge_None_2 (fParams fn)); [reflexivity|]. rewrite <- (sh_length _ _ _ _ _ _ _ Hshape). apply lookup_ge_None, Hj.
Qed.

Lemma acc_shape : (op = "" /\ acc = None) \/ (op <> "" /\ exists ac, acc = Some ac /\ resultName ac = "%tre.acc.phi" /\ iOp ac = "phi").
Proof.
  pose proof (sh_acc _ _ _ _ _ _ _ Hshape) as H. unfold accGains, firstAcc in H. destruct (String.eqb_spec op ""); cbn [negb] in H.
  - left. destruct acc; [contradiction | auto].
  - right. split; [assumption|]. destruct acc as [ac|]; [|contradiction]. exists ac. destruct H as (H1 & H2 & _).
    unfold resultName. rewrite H1. auto.
Qed.

Lemma header_nodup : NoDup (map resultName (phis ++ option_list acc)).
Proof.
  rewrite map_app, header_names. apply NoDup_app. split; [|split].
  - pose proof (lo_distinct _ Hlo) as Hd. pose proof (lo_params _ Hlo) as Hp. induction (fParams fn) as [|p l IH]; [constructor|].
    cbn [map] in *. apply NoDup_cons in Hd as [Hn Hd]. constructor; [|apply IH; [exact Hd | intros q Hq; apply Hp; right; exact Hq]].
    intros (q & E0 & Hq)%list_elem_of_fmap. apply Hn. rewrite (treName_inj p q); [apply list_elem_of_fmap_2, Hq | | | exact E0];
      apply Hp; [left | right; exact Hq].
  - intros x (q & -> & Hq)%list_elem_of_fmap Hx. destruct acc_shape as [[_ E0]|(_ & ac & E0 & Hr & _)]; rewrite E0 in Hx; cbn in Hx; [inversion Hx|].
    apply list_elem_of_singleton in Hx. rewrite Hr in Hx. exact (treName_not_acc q "phi" (lo_params _ Hlo q Hq) Hx).
  - destruct acc; [apply NoDup_singleton | constructor].
Qed.

Lemma bindParams_lookup (args : list V) x v :
  bindParams (fParams fn) args !! x = Some v -> exists j q, fParams fn !! j = Some q /\ pName q = x /\ args !! j = Some v.
Proof.
  intros H. unfold bindParams in H. apply elem_of_list_to_map_2 in H as [j Hj]%list_elem_of_lookup_1.
  apply lookup_zip_with_Some in Hj as (x' & v' & E0 & Hx & Hv). injection E0 as <- <-. rewrite list_lookup_fmap in Hx.
  destruct (fParams fn !! j) as [q|] eqn:Hq; [|discriminate]. injection Hx as <-. eauto.
Qed.

Lemma bindParams_bound (args : list V) j q v :
  fParams fn !! j = Some q -> args !! j = Some v -> bindParams (fParams fn) args !! pName q = Some v.
Proof.
  intros Hq Hv. unfold bindParams. apply elem_of_list_to_map_1'.
  - intros w Hw. apply list_elem_of_lookup_1 in Hw as [i Hi]. apply lookup_zip_with_Some in Hi as (x & w' & E0 & Hx & Hw).
    injection E0 as <- <-. rewrite list_lookup_fmap in Hx. destruct (fParams fn !! i) as [q'|] eqn:Hq'; [|discriminate]. injection Hx as Hx.
    assert (i = j) as ->; [|congruence]. apply (NoDup_lookup (map pName (fParams fn)) i j (pName q)); [apply Hlo | |];
      rewrite list_lookup_fmap; [rewrite Hq' | rewrite Hq]; cbn; congruence.
  - apply list_elem_of_lookup_2 with j. apply lookup_zip_with_Some. exists (pName q), v. split; [reflexivity|].
    rewrite list_lookup_fmap, Hq. auto.
Qed.

(** After its phis the header holds the arguments under the phis' names. *)
Lemma header_runs from' (ρ' : env) args a :
  List.length args = List.length (fParams fn) -> accFits a -> knownNames ρ' -> headerReady from' ρ' args a ->
  exists ρ1', (forall k m, runInstrs (machine := E' k) from' ρ' ρ' m (phis ++ option_list acc) = inl (ρ1', m)) /\
    linked None a (bindParams (fParams fn) args) ρ1'.
Proof.
  intros Hlen Ha Hnames [Hphis Hacc]. pose proof (sh_length _ _ _ _ _ _ _ Hshape) as Hpl.
  assert (Hall : Forall2 (phiReads from' ρ') (phis ++ option_list acc) (args ++ option_list a)).
  { apply Forall2_app.
    - apply Forall2_same_length_lookup_2; [congruence|]. intros j ph w Hj Hw. destruct (header_param j ph Hj) as (q & _ & Hres & Hop & _).
      split; [exact Hop|]. split; [unfold resultName; rewrite Hres; discriminate | eapply Hphis; eassumption].
    - destruct acc_shape as [[Hop ->]|(Hop & ac & E0 & Hr & Hph)]; unfold accFits in Ha.
      + rewrite (proj1 Ha Hop). constructor.
      + destruct a as [x|]; [|exfalso; apply Hop, Ha; reflexivity]. rewrite E0. constructor; [|constructor].
        split; [exact Hph|]. split; [rewrite Hr; discriminate | apply Hacc; auto]. }
  destruct (phis_run from' ρ' _ _ Hall header_nodup ρ') as (ρ1' & Hrun & Hval & Hother). exists ρ1'. split; [exact Hrun|].
  pose proof (bindParams_lookup args) as Hbound.
  split.
  - intros x v _ Hx. destruct (Hbound x v Hx) as (j & q & Hq & <- & Hv).
    destruct (renamed_cases fn Hlo (pName q)) as [(q' & Hq' & _ & ->)|[HK _]].
    + destruct (lookup_lt_is_Some_2 phis j) as [ph Hph]; [rewrite Hpl; eapply lookup_lt_Some, Hq|].
      destruct (header_param j ph Hph) as (q2 & Hq2 & Hres & _). rewrite Hq in Hq2. injection Hq2 as <-.
      assert (E0 : treName (pName q) = resultName ph) by (unfold resultName; rewrite Hres; reflexivity). rewrite E0.
      apply (Hval j); [apply lookup_app_l_Some, Hph | apply lookup_app_l_Some, Hv].
    + exfalso. assert (He : K !! pName q = Some (treParam q)); [|congruence].
      apply treParams_lookup; [apply Hlo|]. exists q. split; [eapply list_elem_of_lookup_2, Hq | auto].
  - intros x [v Hx]. destruct (Hbound x v Hx) as (j & q & Hq & <- & _). apply elem_of_app. left. apply list_elem_of_fmap_2.
    eapply list_elem_of_lookup_2, Hq.
  - intros x Hx. destruct (decide (x ∈ map resultName (phis ++ option_list acc))) as [Hin|Hin]; [|rewrite Hother in Hx by exact Hin; auto].
    right. rewrite map_app, header_names in Hin. apply elem_of_app in Hin as [(q & -> & _)%list_elem_of_fmap|Hin]; [apply treName_prefix|].
    destruct acc_shape as [[_ E0]|(_ & ac & E0 & Hr & _)]; rewrite E0 in Hin; cbn in Hin; [inversion Hin|].
    apply list_elem_of_singleton in Hin as ->. rewrite Hr. reflexivity.
  - intros x ->. destruct acc_shape as [[Hop _]|(_ & ac & E0 & Hr & _)]; [exfalso; apply Ha in Hop; discriminate|]. rewrite <- Hr.
    apply (Hval (List.length phis)); [rewrite E0; apply list_lookup_middle; reflexivity | apply list_lookup_middle; congruence].
Qed.

Lemma stands_start (args : list V) : List.length args = List.length (fParams fn) -> stands 0 0 (bindParams (fParams fn) args).
Proof.
  intros Hlen. split; [apply reach_refl | apply facts_start|]. intros q Hq. apply list_elem_of_lookup_1 in Hq as [j Hq].
  destruct (lookup_lt_is_Some_2 args j) as [v Hv]; [rewrite Hlen; eapply lookup_lt_Some, Hq|].
  exists v. eapply bindParams_bound; eassumption.
Qed.

(** A phi of the first block names no block, and has no value there. *)
Lemma start_phis b e from' e' : fBlocks fn !! 0 = Some b -> Forall (phisAgree base fn "" e from' e') (bInstrs b).
Proof.
  intros Hb. apply Forall_forall. intros i Hi Hop v. unfold phiValue at 1.
  destruct (List.find _ (iIncoming i)) as [inc|] eqn:Hf; [|discriminate]. exfalso.
  apply List.find_some in Hf as [Hin Hn]. apply String.eqb_eq in Hn. apply list_elem_of_In in Hin.
  destruct (wf_phis _ _ _ (sound_wf _ _ _ Hsound) 0 b i Hb Hi Hop) as [(Hcov & _) _].
  destruct (Hcov inc Hin) as (q & Hq & _). unfold at_ in Hq. rewrite Hn in Hq. apply blockIndex_Some in Hq as (c & Hc & E0).
  apply (lo_named _ Hlo). rewrite <- E0. apply list_elem_of_fmap_2. eapply list_elem_of_lookup_2, Hc.
Qed.

Lemma enters_step n : callsAgree base fn fn' n -> (forall n', n = S n' -> enters n') -> enters n.
Proof.
  intros Hcalls Henters f from' ρ' args m a Hlen Ha Hnames Hready o Hgood. subst o. unfold runFunction in *.
  destruct f as [|f]; [contradiction|]. pose proof (sh_start _ _ _ _ _ _ _ Hshape) as Hb.
  rewrite (runBlocks_body (E n) f fn "" 0 _ m start Hb) in *.
  destruct (sh_body _ _ _ _ _ _ _ Hshape 0 start Hb) as (body & term & Hnew & Hb'). rewrite decide_True in Hb' by reflexivity.
  destruct (header_runs from' ρ' args a Hlen Ha Hnames Hready) as (ρ1' & Hrun & Hl).
  apply eventually2_succ. refine (eventually2_mono _ _ _ (body_linked n f 0 start body term a "" _ _ from' ρ' ρ1' m Hcalls
    (blocks_linked n Hcalls Henters f) Henters _ Hnew Hgood)).
  - intros k g Hk. rewrite (runBlocks_body _ g fn' from' 1 ρ' m _ Hb'). cbn [bName bInstrs bTerminator].
    unfold bodyRun in *. rewrite runInstrs_app, Hrun. exact Hk.
  - split; auto; [apply stands_start, Hlen | apply start_phis, Hb].
Qed.

(** ** Through the new entry *)

Definition unitAcc : option V := if String.eqb op "" then None else Some (unit_of op (fReturn fn)).

Lemma unitAcc_fits : accFits unitAcc.
Proof. unfold accFits, unitAcc. destruct (String.eqb_spec op ""); split; auto; discriminate || contradiction. Qed.

Lemma accumulated_unit o : typedResult fn o = o -> good o -> accumulated unitAcc o = o.
Proof.
  unfold unitAcc. intros Ht Hg. destruct (String.eqb_spec op "") as [|Hne]; [reflexivity|]. destruct (accumulates Hne) as [Hacc Hi].
  destruct o as [[v|] m|s| | |]; try reflexivity. cbn [accumulated typedResult] in *.
  destruct (fits (fReturn fn) v) eqn:Hf; [|discriminate]. rewrite accumulate_unit by assumption. reflexivity.
Qed.

Lemma readOperands_instr r o args imm : readOperands (instr r o args imm) = args.
Proof. unfold readOperands. cbn [instr iArgs iFields iCleanups map flat_map app]. apply app_nil_r. Qed.

Lemma entry_runs k from e ρ m : exists ρ1,
  runInstrs (machine := E' k) from e ρ m (bInstrs (loopEntry fn op (bName start))) = inl (ρ1, m) /\
  ρ1 = match unitAcc with Some v => <["%tre.acc.identity" := v]> ρ | None => ρ end.
Proof.
  eexists. split; [|reflexivity]. unfold loopEntry, unitAcc. cbn [bInstrs]. destruct (String.eqb_spec op "") as [|Hne]; [reflexivity|].
  destruct (accumulates Hne) as [[text Htext] Hi]. cbn [negb runInstrs]. unfold runInstr, accIdentity. cbn [instr iOp String.eqb Ascii.eqb Bool.eqb].
  rewrite operands_self, readOperands_instr. cbn [mapM]. unfold mret, option_ret. unfold selfMachine. cbn [operation].
  unfold isSelfCall. cbn [shape instr iOp append String.eqb Ascii.eqb Bool.eqb andb].
  rewrite (unit_runs op text); [reflexivity | exact Htext | exact Hi | reflexivity | cbn; rewrite Htext; reflexivity].
Qed.

(** The values at the end of the new entry. *)
Definition entryValues (args : list V) : env :=
  match unitAcc with
  | Some v => <["%tre.acc.identity" := v]> (bindParams (fParams fn) args)
  | None => bindParams (fParams fn) args
  end.

Lemma entry_known args : knownNames (entryValues args).
Proof.
  assert (H : knownNames (bindParams (fParams fn) args)).
  { intros x [v Hx]. destruct (bindParams_lookup args x v Hx) as (j & q & Hq & <- & _). left. apply elem_of_app. left.
    apply list_elem_of_fmap_2. eapply list_elem_of_lookup_2, Hq. }
  unfold entryValues. destruct unitAcc; [|exact H]. intros x. destruct (decide (x = "%tre.acc.identity")) as [->|Hne]; [auto|].
  rewrite lookup_insert_ne by congruence. apply H.
Qed.

Lemma entry_ready args : List.length args = List.length (fParams fn) -> headerReady treEntry (entryValues args) args unitAcc.
Proof.
  intros Hlen. assert (Hblock : forall q c, map (replaceBlock K) (fBlocks fn) !! q = Some c -> bName c <> treEntry).
  { intros q c Hc E0. rewrite list_lookup_fmap in Hc. destruct (fBlocks fn !! q) as [b|] eqn:Hb; [|discriminate].
    injection Hc as <-. exact (entry_not_block q b Hb (eq_sym E0)). }
  split.
  - intros j ph v Hj Hv. destruct (header_param j ph Hj) as (q & Hq & _ & _ & Hinc). apply phi_found.
    + exists (mkIncoming treEntry (paramValue q)). split; [apply Hinc; left; left | reflexivity].
    + intros inc Hin Hn. apply Hinc in Hin as [->%list_elem_of_singleton|(p' & s & c & i & arg & _ & Hc & _ & _ & ->)];
        [|exfalso; exact (Hblock _ _ Hc Hn)].
      pose proof (bindParams_bound args j q v Hq Hv) as Hb. unfold operand, entryValues. cbn [inValue paramValue vName].
      destruct unitAcc; [rewrite lookup_insert_ne|]; [rewrite Hb; reflexivity | | rewrite Hb; reflexivity].
      intros E0. pose proof (param_not_tre q (lo_params _ Hlo q (list_elem_of_lookup_2 _ _ _ Hq))) as Hp. rewrite <- E0 in Hp. discriminate.
  - intros ac x Hac Hx. destruct (header_acc ac Hac) as (_ & _ & _ & Hinc). apply phi_found.
    + eexists (mkIncoming treEntry _). split; [apply Hinc; left; left | reflexivity].
    + intros inc Hin Hn. apply Hinc in Hin as [->%list_elem_of_singleton|(k' & p' & s & c & _ & Hc & ->)];
        [|exfalso; exact (Hblock _ _ Hc Hn)].
      unfold operand, entryValues. rewrite Hx. cbn [inValue accIdentity instr iResult vName]. rewrite lookup_insert_eq. reflexivity.
Qed.

(** A run of the function that ends is a run of the loop that ends as it did. *)
Lemma loop_call n f args m : enters n -> List.length args = List.length (fParams fn) ->
  let o := runFunction (machine := E n) f fn args m in
  good o -> typedResult fn o = o -> eventually (fun k => runs base k fn' args m = o).
Proof.
  intros Hn Hlen o Hgood Ht. subst o.
  pose proof (Hn f treEntry (entryValues args) args m unitAcc Hlen unitAcc_fits (entry_known args) (entry_ready args Hlen) Hgood) as Hev.
  cbn zeta in Hev. rewrite accumulated_unit in Hev by assumption. apply eventually_succ.
  refine (eventually_mono _ _ _ (eventually2_diagonal _ Hev)). intros k Hk. cbn [runs]. unfold runFunction.
  rewrite (runBlocks_body _ k fn' "" 0 _ m _ (sh_entry _ _ _ _ _ _ _ Hshape)). unfold bodyRun.
  destruct (entry_runs k "" (bindParams (fParams fn') args) (bindParams (fParams fn') args) m) as (ρ1 & -> & ->).
  cbn [loopEntry bTerminator bName runTerminator jump tOp tTarget String.eqb Ascii.eqb Bool.eqb]. rewrite start_index.
  rewrite (sh_params _ _ _ _ _ _ _ Hshape). fold (entryValues args). rewrite Hk.
  unfold typedResult in *. rewrite (sh_returns _ _ _ _ _ _ _ Hshape). exact Ht.
Qed.

Lemma calls_agree n : (forall n', n = S n' -> enters n') -> callsAgree base fn fn' n.
Proof.
  intros Hn args m r Hlen Hr Hne. destruct (toStep_runs n args m r Hr Hne) as (n' & E0 & Hrun & Hgood & Ht).
  pose proof (loop_call n' (S n') args m (Hn n' E0) Hlen) as Hev. cbn zeta in Hev. rewrite Hrun in Hev.
  refine (eventually_mono _ _ _ (Hev Hgood Ht)). intros k ->. destruct r; [reflexivity | reflexivity | contradiction].
Qed.

Lemma enters_all n : enters n.
Proof.
  induction n as [|n IH].
  - apply enters_step; [apply calls_agree|]; intros n' E0; discriminate.
  - apply enters_step; [apply calls_agree|]; intros n' E0; injection E0 as <-; exact IH.
Qed.

Theorem loop_runs n args m : List.length args = List.length (fParams fn) -> ends (runs base n fn args m) ->
  eventually (fun k => runs base k fn' args m = runs base n fn args m).
Proof.
  intros Hlen Hends. destruct n as [|n]; [contradiction|]. cbn [runs] in *.
  assert (Ht : forall o, ends (typedResult fn o) -> typedResult fn o = o /\ good o).
  { intros [[v|] m'|s| | |]; cbn; auto.
    - destruct (fits (fReturn fn) v); [auto | contradiction].
    - destruct (String.eqb_spec (fReturn fn) "void") as [E0|]; [|contradiction]. intros _. split; [reflexivity|].
      destruct (decide (op = "")) as [|Hne]; [assumption|]. destruct (wrapping_not_void Hne) as [Hv _]. contradiction. }
  destruct (Ht _ Hends) as [H1 H2]. rewrite H1. apply (loop_call n); auto. apply enters_all.
Qed.
End Loop.
