(* ===== verification/TailCallTheorems.v ===== *)
(** * Tail calls: the theorem, a machine it holds on, and its limit

    [tail_recursion_preserves] is for every machine whose accumulator operations
    are associative and commutative.  [sizedMachine] is one: integers of every
    width, a cell of memory and a log.  The last example is a function the pass
    changes the result of. *)

From stdpp Require Import base list strings gmap.
From Stdlib Require Import ZArith Lia String Ascii.
From S2P Require Import Prelude GoStd IR Cfg CfgFacts Verify VerifyFacts Semantics Optimize Dce Ssa Simplify Available Forward.
From S2P Require Import TailCall TailCallFacts TailCallLoop.

#[local] Open Scope string_scope.
#[local] Open Scope list_scope.


(** C10. Turning tail calls into a loop keeps every result: on a verified
    function in single assignment, on any machine whose accumulator operations
    are associative and commutative, and when what stands between a tail call
    and its return always computes the same values, the pass ends, and every
    run of the recursive function that returns or stops is, from some depth on,
    a run of the function the pass leaves with the same result and memory. *)
Theorem tail_recursion_preserves {V M X} (base : Machine V M X) {types : ResultTypes V} {adds : AccumulatorMachine base}
    module params fn :
  sound module params fn -> loopable fn -> loopMachine base fn ->
  exists fn', eliminateTailRecursionIn fn = Some fn' /\
    forall n args m, List.length args = List.length (fParams fn) -> ends (runs base n fn args m) ->
      exists N, forall k, N <= k -> runs base k fn' args m = runs base n fn args m.
Proof.
  intros Hsound Hlo Hm. assert (Hsame : forall n args m, ends (runs base n fn args m) ->
    exists N, forall k, N <= k -> runs base k fn args m = runs base n fn args m) by (intros n args m H; exists n; eauto using runs_monotone).
  unfold eliminateTailRecursionIn. destruct (_ || _ || _) eqn:Hskip; [exists fn; auto|].
  destruct (existsb _ (fParams fn)); [exists fn; auto|]. destruct (tailSites fn 0 (fBlocks fn) "") as [[sites op]|] eqn:Hsites; [|exists fn; auto].
  destruct sites as [|site sites]; [exists fn; auto|]. destruct (negb _ && negb _) eqn:Hint; [exists fn; auto|].
  assert (Hne : fBlocks fn <> []) by (intros E; rewrite E in Hskip; discriminate).
  destruct (rewriteTailRecursion_shape fn _ op Hlo Hsites Hne) as (fn' & phis & acc & start & -> & Hshape).
  exists fn'. split; [reflexivity|]. intros n args m Hlen Hends.
  apply (loop_runs base module params fn fn' _ op phis acc start Hsound Hlo Hm Hsites Hshape); auto.
  destruct (String.eqb_spec op ""); [auto | right]. cbn [negb andb] in Hint. apply negb_false_iff, Hint.
Qed.

(** ** A machine with integers of every width *)

Definition width (ty : string) : option Z :=
  if bool_decide (ty ∈ ["i8"; "u8"]) then Some 8%Z
  else if bool_decide (ty ∈ ["i16"; "u16"]) then Some 16%Z
  else if bool_decide (ty ∈ ["i32"; "u32"]) then Some 32%Z
  else if bool_decide (ty ∈ ["i64"; "u64"; "isize"; "usize"]) then Some 64%Z
  else None.

(** A value cut to a width. *)
Definition cut (w z : Z) : Z := (z mod 2 ^ w)%Z.

Definition sizedOp (op : string) : option (Z -> Z -> Z) :=
  if String.eqb op "binary.+" then Some Z.add
  else if String.eqb op "binary.-" then Some Z.sub
  else if String.eqb op "binary.*" then Some Z.mul
  else if String.eqb op "binary.|" then Some Z.lor
  else if String.eqb op "binary.^" then Some Z.lxor
  else None.

(** The memory is one cell, which [call.set] writes and [ref.load] reads, and
    what [call.log] was given. *)
Definition sizedOperation (i : Instr) (vs : list Z) (m : Z * list Z) : step Z (Z * list Z) unit :=
  if String.eqb (iOp i) "const" then
    match width (vType (iResult i)), ParseInt (iImmediate i) with
    | Some w, Some n => Next (cut w n) m
    | _, _ => Undefined
    end
  else if String.eqb (iOp i) "binary.<" then
    match vs with [x; y] => Next (if (x <? y)%Z then 1%Z else 0%Z) m | _ => Undefined end
  else match sizedOp (iOp i), width (vType (iResult i)) with
  | Some f, Some w => match vs with [x; y] => Next (cut w (f x y)) m | _ => Undefined end
  | _, _ =>
      if String.eqb (iOp i) "call.log" then Next 0%Z (m.1, m.2 ++ vs)
      else if String.eqb (iOp i) "call.exit" then Halt tt
      else if String.eqb (iOp i) "call.set" then match vs with [x] => Next 0%Z (x, m.2) | _ => Undefined end
      else if String.eqb (iOp i) "ref.load" then Next m.1 m
      else Undefined
  end.

#[export] Instance sizedMachine : Machine Z (Z * list Z) unit := {
  literal v := w ← width (vType v); n ← ParseInt (vName v); Some (cut w n);
  operation := sizedOperation;
  truth v := Some (negb (v =? 0)%Z)
}.

#[export] Instance sizedTypes : ResultTypes Z := fun ty z =>
  match width ty with Some w => (0 <=? z)%Z && (z <? 2 ^ w)%Z | None => true end.

Lemma width_wrapping ty : isWrappingInteger ty = true -> exists w, width ty = Some w /\ (0 <= w)%Z.
Proof.
  unfold isWrappingInteger. intros H%bool_decide_eq_true.
  repeat (apply elem_of_cons in H as [->|H]; [eexists; split; [reflexivity | lia]|]). inversion H.
Qed.

(** Bits below the width follow from bits below the width. *)
Lemma cut_bits w z i : (0 <= w)%Z -> (0 <= i)%Z -> Z.testbit (cut w z) i = (i <? w)%Z && Z.testbit z i.
Proof.
  intros Hw Hi. unfold cut. destruct (Z.ltb_spec i w); [rewrite Z.mod_pow2_bits_low by lia; reflexivity|].
  apply Z.mod_pow2_bits_high. lia.
Qed.

Lemma cut_bitwise w (f : Z -> Z -> Z) (g : bool -> bool -> bool) x y : (0 <= w)%Z ->
  (forall x y i, (0 <= i)%Z -> Z.testbit (f x y) i = g (Z.testbit x i) (Z.testbit y i)) -> cut w (f x (cut w y)) = cut w (f x y).
Proof.
  intros Hw Hf. apply Z.bits_inj'. intros i Hi. rewrite !cut_bits, !Hf, cut_bits by assumption.
  destruct (i <? w)%Z; reflexivity.
Qed.

Lemma cut_op w op f x y : (0 <= w)%Z -> is_Some (accumulatorOps op) -> sizedOp op = Some f -> cut w (f x (cut w y)) = cut w (f x y).
Proof.
  intros Hw [text Hop]. unfold accumulatorOps, sizedOp in *.
  destruct (String.eqb op "binary.+"); [intros [= <-]; apply Zplus_mod_idemp_r|].
  destruct (String.eqb_spec op "binary.-") as [->|]; [discriminate Hop|].
  destruct (String.eqb op "binary.*"); [intros [= <-]; apply Zmult_mod_idemp_r|].
  destruct (String.eqb op "binary.|"); [intros [= <-]; apply (cut_bitwise w _ orb); [exact Hw | intros; apply Z.lor_spec]|].
  destruct (String.eqb op "binary.^"); [intros [= <-]; apply (cut_bitwise w _ xorb); [exact Hw | intros; apply Z.lxor_spec]|].
  discriminate.
Qed.

Definition sizedFold (op ty : string) (x y : Z) : Z :=
  match sizedOp op with Some f => cut (default 64%Z (width ty)) (f x y) | None => 0%Z end.

Lemma sizedOp_laws op f : is_Some (accumulatorOps op) -> sizedOp op = Some f ->
  (forall x y, f x y = f y x) /\ (forall x y z, f x (f y z) = f (f x y) z).
Proof.
  intros [text Hop]. unfold accumulatorOps, sizedOp in *.
  destruct (String.eqb op "binary.+"); [intros [= <-]; split; [apply Z.add_comm | apply Z.add_assoc]|].
  destruct (String.eqb_spec op "binary.-") as [->|]; [discriminate Hop|].
  destruct (String.eqb op "binary.*"); [intros [= <-]; split; [apply Z.mul_comm | apply Z.mul_assoc]|].
  destruct (String.eqb op "binary.|"); [intros [= <-]; split; [apply Z.lor_comm | apply Z.lor_assoc]|].
  destruct (String.eqb op "binary.^"); [intros [= <-]; split; [apply Z.lxor_comm | intros; symmetry; apply Z.lxor_assoc]|].
  discriminate.
Qed.

Lemma width_nonneg ty : (0 <= default 64 (width ty))%Z.
Proof. unfold width. repeat (destruct (bool_decide _); [cbn; lia|]). cbn. lia. Qed.

#[export] Instance sizedAccumulators : AccumulatorMachine sizedMachine.
Proof.
  refine {| accumulate := sizedFold;
            unit_of := fun op ty => cut (default 64%Z (width ty)) (if String.eqb op "binary.*" then 1 else 0)%Z |}.
  - intros op ty x y Hop. unfold sizedFold. destruct (sizedOp op) as [f|] eqn:Hf; [|reflexivity].
    rewrite (proj1 (sizedOp_laws op f Hop Hf)). reflexivity.
  - intros op ty x y z Hop. unfold sizedFold. destruct (sizedOp op) as [f|] eqn:Hf; [|reflexivity]. destruct (sizedOp_laws op f Hop Hf) as [Hc Ha].
    pose proof (width_nonneg ty) as Hw. rewrite (cut_op _ op f) by assumption.
    rewrite (Hc (cut _ (f x y)) z), (cut_op _ op f), Ha by assumption. rewrite (Hc z). reflexivity.
  - intros op ty x [text Hop] (w & Hw & Hpos)%width_wrapping Hfit. unfold fits, sizedTypes, sizedFold in *. rewrite Hw in *. cbn [default id].
    apply andb_true_iff in Hfit as [H1%Z.leb_le H2%Z.ltb_lt]. assert (Hcut : cut w x = x) by (apply Z.mod_small; lia).
    unfold accumulatorOps, sizedOp in *.
    assert (H0 : cut w 0 = 0%Z) by (apply Z.mod_0_l; lia).
    destruct (String.eqb_spec op "binary.+") as [->|]; [cbn [String.eqb Ascii.eqb Bool.eqb]; rewrite H0; exact Hcut|].
    destruct (String.eqb_spec op "binary.-") as [->|]; [discriminate|].
    destruct (String.eqb_spec op "binary.*") as [->|].
    { unfold cut at 1 2. rewrite Zmult_mod_idemp_l, Z.mul_1_l. exact Hcut. }
    rewrite H0. destruct (String.eqb op "binary.|"); [rewrite Z.lor_0_l; exact Hcut|].
    destruct (String.eqb op "binary.^"); [rewrite Z.lxor_0_l; exact Hcut | discriminate].
  - intros i x y m Hop (w & Hw & _)%width_wrapping _. cbn [operation sizedMachine]. unfold sizedOperation, sizedFold. rewrite Hw. cbn [default id].
    destruct Hop as [text Hop]. unfold accumulatorOps in Hop. destruct (String.eqb_spec (iOp i) "const") as [E|_]; [rewrite E in Hop; discriminate|].
    destruct (String.eqb_spec (iOp i) "binary.<") as [E|_]; [rewrite E in Hop; discriminate|]. unfold sizedOp.
    destruct (String.eqb_spec (iOp i) "binary.-") as [E|_]; [rewrite E in Hop; discriminate|].
    repeat (destruct (String.eqb (iOp i) _); [reflexivity|]). discriminate.
  - intros op text i m Hop (w & Hw & _)%width_wrapping Hc Himm. cbn [operation sizedMachine]. unfold sizedOperation. rewrite Hc, Hw, Himm.
    cbn [String.eqb Ascii.eqb Bool.eqb default id]. unfold accumulatorOps in Hop.
    destruct (String.eqb_spec op "binary.+") as [->|]; [injection Hop as <-; reflexivity|].
    destruct (String.eqb op "binary.*"); [injection Hop as <-; reflexivity|].
    destruct (String.eqb op "binary.|"); [injection Hop as <-; reflexivity|].
    destruct (String.eqb op "binary.^"); [injection Hop as <-; reflexivity | discriminate].
Defined.

(** ** A function that the theorem is about *)

(** [loopable], as a test. *)
Definition loopableb (fn : Function) : bool :=
  let instrs := instrsOf (fBlocks fn) in
  let typed v := String.eqb (vName v) "" || forallb (fun j => negb (String.eqb (resultName j) (vName v)) || String.eqb (vType v) (vType (iResult j))) instrs in
  negb (bool_decide (treEntry ∈ map bName (fBlocks fn))) && negb (bool_decide ("" ∈ map bName (fBlocks fn))) &&
  forallb (fun q => negb (bool_decide (0 ∈ succs fn q))) (seq 0 (List.length (fBlocks fn))) &&
  forallb (fun p => match CutPrefix (pName p) "%" with
                    | Some name => sall (fun c => negb (Ascii.eqb c ".")) name | None => false end) (fParams fn) &&
  bool_decide (NoDup (map pName (fParams fn))) &&
  forallb (fun p => forallb (fun i => negb (String.eqb (resultName i) (pName p))) instrs &&
                    forallb (fun v => negb (String.eqb (vName v) (pName p)) || String.eqb (vType v) (pType p)) (functionReads (fBlocks fn))) (fParams fn) &&
  forallb (fun i => negb (HasPrefix (resultName i) "%tre.")) instrs &&
  forallb (fun v => negb (HasPrefix (vName v) "%tre.")) (functionReads (fBlocks fn)) &&
  negb (String.eqb (fReturn fn) "") &&
  forallb (fun b => negb (String.eqb (tOp (bTerminator b)) "return") || String.eqb (fReturn fn) "void" ||
    negb (String.eqb (vName (tValue (bTerminator b))) "") && String.eqb (vType (tValue (bTerminator b))) (fReturn fn) && typed (tValue (bTerminator b))) (fBlocks fn) &&
  forallb (fun i => (negb (String.eqb (iOp i) ("call." +:+ fName fn)) || String.eqb (fReturn fn) "void" || negb (String.eqb (resultName i) "")) &&
    (negb (bool_decide (is_Some (accumulatorOps (iOp i)))) ||
     bool_decide (iFields i = []) && bool_decide (iCleanups i = []) && forallb (fun a => String.eqb (vType a) (vType (iResult i))) (iArgs i))) instrs.

Lemma loopableb_true fn :
  definesOnce fn -> NoDup (map bName (fBlocks fn)) -> loopableb fn = true -> loopable fn.
Proof.
  intros Honce Hblocks H. unfold loopableb in H. rewrite !andb_true_iff, !forallb_forall, !negb_true_iff in H.
  destruct H as [[[[[[[[[[He Hn] Hs] Hp] Hd] Hpi] Hr] Hv] Hret] Hb] Hi].
  apply bool_decide_eq_false in He, Hn. apply bool_decide_eq_true in Hd. apply String.eqb_neq in Hret.
  assert (Hin : forall i, i ∈ instrsOf (fBlocks fn) -> In i (instrsOf (fBlocks fn))) by (intros; apply list_elem_of_In; assumption).
  split; auto.
  - intros q Hq. destruct (succs_bound fn q 0 Hq) as [Hq0 _]. specialize (Hs q). rewrite in_seq in Hs.
    unfold CfgFacts.size in Hq0. specialize (Hs ltac:(lia)). apply negb_true_iff, bool_decide_eq_false in Hs. contradiction.
  - intros p Hpin%list_elem_of_In. apply Hp in Hpin. destruct (CutPrefix (pName p) "%") as [name|] eqn:E; [|discriminate].
    exists name. split; [apply CutPrefix_Some, E | exact Hpin].
  - intros p i Hpin%list_elem_of_In Hiin%list_elem_of_In. apply Hpi, andb_true_iff in Hpin as [Hpin _]. rewrite forallb_forall in Hpin.
    apply Hpin, negb_true_iff, String.eqb_neq in Hiin. exact Hiin.
  - intros i Hiin%list_elem_of_In. apply negb_true_iff, Hr, Hiin.
  - intros v Hvin%list_elem_of_In. apply negb_true_iff, Hv, Hvin.
  - intros p v Hpin%list_elem_of_In Hvin%list_elem_of_In Hnv. apply Hpi, andb_true_iff in Hpin as [_ Hpin]. rewrite forallb_forall in Hpin.
    apply Hpin in Hvin. rewrite Hnv, String.eqb_refl in Hvin. apply String.eqb_eq, Hvin.
  - intros b Hbin%list_elem_of_In Hop Hvoid. apply Hb in Hbin. rewrite Hop, String.eqb_refl, (proj2 (String.eqb_neq _ _) Hvoid) in Hbin.
    cbn [negb orb] in Hbin. rewrite !andb_true_iff, negb_true_iff in Hbin. destruct Hbin as [[H1 H2] H3].
    split; [apply String.eqb_neq, H1|]. split; [apply String.eqb_eq, H2 | apply typedRead_test, H3].
  - intros i Hiin%list_elem_of_In Hop Hvoid. apply Hi, andb_true_iff in Hiin as [Hiin _].
    rewrite Hop, String.eqb_refl, (proj2 (String.eqb_neq _ _) Hvoid) in Hiin. apply negb_true_iff, String.eqb_neq in Hiin. exact Hiin.
  - intros i Hiin%list_elem_of_In Hop. apply Hi, andb_true_iff in Hiin as [_ Hiin]. rewrite bool_decide_eq_true_2 in Hiin by exact Hop.
    cbn [negb orb] in Hiin. rewrite !andb_true_iff, forallb_forall in Hiin. destruct Hiin as [[H1 H2] H3].
    split; [eapply bool_decide_eq_true, H1|]. split; [eapply bool_decide_eq_true, H2|]. apply Forall_forall.
    intros a Ha%list_elem_of_In. apply String.eqb_eq, H3, Ha.
Qed.

(** One tail call is returned as it is, one is added to [n - 3], and a call that
    is not a tail call makes the argument of that one. *)
Definition sample_loop : Function :=
  let v x := mkValue x "i64" in let c x := mkValue x "bool" in
  mkFunction "f" [mkParam "%n" "i64" PassValue; mkParam "%d" "i64" PassValue] "i64"
    [mkBlock "entry" [instr (c "%c") "binary.<" [v "%n"; v "1"] ""] (branch (c "%c") "done" "more");
     mkBlock "done" [instr (mkValue "" "void") "call.log" [v "%d"] ""] (ret (v "%d"));
     mkBlock "more" [instr (v "%m") "binary.-" [v "%n"; v "1"] ""; instr (c "%b") "binary.<" [v "%m"; v "1"] ""]
       (branch (c "%b") "plain" "acc");
     mkBlock "plain" [instr (v "%e") "binary.+" [v "%d"; v "10"] ""; instr (v "%r") "call.f" [v "%m"; v "%e"] ""] (ret (v "%r"));
     mkBlock "acc" [instr (v "%q") "call.f" [v "0"; v "2"] ""; instr (v "%s") "call.f" [v "%m"; v "%q"] "";
                    instr (v "%t") "binary.-" [v "%n"; v "3"] ""; instr (v "%p") "binary.+" [v "%s"; v "%t"] ""] (ret (v "%p"))] "" "".

Lemma sample_loop_sound : sound (mkModule ∅ ∅ ∅ ∅ [sample_loop] ∅) ∅ sample_loop.
Proof.
  split; [apply verifyFunction_spec; vm_compute; reflexivity | | apply (bool_decide_unpack _); vm_compute; exact I |
      apply (bool_decide_unpack _); vm_compute; exact I].
  split; [apply (bool_decide_unpack _); vm_compute; exact I|].
  intros i Hi Hop. cbn in Hi. repeat (apply elem_of_cons in Hi as [->|Hi]; [discriminate|]). inversion Hi.
Qed.

Lemma sample_loop_machine : loopMachine sizedMachine sample_loop.
Proof.
  split.
  - intros v Hv. cbn [literal sizedMachine]. destruct (width (vType v)); [|reflexivity]. cbn [mbind option_bind].
    assert (Hn : vName v ∈ "" :: computedNames sample_loop) by (apply elem_of_cons; exact Hv).
    replace (ParseInt (vName v)) with (@None Z); [reflexivity|]. revert Hn. generalize (vName v). clear. intros x Hx.
    vm_compute in Hx. repeat (apply elem_of_cons in Hx as [->|Hx]; [reflexivity|]). inversion Hx.
  - intros b site i Hb Hs Hi. cbn in Hb. repeat (apply elem_of_cons in Hb as [->|Hb]; [vm_compute in Hs; try discriminate|]); [..|inversion Hb];
      injection Hs as <-; vm_compute in Hi; [inversion Hi|]. apply list_elem_of_singleton in Hi as ->. split; [discriminate|].
    intros [|x [|y [|]]] Hlen; try discriminate. eexists. intros m. reflexivity.
  - intros b site i v Hb Hs Hi Hv. cbn in Hb. repeat (apply elem_of_cons in Hb as [->|Hb]; [vm_compute in Hs; try discriminate|]); [..|inversion Hb];
      injection Hs as <-; vm_compute in Hi; [inversion Hi|].
    repeat (apply elem_of_cons in Hi as [->|Hi]; [vm_compute in Hv; repeat (apply elem_of_cons in Hv as [->|Hv]);
      [..|inversion Hv]; (left; vm_compute; repeat (left || right); fail) || (right; eexists; reflexivity)|]). inversion Hi.
Qed.

Lemma tail_recursion_preserves_witness :
  exists fn', eliminateTailRecursionIn sample_loop = Some fn' /\
    map (fun b => (bName b, map iOp (bInstrs b), tTarget (bTerminator b))) (fBlocks fn') =
      [("tre.entry", ["const"], "entry"); ("entry", ["phi"; "phi"; "phi"; "binary.<"], "done"); ("done", ["call.log"; "binary.+"], "");
       ("more", ["binary.-"; "binary.<"], "plain"); ("plain", ["binary.+"], "entry");
       ("acc", ["call.f"; "binary.-"; "binary.+"], "entry")] /\
    exists N, forall k, N <= k -> runs sizedMachine k fn' [3%Z; 5%Z] (0%Z, []) = Returned (Some 11%Z) (0%Z, [2%Z; 2%Z; 12%Z]).
Proof.
  destruct (tail_recursion_preserves sizedMachine (mkModule ∅ ∅ ∅ ∅ [sample_loop] ∅) ∅ sample_loop sample_loop_sound) as (fn' & H & Hruns).
  - apply loopableb_true; [| apply (bool_decide_unpack _); vm_compute; exact I | vm_compute; reflexivity].
    exact (sound_once _ _ _ sample_loop_sound).
  - exact sample_loop_machine.
  - exists fn'. split; [exact H|]. split; [vm_compute in H; injection H as <-; reflexivity|].
    destruct (Hruns 5 [3%Z; 5%Z] (0%Z, []) eq_refl) as [N HN]; [vm_compute; exact I|]. exists N. intros k Hk.
    rewrite (HN k Hk). vm_compute. reflexivity.
Defined.

(** ** What the pass does change *)

(** [count n] is the cell when [n < 1] has set it to 7, else [count (n - 1)]
    plus the cell as it is then.  The load stands after the call. *)
Definition sample_count : Function :=
  let v x := mkValue x "i64" in let c := mkValue "%c" "bool" in
  mkFunction "count" [mkParam "%n" "i64" PassValue] "i64"
    [mkBlock "entry" [instr c "binary.<" [v "%n"; v "1"] ""] (branch c "then" "else");
     mkBlock "then" [instr (mkValue "" "void") "call.set" [v "7"] ""] (ret (v "0"));
     mkBlock "else" [instr (v "%m") "binary.-" [v "%n"; v "1"] ""; instr (v "%r") "call.count" [v "%m"] "";
                     instr (v "%x") "ref.load" [mkValue "8" "i64"] ""; instr (v "%s") "binary.+" [v "%r"; v "%x"] ""]
       (ret (v "%s"))] "" "".

(** The pass moves the load before the call: [isPureOp] says of it that it
    writes nothing, not that it reads nothing, so that [count 1] is no longer 7. *)
Example load_moves_before_call :
  runs sizedMachine 5 sample_count [1%Z] (0%Z, []) = Returned (Some 7%Z) (7%Z, []) /\
  exists fn', eliminateTailRecursionIn sample_count = Some fn' /\
    map (fun b => map iOp (bInstrs b)) (fBlocks fn') =
      [["const"]; ["phi"; "phi"; "binary.<"]; ["call.set"; "binary.+"]; ["binary.-"; "ref.load"; "binary.+"]] /\
    runs sizedMachine 5 fn' [1%Z] (0%Z, []) = Returned (Some 0%Z) (7%Z, []).
Proof.
  split; [vm_compute; reflexivity|]. eexists. split; [vm_compute; reflexivity|]. split; vm_compute; reflexivity.
Qed.
