(* ===== verification/Token.v ===== *)
(** * Tokens ([internal/token/token.go])

    A token type is the string the compiler gives it.  Text is a list of
    runes, as the lexer reads its input. *)

From stdpp Require Import base list strings gmap.
From Stdlib Require Import ZArith Lia String Ascii.
From S2P Require Import Prelude.

#[local] Open Scope string_scope.

(** Unicode code points. *)
Abbreviation rune := Z.
Abbreviation text := (list Z).

(** The runes of an ASCII spelling. *)
Fixpoint runes (s : string) : text :=
  match s with
  | EmptyString => []
  | String c rest => Z.of_nat (nat_of_ascii c) :: runes rest
  end.

Abbreviation TokenType := string.

Definition Illegal : TokenType := "ILLEGAL".
Definition EOF_ : TokenType := "EOF".
Definition Ident : TokenType := "IDENT".
Definition Int : TokenType := "INT".
Definition Float : TokenType := "FLOAT".
Definition String_ : TokenType := "STRING".
Definition CString : TokenType := "CSTRING".
Definition Assign : TokenType := "=".
Definition Plus : TokenType := "+".
Definition Minus : TokenType := "-".
Definition Bang : TokenType := "!".
Definition Question : TokenType := "?".
Definition Amp : TokenType := "&".
Definition Asterisk : TokenType := "*".
Definition Slash : TokenType := "/".
Definition Percent : TokenType := "%".
Definition Caret : TokenType := "^".
Definition Tilde : TokenType := "~".
Definition At : TokenType := "@".
Definition Eq_ : TokenType := "==".
Definition FatArrow : TokenType := "=>".
Definition NotEq : TokenType := "!=".
Definition LT_ : TokenType := "<".
Definition LTE : TokenType := "<=".
Definition GT_ : TokenType := ">".
Definition GTE : TokenType := ">=".
Definition Arrow : TokenType := "->".
Definition Dot : TokenType := ".".
Definition Range : TokenType := "..".
Definition Ellipsis : TokenType := "...".
Definition DoubleColon : TokenType := "::".
Definition Comma : TokenType := ",".
Definition Colon : TokenType := ":".
Definition Semicolon : TokenType := ";".
Definition Pipe : TokenType := "|".
Definition LParen : TokenType := "(".
Definition RParen : TokenType := ")".
Definition LBrace : TokenType := "{".
Definition RBrace : TokenType := "}".
Definition LBracket : TokenType := "[".
Definition RBracket : TokenType := "]".
Definition FunctionTok : TokenType := "fn".
Definition Import_ : TokenType := "import".
Definition Public : TokenType := "pub".
Definition Let_ : TokenType := "let".
Definition Var : TokenType := "var".
Definition Return_ : TokenType := "return".
Definition Defer : TokenType := "defer".
Definition ErrDefer : TokenType := "errdefer".
Definition If_ : TokenType := "if".
Definition Else_ : TokenType := "else".
Definition While : TokenType := "while".
Definition Break : TokenType := "break".
Definition Continue : TokenType := "continue".
Definition Match_ : TokenType := "match".
Definition StructTok : TokenType := "struct".
Definition EnumTok : TokenType := "enum".
Definition UnionTok : TokenType := "union".
Definition Contract : TokenType := "contract".
Definition For_ : TokenType := "for".
Definition Impl : TokenType := "impl".
Definition True_ : TokenType := "true".
Definition False_ : TokenType := "false".
Definition And_ : TokenType := "and".
Definition Or_ : TokenType := "or".
Definition Mut : TokenType := "mut".
Definition Unsafe : TokenType := "unsafe".
Definition Extern_ : TokenType := "extern".
Definition Export_ : TokenType := "export".
Definition Comptime : TokenType := "comptime".
Definition Try : TokenType := "try".
Definition Move : TokenType := "move".
Definition Null : TokenType := "null".
Definition Orelse : TokenType := "orelse".
Definition Catch : TokenType := "catch".

(** [Token], without the source handle every token of one lexer shares. *)
Record Token : Type := mkToken {
  tokType : TokenType;
  tokLiteral : text;
  tokLine : Z;
  tokColumn : Z;
  tokDocComments : list text;
  tokSafety : list text
}.

(** [keywords]: each keyword is spelled as its token type. *)
Definition keywords : list TokenType :=
  [FunctionTok; Import_; Public; Let_; Var; Return_; Defer; ErrDefer; If_;
   Else_; While; Break; Continue; Match_; StructTok; EnumTok; UnionTok; Contract;
   For_; Impl; True_; False_; And_; Or_; Mut; Unsafe; Extern_;
   Export_; Comptime; Try; Move; Null; Orelse; Catch].

(** [LookupIdent] *)
Definition LookupIdent (ident : text) : TokenType :=
  match List.find (fun k => bool_decide (runes k = ident)) keywords with
  | Some k => k
  | None => Ident
  end.
