(* ===== verification/Lexer.v ===== *)
(** * The lexer ([internal/lexer/lexer.go])

    The lexer's state with its fields; every method returns the next state.
    A loop that reads characters is bounded by what is left of the input, and
    [LexerFacts] shows that no loop is ended by its bound. *)

From stdpp Require Import base list strings gmap.
From Stdlib Require Import ZArith Lia String.
From S2P Require Import Prelude Token.

#[local] Open Scope string_scope.
#[local] Open Scope Z_scope.
#[local] Open Scope list_scope.

(** [Lexer] without its input and source handle, which never change. *)
Record Lexer : Type := mkLexer {
  position : nat;
  readPosition : nat;
  ch : rune;
  line : Z;
  column : Z;
  pendingDoc : list text;
  pendingSafety : list text
}.

Definition set_pending (doc safety : list text) (l : Lexer) : Lexer :=
  mkLexer (position l) (readPosition l) (ch l) (line l) (column l) doc safety.

(** Runes the code names. *)
Definition r (s : string) : rune := match runes s with [c] => c | _ => 0 end.

Definition NL : rune := 10.
Definition CR : rune := 13.
Definition TAB : rune := 9.
Definition SPACE : rune := 32.
Definition QUOTE : rune := 34.
Definition BACKSLASH : rune := 92.

(** [singleCharTokens] *)
Definition singleCharTokens (c : rune) : option TokenType :=
  List.find (fun t => bool_decide (runes t = [c]))
    [Plus; Slash; Amp; Asterisk; Percent; Caret; Tilde; At; Question; Pipe; Comma; Colon; Semicolon;
     LParen; RParen; LBrace; RBrace; LBracket; RBracket].

Record compoundToken : Type := mkCompound { next : rune; compound : TokenType; single : TokenType }.

(** [compoundTokens] *)
Definition compoundTokens (c : rune) : option compoundToken :=
  if c =? r "=" then Some (mkCompound (r "=") Eq_ Assign)
  else if c =? r "-" then Some (mkCompound (r ">") Arrow Minus)
  else if c =? r "!" then Some (mkCompound (r "=") NotEq Bang)
  else if c =? r "<" then Some (mkCompound (r "=") LTE LT_)
  else if c =? r ">" then Some (mkCompound (r "=") GTE GT_)
  else if c =? r "." then Some (mkCompound (r ".") Range Dot)
  else if c =? r ":" then Some (mkCompound (r ":") DoubleColon Colon)
  else None.

Definition isLetter (c : rune) : bool :=
  (97 <=? c) && (c <=? 122) || (65 <=? c) && (c <=? 90) || (c =? 95).

Definition isDigit (c : rune) : bool := (48 <=? c) && (c <=? 57).

Definition isHexDigit (c : rune) : bool :=
  isDigit c || (97 <=? c) && (c <=? 102) || (65 <=? c) && (c <=? 70).

(** [unicode.IsSpace], which [strings.TrimSpace] trims. *)
Definition isSpaceRune (c : rune) : bool :=
  (9 <=? c) && (c <=? 13) || (c =? 32) || (c =? 133) || (c =? 160) || (c =? 5760) ||
  (8192 <=? c) && (c <=? 8202) || (c =? 8232) || (c =? 8233) || (c =? 8239) || (c =? 8287) || (c =? 12288).

Fixpoint trimSpaceLeft (t : text) : text :=
  match t with
  | c :: rest => if isSpaceRune c then trimSpaceLeft rest else t
  | [] => []
  end.

Definition trimSpace (t : text) : text := reverse (trimSpaceLeft (reverse (trimSpaceLeft t))).

Section Scan.
Context (input : text).

(** [readChar] *)
Definition readChar (l : Lexer) : Lexer :=
  let c := default 0 (input !! readPosition l) in
  mkLexer (readPosition l) (S (readPosition l)) c
    (if c =? NL then line l + 1 else line l)
    (if c =? NL then 0 else column l + 1)
    (pendingDoc l) (pendingSafety l).

(** [NewSource] *)
Definition NewSource : Lexer := readChar (mkLexer 0 0 0 1 0 [] []).

(** [peekChar] *)
Definition peekChar (l : Lexer) : rune := default 0 (input !! readPosition l).

(** [peekRune], for the offsets that are not negative. *)
Definition peekRune (l : Lexer) (offset : nat) : rune := default 0 (input !! (position l + offset)%nat).

(** [string(l.input[start:end])] *)
Definition slice (from to : nat) : text := take (to - from) (drop from input).

(** Characters a loop can still read. *)
Definition remaining (l : Lexer) : nat := (S (List.length input) - position l)%nat.

(** [for p(l.ch) { l.readChar() }] *)
Fixpoint readWhileFuel (fuel : nat) (p : rune -> bool) (l : Lexer) : Lexer :=
  match fuel with
  | O => l
  | S fuel => if p (ch l) then readWhileFuel fuel p (readChar l) else l
  end.

Definition readWhile (p : rune -> bool) (l : Lexer) : Lexer := readWhileFuel (remaining l) p l.

Fixpoint readChars (n : nat) (l : Lexer) : Lexer :=
  match n with
  | O => l
  | S n => readChars n (readChar l)
  end.

(** *** Whitespace and comments *)

Definition isBlank (c : rune) : bool := (c =? SPACE) || (c =? TAB) || (c =? NL) || (c =? CR).

(** [skipWhitespace]: the newlines it passed. *)
Fixpoint skipWhitespaceFuel (fuel : nat) (newlines : Z) (l : Lexer) : Z * Lexer :=
  match fuel with
  | O => (newlines, l)
  | S fuel =>
      if isBlank (ch l)
      then skipWhitespaceFuel fuel (if ch l =? NL then newlines + 1 else newlines) (readChar l)
      else (newlines, l)
  end.

Definition skipWhitespace (l : Lexer) : bool * Lexer :=
  let (newlines, l) := skipWhitespaceFuel (remaining l) 0 l in
  (1 <? newlines, l).

Definition inLine (c : rune) : bool := negb (c =? NL) && negb (c =? 0).

(** [skipLineComment] *)
Definition skipLineComment (l : Lexer) : Lexer := readWhile inLine l.

(** [isDocCommentStart] *)
Definition isDocCommentStart (l : Lexer) : bool :=
  (peekRune l 2 =? r "/") && negb (peekRune l 3 =? r "/").

(** [readDocComment] *)
Definition readDocComment (l : Lexer) : text * Lexer :=
  let l := readChars 3 l in
  let l := if ch l =? SPACE then readChar l else l in
  let start := position l in
  let l := readWhile inLine l in
  let end_ := position l in
  let end_ := if (start <? end_)%nat && (default 0 (input !! pred end_) =? CR) then pred end_ else end_ in
  (slice start end_, l).

Definition safetyPrefix : text := runes "SAFETY:".

(** The first loop of [readSafetyComment]: the offset past blanks. *)
Fixpoint blanksFrom (fuel : nat) (l : Lexer) (offset : nat) : nat :=
  match fuel with
  | O => offset
  | S fuel =>
      if (peekRune l offset =? SPACE) || (peekRune l offset =? TAB)
      then blanksFrom fuel l (S offset) else offset
  end.

(** [readSafetyComment] *)
Definition readSafetyComment (l : Lexer) : option (text * Lexer) :=
  let offset := blanksFrom (remaining l) l 2 in
  if forallb (fun entry : nat * rune => peekRune l (offset + entry.1) =? entry.2)
       (imap (fun i want => (i, want)) safetyPrefix)
  then
    let l := readChars (offset + List.length safetyPrefix) l in
    let start := position l in
    let l := skipLineComment l in
    Some (trimSpace (slice start (position l)), l)
  else None.

(** [skipIgnored] *)
Fixpoint skipIgnoredFuel (fuel : nat) (l : Lexer) : Lexer :=
  let (blank, l) := skipWhitespace l in
  let l := if blank : bool then set_pending [] [] l else l in
  if negb (ch l =? r "/") || negb (peekChar l =? r "/") then l
  else match fuel with
  | O => l
  | S fuel =>
      if isDocCommentStart l then
        let (doc, l) := readDocComment l in
        skipIgnoredFuel fuel (set_pending (pendingDoc l ++ [doc]) (pendingSafety l) l)
      else match readSafetyComment l with
      | Some (safety, l) =>
          skipIgnoredFuel fuel (set_pending (pendingDoc l) (pendingSafety l ++ [safety]) l)
      | None => skipIgnoredFuel fuel (skipLineComment (set_pending [] [] l))
      end
  end.

Definition skipIgnored (l : Lexer) : Lexer := skipIgnoredFuel (remaining l) l.

(** *** Tokens *)

(** [oneCharToken] *)
Definition oneCharToken (l : Lexer) (t : TokenType) : Token :=
  mkToken t [ch l] (line l) (column l) [] [].

(** [twoCharToken] *)
Definition twoCharToken (l : Lexer) (t : TokenType) : Token * Lexer :=
  let l' := readChar l in
  (mkToken t [ch l; ch l'] (line l) (column l) [] [], l').

(** [readCompoundToken] *)
Definition readCompoundToken (l : Lexer) (spec : compoundToken) : Token * Lexer :=
  if peekChar l =? next spec then twoCharToken l (compound spec)
  else (oneCharToken l (single spec), l).

(** [readDotToken] *)
Definition readDotToken (l : Lexer) : Token * Lexer :=
  if negb (peekChar l =? r ".") || negb (peekRune l 2 =? r ".")
  then readCompoundToken l (default (mkCompound 0 "" "") (compoundTokens (ch l)))
  else (mkToken Ellipsis (runes Ellipsis) (line l) (column l) [] [], readChar (readChar l)).

(** [readIdentifier] *)
Definition readIdentifier (l : Lexer) : text * Lexer :=
  let l' := readWhile (fun c => isLetter c || isDigit c) l in
  (slice (position l) (position l'), l').

(** [readDigits] *)
Definition readDigits (l : Lexer) : Lexer := readWhile (fun c => isDigit c || (c =? r "_")) l.

(** [readFraction] *)
Definition readFraction (l : Lexer) : bool * Lexer :=
  if negb (ch l =? r ".") || negb (isDigit (peekChar l)) then (false, l)
  else (true, readDigits (readChar l)).

(** [readExponent] *)
Definition readExponent (l : Lexer) : bool * Lexer :=
  if negb (ch l =? r "e") && negb (ch l =? r "E") then (false, l)
  else
    let next := peekChar l in
    if negb (isDigit next) && negb (next =? r "+") && negb (next =? r "-") then (false, l)
    else
      let l := readChar l in
      let l := if (ch l =? r "+") || (ch l =? r "-") then readChar l else l in
      (true, readWhile isDigit l).

(** [readNumber] *)
Definition readNumber (l : Lexer) : text * TokenType * Lexer :=
  if (ch l =? r "0") && ((peekChar l =? r "x") || (peekChar l =? r "b")) then
    let l' := readWhile (fun c => isHexDigit c || (c =? r "_")) (readChar (readChar l)) in
    (slice (position l) (position l'), Int, l')
  else
    let l' := readDigits l in
    let (fraction, l') := readFraction l' in
    let (exponent, l') := readExponent l' in
    (slice (position l) (position l'), if fraction || exponent then Float else Int, l').

Definition inString (c : rune) : bool := negb (c =? QUOTE) && negb (c =? 0).

(** [readString] *)
Definition readString (l : Lexer) : text * Lexer :=
  let l := readChar l in
  let start := position l in
  let l := readWhile inString l in
  let out := slice start (position l) in
  (out, if ch l =? QUOTE then readChar l else l).

(** The scan of [peekMultilineContinuation]: where the next [\\] starts. *)
Fixpoint continuationAt (rest : text) (pos : nat) : option nat :=
  match rest with
  | c :: rest' =>
      if (c =? SPACE) || (c =? TAB) || (c =? CR) then continuationAt rest' (S pos)
      else if (c =? BACKSLASH) && bool_decide (head rest' = Some BACKSLASH) then Some pos
      else None
  | [] => None
  end.

(** [peekMultilineContinuation]: [for l.readPosition <= pos { l.readChar() }] *)
Definition peekMultilineContinuation (l : Lexer) : option Lexer :=
  if negb (ch l =? NL) then None
  else match continuationAt (drop (readPosition l) input) (readPosition l) with
  | Some pos => Some (readChars (S pos - readPosition l) l)
  | None => None
  end.

(** [readMultilineString]: [out] joined by newlines. *)
Fixpoint readMultilineFuel (fuel : nat) (first : bool) (out : text) (l : Lexer) : text * Lexer :=
  let l := readChars 2 l in
  let start := position l in
  let l := readWhile inLine l in
  let out := (if first then out else out ++ [NL]) ++ slice start (position l) in
  match peekMultilineContinuation l with
  | Some l' => match fuel with O => (out, l) | S fuel => readMultilineFuel fuel false out l' end
  | None => (out, l)
  end.

Definition readMultilineString (l : Lexer) : text * Lexer := readMultilineFuel (remaining l) true [] l.

(** A token read by a method that stops past its last rune. *)
Definition literalToken (l : Lexer) (t : TokenType) (literal : text) : Token :=
  mkToken t literal (line l) (column l) [] [].

(** The [default] case of [scanToken]; the flag tells whether the final
    [readChar] is still to come. *)
Definition scanOther (l : Lexer) : Token * Lexer * bool :=
  match compoundTokens (ch l) with
  | Some spec => (readCompoundToken l spec, true)
  | None =>
      match singleCharTokens (ch l) with
      | Some t => (oneCharToken l t, l, true)
      | None =>
          if (ch l =? r "c") && (peekChar l =? QUOTE) then
            let (s, l') := readString (readChar l) in (literalToken l CString s, l', false)
          else if isLetter (ch l) then
            let (name, l') := readIdentifier l in (literalToken l (LookupIdent name) name, l', false)
          else if isDigit (ch l) then
            let '(number, kind, l') := readNumber l in (literalToken l kind number, l', false)
          else (oneCharToken l Illegal, l, true)
      end
  end.

(** [scanToken] *)
Definition scanTokenStep (l : Lexer) : Token * Lexer * bool :=
  if ch l =? r "=" then
    if peekChar l =? r ">" then (twoCharToken l FatArrow, true)
    else (readCompoundToken l (default (mkCompound 0 "" "") (compoundTokens (ch l))), true)
  else if ch l =? r "." then (readDotToken l, true)
  else if ch l =? QUOTE then
    let (s, l') := readString l in (literalToken l String_ s, l', false)
  else if ch l =? BACKSLASH then
    if peekChar l =? BACKSLASH then
      let (s, l') := readMultilineString l in (literalToken l String_ s, l', false)
    else (oneCharToken l Illegal, l, true)
  else if ch l =? 0 then (literalToken l EOF_ [], l, true)
  else scanOther l.

Definition scanToken (l : Lexer) : Token * Lexer :=
  let '(tok, l, more) := scanTokenStep l in
  (tok, if more : bool then readChar l else l).

(** [NextToken] *)
Definition NextToken (l : Lexer) : Token * Lexer :=
  let l := skipIgnored l in
  let doc := pendingDoc l in
  let safety := pendingSafety l in
  let (tok, l) := scanToken (set_pending [] [] l) in
  (mkToken (tokType tok) (tokLiteral tok) (tokLine tok) (tokColumn tok) doc safety, l).

(** The tokens up to and with the first [EOF], as a parser asks for them. *)
Fixpoint tokensFuel (fuel : nat) (l : Lexer) : option (list Token) :=
  match fuel with
  | O => None
  | S fuel =>
      let (tok, l) := NextToken l in
      if String.eqb (tokType tok) EOF_ then Some [tok]
      else match tokensFuel fuel l with
      | Some rest => Some (tok :: rest)
      | None => None
      end
  end.

Definition tokens : option (list Token) := tokensFuel (S (List.length input)) NewSource.
End Scan.

Example tokens_sample :
  option_map (map (fun t => (tokType t, tokLine t, tokColumn t)))
    (tokens (runes "// SAFETY: ok
fn f(a..1.5e3)")) =
  Some [("fn", 2, 1); ("IDENT", 2, 4); ("(", 2, 5); ("IDENT", 2, 6); ("..", 2, 7); ("FLOAT", 2, 9); (")", 2, 14); ("EOF", 2, 15)].
Proof. vm_compute. reflexivity. Qed.
