(* ===== verification/LexerFacts.v ===== *)
(** * The lexer's loops ([internal/lexer/lexer.go])

    Where the lexer is, what each loop reads, that no loop is ended by the
    bound of the model, and that the tokens, with their texts, tile the source. *)

From stdpp Require Import base list strings gmap.
From Stdlib Require Import ZArith Lia String.
From S2P Require Import Prelude Token Lexer.

#[local] Open Scope string_scope.
#[local] Open Scope Z_scope.
#[local] Open Scope list_scope.

Section Facts.
Context (input : text).

Abbreviation len := (List.length input).

(** The rune at a position; past the end the lexer reads 0. *)
Definition runeAt (p : nat) : rune := default 0 (input !! p).

(** Newlines at or before a position. *)
Definition newlinesTo (p : nat) : Z := Z.of_nat (List.length (filter (fun c => c = NL) (take (S p) input))).

(** The last newline at or before a position, -1 when there is none. *)
Fixpoint lastNewline (p : nat) : Z :=
  if runeAt p =? NL then Z.of_nat p
  else match p with
  | O => -1
  | S p => lastNewline p
  end.

(** Line and column of a position, both counted from 1. *)
Definition lineAt (p : nat) : Z := 1 + newlinesTo p.
Definition columnAt (p : nat) : Z := Z.of_nat p - lastNewline p.

(** The lexer's fields say where it is. *)
Record located (l : Lexer) : Prop := mkLocated {
  loc_read : readPosition l = S (position l);
  loc_ch : ch l = runeAt (position l);
  loc_line : line l = lineAt (position l);
  loc_column : column l = columnAt (position l)
}.

Lemma runeAt_end p : (len <= p)%nat -> runeAt p = 0.
Proof. intros H. unfold runeAt. rewrite lookup_ge_None_2 by exact H. reflexivity. Qed.

Lemma runeAt_lt p : runeAt p <> 0 -> (p < len)%nat.
Proof. intros H. destruct (decide (p < len)%nat); [assumption|]. rewrite runeAt_end in H by lia. congruence. Qed.

Lemma newlinesTo_S p : newlinesTo (S p) = newlinesTo p + (if runeAt (S p) =? NL then 1 else 0).
Proof.
  unfold newlinesTo, runeAt. destruct (input !! S p) as [c|] eqn:Hc; cbn [default].
  - rewrite (take_S_r _ _ _ Hc), filter_app, length_app, filter_cons, filter_nil.
    cbn [from_option id]. destruct (Z.eqb_spec c NL) as [->|Hne]; case_decide; try contradiction; cbn [List.length]; lia.
  - rewrite (take_ge input (S (S p))), (take_ge input (S p)); [cbn; lia | |];
      apply lookup_ge_None in Hc; lia.
Qed.

Lemma located_readChar l : located l -> located (readChar input l).
Proof.
  intros [Hr Hc Hl Hk]. unfold readChar. rewrite Hr.
  change (default 0 (input !! S (position l))) with (runeAt (S (position l))). split; cbn [readPosition position ch line column].
  - reflexivity.
  - reflexivity.
  - rewrite Hl. unfold lineAt. rewrite newlinesTo_S. destruct (runeAt (S (position l)) =? NL); lia.
  - rewrite Hk. unfold columnAt. cbn [lastNewline]. destruct (runeAt (S (position l)) =? NL); lia.
Qed.

Lemma located_start : located (NewSource input).
Proof.
  unfold NewSource, readChar. cbn [readPosition line column pendingDoc pendingSafety].
  change (default 0 (input !! 0%nat)) with (runeAt 0). split; cbn [readPosition position ch line column]; auto.
  - unfold lineAt, newlinesTo, runeAt. destruct input as [|c rest]; [reflexivity|]. cbn [take lookup list_lookup default].
    rewrite take_0, filter_cons, filter_nil. cbn [from_option id].
    destruct (Z.eqb_spec c NL) as [->|Hne]; case_decide; try contradiction; reflexivity.
  - unfold columnAt. cbn [lastNewline]. destruct (runeAt 0 =? NL); reflexivity.
Qed.

Lemma position_readChar l : located l -> position (readChar input l) = S (position l).
Proof. intros H. unfold readChar. cbn [position]. apply loc_read, H. Qed.

Lemma located_pending doc safety l : located l -> located (set_pending doc safety l).
Proof. intros [H1 H2 H3 H4]. split; assumption. Qed.

Lemma peekChar_at l : located l -> peekChar input l = runeAt (S (position l)).
Proof. intros H. unfold peekChar. rewrite (loc_read _ H). reflexivity. Qed.

Lemma peekRune_at l k : peekRune input l k = runeAt (position l + k).
Proof. reflexivity. Qed.

Lemma set_pending_same l : pendingDoc l = [] -> pendingSafety l = [] -> set_pending [] [] l = l.
Proof. destruct l. cbn. intros -> ->. reflexivity. Qed.

(** The lexer moved forward from [l] to [l'], staying inside the input, with
    the same comments kept. *)
Record advanced (l l' : Lexer) : Prop := mkAdvanced {
  adv_located : located l';
  adv_from : (position l <= position l')%nat;
  adv_end : (position l' <= len)%nat;
  adv_doc : pendingDoc l' = pendingDoc l;
  adv_safety : pendingSafety l' = pendingSafety l
}.

Lemma advanced_refl l : located l -> (position l <= len)%nat -> advanced l l.
Proof. intros H Hl. split; auto. Qed.

Lemma advanced_trans l l1 l2 : advanced l l1 -> advanced l1 l2 -> advanced l l2.
Proof. intros [H1 H2 H3 H4 H5] [G1 G2 G3 G4 G5]. split; [exact G1 | lia | exact G3 | congruence | congruence]. Qed.

Lemma advanced_readChar l : located l -> (position l < len)%nat -> advanced l (readChar input l).
Proof.
  intros H Hl. split; [apply located_readChar, H | rewrite position_readChar by exact H; lia |
    rewrite position_readChar by exact H; lia | reflexivity | reflexivity].
Qed.

Lemma advanced_here l : located l -> ch l <> 0 -> advanced l (readChar input l).
Proof. intros H Hc. apply advanced_readChar; [exact H|]. apply runeAt_lt. rewrite <- (loc_ch _ H). exact Hc. Qed.

(** What a character loop reads: the longest run of runes of its class. *)
Definition runOf (p : rune -> bool) (l l' : Lexer) : Prop :=
  p (ch l') = false /\ forall q, (position l <= q < position l')%nat -> p (runeAt q) = true.

Lemma readWhileFuel_spec p fuel l :
  p 0 = false -> located l -> (position l <= len)%nat -> (len - position l < fuel)%nat ->
  advanced l (readWhileFuel input fuel p l) /\ runOf p l (readWhileFuel input fuel p l).
Proof.
  intros Hp. revert l. induction fuel as [|fuel IH]; intros l Hl Hend Hf; [lia|]. cbn [readWhileFuel].
  destruct (p (ch l)) eqn:Hch.
  - assert (Hlt : (position l < len)%nat).
    { apply runeAt_lt. rewrite <- (loc_ch _ Hl). intros E. congruence. }
    pose proof (advanced_readChar l Hl Hlt) as Ha. pose proof (position_readChar l Hl) as Hpos.
    destruct (IH (readChar input l)) as [Hb [Hstop Hrun]]; [apply Ha | apply Ha | lia |].
    split; [eapply advanced_trans; eassumption|]. split; [exact Hstop|].
    intros q Hq. destruct (decide (q = position l)) as [->|Hne]; [rewrite <- (loc_ch _ Hl); exact Hch|].
    apply Hrun. lia.
  - split; [apply advanced_refl; assumption|]. split; [exact Hch | intros q Hq; lia].
Qed.

Lemma readWhile_spec p l :
  p 0 = false -> located l -> (position l <= len)%nat ->
  advanced l (readWhile input p l) /\ runOf p l (readWhile input p l).
Proof. intros Hp Hl Hend. apply readWhileFuel_spec; auto. unfold remaining. lia. Qed.

Lemma readChars_spec n l :
  located l -> (position l + n <= len)%nat ->
  advanced l (readChars input n l) /\ position (readChars input n l) = (position l + n)%nat.
Proof.
  revert l. induction n as [|n IH]; intros l Hl Hn; cbn [readChars].
  { split; [apply advanced_refl; [exact Hl | lia] | lia]. }
  pose proof (position_readChar l Hl) as Hpos. pose proof (advanced_readChar l Hl ltac:(lia)) as Ha.
  destruct (IH (readChar input l)) as [Hb Hp]; [apply Ha | lia|].
  split; [eapply advanced_trans; eassumption | lia].
Qed.

(** ** Whitespace *)

Lemma skipWhitespaceFuel_state fuel newlines l :
  snd (skipWhitespaceFuel input fuel newlines l) = readWhileFuel input fuel isBlank l.
Proof.
  revert newlines l. induction fuel as [|fuel IH]; intros newlines l; [reflexivity|].
  cbn [skipWhitespaceFuel readWhileFuel]. destruct (isBlank (ch l)); [apply IH | reflexivity].
Qed.

Lemma skipWhitespace_spec l :
  located l -> (position l <= len)%nat ->
  advanced l (snd (skipWhitespace input l)) /\ runOf isBlank l (snd (skipWhitespace input l)).
Proof.
  intros Hl Hend. unfold skipWhitespace.
  pose proof (skipWhitespaceFuel_state (remaining input l) 0 l) as E.
  destruct (skipWhitespaceFuel input (remaining input l) 0 l) as [n l']. cbn [snd] in *. rewrite E.
  apply readWhile_spec; auto.
Qed.

(** ** Comments *)

Lemma r_slash : r "/" = 47. Proof. reflexivity. Qed.

(** At a [//] two runes are left. *)
Lemma comment_room l :
  located l -> ch l = r "/" -> peekChar input l = r "/" -> (position l + 2 <= len)%nat.
Proof.
  intros Hl H1 H2. rewrite (peekChar_at l Hl) in H2.
  assert ((S (position l) < len)%nat) by (apply runeAt_lt; rewrite H2; discriminate). lia.
Qed.

(** A comment reader passes two slashes and then what is left of the line. *)
Definition readsComment (l l' : Lexer) : Prop :=
  located l' /\ (position l + 2 <= position l' <= len)%nat /\ inLine (ch l') = false /\
  forall q, (position l <= q < position l')%nat -> inLine (runeAt q) = true.

Lemma inLine_nonzero c : inLine c = true -> c <> 0.
Proof. intros H ->. discriminate H. Qed.

Lemma two_slashes l q :
  located l -> ch l = r "/" -> peekChar input l = r "/" ->
  (position l <= q < position l + 2)%nat -> inLine (runeAt q) = true.
Proof.
  intros Hl H1 H2 Hq. rewrite (peekChar_at l Hl) in H2. rewrite (loc_ch _ Hl) in H1.
  destruct (decide (q = position l)) as [->|]; [rewrite H1; reflexivity|].
  replace q with (S (position l)) by lia. rewrite H2. reflexivity.
Qed.

(** Reading [k] runes of the line, then the rest of it. *)
Lemma comment_tail l l1 :
  located l -> advanced l l1 -> (position l + 2 <= position l1)%nat ->
  (forall q, (position l <= q < position l1)%nat -> inLine (runeAt q) = true) ->
  readsComment l (readWhile input inLine l1) /\
  pendingDoc (readWhile input inLine l1) = pendingDoc l /\ pendingSafety (readWhile input inLine l1) = pendingSafety l.
Proof.
  intros Hl Ha Hroom Hin.
  destruct (readWhile_spec inLine l1 eq_refl (adv_located _ _ Ha) (adv_end _ _ Ha)) as [Hb [Hstop Hrun]].
  destruct Ha as [A1 A2 A3 A4 A5]. destruct Hb as [B1 B2 B3 B4 B5].
  split; [|split; congruence]. split; [exact B1|]. split; [lia|]. split; [exact Hstop|].
  intros q Hq. destruct (decide (q < position l1)%nat); [apply Hin; lia | apply Hrun; lia].
Qed.

Lemma skipLineComment_spec l :
  located l -> ch l = r "/" -> peekChar input l = r "/" ->
  readsComment l (skipLineComment input l) /\
  pendingDoc (skipLineComment input l) = pendingDoc l /\ pendingSafety (skipLineComment input l) = pendingSafety l.
Proof.
  intros Hl H1 H2. pose proof (comment_room l Hl H1 H2) as Hroom.
  unfold skipLineComment.
  destruct (readWhile_spec inLine l eq_refl Hl ltac:(lia)) as [Hb [Hstop Hrun]]. destruct Hb as [B1 B2 B3 B4 B5].
  split; [|auto]. split; [exact B1|]. split; [|split; [exact Hstop | exact Hrun]]. split; [|exact B3].
  destruct (decide (position l + 2 <= position (readWhile input inLine l))%nat) as [|Hlt]; [assumption|]. exfalso.
  rewrite (loc_ch _ B1) in Hstop. rewrite (two_slashes l) in Hstop; auto; [discriminate | lia].
Qed.

Lemma readDocComment_spec l :
  located l -> ch l = r "/" -> peekChar input l = r "/" -> isDocCommentStart input l = true ->
  readsComment l (snd (readDocComment input l)) /\
  pendingDoc (snd (readDocComment input l)) = pendingDoc l /\
  pendingSafety (snd (readDocComment input l)) = pendingSafety l.
Proof.
  intros Hl H1 H2 Hd. unfold isDocCommentStart in Hd. apply andb_true_iff in Hd as [Hd _].
  rewrite peekRune_at in Hd. apply Z.eqb_eq in Hd.
  assert (Hroom : (position l + 3 <= len)%nat).
  { assert ((position l + 2 < len)%nat) by (apply runeAt_lt; rewrite Hd; discriminate). lia. }
  destruct (readChars_spec 3 l Hl Hroom) as [Ha Hp]. unfold readDocComment. cbn [snd].
  set (l1 := readChars input 3 l) in *.
  assert (Hin : forall q, (position l <= q < position l1)%nat -> inLine (runeAt q) = true).
  { intros q Hq. destruct (decide (q < position l + 2)%nat); [apply (two_slashes l); auto; lia|].
    replace q with (position l + 2)%nat by lia. rewrite Hd. reflexivity. }
  destruct (Z.eqb_spec (ch l1) SPACE) as [Hs|Hs]; [|apply comment_tail; auto; lia].
  assert (Hb : advanced l1 (readChar input l1)) by (apply advanced_here; [apply Ha | rewrite Hs; discriminate]).
  apply comment_tail; [exact Hl | eapply advanced_trans; eassumption | |].
  - rewrite position_readChar by apply Ha. lia.
  - intros q Hq. rewrite position_readChar in Hq by apply Ha.
    destruct (decide (q < position l1)%nat); [apply Hin; lia|].
    replace q with (position l1) by lia. rewrite <- (loc_ch _ (adv_located _ _ Ha)), Hs. reflexivity.
Qed.

Lemma blanksFrom_spec fuel l k :
  let k' := blanksFrom input fuel l k in
  (k <= k')%nat /\ forall q, (k <= q < k')%nat -> runeAt (position l + q) = SPACE \/ runeAt (position l + q) = TAB.
Proof.
  revert k. induction fuel as [|fuel IH]; intros k; cbn [blanksFrom]; [split; [lia | intros q Hq; lia]|].
  rewrite peekRune_at. destruct (Z.eqb_spec (runeAt (position l + k)) SPACE) as [Hs|Hs];
    [|destruct (Z.eqb_spec (runeAt (position l + k)) TAB) as [Ht|Ht]]; cbn [orb].
  3: split; [lia | intros q Hq; lia].
  all: destruct (IH (S k)) as [H1 H2]; split; [lia|]; intros q Hq;
    destruct (decide (q = k)) as [->|]; [auto | apply H2; lia].
Qed.

Lemma readSafetyComment_spec l safety l' :
  located l -> ch l = r "/" -> peekChar input l = r "/" -> readSafetyComment input l = Some (safety, l') ->
  readsComment l l' /\ pendingDoc l' = pendingDoc l /\ pendingSafety l' = pendingSafety l.
Proof.
  intros Hl H1 H2. unfold readSafetyComment.
  destruct (blanksFrom_spec (remaining input l) l 2) as [Hk Hblank].
  set (k := blanksFrom input (remaining input l) l 2) in *.
  destruct (forallb _ _) eqn:Hall; [|discriminate]. intros [= _ <-].
  rewrite forallb_forall in Hall.
  assert (Hat : forall j want, safetyPrefix !! j = Some want -> runeAt (position l + (k + j)) = want).
  { intros j want Hj. specialize (Hall (j, want)). rewrite peekRune_at, Z.eqb_eq in Hall. apply Hall.
    apply list_elem_of_In, list_elem_of_lookup. exists j. rewrite list_lookup_imap, Hj. reflexivity. }
  assert (Hwant : forall j, (j < 7)%nat -> runeAt (position l + (k + j)) <> 0 /\ inLine (runeAt (position l + (k + j))) = true).
  { intros j Hj. destruct j as [|[|[|[|[|[|[|j]]]]]]]; try lia;
      (erewrite Hat by reflexivity; split; [discriminate | reflexivity]). }
  assert (Hroom : (position l + (k + 7) <= len)%nat).
  { destruct (Hwant 6%nat ltac:(lia)) as [Hz _]. apply runeAt_lt in Hz. lia. }
  destruct (readChars_spec (k + 7) l Hl Hroom) as [Ha Hp].
  change (k + List.length safetyPrefix)%nat with (k + 7)%nat. unfold skipLineComment.
  apply comment_tail; [exact Hl | exact Ha | lia |]. intros q Hq. rewrite Hp in Hq.
  destruct (decide (q < position l + 2)%nat); [apply (two_slashes l); auto; lia|].
  destruct (decide (q < position l + k)%nat).
  - replace q with (position l + (q - position l))%nat by lia.
    destruct (Hblank (q - position l)%nat ltac:(lia)) as [-> | ->]; reflexivity.
  - replace q with (position l + (k + (q - position l - k)))%nat by lia. apply Hwant. lia.
Qed.

(** ** What lies between tokens *)

(** White space and whole comments, from one position to another. *)
Inductive ignorable : nat -> nat -> Prop :=
  | ignorable_none p : ignorable p p
  | ignorable_blank p q : isBlank (runeAt p) = true -> ignorable (S p) q -> ignorable p q
  | ignorable_comment p m q : runeAt p = r "/" -> runeAt (S p) = r "/" -> (p + 2 <= m)%nat ->
      (forall k, (p <= k < m)%nat -> inLine (runeAt k) = true) -> inLine (runeAt m) = false ->
      ignorable m q -> ignorable p q.

Lemma ignorable_blanks p m q :
  (p <= m)%nat -> (forall k, (p <= k < m)%nat -> isBlank (runeAt k) = true) -> ignorable m q -> ignorable p q.
Proof.
  intros Hle Hb H. remember (m - p)%nat as n eqn:Hn. revert p Hle Hb Hn.
  induction n as [|n IH]; intros p Hle Hb Hn; [replace p with m by lia; exact H|].
  apply ignorable_blank; [apply Hb; lia|]. apply IH; [lia | intros k Hk; apply Hb; lia | lia].
Qed.

(** Where a token starts: no white space and no comment. *)
Definition atToken (l : Lexer) : Prop :=
  isBlank (ch l) = false /\ (ch l <> r "/" \/ peekChar input l <> r "/").

Definition skippedTo (l l' : Lexer) : Prop :=
  located l' /\ (position l <= position l' <= len)%nat /\ ignorable (position l) (position l') /\ atToken l'.

Lemma skippedTo_step l l1 l2 :
  (position l <= position l1)%nat ->
  (forall q, ignorable (position l1) q -> ignorable (position l) q) -> skippedTo l1 l2 -> skippedTo l l2.
Proof. intros Hle H (H1 & H2 & H3 & H4). split; [exact H1|]. split; [lia|]. auto. Qed.

Lemma readsComment_step l l1 l2 :
  located l -> ch l = r "/" -> peekChar input l = r "/" -> readsComment l l1 -> skippedTo l1 l2 -> skippedTo l l2.
Proof.
  intros Hl H1 H2 (C1 & C2 & C3 & C4) H. apply (skippedTo_step l l1); [lia | | exact H].
  intros q Hq. rewrite (loc_ch _ Hl) in H1. rewrite (peekChar_at l Hl) in H2. rewrite (loc_ch _ C1) in C3.
  apply (ignorable_comment _ (position l1)); auto; lia.
Qed.

Lemma skipIgnoredFuel_spec fuel l :
  located l -> (position l <= len)%nat -> (len - position l < fuel)%nat -> skippedTo l (skipIgnoredFuel input fuel l).
Proof.
  revert l. induction fuel as [|fuel IH]; intros l Hl Hend Hf; [lia|]. cbn [skipIgnoredFuel].
  destruct (skipWhitespace_spec l Hl Hend) as [Ha [Hstop Hrun]].
  destruct (skipWhitespace input l) as [blank l0]. cbn [snd] in *. destruct Ha as [A1 A2 A3 _ _].
  set (l1 := if blank then set_pending [] [] l0 else l0).
  assert (Hsame : position l1 = position l0 /\ ch l1 = ch l0 /\ peekChar input l1 = peekChar input l0 /\ located l1).
  { unfold l1. destruct blank; auto using located_pending. }
  destruct Hsame as (Hp & Hc & Hk & Hl1).
  apply (skippedTo_step l l1); [lia | intros q Hq; apply (ignorable_blanks _ (position l1)); [lia | rewrite Hp; exact Hrun | exact Hq] |].
  destruct (Z.eqb_spec (ch l1) (r "/")) as [E1|E1]; [destruct (Z.eqb_spec (peekChar input l1) (r "/")) as [E2|E2]|]; cbn [negb orb].
  2, 3: split; [exact Hl1|]; split; [lia|]; split; [constructor|]; split; [rewrite Hc; exact Hstop | auto].
  assert (Hrec : forall l2 doc safety, readsComment l1 l2 -> skippedTo l1 (skipIgnoredFuel input fuel (set_pending doc safety l2))).
  { intros l2 doc safety C. eapply readsComment_step; [exact Hl1 | exact E1 | exact E2 | exact C |].
    pose proof C as (C1 & C2 & _). apply (skippedTo_step l2 (set_pending doc safety l2)); [cbn; lia | auto |].
    apply IH; [apply located_pending, C1 | cbn; lia | cbn; lia]. }
  destruct (isDocCommentStart input l1) eqn:Hd.
  - pose proof (readDocComment_spec l1 Hl1 E1 E2 Hd) as [C _]. destruct (readDocComment input l1) as [doc l2].
    apply Hrec, C.
  - destruct (readSafetyComment input l1) as [[safety l2]|] eqn:Hs.
    + apply Hrec. eapply (readSafetyComment_spec l1 safety l2); eassumption.
    + destruct (skipLineComment_spec (set_pending [] [] l1)) as [C _]; auto using located_pending.
      specialize (Hrec (skipLineComment input (set_pending [] [] l1)) [] [] C).
      assert (Hset : set_pending [] [] (skipLineComment input (set_pending [] [] l1)) = skipLineComment input (set_pending [] [] l1)).
      { destruct (skipLineComment_spec (set_pending [] [] l1)) as (_ & D1 & D2); auto using located_pending.
        apply set_pending_same; [exact D1 | exact D2]. }
      rewrite Hset in Hrec. exact Hrec.
Qed.

Lemma skipIgnored_spec l : located l -> (position l <= len)%nat -> skippedTo l (skipIgnored input l).
Proof. intros Hl Hend. apply skipIgnoredFuel_spec; auto. unfold remaining. lia. Qed.

(** ** Tokens *)

Lemma slice_cons p q : (p < q)%nat -> (p < len)%nat -> slice input p q = runeAt p :: slice input (S p) q.
Proof.
  intros Hq Hp. unfold slice, runeAt. destruct (lookup_lt_is_Some_2 input p Hp) as [c Hc].
  rewrite Hc, (drop_S _ _ _ Hc). replace (q - p)%nat with (S (q - S p)) by lia. reflexivity.
Qed.

Lemma slice_nil p : slice input p p = [].
Proof. unfold slice. rewrite Nat.sub_diag. apply take_0. Qed.

(** *** The text a token covers *)

(** Between quotes that open at [p], every rune up to the closing quote, or up
    to a zero rune when no quote comes before it; [m] is where the reading
    stops. *)
Definition quoted (p : nat) (literal : text) (m : nat) : Prop :=
  runeAt p = QUOTE /\ exists q, (S p <= q <= len)%nat /\ literal = slice input (S p) q /\
    (forall k, (S p <= k < q)%nat -> runeAt k <> QUOTE /\ runeAt k <> 0) /\
    (runeAt q = QUOTE /\ m = S q \/ runeAt q = 0 /\ m = q).

(** A position where two backslashes stand. *)
Definition opensLine (p : nat) : Prop := runeAt p = BACKSLASH /\ runeAt (S p) = BACKSLASH.

(** A continuation of the line that ends at [p] starts at [q]. *)
Definition continues (p q : nat) : Prop :=
  runeAt p = NL /\ (p < q)%nat /\ opensLine q /\
  forall k, (p < k < q)%nat -> runeAt k = SPACE \/ runeAt k = TAB \/ runeAt k = CR.

(** The text of a string over several lines that opens at [p] and ends at [q]. *)
Inductive lines : nat -> text -> nat -> Prop :=
  | lines_last p q : opensLine p -> (p + 2 <= q <= len)%nat ->
      (forall k, (p + 2 <= k < q)%nat -> inLine (runeAt k) = true) -> inLine (runeAt q) = false ->
      (forall k, ~ continues q k) -> lines p (slice input (p + 2) q) q
  | lines_more p q k out end_ : opensLine p -> (p + 2 <= q <= len)%nat ->
      (forall j, (p + 2 <= j < q)%nat -> inLine (runeAt j) = true) -> continues q k ->
      lines k out end_ -> lines p (slice input (p + 2) q ++ NL :: out) end_.

(** A token type that is neither the end of the file nor a string. *)
Definition ordinary (t : TokenType) : Prop := t <> EOF_ /\ t <> String_ /\ t <> CString.

(** The text of a token read from [p] to [m]: a string is what stands between
    its quotes or after the backslashes of its lines, a C string what stands
    between the quotes after its [c], and any other token every rune it
    covers. *)
Definition spelled (p : nat) (tok : Token) (m : nat) : Prop :=
  tokType tok = String_ /\ (quoted p (tokLiteral tok) m \/ lines p (tokLiteral tok) m) \/
  tokType tok = CString /\ runeAt p = r "c" /\ quoted (S p) (tokLiteral tok) m \/
  ordinary (tokType tok) /\ tokLiteral tok = slice input p m.

(** What a scan gives: the place of the token's first rune, a longer prefix of
    the input read, and the exact text. *)
Definition scanned (l : Lexer) (tok : Token) (l2 : Lexer) : Prop :=
  tokLine tok = line l /\ tokColumn tok = column l /\ located l2 /\
  (position l < position l2 <= len)%nat /\ spelled (position l) tok (position l2).

Lemma spelled_not_EOF p tok m : spelled p tok m -> tokType tok <> EOF_.
Proof. intros [[-> _]|[[-> _]|[[H _] _]]]; [discriminate | discriminate | exact H]. Qed.

Lemma scanned_one l t :
  located l -> ch l <> 0 -> ordinary t -> scanned l (oneCharToken l t) (readChar input l).
Proof.
  intros Hl Hc Ht. pose proof (advanced_here l Hl Hc) as Ha. pose proof (position_readChar l Hl) as Hp.
  pose proof (adv_end _ _ Ha) as He. split; [reflexivity|]. split; [reflexivity|]. split; [apply Ha|].
  split; [lia|]. right. right. split; [exact Ht|]. rewrite Hp, slice_cons, slice_nil by lia.
  cbn [oneCharToken tokLiteral]. rewrite (loc_ch _ Hl). reflexivity.
Qed.

Lemma scanned_two l t :
  located l -> peekChar input l <> 0 -> ordinary t ->
  scanned l (fst (twoCharToken input l t)) (readChar input (snd (twoCharToken input l t))).
Proof.
  intros Hl Hc Ht. unfold twoCharToken. cbn [fst snd]. rewrite (peekChar_at l Hl) in Hc. apply runeAt_lt in Hc.
  destruct (readChars_spec 2 l Hl ltac:(lia)) as [Ha Hp]. cbn [readChars] in *.
  split; [reflexivity|]. split; [reflexivity|]. split; [apply Ha|]. split; [lia|].
  right. right. split; [exact Ht|]. rewrite Hp, !slice_cons by lia. replace (position l + 2)%nat with (S (S (position l))) by lia.
  rewrite slice_nil. cbn [tokLiteral]. rewrite (loc_ch _ Hl), (loc_ch _ (located_readChar l Hl)), (position_readChar l Hl).
  reflexivity.
Qed.

(** The compound operators have a second rune and are no end of file and no
    string. *)
Lemma compoundTokens_ok c spec :
  compoundTokens c = Some spec -> next spec <> 0 /\ ordinary (compound spec) /\ ordinary (single spec).
Proof.
  unfold compoundTokens. repeat (match goal with |- context [if ?b then _ else _] => destruct b end;
    [intros [= <-]; repeat split; discriminate|]). discriminate.
Qed.

Lemma scanned_compound l spec :
  located l -> ch l <> 0 -> compoundTokens (ch l) = Some spec ->
  scanned l (fst (readCompoundToken input l spec)) (readChar input (snd (readCompoundToken input l spec))).
Proof.
  intros Hl Hc Hs. destruct (compoundTokens_ok _ _ Hs) as (H1 & H2 & H3). unfold readCompoundToken.
  destruct (Z.eqb_spec (peekChar input l) (next spec)) as [E|_].
  - apply scanned_two; auto. congruence.
  - apply scanned_one; auto.
Qed.

(** A run of one class from the current rune on, as a token. *)
Lemma scanned_literal l t literal l2 :
  advanced l l2 -> (position l < position l2)%nat -> spelled (position l) (literalToken l t literal) (position l2) ->
  scanned l (literalToken l t literal) l2.
Proof.
  intros [A1 A2 A3 _ _] Hlt Hlit. split; [reflexivity|]. split; [reflexivity|]. split; [exact A1|].
  split; [lia | exact Hlit].
Qed.

Lemma readString_spec l :
  located l -> ch l = QUOTE ->
  advanced l (snd (readString input l)) /\ (position l < position (snd (readString input l)))%nat /\
  quoted (position l) (fst (readString input l)) (position (snd (readString input l))).
Proof.
  intros Hl Hc. pose proof (advanced_here l Hl ltac:(rewrite Hc; discriminate)) as Ha.
  pose proof (position_readChar l Hl) as Hp. unfold readString, quoted. cbn [fst snd].
  destruct (readWhile_spec inString (readChar input l) eq_refl (adv_located _ _ Ha) (adv_end _ _ Ha)) as [Hb [Hstop Hrun]].
  set (l2 := readWhile input inString (readChar input l)) in *. pose proof (adv_from _ _ Hb) as Hb2. pose proof (adv_end _ _ Hb).
  rewrite <- (loc_ch _ Hl), Hc. rewrite Hp in *.
  assert (Hin : forall k, (S (position l) <= k < position l2)%nat -> runeAt k <> QUOTE /\ runeAt k <> 0)
    by (intros k Hk; specialize (Hrun k Hk); unfold inString in Hrun; lia).
  pose proof (loc_ch _ (adv_located _ _ Hb)) as Hch. unfold inString in Hstop.
  destruct (Z.eqb_spec (ch l2) QUOTE) as [E|E].
  - pose proof (advanced_here l2 (adv_located _ _ Hb) ltac:(rewrite E; discriminate)) as Hd.
    pose proof (position_readChar l2 (adv_located _ _ Hb)) as Hp2.
    split; [eapply advanced_trans; [exact Ha | eapply advanced_trans; eassumption]|]. split; [lia|].
    split; [reflexivity|]. exists (position l2). rewrite <- Hch. auto with lia.
  - split; [eapply advanced_trans; eassumption|]. split; [lia|].
    split; [reflexivity|]. exists (position l2). rewrite <- Hch. repeat split; try apply Hin; auto; try lia.
Qed.

Lemma runOf_moves p l l' :
  runOf p l l' -> located l -> located l' -> (position l <= position l')%nat -> p (ch l) = true ->
  (position l < position l')%nat.
Proof.
  intros [Hstop _] Hl Hl' Hle Hp. destruct (decide (position l = position l')) as [E|]; [|lia].
  rewrite (loc_ch _ Hl), E, <- (loc_ch _ Hl') in Hp. congruence.
Qed.

(** Reading a run that starts here gets past this rune. *)
Lemma readWhile_moves p l :
  p 0 = false -> located l -> p (ch l) = true ->
  advanced l (readWhile input p l) /\ runOf p l (readWhile input p l) /\
  (position l < position (readWhile input p l))%nat.
Proof.
  intros Hp Hl Hc.
  assert (Hend : (position l <= len)%nat).
  { apply Nat.lt_le_incl, runeAt_lt. rewrite <- (loc_ch _ Hl). intros E. congruence. }
  destruct (readWhile_spec p l Hp Hl Hend) as [Ha Hr]. split; [exact Ha|]. split; [exact Hr|].
  eapply runOf_moves; eauto; apply Ha.
Qed.

(** ** Names and numbers *)

Definition isName (c : rune) : bool := isLetter c || isDigit c.

Lemma LookupIdent_cases name :
  (LookupIdent name = Ident /\ forall k, In k keywords -> runes k <> name) \/
  (In (LookupIdent name) keywords /\ runes (LookupIdent name) = name).
Proof.
  unfold LookupIdent. destruct (List.find _ keywords) as [k|] eqn:E.
  - right. apply List.find_some in E as [Hin Hk]. apply bool_decide_eq_true in Hk. auto.
  - left. split; [reflexivity|]. intros k Hin Hk. pose proof (List.find_none _ _ E k Hin) as H. cbn in H.
    apply bool_decide_eq_false in H. contradiction.
Qed.

Lemma keywords_ordinary k : In k keywords -> ordinary k.
Proof. intros Hin. repeat split; intros ->; cbn in Hin; intuition discriminate. Qed.

Lemma LookupIdent_ordinary name : ordinary (LookupIdent name).
Proof.
  destruct (LookupIdent_cases name) as [[-> _]|[Hin _]]; [repeat split; discriminate | apply keywords_ordinary, Hin].
Qed.

Lemma scanned_identifier l :
  located l -> isLetter (ch l) = true ->
  scanned l (literalToken l (LookupIdent (fst (readIdentifier input l))) (fst (readIdentifier input l)))
    (snd (readIdentifier input l)).
Proof.
  intros Hl Hc. destruct (readWhile_moves isName l eq_refl Hl) as (Ha & _ & Hm); [unfold isName; rewrite Hc; reflexivity|].
  apply scanned_literal; auto. right. right. split; [apply LookupIdent_ordinary | reflexivity].
Qed.

Lemma isDigit_nonzero c : isDigit c = true -> c <> 0.
Proof. intros H ->. discriminate H. Qed.

Lemma readFraction_spec l :
  located l -> (position l <= len)%nat -> advanced l (snd (readFraction input l)).
Proof.
  intros Hl Hend. unfold readFraction. destruct (Z.eqb_spec (ch l) (r ".")) as [E|_]; [|apply advanced_refl; auto].
  destruct (isDigit (peekChar input l)) eqn:Hd; cbn [negb orb snd]; [|apply advanced_refl; auto].
  pose proof (advanced_here l Hl ltac:(rewrite E; discriminate)) as Ha.
  eapply advanced_trans; [exact Ha|]. apply readWhile_spec; [reflexivity | apply Ha | apply Ha].
Qed.

Lemma readExponent_spec l :
  located l -> (position l <= len)%nat -> advanced l (snd (readExponent input l)).
Proof.
  intros Hl Hend. unfold readExponent.
  destruct (negb (ch l =? r "e") && negb (ch l =? r "E")) eqn:He; [apply advanced_refl; auto|].
  destruct (negb (isDigit (peekChar input l)) && _ && _); [apply advanced_refl; auto|]. cbn [snd].
  assert (Hz : ch l <> 0) by (intros E; rewrite E in He; discriminate He).
  pose proof (advanced_here l Hl Hz) as Ha. set (l1 := readChar input l) in *.
  assert (Hb : advanced l1 (if (ch l1 =? r "+") || (ch l1 =? r "-") then readChar input l1 else l1)).
  { destruct ((ch l1 =? r "+") || (ch l1 =? r "-")) eqn:Hs; [|apply advanced_refl; apply Ha].
    apply advanced_here; [apply Ha|]. intros E. rewrite E in Hs. discriminate Hs. }
  eapply advanced_trans; [exact Ha|]. eapply advanced_trans; [exact Hb|].
  apply readWhile_spec; [reflexivity | apply Hb | apply Hb].
Qed.

(** A number's text is what was read, and its kind is [INT] or [FLOAT]. *)
Lemma readNumber_spec l :
  located l -> isDigit (ch l) = true ->
  let '(literal, kind, l2) := readNumber input l in
  advanced l l2 /\ (position l < position l2)%nat /\ literal = slice input (position l) (position l2) /\
  (kind = Int \/ kind = Float).
Proof.
  intros Hl Hd. unfold readNumber. destruct ((ch l =? r "0") && _) eqn:Hhex.
  - apply andb_true_iff in Hhex as [_ Hnext]. pose proof (advanced_here l Hl (isDigit_nonzero _ Hd)) as Ha.
    assert (Hb : advanced (readChar input l) (readChar input (readChar input l))).
    { apply advanced_here; [apply Ha|]. rewrite (loc_ch _ (adv_located _ _ Ha)), (position_readChar l Hl), <- (peekChar_at l Hl).
      intros E. rewrite E in Hnext. discriminate Hnext. }
    set (l2 := readChar input (readChar input l)) in *.
    destruct (readWhile_spec (fun c => isHexDigit c || (c =? r "_")) l2 eq_refl (adv_located _ _ Hb) (adv_end _ _ Hb)) as [Hc _].
    pose proof (position_readChar l Hl). pose proof (adv_from _ _ Hb). pose proof (adv_from _ _ Hc).
    split; [eapply advanced_trans; [exact Ha | eapply advanced_trans; eassumption]|]. split; [lia|]. auto.
  - unfold readDigits at 1. destruct (readWhile_moves (fun c => isDigit c || (c =? r "_")) l eq_refl Hl) as (Ha & _ & Hm);
      [rewrite Hd; reflexivity|].
    set (l1 := readWhile input _ l) in *.
    pose proof (readFraction_spec l1 (adv_located _ _ Ha) (adv_end _ _ Ha)) as Hb.
    destruct (readFraction input l1) as [fraction l2]. cbn [snd] in Hb.
    pose proof (readExponent_spec l2 (adv_located _ _ Hb) (adv_end _ _ Hb)) as Hc.
    destruct (readExponent input l2) as [exponent l3]. cbn [snd] in Hc.
    pose proof (adv_from _ _ Hb). pose proof (adv_from _ _ Hc).
    split; [eapply advanced_trans; [exact Ha | eapply advanced_trans; eassumption]|]. split; [lia|].
    split; [reflexivity|]. destruct (fraction || exponent); auto.
Qed.

(** ** Dots and strings *)

Lemma scanned_dot l :
  located l -> ch l = r "." ->
  scanned l (fst (readDotToken input l)) (readChar input (snd (readDotToken input l))).
Proof.
  intros Hl Hc. unfold readDotToken.
  destruct (Z.eqb_spec (peekChar input l) (r ".")) as [E1|_]; [destruct (Z.eqb_spec (peekRune input l 2) (r ".")) as [E2|_]|];
    cbn [negb orb].
  2, 3: apply scanned_compound; [exact Hl | rewrite Hc; discriminate | rewrite Hc; reflexivity].
  rewrite (peekChar_at l Hl) in E1. rewrite peekRune_at in E2. rewrite (loc_ch _ Hl) in Hc.
  assert (Hroom : (position l + 2 < len)%nat) by (apply runeAt_lt; rewrite E2; discriminate).
  destruct (readChars_spec 3 l Hl ltac:(lia)) as [Ha Hp]. cbn [readChars] in Ha, Hp. cbn [fst snd].
  split; [reflexivity|]. split; [reflexivity|]. split; [apply Ha|]. split; [lia|].
  right. right. split; [repeat split; discriminate|]. rewrite Hp, !slice_cons by lia. replace (position l + 3)%nat with (S (S (S (position l)))) by lia.
  rewrite slice_nil, Hc, E1. replace (S (S (position l))) with (position l + 2)%nat by lia. rewrite E2. reflexivity.
Qed.

Lemma scanned_string l :
  located l -> ch l = QUOTE ->
  scanned l (literalToken l String_ (fst (readString input l))) (snd (readString input l)).
Proof.
  intros Hl Hc. destruct (readString_spec l Hl Hc) as (Ha & Hm & Hq). apply scanned_literal; auto. left. auto.
Qed.

Lemma scanned_c_string l :
  located l -> ch l = r "c" -> peekChar input l = QUOTE ->
  scanned l (literalToken l CString (fst (readString input (readChar input l))))
    (snd (readString input (readChar input l))).
Proof.
  intros Hl Hc Hq. pose proof (advanced_here l Hl ltac:(rewrite Hc; discriminate)) as Ha.
  pose proof (position_readChar l Hl) as Hp.
  destruct (readString_spec (readChar input l)) as (Hb & Hm & Hs).
  { apply Ha. }
  { rewrite (loc_ch _ (adv_located _ _ Ha)), Hp, <- (peekChar_at l Hl). exact Hq. }
  apply scanned_literal; [eapply advanced_trans; eassumption | lia |]. right. left.
  rewrite Hp in Hs. rewrite <- (loc_ch _ Hl). auto.
Qed.

(** ** Strings over several lines *)

Lemma continuationAt_some rest p q :
  rest = drop p input -> continuationAt rest p = Some q ->
  (p <= q)%nat /\ opensLine q /\ forall k, (p <= k < q)%nat -> runeAt k = SPACE \/ runeAt k = TAB \/ runeAt k = CR.
Proof.
  revert p. induction rest as [|c rest IH]; intros p Hrest; cbn [continuationAt]; [discriminate|].
  assert (Hc : input !! p = Some c).
  { rewrite <- (Nat.add_0_r p), <- lookup_drop, <- Hrest. reflexivity. }
  assert (Hat : runeAt p = c) by (unfold runeAt; rewrite Hc; reflexivity).
  assert (Htl : rest = drop (S p) input).
  { rewrite (drop_S _ _ _ Hc) in Hrest. congruence. }
  destruct ((c =? SPACE) || (c =? TAB) || (c =? CR)) eqn:Hblank.
  - intros H. destruct (IH (S p) Htl H) as (H1 & H2 & H3). split; [lia|]. split; [exact H2|].
    intros k Hk. destruct (decide (k = p)) as [->|]; [|apply H3; lia].
    rewrite Hat. apply orb_true_iff in Hblank as [Hblank|Hblank]; [apply orb_true_iff in Hblank as [Hblank|Hblank]|];
      apply Z.eqb_eq in Hblank; auto.
  - destruct (Z.eqb_spec c BACKSLASH) as [->|]; [|discriminate]. case_bool_decide as Hh; [|discriminate].
    cbn [andb]. intros [= <-]. split; [lia|]. split; [|intros k Hk; lia]. split; [exact Hat|].
    unfold runeAt. rewrite Htl in Hh. rewrite head_lookup, lookup_drop, Nat.add_0_r in Hh. rewrite Hh. reflexivity.
Qed.

Lemma continuationAt_none rest p q :
  rest = drop p input -> continuationAt rest p = None -> (p <= q)%nat -> opensLine q ->
  (forall k, (p <= k < q)%nat -> runeAt k = SPACE \/ runeAt k = TAB \/ runeAt k = CR) -> False.
Proof.
  revert p. induction rest as [|c rest IH]; intros p Hrest Hnone Hle [Hq1 Hq2] Hblank.
  - assert (len <= p)%nat by (apply (f_equal List.length) in Hrest; rewrite length_drop in Hrest; cbn in Hrest; lia).
    rewrite runeAt_end in Hq1 by lia. discriminate.
  - assert (Hc : input !! p = Some c).
    { rewrite <- (Nat.add_0_r p), <- lookup_drop, <- Hrest. reflexivity. }
    assert (Hat : runeAt p = c) by (unfold runeAt; rewrite Hc; reflexivity).
    assert (Htl : rest = drop (S p) input).
    { rewrite (drop_S _ _ _ Hc) in Hrest. congruence. }
    cbn [continuationAt] in Hnone. destruct (decide (q = p)) as [->|Hne].
    + rewrite Hat in Hq1. subst c. cbn [Z.eqb orb andb] in Hnone. case_bool_decide as Hh; [discriminate|].
      apply Hh. rewrite Htl, head_lookup, lookup_drop, Nat.add_0_r. unfold runeAt in Hq2.
      destruct (input !! S p); cbn in Hq2; [congruence | discriminate].
    + assert (E : (c =? SPACE) || (c =? TAB) || (c =? CR) = true).
      { rewrite <- Hat. destruct (Hblank p ltac:(lia)) as [-> | [-> | ->]]; reflexivity. }
      rewrite E in Hnone. apply (IH (S p) Htl Hnone); [lia | split; assumption | intros k Hk; apply Hblank; lia].
Qed.

Lemma peekMultilineContinuation_some l l' :
  located l -> peekMultilineContinuation input l = Some l' ->
  advanced l l' /\ continues (position l) (position l').
Proof.
  intros Hl. unfold peekMultilineContinuation. destruct (Z.eqb_spec (ch l) NL) as [E|_]; cbn [negb]; [|discriminate].
  rewrite (loc_read _ Hl). destruct (continuationAt _ _) as [q|] eqn:Hq; [|discriminate]. intros [= <-].
  destruct (continuationAt_some _ _ _ eq_refl Hq) as (H1 & [H2 H2'] & H3).
  assert (Hlt : (q < len)%nat) by (apply runeAt_lt; rewrite H2; discriminate).
  destruct (readChars_spec (q - position l) l Hl ltac:(lia)) as [Ha Hp].
  split; [exact Ha|]. rewrite Hp. replace (position l + (q - position l))%nat with q by lia.
  split; [rewrite <- (loc_ch _ Hl); exact E|]. split; [lia|]. split; [split; assumption|].
  intros k Hk. apply H3. lia.
Qed.

Lemma peekMultilineContinuation_none l q :
  located l -> peekMultilineContinuation input l = None -> ~ continues (position l) q.
Proof.
  intros Hl. unfold peekMultilineContinuation. intros H (H1 & H2 & H3 & H4).
  rewrite (loc_ch _ Hl), H1, (loc_read _ Hl) in H. cbn [Z.eqb Pos.eqb negb NL] in H.
  destruct (continuationAt _ _) as [k|] eqn:Hk; [discriminate|].
  apply (continuationAt_none _ _ q eq_refl Hk); [lia | exact H3 | intros j Hj; apply H4; lia].
Qed.

Lemma opensLine_room p : opensLine p -> (p + 2 <= len)%nat.
Proof. intros [_ H]. assert (S p < len)%nat by (apply runeAt_lt; rewrite H; discriminate). lia. Qed.

Lemma readMultilineFuel_spec fuel first out l :
  located l -> opensLine (position l) -> (len - position l <= fuel)%nat ->
  let '(text, l2) := readMultilineFuel input fuel first out l in
  advanced l l2 /\ (position l < position l2)%nat /\
  exists rest, lines (position l) rest (position l2) /\ text = (if first then out else out ++ [NL]) ++ rest.
Proof.
  revert first out l. induction fuel as [|fuel IH]; intros first out l Hl Hopen Hf;
    pose proof (opensLine_room _ Hopen) as Hroom; [lia|].
  cbn [readMultilineFuel]. destruct (readChars_spec 2 l Hl Hroom) as [Ha Hp]. set (l1 := readChars input 2 l) in *.
  destruct (readWhile_spec inLine l1 eq_refl (adv_located _ _ Ha) (adv_end _ _ Ha)) as [Hb [Hstop Hrun]].
  set (l2 := readWhile input inLine l1) in *. rewrite (loc_ch _ (adv_located _ _ Hb)) in Hstop. rewrite Hp in Hrun |- *.
  pose proof (adv_from _ _ Hb). pose proof (adv_end _ _ Hb). pose proof (advanced_trans _ _ _ Ha Hb) as Hab.
  destruct (peekMultilineContinuation input l2) as [l3|] eqn:Hpeek.
  - destruct (peekMultilineContinuation_some l2 l3 (adv_located _ _ Hb) Hpeek) as [Hc Hk].
    pose proof (proj1 (proj2 Hk)). pose proof (proj1 (proj2 (proj2 Hk))) as Hopen3.
    specialize (IH false ((if first then out else out ++ [NL]) ++ slice input (position l + 2) (position l2)) l3
      (adv_located _ _ Hc) Hopen3 ltac:(lia)).
    destruct (readMultilineFuel input fuel false _ l3) as [text l4]. destruct IH as (I1 & I2 & rest & I3 & I4).
    split; [eapply advanced_trans; [exact Hab | eapply advanced_trans; eassumption]|]. split; [lia|].
    eexists. split; [eapply lines_more; [exact Hopen | | exact Hrun | exact Hk | exact I3]; lia|].
    rewrite I4, <- !app_assoc. reflexivity.
  - split; [exact Hab|]. split; [lia|]. eexists. split; [|reflexivity].
    apply lines_last; [exact Hopen | lia | exact Hrun | exact Hstop |].
    intros k. apply peekMultilineContinuation_none; [apply Hb | exact Hpeek].
Qed.

Lemma readMultilineString_spec l :
  located l -> opensLine (position l) ->
  advanced l (snd (readMultilineString input l)) /\ (position l < position (snd (readMultilineString input l)))%nat /\
  lines (position l) (fst (readMultilineString input l)) (position (snd (readMultilineString input l))).
Proof.
  intros Hl Hopen. unfold readMultilineString.
  pose proof (readMultilineFuel_spec (remaining input l) true [] l Hl Hopen ltac:(unfold remaining; lia)) as H.
  destruct (readMultilineFuel input (remaining input l) true [] l) as [text l2]. cbn [fst snd].
  destruct H as (H1 & H2 & rest & H3 & H4). split; [exact H1|]. split; [exact H2|]. rewrite H4. exact H3.
Qed.

(** ** One token *)

Lemma singleCharTokens_ordinary c t : singleCharTokens c = Some t -> ordinary t.
Proof.
  unfold singleCharTokens. intros H. apply List.find_some in H as [H _].
  repeat split; intros ->; cbn in H; intuition discriminate.
Qed.

Lemma scanOther_spec l :
  located l -> ch l <> 0 ->
  let '(tok, l1, more) := scanOther input l in scanned l tok (if more : bool then readChar input l1 else l1).
Proof.
  intros Hl Hz. unfold scanOther. destruct (compoundTokens (ch l)) as [spec|] eqn:Hc.
  { pose proof (scanned_compound l spec Hl Hz Hc). destruct (readCompoundToken input l spec). assumption. }
  destruct (singleCharTokens (ch l)) as [t|] eqn:Hs.
  { apply scanned_one; auto. eapply singleCharTokens_ordinary; eassumption. }
  destruct ((ch l =? r "c") && (peekChar input l =? QUOTE)) eqn:Hq.
  { apply andb_true_iff in Hq as [Hcc Hq]. apply Z.eqb_eq in Hcc, Hq. pose proof (scanned_c_string l Hl Hcc Hq).
    destruct (readString input (readChar input l)). assumption. }
  destruct (isLetter (ch l)) eqn:Hletter.
  { pose proof (scanned_identifier l Hl Hletter). destruct (readIdentifier input l). assumption. }
  destruct (isDigit (ch l)) eqn:Hdigit.
  { pose proof (readNumber_spec l Hl Hdigit) as H. destruct (readNumber input l) as [[literal kind] l2].
    destruct H as (H1 & H2 & H3 & H4). apply scanned_literal; auto. right. right.
    split; [destruct H4 as [-> | ->]; repeat split; discriminate | exact H3]. }
  apply scanned_one; auto. repeat split; discriminate.
Qed.

(** A scan at a rune other than 0 reads one token. *)
Lemma scanToken_scanned l :
  located l -> ch l <> 0 -> scanned l (fst (scanToken input l)) (snd (scanToken input l)).
Proof.
  intros Hl Hz. unfold scanToken, scanTokenStep.
  destruct (Z.eqb_spec (ch l) (r "=")) as [E|_].
  { destruct (Z.eqb_spec (peekChar input l) (r ">")) as [E2|_].
    - pose proof (scanned_two l FatArrow Hl ltac:(rewrite E2; discriminate) ltac:(repeat split; discriminate)).
      destruct (twoCharToken input l FatArrow). assumption.
    - pose proof (scanned_compound l _ Hl Hz (f_equal compoundTokens E)) as H. rewrite E.
      change (default _ (compoundTokens (r "="))) with (mkCompound (r "=") "==" "=").
      destruct (readCompoundToken input l _). assumption. }
  destruct (Z.eqb_spec (ch l) (r ".")) as [E|_].
  { pose proof (scanned_dot l Hl E). destruct (readDotToken input l). assumption. }
  destruct (Z.eqb_spec (ch l) QUOTE) as [E|_].
  { pose proof (scanned_string l Hl E). destruct (readString input l). assumption. }
  destruct (Z.eqb_spec (ch l) BACKSLASH) as [E|_].
  { destruct (Z.eqb_spec (peekChar input l) BACKSLASH) as [E2|_]; [|apply scanned_one; auto; repeat split; discriminate].
    rewrite (loc_ch _ Hl) in E. rewrite (peekChar_at l Hl) in E2.
    destruct (readMultilineString_spec l Hl (conj E E2)) as (Ha & Hm & Hlines).
    destruct (readMultilineString input l). apply scanned_literal; auto. left. auto. }
  destruct (Z.eqb_spec (ch l) 0) as [E|_]; [contradiction|].
  pose proof (scanOther_spec l Hl Hz) as H. destruct (scanOther input l) as [[tok l1] more]. exact H.
Qed.

(** At the rune 0, in the input or past its end, it gives [EOF]. *)
Lemma scanToken_end l :
  ch l = 0 -> scanToken input l = (literalToken l EOF_ [], readChar input l).
Proof. intros Hz. unfold scanToken, scanTokenStep. rewrite Hz. reflexivity. Qed.

(** A rune that starts no operator, punctuation, string or end of file. *)
Definition startsNone (c : rune) : bool :=
  negb (c =? r "=") && negb (c =? r ".") && negb (c =? QUOTE) && negb (c =? BACKSLASH) && negb (c =? 0) &&
  match compoundTokens c, singleCharTokens c with None, None => true | _, _ => false end.

(** Letters and digits lie in one range, small enough to be tested whole. *)
Lemma name_startsNone c : isName c = true -> startsNone c = true.
Proof.
  intros H.
  assert (Htest : forallb (fun c => implb (isName c) (startsNone c)) (map Z.of_nat (seq 48 75)) = true) by (vm_compute; reflexivity).
  rewrite forallb_forall in Htest. specialize (Htest c). rewrite H in Htest. apply Htest.
  apply in_map_iff. exists (Z.to_nat c). rewrite in_seq. unfold isName, isLetter, isDigit in H. lia.
Qed.

Lemma scanToken_other l :
  startsNone (ch l) = true -> (ch l <> r "c" \/ peekChar input l <> QUOTE) ->
  scanToken input l =
    if isLetter (ch l) then
      (literalToken l (LookupIdent (fst (readIdentifier input l))) (fst (readIdentifier input l)), snd (readIdentifier input l))
    else if isDigit (ch l) then
      let '(number, kind, l') := readNumber input l in (literalToken l kind number, l')
    else (oneCharToken l Illegal, readChar input l).
Proof.
  unfold startsNone. rewrite !andb_true_iff, !negb_true_iff. intros (((((H1 & H2) & H3) & H4) & H5) & H6) Hnot.
  unfold scanToken, scanTokenStep, scanOther. rewrite H1, H2, H3, H4, H5.
  destruct (compoundTokens (ch l)); [discriminate|]. destruct (singleCharTokens (ch l)); [discriminate|].
  replace ((ch l =? r "c") && (peekChar input l =? QUOTE)) with false
    by (symmetry; apply andb_false_iff; destruct Hnot; [left | right]; apply Z.eqb_neq; assumption).
  destruct (isLetter (ch l)); [destruct (readIdentifier input l); reflexivity|].
  destruct (isDigit (ch l)); [destruct (readNumber input l) as [[? ?] ?]; reflexivity | reflexivity].
Qed.
End Facts.

(** * What the lexer gives a parser

    Every source is read to its end: the tokens stand where they say, carry
    the text they cover, and leave out nothing but white space and comments.
    Names, strings and numbers are read as far as they reach. *)

(** Tokens that cover the input from a position on, up to a rune 0, in the
    input or past its end. *)
Inductive tiles (input : text) : nat -> list Token -> Prop :=
  | tiles_end p q tok :
      ignorable input p q -> (p <= q <= List.length input)%nat -> runeAt input q = 0 ->
      tokType tok = EOF_ -> tokLiteral tok = [] ->
      tokLine tok = lineAt input q -> tokColumn tok = columnAt input q -> tiles input p [tok]
  | tiles_token p q m tok rest :
      ignorable input p q -> (p <= q < m)%nat -> (m <= List.length input)%nat ->
      spelled input q tok m -> tokLine tok = lineAt input q -> tokColumn tok = columnAt input q ->
      tiles input m rest -> tiles input p (tok :: rest).

Section Facts.
Context (input : text).

Lemma skipIgnored_pending l :
  located input l -> (position l <= List.length input)%nat ->
  skippedTo input l (set_pending [] [] (skipIgnored input l)).
Proof.
  intros Hl Hend. destruct (skipIgnored_spec input l Hl Hend) as (H1 & H2 & H3 & H4).
  split; [apply located_pending, H1|]. auto.
Qed.

Lemma tokensFuel_tiles fuel l :
  located input l -> (position l <= List.length input)%nat -> (List.length input - position l < fuel)%nat ->
  exists toks, tokensFuel input fuel l = Some toks /\ tiles input (position l) toks.
Proof.
  revert l. induction fuel as [|fuel IH]; intros l Hl Hend Hf; [lia|]. cbn [tokensFuel]. unfold NextToken.
  destruct (skipIgnored_pending l Hl Hend) as (S1 & S2 & S3 & S4).
  set (doc := pendingDoc (skipIgnored input l)). set (safety := pendingSafety (skipIgnored input l)).
  set (l1 := set_pending [] [] (skipIgnored input l)) in *.
  destruct (Z.eqb_spec (ch l1) 0) as [E|Hz].
  - rewrite (scanToken_end input l1 E). cbn [tokType literalToken String.eqb].
    change (String.eqb EOF_ EOF_) with true. cbv iota. eexists. split; [reflexivity|].
    eapply tiles_end; [exact S3 | lia | rewrite <- (loc_ch _ _ S1); exact E | reflexivity | reflexivity | |];
      [apply (loc_line _ _ S1) | apply (loc_column _ _ S1)].
  - destruct (scanToken_scanned input l1 S1 Hz) as (T1 & T2 & T3 & T4 & T5).
    destruct (scanToken input l1) as [tok l2]. cbn [fst snd tokType] in *.
    destruct (String.eqb_spec (tokType tok) EOF_) as [E|_]; [destruct (spelled_not_EOF _ _ _ _ T5 E)|].
    destruct (IH l2 T3 ltac:(lia) ltac:(lia)) as (rest & -> & Hrest). eexists. split; [reflexivity|].
    eapply tiles_token; [exact S3 | split; [lia | apply T4] | lia | exact T5 | | | exact Hrest].
    + rewrite <- (loc_line _ _ S1). exact T1.
    + rewrite <- (loc_column _ _ S1). exact T2.
Qed.

(** ** Every source is read *)

(** C26. Reading the tokens of any source ends, and the tokens tile it up to
    its end, a rune 0, which the lexer takes for the end, or the end of the
    input: each carries the line and the column of its first
    rune; a string's text is what stands between its quotes, up to a zero
    rune when it is not closed, or after the backslashes of its lines, a C
    string's what stands between the quotes after its [c], and any other
    token's every rune it covers; what lies between two tokens is white space
    and whole comments; the last one, and only it, is [EOF]. *)
Theorem tokens_tile_source : exists toks, tokens input = Some toks /\ tiles input 0 toks.
Proof.
  unfold tokens. pose proof (located_start input) as Hstart.
  assert (Hp : position (NewSource input) = 0%nat) by reflexivity.
  destruct (tokensFuel_tiles (S (List.length input)) (NewSource input) Hstart) as (toks & H1 & H2); [lia | lia|].
  rewrite Hp in H2. eauto.
Qed.

(** ** Names *)

(** At a letter or an underscore that does not open a C string, the lexer
    reads the longest run of letters, digits and underscores, and gives a
    keyword when the run spells one and an identifier when it spells none. *)
Theorem identifier_longest l :
  located input l -> isLetter (ch l) = true -> (ch l <> r "c" \/ peekChar input l <> QUOTE) ->
  let (tok, l2) := scanToken input l in
  runOf input isName l l2 /\ tokLiteral tok = slice input (position l) (position l2) /\
  ((In (tokType tok) keywords /\ runes (tokType tok) = tokLiteral tok) \/
   (tokType tok = Ident /\ forall k, In k keywords -> runes k <> tokLiteral tok)).
Proof.
  intros Hl Hc Hnot.
  assert (Hn : isName (ch l) = true) by (unfold isName; rewrite Hc; reflexivity).
  rewrite (scanToken_other input l (name_startsNone _ Hn) Hnot), Hc. unfold readIdentifier. cbn [fst snd].
  destruct (readWhile_moves input isName l eq_refl Hl) as (_ & Hrun & _); [exact Hn|].
  split; [exact Hrun|]. split; [reflexivity|].
  cbn [tokType tokLiteral literalToken].
  destruct (LookupIdent_cases (slice input (position l) (position (readWhile input isName l)))) as [?|?]; auto.
Qed.

(** ** Numbers *)

Lemma runOf_unique p l l1 q :
  located input l1 -> runOf input p l l1 -> (position l <= position l1)%nat ->
  p (runeAt input q) = false -> (position l <= q)%nat ->
  (forall k, (position l <= k < q)%nat -> p (runeAt input k) = true) -> position l1 = q.
Proof.
  intros Hl1 [Hstop Hrun] Hle Hq Hlq Hall. rewrite (loc_ch _ _ Hl1) in Hstop.
  destruct (Nat.lt_trichotomy (position l1) q) as [H|[H|H]]; [|exact H|].
  - rewrite Hall in Hstop by lia. discriminate.
  - rewrite Hrun in Hq by lia. discriminate.
Qed.

(** A run of digits and [_] that neither a fraction nor an exponent
    follows is an integer, whatever comes next: a dot that no digit follows
    is left for the next token, so [0..n] is a range. *)
Theorem integer_leaves_dot l q :
  located input l -> isDigit (ch l) = true ->
  ~ (ch l = r "0" /\ (peekChar input l = r "x" \/ peekChar input l = r "b")) ->
  (position l < q)%nat ->
  (forall k, (position l <= k < q)%nat -> isDigit (runeAt input k) || (runeAt input k =? r "_") = true) ->
  (runeAt input q = r "." /\ isDigit (runeAt input (S q)) = false \/
   isName (runeAt input q) = false /\ runeAt input q <> r ".") ->
  let (tok, l2) := scanToken input l in
  tokType tok = Int /\ tokLiteral tok = slice input (position l) q /\ position l2 = q.
Proof.
  intros Hl Hd Hhex Hlt Hrun Hnext.
  assert (Hn : isName (ch l) = true) by (unfold isName; rewrite Hd; apply orb_true_r).
  assert (Hletter : isLetter (ch l) = false) by (unfold isDigit in Hd; unfold isLetter; lia).
  rewrite (scanToken_other input l (name_startsNone _ Hn)), Hletter, Hd
    by (left; intros E; rewrite E in Hd; discriminate Hd).
  unfold readNumber. replace ((ch l =? r "0") && _) with false.
  2: { symmetry. apply not_true_is_false. rewrite andb_true_iff, orb_true_iff, !Z.eqb_eq. exact Hhex. }
  unfold readDigits at 1.
  destruct (readWhile_moves input (fun c => isDigit c || (c =? r "_")) l eq_refl Hl) as (Ha & Hr & _);
    [rewrite Hd; reflexivity|].
  set (l1 := readWhile input _ l) in *.
  assert (Hq : position l1 = q).
  { eapply runOf_unique; [apply Ha | exact Hr | apply Ha | | lia | exact Hrun].
    destruct Hnext as [[-> _]|[Hname _]]; [reflexivity|]. unfold isName, isLetter in Hname.
    cbv beta. unfold isDigit in *. change (r "_") with 95. lia. }
  assert (Hc : ch l1 = runeAt input q) by (rewrite (loc_ch _ _ (adv_located _ _ _ Ha)), Hq; reflexivity).
  assert (Hfraction : readFraction input l1 = (false, l1)).
  { unfold readFraction. rewrite (peekChar_at input l1 (adv_located _ _ _ Ha)), Hq, Hc.
    destruct Hnext as [[_ ->]|[_ Hdot]]; [rewrite orb_true_r; reflexivity|].
    apply Z.eqb_neq in Hdot. rewrite Hdot. reflexivity. }
  assert (Hexponent : readExponent input l1 = (false, l1)).
  { unfold readExponent. rewrite Hc. destruct Hnext as [[-> _]|[Hname _]]; [reflexivity|].
    replace (negb _ && negb _) with true; [reflexivity|]. symmetry.
    unfold isName, isLetter in Hname. change (r "e") with 101. change (r "E") with 69. lia. }
  rewrite Hfraction, Hexponent. cbn [tokType tokLiteral literalToken orb]. rewrite Hq. auto.
Qed.

(** ** Strings *)

(** A string between quotes is every rune after the opening quote up to the
    closing one, or up to the first zero rune when no quote closes it. *)
Theorem string_literal_exact l :
  located input l -> ch l = QUOTE ->
  let (tok, l2) := scanToken input l in
  tokType tok = String_ /\
  exists q, (S (position l) <= q <= List.length input)%nat /\
    tokLiteral tok = slice input (S (position l)) q /\
    (forall k, (S (position l) <= k < q)%nat -> runeAt input k <> QUOTE /\ runeAt input k <> 0) /\
    (runeAt input q = QUOTE /\ position l2 = S q \/ runeAt input q = 0 /\ position l2 = q).
Proof.
  intros Hl Hc. unfold scanToken, scanTokenStep. rewrite Hc. cbn [Z.eqb Pos.eqb QUOTE r runes].
  change (QUOTE =? r "=") with false. change (QUOTE =? r ".") with false. change (QUOTE =? QUOTE) with true. cbv iota.
  destruct (readString_spec input l Hl Hc) as (_ & _ & _ & Hq). destruct (readString input l).
  split; [reflexivity | exact Hq].
Qed.

(** A string over several lines is the text after the backslashes of each
    line, joined by newlines: it goes on exactly as long as the next line
    starts, after blanks, with two backslashes. *)
Theorem multiline_string_exact l :
  located input l -> opensLine input (position l) ->
  let (tok, l2) := scanToken input l in
  tokType tok = String_ /\ lines input (position l) (tokLiteral tok) (position l2).
Proof.
  intros Hl Hopen. pose proof Hopen as [H1 H2]. rewrite <- (loc_ch _ _ Hl) in H1. rewrite <- (peekChar_at _ _ Hl) in H2.
  unfold scanToken, scanTokenStep. rewrite H1, H2. change (BACKSLASH =? r "=") with false. change (BACKSLASH =? r ".") with false.
  change (BACKSLASH =? QUOTE) with false. change (BACKSLASH =? BACKSLASH) with true. cbv iota.
  destruct (readMultilineString_spec input l Hl Hopen) as (_ & _ & Hlines).
  destruct (readMultilineString input l). split; [reflexivity | exact Hlines].
Qed.
End Facts.

(** ** The theorems at work *)

Lemma identifier_longest_witness :
  let (tok, l2) := scanToken (runes "let_9 x") (NewSource (runes "let_9 x")) in
  runOf (runes "let_9 x") isName (NewSource (runes "let_9 x")) l2 /\
  tokLiteral tok = slice (runes "let_9 x") 0 (position l2) /\
  ((In (tokType tok) keywords /\ runes (tokType tok) = tokLiteral tok) \/
   (tokType tok = Ident /\ forall k, In k keywords -> runes k <> tokLiteral tok)).
Proof.
  apply (identifier_longest (runes "let_9 x") (NewSource (runes "let_9 x"))).
  - apply located_start.
  - reflexivity.
  - left. discriminate.
Defined.

Lemma integer_leaves_dot_witness :
  let (tok, l2) := scanToken (runes "10..n") (NewSource (runes "10..n")) in
  tokType tok = Int /\ tokLiteral tok = runes "10" /\ position l2 = 2%nat.
Proof.
  apply (integer_leaves_dot (runes "10..n") (NewSource (runes "10..n")) 2).
  - apply located_start.
  - reflexivity.
  - intros [H _]. discriminate H.
  - cbn. lia.
  - intros k Hk. cbn in Hk. destruct k as [|[|k]]; [reflexivity | reflexivity | lia].
  - left. split; reflexivity.
Defined.

Lemma string_literal_exact_witness :
  let input := [34; 97; 98; 34; 59] in
  let (tok, l2) := scanToken input (NewSource input) in
  tokType tok = String_ /\
  exists q, (1 <= q <= 5)%nat /\ tokLiteral tok = slice input 1 q /\
    (forall k, (1 <= k < q)%nat -> runeAt input k <> QUOTE /\ runeAt input k <> 0) /\
    (runeAt input q = QUOTE /\ position l2 = S q \/ runeAt input q = 0 /\ position l2 = q).
Proof.
  intros input. apply (string_literal_exact input (NewSource input)); [apply located_start | reflexivity].
Defined.

Lemma multiline_string_exact_witness :
  let input := [92; 92; 97; 10; 32; 92; 92; 98; 10] in
  let (tok, l2) := scanToken input (NewSource input) in
  tokType tok = String_ /\ lines input 0 (tokLiteral tok) (position l2).
Proof.
  intros input. apply (multiline_string_exact input (NewSource input)); [apply located_start | split; reflexivity].
Defined.

(** ** Where the code and its comments part *)

(** A zero rune inside the source is read as the end of the source: what
    follows it is not lexed, and no token says so. *)
Lemma zero_rune_ends_source :
  tokens (runes "pub" ++ [0] ++ runes " fn f(") = tokens (runes "pub").
Proof. vm_compute. reflexivity. Qed.

(** An exponent sign with no digit after it is taken into the number: the
    [e] is not left for the next token. *)
Lemma exponent_without_digits :
  option_map (map (fun t => (tokType t, tokLiteral t))) (tokens (runes "1e+x")) =
  Some [(Float, runes "1e+"); (Ident, runes "x"); (EOF_, [])].
Proof. vm_compute. reflexivity. Qed.
