(* ===== verification/Literals.v ===== *)
(** * Literals and quoted bytes ([internal/quote/quote.go], the literal readers
    of [internal/parser/parser.go] and [internal/typ/typ.go])

    What the parser makes of the text of one token: bytes, integers, the range
    of a float, the text of a comment, and the quoted form of bytes that its
    messages and the printed tree use. *)

From stdpp Require Import base list strings.
From Stdlib Require Import ZArith Lia String Ascii.
From S2P Require Import Prelude GoStd Token Lexer.

#[local] Open Scope string_scope.
#[local] Open Scope Z_scope.
#[local] Open Scope list_scope.

(** ** Runes as bytes *)

Definition byteOf (z : Z) : ascii := ascii_of_nat (Z.to_nat z).
Definition byteVal (c : ascii) : Z := Z.of_nat (nat_of_ascii c).

Fixpoint bytes (l : list Z) : string :=
  match l with [] => EmptyString | z :: rest => String (byteOf z) (bytes rest) end.

(** [utf8.AppendRune]: a rune no encoding has is the replacement character. *)
Definition encodeRune (c : rune) : list Z :=
  if (c <? 0) || (1114111 <? c) || (55296 <=? c) && (c <=? 57343) then [239; 191; 189]
  else if c <=? 127 then [c]
  else if c <=? 2047 then [192 + c / 64; 128 + c mod 64]
  else if c <=? 65535 then [224 + c / 4096; 128 + c / 64 mod 64; 128 + c mod 64]
  else [240 + c / 262144; 128 + c / 4096 mod 64; 128 + c / 64 mod 64; 128 + c mod 64].

(** The Go string a slice of runes converts to. *)
Definition utf8 (t : text) : string := bytes (flat_map encodeRune t).

(** ** Quoting *)

Definition hexDigit (v : Z) : ascii := if v <? 10 then byteOf (v + 48) else byteOf (v + 55).

(** One byte of [Bytes]. *)
Definition quoteByte (c : ascii) (rest : string) : string :=
  let value := byteVal c in
  if (value =? 34) || (value =? 92) then String "\" (String c rest)
  else if value =? 10 then "\n" +:+ rest
  else if value =? 13 then "\r" +:+ rest
  else if value =? 9 then "\t" +:+ rest
  else if (32 <=? value) && (value <=? 126) then String c rest
  else "\x" +:+ String (hexDigit (Z.shiftr value 4)) (String (hexDigit (Z.land value 15)) rest).

Fixpoint quoteBytes (text : string) (close : string) : string :=
  match text with
  | EmptyString => close
  | String c rest => quoteByte c (quoteBytes rest close)
  end.

(** [quote.Bytes] *)
Definition Bytes (text : string) : string := String "034" (quoteBytes text (String "034" EmptyString)).

(** ** Integer literals *)

(** [digitValue] *)
Definition digitValue (ch : ascii) : option Z :=
  let v := byteVal ch in
  if (48 <=? v) && (v <=? 57) then Some (v - 48)
  else if (97 <=? v) && (v <=? 102) then Some (v - 97 + 10)
  else if (65 <=? v) && (v <=? 70) then Some (v - 65 + 10)
  else None.

(** The loop of [integerLiteralValue] over what is left of the digits. *)
Fixpoint integerDigits (base : Z) (digits : string) (value : Z) (previousDigit : bool) : option Z :=
  match digits with
  | EmptyString => Some value
  | String ch rest =>
      if Ascii.eqb ch "_" then
        if negb previousDigit || String.eqb rest "" then None
        else integerDigits base rest value false
      else match digitValue ch with
      | None => None
      | Some digit =>
          if base <=? digit then None
          else if Z.quot (max_int64 - digit) base <? value then None
          else integerDigits base rest (wrap64 (value * base + digit)) true
      end
  end.

(** The base of a literal and its digits. *)
Definition literalBase (text : string) : Z * string :=
  if HasPrefix text "0x" then (16, sdrop 2 text)
  else if HasPrefix text "0b" then (2, sdrop 2 text)
  else (10, text).

(** [integerLiteralValue] *)
Definition integerLiteralValue (text : string) : option Z :=
  let '(base, digits) := literalBase text in
  if String.eqb digits "" then None else integerDigits base digits 0 false.

(** ** Float literals *)

(** [strings.ToLower] on the bytes of a number. *)
Definition lowerByte (c : ascii) : ascii :=
  let v := byteVal c in if (65 <=? v) && (v <=? 90) then byteOf (v + 32) else c.

(** [CleanFloatLiteral] *)
Fixpoint CleanFloatLiteral (text : string) : string :=
  match text with
  | EmptyString => EmptyString
  | String c rest =>
      if Ascii.eqb c "_" then CleanFloatLiteral rest else String (lowerByte c) (CleanFloatLiteral rest)
  end.

(** [strconv.ParseFloat] on digits, a fraction and an exponent, which is what
    the lexer gives: the mantissa without its dot, and the power of ten it is
    scaled by.  The reader stops adding exponent digits at 10000. *)
Fixpoint readMantissa (s : string) (mantissa scale : Z) (dot some : bool) : Z * Z * bool * string :=
  match s with
  | EmptyString => (mantissa, scale, some, s)
  | String c rest =>
      if Ascii.eqb c "." && negb dot then readMantissa rest mantissa scale true some
      else if is_digit c then
        readMantissa rest (mantissa * 10 + digit_val c) (if dot then scale - 1 else scale) dot true
      else (mantissa, scale, some, s)
  end.

Fixpoint readExponentDigits (s : string) (e : Z) : option Z :=
  match s with
  | EmptyString => Some e
  | String c rest =>
      if is_digit c then readExponentDigits rest (if e <? 10000 then e * 10 + digit_val c else e) else None
  end.

Definition readExponentPart (s : string) : option Z :=
  match s with
  | EmptyString => Some 0
  | String c rest =>
      if negb (Ascii.eqb c "e") then None
      else match rest with
      | EmptyString => None
      | String sign digits =>
          let '(negative, digits) :=
            if Ascii.eqb sign "+" then (false, digits) else if Ascii.eqb sign "-" then (true, digits) else (false, rest) in
          if String.eqb digits "" then None
          else option_map (fun e => if negative : bool then - e else e) (readExponentDigits digits 0)
      end
  end.

(** Rounding to nearest gives an infinity from half a unit above the greatest
    finite value on. *)
Definition floatOverflow : Z := 2 ^ 1024 - 2 ^ 970.

Definition inFloatRange (mantissa scale : Z) : bool :=
  if 0 <=? scale then mantissa * 10 ^ scale <? floatOverflow else mantissa <? floatOverflow * 10 ^ (- scale).

(** Whether [ParseFloatLiteral] accepts a cleaned literal; the value itself is
    not read by the parser. *)
Definition ParseFloatLiteral (text : string) : bool :=
  let '(mantissa, scale, some, rest) := readMantissa text 0 0 false false in
  some && match readExponentPart rest with
  | None => false
  | Some e => inFloatRange mantissa (scale + e)
  end.

(** ** Comments and names *)

(** [strings.Join(lines, newline)] *)
Fixpoint joinLines (lines : list text) : text :=
  match lines with
  | [] => []
  | [l] => l
  | l :: rest => l ++ NL :: joinLines rest
  end.

(** [commentText] *)
Definition commentText (lines : list text) : string := utf8 (trimSpace (joinLines lines)).

(** [startsUpper] *)
Definition startsUpper (name : string) : bool :=
  match name with
  | EmptyString => false
  | String c _ => (65 <=? byteVal c) && (byteVal c <=? 90)
  end.

Example quote_sample : Bytes (bytes [65; 34; 92; 10; 0; 31; 195]) = bytes ([34; 65; 92; 34; 92; 92; 92; 110] ++ map byteVal (list_ascii_of_string "\x00\x1F\xC3") ++ [34]).
Proof. vm_compute. reflexivity. Qed.

Example integer_sample :
  map integerLiteralValue ["0xFF"; "0b1111_1111"; "017"; "1__0"; "1_"; "0x"; "9223372036854775807"; "9223372036854775808"; "0b12"] =
  [Some 255; Some 255; Some 17; None; None; None; Some max_int64; None; None].
Proof. vm_compute. reflexivity. Qed.

Example float_sample :
  map (fun s => ParseFloatLiteral (CleanFloatLiteral s)) ["1.5E3"; "1_000.25"; "1e308"; "1.8e308"; "1e"; "1e+"; "2e-400"; "17976931348623158080e289"] =
  [true; true; true; false; false; false; true; false].
Proof. vm_compute. reflexivity. Qed.

(** * Integer literals are exact, quoted bytes can be read back *)

(** ** Integer literals *)

(** Digits of a base with single separators between two of them. *)
Inductive spells (base : Z) : string -> list Z -> Prop :=
  | spells_last c d : digitValue c = Some d -> d < base -> spells base (String c EmptyString) [d]
  | spells_digit c d rest ds : digitValue c = Some d -> d < base -> spells base rest ds -> spells base (String c rest) (d :: ds)
  | spells_separated c d rest ds : digitValue c = Some d -> d < base -> spells base rest ds ->
      spells base (String c (String "_" rest)) (d :: ds).

(** The number the digits write, after a number already read. *)
Definition valueFrom (base value : Z) (ds : list Z) : Z := fold_left (fun acc d => acc * base + d) ds value.

Lemma digitValue_range c d : digitValue c = Some d -> 0 <= d < 16 /\ Ascii.eqb c "_" = false.
Proof.
  unfold digitValue. intros H. split.
  - destruct ((48 <=? byteVal c) && (byteVal c <=? 57)) eqn:E1; [injection H as <-; lia|].
    destruct ((97 <=? byteVal c) && (byteVal c <=? 102)) eqn:E2; [injection H as <-; lia|].
    destruct ((65 <=? byteVal c) && (byteVal c <=? 70)) eqn:E3; [injection H as <-; lia | discriminate].
  - destruct (Ascii.eqb_spec c "_") as [->|]; [discriminate H | reflexivity].
Qed.

Lemma spells_nonneg base s ds : spells base s ds -> Forall (fun d => 0 <= d < base) ds.
Proof. induction 1; repeat constructor; auto; match goal with H : digitValue _ = Some _ |- _ => apply digitValue_range in H; lia end. Qed.

Lemma valueFrom_grows base value ds : 2 <= base -> 0 <= value -> Forall (fun d => 0 <= d < base) ds -> value <= valueFrom base value ds.
Proof.
  intros Hb. revert value. induction ds as [|d ds IH]; intros value Hv Hds; [cbn; lia|]. inversion Hds; subst.
  specialize (IH (value * base + d) ltac:(nia) ltac:(assumption)). unfold valueFrom in *. cbn [fold_left]. nia.
Qed.

(** The test before a digit is exact. *)
Lemma digit_overflow base value d :
  2 <= base -> 0 <= value -> 0 <= d < base -> base <= 16 ->
  (Z.quot (max_int64 - d) base <? value) = negb (value * base + d <=? max_int64).
Proof.
  intros Hb Hv Hd Hm. rewrite Z.quot_div_nonneg by (unfold max_int64; lia).
  assert (H : value <= (max_int64 - d) / base <-> value * base + d <= max_int64).
  { split; intros H.
    - pose proof (Z.mul_div_le (max_int64 - d) base ltac:(lia)). nia.
    - apply Z.div_le_lower_bound; lia. }
  destruct (Z.ltb_spec ((max_int64 - d) / base) value), (Z.leb_spec (value * base + d) max_int64); try reflexivity; lia.
Qed.

Lemma wrap64_in z : min_int64 <= z <= max_int64 -> wrap64 z = z.
Proof. intros H. unfold wrap64. rewrite Z.mod_small; unfold min_int64, max_int64 in H; lia. Qed.

(** What the loop reads from a value in range. *)
Definition reads (base : Z) (s : string) (value v : Z) : Prop :=
  exists ds, spells base s ds /\ v = valueFrom base value ds /\ v <= max_int64.

Section Loop.
Context (base : Z) (Hb : 2 <= base <= 16).

(** What may follow: the end, digits, or a separator and digits after a digit. *)
Definition follows (previousDigit : bool) (s : string) (value v : Z) : Prop :=
  (s = EmptyString /\ v = value) \/ reads base s value v \/ (previousDigit = true /\ exists r, s = String "_" r /\ reads base r value v).

(** Digits start with a digit whose value fits. *)
Lemma reads_cons c rest value v : 0 <= value <= max_int64 ->
  reads base (String c rest) value v <->
  exists d, digitValue c = Some d /\ d < base /\ value * base + d <= max_int64 /\ follows true rest (value * base + d) v.
Proof.
  intros Hv. split.
  - intros (ds & Hs & Hval & Hm). pose proof (spells_nonneg _ _ _ Hs) as Hn.
    assert (Hfit : forall d ds', ds = d :: ds' -> value * base + d <= max_int64).
    { intros d ds' ->. inversion Hn; subst. pose proof (valueFrom_grows base (value * base + d) ds' ltac:(lia) ltac:(nia) ltac:(assumption)).
      unfold valueFrom in *. cbn [fold_left] in *. lia. }
    inversion Hs; subst; exists d; (split; [assumption|]); (split; [assumption|]); (split; [eapply Hfit; reflexivity|]).
    + left. split; reflexivity.
    + right. left. exists ds0. auto.
    + right. right. split; [reflexivity|]. eexists. split; [reflexivity|]. exists ds0. auto.
  - intros (d & Hd & Hlt & Hfit & [[-> ->]|[(ds & Hs & Hval & Hm)|[_ (r & -> & ds & Hs & Hval & Hm)]]]).
    + exists [d]. split; [apply spells_last; assumption|]. split; [reflexivity | exact Hfit].
    + exists (d :: ds). split; [apply spells_digit; assumption|]. split; [exact Hval | exact Hm].
    + exists (d :: ds). split; [apply spells_separated; assumption|]. split; [exact Hval | exact Hm].
Qed.

(** Digits start with a digit: not with nothing, not with a separator. *)
Lemma reads_start s value v : 0 <= value <= max_int64 -> reads base s value v -> exists c rest, s = String c rest /\ c <> "_"%char.
Proof.
  intros Hv H. destruct s as [|c rest]; [destruct H as (ds & H & _); inversion H|]. exists c, rest. split; [reflexivity|].
  apply reads_cons in H as (d & Hd & _); [|exact Hv]. intros ->. discriminate.
Qed.

Lemma follows_cons c rest value v previousDigit : 0 <= value <= max_int64 -> c <> "_"%char ->
  follows previousDigit (String c rest) value v <-> reads base (String c rest) value v.
Proof.
  intros Hv Hc. unfold follows. split; [|auto]. intros [[H _]|[H|(_ & r & [= H _] & _)]]; [discriminate | exact H | contradiction].
Qed.

Lemma follows_separator rest value v previousDigit : 0 <= value <= max_int64 ->
  follows previousDigit (String "_" rest) value v <-> previousDigit = true /\ rest <> EmptyString /\ follows false rest value v.
Proof.
  intros Hv. unfold follows. split.
  - intros [[H _]|[H|(Hp & r & [= <-] & H)]]; [discriminate | apply (reads_start _ _ _ Hv) in H as (? & ? & [= <- _] & H); contradiction |].
    split; [exact Hp|]. split; [|auto]. apply (reads_start _ _ _ Hv) in H as (? & ? & -> & _). discriminate.
  - intros (Hp & Hne & [[H _]|[H|[H _]]]); [contradiction | eauto 8 | discriminate].
Qed.

Lemma integerDigits_spec s value v previousDigit : 0 <= value <= max_int64 ->
  integerDigits base s value previousDigit = Some v <-> follows previousDigit s value v.
Proof.
  revert value previousDigit. induction s as [|c rest IH]; intros value prev Hv; cbn [integerDigits].
  { split; [intros [= <-]; left; auto|]. intros [[_ ->]|[H|(_ & r & H & _)]]; [reflexivity | | discriminate].
    apply (reads_start _ _ _ Hv) in H as (? & ? & H & _). discriminate. }
  destruct (Ascii.eqb_spec c "_") as [->|Hc].
  - rewrite (follows_separator _ _ _ _ Hv). destruct (String.eqb_spec rest "") as [->|Hne].
    + rewrite orb_true_r. split; [discriminate|]. intros (_ & H & _). contradiction.
    + rewrite orb_false_r. destruct prev; cbn [negb]; [rewrite IH by exact Hv; tauto|]. split; [discriminate | intros [H _]; discriminate].
  - rewrite (follows_cons _ _ _ _ _ Hv Hc), (reads_cons _ _ _ _ Hv). destruct (digitValue c) as [d|] eqn:Hd.
    2:{ split; [discriminate|]. intros (d & H & _). discriminate. }
    pose proof (proj1 (digitValue_range c d Hd)). destruct (Z.leb_spec base d) as [Hge|Hlt].
    { split; [discriminate|]. intros (d' & [= <-] & H' & _). lia. }
    rewrite digit_overflow by lia. destruct (Z.leb_spec (value * base + d) max_int64) as [Hfit|Hover]; cbn [negb].
    + rewrite wrap64_in by (unfold min_int64; nia). rewrite IH by nia. split; [eauto 8|]. intros (d' & [= <-] & _ & _ & H'). exact H'.
    + split; [discriminate|]. intros (d' & [= <-] & _ & H' & _). lia.
Qed.
End Loop.

(** *** The notation of the language (SPEC 7) *)

Definition digitTable : list (ascii * Z) :=
  [("0", 0); ("1", 1); ("2", 2); ("3", 3); ("4", 4); ("5", 5); ("6", 6); ("7", 7); ("8", 8); ("9", 9);
   ("a", 10); ("b", 11); ("c", 12); ("d", 13); ("e", 14); ("f", 15);
   ("A", 10); ("B", 11); ("C", 12); ("D", 13); ("E", 14); ("F", 15)]%char.

(** Decimal, hexadecimal and binary. *)
Definition notations : list (string * Z) := [("", 10); ("0x", 16); ("0b", 2)].

(** Digits below the base, with single separators between two of them. *)
Inductive writes (base : Z) : string -> list Z -> Prop :=
  | writes_last c d : (c, d) ∈ digitTable -> d < base -> writes base (String c EmptyString) [d]
  | writes_digit c d rest ds : (c, d) ∈ digitTable -> d < base -> writes base rest ds -> writes base (String c rest) (d :: ds)
  | writes_separated c d rest ds : (c, d) ∈ digitTable -> d < base -> writes base rest ds ->
      writes base (String c (String "_" rest)) (d :: ds).

Lemma digitValue_table c d : digitValue c = Some d <-> (c, d) ∈ digitTable.
Proof.
  split.
  - intros H. apply (bool_decide_unpack _). destruct c as [[] [] [] [] [] [] [] []]; vm_compute in H; try discriminate H;
      injection H as <-; vm_compute; exact I.
  - unfold digitTable. rewrite list_elem_of_In. cbn [In]. intros H.
    repeat (destruct H as [[= <- <-]|H]; [reflexivity|]). contradiction.
Qed.

Lemma writes_spells base s ds : writes base s ds <-> spells base s ds.
Proof. split; induction 1; constructor; try assumption; apply digitValue_table; assumption. Qed.

(** The reader takes a prefix for a base exactly where the notation does. *)
Lemma literalBase_notation text ds :
  (exists prefix base digits, (prefix, base) ∈ notations /\ text = prefix +:+ digits /\ writes base digits ds /\ base = (literalBase text).1 /\
     digits = (literalBase text).2) <->
  writes (literalBase text).1 (literalBase text).2 ds.
Proof.
  split; [intros (prefix & base & digits & _ & _ & H & -> & ->); exact H|]. intros H. unfold literalBase in *.
  destruct (HasPrefix text "0x") eqn:Hx; [|destruct (HasPrefix text "0b") eqn:Hb].
  - exists "0x", 16, (sdrop 2 text). apply HasPrefix_true in Hx as [r ->]. cbn in *. repeat split; auto. right. left.
  - exists "0b", 2, (sdrop 2 text). apply HasPrefix_true in Hb as [r ->]. cbn in *. repeat split; auto. right. right. left.
  - exists "", 10, text. repeat split; auto. left.
Qed.

(** A notation with digits is the one the reader takes. *)
Lemma notation_base prefix base digits ds :
  (prefix, base) ∈ notations -> writes base digits ds -> literalBase (prefix +:+ digits) = (base, digits).
Proof.
  unfold notations. rewrite !elem_of_cons, elem_of_nil. intros Hn Hw. destruct Hn as [[= -> ->]|[[= -> ->]|[[= -> ->]|[]]]]; [|destruct digits; reflexivity..].
  rename Hw into H.
  cbn [append]. unfold literalBase.
  assert (Hsecond : forall c, digitValue c = None \/ c = "b"%char -> c <> "_"%char -> HasPrefix digits (String "0" (String c "")) = false).
  { intros c Hc Hne. destruct (HasPrefix digits _) eqn:E; [|reflexivity]. apply HasPrefix_true in E as [r ->]. exfalso. cbn in H.
    assert (Hd : forall rest ds', writes 10 (String c rest) ds' -> False).
    { intros rest ds' Hw. inversion Hw as [? d Hin Hlt|? d ? ? Hin Hlt|? d ? ? Hin Hlt]; subst; apply digitValue_table in Hin;
        (destruct Hc as [Hc| ->]; [congruence | vm_compute in Hin; injection Hin as <-; lia]). }
    inversion H; subst; [eapply Hd; eassumption | contradiction]. }
  rewrite !Hsecond; auto; discriminate.
Qed.

(** C24. An integer literal is its value: the parser accepts exactly the decimal
    digits, and the hexadecimal and binary digits behind their prefixes, with
    single separators between digits, whose value fits in a signed 64-bit
    integer, and gives that value; the wrap-around of its arithmetic never
    happens. *)
Theorem integer_literal_exact text v :
  integerLiteralValue text = Some v <->
  exists prefix base digits ds, (prefix, base) ∈ notations /\ text = prefix +:+ digits /\ writes base digits ds /\
    v = valueFrom base 0 ds /\ v <= max_int64.
Proof.
  assert (Hread : integerLiteralValue text = Some v <->
    exists ds, writes (literalBase text).1 (literalBase text).2 ds /\ v = valueFrom (literalBase text).1 0 ds /\ v <= max_int64).
  { setoid_rewrite writes_spells. unfold integerLiteralValue. assert (Hb : 2 <= (literalBase text).1 <= 16).
    { unfold literalBase. destruct (HasPrefix text "0x"); [cbn; lia|]. destruct (HasPrefix text "0b"); cbn; lia. }
    destruct (literalBase text) as [base digits]. cbn [fst snd] in *. destruct (String.eqb_spec digits "") as [->|Hne].
    - split; [discriminate|]. intros (ds & H & _). inversion H.
    - rewrite (integerDigits_spec base Hb) by (unfold max_int64; lia). unfold follows.
      split; [intros [[H _]|[H|[H _]]]; [contradiction | exact H | discriminate] | auto]. }
  rewrite Hread. split.
  - intros (ds & Hw & Hv). apply literalBase_notation in Hw as (prefix & base & digits & Hn & Ht & Hw & Hb & Hd).
    rewrite <- Hb in Hv. exists prefix, base, digits, ds. auto.
  - intros (prefix & base & digits & ds & Hn & -> & Hw & Hv). exists ds. rewrite (notation_base _ _ _ _ Hn Hw). auto.
Qed.

Lemma integer_literal_exact_witness :
  integerLiteralValue "0xF_f" = Some 255 /\ integerLiteralValue "9223372036854775808" = None /\
  exists prefix base digits ds, (prefix, base) ∈ notations /\ "0xF_f" = prefix +:+ digits /\ writes base digits ds /\
    255 = valueFrom base 0 ds /\ 255 <= max_int64.
Proof. split; [reflexivity|]. split; [reflexivity|]. apply integer_literal_exact. reflexivity. Defined.

(** ** Quoted bytes *)

Definition unhex (c : ascii) : option Z :=
  let v := byteVal c in
  if (48 <=? v) && (v <=? 57) then Some (v - 48) else if (65 <=? v) && (v <=? 70) then Some (v - 55) else None.

(** The byte an escape stands for, and what follows the escape. *)
Definition escaped (s : string) : option (ascii * string) :=
  match s with
  | String e rest =>
      if (byteVal e =? 34) || (byteVal e =? 92) then Some (e, rest)
      else if byteVal e =? 110 then Some (byteOf 10, rest)
      else if byteVal e =? 114 then Some (byteOf 13, rest)
      else if byteVal e =? 116 then Some (byteOf 9, rest)
      else if byteVal e =? 120 then
        match rest with
        | String h (String l rest) =>
            match unhex h, unhex l with Some h, Some l => Some (byteOf (h * 16 + l), rest) | _, _ => None end
        | _ => None
        end
      else None
  | EmptyString => None
  end.

(** A printable ASCII byte. *)
Definition printable (c : ascii) : bool := (32 <=? byteVal c) && (byteVal c <=? 126).

(** The bytes between the quotes. *)
Fixpoint unquoteFrom (fuel : nat) (s : string) : option string :=
  match fuel, s with
  | S fuel, String c rest =>
      if byteVal c =? 34 then match rest with EmptyString => Some EmptyString | _ => None end
      else if byteVal c =? 92 then
        match escaped rest with Some (b, rest) => option_map (String b) (unquoteFrom fuel rest) | None => None end
      else if printable c then option_map (String c) (unquoteFrom fuel rest) else None
  | _, _ => None
  end.

Definition unquote (s : string) : option string :=
  match s with String c rest => if byteVal c =? 34 then unquoteFrom (String.length rest) rest else None | EmptyString => None end.

Lemma unquote_quoteByte fuel c rest : unquoteFrom (S fuel) (quoteByte c rest) = option_map (String c) (unquoteFrom fuel rest).
Proof. destruct c as [[] [] [] [] [] [] [] []]; reflexivity. Qed.

Lemma quoteByte_length c rest : (S (String.length rest) <= String.length (quoteByte c rest))%nat.
Proof.
  assert (Happ : quoteByte c rest = quoteByte c EmptyString +:+ rest) by (destruct c as [[] [] [] [] [] [] [] []]; reflexivity).
  assert (Hone : (1 <= String.length (quoteByte c EmptyString))%nat) by (destruct c as [[] [] [] [] [] [] [] []]; apply Nat.leb_le; reflexivity).
  rewrite Happ, slength_app. lia.
Qed.

Lemma quoteByte_printable c rest : sall printable (quoteByte c rest) = sall printable rest.
Proof. destruct c as [[] [] [] [] [] [] [] []]; reflexivity. Qed.

(** C25. A quoted text is printable ASCII and reads back as the bytes it quotes:
    no two texts are quoted alike, whatever bytes they hold. *)
Theorem quote_round_trip text : sall printable (Bytes text) = true /\ unquote (Bytes text) = Some text.
Proof.
  unfold Bytes. split.
  - cbn [sall]. induction text as [|c rest IH]; [reflexivity|]. cbn [quoteBytes]. rewrite quoteByte_printable. exact IH.
  - cbn [unquote]. change (byteVal "034" =? 34) with true. cbv iota. set (close := String "034" EmptyString).
    assert (H : forall fuel, (String.length (quoteBytes text close) <= fuel)%nat -> unquoteFrom fuel (quoteBytes text close) = Some text).
    { induction text as [|c rest IH]; intros fuel Hf; cbn [quoteBytes] in *.
      - destruct fuel; [cbn in Hf; lia | reflexivity].
      - pose proof (quoteByte_length c (quoteBytes rest close)). destruct fuel as [|fuel]; [lia|].
        rewrite unquote_quoteByte, IH by lia. reflexivity. }
    apply H. reflexivity.
Qed.
