(* ===== verification/Ast.v ===== *)
(** * The syntax tree ([internal/ast/ast.go])

    A node the parser leaves nil after an error is an option.  [String] is a
    method call on every child, so printing a tree with a hole panics: the
    printers return an option, and [None] is that panic.  Spans carry no source
    handle; it is one for each parser. *)

From stdpp Require Import base list strings gmap.
From Stdlib Require Import ZArith Lia String Ascii.
From S2P Require Import Prelude GoStd Typ Token Literals.

#[local] Set Warnings "-register-all".
#[local] Open Scope string_scope.
#[local] Open Scope list_scope.

(** ** Places *)

Record Position : Type := mkPosition { Line : Z; Column : Z }.
Record Span : Type := mkSpan { Start : Position; End_ : Position }.

(** The zero [Span]. *)
Definition noSpan : Span := mkSpan (mkPosition 0 0) (mkPosition 0 0).

(** [Span.IsZero] *)
Definition IsZero (s : Span) : bool := (Line (Start s) =? 0)%Z || (Column (Start s) =? 0)%Z.

(** ** Expressions and statements *)

Inductive Expr : Type :=
  | IdentExpr (Name : string) (At : Span)
  | IntExpr (Value : string)
  | FloatExpr (Value : string)
  | StringExpr (Value : string)
  | CStringExpr (Value : string)
  | NullExpr (At : Span)
  | BoolExpr (Value : bool)
  | TypeExpr (TypeName : string)
  | ComptimeExpr (Operand : Expr)
  | PrefixExpr (Operator : string) (Right : Expr)
  | BinaryExpr (Left : Expr) (Operator : string) (OperatorSpan : Span) (Right : Expr)
  | CallExpr (Callee : Expr) (Args : list Expr)
  | TypeApplyExpr (Callee : Expr) (TypeArg : string)
  | CastExpr (TargetType : option Ty) (Value : option Expr) (KeywordSpan : Span)
  | TryExpr (Value : Expr)
  | MoveExpr (Value : Expr) (At : Span)
  | UnsafeExpr (Value : Expr) (Safety : string) (At : Span)
  | IndexExpr (Target : Expr) (Index StartBound EndBound : option Expr) (Slice : bool) (At : Span)
  | StructLiteralExpr (TypeName : string) (Fields : list FieldValue) (At : Span)
  | BufferLiteralExpr (Len Elem : string) (Elements : list Expr) (At : Span)
  | VectorLiteralExpr (TypeName : string) (Lanes : list Expr) (At : Span)
  | FieldExpr (Receiver : Expr) (Name : string) (Namespace : bool) (At : Span)
  | DerefExpr (Receiver : Expr) (OperatorSpan : Span)
  | OrelseGuardExpr (Cond : Expr) (Exit : Stmt) (At : Span)
  | CatchGuardExpr (Cond : Expr) (Exit : Stmt) (At : Span)
  | IfExpr (stmt : IfStmt)
  | MatchExpr (stmt : MatchStmt)
with FieldValue : Type :=
  | mkFieldValue (Name : string) (Value : Expr)
with Stmt : Type :=
  | BlockSt (block : BlockStmt)
  | LetStmt (At : Span) (Mutable : bool) (Name : string) (TypeName : option Ty) (Value : option Expr)
  | AssignStmt (At : Span) (Target Value : Expr)
  | ReturnStmt (At : Span) (Value : option Expr)
  | DeferStmt (At : Span) (Value : option Expr)
  | ErrDeferStmt (At : Span) (Value : option Expr)
  | IfSt (stmt : IfStmt)
  | WhileStmt (At : Span) (Label : string) (Condition : Expr) (Body : option BlockStmt) (Capture : string)
  | ForStmt (At : Span) (Label Name : string) (StartBound : Expr) (EndBound : option Expr) (Body : option BlockStmt)
  | BreakStmt (At : Span) (Label : string)
  | ContinueStmt (At : Span) (Label : string)
  | MatchSt (stmt : MatchStmt)
  | ComptimeIfStmt (At : Span) (Condition : option Expr) (Consequence Alternative : option BlockStmt)
  | ComptimeForStmt (At : Span) (List_ StartBound EndBound : option Expr) (Name : string) (Body : option BlockStmt)
  | ComptimeMatchStmt (At : Span) (Value : option Expr) (Name Binding : string) (Body : option BlockStmt)
  | ExprStmt (At : Span) (Expression : Expr) (Semicolon : bool)
with BlockStmt : Type :=
  | mkBlock (At : Span) (Statements : list Stmt)
with IfStmt : Type :=
  | mkIf (At : Span) (Condition : Expr) (Consequence Alternative : option BlockStmt) (Capture ErrCapture : string)
with MatchStmt : Type :=
  | mkMatch (At : Span) (Value : Expr) (Arms : list MatchArm) (MetaCapture MetaOwner : string)
with MatchArm : Type :=
  | mkArm (Tag Binding : string) (Body : Stmt) (TagSet : string).

(** [SetStatementSpan] *)
Definition SetStatementSpan (at_ : Span) (s : Stmt) : Stmt :=
  match s with
  | BlockSt (mkBlock _ l) => BlockSt (mkBlock at_ l)
  | LetStmt _ m n t v => LetStmt at_ m n t v
  | AssignStmt _ t v => AssignStmt at_ t v
  | ReturnStmt _ v => ReturnStmt at_ v
  | DeferStmt _ v => DeferStmt at_ v
  | ErrDeferStmt _ v => ErrDeferStmt at_ v
  | IfSt (mkIf _ c t e x y) => IfSt (mkIf at_ c t e x y)
  | WhileStmt _ l c b x => WhileStmt at_ l c b x
  | ForStmt _ l n x y b => ForStmt at_ l n x y b
  | BreakStmt _ l => BreakStmt at_ l
  | ContinueStmt _ l => ContinueStmt at_ l
  | MatchSt (mkMatch _ v a x y) => MatchSt (mkMatch at_ v a x y)
  | ComptimeIfStmt _ c t e => ComptimeIfStmt at_ c t e
  | ComptimeForStmt _ l x y n b => ComptimeForStmt at_ l x y n b
  | ComptimeMatchStmt _ v n x b => ComptimeMatchStmt at_ v n x b
  | ExprStmt _ e s => ExprStmt at_ e s
  end.

(** [StatementSpan] *)
Definition StatementSpan (s : Stmt) : Span :=
  match s with
  | BlockSt (mkBlock at_ _) | LetStmt at_ _ _ _ _ | AssignStmt at_ _ _ | ReturnStmt at_ _ | DeferStmt at_ _
  | ErrDeferStmt at_ _ | IfSt (mkIf at_ _ _ _ _ _) | WhileStmt at_ _ _ _ _ | ForStmt at_ _ _ _ _ _ | BreakStmt at_ _
  | ContinueStmt at_ _ | MatchSt (mkMatch at_ _ _ _ _) | ComptimeIfStmt at_ _ _ _ | ComptimeForStmt at_ _ _ _ _ _
  | ComptimeMatchStmt at_ _ _ _ _ | ExprStmt at_ _ _ => at_
  end.

(** ** Printing *)

(** The texts of a list of children; [String] of a nil child panics. *)
Section Collect.
Context {A : Type} (f : A -> option string).

Fixpoint collect (l : list A) : option (list string) :=
  match l with
  | [] => Some []
  | x :: rest => match f x, collect rest with Some s, Some rest => Some (s :: rest) | _, _ => None end
  end.

Definition present (o : option A) : option string := match o with Some x => f x | None => None end.
End Collect.

(** The text of a nil type under the verb [%s]. *)
Definition typeVerb (t : option Ty) : string := match t with Some t => TypeString t | None => "%!s(<nil>)" end.

(** The texts of the parts, in order, or the panic of one of them. *)
Definition texts (parts : list (option string)) : option string := option_map (fun l => Join l "") (collect (fun p => p) parts).

Definition labelled (label : string) (out : option string) : option string :=
  if String.eqb label "" then out else texts [Some label; Some ": "; out].

(** [BufferLiteralExpr.TypeText] *)
Definition TypeText (len elem : string) : string := "[" +:+ len +:+ "]" +:+ elem.

(** [String] of every expression and statement. *)
Fixpoint ExprString (e : Expr) : option string :=
  match e with
  | IdentExpr name _ => Some name
  | IntExpr v | FloatExpr v => Some v
  | StringExpr v => Some (Bytes v)
  | CStringExpr v => Some ("c" +:+ Bytes v)
  | NullExpr _ => Some "null"
  | BoolExpr true => Some "true"
  | BoolExpr false => Some "false"
  | TypeExpr t => Some ("type<" +:+ t +:+ ">")
  | ComptimeExpr e => texts [Some "comptime "; ExprString e]
  | PrefixExpr op r => texts [Some ("(" +:+ op); ExprString r; Some ")"]
  | BinaryExpr l op _ r => texts [Some "("; ExprString l; Some (" " +:+ op +:+ " "); ExprString r; Some ")"]
  | CallExpr callee args =>
      match ExprString callee, collect ExprString args with
      | Some c, Some a => Some (c +:+ "(" +:+ Join a ", " +:+ ")")
      | _, _ => None
      end
  | TypeApplyExpr callee arg => texts [ExprString callee; Some ("<" +:+ arg +:+ ">")]
  | CastExpr target value _ => texts [Some ("cast<" +:+ typeVerb target +:+ ">("); present ExprString value; Some ")"]
  | TryExpr v => texts [Some "try "; ExprString v]
  | MoveExpr v _ => texts [Some "move "; ExprString v]
  | UnsafeExpr v _ _ => texts [Some "unsafe "; ExprString v]
  | IndexExpr target index start end_ slice _ =>
      if negb slice then texts [ExprString target; Some "["; present ExprString index; Some "]"]
      else texts [ExprString target; Some "[";
                  match start with Some e => ExprString e | None => Some "" end; Some "..";
                  match end_ with Some e => ExprString e | None => Some "" end; Some "]"]
  | StructLiteralExpr name fields _ =>
      option_map (fun parts => name +:+ " { " +:+ Join parts ", " +:+ " }") (collect FieldValueString fields)
  | BufferLiteralExpr len elem elements _ =>
      option_map (fun parts => TypeText len elem +:+ "{" +:+ Join parts ", " +:+ "}") (collect ExprString elements)
  | VectorLiteralExpr name lanes _ =>
      option_map (fun parts => name +:+ "{" +:+ Join parts ", " +:+ "}") (collect ExprString lanes)
  | FieldExpr receiver name namespace _ =>
      texts [ExprString receiver; Some ((if namespace then "::" else ".") +:+ name)]
  | DerefExpr receiver _ => texts [ExprString receiver; Some ".*"]
  | OrelseGuardExpr cond exit _ =>
      texts [Some "("; ExprString cond; Some " orelse "; option_map (fun s => TrimSuffix s ";") (StmtString exit); Some ")"]
  | CatchGuardExpr cond exit _ =>
      texts [Some "("; ExprString cond; Some " catch "; option_map (fun s => TrimSuffix s ";") (StmtString exit); Some ")"]
  | IfExpr s => IfString s
  | MatchExpr s => MatchString s
  end
with FieldValueString (v : FieldValue) : option string :=
  match v with mkFieldValue name value => texts [Some (name +:+ ": "); ExprString value] end
with StmtString (s : Stmt) : option string :=
  match s with
  | BlockSt b => BlockString b
  | LetStmt _ mutable name ty value =>
      let head := (if mutable then "var" else "let") +:+ " " +:+ name in
      let head := match ty with Some t => head +:+ ": " +:+ Text (Some t) | None => head end in
      texts [Some (head +:+ " = "); present ExprString value; Some ";"]
  | AssignStmt _ target value => texts [ExprString target; Some " = "; ExprString value; Some ";"]
  | ReturnStmt _ None => Some "return;"
  | ReturnStmt _ (Some value) => texts [Some "return "; ExprString value; Some ";"]
  | DeferStmt _ value => texts [Some "defer "; present ExprString value; Some ";"]
  | ErrDeferStmt _ value => texts [Some "errdefer "; present ExprString value; Some ";"]
  | IfSt s => IfString s
  | WhileStmt _ label cond body _ => labelled label (texts [Some "while "; ExprString cond; Some " "; present BlockString body])
  | ForStmt _ label name start end_ body =>
      labelled label (texts [Some "for "; ExprString start; Some ".."; present ExprString end_;
                             Some (" |" +:+ name +:+ "| "); present BlockString body])
  | BreakStmt _ label => Some (if String.eqb label "" then "break;" else "break :" +:+ label +:+ ";")
  | ContinueStmt _ label => Some (if String.eqb label "" then "continue;" else "continue :" +:+ label +:+ ";")
  | MatchSt s => MatchString s
  | ComptimeIfStmt _ cond yes no =>
      texts [Some "comptime if "; present ExprString cond; Some " "; present BlockString yes;
             match no with Some b => texts [Some " else "; BlockString b] | None => Some "" end]
  | ComptimeForStmt _ None start end_ name body =>
      texts [Some "comptime for "; present ExprString start; Some ".."; present ExprString end_;
             Some (" |" +:+ name +:+ "| "); present BlockString body]
  | ComptimeForStmt _ (Some l) _ _ name body =>
      texts [Some "comptime for "; ExprString l; Some (" |" +:+ name +:+ "| "); present BlockString body]
  | ComptimeMatchStmt _ value name binding body =>
      let capture := if String.eqb binding "" then name else name +:+ ", " +:+ binding in
      texts [Some "comptime match "; present ExprString value; Some (" |" +:+ capture +:+ "| "); present BlockString body]
  | ExprStmt _ e _ => texts [ExprString e; Some ";"]
  end
with BlockString (b : BlockStmt) : option string :=
  match b with mkBlock _ l => option_map (fun parts => "{ " +:+ Join parts " " +:+ " }") (collect StmtString l) end
with IfString (s : IfStmt) : option string :=
  match s with
  | mkIf _ cond yes no _ _ =>
      texts [Some "if "; ExprString cond; Some " "; present BlockString yes;
             match no with Some b => texts [Some " else "; BlockString b] | None => Some "" end]
  end
with MatchString (s : MatchStmt) : option string :=
  match s with
  | mkMatch _ value arms _ _ =>
      match ExprString value, collect ArmString arms with
      | Some v, Some a => Some ("match " +:+ v +:+ " { " +:+ Join a ", " +:+ " }")
      | _, _ => None
      end
  end
with ArmString (a : MatchArm) : option string :=
  match a with
  | mkArm tag binding body tagSet =>
      let tag := if String.eqb tagSet "" then tag else tagSet +:+ "::" +:+ tag in
      let head := if String.eqb binding "" then tag else tag +:+ "(" +:+ binding +:+ ")" in
      let text := match body with ExprStmt _ e false => ExprString e | _ => StmtString body end in
      texts [Some (head +:+ " => "); text]
  end.

(** ** Declarations *)

Record StaticParam : Type := mkStaticParam { spName : string; spType : option Ty }.

(** [StaticParam.IsType] *)
Definition IsType (p : StaticParam) : bool := match spType p with None => true | Some _ => false end.

(** [StaticParam.String] *)
Definition StaticParamString (p : StaticParam) : string :=
  match spType p with None => spName p | Some t => spName p +:+ ": " +:+ TypeString t end.

Record Param : Type := mkParam { pSpan : Span; pName : string; pTypeName : option Ty; pBorrow : bool; pMutBorrow : bool }.

Record Field : Type := mkField {
  fSpan : Span; fName : string; fDoc : string; fTypeName : option Ty; fBorrow : bool; fMutBorrow : bool; fPublic : bool
}.

Record UnionVariant : Type := mkVariant { uvSpan : Span; uvName : string; uvDoc : string; uvPayload : option Ty }.

Record FunctionSignature : Type := mkSignature {
  sgReceiver : bool;
  sgName : string;
  sgStaticParams : list StaticParam;
  sgParams : list Param;
  sgVariadic : bool;
  sgReturnType : option Ty;
  sgRequiresUnsafe : bool;
  sgExternABI : string;
  sgExportABI : string;
  sgLinkLibrary : string;
  sgLinkFramework : string;
  sgPublic : bool;
  sgStd : bool;
  sgSpan : Span
}.

Record FunctionDecl : Type := mkFunctionDecl {
  fdAt : Span; fdSignature : FunctionSignature; fdDoc : string; fdDerived : bool; fdBody : option BlockStmt
}.

Record StructDecl : Type := mkStructDecl {
  sdAt : Span; sdName : string; sdDoc : string; sdTypeParams : list string; sdFields : list Field; sdPublic : bool;
  sdSpan : Span; sdRequiresUnsafe : bool; sdExternABI : string
}.

Record EnumDecl : Type := mkEnumDecl {
  edAt : Span; edName : string; edDoc : string; edTags : list string; edTagDocs : option (gmap string string); edPublic : bool
}.

Record ErrorSetDecl : Type := mkErrorSetDecl {
  esAt : Span; esName : string; esDoc : string; esMembers : list string; esMemberDocs : option (gmap string string);
  esPublic : bool; esCombines : list string
}.

Record UnionDecl : Type := mkUnionDecl {
  udAt : Span; udName : string; udDoc : string; udTypeParams : list string; udVariants : list UnionVariant; udPublic : bool
}.

Record ContractDecl : Type := mkContractDecl { cdAt : Span; cdName : string; cdMethods : list FunctionDecl; cdPublic : bool }.

Record ImplDecl : Type := mkImplDecl { idAt : Span; idContractName : string; idTypeName : string }.

Record ImportDecl : Type := mkImportDecl { imAt : Span; imPath : list string }.

Record TestDecl : Type := mkTestDecl { tdAt : Span; tdName : string; tdBody : option BlockStmt; tdModule : string }.

Inductive Decl : Type :=
  | DImport (d : ImportDecl)
  | DFunction (d : FunctionDecl)
  | DTest (d : TestDecl)
  | DStruct (d : StructDecl)
  | DEnum (d : EnumDecl)
  | DErrorSet (d : ErrorSetDecl)
  | DUnion (d : UnionDecl)
  | DContract (d : ContractDecl)
  | DImpl (d : ImplDecl).

Definition Program_ : Type := list Decl.

(** [SetDeclarationSpan] *)
Definition SetDeclarationSpan (at_ : Span) (d : Decl) : Decl :=
  match d with
  | DImport d => DImport (mkImportDecl at_ (imPath d))
  | DFunction d => DFunction (mkFunctionDecl at_ (fdSignature d) (fdDoc d) (fdDerived d) (fdBody d))
  | DTest d => DTest (mkTestDecl at_ (tdName d) (tdBody d) (tdModule d))
  | DStruct d => DStruct (mkStructDecl at_ (sdName d) (sdDoc d) (sdTypeParams d) (sdFields d) (sdPublic d) (sdSpan d)
      (sdRequiresUnsafe d) (sdExternABI d))
  | DEnum d => DEnum (mkEnumDecl at_ (edName d) (edDoc d) (edTags d) (edTagDocs d) (edPublic d))
  | DErrorSet d => DErrorSet (mkErrorSetDecl at_ (esName d) (esDoc d) (esMembers d) (esMemberDocs d) (esPublic d) (esCombines d))
  | DUnion d => DUnion (mkUnionDecl at_ (udName d) (udDoc d) (udTypeParams d) (udVariants d) (udPublic d))
  | DContract d => DContract (mkContractDecl at_ (cdName d) (cdMethods d) (cdPublic d))
  | DImpl d => DImpl (mkImplDecl at_ (idContractName d) (idTypeName d))
  end.

(** [borrowPrefix] as the fields of a parameter or a field choose it. *)
Definition borrowPrefix (borrow mutBorrow : bool) : string :=
  if mutBorrow then "&var " else if borrow then "&" else "".

(** [Param.String] *)
Definition ParamString (p : Param) : string :=
  pName p +:+ ": " +:+ borrowPrefix (pBorrow p) (pMutBorrow p) +:+ typeVerb (pTypeName p).

(** [Field.String] *)
Definition FieldString (f : Field) : string :=
  (if fPublic f then "pub " else "") +:+ fName f +:+ ": " +:+ borrowPrefix (fBorrow f) (fMutBorrow f) +:+ typeVerb (fTypeName f).

(** [UnionVariant.String] *)
Definition VariantString (v : UnionVariant) : string :=
  match uvPayload v with None => uvName v | Some t => uvName v +:+ "(" +:+ TypeString t +:+ ")" end.

(** [linkAttributeText] *)
Definition linkAttributeText (sig : FunctionSignature) : string :=
  let line name value := if String.eqb value "" then "" else name +:+ Bytes value +:+ ")" +:+ String "010" EmptyString in
  line "@link_library(" (sgLinkLibrary sig) +:+ line "@link_framework(" (sgLinkFramework sig).

Definition angled (text : string) : string := if String.eqb text "" then "" else "<" +:+ text +:+ ">".

Definition public (b : bool) : string := if b then "pub " else "".

(** [FunctionDecl.String] *)
Definition FunctionString (d : FunctionDecl) : option string :=
  let s := fdSignature d in
  let '(receiver, rest) :=
    match sgReceiver s, sgParams s with
    | true, p :: rest => ("(" +:+ ParamString p +:+ ") ", rest)
    | _, rest => ("", rest)
    end in
  let params := map ParamString rest ++ (if sgVariadic s then ["..."] else []) in
  let ret := match sgReturnType s with Some t => " -> " +:+ TypeString t | None => "" end in
  let typeParams := angled (Join (map StaticParamString (sgStaticParams s)) ", ") in
  let prefix := public (sgPublic s) +:+ (if sgRequiresUnsafe s then "unsafe " else "") in
  let signature := receiver +:+ sgName s +:+ typeParams +:+ "(" +:+ Join params ", " +:+ ")" +:+ ret in
  if negb (String.eqb (sgExternABI s) "") then
    Some (linkAttributeText s +:+ prefix +:+ "extern " +:+ Bytes (sgExternABI s) +:+ " fn " +:+ signature)
  else
    let prefix := if String.eqb (sgExportABI s) "" then prefix else prefix +:+ "export " +:+ Bytes (sgExportABI s) +:+ " " in
    match fdBody d with
    | None => Some (prefix +:+ "fn " +:+ signature +:+ ";")
    | Some body => texts [Some (prefix +:+ "fn " +:+ signature +:+ " "); BlockString body]
    end.

(** [TestDecl.String] *)
Definition TestString (d : TestDecl) : option string :=
  match tdBody d with
  | None => Some ("test " +:+ Bytes (tdName d) +:+ " <missing>")
  | Some body => texts [Some ("test " +:+ Bytes (tdName d) +:+ " "); BlockString body]
  end.

(** [EnumDecl.String] *)
Definition EnumString (d : EnumDecl) : string :=
  public (edPublic d) +:+ "enum " +:+ edName d +:+ " { " +:+ Join (edTags d) ", " +:+ " }".

(** [ErrorSetDecl.String] *)
Definition ErrorSetString (d : ErrorSetDecl) : string :=
  match esCombines d with
  | [] => public (esPublic d) +:+ "error " +:+ esName d +:+ " { " +:+ Join (esMembers d) ", " +:+ " }"
  | sets => public (esPublic d) +:+ "error " +:+ esName d +:+ " = " +:+ Join sets " or " +:+ ";"
  end.

(** [UnionDecl.String] *)
Definition UnionString (d : UnionDecl) : string :=
  public (udPublic d) +:+ "union " +:+ udName d +:+ angled (Join (udTypeParams d) ", ") +:+ " { " +:+
  Join (map VariantString (udVariants d)) ", " +:+ " }".

(** [ContractDecl.String] *)
Definition ContractString (d : ContractDecl) : option string :=
  option_map (fun methods => public (cdPublic d) +:+ "contract " +:+ cdName d +:+ " { " +:+ Join methods "; " +:+ " }")
    (collect FunctionString (cdMethods d)).

(** [ImplDecl.String] *)
Definition ImplString (d : ImplDecl) : string := "impl " +:+ idContractName d +:+ " for " +:+ idTypeName d +:+ ";".

(** [ImportDecl.String] *)
Definition ImportString (d : ImportDecl) : string := "import " +:+ Join (imPath d) "::".
