(* ===== verification/AstFacts.v ===== *)
(** * Trees without holes

    [complete] says that no child that printing, checking or lowering reads is
    missing; what is complete prints. *)

From stdpp Require Import base list strings.
From Stdlib Require Import ZArith Lia String Ascii.
From S2P Require Import Prelude GoStd Typ Token Literals Ast.

#[local] Open Scope string_scope.
#[local] Open Scope list_scope.

Definition given {A} (f : A -> bool) (o : option A) : bool := match o with Some x => f x | None => false end.
Definition optional {A} (f : A -> bool) (o : option A) : bool := match o with Some x => f x | None => true end.
Definition some {A} (o : option A) : bool := match o with Some _ => true | None => false end.

(** No child is missing where one belongs. *)
Fixpoint complete (e : Expr) : bool :=
  match e with
  | IdentExpr _ _ | IntExpr _ | FloatExpr _ | StringExpr _ | CStringExpr _ | NullExpr _ | BoolExpr _ | TypeExpr _ => true
  | ComptimeExpr e | PrefixExpr _ e | TypeApplyExpr e _ | TryExpr e | MoveExpr e _ | UnsafeExpr e _ _
  | FieldExpr e _ _ _ | DerefExpr e _ => complete e
  | BinaryExpr l _ _ r => complete l && complete r
  | CallExpr callee args => complete callee && forallb complete args
  | CastExpr target value _ => some target && given complete value
  | IndexExpr target index start end_ slice _ =>
      complete target && optional complete start && optional complete end_ &&
      if slice then some start || some end_ else given complete index
  | StructLiteralExpr _ fields _ => forallb completeField fields
  | BufferLiteralExpr _ _ elements _ => forallb complete elements
  | VectorLiteralExpr _ lanes _ => forallb complete lanes
  | OrelseGuardExpr cond exit _ | CatchGuardExpr cond exit _ => complete cond && completeStmt exit
  | IfExpr s => completeIf s
  | MatchExpr s => completeMatch s
  end
with completeField (v : FieldValue) : bool := match v with mkFieldValue _ value => complete value end
with completeStmt (s : Stmt) : bool :=
  match s with
  | BlockSt b => completeBlock b
  | LetStmt _ _ _ _ value | DeferStmt _ value | ErrDeferStmt _ value => given complete value
  | AssignStmt _ target value => complete target && complete value
  | ReturnStmt _ value => optional complete value
  | IfSt s => completeIf s
  | WhileStmt _ _ cond body _ => complete cond && given completeBlock body
  | ForStmt _ _ _ start end_ body => complete start && given complete end_ && given completeBlock body
  | BreakStmt _ _ | ContinueStmt _ _ => true
  | MatchSt s => completeMatch s
  | ComptimeIfStmt _ cond yes no => given complete cond && given completeBlock yes && optional completeBlock no
  | ComptimeForStmt _ None start end_ _ body => given complete start && given complete end_ && given completeBlock body
  | ComptimeForStmt _ (Some l) _ _ _ body => complete l && given completeBlock body
  | ComptimeMatchStmt _ value _ _ body => given complete value && given completeBlock body
  | ExprStmt _ e _ => complete e
  end
with completeBlock (b : BlockStmt) : bool := match b with mkBlock _ l => forallb completeStmt l end
with completeIf (s : IfStmt) : bool :=
  match s with mkIf _ cond yes no _ _ => complete cond && given completeBlock yes && optional completeBlock no end
with completeMatch (s : MatchStmt) : bool :=
  match s with mkMatch _ value arms _ _ => complete value && forallb completeArm arms end
with completeArm (a : MatchArm) : bool := match a with mkArm _ _ body _ => completeStmt body end.

(** ** What is complete prints *)

Definition prints {A} (good : A -> bool) (text : A -> option string) (x : A) : Prop := good x = true -> is_Some (text x).

(** Printing a list prints each element; the recursion is on the list. *)
Section Lists.
Context {A : Type} (good : A -> bool) (text : A -> option string) (IH : forall x, prints good text x).

Fixpoint collect_prints (l : list A) : forallb good l = true -> is_Some (collect text l).
Proof.
  destruct l as [|x l]; intros H; [eexists; reflexivity|]. apply andb_true_iff in H as [Hx Hl].
  destruct (IH x Hx) as [s Hs]. destruct (collect_prints l Hl) as [r Hr]. exists (s :: r). cbn [collect]. rewrite Hs, Hr. reflexivity.
Defined.

Definition present_prints (o : option A) : given good o = true -> is_Some (present text o).
Proof. destruct o as [x|]; intros H; [exact (IH x H) | discriminate]. Defined.

Definition optional_prints (o : option A) default_ :
  optional good o = true -> is_Some (match o with Some x => text x | None => Some default_ end).
Proof. destruct o as [x|]; intros H; [exact (IH x H) | eexists; reflexivity]. Defined.
End Lists.

Lemma texts_is_Some parts : Forall is_Some parts -> is_Some (texts parts).
Proof.
  intros H. unfold texts. assert (is_Some (collect (fun p => p) parts)) as [r ->]; [|eexists; reflexivity].
  induction H as [|p parts [s ->] _ [r Hr]]; [eexists; reflexivity|]. cbn [collect]. rewrite Hr. eexists; reflexivity.
Qed.

Lemma labelled_is_Some label o : is_Some o -> is_Some (labelled label o).
Proof. intros [s ->]. unfold labelled. destruct (String.eqb _ _); eexists; reflexivity. Qed.

Lemma option_map_is_Some {A B} (f : A -> B) o : is_Some o -> is_Some (option_map f o).
Proof. intros [x ->]. eexists; reflexivity. Qed.

Ltac parts := repeat match goal with
  | H : _ && _ = true |- _ => apply andb_true_iff in H as [? ?]
  | |- is_Some (texts _) => apply texts_is_Some
  | |- is_Some (option_map _ _) => apply option_map_is_Some
  | |- is_Some (Some _) => eexists; reflexivity
  | |- is_Some (labelled _ _) => apply labelled_is_Some
  | |- Forall is_Some (_ :: _) => constructor
  | |- Forall is_Some [] => constructor
  end.

Fixpoint expr_prints (e : Expr) : prints complete ExprString e
with field_prints (v : FieldValue) : prints completeField FieldValueString v
with stmt_prints (s : Stmt) : prints completeStmt StmtString s
with block_prints (b : BlockStmt) : prints completeBlock BlockString b
with if_prints (s : IfStmt) : prints completeIf IfString s
with match_prints (s : MatchStmt) : prints completeMatch MatchString s
with arm_prints (a : MatchArm) : prints completeArm ArmString a.
Proof.
  - destruct e; intros H; cbn [complete] in H; cbn [ExprString]; parts;
      try (eexists; reflexivity); try (apply expr_prints; assumption).
    + destruct Value; eexists; reflexivity.
    + destruct (expr_prints e H) as [c ->]. destruct (collect_prints _ _ expr_prints Args H0) as [a ->]. eexists; reflexivity.
    + exact (present_prints _ _ expr_prints _ H0).
    + destruct Slice; cbn [negb]; parts; try (apply expr_prints; assumption).
      * exact (optional_prints _ _ expr_prints _ _ H2).
      * exact (optional_prints _ _ expr_prints _ _ H1).
      * exact (present_prints _ _ expr_prints _ H0).
    + exact (collect_prints _ _ field_prints _ H).
    + exact (collect_prints _ _ expr_prints _ H).
    + exact (collect_prints _ _ expr_prints _ H).
    + apply stmt_prints; assumption.
    + apply stmt_prints; assumption.
    + apply if_prints; assumption.
    + apply match_prints; assumption.
  - destruct v; intros H; cbn [completeField] in H; cbn [FieldValueString]; parts. apply expr_prints; assumption.
  - destruct s; intros H; cbn [completeStmt] in H; cbn [StmtString]; parts;
      try (apply expr_prints; assumption); try exact (present_prints _ _ expr_prints _ H);
      try exact (present_prints _ _ block_prints _ H0).
    + apply block_prints; assumption.
    + destruct Value; [|eexists; reflexivity]. cbn [optional] in H. parts. apply expr_prints; assumption.
    + apply if_prints; assumption.
    + exact (present_prints _ _ expr_prints _ H1).
    + apply match_prints; assumption.
    + exact (present_prints _ _ block_prints _ H1).
    + destruct Alternative; [|eexists; reflexivity]. parts. cbn [optional] in H0. apply block_prints; assumption.
    + destruct List_; parts; try (apply expr_prints; assumption); try exact (present_prints _ _ block_prints _ H0).
      * exact (present_prints _ _ expr_prints _ H).
      * exact (present_prints _ _ expr_prints _ H1).
  - destruct b; intros H; cbn [completeBlock] in H; cbn [BlockString]; parts. exact (collect_prints _ _ stmt_prints _ H).
  - destruct s; intros H; cbn [completeIf] in H; cbn [IfString]; parts.
    + apply expr_prints; assumption.
    + exact (present_prints _ _ block_prints _ H1).
    + destruct Alternative; [|eexists; reflexivity]. parts. cbn [optional] in H0. apply block_prints; assumption.
  - destruct s; intros H; cbn [completeMatch] in H; cbn [MatchString]; parts.
    destruct (expr_prints Value H) as [v ->]. destruct (collect_prints _ _ arm_prints Arms H0) as [a ->]. eexists; reflexivity.
  - destruct a as [tag binding body tagSet]; intros H; cbn [completeArm] in H; cbn [ArmString]; parts.
    pose proof (stmt_prints body H) as Hs. destruct body; try exact Hs.
    destruct Semicolon; [exact Hs|]. cbn [completeStmt] in H. apply expr_prints; assumption.
Qed.

(** ** Declarations *)

Definition completeParam (p : Param) : bool := some (pTypeName p).
Definition completeFieldDecl (f : Field) : bool := some (fTypeName f).

(** A method has its receiver; every parameter has a type. *)
Definition completeSignature (s : FunctionSignature) : bool :=
  forallb completeParam (sgParams s) && (negb (sgReceiver s) || negb (bool_decide (sgParams s = []))).

(** A function has a body unless it is foreign. *)
Definition completeFunction (d : FunctionDecl) : bool :=
  completeSignature (fdSignature d) &&
  if String.eqb (sgExternABI (fdSignature d)) "" then given completeBlock (fdBody d) else true.

Definition completeDecl (d : Decl) : bool :=
  match d with
  | DFunction d => completeFunction d
  | DTest d => given completeBlock (tdBody d)
  | DStruct d => forallb completeFieldDecl (sdFields d)
  | DContract d => forallb (fun m => completeSignature (fdSignature m)) (cdMethods d)
  | _ => true
  end.

Lemma function_prints d : optional completeBlock (fdBody d) = true -> is_Some (FunctionString d).
Proof.
  intros H. unfold FunctionString. destruct (match sgReceiver _, sgParams _ with true, _ :: _ => _ | _, _ => _ end) as [receiver rest].
  destruct (negb _); [eexists; reflexivity|]. destruct (fdBody d) as [b|]; [|eexists; reflexivity].
  parts. apply block_prints, H.
Qed.
