(* ===== verification/ParserState.v ===== *)
(** * The parser's state ([Parser] of [internal/parser/parser.go])

    A computation of the parser runs on its state and ends with a value, panics,
    or is out of the bound it was granted.  Where tokens come from is an
    interface, [TokenSource]: the lexer in the program, a list of tokens in
    statements about the grammar. *)

From stdpp Require Import base list strings.
From Stdlib Require Import ZArith Lia String Ascii.
From S2P Require Import Prelude GoStd Token Literals Ast.

#[local] Open Scope string_scope.
#[local] Open Scope list_scope.

(** One more token than [EOF] counts for one. *)
Definition weight (t : Token) : nat := if String.eqb (tokType t) EOF_ then 0 else 1.

(** A source of tokens: scanning does not fail and comes to [EOF]. *)
Class TokenSource (Src : Type) : Type := {
  scan : Src -> Token * Src;
  valid : Src -> Prop;
  left_ : Src -> nat;
  scan_valid s : valid s -> valid (scan s).2;
  scan_left s : valid s -> weight (scan s).1 + left_ (scan s).2 <= left_ s
}.

(** [Diagnostic]: the place and the message of a parse error. *)
Record Diagnostic : Type := mkDiagnostic { dgSpan : Span; dgMessage : string }.

Record PState (Src : Type) : Type := mkState {
  lex : Src;
  cur : Token;
  peek : Token;
  ahead : list Token;
  errors : list Diagnostic;
  safety : string
}.
Arguments mkState {Src}.
Arguments lex {Src}.
Arguments cur {Src}.
Arguments peek {Src}.
Arguments ahead {Src}.
Arguments errors {Src}.
Arguments safety {Src}.

(** How a computation ends. *)
Inductive outcome (Src A : Type) : Type :=
  | Done (a : A) (p : PState Src)
  | Panic (p : PState Src)
  | OutOfBound.
Arguments Done {Src A}.
Arguments Panic {Src A}.
Arguments OutOfBound {Src A}.

Declare Scope parser_scope.
Delimit Scope parser_scope with parser.

Section Monad.
Context {Src : Type}.

Definition M (A : Type) : Type := PState Src -> outcome Src A.

Definition ret {A} (a : A) : M A := fun p => Done a p.

Definition bind {A B} (m : M A) (k : A -> M B) : M B := fun p =>
  match m p with Done a p' => k a p' | Panic p' => Panic p' | OutOfBound => OutOfBound end.

(** The receiver itself. *)
Definition get : M (PState Src) := fun p => Done p p.

Definition panic {A} : M A := fun p => Panic p.

Definition outOfBound {A} : M A := fun _ => OutOfBound.
End Monad.
Arguments M : clear implicits.

Notation "'let!' x := m 'in' k" := (bind m (fun x => k))
  (at level 10, x pattern, m at level 200, k at level 200, format "'[hv' 'let!'  x  :=  m  'in'  '//' k ']'") : parser_scope.

Notation "'do!' m 'in' k" := (bind m (fun _ => k))
  (at level 10, m at level 200, k at level 200, format "'[hv' 'do!'  m  'in'  '//' k ']'") : parser_scope.

(** [if !m { return v }] *)
Notation "'need!' m 'else' v 'in' k" := (bind m (fun ok : bool => if ok then k else ret v))
  (at level 10, m at level 200, v at level 200, k at level 200,
   format "'[hv' 'need!'  m  'else'  v  'in'  '//' k ']'") : parser_scope.

#[global] Open Scope parser_scope.

(** [t.Type == ty] *)
Definition tokIs (t : Token) (ty : TokenType) : bool := String.eqb (tokType t) ty.

Definition oneOf (t : Token) (types : list TokenType) : bool := existsb (tokIs t) types.

(** The literal as the Go string it is. *)
Definition literal (t : Token) : string := utf8 (tokLiteral t).

(** [tokenSpan] *)
Definition tokenSpan (t : Token) : Span :=
  let width := Z.of_nat (Nat.max 1 (List.length (tokLiteral t))) in
  mkSpan (mkPosition (tokLine t) (tokColumn t)) (mkPosition (tokLine t) (tokColumn t + width)).

(** [spanThrough] *)
Definition spanThrough (first : Span) (last : Token) : Span := mkSpan (Start first) (End_ (tokenSpan last)).

(** [joinSpans] *)
Definition joinSpans (first last : Span) : Span :=
  if IsZero first then last else if IsZero last then first else mkSpan (Start first) (End_ last).

(** [tokenDescription] *)
Definition tokenDescription (tok : Token) : string :=
  if tokIs tok Ident then "identifier " +:+ Bytes (literal tok)
  else if tokIs tok Int then "integer " +:+ Bytes (literal tok)
  else if tokIs tok String_ then "string " +:+ Bytes (literal tok)
  else if tokIs tok CString then "C string " +:+ Bytes (literal tok)
  else if tokIs tok Illegal then
    if String.eqb (literal tok) "" then "illegal token" else "illegal token " +:+ Bytes (literal tok)
  else if tokIs tok EOF_ then "end of file"
  else "`" +:+ literal tok +:+ "`".

(** [tokenTypeDescription] *)
Definition tokenTypeDescription (ty : TokenType) : string :=
  if String.eqb ty Ident then "identifier"
  else if String.eqb ty Int then "integer"
  else if String.eqb ty String_ then "string"
  else if String.eqb ty CString then "C string"
  else if String.eqb ty EOF_ then "end of file"
  else "`" +:+ ty +:+ "`".

(** [diagnosticAtToken] *)
Definition diagnosticAtToken (tok : Token) (message : string) : Diagnostic := mkDiagnostic (tokenSpan tok) message.

Section Source.
Context {Src : Type} {source : TokenSource Src}.

(** What is left to read, with the current token and without it. *)
Definition following (p : PState Src) : nat := weight (peek p) + list_sum (map weight (ahead p)) + left_ (lex p).

Definition here (p : PState Src) : nat := weight (cur p).

(** [errorf] *)
Definition errorf (message : string) : M Src () := fun p =>
  Done () (mkState (lex p) (cur p) (peek p) (ahead p) (errors p ++ [diagnosticAtToken (cur p) message]) (safety p)).

(** [nextToken] *)
Definition nextToken : M Src () := fun p =>
  match ahead p with
  | t :: rest => Done () (mkState (lex p) (peek p) t rest (errors p) (safety p))
  | [] => let (t, l') := scan (lex p) in Done () (mkState l' (peek p) t [] (errors p) (safety p))
  end.

(** The loop of [peekAt]: [n] more tokens into [ahead]. *)
Fixpoint scanAhead (n : nat) : M Src () :=
  match n with
  | O => ret ()
  | S n => do! (fun p => let (t, l') := scan (lex p) in
      Done () (mkState l' (cur p) (peek p) (ahead p ++ [t]) (errors p) (safety p))) in scanAhead n
  end.

Definition zeroToken : Token := mkToken "" [] 0 0 [] [].

(** [peekAt]; [n] is at least one. *)
Definition peekAt (n : nat) : M Src Token :=
  let! p := get in
  do! scanAhead (n - List.length (ahead p)) in
  let! p := get in
  ret (default zeroToken (ahead p !! (n - 1))).

(** [shiftPair] *)
Definition shiftPair : M Src bool :=
  let! p := get in
  if negb (tokIs (peek p) LT_) && negb (tokIs (peek p) GT_) then ret false
  else
    let! next := peekAt 1 in
    ret (String.eqb (tokType next) (tokType (peek p)) && (tokLine next =? tokLine (peek p))%Z &&
         (tokColumn next =? tokColumn (peek p) + 1)%Z).

(** The loop of [captureAhead]: where the names end. *)
Fixpoint captureEnd (fuel : nat) (n : nat) : M Src nat :=
  match fuel with
  | O => outOfBound
  | S fuel =>
      let! comma := peekAt n in
      if negb (tokIs comma Comma) then ret n
      else
        let! name := peekAt (n + 1) in
        if tokIs name Ident then captureEnd fuel (n + 2) else ret n
  end.

(** [captureAhead] *)
Definition captureAhead : M Src bool :=
  let! p := get in
  if negb (tokIs (peek p) Pipe) then ret false
  else
    let! name := peekAt 1 in
    if negb (tokIs name Ident) then ret false
    else
      let! n := captureEnd (1 + following p) 2 in
      let! close := peekAt n in
      if negb (tokIs close Pipe) then ret false
      else let! brace := peekAt (n + 1) in ret (tokIs brace LBrace).

(** [expectCur] *)
Definition expectCur (t : TokenType) : M Src bool :=
  let! p := get in
  if tokIs (cur p) t then ret true
  else do! errorf ("expected " +:+ tokenTypeDescription t +:+ ", got " +:+ tokenDescription (cur p)) in ret false.

(** [expectPeek] *)
Definition expectPeek (t : TokenType) : M Src bool :=
  let! p := get in
  if tokIs (peek p) t then do! nextToken in ret true
  else do! errorf ("expected next token " +:+ tokenTypeDescription t +:+ ", got " +:+ tokenDescription (peek p)) in ret false.

(** [expectStatementTerminator] *)
Definition expectStatementTerminator (context : string) : M Src bool :=
  let! p := get in
  if tokIs (cur p) Semicolon then ret true
  else if tokIs (peek p) Semicolon then do! nextToken in ret true
  else do! errorf ("expected `;` after " +:+ context) in ret false.

(** [consumeListDelimiter] *)
Definition consumeListDelimiter (context : string) : M Src bool :=
  let! p := get in
  if tokIs (peek p) Comma then do! nextToken in ret true
  else if tokIs (peek p) RBrace || tokIs (peek p) EOF_ then ret true
  else do! errorf ("expected `,` after " +:+ context) in ret false.

(** [expectListClose] *)
Definition expectListClose (context : string) : M Src () :=
  let! p := get in
  if tokIs (cur p) EOF_ then errorf ("expected `}` to close " +:+ context +:+ ", got end of file") else ret ().

(** [expectTypeClose] *)
Definition expectTypeClose : M Src bool :=
  let! p := get in
  if tokIs (cur p) GT_ then if tokIs (peek p) GT_ then do! nextToken in ret true else ret true
  else expectPeek GT_.

(** The statement's [// SAFETY:] text while it is parsed, and the enclosing one
    again after it ([parseStatement]). *)
Definition withSafety {A} (text : string) (m : M Src A) : M Src A := fun p =>
  match m (mkState (lex p) (cur p) (peek p) (ahead p) (errors p) text) with
  | Done a p' => Done a (mkState (lex p') (cur p') (peek p') (ahead p') (errors p') (safety p))
  | Panic p' => Panic p'
  | OutOfBound => OutOfBound
  end.

(** A loop: each round goes on with a new value or ends with a result.  It is
    granted a round for each token that is left. *)
Fixpoint rounds {A B} (fuel : nat) (body : A -> M Src (A + B)) (a : A) : M Src B :=
  match fuel with
  | O => outOfBound
  | S fuel => let! r := body a in match r with inl a' => rounds fuel body a' | inr b => ret b end
  end.

Definition loop {A B} (body : A -> M Src (A + B)) (a : A) : M Src B := fun p =>
  rounds (1 + (here p + 2 * following p)) body a p.

(** The loop of a list between braces: [parse] one entry, then a delimiter. *)
Definition braced {A} (context close : string) (parse : M Src (A * bool)) (entries : list A) : M Src (list A) :=
  loop (fun entries =>
    let! p := get in
    if tokIs (cur p) RBrace || tokIs (cur p) EOF_ then do! expectListClose close in ret (inr entries)
    else
      let! (entry, ok) := parse in
      if negb (ok : bool) then ret (inr entries)
      else
        let entries := entries ++ [entry] in
        need! consumeListDelimiter context else inr entries in
        do! nextToken in ret (inl entries)) entries.
End Source.
