(* ===== verification/ParserType.v ===== *)
(** * Parsing types ([internal/parser/parser.go])

    The functions of the parser call each other; those that close a cycle are
    called through [Calls], which [Parser.parser] ties. *)

From stdpp Require Import base list strings.
From Stdlib Require Import ZArith Lia String Ascii.
From S2P Require Import Prelude GoStd StaticExpr Typ Token Literals Ast ParserState.

#[local] Open Scope string_scope.
#[local] Open Scope list_scope.

(** The entry points of the recursion. *)
Record Calls (Src : Type) : Type := mkCalls {
  callTypeName : M Src (option Ty);
  callExpression : nat -> M Src Expr;
  callIfStmt : M Src IfStmt;
  callComptimeIfStmt : M Src Stmt;
  callStatement : M Src Stmt;
  callBlockStmt : M Src BlockStmt
}.
Arguments callTypeName {Src}.
Arguments callExpression {Src}.
Arguments callIfStmt {Src}.
Arguments callComptimeIfStmt {Src}.
Arguments callStatement {Src}.
Arguments callBlockStmt {Src}.

(** The levels of [precedences]. *)
Definition lowest : nat := 1.
Definition orElse : nat := 2.
Definition logicalOr : nat := 3.
Definition logicalAnd : nat := 4.
Definition equals : nat := 5.
Definition lessGreater : nat := 6.
Definition bitOr : nat := 7.
Definition bitXor : nat := 8.
Definition bitAnd : nat := 9.
Definition shift : nat := 10.
Definition sum_ : nat := 11.
Definition product : nat := 12.
Definition prefix_ : nat := 13.
Definition call : nat := 14.
Definition field : nat := 15.

(** [staticExprText] *)
Fixpoint staticExprText (e : Expr) : option string :=
  match e with
  | IntExpr v => Some v
  | IdentExpr name _ => Some name
  | PrefixExpr op e =>
      match staticExprText e with
      | Some t => if String.eqb op "-" then Some ("(0 - " +:+ t +:+ ")") else None
      | None => None
      end
  | BinaryExpr l op _ r =>
      if existsb (String.eqb op) ["+"; "-"; "*"; "/"; "%"] then
        match staticExprText l, staticExprText r with
        | Some l, Some r => Some ("(" +:+ l +:+ " " +:+ op +:+ " " +:+ r +:+ ")")
        | _, _ => None
        end
      else None
  | _ => None
  end.

(** [noStaticNames] *)
Definition noStaticNames (_ : string) : option Z := None.

Section Types.
Context {Src : Type} {source : TokenSource Src} (rec : Calls Src).

(** [parseTypeBaseName] *)
Definition parseTypeBaseName : M Src (list string) :=
  let! p := get in
  loop (fun parts =>
    let! p := get in
    if negb (tokIs (peek p) DoubleColon) then ret (inr parts)
    else
      do! nextToken in
      need! expectPeek Ident else inr parts in
      let! p := get in ret (inl (parts ++ [literal (cur p)]))) [literal (cur p)].

(** [parseTypeArg] *)
Definition parseTypeArg (allowConst : bool) : M Src (option Ty) :=
  let! p := get in
  if tokIs (cur p) Ident && String.eqb (literal (cur p)) "const" then
    if negb allowConst then do! errorf "expected static type argument, got const" in ret None
    else
      do! nextToken in
      let! inner := callTypeName rec in
      match inner with Some t => ret (Some (Const t)) | None => ret None end
  else callTypeName rec.

(** [parseTypeArgNodes]; no node stands for nil. *)
Definition parseTypeArgNodes (allowConst : bool) : M Src (list Ty) :=
  loop (fun args =>
    let! arg := parseTypeArg allowConst in
    match arg with
    | None => ret (inr [])
    | Some arg =>
        let args := args ++ [arg] in
        let! p := get in
        if negb (tokIs (peek p) Comma) then ret (inr args)
        else
          do! nextToken in
          let! p := get in
          if tokIs (peek p) GT_ then ret (inr args) else do! nextToken in ret (inl args)
    end) [].

(** [parseNamedTypeName] *)
Definition parseNamedTypeName : M Src (option Ty) :=
  let! path := parseTypeBaseName in
  let! p := get in
  if tokIs (peek p) Bang then
    do! nextToken in
    do! nextToken in
    let! success := callTypeName rec in
    match success with Some t => ret (Some (ErrorUnion (Some (Name path [])) t)) | None => ret None end
  else if negb (tokIs (peek p) LT_) then ret (Some (Name path []))
  else
    do! nextToken in
    do! nextToken in
    let! args := parseTypeArgNodes (bool_decide (path = ["ptr"])) in
    match args with
    | [] => ret None
    | _ => need! expectTypeClose else None in ret (Some (Name path args))
    end.

(** A type inside a node. *)
Definition wrapped (node : Ty -> Ty) (inner : M Src (option Ty)) : M Src (option Ty) :=
  let! inner := inner in ret (option_map node inner).

(** [parseNullableTypeName] *)
Definition parseNullableTypeName : M Src (option Ty) := do! nextToken in wrapped Optional (callTypeName rec).

(** [parseErrorUnionTypeName] *)
Definition parseErrorUnionTypeName : M Src (option Ty) :=
  do! nextToken in wrapped (ErrorUnion None) (callTypeName rec).

(** [parseBorrowTypeName] *)
Definition parseBorrowTypeName : M Src (option Ty) :=
  do! nextToken in
  let! p := get in
  let mut := tokIs (cur p) Var in
  do! (if mut then nextToken else ret ()) in
  wrapped (fun t => Borrow t mut) (callTypeName rec).

(** The parameters of [parseFuncTypeName]; [None] when one of them is nil. *)
Definition parseFuncTypeParams : M Src (option (list Ty)) :=
  loop (fun params =>
    do! nextToken in
    let! p := get in
    let! params :=
      if tokIs (cur p) Ellipsis then
        do! errorf ("a function type cannot be variadic; `...` is allowed only in an `extern " +:+ Bytes "c" +:+ " fn` declaration") in
        ret (Some params)
      else
        let! param := callTypeName rec in
        ret (option_map (fun t => params ++ [t]) param) in
    match params with
    | None => ret (inr None)
    | Some params =>
        let! p := get in
        if tokIs (peek p) Comma then do! nextToken in ret (inl params) else ret (inr (Some params))
    end) [].

(** [parseFuncTypeName]; the ABI is set by [parseExternFuncTypeName]. *)
Definition parseFuncTypeName (unsafeFn : bool) (abi : string) : M Src (option Ty) :=
  let! p := get in
  if negb (tokIs (peek p) LParen) then
    do! errorf ("expected `(` after `fn` in a type, got " +:+ tokenDescription (peek p)) in ret None
  else
    do! nextToken in
    let! p := get in
    let! params := if tokIs (peek p) RParen then ret (Some []) else parseFuncTypeParams in
    match params with
    | None => ret None
    | Some params =>
        let! p := get in
        if negb (tokIs (peek p) RParen) then
          do! errorf ("expected `)` in a function type, got " +:+ tokenDescription (peek p)) in ret None
        else
          do! nextToken in
          let! p := get in
          if negb (tokIs (peek p) Arrow) then
            do! errorf ("expected `->` in a function type, got " +:+ tokenDescription (peek p)) in ret None
          else
            do! nextToken in
            do! nextToken in
            wrapped (fun result => Func params result unsafeFn abi) (callTypeName rec)
    end.

(** [parseUnsafeFuncTypeName] *)
Definition parseUnsafeFuncTypeName : M Src (option Ty) :=
  let! p := get in
  if negb (tokIs (peek p) FunctionTok) then
    do! errorf ("expected `fn` after `unsafe` in a type, got " +:+ tokenDescription (peek p)) in ret None
  else do! nextToken in parseFuncTypeName true "".

(** [parseExternFuncTypeName] *)
Definition parseExternFuncTypeName : M Src (option Ty) :=
  need! expectPeek String_ else None in
  let! p := get in
  if negb (String.eqb (literal (cur p)) "c") then do! errorf "a function type names only the `c` ABI" in ret None
  else if negb (tokIs (peek p) FunctionTok) then
    do! errorf ("expected `fn` after the ABI in a type, got " +:+ tokenDescription (peek p)) in ret None
  else do! nextToken in parseFuncTypeName false "c".

(** [parseStaticExprArg]: the message of its error prints the expression. *)
Definition parseStaticExprArg : M Src string :=
  do! nextToken in
  let! expr := callExpression rec lowest in
  need! expectPeek RParen else "" in
  match staticExprText expr with
  | Some text => ret text
  | None =>
      match ExprString expr with
      | None => panic
      | Some text =>
          do! errorf ("static argument expression `" +:+ text +:+
            "` is not integer arithmetic (literals, names, and + - * / % only)") in
          ret "0"
      end
  end.

(** The length of a buffer: its value and its text, or nil. *)
Definition parseBufferLength : M Src (option (Z * string)) :=
  let! p := get in
  if tokIs (cur p) Ident then ret (Some (0%Z, literal (cur p)))
  else if tokIs (cur p) LParen then
    let! len := parseStaticExprArg in
    ret (Some (match Eval_ noStaticNames len with Ok size => (size, "") | Err _ => (0%Z, len) end))
  else
    match ParseInt (literal (cur p)) with
    | Some size => ret (Some (size, ""))
    | None => do! errorf ("buffer size must be a positive integer, got " +:+ literal (cur p)) in ret None
    end.

(** [parseBufferTypeName] *)
Definition parseBufferTypeName : M Src (option Ty) :=
  do! nextToken in
  let! length := parseBufferLength in
  match length with
  | None => ret None
  | Some (size, len) =>
      if String.eqb len "" && (size <=? 0)%Z then
        do! errorf ("buffer size must be a positive integer, got " +:+ FormatInt size) in ret None
      else
        need! expectPeek RBracket else None in
        do! nextToken in
        wrapped (Buffer size len) (parseTypeArg false)
  end.

(** [parseSliceTypeName] *)
Definition parseSliceTypeName : M Src (option Ty) :=
  let! p := get in
  if oneOf (peek p) [Int; Ident; LParen] then parseBufferTypeName
  else
    need! expectPeek RBracket else None in
    do! nextToken in
    wrapped Slice (parseTypeArg false).

(** [parseTypeName] *)
Definition parseTypeName : M Src (option Ty) :=
  let! p := get in
  if tokIs (cur p) Bang then parseErrorUnionTypeName
  else if tokIs (cur p) Amp then parseBorrowTypeName
  else if tokIs (cur p) LBracket then parseSliceTypeName
  else if tokIs (cur p) Question then parseNullableTypeName
  else if tokIs (cur p) FunctionTok then parseFuncTypeName false ""
  else if tokIs (cur p) Unsafe then parseUnsafeFuncTypeName
  else if tokIs (cur p) Extern_ then parseExternFuncTypeName
  else if tokIs (cur p) Ident then parseNamedTypeName
  else do! errorf ("expected type, got " +:+ tokenDescription (cur p)) in ret None.

(** [parseStaticTypeArg] *)
Definition parseStaticTypeArg (allowConst : bool) : M Src string :=
  let! p := get in
  if oneOf (cur p) [Ident; Bang; Amp; LBracket; Question] then
    let! t := parseTypeArg allowConst in ret (Text t)
  else if oneOf (cur p) [Int; True_; False_] then ret (literal (cur p))
  else if tokIs (cur p) LParen then parseStaticExprArg
  else do! errorf ("expected static argument, got " +:+ tokenDescription (cur p)) in ret "".

(** [parseTypeArgList] *)
Definition parseTypeArgList (allowConst : bool) : M Src string :=
  let! args := loop (fun args =>
    let! arg := parseStaticTypeArg allowConst in
    if String.eqb arg "" then ret (inr None)
    else
      let args := args ++ [arg] in
      let! p := get in
      if negb (tokIs (peek p) Comma) then ret (inr (Some args))
      else
        do! nextToken in
        let! p := get in
        if tokIs (peek p) GT_ then ret (inr (Some args)) else do! nextToken in ret (inl args)) [] in
  ret (match args with Some args => Join args ", " | None => "" end).

(** The entries of [parseStaticParamList] read so far; none stands for nil. *)
Definition parseStaticParamList : M Src (list StaticParam) :=
  do! nextToken in
  loop (fun params =>
    let! p := get in
    let name := literal (cur p) in
    if negb (tokIs (cur p) Ident) then
      do! errorf ("expected static parameter, got " +:+ tokenDescription (cur p)) in ret (inr [])
    else if existsb (fun q => String.eqb (spName q) name) params then
      do! errorf ("duplicate static parameter " +:+ name) in ret (inr [])
    else
      let! ty :=
        if tokIs (peek p) Colon then do! nextToken in do! nextToken in callTypeName rec else ret None in
      let params := params ++ [mkStaticParam name ty] in
      let! p := get in
      if negb (tokIs (peek p) Comma) then ret (inr params)
      else
        do! nextToken in
        let! p := get in
        if tokIs (peek p) GT_ then ret (inr params) else do! nextToken in ret (inl params)) [].

(** The names of the parameters, or the first that is a value. *)
Fixpoint typeParamNames (params : list StaticParam) (names : list string) : StaticParam + list string :=
  match params with
  | [] => inr names
  | param :: rest => if negb (IsType param) then inl param else typeParamNames rest (names ++ [spName param])
  end.

(** [parseGenericParamList] *)
Definition parseGenericParamList : M Src (list string) :=
  let! params := parseStaticParamList in
  match typeParamNames params [] with
  | inl param => do! errorf ("expected type parameter, got " +:+ StaticParamString param) in ret []
  | inr names => ret names
  end.
End Types.
