(* ===== verification/ParserExpr.v ===== *)
(** * Parsing expressions ([internal/parser/parser.go])

    The Pratt loop with its prefix and infix forms, and the statements that are
    expressions: [if] and [match]. *)

From stdpp Require Import base list strings.
From Stdlib Require Import ZArith Lia String Ascii.
From S2P Require Import Prelude GoStd StaticExpr Typ Token Literals Ast ParserState ParserType.

#[local] Open Scope string_scope.
#[local] Open Scope list_scope.

(** [precedences] *)
Definition precedences : list (TokenType * nat) :=
  [(Orelse, orElse); (Catch, orElse); (Or_, logicalOr); (And_, logicalAnd); (Eq_, equals); (NotEq, equals);
   (LT_, lessGreater); (LTE, lessGreater); (GT_, lessGreater); (GTE, lessGreater); (Pipe, bitOr); (Caret, bitXor);
   (Amp, bitAnd); (Plus, sum_); (Minus, sum_); (Asterisk, product); (Slash, product); (Percent, product);
   (LParen, call); (LBracket, call); (Dot, field); (DoubleColon, field)].

(** An entry of the table, or [lowest]. *)
Definition precedenceOf (ty : TokenType) : nat :=
  match List.find (fun e => String.eqb e.1 ty) precedences with Some e => e.2 | None => lowest end.

(** [expressionSpan] *)
Fixpoint expressionSpan (e : Expr) : Span :=
  match e with
  | IdentExpr _ s | BinaryExpr _ _ s _ | CastExpr _ _ s | FieldExpr _ _ _ s | DerefExpr _ s => s
  | CallExpr c _ | TypeApplyExpr c _ => expressionSpan c
  | _ => noSpan
  end.

(** [namespaceExprParts] *)
Fixpoint namespaceExprParts (e : Expr) : option (list string) :=
  match e with
  | IdentExpr name _ => Some [name]
  | FieldExpr receiver name true _ =>
      match namespaceExprParts receiver with Some parts => Some (parts ++ [name]) | None => None end
  | _ => None
  end.

(** [structLiteralTypeName] *)
Definition structLiteralTypeName (e : Expr) : option string :=
  match namespaceExprParts e with
  | None => None
  | Some parts =>
      match reverse parts with
      | [] => None
      | last :: before =>
          if negb (startsUpper last) then None
          else match before with
          | owner :: _ => if startsUpper owner then None else Some (Join parts "::")
          | [] => Some (Join parts "::")
          end
      end
  end.

(** [canTypeApplyTarget] *)
Definition canTypeApplyTarget (e : Expr) : bool :=
  match e with
  | FieldExpr _ _ namespace _ => namespace
  | IdentExpr name _ => negb (String.eqb name "")
  | _ => false
  end.

(** The expression handed back after an error at the current token. *)
Definition errorExpr (s : Span) : Expr := IdentExpr "<error>" s.

Section Expressions.
Context {Src : Type} {source : TokenSource Src} (rec : Calls Src).

(** [curPrecedence] *)
Definition curPrecedence : M Src nat := let! p := get in ret (precedenceOf (tokType (cur p))).

(** [peekPrecedence] *)
Definition peekPrecedence : M Src nat :=
  let! paired := shiftPair in
  if paired : bool then ret shift
  else
    let! capture := captureAhead in
    if capture : bool then ret lowest
    else let! p := get in ret (precedenceOf (tokType (peek p))).

(** The scan of [typeApplyLooksLikeCall], after the opening bracket: whether
    the brackets close before anything a type cannot hold. *)
Definition scanTypeApply : M Src bool :=
  do! nextToken in
  loop (fun '(depth, parens) =>
    if (depth <=? 0)%Z then let! p := get in ret (inr (tokIs (peek p) LParen))
    else
      do! nextToken in
      let! p := get in
      if oneOf (cur p) [EOF_; Semicolon; LBrace; RBrace] then ret (inr false)
      else if tokIs (cur p) LParen then ret (inl (depth, parens + 1)%Z)
      else if tokIs (cur p) RParen then ret (inl (depth, parens - 1)%Z)
      else if tokIs (cur p) LT_ && (parens =? 0)%Z then ret (inl (depth + 1, parens)%Z)
      else if tokIs (cur p) GT_ && (parens =? 0)%Z then ret (inl (depth - 1, parens)%Z)
      else ret (inl (depth, parens))) (1, 0)%Z.

(** [typeApplyLooksLikeCall]: the state is put back. *)
Definition typeApplyLooksLikeCall : M Src bool := fun p =>
  match scanTypeApply p with
  | Done b _ => Done b p
  | Panic p' => Panic p'
  | OutOfBound => OutOfBound
  end.

(** [shouldParseTypeApply] *)
Definition shouldParseTypeApply (e : Expr) : M Src bool :=
  if negb (canTypeApplyTarget e) then ret false else typeApplyLooksLikeCall.

(** [parseOptionalBranchLabel] *)
Definition parseOptionalBranchLabel : M Src string :=
  let! p := get in
  if negb (tokIs (peek p) Colon) then ret ""
  else
    do! nextToken in
    need! expectPeek Ident else "" in
    let! p := get in ret (literal (cur p)).

(** [parsePayloadCapture] *)
Definition parsePayloadCapture : M Src (string * bool) :=
  let! p := get in
  if negb (tokIs (peek p) Pipe) then ret ("", true)
  else
    need! expectPeek Pipe else ("", false) in
    need! expectPeek Ident else ("", false) in
    let! p := get in
    need! expectPeek Pipe else ("", false) in
    ret (literal (cur p), true).

(** ** [if] and [match] *)

(** [continuesElseChain] *)
Definition continuesElseChain (p : PState Src) : bool := tokIs (peek p) If_ || tokIs (peek p) Comptime.

(** [parseElseChain] *)
Definition parseElseChain : M Src BlockStmt :=
  do! nextToken in
  let! p := get in
  let! nested :=
    if tokIs (cur p) Comptime then callComptimeIfStmt rec
    else let! s := callIfStmt rec in ret (IfSt s) in
  ret (mkBlock noSpan [nested]).

(** [parseIfStmt] *)
Definition parseIfStmt : M Src IfStmt :=
  do! nextToken in
  let! condition := callExpression rec lowest in
  let! (capture, ok) := parsePayloadCapture in
  if negb (ok : bool) then ret (mkIf noSpan condition None None "" "") else
  need! expectPeek LBrace else mkIf noSpan condition None None capture "" in
  let! consequence := callBlockStmt rec in
  let partial := mkIf noSpan condition (Some consequence) None capture in
  let! p := get in
  if negb (tokIs (peek p) Else_) then ret (partial "") else
  do! nextToken in
  let! p := get in
  if continuesElseChain p then
    let! alternative := parseElseChain in
    ret (mkIf noSpan condition (Some consequence) (Some alternative) capture "")
  else
    let! (errCapture, ok) := parsePayloadCapture in
    if negb (ok : bool) then ret (partial "") else
    need! expectPeek LBrace else partial errCapture in
    let! alternative := callBlockStmt rec in
    ret (mkIf noSpan condition (Some consequence) (Some alternative) capture errCapture).

(** [parseComptimeIfStmt] *)
Definition parseComptimeIfStmt : M Src Stmt :=
  need! expectPeek If_ else ComptimeIfStmt noSpan None None None in
  do! nextToken in
  let! condition := callExpression rec lowest in
  need! expectPeek LBrace else ComptimeIfStmt noSpan (Some condition) None None in
  let! consequence := callBlockStmt rec in
  let result := ComptimeIfStmt noSpan (Some condition) (Some consequence) in
  let! p := get in
  if negb (tokIs (peek p) Else_) then ret (result None) else
  do! nextToken in
  let! p := get in
  if continuesElseChain p then let! alternative := parseElseChain in ret (result (Some alternative))
  else
    need! expectPeek LBrace else result None in
    let! alternative := callBlockStmt rec in ret (result (Some alternative)).

(** [parseMatchArmReturn] *)
Definition parseMatchArmReturn : M Src Stmt :=
  let! p := get in
  if tokIs (peek p) Comma || tokIs (peek p) RBrace then ret (ReturnStmt noSpan None)
  else
    do! nextToken in
    let! value := callExpression rec lowest in ret (ReturnStmt noSpan (Some value)).

(** The qualifiers of a tag: the set read so far and the last name. *)
Definition parseMatchTag (tag : string) : M Src (string * string * bool) :=
  loop (fun '(tagSet, tag) =>
    let! p := get in
    if negb (tokIs (peek p) DoubleColon) then ret (inr (tagSet, tag, true))
    else
      do! nextToken in
      need! expectPeek Ident else inr (tagSet, tag, false) in
      let! p := get in
      ret (inl ((if String.eqb tagSet "" then "" else tagSet +:+ "::") +:+ tag, literal (cur p)))) ("", tag).

(** The payload's name of a tag. *)
Definition parseMatchBinding : M Src (string * bool) :=
  let! p := get in
  if negb (tokIs (peek p) LParen) then ret ("", true)
  else
    do! nextToken in
    need! expectPeek Ident else ("", false) in
    let! p := get in
    need! expectPeek RParen else (literal (cur p), false) in
    ret (literal (cur p), true).

(** An arm without a body: the parser drops it. *)
Definition brokenArm (tag binding tagSet : string) : MatchArm :=
  mkArm tag binding (ReturnStmt noSpan None) tagSet.

(** [parseMatchArm] *)
Definition parseMatchArm : M Src (MatchArm * bool) :=
  let! p := get in
  if negb (tokIs (cur p) Ident) then
    do! errorf ("expected match tag, got " +:+ tokenDescription (cur p)) in ret (brokenArm "" "" "", false)
  else
    let! (tagSet, tag, ok) := parseMatchTag (literal (cur p)) in
    if negb (ok : bool) then ret (brokenArm tag "" tagSet, false) else
    let! (binding, ok) := parseMatchBinding in
    if negb (ok : bool) then ret (brokenArm tag binding tagSet, false) else
    need! expectPeek FatArrow else (brokenArm tag binding tagSet, false) in
    do! nextToken in
    let! p := get in
    let! body :=
      if tokIs (cur p) Return_ then parseMatchArmReturn
      else if tokIs (cur p) LBrace then let! block := callBlockStmt rec in ret (BlockSt block)
      else callStatement rec in
    ret (mkArm tag binding body tagSet, true).

(** [parseMatchArms] *)
Definition parseMatchArms : M Src (list MatchArm) :=
  do! nextToken in braced "match arm" "match" parseMatchArm [].

(** [parseMatchStmt] *)
Definition parseMatchStmt : M Src MatchStmt :=
  do! nextToken in
  let! value := callExpression rec lowest in
  need! expectPeek LBrace else mkMatch noSpan value [] "" "" in
  let! arms := parseMatchArms in
  ret (mkMatch noSpan value arms "" "").

(** ** Prefix forms *)

(** [parseKeywordLiteralExpression] *)
Definition parseKeywordLiteralExpression (tok : Token) : Expr :=
  if tokIs tok True_ then BoolExpr true
  else if tokIs tok False_ then BoolExpr false
  else NullExpr (tokenSpan tok).

(** [parseIntLiteral] *)
Definition parseIntLiteral : M Src Expr :=
  let! p := get in
  match integerLiteralValue (literal (cur p)) with
  | Some value => ret (IntExpr (FormatInt value))
  | None => do! errorf ("invalid integer literal `" +:+ literal (cur p) +:+ "`") in ret (IntExpr "0")
  end.

(** [parseFloatLiteral] *)
Definition parseFloatLiteral : M Src Expr :=
  let! p := get in
  let text := CleanFloatLiteral (literal (cur p)) in
  if ParseFloatLiteral text then ret (FloatExpr text)
  else do! errorf ("float literal `" +:+ literal (cur p) +:+ "` is outside the range of f64") in ret (FloatExpr "0.0").

(** [parseCStringLiteral] *)
Definition parseCStringLiteral : M Src Expr :=
  let! p := get in
  if existsb (Z.eqb 10) (tokLiteral (cur p)) then
    do! errorf "a C string literal ends on the line it starts on" in ret (CStringExpr "")
  else ret (CStringExpr (literal (cur p))).

(** The expressions between braces: [consumeListDelimiter] after each. *)
Definition parseElements (context close : string) : M Src (list Expr) :=
  braced context close (let! e := callExpression rec lowest in ret (e, true)) [].

(** [parseBufferLiteralExpr] *)
Definition parseBufferLiteralExpr : M Src Expr :=
  let! p := get in
  let span := tokenSpan (cur p) in
  let! parsed := callTypeName rec in
  match parsed with
  | None => ret (errorExpr span)
  | Some (Buffer size len elem) =>
      need! expectPeek LBrace else errorExpr span in
      do! nextToken in
      let! elements := parseElements "array element" "array literal" in
      ret (BufferLiteralExpr (LenText size len) (Text (Some elem)) elements span)
  | Some t =>
      do! errorf ("expected buffer literal `[N]T{}`, got type `" +:+ Text (Some t) +:+ "`") in ret (errorExpr span)
  end.

(** [parseMarkerExpression] *)
Definition parseMarkerExpression : M Src Expr :=
  let! p := get in
  let marker := cur p in
  do! nextToken in
  if tokIs marker Comptime then let! e := callExpression rec lowest in ret (ComptimeExpr e)
  else if tokIs marker Try then let! e := callExpression rec prefix_ in ret (TryExpr e)
  else if tokIs marker Move then let! e := callExpression rec prefix_ in ret (MoveExpr e (tokenSpan marker))
  else
    let! e := callExpression rec prefix_ in
    let! p := get in ret (UnsafeExpr e (safety p) (tokenSpan marker)).

(** [parseFieldValue]; the parser drops one that is not ok. *)
Definition parseFieldValue : M Src (FieldValue * bool) :=
  let! p := get in
  let name := literal (cur p) in
  if negb (tokIs (cur p) Ident) then
    do! errorf ("expected field name, got " +:+ tokenDescription (cur p)) in ret (mkFieldValue "" (NullExpr noSpan), false)
  else
    need! expectPeek Colon else (mkFieldValue name (NullExpr noSpan), false) in
    do! nextToken in
    let! value := callExpression rec lowest in
    ret (mkFieldValue name value, true).

(** [parseStructLiteralExpr] *)
Definition parseStructLiteralExpr (typeName : string) : M Src Expr :=
  let! p := get in
  do! nextToken in
  do! nextToken in
  let! fields := braced "struct literal field" "struct literal" parseFieldValue [] in
  ret (StructLiteralExpr typeName fields (tokenSpan (cur p))).

(** [parseVectorLiteralExpr] *)
Definition parseVectorLiteralExpr : M Src Expr :=
  let! p := get in
  do! nextToken in
  do! nextToken in
  let! lanes := parseElements "vector lane" "vector literal" in
  ret (VectorLiteralExpr (literal (cur p)) lanes (tokenSpan (cur p))).

(** [parseTypeExpr] *)
Definition parseTypeExpr : M Src Expr :=
  need! expectPeek LT_ else TypeExpr "" in
  do! nextToken in
  let! name := parseStaticTypeArg rec false in
  if String.eqb name "" then ret (TypeExpr name)
  else need! expectTypeClose else TypeExpr name in ret (TypeExpr name).

(** [parseCastExpr] *)
Definition parseCastExpr : M Src Expr :=
  let! p := get in
  let span := tokenSpan (cur p) in
  need! expectPeek LT_ else CastExpr None None span in
  do! nextToken in
  let! target := callTypeName rec in
  match target with
  | None => ret (CastExpr None None span)
  | Some _ =>
      need! expectPeek GT_ else CastExpr target None span in
      need! expectPeek LParen else CastExpr target None span in
      do! nextToken in
      let! value := callExpression rec lowest in
      do! expectPeek RParen in
      ret (CastExpr target (Some value) span)
  end.

(** [parseIdentPrefixExpression] *)
Definition parseIdentPrefixExpression : M Src Expr :=
  let! p := get in
  let name := literal (cur p) in
  if String.eqb name "cast" && tokIs (peek p) LT_ then parseCastExpr
  else if String.eqb name "type" && tokIs (peek p) LT_ then parseTypeExpr
  else if tokIs (peek p) LBrace && startsUpper name then parseStructLiteralExpr name
  else if tokIs (peek p) LBrace && IsVector name then parseVectorLiteralExpr
  else ret (IdentExpr name (tokenSpan (cur p))).

(** [parsePrefixExpression] *)
Definition parsePrefixExpression : M Src Expr :=
  let! p := get in
  if tokIs (cur p) Ident then parseIdentPrefixExpression
  else if tokIs (cur p) Int then parseIntLiteral
  else if tokIs (cur p) Float then parseFloatLiteral
  else if tokIs (cur p) String_ then ret (StringExpr (literal (cur p)))
  else if tokIs (cur p) CString then parseCStringLiteral
  else if oneOf (cur p) [True_; False_; Null] then ret (parseKeywordLiteralExpression (cur p))
  else if tokIs (cur p) If_ then let! s := parseIfStmt in ret (IfExpr s)
  else if tokIs (cur p) Match_ then let! s := parseMatchStmt in ret (MatchExpr s)
  else if oneOf (cur p) [Comptime; Try; Move; Unsafe] then parseMarkerExpression
  else if tokIs (cur p) Amp then
    do! nextToken in
    let! p := get in
    let mut := tokIs (cur p) Var in
    do! (if mut then nextToken else ret ()) in
    let! e := callExpression rec prefix_ in
    ret (PrefixExpr (if mut then "&var" else "&") e)
  else if oneOf (cur p) [Bang; Minus; Tilde] then
    do! nextToken in
    let! e := callExpression rec prefix_ in ret (PrefixExpr (literal (cur p)) e)
  else if tokIs (cur p) LParen then
    do! nextToken in
    let! e := callExpression rec lowest in
    do! expectPeek RParen in ret e
  else if tokIs (cur p) LBracket then parseBufferLiteralExpr
  else
    do! errorf ("expected expression, got " +:+ tokenDescription (cur p)) in ret (errorExpr (tokenSpan (cur p))).

(** ** Infix forms *)

(** [parseBinaryExpr] *)
Definition parseBinaryExpr (l : Expr) : M Src Expr :=
  let! p := get in
  let! precedence := curPrecedence in
  do! nextToken in
  let! r := callExpression rec precedence in
  ret (BinaryExpr l (literal (cur p)) (tokenSpan (cur p)) r).

(** One column more: a shift is two characters. *)
Definition widen (s : Span) : Span := mkSpan (Start s) (mkPosition (Line (End_ s)) (Column (End_ s) + 1)).

(** [parseShiftExpr] *)
Definition parseShiftExpr (l : Expr) : M Src Expr :=
  do! nextToken in
  let! p := get in
  do! nextToken in
  do! nextToken in
  let! r := callExpression rec shift in
  ret (BinaryExpr l (literal (cur p) +:+ literal (cur p)) (widen (tokenSpan (cur p))) r).

(** [peekIsExpressionEnd] *)
Definition peekIsExpressionEnd (p : PState Src) : bool := oneOf (peek p) [Semicolon; Comma; RBrace; RParen; RBracket].

(** [parseGuardExit] *)
Definition parseGuardExit : M Src (option Stmt) :=
  let! p := get in
  if tokIs (peek p) Return_ then
    do! nextToken in
    let! p := get in
    if peekIsExpressionEnd p then ret (Some (ReturnStmt noSpan None))
    else
      do! nextToken in
      let! value := callExpression rec lowest in ret (Some (ReturnStmt noSpan (Some value)))
  else if tokIs (peek p) Break then
    do! nextToken in let! label := parseOptionalBranchLabel in ret (Some (BreakStmt noSpan label))
  else if tokIs (peek p) Continue then
    do! nextToken in let! label := parseOptionalBranchLabel in ret (Some (ContinueStmt noSpan label))
  else ret None.

(** [parseGuardableExpr] *)
Definition parseGuardableExpr (l : Expr) : M Src Expr :=
  let! p := get in
  let! exit := parseGuardExit in
  match exit with
  | None => parseBinaryExpr l
  | Some exit =>
      ret (if tokIs (cur p) Catch then CatchGuardExpr l exit (tokenSpan (cur p))
           else OrelseGuardExpr l exit (tokenSpan (cur p)))
  end.

(** [parseCallExpr] *)
Definition parseCallExpr (callee : Expr) : M Src Expr :=
  let! p := get in
  if tokIs (peek p) RParen then do! nextToken in ret (CallExpr callee [])
  else
    do! nextToken in
    let! first := callExpression rec lowest in
    let! args := loop (fun args =>
      let! p := get in
      if negb (tokIs (peek p) Comma) then ret (inr args)
      else
        do! nextToken in
        let! p := get in
        if tokIs (peek p) RParen then ret (inr args)
        else
          do! nextToken in
          let! arg := callExpression rec lowest in ret (inl (args ++ [arg]))) [first] in
    do! expectPeek RParen in
    ret (CallExpr callee args).

(** [parseOpenStartSlice] and the end of [parseClosedStartSlice]. *)
Definition parseSliceEnd (target : Expr) (start : option Expr) (span : Span) : M Src Expr :=
  do! nextToken in
  let! end_ := callExpression rec lowest in
  do! expectPeek RBracket in
  ret (IndexExpr target None start (Some end_) true span).

(** [parseIndexExpr], with [parseOpenStartSlice] and [parseClosedStartSlice]. *)
Definition parseIndexExpr (target : Expr) : M Src Expr :=
  let! p := get in
  let span := tokenSpan (cur p) in
  do! nextToken in
  let! p := get in
  if tokIs (cur p) Range then
    if tokIs (peek p) RBracket then
      do! errorf "slice expression requires at least one bound" in ret (IndexExpr target None None None true span)
    else parseSliceEnd target None span
  else
    let! start := callExpression rec lowest in
    let! p := get in
    if tokIs (peek p) Range then
      do! nextToken in
      let! p := get in
      if tokIs (peek p) RBracket then do! nextToken in ret (IndexExpr target None (Some start) None true span)
      else parseSliceEnd target (Some start) span
    else
      do! expectPeek RBracket in
      ret (IndexExpr target (Some start) None None false span).

(** [parseTypeApplyExpr] *)
Definition parseTypeApplyExpr (callee : Expr) : M Src Expr :=
  do! nextToken in
  let! arg := parseTypeArgList rec false in
  if String.eqb arg "" then ret (TypeApplyExpr callee arg)
  else need! expectTypeClose else TypeApplyExpr callee arg in ret (TypeApplyExpr callee arg).

(** [parseFieldExpr] *)
Definition parseFieldExpr (receiver : Expr) (namespace : bool) : M Src Expr :=
  let! p := get in
  if negb namespace && tokIs (peek p) Asterisk then
    do! nextToken in
    let! p := get in ret (DerefExpr receiver (tokenSpan (cur p)))
  else
    need! expectPeek Ident else FieldExpr receiver "" namespace noSpan in
    let! p := get in
    ret (FieldExpr receiver (literal (cur p)) namespace (joinSpans (expressionSpan receiver) (tokenSpan (cur p)))).

(** The result of an infix form. *)
Definition infix (m : M Src Expr) : M Src (Expr * bool) := do! nextToken in let! e := m in ret (e, true).

(** [parseInfix] *)
Definition parseInfix (l : Expr) : M Src (Expr * bool) :=
  let! paired := shiftPair in
  if paired : bool then let! e := parseShiftExpr l in ret (e, true)
  else
    let! p := get in
    if oneOf (peek p) [Plus; Minus; Asterisk; Slash; Percent; And_; Or_; Eq_; NotEq; LTE; GT_; GTE; Pipe; Caret; Amp] then
      infix (parseBinaryExpr l)
    else if oneOf (peek p) [Orelse; Catch] then infix (parseGuardableExpr l)
    else if tokIs (peek p) LParen then infix (parseCallExpr l)
    else if tokIs (peek p) LBracket then infix (parseIndexExpr l)
    else if tokIs (peek p) LT_ then
      let! apply := shouldParseTypeApply l in
      if negb (apply : bool) then infix (parseBinaryExpr l) else infix (parseTypeApplyExpr l)
    else if tokIs (peek p) Dot then infix (parseFieldExpr l false)
    else if tokIs (peek p) DoubleColon then infix (parseFieldExpr l true)
    else ret (l, false).

(** Whether the loop of [parseExpression] takes the operator at peek. *)
Definition continuesExpression (precedence : nat) (l : Expr) : M Src bool :=
  let! p := get in
  if tokIs (peek p) Semicolon then ret false
  else
    let! next := peekPrecedence in
    if (precedence <? next)%nat then ret true
    else
      let! p := get in
      if tokIs (peek p) LT_ then shouldParseTypeApply l else ret false.

(** The loop of [parseExpression]; [false] is its early return. *)
Definition parseInfixes (precedence : nat) (l : Expr) : M Src (Expr * bool) :=
  loop (fun l =>
    let! go := continuesExpression precedence l in
    if negb (go : bool) then ret (inr (l, true))
    else
      let! (next, ok) := parseInfix l in
      ret (if ok : bool then inl next else inr (l, false))) l.

(** [parseExpression] *)
Definition parseExpression (precedence : nat) : M Src Expr :=
  let! l := parsePrefixExpression in
  let! (l, finished) := parseInfixes precedence l in
  if negb (finished : bool) then ret l
  else
    let! p := get in
    if tokIs (peek p) LBrace then
      match structLiteralTypeName l with Some name => parseStructLiteralExpr name | None => ret l end
    else ret l.
End Expressions.
