(* ===== verification/ParserStmt.v ===== *)
(** * Parsing statements ([internal/parser/parser.go]) *)

From stdpp Require Import base list strings.
From Stdlib Require Import ZArith Lia String Ascii.
From S2P Require Import Prelude GoStd Typ Token Literals Ast ParserState ParserType ParserExpr.

#[local] Open Scope string_scope.
#[local] Open Scope list_scope.

Section Statements.
Context {Src : Type} {source : TokenSource Src} (rec : Calls Src).

(** [parseLetStmt] *)
Definition parseLetStmt (mutable : bool) : M Src Stmt :=
  need! expectPeek Ident else LetStmt noSpan mutable "" None None in
  let! p := get in
  let name := literal (cur p) in
  let typed := tokIs (peek p) Colon in
  let! ty := if typed then do! nextToken in do! nextToken in callTypeName rec else ret None in
  if typed && negb (bool_decide (is_Some ty)) then ret (LetStmt noSpan mutable name None None)
  else
    need! expectPeek Assign else LetStmt noSpan mutable name ty None in
    do! nextToken in
    let! value := callExpression rec lowest in
    do! expectStatementTerminator "let statement" in
    ret (LetStmt noSpan mutable name ty (Some value)).

(** [parseAssignStmt] *)
Definition parseAssignStmt (target : Expr) : M Src Stmt :=
  do! nextToken in
  do! nextToken in
  let! value := callExpression rec lowest in
  do! expectStatementTerminator "assignment" in
  ret (AssignStmt noSpan target value).

(** [parseReturnStmt] *)
Definition parseReturnStmt : M Src Stmt :=
  let! p := get in
  if tokIs (peek p) Semicolon then do! nextToken in ret (ReturnStmt noSpan None)
  else
    do! nextToken in
    let! value := callExpression rec lowest in
    do! expectStatementTerminator "return statement" in
    ret (ReturnStmt noSpan (Some value)).

(** [parseDeferStmt] and [parseErrDeferStmt], by the node and the keyword. *)
Definition parseCleanupStmt (node : option Expr -> Stmt) (keyword : string) : M Src Stmt :=
  let! p := get in
  if oneOf (peek p) [Let_; Var; Return_; Defer; ErrDefer; LBrace] then
    do! errorf (keyword +:+ " expects an expression statement") in ret (node None)
  else
    do! nextToken in
    let! e := callExpression rec lowest in
    do! expectStatementTerminator (keyword +:+ " statement") in
    ret (node (Some e)).

Definition parseDeferStmt : M Src Stmt := parseCleanupStmt (DeferStmt noSpan) "defer".
Definition parseErrDeferStmt : M Src Stmt := parseCleanupStmt (ErrDeferStmt noSpan) "errdefer".

(** [parseWhileStmt] *)
Definition parseWhileStmt (label : string) : M Src Stmt :=
  do! nextToken in
  let! condition := callExpression rec lowest in
  let! (capture, ok) := parsePayloadCapture in
  if negb (ok : bool) then ret (WhileStmt noSpan label condition None "") else
  need! expectPeek LBrace else WhileStmt noSpan label condition None capture in
  let! body := callBlockStmt rec in
  ret (WhileStmt noSpan label condition (Some body) capture).

(** [parseForStmt] *)
Definition parseForStmt (label : string) : M Src Stmt :=
  do! nextToken in
  let! start := callExpression rec lowest in
  need! expectPeek Range else ForStmt noSpan label "" start None None in
  do! nextToken in
  let! end_ := callExpression rec lowest in
  let partial name := ForStmt noSpan label name start (Some end_) in
  need! expectPeek Pipe else partial "" None in
  need! expectPeek Ident else partial "" None in
  let! p := get in
  let name := literal (cur p) in
  need! expectPeek Pipe else partial name None in
  need! expectPeek LBrace else partial name None in
  let! body := callBlockStmt rec in
  ret (partial name (Some body)).

(** [parseComptimeForStmt] *)
Definition parseComptimeForStmt : M Src Stmt :=
  need! expectPeek For_ else ComptimeForStmt noSpan None None None "" None in
  do! nextToken in
  let! first := callExpression rec lowest in
  let! p := get in
  let! partial :=
    if tokIs (peek p) Range then
      do! nextToken in
      do! nextToken in
      let! end_ := callExpression rec lowest in
      ret (ComptimeForStmt noSpan None (Some first) (Some end_))
    else ret (ComptimeForStmt noSpan (Some first) None None) in
  let! (capture, ok) := parsePayloadCapture in
  if negb (ok : bool) then ret (partial "" None)
  else if String.eqb capture "" then
    do! errorf "comptime for requires a capture, as in `comptime for list |field| { ... }`" in ret (partial "" None)
  else
    need! expectPeek LBrace else partial capture None in
    let! body := callBlockStmt rec in
    ret (partial capture (Some body)).

(** [parseVariantCapture] *)
Definition parseVariantCapture : M Src (list string * bool) :=
  let! p := get in
  if negb (tokIs (peek p) Pipe) then ret ([], true)
  else
    need! expectPeek Pipe else ([], false) in
    need! expectPeek Ident else ([], false) in
    let! p := get in
    let first := literal (cur p) in
    let! (captures, ok) :=
      if tokIs (peek p) Comma then
        do! nextToken in
        need! expectPeek Ident else ([], false) in
        let! p := get in ret ([first; literal (cur p)], true)
      else ret ([first], true) in
    if negb (ok : bool) then ret ([], false)
    else need! expectPeek Pipe else ([], false) in ret (captures, true).

(** [parseComptimeMatchStmt] *)
Definition parseComptimeMatchStmt : M Src Stmt :=
  need! expectPeek Match_ else ComptimeMatchStmt noSpan None "" "" None in
  do! nextToken in
  let! value := callExpression rec lowest in
  let! (captures, ok) := parseVariantCapture in
  if negb (ok : bool) then ret (ComptimeMatchStmt noSpan (Some value) "" "" None)
  else match captures with
  | [] =>
      do! errorf "comptime match requires a capture, as in `comptime match value |variant| { ... }`" in
      ret (ComptimeMatchStmt noSpan (Some value) "" "" None)
  | name :: rest =>
      let binding := match rest with b :: _ => b | [] => "" end in
      need! expectPeek LBrace else ComptimeMatchStmt noSpan (Some value) name binding None in
      let! body := callBlockStmt rec in
      ret (ComptimeMatchStmt noSpan (Some value) name binding (Some body))
  end.

(** [parseBreakStmt] *)
Definition parseBreakStmt : M Src Stmt :=
  let! label := parseOptionalBranchLabel in
  do! expectStatementTerminator "break statement" in ret (BreakStmt noSpan label).

(** [parseContinueStmt] *)
Definition parseContinueStmt : M Src Stmt :=
  let! label := parseOptionalBranchLabel in
  do! expectStatementTerminator "continue statement" in ret (ContinueStmt noSpan label).

(** [parseLabeledStmt] *)
Definition parseLabeledStmt : M Src Stmt :=
  let! p := get in
  let label := literal (cur p) in
  do! nextToken in
  do! nextToken in
  let! p := get in
  if tokIs (cur p) While then parseWhileStmt label
  else if tokIs (cur p) For_ then parseForStmt label
  else
    do! errorf ("label `" +:+ label +:+ "` must be attached to while or for") in
    ret (ExprStmt noSpan (errorExpr (tokenSpan (cur p))) false).

(** [finishExprStmt] *)
Definition finishExprStmt (e : Expr) : M Src Stmt :=
  let! p := get in
  if tokIs (peek p) Semicolon then do! nextToken in ret (ExprStmt noSpan e true)
  else if oneOf (peek p) [RBrace; Comma] then ret (ExprStmt noSpan e false)
  else do! errorf "expected `;` after expression statement" in ret (ExprStmt noSpan e false).

(** [parseComptimeStatement]; no statement stands for [nil, false]. *)
Definition parseComptimeStatement : M Src (option Stmt) :=
  let! p := get in
  let some (m : M Src Stmt) := let! s := m in ret (Some s) in
  if tokIs (peek p) If_ then some (parseComptimeIfStmt rec)
  else if tokIs (peek p) For_ then some parseComptimeForStmt
  else if tokIs (peek p) Match_ then some parseComptimeMatchStmt
  else ret None.

(** [parseKeywordStatement] *)
Definition parseKeywordStatement : M Src (option Stmt) :=
  let! p := get in
  let some (m : M Src Stmt) := let! s := m in ret (Some s) in
  if tokIs (cur p) Let_ then some (parseLetStmt false)
  else if tokIs (cur p) Var then some (parseLetStmt true)
  else if tokIs (cur p) Return_ then some parseReturnStmt
  else if tokIs (cur p) Defer then some parseDeferStmt
  else if tokIs (cur p) ErrDefer then some parseErrDeferStmt
  else if tokIs (cur p) If_ then some (let! s := parseIfStmt rec in ret (IfSt s))
  else if tokIs (cur p) While then some (parseWhileStmt "")
  else if tokIs (cur p) For_ then some (parseForStmt "")
  else if tokIs (cur p) Break then some parseBreakStmt
  else if tokIs (cur p) Continue then some parseContinueStmt
  else if tokIs (cur p) Match_ then some (let! s := parseMatchStmt rec in ret (MatchSt s))
  else if tokIs (cur p) Comptime then parseComptimeStatement
  else ret None.

(** [parseStatementForm] *)
Definition parseStatementForm : M Src Stmt :=
  let! keyword := parseKeywordStatement in
  match keyword with
  | Some s => ret s
  | None =>
      let! p := get in
      if tokIs (cur p) Ident && tokIs (peek p) Colon then parseLabeledStmt
      else
        let! e := callExpression rec lowest in
        let! p := get in
        if tokIs (peek p) Assign then parseAssignStmt e else finishExprStmt e
  end.

(** [parseStatement] *)
Definition parseStatement : M Src Stmt :=
  let! p := get in
  let first := tokenSpan (cur p) in
  let! stmt := withSafety (commentText (tokSafety (cur p))) parseStatementForm in
  let! p := get in
  ret (SetStatementSpan (spanThrough first (cur p)) stmt).

(** [parseBlockStmt] *)
Definition parseBlockStmt : M Src BlockStmt :=
  do! nextToken in
  let! statements := loop (fun statements =>
    let! p := get in
    if tokIs (cur p) RBrace || tokIs (cur p) EOF_ then ret (inr statements)
    else
      let! stmt := callStatement rec in
      do! nextToken in ret (inl (statements ++ [stmt]))) [] in
  do! expectListClose "block" in
  ret (mkBlock noSpan statements).
End Statements.

(** The recursion of the parser, to a depth. *)
Fixpoint parser {Src} {source : TokenSource Src} (depth : nat) : Calls Src :=
  match depth with
  | O => mkCalls Src outOfBound (fun _ => outOfBound) outOfBound outOfBound outOfBound outOfBound
  | S depth =>
      let rec := parser depth in
      mkCalls Src (parseTypeName rec) (parseExpression rec) (parseIfStmt rec) (parseComptimeIfStmt rec)
        (parseStatement rec) (parseBlockStmt rec)
  end.
