(* ===== verification/ParserDecl.v ===== *)
(** * Parsing declarations ([internal/parser/parser.go])

    A declaration the code fills in place is a value that is returned filled as
    far as the code came. *)

From stdpp Require Import base list strings gmap.
From Stdlib Require Import ZArith Lia String Ascii.
From S2P Require Import Prelude GoStd Typ Token Literals Ast ParserState ParserType ParserExpr ParserStmt.

#[local] Open Scope string_scope.
#[local] Open Scope list_scope.

(** ** Function declarations as they are filled *)

Definition emptySignature : FunctionSignature :=
  mkSignature false "" [] [] false None false "" "" "" "" false false noSpan.

Definition withSignature (f : FunctionSignature -> FunctionSignature) (d : FunctionDecl) : FunctionDecl :=
  mkFunctionDecl (fdAt d) (f (fdSignature d)) (fdDoc d) (fdDerived d) (fdBody d).

Definition withBody (body : BlockStmt) (d : FunctionDecl) : FunctionDecl :=
  mkFunctionDecl (fdAt d) (fdSignature d) (fdDoc d) (fdDerived d) (Some body).

Definition setName (name : string) (span : Span) (s : FunctionSignature) : FunctionSignature :=
  mkSignature (sgReceiver s) name (sgStaticParams s) (sgParams s) (sgVariadic s) (sgReturnType s) (sgRequiresUnsafe s)
    (sgExternABI s) (sgExportABI s) (sgLinkLibrary s) (sgLinkFramework s) (sgPublic s) (sgStd s) span.

Definition setReceiver (params : list Param) (s : FunctionSignature) : FunctionSignature :=
  mkSignature true (sgName s) (sgStaticParams s) params (sgVariadic s) (sgReturnType s) (sgRequiresUnsafe s)
    (sgExternABI s) (sgExportABI s) (sgLinkLibrary s) (sgLinkFramework s) (sgPublic s) (sgStd s) (sgSpan s).

Definition setStaticParams (params : list StaticParam) (s : FunctionSignature) : FunctionSignature :=
  mkSignature (sgReceiver s) (sgName s) params (sgParams s) (sgVariadic s) (sgReturnType s) (sgRequiresUnsafe s)
    (sgExternABI s) (sgExportABI s) (sgLinkLibrary s) (sgLinkFramework s) (sgPublic s) (sgStd s) (sgSpan s).

Definition addParams (params : list Param) (variadic : bool) (s : FunctionSignature) : FunctionSignature :=
  mkSignature (sgReceiver s) (sgName s) (sgStaticParams s) (sgParams s ++ params) variadic (sgReturnType s) (sgRequiresUnsafe s)
    (sgExternABI s) (sgExportABI s) (sgLinkLibrary s) (sgLinkFramework s) (sgPublic s) (sgStd s) (sgSpan s).

Definition setReturnType (t : option Ty) (s : FunctionSignature) : FunctionSignature :=
  mkSignature (sgReceiver s) (sgName s) (sgStaticParams s) (sgParams s) (sgVariadic s) t (sgRequiresUnsafe s)
    (sgExternABI s) (sgExportABI s) (sgLinkLibrary s) (sgLinkFramework s) (sgPublic s) (sgStd s) (sgSpan s).

Definition setExternABI (abi : string) (s : FunctionSignature) : FunctionSignature :=
  mkSignature (sgReceiver s) (sgName s) (sgStaticParams s) (sgParams s) (sgVariadic s) (sgReturnType s) (sgRequiresUnsafe s)
    abi (sgExportABI s) (sgLinkLibrary s) (sgLinkFramework s) (sgPublic s) (sgStd s) (sgSpan s).

Definition setExportABI (abi : string) (s : FunctionSignature) : FunctionSignature :=
  mkSignature (sgReceiver s) (sgName s) (sgStaticParams s) (sgParams s) (sgVariadic s) (sgReturnType s) (sgRequiresUnsafe s)
    (sgExternABI s) abi (sgLinkLibrary s) (sgLinkFramework s) (sgPublic s) (sgStd s) (sgSpan s).

Definition setLinks (library framework : string) (s : FunctionSignature) : FunctionSignature :=
  mkSignature (sgReceiver s) (sgName s) (sgStaticParams s) (sgParams s) (sgVariadic s) (sgReturnType s) (sgRequiresUnsafe s)
    (sgExternABI s) (sgExportABI s) library framework (sgPublic s) (sgStd s) (sgSpan s).

Definition setUnsafe (s : FunctionSignature) : FunctionSignature :=
  mkSignature (sgReceiver s) (sgName s) (sgStaticParams s) (sgParams s) (sgVariadic s) (sgReturnType s) true
    (sgExternABI s) (sgExportABI s) (sgLinkLibrary s) (sgLinkFramework s) (sgPublic s) (sgStd s) (sgSpan s).

Definition setPublic (s : FunctionSignature) : FunctionSignature :=
  mkSignature (sgReceiver s) (sgName s) (sgStaticParams s) (sgParams s) (sgVariadic s) (sgReturnType s) (sgRequiresUnsafe s)
    (sgExternABI s) (sgExportABI s) (sgLinkLibrary s) (sgLinkFramework s) true (sgStd s) (sgSpan s).

(** [functionStub] *)
Definition functionStub (public : bool) (docs : string) : FunctionDecl :=
  mkFunctionDecl noSpan (if public then setPublic emptySignature else emptySignature) docs false None.

(** [setPublicDecl] *)
Definition setPublicDecl (d : Decl) : Decl :=
  match d with
  | DFunction d => DFunction (withSignature setPublic d)
  | DStruct d => DStruct (mkStructDecl (sdAt d) (sdName d) (sdDoc d) (sdTypeParams d) (sdFields d) true (sdSpan d)
      (sdRequiresUnsafe d) (sdExternABI d))
  | DEnum d => DEnum (mkEnumDecl (edAt d) (edName d) (edDoc d) (edTags d) (edTagDocs d) true)
  | DUnion d => DUnion (mkUnionDecl (udAt d) (udName d) (udDoc d) (udTypeParams d) (udVariants d) true)
  | DContract d => DContract (mkContractDecl (cdAt d) (cdName d) (cdMethods d) true)
  | DErrorSet d => DErrorSet (mkErrorSetDecl (esAt d) (esName d) (esDoc d) (esMembers d) (esMemberDocs d) true (esCombines d))
  | d => d
  end.

(** [tagDocsOrNil] *)
Definition tagDocsOrNil (docs : gmap string string) : option (gmap string string) :=
  if bool_decide (docs = ∅) then None else Some docs.

Section Declarations.
Context {Src : Type} {source : TokenSource Src} (rec : Calls Src).

(** The text of the current token's doc comments. *)
Definition docs (p : PState Src) : string := commentText (tokDocComments (cur p)).

(** A path of names joined by [::]: the names after the first. *)
Definition parsePath (path : list string) : M Src (list string * bool) :=
  loop (fun path =>
    let! p := get in
    if negb (tokIs (peek p) DoubleColon) then ret (inr (path, true))
    else
      do! nextToken in
      need! expectPeek Ident else inr (path, false) in
      let! p := get in ret (inl (path ++ [literal (cur p)]))) path.

(** [parseImportDecl] *)
Definition parseImportDecl : M Src Decl :=
  need! expectPeek Ident else DImport (mkImportDecl noSpan []) in
  let! p := get in
  let! (path, ok) := parsePath [literal (cur p)] in
  if negb (ok : bool) then ret (DImport (mkImportDecl noSpan path))
  else do! expectStatementTerminator "import declaration" in ret (DImport (mkImportDecl noSpan path)).

(** ** Parameters and signatures *)

(** The [&] or [&var] in front of a type. *)
Definition parseBorrowMarks : M Src (bool * bool) :=
  let! p := get in
  if negb (tokIs (cur p) Amp) then ret (false, false)
  else
    do! nextToken in
    let! p := get in
    if tokIs (cur p) Var then do! nextToken in ret (true, true) else ret (true, false).

(** [parseParam] *)
Definition parseParam : M Src (Param * bool) :=
  let! p := get in
  let name := literal (cur p) in
  let first := tokenSpan (cur p) in
  if tokIs (cur p) Comptime then
    do! errorf "compile-time parameter belongs in `<...>`, not `(...)`" in ret (mkParam noSpan "" None false false, false)
  else if negb (tokIs (cur p) Ident) then
    do! errorf ("expected parameter name, got " +:+ tokenDescription (cur p)) in ret (mkParam noSpan "" None false false, false)
  else
    need! expectPeek Colon else (mkParam noSpan name None false false, false) in
    do! nextToken in
    let! (borrow, mut) := parseBorrowMarks in
    let! ty := callTypeName rec in
    match ty with
    | None => ret (mkParam noSpan name None borrow mut, false)
    | Some _ => let! p := get in ret (mkParam (spanThrough first (cur p)) name ty borrow mut, true)
    end.

(** [checkVariadicMarker] *)
Definition checkVariadicMarker (allowVariadic : bool) (named : nat) : M Src () :=
  let! p := get in
  if negb allowVariadic then errorf ("`...` is allowed only in an `extern " +:+ Bytes "c" +:+ " fn` declaration")
  else if (named =? 0)%nat then errorf "`...` needs a named parameter before it"
  else if negb (tokIs (peek p) RParen) then errorf "`...` must be the last entry of the parameter list"
  else ret ().

(** One entry of [parseParams]: the marker or a parameter. *)
Definition parseParamEntry (allowVariadic : bool) (params : list Param) (variadic : bool) : M Src (list Param * bool * bool) :=
  let! p := get in
  if tokIs (cur p) Ellipsis then
    do! checkVariadicMarker allowVariadic (List.length params) in ret (params, true, true)
  else
    let! (param, ok) := parseParam in
    if ok : bool then ret (params ++ [param], variadic, true) else ret (params, variadic, false).

(** The loop of [parseParams]; [false] when a parameter is not one. *)
Definition parseParamEntries (allowVariadic : bool) : M Src (list Param * bool * bool) :=
  loop (fun '(params, variadic) =>
    let! (params, variadic, ok) := parseParamEntry allowVariadic params variadic in
    if negb (ok : bool) then ret (inr (params, variadic, false))
    else
      let! p := get in
      if negb (tokIs (peek p) Comma) then ret (inr (params, variadic, true))
      else
        do! nextToken in
        let! p := get in
        if tokIs (peek p) RParen then ret (inr (params, variadic, true))
        else do! nextToken in ret (inl (params, variadic))) ([], false).

(** [parseParams] *)
Definition parseParams (allowVariadic : bool) : M Src (list Param * bool) :=
  do! nextToken in
  let! p := get in
  if tokIs (cur p) RParen then ret ([], false)
  else
    let! (params, variadic, ok) := parseParamEntries allowVariadic in
    if negb (ok : bool) then ret (params, variadic)
    else do! expectPeek RParen in ret (params, variadic).

(** [parseReceiver] *)
Definition parseReceiver (fn : FunctionDecl) : M Src (FunctionDecl * bool) :=
  do! nextToken in
  let! (params, _) := parseParams false in
  need! expectCur RParen else (fn, false) in
  if negb (List.length params =? 1)%nat then
    do! errorf ("expected one receiver in `fn (...)`, got " +:+ FormatInt (Z.of_nat (List.length params))) in ret (fn, false)
  else ret (withSignature (setReceiver params) fn, true).

(** [parseReturnClause] *)
Definition parseReturnClause (fn : FunctionDecl) : M Src (FunctionDecl * bool) :=
  let! p := get in
  if negb (tokIs (peek p) Arrow) then ret (fn, true)
  else
    do! nextToken in
    do! nextToken in
    let! ty := callTypeName rec in
    ret (withSignature (setReturnType ty) fn, bool_decide (is_Some ty)).

(** The [<...>] list of a function. *)
Definition parseFunctionStaticParams (fn : FunctionDecl) : M Src (FunctionDecl * bool) :=
  let! p := get in
  if negb (tokIs (peek p) LT_) then ret (fn, true)
  else
    do! nextToken in
    let! params := parseStaticParamList rec in
    let fn := withSignature (setStaticParams params) fn in
    match params with
    | [] => ret (fn, false)
    | _ => need! expectTypeClose else (fn, false) in ret (fn, true)
    end.

(** [parseFunctionSignatureAfterFn] *)
Definition parseFunctionSignatureAfterFn (fn : FunctionDecl) : M Src (FunctionDecl * bool) :=
  let! p := get in
  let! (fn, ok) := if tokIs (peek p) LParen then parseReceiver fn else ret (fn, true) in
  if negb (ok : bool) then ret (fn, false) else
  need! expectPeek Ident else (fn, false) in
  let! p := get in
  let fn := withSignature (setName (literal (cur p)) (tokenSpan (cur p))) fn in
  let! (fn, ok) := parseFunctionStaticParams fn in
  if negb (ok : bool) then ret (fn, false) else
  need! expectPeek LParen else (fn, false) in
  let sig := fdSignature fn in
  let! (params, variadic) := parseParams (String.eqb (sgExternABI sig) "c" && negb (sgReceiver sig)) in
  let fn := withSignature (addParams params variadic) fn in
  need! expectCur RParen else (fn, false) in
  parseReturnClause fn.

(** [parseFunctionAfterFn] *)
Definition parseFunctionAfterFn (fn : FunctionDecl) : M Src Decl :=
  let! (fn, ok) := parseFunctionSignatureAfterFn fn in
  if negb (ok : bool) then ret (DFunction fn) else
  need! expectPeek LBrace else DFunction fn in
  let! body := callBlockStmt rec in
  ret (DFunction (withBody body fn)).

(** [parseFunctionDeclWithDoc] *)
Definition parseFunctionDeclWithDoc (docs : string) : M Src Decl := parseFunctionAfterFn (functionStub false docs).

(** [parseTestDecl] *)
Definition parseTestDecl : M Src Decl :=
  need! expectPeek String_ else DTest (mkTestDecl noSpan "" None "") in
  let! p := get in
  let name := literal (cur p) in
  need! expectPeek LBrace else DTest (mkTestDecl noSpan name None "") in
  let! body := callBlockStmt rec in
  ret (DTest (mkTestDecl noSpan name (Some body) "")).

(** ** Contracts and assertions *)

(** [parseContractMethods] *)
Definition parseContractMethods : M Src (list FunctionDecl) :=
  do! nextToken in
  loop (fun methods =>
    let! p := get in
    if tokIs (cur p) RBrace || tokIs (cur p) EOF_ then do! expectListClose "contract" in ret (inr methods)
    else if negb (tokIs (cur p) FunctionTok) then
      do! errorf ("expected contract method, got " +:+ tokenDescription (cur p)) in ret (inr methods)
    else
      let! (method, _) := parseFunctionSignatureAfterFn (functionStub false "") in
      if sgReceiver (fdSignature method) then
        do! errorf "a contract method takes no receiver; it says what a method looks like, not what it is on" in
        ret (inr methods)
      else
        let! p := get in
        do! (if tokIs (peek p) Semicolon then nextToken else ret ()) in
        do! nextToken in
        ret (inl (methods ++ [method]))) [].

(** [parseContractDecl] *)
Definition parseContractDecl : M Src Decl :=
  need! expectPeek Ident else DContract (mkContractDecl noSpan "" [] false) in
  let! p := get in
  let name := literal (cur p) in
  need! expectPeek LBrace else DContract (mkContractDecl noSpan name [] false) in
  let! methods := parseContractMethods in
  ret (DContract (mkContractDecl noSpan name methods false)).

(** [parseImplDecl] *)
Definition parseImplDecl : M Src Decl :=
  need! expectPeek Ident else DImpl (mkImplDecl noSpan "" "") in
  let! p := get in
  let name := literal (cur p) in
  if negb (tokIs (peek p) For_) then
    do! errorf ("expected `impl <contract> for " +:+ name +:+ ";`; a method on a type is `fn (self: " +:+ name +:+ ") name(...)`") in
    ret (DImpl (mkImplDecl noSpan "" ""))
  else
    do! nextToken in
    need! expectPeek Ident else DImpl (mkImplDecl noSpan name "") in
    let! p := get in
    let ty := literal (cur p) in
    let decl := DImpl (mkImplDecl noSpan name ty) in
    if tokIs (peek p) LBrace then
      do! errorf ("`impl " +:+ name +:+ " for " +:+ ty +:+ "` takes no body; write the methods as `fn (self: " +:+ ty +:+
        ") name(...)` and end this with `;`") in ret decl
    else do! expectStatementTerminator "impl declaration" in ret decl.

(** ** Structs, enums, error sets and unions *)

(** [parseStructField] *)
Definition parseStructField : M Src (Field * bool) :=
  let! p := get in
  let doc := docs p in
  let public := tokIs (cur p) Public in
  do! (if public then nextToken else ret ()) in
  let! p := get in
  let name := literal (cur p) in
  let first := tokenSpan (cur p) in
  let broken borrow mut := (mkField noSpan name doc None borrow mut public, false) in
  if negb (tokIs (cur p) Ident) then
    do! errorf ("expected field name, got " +:+ tokenDescription (cur p)) in ret (broken false false)
  else
    need! expectPeek Colon else broken false false in
    do! nextToken in
    let! (borrow, mut) := parseBorrowMarks in
    let! ty := callTypeName rec in
    match ty with
    | None => ret (broken borrow mut)
    | Some _ => let! p := get in ret (mkField (spanThrough first (cur p)) name doc ty borrow mut public, true)
    end.

(** [parseStructFields] *)
Definition parseStructFields : M Src (list Field) := do! nextToken in braced "struct field" "struct" parseStructField [].

(** The [<...>] list of a struct or a union, which declares types. *)
Definition parseTypeParams : M Src (list string * bool) :=
  let! p := get in
  if negb (tokIs (peek p) LT_) then ret ([], true)
  else
    do! nextToken in
    let! params := parseGenericParamList rec in
    match params with
    | [] => ret ([], false)
    | _ => need! expectTypeClose else (params, false) in ret (params, true)
    end.

(** [parseStructDeclWithDoc] *)
Definition parseStructDeclWithDoc (doc : string) : M Src StructDecl :=
  need! expectPeek Ident else mkStructDecl noSpan "" doc [] [] false noSpan false "" in
  let! p := get in
  let decl params fields :=
    mkStructDecl noSpan (literal (cur p)) doc params fields false (tokenSpan (cur p)) false "" in
  let! (params, ok) := parseTypeParams in
  if negb (ok : bool) then ret (decl params []) else
  need! expectPeek LBrace else decl params [] in
  let! fields := parseStructFields in
  ret (decl params fields).

(** The loop of [parseNameList]. *)
Definition parseNames (label : string) : M Src (list string * gmap string string) :=
  loop (fun '(names, found) =>
    let! p := get in
    if tokIs (cur p) RBrace || tokIs (cur p) EOF_ then do! expectListClose (label +:+ " list") in ret (inr (names, found))
    else if negb (tokIs (cur p) Ident) then
      do! errorf ("expected " +:+ label +:+ ", got " +:+ tokenDescription (cur p)) in ret (inr (names, found))
    else
      let names := names ++ [literal (cur p)] in
      let found := if String.eqb (docs p) "" then found else <[literal (cur p) := docs p]> found in
      need! consumeListDelimiter label else inr (names, found) in
      do! nextToken in ret (inl (names, found))) ([], ∅).

(** [parseNameList] *)
Definition parseNameList (label : string) : M Src (list string * option (gmap string string)) :=
  do! nextToken in
  let! (names, found) := parseNames label in ret (names, tagDocsOrNil found).

(** [parseEnumDeclWithDoc] *)
Definition parseEnumDeclWithDoc (doc : string) : M Src Decl :=
  need! expectPeek Ident else DEnum (mkEnumDecl noSpan "" doc [] None false) in
  let! p := get in
  let name := literal (cur p) in
  need! expectPeek LBrace else DEnum (mkEnumDecl noSpan name doc [] None false) in
  let! (tags, found) := parseNameList "enum tag" in
  ret (DEnum (mkEnumDecl noSpan name doc tags found false)).

(** [startsErrorSetDecl] *)
Definition startsErrorSetDecl (p : PState Src) : bool := String.eqb (literal (cur p)) "error" && tokIs (peek p) Ident.

(** [parseErrorSetReference] *)
Definition parseErrorSetReference : M Src (string * bool) :=
  need! expectPeek Ident else ("", false) in
  let! p := get in
  let! (path, ok) := parsePath [literal (cur p)] in
  ret (if ok : bool then (Join path "::", true) else ("", false)).

(** [parseErrorSetCombines] *)
Definition parseErrorSetCombines : M Src (list string) :=
  let! (combines, ok) := loop (fun combines =>
    let! (name, ok) := parseErrorSetReference in
    if negb (ok : bool) then ret (inr (combines, false))
    else
      let combines := combines ++ [name] in
      let! p := get in
      if negb (tokIs (peek p) Or_) then ret (inr (combines, true)) else do! nextToken in ret (inl combines)) [] in
  if negb (ok : bool) then ret combines else do! expectPeek Semicolon in ret combines.

(** [parseErrorSetDeclWithDoc] *)
Definition parseErrorSetDeclWithDoc (doc : string) : M Src Decl :=
  need! expectPeek Ident else DErrorSet (mkErrorSetDecl noSpan "" doc [] None false []) in
  let! p := get in
  let name := literal (cur p) in
  if tokIs (peek p) Assign then
    do! nextToken in
    let! combines := parseErrorSetCombines in
    ret (DErrorSet (mkErrorSetDecl noSpan name doc [] None false combines))
  else
    need! expectPeek LBrace else DErrorSet (mkErrorSetDecl noSpan name doc [] None false []) in
    let! (members, found) := parseNameList "error name" in
    ret (DErrorSet (mkErrorSetDecl noSpan name doc members found false [])).

(** [parseUnionVariant] *)
Definition parseUnionVariant : M Src (UnionVariant * bool) :=
  let! p := get in
  let doc := docs p in
  let name := literal (cur p) in
  let first := tokenSpan (cur p) in
  if negb (tokIs (cur p) Ident) then
    do! errorf ("expected union variant, got " +:+ tokenDescription (cur p)) in ret (mkVariant noSpan "" doc None, false)
  else if negb (tokIs (peek p) LParen) then ret (mkVariant first name doc None, true)
  else
    do! nextToken in
    do! nextToken in
    let! payload := callTypeName rec in
    match payload with
    | None => ret (mkVariant first name doc None, false)
    | Some _ =>
        need! expectPeek RParen else (mkVariant first name doc payload, false) in
        let! p := get in ret (mkVariant (spanThrough first (cur p)) name doc payload, true)
    end.

(** [parseUnionVariants] *)
Definition parseUnionVariants : M Src (list UnionVariant) :=
  do! nextToken in braced "union variant" "union" parseUnionVariant [].

(** [parseUnionDeclWithDoc] *)
Definition parseUnionDeclWithDoc (doc : string) : M Src Decl :=
  need! expectPeek Ident else DUnion (mkUnionDecl noSpan "" doc [] [] false) in
  let! p := get in
  let decl params variants := DUnion (mkUnionDecl noSpan (literal (cur p)) doc params variants false) in
  let! (params, ok) := parseTypeParams in
  if negb (ok : bool) then ret (decl params []) else
  need! expectPeek LBrace else decl params [] in
  let! variants := parseUnionVariants in
  ret (decl params variants).

(** ** Foreign declarations *)

(** [requireABIName] *)
Definition requireABIName (message : string) : M Src () :=
  let! p := get in if String.eqb (literal (cur p)) "" then errorf message else ret ().

(** [parseExternStructDecl] *)
Definition parseExternStructDecl (doc abi : string) : M Src Decl :=
  let! d := parseStructDeclWithDoc doc in
  let d := mkStructDecl (sdAt d) (sdName d) (sdDoc d) (sdTypeParams d) (sdFields d) (sdPublic d) (sdSpan d)
    (sdRequiresUnsafe d) abi in
  match List.find fPublic (sdFields d) with
  | Some f =>
      do! errorf ("parse error: extern struct field `" +:+ sdName d +:+ "." +:+ fName f +:+ "` is visible already; drop `pub`") in
      ret (DStruct d)
  | None => ret (DStruct d)
  end.

(** [parseExternDeclWithDoc] *)
Definition parseExternDeclWithDoc (doc : string) : M Src Decl :=
  let fn := functionStub false doc in
  need! expectPeek String_ else DFunction fn in
  let! p := get in
  let abi := literal (cur p) in
  if tokIs (peek p) StructTok then
    do! requireABIName "parse error: extern struct needs an ABI name: `c`" in
    do! nextToken in
    parseExternStructDecl doc abi
  else
    do! requireABIName "parse error: extern fn needs an ABI name: `c` or `browser`" in
    let fn := withSignature (setExternABI abi) fn in
    need! expectPeek FunctionTok else DFunction fn in
    let! (fn, _) := parseFunctionSignatureAfterFn fn in
    ret (DFunction fn).

(** [parseExportDeclWithDoc] *)
Definition parseExportDeclWithDoc (doc : string) : M Src Decl :=
  let fn := functionStub false doc in
  need! expectPeek String_ else DFunction fn in
  do! requireABIName "parse error: export fn needs an ABI name: `c` or `browser`" in
  let! p := get in
  let fn := withSignature (setExportABI (literal (cur p))) fn in
  need! expectPeek FunctionTok else DFunction fn in
  parseFunctionAfterFn fn.

(** [parseUnsafeDecl] *)
Definition parseUnsafeDecl (doc : string) : M Src Decl :=
  let! p := get in
  if tokIs (peek p) StructTok then
    do! nextToken in
    let! d := parseStructDeclWithDoc doc in
    ret (DStruct (mkStructDecl (sdAt d) (sdName d) (sdDoc d) (sdTypeParams d) (sdFields d) (sdPublic d) (sdSpan d)
      true (sdExternABI d)))
  else if tokIs (peek p) FunctionTok then
    do! nextToken in parseFunctionAfterFn (withSignature setUnsafe (functionStub false doc))
  else
    do! errorf ("expected fn or struct after unsafe, got " +:+ tokenDescription (peek p)) in
    ret (DFunction (functionStub false doc)).

(** [parseTopLevelDeclWithDoc] *)
Definition parseTopLevelDeclWithDoc (doc : string) : M Src Decl :=
  let! p := get in
  let refuse := do! errorf ("expected public declaration, got " +:+ tokenDescription (cur p)) in
    ret (DFunction (functionStub true doc)) in
  if tokIs (cur p) FunctionTok then parseFunctionDeclWithDoc doc
  else if tokIs (cur p) Unsafe then parseUnsafeDecl doc
  else if tokIs (cur p) Extern_ then parseExternDeclWithDoc doc
  else if tokIs (cur p) Export_ then parseExportDeclWithDoc doc
  else if tokIs (cur p) StructTok then let! d := parseStructDeclWithDoc doc in ret (DStruct d)
  else if tokIs (cur p) EnumTok then parseEnumDeclWithDoc doc
  else if tokIs (cur p) UnionTok then parseUnionDeclWithDoc doc
  else if tokIs (cur p) Contract then parseContractDecl
  else if tokIs (cur p) Ident then if startsErrorSetDecl p then parseErrorSetDeclWithDoc doc else refuse
  else refuse.

(** [parsePublicDecl] *)
Definition parsePublicDecl : M Src Decl :=
  let! p := get in
  do! nextToken in
  let! d := parseTopLevelDeclWithDoc (docs p) in ret (setPublicDecl d).

(** [parseLinkAttribute] *)
Definition parseLinkAttribute : M Src (string * string * bool) :=
  let failed := ("", "", false) in
  need! expectPeek Ident else failed in
  let! p := get in
  let name := literal (cur p) in
  need! expectPeek LParen else failed in
  need! expectPeek String_ else failed in
  let! p := get in
  let value := literal (cur p) in
  need! expectPeek RParen else failed in
  if String.eqb value "" then do! errorf ("parse error: attribute @" +:+ name +:+ " needs a name") in ret failed
  else ret (name, value, true).

(** The attribute lines of [parseAttributedDecl]: the library and the framework. *)
Definition parseLinkAttributes : M Src (string * string * bool) :=
  loop (fun '(library, framework) =>
    let! p := get in
    if negb (tokIs (cur p) At) then ret (inr (library, framework, true))
    else
      let! (name, value, ok) := parseLinkAttribute in
      if negb (ok : bool) then ret (inr (library, framework, false))
      else if String.eqb name "link_library" && String.eqb library "" then
        do! nextToken in ret (inl (value, framework))
      else if String.eqb name "link_framework" && String.eqb framework "" then
        do! nextToken in ret (inl (library, value))
      else if String.eqb name "link_library" || String.eqb name "link_framework" then
        do! errorf ("parse error: duplicate attribute @" +:+ name) in ret (inr (library, framework, false))
      else
        do! errorf ("parse error: unknown attribute @" +:+ name) in ret (inr (library, framework, false))) ("", "").

(** [parseAttributedDecl] *)
Definition parseAttributedDecl : M Src Decl :=
  let! p := get in
  let doc := docs p in
  let! (library, framework, ok) := parseLinkAttributes in
  if negb (ok : bool) then ret (DFunction (functionStub false doc))
  else
    let! p := get in
    let! decl :=
      if tokIs (cur p) Public then
        do! nextToken in let! d := parseTopLevelDeclWithDoc doc in ret (setPublicDecl d)
      else parseTopLevelDeclWithDoc doc in
    let misplaced :=
      do! errorf ("parse error: link attributes apply to extern " +:+ Bytes "c" +:+ " fn declarations") in ret decl in
    match decl with
    | DFunction fn =>
        if String.eqb (sgExternABI (fdSignature fn)) "" then misplaced
        else ret (DFunction (withSignature (setLinks library framework) fn))
    | _ => misplaced
    end.

(** [parseExternDecl] *)
Definition parseExternDecl : M Src Decl :=
  let! p := get in
  if tokIs (cur p) At then parseAttributedDecl else parseExternDeclWithDoc (docs p).

(** ** The program *)

(** [errorExpectedDeclaration] *)
Definition errorExpectedDeclaration : M Src () :=
  let! p := get in
  errorf ("expected declaration (fn, test, import, struct, enum, union, contract, impl, extern, export, pub, or unsafe), got " +:+
    tokenDescription (cur p)).

(** [parseIdentLedDecl] *)
Definition parseIdentLedDecl : M Src (list Decl) :=
  let! p := get in
  if String.eqb (literal (cur p)) "test" then let! d := parseTestDecl in ret [d]
  else if startsErrorSetDecl p then let! d := parseErrorSetDeclWithDoc (docs p) in ret [d]
  else do! errorExpectedDeclaration in ret [].

(** What one top-level form declares ([parseTopLevel]). *)
Definition parseTopLevel : M Src (list Decl) :=
  let! p := get in
  let one (m : M Src Decl) := let! d := m in ret [d] in
  if tokIs (cur p) Import_ then one parseImportDecl
  else if tokIs (cur p) Public then one parsePublicDecl
  else if tokIs (cur p) Ident then parseIdentLedDecl
  else if tokIs (cur p) FunctionTok then one (parseFunctionDeclWithDoc (docs p))
  else if tokIs (cur p) Unsafe then one (parseUnsafeDecl (docs p))
  else if tokIs (cur p) Extern_ || tokIs (cur p) At then one parseExternDecl
  else if tokIs (cur p) Export_ then one (parseExportDeclWithDoc (docs p))
  else if tokIs (cur p) StructTok then one (let! d := parseStructDeclWithDoc (docs p) in ret (DStruct d))
  else if tokIs (cur p) EnumTok then one (parseEnumDeclWithDoc (docs p))
  else if tokIs (cur p) UnionTok then one (parseUnionDeclWithDoc (docs p))
  else if tokIs (cur p) Contract then one parseContractDecl
  else if tokIs (cur p) Impl then one parseImplDecl
  else do! errorExpectedDeclaration in ret [].

(** [ParseProgram], with the recursion it calls. *)
Definition parseDeclarations : M Src Program_ :=
  loop (fun program =>
    let! p := get in
    if tokIs (cur p) EOF_ then ret (inr program)
    else
      let first := tokenSpan (cur p) in
      let! decls := parseTopLevel in
      let! p := get in
      let span := spanThrough first (cur p) in
      do! nextToken in
      ret (inl (program ++ map (SetDeclarationSpan span) decls))) [].
End Declarations.
