(* ===== verification/ParserFacts.v ===== *)
(** * Reasoning about the parser's computations

    [runs m p Q]: from a state with a valid source [m] does not run out of its
    bound; if it is done, [Q] holds, the source is still valid, no token was put
    back and no error was dropped; if it panics, an error was recorded before. *)

From stdpp Require Import base list strings.
From Stdlib Require Import ZArith Lia String Ascii.
From S2P Require Import Prelude GoStd StaticExpr Typ Token Literals Ast AstFacts ParserState ParserType.

#[local] Open Scope string_scope.
#[local] Open Scope list_scope.

Section Facts.
Context {Src : Type} {source : TokenSource Src}.

(** The number of errors so far. *)
Definition failures (p : PState Src) : nat := List.length (errors p).

(** The weight of the token at peek. *)
Definition ahead1 (p : PState Src) : nat := weight (peek p).

Record advances (p q : PState Src) : Prop := mkAdvances {
  adv_following : following q <= following p;
  adv_all : here q + 2 * following q <= here p + 2 * following p;
  adv_failures : failures p <= failures q;
  adv_prefix : errors p `prefix_of` errors q;
  adv_safety : safety q = safety p
}.

Definition runs {A} (m : M Src A) (p : PState Src) (Q : A -> PState Src -> Prop) : Prop :=
  valid (lex p) ->
  match m p with
  | Done a q => valid (lex q) /\ advances p q /\ Q a q
  | Panic q => 0 < failures q
  | OutOfBound => False
  end.

Lemma weight_bound t : weight t <= 1.
Proof. unfold weight. destruct (String.eqb _ _); lia. Qed.

Lemma advances_refl p : advances p p.
Proof. split; auto. Qed.

Lemma advances_trans p q r : advances p q -> advances q r -> advances p r.
Proof. intros [] []. split; try lia; [etransitivity; eassumption | congruence]. Qed.

Lemma runs_ret {A} (a : A) p (Q : A -> PState Src -> Prop) : Q a p -> runs (ret a) p Q.
Proof. intros H Hv. split; [exact Hv|]. split; [apply advances_refl | exact H]. Qed.

Lemma runs_get p (Q : PState Src -> PState Src -> Prop) : Q p p -> runs get p Q.
Proof. intros H Hv. split; [exact Hv|]. split; [apply advances_refl | exact H]. Qed.

Lemma runs_weaken {A} (m : M Src A) p (P Q : A -> PState Src -> Prop) :
  runs m p P -> (forall a q, advances p q -> P a q -> Q a q) -> runs m p Q.
Proof. intros H HQ Hv. specialize (H Hv). destruct (m p); [|exact H | exact H]. destruct H as (H1 & H2 & H3). auto. Qed.

Lemma runs_bind {A B} (m : M Src A) (k : A -> M Src B) p (P : A -> PState Src -> Prop) (Q : B -> PState Src -> Prop) :
  runs m p P -> (forall a q, advances p q -> P a q -> runs (k a) q Q) -> runs (bind m k) p Q.
Proof.
  intros Hm Hk Hv. unfold bind. specialize (Hm Hv). destruct (m p) as [a q | q |]; [|exact Hm | exact Hm].
  destruct Hm as (Hq & Ha & HP). specialize (Hk a q Ha HP Hq). destruct (k a q) as [b r | r |]; [|exact Hk | exact Hk].
  destruct Hk as (Hr & Ha' & HQ). split; [exact Hr|]. split; [eapply advances_trans; eassumption | exact HQ].
Qed.

Lemma runs_bind_get {B} (k : PState Src -> M Src B) p (Q : B -> PState Src -> Prop) : runs (k p) p Q -> runs (bind get k) p Q.
Proof. intros H. exact H. Qed.

Lemma runs_panic {A} p (Q : A -> PState Src -> Prop) : 0 < failures p -> runs panic p Q.
Proof. intros H _. exact H. Qed.

(** ** Tokens *)

Lemma tokIs_weight t ty : tokIs t ty = true -> ty <> EOF_ -> weight t = 1.
Proof. intros E%String.eqb_eq Hne. unfold weight. rewrite E, (proj2 (String.eqb_neq _ _) Hne). reflexivity. Qed.

Lemma tokIs_EOF t : tokIs t EOF_ = false -> weight t = 1.
Proof. unfold tokIs, weight. intros ->. reflexivity. Qed.

Lemma oneOf_weight t types : oneOf t types = true -> forallb (fun ty => negb (String.eqb ty EOF_)) types = true -> weight t = 1.
Proof.
  intros (ty & Hin & Ht)%existsb_exists Hall. rewrite forallb_forall in Hall. specialize (Hall ty Hin).
  apply (tokIs_weight t ty Ht). intros ->. discriminate.
Qed.

(** [nextToken] moves the token at peek to the current one. *)
Lemma runs_nextToken p :
  runs nextToken p (fun _ q => cur q = peek p /\ here q = ahead1 p /\ following q + ahead1 p <= following p /\ failures q = failures p).
Proof.
  intros Hv. unfold nextToken, following, here, ahead1, failures. destruct (ahead p) as [|t rest] eqn:E.
  - pose proof (scan_left (lex p) Hv) as Hleft. pose proof (scan_valid (lex p) Hv) as Hval.
    destruct (scan (lex p)) as [t l'] eqn:Hs. cbn [fst snd] in *. cbn [lex cur peek ahead errors map list_sum foldr] in *.
    pose proof (weight_bound (peek p)). split; [exact Hval|]. split; [|repeat split; lia].
    split; unfold following, here, failures; cbn [lex cur peek ahead errors safety map list_sum foldr]; rewrite ?E; cbn [map list_sum foldr];
      try lia; auto.
  - cbn [lex cur peek ahead errors map list_sum foldr]. pose proof (weight_bound (peek p)).
    split; [exact Hv|]. change (list_sum (map weight (t :: rest))) with (weight t + list_sum (map weight rest)).
    split; [|repeat split; lia]. split; unfold following, here, failures;
      cbn [lex cur peek ahead errors safety]; rewrite ?E;
      change (list_sum (map weight (t :: rest))) with (weight t + list_sum (map weight rest)); try lia; auto.
Qed.

Lemma runs_errorf message p :
  runs (errorf message) p (fun _ q => cur q = cur p /\ peek q = peek p /\ failures q = S (failures p)).
Proof.
  intros Hv. unfold errorf, failures. cbn [lex cur peek errors]. split; [exact Hv|]. rewrite length_app. cbn [List.length].
  split; [|repeat split; lia]. split; unfold following, here, failures; cbn [lex cur peek ahead errors safety]; auto.
  - rewrite length_app. lia.
  - exists [diagnosticAtToken (cur p) message]. reflexivity.
Qed.

(** Looking further changes neither token. *)
Definition looked (p q : PState Src) : Prop :=
  cur q = cur p /\ peek q = peek p /\ failures q = failures p /\ following q <= following p.

Lemma runs_scanAhead n p :
  runs (scanAhead n) p (fun _ q => looked p q /\ exists ts, ahead q = ahead p ++ ts /\ List.length ts = n).
Proof.
  revert p. induction n as [|n IH]; intros p.
  - apply runs_ret. split; [repeat split; auto|]. exists []. rewrite app_nil_r. auto.
  - cbn [scanAhead]. eapply runs_bind with (P := fun _ q => looked p q /\ exists t, ahead q = ahead p ++ [t]).
    + intros Hv. pose proof (scan_left (lex p) Hv) as Hleft. pose proof (scan_valid (lex p) Hv) as Hval.
      destruct (scan (lex p)) as [t l'] eqn:Hs. cbn [fst snd] in *.
      assert (Hf : following (mkState l' (cur p) (peek p) (ahead p ++ [t]) (errors p) (safety p)) <= following p).
      { unfold following. cbn [lex cur peek ahead]. rewrite map_app, list_sum_app. cbn [map list_sum foldr]. lia. }
      split; [exact Hval|]. split; [split; unfold failures, here in *; cbn [cur errors safety]; try lia; auto|].
      split; [repeat split; exact Hf|]. eauto.
    + intros [] q _ ((H1 & H2 & H3 & H4) & t & Ht). eapply runs_weaken; [apply IH|].
      intros [] r _ ((H5 & H6 & H7 & H8) & ts & Hts & Hlen). split; [repeat split; congruence || lia|].
      exists (t :: ts). rewrite Hts, Ht, <- app_assoc. cbn [List.length]. auto.
Qed.

(** A token other than [EOF] far ahead keeps what follows large. *)
Lemma runs_peekAt n p : 0 < n ->
  runs (peekAt n) p (fun t q => looked p q /\ ahead q !! (n - 1) = Some t /\ ahead p `prefix_of` ahead q).
Proof.
  intros Hn. unfold peekAt. apply runs_bind_get. eapply runs_bind; [apply runs_scanAhead|].
  intros [] q _ (Hl & ts & Hts & Hlen). apply runs_bind_get, runs_ret. split; [exact Hl|].
  assert (Hlt : n - 1 < List.length (ahead q)) by (rewrite Hts, length_app; lia).
  destruct (lookup_lt_is_Some_2 _ _ Hlt) as [t Ht]. rewrite Ht. split; [reflexivity|]. exists ts. exact Hts.
Qed.

Lemma runs_shiftPair p :
  runs shiftPair p (fun b q => looked p q /\ (b = true -> weight (peek p) = 1)).
Proof.
  unfold shiftPair. apply runs_bind_get. destruct (_ && _) eqn:E.
  - apply runs_ret. split; [repeat split; auto | discriminate].
  - eapply runs_bind; [apply runs_peekAt; lia|]. intros t q _ [Hl _]. apply runs_ret. split; [exact Hl|]. intros _.
    apply andb_false_iff in E as [E|E]; apply negb_false_iff in E; eapply tokIs_weight; eauto; discriminate.
Qed.

(** As many tokens other than [EOF] as [captureEnd] has passed. *)
Lemma sum_of_ones (l : list Token) n : n <= List.length l -> Forall (fun t => weight t = 1) (take n l) -> n <= list_sum (map weight l).
Proof.
  intros Hn Hall. rewrite <- (take_drop n l), map_app, list_sum_app.
  assert (list_sum (map weight (take n l)) = n); [|lia].
  assert (Hlen : List.length (take n l) = n) by (rewrite length_take; lia). rewrite <- Hlen at 2. clear Hlen Hn.
  induction Hall as [|t l' Ht _ IH]; [reflexivity|]. cbn [map list_sum foldr List.length] in *. unfold list_sum in *. rewrite Ht, IH. reflexivity.
Qed.

Lemma looked_trans p q r : looked p q -> looked q r -> looked p r.
Proof. intros (H1 & H2 & H3 & H4) (H5 & H6 & H7 & H8). repeat split; congruence || lia. Qed.

Lemma runs_captureEnd fuel n p :
  0 < n -> n - 1 <= List.length (ahead p) -> Forall (fun t => weight t = 1) (take (n - 1) (ahead p)) ->
  following p + 2 <= fuel + n -> runs (captureEnd fuel n) p (fun m q => looked p q /\ n <= m).
Proof.
  revert n p. induction fuel as [|fuel IH]; intros n p Hn Hlen Hones Hf.
  - pose proof (sum_of_ones _ _ Hlen Hones). unfold following in Hf. lia.
  - cbn [captureEnd]. eapply runs_bind; [apply runs_peekAt; lia|]. intros comma q _ (Hl & Hc & Hp). destruct (tokIs comma Comma) eqn:Ec;
      [|apply runs_ret; split; [exact Hl | lia]]. cbn [negb].
    eapply runs_bind; [apply runs_peekAt; lia|]. intros name r _ (Hl' & Hc' & Hp'). destruct (tokIs name Ident) eqn:Ei;
      [|apply runs_ret; split; [eapply looked_trans; eassumption | lia]].
    pose proof (looked_trans _ _ _ Hl Hl') as Hl2. replace (n + 1 - 1) with n in Hc' by lia.
    assert (Hcr : ahead r !! (n - 1) = Some comma) by (eapply prefix_lookup_Some; eassumption).
    pose proof (lookup_lt_Some _ _ _ Hc') as Hlt.
    eapply runs_weaken; [apply (IH (n + 2)); try lia|].
    + replace (n + 2 - 1) with (S n) by lia. rewrite (take_S_r _ _ _ Hc'). replace n with (S (n - 1)) at 1 by lia.
      rewrite (take_S_r _ _ _ Hcr). rewrite !Forall_app. repeat split; repeat constructor.
      * assert (Hpr : take (n - 1) (ahead r) = take (n - 1) (ahead p)); [|rewrite Hpr; exact Hones].
        destruct Hp' as [a2 ->], Hp as [a1 ->]. rewrite <- app_assoc, take_app_le by lia. reflexivity.
      * eapply tokIs_weight; [exact Ec | discriminate].
      * eapply tokIs_weight; [exact Ei | discriminate].
    + destruct Hl2 as (_ & _ & _ & H). lia.
    + intros m s _ [H1 H2]. split; [eapply looked_trans; eassumption | lia].
Qed.

Lemma runs_captureAhead p : runs captureAhead p (fun _ q => looked p q).
Proof.
  assert (Hrefl : looked p p) by (repeat split; auto).
  unfold captureAhead. apply runs_bind_get. destruct (tokIs (peek p) Pipe) eqn:Ep; [|apply runs_ret; exact Hrefl]. cbn [negb].
  eapply runs_bind; [apply runs_peekAt; lia|]. intros name q _ (Hl & Hc & _). destruct (tokIs name Ident) eqn:Ei; [|apply runs_ret; exact Hl].
  cbn [negb]. assert (Hq : runs (captureEnd (1 + following p) 2) q (fun m r => looked p r /\ 2 <= m)).
  { cbn in Hc. eapply runs_weaken; [apply runs_captureEnd|].
    - lia.
    - apply lookup_lt_Some in Hc. lia.
    - cbn. rewrite (take_S_r _ 0 _ Hc). repeat constructor. eapply tokIs_weight; [exact Ei | discriminate].
    - destruct Hl as (_ & _ & _ & Hl). lia.
    - intros m r _ [H1 H2]. split; [eapply looked_trans; eassumption | exact H2]. }
  eapply runs_bind; [exact Hq|]. intros m r _ [Hr Hm].
  eapply runs_bind; [apply runs_peekAt; lia|]. intros close s _ [Hs _]. pose proof (looked_trans _ _ _ Hr Hs).
  destruct (tokIs close Pipe); [|apply runs_ret; assumption]. cbn [negb].
  eapply runs_bind; [apply runs_peekAt; lia|]. intros brace t _ [Ht _]. apply runs_ret. eapply looked_trans; eassumption.
Qed.

(** ** Expectations: an error when they fail *)

Definition expects (p : PState Src) (ok : bool) (q : PState Src) : Prop :=
  if ok then failures q = failures p else failures q = S (failures p).

Lemma runs_expectCur t p :
  runs (expectCur t) p (fun ok q => expects p ok q /\ cur q = cur p /\ peek q = peek p /\ (ok = true -> tokIs (cur q) t = true)).
Proof.
  unfold expectCur. apply runs_bind_get. destruct (tokIs (cur p) t) eqn:E; [apply runs_ret; repeat split; auto|].
  eapply runs_bind; [apply runs_errorf|]. intros [] q _ (H1 & H2 & H3). apply runs_ret. repeat split; auto. discriminate.
Qed.

Lemma runs_expectPeek t p :
  runs (expectPeek t) p (fun ok q => expects p ok q /\
    if ok then cur q = peek p /\ tokIs (peek p) t = true /\ here q = ahead1 p /\ following q + ahead1 p <= following p
    else cur q = cur p /\ peek q = peek p).
Proof.
  unfold expectPeek. apply runs_bind_get. destruct (tokIs (peek p) t).
  - eapply runs_bind; [apply runs_nextToken|]. intros [] q _ (H1 & H2 & H3 & H4). apply runs_ret. repeat split; auto.
  - eapply runs_bind; [apply runs_errorf|]. intros [] q _ (H1 & H2 & H3). apply runs_ret. repeat split; auto.
Qed.

Lemma runs_expectStatementTerminator c p : runs (expectStatementTerminator c) p (expects p).
Proof.
  unfold expectStatementTerminator. apply runs_bind_get. destruct (tokIs (cur p) Semicolon); [apply runs_ret; reflexivity|].
  destruct (tokIs (peek p) Semicolon).
  - eapply runs_bind; [apply runs_nextToken|]. intros [] q _ (_ & _ & _ & H). apply runs_ret, H.
  - eapply runs_bind; [apply runs_errorf|]. intros [] q _ (_ & _ & H). apply runs_ret, H.
Qed.

Lemma runs_consumeListDelimiter c p :
  runs (consumeListDelimiter c) p (fun ok q => expects p ok q /\ (cur q = cur p \/ here q = 1)).
Proof.
  unfold consumeListDelimiter. apply runs_bind_get. destruct (tokIs (peek p) Comma) eqn:E.
  - eapply runs_bind; [apply runs_nextToken|]. intros [] q _ (H1 & H2 & H3 & H4). apply runs_ret. split; [exact H4|]. right.
    rewrite H2. unfold ahead1. eapply tokIs_weight; [exact E | discriminate].
  - destruct (_ || _); [apply runs_ret; repeat split; auto|].
    eapply runs_bind; [apply runs_errorf|]. intros [] q _ (H1 & H2 & H3). apply runs_ret. split; auto.
Qed.

Lemma runs_expectListClose c p :
  runs (expectListClose c) p (fun _ q => failures q = failures p + if tokIs (cur p) EOF_ then 1 else 0).
Proof.
  unfold expectListClose. apply runs_bind_get. destruct (tokIs (cur p) EOF_).
  - eapply runs_weaken; [apply runs_errorf|]. intros [] q _ (_ & _ & H). lia.
  - apply runs_ret. lia.
Qed.

Lemma runs_expectTypeClose p : runs expectTypeClose p (expects p).
Proof.
  unfold expectTypeClose. apply runs_bind_get. destruct (tokIs (cur p) GT_).
  - destruct (tokIs (peek p) GT_); [|apply runs_ret; reflexivity].
    eapply runs_bind; [apply runs_nextToken|]. intros [] q _ (_ & _ & _ & H). apply runs_ret, H.
  - eapply runs_weaken; [apply runs_expectPeek|]. intros ok q _ [H _]. exact H.
Qed.

Lemma runs_withSafety {A} text (m : M Src A) p (Q : A -> PState Src -> Prop) :
  (forall p', lex p' = lex p -> cur p' = cur p -> peek p' = peek p -> ahead p' = ahead p -> errors p' = errors p ->
    runs m p' (fun a q => forall r, cur r = cur q -> failures r = failures q -> Q a r)) ->
  runs (withSafety text m) p Q.
Proof.
  intros Hm Hv. unfold withSafety. set (p' := mkState _ _ _ _ _ _). specialize (Hm p' eq_refl eq_refl eq_refl eq_refl eq_refl Hv).
  destruct (m p') as [a q | q |]; [|exact Hm | exact Hm]. destruct Hm as (H1 & [A1 A2 A3 A4 A5] & H2).
  split; [exact H1|]. split; [|apply H2; reflexivity].
  split; unfold following, here, failures in *; cbn [lex cur peek ahead errors safety] in *; auto.
Qed.

(** ** Loops *)

Lemma runs_rounds {A B} (body : A -> M Src (A + B)) (I : A -> PState Src -> Prop) (Q : B -> PState Src -> Prop) fuel a p :
  (forall a p, I a p -> runs (body a) p (fun r q =>
     match r with inl a' => I a' q /\ here q + 2 * following q < here p + 2 * following p | inr b => Q b q end)) ->
  here p + 2 * following p < fuel -> I a p -> runs (rounds fuel body a) p Q.
Proof.
  intros Hbody. revert a p. induction fuel as [|fuel IH]; intros a p Hf Ha; [lia|]. cbn [rounds].
  eapply runs_bind; [apply Hbody, Ha|]. intros [a'|b] q _ H; [destruct H; apply IH; [lia | assumption] | apply runs_ret, H].
Qed.

Lemma runs_loop {A B} (body : A -> M Src (A + B)) (I : A -> PState Src -> Prop) (Q : B -> PState Src -> Prop) a p :
  (forall a p, I a p -> runs (body a) p (fun r q =>
     match r with inl a' => I a' q /\ here q + 2 * following q < here p + 2 * following p | inr b => Q b q end)) ->
  I a p -> runs (loop body a) p Q.
Proof. intros Hbody Ha. unfold loop. apply (runs_rounds body I Q); auto. Qed.

(** A computation whose result is sound when no error was recorded. *)
Definition clean {A} (good : A -> Prop) (p : PState Src) (a : A) (q : PState Src) : Prop := failures q = failures p -> good a.

(** The list between braces: every entry is sound, or an error was recorded. *)
Lemma runs_braced {A} context close (parse : M Src (A * bool)) (good : A -> Prop) entries p limit :
  (forall q, here q + 2 * following q <= limit -> here q = 1 ->
     runs parse q (clean (fun r => r.2 = true /\ good r.1) q)) ->
  here p + 2 * following p <= limit -> Forall good entries ->
  runs (braced context close parse entries) p (clean (Forall good) p).
Proof.
  intros Hparse Hlim Hentries.
  apply (runs_loop _ (fun l q => advances p q /\ clean (Forall good) p l q)).
  2:{ split; [apply advances_refl | intros _; exact Hentries]. }
  clear entries Hentries. intros entries q [Hadv Hclean]. apply runs_bind_get. destruct (_ || _) eqn:Eend.
  - eapply runs_bind; [apply runs_expectListClose|]. intros [] r Hr Hf. apply runs_ret. intros E.
    apply Hclean. pose proof (adv_failures _ _ Hadv). pose proof (adv_failures _ _ Hr). lia.
  - apply orb_false_iff in Eend as [_ Eend]. apply tokIs_EOF in Eend.
    eapply runs_bind; [apply Hparse; [pose proof (adv_all _ _ Hadv); lia | exact Eend]|].
    intros [entry ok] r Hr Hgood. destruct ok; cbn [negb fst snd] in *.
    2:{ apply runs_ret. intros E. pose proof (adv_failures _ _ Hadv). pose proof (adv_failures _ _ Hr).
        destruct Hgood as [Hb _]; [lia | discriminate]. }
    assert (Hnew : failures r = failures p -> Forall good (entries ++ [entry])).
    { intros E. pose proof (adv_failures _ _ Hadv). pose proof (adv_failures _ _ Hr).
      apply Forall_app. split; [apply Hclean; lia | constructor; [apply Hgood; lia | constructor]]. }
    eapply runs_bind; [apply runs_consumeListDelimiter|]. intros ok s Hs [He Hcur]. destruct ok; cbn [expects] in He.
    + eapply runs_bind; [apply runs_nextToken|]. intros [] t Ht (_ & H1 & H2 & H3). apply runs_ret. split; [split|].
      * eapply advances_trans; [|exact Ht]. eapply advances_trans; [|exact Hs]. eapply advances_trans; eassumption.
      * intros E. apply Hnew. lia.
      * pose proof (adv_all _ _ Hr). pose proof (adv_following _ _ Hr). pose proof (adv_all _ _ Hs). pose proof (adv_following _ _ Hs).
        pose proof (weight_bound (cur s)). unfold here in *. unfold ahead1 in *. pose proof (weight_bound (peek s)). lia.
    + apply runs_ret. intros E. pose proof (adv_failures _ _ Hadv). pose proof (adv_failures _ _ Hr). lia.
Qed.
End Facts.

(** ** Automation *)

Lemma runs_assoc {Src} {source : TokenSource Src} {A B C} (m : M Src A) (k : A -> M Src B) (k' : B -> M Src C) p Q :
  runs (bind m (fun a => bind (k a) k')) p Q -> runs (bind (bind m k) k') p Q.
Proof. unfold runs, bind. intros H Hv. specialize (H Hv). destruct (m p); exact H. Qed.

Lemma runs_bind_ret {Src} {source : TokenSource Src} {A B} (a : A) (k : A -> M Src B) p Q :
  runs (k a) p Q -> runs (bind (ret a) k) p Q.
Proof. intros H. exact H. Qed.

(** The parser is granted this depth at this state for a function of a rank. *)
Definition fits {Src} {source : TokenSource Src} (depth rank : nat) (p : PState Src) : Prop :=
  4 * (here p + 2 * following p) + rank <= depth.

Create HintDb parser.
#[export] Hint Resolve runs_nextToken runs_errorf runs_shiftPair runs_captureAhead runs_expectCur runs_expectPeek
  runs_expectStatementTerminator runs_consumeListDelimiter runs_expectListClose runs_expectTypeClose : parser.

(** What the hypotheses say of tokens and states, as arithmetic. *)
Ltac token_facts := repeat match goal with
  | H : tokIs (cur ?p) ?ty = true |- _ =>
      lazymatch goal with W : here p = 1 |- _ => fail | _ => assert (here p = 1) by (apply (tokIs_weight _ ty H); discriminate) end
  | H : tokIs (peek ?p) ?ty = true |- _ =>
      lazymatch goal with W : ahead1 p = 1 |- _ => fail | _ => assert (ahead1 p = 1) by (apply (tokIs_weight _ ty H); discriminate) end
  | H : oneOf (peek ?p) ?l = true |- _ =>
      lazymatch goal with W : ahead1 p = 1 |- _ => fail | _ => assert (ahead1 p = 1) by (apply (oneOf_weight _ l H); reflexivity) end
  | H : oneOf (cur ?p) ?l = true |- _ =>
      lazymatch goal with W : here p = 1 |- _ => fail | _ => assert (here p = 1) by (apply (oneOf_weight _ l H); reflexivity) end
  | H : tokIs (cur ?p) EOF_ = false |- _ =>
      lazymatch goal with W : here p = 1 |- _ => fail | _ => assert (here p = 1) by (exact (tokIs_EOF _ H)) end
  end.

Ltac state_facts := repeat match goal with
  | H : negb _ = false |- _ => apply negb_false_iff in H
  | H : negb _ = true |- _ => apply negb_true_iff in H
  | H : _ && _ = true |- _ => apply andb_true_iff in H as [? ?]
  | H : _ || _ = false |- _ => apply orb_false_iff in H as [? ?]
  | H : advances _ _ |- _ => destruct H as [? ? ? _ _]
  | H : looked _ _ |- _ => destruct H as (? & ? & ? & ?)
  | H : expects _ _ _ |- _ => cbn [expects] in H
  | H : _ /\ _ |- _ => destruct H
  | H : cur ?q = _ |- _ => lazymatch goal with W : here q <= 1 |- _ => fail | _ => pose proof (weight_bound (cur q) : here q <= 1) end
  end.

Ltac bounds := repeat match goal with
  | p : PState _ |- _ => lazymatch goal with W : here p <= 1 |- _ => fail | _ => pose proof (weight_bound (cur p) : here p <= 1) end
  end.

(** Arithmetic about states. *)
Ltac arith := state_facts; token_facts; bounds; unfold fits in *; lia.
#[export] Hint Extern 0 (fits _ _ _) => arith : parser.
#[export] Hint Extern 1 (here _ = 1) => arith : parser.

(** Soundness of what was read, once no error was recorded. *)
Ltac collect_good := repeat match goal with
  | H : clean _ ?p _ ?q |- _ => let E := fresh in unfold clean in H; assert (E : failures q = failures p) by lia; specialize (H E); clear E
  | H : _ /\ _ |- _ => destruct H
  | H : is_Some ?x |- _ => is_var x; destruct H as [? ->]
  end; cbn [fst snd option_map optional given] in *.

Lemma snoc_ne {A} (l : list A) x : l ++ [x] <> [].
Proof. destruct l; discriminate. Qed.

Lemma forallb_of_Forall {A} (f : A -> bool) l : Forall (fun x => f x = true) l -> forallb f l = true.
Proof. induction 1 as [|x l Hx _ IH]; [reflexivity|]. cbn [forallb]. rewrite Hx. exact IH. Qed.

(** A tree is complete because its parts are. *)
Ltac completes :=
  cbn [complete completeField completeStmt completeBlock completeIf completeMatch completeArm given optional some
    forallb andb orb completeDecl sdFields tdBody cdMethods] in *;
  rewrite ?andb_true_r, ?orb_true_r;
  repeat match goal with
    | H : ?x = true |- context [?x] => rewrite H
    | H : Forall (fun x => ?f x = true) ?l |- context [forallb ?f ?l] => rewrite (forallb_of_Forall f l H)
    end; reflexivity.

Ltac settle := try match goal with
  | H : is_Some None |- _ => exfalso; eapply is_Some_None; exact H
  | |- _ ++ [_] <> [] => apply snoc_ne
  | |- is_Some (option_map _ _) => apply option_map_is_Some; assumption
  | |- is_Some (Some _) => eexists; reflexivity
  | |- _ = true => first [discriminate | solve [exfalso; auto; lia] | completes]
  | _ => solve [auto | congruence | discriminate | lia | repeat split; auto; congruence || arith]
  end.

(** One step of a computation. *)
Ltac step := lazymatch goal with
  | |- runs (bind get _) _ _ => apply runs_bind_get
  | |- runs (bind (bind _ _) _) _ _ => apply runs_assoc
  | |- runs (bind (ret _) _) _ _ => apply runs_bind_ret
  | |- runs (bind (if ?b then _ else _) _) _ _ => let E := fresh "E" in destruct b eqn:E
  | |- runs (bind (match ?o with _ => _ end) _) _ _ => let E := fresh "E" in destruct o eqn:E
  | |- runs (bind ?m _) ?p _ =>
      eapply runs_bind; [solve [eauto 2 with parser] | let a := fresh "a" in let q := fresh "q" in intros a q ? ?; cbn beta in *]
  | |- runs (if ?b then _ else _) _ _ => let E := fresh "E" in destruct b eqn:E
  | |- runs (let (_, _) := ?x in _) _ _ => destruct x
  | |- runs (match ?o with _ => _ end) _ _ => let E := fresh "E" in destruct o eqn:E
  | |- runs (ret _) _ _ => apply runs_ret
  | |- runs (let x := ?v in _) _ _ => cbv zeta
  | |- runs ?m _ _ => eapply runs_weaken; [solve [eauto 2 with parser] | let a := fresh "a" in let q := fresh "q" in intros a q ? ?]
  end; cbn beta iota in *.

(** Run to the end and settle what is left. *)
Ltac finish := intros; unfold clean; intros; state_facts; collect_good; settle.
Ltac go := intros; repeat step; finish.

(** * Parsing types ends, and fails only with an error *)

(** What the entry points do when they are granted [depth]. *)
Record handles {Src} {source : TokenSource Src} (rec : Calls Src) (depth : nat) : Prop := mkHandles {
  runs_callTypeName : forall p, fits depth 1 p -> runs (callTypeName rec) p (clean is_Some p);
  runs_callExpression : forall precedence p, fits depth 2 p ->
    runs (callExpression rec precedence) p (clean (fun e => complete e = true) p);
  runs_callIfStmt : forall p, fits depth 1 p -> here p = 1 -> runs (callIfStmt rec) p (clean (fun s => completeIf s = true) p);
  runs_callComptimeIfStmt : forall p, fits depth 1 p ->
    runs (callComptimeIfStmt rec) p (clean (fun s => completeStmt s = true) p);
  runs_callStatement : forall p, fits depth 3 p -> runs (callStatement rec) p (clean (fun s => completeStmt s = true) p);
  runs_callBlockStmt : forall p, fits depth 4 p -> runs (callBlockStmt rec) p (clean (fun b => completeBlock b = true) p)
}.
#[export] Hint Resolve runs_callTypeName runs_callExpression runs_callIfStmt runs_callComptimeIfStmt runs_callStatement
  runs_callBlockStmt : parser.

Section Types.
Context {Src : Type} {source : TokenSource Src} (rec : Calls Src) (depth : nat) (Hrec : handles rec depth).

Lemma runs_parseTypeBaseName p : runs parseTypeBaseName p (fun _ q => True).
Proof.
  unfold parseTypeBaseName. apply runs_bind_get. apply (runs_loop _ (fun _ _ => True)); [|exact I]. intros parts q _.
  go; arith.
Qed.

Lemma runs_parseTypeArg allowConst p : fits depth 4 p -> runs (parseTypeArg rec allowConst) p (clean is_Some p).
Proof. intros Hf. unfold parseTypeArg. go. Qed.

#[local] Hint Resolve runs_parseTypeBaseName runs_parseTypeArg : parser.

(** Types separated by commas: none is nil, or an error was recorded. *)
Lemma runs_parseTypeArgNodes allowConst p :
  fits depth 4 p -> runs (parseTypeArgNodes rec allowConst) p (clean (fun l => l <> []) p).
Proof.
  intros Hf. apply (runs_loop _ (fun _ q => fits depth 4 q /\ failures p <= failures q)); [|auto].
  intros args q [Hfq He]. go.
Qed.

#[local] Hint Resolve runs_parseTypeArgNodes : parser.

Lemma runs_wrapped node (m : M Src (option Ty)) p :
  runs m p (clean is_Some p) -> runs (wrapped node m) p (clean is_Some p).
Proof.
  intros H. unfold wrapped. eapply runs_bind; [exact H|]. intros a q ? ?. apply runs_ret. intros E.
  specialize (H1 E). destruct H1 as [t ->]. eexists. reflexivity.
Qed.

#[local] Hint Resolve runs_wrapped : parser.

Lemma runs_parseNamedTypeName p : fits depth 0 p -> here p = 1 -> runs (parseNamedTypeName rec) p (clean is_Some p).
Proof. intros Hf Hh. unfold parseNamedTypeName. go. Qed.

Lemma runs_parseNullableTypeName p : fits depth 0 p -> here p = 1 -> runs (parseNullableTypeName rec) p (clean is_Some p).
Proof. intros Hf Hh. unfold parseNullableTypeName, wrapped. go. Qed.

Lemma runs_parseErrorUnionTypeName p : fits depth 0 p -> here p = 1 -> runs (parseErrorUnionTypeName rec) p (clean is_Some p).
Proof. intros Hf Hh. unfold parseErrorUnionTypeName, wrapped. go. Qed.

Lemma runs_parseBorrowTypeName p : fits depth 0 p -> here p = 1 -> runs (parseBorrowTypeName rec) p (clean is_Some p).
Proof. intros Hf Hh. unfold parseBorrowTypeName, wrapped. go. Qed.

Lemma runs_parseFuncTypeParams p : fits depth 4 p -> here p = 1 -> runs (parseFuncTypeParams rec) p (clean is_Some p).
Proof.
  intros Hf Hh. apply (runs_loop _ (fun _ q => fits depth 4 q /\ here q = 1 /\ failures p <= failures q)); [|auto].
  intros args q (Hfq & Hq & He). go.
Qed.

#[local] Hint Resolve runs_parseFuncTypeParams : parser.

Lemma runs_parseFuncTypeName unsafe abi p :
  fits depth 0 p -> here p = 1 -> runs (parseFuncTypeName rec unsafe abi) p (clean is_Some p).
Proof. intros Hf Hh. unfold parseFuncTypeName, wrapped. go. Qed.

#[local] Hint Resolve runs_parseFuncTypeName : parser.

Lemma runs_parseUnsafeFuncTypeName p : fits depth 0 p -> here p = 1 -> runs (parseUnsafeFuncTypeName rec) p (clean is_Some p).
Proof. intros Hf Hh. unfold parseUnsafeFuncTypeName. go. Qed.

Lemma runs_parseExternFuncTypeName p : fits depth 0 p -> here p = 1 -> runs (parseExternFuncTypeName rec) p (clean is_Some p).
Proof. intros Hf Hh. unfold parseExternFuncTypeName. go. Qed.

(** The panic of the error message needs an expression with a hole. *)
Lemma runs_parseStaticExprArg p : fits depth 0 p -> here p = 1 -> runs (parseStaticExprArg rec) p (fun _ _ => True).
Proof.
  intros Hf Hh. unfold parseStaticExprArg. do 2 step. destruct (staticExprText a0) as [text|] eqn:Et.
  { go. }
  destruct (ExprString a0) as [text|] eqn:Es; [go|]. assert (Hbad : complete a0 = true -> False).
  { intros Hc. destruct (expr_prints a0 Hc) as [s Hs]. congruence. }
  assert (Hgrown : failures q0 <> failures q) by auto. repeat step; [|exact I].
  apply runs_panic. arith.
Qed.

#[local] Hint Resolve runs_parseStaticExprArg : parser.

Lemma runs_parseBufferLength p : fits depth 0 p -> runs (parseBufferLength rec) p (clean is_Some p).
Proof. intros Hf. unfold parseBufferLength. go. Qed.

#[local] Hint Resolve runs_parseBufferLength : parser.

Lemma runs_parseBufferTypeName p : fits depth 0 p -> here p = 1 -> runs (parseBufferTypeName rec) p (clean is_Some p).
Proof. intros Hf Hh. unfold parseBufferTypeName, wrapped. go. Qed.

#[local] Hint Resolve runs_parseBufferTypeName : parser.

Lemma runs_parseSliceTypeName p : fits depth 0 p -> here p = 1 -> runs (parseSliceTypeName rec) p (clean is_Some p).
Proof. intros Hf Hh. unfold parseSliceTypeName, wrapped. go. Qed.

#[local] Hint Resolve runs_parseNullableTypeName runs_parseErrorUnionTypeName runs_parseBorrowTypeName runs_parseSliceTypeName
  runs_parseUnsafeFuncTypeName runs_parseExternFuncTypeName runs_parseNamedTypeName : parser.

Lemma runs_parseTypeName p : fits depth 0 p -> runs (parseTypeName rec) p (clean is_Some p).
Proof. intros Hf. unfold parseTypeName. go. Qed.

Lemma runs_parseStaticTypeArg allowConst p : fits depth 4 p -> runs (parseStaticTypeArg rec allowConst) p (fun _ _ => True).
Proof. intros Hf. unfold parseStaticTypeArg. go. Qed.

#[local] Hint Resolve runs_parseStaticTypeArg : parser.

Lemma runs_parseTypeArgList allowConst p : fits depth 4 p -> runs (parseTypeArgList rec allowConst) p (fun _ _ => True).
Proof.
  intros Hf. unfold parseTypeArgList. eapply runs_bind; [|intros a q _ _; apply runs_ret; exact I].
  apply (runs_loop _ (fun _ q => fits depth 4 q) (fun _ _ => True)); [|exact Hf]. intros args q Hfq. go.
Qed.

Lemma runs_parseStaticParamList p :
  fits depth 0 p -> here p = 1 -> runs (parseStaticParamList rec) p (clean (fun l => l <> []) p).
Proof.
  intros Hf Hh. unfold parseStaticParamList. step.
  apply (runs_loop _ (fun _ q => fits depth 4 q /\ failures p <= failures q)); [|split; arith].
  clear - Hrec. intros params q [Hfq He]. go.
Qed.

#[local] Hint Resolve runs_parseStaticParamList : parser.

Lemma typeParamNames_length params names found :
  typeParamNames params names = inr found -> params <> [] -> found <> [].
Proof.
  assert (H : forall params names found, typeParamNames params names = inr found -> List.length found = List.length names + List.length params).
  { clear. induction params as [|q params IH]; intros names found; cbn [typeParamNames List.length]; [intros [= <-]; lia|].
    destruct (negb _); [discriminate|]. intros H. apply IH in H. rewrite length_app in H. cbn in H. lia. }
  intros Hn Hne ->. apply H in Hn. destruct params; [contradiction | cbn in Hn; lia].
Qed.

Lemma runs_parseGenericParamList p :
  fits depth 0 p -> here p = 1 -> runs (parseGenericParamList rec) p (clean (fun l => l <> []) p).
Proof.
  intros Hf Hh. unfold parseGenericParamList. go. eapply typeParamNames_length; eauto.
Qed.
End Types.

#[export] Hint Resolve runs_parseStaticExprArg runs_parseStaticTypeArg runs_parseTypeArgList runs_parseStaticParamList
  runs_parseGenericParamList : parser.
