(* ===== verification/ParserExprFacts.v ===== *)
(** * Parsing expressions ends, and leaves holes only with an error *)

From stdpp Require Import base list strings.
From Stdlib Require Import ZArith Lia String Ascii.
From S2P Require Import Prelude GoStd StaticExpr Typ Token Literals Ast AstFacts ParserState ParserType ParserExpr.
From S2P Require Import ParserFacts.

#[local] Open Scope string_scope.
#[local] Open Scope list_scope.

Section Lookahead.
Context {Src : Type} {source : TokenSource Src}.

Lemma runs_peekPrecedence p : runs peekPrecedence p (fun _ q => looked p q).
Proof.
  unfold peekPrecedence. eapply runs_bind; [apply runs_shiftPair|]. intros paired q _ [Hq _].
  destruct paired; [apply runs_ret, Hq|]. eapply runs_bind; [apply runs_captureAhead|]. intros capture r _ Hr.
  pose proof (looked_trans _ _ _ Hq Hr). destruct capture; [apply runs_ret; assumption|]. apply runs_bind_get, runs_ret. assumption.
Qed.

(** The scan for a call stops at [EOF]. *)
Lemma runs_scanTypeApply p : runs scanTypeApply p (fun _ _ => True).
Proof.
  unfold scanTypeApply. step. apply (runs_loop _ (fun _ _ => True)); [|exact I]. clear. intros [depth parens] p _.
  step; [go|]. do 2 step. destruct (oneOf (cur q) _) eqn:Eq; [go|].
  assert (Hq : here q = 1) by (unfold oneOf in Eq; cbn [existsb] in Eq; apply orb_false_iff in Eq as [Eq _]; exact (tokIs_EOF _ Eq)).
  repeat step; split; auto; arith.
Qed.

(** The lookahead leaves the state as it was. *)
Lemma runs_typeApplyLooksLikeCall p : runs typeApplyLooksLikeCall p (fun _ q => q = p).
Proof.
  intros Hv. unfold typeApplyLooksLikeCall. pose proof (runs_scanTypeApply p Hv) as H. destruct (scanTypeApply p); [|exact H | exact H].
  split; [exact Hv|]. split; [apply advances_refl | reflexivity].
Qed.

Lemma runs_shouldParseTypeApply e p : runs (shouldParseTypeApply e) p (fun _ q => q = p).
Proof. unfold shouldParseTypeApply. destruct (negb _); [apply runs_ret; reflexivity | apply runs_typeApplyLooksLikeCall]. Qed.

Lemma runs_parseOptionalBranchLabel p : runs parseOptionalBranchLabel p (fun _ _ => True).
Proof. unfold parseOptionalBranchLabel. go. Qed.

Lemma runs_parsePayloadCapture p : runs parsePayloadCapture p (clean (fun r => r.2 = true) p).
Proof. unfold parsePayloadCapture. go. Qed.
End Lookahead.

#[export] Hint Resolve runs_peekPrecedence runs_shouldParseTypeApply runs_parseOptionalBranchLabel runs_parsePayloadCapture : parser.

Section Control.
Context {Src : Type} {source : TokenSource Src} (rec : Calls Src) (depth : nat) (Hrec : handles rec depth).

Lemma continues_ahead (p : PState Src) : continuesElseChain p = true -> ahead1 p = 1.
Proof. intros [H|H]%orb_true_iff; eapply tokIs_weight; eauto; discriminate. Qed.

Lemma runs_parseElseChain p :
  fits depth 0 p -> ahead1 p = 1 -> runs (parseElseChain rec) p (clean (fun b => completeBlock b = true) p).
Proof. intros Hf Ha. unfold parseElseChain. go. Qed.

#[local] Hint Extern 1 (ahead1 _ = 1) => (apply continues_ahead; assumption) : parser.
#[local] Hint Resolve runs_parseElseChain : parser.

Lemma runs_parseIfStmt p : fits depth 0 p -> here p = 1 -> runs (parseIfStmt rec) p (clean (fun s => completeIf s = true) p).
Proof. intros Hf Hh. unfold parseIfStmt. go. Qed.

Lemma runs_parseComptimeIfStmt p : fits depth 0 p -> runs (parseComptimeIfStmt rec) p (clean (fun s => completeStmt s = true) p).
Proof. intros Hf. unfold parseComptimeIfStmt. go. Qed.

(** Entries between braces where each is parsed with room to spare. *)
Lemma runs_entries {A} context close (parse : M Src (A * bool)) (good : A -> Prop) p :
  fits depth 4 p -> (forall q, fits depth 4 q -> here q = 1 -> runs parse q (clean (fun r => r.2 = true /\ good r.1) q)) ->
  runs (braced context close parse []) p (clean (Forall good) p).
Proof.
  intros Hf H. apply (runs_braced context close parse good [] p (here p + 2 * following p)); [|lia | constructor].
  intros q Hq Hh. apply H; [unfold fits in *; lia | exact Hh].
Qed.

Lemma runs_parseMatchArmReturn p : fits depth 4 p -> runs (parseMatchArmReturn rec) p (clean (fun s => completeStmt s = true) p).
Proof. intros Hf. unfold parseMatchArmReturn. go. Qed.

Lemma runs_parseMatchTag tag p : runs (parseMatchTag tag) p (clean (fun r => r.2 = true) p).
Proof.
  apply (runs_loop _ (fun _ q => failures p <= failures q)); [|auto]. intros [tagSet name] q Hq. go.
Qed.

Lemma runs_parseMatchBinding p : runs parseMatchBinding p (clean (fun r => r.2 = true) p).
Proof. unfold parseMatchBinding. go. Qed.

#[local] Hint Resolve runs_parseMatchArmReturn runs_parseMatchTag runs_parseMatchBinding : parser.

Lemma runs_parseMatchArm p :
  fits depth 4 p -> here p = 1 -> runs (parseMatchArm rec) p (clean (fun r => r.2 = true /\ completeArm r.1 = true) p).
Proof. intros Hf Hh. unfold parseMatchArm. go. Qed.

Lemma runs_parseMatchArms p : fits depth 0 p -> here p = 1 ->
  runs (parseMatchArms rec) p (clean (Forall (fun a => completeArm a = true)) p).
Proof.
  intros Hf Hh. unfold parseMatchArms. step. eapply runs_weaken.
  - apply (runs_entries _ _ _ (fun a => completeArm a = true)); [arith | exact runs_parseMatchArm].
  - go.
Qed.

#[local] Hint Resolve runs_parseMatchArms : parser.

Lemma runs_parseMatchStmt p : fits depth 0 p -> here p = 1 -> runs (parseMatchStmt rec) p (clean (fun s => completeMatch s = true) p).
Proof. intros Hf Hh. unfold parseMatchStmt. go. Qed.
End Control.

Section Expressions.
Context {Src : Type} {source : TokenSource Src} (rec : Calls Src) (depth : nat) (Hrec : handles rec depth).
#[local] Hint Resolve runs_parseIfStmt runs_parseMatchStmt : parser.

Abbreviation whole := (fun e => complete e = true).

(** ** Prefix forms *)

Lemma runs_parseIntLiteral p : runs parseIntLiteral p (clean whole p).
Proof. unfold parseIntLiteral. go. Qed.

Lemma runs_parseFloatLiteral p : runs parseFloatLiteral p (clean whole p).
Proof. unfold parseFloatLiteral. go. Qed.

Lemma runs_parseCStringLiteral p : runs parseCStringLiteral p (clean whole p).
Proof. unfold parseCStringLiteral. go. Qed.

Lemma runs_element p : fits depth 4 p ->
  runs (let! e := callExpression rec lowest in ret (e, true)) p (clean (fun r => r.2 = true /\ complete r.1 = true) p).
Proof. intros Hf. go. Qed.

Lemma runs_parseElements context close p : fits depth 4 p ->
  runs (parseElements rec context close) p (clean (Forall whole) p).
Proof. intros Hf. apply runs_entries with (depth := depth); [exact Hf|]. intros q Hq _. apply runs_element, Hq. Qed.

#[local] Hint Resolve runs_parseElements : parser.

Lemma runs_parseBufferLiteralExpr p : fits depth 1 p -> here p = 1 -> runs (parseBufferLiteralExpr rec) p (clean whole p).
Proof. intros Hf Hh. unfold parseBufferLiteralExpr. go. Qed.

Lemma runs_parseMarkerExpression p : fits depth 0 p -> here p = 1 -> runs (parseMarkerExpression rec) p (clean whole p).
Proof. intros Hf Hh. unfold parseMarkerExpression. go. Qed.

Lemma runs_parseFieldValue p : fits depth 4 p -> here p = 1 ->
  runs (parseFieldValue rec) p (clean (fun r => r.2 = true /\ completeField r.1 = true) p).
Proof. intros Hf Hh. unfold parseFieldValue. go. Qed.

Lemma runs_fieldValues context close p : fits depth 4 p ->
  runs (braced context close (parseFieldValue rec) []) p (clean (Forall (fun v => completeField v = true)) p).
Proof. intros Hf. apply runs_entries with (depth := depth); [exact Hf | exact runs_parseFieldValue]. Qed.

#[local] Hint Resolve runs_fieldValues : parser.

Lemma runs_parseStructLiteralExpr name p : fits depth 0 p -> ahead1 p = 1 ->
  runs (parseStructLiteralExpr rec name) p (clean whole p).
Proof. intros Hf Ha. unfold parseStructLiteralExpr. go. Qed.

Lemma runs_parseVectorLiteralExpr p : fits depth 0 p -> ahead1 p = 1 -> runs (parseVectorLiteralExpr rec) p (clean whole p).
Proof. intros Hf Ha. unfold parseVectorLiteralExpr. go. Qed.

Lemma runs_parseTypeExpr p : fits depth 0 p -> runs (parseTypeExpr rec) p (clean whole p).
Proof. intros Hf. unfold parseTypeExpr. go. Qed.

Lemma runs_parseCastExpr p : fits depth 0 p -> runs (parseCastExpr rec) p (clean whole p).
Proof. intros Hf. unfold parseCastExpr. go. Qed.

#[local] Hint Extern 1 (ahead1 _ = 1) => arith : parser.
#[local] Hint Resolve runs_parseIntLiteral runs_parseFloatLiteral runs_parseCStringLiteral runs_parseBufferLiteralExpr
  runs_parseMarkerExpression runs_parseStructLiteralExpr runs_parseVectorLiteralExpr runs_parseTypeExpr runs_parseCastExpr : parser.

Lemma runs_parseIdentPrefixExpression p : fits depth 0 p -> runs (parseIdentPrefixExpression rec) p (clean whole p).
Proof. intros Hf. unfold parseIdentPrefixExpression. go. Qed.

#[local] Hint Resolve runs_parseIdentPrefixExpression : parser.

Lemma complete_keyword tok : complete (parseKeywordLiteralExpression tok) = true.
Proof. unfold parseKeywordLiteralExpression. destruct (tokIs tok True_), (tokIs tok False_); reflexivity. Qed.

Lemma runs_parsePrefixExpression p : fits depth 1 p -> runs (parsePrefixExpression rec) p (clean whole p).
Proof. intros Hf. unfold parsePrefixExpression. go. apply complete_keyword. Qed.

(** ** Infix forms, with the operator as the current token *)

Abbreviation wholeFrom l := (fun e => complete l = true -> complete e = true).

Lemma runs_parseBinaryExpr l p : fits depth 0 p -> here p = 1 -> runs (parseBinaryExpr rec l) p (clean (wholeFrom l) p).
Proof. intros Hf Hh. unfold parseBinaryExpr, curPrecedence. go. Qed.

Lemma runs_parseShiftExpr l p : fits depth 0 p -> ahead1 p = 1 ->
  runs (parseShiftExpr rec l) p (fun e q => clean (wholeFrom l) p e q /\ here q + 2 * following q < here p + 2 * following p).
Proof. intros Hf Ha. unfold parseShiftExpr. go; split; [finish | arith]. Qed.

Lemma runs_parseGuardExit p : fits depth 0 p -> here p = 1 ->
  runs (parseGuardExit rec) p (fun r q => clean (fun r => optional completeStmt r = true) p r q /\
    match r with Some _ => True | None => q = p end).
Proof. intros Hf Hh. unfold parseGuardExit. go; split; finish. Qed.

#[local] Hint Resolve runs_parseBinaryExpr runs_parseGuardExit : parser.

Lemma runs_parseGuardableExpr l p : fits depth 0 p -> here p = 1 -> runs (parseGuardableExpr rec l) p (clean (wholeFrom l) p).
Proof.
  intros Hf Hh. unfold parseGuardableExpr. do 2 step. destruct a as [s|]; [|destruct H0 as [_ ->]; go].
  destruct (tokIs (cur p) Catch); go.
Qed.

Lemma runs_parseCallExpr l p : fits depth 0 p -> here p = 1 -> runs (parseCallExpr rec l) p (clean (wholeFrom l) p).
Proof.
  intros Hf Hh. unfold parseCallExpr. repeat step; [finish|].
  eapply runs_bind with (P := clean (Forall whole) p).
  - apply (runs_loop _ (fun args q => fits depth 4 q /\ failures p <= failures q /\ clean (Forall whole) p args q)).
    + clear - Hrec. intros args q (Hq & He & Hargs). go.
      all: repeat split; [arith | arith | | arith].
      all: intros; collect_good; apply Forall_app; split; [|repeat constructor]; auto.
    + repeat split; [arith | arith |]. intros E'. collect_good. repeat constructor. assumption.
  - go.
Qed.

Lemma runs_parseSliceEnd target start span p :
  fits depth 4 p -> runs (parseSliceEnd rec target start span) p
    (clean (fun e => complete target = true -> optional complete start = true -> complete e = true) p).
Proof. intros Hf. unfold parseSliceEnd. go. Qed.

#[local] Hint Resolve runs_parseSliceEnd : parser.

Lemma runs_parseIndexExpr l p : fits depth 0 p -> here p = 1 -> runs (parseIndexExpr rec l) p (clean (wholeFrom l) p).
Proof. intros Hf Hh. unfold parseIndexExpr. go. Qed.

Lemma runs_parseTypeApplyExpr l p : fits depth 0 p -> here p = 1 -> runs (parseTypeApplyExpr rec l) p (clean (wholeFrom l) p).
Proof. intros Hf Hh. unfold parseTypeApplyExpr. go. Qed.

Lemma runs_parseFieldExpr l namespace p : runs (parseFieldExpr l namespace) p (clean (wholeFrom l) p).
Proof. unfold parseFieldExpr. go. Qed.

#[local] Hint Resolve runs_parseShiftExpr runs_parseGuardableExpr runs_parseCallExpr runs_parseIndexExpr
  runs_parseTypeApplyExpr runs_parseFieldExpr : parser.

(** ** The loop *)

(** An infix form that was read took the operator. *)
Abbreviation took l p := (fun (r : Expr * bool) q =>
  clean (fun r => complete l = true -> complete r.1 = true) p r q /\
  (r.2 = true -> here q + 2 * following q < here p + 2 * following p)).

Lemma runs_infix l (m : M Src Expr) p q :
  looked p q -> advances p q -> ahead1 q = 1 -> fits depth 0 p ->
  (forall q, fits depth 0 q -> here q = 1 -> runs m q (clean (wholeFrom l) q)) -> runs (infix m) q (took l p).
Proof.
  intros Hl Hq Ha Hf Hm. unfold infix. step. eapply runs_bind; [apply Hm; arith|]. intros e r ? ?. apply runs_ret. cbn [fst snd].
  split; [finish | intros _; arith].
Qed.

Lemma runs_parseInfix l p : fits depth 0 p -> runs (parseInfix rec l) p (took l p).
Proof.
  intros Hf. unfold parseInfix. eapply runs_bind; [apply runs_shiftPair|]. intros paired q Hq [Hl Hpair]. destruct paired.
  - assert (Ha : ahead1 q = 1) by (destruct Hl as (_ & E & _); unfold ahead1; rewrite E; auto).
    eapply runs_bind; [apply runs_parseShiftExpr; arith|]. intros e r ? [? ?]. apply runs_ret. split; [finish|]. intros _. arith.
  - clear Hpair. repeat step; subst.
    all: try (split; cbn [fst snd]; [finish | discriminate]).
    all: apply runs_infix; [assumption | assumption | token_facts; assumption | assumption | eauto with parser].
Qed.

#[local] Hint Resolve runs_parseInfix : parser.

Lemma runs_continuesExpression precedence l p : runs (continuesExpression precedence l) p (fun _ q => looked p q).
Proof.
  unfold continuesExpression. repeat step; try assumption; try (subst; assumption). repeat split; auto.
Qed.

#[local] Hint Resolve runs_continuesExpression : parser.

Lemma runs_parseInfixes precedence l p :
  fits depth 0 p -> runs (parseInfixes rec precedence l) p (clean (fun r => complete l = true -> complete r.1 = true) p).
Proof.
  intros Hf. apply (runs_loop _ (fun e q => fits depth 0 q /\ failures p <= failures q /\ clean (wholeFrom l) p e q)).
  - intros e q (Hq & He & Hclean). repeat step; [finish|]. destruct H2 as [Hgood Hless]. cbn [fst snd] in *.
    destruct b; [|finish]. specialize (Hless eq_refl). repeat split; try arith. finish.
  - repeat split; [exact Hf | lia | intros _ H; exact H].
Qed.

#[local] Hint Resolve runs_parseInfixes : parser.

Lemma runs_parseExpression precedence p : fits depth 1 p -> runs (parseExpression rec precedence) p (clean whole p).
Proof. intros Hf. unfold parseExpression. pose proof runs_parsePrefixExpression. go. Qed.
End Expressions.
