(* ===== verification/ParserStmtFacts.v ===== *)
(** * Parsing statements ends, and leaves holes only with an error *)

From stdpp Require Import base list strings gmap.
From Stdlib Require Import ZArith Lia String Ascii.
From S2P Require Import Prelude GoStd Typ Token Literals Ast AstFacts ParserState ParserType ParserExpr ParserStmt ParserDecl.
From S2P Require Import ParserFacts ParserExprFacts.

#[local] Open Scope string_scope.
#[local] Open Scope list_scope.

Section Statements.
Context {Src : Type} {source : TokenSource Src} (rec : Calls Src) (depth : nat) (Hrec : handles rec depth).

Abbreviation wholeStmt := (fun s => completeStmt s = true).

Lemma runs_parseLetStmt mutable p : fits depth 0 p -> here p = 1 -> runs (parseLetStmt rec mutable) p (clean wholeStmt p).
Proof. intros Hf Hh. unfold parseLetStmt. go. Qed.

Lemma runs_parseAssignStmt target p : fits depth 0 p -> ahead1 p = 1 ->
  runs (parseAssignStmt rec target) p (clean (fun s => complete target = true -> completeStmt s = true) p).
Proof. intros Hf Ha. unfold parseAssignStmt. go. Qed.

Lemma runs_parseReturnStmt p : fits depth 0 p -> here p = 1 -> runs (parseReturnStmt rec) p (clean wholeStmt p).
Proof. intros Hf Hh. unfold parseReturnStmt. go. Qed.

Lemma runs_parseCleanupStmt node keyword p :
  (forall e, complete e = true -> completeStmt (node (Some e)) = true) -> fits depth 0 p -> here p = 1 ->
  runs (parseCleanupStmt rec node keyword) p (clean wholeStmt p).
Proof. intros Hn Hf Hh. unfold parseCleanupStmt. go. Qed.

Lemma runs_parseDeferStmt p : fits depth 0 p -> here p = 1 -> runs (parseDeferStmt rec) p (clean wholeStmt p).
Proof. apply runs_parseCleanupStmt. auto. Qed.

Lemma runs_parseErrDeferStmt p : fits depth 0 p -> here p = 1 -> runs (parseErrDeferStmt rec) p (clean wholeStmt p).
Proof. apply runs_parseCleanupStmt. auto. Qed.

Lemma runs_parseWhileStmt label p : fits depth 0 p -> here p = 1 -> runs (parseWhileStmt rec label) p (clean wholeStmt p).
Proof. intros Hf Hh. unfold parseWhileStmt. go. Qed.

Lemma runs_parseForStmt label p : fits depth 0 p -> here p = 1 -> runs (parseForStmt rec label) p (clean wholeStmt p).
Proof. intros Hf Hh. unfold parseForStmt. go. Qed.

Lemma runs_parseComptimeForStmt p : fits depth 0 p -> runs (parseComptimeForStmt rec) p (clean wholeStmt p).
Proof. intros Hf. unfold parseComptimeForStmt. go. Qed.

Lemma runs_parseVariantCapture p : runs parseVariantCapture p (clean (fun r => r.2 = true) p).
Proof. unfold parseVariantCapture. go. Qed.

#[local] Hint Resolve runs_parseVariantCapture : parser.

Lemma runs_parseComptimeMatchStmt p : fits depth 0 p -> runs (parseComptimeMatchStmt rec) p (clean wholeStmt p).
Proof. intros Hf. unfold parseComptimeMatchStmt. go. Qed.

Lemma runs_parseBreakStmt p : runs parseBreakStmt p (clean wholeStmt p).
Proof. unfold parseBreakStmt. go. Qed.

Lemma runs_parseContinueStmt p : runs parseContinueStmt p (clean wholeStmt p).
Proof. unfold parseContinueStmt. go. Qed.

#[local] Hint Resolve runs_parseWhileStmt runs_parseForStmt : parser.

Lemma runs_parseLabeledStmt p : fits depth 0 p -> here p = 1 -> runs (parseLabeledStmt rec) p (clean wholeStmt p).
Proof. intros Hf Hh. unfold parseLabeledStmt. go. Qed.

Lemma runs_finishExprStmt e p : runs (finishExprStmt e) p (clean (fun s => complete e = true -> completeStmt s = true) p).
Proof. unfold finishExprStmt. go. Qed.

#[local] Hint Extern 1 (ahead1 _ = 1) => arith : parser.
#[local] Hint Resolve runs_parseLetStmt runs_parseAssignStmt runs_parseReturnStmt runs_parseDeferStmt runs_parseErrDeferStmt
  runs_parseComptimeForStmt runs_parseComptimeMatchStmt runs_parseBreakStmt runs_parseContinueStmt runs_parseLabeledStmt
  runs_finishExprStmt runs_parseIfStmt runs_parseMatchStmt runs_parseComptimeIfStmt : parser.

(** No statement: the keyword named none, and nothing was read. *)
Abbreviation maybe p := (fun r q => match r with Some s => clean wholeStmt p s q | None => q = p end).

Lemma runs_parseComptimeStatement p : fits depth 0 p -> runs (parseComptimeStatement rec) p (maybe p).
Proof. intros Hf. unfold parseComptimeStatement. go. Qed.

#[local] Hint Resolve runs_parseComptimeStatement : parser.

Lemma runs_parseKeywordStatement p : fits depth 0 p -> runs (parseKeywordStatement rec) p (maybe p).
Proof. intros Hf. unfold parseKeywordStatement. go. Qed.

#[local] Hint Resolve runs_parseKeywordStatement : parser.

Lemma runs_parseStatementForm p : fits depth 2 p -> runs (parseStatementForm rec) p (clean wholeStmt p).
Proof.
  intros Hf. unfold parseStatementForm. eapply runs_bind; [apply runs_parseKeywordStatement; arith|]. intros [s|] q Hq H; [go|].
  subst. go.
Qed.

Lemma complete_SetStatementSpan at_ s : completeStmt (SetStatementSpan at_ s) = completeStmt s.
Proof. destruct s as [[] | | | | | | [] | | | | | [] | | | |]; reflexivity. Qed.

(** [parseStatement] puts the enclosing [// SAFETY:] text back. *)
Lemma runs_parseStatement p : fits depth 2 p -> runs (parseStatement rec) p (clean wholeStmt p).
Proof.
  intros Hf. unfold parseStatement. step. eapply runs_bind with (P := clean wholeStmt p).
  - apply runs_withSafety. intros p' H1 H2 H3 H4 H5.
    assert (Hp' : fits depth 2 p' /\ failures p' = failures p).
    { unfold fits, here, following, failures in *. rewrite H1, H2, H3, H4, H5. auto. }
    destruct Hp' as [Hf' He]. eapply runs_weaken; [apply runs_parseStatementForm, Hf'|].
    intros s q _ Hs r _ Hr E. apply Hs. lia.
  - intros s q Hq Hs. do 2 step. intros E. rewrite complete_SetStatementSpan. apply Hs. exact E.
Qed.

Lemma runs_parseBlockStmt p : fits depth 3 p -> runs (parseBlockStmt rec) p (clean (fun b => completeBlock b = true) p).
Proof.
  intros Hf. unfold parseBlockStmt. step. eapply runs_bind with (P := clean (Forall wholeStmt) p).
  - apply (runs_loop _ (fun l q => fits depth 3 q /\ failures p <= failures q /\ clean (Forall wholeStmt) p l q)).
    + clear - Hrec. intros l q (Hq & He & Hl). repeat step; [finish|]. repeat split; [arith | arith | | arith].
      finish. apply Forall_app. split; [assumption | repeat constructor; assumption].
    + repeat split; [arith | arith | constructor].
  - go.
Qed.
End Statements.

(** The recursion handles what its depth grants. *)
Lemma handles_parser {Src} {source : TokenSource Src} depth : handles (parser depth) depth.
Proof.
  induction depth as [|depth IH].
  - split; intros; unfold fits in *; lia.
  - split; intros; cbn [parser callTypeName callExpression callIfStmt callComptimeIfStmt callStatement callBlockStmt];
      unfold fits in *.
    + apply (runs_parseTypeName _ depth IH). unfold fits. lia.
    + apply (runs_parseExpression _ depth IH). unfold fits. lia.
    + apply (runs_parseIfStmt _ depth IH); [unfold fits; lia | assumption].
    + apply (runs_parseComptimeIfStmt _ depth IH). unfold fits. lia.
    + apply (runs_parseStatement _ depth IH). unfold fits. lia.
    + apply (runs_parseBlockStmt _ depth IH). unfold fits. lia.
Qed.

(** * Parsing declarations ends, and leaves holes only with an error *)

Section Declarations.
Context {Src : Type} {source : TokenSource Src} (rec : Calls Src) (depth : nat) (Hrec : handles rec depth).

Abbreviation wholeDecl := (fun d => completeDecl d = true).
Abbreviation wholeSignature := (fun d => completeSignature (fdSignature d) = true).
Abbreviation okay := (fun r => r.2 = true).

Lemma runs_parsePath path p : runs (parsePath path) p (clean okay p).
Proof. apply (runs_loop _ (fun _ q => failures p <= failures q)); [|auto]. intros names q Hq. go. Qed.

#[local] Hint Resolve runs_parsePath : parser.

Lemma runs_parseImportDecl p : runs parseImportDecl p (clean wholeDecl p).
Proof. unfold parseImportDecl. go. Qed.

(** ** Parameters and signatures *)

Lemma runs_parseBorrowMarks p : runs parseBorrowMarks p (fun _ q => failures q = failures p).
Proof. unfold parseBorrowMarks. go. Qed.

#[local] Hint Resolve runs_parseBorrowMarks : parser.

Lemma runs_parseParam p : fits depth 4 p ->
  runs (parseParam rec) p (clean (fun r => r.2 = true /\ completeParam r.1 = true) p).
Proof. intros Hf. unfold parseParam. go. Qed.

Lemma runs_checkVariadicMarker allow named p : runs (checkVariadicMarker allow named) p (fun _ _ => True).
Proof. unfold checkVariadicMarker. go. Qed.

#[local] Hint Resolve runs_parseParam runs_checkVariadicMarker : parser.

Abbreviation wholeParams := (Forall (fun q => completeParam q = true)).

Lemma runs_parseParamEntry allow params variadic p : fits depth 4 p ->
  runs (parseParamEntry rec allow params variadic) p (clean (fun r => r.2 = true /\ (wholeParams params -> wholeParams r.1.1)) p).
Proof.
  intros Hf. unfold parseParamEntry. go. split; [reflexivity|]. intros Hp. apply Forall_app. split; [exact Hp | repeat constructor; assumption].
Qed.

#[local] Hint Resolve runs_parseParamEntry : parser.

Lemma runs_parseParamEntries allow p : fits depth 4 p ->
  runs (parseParamEntries rec allow) p (clean (fun r => r.2 = true /\ wholeParams r.1.1) p).
Proof.
  intros Hf. apply (runs_loop _ (fun r q => fits depth 4 q /\ failures p <= failures q /\ clean wholeParams p r.1 q)).
  2:{ repeat split; [exact Hf | lia | constructor]. }
  clear Hf. intros [params variadic] q (Hq & He & Hparams). cbn [fst snd] in *.
  go. repeat split; try arith; finish.
Qed.

#[local] Hint Resolve runs_parseParamEntries : parser.

Lemma runs_parseParams allow p : fits depth 0 p -> here p = 1 -> runs (parseParams rec allow) p (clean (fun r => wholeParams r.1) p).
Proof. intros Hf Hh. unfold parseParams. go. Qed.

#[local] Hint Resolve runs_parseParams : parser.

(** What reading a signature does to the function it fills. *)
Definition signed (fn : FunctionDecl) (r : FunctionDecl * bool) : Prop :=
  r.2 = true /\ (completeSignature (fdSignature fn) = true -> completeSignature (fdSignature r.1) = true) /\
  sgExternABI (fdSignature r.1) = sgExternABI (fdSignature fn).

Lemma signed_refl fn : signed fn (fn, true).
Proof. repeat split; auto. Qed.

Lemma signed_trans fn gn r : signed fn (gn, true) -> signed gn r -> signed fn r.
Proof. intros (_ & H1 & H2) (H3 & H4 & H5). cbn [fst] in *. split; [exact H3|]. split; [auto | congruence]. Qed.

(** Setters of what completeness does not read. *)
Lemma signed_with f fn :
  (forall s, sgParams (f s) = sgParams s /\ sgReceiver (f s) = sgReceiver s /\ sgExternABI (f s) = sgExternABI s) ->
  signed fn (withSignature f fn, true).
Proof.
  intros H. destruct (H (fdSignature fn)) as (H1 & H2 & H3). repeat split; [|exact H3].
  cbn [fst withSignature fdSignature]. unfold completeSignature. rewrite H1, H2. auto.
Qed.

Lemma signed_receiver params fn : List.length params = 1 -> wholeParams params -> signed fn (withSignature (setReceiver params) fn, true).
Proof.
  intros Hl Hp. repeat split. intros _. cbn [fst withSignature fdSignature]. unfold completeSignature. cbn [setReceiver sgParams sgReceiver].
  rewrite (forallb_of_Forall _ _ Hp). destruct params; [discriminate | reflexivity].
Qed.

Lemma signed_params params variadic fn : wholeParams params -> signed fn (withSignature (addParams params variadic) fn, true).
Proof.
  intros Hp. repeat split. cbn [fst withSignature fdSignature]. unfold completeSignature. cbn [addParams sgParams sgReceiver].
  rewrite forallb_app, (forallb_of_Forall _ _ Hp), andb_true_r, !andb_true_iff. intros [H1 H2]. split; [exact H1|].
  destruct (sgReceiver _); [|reflexivity]. destruct (sgParams _); [discriminate H2 | reflexivity].
Qed.

Lemma signed_step fn gn (p q r s : PState Src) x :
  clean (signed fn) p (gn, true) q -> failures p <= failures q -> failures q <= failures r ->
  clean (signed gn) r x s -> failures r <= failures s -> clean (signed fn) p x s.
Proof. intros H1 H2 H3 H4 H5 E. eapply signed_trans; [apply H1; lia | apply H4; lia]. Qed.

Lemma runs_parseReceiver fn p : fits depth 0 p -> ahead1 p = 1 -> runs (parseReceiver rec fn) p (clean (signed fn) p).
Proof.
  intros Hf Ha. unfold parseReceiver. go. apply signed_receiver; [|assumption]. apply Nat.eqb_eq. assumption.
Qed.

Lemma runs_parseReturnClause fn p : fits depth 0 p -> here p = 1 -> runs (parseReturnClause rec fn) p (clean (signed fn) p).
Proof.
  intros Hf Hh. unfold parseReturnClause. go.
Qed.

Lemma runs_parseFunctionStaticParams fn p :
  fits depth 0 p -> here p = 1 -> runs (parseFunctionStaticParams rec fn) p (clean (signed fn) p).
Proof.
  intros Hf Hh. unfold parseFunctionStaticParams. go. all: first [apply signed_refl | apply signed_with; intros; auto].
Qed.

#[local] Hint Extern 1 (ahead1 _ = 1) => arith : parser.
#[local] Hint Resolve runs_parseReceiver runs_parseReturnClause runs_parseFunctionStaticParams : parser.

Lemma runs_parseFunctionSignatureAfterFn fn p :
  fits depth 0 p -> here p = 1 -> runs (parseFunctionSignatureAfterFn rec fn) p (clean (signed fn) p).
Proof.
  intros Hf Hh. unfold parseFunctionSignatureAfterFn. step.
  eapply runs_bind with (P := clean (signed fn) p); [go; apply signed_refl|].
  intros [gn ok] q Hq Hgood. destruct ok; cbn [negb]; [|apply runs_ret, Hgood].
  eapply runs_bind; [apply runs_expectPeek|]. intros ok r Hr Hx. destruct ok; [|go].
  do 2 step. destruct a as [hn ok]. cbn [negb].
  assert (Hh1 : clean (signed fn) p (hn, ok) q0).
  { eapply signed_step; [exact Hgood | apply Hq | apply Hr | | apply H]. intros E. eapply signed_trans; [|exact (H0 E)].
    apply signed_with. auto. }
  destruct ok; cbn [negb]; [|apply runs_ret, Hh1].
  eapply runs_bind; [apply runs_expectPeek|]. intros ok s Hs Hy. destruct ok; [|go].
  step. destruct a as [params variadic]. cbn [fst] in *.
  assert (Hh2 : clean (signed fn) p (withSignature (addParams params variadic) hn, true) q1).
  { eapply signed_step; [exact Hh1 | arith | apply Hs | | apply H1]. intros E. apply signed_params, H2, E. }
  eapply runs_bind; [apply runs_expectCur|]. intros ok u Hu (Hz & Hcur & _ & Hpar). destruct ok; [|go].
  specialize (Hpar eq_refl). eapply runs_weaken; [apply runs_parseReturnClause; arith|]. intros x v Hv Hlast.
  eapply signed_step; [exact Hh2 | arith | apply Hu | exact Hlast | apply Hv].
Qed.
#[local] Hint Resolve runs_parseFunctionSignatureAfterFn : parser.

Lemma runs_parseFunctionAfterFn fn p : completeSignature (fdSignature fn) = true ->
  fits depth 0 p -> here p = 1 -> runs (parseFunctionAfterFn rec fn) p (clean wholeDecl p).
Proof.
  intros Hs Hf Hh. unfold parseFunctionAfterFn. step. destruct a as [gn ok]. destruct ok; cbn [negb];
    [|apply runs_ret; intros E; destruct (H0 E); discriminate].
  eapply runs_bind; [apply runs_expectPeek|]. intros ok r Hr Hx. destruct ok; [|go].
  repeat step. intros E. collect_good. unfold expects in *. state_facts. collect_good. destruct H0 as (_ & H0 & _).
  cbn [completeDecl withBody]. unfold completeFunction. cbn [fst withBody fdSignature fdBody given] in *. rewrite (H0 Hs), H2.
  destruct (String.eqb _ _); reflexivity.
Qed.

Lemma runs_parseFunctionDeclWithDoc doc p :
  fits depth 0 p -> here p = 1 -> runs (parseFunctionDeclWithDoc rec doc) p (clean wholeDecl p).
Proof. intros Hf Hh. apply runs_parseFunctionAfterFn; auto. Qed.

Lemma runs_parseTestDecl p : fits depth 0 p -> runs (parseTestDecl rec) p (clean wholeDecl p).
Proof. intros Hf. unfold parseTestDecl. go. Qed.

(** ** Contracts and assertions *)

Abbreviation wholeMethods := (Forall (fun m => completeSignature (fdSignature m) = true)).

Lemma runs_parseContractMethods p : fits depth 0 p -> here p = 1 -> runs (parseContractMethods rec) p (clean wholeMethods p).
Proof.
  intros Hf Hh. unfold parseContractMethods. step.
  apply (runs_loop _ (fun l q => fits depth 4 q /\ failures p <= failures q /\ clean wholeMethods p l q)).
  2:{ repeat split; [arith | arith | constructor]. }
  clear - Hrec. intros methods q (Hq & He & Hm). repeat step; try finish.
  all: repeat split; try arith.
  all: intros E'; finish; apply Forall_app; split; auto; repeat constructor; destruct H0 as (_ & H0 & _); apply H0; reflexivity.
Qed.

#[local] Hint Resolve runs_parseContractMethods : parser.

Lemma runs_parseContractDecl p : fits depth 0 p -> runs (parseContractDecl rec) p (clean wholeDecl p).
Proof. intros Hf. unfold parseContractDecl. go. cbn [completeDecl cdMethods]. apply (forallb_of_Forall (fun m => _)). assumption. Qed.

Lemma runs_parseImplDecl p : runs parseImplDecl p (clean wholeDecl p).
Proof. unfold parseImplDecl. go. Qed.

(** ** Structs, enums, error sets and unions *)

Lemma runs_parseStructField p : fits depth 4 p ->
  runs (parseStructField rec) p (clean (fun r => r.2 = true /\ completeFieldDecl r.1 = true) p).
Proof. intros Hf. unfold parseStructField. go. Qed.

Lemma runs_parseStructFields p : fits depth 0 p -> here p = 1 ->
  runs (parseStructFields rec) p (clean (Forall (fun f => completeFieldDecl f = true)) p).
Proof.
  intros Hf Hh. unfold parseStructFields. step. eapply runs_weaken.
  - apply (runs_entries depth _ _ _ (fun f => completeFieldDecl f = true)); [arith | intros r Hr _; apply runs_parseStructField, Hr].
  - go.
Qed.

Lemma runs_parseTypeParams p : fits depth 0 p -> runs (parseTypeParams rec) p (clean okay p).
Proof. intros Hf. unfold parseTypeParams. go. Qed.

#[local] Hint Resolve runs_parseStructFields runs_parseTypeParams : parser.

Abbreviation wholeFields := (fun d => forallb completeFieldDecl (sdFields d) = true).

Lemma runs_parseStructDeclWithDoc doc p : fits depth 0 p -> runs (parseStructDeclWithDoc rec doc) p (clean wholeFields p).
Proof. intros Hf. unfold parseStructDeclWithDoc. go. Qed.

#[local] Hint Resolve runs_parseStructDeclWithDoc : parser.

Lemma runs_parseNames label p : runs (parseNames label) p (fun _ _ => True).
Proof.
  apply (runs_loop _ (fun _ _ => True)); [|exact I]. intros [names found] q _. go.
Qed.

#[local] Hint Resolve runs_parseNames : parser.

Lemma runs_parseNameList label p : runs (parseNameList label) p (fun _ _ => True).
Proof. unfold parseNameList. go. Qed.

#[local] Hint Resolve runs_parseNameList : parser.

Lemma runs_parseEnumDeclWithDoc doc p : runs (parseEnumDeclWithDoc doc) p (clean wholeDecl p).
Proof. unfold parseEnumDeclWithDoc. go. Qed.

Lemma runs_parseErrorSetReference p : runs parseErrorSetReference p (clean okay p).
Proof. unfold parseErrorSetReference. go. Qed.

#[local] Hint Resolve runs_parseErrorSetReference : parser.

Lemma runs_parseErrorSetCombines p : runs parseErrorSetCombines p (fun _ _ => True).
Proof.
  unfold parseErrorSetCombines. eapply runs_bind with (P := fun _ _ => True); [|go].
  apply (runs_loop _ (fun _ _ => True)); [|exact I]. intros combines q _. go.
Qed.

#[local] Hint Resolve runs_parseErrorSetCombines : parser.

Lemma runs_parseErrorSetDeclWithDoc doc p : runs (parseErrorSetDeclWithDoc doc) p (clean wholeDecl p).
Proof. unfold parseErrorSetDeclWithDoc. go. Qed.

Lemma runs_parseUnionVariant p : fits depth 4 p -> runs (parseUnionVariant rec) p (clean okay p).
Proof. intros Hf. unfold parseUnionVariant. go. Qed.

Lemma runs_parseUnionVariants p : fits depth 0 p -> here p = 1 -> runs (parseUnionVariants rec) p (fun _ _ => True).
Proof.
  intros Hf Hh. unfold parseUnionVariants. step. eapply runs_weaken.
  - apply (runs_entries depth _ _ _ (fun _ => True)); [arith|]. intros r Hr _. eapply runs_weaken; [apply runs_parseUnionVariant, Hr | go].
  - auto.
Qed.

#[local] Hint Resolve runs_parseUnionVariants : parser.

Lemma runs_parseUnionDeclWithDoc doc p : fits depth 0 p -> runs (parseUnionDeclWithDoc rec doc) p (clean wholeDecl p).
Proof. intros Hf. unfold parseUnionDeclWithDoc. go. Qed.

(** ** Foreign declarations *)

Lemma runs_requireABIName message p :
  runs (requireABIName message) p (fun _ q => cur q = cur p /\ peek q = peek p /\
    (failures q = failures p -> String.eqb (literal (cur p)) "" = false)).
Proof. unfold requireABIName. go. Qed.

#[local] Hint Resolve runs_requireABIName : parser.

Lemma runs_parseExternStructDecl doc abi p : fits depth 0 p -> runs (parseExternStructDecl rec doc abi) p (clean wholeDecl p).
Proof. intros Hf. unfold parseExternStructDecl. go. Qed.

#[local] Hint Resolve runs_parseExternStructDecl : parser.

Lemma runs_parseExternDeclWithDoc doc p : fits depth 0 p -> runs (parseExternDeclWithDoc rec doc) p (clean wholeDecl p).
Proof.
  intros Hf. unfold parseExternDeclWithDoc. go. assert (Hempty : (literal (cur q) =? "")%string = false) by (apply H9; lia).
  destruct H6 as (_ & Hs & Habi). cbn [completeDecl fst] in *. unfold completeFunction. rewrite (Hs eq_refl), Habi.
  cbn [withSignature fdSignature setExternABI sgExternABI]. rewrite Hempty. reflexivity.
Qed.

#[local] Hint Extern 1 (completeSignature _ = true) => reflexivity : parser.
#[local] Hint Resolve runs_parseFunctionAfterFn runs_parseFunctionDeclWithDoc runs_parseTestDecl runs_parseContractDecl
  runs_parseImplDecl runs_parseImportDecl runs_parseEnumDeclWithDoc runs_parseErrorSetDeclWithDoc runs_parseUnionDeclWithDoc
  runs_parseExternDeclWithDoc : parser.

Lemma runs_parseExportDeclWithDoc doc p : fits depth 0 p -> runs (parseExportDeclWithDoc rec doc) p (clean wholeDecl p).
Proof. intros Hf. unfold parseExportDeclWithDoc. go. Qed.

Lemma runs_parseUnsafeDecl doc p : fits depth 0 p -> here p = 1 -> runs (parseUnsafeDecl rec doc) p (clean wholeDecl p).
Proof. intros Hf Hh. unfold parseUnsafeDecl. go. Qed.

#[local] Hint Resolve runs_parseExportDeclWithDoc runs_parseUnsafeDecl : parser.

Lemma runs_parseTopLevelDeclWithDoc doc p : fits depth 0 p -> runs (parseTopLevelDeclWithDoc rec doc) p (clean wholeDecl p).
Proof. intros Hf. unfold parseTopLevelDeclWithDoc. go. Qed.

Lemma complete_setPublicDecl d : completeDecl (setPublicDecl d) = completeDecl d.
Proof. destruct d; reflexivity. Qed.

#[local] Hint Resolve runs_parseTopLevelDeclWithDoc : parser.

Lemma runs_parsePublicDecl p : fits depth 0 p -> here p = 1 -> runs (parsePublicDecl rec) p (clean wholeDecl p).
Proof. intros Hf Hh. unfold parsePublicDecl. go. rewrite complete_setPublicDecl. assumption. Qed.

Lemma runs_parseLinkAttribute p : runs parseLinkAttribute p (clean okay p).
Proof. unfold parseLinkAttribute. go. Qed.

#[local] Hint Resolve runs_parseLinkAttribute : parser.

Lemma runs_parseLinkAttributes p : runs parseLinkAttributes p (clean okay p).
Proof.
  apply (runs_loop _ (fun _ q => failures p <= failures q)); [|lia]. intros [library framework] q Hq. go.
Qed.

#[local] Hint Resolve runs_parseLinkAttributes : parser.

Lemma runs_parseAttributedDecl p : fits depth 0 p -> runs (parseAttributedDecl rec) p (clean wholeDecl p).
Proof.
  intros Hf. unfold parseAttributedDecl. do 2 step. destruct a as [[library framework] ok]. destruct ok; [|go]. cbn [negb].
  step. eapply runs_bind with (P := clean wholeDecl q).
  - go. rewrite complete_setPublicDecl. assumption.
  - go.
Qed.

#[local] Hint Resolve runs_parsePublicDecl runs_parseAttributedDecl : parser.

Lemma runs_parseExternDecl p : fits depth 0 p -> runs (parseExternDecl rec) p (clean wholeDecl p).
Proof. intros Hf. unfold parseExternDecl. go. Qed.

(** ** The program *)

Lemma runs_errorExpectedDeclaration p : runs errorExpectedDeclaration p (fun _ q => failures q <> failures p).
Proof. unfold errorExpectedDeclaration. go. Qed.

#[local] Hint Resolve runs_parseExternDecl runs_errorExpectedDeclaration : parser.

Abbreviation wholeProgram := (Forall (fun d => completeDecl d = true)).

Lemma runs_parseIdentLedDecl p : fits depth 0 p -> runs (parseIdentLedDecl rec) p (clean wholeProgram p).
Proof. intros Hf. unfold parseIdentLedDecl. go; repeat constructor; assumption. Qed.

#[local] Hint Resolve runs_parseIdentLedDecl : parser.

Lemma runs_parseTopLevel p : fits depth 0 p -> here p = 1 -> runs (parseTopLevel rec) p (clean wholeProgram p).
Proof. intros Hf Hh. unfold parseTopLevel. go; repeat constructor; assumption. Qed.

Lemma complete_SetDeclarationSpan at_ d : completeDecl (SetDeclarationSpan at_ d) = completeDecl d.
Proof. destruct d; reflexivity. Qed.

(** The program ends at [EOF]; without an error it has no holes. *)
Lemma runs_parseDeclarations p : fits depth 0 p ->
  runs (parseDeclarations rec) p (fun r q => clean wholeProgram p r q /\ tokIs (cur q) EOF_ = true).
Proof.
  intros Hf. apply (runs_loop _ (fun l q => fits depth 0 q /\ failures p <= failures q /\ clean wholeProgram p l q)).
  2:{ repeat split; [exact Hf | lia | constructor]. }
  clear Hf. intros program q (Hq & He & Hl). step. step; [apply runs_ret; auto|].
  assert (Hh : here q = 1) by (apply tokIs_EOF; assumption).
  eapply runs_bind; [apply runs_parseTopLevel; assumption|]. intros decls r Hr Hd. repeat step.
  split; [|arith]. split; [arith|]. split; [arith|]. intros E'. apply Forall_app. split; [apply Hl; arith|].
  apply Forall_fmap, (Forall_impl (fun d => completeDecl d = true)); [apply Hd; arith|].
  intros d H'. cbn. rewrite complete_SetDeclarationSpan. exact H'.
Qed.
End Declarations.
