(* ===== verification/Parser.v ===== *)
(** * The parser on a source text ([New] and [ParseProgram] of
    [internal/parser/parser.go])

    The lexer as a source of tokens, a list of tokens as another, and the whole
    parse with the depth it is granted. *)

From stdpp Require Import base list strings.
From Stdlib Require Import ZArith Lia String Ascii.
From S2P Require Import Prelude GoStd StaticExpr Typ Token Lexer LexerFacts Literals Ast AstFacts ParserState.
From S2P Require Import ParserType ParserExpr ParserStmt ParserDecl ParserFacts ParserExprFacts ParserStmtFacts.

#[local] Open Scope string_scope.
#[local] Open Scope list_scope.

(** ** Sources *)

(** A lexer with its input. *)
Record LexerSource : Type := mkLexerSource { srcInput : text; srcLexer : Lexer }.

Definition scanLexer (s : LexerSource) : Token * LexerSource :=
  let (t, l) := NextToken (srcInput s) (srcLexer s) in (t, mkLexerSource (srcInput s) l).

(** Past the end nothing is skipped. *)
Lemma skipIgnored_at_zero input l : ch l = 0%Z -> skipIgnored input l = l.
Proof.
  intros Hz. unfold skipIgnored.
  assert (Hw : skipWhitespace input l = (false, l)).
  { unfold skipWhitespace. destruct (remaining input l); cbn [skipWhitespaceFuel]; rewrite ?Hz; reflexivity. }
  destruct (remaining input l); cbn [skipIgnoredFuel]; rewrite Hw, Hz; reflexivity.
Qed.

Lemma NextToken_progress input l :
  located input l ->
  located input (NextToken input l).2 /\
  weight (NextToken input l).1 + (List.length input - position (NextToken input l).2) <= List.length input - position l.
Proof.
  intros Hl. unfold NextToken. set (l1 := set_pending [] [] (skipIgnored input l)).
  assert (H1 : located input l1 /\ position l <= position l1).
  { destruct (le_lt_dec (position l) (List.length input)) as [H|H].
    - destruct (skipIgnored_pending input l Hl H) as (S1 & S2 & _). split; [exact S1 | apply S2].
    - assert (Hz : ch l = 0%Z) by (rewrite (loc_ch _ _ Hl); apply runeAt_end; lia).
      unfold l1. rewrite (skipIgnored_at_zero input l Hz). split; [apply located_pending, Hl | auto]. }
  destruct H1 as [S1 S2]. destruct (Z.eqb_spec (ch l1) 0) as [E|Hz].
  - rewrite (scanToken_end input l1 E). cbn [fst snd tokType literalToken]. split; [apply located_readChar, S1|].
    rewrite (position_readChar input l1 S1). change (weight (mkToken EOF_ _ _ _ _ _)) with 0. lia.
  - destruct (scanToken_scanned input l1 S1 Hz) as (T1 & T2 & T3 & T4 & T5).
    destruct (scanToken input l1) as [tok l2]. cbn [fst snd tokType] in *. split; [exact T3|].
    pose proof (weight_bound (mkToken (tokType tok) (tokLiteral tok) (tokLine tok) (tokColumn tok) (pendingDoc (skipIgnored input l))
      (pendingSafety (skipIgnored input l)))). lia.
Qed.

#[export] Instance lexerTokens : TokenSource LexerSource.
Proof.
  refine {| scan := scanLexer; valid s := located (srcInput s) (srcLexer s);
            left_ s := List.length (srcInput s) - position (srcLexer s) |};
    intros s Hv; destruct (NextToken_progress _ _ Hv) as [H1 H2]; unfold scanLexer; destruct (NextToken _ _);
    cbn [fst snd srcInput srcLexer] in *; assumption.
Defined.

(** The tokens of a list, then [EOF] for ever. *)
Definition eofToken : Token := mkToken EOF_ [] 0 0 [] [].

Definition scanList (ts : list Token) : Token * list Token :=
  match ts with t :: rest => (t, rest) | [] => (eofToken, []) end.

#[export] Instance listTokens : TokenSource (list Token).
Proof.
  refine {| scan := scanList; valid _ := True; left_ ts := list_sum (map weight ts) |}; [auto|].
  intros [|t rest] _; cbn [scanList fst snd map list_sum foldr]; unfold list_sum; cbn; lia.
Defined.

(** ** The parse *)

Section Parse.
Context {Src : Type} {source : TokenSource Src}.

(** [New] before its two tokens are read. *)
Definition fresh (s : Src) : PState Src := mkState s zeroToken zeroToken [] [] "".

(** [ParseProgram] *)
Definition ParseProgram : M Src Program_ :=
  let! p := get in parseDeclarations (parser (4 * (here p + 2 * following p))).

(** [New(l).ParseProgram()] *)
Definition parseFrom (s : Src) : outcome Src Program_ :=
  (do! nextToken in do! nextToken in ParseProgram) (fresh s).

Lemma runs_parseFrom s :
  runs (do! nextToken in do! nextToken in ParseProgram) (fresh s) (fun r q =>
    clean (Forall (fun d => completeDecl d = true)) (fresh s) r q /\ tokIs (cur q) EOF_ = true).
Proof.
  eapply runs_bind; [apply runs_nextToken|]. intros [] q Hq (_ & _ & _ & E1). eapply runs_bind; [apply runs_nextToken|].
  intros [] r Hr (_ & _ & _ & E2). unfold ParseProgram. apply runs_bind_get.
  eapply runs_weaken; [apply (runs_parseDeclarations _ _ (handles_parser _)); unfold fits; lia|].
  intros prog t Ht [Hclean Hend]. split; [|exact Hend]. intros E. apply Hclean. congruence.
Qed.

Lemma parseFrom_ends s : valid s ->
  match parseFrom s with
  | Done prog q => (errors q = [] -> Forall (fun d => completeDecl d = true) prog) /\ tokType (cur q) = EOF_
  | Panic q => errors q <> []
  | OutOfBound => False
  end.
Proof.
  intros Hv. unfold parseFrom. pose proof (runs_parseFrom s Hv) as H. destruct (bind _ _ _) as [prog q | q |]; [|  | exact H].
  - destruct H as (_ & _ & Hc & Hend). split; [|apply String.eqb_eq, Hend]. intros E. apply Hc. unfold failures. rewrite E. reflexivity.
  - intros E. unfold failures in H. rewrite E in H. cbn in H. lia.
Qed.
End Parse.

(** Parsing a source text. *)
Definition parseText (input : text) : outcome LexerSource Program_ := parseFrom (mkLexerSource input (NewSource input)).

Example parse_sample :
  match parseText (runes "fn main() -> i64 { let x: i64 = 1 + 2 * y; return f<T>(x)[0..n]; }") with
  | Done [DFunction d] q => (FunctionString d, errors q) =
      (Some "fn main() -> i64 { let x: i64 = (1 + (2 * y)); return f<T>(x)[0..n]; }", [])
  | _ => False
  end.
Proof. vm_compute. reflexivity. Qed.

(** * What the parser promises

    It ends on every text, it drops no error, and a program it reports no error
    for has no holes. *)

(** ** Termination *)

(** C20. The parser ends on every source text: it comes to the end of the file
    with the current token on [EOF], or, after an error it has recorded, it
    panics.  No loop and no recursion needs more than the tokens that are left. *)
Theorem parse_terminates input :
  (exists prog q, parseText input = Done prog q /\ tokType (cur q) = EOF_) \/
  (exists q, parseText input = Panic q /\ errors q <> []).
Proof.
  pose proof (parseFrom_ends (mkLexerSource input (NewSource input)) (located_start input)) as H. unfold parseText.
  destruct (parseFrom _) as [prog q | q |]; [left; exists prog, q | right; exists q | contradiction].
  - split; [reflexivity | apply H].
  - split; [reflexivity | exact H].
Qed.

(** ** Errors *)

(** Printing a declaration comes to an end. *)
Definition declPrints (d : Decl) : Prop :=
  match d with DFunction d => is_Some (FunctionString d) | DTest d => is_Some (TestString d) | _ => True end.

Lemma complete_prints d : completeDecl d = true -> declPrints d.
Proof.
  destruct d as [| d | d | | | | | |]; cbn [completeDecl declPrints]; auto.
  - unfold completeFunction. intros [_ H]%andb_true_iff. destruct (String.eqb (sgExternABI (fdSignature d)) "") eqn:E.
    + apply function_prints. destruct (fdBody d); [exact H | reflexivity].
    + unfold FunctionString. destruct (match sgReceiver _, sgParams _ with true, _ :: _ => _ | _, _ => _ end) as [receiver rest].
      rewrite E. eexists. reflexivity.
  - intros H. unfold TestString. destruct (tdBody d) as [b|]; [|discriminate]. parts. apply block_prints, H.
Qed.

(** C21. A parse without errors leaves no holes: every declaration of the program
    has the types, the bodies and the operands that the later phases read
    without looking for nil, and printing one does not panic. *)
Theorem parse_complete input prog q :
  parseText input = Done prog q -> errors q = [] -> Forall (fun d => completeDecl d = true /\ declPrints d) prog.
Proof.
  intros Hp He. pose proof (parseFrom_ends (mkLexerSource input (NewSource input)) (located_start input)) as H.
  unfold parseText in Hp. rewrite Hp in H. eapply Forall_impl; [apply H, He|]. intros d Hd. split; [exact Hd | apply complete_prints, Hd].
Qed.

Definition sample_source : text :=
  runes "fn (self: &S) f<n: i64>(x: i64) -> !i64 { while x |y| { if a == y { x.y.* = 3; } else |e| { return; } } return [3]i64{1, 2, n}[0..x]; }".

Lemma parse_complete_witness :
  exists prog q, parseText sample_source = Done prog q /\ List.length prog = 1 /\ Forall (fun d => completeDecl d = true /\ declPrints d) prog.
Proof.
  destruct (parseText sample_source) as [prog q | q |] eqn:E; [|vm_compute in E; discriminate | vm_compute in E; discriminate].
  exists prog, q. split; [reflexivity|]. split; [vm_compute in E; injection E as <- _; reflexivity|].
  apply (parse_complete sample_source prog q E). vm_compute in E. injection E as _ <-. reflexivity.
Defined.

(** ** State *)

(** C23. Parsing a statement, however it nests and whatever errors it meets, keeps
    every error recorded before it, in order, and leaves the [// SAFETY:] text of
    the statement around it in force. *)
Theorem statement_keeps_state {Src} {source : TokenSource Src} depth (p : PState Src) :
  valid (lex p) -> fits depth 3 p ->
  match callStatement (parser depth) p with
  | Done _ q => errors p `prefix_of` errors q /\ safety q = safety p /\ valid (lex q)
  | Panic q => errors q <> []
  | OutOfBound => False
  end.
Proof.
  intros Hv Hf. pose proof (runs_callStatement _ _ (handles_parser depth) p Hf Hv) as H.
  destruct (callStatement (parser depth) p) as [s q | q |]; [|  | exact H].
  - destruct H as (H1 & [_ _ _ H2 H3] & _). auto.
  - intros E. unfold failures in H. rewrite E in H. cbn in H. lia.
Qed.

Definition commentedToken (ty : TokenType) (s : string) : Token := mkToken ty (runes s) 1 1 [] [runes "why"].

(** [x }]: a statement without its semicolon, in code with another text. *)
Definition brokenStatement : PState (list Token) :=
  mkState [] (commentedToken Ident "x") (commentedToken Int "1") [] [mkDiagnostic noSpan "before"] "around".

Lemma statement_keeps_state_witness :
  exists s q, callStatement (parser 100) brokenStatement = Done s q /\ List.length (errors q) = 2 /\
    (errors brokenStatement `prefix_of` errors q /\ safety q = "around" /\ valid (lex q)).
Proof.
  pose proof (statement_keeps_state 100 brokenStatement I ltac:(unfold fits; vm_compute; lia)) as H.
  destruct (callStatement (parser 100) brokenStatement) as [s q | q |] eqn:E; [|vm_compute in E; discriminate..].
  exists s, q. split; [reflexivity|]. split; [vm_compute in E; injection E as _ <-; reflexivity | exact H].
Defined.

(** ** What the messages do *)

(** The message about a static argument prints the argument, and an [if] whose
    brace is missing has no block to print. *)
Example static_argument_panics :
  match parseText (runes "fn f(x: [(if y)]u8) {}") with Panic q => List.length (errors q) = 1 | _ => False end.
Proof. vm_compute. reflexivity. Qed.

(** The stand-in for a bad argument is 0, which is no length. *)
Example bad_length_twice :
  match parseText (runes "fn f(x: [(a<b)]u8) {}") with
  | Done _ q => exists rest, map dgMessage (errors q) =
      "static argument expression `(a < b)` is not integer arithmetic (literals, names, and + - * / % only)" ::
      "buffer size must be a positive integer, got 0" :: rest
  | _ => False
  end.
Proof. vm_compute. eexists. reflexivity. Qed.

(** The parser reads [?E!i64] as an optional of an error union, where the type
    parser reads an error union whose error type is optional: this is the tree
    of [TypTheorems.retained_tree_answers] that the checker tells the table. *)
Example optional_of_an_error_union :
  match parseText (runes "fn f(x: ?E!i64) {}") with
  | Done [DFunction f] q => errors q = [] /\ map pTypeName (sgParams (fdSignature f)) =
      [Some (Optional (ErrorUnion (Some (Name ["E"] [])) (Name ["i64"] [])))]
  | _ => False
  end.
Proof. vm_compute. auto. Qed.
