(* ===== verification/Grammar.v ===== *)
(** * The grammar of expressions

    What an expression is, stated without the parser: a relation between tokens
    and trees, indexed by how tightly the outermost form binds.  An operator
    takes a left operand that binds at least as tightly and a right operand that
    binds more tightly, which makes every level associate to the left; what
    stands after a prefix operator binds at least as tightly as it does.

    Not part of the grammar are the [<] token, which the parser tells from a
    list of static arguments by scanning ahead, struct and buffer literals, the
    control-flow expressions and [comptime]. *)

From stdpp Require Import base list strings.
From Stdlib Require Import ZArith Lia String Ascii.
From S2P Require Import Prelude GoStd Token Literals Ast ParserState ParserType ParserExpr ParserFacts.

#[local] Open Scope string_scope.
#[local] Open Scope list_scope.

(** The operators of two operands as the language orders them, from the loosest
    to the tightest (SPEC 6.9.1); the row without a token is that of the
    shifts, which are two tokens. *)
Definition operatorRows : list (list TokenType) :=
  [[Orelse; Catch]; [Or_]; [And_]; [Eq_; NotEq]; [LT_; LTE; GT_; GTE]; [Pipe]; [Caret]; [Amp]; []; [Plus; Minus];
   [Asterisk; Slash; Percent]].

(** The level of a row, counted from 2: 1 is below every operator. *)
Fixpoint levelFrom (n : nat) (rows : list (list TokenType)) (ty : TokenType) : nat :=
  match rows with
  | [] => 1
  | row :: rest => if existsb (String.eqb ty) row then n else levelFrom (S n) rest ty
  end.

Definition levelOf : TokenType -> nat := levelFrom 2 operatorRows.
Definition shiftLevel : nat := 10.

(** What stands before an operand binds more tightly than every operator of
    two, and what stands behind one more tightly still. *)
Definition prefixLevel : nat := 2 + List.length operatorRows.
Definition postfixLevel : nat := S (S prefixLevel).

(** The operators of two operands, but for [<] and the shifts. *)
Definition binaryOperators : list TokenType :=
  [Orelse; Catch; Or_; And_; Eq_; NotEq; LTE; GT_; GTE; Pipe; Caret; Amp; Plus; Minus; Asterisk; Slash; Percent].

(** Two tokens that spell a shift: the same one twice with nothing between. *)
Definition pair (a b : Token) : bool :=
  (tokIs a LT_ || tokIs a GT_) && String.eqb (tokType b) (tokType a) && (tokLine b =? tokLine a)%Z &&
  (tokColumn b =? tokColumn a + 1)%Z.

(** Expressions, in code whose [// SAFETY:] text is given. *)
Section Grammar.
Context (text : string).

Inductive derives : nat -> list Token -> Expr -> Prop :=
  | d_name t : tokType t = Ident -> derives postfixLevel [t] (IdentExpr (literal t) (tokenSpan t))
  | d_int t v : tokType t = Int -> integerLiteralValue (literal t) = Some v -> derives postfixLevel [t] (IntExpr (FormatInt v))
  | d_float t : tokType t = Float -> ParseFloatLiteral (CleanFloatLiteral (literal t)) = true ->
      derives postfixLevel [t] (FloatExpr (CleanFloatLiteral (literal t)))
  | d_string t : tokType t = String_ -> derives postfixLevel [t] (StringExpr (literal t))
  | d_true t : tokType t = True_ -> derives postfixLevel [t] (BoolExpr true)
  | d_false t : tokType t = False_ -> derives postfixLevel [t] (BoolExpr false)
  | d_null t : tokType t = Null -> derives postfixLevel [t] (NullExpr (tokenSpan t))
  | d_paren level open ts e close : tokType open = LParen -> tokType close = RParen ->
      derives level ts e -> derives postfixLevel (open :: ts ++ [close]) e
  | d_prefix level op ts e : tokType op ∈ [Bang; Minus; Tilde] ->
      derives level ts e -> prefixLevel <= level -> derives prefixLevel (op :: ts) (PrefixExpr (literal op) e)
  | d_address level amp ts e : tokType amp = Amp ->
      derives level ts e -> prefixLevel <= level -> derives prefixLevel (amp :: ts) (PrefixExpr "&" e)
  | d_addressVar level amp var ts e : tokType amp = Amp -> tokType var = Var ->
      derives level ts e -> prefixLevel <= level -> derives prefixLevel (amp :: var :: ts) (PrefixExpr "&var" e)
  | d_try level t ts e : tokType t = Try ->
      derives level ts e -> prefixLevel <= level -> derives prefixLevel (t :: ts) (TryExpr e)
  | d_move level t ts e : tokType t = Move ->
      derives level ts e -> prefixLevel <= level -> derives prefixLevel (t :: ts) (MoveExpr e (tokenSpan t))
  | d_unsafe level t ts e : tokType t = Unsafe ->
      derives level ts e -> prefixLevel <= level -> derives prefixLevel (t :: ts) (UnsafeExpr e text (tokenSpan t))
  | d_binary ll lr tl op tr l r : tokType op ∈ binaryOperators ->
      derives ll tl l -> levelOf (tokType op) <= ll -> derives lr tr r -> levelOf (tokType op) < lr ->
      derives (levelOf (tokType op)) (tl ++ op :: tr) (BinaryExpr l (literal op) (tokenSpan op) r)
  | d_shift ll lr tl a b tr l r : tokType a = GT_ -> pair a b = true ->
      derives ll tl l -> shiftLevel <= ll -> derives lr tr r -> shiftLevel < lr ->
      derives shiftLevel (tl ++ a :: b :: tr) (BinaryExpr l (literal a +:+ literal a) (widen (tokenSpan a)) r)
  | d_field ts e sep name : tokType sep ∈ [Dot; DoubleColon] -> tokType name = Ident -> derives postfixLevel ts e ->
      derives postfixLevel (ts ++ [sep; name])
        (FieldExpr e (literal name) (tokIs sep DoubleColon) (joinSpans (expressionSpan e) (tokenSpan name)))
  | d_deref ts e dot star : tokType dot = Dot -> tokType star = Asterisk -> derives postfixLevel ts e ->
      derives postfixLevel (ts ++ [dot; star]) (DerefExpr e (tokenSpan star))
  | d_call0 ts e open close : tokType open = LParen -> tokType close = RParen -> derives postfixLevel ts e ->
      derives postfixLevel (ts ++ [open; close]) (CallExpr e [])
  | d_call ts e open args es close : tokType open = LParen -> tokType close = RParen -> derives postfixLevel ts e ->
      derivesArgs args es -> derives postfixLevel (ts ++ open :: args ++ [close]) (CallExpr e es)
  | d_index ts e open level ti i close : tokType open = LBracket -> tokType close = RBracket -> derives postfixLevel ts e ->
      derives level ti i ->
      derives postfixLevel (ts ++ open :: ti ++ [close]) (IndexExpr e (Some i) None None false (tokenSpan open))
  | d_slice ts e open l1 t1 a range l2 t2 b close : tokType open = LBracket -> tokType range = Range ->
      tokType close = RBracket -> derives postfixLevel ts e -> derives l1 t1 a -> derives l2 t2 b ->
      derives postfixLevel (ts ++ open :: t1 ++ range :: t2 ++ [close]) (IndexExpr e None (Some a) (Some b) true (tokenSpan open))
with derivesArgs : list Token -> list Expr -> Prop :=
  | d_last level ts e : derives level ts e -> derivesArgs ts [e]
  | d_more level ts e comma rest es : tokType comma = Comma -> derives level ts e -> derivesArgs rest es ->
      derivesArgs (ts ++ comma :: rest) (e :: es).
End Grammar.

Scheme derives_mut := Minimality for derives Sort Prop
  with derivesArgs_mut := Minimality for derivesArgs Sort Prop.
Combined Scheme derives_both from derives_mut, derivesArgs_mut.

(** * The tokens a parser has in front of it

    From any state the source determines an endless row of tokens, the current
    one first.  [moved k p q]: [q] is [p] after [k] more tokens, with no error
    recorded; looking ahead moves by none.  [yields m p a k]: [m] ends at [p]
    with [a] and moves by [k]. *)

Section Streams.
Context {Src : Type} {source : TokenSource Src}.

(** The tokens a source gives. *)
Fixpoint upcoming (n : nat) (s : Src) : Token :=
  match n with O => (scan s).1 | S n => upcoming n (scan s).2 end.

(** The tokens from the one at peek on. *)
Definition coming (p : PState Src) (n : nat) : Token :=
  match n with
  | O => peek p
  | S n => match ahead p !! n with Some t => t | None => upcoming (n - List.length (ahead p)) (lex p) end
  end.

(** The tokens from the current one on. *)
Definition tokens (p : PState Src) (n : nat) : Token := match n with O => cur p | S n => coming p n end.

Record moved (k : nat) (p q : PState Src) : Prop := mkMoved {
  mv_tokens : forall n, tokens q n = tokens p (k + n);
  mv_errors : errors q = errors p;
  mv_safety : safety q = safety p;
  mv_valid : valid (lex p) -> valid (lex q);
  mv_following : valid (lex p) -> following q + k <= following p
}.

Definition yields {A} (m : M Src A) (p : PState Src) (a : A) (k : nat) : Prop := exists q, m p = Done a q /\ moved k p q.

Lemma moved_refl p : moved 0 p p.
Proof. split; auto. lia. Qed.

Lemma moved_trans j k p q r : moved j p q -> moved k q r -> moved (j + k) p r.
Proof.
  intros [T1 E1 S1 V1 F1] [T2 E2 S2 V2 F2]. split; try congruence.
  - intros n. rewrite T2, T1. f_equal. lia.
  - auto.
  - intros Hv. specialize (F1 Hv). specialize (F2 (V1 Hv)). lia.
Qed.

Lemma moved_0 j p q r : moved 0 p q -> moved j q r -> moved j p r.
Proof. exact (moved_trans 0 j p q r). Qed.

Lemma tokens_0 n p q : moved 0 p q -> tokens q n = tokens p n.
Proof. intros H. apply (mv_tokens _ _ _ H). Qed.

Lemma yields_ret {A} (a : A) p : yields (ret a) p a 0.
Proof. exists p. split; [reflexivity | apply moved_refl]. Qed.

Lemma yields_bind {A B} (m : M Src A) (f : A -> M Src B) p a b j k :
  yields m p a j -> (forall q, moved j p q -> yields (f a) q b k) -> yields (bind m f) p b (j + k).
Proof.
  intros (q & Hm & Hq) Hf. destruct (Hf q Hq) as (r & Hr & Hrk). exists r. unfold bind. rewrite Hm.
  split; [exact Hr | eapply moved_trans; eassumption].
Qed.

Lemma yields_get {B} (f : PState Src -> M Src B) p b k : yields (f p) p b k -> yields (bind get f) p b k.
Proof. intros H. exact H. Qed.

(** Reading on from a state that was reached by looking ahead. *)
Lemma yields_moved {A} (m : M Src A) p q a j k r :
  moved j p q -> m p = Done a r -> moved k q r -> yields m p a (j + k).
Proof. intros Hj Hm Hk. exists r. split; [exact Hm | eapply moved_trans; eassumption]. Qed.

Lemma moved_cur k p q : moved k p q -> cur q = tokens p k.
Proof. intros H. pose proof (mv_tokens _ _ _ H 0) as E. rewrite Nat.add_0_r in E. exact E. Qed.

Lemma moved_peek k p q : moved k p q -> peek q = tokens p (S k).
Proof. intros H. pose proof (mv_tokens _ _ _ H 1) as E. rewrite Nat.add_1_r in E. exact E. Qed.

Lemma weight_live t : tokType t <> EOF_ -> weight t = 1.
Proof. intros H. unfold weight. apply String.eqb_neq in H. rewrite H. reflexivity. Qed.

Lemma yields_nextToken p : tokType (tokens p 1) <> EOF_ -> yields nextToken p () 1.
Proof.
  intros Hlive. pose proof (runs_nextToken p) as R. unfold runs in R. unfold yields, nextToken in *.
  destruct (ahead p) as [|t rest] eqn:E.
  - destruct (scan (lex p)) as [t l'] eqn:Hs. eexists. split; [reflexivity|]. split; try reflexivity; cbn [lex] in *.
    + intros [|[|n]]; cbn [tokens coming cur peek ahead lex Nat.add]; rewrite ?E; cbn; rewrite ?Hs; cbn; rewrite ?Nat.sub_0_r; auto.
    + intros Hv. apply R, Hv.
    + intros Hv. destruct (R Hv) as (_ & _ & _ & _ & Hf & _). unfold ahead1 in Hf. rewrite (weight_live (peek p) Hlive) in Hf. exact Hf.
  - eexists. split; [reflexivity|]. split; try reflexivity; cbn [lex] in *.
    + intros [|[|n]]; cbn [tokens coming cur peek ahead Nat.add]; rewrite ?E; reflexivity.
    + auto.
    + intros Hv. destruct (R Hv) as (_ & _ & _ & _ & Hf & _). unfold ahead1 in Hf. rewrite (weight_live (peek p) Hlive) in Hf. exact Hf.
Qed.

(** ** Looking ahead *)

Lemma coming_snoc p n :
  coming (mkState (scan (lex p)).2 (cur p) (peek p) (ahead p ++ [(scan (lex p)).1]) (errors p) (safety p)) n = coming p n.
Proof.
  destruct n as [|n]; [reflexivity|]. cbn [coming ahead lex].
  destruct (lt_eq_lt_dec n (List.length (ahead p))) as [[H| ->]|H].
  - rewrite lookup_app_l by exact H. destruct (lookup_lt_is_Some_2 _ _ H) as [t ->]. reflexivity.
  - rewrite lookup_app_r, Nat.sub_diag by lia. rewrite (lookup_ge_None_2 (ahead p)) by lia. reflexivity.
  - rewrite !lookup_ge_None_2 by (rewrite ?length_app; cbn; lia). rewrite length_app. cbn [List.length].
    replace (n - List.length (ahead p)) with (S (n - (List.length (ahead p) + 1))) by lia. reflexivity.
Qed.

Lemma yields_scanAhead n p :
  exists q, scanAhead n p = Done () q /\ moved 0 p q /\ List.length (ahead q) = List.length (ahead p) + n.
Proof.
  revert p. induction n as [|n IH]; intros p.
  - exists p. split; [reflexivity|]. split; [apply moved_refl | lia].
  - cbn [scanAhead]. unfold bind. destruct (scan (lex p)) as [t l'] eqn:Hs.
    set (p' := mkState _ _ _ _ _ _). assert (Hp : moved 0 p p').
    { pose proof (scan_valid (lex p)) as Hval. pose proof (scan_left (lex p)) as Hleft. pose proof (coming_snoc p) as Hc.
      rewrite Hs in *. cbn [fst snd] in *. split; auto.
      - intros [|n']; [reflexivity|]. apply Hc.
      - intros Hv. specialize (Hleft Hv). unfold following, p'. cbn [peek ahead lex]. rewrite map_app, list_sum_app.
        cbn [map list_sum foldr]. lia. }
    destruct (IH p') as (q & H1 & H2 & H3). exists q. split; [exact H1|]. split; [exact (moved_trans _ _ _ _ _ Hp H2)|].
    rewrite H3. unfold p'. cbn [ahead]. rewrite length_app. cbn. lia.
Qed.

Lemma yields_peekAt n p : 0 < n -> yields (peekAt n) p (tokens p (S n)) 0.
Proof.
  intros Hn. unfold peekAt. apply yields_get. destruct (yields_scanAhead (n - List.length (ahead p)) p) as (q & H1 & H2 & H3).
  exists q. split; [|exact H2]. unfold bind. rewrite H1. unfold get, ret. f_equal.
  pose proof (mv_tokens _ _ _ H2 (S n)) as Ht. cbn [Nat.add] in Ht. rewrite <- Ht. destruct n as [|n]; [lia|].
  cbn [tokens coming]. rewrite Nat.sub_succ, Nat.sub_0_r.
  destruct (lookup_lt_is_Some_2 (ahead q) n) as [t ->]; [lia | reflexivity].
Qed.

Lemma yields_shiftPair p : yields shiftPair p (pair (tokens p 1) (tokens p 2)) 0.
Proof.
  unfold shiftPair, pair. apply yields_get. cbn [tokens coming]. rewrite <- negb_orb.
  destruct (tokIs (peek p) LT_ || tokIs (peek p) GT_); cbn [negb andb]; [|apply yields_ret].
  eapply (yields_bind _ _ _ _ _ 0 0); [apply (yields_peekAt 1); lia|]. intros q Hq. cbn [tokens coming]. apply yields_ret.
Qed.

(** A row of tokens that does not go on to a capture's closing bar and brace. *)
Definition quiet (s : nat -> Token) : Prop :=
  forall k, (forall i, i < k -> tokType (s (2 * i)) = Comma /\ tokType (s (2 * i + 1)) = Ident) ->
    tokType (s (2 * k)) = Pipe -> tokType (s (2 * k + 1)) <> LBrace.

Lemma captureEnd_tokens fuel n p :
  0 < n ->
  match captureEnd fuel n p with
  | Done m q => moved 0 p q /\ exists k, m = n + 2 * k /\
      forall i, i < k -> tokType (tokens p (S n + 2 * i)) = Comma /\ tokType (tokens p (S n + 2 * i + 1)) = Ident
  | Panic _ => False
  | OutOfBound => True
  end.
Proof.
  revert n p. induction fuel as [|fuel IH]; intros n p Hn; [exact I|]. cbn [captureEnd].
  destruct (yields_peekAt n p Hn) as (q1 & H1 & M1). unfold bind at 1. rewrite H1.
  destruct (tokIs (tokens p (S n)) Comma) eqn:Ec; cbn [negb].
  2:{ split; [exact M1|]. exists 0. split; [lia|]. intros i Hi. lia. }
  destruct (yields_peekAt (n + 1) q1 ltac:(lia)) as (q2 & H2 & M2). unfold bind at 1. rewrite H2.
  pose proof (moved_0 _ _ _ _ M1 M2) as M3. rewrite (tokens_0 _ _ _ M1). destruct (tokIs (tokens p _) Ident) eqn:Ei.
  2:{ split; [exact M3|]. exists 0. split; [lia|]. intros i Hi. lia. }
  specialize (IH (n + 2) q2 ltac:(lia)). destruct (captureEnd fuel (n + 2) q2) as [m q | q |]; [|exact IH | exact I].
  destruct IH as (M4 & k & -> & Hk). split; [apply (moved_0 _ _ _ _ M3 M4)|]. exists (S k). split; [lia|].
  intros [|i] Hi.
  - apply String.eqb_eq in Ec, Ei. cbn [Nat.add] in Ei. rewrite Nat.mul_0_r, Nat.add_0_r.
    split; [exact Ec|]. etransitivity; [|exact Ei]. do 2 f_equal; lia.
  - destruct (Hk i ltac:(lia)) as [A B]. rewrite (tokens_0 _ _ _ M3) in A; rewrite (tokens_0 _ _ _ M3) in B.
    split; [etransitivity; [|exact A] | etransitivity; [|exact B]]; do 2 f_equal; lia.
Qed.

(** The answer, and that a bar with no capture behind it is none. *)
Lemma yields_captureAhead p :
  valid (lex p) -> exists b, yields captureAhead p b 0 /\
    ((tokType (tokens p 1) = Pipe -> tokType (tokens p 2) = Ident -> quiet (fun i => tokens p (3 + i))) -> b = false).
Proof.
  intros Hv. pose proof (runs_captureAhead p Hv) as R. unfold yields, captureAhead in *. unfold bind at 1, get in R.
  unfold bind at 1, get. destruct (tokIs (peek p) Pipe) eqn:Ep; cbn [negb] in *; [|exists false; split; [apply yields_ret | auto]].
  destruct (yields_peekAt 1 p ltac:(lia)) as (q1 & H1 & M1). unfold bind at 1. unfold bind at 1 in R. rewrite H1 in *.
  destruct (tokIs (tokens p 2) Ident) eqn:Ei; cbn [negb] in *; [|exists false; split; [exists q1; split; [reflexivity | exact M1] | auto]].
  apply String.eqb_eq in Ep, Ei. unfold bind at 1. unfold bind at 1 in R.
  pose proof (captureEnd_tokens (1 + following p) 2 q1 ltac:(lia)) as C.
  destruct (captureEnd (1 + following p) 2 q1) as [n q2 | q2 |]; [|contradiction | contradiction].
  destruct C as (M2 & k & -> & Hk). pose proof (moved_0 _ _ _ _ M1 M2) as M3.
  destruct (yields_peekAt (2 + 2 * k) q2 ltac:(lia)) as (q3 & H3 & M4). unfold bind at 1. rewrite H3.
  pose proof (moved_0 _ _ _ _ M3 M4) as M5. rewrite (tokens_0 _ _ _ M3).
  destruct (tokIs (tokens p (S (2 + 2 * k))) Pipe) eqn:Eb; cbn [negb];
    [|exists false; split; [exists q3; split; [reflexivity | exact M5] | auto]].
  destruct (yields_peekAt (2 + 2 * k + 1) q3 ltac:(lia)) as (q4 & H4 & M6). unfold bind at 1. rewrite H4.
  rewrite (tokens_0 _ _ _ M5). eexists. split; [exists q4; split; [reflexivity | exact (moved_0 _ _ _ _ M5 M6)]|].
  intros Hquiet. specialize (Hquiet Ep Ei). apply String.eqb_neq. apply String.eqb_eq in Eb.
  replace (S (2 + 2 * k + 1)) with (3 + (2 * k + 1)) by lia. apply (Hquiet k).
  - intros i Hi. destruct (Hk i Hi) as [A B]. rewrite (tokens_0 _ _ _ M1) in A. rewrite (tokens_0 _ _ _ M1) in B.
    split; [etransitivity; [|exact A] | etransitivity; [|exact B]]; do 2 f_equal; lia.
  - etransitivity; [|exact Eb]. do 2 f_equal.
Qed.
End Streams.
