(* ===== verification/GrammarFacts.v ===== *)
(** * Facts about derivations

    How a derivation starts, that it never looks like the capture of a payload,
    and that its tokens are tokens of the source. *)

From stdpp Require Import base list strings.
From Stdlib Require Import ZArith Lia String Ascii.
From S2P Require Import Prelude GoStd Typ Token Literals Ast ParserState ParserType ParserExpr ParserStmt ParserFacts ParserExprFacts.
From S2P Require Import ParserStmtFacts Grammar.

#[local] Open Scope string_scope.
#[local] Open Scope list_scope.

(** The cases of a membership in a list that is written out. *)
Ltac cases H := repeat (apply elem_of_cons in H as [H|H]); [.. | apply elem_of_nil in H; contradiction].

(** A membership of constants. *)
Lemma listed (x : TokenType) l : existsb (String.eqb x) l = true -> x ∈ l.
Proof. intros (y & Hy & E)%existsb_exists. apply String.eqb_eq in E as ->. apply list_elem_of_In. exact Hy. Qed.

Ltac member := apply listed; reflexivity.

(** The tokens an expression starts with. *)
Definition firsts : list TokenType :=
  [Ident; Int; Float; String_; True_; False_; Null; LParen; Bang; Minus; Tilde; Amp; Try; Move; Unsafe].

(** Tokens that are at the head of a row. *)
Definition spells (s : nat -> Token) (ts : list Token) : Prop := forall i t, ts !! i = Some t -> s i = t.

(** A row from a place on. *)
Definition from (n : nat) (s : nat -> Token) : nat -> Token := fun i => s (n + i).

Section Spelling.
Implicit Types (s : nat -> Token) (ts : list Token).

Lemma spells_cons s t ts : spells s (t :: ts) -> s 0 = t /\ spells (from 1 s) ts.
Proof. intros H. split; [apply H; reflexivity | intros i u Hu; apply (H (S i)), Hu]. Qed.

Lemma spells_app s ts us : spells s (ts ++ us) -> spells s ts /\ spells (from (List.length ts) s) us.
Proof.
  intros H. split.
  - intros i t Ht. apply H. rewrite lookup_app_l by (apply lookup_lt_Some in Ht; exact Ht). exact Ht.
  - intros i t Ht. apply H. rewrite lookup_app_r by lia. replace (_ + i - _) with i by lia. exact Ht.
Qed.

Lemma spells_ext s s' ts : (forall i, s i = s' i) -> spells s ts -> spells s' ts.
Proof. intros E H i t Ht. rewrite <- E. apply H, Ht. Qed.

Lemma quiet_ext s s' : (forall i, s i = s' i) -> quiet s -> quiet s'.
Proof. intros E H k Hk. rewrite <- !E. apply H. intros i Hi. rewrite !E. apply Hk, Hi. Qed.

(** A row that starts with neither a comma nor a bar, or with a bar before an operand. *)
Lemma quiet_head s : tokType (s 0) <> Comma -> (tokType (s 0) = Pipe -> tokType (s 1) <> LBrace) -> quiet s.
Proof. intros Hc Hp [|k] Hk; [apply Hp | destruct (Hk 0 ltac:(lia)); contradiction]. Qed.

Lemma quiet_comma s : tokType (s 0) = Comma -> (tokType (s 1) = Ident -> quiet (from 2 s)) -> quiet s.
Proof.
  intros Hc Hq [|k] Hk; [intros E; discriminate (eq_trans (eq_sym Hc) E)|]. destruct (Hk 0 ltac:(lia)) as [_ Hi]. specialize (Hq Hi k).
  unfold from in Hq. replace (2 + 2 * k) with (2 * S k) in Hq by lia. replace (2 + (2 * k + 1)) with (2 * S k + 1) in Hq by lia.
  apply Hq. intros i Hik. destruct (Hk (S i) ltac:(lia)) as [A B].
  replace (2 + 2 * i) with (2 * S i) by lia. replace (2 + (2 * i + 1)) with (2 * S i + 1) by lia. auto.
Qed.
End Spelling.

Lemma pair_type a b : pair a b = true -> tokType b = tokType a.
Proof. unfold pair. rewrite !andb_true_iff. intros [[[_ H] _] _]. apply String.eqb_eq, H. Qed.

Section Derivations.
Context {text : string}.

Lemma derives_level level ts e : derives text level ts e -> lowest < level.
Proof.
  destruct 1 as [| | | | | | | | | | | | | |??????? Hop| | | | | | |]; try (vm_compute; lia).
  cases Hop; rewrite Hop; vm_compute; lia.
Qed.

(** The first token. *)
Definition headed (ts : list Token) : Prop := exists t rest, ts = t :: rest /\ tokType t ∈ firsts.

Lemma headed_app ts us : headed ts -> headed (ts ++ us).
Proof. intros (t & rest & -> & H). exists t, (rest ++ us). auto. Qed.

Lemma headed_here t ts : tokType t ∈ firsts -> headed (t :: ts).
Proof. intros H. exists t, ts. auto. Qed.

Lemma derives_headed level ts e : derives text level ts e -> headed ts.
Proof.
  induction 1; try (apply headed_app; assumption).
  all: try (apply headed_here; match goal with H : tokType _ = _ |- _ => rewrite H end; member).
  match goal with H : tokType _ ∈ _ |- _ => cases H; apply headed_here; rewrite H; member end.
Qed.

(** What a row with an expression at its head starts with. *)
Lemma headed_at s ts : headed ts -> spells s ts -> tokType (s 0) ∈ firsts.
Proof. intros (t & rest & -> & Ht) Hs. rewrite (Hs 0 t eq_refl). exact Ht. Qed.

Lemma firsts_not x y : x ∈ firsts -> existsb (String.eqb y) firsts = false -> x <> y.
Proof.
  intros H E ->. assert (X : existsb (String.eqb y) firsts = true); [|congruence].
  apply existsb_exists. exists y. split; [apply list_elem_of_In, H | apply String.eqb_refl].
Qed.

(** Every token is one of the source. *)
Definition live (ts : list Token) : Prop := Forall (fun t => tokType t <> EOF_) ts.

Lemma derives_live :
  (forall level ts e, derives text level ts e -> live ts) /\ (forall ts es, derivesArgs text ts es -> live ts).
Proof.
  apply derives_both; intros; unfold live in *; rewrite ?Forall_app, ?Forall_cons, ?Forall_app, ?Forall_cons, ?Forall_app, ?Forall_cons;
    repeat split; try assumption; try constructor.
  all: try match goal with H : tokType ?t = _ |- tokType ?t <> _ => rewrite H; discriminate end.
  all: try match goal with H : tokType ?t ∈ _ |- tokType ?t <> _ => cases H; rewrite H; discriminate end.
  rewrite (pair_type a b) by assumption. match goal with H : tokType a = _ |- _ => rewrite H; discriminate end.
Qed.

(** ** What follows a leading name *)

(** Behind a name no comma comes, and behind a name and a bar an operand. *)
Definition secondOk (ts : list Token) : Prop :=
  match ts with
  | [] => False
  | [_] => True
  | t :: u :: rest =>
      tokType t = Ident ->
      tokType u <> Comma /\ (tokType u = Pipe -> exists v rest', rest = v :: rest' /\ tokType v <> LBrace)
  end.

Lemma headed_not_brace t rest : headed (t :: rest) -> tokType t <> LBrace.
Proof. intros (u & r & E & H). injection E as -> ->. cases H; rewrite H; discriminate. Qed.

Lemma second_app ts u us :
  secondOk ts -> tokType u <> Comma -> (tokType u = Pipe -> exists v us', us = v :: us' /\ tokType v <> LBrace) ->
  secondOk (ts ++ u :: us).
Proof.
  destruct ts as [|t [|t1 rest]]; cbn [secondOk app]; [contradiction | auto |]. intros H _ _ Ht. destruct (H Ht) as [H1 H2].
  split; [exact H1|]. intros E. destruct (H2 E) as (v & rest' & -> & Hv). exists v, (rest' ++ u :: us). auto.
Qed.

Lemma second_head t ts : tokType t <> Ident -> secondOk (t :: ts).
Proof. destruct ts; cbn [secondOk]; [auto | contradiction]. Qed.

Lemma derives_second level ts e : derives text level ts e -> secondOk ts.
Proof.
  induction 1; try exact I.
  all: try (apply second_head; match goal with H : tokType ?t = _ |- tokType ?t <> _ => rewrite H; discriminate end).
  all: try (apply second_app; [assumption | match goal with H : tokType ?t = _ |- tokType ?t <> _ => rewrite H; discriminate end |
    match goal with H : tokType ?t = _ |- tokType ?t = _ -> _ => rewrite H; discriminate end]).
  - apply second_head. match goal with H : tokType _ ∈ _ |- _ => cases H; rewrite H; discriminate end.
  - apply second_app; [assumption | match goal with H : tokType _ ∈ _ |- _ => cases H; rewrite H; discriminate end |].
    intros _. destruct (derives_headed _ _ _ H2) as (v & rest & -> & Hv). exists v, rest.
    split; [reflexivity|]. apply (headed_not_brace v rest). exists v, rest. auto.
  - apply second_app; [assumption | cases H; rewrite H; discriminate | cases H; rewrite H; discriminate].
Qed.

(** A name with an expression behind it is not taken for the names of a capture. *)
Lemma derives_quiet level ts e s :
  derives text level ts e -> spells s ts -> quiet (from (List.length ts) s) -> tokType (s 0) = Ident -> quiet (from 1 s).
Proof.
  intros D Hs Hq Hi. pose proof (derives_second _ _ _ D) as H. destruct ts as [|t [|u rest]]; cbn [secondOk] in H;
    [contradiction | exact Hq|].
  assert (Ht : s 0 = t) by (apply Hs; reflexivity). assert (Hu : s 1 = u) by (apply Hs; reflexivity).
  rewrite Ht in Hi. destruct (H Hi) as [H1 H2]. apply quiet_head; unfold from; cbn [Nat.add]; rewrite Hu; [exact H1|].
  intros E. destruct (H2 E) as (v & rest' & -> & Hv). rewrite (Hs 2 v) by reflexivity. exact Hv.
Qed.

Lemma args_quiet ts es s :
  derivesArgs text ts es -> spells s ts -> quiet (from (List.length ts) s) -> tokType (s 0) = Ident -> quiet (from 1 s).
Proof.
  intros D. revert s. induction D as [level ts e D | level ts e comma rest es Hc D _ IH]; intros s Hs Hq Hi.
  - eapply derives_quiet; eassumption.
  - apply spells_app in Hs as [Hts Hrest]. eapply derives_quiet; [exact D | exact Hts | | exact Hi].
    apply spells_cons in Hrest as [H0 Hrest]. apply quiet_comma; [rewrite H0; exact Hc|]. intros Hi'.
    apply (IH _ Hrest); [|exact Hi']. eapply quiet_ext; [|exact Hq]. intros i. unfold from. rewrite length_app. cbn [List.length].
    f_equal. lia.
Qed.
End Derivations.

(** * The parser reads what the grammar derives

    Each form of the grammar is read by the function of the parser that is meant
    to read it.  An expression is read in two parts, the prefix form and the
    loop over what follows, so [leads] says where the loop stands with the
    expression in hand, whatever it does from there. *)

(** How tightly the operator at the head of a row binds. *)
Definition power (s : nat -> Token) : nat := if pair (s 0) (s 1) then shift else precedenceOf (tokType (s 0)).

(** What may stand behind an expression of a level. *)
Record follows (level : nat) (s : nat -> Token) : Prop := mkFollows {
  fo_brace : tokType (s 0) <> LBrace;
  fo_less : tokType (s 0) <> LT_;
  fo_power : power s <= level;
  fo_quiet : quiet s
}.

Lemma follows_mono l l' s : follows l s -> l <= l' -> follows l' s.
Proof. intros [] ?. split; auto. lia. Qed.

Lemma follows_ext l s s' : (forall i, s i = s' i) -> follows l s -> follows l s'.
Proof.
  intros E [B L P Q]. split; rewrite <- ?E; auto; [unfold power in *; rewrite <- !E; exact P | eapply quiet_ext; eassumption].
Qed.

(** The same as the language has it: the operator at the head of what stands
    behind an expression binds no more tightly than [level]. *)
Definition operatorLevel (s : nat -> Token) : nat :=
  if pair (s 0) (s 1) then shiftLevel
  else if existsb (String.eqb (tokType (s 0))) [LParen; LBracket; Dot; DoubleColon] then postfixLevel
  else levelOf (tokType (s 0)).

Record mayFollow (level : nat) (s : nat -> Token) : Prop := mkMayFollow {
  mf_brace : tokType (s 0) <> LBrace;
  mf_less : tokType (s 0) <> LT_;
  mf_level : operatorLevel s <= level;
  mf_quiet : quiet s
}.

(** The parser's table has the levels of the language. *)
Lemma levelOf_precedenceOf ty :
  levelOf ty = if existsb (String.eqb ty) [LParen; LBracket; Dot; DoubleColon] then 1 else precedenceOf ty.
Proof.
  unfold levelOf, operatorRows, precedenceOf, precedences, levelFrom, existsb, List.find. cbn [fst snd].
  repeat match goal with
    | |- context [String.eqb ty ?x] => destruct (String.eqb_spec ty x) as [->|?]; [vm_compute; reflexivity|]
    | |- context [String.eqb ?x ty] => rewrite (proj2 (String.eqb_neq x ty)) by congruence
    end.
  reflexivity.
Qed.

Lemma level_precedence ty : ty ∈ binaryOperators -> levelOf ty = precedenceOf ty.
Proof. intros H. rewrite levelOf_precedenceOf. cases H; rewrite H; reflexivity. Qed.

Lemma mayFollow_follows level s : level <= prefixLevel -> mayFollow level s -> follows level s.
Proof.
  intros Hl [B L P Q]. split; [exact B | exact L | | exact Q]. unfold operatorLevel, power in *.
  destruct (pair (s 0) (s 1)); [exact P|]. rewrite levelOf_precedenceOf in P.
  destruct (existsb _ _); [unfold postfixLevel, prefixLevel in *; lia | exact P].
Qed.

(** A closing token ends every expression. *)
Definition closers : list TokenType := [RParen; RBracket; Comma; Range; Semicolon; RBrace; Assign; EOF_].

Lemma follows_closer level s :
  lowest <= level -> tokType (s 0) ∈ closers -> (tokType (s 0) = Comma -> quiet s) -> follows level s.
Proof.
  intros Hl Hc Hq. assert (Hp : power s = lowest).
  { unfold power, pair, tokIs. cases Hc; rewrite Hc; reflexivity. }
  split; try (cases Hc; rewrite Hc; discriminate); [lia|].
  destruct (decide (tokType (s 0) = Comma)) as [E|E]; [auto|]. apply quiet_head; [exact E|]. intros Hb.
  rewrite Hb in Hc. cases Hc; discriminate.
Qed.

Lemma mayFollow_closer level s :
  lowest <= level -> tokType (s 0) ∈ closers -> (tokType (s 0) = Comma -> quiet s) -> mayFollow level s.
Proof.
  intros Hl Hc Hq. destruct (follows_closer level s Hl Hc Hq) as [B L _ Q]. split; try assumption.
  assert (Hp : operatorLevel s = 1); [|unfold lowest in Hl; lia].
  unfold operatorLevel, pair, tokIs. cases Hc; rewrite Hc; reflexivity.
Qed.

Lemma tokIs_type t ty x : tokType t = ty -> tokIs t x = String.eqb ty x.
Proof. intros <-. reflexivity. Qed.

(** Evaluate comparisons of token types. *)
Ltac known := repeat match goal with
  | |- context [String.eqb ?a ?b] =>
      let v := eval vm_compute in (String.eqb a b) in
      lazymatch v with true => change (String.eqb a b) with true | false => change (String.eqb a b) with false end
  end.

(** The tests on a token whose type is known. *)
Ltac test H := unfold oneOf; cbn [existsb]; rewrite ?(tokIs_type _ _ _ H); known; cbn [negb andb orb].

Section Reads.
Context {Src : Type} {source : TokenSource Src}.

(** ** Loops *)

Lemma rounds_more {A B} (body : A -> M Src (A + B)) fuel more a p :
  rounds fuel body a p <> OutOfBound -> fuel <= more -> rounds more body a p = rounds fuel body a p.
Proof.
  revert more a p. induction fuel as [|fuel IH]; intros more a p H Hle; [contradiction H; reflexivity|].
  destruct more as [|more]; [lia|]. cbn [rounds] in *. unfold bind in *. destruct (body a p) as [[a'|b] q | q |]; auto.
  apply IH; [exact H | lia].
Qed.

Lemma loop_end {A B} (body : A -> M Src (A + B)) a p b q : body a p = Done (inr b) q -> loop body a p = Done b q.
Proof. intros H. unfold loop. cbn [rounds Nat.add]. unfold bind. rewrite H. reflexivity. Qed.

Lemma loop_continue {A B} (body : A -> M Src (A + B)) a p a' q k :
  valid (lex p) -> body a p = Done (inl a') q -> moved (S k) p q -> loop body a' q <> OutOfBound ->
  loop body a p = loop body a' q.
Proof.
  intros Hv H Hq Hr. unfold loop in *. pose proof (mv_following _ _ _ Hq Hv) as Hf. pose proof (weight_bound (cur q)).
  rewrite <- (rounds_more body _ (here p + 2 * following p) a' q Hr) by (unfold here in *; lia).
  cbn [rounds Nat.add]. unfold bind. rewrite H. reflexivity.
Qed.

(** ** The operator at peek *)

Lemma yields_peekPrecedence p :
  valid (lex p) -> exists v, yields peekPrecedence p v 0 /\ v <= power (from 1 (tokens p)) /\
    ((tokType (tokens p 1) = Pipe -> tokType (tokens p 2) = Ident -> quiet (from 3 (tokens p))) -> v = power (from 1 (tokens p))).
Proof.
  intros Hv. unfold peekPrecedence, power, from. cbn [Nat.add]. destruct (yields_shiftPair p) as (q & Hq & Mq).
  destruct (pair (tokens p 1) (tokens p 2)) eqn:Ep.
  - exists shift. split; [|auto]. exists q. unfold bind. rewrite Hq. auto.
  - pose proof (mv_valid _ _ _ Mq Hv) as Hvq. destruct (yields_captureAhead q Hvq) as (b & (r & Hr & Mr) & Hb).
    pose proof (moved_0 _ _ _ _ Mq Mr) as M. exists (if b then lowest else precedenceOf (tokType (tokens p 1))). split; [|split].
    + exists r. unfold bind. rewrite Hq, Hr. split; [|exact M]. destruct b; [reflexivity|]. unfold get, ret.
      rewrite (moved_peek _ _ _ M). reflexivity.
    + destruct b; [|lia]. unfold precedenceOf. destruct (List.find _ _) as [e|] eqn:E; [|lia]. apply find_some in E as [E _].
      cbn in E. intuition (subst; vm_compute; lia).
    + intros Hquiet. rewrite Hb; [reflexivity|]. rewrite !(tokens_0 _ _ _ Mq). intros H1 H2. specialize (Hquiet H1 H2).
      eapply quiet_ext; [|exact Hquiet]. intros i. symmetry. apply (tokens_0 _ _ _ Mq).
Qed.

(** The loop takes the operator at peek. *)
Lemma yields_takes prec l p :
  valid (lex p) -> tokType (tokens p 1) <> Semicolon -> prec < power (from 1 (tokens p)) ->
  (tokType (tokens p 1) = Pipe -> tokType (tokens p 2) = Ident -> quiet (from 3 (tokens p))) ->
  yields (continuesExpression prec l) p true 0.
Proof.
  intros Hv Hs Hp Hq. unfold continuesExpression. apply yields_get. change (peek p) with (tokens p 1).
  rewrite (proj2 (String.eqb_neq _ _) Hs : tokIs _ _ = false). destruct (yields_peekPrecedence p Hv) as (v & Hy & _ & Hpower).
  apply (yields_bind _ _ _ _ _ 0 0 Hy). intros q _. rewrite (Hpower Hq). rewrite (proj2 (Nat.ltb_lt _ _) Hp). apply yields_ret.
Qed.

(** The loop stops at a token that may follow. *)
Lemma yields_stops prec l p :
  valid (lex p) -> follows prec (from 1 (tokens p)) -> yields (continuesExpression prec l) p false 0.
Proof.
  intros Hv [_ Hl Hp _]. unfold continuesExpression. apply yields_get. destruct (tokIs (peek p) Semicolon); [apply yields_ret|].
  destruct (yields_peekPrecedence p Hv) as (v & Hy & Hle & _).
  apply (yields_bind _ _ _ _ _ 0 0 Hy). intros q Mq. rewrite (proj2 (Nat.ltb_ge _ _)) by lia. apply yields_get.
  rewrite (moved_peek _ _ _ Mq). rewrite (proj2 (String.eqb_neq _ _) Hl : tokIs (tokens p 1) LT_ = false). apply yields_ret.
Qed.

(** ** Expressions *)

Definition leads (rec : Calls Src) (prec : nat) (p : PState Src) (e : Expr) (k : nat) : Prop :=
  exists q, moved k p q /\ forall r, r <> OutOfBound -> parseInfixes rec prec e q = r ->
    bind (parsePrefixExpression rec) (parseInfixes rec prec) p = r.

Lemma leads_prefix rec prec p e k : yields (parsePrefixExpression rec) p e k -> leads rec prec p e k.
Proof. intros (q & H & M). exists q. split; [exact M|]. intros r _ <-. unfold bind. rewrite H. reflexivity. Qed.

Lemma leads_infix rec prec p l e j k :
  valid (lex p) -> leads rec prec p l j ->
  (forall q, moved j p q -> yields (continuesExpression prec l) q true 0) ->
  (forall q, moved j p q -> yields (parseInfix rec l) q (e, true) (S k)) ->
  leads rec prec p e (j + S k).
Proof.
  intros Hv (q & M & H) Hgo Hin. destruct (Hgo q M) as (q1 & E1 & M1). pose proof (moved_trans _ 0 _ _ _ M M1) as M2.
  rewrite Nat.add_0_r in M2. destruct (Hin q1 M2) as (q2 & E2 & M3). exists q2. split; [eapply moved_trans; eassumption|].
  intros r Hr Hq2. apply H; [exact Hr|]. rewrite <- Hq2. unfold parseInfixes in *.
  apply (loop_continue _ l q e q2 k).
  - apply (mv_valid _ _ _ M Hv).
  - unfold bind. rewrite E1. cbn [negb]. rewrite E2. reflexivity.
  - apply (moved_0 _ _ _ _ M1 M3).
  - rewrite Hq2. exact Hr.
Qed.

(** The expression is read to its end when what follows may follow. *)
Lemma leads_done rec prec p e k :
  valid (lex p) -> leads rec prec p e k -> follows prec (from (S k) (tokens p)) -> yields (parseExpression rec prec) p e k.
Proof.
  intros Hv (q & M & H) Hf. assert (Hfq : follows prec (from 1 (tokens q))).
  { eapply follows_ext; [|exact Hf]. intros i. unfold from. rewrite (mv_tokens _ _ _ M). f_equal. lia. }
  destruct (yields_stops prec e q (mv_valid _ _ _ M Hv) Hfq) as (q1 & E1 & M1).
  assert (E2 : parseInfixes rec prec e q = Done (e, true) q1).
  { apply loop_end. unfold bind. rewrite E1. reflexivity. }
  specialize (H (Done (e, true) q1) ltac:(discriminate) E2). pose proof (moved_trans _ 0 _ _ _ M M1) as M2. rewrite Nat.add_0_r in M2.
  exists q1. split; [|exact M2]. unfold parseExpression, bind in *. destruct (parsePrefixExpression rec p) as [l q' | |] in H |- *; [|discriminate H..].
  rewrite H. cbn [negb]. unfold get. rewrite (moved_peek _ _ _ M1).
  rewrite (proj2 (String.eqb_neq _ _) (fo_brace _ _ Hfq) : tokIs (tokens q 1) LBrace = false).
  reflexivity.
Qed.

(** ** Reading in steps *)

(** [m], begun [k] tokens behind [p], ends [n] tokens behind [p]. *)
Definition goes {A} (p : PState Src) (k : nat) (m : M Src A) (a : A) (n : nat) : Prop :=
  forall q, moved k p q -> exists r, m q = Done a r /\ moved n p r.

Lemma goes_yields {A} p (m : M Src A) a n : goes p 0 m a n -> yields m p a n.
Proof. intros H. apply H, moved_refl. Qed.

Lemma goes_step {A} p k (m : M Src A) a j : (forall q, moved k p q -> yields m q a j) -> goes p k m a (k + j).
Proof. intros H q M. destruct (H q M) as (r & E & Mr). exists r. split; [exact E | eapply moved_trans; eassumption]. Qed.

Lemma goes_ret {A} p k (a : A) : goes p k (ret a) a k.
Proof. intros q M. exists q. auto. Qed.

Lemma goes_bind {A B} p k (m : M Src A) (f : A -> M Src B) a b i n :
  goes p k m a i -> goes p i (f a) b n -> goes p k (bind m f) b n.
Proof. intros Hm Hf q M. destruct (Hm q M) as (r & E & Mr). unfold bind. rewrite E. apply Hf, Mr. Qed.

Lemma goes_get {B} p k (f : PState Src -> M Src B) b n :
  (forall q, moved k p q -> cur q = tokens p k -> peek q = tokens p (S k) -> safety q = safety p -> goes p k (f q) b n) ->
  goes p k (bind get f) b n.
Proof.
  intros H q M. apply (H q M); [apply (moved_cur _ _ _ M) | apply (moved_peek _ _ _ M) | apply (mv_safety _ _ _ M) | exact M].
Qed.

Lemma goes_nextToken p k : tokType (tokens p (S k)) <> EOF_ -> goes p k nextToken () (S k).
Proof.
  intros H. rewrite <- (Nat.add_1_r k). apply goes_step. intros q M. apply yields_nextToken.
  rewrite (mv_tokens _ _ _ M), Nat.add_1_r. exact H.
Qed.

Lemma goes_expectPeek p k ty : tokType (tokens p (S k)) = ty -> ty <> EOF_ -> goes p k (expectPeek ty) true (S k).
Proof.
  intros H Hne. unfold expectPeek. apply goes_get. intros q M _ -> _. rewrite (tokIs_type _ _ _ H), String.eqb_refl.
  eapply goes_bind; [apply goes_nextToken; congruence | apply goes_ret].
Qed.

(** ** Operands *)

(** What a call of the parser needs of the state. *)
Record ready (text : string) (depth : nat) (p : PState Src) : Prop := mkReady {
  rd_fits : fits depth 1 p;
  rd_valid : valid (lex p);
  rd_safety : safety p = text
}.

Lemma ready_moved text depth k p q : ready text depth p -> moved k p q -> ready text depth q.
Proof.
  intros [F V S] M. pose proof (mv_following _ _ _ M V) as H. pose proof (weight_bound (cur q)). split.
  - destruct k as [|k]; unfold fits, here in *; [|lia]. rewrite (moved_cur _ _ _ M). cbn [tokens]. lia.
  - apply (mv_valid _ _ _ M V).
  - rewrite (mv_safety _ _ _ M). exact S.
Qed.

(** A level at which the loop of a precedence takes every operator. *)
Definition admits (prec level : nat) : Prop := (prec < level \/ prefix_ <= level) /\ prec <= prefix_.

Definition reads (text : string) (level : nat) (ts : list Token) (e : Expr) : Prop :=
  forall depth prec p, ready text depth p -> admits prec level -> spells (tokens p) ts ->
    follows level (from (List.length ts) (tokens p)) -> leads (parser depth) prec p e (List.length ts - 1).

Lemma from_from j k s i : from j (from k s) i = from (k + j) s i.
Proof. unfold from. f_equal. lia. Qed.

Lemma moved_from k p q n i : moved k p q -> from n (tokens q) i = from (k + n) (tokens p) i.
Proof. intros M. unfold from. rewrite (mv_tokens _ _ _ M). f_equal. lia. Qed.

(** An operand, begun behind the first token. *)
Lemma goes_operand text depth prec p k level ts e :
  reads text level ts e -> ready text depth p -> admits prec level -> headed ts ->
  spells (from (S k) (tokens p)) ts -> follows prec (from (S k + List.length ts) (tokens p)) ->
  goes p (S k) (callExpression (parser depth) prec) e (k + List.length ts).
Proof.
  intros Hr [F V T] [Ha Hprec] (t & rest & -> & _) Hs Hf. cbn [List.length] in *.
  replace (k + S (List.length rest)) with (S k + List.length rest) by lia.
  apply goes_step. intros q M. pose proof (mv_following _ _ _ M V) as Hfol. pose proof (weight_bound (cur q)).
  destruct depth as [|depth]; [unfold fits in F; lia|]. cbn [parser callExpression].
  assert (Rq : ready text depth q).
  { split; [unfold fits, here in *; lia | apply (mv_valid _ _ _ M V) | rewrite (mv_safety _ _ _ M); exact T]. }
  apply leads_done; [apply (rd_valid _ _ _ Rq) | |].
  - replace (List.length rest) with (List.length (t :: rest) - 1) by (cbn; lia). apply Hr; [exact Rq | split; assumption | |].
    + eapply spells_ext; [|exact Hs]. intros i. symmetry. apply (mv_tokens _ _ _ M).
    + apply (follows_mono prec); [|destruct Ha; lia]. eapply follows_ext; [|exact Hf]. intros i. symmetry. apply (moved_from _ _ _ _ _ M).
  - eapply follows_ext; [|exact Hf]. intros i. symmetry. apply (moved_from _ _ _ _ _ M).
Qed.
End Reads.

(** * Every form of the grammar is read *)

Section Forms.
Context {Src : Type} {source : TokenSource Src} (text : string).
Implicit Types (p q : PState Src) (ts : list Token).

(** ** Prefix forms *)

Lemma reads_prefix level ts e :
  (forall depth p, ready text depth p -> spells (tokens p) ts -> follows level (from (List.length ts) (tokens p)) ->
    goes p 0 (parsePrefixExpression (parser depth)) e (List.length ts - 1)) -> reads text level ts e.
Proof. intros H depth prec p Hr _ Hs Hf. apply leads_prefix, goes_yields, H; assumption. Qed.

(** A form of one token. *)
Lemma reads_token level t e :
  (forall depth p, tokens p 0 = t -> follows level (from 1 (tokens p)) -> goes p 0 (parsePrefixExpression (parser depth)) e 0) ->
  reads text level [t] e.
Proof. intros H. apply reads_prefix. intros depth p _ [Ht _]%spells_cons Hf. apply H; assumption. Qed.

Lemma reads_name t : tokType t = Ident -> reads text field [t] (IdentExpr (literal t) (tokenSpan t)).
Proof.
  intros Ht. apply reads_token. intros depth p H0 [Hb Hl _ _]. apply goes_get. intros q _ -> _ _. rewrite H0. test Ht.
  unfold parseIdentPrefixExpression. apply goes_get. intros r _ -> -> _. rewrite H0.
  rewrite (proj2 (String.eqb_neq _ _) Hb : tokIs (tokens p 1) LBrace = false).
  rewrite (proj2 (String.eqb_neq _ _) Hl : tokIs (tokens p 1) LT_ = false). rewrite !andb_false_r. apply goes_ret.
Qed.

Lemma reads_int t v : tokType t = Int -> integerLiteralValue (literal t) = Some v -> reads text field [t] (IntExpr (FormatInt v)).
Proof.
  intros Ht Hv. apply reads_token. intros depth p H0 _. apply goes_get. intros q _ -> _ _. rewrite H0. test Ht.
  unfold parseIntLiteral. apply goes_get. intros r _ -> _ _. rewrite H0, Hv. apply goes_ret.
Qed.

Lemma reads_float t :
  tokType t = Float -> ParseFloatLiteral (CleanFloatLiteral (literal t)) = true ->
  reads text field [t] (FloatExpr (CleanFloatLiteral (literal t))).
Proof.
  intros Ht Hv. apply reads_token. intros depth p H0 _. apply goes_get. intros q _ -> _ _. rewrite H0. test Ht.
  unfold parseFloatLiteral. apply goes_get. intros r _ -> _ _. rewrite H0, Hv. apply goes_ret.
Qed.

Lemma reads_literal t e :
  (tokType t = String_ /\ e = StringExpr (literal t)) \/ (tokType t = True_ /\ e = BoolExpr true) \/
  (tokType t = False_ /\ e = BoolExpr false) \/ (tokType t = Null /\ e = NullExpr (tokenSpan t)) ->
  reads text field [t] e.
Proof.
  intros Hc. apply reads_token. intros depth p H0 _. apply goes_get. intros q _ -> _ _. rewrite H0.
  destruct Hc as [[Ht ->]|[[Ht ->]|[[Ht ->]|[Ht ->]]]]; test Ht; unfold parseKeywordLiteralExpression; test Ht; apply goes_ret.
Qed.

Lemma admits_lowest level : lowest < level -> admits lowest level.
Proof. intros H. split; [auto | vm_compute; lia]. Qed.

Lemma admits_prefix level : prefix_ <= level -> admits prefix_ level.
Proof. intros H. split; [auto | lia]. Qed.

Lemma reads_paren level open ts e close :
  tokType open = LParen -> tokType close = RParen -> lowest < level -> headed ts -> reads text level ts e ->
  reads text field (open :: ts ++ [close]) e.
Proof.
  intros Ho Hc Hl Hh Hr. apply reads_prefix. intros depth p Rp [H0 [Hts Hrest]%spells_app]%spells_cons _.
  apply goes_get. intros q _ -> _ _. rewrite H0. test Ho.
  assert (Hlive : tokType (tokens p 1) <> EOF_) by (apply (firsts_not _ _ (headed_at _ _ Hh Hts)); reflexivity).
  assert (Hclose : tokType (tokens p (S (List.length ts))) = RParen).
  { rewrite <- Hc. f_equal. apply spells_cons in Hrest as [H _]. unfold from in H. cbn [Nat.add] in H. rewrite Nat.add_0_r in H. exact H. }
  cbn [List.length]. rewrite length_app. cbn [List.length].
  replace (S (List.length ts + 1) - 1) with (S (List.length ts)) by lia.
  eapply goes_bind; [apply goes_nextToken, Hlive|].
  eapply goes_bind; [apply (goes_operand text depth lowest p 0 level ts e); auto using admits_lowest|].
  - apply follows_closer; [reflexivity | |]; unfold from; rewrite ?Nat.add_0_r; cbn [Nat.add]; rewrite Hclose; [member | discriminate].
  - eapply goes_bind; [apply goes_expectPeek; [exact Hclose | discriminate] | apply goes_ret].
Qed.
(** An operator and the operand behind it. *)
Lemma goes_prefixed {B} level k ts e depth p (f : Expr -> M Src B) b :
  ready text depth p -> prefix_ <= level -> headed ts -> reads text level ts e ->
  spells (from (S k) (tokens p)) ts -> follows prefix_ (from (S k + List.length ts) (tokens p)) ->
  goes p (k + List.length ts) (f e) b (k + List.length ts) ->
  goes p k (do! nextToken in let! x := callExpression (parser depth) prefix_ in f x) b (k + List.length ts).
Proof.
  intros Rp Hl Hh Hr Hs Hf Hk. eapply goes_bind; [apply goes_nextToken|].
  - pose proof (headed_at _ _ Hh Hs) as H. unfold from in H. rewrite Nat.add_0_r in H. apply (firsts_not _ _ H). reflexivity.
  - eapply goes_bind; [|exact Hk]. eapply goes_operand; eauto using admits_prefix.
Qed.

Lemma reads_operator level op ts e :
  tokType op ∈ [Bang; Minus; Tilde] -> prefix_ <= level -> headed ts -> reads text level ts e ->
  reads text prefix_ (op :: ts) (PrefixExpr (literal op) e).
Proof.
  intros Ho Hl Hh Hr. apply reads_prefix. intros depth p Rp [H0 Hts]%spells_cons Hf. cbn [List.length] in *.
  rewrite Nat.sub_succ, Nat.sub_0_r. apply goes_get. intros q _ -> _ _. rewrite H0. unfold parseMarkerExpression.
  cases Ho; test Ho; apply (goes_prefixed level 0 ts e depth p (fun x => ret (PrefixExpr (literal op) x))); auto; apply goes_ret.
Qed.

Lemma reads_address level amp ts e :
  tokType amp = Amp -> prefix_ <= level -> headed ts -> reads text level ts e ->
  reads text prefix_ (amp :: ts) (PrefixExpr "&" e).
Proof.
  intros Ho Hl Hh Hr. apply reads_prefix. intros depth p Rp [H0 Hts]%spells_cons Hf. cbn [List.length] in *.
  rewrite Nat.sub_succ, Nat.sub_0_r. apply goes_get. intros q _ -> _ _. rewrite H0. test Ho.
  pose proof (headed_at _ _ Hh Hts) as Hfirst.
  eapply goes_bind; [apply goes_nextToken; apply (firsts_not _ _ Hfirst); reflexivity|]. apply goes_get. intros r _ -> _ _.
  rewrite (proj2 (String.eqb_neq _ _) (firsts_not _ Var Hfirst eq_refl) : tokIs (tokens p 1) Var = false).
  eapply goes_bind; [apply goes_ret|].
  eapply goes_bind; [apply (goes_operand text depth prefix_ p 0 level ts e); auto using admits_prefix | apply goes_ret].
Qed.

Lemma reads_addressVar level amp var ts e :
  tokType amp = Amp -> tokType var = Var -> prefix_ <= level -> headed ts -> reads text level ts e ->
  reads text prefix_ (amp :: var :: ts) (PrefixExpr "&var" e).
Proof.
  intros Ho Hv Hl Hh Hr. apply reads_prefix. intros depth p Rp [H0 [H1 Hts]%spells_cons]%spells_cons Hf. cbn [List.length] in *.
  rewrite Nat.sub_succ, Nat.sub_0_r. apply goes_get. intros q _ -> _ _. rewrite H0. test Ho. unfold from in H1. cbn [Nat.add] in H1.
  eapply goes_bind; [apply goes_nextToken; rewrite H1, Hv; discriminate|]. apply goes_get. intros r _ -> _ _. rewrite H1. test Hv.
  assert (Hs : spells (from 2 (tokens p)) ts) by (eapply spells_ext; [|exact Hts]; intros i; apply from_from).
  eapply goes_bind; [apply goes_nextToken; apply (firsts_not _ _ (headed_at _ _ Hh Hs)); reflexivity|].
  eapply goes_bind; [apply (goes_operand text depth prefix_ p 1 level ts e); auto using admits_prefix | apply goes_ret].
Qed.

Lemma reads_marker level t ts e out :
  prefix_ <= level -> headed ts -> reads text level ts e ->
  (tokType t = Try /\ out = TryExpr e) \/ (tokType t = Move /\ out = MoveExpr e (tokenSpan t)) \/
  (tokType t = Unsafe /\ out = UnsafeExpr e text (tokenSpan t)) ->
  reads text prefix_ (t :: ts) out.
Proof.
  intros Hl Hh Hr Hc. apply reads_prefix. intros depth p Rp [H0 Hts]%spells_cons Hf. cbn [List.length] in *.
  rewrite Nat.sub_succ, Nat.sub_0_r. apply goes_get. intros q _ -> _ _. rewrite H0.
  destruct Hc as [[Ht ->]|[[Ht ->]|[Ht ->]]]; test Ht; unfold parseMarkerExpression; apply goes_get; intros r _ -> _ _;
    rewrite H0; test Ht.
  - apply (goes_prefixed level 0 ts e depth p (fun x => ret (TryExpr x))); auto; apply goes_ret.
  - apply (goes_prefixed level 0 ts e depth p (fun x => ret (MoveExpr x (tokenSpan t)))); auto; apply goes_ret.
  - apply (goes_prefixed level 0 ts e depth p (fun x => let! p := get in ret (UnsafeExpr x (safety p) (tokenSpan t)))); auto.
    apply goes_get. intros s _ _ _ ->. rewrite (rd_safety _ _ _ Rp). apply goes_ret.
Qed.
End Forms.
