(* ===== verification/GrammarInfix.v ===== *)
(** * The operators and the forms behind an operand are read *)

From stdpp Require Import base list strings.
From Stdlib Require Import ZArith Lia String Ascii.
From S2P Require Import Prelude GoStd Typ Token Literals Ast ParserState ParserType ParserExpr ParserStmt ParserFacts Parser.
From S2P Require Import Grammar GrammarFacts.

#[local] Open Scope string_scope.
#[local] Open Scope list_scope.

Section Infix.
Context {Src : Type} {source : TokenSource Src} (text : string).
Implicit Types (p q : PState Src) (ts : list Token).

(** A form [ops] behind an operand that binds at least as tightly. *)
Lemma reads_infix level ll tl ops l e :
  reads (Src := Src) text ll tl l -> tl <> [] -> level <= ll -> ops <> [] ->
  (forall s, spells s ops -> follows level (from (List.length ops) s) -> follows ll s) ->
  (forall depth prec q, ready text depth q -> admits prec level -> spells (from 1 (tokens q)) ops ->
     follows level (from (S (List.length ops)) (tokens q)) ->
     yields (continuesExpression prec l) q true 0 /\ goes q 0 (parseInfix (parser depth) l) (e, true) (List.length ops)) ->
  reads (Src := Src) text level (tl ++ ops) e.
Proof.
  intros Hl Htl Hle Hops Hfollow Hin depth prec p Rp Ha [Hts Hos]%spells_app Hf. rewrite length_app in *.
  assert (Hnt : List.length tl = S (List.length tl - 1)) by (destruct tl; [contradiction | cbn; lia]).
  assert (Hno : List.length ops = S (List.length ops - 1)) by (destruct ops; [contradiction | cbn; lia]).
  replace (List.length tl + List.length ops - 1) with (List.length tl - 1 + S (List.length ops - 1)) by lia.
  assert (Hf' : follows level (from (List.length ops) (from (List.length tl) (tokens p)))).
  { eapply follows_ext; [|exact Hf]. intros i. symmetry. apply from_from. }
  assert (Hq : forall q, moved (List.length tl - 1) p q ->
    yields (continuesExpression prec l) q true 0 /\ goes q 0 (parseInfix (parser depth) l) (e, true) (List.length ops)).
  { intros q M. apply Hin; [eapply ready_moved; eassumption | exact Ha | |].
    - eapply spells_ext; [|exact Hos]. intros i. rewrite (moved_from _ _ _ _ _ M). f_equal. lia.
    - eapply follows_ext; [|exact Hf]. intros i. rewrite (moved_from _ _ _ _ _ M). f_equal. lia. }
  apply leads_infix with (l := l); [apply (rd_valid _ _ _ Rp) | | |].
  - apply Hl; [exact Rp | | exact Hts | apply Hfollow; assumption]. destruct Ha as [[H|H] Hp]; split; lia.
  - intros q M. apply Hq, M.
  - intros q M. rewrite <- Hno. apply goes_yields, Hq, M.
Qed.

Lemma goes_shiftPair p b : pair (tokens p 1) (tokens p 2) = b -> goes p 0 shiftPair b 0.
Proof. intros <-. apply (goes_step _ 0 _ _ 0). intros q M. rewrite <- !(tokens_0 _ _ _ M). apply yields_shiftPair. Qed.

(** ** Operators *)

(** The token of an operator and the first one of its right operand. *)
Lemma binary_head s op tr :
  tokType op ∈ binaryOperators -> headed tr -> spells s (op :: tr) ->
  s 0 = op /\ tokType (s 1) ∈ firsts /\ pair (s 0) (s 1) = false.
Proof.
  intros Ho Hh [H0 Hs]%spells_cons. pose proof (headed_at _ _ Hh Hs : tokType (s 1) ∈ firsts) as H1.
  split; [exact H0|]. split; [exact H1|]. unfold pair. rewrite H0.
  destruct (tokIs op LT_ || tokIs op GT_) eqn:E; [|reflexivity]. destruct (String.eqb _ (tokType op)) eqn:E1; [|reflexivity].
  apply String.eqb_eq in E1. rewrite E1 in H1. exfalso. apply orb_true_iff in E as [E|E]; apply String.eqb_eq in E; rewrite E in H1;
    [exact (firsts_not _ LT_ H1 eq_refl eq_refl) | exact (firsts_not _ GT_ H1 eq_refl eq_refl)].
Qed.

Lemma binary_precedence op : tokType op ∈ binaryOperators -> precedenceOf (tokType op) < prefix_.
Proof. intros H. cases H; rewrite H; vm_compute; lia. Qed.

Lemma binary_follows ll s op tr :
  tokType op ∈ binaryOperators -> headed tr -> precedenceOf (tokType op) <= ll -> spells s (op :: tr) -> follows ll s.
Proof.
  intros Ho Hh Hle Hs. destruct (binary_head s op tr Ho Hh Hs) as (H0 & H1 & Hp).
  split; [| |unfold power; rewrite Hp, H0; exact Hle|].
  - rewrite H0. cases Ho; rewrite Ho; discriminate.
  - rewrite H0. cases Ho; rewrite Ho; discriminate.
  - apply quiet_head; [rewrite H0; cases Ho; rewrite Ho; discriminate|]. intros _. apply (firsts_not _ _ H1). reflexivity.
Qed.

Lemma goes_binary depth q l op lr tr r :
  ready text depth q -> tokType op ∈ binaryOperators -> headed tr -> reads text lr tr r -> precedenceOf (tokType op) < lr ->
  spells (from 1 (tokens q)) (op :: tr) -> follows (precedenceOf (tokType op)) (from (S (S (List.length tr))) (tokens q)) ->
  goes q 1 (parseBinaryExpr (parser depth) l) (BinaryExpr l (literal op) (tokenSpan op) r) (S (List.length tr)).
Proof.
  intros Rq Ho Hh Hr Hlt Hs Hf. destruct (binary_head _ _ _ Ho Hh Hs) as (H1 & H2 & _). unfold from in H1, H2. cbn [Nat.add] in *.
  unfold parseBinaryExpr. apply goes_get. intros q1 _ E _ _. rewrite H1 in E.
  unfold curPrecedence. eapply goes_bind.
  { apply goes_get. intros q2 _ E2 _ _. rewrite E2, H1. apply goes_ret. }
  eapply goes_bind; [apply goes_nextToken, (firsts_not _ _ H2); reflexivity|].
  eapply goes_bind; [|rewrite E; apply goes_ret]. apply (goes_operand text depth _ q 1 lr tr r); auto.
  - split; [auto | pose proof (binary_precedence op Ho); lia].
  - apply spells_cons in Hs as [_ Hs]. eapply spells_ext; [|exact Hs]. intros i. apply from_from.
Qed.

(** No guard's exit follows an operand. *)
Lemma goes_guard depth q l e n :
  tokType (tokens q 2) ∈ firsts -> goes q 1 (parseBinaryExpr (parser depth) l) e n ->
  goes q 1 (parseGuardableExpr (parser depth) l) e n.
Proof.
  intros H2 H. unfold parseGuardableExpr. apply goes_get. intros q1 _ _ _ _.
  apply (goes_bind _ _ _ _ None _ 1); [|exact H].
  unfold parseGuardExit. apply goes_get. intros q2 _ _ -> _.
  rewrite (proj2 (String.eqb_neq _ _) (firsts_not _ Return_ H2 eq_refl) : tokIs (tokens q 2) Return_ = false).
  rewrite (proj2 (String.eqb_neq _ _) (firsts_not _ Break H2 eq_refl) : tokIs (tokens q 2) Break = false).
  rewrite (proj2 (String.eqb_neq _ _) (firsts_not _ Continue H2 eq_refl) : tokIs (tokens q 2) Continue = false). apply goes_ret.
Qed.

Lemma reads_binary ll lr tl op tr l r :
  tokType op ∈ binaryOperators -> derives text ll tl l -> reads (Src := Src) text ll tl l -> precedenceOf (tokType op) <= ll ->
  derives text lr tr r -> reads (Src := Src) text lr tr r -> precedenceOf (tokType op) < lr ->
  reads (Src := Src) text (precedenceOf (tokType op)) (tl ++ op :: tr) (BinaryExpr l (literal op) (tokenSpan op) r).
Proof.
  intros Ho Dl Hl Hle Dr Hr Hlt. pose proof (derives_headed _ _ _ Dr) as Hh.
  apply (reads_infix _ ll _ _ l); [exact Hl | | exact Hle | discriminate | |].
  - destruct (derives_headed _ _ _ Dl) as (t & rest & -> & _). discriminate.
  - intros s Hs _. eapply binary_follows; eassumption.
  - intros depth prec q Rq [Ha Hprec] Hs Hf. cbn [List.length] in *. destruct (binary_head _ _ _ Ho Hh Hs) as (H1 & H2 & Hp).
    unfold from in H1, H2, Hp. cbn [Nat.add] in *. pose proof (binary_precedence op Ho). split.
    + apply yields_takes; [apply (rd_valid _ _ _ Rq) | | |].
      * rewrite H1. cases Ho; rewrite Ho; discriminate.
      * unfold power, from. cbn [Nat.add]. rewrite Hp, H1. lia.
      * intros _ Hi. apply spells_cons in Hs as [_ Hs]. pose proof (derives_quiet _ _ _ _ Dr Hs) as Hq.
        refine (Hq _ Hi). eapply quiet_ext; [|apply (fo_quiet _ _ Hf)]. reflexivity.
    + unfold parseInfix. eapply goes_bind; [apply (goes_shiftPair q false), Hp|]. apply goes_get. intros q1 _ _ -> _. rewrite H1.
      assert (Hb := goes_binary depth q l op lr tr r Rq Ho Hh Hr Hlt Hs Hf).
      assert (Hn : goes q 0 nextToken () 1) by (apply goes_nextToken; rewrite H1; cases Ho; rewrite Ho; discriminate).
      unfold infix. cases Ho; test Ho; eapply goes_bind; try exact Hn; (eapply goes_bind; [|apply goes_ret]); auto using goes_guard.
Qed.
Lemma goes_shift depth q l a b lr tr r :
  ready text depth q -> tokType a = GT_ -> pair a b = true -> headed tr -> reads text lr tr r -> shift < lr ->
  spells (from 1 (tokens q)) (a :: b :: tr) -> follows shift (from (S (S (S (List.length tr)))) (tokens q)) ->
  goes q 0 (parseShiftExpr (parser depth) l) (BinaryExpr l (literal a +:+ literal a) (widen (tokenSpan a)) r) (S (S (List.length tr))).
Proof.
  intros Rq Ha Hp Hh Hr Hlt [H1 [H2 Hs]%spells_cons]%spells_cons Hf. unfold from in H1, H2. cbn [Nat.add] in *.
  assert (H3 : spells (from 3 (tokens q)) tr) by (eapply spells_ext; [|exact Hs]; reflexivity).
  unfold parseShiftExpr. eapply goes_bind; [apply goes_nextToken; rewrite H1, Ha; discriminate|].
  apply goes_get. intros q1 _ -> _ _. rewrite H1.
  eapply goes_bind; [apply goes_nextToken; rewrite H2, (pair_type _ _ Hp), Ha; discriminate|].
  eapply goes_bind; [apply goes_nextToken, (firsts_not _ _ (headed_at _ _ Hh H3)); reflexivity|].
  eapply goes_bind; [|apply goes_ret]. apply (goes_operand text depth shift q 2 lr tr r); auto.
  split; [auto | vm_compute; lia].
Qed.

Lemma reads_shift ll lr tl a b tr l r :
  tokType a = GT_ -> pair a b = true -> headed tl -> reads (Src := Src) text ll tl l -> shift <= ll ->
  headed tr -> reads (Src := Src) text lr tr r -> shift < lr ->
  reads (Src := Src) text shift (tl ++ a :: b :: tr) (BinaryExpr l (literal a +:+ literal a) (widen (tokenSpan a)) r).
Proof.
  intros Ha Hp Htl Hl Hle Hh Hr Hlt. apply (reads_infix _ ll _ _ l); [exact Hl | | exact Hle | discriminate | |].
  - destruct Htl as (t & rest & -> & _). discriminate.
  - intros s [H0 [H1 _]%spells_cons]%spells_cons _. unfold from in H1. cbn [Nat.add] in H1. split.
    + rewrite H0, Ha. discriminate.
    + rewrite H0, Ha. discriminate.
    + unfold power. rewrite H0, H1, Hp. exact Hle.
    + apply quiet_head; rewrite H0, Ha; discriminate.
  - intros depth prec q Rq [Hadm Hprec] Hs Hf. pose proof Hs as [H1 [H2 _]%spells_cons]%spells_cons. unfold from in H1, H2.
    cbn [Nat.add List.length] in *. split.
    + apply yields_takes; [apply (rd_valid _ _ _ Rq) | rewrite H1, Ha; discriminate | | rewrite H1, Ha; discriminate].
      unfold power, from. cbn [Nat.add]. rewrite H1, H2, Hp. destruct Hadm as [H|H]; [exact H | vm_compute in H; lia].
    + unfold parseInfix. eapply goes_bind; [apply (goes_shiftPair q true); rewrite H1, H2; exact Hp|].
      eapply goes_bind; [eapply goes_shift; eassumption | apply goes_ret].
Qed.

(** ** Behind an operand *)

Definition openers : list TokenType := [LParen; LBracket; Dot; DoubleColon].

(** The function that reads what an opening token starts. *)
Definition postfix (ty : TokenType) (rec : Calls Src) (l : Expr) : M Src Expr :=
  if String.eqb ty LParen then parseCallExpr rec l
  else if String.eqb ty LBracket then parseIndexExpr rec l
  else parseFieldExpr l (String.eqb ty DoubleColon).

Lemma reads_postfix tl l sep rest e :
  tokType sep ∈ openers -> headed tl -> reads (Src := Src) text field tl l ->
  (forall depth q, ready text depth q -> spells (from 1 (tokens q)) (sep :: rest) ->
     goes q 1 (postfix (tokType sep) (parser depth) l) e (S (List.length rest))) ->
  reads (Src := Src) text field (tl ++ sep :: rest) e.
Proof.
  intros Ho Htl Hl Hin. assert (Hpair : forall t, pair sep t = false).
  { intros t. unfold pair. cases Ho; test Ho; reflexivity. }
  assert (Hpower : call <= precedenceOf (tokType sep) <= field) by (cases Ho; rewrite Ho; vm_compute; lia).
  apply (reads_infix _ field _ _ l); [exact Hl | | auto | discriminate | |].
  - destruct Htl as (t & ts & -> & _). discriminate.
  - intros s [H0 _]%spells_cons _. split; [| |unfold power; rewrite H0, Hpair; apply Hpower |];
      [| |apply quiet_head]; rewrite H0; cases Ho; rewrite Ho; discriminate.
  - intros depth prec q Rq [_ Hprec] Hs _. specialize (Hin depth q Rq Hs). apply spells_cons in Hs as [H1 _].
    unfold from in H1. cbn [Nat.add List.length] in *. split.
    + apply yields_takes; [apply (rd_valid _ _ _ Rq) | | |].
      * rewrite H1. cases Ho; rewrite Ho; discriminate.
      * unfold power, from. cbn [Nat.add]. rewrite H1, Hpair. unfold call, prefix_ in *. lia.
      * rewrite H1. cases Ho; rewrite Ho; discriminate.
    + unfold parseInfix. eapply goes_bind; [apply (goes_shiftPair q false); rewrite H1; apply Hpair|].
      apply goes_get. intros q1 _ _ -> _. rewrite H1.
      assert (Hn : goes q 0 nextToken () 1) by (apply goes_nextToken; rewrite H1; cases Ho; rewrite Ho; discriminate).
      unfold infix, postfix in *. cases Ho; test Ho; rewrite Ho in Hin; (eapply goes_bind; [exact Hn|]);
        (eapply goes_bind; [exact Hin | apply goes_ret]).
Qed.

Lemma reads_field ts e sep name :
  tokType sep ∈ [Dot; DoubleColon] -> tokType name = Ident -> headed ts -> reads (Src := Src) text field ts e ->
  reads (Src := Src) text field (ts ++ [sep; name])
    (FieldExpr e (literal name) (tokIs sep DoubleColon) (joinSpans (expressionSpan e) (tokenSpan name))).
Proof.
  intros Ho Hname Hh Hr. apply reads_postfix with (l := e); [cases Ho; rewrite Ho; member | exact Hh | exact Hr |].
  intros depth q _ [_ [H2 _]%spells_cons]%spells_cons. unfold from in H2. cbn [Nat.add List.length] in *.
  assert (Hp : postfix (tokType sep) (parser depth) e = parseFieldExpr e (tokIs sep DoubleColon)).
  { unfold postfix, tokIs. cases Ho; rewrite Ho; reflexivity. }
  rewrite Hp. unfold parseFieldExpr. apply goes_get. intros q1 _ _ -> _. rewrite H2. test Hname. rewrite andb_false_r.
  eapply goes_bind; [apply goes_expectPeek; [rewrite H2; exact Hname | discriminate]|].
  apply goes_get. intros q2 _ -> _ _. rewrite H2. apply goes_ret.
Qed.

Lemma reads_deref ts e dot star :
  tokType dot = Dot -> tokType star = Asterisk -> headed ts -> reads (Src := Src) text field ts e ->
  reads (Src := Src) text field (ts ++ [dot; star]) (DerefExpr e (tokenSpan star)).
Proof.
  intros Hd Hstar Hh Hr. apply reads_postfix with (l := e); [rewrite Hd; member | exact Hh | exact Hr |].
  intros depth q _ [_ [H2 _]%spells_cons]%spells_cons. unfold from in H2. cbn [Nat.add List.length] in *.
  rewrite Hd. unfold postfix. known. unfold parseFieldExpr. apply goes_get. intros q1 _ _ -> _. rewrite H2. test Hstar.
  eapply goes_bind; [apply goes_nextToken; rewrite H2, Hstar; discriminate|].
  apply goes_get. intros q2 _ -> _ _. rewrite H2. apply goes_ret.
Qed.
End Infix.

(** * Calls, indexing and the whole grammar *)

Section Calls.
Context {Src : Type} {source : TokenSource Src} (text : string).
Implicit Types (p q : PState Src) (ts : list Token).

(** An operand up to a closing token. *)
Lemma goes_enclosed depth p k level ts e :
  reads (Src := Src) text level ts e -> ready text depth p -> lowest < level -> headed ts ->
  spells (from (S k) (tokens p)) ts -> tokType (tokens p (S k + List.length ts)) ∈ closers ->
  (tokType (tokens p (S k + List.length ts)) = Comma -> quiet (from (S k + List.length ts) (tokens p))) ->
  goes p (S k) (callExpression (parser depth) lowest) e (k + List.length ts).
Proof.
  intros Hr Rp Hl Hh Hs Hc Hq. eapply goes_operand; eauto using admits_lowest.
  apply follows_closer; [reflexivity | |]; unfold from in *; rewrite Nat.add_0_r; assumption.
Qed.

(** The loop of [parseCallExpr] over the arguments after the first. *)
Definition moreArguments (rec : Calls Src) (args : list Expr) : M Src (list Expr + list Expr) :=
  let! p := get in
  if negb (tokIs (peek p) Comma) then ret (inr args)
  else
    do! nextToken in
    let! p := get in
    if tokIs (peek p) RParen then ret (inr args)
    else
      do! nextToken in
      let! arg := callExpression rec lowest in ret (inl (args ++ [arg])).

(** Arguments up to the closing parenthesis: the first one, then the loop. *)
Definition readsArgs (ts : list Token) (es : list Expr) : Prop :=
  forall depth p k args, ready text depth p -> spells (from (S k) (tokens p)) ts ->
    tokType (tokens p (S k + List.length ts)) = RParen ->
    exists e es' j, es = e :: es' /\ k <= j /\ goes p (S k) (callExpression (parser depth) lowest) e j /\
      goes p j (loop (moreArguments (parser depth)) (args ++ [e])) (args ++ es) (k + List.length ts).

Lemma readsArgs_last level ts e :
  lowest < level -> headed ts -> reads (Src := Src) text level ts e -> readsArgs ts [e].
Proof.
  intros Hl Hh Hr depth p k args Rp Hs Hc. exists e, [], (k + List.length ts). split; [reflexivity|]. split; [lia|]. split.
  - eapply goes_enclosed; eauto; rewrite Hc; [member | discriminate].
  - intros q M. exists q. split; [|exact M]. apply loop_end. unfold moreArguments, bind at 1, get.
    rewrite (moved_peek _ _ _ M). cbn [Nat.add] in Hc. test Hc. reflexivity.
Qed.

Lemma readsArgs_more level ts e comma rest es :
  tokType comma = Comma -> lowest < level -> headed ts -> headed rest -> reads (Src := Src) text level ts e ->
  derivesArgs text rest es -> readsArgs rest es -> readsArgs (ts ++ comma :: rest) (e :: es).
Proof.
  intros Hcomma Hl Hh Hhr Hr Dargs IH depth p k args Rp [Hts Hrest]%spells_app Hc. rewrite length_app in *. cbn [List.length] in *.
  exists e, es, (k + List.length ts). split; [reflexivity|]. split; [lia|].
  assert (Hfrom : forall i, from (List.length ts) (from (S k) (tokens p)) i = from (S k + List.length ts) (tokens p) i) by (intros; apply from_from).
  assert (H0 : tokens p (S k + List.length ts) = comma).
  { destruct (spells_cons _ _ _ Hrest) as [H _]. rewrite Hfrom in H. unfold from in H. rewrite Nat.add_0_r in H. exact H. }
  assert (Hs2 : spells (from (S (S k + List.length ts)) (tokens p)) rest).
  { destruct (spells_cons _ _ _ Hrest) as [_ H]. eapply spells_ext; [|exact H]. intros i. unfold from. f_equal. lia. }
  split.
  - eapply goes_enclosed; eauto; rewrite H0, Hcomma; [member|]. intros _. apply quiet_comma.
    + unfold from. rewrite Nat.add_0_r, H0. exact Hcomma.
    + intros Hi. assert (Hq := args_quiet rest es _ Dargs Hs2). eapply quiet_ext; [|apply Hq].
      * intros i. unfold from. f_equal. lia.
      * apply quiet_head; unfold from; replace (S (S k + List.length ts) + (List.length rest + 0)) with
          (S k + (List.length ts + S (List.length rest))) by lia; rewrite Hc; discriminate.
      * unfold from in *. rewrite Nat.add_0_r. rewrite <- Hi. do 2 f_equal. lia.
  - intros q M. assert (Rq := ready_moved _ _ _ _ _ Rp M).
    assert (Hq1 : tokType (tokens q 1) = Comma) by (rewrite (mv_tokens _ _ _ M), <- Hcomma, <- H0; do 2 f_equal; lia).
    assert (Hq2 : spells (from 2 (tokens q)) rest).
    { eapply spells_ext; [|exact Hs2]. intros i. rewrite (moved_from _ _ _ _ _ M). unfold from. f_equal. lia. }
    destruct (IH depth q 1 (args ++ [e]) Rq Hq2) as (e' & es' & j & -> & Hj & Hcall & Hloop).
    { rewrite (mv_tokens _ _ _ M), <- Hc. do 2 f_equal. lia. }
    pose proof (headed_at _ _ Hhr Hq2 : tokType (tokens q 2) ∈ firsts) as Hfirst.
    assert (Hround : goes q 0 (moreArguments (parser depth) (args ++ [e])) (inl ((args ++ [e]) ++ [e'])) j).
    { unfold moreArguments. apply goes_get. intros q1 _ _ -> _. test Hq1.
      eapply goes_bind; [apply goes_nextToken; rewrite Hq1; discriminate|]. apply goes_get. intros q2 _ _ -> _.
      rewrite (proj2 (String.eqb_neq _ _) (firsts_not _ RParen Hfirst eq_refl) : tokIs (tokens q 2) RParen = false).
      eapply goes_bind; [apply goes_nextToken, (firsts_not _ _ Hfirst); reflexivity|].
      eapply goes_bind; [exact Hcall | apply goes_ret]. }
    destruct (goes_yields _ _ _ _ Hround) as (q' & E & M'). destruct (Hloop q' M') as (r & E2 & M2).
    exists r. split.
    + replace (args ++ e :: e' :: es') with ((args ++ [e]) ++ e' :: es') by (rewrite <- app_assoc; reflexivity).
      rewrite <- E2. replace j with (S (j - 1)) in M' by lia.
      apply (loop_continue _ _ _ _ _ (j - 1)); [apply (rd_valid _ _ _ Rq) | exact E | exact M' | rewrite E2; discriminate].
    + pose proof (moved_trans _ _ _ _ _ M M2) as M3. replace (k + (List.length ts + S (List.length rest))) with
        (k + List.length ts + (1 + List.length rest)) by lia. exact M3.
Qed.

Lemma reads_call ts e open args es close :
  tokType open = LParen -> tokType close = RParen -> headed ts -> reads (Src := Src) text field ts e ->
  headed args -> readsArgs args es -> reads (Src := Src) text field (ts ++ open :: args ++ [close]) (CallExpr e es).
Proof.
  intros Ho Hc Hh Hr Hha Hargs. apply reads_postfix with (l := e); [rewrite Ho; member | exact Hh | exact Hr |].
  intros depth q Rq [_ Hs]%spells_cons. rewrite length_app. cbn [List.length]. rewrite Ho. unfold postfix. known.
  apply spells_app in Hs as [Hs Hclose]. assert (Hs2 : spells (from 2 (tokens q)) args) by exact Hs.
  assert (H2 : tokType (tokens q (2 + List.length args)) = RParen).
  { rewrite <- Hc. f_equal. apply spells_cons in Hclose as [H _]. rewrite !from_from in H. unfold from in H.
    etransitivity; [|exact H]. f_equal. lia. }
  pose proof (headed_at _ _ Hha Hs2 : tokType (tokens q 2) ∈ firsts) as Hfirst.
  destruct (Hargs depth q 1 [] Rq Hs2 H2) as (e1 & es' & j & -> & _ & Hcall & Hloop).
  unfold parseCallExpr. apply goes_get. intros q1 _ _ -> _.
  rewrite (proj2 (String.eqb_neq _ _) (firsts_not _ RParen Hfirst eq_refl) : tokIs (tokens q 2) RParen = false).
  eapply goes_bind; [apply goes_nextToken, (firsts_not _ _ Hfirst); reflexivity|].
  eapply goes_bind; [exact Hcall|]. eapply goes_bind; [exact Hloop|].
  replace (S (List.length args + 1)) with (S (1 + List.length args)) by lia.
  eapply goes_bind; [apply goes_expectPeek; [exact H2 | discriminate] | apply goes_ret].
Qed.

Lemma reads_call0 ts e open close :
  tokType open = LParen -> tokType close = RParen -> headed ts -> reads (Src := Src) text field ts e ->
  reads (Src := Src) text field (ts ++ [open; close]) (CallExpr e []).
Proof.
  intros Ho Hc Hh Hr. apply reads_postfix with (l := e); [rewrite Ho; member | exact Hh | exact Hr |].
  intros depth q _ [_ [H2 _]%spells_cons]%spells_cons. unfold from in H2. cbn [Nat.add List.length] in *.
  rewrite Ho. unfold postfix. known. unfold parseCallExpr. apply goes_get. intros q1 _ _ -> _. rewrite H2. test Hc.
  eapply goes_bind; [apply goes_nextToken; rewrite H2, Hc; discriminate | apply goes_ret].
Qed.
Lemma reads_index ts e open level ti i close :
  tokType open = LBracket -> tokType close = RBracket -> headed ts -> reads (Src := Src) text field ts e ->
  lowest < level -> headed ti -> reads (Src := Src) text level ti i ->
  reads (Src := Src) text field (ts ++ open :: ti ++ [close]) (IndexExpr e (Some i) None None false (tokenSpan open)).
Proof.
  intros Ho Hc Hh Hr Hl Hhi Hi. apply reads_postfix with (l := e); [rewrite Ho; member | exact Hh | exact Hr |].
  intros depth q Rq [H1 Hs]%spells_cons. rewrite length_app. cbn [List.length]. rewrite Ho. unfold postfix. known.
  apply spells_app in Hs as [Hs Hclose]. assert (Hs2 : spells (from 2 (tokens q)) ti) by exact Hs.
  assert (H2 : tokType (tokens q (2 + List.length ti)) = RBracket).
  { rewrite <- Hc. f_equal. apply spells_cons in Hclose as [H _]. rewrite !from_from in H. unfold from in H.
    etransitivity; [|exact H]. f_equal. lia. }
  pose proof (headed_at _ _ Hhi Hs2 : tokType (tokens q 2) ∈ firsts) as Hfirst. unfold from in H1. cbn [Nat.add] in H1.
  unfold parseIndexExpr. apply goes_get. intros q1 _ -> _ _. rewrite H1.
  eapply goes_bind; [apply goes_nextToken, (firsts_not _ _ Hfirst); reflexivity|]. apply goes_get. intros q2 _ -> _ _.
  rewrite (proj2 (String.eqb_neq _ _) (firsts_not _ Range Hfirst eq_refl) : tokIs (tokens q 2) Range = false).
  eapply goes_bind; [apply (goes_enclosed depth q 1 level ti i); auto; rewrite H2; [member | discriminate]|].
  apply goes_get. intros q3 _ _ -> _. cbn [Nat.add] in H2 |- *. test H2.
  replace (S (List.length ti + 1)) with (S (S (List.length ti))) by lia.
  eapply goes_bind; [apply goes_expectPeek; [exact H2 | discriminate] | apply goes_ret].
Qed.

Lemma reads_slice ts e open l1 t1 a range l2 t2 b close :
  tokType open = LBracket -> tokType range = Range -> tokType close = RBracket ->
  headed ts -> reads (Src := Src) text field ts e ->
  lowest < l1 -> headed t1 -> reads (Src := Src) text l1 t1 a -> lowest < l2 -> headed t2 -> reads (Src := Src) text l2 t2 b ->
  reads (Src := Src) text field (ts ++ open :: t1 ++ range :: t2 ++ [close])
    (IndexExpr e None (Some a) (Some b) true (tokenSpan open)).
Proof.
  intros Ho Hrange Hc Hh Hr Hl1 Hh1 Ha Hl2 Hh2 Hb. apply reads_postfix with (l := e); [rewrite Ho; member | exact Hh | exact Hr |].
  intros depth q Rq [H1 Hs]%spells_cons. rewrite length_app. cbn [List.length]. rewrite length_app. cbn [List.length].
  rewrite Ho. unfold postfix. known. apply spells_app in Hs as [Hs1 [H2 [Hs2 [H3 _]%spells_cons]%spells_app]%spells_cons].
  rewrite !from_from in H2, H3. unfold from in H1, H2, H3. rewrite Nat.add_0_r in H2, H3. cbn [Nat.add] in *.
  set (n := List.length t1) in *. assert (Hm : tokType (tokens q (S (S n))) = Range) by (rewrite <- Hrange, <- H2; do 2 f_equal; lia).
  assert (Hs3 : spells (from (S (S (S n))) (tokens q)) t2).
  { eapply spells_ext; [|exact Hs2]. intros j. rewrite !from_from. unfold from. f_equal. lia. }
  assert (Hend : tokType (tokens q (S (S (S n)) + List.length t2)) = RBracket) by (rewrite <- Hc, <- H3; do 2 f_equal; lia).
  pose proof (headed_at _ _ Hh1 Hs1 : tokType (tokens q 2) ∈ firsts) as Hfirst.
  assert (Hsecond : tokType (tokens q (S (S (S n)))) ∈ firsts).
  { pose proof (headed_at _ _ Hh2 Hs3) as H. unfold from in H. rewrite Nat.add_0_r in H. exact H. }
  unfold parseIndexExpr. apply goes_get. intros q1 _ -> _ _. rewrite H1.
  eapply goes_bind; [apply goes_nextToken, (firsts_not _ _ Hfirst); reflexivity|]. apply goes_get. intros q2 _ -> _ _.
  rewrite (proj2 (String.eqb_neq _ _) (firsts_not _ Range Hfirst eq_refl) : tokIs (tokens q 2) Range = false).
  eapply goes_bind; [apply (goes_enclosed depth q 1 l1 t1 a); auto; fold n; cbn [Nat.add]; rewrite Hm; [member | discriminate]|].
  apply goes_get. intros q3 _ _ -> _. cbn [Nat.add] in *. fold n. test Hm.
  eapply goes_bind; [apply goes_nextToken; rewrite Hm; discriminate|]. apply goes_get. intros q4 _ _ -> _.
  rewrite (proj2 (String.eqb_neq _ _) (firsts_not _ RBracket Hsecond eq_refl) : tokIs (tokens q (S (S (S n)))) RBracket = false).
  unfold parseSliceEnd. eapply goes_bind; [apply goes_nextToken, (firsts_not _ _ Hsecond); reflexivity|].
  eapply goes_bind; [apply (goes_enclosed depth q (S (S n)) l2 t2 b); auto; cbn [Nat.add]; rewrite Hend; [member | discriminate]|].
  replace (S (n + S (List.length t2 + 1))) with (S (S (S n) + List.length t2)) by lia.
  eapply goes_bind; [apply goes_expectPeek; [|discriminate] | apply goes_ret]. exact Hend.
Qed.

(** ** The whole grammar *)

Lemma derives_reads :
  (forall level ts e, derives text level ts e -> reads (Src := Src) text level ts e) /\
  (forall ts es, derivesArgs text ts es -> headed ts /\ readsArgs ts es).
Proof.
  apply derives_both; intros;
    repeat match goal with D : derives text ?l ?ts ?e |- _ =>
      pose proof (derives_headed _ _ _ D); pose proof (derives_level _ _ _ D); revert D end; intros;
    repeat match goal with H : headed _ /\ readsArgs _ _ |- _ => destruct H end.
  - apply reads_name; assumption.
  - apply reads_int; assumption.
  - apply reads_float; assumption.
  - apply reads_literal; auto.
  - apply reads_literal; auto.
  - apply reads_literal; auto.
  - apply reads_literal; auto 6.
  - eapply reads_paren; eassumption.
  - eapply reads_operator; eassumption.
  - eapply reads_address; eassumption.
  - eapply reads_addressVar; eassumption.
  - eapply reads_marker; eauto.
  - eapply reads_marker; eauto.
  - eapply reads_marker; eauto 6.
  - rewrite (level_precedence (tokType op)) in * by assumption. eapply reads_binary; eassumption.
  - eapply reads_shift; eassumption.
  - apply reads_field; assumption.
  - apply reads_deref; assumption.
  - apply reads_call0; assumption.
  - apply reads_call; assumption.
  - apply (reads_index ts e open level); assumption.
  - eapply (reads_slice ts e open l1 t1 a range l2); eassumption.
  - split; [assumption | eapply readsArgs_last; eassumption].
  - split; [apply headed_app; assumption | eapply readsArgs_more; eassumption].
Qed.
End Calls.

(** * The parser implements the grammar of expressions

    Whatever the grammar derives the parser returns, from any source of tokens,
    and since the parser is a function no row of tokens has two trees. *)


(** ** A row of tokens as a state *)

Definition rowState (text : string) (ts : list Token) : PState (list Token) :=
  mkState (drop 2 ts) (nth 0 ts eofToken) (nth 1 ts eofToken) [] [] text.

Lemma upcoming_list n l : upcoming n l = nth n l eofToken.
Proof. revert l. induction n as [|n IH]; intros [|t l]; cbn; try reflexivity; rewrite IH; destruct n; reflexivity. Qed.

Lemma tokens_row text ts n : tokens (rowState text ts) n = nth n ts eofToken.
Proof.
  destruct n as [|[|n]]; try reflexivity. cbn [tokens coming rowState ahead lex lookup list_lookup List.length].
  rewrite Nat.sub_0_r, upcoming_list. destruct ts as [|a [|b ts]]; try (destruct n; reflexivity).
Qed.

Lemma spells_row text ts us : spells (tokens (rowState text (ts ++ us))) ts.
Proof.
  intros i t Ht. rewrite tokens_row, app_nth1 by (apply lookup_lt_Some in Ht; exact Ht). rewrite nth_lookup, Ht. reflexivity.
Qed.

(** ** A sample: [a + -b * f(2, c);] *)

Definition sampleToken (ty : TokenType) (s : string) : Token := mkToken ty (runes s) 1 1 [] [].
Definition sampleName (s : string) : Token := sampleToken Ident s.
Definition sampleSign (ty : TokenType) : Token := sampleToken ty ty.

Definition sampleTokens : list Token :=
  [sampleName "a"; sampleSign Plus; sampleSign Minus; sampleName "b"; sampleSign Asterisk; sampleName "f"; sampleSign LParen;
   sampleToken Int "2"; sampleSign Comma; sampleName "c"; sampleSign RParen].

Definition nameExpr (s : string) : Expr := IdentExpr s (tokenSpan (sampleName s)).

Definition sampleTree : Expr :=
  BinaryExpr (nameExpr "a") "+" (tokenSpan (sampleSign Plus))
    (BinaryExpr (PrefixExpr "-" (nameExpr "b")) "*" (tokenSpan (sampleSign Asterisk))
       (CallExpr (nameExpr "f") [IntExpr "2"; nameExpr "c"])).

Lemma sample_derives : derives "" sum_ sampleTokens sampleTree.
Proof.
  apply (d_binary "" field product [sampleName "a"] (sampleSign Plus)); [member | apply d_name; reflexivity | vm_compute; lia | | vm_compute; lia].
  apply (d_binary "" prefix_ field [sampleSign Minus; sampleName "b"] (sampleSign Asterisk)); [member | | vm_compute; lia | | vm_compute; lia].
  - apply (d_prefix "" field); [member | apply d_name; reflexivity | vm_compute; lia].
  - apply (d_call "" [sampleName "f"] _ (sampleSign LParen) [_; _; _]); try reflexivity; [apply d_name; reflexivity|].
    apply (d_more "" field [_] _ (sampleSign Comma)); [reflexivity | apply (d_int "" _ 2); reflexivity |].
    apply (d_last "" field), d_name. reflexivity.
Qed.

Definition sampleState : PState (list Token) := rowState "" (sampleTokens ++ [sampleSign Semicolon]).


(** No row of tokens has two trees: the levels of the operators leave no
    choice. *)
Theorem grammar_unambiguous text l1 l2 ts e1 e2 : derives text l1 ts e1 -> derives text l2 ts e2 -> e1 = e2.
Proof.
  intros D1 D2. set (p := rowState text ts). set (depth := 4 * (here p + 2 * following p) + 2).
  assert (Hs : spells (tokens p) ts) by (unfold p; rewrite <- (app_nil_r ts) at 1; apply spells_row).
  assert (Hend : from (List.length ts) (tokens p) 0 = eofToken).
  { unfold from, p. rewrite tokens_row, nth_overflow by lia. reflexivity. }
  assert (Hf : follows lowest (from (List.length ts) (tokens p))).
  { apply follows_closer; [reflexivity | |]; rewrite Hend; [member | discriminate]. }
  assert (H : forall l e, derives text l ts e -> exists q, callExpression (parser depth) lowest p = Done e q).
  { intros l e D. destruct (derives_reads (Src := list Token) text) as [R _]. pose proof (derives_level _ _ _ D).
    unfold depth. replace (4 * _ + 2) with (S (4 * (here p + 2 * following p) + 1)) by lia. cbn [parser callExpression].
    assert (Rp : ready text (4 * (here p + 2 * following p) + 1) p) by (split; [unfold fits; lia | exact I | reflexivity]).
    destruct (leads_done _ lowest p e (List.length ts - 1) (rd_valid _ _ _ Rp) (R l ts e D _ _ p Rp (admits_lowest _ H) Hs
      (follows_mono _ l _ Hf ltac:(lia)))) as (q & E & _); [|exists q; exact E].
    destruct (derives_headed _ _ _ D) as (t & rest & E & _).
    replace (S (List.length ts - 1)) with (List.length ts) by (rewrite E; cbn; lia). exact Hf. }
  destruct (H l1 e1 D1) as [q1 E1], (H l2 e2 D2) as [q2 E2]. congruence.
Qed.

Lemma grammar_unambiguous_witness :
  (forall l e, derives "" l sampleTokens e -> e = sampleTree) /\ sampleTree <> nameExpr "a".
Proof.
  split; [|discriminate]. intros l e D. exact (grammar_unambiguous "" l sum_ sampleTokens e sampleTree D sample_derives).
Defined.
