(* ===== verification/StaticArgs.v ===== *)
(** * Static argument expressions

    A length or a static argument in parentheses is handed on as text
    ([staticExprText] of [internal/parser/parser.go]) and evaluated from that
    text later ([internal/staticexpr]).  [staticMeans] is what the expression
    means on its own; the text means the same. *)

From stdpp Require Import base list strings.
From Stdlib Require Import ZArith Zquot Lia String Ascii.
From S2P Require Import Prelude GoStd StaticExpr Token Literals Ast ParserState ParserType ParserExpr ParserStmt.
From S2P Require Import ParserFacts Grammar GrammarFacts GrammarInfix.

#[local] Open Scope string_scope.
#[local] Open Scope list_scope.

(** ** The meaning of an expression

    Stated with mathematical integers, without the evaluator. *)

(** [r] is [x] in 64 bits, signed. *)
Definition wraps (x r : Z) : Prop := in_int64 r /\ exists k, (x = r + k * 2 ^ 64)%Z.

(** Quotient and remainder: rounded toward zero, the remainder has the sign of
    the dividend. *)
Definition divides (a b q m : Z) : Prop := (a = b * q + m)%Z /\ (Z.abs m < Z.abs b)%Z /\ (0 <= m * a)%Z.

Inductive binaryMeans : string -> Z -> Z -> result StaticError Z -> Prop :=
  | m_add a b r : wraps (a + b) r -> binaryMeans "+" a b (Ok r)
  | m_sub a b r : wraps (a - b) r -> binaryMeans "-" a b (Ok r)
  | m_mul a b r : wraps (a * b) r -> binaryMeans "*" a b (Ok r)
  | m_div a b q m r : divides a b q m -> wraps q r -> binaryMeans "/" a b (Ok r)
  | m_mod a b q m : divides a b q m -> binaryMeans "%" a b (Ok m)
  | m_zero op a : op ∈ ["/"; "%"] -> binaryMeans op a 0 (Err DividesByZero).

(** The value of an expression under the names it is given; operands from the
    left, the first error ends it. *)
Inductive staticMeans (lookup : string -> option Z) : Expr -> result StaticError Z -> Prop :=
  | m_int n : (0 <= n <= max_int64)%Z -> staticMeans lookup (IntExpr (FormatInt n)) (Ok n)
  | m_name x s v : lookup x = Some v -> staticMeans lookup (IdentExpr x s) (Ok v)
  | m_unbound x s : lookup x = None -> staticMeans lookup (IdentExpr x s) (Err (NotCompileTime x))
  | m_neg e v r : staticMeans lookup e (Ok v) -> wraps (- v) r -> staticMeans lookup (PrefixExpr "-" e) (Ok r)
  | m_negError e err : staticMeans lookup e (Err err) -> staticMeans lookup (PrefixExpr "-" e) (Err err)
  | m_binary l op s r a b res : staticMeans lookup l (Ok a) -> staticMeans lookup r (Ok b) -> binaryMeans op a b res ->
      staticMeans lookup (BinaryExpr l op s r) res
  | m_left l op s r err : staticMeans lookup l (Err err) -> staticMeans lookup (BinaryExpr l op s r) (Err err)
  | m_right l op s r a err : staticMeans lookup l (Ok a) -> staticMeans lookup r (Err err) ->
      staticMeans lookup (BinaryExpr l op s r) (Err err).

(** The literals are those [parseIntLiteral] gives, the names are spelled in
    ASCII letters, digits and underscores. *)
Fixpoint staticLeaves (e : Expr) : Prop :=
  match e with
  | IntExpr v => exists n, (0 <= n <= max_int64)%Z /\ v = FormatInt n
  | IdentExpr x _ => validName x = true
  | PrefixExpr _ e => staticLeaves e
  | BinaryExpr l _ _ r => staticLeaves l /\ staticLeaves r
  | _ => True
  end.

Lemma wraps_wrap64 x : wraps x (wrap64 x).
Proof. split; [apply wrap64_range|]. destruct (wrap64_cong x) as [k ->]. exists (- k)%Z. lia. Qed.

Lemma wraps_fun x r : wraps x r -> r = wrap64 x.
Proof.
  intros [Hr [k Hk]]. destruct (wrap64_cong x) as [j Hj]. pose proof (wrap64_range x) as Hw.
  unfold in_int64, min_int64, max_int64 in *. assert (k + j = 0)%Z by nia. nia.
Qed.

Lemma divides_quot a b : b <> 0%Z -> divides a b (Z.quot a b) (Z.rem a b).
Proof.
  intros Hb. split; [apply Z.quot_rem'|]. split; [apply Z.rem_bound_abs, Hb | apply Z.rem_sign_mul, Hb].
Qed.

Lemma divides_fun a b q m : divides a b q m -> b <> 0%Z /\ q = Z.quot a b /\ m = Z.rem a b.
Proof.
  intros (E & Hm & Hs). assert (R : Remainder a b m) by (apply Remainder_equiv; split; assumption).
  split; [intros ->; lia|]. split; [eapply Zquot_unique_full | eapply Zrem_unique_full]; eassumption.
Qed.

(** Without an operator of arithmetic there is no meaning, and no text. *)
Definition arithmetic : list string := ["+"; "-"; "*"; "/"; "%"].

(** The operation of the evaluator is the one the language means. *)
Lemma apply_means c a b res :
  in_int64 a -> String c "" ∈ arithmetic -> binaryMeans (String c "") a b res <-> res = StaticExpr.apply c a b.
Proof.
  intros Ha Hc. unfold StaticExpr.apply.
  assert (Hrem : wrap64 (Z.rem a b) = Z.rem a b).
  { destruct (decide (b = 0%Z)) as [->|Hb]; [rewrite Zrem_0_r; symmetry; apply wraps_fun; split; [exact Ha | exists 0%Z; lia]|].
    symmetry. apply wraps_fun. split; [|exists 0%Z; lia]. pose proof (Z.quot_rem' a b) as E.
    destruct (divides_quot a b Hb) as (_ & Hm & Hs). unfold in_int64, min_int64, max_int64 in *.
    pose proof (Z.rem_le (Z.abs a) (Z.abs b) ltac:(lia) ltac:(lia)) as Hle. rewrite Z.rem_abs in Hle by exact Hb. nia. }
  split.
  - intros H. inversion H; subst; cbn [Ascii.eqb Bool.eqb orb].
    + f_equal. apply wraps_fun. assumption.
    + f_equal. apply wraps_fun. assumption.
    + f_equal. apply wraps_fun. assumption.
    + destruct (divides_fun _ _ _ _ ltac:(eassumption)) as (Hb & -> & _). rewrite (proj2 (Z.eqb_neq _ _) Hb).
      f_equal. apply wraps_fun. assumption.
    + destruct (divides_fun _ _ _ _ ltac:(eassumption)) as (Hb & _ & ->). rewrite (proj2 (Z.eqb_neq _ _) Hb), Hrem. reflexivity.
    + match goal with E : _ ∈ ["/"; "%"] |- _ => cases E; injection E as -> end; reflexivity.
  - intros ->. cases Hc; injection Hc as ->; cbn [Ascii.eqb Bool.eqb orb];
      try (constructor; apply wraps_wrap64); (destruct (Z.eqb_spec b 0) as [->|Hb]; [constructor; member|]).
    + eapply m_div; [apply divides_quot, Hb | apply wraps_wrap64].
    + rewrite Hrem. eapply m_mod, divides_quot, Hb.
Qed.

Section Meaning.
Context (lookup : string -> option Z) (lookup_range : forall x v, lookup x = Some v -> in_int64 v).

Lemma denote_range s v : canonical s = true -> denote lookup s = Ok v -> in_int64 v.
Proof.
  destruct s; cbn [canonical denote]; intros Hc H.
  - injection H as <-. rewrite andb_true_iff, !Z.leb_le in Hc. unfold in_int64, min_int64, max_int64 in *. lia.
  - destruct (lookup x) eqn:E; [injection H as <-; eapply lookup_range, E | discriminate].
  - destruct (denote lookup s); [injection H as <-; apply wrap64_range | discriminate].
  - destruct (denote lookup s1); [|discriminate]. destruct (denote lookup s2); [|discriminate]. eapply apply_range, H.
Qed.

(** The text is the spelling of a tree that denotes the meaning. *)
Lemma staticExprText_tree e t :
  staticLeaves e -> staticExprText e = Some t ->
  exists s, canonical s = true /\ print s = t /\ forall res, staticMeans lookup e res <-> res = denote lookup s.
Proof.
  revert t. induction e; cbn [staticLeaves staticExprText]; intros t Hl Ht; try discriminate.
  - injection Ht as <-. exists (StaticExpr.Var Name). split; [exact Hl|]. split; [reflexivity|]. intros res. cbn [denote].
    split; [inversion 1; subst; match goal with E : lookup _ = _ |- _ => rewrite E end; reflexivity|].
    intros ->. destruct (lookup Name) eqn:E; constructor; exact E.
  - injection Ht as <-. destruct Hl as (n & Hn & ->). exists (Lit n). cbn [canonical print denote].
    rewrite andb_true_iff, !Z.leb_le. split; [exact Hn|]. split; [reflexivity|]. intros res.
    split; [|intros ->; constructor; exact Hn]. inversion 1 as [m Hm E| | | | | | |]; subst. f_equal.
    apply FormatInt_inj; [| | exact E]; unfold in_int64, min_int64, max_int64 in *; lia.
  - destruct (staticExprText e) as [u|]; [|discriminate]. destruct (String.eqb_spec Operator "-") as [->|]; [|discriminate]. injection Ht as <-.
    destruct (IHe u Hl eq_refl) as (s & Hc & <- & Hd). exists (Bin "-" (Lit 0) s). cbn [canonical print denote].
    rewrite Hc. split; [reflexivity|]. split; [reflexivity|]. intros res. split.
    + inversion 1 as [| | |? v r Hv Hw|? err Hv| | |]; subst; apply Hd in Hv; rewrite <- Hv; cbn; [|reflexivity].
      f_equal. apply wraps_fun. exact Hw.
    + intros ->. destruct (denote lookup s) as [v|err] eqn:E; cbn.
      * eapply m_neg; [apply Hd; reflexivity | apply (wraps_wrap64 (0 - v))].
      * apply m_negError, Hd. reflexivity.
  - destruct Hl as [Hl1 Hl2]. destruct (existsb (String.eqb Operator) _) eqn:Eo; [|discriminate].
    destruct (staticExprText e1) as [u1|]; [|discriminate]. destruct (staticExprText e2) as [u2|]; [|discriminate].
    injection Ht as <-. destruct (IHe1 u1 Hl1 eq_refl) as (s1 & C1 & <- & D1), (IHe2 u2 Hl2 eq_refl) as (s2 & C2 & <- & D2).
    apply listed in Eo. assert (Hop : exists c, Operator = String c "" /\ arithOp c = true /\ String c "" ∈ arithmetic).
    { cases Eo; subst Operator; eexists; (split; [reflexivity|]; split; [reflexivity | unfold arithmetic; member]). }
    destruct Hop as (c & -> & Hc & Harith). exists (Bin c s1 s2). cbn [canonical print denote]. rewrite Hc, C1, C2.
    split; [reflexivity|]. split; [reflexivity|]. intros res. split.
    + inversion 1 as [| | | | |? ? ? ? a b ? Ha Hb Hm|? ? ? ? err Ha|? ? ? ? a err Ha Hb]; subst;
        apply D1 in Ha; rewrite <- Ha; [apply D2 in Hb; rewrite <- Hb | | apply D2 in Hb; rewrite <- Hb]; try reflexivity.
      apply apply_means; [eapply denote_range; [exact C1 | symmetry; exact Ha] | exact Harith | exact Hm].
    + intros ->. destruct (denote lookup s1) as [a|err] eqn:E1; [|apply m_left, D1; reflexivity].
      destruct (denote lookup s2) as [b|err] eqn:E2; [|eapply m_right; [apply D1 | apply D2]; reflexivity].
      eapply m_binary; [apply D1; reflexivity | apply D2; reflexivity|].
      apply apply_means; [exact (denote_range s1 a C1 E1) | exact Harith | reflexivity].
Qed.

(** C22. The text the parser writes for a static argument evaluates, under every
    binding of names to 64-bit integers, to the value or the error the
    expression means, and to nothing else: signed 64-bit arithmetic that wraps,
    division toward zero, an error for a zero divisor or an unbound name, a
    negation written as a subtraction included. *)
Theorem static_argument_meaning e t :
  staticLeaves e -> staticExprText e = Some t -> forall res, staticMeans lookup e res <-> res = Eval_ lookup t.
Proof.
  intros Hl Ht res. destruct (staticExprText_tree e t Hl Ht) as (s & Hc & <- & Hd). rewrite Hd. unfold Eval_.
  pose proof (term_print lookup s "" (S (String.length (print s))) Hc eq_refl) as H. rewrite sapp_nil_r in H.
  rewrite H by lia. destruct (denote lookup s); reflexivity.
Qed.
End Meaning.

Definition sampleArgument : Expr :=
  BinaryExpr (PrefixExpr "-" (BinaryExpr (IdentExpr "n" noSpan) "*" noSpan (IntExpr "3"))) "%" noSpan (IntExpr "4").

Lemma sampleArgument_leaves : staticLeaves sampleArgument.
Proof.
  split; [split; [reflexivity|]|]; [exists 3%Z | exists 4%Z]; (split; [unfold max_int64; lia | reflexivity]).
Qed.

Definition sampleNames (x : string) : option Z := if String.eqb x "n" then Some 5%Z else None.

Lemma static_argument_meaning_witness :
  staticExprText sampleArgument = Some "((0 - (n * 3)) % 4)" /\
  staticMeans sampleNames sampleArgument (Ok (-3)%Z).
Proof.
  split; [reflexivity|]. apply (static_argument_meaning sampleNames) with (t := "((0 - (n * 3)) % 4)").
  - unfold sampleNames. intros x v. destruct (String.eqb x "n"); [|discriminate]. intros [= <-].
    unfold in_int64, min_int64, max_int64. lia.
  - exact sampleArgument_leaves.
  - reflexivity.
  - reflexivity.
Defined.
