(* ===== verification/Layout.v ===== *)
(** * Value layouts of the wasm backend ([internal/wasm/layout.go], [tagged.go])

    Sizes and alignments of values in wasm32 linear memory.  The type table
    the emitter parses with is never told a tree, so it answers as [Parse] does
    ([table_transparent]) and is left out.  Go's [int] has 64 bits here and wraps. *)

From stdpp Require Import base list strings gmap.
From Stdlib Require Import ZArith Lia String Ascii.
From S2P Require Import Prelude GoStd Typ TypParse IR.

#[local] Open Scope string_scope.
#[local] Open Scope Z_scope.
#[local] Open Scope list_scope.

Record wasmLayout : Type := mkLayout { lSize : Z; lAlign : Z }.

Inductive LayoutError : Type :=
  | RecursiveStruct (typ : string)
  | RecursiveUnion (typ : string)
  | NoLayout (typ : string)
  | UnknownStruct (name : string)
  | UnknownUnion (name : string)
  | UnknownField (structName name : string)
  | LayoutFuel.

(** [alignUp]: Go divides towards zero. *)
Definition alignUp (value align : Z) : Z :=
  if align <=? 1 then value
  else wrap64 (Z.quot (wrap64 (wrap64 (value + align) - 1)) align * align).

Definition maxInt (a b : Z) : Z := if b <? a then a else b.

(** ** Spellings *)

Definition wrapped (prefix name : string) : bool := HasPrefix name prefix && HasSuffix name ">".

Definition isArrayWasmType : string -> bool := wrapped "std::array::Array<".
Definition isMapWasmType : string -> bool := wrapped "std::map::Map<".
Definition isArenaWasmType : string -> bool := wrapped "std::arena::Arena<".
Definition isArenaHandleWasmType : string -> bool := wrapped "std::arena::Handle<".
Definition isBoxWasmType : string -> bool := wrapped "std::mem::Box<".
Definition isReferenceType (typ : string) : bool := HasPrefix typ "&".
Definition isRawPointerType : string -> bool := wrapped "ptr<".
Definition isNullablePointerType : string -> bool := wrapped "?ptr<".
Definition isFunctionPointerType (typ : string) : bool := HasPrefix typ "fn(" || HasPrefix typ "unsafe fn(".

Definition arrayHeaderSize : Z := 24.
Definition mapHeaderSize : Z := 40.
Definition arenaHeaderSize : Z := 32.

(** [derefWasmType] *)
Definition derefWasmType (typ : string) : string :=
  if HasPrefix typ "&var " then TrimPrefix typ "&var "
  else if HasPrefix typ "&" then TrimPrefix typ "&"
  else if isRawPointerType typ then TrimPrefix (TrimSuffix (TrimPrefix typ "ptr<") ">") "const "
  else typ.

(** [primitiveLayout]: the switch, then the spellings of addresses and views. *)
Definition primitiveLayout (typ : string) : option wasmLayout :=
  if bool_decide (typ = "void") then Some (mkLayout 0 1)
  else if bool_decide (typ ∈ ["bool"; "i8"; "u8"]) then Some (mkLayout 1 1)
  else if bool_decide (typ ∈ ["i16"; "u16"]) then Some (mkLayout 2 2)
  else if bool_decide (typ ∈ ["i32"; "u32"; "usize"; "isize"]) then Some (mkLayout 4 4)
  else if bool_decide (typ ∈ ["i64"; "u64"; "f64"]) then Some (mkLayout 8 8)
  else if bool_decide (typ = "f32") then Some (mkLayout 4 4)
  else if bool_decide (typ ∈ ["Allocator"; "Io"]) then Some (mkLayout 4 4)
  else if IsVector typ then Some (mkLayout 16 16)
  else if isReferenceType typ || isRawPointerType typ || isNullablePointerType typ || isFunctionPointerType typ
  then Some (mkLayout 4 4)
  else if HasPrefix typ "[]" then Some (mkLayout 8 4)
  else None.

(** [directLayout] *)
Definition directLayout (typ : string) : option wasmLayout :=
  match primitiveLayout typ with
  | Some layout => Some layout
  | None =>
      if isArrayWasmType typ then Some (mkLayout arrayHeaderSize 8)
      else if isMapWasmType typ then Some (mkLayout mapHeaderSize 8)
      else if isArenaWasmType typ then Some (mkLayout arenaHeaderSize 8)
      else if isArenaHandleWasmType typ then Some (mkLayout 8 8)
      else if isBoxWasmType typ then Some (mkLayout 4 4)
      else None
  end.

(** [optionalElemWasm] *)
Definition optionalElemWasm : string -> option string := OptionalElem.

(** [emitter.errorUnionParts] *)
Definition errorUnionPartsWasm (name : string) : option (string * string) :=
  match Parse name with
  | Err _ => None
  | Ok parsed =>
      match ErrorUnionParts parsed with
      | Some (errorType, success) => Some (Text errorType, TypeString success)
      | None => None
      end
  end.

(** [emitter.bufferSize]; an [int64] size always fits the 64-bit [int]. *)
Definition bufferSize (name : string) : option (Z * string) :=
  match Parse name with
  | Ok (Buffer size _ elem) => if size <? 0 then None else Some (size, TypeString elem)
  | _ => None
  end.

(** ** Layouts *)

(** [taggedValueLayout]: the layout and the offset of the payload. *)
Definition taggedValueLayout (payload : wasmLayout) : wasmLayout * Z :=
  let align := maxInt 8 (lAlign payload) in
  let payloadOffset := alignUp 8 (lAlign payload) in
  (mkLayout (alignUp (wrap64 (payloadOffset + lSize payload)) align) align, payloadOffset).

(** [errorUnionPayloadLayout] *)
Definition errorUnionPayloadLayout (success : wasmLayout) : wasmLayout :=
  mkLayout (maxInt 8 (lSize success)) (maxInt 8 (lAlign success)).

Section Emitter.
Context (module : Module_).

(** [isTagType] *)
Definition isTagType (typ : string) : bool :=
  bool_decide (is_Some (mEnums module !! typ)) || bool_decide (is_Some (mErrorSets module !! typ)).

(** [isNamedI64Type] *)
Definition isNamedI64Type (typ : string) : bool := isTagType typ || isArenaHandleWasmType typ.

(** [isMemoryType] *)
Definition isMemoryType (typ : string) : bool :=
  HasPrefix typ "[]" || isArrayWasmType typ || isMapWasmType typ || isArenaWasmType typ ||
  bool_decide (is_Some (optionalElemWasm typ)) || bool_decide (is_Some (errorUnionPartsWasm typ)) ||
  bool_decide (is_Some (mStructs module !! typ)) || bool_decide (is_Some (bufferSize typ)) ||
  bool_decide (is_Some (mUnions module !! typ)).

(** The loops over fields and payloads, given the layout of a type. *)
Section Loops.
Context (layoutOf : string -> result LayoutError wasmLayout).

(** [for _, field := range st.Fields]: size and alignment so far. *)
Fixpoint layoutFields (size align : Z) (fields : list Field) : result LayoutError (Z * Z) :=
  match fields with
  | [] => Ok (size, align)
  | field :: rest =>
      let* layout := layoutOf (fieldType field) in
      layoutFields (wrap64 (alignUp size (lAlign layout) + lSize layout)) (maxInt align (lAlign layout)) rest
  end.

(** [for _, variant := range union.Variants]: the order of a Go map decides
    nothing but which of several errors is returned. *)
Fixpoint layoutPayloads (size align : Z) (variants : list UnionVariant) : result LayoutError (Z * Z) :=
  match variants with
  | [] => Ok (size, align)
  | variant :: rest =>
      if String.eqb (uvPayload variant) "" then layoutPayloads size align rest
      else
        let* layout := layoutOf (uvPayload variant) in
        layoutPayloads (maxInt size (lSize layout)) (maxInt align (lAlign layout)) rest
  end.

(** The loop of [fieldLayout]. *)
Fixpoint fieldOffset (name : string) (offset : Z) (fields : list Field) : result LayoutError (option (Field * Z)) :=
  match fields with
  | [] => Ok None
  | field :: rest =>
      let* layout := layoutOf (fieldType field) in
      let offset := alignUp offset (lAlign layout) in
      if String.eqb (fieldName field) name then Ok (Some (field, offset))
      else fieldOffset name (wrap64 (offset + lSize layout)) rest
  end.
End Loops.

Definition variantsOf (union : Union) : list UnionVariant := map snd (map_to_list (uVariants union)).

(** [typeLayoutVisiting], with the tagged cases of [taggedTypeLayoutVisiting]
    and [arrayLayout].  [LayoutTheorems] shows that some bound is enough. *)
Fixpoint typeLayoutVisiting (fuel : nat) (typ : string) (seen : gset string) : result LayoutError wasmLayout :=
  match fuel with
  | O => Err LayoutFuel
  | S fuel =>
      match directLayout typ with Some layout => Ok layout | None =>
      match optionalElemWasm typ with
      | Some elem =>
          let* payload := typeLayoutVisiting fuel elem seen in
          Ok (fst (taggedValueLayout payload))
      | None =>
      match errorUnionPartsWasm typ with
      | Some (_, success) =>
          let* payload := typeLayoutVisiting fuel success seen in
          Ok (fst (taggedValueLayout (errorUnionPayloadLayout payload)))
      | None =>
      if isTagType typ then Ok (mkLayout 8 8) else
      match bufferSize typ with
      | Some (count, elem) =>
          let* cell := typeLayoutVisiting fuel elem seen in
          Ok (mkLayout (wrap64 (count * lSize cell)) (lAlign cell))
      | None =>
      match mStructs module !! typ with
      | Some st =>
          if bool_decide (typ ∈ seen) then Err (RecursiveStruct typ)
          else
            let* (size, align) := layoutFields (fun t => typeLayoutVisiting fuel t ({[typ]} ∪ seen)) 0 1 (sFields st) in
            Ok (mkLayout (alignUp size align) align)
      | None =>
      match mUnions module !! typ with
      | Some union =>
          if bool_decide (typ ∈ seen) then Err (RecursiveUnion typ)
          else
            let* (payloadSize, payloadAlign) :=
              layoutPayloads (fun t => typeLayoutVisiting fuel t ({[typ]} ∪ seen)) 0 1 (variantsOf union) in
            let align := maxInt 8 payloadAlign in
            let payloadOffset := alignUp 8 payloadAlign in
            Ok (mkLayout (alignUp (wrap64 (payloadOffset + payloadSize)) align) align)
      | None => Err (NoLayout typ)
      end end end end end end
  end.

(** [typeLayout] *)
Definition typeLayout (fuel : nat) (typ : string) : result LayoutError wasmLayout := typeLayoutVisiting fuel typ ∅.

(** [fieldLayout] *)
Definition fieldLayout (fuel : nat) (structName name : string) : result LayoutError (Field * Z) :=
  match mStructs module !! structName with
  | None => Err (UnknownStruct structName)
  | Some st =>
      let* found := fieldOffset (typeLayout fuel) name 0 (sFields st) in
      match found with
      | Some field => Ok field
      | None => Err (UnknownField structName name)
      end
  end.

(** [unionPayloadOffset] *)
Definition unionPayloadOffset (fuel : nat) (unionName : string) : result LayoutError Z :=
  match mUnions module !! unionName with
  | None => Err (UnknownUnion unionName)
  | Some union =>
      let* (_, align) := layoutPayloads (typeLayout fuel) 0 1 (variantsOf union) in
      Ok (alignUp 8 align)
  end.
End Emitter.
