(* ===== verification/LayoutTheorems.v ===== *)
(** * What the layouts promise

    Every type has a layout or an error, alignments are powers of two that
    divide sizes, and the fields of a struct and the payloads of a union lie
    apart, aligned and inside the value. *)

From stdpp Require Import base list strings gmap fin_sets.
From Stdlib Require Import ZArith Lia String Ascii.
From S2P Require Import Prelude GoStd Typ TypParse IR Layout.

#[local] Open Scope string_scope.
#[local] Open Scope Z_scope.
#[local] Open Scope list_scope.

(** ** Alignments *)

Definition okAlign (a : Z) : Prop := a = 1 \/ a = 2 \/ a = 4 \/ a = 8 \/ a = 16.

Lemma okAlign_pos a : okAlign a -> 1 <= a <= 16.
Proof. unfold okAlign. lia. Qed.

Lemma okAlign_word a : okAlign a -> (a | 2 ^ 64).
Proof.
  intros [-> | [-> | [-> | [-> | ->]]]];
    [exists (2 ^ 64) | exists (2 ^ 63) | exists (2 ^ 62) | exists (2 ^ 61) | exists (2 ^ 60)]; reflexivity.
Qed.

Lemma okAlign_max a b : okAlign a -> okAlign b -> okAlign (maxInt a b).
Proof. unfold maxInt. destruct (b <? a); auto. Qed.

Lemma okAlign_max_divides a b : okAlign a -> okAlign b -> (a | maxInt a b) /\ (b | maxInt a b).
Proof.
  intros Ha Hb. unfold maxInt. destruct (Z.ltb_spec b a) as [H|H]; split; try apply Z.divide_refl;
    destruct Ha as [-> | [-> | [-> | [-> | ->]]]]; destruct Hb as [-> | [-> | [-> | [-> | ->]]]]; try lia;
    (apply Z.mod_divide; [lia | reflexivity]).
Qed.

Lemma maxInt_ge a b : a <= maxInt a b /\ b <= maxInt a b.
Proof. unfold maxInt. destruct (Z.ltb_spec b a); lia. Qed.

Lemma maxInt_le a b c : a <= c -> b <= c -> maxInt a b <= c.
Proof. unfold maxInt. destruct (Z.ltb_spec b a); lia. Qed.

(** Wrapping keeps what a power of two up to the word size divides. *)
Lemma wrap64_divide a z : okAlign a -> (a | z) -> (a | wrap64 z).
Proof.
  intros Ha Hz. destruct (wrap64_cong z) as [k ->]. apply Z.divide_add_r; [exact Hz|].
  apply Z.divide_mul_r, okAlign_word, Ha.
Qed.

Lemma alignUp_divides value align : okAlign align -> (align | alignUp value align).
Proof.
  intros Ha. unfold alignUp. destruct (Z.leb_spec align 1) as [H|H].
  - apply okAlign_pos in Ha. replace align with 1 by lia. apply Z.divide_1_l.
  - apply wrap64_divide; [exact Ha|]. apply Z.divide_factor_r.
Qed.

(** Without overflow it is the next multiple. *)
Lemma alignUp_next value align :
  okAlign align -> 0 <= value -> value + 16 <= max_int64 -> value <= alignUp value align < value + align.
Proof.
  intros Ha Hv Hmax. pose proof (okAlign_pos _ Ha). unfold alignUp.
  destruct (Z.leb_spec align 1); [lia|]. unfold max_int64 in Hmax.
  assert (Hin : forall z, 0 <= z <= value + 16 -> wrap64 z = z).
  { intros z Hz. apply wrap64_id. unfold in_int64, min_int64, max_int64. lia. }
  rewrite (Hin (value + align)) by lia. rewrite (Hin (value + align - 1)) by lia.
  rewrite Z.quot_div_nonneg by lia.
  pose proof (Z.div_mod (value + align - 1) align ltac:(lia)).
  pose proof (Z.mod_pos_bound (value + align - 1) align ltac:(lia)). rewrite Hin by nia. nia.
Qed.

(** A layout whose alignment is a power of two that divides its size. *)
Definition okLayout (l : wasmLayout) : Prop := okAlign (lAlign l) /\ (lAlign l | lSize l).

Lemma okLayout_aligned value align : okAlign align -> okLayout (mkLayout (alignUp value align) align).
Proof. intros Ha. split; [exact Ha | apply alignUp_divides, Ha]. Qed.

Lemma okAlign_1 : okAlign 1. Proof. left. reflexivity. Qed.
Lemma okAlign_8 : okAlign 8. Proof. unfold okAlign. auto. Qed.
Create HintDb layout.
#[local] Hint Resolve okAlign_1 okAlign_8 okAlign_max okLayout_aligned : layout.

Lemma directLayout_ok typ l : directLayout typ = Some l -> okLayout l.
Proof.
  assert (Hconst : forall size align, okAlign align -> size mod align = 0 -> okLayout (mkLayout size align)).
  { intros size align Ha Hm. pose proof (okAlign_pos _ Ha). split; [exact Ha|]. apply Z.mod_divide; [cbn; lia | exact Hm]. }
  unfold directLayout, primitiveLayout.
  repeat match goal with |- context [if ?b then _ else _] => destruct b end;
    intros [= <-]; apply Hconst; unfold okAlign; auto 6.
Qed.

Section Layouts.
Context (module : Module_).

Abbreviation layoutIn := (typeLayoutVisiting module).

Lemma layoutFields_ok f size align fields size' align' :
  (forall t l, f t = Ok l -> okLayout l) -> okAlign align ->
  layoutFields f size align fields = Ok (size', align') -> okAlign align'.
Proof.
  intros Hf. revert size align. induction fields as [|field fields IH]; intros size align Ha; cbn [layoutFields].
  { intros [= <- <-]. exact Ha. }
  destruct (f (fieldType field)) as [l|] eqn:E; [|discriminate]. apply IH.
  apply okAlign_max; [exact Ha | apply (Hf _ _ E)].
Qed.

Lemma layoutPayloads_ok f size align variants size' align' :
  (forall t l, f t = Ok l -> okLayout l) -> okAlign align ->
  layoutPayloads f size align variants = Ok (size', align') -> okAlign align'.
Proof.
  intros Hf. revert size align. induction variants as [|v variants IH]; intros size align Ha; cbn [layoutPayloads].
  { intros [= <- <-]. exact Ha. }
  destruct (String.eqb (uvPayload v) ""); [apply IH, Ha|].
  destruct (f (uvPayload v)) as [l|] eqn:E; [|discriminate]. apply IH.
  apply okAlign_max; [exact Ha | apply (Hf _ _ E)].
Qed.

Lemma taggedValueLayout_ok payload : okAlign (lAlign payload) -> okLayout (fst (taggedValueLayout payload)).
Proof. intros Ha. apply okLayout_aligned. auto with layout. Qed.

Lemma layoutIn_ok fuel typ seen l : layoutIn fuel typ seen = Ok l -> okLayout l.
Proof.
  revert typ seen l. induction fuel as [|fuel IH]; intros typ seen l; cbn [typeLayoutVisiting]; [discriminate|].
  destruct (directLayout typ) as [direct|] eqn:Hdirect; [intros [= <-]; eapply directLayout_ok; eassumption|].
  destruct (optionalElemWasm typ) as [elem|].
  { destruct (layoutIn fuel elem seen) as [p|] eqn:E; [|discriminate]. intros [= <-].
    apply (taggedValueLayout_ok p), (IH _ _ _ E). }
  destruct (errorUnionPartsWasm typ) as [[err success]|].
  { destruct (layoutIn fuel success seen) as [p|] eqn:E; [|discriminate]. intros [= <-].
    apply (taggedValueLayout_ok (errorUnionPayloadLayout p)), okAlign_max; [apply okAlign_8 | apply (IH _ _ _ E)]. }
  destruct (isTagType module typ); [intros [= <-]; split; [apply okAlign_8 | exists 1; reflexivity]|].
  destruct (bufferSize typ) as [[count elem]|].
  { destruct (layoutIn fuel elem seen) as [p|] eqn:E; [|discriminate]. intros [= <-]. destruct (IH _ _ _ E) as [H1 H2].
    split; [exact H1|]. apply wrap64_divide; [exact H1 | apply Z.divide_mul_r, H2]. }
  destruct (mStructs module !! typ) as [st|].
  { case_bool_decide; [discriminate|]. destruct (layoutFields _ 0 1 (sFields st)) as [[size align]|] eqn:E; [|discriminate].
    intros [= <-]. apply okLayout_aligned. eapply layoutFields_ok; [|apply okAlign_1 | exact E]. intros t l'. apply IH. }
  destruct (mUnions module !! typ) as [un|]; [|discriminate].
  case_bool_decide; [discriminate|]. destruct (layoutPayloads _ 0 1 (variantsOf un)) as [[size align]|] eqn:E; [|discriminate].
  intros [= <-]. apply okLayout_aligned, okAlign_max; [apply okAlign_8|].
  eapply layoutPayloads_ok; [|apply okAlign_1 | exact E]. intros t l'. apply IH.
Qed.

(** ** More fuel and fewer visited names change no answer *)

Lemma layoutFields_mono f g size align fields r :
  (forall t l, f t = Ok l -> g t = Ok l) -> layoutFields f size align fields = Ok r -> layoutFields g size align fields = Ok r.
Proof.
  intros Hfg. revert size align. induction fields as [|field fields IH]; intros size align; cbn [layoutFields]; [auto|].
  destruct (f (fieldType field)) as [l|] eqn:E; [|discriminate]. rewrite (Hfg _ _ E). apply IH.
Qed.

Lemma layoutPayloads_mono f g size align variants r :
  (forall t l, f t = Ok l -> g t = Ok l) -> layoutPayloads f size align variants = Ok r -> layoutPayloads g size align variants = Ok r.
Proof.
  intros Hfg. revert size align. induction variants as [|v variants IH]; intros size align; cbn [layoutPayloads]; [auto|].
  destruct (String.eqb (uvPayload v) ""); [apply IH|].
  destruct (f (uvPayload v)) as [l|] eqn:E; [|discriminate]. rewrite (Hfg _ _ E). apply IH.
Qed.

Lemma layoutIn_mono fuel fuel' typ seen seen' l :
  (fuel <= fuel')%nat -> seen' ⊆ seen -> layoutIn fuel typ seen = Ok l -> layoutIn fuel' typ seen' = Ok l.
Proof.
  revert fuel' typ seen seen' l. induction fuel as [|fuel IH]; intros fuel' typ seen seen' l Hf Hseen; [discriminate|].
  destruct fuel' as [|fuel']; [lia|]. cbn [typeLayoutVisiting].
  assert (IH' : forall t l, layoutIn fuel t seen = Ok l -> layoutIn fuel' t seen' = Ok l).
  { intros t l0. apply IH; [lia | exact Hseen]. }
  assert (IHs : forall t l, layoutIn fuel t ({[typ]} ∪ seen) = Ok l -> layoutIn fuel' t ({[typ]} ∪ seen') = Ok l).
  { intros t l0. apply IH; [lia | set_solver]. }
  destruct (directLayout typ); [auto|].
  destruct (optionalElemWasm typ) as [elem|].
  { destruct (layoutIn fuel elem seen) as [p|] eqn:E; [|discriminate]. rewrite (IH' _ _ E). auto. }
  destruct (errorUnionPartsWasm typ) as [[err success]|].
  { destruct (layoutIn fuel success seen) as [p|] eqn:E; [|discriminate]. rewrite (IH' _ _ E). auto. }
  destruct (isTagType module typ); [auto|].
  destruct (bufferSize typ) as [[count elem]|].
  { destruct (layoutIn fuel elem seen) as [p|] eqn:E; [|discriminate]. rewrite (IH' _ _ E). auto. }
  destruct (mStructs module !! typ) as [st|].
  { case_bool_decide; [discriminate|]. rewrite bool_decide_eq_false_2 by set_solver.
    destruct (layoutFields _ 0 1 (sFields st)) as [[size align]|] eqn:E; [|discriminate].
    rewrite (layoutFields_mono _ _ _ _ _ _ IHs E). auto. }
  destruct (mUnions module !! typ) as [un|]; [|discriminate].
  case_bool_decide; [discriminate|]. rewrite bool_decide_eq_false_2 by set_solver.
  destruct (layoutPayloads _ 0 1 (variantsOf un)) as [[size align]|] eqn:E; [|discriminate].
  rewrite (layoutPayloads_mono _ _ _ _ _ _ IHs E). auto.
Qed.

(** ** Every type is answered *)

(** From some fuel on, the answer is a layout or an error of the program. *)
Definition settles (typ : string) (seen : gset string) : Prop :=
  exists fuel, forall fuel', (fuel <= fuel')%nat -> layoutIn fuel' typ seen <> Err LayoutFuel.

Lemma settles_list {A} (text : A -> string) seen (l : list A) :
  Forall (fun x => settles (text x) seen) l ->
  exists fuel, forall fuel', (fuel <= fuel')%nat -> Forall (fun x => layoutIn fuel' (text x) seen <> Err LayoutFuel) l.
Proof.
  induction 1 as [|x l [n Hn] _ [m Hm]]; [exists 0%nat; auto|].
  exists (Nat.max n m). intros fuel' Hf. constructor; [apply Hn | apply Hm]; lia.
Qed.

Lemma layoutFields_settled f size align fields :
  Forall (fun x => f (fieldType x) <> Err LayoutFuel) fields -> layoutFields f size align fields <> Err LayoutFuel.
Proof.
  intros H. revert size align. induction H as [|x fields Hx _ IH]; intros size align; cbn [layoutFields]; [discriminate|].
  destruct (f (fieldType x)) as [l|e]; [apply IH | congruence].
Qed.

Lemma layoutPayloads_settled f size align variants :
  Forall (fun x => f (uvPayload x) <> Err LayoutFuel) variants -> layoutPayloads f size align variants <> Err LayoutFuel.
Proof.
  intros H. revert size align. induction H as [|x variants Hx _ IH]; intros size align; cbn [layoutPayloads]; [discriminate|].
  destruct (String.eqb (uvPayload x) ""); [apply IH|]. destruct (f (uvPayload x)) as [l|e]; [apply IH | congruence].
Qed.

(** One level: a type settles when what it is made of does. *)
Record partsSettle (typ : string) (seen : gset string) : Prop := mkParts {
  parts_optional elem : optionalElemWasm typ = Some elem -> settles elem seen;
  parts_error err success : errorUnionPartsWasm typ = Some (err, success) -> settles success seen;
  parts_buffer count elem : bufferSize typ = Some (count, elem) -> settles elem seen;
  parts_struct st : typ ∉ seen -> mStructs module !! typ = Some st ->
    Forall (fun field => settles (fieldType field) ({[typ]} ∪ seen)) (sFields st);
  parts_union un : typ ∉ seen -> mUnions module !! typ = Some un ->
    Forall (fun variant => settles (uvPayload variant) ({[typ]} ∪ seen)) (variantsOf un)
}.

(** From the bound of a part to the bound of the whole. *)
Lemma settles_bound typ seen n (P : nat -> Prop) :
  (forall fuel, (n <= fuel)%nat -> P fuel) ->
  (forall fuel, P fuel -> layoutIn (S fuel) typ seen <> Err LayoutFuel) -> settles typ seen.
Proof.
  intros HP Hstep. exists (S n). intros fuel' Hf. destruct fuel' as [|fuel']; [lia|]. apply Hstep, HP. lia.
Qed.

Lemma settles_step typ seen : partsSettle typ seen -> settles typ seen.
Proof.
  intros [Hoptional Herror Hbuffer Hstruct Hunion].
  destruct (directLayout typ) as [l|] eqn:Ed; [exists 1%nat; intros [|k] Hk; [lia|]; cbn [typeLayoutVisiting]; rewrite Ed; discriminate|].
  destruct (optionalElemWasm typ) as [elem|] eqn:Eo.
  { destruct (Hoptional _ eq_refl) as [n Hn]. apply (settles_bound _ _ _ _ Hn). intros fuel Hp. cbn [typeLayoutVisiting].
    rewrite Ed, Eo. destruct (layoutIn fuel elem seen); [discriminate | congruence]. }
  destruct (errorUnionPartsWasm typ) as [[err success]|] eqn:Ee.
  { destruct (Herror _ _ eq_refl) as [n Hn]. apply (settles_bound _ _ _ _ Hn). intros fuel Hp. cbn [typeLayoutVisiting].
    rewrite Ed, Eo, Ee. destruct (layoutIn fuel success seen); [discriminate | congruence]. }
  destruct (isTagType module typ) eqn:Et.
  { exists 1%nat. intros [|k] Hk; [lia|]. cbn [typeLayoutVisiting]. rewrite Ed, Eo, Ee, Et. discriminate. }
  destruct (bufferSize typ) as [[count elem]|] eqn:Eb.
  { destruct (Hbuffer _ _ eq_refl) as [n Hn]. apply (settles_bound _ _ _ _ Hn). intros fuel Hp. cbn [typeLayoutVisiting].
    rewrite Ed, Eo, Ee, Et, Eb. destruct (layoutIn fuel elem seen); [discriminate | congruence]. }
  destruct (decide (typ ∈ seen)) as [Hin|Hout].
  { exists 1%nat. intros [|k] Hk; [lia|]. cbn [typeLayoutVisiting]. rewrite Ed, Eo, Ee, Et, Eb.
    rewrite bool_decide_eq_true_2 by exact Hin. destruct (mStructs module !! typ), (mUnions module !! typ); discriminate. }
  destruct (mStructs module !! typ) as [st|] eqn:Est.
  { destruct (settles_list _ _ _ (Hstruct _ Hout eq_refl)) as [n Hn]. apply (settles_bound _ _ _ _ Hn). intros fuel Hp.
    cbn [typeLayoutVisiting]. rewrite Ed, Eo, Ee, Et, Eb, Est, bool_decide_eq_false_2 by exact Hout.
    pose proof (layoutFields_settled (fun t => layoutIn fuel t ({[typ]} ∪ seen)) 0 1 _ Hp).
    destruct (layoutFields _ 0 1 _) as [[? ?]|]; [discriminate | intros [= ->]; congruence]. }
  destruct (mUnions module !! typ) as [un|] eqn:Eun.
  { destruct (settles_list _ _ _ (Hunion _ Hout eq_refl)) as [n Hn]. apply (settles_bound _ _ _ _ Hn). intros fuel Hp.
    cbn [typeLayoutVisiting]. rewrite Ed, Eo, Ee, Et, Eb, Est, Eun, bool_decide_eq_false_2 by exact Hout.
    pose proof (layoutPayloads_settled (fun t => layoutIn fuel t ({[typ]} ∪ seen)) 0 1 _ Hp).
    destruct (layoutPayloads _ 0 1 _) as [[? ?]|]; [discriminate | intros [= ->]; congruence]. }
  exists 1%nat. intros [|k] Hk; [lia|]. cbn [typeLayoutVisiting]. rewrite Ed, Eo, Ee, Et, Eb, Est, Eun. discriminate.
Qed.
End Layouts.

(** The spelling of an optional: past the question mark stands a spelling. *)
Lemma Name_not_optional path args rest :
  wf false (Name path args) = true -> HasPrefix (TypeString (Name path args) +:+ rest) "?" = false.
Proof.
  cbn [wf]. rewrite !andb_true_iff, negb_true_iff, bool_decide_eq_false. intros [[Hne Hp] _].
  destruct (Join_head path "::" Hne Hp) as (c & s & Hj & Hc). rewrite TypeString_Name, Hj. cbn [append].
  unfold HasPrefix. cbn [String.prefix]. destruct (ascii_dec "?" c) as [<-|]; [discriminate Hc | reflexivity].
Qed.

Lemma OptionalElem_inv s x : OptionalElem s = Some x -> HasPrefix s "?" = true /\ s = "?" +:+ x.
Proof.
  unfold OptionalElem. destruct (HasPrefix s "?") eqn:Hq; cbn [negb orb]; [|discriminate].
  destruct (HasPrefix s "?ptr<"); [discriminate|]. intros [= <-]. split; [reflexivity|].
  apply HasPrefix_true in Hq as [rest ->]. reflexivity.
Qed.

Lemma optional_spelling t x :
  wf true t = true -> OptionalElem (TypeString t) = Some x -> exists u, wf true u = true /\ x = TypeString u.
Proof.
  intros Hw Hx. apply OptionalElem_inv in Hx as [Hq Heq].
  destruct t as [path args|e|size len e|e m|e|e|ps r u a|[e|] ok]; cbn [TypeString append] in *; try discriminate.
  - pose proof (Name_not_optional path args "" Hw) as H. rewrite sapp_nil_r in H.
    cbn [TypeString append] in H. congruence.
  - destruct m; discriminate.
  - injection Heq as <-. exists e. split; [apply wf_top, Hw | reflexivity].
  - unfold funcHead in Hq. destruct (String.eqb a ""), u; discriminate.
  - cbn [wf] in Hw. rewrite !andb_true_iff in Hw. destruct Hw as [[[_ He] Hb] Hok].
    destruct e as [path args|e|size len e|e m|e|e|ps r u a|[e|] ok']; cbn [TypeString append] in *; try discriminate.
    + pose proof (Name_not_optional path args ("!" +:+ TypeString ok) He) as H.
      cbn [TypeString append] in H. congruence.
    + destruct m; discriminate.
    + injection Heq as <-. exists (ErrorUnion (Some e) ok). split; [|reflexivity].
      cbn [wf noBang] in *. rewrite He, Hb, Hok. reflexivity.
    + unfold funcHead in Hq. destruct (String.eqb a ""), u; discriminate.
Qed.

Section Total.
Context (module : Module_).

(** The types a layout can come back to. *)
Definition aggregates : gset string := dom (mStructs module) ∪ dom (mUnions module).

Definition unseen (seen : gset string) : nat := base.size (aggregates ∖ seen).

Lemma unseen_less typ seen :
  typ ∉ seen -> typ ∈ aggregates -> (unseen ({[typ]} ∪ seen) < unseen seen)%nat.
Proof. intros H1 H2. unfold unseen. apply subset_size. set_solver. Qed.

Lemma errorUnionPartsWasm_inv typ err success :
  errorUnionPartsWasm typ = Some (err, success) ->
  exists e ok, Parse typ = Ok (ErrorUnion e ok) /\ success = TypeString ok /\ wf true ok = true.
Proof.
  unfold errorUnionPartsWasm. destruct (Parse typ) as [t|] eqn:E; [|discriminate].
  destruct t as [| | | | | | |e ok]; cbn [ErrorUnionParts]; try discriminate. intros [= _ <-]. exists e, ok.
  split; [reflexivity|]. split; [reflexivity|]. apply Parse_wf in E. cbn [wf] in E.
  destruct e; [rewrite !andb_true_iff in E; destruct E|]; apply wf_top; assumption.
Qed.

Lemma bufferSize_inv typ count elem :
  bufferSize typ = Some (count, elem) ->
  exists len e, Parse typ = Ok (Buffer count len e) /\ 0 <= count /\ elem = TypeString e /\ wf true e = true.
Proof.
  unfold bufferSize. destruct (Parse typ) as [t|] eqn:E; [|discriminate].
  destruct t as [| |size len e| | | | |]; try discriminate. destruct (Z.ltb_spec size 0); [discriminate|].
  intros [= <- <-]. exists len, e. split; [reflexivity|]. split; [assumption|]. split; [reflexivity|].
  apply Parse_wf in E. cbn [wf] in E. apply andb_true_iff in E as [_ E]. apply wf_top, E.
Qed.

(** The aggregates of a level settle when the next level does. *)
Lemma parts_of_aggregates typ seen :
  (forall t seen', (unseen seen' < unseen seen)%nat -> settles module t seen') ->
  (forall elem, optionalElemWasm typ = Some elem -> settles module elem seen) ->
  (forall err success, errorUnionPartsWasm typ = Some (err, success) -> settles module success seen) ->
  (forall count elem, bufferSize typ = Some (count, elem) -> settles module elem seen) ->
  settles module typ seen.
Proof.
  intros IH Ho He Hb. apply settles_step. split; [exact Ho | exact He | exact Hb | |]; intros agg Hout Hagg;
    apply Forall_forall; intros x _; apply IH, unseen_less; auto; apply elem_of_union; rewrite !elem_of_dom, Hagg; eauto.
Qed.

Lemma canonical_settles seen :
  (forall t seen', (unseen seen' < unseen seen)%nat -> settles module t seen') ->
  forall n t, (String.length (TypeString t) <= n)%nat -> wf true t = true -> settles module (TypeString t) seen.
Proof.
  intros IHseen. induction n as [|n IH]; intros t Hlen Hw.
  { destruct (TypeString_head true t Hw) as (c & s & Hs & _). rewrite Hs in Hlen. cbn in Hlen. lia. }
  apply parts_of_aggregates; [exact IHseen | | |].
  - intros elem Ho. destruct (optional_spelling t elem Hw Ho) as (u & Hu & ->). apply IH; [|exact Hu].
    apply OptionalElem_inv in Ho as [_ Ho]. rewrite Ho in Hlen. cbn in Hlen. lia.
  - intros err success He. apply errorUnionPartsWasm_inv in He as (e & ok & Hp & -> & Hok). apply IH; [|exact Hok].
    rewrite (Parse_TypeString t Hw) in Hp. injection Hp as ->.
    destruct e; cbn [TypeString] in Hlen; rewrite ?slength_app in Hlen; cbn in Hlen; lia.
  - intros count elem Hb. apply bufferSize_inv in Hb as (len & e & Hp & _ & -> & He). apply IH; [|exact He].
    rewrite (Parse_TypeString t Hw) in Hp. injection Hp as ->.
    cbn [TypeString] in Hlen. rewrite !slength_app in Hlen. cbn in Hlen. lia.
Qed.

Lemma all_settle n : forall seen, (unseen seen < n)%nat -> forall typ, settles module typ seen.
Proof.
  induction n as [|n IHn]; intros seen Hn typ; [lia|].
  assert (IHseen : forall t seen', (unseen seen' < unseen seen)%nat -> settles module t seen').
  { intros t seen' Hless. apply IHn. lia. }
  remember (String.length typ) as k eqn:Hk. revert typ Hk. induction (lt_wf k) as [k _ IH]. intros typ ->.
  apply parts_of_aggregates; [exact IHseen | | |].
  - intros elem Ho. apply OptionalElem_inv in Ho as [_ ->]. eapply IH; [|reflexivity]. cbn. lia.
  - intros err success He. apply errorUnionPartsWasm_inv in He as (e & ok & _ & -> & Hok).
    eapply canonical_settles; [exact IHseen | reflexivity | exact Hok].
  - intros count elem Hb. apply bufferSize_inv in Hb as (len & e & _ & _ & -> & He).
    eapply canonical_settles; [exact IHseen | reflexivity | exact He].
Qed.
End Total.

(** ** Fields lie apart *)

Section Fields.
Context (f : string -> result LayoutError wasmLayout).
Context (f_ok : forall t l, f t = Ok l -> okLayout l).

(** The layouts of the fields, and room for them and their padding. *)
Definition laid (fields : list Field) (ls : list wasmLayout) : Prop :=
  Forall2 (fun field l => f (fieldType field) = Ok l /\ 0 <= lSize l) fields ls.

Definition span (ls : list wasmLayout) : Z := foldr (fun l n => lSize l + 16 + n) 0 ls.

Lemma span_nonneg fields ls : laid fields ls -> 0 <= span ls.
Proof. induction 1 as [|? ? ? ? [_ H] _ IH]; cbn [span foldr] in *; [lia|]. unfold span in IH. lia. Qed.

Lemma place_step o l :
  okLayout l -> 0 <= lSize l -> 0 <= o -> o + lSize l + 32 <= max_int64 ->
  o <= alignUp o (lAlign l) < o + 16 /\
  wrap64 (alignUp o (lAlign l) + lSize l) = alignUp o (lAlign l) + lSize l.
Proof.
  intros [Ha _] Hs Ho Hmax. pose proof (okAlign_pos _ Ha). pose proof (alignUp_next o (lAlign l) Ha Ho ltac:(lia)).
  split; [lia|]. apply wrap64_id. unfold in_int64, min_int64. lia.
Qed.

Lemma layoutFields_end fields ls o a s a' :
  laid fields ls -> okAlign a -> 0 <= o -> o + span ls + 32 <= max_int64 ->
  layoutFields f o a fields = Ok (s, a') -> o <= s <= o + span ls /\ (a | a') /\ okAlign a'.
Proof.
  intros Hl. revert o a. induction Hl as [|field l fields ls [Hf Hs] Hl IH]; intros o a Ha Ho Hroom; cbn [layoutFields].
  { intros [= <- <-]. cbn. split; [lia|]. split; [apply Z.divide_refl | exact Ha]. }
  cbn [span foldr] in Hroom. fold (span ls) in Hroom. pose proof (span_nonneg _ _ Hl). pose proof (f_ok _ _ Hf) as Hok.
  destruct (place_step o l Hok Hs Ho ltac:(lia)) as [H1 H2]. rewrite Hf, H2. intros Hrest.
  destruct (okAlign_max_divides a (lAlign l) Ha (proj1 Hok)) as [D1 _].
  destruct (IH (alignUp o (lAlign l) + lSize l) _ (okAlign_max _ _ Ha (proj1 Hok)) ltac:(lia) ltac:(lia) Hrest) as (E1 & E2 & E3).
  change (span (l :: ls)) with (lSize l + 16 + span ls). split; [lia|]. split; [eapply Z.divide_trans; eassumption | exact E3].
Qed.

(** Where one field lands. *)
Lemma fieldOffset_at fields ls o a s a' i field l :
  laid fields ls -> okAlign a -> 0 <= o -> o + span ls + 32 <= max_int64 ->
  layoutFields f o a fields = Ok (s, a') -> NoDup (map fieldName fields) ->
  fields !! i = Some field -> ls !! i = Some l ->
  exists off, fieldOffset f (fieldName field) o fields = Ok (Some (field, off)) /\
    o <= off /\ (lAlign l | off) /\ (lAlign l | a') /\ off + lSize l <= s.
Proof.
  intros Hl. revert o a i. induction Hl as [|fld0 l0 fields ls [Hf Hs] Hl IH]; intros o a i Ha Ho Hroom; [discriminate|].
  cbn [layoutFields fieldOffset span foldr map] in *. fold (span ls) in *. pose proof (span_nonneg _ _ Hl).
  pose proof (f_ok _ _ Hf) as Hok. destruct (place_step o l0 Hok Hs Ho ltac:(lia)) as [H1 H2]. rewrite Hf, H2.
  intros Hrest Hnd Hi Hli. apply NoDup_cons in Hnd as [Hnew Hnd]. pose proof (okAlign_max _ _ Ha (proj1 Hok)) as Hmax.
  destruct (layoutFields_end _ _ (alignUp o (lAlign l0) + lSize l0) _ _ _ Hl Hmax ltac:(lia) ltac:(lia) Hrest) as (E1 & E2 & E3).
  destruct i as [|i]; cbn in Hi, Hli.
  - injection Hi as ->. injection Hli as ->. rewrite String.eqb_refl. eexists. split; [reflexivity|]. split; [lia|].
    split; [apply alignUp_divides, Hok|]. split; [|lia]. eapply Z.divide_trans; [|exact E2].
    apply (okAlign_max_divides a (lAlign l) Ha (proj1 Hok)).
  - destruct (String.eqb_spec (fieldName fld0) (fieldName field)) as [E|_].
    { exfalso. apply Hnew. rewrite E. apply list_elem_of_In, in_map, list_elem_of_In, list_elem_of_lookup. eauto. }
    destruct (IH (alignUp o (lAlign l0) + lSize l0) _ i Hmax ltac:(lia) ltac:(lia) Hrest Hnd Hi Hli) as (off & G1 & G2 & G3). exists off.
    split; [exact G1|]. split; [lia | exact G3].
Qed.

(** A later field starts where an earlier one has ended. *)
Lemma fieldOffset_apart fields ls o a s a' i j fi fj li oi oj :
  laid fields ls -> okAlign a -> 0 <= o -> o + span ls + 32 <= max_int64 ->
  layoutFields f o a fields = Ok (s, a') -> NoDup (map fieldName fields) -> (i < j)%nat ->
  fields !! i = Some fi -> ls !! i = Some li -> fields !! j = Some fj ->
  fieldOffset f (fieldName fi) o fields = Ok (Some (fi, oi)) ->
  fieldOffset f (fieldName fj) o fields = Ok (Some (fj, oj)) -> oi + lSize li <= oj.
Proof.
  intros Hl. revert o a i j. induction Hl as [|fld0 l0 fields ls [Hf Hs] Hl IH]; intros o a i j Ha Ho Hroom; [discriminate|].
  cbn [layoutFields fieldOffset span foldr map] in *. fold (span ls) in *. pose proof (span_nonneg _ _ Hl).
  pose proof (f_ok _ _ Hf) as Hok. destruct (place_step o l0 Hok Hs Ho ltac:(lia)) as [H1 H2]. rewrite Hf, H2.
  intros Hrest Hnd Hij Hi Hli Hj. apply NoDup_cons in Hnd as [Hnew Hnd]. pose proof (okAlign_max _ _ Ha (proj1 Hok)) as Hmax.
  destruct j as [|j]; [lia|]. cbn in Hj.
  assert (Hin : forall k fk, fields !! k = Some fk -> String.eqb (fieldName fld0) (fieldName fk) = false).
  { intros k fk Hk. apply String.eqb_neq. intros E. apply Hnew. rewrite E.
    apply list_elem_of_In, in_map, list_elem_of_In, list_elem_of_lookup. eauto. }
  rewrite (Hin _ _ Hj). destruct i as [|i]; cbn in Hi, Hli.
  - injection Hi as ->. injection Hli as ->. rewrite String.eqb_refl. intros [= <-] Hoj.
    destruct (lookup_lt_is_Some_2 ls j) as [lj Hlj].
    { rewrite <- (Forall2_length _ _ _ Hl). apply lookup_lt_Some in Hj. exact Hj. }
    destruct (fieldOffset_at _ _ (alignUp o (lAlign li) + lSize li) _ _ _ j fj lj Hl Hmax ltac:(lia) ltac:(lia) Hrest Hnd Hj Hlj) as (off & G1 & G2 & _).
    rewrite G1 in Hoj. injection Hoj as ->. lia.
  - rewrite (Hin _ _ Hi). apply (IH (alignUp o (lAlign l0) + lSize l0) _ i j Hmax); auto; lia.
Qed.
(** A union's payload loop: an upper bound of every payload. *)
Lemma layoutPayloads_max B variants s a s' a' :
  (forall v l, In v variants -> f (uvPayload v) = Ok l -> lSize l <= B) -> okAlign a -> s <= B ->
  layoutPayloads f s a variants = Ok (s', a') ->
  s <= s' <= B /\ okAlign a' /\ (a | a') /\
  forall v, In v variants -> uvPayload v <> "" -> exists l, f (uvPayload v) = Ok l /\ lSize l <= s' /\ (lAlign l | a').
Proof.
  revert s a. induction variants as [|v variants IH]; intros s a HB Ha Hs; cbn [layoutPayloads].
  { intros [= <- <-]. split; [lia|]. split; [exact Ha|]. split; [apply Z.divide_refl | intros v []]. }
  assert (HB' : forall w l, In w variants -> f (uvPayload w) = Ok l -> lSize l <= B) by (intros w l Hw; apply HB; right; exact Hw).
  destruct (String.eqb_spec (uvPayload v) "") as [Hempty|Hne].
  { intros H. destruct (IH _ _ HB' Ha Hs H) as (E1 & E2 & E3 & E4). split; [exact E1|]. split; [exact E2|]. split; [exact E3|].
    intros w [<-|Hw] Hw2; [contradiction | apply E4; assumption]. }
  destruct (f (uvPayload v)) as [l|] eqn:E; [|discriminate]. intros H.
  pose proof (maxInt_ge s (lSize l)). pose proof (okAlign_max_divides a (lAlign l) Ha (proj1 (f_ok _ _ E))) as [D1 D2].
  pose proof (HB v l (or_introl eq_refl) E) as Hl.
  destruct (IH _ _ HB' (okAlign_max _ _ Ha (proj1 (f_ok _ _ E))) (maxInt_le _ _ _ Hs Hl) H) as (E1 & E2 & E3 & E4).
  split; [lia|]. split; [exact E2|]. split; [eapply Z.divide_trans; eassumption|].
  intros w [<-|Hw] Hw2; [|apply E4; assumption]. exists l. split; [exact E|]. split; [lia | eapply Z.divide_trans; eassumption].
Qed.
End Fields.

Section Theorems.
Context (module : Module_).

(** ** The theorems *)

(** C31. Laying out a type ends for every module and every type text, recursive
    declarations included: with enough fuel the answer is a layout or one of
    the program's errors, and more fuel does not change the layout. *)
Theorem layout_total typ :
  exists fuel, forall fuel', (fuel <= fuel')%nat ->
    typeLayout module fuel' typ <> Err LayoutFuel /\
    forall l, typeLayout module fuel typ = Ok l -> typeLayout module fuel' typ = Ok l.
Proof.
  destruct (all_settle module (S (unseen module ∅)) ∅ (Nat.lt_succ_diag_r _) typ) as [fuel H]. exists fuel. intros fuel' Hf.
  split; [apply H, Hf|]. intros l Hl. unfold typeLayout in *. eapply layoutIn_mono; [exact Hf | reflexivity | exact Hl].
Qed.

(** C38. Every layout's alignment is 1, 2, 4, 8 or 16 and divides its size, so
    the elements of an array and the copies of a value stay aligned, even
    where the 64-bit size has wrapped around. *)
Theorem layout_aligned fuel typ l : typeLayout module fuel typ = Ok l -> okAlign (lAlign l) /\ (lAlign l | lSize l).
Proof. apply layoutIn_ok. Qed.

(** A type text that is read as the name of a declared aggregate. *)
Definition isDeclared (typ : string) : Prop :=
  directLayout typ = None /\ optionalElemWasm typ = None /\ errorUnionPartsWasm typ = None /\
  isTagType module typ = false /\ bufferSize typ = None.

Lemma struct_layout fuel s st total :
  isDeclared s -> mStructs module !! s = Some st -> typeLayout module fuel s = Ok total ->
  exists size align, layoutFields (typeLayout module fuel) 0 1 (sFields st) = Ok (size, align) /\
    total = mkLayout (alignUp size align) align.
Proof.
  intros (D1 & D2 & D3 & D4 & D5) Hst Ht. destruct fuel as [|fuel]; [discriminate|].
  unfold typeLayout in Ht. cbn [typeLayoutVisiting] in Ht. rewrite D1, D2, D3, D4, D5, Hst in Ht.
  rewrite bool_decide_eq_false_2 in Ht by set_solver.
  destruct (layoutFields _ 0 1 (sFields st)) as [[size align]|] eqn:E; [|discriminate]. injection Ht as <-.
  exists size, align. split; [|reflexivity]. eapply layoutFields_mono; [|exact E].
  intros t l. apply layoutIn_mono; [lia | set_solver].
Qed.

(** C30. The fields of a struct lie apart and inside it: of two fields the one
    declared first ends before the other starts, each starts at a multiple of
    its alignment, which divides the struct's, and the last ends within the
    struct's size. *)
Theorem struct_fields_apart fuel s st ls total i j fi fj :
  isDeclared s -> mStructs module !! s = Some st -> typeLayout module fuel s = Ok total ->
  laid (typeLayout module fuel) (sFields st) ls -> span ls + 32 <= max_int64 ->
  NoDup (map fieldName (sFields st)) -> (i < j)%nat -> sFields st !! i = Some fi -> sFields st !! j = Some fj ->
  exists oi oj li lj,
    fieldLayout module fuel s (fieldName fi) = Ok (fi, oi) /\ typeLayout module fuel (fieldType fi) = Ok li /\
    fieldLayout module fuel s (fieldName fj) = Ok (fj, oj) /\ typeLayout module fuel (fieldType fj) = Ok lj /\
    0 <= oi /\ oi + lSize li <= oj /\ oj + lSize lj <= lSize total /\ (lAlign li | oi) /\ (lAlign lj | oj) /\
    (lAlign li | lAlign total) /\ (lAlign lj | lAlign total).
Proof.
  intros Hd Hst Ht Hl Hroom Hnd Hij Hi Hj.
  destruct (struct_layout fuel s st total Hd Hst Ht) as (size & align & Hfields & ->).
  assert (Hok : forall t l, typeLayout module fuel t = Ok l -> okLayout l) by (intros t l; apply layoutIn_ok).
  pose proof (span_nonneg _ _ _ Hl) as Hspan.
  destruct (layoutFields_end _ Hok _ _ _ _ _ _ Hl okAlign_1 (Z.le_refl 0) ltac:(lia) Hfields) as (E1 & _ & E3).
  pose proof (alignUp_next size align E3 ltac:(lia) ltac:(lia)) as Hup.
  assert (Hlen : forall k fk, sFields st !! k = Some fk -> exists lk, ls !! k = Some lk).
  { intros k fk Hk. apply lookup_lt_is_Some_2. rewrite <- (Forall2_length _ _ _ Hl). eapply lookup_lt_Some, Hk. }
  destruct (Hlen _ _ Hi) as [li Hli]. destruct (Hlen _ _ Hj) as [lj Hlj].
  destruct (fieldOffset_at _ Hok _ _ _ _ _ _ _ _ _ Hl okAlign_1 (Z.le_refl 0) ltac:(lia) Hfields Hnd Hi Hli) as (oi & I1 & I2 & I3 & I4 & I5).
  destruct (fieldOffset_at _ Hok _ _ _ _ _ _ _ _ _ Hl okAlign_1 (Z.le_refl 0) ltac:(lia) Hfields Hnd Hj Hlj) as (oj & J1 & J2 & J3 & J4 & J5).
  pose proof (fieldOffset_apart _ Hok _ _ _ _ _ _ _ _ _ _ _ _ _ Hl okAlign_1 (Z.le_refl 0) ltac:(lia) Hfields Hnd Hij Hi Hli Hj I1 J1) as Hapart.
  exists oi, oj, li, lj. unfold fieldLayout. rewrite Hst, I1, J1. cbn [lSize lAlign].
  destruct (Forall2_lookup_lr _ _ _ _ _ _ Hl Hi Hli) as [Li _]. destruct (Forall2_lookup_lr _ _ _ _ _ _ Hl Hj Hlj) as [Lj _].
  repeat match goal with |- _ /\ _ => split end; auto; lia.
Qed.

Lemma union_layout fuel u un total :
  isDeclared u -> mStructs module !! u = None -> mUnions module !! u = Some un -> typeLayout module fuel u = Ok total ->
  exists size align, layoutPayloads (typeLayout module fuel) 0 1 (variantsOf un) = Ok (size, align) /\
    total = mkLayout (alignUp (wrap64 (alignUp 8 align + size)) (maxInt 8 align)) (maxInt 8 align).
Proof.
  intros (D1 & D2 & D3 & D4 & D5) Hst Hun Ht. destruct fuel as [|fuel]; [discriminate|].
  unfold typeLayout in Ht. cbn [typeLayoutVisiting] in Ht. rewrite D1, D2, D3, D4, D5, Hst, Hun in Ht.
  rewrite bool_decide_eq_false_2 in Ht by set_solver.
  destruct (layoutPayloads _ 0 1 (variantsOf un)) as [[size align]|] eqn:E; [|discriminate]. injection Ht as <-.
  exists size, align. split; [|reflexivity]. eapply layoutPayloads_mono; [|exact E].
  intros t l. apply layoutIn_mono; [lia | set_solver].
Qed.

(** The payload of every variant of a union lies past the tag, at a
    multiple of its alignment, and inside the union. *)
Theorem union_payload_fits fuel u un total k v :
  isDeclared u -> mStructs module !! u = None -> mUnions module !! u = Some un -> typeLayout module fuel u = Ok total ->
  (forall v l, In v (variantsOf un) -> typeLayout module fuel (uvPayload v) = Ok l -> lSize l <= max_int64 - 64) ->
  uVariants un !! k = Some v -> uvPayload v <> "" ->
  exists off l, unionPayloadOffset module fuel u = Ok off /\ typeLayout module fuel (uvPayload v) = Ok l /\
    8 <= off /\ (lAlign l | off) /\ off + lSize l <= lSize total /\ (lAlign l | lAlign total).
Proof.
  intros Hd Hst Hun Ht HB Hk Hv. destruct (union_layout fuel u un total Hd Hst Hun Ht) as (size & align & Hp & ->).
  assert (Hok : forall t l, typeLayout module fuel t = Ok l -> okLayout l) by (intros t l; apply layoutIn_ok).
  destruct (layoutPayloads_max (typeLayout module fuel) Hok (max_int64 - 64) (variantsOf un) 0 1 size align HB okAlign_1 ltac:(unfold max_int64; lia) Hp)
    as (E1 & E2 & _ & E4).
  assert (Hin : In v (variantsOf un)).
  { apply in_map_iff. exists (k, v). split; [reflexivity|]. apply list_elem_of_In, elem_of_map_to_list, Hk. }
  destruct (E4 v Hin Hv) as (l & L1 & L2 & L3).
  pose proof (alignUp_next 8 align E2 ltac:(lia) ltac:(unfold max_int64; lia)) as Hoff.
  pose proof (okAlign_pos _ E2). pose proof (okAlign_max _ _ okAlign_8 E2) as Hmax.
  assert (Hw : wrap64 (alignUp 8 align + size) = alignUp 8 align + size).
  { apply wrap64_id. unfold in_int64, min_int64. unfold max_int64 in *. lia. }
  pose proof (alignUp_next (alignUp 8 align + size) (maxInt 8 align) Hmax ltac:(lia) ltac:(lia)) as Hup.
  exists (alignUp 8 align), l. unfold unionPayloadOffset. rewrite Hun, Hp, Hw. cbn [lSize lAlign].
  split; [reflexivity|]. split; [exact L1|]. split; [lia|].
  split; [eapply Z.divide_trans; [exact L3 | apply alignUp_divides, E2]|]. split; [lia|].
  eapply Z.divide_trans; [exact L3 | apply (okAlign_max_divides 8 align okAlign_8 E2)].
Qed.
End Theorems.

(** ** The theorems at work *)

(** A struct [P] of an [i8], an [i64] and an array of three [i16], and a union
    [U] with a payload of [P] and one of [f64x2]. *)
Definition sampleStruct : Struct :=
  mkStruct "P" [mkField "a" "i8"; mkField "b" "i64"; mkField "c" "[3]i16"].

Definition sampleUnion : Union :=
  mkUnion "U" (list_to_map [("p", mkUnionVariant "p" 0 "P"); ("v", mkUnionVariant "v" 1 "f64x2")]).

Definition sampleModule : Module_ :=
  mkModule {["P" := sampleStruct]} ∅ ∅ {["U" := sampleUnion]} [] ∅.

Lemma layout_aligned_witness : okAlign 8 /\ (8 | 24).
Proof. apply (layout_aligned sampleModule 3 "P" (mkLayout 24 8)). vm_compute. reflexivity. Defined.

Lemma sample_laid : laid (typeLayout sampleModule 3) (sFields sampleStruct) [mkLayout 1 1; mkLayout 8 8; mkLayout 6 2].
Proof. repeat constructor; vm_compute; (reflexivity || congruence). Qed.

Lemma struct_fields_apart_witness :
  exists oi oj li lj,
    fieldLayout sampleModule 3 "P" "a" = Ok (mkField "a" "i8", oi) /\ typeLayout sampleModule 3 "i8" = Ok li /\
    fieldLayout sampleModule 3 "P" "c" = Ok (mkField "c" "[3]i16", oj) /\ typeLayout sampleModule 3 "[3]i16" = Ok lj /\
    0 <= oi /\ oi + lSize li <= oj /\ oj + lSize lj <= lSize (mkLayout 24 8) /\ (lAlign li | oi) /\ (lAlign lj | oj) /\
    (lAlign li | lAlign (mkLayout 24 8)) /\ (lAlign lj | lAlign (mkLayout 24 8)).
Proof.
  apply (struct_fields_apart sampleModule 3 "P" sampleStruct [mkLayout 1 1; mkLayout 8 8; mkLayout 6 2] (mkLayout 24 8) 0 2
    (mkField "a" "i8") (mkField "c" "[3]i16")).
  - repeat split; vm_compute; reflexivity.
  - reflexivity.
  - vm_compute. reflexivity.
  - exact sample_laid.
  - vm_compute. discriminate.
  - apply (bool_decide_unpack _). vm_compute. exact I.
  - lia.
  - reflexivity.
  - reflexivity.
Defined.

Lemma union_payload_fits_witness :
  exists off l, unionPayloadOffset sampleModule 4 "U" = Ok off /\ typeLayout sampleModule 4 "P" = Ok l /\
    8 <= off /\ (lAlign l | off) /\ off + lSize l <= lSize (mkLayout 48 16) /\ (lAlign l | lAlign (mkLayout 48 16)).
Proof.
  apply (union_payload_fits sampleModule 4 "U" sampleUnion (mkLayout 48 16) "p" (mkUnionVariant "p" 0 "P")).
  - repeat split; vm_compute; reflexivity.
  - reflexivity.
  - reflexivity.
  - vm_compute. reflexivity.
  - intros v l Hin. vm_compute in Hin. destruct Hin as [<-|[<-|[]]]; intros E;
      vm_compute in E; injection E as <-; vm_compute; discriminate.
  - reflexivity.
  - discriminate.
Defined.

(** ** Where sizes stop *)

(** An array's size is a 64-bit product that nobody checks: a declared length
    the type parser accepts can wrap it to 0, so an array of 2^61 words is
    laid out in no bytes at all. *)
Lemma array_size_wraps : typeLayout sampleModule 2 "[2305843009213693952]i64" = Ok (mkLayout 0 8).
Proof. vm_compute. reflexivity. Qed.
