(* ===== verification/WasmStructure.v ===== *)
(** * Structured control flow of the wasm backend ([internal/wasm/structure.go],
    [control.go])

    A function's blocks become nested [block]s, [loop]s and [if]s: each block is
    placed under its immediate dominator, a block two forward edges reach gets a
    [block] that ends where it begins, a block a back edge reaches gets a [loop].
    The emitter appends text; here what it appends is a list of [wcode], whose
    items stand for the lines of text.  What single instructions become is one
    item, [WInstr].  [Panic] is a Go panic (a missing map entry dereferenced) or
    a loop out of its bound; [WasmOrder] and [WasmTheorems] show neither
    happens.  A Go map read without a check gives its zero value, written
    [default] here. *)

From stdpp Require Import base list strings gmap sorting.
From Stdlib Require Import String.
From S2P Require Import Prelude GoStd IR Cfg Verify Layout.

#[local] Open Scope string_scope.
#[local] Open Scope list_scope.

Inductive structureError : Type :=
  | Irreducible (pred name : string)
  | UnsupportedTerminator (op : string)
  | Panic.

(** An option as a result. *)
Definition orPanic {A} (o : option A) : result structureError A :=
  match o with Some a => Ok a | None => Err Panic end.

(** [structure] *)
Record structure : Type := mkStructure {
  sBlocks : gmap string Block;
  sOrder : list string;
  sRpo : gmap string nat;
  sPreds : gmap string (list string);
  sIdom : gmap string string;
  sLoopHeaders : gset string;
  sMerges : gset string;
  sMergeChildren : gmap string (list string)
}.

(** ** The analysis *)

(** [for _, block := range fn.Blocks { s.blocks[block.Name] = block }] *)
Definition blocksByName (fn : Function) : gmap string Block :=
  foldl (fun blocks block => <[bName block := block]> blocks) ∅ (fBlocks fn).

(** A loop whose body may panic. *)
Definition foldM {A B} (f : A -> B -> option A) : A -> list B -> option A :=
  fix go acc l := match l with
  | [] => Some acc
  | x :: rest => acc' ← f acc x; go acc' rest
  end.

(** The closure [visit] of [postorderReversed], over [visited] and [post]. *)
Fixpoint visitName (fuel : nat) (blocks : gmap string Block) (name : string)
    (st : gset string * list string) : option (gset string * list string) :=
  match fuel with
  | O => None
  | S fuel =>
      block ← blocks !! name;
      st' ← foldM (fun st target =>
              if decide (target ∈ st.1) then Some st else visitName fuel blocks target st)
              ({[name]} ∪ st.1, st.2) (Successors (bTerminator block));
      Some (st'.1, st'.2 ++ [name])
  end.

(** [postorderReversed] *)
Definition postorderReversed (entry : string) (blocks : gmap string Block) : option (list string) :=
  st ← visitName (S (size blocks)) blocks entry (∅, []);
  Some (reverse st.2).

(** [for index, name := range s.order { s.rpo[name] = index }] *)
Definition rpoOf (order : list string) : gmap string nat :=
  foldl (fun rpo entry => <[entry.2 := entry.1]> rpo) ∅ (imap (fun i (name : string) => (i, name)) order).

(** The loops that fill [s.preds]. *)
Definition addPred (rpo : gmap string nat) (name : string) (preds : gmap string (list string)) (target : string)
  : gmap string (list string) :=
  if decide (is_Some (rpo !! target))
  then <[target := default [] (preds !! target) ++ [name]]> preds
  else preds.

Definition predsFrom (blocks : gmap string Block) (rpo : gmap string nat)
    (preds : gmap string (list string)) (name : string) : option (gmap string (list string)) :=
  block ← blocks !! name;
  Some (foldl (addPred rpo name) preds (Successors (bTerminator block))).

Definition predsOfOrder (blocks : gmap string Block) (rpo : gmap string nat) (order : list string)
  : option (gmap string (list string)) :=
  foldM (predsFrom blocks rpo) ∅ order.

Section Dominators.
Context (rpo : gmap string nat).

Definition rpoAt (name : string) : nat := default 0 (rpo !! name).

(** [for s.rpo[a] > s.rpo[b] { a = s.idom[a] }] *)
Fixpoint climbName (fuel : nat) (idom : gmap string string) (a : string) (bound : nat) : option string :=
  if decide (bound < rpoAt a) then
    match fuel with
    | O => None
    | S fuel => climbName fuel idom (default "" (idom !! a)) bound
    end
  else Some a.

Fixpoint intersectLoop (fuel : nat) (idom : gmap string string) (a b : string) : option string :=
  if decide (a = b) then Some a
  else match fuel with
  | O => None
  | S fuel =>
      a' ← climbName (rpoAt a) idom a (rpoAt b);
      b' ← climbName (rpoAt b) idom b (rpoAt a');
      intersectLoop fuel idom a' b'
  end.

(** [intersect] *)
Definition intersect (idom : gmap string string) (a b : string) : option string :=
  intersectLoop (rpoAt a + rpoAt b) idom a b.

(** One predecessor of the loop of [computeDominators]. *)
Definition meetCandidate (idom : gmap string string) (candidate pred : string) : option string :=
  match idom !! pred with
  | None => Some candidate
  | Some _ => if decide (candidate = "") then Some pred else intersect idom pred candidate
  end.

(** One block of a pass. *)
Definition improveName (preds : gmap string (list string)) (st : gmap string string * bool) (name : string)
  : option (gmap string string * bool) :=
  candidate ← foldM (meetCandidate st.1) "" (default [] (preds !! name));
  if negb (String.eqb candidate "") && negb (String.eqb (default "" (st.1 !! name)) candidate)
  then Some (<[name := candidate]> st.1, true)
  else Some st.

(** [for changed { ... }] *)
Fixpoint iterateNames (fuel : nat) (preds : gmap string (list string)) (order : list string)
    (idom : gmap string string) : option (gmap string string) :=
  match fuel with
  | O => None
  | S fuel =>
      st ← foldM (improveName preds) (idom, false) (tail order);
      if st.2 : bool then iterateNames fuel preds order st.1 else Some st.1
  end.

(** [computeDominators] *)
Definition computeDominators (preds : gmap string (list string)) (order : list string)
  : option (gmap string string) :=
  entry ← head order;
  iterateNames (passBound (List.length order)) preds order {[entry := entry]}.

Fixpoint dominatesLoop (fuel : nat) (idom : gmap string string) (a b : string) : option bool :=
  if decide (a = b) then Some true
  else let parent := default "" (idom !! b) in
  if decide (parent = b) then Some false
  else match fuel with
  | O => None
  | S fuel => dominatesLoop fuel idom a parent
  end.

(** [dominates] *)
Definition dominatesName (idom : gmap string string) (a b : string) : option bool :=
  dominatesLoop (S (rpoAt b)) idom a b.

(** One predecessor of the loop that finds the headers: how many forward edges
    there are, and whether a back edge. *)
Definition classifyPred (idom : gmap string string) (name : string) (st : nat * bool) (pred : string)
  : result structureError (nat * bool) :=
  if decide (rpoAt name <= rpoAt pred) then
    let* dominated := orPanic (dominatesName idom name pred) in
    if dominated : bool then Ok (st.1, true) else Err (Irreducible pred name)
  else Ok (S st.1, st.2).
End Dominators.

Fixpoint classifyPreds (rpo : gmap string nat) (idom : gmap string string) (name : string)
    (st : nat * bool) (preds : list string) : result structureError (nat * bool) :=
  match preds with
  | [] => Ok st
  | pred :: rest =>
      let* st' := classifyPred rpo idom name st pred in
      classifyPreds rpo idom name st' rest
  end.

(** The loop over [s.order] that fills [loopHeaders] and [merges]. *)
Fixpoint classify (rpo : gmap string nat) (idom : gmap string string) (preds : gmap string (list string))
    (order : list string) (headers merges : gset string) : result structureError (gset string * gset string) :=
  match order with
  | [] => Ok (headers, merges)
  | name :: rest =>
      let* st := classifyPreds rpo idom name (0, false) (default [] (preds !! name)) in
      classify rpo idom preds rest
        (if st.2 : bool then {[name]} ∪ headers else headers)
        (if (2 <=? st.1)%nat then {[name]} ∪ merges else merges)
  end.

(** The loop that fills [mergeChildren]. *)
Definition addChild (idom : gmap string string) (merges : gset string)
    (children : gmap string (list string)) (name : string) : gmap string (list string) :=
  if decide (name ∈ merges)
  then let parent := default "" (idom !! name) in
       <[parent := default [] (children !! parent) ++ [name]]> children
  else children.

(** [sort.Slice] with the latest in reverse postorder first: no two names of one
    list have the same place, so the order is the only one. *)
Definition laterFirst (rpo : gmap string nat) (a b : string) : Prop := rpoAt rpo b <= rpoAt rpo a.

#[export] Instance laterFirst_dec rpo a b : Decision (laterFirst rpo a b).
Proof. unfold laterFirst. apply _. Defined.

Definition sortChildren (rpo : gmap string nat) (children : gmap string (list string))
  : gmap string (list string) :=
  merge_sort (laterFirst rpo) <$> children.

(** [analyze] *)
Definition analyze (fn : Function) : result structureError structure :=
  match fBlocks fn with
  | [] => Ok (mkStructure ∅ [] ∅ ∅ ∅ ∅ ∅ ∅)
  | entry :: _ =>
      let blocks := blocksByName fn in
      let* order := orPanic (postorderReversed (bName entry) blocks) in
      let rpo := rpoOf order in
      let* preds := orPanic (predsOfOrder blocks rpo order) in
      let* idom := orPanic (computeDominators rpo preds order) in
      let* marks := classify rpo idom preds order ∅ ∅ in
      let children := foldl (addChild idom marks.2) ∅ order in
      Ok (mkStructure blocks order rpo preds idom marks.1 marks.2 (sortChildren rpo children))
  end.

(** [loopLabel], [blockLabel] *)
Definition loopLabel (name : string) : string := "$loop." +:+ name.
Definition blockLabel (name : string) : string := "$block." +:+ name.

(** [structure.dominates] *)
Definition sDominates (s : structure) (a b : string) : option bool := dominatesName (sRpo s) (sIdom s) a b.
