(* ===== verification/WasmControl.v ===== *)
(** * Writing a function's control flow ([internal/wasm/control.go], [emit.go])

    [writeTree] and the functions it calls, over the structure [analyze] found.
    [values] is what the emitter has recorded ([e.values]) when the terminator of
    a block is written: the expression of each value that is not read from its
    own local, as casts and small constants are not. *)

From stdpp Require Import base list strings gmap.
From Stdlib Require Import String Ascii ZArith.
From S2P Require Import Prelude GoStd IR Cfg Verify Layout WasmStructure.

#[local] Open Scope string_scope.
#[local] Open Scope list_scope.

(** ** Names and expressions *)

(** The replacer of [symbolName]. *)
Fixpoint replaceMarks (name : string) : string :=
  match name with
  | "" => ""
  | String c rest =>
      String (if (Ascii.eqb c "-" || Ascii.eqb c "<" || Ascii.eqb c ">")%char then "_"%char else c)
        (replaceMarks rest)
  end.

(** [symbolName] of [types.go] *)
Definition symbolName (name : string) : string :=
  let name := replaceMarks (TrimPrefix name "%") in
  let name := if starts is_digit name then "v" +:+ name else name in
  "$" +:+ name.

(** What reads a value's own local. *)
Definition localGet (name : string) : string := "(local.get " +:+ symbolName name +:+ ")".

(** [e.value(value).expr] *)
Definition valueExpr (values : gmap string string) (value : Value) : string :=
  match values !! vName value with
  | Some found => found
  | None =>
      match ParseInt (vName value) with
      | Some _ => "(i64.const " +:+ vName value +:+ ")"
      | None => localGet (vName value)
      end
  end.

(** [strings.Contains] *)
Fixpoint Contains (s substr : string) : bool :=
  HasPrefix s substr || match s with "" => false | String _ rest => Contains rest substr end.

(** ** What is written *)

(** One assignment an edge makes to a phi of the block it enters. *)
Record phiCopy : Type := mkPhiCopy { pcDst : Value; pcSrc : Value }.

Inductive wcode : Type :=
  | WInstr (i : Instr)                          (** what [writeInstr] writes *)
  | WCopies (copies : list phiCopy)             (** what [writePhiCopies] writes *)
  | WBlock (label : string) (body : list wcode)
  | WLoop (label : string) (body : list wcode)
  | WIf (cond : Value) (onTrue onFalse : list wcode)
  | WBr (label : string)
  | WBrIf (label : string) (negate : bool) (cond : Value)
  | WReturn (value : Value)                     (** [(return ...)] *)
  | WResult (value : Value)                     (** copied out to [$__kizu_result] *)
  | WUnreachable.

Section Writer.
Context (module : Module_) (values : string -> gmap string string) (s : structure).

Definition isPhi (i : Instr) : bool := String.eqb (iOp i) "phi".

(** The copies [writePhiCopies] has pending when it starts. *)
Definition phiCopiesOf (source : string) (i : Instr) : list phiCopy :=
  if isPhi i
  then map (fun inc => mkPhiCopy (iResult i) (inValue inc))
         (List.filter (fun inc => String.eqb (inBlock inc) source) (iIncoming i))
  else [].

Definition edgeCopies (source target : string) : list phiCopy :=
  match sBlocks s !! target with
  | None => []
  | Some block => flat_map (phiCopiesOf source) (bInstrs block)
  end.

(** [isBackEdge] *)
Definition isBackEdge (source target : string) : bool :=
  bool_decide (target ∈ sLoopHeaders s) &&
  (rpoAt (sRpo s) target <=? rpoAt (sRpo s) source)%nat.

(** *** Whether the other arm of a loop branch reads the header's phis *)

(** [edgeReadsPhis]: [here] is what has been recorded at the branch. *)
Definition edgeReadsPhis (here : gmap string string) (source target : string) (header : Block) (cond : string) : bool :=
  let reads := cond :: map (fun c => valueExpr here (pcSrc c)) (edgeCopies source target) in
  existsb (fun i => isPhi i && existsb (fun read => Contains read (localGet (vName (iResult i)))) reads)
    (bInstrs header).

Definition allBlocks : list Block := map snd (map_to_list (sBlocks s)).

(** One pass of the loop of [phisAndCasts]. *)
Definition growCast (phis : gset string) (i : Instr) : gset string :=
  match iArgs i with
  | [arg] =>
      if String.eqb (iOp i) "cast" && bool_decide (vName arg ∈ phis)
      then {[vName (iResult i)]} ∪ phis else phis
  | _ => phis
  end.

Definition growCasts (phis : gset string) : gset string :=
  foldl growCast phis (flat_map bInstrs allBlocks).

Fixpoint castClosure (fuel : nat) (phis : gset string) : option (gset string) :=
  match fuel with
  | O => None
  | S fuel =>
      let grown := growCasts phis in
      if decide (grown = phis) then Some phis else castClosure fuel grown
  end.

(** [phisAndCasts]: every round but the last adds the result of an instruction. *)
Definition phisAndCasts (header : Block) : option (gset string) :=
  castClosure (S (List.length (flat_map bInstrs allBlocks)))
    (list_to_set (map (fun i => vName (iResult i)) (List.filter isPhi (bInstrs header)))).

(** [visitInstrReads], as the list of the values it visits. *)
Definition visitInstrReads (i : Instr) : list Value := readOperands i.

(** [readsNamesBelow] *)
Definition instrReadsBelow (below names : gset string) (block : Block) (i : Instr) : bool :=
  existsb (fun inc => bool_decide (inBlock inc ∈ below) && bool_decide (vName (inValue inc) ∈ names)) (iIncoming i) ||
  (bool_decide (bName block ∈ below) && negb (isPhi i) &&
   existsb (fun v => bool_decide (vName v ∈ names)) (visitInstrReads i)).

Definition readsNamesBelow (below names : gset string) : bool :=
  existsb (fun block =>
    existsb (instrReadsBelow below names block) (bInstrs block) ||
    (bool_decide (bName block ∈ below) &&
     (bool_decide (vName (tValue (bTerminator block)) ∈ names) ||
      bool_decide (vName (tCond (bTerminator block)) ∈ names)))) allBlocks.

Definition branchSubtreeLimit : nat := 64.

(** The blocks [top] dominates. *)
Definition belowOf (top : string) : option (list string) :=
  foldM (fun below name =>
    dominated ← sDominates s top name;
    Some (if dominated : bool then below ++ [name] else below)) [] (sOrder s).

(** [readsPhisBelow] *)
Definition readsPhisBelow (top : string) (header : Block) : option bool :=
  phis ← phisAndCasts header;
  below ← belowOf top;
  Some (if (branchSubtreeLimit <? List.length below)%nat then true
        else readsNamesBelow (list_to_set below) phis).

(** *** Terminators *)

(** [writeReturn], without the release of the frame. *)
Definition writeReturn (value : Value) : list wcode :=
  if String.eqb (vType value) "void" then [WBr "$exit"]
  else if isMemoryType module (vType value) then [WResult value; WBr "$exit"]
  else [WReturn value].

Section Tree.
(** The recursive call of [writeTree]. *)
Context (tree : string -> result structureError (list wcode)).

(** [writeBranchTo] *)
Definition writeBranchTo (source target : string) : result structureError (list wcode) :=
  let copies := WCopies (edgeCopies source target) in
  if isBackEdge source target then Ok [copies; WBr (loopLabel target)]
  else if bool_decide (target ∈ sMerges s) then Ok [copies; WBr (blockLabel target)]
  else let* rest := tree target in Ok (copies :: rest).

(** The arms of [writeLoopBranch]: which one goes back, and whether that is the
    one taken when the condition is false. *)
Definition loopArms (block : Block) : string * string * bool :=
  let term := bTerminator block in
  if isBackEdge (bName block) (tTarget term) then (tTarget term, tElse term, false)
  else (tElse term, tTarget term, true).

(** The conditions of [writeLoopBranch]. *)
Definition takesLoopBranch (block : Block) (back other : string) : option bool :=
  if String.eqb back other || negb (isBackEdge (bName block) back) then Some false
  else
    header ← sBlocks s !! back;
    _ ← sBlocks s !! other;
    below ← (if negb (isBackEdge (bName block) other) && negb (bool_decide (other ∈ sMerges s))
             then readsPhisBelow other header else Some false);
    if below : bool then Some false
    else
      let here := values (bName block) in
      Some (negb (edgeReadsPhis here (bName block) other header (valueExpr here (tCond (bTerminator block))))).

(** [writeLoopBranch]: [None] when it does not write the branch. *)
Definition writeLoopBranch (block : Block) : result structureError (option (list wcode)) :=
  let '(back, other, negate) := loopArms block in
  let* takes := orPanic (takesLoopBranch block back other) in
  if takes : bool then
    let* rest := writeBranchTo (bName block) other in
    Ok (Some (WCopies (edgeCopies (bName block) back) ::
              WBrIf (loopLabel back) negate (tCond (bTerminator block)) :: rest))
  else Ok None.

(** [writeBranch] *)
Definition writeBranch (block : Block) : result structureError (list wcode) :=
  let term := bTerminator block in
  let* written := writeLoopBranch block in
  match written with
  | Some code => Ok code
  | None =>
      let* onTrue := writeBranchTo (bName block) (tTarget term) in
      let* onFalse := writeBranchTo (bName block) (tElse term) in
      Ok [WIf (tCond term) onTrue onFalse]
  end.

(** [writeTerminator] *)
Definition writeTerminator (block : Block) : result structureError (list wcode) :=
  let term := bTerminator block in
  if String.eqb (tOp term) "return" then Ok (writeReturn (tValue term))
  else if String.eqb (tOp term) "jump" then writeBranchTo (bName block) (tTarget term)
  else if String.eqb (tOp term) "branch" then writeBranch block
  else if String.eqb (tOp term) "unreachable" then Ok [WUnreachable]
  else Err (UnsupportedTerminator (tOp term)).

(** [writeNodeWithin] *)
Fixpoint writeNodeWithin (name : string) (merges : list string) : result structureError (list wcode) :=
  match merges with
  | first :: rest =>
      let* inner := writeNodeWithin name rest in
      let* after := tree first in
      Ok (WBlock (blockLabel first) inner :: after)
  | [] =>
      match sBlocks s !! name with
      | None => Err Panic
      | Some block =>
          let* last := writeTerminator block in
          Ok (map WInstr (List.filter (fun i => negb (isPhi i)) (bInstrs block)) ++ last)
      end
  end.
End Tree.

(** [writeTree] *)
Fixpoint writeTree (fuel : nat) (name : string) : result structureError (list wcode) :=
  match fuel with
  | O => Err Panic
  | S fuel =>
      let* body := writeNodeWithin (writeTree fuel) name (default [] (sMergeChildren s !! name)) in
      Ok (if decide (name ∈ sLoopHeaders s) then [WLoop (loopLabel name) body] else body)
  end.
End Writer.

(** The body [writeFunction] of [emit.go] writes: each level of the tree is later
    in reverse postorder than the one above it. *)
Definition writeFunctionBody (module : Module_) (values : string -> gmap string string) (fn : Function)
  : result structureError (list wcode) :=
  let* s := analyze fn in
  let* code := match fBlocks fn with
               | [] => Ok []
               | entry :: _ => writeTree module values s (S (List.length (sOrder s))) (bName entry)
               end in
  Ok (WBlock "$exit" code ::
      (if negb (String.eqb (fReturn fn) "void") && negb (isMemoryType module (fReturn fn))
       then [WUnreachable] else [])).
