(* ===== verification/WasmOrder.v ===== *)
(** * Names and positions: the order and the dominators of [WasmStructure]

    [internal/wasm] names blocks where [internal/ir] numbers them.  For a
    function whose names are distinct, the search over names is the search over
    positions, so [postorderReversed] lists the names of [reversePostorder], and
    [s.preds] are the edges of the reachable blocks. *)

From stdpp Require Import base list strings gmap.
From Stdlib Require Import Lia.
From S2P Require Import Prelude GoStd IR Cfg Dominators CfgFacts WasmStructure.

#[local] Open Scope list_scope.

(** What the emitter takes for granted of a function's blocks. *)
Class NamedBlocks (fn : Function) : Prop := {
  nb_some : fBlocks fn <> [];
  nb_distinct : NoDup (map bName (fBlocks fn));
  nb_named : ""%string ∉ map bName (fBlocks fn);
  nb_targets : forall b t, b ∈ fBlocks fn -> t ∈ Successors (bTerminator b) -> t ∈ map bName (fBlocks fn)
}.

Section Names.
Context {fn : Function} {NB : NamedBlocks fn}.

#[local] Abbreviation n := (CfgFacts.size fn).

Lemma blocks_pos : 0 < n.
Proof. pose proof nb_some. unfold CfgFacts.size. destruct (fBlocks fn); [contradiction | simpl; lia]. Qed.

(** The name at a position, and the block of a name. *)
Definition nameAt (p : nat) : string := default ""%string (bName <$> fBlocks fn !! p).

Lemma nameAt_lookup p b : fBlocks fn !! p = Some b -> nameAt p = bName b.
Proof. intros H. unfold nameAt. rewrite H. reflexivity. Qed.

Lemma nameAt_in p : p < n -> nameAt p ∈ map bName (fBlocks fn).
Proof.
  intros Hp. destruct (lookup_lt_is_Some_2 (fBlocks fn) p Hp) as [b Hb].
  rewrite (nameAt_lookup p b Hb). apply list_elem_of_In, in_map, list_elem_of_In, (list_elem_of_lookup_2 _ _ _ Hb).
Qed.

Lemma nameAt_nonempty p : p < n -> nameAt p <> ""%string.
Proof. intros Hp H. apply nb_named. rewrite <- H. apply nameAt_in, Hp. Qed.

Lemma nameAt_inj p q : p < n -> q < n -> nameAt p = nameAt q -> p = q.
Proof.
  intros Hp Hq H. destruct (lookup_lt_is_Some_2 (fBlocks fn) p Hp) as [b Hb].
  destruct (lookup_lt_is_Some_2 (fBlocks fn) q Hq) as [c Hc].
  rewrite (nameAt_lookup p b Hb), (nameAt_lookup q c Hc) in H.
  apply (NoDup_lookup (map bName (fBlocks fn)) p q (bName b)); [apply nb_distinct | |].
  - rewrite list_lookup_fmap, Hb. reflexivity.
  - rewrite list_lookup_fmap, Hc. simpl. congruence.
Qed.

Lemma named_position x : x ∈ map bName (fBlocks fn) -> exists p, p < n /\ nameAt p = x.
Proof.
  intros Hx. apply list_elem_of_In, in_map_iff in Hx as (b & <- & Hb).
  apply list_elem_of_In, list_elem_of_lookup in Hb as [p Hp].
  exists p. split; [eapply lookup_lt_Some, Hp | apply nameAt_lookup, Hp].
Qed.

Lemma blockIndex_nameAt p : p < n -> blockIndex fn !! nameAt p = Some p.
Proof.
  intros Hp. destruct (lookup_lt_is_Some_2 (fBlocks fn) p Hp) as [b Hb].
  destruct (proj2 (blockIndex_is_Some fn (nameAt p))) as [q Hq].
  { exists b. split; [eapply list_elem_of_lookup_2, Hb | symmetry; apply nameAt_lookup, Hb]. }
  rewrite Hq. f_equal. apply blockIndex_Some in Hq as (c & Hc & Hn).
  apply nameAt_inj; [eapply lookup_lt_Some, Hc | exact Hp |]. rewrite (nameAt_lookup q c Hc). exact Hn.
Qed.

(** The map by name holds the blocks. *)
Lemma blocksByName_from blocks (m : gmap string Block) x b :
  foldl (fun m block => <[bName block := block]> m) m blocks !! x = Some b ->
  m !! x = Some b \/ (b ∈ blocks /\ bName b = x).
Proof.
  revert m. induction blocks as [|c blocks IH]; intros m H; [left; exact H|].
  apply IH in H as [H|[H Hn]]; [|right; split; [right; exact H | exact Hn]].
  destruct (decide (bName c = x)) as [<-|Hne].
  - rewrite lookup_insert_eq in H. injection H as <-. right. split; [left | reflexivity].
  - rewrite lookup_insert_ne in H by exact Hne. left. exact H.
Qed.

Lemma blocksByName_some blocks (m : gmap string Block) x :
  is_Some (foldl (fun m block => <[bName block := block]> m) m blocks !! x) <->
  is_Some (m !! x) \/ x ∈ map bName blocks.
Proof.
  revert m. induction blocks as [|c blocks IH]; intros m; cbn [foldl map].
  - rewrite elem_of_nil. tauto.
  - rewrite IH, elem_of_cons. destruct (decide (bName c = x)) as [<-|Hne].
    + rewrite lookup_insert_eq. split; intros _; [right; left; reflexivity | left; eauto].
    + rewrite lookup_insert_ne by exact Hne. split; intros [H|H]; auto. destruct H; [congruence | auto].
Qed.

Lemma blocksByName_at p b : fBlocks fn !! p = Some b -> blocksByName fn !! bName b = Some b.
Proof.
  intros Hb. unfold blocksByName.
  destruct (proj2 (blocksByName_some (fBlocks fn) ∅ (bName b))) as [c Hc].
  { right. apply list_elem_of_In, in_map, list_elem_of_In, (list_elem_of_lookup_2 _ _ _ Hb). }
  rewrite Hc. f_equal. apply blocksByName_from in Hc as [Hc|[Hc Hn]]; [rewrite lookup_empty in Hc; discriminate|].
  apply list_elem_of_lookup in Hc as [q Hq].
  assert (q = p) as ->.
  { apply nameAt_inj; [eapply lookup_lt_Some, Hq | eapply lookup_lt_Some, Hb |].
    rewrite (nameAt_lookup q c Hq), (nameAt_lookup p b Hb). exact Hn. }
  congruence.
Qed.

Lemma blocksByName_lookup p : p < n -> exists b, fBlocks fn !! p = Some b /\ bName b = nameAt p /\
  blocksByName fn !! nameAt p = Some b.
Proof.
  intros Hp. destruct (lookup_lt_is_Some_2 (fBlocks fn) p Hp) as [b Hb]. exists b.
  rewrite (nameAt_lookup p b Hb). eauto using blocksByName_at.
Qed.

Lemma blocksByName_size : n <= base.size (blocksByName fn).
Proof.
  rewrite <- size_dom. unfold CfgFacts.size. rewrite <- (length_map bName (fBlocks fn)).
  rewrite <- (size_list_to_set (C := gset string)) by apply nb_distinct.
  apply subseteq_size. intros x Hx. apply elem_of_list_to_set in Hx.
  apply elem_of_dom, blocksByName_some. right. exact Hx.
Qed.

(** The successors of a position are the positions of the targets. *)
Lemma succs_names p b :
  fBlocks fn !! p = Some b -> map nameAt (succs fn p) = Successors (bTerminator b).
Proof.
  intros Hb. unfold succs, succPositions. rewrite Hb.
  assert (Ht : forall t, t ∈ Successors (bTerminator b) -> t ∈ map bName (fBlocks fn)).
  { intros t. apply nb_targets, (list_elem_of_lookup_2 _ _ _ Hb). }
  induction (Successors (bTerminator b)) as [|t ts IH]; [reflexivity|]. cbn [omap list_omap].
  destruct (named_position t (Ht t ltac:(left))) as (q & Hq & <-).
  change (CfgFacts.at_ fn) with (blockIndex fn). rewrite (blockIndex_nameAt q Hq). cbn [map]. f_equal.
  apply IH. intros x Hx. apply Ht. right. exact Hx.
Qed.

Lemma succ_of_name p q b :
  fBlocks fn !! p = Some b -> q < n -> q ∈ succs fn p <-> nameAt q ∈ Successors (bTerminator b).
Proof.
  intros Hb Hq. rewrite <- (succs_names p b Hb). split; intros H.
  - apply list_elem_of_In, in_map, list_elem_of_In, H.
  - apply list_elem_of_In, in_map_iff in H as (r & Hr & Hin). apply list_elem_of_In in Hin.
    destruct (succs_bound _ _ _ Hin) as [_ Hrn]. apply nameAt_inj in Hr; [subst; exact Hin | exact Hrn | exact Hq].
Qed.

Lemma map_reverse_name {A B} (f : A -> B) l : map f (reverse l) = reverse (map f l).
Proof. unfold reverse. rewrite <- !rev_alt. apply map_rev. Qed.

(** ** The search *)

(** The two states of the search agree. *)
Definition sameSearch (st : gset string * list string) (st' : list bool * list nat) : Prop :=
  length st'.1 = n /\ st.2 = map nameAt st'.2 /\
  forall q, q < n -> nameAt q ∈ st.1 <-> marked st'.1 q.

Lemma succs_in_bounds p q : p < n -> q ∈ succs fn p -> q < n.
Proof. intros _ H. apply (succs_bound _ _ _ H). Qed.

Lemma visitName_targets fuel :
  (forall p st st', sameSearch st st' -> unvisited st'.1 < fuel -> st'.1 !! p = Some false ->
     exists r, visitName fuel (blocksByName fn) (nameAt p) st = Some r /\ sameSearch r (visit fuel (succs fn) p st')) ->
  forall l st st', sameSearch st st' -> unvisited st'.1 < fuel -> (forall q, q ∈ l -> q < n) ->
  exists r, foldM (fun st target => if decide (target ∈ st.1) then Some st
                                    else visitName fuel (blocksByName fn) target st) st (map nameAt l) = Some r /\
    sameSearch r (foldl (fun st to => visit fuel (succs fn) to st) st' l).
Proof.
  intros Hvisit l. induction l as [|q l IH]; intros st st' S Hf Hb; cbn [map foldM foldl]; [eauto|].
  assert (Hq : q < n) by (apply Hb; left). destruct S as (Hl & Hp & Hm).
  assert (Hnext : exists r, (if decide (nameAt q ∈ st.1) then Some st
                             else visitName fuel (blocksByName fn) (nameAt q) st) = Some r /\
                            sameSearch r (visit fuel (succs fn) q st')).
  { destruct (decide (nameAt q ∈ st.1)) as [Hin|Hout].
    - exists st. split; [reflexivity|]. apply Hm in Hin; [|exact Hq]. unfold marked in Hin.
      destruct fuel as [|fuel]; [lia|]. simpl. rewrite Hin. repeat split; auto; apply Hm; assumption.
    - apply Hvisit; [repeat split; auto; apply Hm; assumption | exact Hf |].
      apply not_marked with (n := n); [exact Hl | exact Hq |]. rewrite <- Hm by exact Hq. exact Hout. }
  destruct Hnext as (r & -> & Sr). cbn [mbind option_bind].
  destruct st' as [vis ord]. cbn [fst] in *.
  destruct (visit_spec (succs fn) n succs_in_bounds fuel q vis ord Hf Hl Hq) as (new & _ & A & _).
  apply IH; [exact Sr | | intros x Hx; apply Hb; right; exact Hx].
  assert (unvisited (visit fuel (succs fn) q (vis, ord)).1 <= unvisited vis); [|lia].
  apply unvisited_antitone; [rewrite (add_len _ _ _ _ _ A); exact (eq_sym Hl) || (rewrite Hl; reflexivity)|].
  intros x Hx. apply (add_marked _ _ _ _ _ A). auto.
Qed.

Lemma visitName_spec fuel p st st' :
  sameSearch st st' -> unvisited st'.1 < fuel -> st'.1 !! p = Some false ->
  exists r, visitName fuel (blocksByName fn) (nameAt p) st = Some r /\ sameSearch r (visit fuel (succs fn) p st').
Proof.
  revert p st st'. induction fuel as [|fuel IH]; intros p st st' S Hf Hp; [lia|].
  destruct S as (Hl & Hpost & Hm).
  assert (Hpn : p < n) by (rewrite <- Hl; eapply lookup_lt_Some, Hp).
  cbn [visitName visit]. rewrite Hp.
  destruct (blocksByName_lookup p Hpn) as (b & Hb & _ & ->). cbn [mbind option_bind].
  rewrite <- (succs_names p b Hb). pose proof (unvisited_mark st'.1 p Hp) as Hu.
  destruct (visitName_targets fuel IH (succs fn p) ({[nameAt p]} ∪ st.1, st.2) (<[p := true]> st'.1, st'.2))
    as (r & -> & Sr).
  - split; [cbn [fst]; rewrite length_insert; exact Hl|]. split; [exact Hpost|]. intros q Hq. cbn [fst].
    rewrite elem_of_union, elem_of_singleton, (Hm q Hq). unfold marked.
    destruct (decide (q = p)) as [->|Hne].
    + rewrite list_lookup_insert_eq by lia. tauto.
    + rewrite list_lookup_insert_ne by congruence. split; [|tauto].
      intros [H|H]; [apply nameAt_inj in H; [contradiction | exact Hq | exact Hpn] | exact H].
  - cbn [fst]. lia.
  - intros q Hq. apply (succs_in_bounds p q Hpn Hq).
  - cbn [mbind option_bind]. eexists. split; [reflexivity|]. destruct Sr as (Hl' & Hp' & Hm').
    split; [exact Hl'|]. split; [|exact Hm']. cbn [snd]. rewrite Hp', map_app. reflexivity.
Qed.

(** More fuel changes nothing. *)
Lemma foldM_more {A B} (g g' : A -> B -> option A) l a r :
  (forall a x r, g a x = Some r -> g' a x = Some r) -> foldM g a l = Some r -> foldM g' a l = Some r.
Proof.
  intros Hg. revert a. induction l as [|x l IH]; intros a H; cbn [foldM] in *; [exact H|].
  destruct (g a x) as [a'|] eqn:E; [|discriminate]. rewrite (Hg a x a' E). apply IH, H.
Qed.

Lemma visitName_more f f' blocks x st r :
  f <= f' -> visitName f blocks x st = Some r -> visitName f' blocks x st = Some r.
Proof.
  revert f' x st r. induction f as [|f IH]; intros [|f'] x st r Hf H; [discriminate | discriminate | lia |].
  cbn [visitName] in *. destruct (blocks !! x) as [b|]; [|discriminate]. cbn [mbind option_bind] in *.
  match type of H with context [foldM ?g ?a ?l] => destruct (foldM g a l) as [st'|] eqn:E; [|discriminate] end.
  erewrite foldM_more; [exact H | | exact E]. intros a t a' Ha. cbn beta in *.
  destruct (decide (t ∈ a.1)); [exact Ha | apply IH; [lia | exact Ha]].
Qed.

(** [postorderReversed] lists the names of the reverse postorder. *)
Lemma postorderReversed_spec :
  postorderReversed (nameAt 0) (blocksByName fn) = Some (map nameAt (CfgFacts.order fn)).
Proof.
  unfold postorderReversed. pose proof blocksByName_size as Hsize. pose proof blocks_pos as H0.
  destruct (visitName_spec (S n) 0 (∅, []) (replicate n false, [])) as (r & Hr & _ & Hpost & _).
  - split; [apply length_replicate|]. split; [reflexivity|]. intros q Hq. cbn [fst]. unfold marked.
    rewrite lookup_replicate_2 by exact Hq. split; [intros H; apply elem_of_empty in H as [] | discriminate].
  - cbn [fst]. rewrite unvisited_replicate. lia.
  - cbn [fst]. apply lookup_replicate_2, H0.
  - rewrite (visitName_more (S n) (S (base.size (blocksByName fn))) _ _ _ _ ltac:(lia) Hr). cbn [mbind option_bind].
    f_equal. rewrite Hpost. unfold CfgFacts.order, reversePostorder.
    rewrite map_reverse_name. reflexivity.
Qed.

(** ** Places and predecessors *)

(** [s.order] *)
Definition orderNames : list string := map nameAt (CfgFacts.order fn).

Lemma orderNames_lookup i x :
  orderNames !! i = Some x <-> exists p, CfgFacts.order fn !! i = Some p /\ nameAt p = x.
Proof.
  unfold orderNames. rewrite list_lookup_fmap, fmap_Some. split; intros (p & H & E); exists p; auto.
Qed.

Lemma order_in p : p ∈ CfgFacts.order fn -> p < n.
Proof. apply order_bound, blocks_pos. Qed.

Lemma orderNames_NoDup : NoDup orderNames.
Proof.
  apply NoDup_alt. intros i j x Hi Hj.
  apply orderNames_lookup in Hi as (p & Hp & <-), Hj as (q & Hq & Hpq).
  apply nameAt_inj in Hpq as ->; [| apply order_in, (list_elem_of_lookup_2 _ _ _ Hq) | apply order_in, (list_elem_of_lookup_2 _ _ _ Hp)].
  exact (order_inj fn blocks_pos i j p Hp Hq).
Qed.

Lemma orderNames_elem x : x ∈ orderNames <-> exists p, p ∈ CfgFacts.order fn /\ nameAt p = x.
Proof.
  unfold orderNames. rewrite list_elem_of_fmap. split; intros (p & H & E); exists p; auto.
Qed.

Lemma orderNames_position p : p < n -> nameAt p ∈ orderNames <-> p ∈ CfgFacts.order fn.
Proof.
  intros Hp. rewrite orderNames_elem. split; [|eauto].
  intros (q & Hq & E). apply nameAt_inj in E; [subst; exact Hq | apply order_in, Hq | exact Hp].
Qed.

(** [s.rpo] *)
Lemma rpoOf_from k l (rpo : gmap string nat) x :
  NoDup l ->
  foldl (fun rpo entry => <[entry.2 := entry.1]> rpo) rpo (imap (fun i (name : string) => (k + i, name)) l) !! x =
  match list_find (eq x) l with Some (i, _) => Some (k + i) | None => rpo !! x end.
Proof.
  revert k rpo. induction l as [|y l IH]; intros k rpo Hnd; [reflexivity|].
  apply NoDup_cons in Hnd as [Hy Hnd]. cbn [imap foldl list_find fst snd].
  assert (E : imap ((fun i (name : string) => (k + i, name)) ∘ S) l = imap (fun i (name : string) => (S k + i, name)) l).
  { apply imap_ext. intros i z _. simpl. f_equal. lia. }
  rewrite E, IH by exact Hnd. destruct (decide (x = y)) as [->|Hne].
  - destruct (list_find (eq y) l) as [[i z]|] eqn:Hf; cbn [fmap option_fmap option_map].
    + apply list_find_Some in Hf as (Hi & <- & _). contradict Hy. eapply list_elem_of_lookup_2, Hi.
    + rewrite Nat.add_0_r. apply lookup_insert_eq.
  - destruct (list_find (eq x) l) as [[i z]|]; cbn [fmap option_fmap option_map prod_map fst]; [f_equal; lia|].
    apply lookup_insert_ne. congruence.
Qed.

Lemma rpoOf_spec l x i : NoDup l -> rpoOf l !! x = Some i <-> l !! i = Some x.
Proof.
  intros Hnd. unfold rpoOf. rewrite (rpoOf_from 0 l ∅ x Hnd). destruct (list_find (eq x) l) as [[k y]|] eqn:Hf.
  - apply list_find_Some in Hf as (Hk & <- & _). split; [intros [= <-]; exact Hk|].
    intros Hi. f_equal. exact (NoDup_lookup l k i x Hnd Hk Hi).
  - apply list_find_None in Hf. rewrite lookup_empty. split; [discriminate|].
    intros Hi. rewrite Forall_lookup in Hf. exfalso. exact (Hf i x Hi eq_refl).
Qed.

#[local] Abbreviation rpo := (rpoOf orderNames).

Lemma rpo_lookup i p : CfgFacts.order fn !! i = Some p -> rpo !! nameAt p = Some i.
Proof. intros H. apply rpoOf_spec; [apply orderNames_NoDup|]. apply orderNames_lookup. eauto. Qed.

Lemma rpoAt_order i p : CfgFacts.order fn !! i = Some p -> rpoAt rpo (nameAt p) = i.
Proof. intros H. unfold rpoAt. rewrite (rpo_lookup i p H). reflexivity. Qed.

Lemma rpo_some x : is_Some (rpo !! x) <-> x ∈ orderNames.
Proof.
  split.
  - intros [i Hi]. apply rpoOf_spec in Hi; [|apply orderNames_NoDup]. eapply list_elem_of_lookup_2, Hi.
  - intros Hx. apply list_elem_of_lookup in Hx as [i Hi]. exists i. apply rpoOf_spec, Hi. apply orderNames_NoDup.
Qed.

(** [s.preds] *)
Lemma addPreds_elem (r : gmap string nat) name preds ts t x :
  x ∈ default [] (foldl (addPred r name) preds ts !! t) <->
  x ∈ default [] (preds !! t) \/ (x = name /\ t ∈ ts /\ is_Some (r !! t)).
Proof.
  revert preds. induction ts as [|u ts IH]; intros preds; cbn [foldl].
  - rewrite elem_of_nil. tauto.
  - rewrite IH, elem_of_cons. unfold addPred. destruct (decide (is_Some (r !! u))) as [Hu|Hu].
    + destruct (decide (u = t)) as [->|Hne].
      * rewrite lookup_insert_eq. unfold from_option, id. rewrite elem_of_app, list_elem_of_singleton. tauto.
      * rewrite lookup_insert_ne by exact Hne. split; [tauto|]. intros [H|(-> & [->|H] & Hs)]; tauto.
    + split; [tauto|]. intros [H|(-> & [->|H] & Hs)]; tauto.
Qed.

(** How often a name stands in a list. *)
Definition times (x : string) (l : list string) : nat := List.length (filter (fun y => y = x) l).

Lemma times_app x l1 l2 : times x (l1 ++ l2) = times x l1 + times x l2.
Proof. unfold times. rewrite filter_app, length_app. reflexivity. Qed.

Lemma times_cons x y l : times x (y :: l) = (if decide (y = x) then 1 else 0) + times x l.
Proof. unfold times. rewrite filter_cons. destruct (decide (y = x)); reflexivity. Qed.

Lemma addPreds_times (r : gmap string nat) name preds ts t x :
  times x (default [] (foldl (addPred r name) preds ts !! t)) <=
  times x (default [] (preds !! t)) + (if decide (x = name) then times t ts else 0).
Proof.
  revert preds. induction ts as [|u ts IH]; intros preds; cbn [foldl].
  - destruct (decide (x = name)); lia.
  - etransitivity; [apply IH|]. rewrite times_cons. unfold addPred. destruct (decide (is_Some (r !! u))) as [Hu|Hu].
    + destruct (decide (u = t)) as [->|Hne].
      * rewrite lookup_insert_eq. unfold from_option, id. rewrite times_app, times_cons. change (times x []) with 0.
        destruct (decide (name = x)), (decide (x = name)); try congruence; lia.
      * rewrite lookup_insert_ne by exact Hne. destruct (decide (x = name)); lia.
    + destruct (decide (x = name)), (decide (u = t)); lia.
Qed.

Lemma predsFrom_named p b preds :
  blocksByName fn !! nameAt p = Some b ->
  predsFrom (blocksByName fn) rpo preds (nameAt p) = Some (foldl (addPred rpo (nameAt p)) preds (Successors (bTerminator b))).
Proof. intros H. unfold predsFrom. rewrite H. reflexivity. Qed.

(** A block stands among the predecessors of another as often as it names it. *)
Lemma predsFrom_times l preds preds' q b t :
  NoDup l -> (forall p, p ∈ l -> p < n) -> foldM (predsFrom (blocksByName fn) rpo) preds (map nameAt l) = Some preds' ->
  fBlocks fn !! q = Some b ->
  times (nameAt q) (default [] (preds' !! t)) <=
  times (nameAt q) (default [] (preds !! t)) + (if decide (q ∈ l) then times t (Successors (bTerminator b)) else 0).
Proof.
  intros Hnd Hin Hf Hq. revert preds Hf. induction l as [|p l IH]; intros preds Hf; cbn [map foldM] in Hf.
  - injection Hf as <-. destruct (decide (q ∈ [])); lia.
  - apply NoDup_cons in Hnd as [Hp Hnd]. pose proof (Hin p ltac:(left)) as Hpn.
    destruct (blocksByName_lookup p Hpn) as (c & Hc & _ & Hcn).
    rewrite (predsFrom_named p c preds Hcn) in Hf. cbn [mbind option_bind] in Hf.
    etransitivity; [apply (IH Hnd (fun r Hr => Hin r (list_elem_of_further _ _ _ Hr)) _ Hf)|].
    pose proof (addPreds_times rpo (nameAt p) preds (Successors (bTerminator c)) t (nameAt q)) as H.
    destruct (decide (q = p)) as [->|Hne].
    + assert (c = b) as -> by congruence. rewrite (decide_True _ _ (list_elem_of_here p l)), decide_False by exact Hp.
      destruct (decide (nameAt p = nameAt p)); lia.
    + rewrite (decide_False (P := nameAt q = nameAt p)) in H
        by (intros E; apply Hne, (nameAt_inj q p); [eapply lookup_lt_Some, Hq | exact Hpn | exact E]).
      destruct (decide (q ∈ l)) as [Hl|Hl]; [rewrite decide_True by (right; exact Hl); lia|].
      rewrite decide_False by (intros [->|H']%elem_of_cons; auto). lia.
Qed.

Lemma predsFrom_all l preds :
  (forall q, q ∈ l -> q < n) ->
  exists preds', foldM (predsFrom (blocksByName fn) rpo) preds (map nameAt l) = Some preds' /\
    forall x t, x ∈ default [] (preds' !! t) <-> x ∈ default [] (preds !! t) \/
      exists q b, q ∈ l /\ x = nameAt q /\ fBlocks fn !! q = Some b /\ t ∈ Successors (bTerminator b) /\ t ∈ orderNames.
Proof.
  revert preds. induction l as [|q l IH]; intros preds Hb; cbn [map foldM].
  - exists preds. split; [reflexivity|]. intros x t. split; [tauto|]. intros [H|(q & b & H & _)]; [exact H | inversion H].
  - destruct (blocksByName_lookup q (Hb q ltac:(left))) as (b & Hq & _ & Hbn).
    rewrite (predsFrom_named q b preds Hbn). cbn [mbind option_bind].
    destruct (IH (foldl (addPred rpo (nameAt q)) preds (Successors (bTerminator b)))) as (preds' & -> & H).
    { intros r Hr. apply Hb. right. exact Hr. }
    exists preds'. split; [reflexivity|]. intros x t. rewrite H, addPreds_elem, rpo_some. split.
    + intros [[Hx|(-> & Ht & Ho)]|(r & c & Hr & Hrest)]; [tauto | |].
      * right. exists q, b. split; [left | auto].
      * right. exists r, c. split; [right; exact Hr | exact Hrest].
    + intros [Hx|(r & c & [->|Hr]%elem_of_cons & -> & Hc & Ht & Ho)]; [tauto | |].
      * assert (c = b) as -> by congruence. tauto.
      * right. exists r, c. auto.
Qed.

Lemma predsOfOrder_spec :
  exists preds, predsOfOrder (blocksByName fn) rpo orderNames = Some preds /\
    (forall x t, x ∈ default [] (preds !! t) -> exists q, q ∈ CfgFacts.order fn /\ x = nameAt q) /\
    (forall p q, p ∈ CfgFacts.order fn -> q ∈ CfgFacts.order fn ->
      nameAt q ∈ default [] (preds !! nameAt p) <-> p ∈ succs fn q) /\
    forall q b t, fBlocks fn !! q = Some b ->
      times (nameAt q) (default [] (preds !! t)) <= times t (Successors (bTerminator b)).
Proof.
  destruct (predsFrom_all (CfgFacts.order fn) ∅ order_in) as (preds & Hp & H).
  exists preds. split; [exact Hp|]. setoid_rewrite H. split; [|split].
  - intros x t [Hx|(q & b & Hq & -> & _)]; [rewrite lookup_empty in Hx; inversion Hx | eauto].
  - intros p q Hpo Hqo. split.
    + intros [Hx|(r & b & Hr & E & Hb & Ht & _)]; [rewrite lookup_empty in Hx; inversion Hx|].
      apply nameAt_inj in E as ->; [| apply order_in, Hqo | apply order_in, Hr].
      apply (succ_of_name r p b Hb (order_in p Hpo)), Ht.
    + intros Hs. right. destruct (lookup_lt_is_Some_2 (fBlocks fn) q (order_in q Hqo)) as [b Hb].
      exists q, b. split; [exact Hqo|]. split; [reflexivity|]. split; [exact Hb|].
      split; [apply (succ_of_name q p b Hb (order_in p Hpo)), Hs | apply orderNames_position; [apply order_in|]; exact Hpo].
  - intros q b t Hq. pose proof (predsFrom_times _ _ _ q b t (proj1 (order_spec fn blocks_pos)) order_in Hp Hq) as Ht.
    rewrite lookup_empty in Ht. change (times (nameAt q) (default [] None)) with 0 in Ht.
    destruct (decide (q ∈ CfgFacts.order fn)); lia.
Qed.
End Names.

(** * The dominators of [WasmStructure]

    [computeDominators] works on names and meets the predecessors in its own
    order; it computes the same parents as the iteration of [Cfg] over the same
    edges, so it ends, and the ancestors it finds are the dominators. *)

(** The meet does not depend on which side comes first. *)
Lemma meet_comm N idom l r (T : tree_upto N idom) :
  l < N -> r < N -> meet idom l r = meet idom r l.
Proof.
  intros Hl Hr. destruct (meet_spec T l r Hl Hr) as (m & -> & Hm & Hz).
  destruct (meet_spec T r l Hr Hl) as (m' & -> & Hm' & Hz'). f_equal.
  destruct (proj1 (Hz m) (anc_self T m Hm)) as [Hml Hmr].
  destruct (proj1 (Hz' m') (anc_self T m' Hm')) as [Hmr' Hml'].
  assert (H1 : anc idom m m') by (apply Hz'; auto).
  assert (H2 : anc idom m' m) by (apply Hz; auto).
  apply (anc_bound T) in H1, H2. lia.
Qed.

Section Names.
Context {fn : Function} {NB : NamedBlocks fn}.

#[local] Abbreviation ord := (CfgFacts.order fn).
#[local] Abbreviation names := (orderNames (fn := fn)).
#[local] Abbreviation rpo := (rpoOf names).
#[local] Abbreviation nameAt := (nameAt (fn := fn)).
#[local] Abbreviation N := (List.length ord).

(** The name at a place of the order. *)
Definition nameOf (i : nat) : string := default ""%string (names !! i).

Lemma names_length : List.length names = N.
Proof. apply length_map. Qed.

Lemma nameOf_lookup i : i < N -> names !! i = Some (nameOf i).
Proof.
  intros Hi. unfold nameOf. destruct (lookup_lt_is_Some_2 names i) as [x Hx]; [rewrite names_length; exact Hi|].
  rewrite Hx. reflexivity.
Qed.

Lemma nameOf_inj i j : i < N -> j < N -> nameOf i = nameOf j -> i = j.
Proof.
  intros Hi Hj E. apply (NoDup_lookup names i j (nameOf i)); [apply orderNames_NoDup | apply nameOf_lookup, Hi |].
  rewrite E. apply nameOf_lookup, Hj.
Qed.

Lemma nameOf_rpo i : i < N -> rpoAt rpo (nameOf i) = i.
Proof.
  intros Hi. pose proof (nameOf_lookup i Hi) as H. apply orderNames_lookup in H as (p & Hp & <-).
  apply rpoAt_order, Hp.
Qed.

Lemma nameOf_nonempty i : i < N -> nameOf i <> ""%string.
Proof.
  intros Hi. pose proof (nameOf_lookup i Hi) as H. apply orderNames_lookup in H as (p & Hp & <-).
  apply nameAt_nonempty, order_in, (list_elem_of_lookup_2 _ _ _ Hp).
Qed.

Lemma nameOf_position i p : ord !! i = Some p -> nameOf i = nameAt p.
Proof.
  intros H. unfold nameOf. replace (names !! i) with (Some (nameAt p)); [reflexivity|].
  symmetry. apply orderNames_lookup. eauto.
Qed.

Lemma names_seq : names = map nameOf (seq 0 N).
Proof.
  apply list_eq. intros i. rewrite list_lookup_fmap. destruct (decide (i < N)) as [Hi|Hi].
  - rewrite lookup_seq_lt by exact Hi. apply nameOf_lookup, Hi.
  - rewrite !lookup_ge_None_2; [reflexivity | rewrite length_seq; lia | rewrite names_length; lia].
Qed.

Lemma names_place x : x ∈ names -> exists i, i < N /\ x = nameOf i.
Proof.
  rewrite names_seq. intros H. apply list_elem_of_In, in_map_iff in H as (i & <- & Hi).
  apply list_elem_of_In, elem_of_seq in Hi. exists i. split; [lia | reflexivity].
Qed.

Lemma nameOf_in i : i < N -> nameOf i ∈ names.
Proof. intros Hi. eapply list_elem_of_lookup_2, nameOf_lookup, Hi. Qed.

(** ** Two trees of parents *)

Definition sameTree (idom : list (option nat)) (idomN : gmap string string) : Prop :=
  forall i, i < N -> idomN !! nameOf i = nameOf <$> parent idom i.

Section Walks.
Context {K : nat} {idom : list (option nat)} {idomN : gmap string string}.
Context (T : tree_upto K idom) (HK : K <= N) (S : sameTree idom idomN).

Lemma sameTree_parent i j : parent idom i = Some j -> default ""%string (idomN !! nameOf i) = nameOf j /\ j < N.
Proof.
  intros Hp. destruct (tree_bound T _ _ Hp) as [Hi Hj]. rewrite S by lia. rewrite Hp.
  split; [reflexivity | lia].
Qed.

Lemma climbName_spec fuel i bound j :
  i < N -> climb fuel idom i bound = Some j -> climbName rpo fuel idomN (nameOf i) bound = Some (nameOf j) /\ j < N.
Proof.
  revert i. induction fuel as [|fuel IH]; intros i Hi H; cbn [climb climbName] in *;
    rewrite (nameOf_rpo i Hi); destruct (decide (bound < i)); try discriminate.
  1, 3: injection H as <-; auto.
  destruct (parent idom i) as [up|] eqn:Hp; [|discriminate].
  destruct (sameTree_parent i up Hp) as [-> Hup]. apply IH; assumption.
Qed.

Lemma intersectLoop_spec fuel i j m :
  i < N -> j < N -> meetLoop fuel idom i j = Some m ->
  intersectLoop rpo fuel idomN (nameOf i) (nameOf j) = Some (nameOf m) /\ m < N.
Proof.
  revert i j. induction fuel as [|fuel IH]; intros i j Hi Hj H; cbn [meetLoop intersectLoop] in *;
    (destruct (decide (i = j)) as [->|Hne];
     [injection H as <-; rewrite decide_True by reflexivity; auto|]);
    rewrite decide_False by (intros E; apply Hne, nameOf_inj; assumption); [discriminate|].
  rewrite (nameOf_rpo i Hi), (nameOf_rpo j Hj).
  destruct (climb i idom i j) as [i'|] eqn:Hc; [|discriminate].
  destruct (climbName_spec i i j i' Hi Hc) as [-> Hi']. cbn [mbind option_bind]. rewrite (nameOf_rpo i' Hi').
  destruct (climb j idom j i') as [j'|] eqn:Hd; [|discriminate].
  destruct (climbName_spec j j i' j' Hj Hd) as [-> Hj']. cbn [mbind option_bind]. apply IH; assumption.
Qed.

Lemma intersect_spec i j m :
  i < N -> j < N -> meet idom i j = Some m -> intersect rpo idomN (nameOf i) (nameOf j) = Some (nameOf m) /\ m < N.
Proof.
  intros Hi Hj H. unfold intersect. rewrite (nameOf_rpo i Hi), (nameOf_rpo j Hj).
  apply intersectLoop_spec; assumption.
Qed.

(** The candidate so far, as a place. *)
Definition candidateOf (acc : option nat) : string := from_option nameOf ""%string acc.

Lemma meetCandidate_at c i :
  i < N -> meetCandidate rpo idomN c (nameOf i) =
    match parent idom i with
    | None => Some c
    | Some _ => if decide (c = ""%string) then Some (nameOf i) else intersect rpo idomN (nameOf i) c
    end.
Proof. intros Hi. unfold meetCandidate. rewrite S by exact Hi. destruct (parent idom i); reflexivity. Qed.

(** The loop over the predecessors, at the positions [ats]. *)
Lemma meetCandidates_spec l ats acc res :
  Forall2 (fun pred p => exists i, ord !! i = Some p /\ pred = nameOf i) l ats -> (forall a, acc = Some a -> a < K) ->
  meetPreds (places fn) idom acc ats = Some res ->
  foldM (meetCandidate rpo idomN) (candidateOf acc) l = Some (candidateOf res) /\ (forall m, res = Some m -> m < N).
Proof.
  intros F. revert acc. induction F as [|pred p l ats (i & Hp & ->) _ IH]; intros acc Ha H; cbn [meetPreds foldM] in *.
  - injection H as <-. split; [reflexivity|]. intros m Hm. specialize (Ha m Hm). lia.
  - pose proof (lookup_lt_Some _ _ _ Hp) as Hi. apply (places_spec fn blocks_pos) in Hp.
    rewrite meetCandidate_at by exact Hi. unfold meetPred in H. rewrite Hp in H.
    destruct (parent idom i) as [up|] eqn:Hu; cbn [fmap option_fmap option_map mbind option_bind] in *;
      [|apply IH; assumption].
    destruct (tree_bound T _ _ Hu) as [HiK _]. destruct acc as [a|]; cbn [candidateOf from_option] in *.
    + specialize (Ha a eq_refl). rewrite decide_False by (apply nameOf_nonempty; lia).
      destruct (meet_spec T a i Ha HiK) as (m & Hm & HmK & _). rewrite Hm in H. cbn [fmap option_fmap option_map mbind option_bind] in H.
      rewrite (meet_comm K idom a i T Ha HiK) in Hm.
      destruct (intersect_spec i a m Hi ltac:(lia) Hm) as [-> _]. apply (IH (Some m)); [intros a' [= <-]; exact HmK | exact H].
    + rewrite decide_True by reflexivity. apply (IH (Some i)); [intros a' [= <-]; exact HiK | exact H].
Qed.

Lemma dominatesLoop_spec fuel i t :
  i < K -> i <= fuel -> t < N ->
  exists b, dominatesLoop fuel idomN (nameOf t) (nameOf i) = Some b /\ (b = true <-> anc idom t i).
Proof.
  intros HiK Hf Ht. destruct (walkUp_spec T fuel i t HiK Hf) as (b & Hw & Hb). exists b. split; [|exact Hb].
  clear Hb Hf. revert i HiK Hw. induction fuel as [|fuel IH]; intros i HiK Hw; cbn [walkUp dominatesLoop] in *;
    (destruct (decide (i = t)) as [->|Hne]; [rewrite decide_True by reflexivity; exact Hw|]);
    rewrite decide_False by (intros E; apply Hne, nameOf_inj; [lia | exact Ht | congruence]);
    (destruct (parent idom i) as [up|] eqn:Hp; [|discriminate]);
    destruct (sameTree_parent i up Hp) as [-> Hup];
    (destruct (decide (up = i)) as [->|Hup']; [rewrite decide_True by reflexivity; exact Hw|]);
    rewrite decide_False by (intros E; apply Hup', nameOf_inj; [exact Hup | lia | exact E]); [discriminate|].
  destruct (tree_bound T _ _ Hp). apply IH; [lia | exact Hw].
Qed.
End Walks.

(** ** The iteration *)

Section Iteration.
Context (preds : gmap string (list string)) (lists : list (list nat)).
Context (lists_spec : forall i j, j ∈ predsOf (places fn) ord lists i <->
  exists p q, ord !! i = Some p /\ ord !! j = Some q /\ p ∈ succs fn q).
Context (lists_names : forall i p, ord !! i = Some p ->
  Forall2 (fun pred q => exists j, ord !! j = Some q /\ pred = nameOf j)
    (default [] (preds !! nameOf i)) (default [] (lists !! p))).

#[local] Abbreviation Invariant := (Inv (places fn) ord lists N (domIndex fn)).

Lemma improveName_spec i K idom idomN ch idom' ch' :
  tree_upto K idom -> K <= N -> List.length idom = N -> i < N -> sameTree idom idomN ->
  improve (places fn) ord lists i (idom, ch) = Some (idom', ch') ->
  exists idomN', improveName rpo preds (idomN, ch) (nameOf i) = Some (idomN', ch') /\ sameTree idom' idomN'.
Proof.
  intros T HK Hlen Hi Same H. destruct (lookup_lt_is_Some_2 ord i Hi) as [p Hp].
  unfold improve in H. cbn [fst] in H. rewrite Hp in H. cbn [mbind option_bind] in H.
  destruct (meetPreds (places fn) idom None (default [] (lists !! p))) as [res|] eqn:Hm; [|discriminate].
  destruct (meetCandidates_spec T HK Same _ _ None res (lists_names i p Hp) ltac:(discriminate) Hm) as [Hc Hb].
  unfold improveName. cbn [fst]. cbn [candidateOf from_option] in Hc. rewrite Hc. cbn [mbind option_bind] in *.
  destruct res as [m|]; cbn [candidateOf from_option].
  2: { injection H as <- <-. eauto. }
  specialize (Hb m eq_refl). rewrite (proj2 (String.eqb_neq _ _) (nameOf_nonempty m Hb)). cbn [negb andb].
  rewrite Same by exact Hi.
  destruct (decide (parent idom i = Some m)) as [Heq|Hne].
  - injection H as <- <-. rewrite Heq. cbn [fmap option_fmap option_map from_option id default].
    rewrite String.eqb_refl. eauto.
  - injection H as <- <-. rewrite (proj2 (String.eqb_neq _ _)).
    2: { destruct (parent idom i) as [j|] eqn:Hj; cbn; [|intros E; exact (nameOf_nonempty m Hb (eq_sym E))].
         intros E. apply Hne. f_equal. destruct (tree_bound T _ _ Hj). apply nameOf_inj; [lia | exact Hb | exact E]. }
    cbn [negb]. eexists. split; [reflexivity|]. intros j Hj. destruct (decide (j = i)) as [->|Hji].
    + rewrite lookup_insert_eq. unfold parent. rewrite list_lookup_insert_eq by lia. reflexivity.
    + rewrite lookup_insert_ne by (intros E; apply Hji; symmetry; apply nameOf_inj; assumption).
      unfold parent. rewrite list_lookup_insert_ne by congruence. apply Same, Hj.
Qed.

Lemma improveNames_spec k p K idom idomN ch idom' ch' :
  Invariant p K idom -> 0 < p -> p + k = N -> p <= K <= N -> sameTree idom idomN ->
  improveAll (places fn) ord lists (seq p k) (idom, ch) = Some (idom', ch') ->
  exists idomN', foldM (improveName rpo preds) (idomN, ch) (map nameOf (seq p k)) = Some (idomN', ch') /\
    sameTree idom' idomN'.
Proof.
  revert p K idom idomN ch. induction k as [|k IH]; intros p K idom idomN ch I Hp Hk HK Same H.
  - cbn in *. injection H as <- <-. eauto.
  - cbn [seq improveAll map foldM] in *.
    destruct (improve_spec (places fn) ord lists N eq_refl (order_forward fn blocks_pos lists lists_spec) (domIndex fn)
                (domIndex_root fn blocks_pos) (domIndex_pred fn blocks_pos lists lists_spec) p K idom ch I)
      as (idom1 & ch1 & H1 & I1 & _); [lia..|].
    destruct (improveName_spec p K idom idomN ch idom1 ch1) as (idomN1 & E & Same1);
      [apply I | lia | apply I | lia | exact Same | exact H1 |].
    rewrite H1 in H. rewrite E. cbn [mbind option_bind] in *.
    apply (IH (S p) (K `max` S p) idom1 idomN1 ch1 I1); [lia..| exact Same1 | exact H].
Qed.

Lemma names_tail : tail names = map nameOf (seq 1 (N - 1)).
Proof.
  rewrite names_seq. pose proof (order_pos fn blocks_pos) as H0. destruct N as [|k]; [lia|].
  cbn [seq map tail]. replace (S k - 1) with k by lia. reflexivity.
Qed.

Lemma iterateNames_spec fuel K idom idomN idom' :
  Invariant 1 K idom -> 1 <= K <= N -> sameTree idom idomN ->
  iterate fuel (places fn) ord lists idom = Some idom' ->
  exists idomN', iterateNames rpo fuel preds names idomN = Some idomN' /\ sameTree idom' idomN'.
Proof.
  revert K idom idomN. induction fuel as [|fuel IH]; intros K idom idomN I HK Same H; [discriminate|].
  cbn [iterate iterateNames] in *. rewrite names_tail.
  destruct (improveAll (places fn) ord lists (seq 1 (N - 1)) (idom, false)) as [[idom1 ch1]|] eqn:H1; [|discriminate].
  destruct (improveNames_spec (N - 1) 1 K idom idomN false idom1 ch1 I) as (idomN1 & E & Same1);
    [lia | lia | lia | exact Same | exact H1 |].
  rewrite E. cbn [mbind option_bind fst snd]. destruct ch1; [|injection H as <-; eauto].
  destruct (improveAll_spec (places fn) ord lists N eq_refl (order_forward fn blocks_pos lists lists_spec) (domIndex fn)
              (domIndex_root fn blocks_pos) (domIndex_pred fn blocks_pos lists lists_spec) (N - 1) 1 K idom false I)
    as (idom2 & ch2 & H2 & I2 & _); [lia..|].
  rewrite H1 in H2. injection H2 as <- <-.
  apply (IH N idom1 idomN1); [| lia | exact Same1 | exact H].
  apply Inv_restart; [reflexivity | exact I2].
Qed.

(** [computeDominators] ends, with the parents of the finished iteration. *)
Lemma computeDominators_spec :
  exists idom idomN, computeDominators rpo preds names = Some idomN /\ finished fn lists idom /\ sameTree idom idomN.
Proof.
  pose proof (order_pos fn blocks_pos) as H0.
  destruct (iterate_finishes fn blocks_pos lists lists_spec) as (idom & Hit & F).
  assert (Hhead : head names = Some (nameOf 0)).
  { rewrite head_lookup. apply nameOf_lookup, H0. }
  destruct (iterateNames_spec (passBound N) 1 (startTree N) {[nameOf 0 := nameOf 0]} idom) as (idomN & E & Same).
  - apply Inv_start; [reflexivity | apply domIndex_root, blocks_pos | exact H0].
  - lia.
  - intros i Hi. rewrite (parent_start ord N eq_refl i H0). destruct (decide (i = 0)) as [->|Hne].
    + apply lookup_singleton_eq.
    + apply lookup_singleton_ne. intros E. apply Hne. symmetry. apply nameOf_inj; [exact H0 | exact Hi | exact E].
  - exact Hit.
  - exists idom, idomN. split; [|auto]. unfold computeDominators. rewrite Hhead, names_length. exact E.
Qed.
End Iteration.
End Names.
