(* ===== verification/WasmRun.v ===== *)
(** * Running structured code

    The meaning of the items of [WasmControl.wcode], on the machines of
    [Semantics]: a stack of labels, a branch that drops to the end of a block or
    goes back to the start of a loop, locals held by name.  It models no file: it
    is what WebAssembly gives the text.  A local that has not been set reads as
    something, so a copy of one is not an end.  The second part says when the
    locals of such a run and the values of the IR agree. *)

From stdpp Require Import base list strings gmap.
From Stdlib Require Import Lia String.
From S2P Require Import Prelude GoStd IR Verify Semantics Layout WasmStructure WasmControl WasmOrder.

#[local] Open Scope string_scope.
#[local] Open Scope list_scope.

(** A label in scope: the body to start again for a loop, what follows. *)
Record frame : Type := mkFrame { frLabel : string; frAgain : option (list wcode); frAfter : list wcode }.

(** Where a branch to a label goes on. *)
Fixpoint branchTo (label : string) (stack : list frame) : option (list wcode * list frame) :=
  match stack with
  | [] => None
  | f :: below =>
      if String.eqb (frLabel f) label
      then match frAgain f with
           | Some body => Some (body, f :: below)
           | None => Some (frAfter f, below)
           end
      else branchTo label below
  end.

Section Run.
Context {V M X : Type} {machine : Machine V M X}.

Record config : Type := mkConfig {
  cCode : list wcode;
  cStack : list frame;
  cLocals : gmap string V;
  cMemory : M;
  cAnswer : option V        (** what has been copied out to [$__kizu_result] *)
}.

(** The copies of an edge take their values at once, from [ρ]. *)
Definition runCopy (ρ ρ' : gmap string V) (c : phiCopy) : gmap string V :=
  partial_alter (fun _ => operand ρ (pcSrc c)) (vName (pcDst c)) ρ'.

Definition runCopies (ρ : gmap string V) (copies : list phiCopy) : gmap string V := foldl (runCopy ρ) ρ copies.

Definition wstep (c : config) : config + outcome V M X :=
  let ρ := cLocals c in
  let m := cMemory c in
  let goto code stack := inl (mkConfig code stack ρ m (cAnswer c)) in
  let branch label := match branchTo label (cStack c) with
                      | Some (code, stack) => goto code stack
                      | None => inr Stuck
                      end in
  match cCode c with
  | [] => match cStack c with
          | [] => inr (Returned (cAnswer c) m)
          | f :: below => goto (frAfter f) below
          end
  | WInstr i :: rest =>
      match mapM (operand ρ) (readOperands i) with
      | Some vs =>
          match operation (shape i) vs m with
          | Next v m => inl (mkConfig rest (cStack c) (assign ρ i v) m (cAnswer c))
          | Halt s => inr (Stopped s)
          | Undefined => inr Stuck
          end
      | None => inr Stuck
      end
  | WCopies copies :: rest => inl (mkConfig rest (cStack c) (runCopies ρ copies) m (cAnswer c))
  | WBlock label body :: rest => goto body (mkFrame label None rest :: cStack c)
  | WLoop label body :: rest => goto body (mkFrame label (Some body) rest :: cStack c)
  | WIf cond onTrue onFalse :: rest =>
      match operand ρ cond ≫= truth with
      | Some b => goto (if b : bool then onTrue else onFalse) (mkFrame "" None rest :: cStack c)
      | None => inr Stuck
      end
  | WBr label :: _ => branch label
  | WBrIf label negate cond :: rest =>
      match operand ρ cond ≫= truth with
      | Some b => if xorb negate b then branch label else goto rest (cStack c)
      | None => inr Stuck
      end
  | WReturn value :: _ =>
      match operand ρ value with
      | Some v => inr (Returned (Some v) m)
      | None => inr Stuck
      end
  | WResult value :: rest =>
      match operand ρ value with
      | Some v => inl (mkConfig rest (cStack c) ρ m (Some v))
      | None => inr Stuck
      end
  | WUnreachable :: _ => inr Unreachable
  end.

Fixpoint wrun (k : nat) (c : config) : outcome V M X :=
  match k with
  | O => Exhausted
  | S k => match wstep c with
           | inl c' => wrun k c'
           | inr o => o
           end
  end.

(** A function starts with its parameters in their locals. *)
Definition wstart (code : list wcode) (fn : Function) (args : list V) (m : M) : config :=
  mkConfig code [] (bindParams (fParams fn) args) m None.

Lemma wstep_br label rest K ρ m a code K' :
  branchTo label K = Some (code, K') ->
  wstep (mkConfig (WBr label :: rest) K ρ m a) = inl (mkConfig code K' ρ m a).
Proof. intros H. unfold wstep. cbn [cCode cStack cLocals cMemory cAnswer]. rewrite H. reflexivity. Qed.

(** ** Several steps *)

Inductive wsteps : nat -> config -> config -> Prop :=
  | wsteps_refl c : wsteps 0 c c
  | wsteps_more k c c' c'' : wstep c = inl c' -> wsteps k c' c'' -> wsteps (S k) c c''.

Lemma wsteps_one c c' : wstep c = inl c' -> wsteps 1 c c'.
Proof. intros H. eapply wsteps_more; [exact H | constructor]. Qed.

Lemma wsteps_trans j k c c' c'' : wsteps j c c' -> wsteps k c' c'' -> wsteps (j + k) c c''.
Proof. intros H1 H2. induction H1; [exact H2 | econstructor; eauto]. Qed.

Lemma wsteps_run j k c c' : wsteps j c c' -> wrun (j + k) c = wrun k c'.
Proof. induction 1 as [|j c c1 c2 H _ IH]; [reflexivity|]. cbn [Nat.add wrun]. rewrite H. exact IH. Qed.

Lemma wsteps_exhausted j k c c' : wsteps j c c' -> k <= j -> wrun k c = Exhausted.
Proof.
  intros H. revert k. induction H as [|j c c1 c2 H _ IH]; intros [|k] Hk; [reflexivity | lia | reflexivity |].
  cbn [wrun]. rewrite H. apply IH. lia.
Qed.

(** A run that has ended stays as it is. *)
Lemma wrun_more j k c : wrun j c <> Exhausted -> j <= k -> wrun k c = wrun j c.
Proof.
  revert k c. induction j as [|j IH]; intros k c H Hk; [contradiction|].
  destruct k as [|k]; [lia|]. cbn [wrun] in *. destruct (wstep c) as [c'|o]; [|reflexivity]. apply IH; [exact H | lia].
Qed.

Lemma wrun_det j k c o o' :
  wrun j c = o -> wrun k c = o' -> o <> Exhausted -> o' <> Exhausted -> o = o'.
Proof.
  intros <- <- H H'. destruct (Nat.le_ge_cases j k) as [Hl|Hl].
  - symmetry. apply wrun_more; assumption.
  - apply wrun_more; assumption.
Qed.
End Run.
Arguments config : clear implicits.

(** * Locals and values: the state of structured code and of the IR

    A copy written before the branch it belongs to leaves a phi's local ahead of
    the program on the other arm.  The two states agree on what is still read:
    [needs].  The lemmas here run the phis, the copies and the instructions of one
    block on two states that do. *)

(** ** What is still read *)

Definition phisOf (b : Block) : list Instr := List.filter isPhi (bInstrs b).
Definition bodyOf (b : Block) : list Instr := List.filter (fun i => negb (isPhi i)) (bInstrs b).
Definition resultName (i : Instr) : string := vName (iResult i).
Definition phiNames (b : Block) : list string := map resultName (phisOf b).

(** The names a block reads itself. *)
Definition liveReads (b : Block) : list string :=
  map vName (flat_map readOperands (bodyOf b) ++ [tCond (bTerminator b); tValue (bTerminator b)]).

(** The names the phis of [b] read on the edge from [x]. *)
Definition edgeReads (x : string) (b : Block) : list string :=
  map (fun c => vName (pcSrc c)) (flat_map (phiCopiesOf x) (bInstrs b)).

Section Needs.
Context (fn : Function).

Definition blockNamed (x : string) : option Block := blocksByName fn !! x.

(** [x] or a block it leads to reads [v] before a phi gives it a new value. *)
Inductive needs (x : string) (v : string) : Prop :=
  | needs_here b : blockNamed x = Some b -> v ∈ liveReads b -> needs x v
  | needs_edge b t bt : blockNamed x = Some b -> t ∈ Successors (bTerminator b) -> blockNamed t = Some bt ->
      v ∈ edgeReads x bt -> needs x v
  | needs_later b t bt : blockNamed x = Some b -> t ∈ Successors (bTerminator b) -> blockNamed t = Some bt ->
      needs t v -> v ∉ phiNames bt -> needs x v.

(** The same once the edge from [x] to [t] is taken. *)
Definition needsAfter (x t : string) (v : string) : Prop :=
  exists bt, blockNamed t = Some bt /\ (v ∈ edgeReads x bt \/ (needs t v /\ v ∉ phiNames bt)).

Lemma needsAfter_needs x b t v :
  blockNamed x = Some b -> t ∈ Successors (bTerminator b) -> needsAfter x t v -> needs x v.
Proof. intros Hb Ht (bt & Hbt & [H|[H1 H2]]); [eapply needs_edge | eapply needs_later]; eauto. Qed.
End Needs.

(** ** What the emitter takes for granted of the instructions *)

Class Emittable (module : Module_) (fn : Function) : Prop := {
  em_ops b : b ∈ fBlocks fn -> tOp (bTerminator b) ∈ ["jump"; "branch"; "return"; "unreachable"]%string;
  em_jump b : b ∈ fBlocks fn -> tOp (bTerminator b) = "jump"%string -> tTarget (bTerminator b) <> ""%string;
  em_branch b : b ∈ fBlocks fn -> tOp (bTerminator b) = "branch"%string ->
    tTarget (bTerminator b) <> ""%string /\ tElse (bTerminator b) <> ""%string;
  em_return b : b ∈ fBlocks fn -> tOp (bTerminator b) = "return"%string ->
    let ty := vType (tValue (bTerminator b)) in
    ty <> ""%string /\ (ty = "void"%string -> fReturn fn = "void"%string) /\
    (isMemoryType module ty = true -> isMemoryType module (fReturn fn) = true);
  (** the phis of a block come first *)
  em_phis b : b ∈ fBlocks fn -> bInstrs b = phisOf b ++ bodyOf b;
  em_phi_names b : b ∈ fBlocks fn -> NoDup (phiNames b) /\ ""%string ∉ phiNames b;
  em_incoming b i inc : b ∈ fBlocks fn -> i ∈ phisOf b -> inc ∈ iIncoming i -> inBlock inc <> ""%string;
  em_incoming_once b i inc inc' : b ∈ fBlocks fn -> i ∈ phisOf b -> inc ∈ iIncoming i -> inc' ∈ iIncoming i ->
    inBlock inc = inBlock inc' -> inValue inc = inValue inc'
}.

(** Two sets of locals agree on [R]. *)
Definition agree {V} (R : string -> Prop) (ρ ρ' : gmap string V) : Prop := forall v, R v -> ρ !! v = ρ' !! v.

Section Run.
Context {V M X : Type} {machine : Machine V M X}.

Lemma operand_agree_on (R : string -> Prop) (ρ ρ' : gmap string V) v :
  agree R ρ ρ' -> R (vName v) -> operand ρ v = operand ρ' v.
Proof. intros H Hv. unfold operand. rewrite (H _ Hv). reflexivity. Qed.

Lemma operands_agree_on (R : string -> Prop) (ρ ρ' : gmap string V) l :
  agree R ρ ρ' -> (forall v, v ∈ l -> R (vName v)) -> mapM (operand ρ) l = mapM (operand ρ') l.
Proof.
  intros H. induction l as [|v l IH]; intros Hl; [reflexivity|]. cbn [mapM].
  rewrite (operand_agree_on R ρ ρ' v H) by (apply Hl; left).
  destruct (operand ρ' v); [|reflexivity]. cbn [mbind option_bind].
  rewrite IH by (intros w Hw; apply Hl; right; exact Hw). reflexivity.
Qed.

(** *** Phis *)

(** The phis at the head of a block, run on the values at its entry. *)
Fixpoint phiEnv (from : string) (entry ρ : gmap string V) (phis : list Instr) : option (gmap string V) :=
  match phis with
  | [] => Some ρ
  | i :: rest => v ← phiValue from entry i; phiEnv from entry (assign ρ i v) rest
  end.

Lemma runInstrs_phis from entry ρ m phis rest :
  (forall i, i ∈ phis -> isPhi i = true) ->
  runInstrs from entry ρ m (phis ++ rest) =
  match phiEnv from entry ρ phis with
  | Some ρ1 => runInstrs from entry ρ1 m rest
  | None => inr Stuck
  end.
Proof.
  revert ρ. induction phis as [|i phis IH]; intros ρ Hphi; [reflexivity|]. cbn [app runInstrs phiEnv].
  unfold runInstr. assert (Hi : isPhi i = true) by (apply Hphi; left). unfold isPhi in Hi. rewrite Hi.
  destruct (phiValue from entry i); [|reflexivity]. cbn [mbind option_bind].
  apply IH. intros j Hj. apply Hphi. right. exact Hj.
Qed.

Lemma phiEnv_other from entry ρ phis ρ1 v :
  phiEnv from entry ρ phis = Some ρ1 -> v ∉ map resultName phis -> ρ1 !! v = ρ !! v.
Proof.
  revert ρ. induction phis as [|i phis IH]; intros ρ H Hv; cbn [phiEnv map] in *; [congruence|].
  destruct (phiValue from entry i) as [w|]; [|discriminate]. cbn [mbind option_bind] in H.
  rewrite not_elem_of_cons in Hv. rewrite (IH _ H) by tauto. unfold assign.
  destruct (String.eqb (vName (iResult i)) ""); [reflexivity|]. apply lookup_insert_ne.
  intros E. apply (proj1 Hv). symmetry. exact E.
Qed.

Lemma phiEnv_phi from entry ρ phis ρ1 i :
  NoDup (map resultName phis) -> ""%string ∉ map resultName phis ->
  phiEnv from entry ρ phis = Some ρ1 -> i ∈ phis ->
  exists w, phiValue from entry i = Some w /\ ρ1 !! resultName i = Some w.
Proof.
  revert ρ. induction phis as [|j phis IH]; intros ρ Hnd Hne H Hi; [inversion Hi|]. cbn [phiEnv map] in *.
  destruct (phiValue from entry j) as [w|] eqn:Hw; [|discriminate]. cbn [mbind option_bind] in H.
  apply NoDup_cons in Hnd as [Hj Hnd]. rewrite not_elem_of_cons in Hne.
  apply elem_of_cons in Hi as [->|Hi]; [|apply (IH _ Hnd (proj2 Hne) H Hi)].
  exists w. split; [exact Hw|]. rewrite (phiEnv_other _ _ _ _ _ _ H Hj). unfold assign.
  rewrite (proj2 (String.eqb_neq _ _)) by (intros E; apply (proj1 Hne); symmetry; exact E).
  apply lookup_insert_eq.
Qed.

(** *** Copies *)

Lemma copies_other (ρ ρ' : gmap string V) copies v :
  (forall c, c ∈ copies -> vName (pcDst c) <> v) -> foldl (runCopy ρ) ρ' copies !! v = ρ' !! v.
Proof.
  revert ρ'. induction copies as [|c copies IH]; intros ρ' H; [reflexivity|].
  cbn [foldl]. rewrite IH by (intros d Hd; apply H; right; exact Hd).
  apply lookup_partial_alter_ne. apply H. left.
Qed.

Lemma copies_dst (ρ ρ' : gmap string V) copies v w :
  (exists c, c ∈ copies /\ vName (pcDst c) = v) ->
  (forall c, c ∈ copies -> vName (pcDst c) = v -> operand ρ (pcSrc c) = w) -> foldl (runCopy ρ) ρ' copies !! v = w.
Proof.
  revert ρ'. induction copies as [|c copies IH]; intros ρ' (d & Hd & Hv) H; [inversion Hd|]. cbn [foldl].
  destruct (decide (Exists (fun d => vName (pcDst d) = v) copies)) as [Hex|Hno].
  - apply IH; [apply Exists_exists in Hex; exact Hex|]. intros e He. apply H. right. exact He.
  - assert (Hrest : forall e, e ∈ copies -> vName (pcDst e) <> v).
    { intros e He E. apply Hno, Exists_exists. eauto. }
    apply elem_of_cons in Hd as [->|Hd]; [|exfalso; exact (Hrest d Hd Hv)].
    rewrite copies_other by exact Hrest. unfold runCopy. rewrite <- Hv, lookup_partial_alter_eq.
    apply (H c); [left | exact Hv].
Qed.

Lemma elem_of_phiCopiesOf from i c :
  c ∈ phiCopiesOf from i <-> isPhi i = true /\ exists inc, inc ∈ iIncoming i /\ inBlock inc = from /\ c = mkPhiCopy (iResult i) (inValue inc).
Proof.
  unfold phiCopiesOf. destruct (isPhi i); [|split; [intros H; inversion H | intros [H _]; discriminate]].
  rewrite list_elem_of_In, in_map_iff. setoid_rewrite filter_In. split.
  - intros (inc & <- & Hi & Hb). split; [reflexivity|]. exists inc. rewrite list_elem_of_In. apply String.eqb_eq in Hb. auto.
  - intros (_ & inc & Hi & Hb & ->). exists inc. rewrite <- list_elem_of_In. rewrite Hb, String.eqb_refl. auto.
Qed.

Lemma elem_of_copies from b c :
  c ∈ flat_map (phiCopiesOf from) (bInstrs b) <->
  exists i inc, i ∈ phisOf b /\ inc ∈ iIncoming i /\ inBlock inc = from /\ c = mkPhiCopy (iResult i) (inValue inc).
Proof.
  rewrite list_elem_of_In, in_flat_map. unfold phisOf. split.
  - intros (i & Hi & Hc). apply list_elem_of_In, elem_of_phiCopiesOf in Hc as (Hp & inc & Hc). exists i, inc.
    split; [apply list_elem_of_In, filter_In; auto | exact Hc].
  - intros (i & inc & Hi & Hc). apply list_elem_of_In, filter_In in Hi as [Hi Hp]. exists i. split; [exact Hi|].
    apply list_elem_of_In, elem_of_phiCopiesOf. eauto.
Qed.

(** Running the phis of [b] and copying along the edge to it agree again. *)
Lemma edge_agree {fn : Function} {module : Module_} {EM : Emittable module fn} from b t (ρ ρ' ρ1 : gmap string V) :
  b ∈ fBlocks fn -> blockNamed fn t = Some b -> phiEnv from ρ ρ (phisOf b) = Some ρ1 ->
  agree (needsAfter fn from t) ρ ρ' ->
  agree (needs fn t) ρ1 (runCopies ρ' (flat_map (phiCopiesOf from) (bInstrs b))).
Proof.
  intros Hb Ht H Ha v Hv. destruct (em_phi_names b Hb) as [Hnd Hne].
  destruct (decide (v ∈ phiNames b)) as [Hphi|Hphi].
  - apply list_elem_of_In, in_map_iff in Hphi as (i & <- & Hi). apply list_elem_of_In in Hi.
    destruct (phiEnv_phi from ρ ρ _ ρ1 i Hnd Hne H Hi) as (w & Hw & ->). symmetry.
    unfold phiValue in Hw. destruct (List.find _ (iIncoming i)) as [inc|] eqn:Hf; [|discriminate].
    apply find_some in Hf as [Hinc Hfrom]. apply list_elem_of_In in Hinc. apply String.eqb_eq in Hfrom.
    assert (Hread : agree (fun v => v ∈ edgeReads from b) ρ ρ').
    { intros u Hu. apply Ha. exists b. auto. }
    apply copies_dst.
    + exists (mkPhiCopy (iResult i) (inValue inc)). split; [|reflexivity]. apply elem_of_copies. eauto 6.
    + intros c Hc Hdst. pose proof Hc as Hc'. apply elem_of_copies in Hc as (j & inc' & Hj & Hinc' & Hfrom' & ->). cbn in *.
      assert (j = i) as ->.
      { apply list_elem_of_lookup in Hi as [k Hk], Hj as [l Hl].
        pose proof (NoDup_lookup (phiNames b) l k (resultName i) Hnd) as E. unfold phiNames in E.
        rewrite !list_lookup_fmap, Hk, Hl in E. cbn in E. rewrite E in Hl by (f_equal; auto). congruence. }
      rewrite (em_incoming_once b i inc' inc Hb Hi Hinc' Hinc ltac:(congruence)).
      rewrite <- (operand_agree_on _ ρ ρ' (inValue inc) Hread); [exact Hw|].
      unfold edgeReads. apply list_elem_of_In, in_map_iff. exists (mkPhiCopy (iResult i) (inValue inc)).
      split; [reflexivity|]. apply list_elem_of_In, elem_of_copies. eauto 6.
  - rewrite (phiEnv_other _ _ _ _ _ v H Hphi). unfold runCopies. rewrite copies_other.
    + apply Ha. exists b. auto.
    + intros c Hc E. apply elem_of_copies in Hc as (i & inc & Hi & _ & _ & ->). cbn in E. subst v.
      apply Hphi, list_elem_of_In, in_map_iff. exists i. split; [reflexivity | apply list_elem_of_In, Hi].
Qed.

(** *** Instructions *)

Lemma assign_agree (R : string -> Prop) (ρ ρ' : gmap string V) i w :
  agree R ρ ρ' -> agree R (assign ρ i w) (assign ρ' i w).
Proof.
  intros H v Hv. unfold assign. destruct (String.eqb (vName (iResult i)) ""); [apply H, Hv|].
  destruct (decide (vName (iResult i) = v)) as [->|Hne]; [rewrite !lookup_insert_eq; reflexivity|].
  rewrite !lookup_insert_ne by exact Hne. apply H, Hv.
Qed.

Lemma body_runs (R : string -> Prop) from entry instrs rest K ρ ρ' m a :
  (forall i, i ∈ instrs -> isPhi i = false) ->
  (forall i v, i ∈ instrs -> v ∈ readOperands i -> R (vName v)) -> agree R ρ ρ' ->
  match runInstrs from entry ρ m instrs with
  | inl (ρ2, m2) => exists ρ2', agree R ρ2 ρ2' /\
      wsteps (List.length instrs) (mkConfig (map WInstr instrs ++ rest) K ρ' m a) (mkConfig rest K ρ2' m2 a)
  | inr o => o <> Stuck -> o <> Exhausted /\ exists k, wrun k (mkConfig (map WInstr instrs ++ rest) K ρ' m a) = o
  end.
Proof.
  revert ρ ρ' m. induction instrs as [|i instrs IH]; intros ρ ρ' m Hphi Hr Ha; cbn [runInstrs map app List.length].
  { exists ρ'. split; [exact Ha | constructor]. }
  unfold runInstr. assert (Hi : isPhi i = false) by (apply Hphi; left). unfold isPhi in Hi. rewrite Hi.
  rewrite (operands_agree_on R ρ ρ' (readOperands i) Ha) by (intros v Hv; apply (Hr i); [left | exact Hv]).
  destruct (mapM (operand ρ') (readOperands i)) as [vs|] eqn:Hvs; [|intros H; contradiction].
  destruct (operation (shape i) vs m) as [w m'|x|] eqn:Hop; [| |intros H; contradiction].
  - specialize (IH (assign ρ i w) (assign ρ' i w) m').
    assert (Hstep : wstep (mkConfig (WInstr i :: map WInstr instrs ++ rest) K ρ' m a) =
                    inl (mkConfig (map WInstr instrs ++ rest) K (assign ρ' i w) m' a)).
    { cbn. rewrite Hvs, Hop. reflexivity. }
    destruct (runInstrs from entry (assign ρ i w) m' instrs) as [[ρ2 m2]|o].
    + destruct IH as (ρ2' & H2 & Hs); [intros j Hj; apply Hphi; right; exact Hj
        | intros j v Hj; apply Hr; right; exact Hj | apply assign_agree, Ha |].
      exists ρ2'. split; [exact H2|]. eapply wsteps_more; [exact Hstep | exact Hs].
    + intros Hne. destruct (IH (fun j Hj => Hphi j (list_elem_of_further _ _ _ Hj))
                        (fun j v Hj => Hr j v (list_elem_of_further _ _ _ Hj)) (assign_agree R ρ ρ' i w Ha) Hne) as (He & k & Hk).
      split; [exact He|]. exists (S k). cbn [wrun]. rewrite Hstep. exact Hk.
  - intros _. split; [discriminate|]. exists 1. cbn [wrun]. unfold wstep. cbn [cCode cLocals cMemory]. rewrite Hvs, Hop. reflexivity.
Qed.
End Run.
