(* ===== verification/WasmAnalysis.v ===== *)
(** * What [analyze] finds ([internal/wasm/structure.go])

    [Structured] is what the writer relies on: places of a reverse postorder, the
    ancestors in the dominator tree, which edges go back, which blocks are
    merges and under which block each is written.  [analyze_structured] shows
    that what [analyze] returns has all of it. *)

From stdpp Require Import base list strings gmap sorting.
From Stdlib Require Import Lia.
From S2P Require Import Prelude GoStd IR Cfg Dominators CfgFacts WasmStructure WasmOrder.

#[local] Open Scope list_scope.

(** ** The interface *)

Definition place (s : structure) (x : string) : nat := rpoAt (sRpo s) x.
Definition parentOf (s : structure) (x : string) : string := default ""%string (sIdom s !! x).
Definition childrenOf (s : structure) (x : string) : list string := default [] (sMergeChildren s !! x).
Definition entryName (fn : Function) : string := from_option bName ""%string (head (fBlocks fn)).

(** [a] is [b] or one of its ancestors. *)
Definition above (s : structure) (a b : string) : Prop := sDominates s a b = Some true.

(** An edge between two blocks of the order. *)
Definition edge (s : structure) (x t : string) : Prop :=
  x ∈ sOrder s /\ exists b, sBlocks s !! x = Some b /\ t ∈ Successors (bTerminator b).

(** A walk leads from the entry to [x]. *)
Definition reached (fn : Function) (x : string) : Prop :=
  exists p, blockIndex fn !! x = Some p /\ reach (succs fn) 0 p.

(** Every walk from the entry to [b] goes through [d]. *)
Definition onTheWay (fn : Function) (d b : string) : Prop :=
  exists p q, blockIndex fn !! d = Some p /\ blockIndex fn !! b = Some q /\ dominated_by (succs fn) p q.

Class Structured (fn : Function) (s : structure) : Prop := {
  sd_blocks : sBlocks s = blocksByName fn;
  sd_entry : entryName fn ∈ sOrder s;
  sd_entry_place : place s (entryName fn) = 0;
  sd_in x : x ∈ sOrder s -> exists b, b ∈ fBlocks fn /\ bName b = x;
  sd_reached x : x ∈ sOrder s <-> reached fn x;
  sd_edge x t : edge s x t -> t ∈ sOrder s;
  sd_place_inj x y : x ∈ sOrder s -> y ∈ sOrder s -> place s x = place s y -> x = y;
  sd_place_lt x : x ∈ sOrder s -> place s x < List.length (sOrder s);
  sd_above_entry a : a ∈ sOrder s -> above s a (entryName fn) -> a = entryName fn;
  sd_above_refl a : above s a a;
  sd_dominates a b : a ∈ sOrder s -> b ∈ sOrder s -> is_Some (sDominates s a b);
  sd_dominance a b : a ∈ sOrder s -> b ∈ sOrder s -> above s a b <-> onTheWay fn a b;
  sd_above_parent a b : a ∈ sOrder s -> b ∈ sOrder s -> b <> entryName fn ->
    above s a b <-> a = b \/ above s a (parentOf s b);
  sd_parent b : b ∈ sOrder s -> b <> entryName fn -> parentOf s b ∈ sOrder s /\ place s (parentOf s b) < place s b;
  sd_edge_above x t : edge s x t -> t <> entryName fn -> above s (parentOf s t) x;
  (** a forward edge to a block that is no merge comes from its parent *)
  sd_only x t : edge s x t -> place s x < place s t -> t ∉ sMerges s -> parentOf s t = x;
  sd_back x t : edge s x t -> place s t <= place s x -> t ∈ sLoopHeaders s /\ above s t x;
  sd_header h : h ∈ sLoopHeaders s -> h ∈ sOrder s;
  sd_merge m : m ∈ sMerges s -> m ∈ sOrder s /\ m <> entryName fn;
  (** a merge is entered by a forward edge from a block other than [x], unless
      [x] enters it twice *)
  sd_merge_edges m x b : m ∈ sMerges s -> sBlocks s !! x = Some b -> times m (Successors (bTerminator b)) <= 1 ->
    exists y, y <> x /\ edge s y m /\ place s y < place s m;
  sd_children b m : m ∈ childrenOf s b <-> m ∈ sMerges s /\ parentOf s m = b;
  sd_children_sorted b : StronglySorted (fun x y => place s y < place s x) (childrenOf s b)
}.

(** ** The predecessors as lists of positions *)

Section Analysis.
Context {fn : Function} {NB : NamedBlocks fn}.

#[local] Abbreviation ord := (CfgFacts.order fn).
#[local] Abbreviation names := (orderNames (fn := fn)).
#[local] Abbreviation rpo := (rpoOf names).
#[local] Abbreviation N := (List.length ord).
#[local] Abbreviation nameAt := (nameAt (fn := fn)).
#[local] Abbreviation nameOf := (nameOf (fn := fn)).

Definition posOf (x : string) : nat := default 0 (blockIndex fn !! x).

Lemma posOf_nameAt p : p < CfgFacts.size fn -> posOf (nameAt p) = p.
Proof. intros Hp. unfold posOf. rewrite blockIndex_nameAt by exact Hp. reflexivity. Qed.

Definition listsOf (preds : gmap string (list string)) : list (list nat) :=
  map (fun p => map posOf (default [] (preds !! nameAt p))) (seq 0 (CfgFacts.size fn)).

Lemma listsOf_lookup preds p :
  p < CfgFacts.size fn -> listsOf preds !! p = Some (map posOf (default [] (preds !! nameAt p))).
Proof. intros Hp. unfold listsOf. rewrite list_lookup_fmap, lookup_seq_lt by exact Hp. reflexivity. Qed.

Section Lists.
Context (preds : gmap string (list string)).
Context (preds_names : forall x t, x ∈ default [] (preds !! t) -> exists q, q ∈ ord /\ x = nameAt q).
Context (preds_edges : forall p q, p ∈ ord -> q ∈ ord -> nameAt q ∈ default [] (preds !! nameAt p) <-> p ∈ succs fn q).

Lemma listsOf_names i p : ord !! i = Some p ->
  Forall2 (fun pred q => exists j, ord !! j = Some q /\ pred = nameOf j)
    (default [] (preds !! nameOf i)) (default [] (listsOf preds !! p)).
Proof.
  intros Hp. rewrite (nameOf_position i p Hp), listsOf_lookup by (apply order_in, (list_elem_of_lookup_2 _ _ _ Hp)).
  pose proof (fun x => preds_names x (nameAt p)) as H.
  enough (Hl : forall l, (forall x, x ∈ l -> exists q, q ∈ ord /\ x = nameAt q) ->
    Forall2 (fun pred q => exists j, ord !! j = Some q /\ pred = nameOf j) l (map posOf l)) by exact (Hl _ H).
  clear H. intros l.
  induction l as [|x l IH]; intros H; cbn [map]; constructor.
  - destruct (H x (list_elem_of_here x l)) as (q & Hq & ->). rewrite posOf_nameAt by (apply order_in, Hq).
    apply list_elem_of_lookup in Hq as [j Hj]. exists j. split; [exact Hj|]. symmetry. apply nameOf_position, Hj.
  - apply IH. intros y Hy. apply H. right. exact Hy.
Qed.

Lemma listsOf_spec i j : j ∈ predsOf (places fn) ord (listsOf preds) i <->
  exists p q, ord !! i = Some p /\ ord !! j = Some q /\ p ∈ succs fn q.
Proof.
  unfold predsOf. rewrite list_elem_of_omap. split.
  - intros (q & Hq & Hj). apply (places_spec fn blocks_pos) in Hj.
    destruct (ord !! i) as [p|] eqn:Hi; cbn [mbind option_bind] in Hq; [|inversion Hq].
    pose proof (list_elem_of_lookup_2 _ _ _ Hi) as Hpo. rewrite listsOf_lookup in Hq by apply order_in, Hpo.
    unfold from_option, id in Hq. apply list_elem_of_In, in_map_iff in Hq as (x & <- & Hx). apply list_elem_of_In in Hx.
    destruct (preds_names x _ Hx) as (q & Hqo & ->). rewrite posOf_nameAt in Hj by apply order_in, Hqo.
    exists p, q. split; [reflexivity|]. split; [exact Hj|]. apply preds_edges; assumption.
  - intros (p & q & Hi & Hj & Hs). exists q. rewrite (places_spec fn blocks_pos). split; [|exact Hj].
    pose proof (list_elem_of_lookup_2 _ _ _ Hi) as Hpo. pose proof (list_elem_of_lookup_2 _ _ _ Hj) as Hqo.
    rewrite Hi. cbn [mbind option_bind]. rewrite listsOf_lookup by apply order_in, Hpo. unfold from_option, id.
    apply list_elem_of_In, in_map_iff. exists (nameAt q). split; [apply posOf_nameAt, order_in, Hqo|].
    apply list_elem_of_In, preds_edges; assumption.
Qed.
End Lists.

(** ** Headers and merges *)

(** The retreating edges, and what makes a graph reducible. *)
Definition retreats (i j : nat) : Prop :=
  j <= i /\ exists p q, ord !! i = Some p /\ ord !! j = Some q /\ q ∈ succs fn p.

Definition reducible : Prop := forall i j, retreats i j -> domIndex fn j i.

Section Marks.
Context (preds : gmap string (list string)) (idom : list (option nat)) (idomN : gmap string string).
Context (preds_names : forall x t, x ∈ default [] (preds !! t) -> exists q, q ∈ ord /\ x = nameAt q).
Context (preds_edges : forall p q, p ∈ ord -> q ∈ ord -> nameAt q ∈ default [] (preds !! nameAt p) <-> p ∈ succs fn q).
Context (preds_times : forall q b t, fBlocks fn !! q = Some b ->
  times (nameAt q) (default [] (preds !! t)) <= times t (Successors (bTerminator b))).
Context (F : finished fn (listsOf preds) idom) (Same : sameTree (fn := fn) idom idomN).

Lemma finished_tree : tree_upto N idom.
Proof. apply (inv_tree _ _ _ _ _ _ _ _ (proj1 F)). Qed.

Lemma dominatesName_spec i j :
  i < N -> j < N ->
  exists b, dominatesName rpo idomN (nameOf j) (nameOf i) = Some b /\ (b = true <-> domIndex fn j i).
Proof.
  intros Hi Hj. unfold dominatesName. rewrite (nameOf_rpo i Hi).
  destruct (dominatesLoop_spec finished_tree (le_n N) Same (S i) i j Hi ltac:(lia) Hj) as (b & Hb & Hiff).
  exists b. split; [exact Hb|]. rewrite Hiff. apply (anc_exact fn blocks_pos (listsOf preds)); [|exact F | exact Hi].
  apply listsOf_spec; assumption.
Qed.

(** The predecessors of a place, by place. *)
Definition predPlaces (i : nat) : list string := default [] (preds !! nameOf i).

Lemma predPlaces_spec i x :
  i < N -> x ∈ predPlaces i <-> exists j p q, x = nameOf j /\ ord !! i = Some p /\ ord !! j = Some q /\ p ∈ succs fn q.
Proof.
  intros Hi. destruct (lookup_lt_is_Some_2 ord i Hi) as [p Hp]. unfold predPlaces. rewrite (nameOf_position i p Hp).
  pose proof (list_elem_of_lookup_2 _ _ _ Hp) as Hpo. split.
  - intros Hx. destruct (preds_names x _ Hx) as (q & Hq & ->). pose proof (proj1 (preds_edges p q Hpo Hq) Hx) as Hs.
    apply list_elem_of_lookup in Hq as [j Hj]. exists j, p, q. rewrite (nameOf_position j q Hj). auto.
  - intros (j & p' & q & -> & Hp' & Hj & Hs). assert (p' = p) as -> by congruence. rewrite (nameOf_position j q Hj).
    apply preds_edges; [exact Hpo | eapply list_elem_of_lookup_2, Hj | exact Hs].
Qed.

#[local] Abbreviation forward i := (fun x : string => rpoAt rpo x < i).

(** One block's predecessors. *)
Lemma classifyPreds_spec i l st :
  i < N -> (forall x, x ∈ l -> x ∈ predPlaces i) ->
  match classifyPreds rpo idomN (nameOf i) st l with
  | Ok st' => st'.1 = st.1 + List.length (filter (forward i) l) /\
      (st'.2 = true <-> st.2 = true \/ exists x, x ∈ l /\ i <= rpoAt rpo x) /\
      forall x, x ∈ l -> i <= rpoAt rpo x -> exists j, j < N /\ x = nameOf j /\ domIndex fn i j
  | Err e => exists j, e = Irreducible (nameOf j) (nameOf i) /\ retreats j i /\ ~ domIndex fn i j
  end.
Proof.
  intros Hi. revert st. induction l as [|x l IH]; intros st Hl; cbn [classifyPreds].
  { split; [cbn; lia|]. split; [|intros x Hx; inversion Hx]. split; [tauto|]. intros [H|(x & Hx & _)]; [exact H | inversion Hx]. }
  destruct (proj1 (predPlaces_spec i x Hi) (Hl x ltac:(left))) as (j & p & q & -> & Hp & Hq & Hs).
  pose proof (lookup_lt_Some _ _ _ Hq) as Hj.
  assert (Hl' : forall x, x ∈ l -> x ∈ predPlaces i) by (intros y Hy; apply Hl; right; exact Hy).
  unfold classifyPred. rewrite (nameOf_rpo i Hi), (nameOf_rpo j Hj). destruct (decide (i <= j)) as [Hle|Hgt].
  - destruct (dominatesName_spec j i Hj Hi) as (b & -> & Hb). cbn [orPanic]. destruct b.
    + specialize (IH (st.1, true) Hl'). destruct (classifyPreds rpo idomN (nameOf i) (st.1, true) l) as [st'|e]; [|exact IH].
      destruct IH as (E1 & E2 & E3). cbn [fst snd] in *. rewrite filter_cons_False by (rewrite (nameOf_rpo j Hj); lia).
      split; [exact E1|]. split.
      * rewrite E2. split; [|tauto]. intros _. right. exists (nameOf j). split; [left | rewrite (nameOf_rpo j Hj); exact Hle].
      * intros y [->|Hy]%elem_of_cons Hge; [|apply E3; assumption]. exists j. split; [exact Hj|]. split; [reflexivity|].
        apply Hb. reflexivity.
    + exists j. split; [reflexivity|]. split; [|rewrite <- Hb; discriminate]. split; [exact Hle|]. exists q, p. auto.
  - specialize (IH (S st.1, st.2) Hl'). destruct (classifyPreds rpo idomN (nameOf i) (S st.1, st.2) l) as [st'|e]; [|exact IH].
    destruct IH as (E1 & E2 & E3). cbn [fst snd] in *. rewrite filter_cons_True by (rewrite (nameOf_rpo j Hj); lia).
    split; [cbn [List.length]; lia|]. split.
    + rewrite E2. split; (intros [H|(y & Hy & Hge)]; [left; exact H|]).
      * right. exists y. split; [right; exact Hy | exact Hge].
      * apply elem_of_cons in Hy as [->|Hy]; [rewrite (nameOf_rpo j Hj) in Hge; lia|]. right. eauto.
    + intros y [->|Hy]%elem_of_cons Hge; [rewrite (nameOf_rpo j Hj) in Hge; lia | apply E3; assumption].
Qed.

Lemma retreats_pred i : i < N ->
  (exists x, x ∈ predPlaces i /\ i <= rpoAt rpo x) <-> exists j, retreats j i.
Proof.
  intros Hi. split.
  - intros (x & Hx & Hle). apply (predPlaces_spec i x Hi) in Hx as (j & p & q & -> & Hp & Hq & Hs).
    rewrite nameOf_rpo in Hle by (eapply lookup_lt_Some, Hq). exists j. split; [exact Hle|]. exists q, p. auto.
  - intros (j & Hle & q & p & Hq & Hp & Hs). pose proof (lookup_lt_Some _ _ _ Hq) as Hj. exists (nameOf j).
    split; [apply (predPlaces_spec i _ Hi); exists j, p, q; auto | rewrite (nameOf_rpo j Hj); exact Hle].
Qed.

Definition merging (i : nat) : Prop := 2 <= List.length (filter (forward i) (predPlaces i)).

Lemma classify_spec l headers merges :
  (forall i, i ∈ l -> i < N) ->
  match classify rpo idomN preds (map nameOf l) headers merges with
  | Ok marks => (forall x, x ∈ marks.1 <-> x ∈ headers \/ exists i j, i ∈ l /\ x = nameOf i /\ retreats j i) /\
      (forall x, x ∈ marks.2 <-> x ∈ merges \/ exists i, i ∈ l /\ x = nameOf i /\ merging i) /\
      forall i j, i ∈ l -> retreats j i -> domIndex fn i j
  | Err e => exists i j, e = Irreducible (nameOf j) (nameOf i) /\ retreats j i /\ ~ domIndex fn i j
  end.
Proof.
  revert headers merges. induction l as [|i l IH]; intros headers merges Hl; cbn [map classify].
  { split; [|split].
    - intros x. split; [tauto|]. intros [H|(i & j & H & _)]; [exact H | inversion H].
    - intros x. split; [tauto|]. intros [H|(i & H & _)]; [exact H | inversion H].
    - intros i j H. inversion H. }
  assert (Hi : i < N) by (apply Hl; left).
  pose proof (classifyPreds_spec i (predPlaces i) (0, false) Hi (fun x H => H)) as Hc. unfold predPlaces in Hc at 1.
  destruct (classifyPreds rpo idomN (nameOf i) (0, false) (default [] (preds !! nameOf i))) as [st|e].
  2: { destruct Hc as (j & Hc). exists i, j. exact Hc. }
  destruct Hc as (E1 & E2 & E3). cbn [fst snd] in *.
  specialize (IH (if st.2 then {[nameOf i]} ∪ headers else headers)
                 (if (2 <=? st.1)%nat then {[nameOf i]} ∪ merges else merges) (fun j Hj => Hl j (list_elem_of_further _ _ _ Hj))).
  destruct (classify rpo idomN preds (map nameOf l) _ _) as [marks|e]; [|exact IH].
  destruct IH as (H1 & H2 & H3).
  assert (Hback : st.2 = true <-> exists j, retreats j i).
  { rewrite E2, <- (retreats_pred i Hi). split; [intros [H|H]; [discriminate | exact H] | tauto]. }
  split; [|split].
  - intros x. rewrite H1. setoid_rewrite elem_of_cons. destruct st.2.
    + rewrite elem_of_union, elem_of_singleton. split; [|intros [H|(k & j & [->|Hk] & -> & Hr)]; eauto 10].
      intros [[->|H]|(k & j & Hk & Hr)]; eauto 10. destruct (proj1 Hback eq_refl) as [j Hj]. eauto 10.
    + split; [intros [H|(k & j & Hk & Hr)]; eauto 10|]. intros [H|(k & j & [->|Hk] & Hx & Hr)]; eauto 10.
      assert (false = true) by (apply Hback; eauto). discriminate.
  - intros x. rewrite H2. setoid_rewrite elem_of_cons. unfold merging at 2. fold (predPlaces i) in E1.
    rewrite Nat.add_0_l in E1. destruct (Nat.leb_spec 2 st.1) as [Hge|Hlt].
    + rewrite elem_of_union, elem_of_singleton. split; [|intros [H|(k & [->|Hk] & -> & Hr)]; eauto 10].
      intros [[->|H]|(k & Hk & Hr)]; eauto 10. right. exists i. split; [auto|]. split; [reflexivity|]. rewrite <- E1. exact Hge.
    + split; [intros [H|(k & Hk & Hr)]; eauto 10|]. intros [H|(k & [->|Hk] & Hx & Hr)]; eauto 10.
      rewrite <- E1 in Hr. lia.
  - intros k j [->|Hk]%elem_of_cons Hr; [|eauto].
    destruct Hr as (Hle & q & p & Hq & Hp & Hs). pose proof (lookup_lt_Some _ _ _ Hq) as Hj.
    destruct (E3 (nameOf j)) as (j' & Hj' & E & Hd).
    + apply (predPlaces_spec i _ Hi). exists j, p, q. auto.
    + rewrite (nameOf_rpo j Hj). exact Hle.
    + apply nameOf_inj in E as ->; assumption.
Qed.

(** ** Children *)

Lemma addChildren_filter (merges : gset string) l children b :
  default [] (foldl (addChild idomN merges) children l !! b) =
  default [] (children !! b) ++ filter (fun x => x ∈ merges /\ default ""%string (idomN !! x) = b) l.
Proof.
  revert children. induction l as [|x l IH]; intros children; cbn [foldl]; [rewrite app_nil_r; reflexivity|].
  rewrite IH. unfold addChild. destruct (decide (x ∈ merges)) as [Hx|Hx].
  - destruct (decide (default ""%string (idomN !! x) = b)) as [Hb|Hb].
    + rewrite filter_cons_True by auto. rewrite Hb, lookup_insert_eq. unfold from_option at 1, id at 1.
      rewrite <- app_assoc. reflexivity.
    + rewrite filter_cons_False by tauto. rewrite lookup_insert_ne by exact Hb. reflexivity.
  - rewrite filter_cons_False by tauto. reflexivity.
Qed.

#[local] Instance laterFirst_total : Total (laterFirst rpo).
Proof. intros x y. unfold laterFirst. lia. Qed.

#[local] Instance laterFirst_trans : Transitive (laterFirst rpo).
Proof. intros x y z. unfold laterFirst. lia. Qed.

Lemma strictly_sorted l :
  NoDup l -> (forall x, x ∈ l -> x ∈ names) -> StronglySorted (laterFirst rpo) l ->
  StronglySorted (fun x y => rpoAt rpo y < rpoAt rpo x) l.
Proof.
  intros Hnd Hin H. induction H as [|x l Hs IH Hx]; constructor.
  - apply IH; [inversion Hnd; assumption | intros y Hy; apply Hin; right; exact Hy].
  - apply Forall_forall. intros y Hy. apply NoDup_cons in Hnd as [Hnx _].
    rewrite Forall_forall in Hx. specialize (Hx y Hy). unfold laterFirst in Hx.
    destruct (names_place x (Hin x ltac:(left))) as (i & Hi & ->).
    destruct (names_place y (Hin y ltac:(right; exact Hy))) as (j & Hj & ->).
    rewrite (nameOf_rpo i Hi), (nameOf_rpo j Hj) in *.
    destruct (decide (i = j)) as [->|]; [contradiction | lia].
Qed.

Lemma sortChildren_spec (merges : gset string) b :
  let l := default [] (sortChildren rpo (foldl (addChild idomN merges) ∅ names) !! b) in
  StronglySorted (fun x y => rpoAt rpo y < rpoAt rpo x) l /\
  forall x, x ∈ l <-> x ∈ names /\ x ∈ merges /\ default ""%string (idomN !! x) = b.
Proof.
  cbv zeta. unfold sortChildren. rewrite lookup_fmap.
  pose proof (addChildren_filter merges names ∅ b) as H. rewrite lookup_empty in H. cbn [from_option app] in H.
  destruct (foldl (addChild idomN merges) ∅ names !! b) as [l|]; unfold from_option, id in *; cbn [fmap option_fmap option_map].
  - rewrite H. split.
    + apply strictly_sorted.
      * rewrite merge_sort_Permutation. apply NoDup_filter, orderNames_NoDup.
      * intros x. rewrite merge_sort_Permutation. intros Hx. apply list_elem_of_filter in Hx. tauto.
      * apply (StronglySorted_merge_sort _).
    + intros x. rewrite merge_sort_Permutation, list_elem_of_filter. tauto.
  - split; [constructor|]. intros x. rewrite elem_of_nil. split; [tauto|]. intros (Hx & Hm).
    assert (Hf : x ∈ filter (fun x => x ∈ merges /\ default ""%string (idomN !! x) = b) names) by (apply list_elem_of_filter; auto).
    unfold from_option, id in Hf. rewrite <- H in Hf. inversion Hf.
Qed.

(** ** The structure *)

Section Built.
Context (marks : gset string * gset string) (Hmarks : classify rpo idomN preds names ∅ ∅ = Ok marks).

Definition built : structure :=
  mkStructure (blocksByName fn) names rpo preds idomN marks.1 marks.2
    (sortChildren rpo (foldl (addChild idomN marks.2) ∅ names)).

#[local] Abbreviation T := finished_tree.

Lemma marks_spec :
  (forall x, x ∈ marks.1 <-> exists i j, i < N /\ x = nameOf i /\ retreats j i) /\
  (forall x, x ∈ marks.2 <-> exists i, i < N /\ x = nameOf i /\ merging i) /\
  forall i j, retreats j i -> domIndex fn i j.
Proof.
  pose proof (classify_spec (seq 0 N) ∅ ∅) as H. rewrite <- names_seq, Hmarks in H.
  destruct H as (H1 & H2 & H3); [intros i Hi; apply elem_of_seq in Hi; lia|].
  setoid_rewrite elem_of_seq in H1. setoid_rewrite elem_of_seq in H2. setoid_rewrite elem_of_seq in H3.
  split; [|split].
  - intros x. rewrite H1. split; [intros [H|(i & j & Hi & H)]; [apply elem_of_empty in H as [] |]|].
    + exists i, j. split; [lia | exact H].
    + intros (i & j & Hi & H). right. exists i, j. split; [lia | exact H].
  - intros x. rewrite H2. split; [intros [H|(i & Hi & H)]; [apply elem_of_empty in H as [] |]|].
    + exists i. split; [lia | exact H].
    + intros (i & Hi & H). right. exists i. split; [lia | exact H].
  - intros i j Hr. apply H3; [|exact Hr]. destruct Hr as (_ & p & q & _ & Hq & _). apply lookup_lt_Some in Hq. lia.
Qed.

Lemma above_anc i j : i < N -> j < N -> above built (nameOf j) (nameOf i) <-> anc idom j i.
Proof.
  intros Hi Hj. unfold above, sDominates. cbn [sRpo sIdom built].
  destruct (dominatesName_spec i j Hi Hj) as (b & -> & Hb).
  rewrite (anc_exact fn blocks_pos (listsOf preds) (listsOf_spec preds preds_names preds_edges) idom F j i Hi), <- Hb.
  split; [intros [= ->]; reflexivity | intros ->; reflexivity].
Qed.

Lemma place_built i : i < N -> place built (nameOf i) = i.
Proof. apply nameOf_rpo. Qed.

Lemma parentOf_built i j : parent idom i = Some j -> parentOf built (nameOf i) = nameOf j /\ i < N /\ j < N.
Proof.
  intros H. destruct (tree_bound T _ _ H) as [Hi Hj]. destruct (sameTree_parent T (le_n N) Same i j H) as [E Hj'].
  auto.
Qed.

Lemma entry_built : entryName fn = nameOf 0.
Proof.
  pose proof (order_pos fn blocks_pos) as H0. destruct (order_spec fn blocks_pos) as (_ & _ & Ho & _).
  rewrite (nameOf_position 0 0 Ho). unfold entryName, WasmOrder.nameAt. rewrite head_lookup.
  destruct (fBlocks fn !! 0); reflexivity.
Qed.

Lemma entry_place i : i < N -> nameOf i <> entryName fn -> 0 < i.
Proof. rewrite entry_built. intros Hi H. destruct i; [contradiction | lia]. Qed.

Lemma edge_places x t :
  edge built x t <-> exists i j p q, x = nameOf i /\ t = nameOf j /\ ord !! i = Some p /\ ord !! j = Some q /\ q ∈ succs fn p.
Proof.
  unfold edge. cbn [sOrder sBlocks built]. split.
  - intros (Hx & b & Hb & Ht). destruct (names_place x Hx) as (i & Hi & ->).
    destruct (lookup_lt_is_Some_2 ord i Hi) as [p Hp]. rewrite (nameOf_position i p Hp) in *.
    pose proof (order_in p (list_elem_of_lookup_2 _ _ _ Hp)) as Hpn.
    destruct (blocksByName_lookup p Hpn) as (b' & Hb' & _ & E). assert (b' = b) as -> by congruence.
    destruct (named_position (fn := fn) t) as (q & Hq & <-); [apply (nb_targets b); [eapply list_elem_of_lookup_2, Hb' | exact Ht]|].
    assert (Hs : q ∈ succs fn p) by (apply (succ_of_name p q b Hb' Hq), Ht).
    destruct (order_reach fn blocks_pos q) as [j Hj].
    { eapply reach_step; [|exact Hs]. apply (order_spec fn blocks_pos), (list_elem_of_lookup_2 _ _ _ Hp). }
    exists i, j, p, q. rewrite (nameOf_position i p Hp), (nameOf_position j q Hj). auto.
  - intros (i & j & p & q & -> & -> & Hp & Hq & Hs).
    split; [apply nameOf_in; eapply lookup_lt_Some, Hp|].
    rewrite (nameOf_position i p Hp), (nameOf_position j q Hq).
    destruct (blocksByName_lookup p (order_in p (list_elem_of_lookup_2 _ _ _ Hp))) as (b & Hb & _ & E).
    exists b. split; [exact E|].
    apply (succ_of_name p q b Hb (order_in q (list_elem_of_lookup_2 _ _ _ Hq))), Hs.
Qed.

(** The parent of a block is above every predecessor. *)
Lemma parent_above_pred i j p q :
  ord !! i = Some p -> ord !! j = Some q -> q ∈ succs fn p -> 0 < j ->
  exists up, parent idom j = Some up /\ anc idom up i.
Proof.
  intros Hp Hq Hs Hj. pose proof (lookup_lt_Some _ _ _ Hq) as HjN. pose proof (lookup_lt_Some _ _ _ Hp) as HiN.
  destruct (tree_lt _ _ T j ltac:(lia)) as (up & Hup & Hlt). exists up. split; [exact Hup|].
  eapply (fixed_anc (places fn) ord (listsOf preds) N (domIndex fn) idom j up i (proj1 F)); [lia | apply (proj2 F); lia | | lia | | exact HiN].
  - eapply anc_up; [exact Hup|]. apply (anc_self T). lia.
  - apply (listsOf_spec preds preds_names preds_edges). exists q, p. auto.
Qed.

(** A block with one forward predecessor is entered through it. *)
Lemma only_pred_dominates i j :
  i < j -> j < N -> (forall i' p q, ord !! i' = Some p -> ord !! j = Some q -> q ∈ succs fn p -> i' < j -> i' = i) ->
  domIndex fn i j.
Proof.
  intros Hij HjN Honly. destruct (lookup_lt_is_Some_2 ord i ltac:(lia)) as [p Hp].
  destruct (lookup_lt_is_Some_2 ord j HjN) as [q Hq]. exists p, q. split; [exact Hp|]. split; [exact Hq|].
  enough (H : forall l c, path (succs fn) 0 l c -> q ∈ l -> p ∈ l) by (intros l Hl; exact (H l q Hl (path_end _ _ _ _ Hl))).
  induction 1 as [|l b c Hl IH Hc]; intros Hin.
  - apply list_elem_of_singleton in Hin as ->. destruct (order_spec fn blocks_pos) as (_ & _ & Ho & _).
    pose proof (order_inj fn blocks_pos 0 j 0 Ho Hq). lia.
  - apply elem_of_app. left. apply elem_of_app in Hin as [Hin|Hin%list_elem_of_singleton]; [exact (IH Hin)|]. subst c.
    destruct (decide (q ∈ l)) as [Hql|Hql]; [exact (IH Hql)|].
    destruct (order_reach fn blocks_pos b) as [k Hk]; [exists l; exact Hl|].
    destruct (decide (k < j)) as [Hkj|Hkj].
    + rewrite <- (Honly k b q Hk Hq Hc Hkj) in Hp. assert (b = p) as <- by congruence. exact (path_end _ _ _ _ Hl).
    + exfalso. destruct (proj2 (proj2 marks_spec) j k) as (q' & b' & Hq' & Hb' & Hd).
      { split; [lia|]. exists b, q. auto. }
      assert (q' = q) as -> by congruence. assert (b' = b) as -> by congruence. apply Hql, Hd, Hl.
Qed.

Lemma only_built x t : edge built x t -> place built x < place built t -> t ∉ sMerges built -> parentOf built t = x.
Proof.
  intros He Hlt Hm. apply edge_places in He as (i & j & p & q & -> & -> & Hp & Hq & Hs).
  pose proof (lookup_lt_Some _ _ _ Hp) as Hi. pose proof (lookup_lt_Some _ _ _ Hq) as Hj.
  rewrite (place_built i Hi), (place_built j Hj) in Hlt.
  assert (Hfew : List.length (filter (forward j) (predPlaces j)) < 2).
  { destruct (decide (2 <= List.length (filter (forward j) (predPlaces j)))) as [Hge|]; [|lia].
    contradict Hm. apply marks_spec. exists j. auto. }
  assert (Hin : forall i' p', ord !! i' = Some p' -> q ∈ succs fn p' -> i' < j -> nameOf i' ∈ filter (forward j) (predPlaces j)).
  { intros i' p' Hp' Hs' Hlt'. pose proof (lookup_lt_Some _ _ _ Hp') as Hi'. apply list_elem_of_filter.
    split; [rewrite (nameOf_rpo i' Hi'); exact Hlt'|]. apply (predPlaces_spec j _ Hj). exists i', q, p'. auto. }
  assert (Hdom : domIndex fn i j).
  { apply only_pred_dominates; [exact Hlt | exact Hj |]. intros i' p' q' Hp' Hq' Hs' Hlt'.
    assert (q' = q) as -> by congruence. apply nameOf_inj; [eapply lookup_lt_Some, Hp' | exact Hi |].
    pose proof (Hin i p Hp Hs Hlt) as H1. pose proof (Hin i' p' Hp' Hs' Hlt') as H2.
    destruct (filter (forward j) (predPlaces j)) as [|y [|z l]]; cbn in Hfew; [inversion H1 | | lia].
    apply list_elem_of_singleton in H1, H2. congruence. }
  destruct (parent_above_pred i j p q Hp Hq Hs ltac:(lia)) as (up & Hup & Hanc).
  destruct (parentOf_built j up Hup) as (-> & _). f_equal.
  apply (anc_exact fn blocks_pos (listsOf preds) (listsOf_spec preds preds_names preds_edges) idom F i j Hj) in Hdom.
  destruct (anc_parent T _ _ _ Hdom Hup) as [->|Hiu]; [lia|].
  apply (anc_bound T) in Hanc, Hiu. lia.
Qed.

Lemma dominance_built i j : i < N -> j < N -> domIndex fn i j <-> onTheWay fn (nameOf i) (nameOf j).
Proof.
  intros Hi Hj. destruct (lookup_lt_is_Some_2 ord i Hi) as [p Hp], (lookup_lt_is_Some_2 ord j Hj) as [q Hq].
  pose proof (order_in p (list_elem_of_lookup_2 _ _ _ Hp)) as Hpn. pose proof (order_in q (list_elem_of_lookup_2 _ _ _ Hq)) as Hqn.
  unfold onTheWay, domIndex. rewrite (nameOf_position i p Hp), (nameOf_position j q Hq), (blockIndex_nameAt p Hpn), (blockIndex_nameAt q Hqn).
  split; intros (a & b & Ha & Hb & Hd); exists a, b.
  - rewrite Hp in Ha. rewrite Hq in Hb. auto.
  - injection Ha as <-. injection Hb as <-. auto.
Qed.

Lemma alone_times (P : string -> Prop) `{!forall y, Decision (P y)} x l :
  (forall y, y ∈ filter P l -> y = x) -> List.length (filter P l) <= times x l.
Proof.
  intros Hall. induction l as [|y l IH]; [reflexivity|]. rewrite times_cons. rewrite filter_cons in *.
  destruct (decide (P y)) as [Hy|Hy].
  - rewrite (Hall y ltac:(left)). cbn [List.length]. rewrite decide_True by reflexivity.
    specialize (IH (fun z Hz => Hall z (list_elem_of_further _ _ _ Hz))). lia.
  - specialize (IH Hall). destruct (decide (y = x)); lia.
Qed.

Lemma merge_edges_built m x b :
  m ∈ sMerges built -> sBlocks built !! x = Some b -> times m (Successors (bTerminator b)) <= 1 ->
  exists y, y <> x /\ edge built y m /\ place built y < place built m.
Proof.
  intros Hm Hb Hone. apply marks_spec in Hm as (j & Hj & -> & Hm). unfold merging in Hm.
  cbn [sBlocks built] in Hb. apply blocksByName_from in Hb as [Hb|[Hb Hx]]; [rewrite lookup_empty in Hb; discriminate|].
  apply list_elem_of_lookup in Hb as [q Hq]. pose proof (preds_times q b (nameOf j) Hq) as Htimes.
  rewrite (nameAt_lookup q b Hq), Hx in Htimes. fold (predPlaces j) in Htimes.
  destruct (decide (Exists (fun y => y <> x) (filter (forward j) (predPlaces j)))) as [He|He].
  - apply Exists_exists in He as (y & Hy & Hne). apply list_elem_of_filter in Hy as [Hlt Hy].
    apply (predPlaces_spec j y Hj) in Hy as (i & p & r & -> & Hp & Hr & Hs). exists (nameOf i). split; [exact Hne|].
    pose proof (lookup_lt_Some _ _ _ Hr) as Hi. rewrite (nameOf_rpo i Hi) in Hlt.
    split; [apply edge_places; exists i, j, r, p; auto | rewrite (place_built i Hi), (place_built j Hj); exact Hlt].
  - exfalso. assert (H : forall y, y ∈ filter (forward j) (predPlaces j) -> y = x).
    { intros y Hy. destruct (decide (y = x)) as [|Hne]; [assumption|]. exfalso. apply He, Exists_exists. eauto. }
    pose proof (alone_times (forward j) x (predPlaces j) H). lia.
Qed.

#[export] Instance built_structured : Structured fn built.
Proof.
  pose proof (order_pos fn blocks_pos) as H0. destruct marks_spec as (Hheaders & Hmerges & Hback).
  split; cbn [sOrder sBlocks built].
  - reflexivity.
  - rewrite entry_built. apply nameOf_in, H0.
  - rewrite entry_built. apply place_built, H0.
  - intros x Hx. apply orderNames_elem in Hx as (p & Hp & <-). pose proof (order_in p Hp) as Hpn.
    destruct (lookup_lt_is_Some_2 (fBlocks fn) p Hpn) as [b Hb]. exists b.
    split; [eapply list_elem_of_lookup_2, Hb | symmetry; apply nameAt_lookup, Hb].
  - intros x. rewrite orderNames_elem. destruct (order_spec fn blocks_pos) as (_ & Hreach & _). split.
    + intros (p & Hp & <-). exists p. split; [apply blockIndex_nameAt, order_in, Hp | apply Hreach, Hp].
    + intros (p & Hp & Hr). exists p. apply Hreach in Hr. split; [exact Hr|].
      apply blockIndex_Some in Hp as (b & Hb & <-). apply nameAt_lookup, Hb.
  - intros x t He. apply edge_places in He as (i & j & p & q & _ & -> & _ & Hq & _).
    apply nameOf_in. eapply lookup_lt_Some, Hq.
  - intros x y Hx Hy E. apply names_place in Hx as (i & Hi & ->), Hy as (j & Hj & ->).
    rewrite (place_built i Hi), (place_built j Hj) in E. congruence.
  - intros x Hx. apply names_place in Hx as (i & Hi & ->). rewrite (place_built i Hi), names_length. exact Hi.
  - intros a Ha H. apply names_place in Ha as (i & Hi & ->). rewrite entry_built in *.
    apply (above_anc 0 i H0 Hi), (anc_bound T) in H. f_equal. lia.
  - intros a. unfold above, sDominates, dominatesName. cbn [dominatesLoop]. rewrite decide_True by reflexivity. reflexivity.
  - intros a b Ha Hb. apply names_place in Ha as (i & Hi & ->), Hb as (j & Hj & ->).
    destruct (dominatesName_spec j i Hj Hi) as (r & Hr & _). exists r. exact Hr.
  - intros a b Ha Hb. apply names_place in Ha as (i & Hi & ->), Hb as (j & Hj & ->).
    rewrite (above_anc j i Hj Hi), <- (dominance_built i j Hi Hj).
    apply (anc_exact fn blocks_pos (listsOf preds) (listsOf_spec preds preds_names preds_edges) idom F i j Hj).
  - intros a b Ha Hb Hne. apply names_place in Ha as (i & Hi & ->), Hb as (j & Hj & ->).
    pose proof (entry_place j Hj Hne) as Hj0. destruct (tree_lt _ _ T j ltac:(lia)) as (up & Hup & _).
    destruct (parentOf_built j up Hup) as (-> & _ & HupN). rewrite !above_anc by assumption. split.
    + intros H. destruct (anc_parent T _ _ _ H Hup) as [->|]; auto.
    + intros [E|H]; [apply nameOf_inj in E as ->; [apply (anc_self T), Hj | exact Hi | exact Hj] | eapply anc_up; eauto].
  - intros b Hb Hne. apply names_place in Hb as (j & Hj & ->).
    pose proof (entry_place j Hj Hne) as Hj0. destruct (tree_lt _ _ T j ltac:(lia)) as (up & Hup & Hlt).
    destruct (parentOf_built j up Hup) as (-> & _ & HupN). rewrite (place_built up HupN), (place_built j Hj).
    split; [apply nameOf_in, HupN | exact Hlt].
  - intros x t He Hne. apply edge_places in He as (i & j & p & q & -> & -> & Hp & Hq & Hs).
    pose proof (lookup_lt_Some _ _ _ Hp) as Hi. pose proof (lookup_lt_Some _ _ _ Hq) as Hj.
    destruct (parent_above_pred i j p q Hp Hq Hs (entry_place j Hj Hne)) as (up & Hup & Hanc).
    destruct (parentOf_built j up Hup) as (-> & _ & HupN). apply above_anc; assumption.
  - exact only_built.
  - intros x t He Hle. apply edge_places in He as (i & j & p & q & -> & -> & Hp & Hq & Hs).
    pose proof (lookup_lt_Some _ _ _ Hp) as Hi. pose proof (lookup_lt_Some _ _ _ Hq) as Hj.
    rewrite (place_built i Hi), (place_built j Hj) in Hle.
    assert (Hr : retreats i j) by (split; [exact Hle | exists p, q; auto]). split.
    + apply Hheaders. exists j, i. auto.
    + apply above_anc; [exact Hi | exact Hj |].
      apply (anc_exact fn blocks_pos (listsOf preds) (listsOf_spec preds preds_names preds_edges) idom F j i Hi), Hback, Hr.
  - intros h Hh. apply Hheaders in Hh as (i & j & Hi & -> & _). apply nameOf_in, Hi.
  - intros m Hm. apply Hmerges in Hm as (i & Hi & -> & Hm). split; [apply nameOf_in, Hi|].
    rewrite entry_built. intros E. apply nameOf_inj in E as ->; [|exact Hi | exact H0].
    unfold merging in Hm. destruct (filter (forward 0) (predPlaces 0)) as [|y l] eqn:E; [cbn in Hm; lia|].
    assert (Hy : y ∈ filter (forward 0) (predPlaces 0)) by (rewrite E; left). apply list_elem_of_filter in Hy. lia.
  - exact merge_edges_built.
  - intros b m. unfold childrenOf. cbn [sMergeChildren built sMerges]. rewrite (proj2 (sortChildren_spec marks.2 b)).
    split; [tauto|]. intros [Hm E]. split; [|auto]. apply Hmerges in Hm as (i & Hi & -> & _). apply nameOf_in, Hi.
  - intros b. apply (sortChildren_spec marks.2 b).
Qed.
End Built.
End Marks.

(** [analyze] builds a structure exactly for the graphs whose back edges go to
    dominators; anything else names an edge that does not. *)
Lemma analyze_spec :
  match analyze fn with
  | Ok s => Structured fn s /\ sOrder s = names /\ reducible
  | Err e => exists i j p q, e = Irreducible (nameAt p) (nameAt q) /\ j <= i /\ ord !! i = Some p /\ ord !! j = Some q /\
      q ∈ succs fn p /\ ~ dominated_by (succs fn) q p
  end.
Proof.
  destruct predsOfOrder_spec as (preds & Hpreds & Hn & He & Ht).
  destruct (computeDominators_spec preds (listsOf preds) (listsOf_spec preds Hn He) (listsOf_names preds Hn))
    as (idom & idomN & Hdom & F & Same).
  assert (E : analyze fn = let* marks := classify rpo idomN preds names ∅ ∅ in Ok (built preds idomN marks)).
  { unfold analyze. destruct (fBlocks fn) as [|entry rest] eqn:Hb; [exfalso; apply nb_some, Hb|].
    assert (H0 : bName entry = nameAt 0) by (unfold WasmOrder.nameAt; rewrite Hb; reflexivity).
    rewrite H0, postorderReversed_spec. cbn [orPanic]. fold names. rewrite Hpreds. cbn [orPanic]. rewrite Hdom. reflexivity. }
  rewrite E. destruct (classify rpo idomN preds names ∅ ∅) as [marks|e] eqn:Hc.
  - split; [|split; [reflexivity|]].
    + apply (built_structured preds idom idomN Hn He Ht F Same marks Hc).
    + intros i j Hr. apply (marks_spec preds idom idomN Hn He F Same marks Hc), Hr.
  - pose proof (classify_spec preds idom idomN Hn He F Same (seq 0 N) ∅ ∅) as H. rewrite <- names_seq, Hc in H.
    destruct H as (i & j & -> & (Hle & p & q & Hp & Hq & Hs) & Hnd); [intros i Hi; apply elem_of_seq in Hi; lia|].
    exists j, i, p, q. rewrite (nameOf_position j p Hp), (nameOf_position i q Hq).
    repeat (split; [auto|]). intros Hd. apply Hnd. exists q, p. auto.
Qed.
End Analysis.
