(* ===== verification/WasmScope.v ===== *)
(** * The labels in scope ([internal/wasm/control.go])

    [scoped] says which labels the code of a block can branch to and what is
    there: the loops of the headers above it, and the merges some block strictly
    above it is the parent of, as long as they come later.  Every part of
    [writeTree] keeps it, and every branch it writes finds its label. *)

From stdpp Require Import base list strings gmap sorting.
From Stdlib Require Import Lia.
From S2P Require Import Prelude GoStd IR Verify Semantics WasmStructure WasmOrder WasmAnalysis WasmControl WasmRun.

#[local] Open Scope list_scope.

(** ** Labels *)

Lemma sappend_inj (p a b : string) : (p +:+ a)%string = (p +:+ b)%string -> a = b.
Proof. apply (inj (String.app p)). Qed.

Lemma loopLabel_inj a b : loopLabel a = loopLabel b -> a = b.
Proof. apply sappend_inj. Qed.

Lemma blockLabel_inj a b : blockLabel a = blockLabel b -> a = b.
Proof. apply sappend_inj. Qed.

Lemma label_kinds a b : loopLabel a <> blockLabel b /\ loopLabel a <> "$exit"%string /\ blockLabel a <> "$exit"%string.
Proof. repeat split; discriminate. Qed.

Lemma branchTo_skip l f K : frLabel f <> l -> branchTo l (f :: K) = branchTo l K.
Proof. intros H. cbn [branchTo]. rewrite (proj2 (String.eqb_neq _ _) H). reflexivity. Qed.

Lemma branchTo_here l again after K :
  branchTo l (mkFrame l again after :: K) =
  match again with Some body => Some (body, mkFrame l again after :: K) | None => Some (after, K) end.
Proof. cbn [branchTo frLabel frAgain frAfter]. rewrite String.eqb_refl. reflexivity. Qed.

Section Scope.
Context (module : Module_) (values : string -> gmap string string) {fn : Function} {s : structure}.
Context {ST : Structured fn s}.

(** ** What is written *)

(** The code of a block with all it dominates, and without its [loop]. *)
Definition treeCode (x : string) (code : list wcode) : Prop :=
  exists fuel, writeTree module values s fuel x = Ok code.

Definition nodeCode (x : string) (code : list wcode) : Prop :=
  exists fuel, writeNodeWithin module values s (writeTree module values s fuel) x (childrenOf s x) = Ok code.

Lemma treeCode_node x code :
  treeCode x code -> exists body, nodeCode x body /\
    code = if decide (x ∈ sLoopHeaders s) then [WLoop (loopLabel x) body] else body.
Proof.
  intros [[|fuel] H]; [discriminate|]. cbn [writeTree] in H. inv_ok. exists a.
  split; [exists fuel; assumption | reflexivity].
Qed.

(** The code that follows the body of the function. *)
Context (trailing : list wcode).

Definition loopBody (h : string) (K : list frame) (body : list wcode) (after : list wcode) (K0 : list frame) : Prop :=
  branchTo (loopLabel h) K = Some (body, mkFrame (loopLabel h) (Some body) after :: K0) /\ nodeCode h body.

Definition mergeCode (m : string) (K : list frame) (code : list wcode) (K0 : list frame) : Prop :=
  branchTo (blockLabel m) K = Some (code, K0) /\ treeCode m code.

Inductive scoped (x : string) (K : list frame) : Prop :=
  | scoped_intro :
      branchTo "$exit" K = Some (trailing, []) ->
      (forall h, h ∈ sLoopHeaders s -> above s h x -> h <> x ->
         exists body after K0, loopBody h K body after K0 /\ scoped h K0) ->
      (forall m, m ∈ sMerges s -> above s (parentOf s m) x -> parentOf s m <> x -> place s x < place s m ->
         exists code K0, mergeCode m K code K0 /\ scoped m K0) ->
      scoped x K.

(** The same inside the block's own [loop], and with the [block]s of the merges
    in [opened], children of [x]. *)
Record inside (x : string) (opened : list string) (K : list frame) : Prop := {
  in_exit : branchTo "$exit" K = Some (trailing, []);
  in_loops h : h ∈ sLoopHeaders s -> above s h x -> exists body after K0, loopBody h K body after K0 /\ scoped h K0;
  in_merges m : m ∈ sMerges s -> above s (parentOf s m) x -> place s x < place s m ->
    parentOf s m <> x \/ m ∈ opened -> exists code K0, mergeCode m K code K0 /\ scoped m K0
}.

Lemma inside_plain x K : x ∉ sLoopHeaders s -> scoped x K -> inside x [] K.
Proof.
  intros Hx [He Hl Hm]. split; [exact He | |].
  - intros h Hh Ha. apply Hl; [exact Hh | exact Ha | congruence].
  - intros m Hm' Ha Hp [Hne|Ho]; [auto | inversion Ho].
Qed.

Lemma inside_loop x K body after :
  nodeCode x body -> scoped x K -> inside x [] (mkFrame (loopLabel x) (Some body) after :: K).
Proof.
  intros Hbody HK. pose proof HK as [He Hl Hm]. split.
  - rewrite branchTo_skip by apply (label_kinds x x). exact He.
  - intros h Hh Ha. destruct (decide (h = x)) as [->|Hne].
    + exists body, after, K. split; [|exact HK]. split; [apply branchTo_here | exact Hbody].
    + destruct (Hl h Hh Ha Hne) as (body' & after' & K0 & [Hb Hn] & HK0). exists body', after', K0.
      split; [|exact HK0]. split; [|exact Hn].
      rewrite branchTo_skip by (intros E; apply Hne; symmetry; apply loopLabel_inj, E). exact Hb.
  - intros m Hm' Ha Hp [Hne|Ho]; [|inversion Ho].
    destruct (Hm m Hm' Ha Hne Hp) as (code & K0 & [Hb Hn] & HK0). exists code, K0. split; [|exact HK0].
    split; [|exact Hn]. rewrite branchTo_skip by apply label_kinds. exact Hb.
Qed.

(** The stack under a merge's [block] is the one its code runs in. *)
Lemma scoped_child x m opened K :
  x ∈ sOrder s -> m ∈ childrenOf s x -> (forall m', m' ∈ childrenOf s x -> place s m < place s m' -> m' ∈ opened) ->
  inside x opened K -> scoped m K.
Proof.
  intros Hx Hm Hopened [He Hl Hmg]. apply sd_children in Hm as [Hm Hp].
  destruct (sd_merge m Hm) as [Hmo Hne]. pose proof (sd_parent m Hmo Hne) as [_ Hlt]. rewrite Hp in Hlt.
  split; [exact He | |].
  - intros h Hh Ha Hhm. apply Hl; [exact Hh|].
    apply (sd_above_parent h m (sd_header h Hh) Hmo Hne) in Ha as [->|Ha]; [contradiction|]. rewrite Hp in Ha. exact Ha.
  - intros m' Hm' Ha Hpm Hlt'. destruct (sd_merge m' Hm') as [Hmo' Hne']. pose proof (sd_parent m' Hmo' Hne') as [Hpo _].
    apply (sd_above_parent _ m Hpo Hmo Hne) in Ha as [Ha|Ha]; [congruence|]. rewrite Hp in Ha.
    apply Hmg; [exact Hm' | exact Ha | lia |].
    destruct (decide (parentOf s m' = x)) as [E|]; [|auto]. right. apply Hopened; [apply sd_children; auto | exact Hlt'].
Qed.

Lemma inside_open x m opened K code :
  x ∈ sOrder s -> m ∈ childrenOf s x -> (forall m', m' ∈ childrenOf s x -> place s m < place s m' -> m' ∈ opened) ->
  treeCode m code -> inside x opened K -> inside x (m :: opened) (mkFrame (blockLabel m) None code :: K).
Proof.
  intros Hx Hm Hopened Hcode HK. pose proof (scoped_child x m opened K Hx Hm Hopened HK) as Hs.
  destruct HK as [He Hl Hmg]. split.
  - rewrite branchTo_skip by apply (label_kinds m m). exact He.
  - intros h Hh Ha. destruct (Hl h Hh Ha) as (body & after & K0 & [Hb Hn] & HK0). exists body, after, K0.
    split; [|exact HK0]. split; [|exact Hn].
    rewrite branchTo_skip by (intros E; apply (proj1 (label_kinds h m)); symmetry; exact E). exact Hb.
  - intros m' Hm' Ha Hp Hor. destruct (decide (m' = m)) as [->|Hne].
    + exists code, K. split; [|exact Hs]. split; [apply branchTo_here | exact Hcode].
    + destruct (Hmg m' Hm' Ha Hp) as (code' & K0 & [Hb Hn] & HK0).
      { destruct Hor as [Hor|Hor]; [auto|]. apply elem_of_cons in Hor as [->|Hor]; [contradiction | auto]. }
      exists code', K0. split; [|exact HK0]. split; [|exact Hn].
      rewrite branchTo_skip by (intros E; apply Hne; symmetry; apply blockLabel_inj, E). exact Hb.
Qed.

(** A stack with every merge [x] is the parent of. *)
Definition atBlock (x : string) (K : list frame) : Prop := inside x (childrenOf s x) K.

(** An anonymous label changes nothing. *)
Lemma inside_if x opened K after : inside x opened K -> inside x opened (mkFrame "" None after :: K).
Proof.
  intros [He Hl Hm]. split.
  - rewrite branchTo_skip by discriminate. exact He.
  - intros h Hh Ha. destruct (Hl h Hh Ha) as (body & after' & K0 & [Hb Hn] & HK0). exists body, after', K0.
    split; [|exact HK0]. split; [rewrite branchTo_skip by discriminate; exact Hb | exact Hn].
  - intros m Hm' Ha Hp Hor. destruct (Hm m Hm' Ha Hp Hor) as (code & K0 & [Hb Hn] & HK0). exists code, K0.
    split; [|exact HK0]. split; [rewrite branchTo_skip by discriminate; exact Hb | exact Hn].
Qed.

(** ** What a branch reaches *)

(** A forward edge to a block that is no merge is written in place. *)
Lemma scoped_inline x t K :
  edge s x t -> place s x < place s t -> t ∉ sMerges s -> atBlock x K -> scoped t K.
Proof.
  intros Hedge Hlt Hm [He Hl Hmg]. pose proof (sd_only x t Hedge Hlt Hm) as Hp.
  pose proof (sd_edge x t Hedge) as Hto.
  assert (Hne : t <> entryName fn).
  { intros ->. rewrite sd_entry_place in Hlt. lia. }
  split; [exact He | |].
  - intros h Hh Ha Hht. apply Hl; [exact Hh|].
    apply (sd_above_parent h t (sd_header h Hh) Hto Hne) in Ha as [->|Ha]; [contradiction|]. rewrite Hp in Ha. exact Ha.
  - intros m Hm' Ha Hpm Hlt'. destruct (sd_merge m Hm') as [Hmo Hne']. pose proof (sd_parent m Hmo Hne') as [Hpo _].
    apply (sd_above_parent _ t Hpo Hto Hne) in Ha as [Ha|Ha]; [congruence|]. rewrite Hp in Ha.
    apply Hmg; [exact Hm' | exact Ha | lia |].
    destruct (decide (parentOf s m = x)) as [E|]; [right; apply sd_children; auto | auto].
Qed.
End Scope.
