(* ===== verification/WasmSim.v ===== *)
(** * The structured code runs the blocks it was written from

    A simulation: the IR at the start of a block and the code written for that
    block, with every label it can branch to in scope and the locals that are
    still read as the IR has them. *)

From stdpp Require Import base list strings gmap sorting.
From Stdlib Require Import Lia.
From S2P Require Import Prelude GoStd IR Cfg CfgFacts Verify Semantics Layout WasmStructure WasmOrder WasmAnalysis WasmControl WasmRun WasmScope.

#[local] Open Scope list_scope.

Lemma Contains_self s : Contains s s = true.
Proof.
  assert (H : HasPrefix s s = true).
  { unfold HasPrefix. induction s as [|c s IH]; [reflexivity|]. cbn. rewrite IH. destruct (Ascii.ascii_dec c c); [reflexivity | contradiction]. }
  destruct s; cbn [Contains]; rewrite H; reflexivity.
Qed.

(** The emitter reads a phi from its own local. *)
Class PhisInLocals (values : string -> gmap string string) (fn : Function) : Prop :=
  phi_local x b i v : b ∈ fBlocks fn -> i ∈ phisOf b -> vName v = resultName i ->
    valueExpr (values x) v = localGet (resultName i).

(** *** What [writeLoopBranch] takes for granted

    The copies of a back edge may be made before the branch when no way out of
    the loop reads a phi of its header.  What the writer tests is the code under
    the other arm; nothing tests what comes after it. *)

(** The arm [other] of the branch of [x] is a place of its own: nothing else
    enters it but what it is on the way to. *)
Definition entersOnce (fn : Function) (x other : string) : Prop :=
  ~ onTheWay fn other x /\
  forall y b, reached fn y -> blockNamed fn y = Some b -> other ∈ Successors (bTerminator b) -> y = x \/ onTheWay fn other y.

(** The edges by which a run that takes the arm [other] leaves what is written
    there: the arm itself, or the ones out of what [other] is on the way to. *)
Inductive leaves (fn : Function) (x other : string) : string -> string -> Prop :=
  | leaves_now : ~ entersOnce fn x other -> leaves fn x other x other
  | leaves_later y z b : entersOnce fn x other -> reached fn y -> onTheWay fn other y ->
      blockNamed fn y = Some b -> z ∈ Successors (bTerminator b) -> ~ onTheWay fn other z -> leaves fn x other y z.

(** A branch with an arm back to a loop that [x] is in, and another one. *)
Definition loopBranch (fn : Function) (x back other : string) : Prop :=
  exists b, reached fn x /\ blockNamed fn x = Some b /\ tOp (bTerminator b) = "branch"%string /\ back <> other /\
    (back = tTarget (bTerminator b) /\ other = tElse (bTerminator b) \/
     back = tElse (bTerminator b) /\ other = tTarget (bTerminator b)) /\ onTheWay fn back x.

(** No phi of the loop is needed where a run leaves the other arm, unless the
    block it enters gives it a new value. *)
Class QuietLoops (fn : Function) : Prop :=
  quiet x back other header y z bz v :
    loopBranch fn x back other -> blockNamed fn back = Some header -> v ∈ phiNames header ->
    leaves fn x other y z -> blockNamed fn z = Some bz -> needs fn z v -> v ∈ phiNames bz.

Section Simulation.
Context {V M X : Type} {machine : Machine V M X}.
Context {module : Module_} {values : string -> gmap string string} {fn : Function} {s : structure}.
Context {NB : NamedBlocks fn} {EM : Emittable module fn} {PL : PhisInLocals values fn}.
Context {ST : Structured fn s} {QL : QuietLoops fn}.

#[local] Abbreviation trailing :=
  (if negb (String.eqb (fReturn fn) "void") && negb (isMemoryType module (fReturn fn)) then [WUnreachable] else []).
#[local] Abbreviation Scoped := (scoped module values (s := s) trailing).
#[local] Abbreviation Inside := (inside module values (s := s) trailing).
#[local] Abbreviation AtBlock := (atBlock module values (s := s) trailing).
#[local] Abbreviation Tree := (treeCode module values (s := s)).
#[local] Abbreviation Node := (nodeCode module values (s := s)).
#[local] Abbreviation Config := (config V M).

(** ** Blocks by name *)

Lemma named_block x b : sBlocks s !! x = Some b -> b ∈ fBlocks fn /\ bName b = x.
Proof.
  rewrite (sd_blocks (fn := fn)). intros H. apply blocksByName_from in H as [H|H]; [rewrite lookup_empty in H; discriminate | exact H].
Qed.

Lemma order_block x : x ∈ sOrder s -> exists p b, fBlocks fn !! p = Some b /\ bName b = x /\
  sBlocks s !! x = Some b /\ blockIndex fn !! x = Some p.
Proof.
  intros Hx. destruct (sd_in (fn := fn) x Hx) as (b & Hb & <-). apply list_elem_of_lookup in Hb as [p Hp]. exists p, b.
  split; [exact Hp|]. split; [reflexivity|]. rewrite (sd_blocks (fn := fn)). split; [eapply blocksByName_at, Hp|].
  rewrite <- (nameAt_lookup p b Hp). apply blockIndex_nameAt. eapply lookup_lt_Some, Hp.
Qed.

(** ** Reaching a block's own code *)

(** The children of [x] from [ms] on are still to be opened. *)
Lemma open_children fuel x b ms opened code K (ρ : gmap string V) (m : M) a :
  x ∈ sOrder s -> sBlocks s !! x = Some b ->
  (exists front, childrenOf s x = front ++ ms /\ forall y, y ∈ front <-> y ∈ opened) ->
  writeNodeWithin module values s (writeTree module values s fuel) x ms = Ok code -> Inside x opened K ->
  exists j K' last, wsteps j (mkConfig code K ρ m a) (mkConfig (map WInstr (bodyOf b) ++ last) K' ρ m a) /\
    AtBlock x K' /\ writeTerminator module values s (writeTree module values s fuel) b = Ok last.
Proof.
  intros Hx Hb. revert opened code K. induction ms as [|c ms IH]; intros opened code K (front & Hc & Ho) Hw HK; cbn [writeNodeWithin] in Hw.
  - rewrite Hb in Hw. destruct (writeTerminator module values s (writeTree module values s fuel) b) as [last|e]; [|discriminate].
    injection Hw as <-. exists 0, K, last. split; [constructor|]. split; [|reflexivity].
    unfold atBlock. destruct HK as [He Hl Hm]. split; [exact He | exact Hl |].
    intros m' Hm' Ha Hp [Hor|Hor]; [auto|]. apply Hm; auto. right. apply Ho. rewrite Hc, app_nil_r in Hor. exact Hor.
  - destruct (writeNodeWithin module values s (writeTree module values s fuel) x ms) as [inner|e] eqn:Hinner; [|discriminate].
    destruct (writeTree module values s fuel c) as [after|e] eqn:Hafter; [|discriminate]. injection Hw as <-.
    assert (Hchild : c ∈ childrenOf s x) by (rewrite Hc; apply elem_of_app; right; left).
    assert (Hlater : forall m', m' ∈ childrenOf s x -> place s c < place s m' -> m' ∈ opened).
    { intros m' Hm' Hlt. apply Ho. pose proof (sd_children_sorted (fn := fn) x) as Hsort. rewrite Hc in Hm', Hsort.
      apply elem_of_app in Hm' as [Hm'|Hm']; [exact Hm'|]. apply StronglySorted_app in Hsort as (_ & _ & Hs).
      apply elem_of_cons in Hm' as [->|Hm']; [lia|]. inversion Hs as [|? ? _ Hall]; subst.
      rewrite Forall_forall in Hall. specialize (Hall m' Hm'). lia. }
    assert (Htree : Tree c after) by (exists fuel; exact Hafter).
    destruct (IH (c :: opened) inner (mkFrame (blockLabel c) None after :: K)) as (j & K' & last & Hs & Hat & Hl).
    + exists (front ++ [c]). rewrite <- app_assoc. split; [exact Hc|]. intros y. rewrite elem_of_app, list_elem_of_singleton, elem_of_cons, Ho. tauto.
    + reflexivity.
    + apply (inside_open module values trailing x c opened K after Hx Hchild Hlater Htree HK).
    + exists (S j), K', last. split; [|auto]. eapply wsteps_more; [|exact Hs]. reflexivity.
Qed.

Lemma enter_node x b code K (ρ : gmap string V) (m : M) a :
  x ∈ sOrder s -> sBlocks s !! x = Some b -> Node x code -> Inside x [] K ->
  exists j K' last fuel, wsteps j (mkConfig code K ρ m a) (mkConfig (map WInstr (bodyOf b) ++ last) K' ρ m a) /\
    AtBlock x K' /\ writeTerminator module values s (writeTree module values s fuel) b = Ok last.
Proof.
  intros Hx Hb [fuel Hw] HK.
  destruct (open_children fuel x b (childrenOf s x) [] code K ρ m a Hx Hb) as (j & K' & last & H); [| exact Hw | exact HK |].
  - exists []. split; [reflexivity|]. intros y. tauto.
  - exists j, K', last, fuel. exact H.
Qed.

(** A tree is entered by opening its loop, when it has one. *)
Lemma enter_tree x code K (ρ : gmap string V) (m : M) a :
  Tree x code -> Scoped x K ->
  exists j K' body, wsteps j (mkConfig code K ρ m a) (mkConfig body K' ρ m a) /\ Node x body /\ Inside x [] K'.
Proof.
  intros Ht HK. destruct (treeCode_node module values x code Ht) as (body & Hbody & ->).
  destruct (decide (x ∈ sLoopHeaders s)) as [Hh|Hh].
  - exists 1, (mkFrame (loopLabel x) (Some body) [] :: K), body. split; [apply wsteps_one; reflexivity|].
    split; [exact Hbody | apply inside_loop; assumption].
  - exists 0, K, body. split; [constructor|]. split; [exact Hbody | apply inside_plain; assumption].
Qed.

(** ** Taking an edge *)

(** The code after the copies of an edge reaches the node of its target. *)
Lemma take_edge fuel x b t code K (ρ : gmap string V) (m : M) a :
  x ∈ sOrder s -> sBlocks s !! x = Some b -> t ∈ Successors (bTerminator b) -> AtBlock x K ->
  writeBranchTo s (writeTree module values s fuel) x t = Ok code ->
  exists rest j K' body, code = WCopies (edgeCopies s x t) :: rest /\
    wsteps j (mkConfig rest K ρ m a) (mkConfig body K' ρ m a) /\ Node t body /\ Inside t [] K'.
Proof.
  intros Hx Hb Ht HK Hw. assert (He : edge s x t) by (split; [exact Hx | eauto]).
  unfold writeBranchTo, isBackEdge in Hw. change (rpoAt (sRpo s)) with (place s) in Hw.
  destruct (Nat.leb_spec (place s t) (place s x)) as [Hle|Hgt].
  - destruct (sd_back (fn := fn) x t He Hle) as [Hh Ha]. rewrite bool_decide_eq_true_2 in Hw by exact Hh.
    cbn [andb] in Hw. injection Hw as <-. destruct (in_loops _ _ _ _ _ _ HK t Hh Ha) as (body & after & K0 & [Hbr Hn] & HK0).
    eexists _, 1, _, body. split; [reflexivity|]. split; [|split; [exact Hn | apply (inside_loop module values trailing t K0 body after Hn HK0)]].
    apply wsteps_one, wstep_br, Hbr.
  - rewrite andb_false_r in Hw. destruct (bool_decide_reflect (t ∈ sMerges s)) as [Hm|Hm].
    + injection Hw as <-. destruct (sd_merge (fn := fn) t Hm) as [_ Hne].
      destruct (in_merges _ _ _ _ _ _ HK t Hm (sd_edge_above (fn := fn) x t He Hne) Hgt) as (code & K0 & [Hbr Ht'] & HK0).
      { destruct (decide (parentOf s t = x)) as [E|]; [right; apply (sd_children (fn := fn)); auto | auto]. }
      destruct (enter_tree t code K0 ρ m a Ht' HK0) as (j & K' & body & Hs & Hn & Hin).
      eexists _, (S j), K', body. split; [reflexivity|]. split; [|auto].
      eapply wsteps_more; [apply wstep_br, Hbr | exact Hs].
    + destruct (writeTree module values s fuel t) as [rest|e] eqn:Hrest; [|discriminate]. injection Hw as <-.
      destruct (enter_tree t rest K ρ m a) as (j & K' & body & Hs & Hn & Hin).
      * exists fuel. exact Hrest.
      * apply (scoped_inline module values trailing x t K He Hgt Hm HK).
      * eexists _, j, K', body. auto.
Qed.

(** ** Runs that match *)

Definition matches (n : nat) (o : outcome V M X) (c : Config) : Prop :=
  match o with
  | Exhausted => forall k, k <= n -> wrun k c = Exhausted
  | _ => exists k, wrun k c = o
  end.

Lemma matches_steps n j o c c' : wsteps j c c' -> matches n o c' -> matches (j + n) o c.
Proof.
  intros Hs H. destruct o; cbn in *; try (destruct H as [k Hk]; exists (j + k); rewrite (wsteps_run j k c c' Hs); exact Hk).
  intros k Hk. destruct (Nat.le_gt_cases k j) as [Hle|Hgt]; [apply (wsteps_exhausted j k c c' Hs Hle)|].
  replace k with (j + (k - j)) by lia. rewrite (wsteps_run j _ c c' Hs). apply H. lia.
Qed.

Lemma matches_less n n' o c : n' <= n -> matches n o c -> matches n' o c.
Proof. intros Hn H. destruct o; cbn in *; try exact H. intros k Hk. apply H. lia. Qed.

Lemma matches_end n k o c : wrun k c = o -> o <> Exhausted -> matches n o c.
Proof. intros H Hne. destruct o; cbn; eauto. contradiction. Qed.

(** The IR at the phis of block [t], the code at its node. *)
Definition nodeMatches (n : nat) : Prop :=
  forall t b p from ρ ρ1 ρ' m K code o,
    t ∈ sOrder s -> fBlocks fn !! p = Some b -> bName b = t -> sBlocks s !! t = Some b ->
    phiEnv from ρ ρ (phisOf b) = Some ρ1 -> agree (needs fn t) ρ1 ρ' -> Node t code -> Inside t [] K ->
    runBlocks n fn from p ρ m = o -> o <> Stuck -> matches n o (mkConfig code K ρ' m None).

Lemma runInstrs_block from ρ m b :
  b ∈ fBlocks fn -> runInstrs from ρ ρ m (bInstrs b) =
  match phiEnv from ρ ρ (phisOf b) with
  | Some ρ1 => runInstrs from ρ ρ1 m (bodyOf b)
  | None => inr Stuck
  end.
Proof.
  intros Hb. rewrite (em_phis (module := module) b Hb). rewrite runInstrs_phis.
  - reflexivity.
  - intros i Hi. apply list_elem_of_In, filter_In in Hi. tauto.
Qed.

(** Going on at the node of [t] after the phis took their values. *)
Lemma arrive n (IH : nodeMatches n) x t bt ρ ρ' m K body o :
  t ∈ sOrder s -> sBlocks s !! t = Some bt -> agree (needsAfter fn x t) ρ ρ' ->
  Node t body -> Inside t [] K ->
  match blockIndex fn !! t with Some next => runBlocks n fn x next ρ m | None => Stuck end = o -> o <> Stuck ->
  matches n o (mkConfig body K (runCopies ρ' (edgeCopies s x t)) m None).
Proof.
  intros Ht Hbt Ha Hn Hin Hrun Ho. destruct (order_block t Ht) as (p & b & Hp & Hname & Hb & Hidx).
  assert (b = bt) as -> by congruence. rewrite Hidx in Hrun.
  destruct n as [|n].
  { cbn in Hrun. subst o. intros k Hk. replace k with 0 by lia. reflexivity. }
  pose proof (list_elem_of_lookup_2 _ _ _ Hp) as Hbin.
  destruct (phiEnv x ρ ρ (phisOf bt)) as [ρ1|] eqn:Hphi.
  - apply (IH t bt p x ρ ρ1 _ m K body o Ht Hp Hname Hb Hphi); try assumption.
    unfold edgeCopies. rewrite Hb. apply (edge_agree (module := module) x bt t ρ ρ' ρ1 Hbin); [|exact Hphi | exact Ha].
    unfold blockNamed. rewrite <- (sd_blocks (fn := fn) (s := s)). exact Hb.
  - exfalso. apply Ho. rewrite <- Hrun. cbn [runBlocks]. rewrite Hp, (runInstrs_block x ρ m bt Hbin), Hphi. reflexivity.
Qed.

(** A branch written by [writeBranchTo]. *)
Lemma go_edge n (IH : nodeMatches n) fuel x b t code ρ ρ' m K o :
  x ∈ sOrder s -> sBlocks s !! x = Some b -> t ∈ Successors (bTerminator b) -> AtBlock x K ->
  writeBranchTo s (writeTree module values s fuel) x t = Ok code -> agree (needsAfter fn x t) ρ ρ' ->
  match blockIndex fn !! t with Some next => runBlocks n fn x next ρ m | None => Stuck end = o -> o <> Stuck ->
  matches (S n) o (mkConfig code K ρ' m None).
Proof.
  intros Hx Hb Ht HK Hw Ha Hrun Ho.
  assert (Hto : t ∈ sOrder s) by (apply (sd_edge (fn := fn) x t); split; [exact Hx | eauto]).
  destruct (order_block t Hto) as (_ & bt & _ & _ & Hbt & _).
  destruct (take_edge fuel x b t code K (runCopies ρ' (edgeCopies s x t)) m None Hx Hb Ht HK Hw)
    as (rest & j & K' & body & -> & Hs & Hn & Hin).
  eapply (matches_less (S (j + n))); [lia|]. apply (matches_steps (j + n) 1 o _ (mkConfig rest K (runCopies ρ' (edgeCopies s x t)) m None)).
  { apply wsteps_one. reflexivity. }
  apply (matches_steps n j o _ _ Hs). apply (arrive n IH x t bt ρ ρ' m K' body o Hto Hbt Ha Hn Hin Hrun Ho).
Qed.

(** ** Terminators *)

Lemma reads_needed x b v :
  sBlocks s !! x = Some b -> v ∈ [tCond (bTerminator b); tValue (bTerminator b)] -> needs fn x (vName v).
Proof.
  intros Hb Hv. eapply needs_here.
  - unfold blockNamed. rewrite <- (sd_blocks (fn := fn) (s := s)). exact Hb.
  - unfold liveReads. apply list_elem_of_In, in_map, in_or_app. right. apply list_elem_of_In, Hv.
Qed.

Lemma after_agree x b t (ρ ρ' : gmap string V) :
  sBlocks s !! x = Some b -> t ∈ Successors (bTerminator b) -> agree (needs fn x) ρ ρ' -> agree (needsAfter fn x t) ρ ρ'.
Proof.
  intros Hb Ht H v Hv. apply H. eapply needsAfter_needs; [|exact Ht | exact Hv].
  unfold blockNamed. rewrite <- (sd_blocks (fn := fn) (s := s)). exact Hb.
Qed.

(** What comes after the terminator in the IR. *)
Definition afterTerminator (n : nat) (x : string) (b : Block) (ρ : gmap string V) (m : M) : outcome V M X :=
  match runTerminator ρ m (bTerminator b) with
  | inr o => o
  | inl target => match blockIndex fn !! target with Some next => runBlocks n fn x next ρ m | None => Stuck end
  end.

Lemma return_matches n x b ρ ρ' m K :
  x ∈ sOrder s -> sBlocks s !! x = Some b -> tOp (bTerminator b) = "return"%string -> AtBlock x K ->
  agree (needs fn x) ρ ρ' -> afterTerminator n x b ρ m <> Stuck ->
  matches (S n) (afterTerminator n x b ρ m) (mkConfig (writeReturn module (tValue (bTerminator b))) K ρ' m None).
Proof.
  intros Hx Hb Hop HK Ha Ho. destruct (named_block x b Hb) as [Hbin _].
  destruct (em_return (module := module) b Hbin Hop) as (Hty & Hvoid & Hmem).
  assert (Hval : operand ρ (tValue (bTerminator b)) = operand ρ' (tValue (bTerminator b))).
  { apply (operand_agree_on _ _ _ _ Ha), (reads_needed x b _ Hb). right. left. }
  unfold afterTerminator, runTerminator in *. rewrite Hop in *. cbn [String.eqb Ascii.eqb Bool.eqb] in *.
  change (String.eqb "return" "jump") with false in *. change (String.eqb "return" "branch") with false in *.
  change (String.eqb "return" "return") with true in *.
  set (v := tValue (bTerminator b)) in *. cbv zeta beta iota in *. unfold writeReturn.
  rewrite (proj2 (String.eqb_neq (vType v) "")) in * by exact Hty. rewrite orb_false_r in *.
  pose proof (in_exit _ _ _ _ _ _ HK) as Hexit.
  destruct (String.eqb_spec (vType v) "void") as [Hv|Hv].
  - rewrite (Hvoid Hv) in Hexit. cbn in Hexit. apply (matches_end _ 2); [|discriminate].
    cbn [wrun]. rewrite (wstep_br "$exit" _ K _ _ _ _ _ Hexit). reflexivity.
  - rewrite Hval in *. destruct (operand ρ' v) as [w|] eqn:Hw; [|contradiction].
    destruct (isMemoryType module (vType v)) eqn:Hm.
    + rewrite (Hmem eq_refl), andb_false_r in Hexit. apply (matches_end _ 3); [|discriminate].
      cbn [wrun]. unfold wstep at 1. cbn [cCode cLocals cStack cMemory]. rewrite Hw. cbn [wrun].
      rewrite (wstep_br "$exit" _ K _ _ _ _ _ Hexit). reflexivity.
    + apply (matches_end _ 1); [|discriminate]. cbn [wrun]. unfold wstep. cbn [cCode cLocals]. rewrite Hw. reflexivity.
Qed.

(** The arms are the two targets, and which one is taken. *)
Lemma loopArms_spec b back other negate :
  loopArms s b = (back, other, negate) ->
  (back = tTarget (bTerminator b) /\ other = tElse (bTerminator b) /\ negate = false) \/
  (back = tElse (bTerminator b) /\ other = tTarget (bTerminator b) /\ negate = true).
Proof. unfold loopArms. destruct (isBackEdge s (bName b) (tTarget (bTerminator b))); intros [= <- <- <-]; auto. Qed.

Lemma takes_back b back other :
  takesLoopBranch values s b back other = Some true -> isBackEdge s (bName b) back = true.
Proof.
  unfold takesLoopBranch. destruct (String.eqb back other); [discriminate|]. cbn [orb].
  destruct (isBackEdge s (bName b) back); [reflexivity | discriminate].
Qed.

(** *** What the test of a loop branch rules out *)

(** What [edgeReadsPhis] looks for, apart from the phis. *)
Lemma edge_unread x other header v value :
  edgeReadsPhis s (values x) x other header (valueExpr (values x) value) = false ->
  header ∈ fBlocks fn -> v ∈ phiNames header ->
  vName value <> v /\ forall bo, sBlocks s !! other = Some bo -> v ∉ edgeReads x bo.
Proof.
  intros Ht Hhin Hv. unfold phiNames in Hv. apply list_elem_of_In, in_map_iff in Hv as (i & <- & Hphi).
  pose proof Hphi as Hi. apply filter_In in Hi as [Hi1 Hi2].
  assert (Hread : forall u, vName u = resultName i ->
    ~ In (valueExpr (values x) u) (valueExpr (values x) value :: map (fun c => valueExpr (values x) (pcSrc c)) (edgeCopies s x other))).
  { intros u Hu Hin. unfold edgeReadsPhis in Ht. rewrite <- not_true_iff_false, existsb_exists in Ht. apply Ht. exists i.
    split; [exact Hi1|]. rewrite Hi2. cbn [andb]. apply existsb_exists. exists (valueExpr (values x) u). split; [exact Hin|].
    rewrite (phi_local x header i u Hhin (proj2 (list_elem_of_In _ _) Hphi) Hu). apply Contains_self. }
  split; [intros E; apply (Hread value E); left; reflexivity|]. intros bo Hbo Hin. unfold edgeReads in Hin.
  apply list_elem_of_In, in_map_iff in Hin as (c & Hc & Hcin). apply (Hread (pcSrc c) Hc). right.
  apply in_map_iff. exists c. split; [reflexivity|]. unfold edgeCopies. rewrite Hbo. exact Hcin.
Qed.

(** A branch that is taken passed the tests. *)
Lemma takes_tests x b back other header :
  bName b = x -> sBlocks s !! back = Some header -> takesLoopBranch values s b back other = Some true ->
  back <> other /\ isBackEdge s x back = true /\
  (isBackEdge s x other = true \/ other ∈ sMerges s \/ readsPhisBelow s other header = Some false) /\
  edgeReadsPhis s (values x) x other header (valueExpr (values x) (tCond (bTerminator b))) = false.
Proof.
  intros <- Hh. unfold takesLoopBranch. destruct (String.eqb_spec back other) as [|Hne]; [discriminate|]. cbn [orb].
  destruct (isBackEdge s (bName b) back); [|discriminate]. cbn [negb]. rewrite Hh. cbn [mbind option_bind].
  destruct (sBlocks s !! other); [|discriminate]. cbn [mbind option_bind].
  assert (Htail : forall below : bool, (if below then Some false
      else Some (negb (edgeReadsPhis s (values (bName b)) (bName b) other header (valueExpr (values (bName b)) (tCond (bTerminator b)))))) =
    Some true -> below = false /\
      edgeReadsPhis s (values (bName b)) (bName b) other header (valueExpr (values (bName b)) (tCond (bTerminator b))) = false)
    by (intros [] H; [discriminate|]; injection H as H; apply negb_true_iff in H; auto).
  destruct (isBackEdge s (bName b) other) eqn:Hback; [|destruct (bool_decide_reflect (other ∈ sMerges s)) as [Hm|Hm]]; cbn [negb andb].
  - intros H. apply (Htail false) in H as [_ H]. auto 10.
  - intros H. apply (Htail false) in H as [_ H]. auto 10.
  - destruct (readsPhisBelow s other header) as [below|]; [|discriminate]. cbn [mbind option_bind]. intros [-> H]%Htail. auto 10.
Qed.

(** The condition of a loop branch does not read what the copies before it set. *)
Lemma cond_unmoved x b back other negate header :
  sBlocks s !! x = Some b -> loopArms s b = (back, other, negate) -> takesLoopBranch values s b back other = Some true ->
  sBlocks s !! back = Some header -> vName (tCond (bTerminator b)) ∉ phiNames header.
Proof.
  intros Hb Harms Ht Hh Hin. destruct (named_block x b Hb) as [_ Hname].
  destruct (takes_tests x b back other header Hname Hh Ht) as (_ & _ & _ & He).
  destruct (edge_unread x other header _ _ He (proj1 (named_block back header Hh)) Hin) as [Hne _]. apply Hne. reflexivity.
Qed.

(** [below] holds the blocks under [top]. *)
Lemma belowOf_elem top below y : belowOf s top = Some below -> y ∈ below <-> y ∈ sOrder s /\ above s top y.
Proof.
  unfold belowOf, above.
  assert (H : forall l acc, foldM (fun below name => dominated ← sDominates s top name;
                Some (if dominated : bool then below ++ [name] else below)) acc l = Some below ->
              y ∈ below <-> y ∈ acc \/ y ∈ l /\ sDominates s top y = Some true).
  { induction l as [|x l IH]; intros acc Hl; cbn [foldM] in Hl.
    - injection Hl as ->. rewrite elem_of_nil. tauto.
    - destruct (sDominates s top x) as [d|] eqn:Hd; [|discriminate]. cbn [mbind option_bind] in Hl.
      rewrite (IH _ Hl), elem_of_cons. destruct d; [rewrite elem_of_app, list_elem_of_singleton|]; split.
      + intros [[H| ->]|H]; tauto.
      + intros [H|[[-> | H] Hs]]; tauto.
      + tauto.
      + intros [H|[[-> | H] Hs]]; [tauto | congruence | tauto]. }
  intros Hb. rewrite (H _ _ Hb), elem_of_nil. tauto.
Qed.

(** The phis stay among the names the test looks for. *)
Lemma phisAndCasts_phis header phis v : phisAndCasts s header = Some phis -> v ∈ phiNames header -> v ∈ phis.
Proof.
  unfold phisAndCasts. generalize (S (List.length (flat_map bInstrs (allBlocks s)))) as fuel. intros fuel Hc Hv.
  assert (Hin : v ∈ (list_to_set (phiNames header) : gset string)) by (apply elem_of_list_to_set, Hv).
  unfold phiNames, phisOf, resultName in Hin. revert Hin Hc. generalize (list_to_set (map (fun i => vName (iResult i))
    (List.filter isPhi (bInstrs header))) : gset string) as seen. clear Hv.
  induction fuel as [|fuel IH]; intros seen Hin Hc; [discriminate|]. cbn [castClosure] in Hc.
  destruct (decide (growCasts s seen = seen)); [injection Hc as <-; exact Hin|]. revert Hc. apply IH. unfold growCasts.
  assert (Hgrow : forall l acc, v ∈ acc -> v ∈ foldl growCast acc l).
  { induction l as [|i l IHl]; intros acc Ha; [exact Ha|]. cbn [foldl]. apply IHl. unfold growCast.
    destruct (iArgs i) as [|arg [|]]; try exact Ha. destruct (String.eqb _ _ && _); [apply elem_of_union; right|]; exact Ha. }
  apply Hgrow, Hin.
Qed.

(** What [readsPhisBelow] finds no read of is not read in the blocks [top]
    dominates, nor on the edges that leave them. *)
Lemma below_unread top header v y b :
  readsPhisBelow s top header = Some false -> v ∈ phiNames header -> y ∈ sOrder s -> above s top y ->
  sBlocks s !! y = Some b -> v ∉ liveReads b /\ forall t bt, sBlocks s !! t = Some bt -> v ∉ edgeReads y bt.
Proof.
  unfold readsPhisBelow. intros Hr Hv Hy Ha Hb. destruct (phisAndCasts s header) as [phis|] eqn:Hphis; [|discriminate].
  cbn [mbind option_bind] in Hr. destruct (belowOf s top) as [below|] eqn:Hbelow; [|discriminate].
  cbn [mbind option_bind] in Hr. destruct (_ <? _)%nat; [discriminate|]. injection Hr as Hr.
  pose proof (phisAndCasts_phis header phis v Hphis Hv) as Hin.
  assert (Hyb : y ∈ (list_to_set below : gset string)) by (apply elem_of_list_to_set, (belowOf_elem top below y Hbelow); auto).
  assert (Hall : forall t bt, sBlocks s !! t = Some bt -> In bt (allBlocks s)).
  { intros t bt Ht. apply in_map_iff. exists (t, bt). split; [reflexivity|]. apply list_elem_of_In, elem_of_map_to_list, Ht. }
  unfold readsNamesBelow in Hr. rewrite <- not_true_iff_false, existsb_exists in Hr. destruct (named_block y b Hb) as [_ Hname].
  split.
  - unfold liveReads. intros Hl. apply Hr. exists b. split; [apply (Hall y b Hb)|]. rewrite Hname, bool_decide_eq_true_2 by exact Hyb.
    apply orb_true_iff. apply list_elem_of_In, in_map_iff in Hl as (u & <- & Hu). apply in_app_or in Hu as [Hu|Hu].
    + left. apply in_flat_map in Hu as (i & Hi & Hu). apply filter_In in Hi as [Hi Hphi]. apply existsb_exists. exists i.
      split; [exact Hi|]. unfold instrReadsBelow. rewrite Hname, (bool_decide_eq_true_2 (y ∈ _)), Hphi by exact Hyb.
      apply orb_true_iff. right. cbn [andb]. apply existsb_exists. exists u. split; [exact Hu | apply bool_decide_eq_true_2, Hin].
    + right. cbn [andb]. apply orb_true_iff. destruct Hu as [<-|[<-|[]]]; [right | left]; apply bool_decide_eq_true_2, Hin.
  - intros t bt Ht He. apply Hr. exists bt. split; [apply (Hall t bt Ht)|]. apply orb_true_iff. left. unfold edgeReads in He.
    apply list_elem_of_In, in_map_iff in He as (c & <- & Hc). apply list_elem_of_In, elem_of_copies in Hc as (i & inc & Hi & Hinc & <- & ->).
    apply list_elem_of_In, filter_In in Hi as [Hi _]. apply existsb_exists. exists i. split; [exact Hi|].
    unfold instrReadsBelow. apply orb_true_iff. left. apply existsb_exists. exists inc. split; [apply list_elem_of_In, Hinc|].
    apply andb_true_iff. split; apply bool_decide_eq_true_2; [exact Hyb | exact Hin].
Qed.

(** A block comes after the blocks above it. *)
Lemma above_place a b : a ∈ sOrder s -> b ∈ sOrder s -> above s a b -> place s a <= place s b.
Proof.
  intros Ha. remember (place s b) as n eqn:E. revert b E.
  induction (lt_wf n) as [n _ IH]. intros b -> Hb Hab. destruct (decide (b = entryName fn)) as [->|Hne].
  - rewrite (sd_above_entry (fn := fn) a Ha Hab). reflexivity.
  - apply (sd_above_parent (fn := fn) a b Ha Hb Hne) in Hab as [->|Hab]; [reflexivity|].
    destruct (sd_parent (fn := fn) b Hb Hne) as [Hp Hlt]. specialize (IH _ Hlt _ eq_refl Hp Hab). lia.
Qed.

Lemma branch_targets b : b ∈ fBlocks fn -> tOp (bTerminator b) = "branch"%string ->
  tTarget (bTerminator b) ∈ Successors (bTerminator b) /\ tElse (bTerminator b) ∈ Successors (bTerminator b).
Proof.
  intros Hb Hop. destruct (em_branch (module := module) b Hb Hop) as [H1 H2].
  split; apply elem_of_Successors; auto.
Qed.

(** An arm the writer looks under is a place of its own; one it does not look
    under is not. *)
Lemma arm_entered x b other :
  edge s x other -> sBlocks s !! x = Some b -> times other (Successors (bTerminator b)) <= 1 ->
  entersOnce fn x other <-> isBackEdge s x other = false /\ other ∉ sMerges s.
Proof.
  intros He Hb Hone. pose proof (proj1 He) as Hx. pose proof (sd_edge (fn := fn) x other He) as Ho.
  assert (Hfwd : isBackEdge s x other = false <-> place s x < place s other).
  { unfold isBackEdge. change (rpoAt (sRpo s)) with (place s). destruct (Nat.leb_spec (place s other) (place s x)) as [Hle|Hlt].
    - rewrite bool_decide_eq_true_2 by apply (sd_back (fn := fn) x other He Hle). split; [discriminate | lia].
    - rewrite andb_false_r. tauto. }
  assert (Hedge : forall y c, reached fn y -> blockNamed fn y = Some c -> other ∈ Successors (bTerminator c) -> edge s y other).
  { intros y c Hy Hc Hin. split; [apply (sd_reached (fn := fn)), Hy|]. exists c. rewrite (sd_blocks (fn := fn)). auto. }
  rewrite Hfwd. split.
  - intros [Hnot Honly]. rewrite <- (sd_dominance (fn := fn) other x Ho Hx) in Hnot. split.
    + destruct (le_lt_dec (place s other) (place s x)) as [Hle|]; [|assumption]. destruct Hnot. apply (sd_back (fn := fn) x other He Hle).
    + intros Hm. destruct (sd_merge_edges (fn := fn) other x b Hm Hb Hone) as (y & Hne & Hy & Hlt).
      destruct Hy as (Hy & c & Hc & Hin). rewrite (sd_blocks (fn := fn)) in Hc.
      destruct (Honly y c) as [->|Hd]; [apply (sd_reached (fn := fn)), Hy | exact Hc | exact Hin | contradiction |].
      apply (sd_dominance (fn := fn) other y Ho Hy), (above_place other y Ho Hy) in Hd. lia.
  - intros [Hlt Hm]. split.
    + intros Hd. apply (sd_dominance (fn := fn) other x Ho Hx), (above_place other x Ho Hx) in Hd. lia.
    + intros y c Hy Hc Hin. specialize (Hedge y c Hy Hc Hin). destruct (le_lt_dec (place s other) (place s y)) as [Hle|Hlt'].
      * right. apply (sd_dominance (fn := fn) other y Ho (proj1 Hedge)), (sd_back (fn := fn) y other Hedge Hle).
      * left. rewrite <- (sd_only (fn := fn) y other Hedge Hlt' Hm). apply (sd_only (fn := fn) x other He Hlt Hm).
Qed.

Lemma branch_once b back other :
  tOp (bTerminator b) = "branch"%string -> b ∈ fBlocks fn -> back <> other ->
  (back = tTarget (bTerminator b) /\ other = tElse (bTerminator b) \/
   back = tElse (bTerminator b) /\ other = tTarget (bTerminator b)) ->
  times other (Successors (bTerminator b)) <= 1.
Proof.
  intros Hop Hb Hne Harms. destruct (em_branch (module := module) b Hb Hop) as [HT HE]. unfold Successors.
  rewrite !filter_cons_True by assumption. rewrite !times_cons. cbn [times filter List.length].
  destruct Harms as [[-> ->]|[-> ->]]; destruct (decide (_ = _)), (decide (_ = _)); cbn; try contradiction; try congruence; lia.
Qed.

(** What a run still needs under an arm of its own, it needs where it leaves. *)
Lemma region_needs x back other header y v :
  loopBranch fn x back other -> blockNamed fn back = Some header -> v ∈ phiNames header ->
  entersOnce fn x other -> readsPhisBelow s other header = Some false -> other ∈ sOrder s ->
  y ∈ sOrder s -> above s other y -> ~ needs fn y v.
Proof.
  intros Hl Hh Hv Hone Hr Ho Hy Ha Hn.
  assert (Hnext : forall y b t, y ∈ sOrder s -> sBlocks s !! y = Some b -> t ∈ Successors (bTerminator b) -> t ∈ sOrder s)
    by (intros u c t Hu Hc Ht; apply (sd_edge (fn := fn) u); split; [exact Hu | eauto]).
  induction Hn as [y v b Hb Hlive|y v b t bt Hb Ht Hbt Hedge|y v b t bt Hb Ht Hbt Hn IH Hphi];
    unfold blockNamed in Hb; rewrite <- (sd_blocks (fn := fn) (s := s)) in Hb;
    destruct (below_unread other header v y b Hr Hv Hy Ha Hb) as [Hlive' Hedge'].
  - contradiction.
  - unfold blockNamed in Hbt. rewrite <- (sd_blocks (fn := fn) (s := s)) in Hbt. exact (Hedge' t bt Hbt Hedge).
  - pose proof (Hnext y b t Hy Hb Ht) as Hto. destruct (sd_dominates (fn := fn) other t Ho Hto) as [[] Hd].
    + exact (IH Hv Hto Hd).
    + apply Hphi, (quiet x back other header y t bt v Hl Hh Hv); [|exact Hbt | exact Hn].
      eapply (leaves_later fn x other y t b); [exact Hone | apply (sd_reached (fn := fn)), Hy | | | exact Ht |].
      * apply (sd_dominance (fn := fn) other y Ho Hy), Ha.
      * unfold blockNamed. rewrite <- (sd_blocks (fn := fn) (s := s)). exact Hb.
      * rewrite <- (sd_dominance (fn := fn) other t Ho Hto). unfold above. rewrite Hd. discriminate.
Qed.

(** Nothing on the other arm of a loop branch the writer takes, however far,
    still reads a phi the back edge assigns. *)
Lemma loop_quiet x b back other negate header v :
  x ∈ sOrder s -> sBlocks s !! x = Some b -> tOp (bTerminator b) = "branch"%string ->
  loopArms s b = (back, other, negate) -> takesLoopBranch values s b back other = Some true ->
  sBlocks s !! back = Some header -> v ∈ phiNames header -> ~ needsAfter fn x other v.
Proof.
  intros Hx Hb Hop Harms Htakes Hh Hv (bo & Hbo & Hread). destruct (named_block x b Hb) as [Hbin Hname].
  destruct (takes_tests x b back other header Hname Hh Htakes) as (Hne & Hback & Hunder & He).
  destruct (edge_unread x other header v _ He (proj1 (named_block back header Hh)) Hv) as [_ Hedge].
  destruct (branch_targets b Hbin Hop) as [HsT HsE].
  assert (Harm : back = tTarget (bTerminator b) /\ other = tElse (bTerminator b) \/
                 back = tElse (bTerminator b) /\ other = tTarget (bTerminator b))
    by (destruct (loopArms_spec b back other negate Harms) as [(? & ? & _)|(? & ? & _)]; auto).
  assert (Heb : edge s x back) by (split; [exact Hx|]; exists b; split; [exact Hb|]; destruct Harm as [[-> _]|[-> _]]; assumption).
  assert (Heo : edge s x other) by (split; [exact Hx|]; exists b; split; [exact Hb|]; destruct Harm as [[_ ->]|[_ ->]]; assumption).
  pose proof (sd_edge (fn := fn) x back Heb) as Hbacko. pose proof (sd_edge (fn := fn) x other Heo) as Ho.
  unfold isBackEdge in Hback. apply andb_true_iff in Hback as [_ Hle]. apply Nat.leb_le in Hle.
  destruct (sd_back (fn := fn) x back Heb Hle) as [_ Habove].
  assert (Hl : loopBranch fn x back other).
  { exists b. split; [apply (sd_reached (fn := fn)), Hx|]. unfold blockNamed. rewrite <- (sd_blocks (fn := fn) (s := s)).
    split; [exact Hb|]. split; [exact Hop|]. split; [exact Hne|]. split; [exact Harm|].
    apply (sd_dominance (fn := fn) back x Hbacko Hx), Habove. }
  pose proof (arm_entered x b other Heo Hb (branch_once b back other Hop Hbin Hne Harm)) as Honce.
  unfold blockNamed in Hbo. rewrite <- (sd_blocks (fn := fn) (s := s)) in Hbo.
  assert (Hhn : blockNamed fn back = Some header) by (unfold blockNamed; rewrite <- (sd_blocks (fn := fn) (s := s)); exact Hh).
  assert (Hbn : blockNamed fn other = Some bo) by (unfold blockNamed; rewrite <- (sd_blocks (fn := fn) (s := s)); exact Hbo).
  destruct Hread as [Hread|[Hn Hphi]]; [exact (Hedge bo Hbo Hread)|].
  destruct (isBackEdge s x other) eqn:Hbo2; [|destruct (decide (other ∈ sMerges s)) as [Hm|Hm]].
  3: { destruct Hunder as [|[|Hr]]; [discriminate | contradiction|].
       apply (region_needs x back other header other v Hl Hhn Hv (proj2 Honce (conj eq_refl Hm)) Hr Ho Ho); [|exact Hn].
       apply (sd_above_refl (fn := fn)). }
  all: apply Hphi, (quiet x back other header x other bo v Hl Hhn Hv); [|exact Hbn | exact Hn];
    apply leaves_now; rewrite Honce; intros [? ?]; congruence || contradiction.
Qed.

Lemma loop_branch_matches n (IH : nodeMatches n) fuel x b back other negate rest ρ ρ' m K v taken :
  x ∈ sOrder s -> sBlocks s !! x = Some b -> tOp (bTerminator b) = "branch"%string -> AtBlock x K ->
  loopArms s b = (back, other, negate) -> takesLoopBranch values s b back other = Some true ->
  writeBranchTo s (writeTree module values s fuel) (bName b) other = Ok rest -> agree (needs fn x) ρ ρ' ->
  operand ρ (tCond (bTerminator b)) = Some v -> truth v = Some taken ->
  let target := if taken : bool then tTarget (bTerminator b) else tElse (bTerminator b) in
  let o := match blockIndex fn !! target with Some next => runBlocks n fn x next ρ m | None => Stuck end in
  o <> Stuck ->
  matches (S n) o (mkConfig (WCopies (edgeCopies s (bName b) back) :: WBrIf (loopLabel back) negate (tCond (bTerminator b)) :: rest) K ρ' m None).
Proof.
  intros Hx Hb Hop HK Harms Htakes Hrest Ha Hv Htruth target o Ho.
  destruct (named_block x b Hb) as [Hbin Hname]. rewrite Hname in *. destruct (branch_targets b Hbin Hop) as [HsT HsE].
  assert (Hsb : back ∈ Successors (bTerminator b)) by (destruct (loopArms_spec b back other negate Harms) as [(-> & _)|(-> & _)]; assumption).
  assert (Hso : other ∈ Successors (bTerminator b)) by (destruct (loopArms_spec b back other negate Harms) as [(_ & -> & _)|(_ & -> & _)]; assumption).
  pose proof (takes_back b back other Htakes) as Hback. rewrite Hname in Hback. unfold isBackEdge in Hback.
  apply andb_true_iff in Hback as [Hh Hle]. apply bool_decide_eq_true in Hh. apply Nat.leb_le in Hle.
  assert (Hbo : back ∈ sOrder s) by apply (sd_header (fn := fn) back Hh).
  destruct (order_block back Hbo) as (_ & header & _ & _ & Hhb & _).
  set (ρ2 := runCopies ρ' (edgeCopies s x back)).
  assert (Hmoved : forall u, u ∉ phiNames header -> ρ2 !! u = ρ' !! u).
  { intros u Hu. unfold ρ2, runCopies. apply copies_other. intros c Hc E. apply Hu. unfold edgeCopies in Hc. rewrite Hhb in Hc.
    apply elem_of_copies in Hc as (i & inc & Hi & _ & _ & ->). subst u. unfold phiNames.
    apply list_elem_of_In, in_map_iff. exists i. split; [reflexivity | apply list_elem_of_In, Hi]. }
  assert (Hcond : operand ρ2 (tCond (bTerminator b)) = Some v).
  { rewrite <- Hv, (operand_agree_on _ ρ ρ' (tCond (bTerminator b)) Ha) by (apply (reads_needed x b); [exact Hb | left]).
    unfold operand. rewrite Hmoved by (apply (cond_unmoved x b back other negate header); assumption). reflexivity. }
  apply (matches_steps n 1 o _ (mkConfig (WBrIf (loopLabel back) negate (tCond (bTerminator b)) :: rest) K ρ2 m None)).
  { apply wsteps_one. reflexivity. }
  destruct (xorb negate taken) eqn:Hx'.
  - assert (Htarget : target = back).
    { unfold target. destruct (loopArms_spec b back other negate Harms) as [(-> & _ & ->)|(-> & _ & ->)]; destruct taken; cbn in Hx'; congruence. }
    destruct (sd_back (fn := fn) x back ltac:(split; [exact Hx | eauto]) Hle) as [_ Habove].
    destruct (in_loops _ _ _ _ _ _ HK back Hh Habove) as (body & after & K0 & [Hbr Hn] & HK0).
    eapply (matches_less (1 + n)); [lia|]. eapply matches_steps.
    { apply wsteps_one. unfold wstep. cbn [cCode cLocals cStack cMemory cAnswer]. rewrite Hcond. cbn [mbind option_bind]. rewrite Htruth, Hx', Hbr. reflexivity. }
    apply (arrive n IH x back header ρ ρ' m _ body o Hbo Hhb (after_agree x b back ρ ρ' Hb Hsb Ha) Hn
             (inside_loop module values trailing back K0 body after Hn HK0)); [|exact Ho].
    unfold o. rewrite Htarget. reflexivity.
  - assert (Htarget : target = other).
    { unfold target. destruct (loopArms_spec b back other negate Harms) as [(_ & -> & ->)|(_ & -> & ->)]; destruct taken; cbn in Hx'; congruence. }
    apply (matches_less (1 + S n)); [lia|]. eapply matches_steps.
    { apply wsteps_one. unfold wstep. cbn [cCode cLocals cStack cMemory cAnswer]. rewrite Hcond. cbn [mbind option_bind]. rewrite Htruth, Hx'. reflexivity. }
    apply (go_edge n IH fuel x b other rest ρ ρ2 m K o Hx Hb Hso HK Hrest).
    + intros u Hu. rewrite Hmoved; [apply (after_agree x b other ρ ρ' Hb Hso Ha), Hu|].
      intros Hin. exact (loop_quiet x b back other negate header u Hx Hb Hop Harms Htakes Hhb Hin Hu).
    + unfold o. rewrite Htarget. reflexivity.
    + exact Ho.
Qed.

Lemma branch_matches n (IH : nodeMatches n) fuel x b code ρ ρ' m K :
  x ∈ sOrder s -> sBlocks s !! x = Some b -> tOp (bTerminator b) = "branch"%string -> AtBlock x K ->
  writeBranch values s (writeTree module values s fuel) b = Ok code -> agree (needs fn x) ρ ρ' ->
  afterTerminator n x b ρ m <> Stuck -> matches (S n) (afterTerminator n x b ρ m) (mkConfig code K ρ' m None).
Proof.
  intros Hx Hb Hop HK Hw Ha. destruct (named_block x b Hb) as [Hbin Hname]. destruct (branch_targets b Hbin Hop) as [HsT HsE].
  assert (Hcond : operand ρ (tCond (bTerminator b)) = operand ρ' (tCond (bTerminator b))).
  { apply (operand_agree_on _ _ _ _ Ha), (reads_needed x b _ Hb). left. }
  unfold afterTerminator, runTerminator. rewrite Hop. change (String.eqb "branch" "jump") with false.
  change (String.eqb "branch" "branch") with true. cbv iota.
  destruct (operand ρ (tCond (bTerminator b))) as [v|] eqn:Hv; cbn [mbind option_bind]; [|intros Ho; contradiction].
  destruct (truth v) as [taken|] eqn:Htruth; [|intros Ho; contradiction].
  unfold writeBranch, writeLoopBranch in Hw. destruct (loopArms s b) as [[back other] negate] eqn:Harms.
  destruct (takesLoopBranch values s b back other) as [[]|] eqn:Htakes; cbn [orPanic] in Hw; [| |discriminate].
  - destruct (writeBranchTo s (writeTree module values s fuel) (bName b) other) as [rest|e] eqn:Hrest; [|discriminate].
    injection Hw as <-. intros Ho.
    pose proof (loop_branch_matches n IH fuel x b back other negate rest ρ ρ' m K v taken Hx Hb Hop HK Harms Htakes Hrest Ha Hv Htruth) as H.
    destruct taken; apply H; exact Ho.
  - rewrite Hname in Hw. destruct (writeBranchTo s (writeTree module values s fuel) x (tTarget (bTerminator b))) as [onTrue|e] eqn:HT; [|discriminate].
    destruct (writeBranchTo s (writeTree module values s fuel) x (tElse (bTerminator b))) as [onFalse|e] eqn:HE; [|discriminate].
    injection Hw as <-. intros Ho.
    eapply (matches_less (1 + S n)); [lia|]. eapply matches_steps.
    { apply wsteps_one. unfold wstep. cbn [cCode cLocals cStack cMemory cAnswer]. rewrite <- Hcond. cbn [mbind option_bind].
      rewrite Htruth. reflexivity. }
    assert (HKi : AtBlock x (mkFrame "" None [] :: K)) by (apply inside_if, HK).
    destruct taken; (eapply (go_edge n IH fuel x b); [exact Hx | exact Hb | | exact HKi | eassumption | | reflexivity | exact Ho]; [assumption|]).
    + exact (after_agree x b _ ρ ρ' Hb HsT Ha).
    + exact (after_agree x b _ ρ ρ' Hb HsE Ha).
Qed.

Lemma terminator_matches n (IH : nodeMatches n) fuel x b code ρ ρ' m K :
  x ∈ sOrder s -> sBlocks s !! x = Some b -> AtBlock x K ->
  writeTerminator module values s (writeTree module values s fuel) b = Ok code -> agree (needs fn x) ρ ρ' ->
  afterTerminator n x b ρ m <> Stuck -> matches (S n) (afterTerminator n x b ρ m) (mkConfig code K ρ' m None).
Proof.
  intros Hx Hb HK Hw Ha Ho. destruct (named_block x b Hb) as [Hbin Hname]. pose proof (em_ops (module := module) b Hbin) as Hop.
  unfold writeTerminator in Hw. rewrite !elem_of_cons, elem_of_nil in Hop.
  destruct Hop as [Hop|[Hop|[Hop|[Hop|[]]]]]; rewrite Hop in Hw.
  - change (String.eqb "jump" "return") with false in Hw. change (String.eqb "jump" "jump") with true in Hw. cbv iota in Hw.
    rewrite Hname in Hw.
    assert (Hs : tTarget (bTerminator b) ∈ Successors (bTerminator b)).
    { apply elem_of_Successors. split; [apply (em_jump (module := module) b Hbin Hop) | auto]. }
    apply (go_edge n IH fuel x b _ code ρ ρ' m K _ Hx Hb Hs HK Hw (after_agree x b _ ρ ρ' Hb Hs Ha)); [|exact Ho].
    unfold afterTerminator, runTerminator. rewrite Hop. reflexivity.
  - change (String.eqb "branch" "return") with false in Hw. change (String.eqb "branch" "jump") with false in Hw.
    change (String.eqb "branch" "branch") with true in Hw. cbv iota in Hw.
    apply (branch_matches n IH fuel x b code ρ ρ' m K Hx Hb Hop HK Hw Ha Ho).
  - change (String.eqb "return" "return") with true in Hw. cbv iota in Hw. injection Hw as <-.
    apply return_matches; assumption.
  - change (String.eqb "unreachable" "return") with false in Hw. change (String.eqb "unreachable" "jump") with false in Hw.
    change (String.eqb "unreachable" "branch") with false in Hw. change (String.eqb "unreachable" "unreachable") with true in Hw.
    cbv iota in Hw. injection Hw as <-. apply (matches_end _ 1); unfold afterTerminator, runTerminator; rewrite Hop; [reflexivity | discriminate].
Qed.

(** ** Whole runs *)

Lemma bodyOf_plain b i : i ∈ bodyOf b -> isPhi i = false.
Proof. intros Hi. apply list_elem_of_In, filter_In in Hi as [_ Hi]. apply negb_true_iff, Hi. Qed.

Lemma bodyOf_needs x b (Hb : sBlocks s !! x = Some b) i v :
  i ∈ bodyOf b -> v ∈ readOperands i -> needs fn x (vName v).
Proof.
  intros Hi Hv. eapply needs_here; [unfold blockNamed; rewrite <- (sd_blocks (fn := fn) (s := s)); exact Hb|].
  unfold liveReads. apply list_elem_of_In, in_map, in_or_app. left. apply in_flat_map. exists i.
  split; apply list_elem_of_In; assumption.
Qed.

Lemma node_matches n : nodeMatches n.
Proof.
  induction n as [|n IH]; intros t b p from ρ ρ1 ρ' m K code o Ht Hp Hname Hb Hphi Ha Hn Hin Hrun Ho.
  { cbn in Hrun. subst o. intros k Hk. replace k with 0 by lia. reflexivity. }
  pose proof (list_elem_of_lookup_2 _ _ _ Hp) as Hbin.
  destruct (enter_node t b code K ρ' m None Ht Hb Hn Hin) as (j & K' & last & fuel & Hs & HK & Hw).
  apply (matches_less (j + S n)); [lia|]. apply (matches_steps _ j o _ _ Hs).
  assert (Hbody : match runInstrs from ρ ρ1 m (bodyOf b) with
                  | inl (ρ2, m2) => afterTerminator n t b ρ2 m2
                  | inr o => o
                  end = o).
  { rewrite <- Hrun. cbn [runBlocks]. rewrite Hp, (runInstrs_block from ρ m b Hbin), Hphi.
    destruct (runInstrs from ρ ρ1 m (bodyOf b)) as [[ρ2 m2]|o']; [|reflexivity].
    unfold afterTerminator. rewrite Hname. reflexivity. }
  clear Hrun. assert (Hruns := body_runs (needs fn t) from ρ (bodyOf b) last K' ρ1 ρ' m None
    (bodyOf_plain b) (bodyOf_needs t b Hb) Ha).
  destruct (runInstrs from ρ ρ1 m (bodyOf b)) as [[ρ2 m2]|o'].
  - destruct Hruns as (ρ2' & Ha2 & Hs2).
    apply (matches_less (List.length (bodyOf b) + S n)); [lia|]. apply (matches_steps _ _ o _ _ Hs2). subst o.
    apply (terminator_matches n IH fuel t b last ρ2 ρ2' m2 K' Ht Hb HK Hw Ha2 Ho).
  - subst o'. destruct (Hruns Ho) as (Hne & k & Hk). apply (matches_end _ k _ _ Hk Hne).
Qed.

(** The entry block has no labels to branch to but the function's own. *)
Lemma entry_scoped : Scoped (entryName fn) [mkFrame "$exit" None trailing].
Proof.
  split; [apply branchTo_here | |].
  - intros h Hh Ha Hne. contradict Hne. apply (sd_above_entry (fn := fn)); [apply (sd_header (fn := fn) h Hh) | exact Ha].
  - intros m Hm Ha Hne. contradict Hne. destruct (sd_merge (fn := fn) m Hm) as [Hmo Hme].
    apply (sd_above_entry (fn := fn)); [apply (sd_parent (fn := fn) m Hmo Hme) | exact Ha].
Qed.

Lemma entry_block : exists b, fBlocks fn !! 0 = Some b /\ bName b = entryName fn.
Proof.
  unfold entryName. pose proof (nb_some (fn := fn)) as H. destruct (fBlocks fn) as [|b rest]; [contradiction|].
  exists b. split; reflexivity.
Qed.

Lemma entry_matches n tree args m o :
  Tree (entryName fn) tree -> runFunction n fn args m = o -> o <> Stuck ->
  matches n o (wstart (WBlock "$exit" tree :: trailing) fn args m).
Proof.
  intros Ht Hrun Ho. destruct entry_block as (b & Hb & Hname).
  destruct n as [|n].
  { cbn in Hrun. subst o. intros k Hk. replace k with 0 by lia. reflexivity. }
  set (ρ := bindParams (fParams fn) args) in *.
  destruct (enter_tree (entryName fn) tree _ ρ m None Ht entry_scoped) as (j & K' & body & Hs & Hn & Hin).
  apply (matches_less (1 + (j + S n))); [lia|]. eapply matches_steps; [apply wsteps_one; reflexivity|].
  apply (matches_steps _ j o _ _ Hs). pose proof (list_elem_of_lookup_2 _ _ _ Hb) as Hbin.
  assert (Hphis : phisOf b = []).
  { destruct (phisOf b) as [|i phis] eqn:E; [reflexivity|]. exfalso. apply Ho. rewrite <- Hrun.
    unfold runFunction. cbn [runBlocks]. rewrite Hb, (runInstrs_block "" _ m b Hbin), E. cbn [phiEnv]. unfold phiValue.
    destruct (List.find _ (iIncoming i)) as [inc|] eqn:Hf; [|reflexivity]. exfalso.
    apply find_some in Hf as [Hi Hf]. apply String.eqb_eq in Hf.
    apply (em_incoming (module := module) b i inc Hbin); [rewrite E; left | apply list_elem_of_In, Hi | exact Hf]. }
  apply (node_matches (S n) (entryName fn) b 0 "" ρ ρ ρ m K' body o); try assumption.
  - apply (sd_entry (fn := fn)).
  - rewrite (sd_blocks (fn := fn)), <- Hname. apply (blocksByName_at 0 b Hb).
  - rewrite Hphis. reflexivity.
  - intros v _. reflexivity.
Qed.
End Simulation.
