(* ===== verification/WasmWrites.v ===== *)
(** * The writer always writes ([internal/wasm/control.go])

    For a structure [analyze] built, the recursion of [writeTree] goes down the
    dominator tree: every call is for a later block, so the depth
    [writeFunctionBody] gives it is enough, and no lookup misses. *)

From stdpp Require Import base list strings gmap.
From Stdlib Require Import Lia.
From S2P Require Import Prelude GoStd IR Verify Layout WasmStructure WasmOrder WasmAnalysis WasmControl WasmRun.

#[local] Open Scope list_scope.

(** ** The closure of casts *)

Section Casts.
Context (s : structure).

#[local] Abbreviation instrs := (flat_map bInstrs (allBlocks s)).

Definition resultNames : gset string := list_to_set (map resultName instrs).

Lemma foldl_growCast l (phis : gset string) :
  phis ⊆ foldl growCast phis l /\ foldl growCast phis l ⊆ phis ∪ list_to_set (map resultName l).
Proof.
  revert phis. induction l as [|i l IH]; intros phis; cbn [foldl map list_to_set]; [set_solver|].
  destruct (IH (growCast phis i)) as [H1 H2].
  assert (Hi : phis ⊆ growCast phis i /\ growCast phis i ⊆ phis ∪ {[resultName i]}).
  { unfold growCast, resultName. destruct (iArgs i) as [|arg [|? ?]]; [set_solver | | set_solver].
    destruct (_ && _); set_solver. }
  set_solver.
Qed.

Lemma castClosure_ends fuel phis :
  size (resultNames ∖ phis) < fuel -> is_Some (castClosure s fuel phis).
Proof.
  revert phis. induction fuel as [|fuel IH]; intros phis Hf; [lia|]. cbn [castClosure].
  destruct (foldl_growCast instrs phis) as [H1 H2]. fold (growCasts s phis) in H1, H2.
  destruct (decide (growCasts s phis = phis)) as [|Hne]; [eauto|]. apply IH.
  assert (Hlt : size (resultNames ∖ growCasts s phis) < size (resultNames ∖ phis)); [|lia].
  apply subset_size. fold resultNames in H2. split; [set_solver|]. intros Hsub. apply Hne.
  apply set_eq. intros v. split; [|set_solver]. intros Hv.
  destruct (decide (v ∈ phis)) as [|Hnot]; [assumption|]. exfalso.
  assert (Hin : v ∈ resultNames ∖ phis) by set_solver. apply Hsub in Hin. set_solver.
Qed.

Lemma phisAndCasts_ends header : is_Some (phisAndCasts s header).
Proof.
  unfold phisAndCasts. apply castClosure_ends.
  match goal with |- size (_ ∖ ?p) < _ => assert (H : size (resultNames ∖ p) <= size resultNames) by (apply subseteq_size; set_solver) end.
  assert (H2 : size resultNames <= List.length instrs); [|lia].
  unfold resultNames. rewrite <- (length_map resultName instrs).
  generalize (map resultName instrs) as l. induction l as [|x l IH]; cbn [list_to_set List.length].
  - rewrite size_empty. lia.
  - rewrite size_union_alt, size_singleton.
    assert (size (list_to_set l ∖ {[x]} : gset string) <= size (list_to_set l : gset string)) by (apply subseteq_size; set_solver).
    lia.
Qed.
End Casts.

(** ** The tree *)

Section Tree.
Context {module : Module_} {values : string -> gmap string string} {fn : Function} {s : structure}.
Context {NB : NamedBlocks fn} {EM : Emittable module fn} {ST : Structured fn s}.

Lemma order_has_block x : x ∈ sOrder s -> exists b, sBlocks s !! x = Some b /\ b ∈ fBlocks fn /\ bName b = x.
Proof.
  intros Hx. destruct (sd_in (fn := fn) x Hx) as (b & Hb & <-). exists b.
  apply list_elem_of_lookup in Hb as [p Hp]. rewrite (sd_blocks (fn := fn)).
  split; [eapply blocksByName_at, Hp|]. split; [eapply list_elem_of_lookup_2, Hp | reflexivity].
Qed.

Lemma belowOf_ends top : top ∈ sOrder s -> is_Some (belowOf s top).
Proof.
  intros Ht. unfold belowOf.
  assert (H : forall l acc, (forall x, x ∈ l -> x ∈ sOrder s) ->
    is_Some (foldM (fun below name => dominated ← sDominates s top name;
                      Some (if dominated : bool then below ++ [name] else below)) acc l)).
  { induction l as [|x l IH]; intros acc Hl; cbn [foldM]; [eauto|].
    destruct (sd_dominates (fn := fn) top x Ht (Hl x ltac:(left))) as [d ->]. cbn [mbind option_bind].
    apply IH. intros y Hy. apply Hl. right. exact Hy. }
  apply H. auto.
Qed.

Lemma takesLoopBranch_ends b back other negate :
  loopArms s b = (back, other, negate) -> bName b ∈ sOrder s -> tOp (bTerminator b) = "branch"%string ->
  sBlocks s !! bName b = Some b -> b ∈ fBlocks fn -> is_Some (takesLoopBranch values s b back other).
Proof.
  intros Harms Hx Hop Hb Hbin. destruct (em_branch (module := module) b Hbin Hop) as [HT HE].
  assert (Hsuccs : tTarget (bTerminator b) ∈ sOrder s /\ tElse (bTerminator b) ∈ sOrder s).
  { split; apply (sd_edge (fn := fn) (bName b)); (split; [exact Hx|]); exists b; (split; [exact Hb|]); apply elem_of_Successors; auto. }
  assert (Hbo : back ∈ sOrder s /\ other ∈ sOrder s).
  { unfold loopArms in Harms. destruct (isBackEdge s (bName b) (tTarget (bTerminator b))); injection Harms as <- <- <-; tauto. }
  unfold takesLoopBranch. destruct (String.eqb back other || _); [eauto|].
  destruct (order_has_block back (proj1 Hbo)) as (header & -> & _), (order_has_block other (proj2 Hbo)) as (bo & -> & _).
  cbn [mbind option_bind].
  destruct (negb (isBackEdge s (bName b) other) && negb (bool_decide (other ∈ sMerges s))); cbn [mbind option_bind]; [|eauto].
  unfold readsPhisBelow. destruct (phisAndCasts_ends s header) as [phis ->], (belowOf_ends other (proj2 Hbo)) as [below ->].
  cbn [mbind option_bind]. match goal with |- context [if ?c then Some false else _] => destruct c end; eauto.
Qed.

Section Below.
Context (tree : string -> result structureError (list wcode)) (x : string) (b : Block).
Context (Hx : x ∈ sOrder s) (Hb : sBlocks s !! x = Some b) (Hbin : b ∈ fBlocks fn) (Hname : bName b = x).
Context (Htree : forall y, y ∈ sOrder s -> place s x < place s y -> is_ok (tree y) = true).

Lemma branchTo_writes t : t ∈ Successors (bTerminator b) -> is_ok (writeBranchTo s tree x t) = true.
Proof.
  intros Ht. assert (He : edge s x t) by (split; [exact Hx | eauto]).
  unfold writeBranchTo, isBackEdge. change (rpoAt (sRpo s)) with (place s).
  destruct (Nat.leb_spec (place s t) (place s x)) as [Hle|Hgt].
  - destruct (sd_back (fn := fn) x t He Hle) as [Hh _]. rewrite bool_decide_eq_true_2 by exact Hh. reflexivity.
  - rewrite andb_false_r. destruct (bool_decide_reflect (t ∈ sMerges s)); [reflexivity|].
    specialize (Htree t (sd_edge (fn := fn) x t He) Hgt). destruct (tree t); [reflexivity | discriminate].
Qed.

Lemma terminator_writes : is_ok (writeTerminator module values s tree b) = true.
Proof.
  pose proof (em_ops (module := module) b Hbin) as Hop. unfold writeTerminator. rewrite !elem_of_cons, elem_of_nil in Hop.
  destruct (String.eqb_spec (tOp (bTerminator b)) "return") as [|Hr]; [reflexivity|].
  destruct (String.eqb_spec (tOp (bTerminator b)) "jump") as [Hj|Hj].
  { rewrite Hname. apply branchTo_writes, elem_of_Successors. split; [apply (em_jump (module := module) b Hbin Hj) | auto]. }
  destruct (String.eqb_spec (tOp (bTerminator b)) "branch") as [Hbr|Hbr].
  2: { destruct (String.eqb_spec (tOp (bTerminator b)) "unreachable"); [reflexivity | tauto]. }
  destruct (em_branch (module := module) b Hbin Hbr) as [HT HE].
  assert (HsT : tTarget (bTerminator b) ∈ Successors (bTerminator b)) by (apply elem_of_Successors; auto).
  assert (HsE : tElse (bTerminator b) ∈ Successors (bTerminator b)) by (apply elem_of_Successors; auto).
  pose proof (branchTo_writes _ HsT) as WT. pose proof (branchTo_writes _ HsE) as WE.
  unfold writeBranch, writeLoopBranch. rewrite Hname. destruct (loopArms s b) as [[back other] negate] eqn:Harms.
  destruct (takesLoopBranch_ends b back other negate Harms) as [takes ->]; [rewrite Hname; exact Hx | exact Hbr | rewrite Hname; exact Hb | exact Hbin|].
  cbn [orPanic]. destruct takes.
  - assert (Wo : is_ok (writeBranchTo s tree x other) = true).
    { unfold loopArms in Harms. destruct (isBackEdge s (bName b) (tTarget (bTerminator b))); injection Harms as <- <- <-; assumption. }
    destruct (writeBranchTo s tree x other); [reflexivity | discriminate].
  - destruct (writeBranchTo s tree x (tTarget (bTerminator b))); [|discriminate].
    destruct (writeBranchTo s tree x (tElse (bTerminator b))); [reflexivity | discriminate].
Qed.

Lemma node_writes merges : (forall m, m ∈ merges -> m ∈ childrenOf s x) ->
  is_ok (writeNodeWithin module values s tree x merges) = true.
Proof.
  induction merges as [|m merges IH]; intros Hm; cbn [writeNodeWithin].
  - rewrite Hb. pose proof terminator_writes as H. destruct (writeTerminator module values s tree b); [reflexivity | discriminate].
  - assert (H : is_ok (writeNodeWithin module values s tree x merges) = true) by (apply IH; intros y Hy; apply Hm; right; exact Hy).
    destruct (writeNodeWithin module values s tree x merges); [|discriminate].
    assert (Hchild : m ∈ childrenOf s x) by (apply Hm; left). apply (sd_children (fn := fn)) in Hchild as [Hmerge Hp].
    destruct (sd_merge (fn := fn) m Hmerge) as [Hmo Hne]. pose proof (sd_parent (fn := fn) m Hmo Hne) as [_ Hlt]. rewrite Hp in Hlt.
    specialize (Htree m Hmo Hlt). destruct (tree m); [reflexivity | discriminate].
Qed.
End Below.

(** The depth that is enough for a block is how many come after it. *)
Lemma tree_writes fuel x :
  x ∈ sOrder s -> List.length (sOrder s) - place s x < fuel -> is_ok (writeTree module values s fuel x) = true.
Proof.
  revert x. induction fuel as [|fuel IH]; intros x Hx Hf; [lia|]. cbn [writeTree].
  destruct (order_has_block x Hx) as (b & Hb & Hbin & Hname).
  pose proof (node_writes (writeTree module values s fuel) x b Hx Hb Hbin Hname) as H.
  specialize (H (fun y Hy Hlt => IH y Hy ltac:(pose proof (sd_place_lt (fn := fn) y Hy); lia)) (childrenOf s x) (fun m Hm => Hm)).
  unfold childrenOf in H. destruct (writeNodeWithin module values s (writeTree module values s fuel) x _); [reflexivity | discriminate].
Qed.

Lemma entry_writes : is_ok (writeTree module values s (S (List.length (sOrder s))) (entryName fn)) = true.
Proof. apply tree_writes; [apply (sd_entry (fn := fn)) | lia]. Qed.
End Tree.

Lemma writeFunctionBody_eq module values fn s tree :
  analyze fn = Ok s -> writeTree module values s (S (List.length (sOrder s))) (entryName fn) = Ok tree -> fBlocks fn <> [] ->
  writeFunctionBody module values fn = Ok (WBlock "$exit" tree ::
    (if negb (String.eqb (fReturn fn) "void") && negb (isMemoryType module (fReturn fn)) then [WUnreachable] else [])).
Proof.
  intros Hs Ht Hne. unfold writeFunctionBody. rewrite Hs. unfold entryName in Ht.
  destruct (fBlocks fn) as [|b rest]; [contradiction|]. cbn [head from_option] in Ht. rewrite Ht. reflexivity.
Qed.
