(* ===== verification/WasmTheorems.v ===== *)
(** * Theorems about the wasm backend's control flow

    First executable tests for the classes of [WasmOrder], [WasmRun] and [WasmSim].
    What a function still reads is tested against a table of names for each
    block: any table closed under the edges bounds [needs]. *)

From stdpp Require Import base list strings gmap.
From Stdlib Require Import ZArith Lia.
From S2P Require Import Prelude GoStd IR Cfg CfgFacts Verify Semantics Optimize OptimizeTheorems Layout WasmStructure WasmControl.
From S2P Require Import WasmOrder WasmRun WasmAnalysis WasmScope WasmSim WasmWrites.

#[local] Open Scope list_scope.

Section Function.
Context (module : Module_) (fn : Function).

Definition namedBlocksb : bool :=
  negb (bool_decide (fBlocks fn = [])) && bool_decide (NoDup (map bName (fBlocks fn))) &&
  bool_decide (""%string ∉ map bName (fBlocks fn)) &&
  forallb (fun b => forallb (fun t => bool_decide (t ∈ map bName (fBlocks fn))) (Successors (bTerminator b))) (fBlocks fn).

Lemma namedBlocksb_sound : namedBlocksb = true -> NamedBlocks fn.
Proof.
  unfold namedBlocksb. rewrite !andb_true_iff, negb_true_iff, bool_decide_eq_false, !bool_decide_eq_true.
  intros [[[H1 H2] H3] H4]. split; [exact H1 | exact H2 | exact H3 |].
  intros b t Hb Ht. apply (forallb_elem _ _ b H4) in Hb. apply (forallb_elem _ _ t Hb) in Ht.
  apply bool_decide_eq_true in Ht. exact Ht.
Qed.

Definition returnb (b : Block) : bool :=
  let ty := vType (tValue (bTerminator b)) in
  negb (String.eqb ty "") && (negb (String.eqb ty "void") || String.eqb (fReturn fn) "void") &&
  (negb (isMemoryType module ty) || isMemoryType module (fReturn fn)).

Definition incomingb (i : Instr) : bool :=
  forallb (fun inc => negb (String.eqb (inBlock inc) "") &&
    forallb (fun inc' => negb (String.eqb (inBlock inc) (inBlock inc')) || bool_decide (inValue inc = inValue inc')) (iIncoming i))
    (iIncoming i).

(** Blocks whose phis come first. *)
Fixpoint phisFirst (instrs : list Instr) : bool :=
  match instrs with
  | [] => true
  | i :: rest => if isPhi i then phisFirst rest else forallb (fun j => negb (isPhi j)) rest
  end.

Definition emittableb : bool :=
  forallb (fun b =>
    let t := bTerminator b in
    bool_decide (tOp t ∈ ["jump"; "branch"; "return"; "unreachable"]%string) &&
    (negb (String.eqb (tOp t) "jump") || negb (String.eqb (tTarget t) "")) &&
    (negb (String.eqb (tOp t) "branch") || (negb (String.eqb (tTarget t) "") && negb (String.eqb (tElse t) ""))) &&
    (negb (String.eqb (tOp t) "return") || returnb b) && phisFirst (bInstrs b) &&
    bool_decide (NoDup (phiNames b)) && bool_decide (""%string ∉ phiNames b) &&
    forallb incomingb (phisOf b)) (fBlocks fn).

Lemma no_phis l : forallb (fun j => negb (isPhi j)) l = true ->
  List.filter isPhi l = [] /\ List.filter (fun i => negb (isPhi i)) l = l.
Proof.
  induction l as [|j l IH]; intros H; [auto|]. cbn [forallb List.filter] in *. apply andb_true_iff in H as [Hj H].
  rewrite Hj. apply negb_true_iff in Hj. rewrite Hj. destruct (IH H) as [-> ->]. auto.
Qed.

Lemma phisFirst_split instrs :
  phisFirst instrs = true ->
  instrs = List.filter isPhi instrs ++ List.filter (fun i => negb (isPhi i)) instrs.
Proof.
  induction instrs as [|i instrs IH]; intros H; [reflexivity|]. cbn [phisFirst List.filter] in *.
  destruct (isPhi i) eqn:Hi; cbn [negb app].
  - f_equal. apply IH, H.
  - destruct (no_phis instrs H) as [-> ->]. reflexivity.
Qed.

Lemma orb_implies (a b : bool) : a = true -> negb a || b = true -> b = true.
Proof. intros ->. auto. Qed.

Lemma emittableb_sound : emittableb = true -> Emittable module fn.
Proof.
  unfold emittableb. intros H.
  pose proof (fun b => forallb_elem _ _ b H) as Hb. clear H. cbv beta zeta in Hb.
  split; intros b; [intros Hin | intros Hin Hop | intros Hin Hop | intros Hin Hop | intros Hin | intros Hin | intros i inc Hin Hi Hinc | intros i inc inc' Hin Hi Hinc Hinc' Heq];
    specialize (Hb b Hin); rewrite !andb_true_iff, !bool_decide_eq_true in Hb;
    destruct Hb as [[[[[[[H1 H2] H3] H4] H5] H6] H7] H8].
  - exact H1.
  - apply orb_implies in H2; [|apply String.eqb_eq, Hop]. apply negb_true_iff, String.eqb_neq in H2. exact H2.
  - apply orb_implies in H3; [|apply String.eqb_eq, Hop]. apply andb_true_iff in H3 as [Ha Hc].
    apply negb_true_iff, String.eqb_neq in Ha. apply negb_true_iff, String.eqb_neq in Hc. auto.
  - apply orb_implies in H4; [|apply String.eqb_eq, Hop]. unfold returnb in H4. cbv zeta in *.
    apply andb_true_iff in H4 as [H4 Hm]. apply andb_true_iff in H4 as [Hn Hv]. apply negb_true_iff, String.eqb_neq in Hn.
    split; [exact Hn|]. split; [intros E; apply String.eqb_eq, (orb_implies _ _ (proj2 (String.eqb_eq _ _) E) Hv) | intros E; apply (orb_implies _ _ E Hm)].
  - apply phisFirst_split, H5.
  - auto.
  - pose proof (forallb_elem _ _ i H8 Hi) as Hi'. apply (forallb_elem _ _ inc Hi'), andb_true_iff in Hinc as [Hinc _].
    apply negb_true_iff, String.eqb_neq in Hinc. exact Hinc.
  - pose proof (forallb_elem _ _ i H8 Hi) as Hi'. apply (forallb_elem _ _ inc Hi'), andb_true_iff in Hinc as [_ Hinc].
    apply (forallb_elem _ _ inc' Hinc), orb_implies in Hinc'; [apply bool_decide_eq_true in Hinc'; exact Hinc'|].
    apply String.eqb_eq, Heq.
Qed.

(** The same expressions recorded at every block. *)
Definition phisInLocalsb (values : gmap string string) : bool :=
  forallb (fun b => forallb (fun i =>
    String.eqb (valueExpr values (iResult i)) (localGet (resultName i))) (phisOf b)) (fBlocks fn).

Lemma phisInLocalsb_sound values : phisInLocalsb values = true -> PhisInLocals (fun _ => values) fn.
Proof.
  intros H x b i v Hb Hi Hv. pose proof (forallb_elem _ _ b H Hb) as H1. pose proof (forallb_elem _ _ i H1 Hi) as H2.
  apply String.eqb_eq in H2. rewrite <- H2. unfold valueExpr, resultName in *. rewrite Hv. reflexivity.
Qed.

(** ** Tables of what is read *)

Context (table : gmap string (gset string)).

Definition entryOf (x : string) : gset string := default ∅ (table !! x).

Definition edgeClosed (b : Block) (t : string) : bool :=
  match blockNamed fn t with
  | None => true
  | Some bt =>
      forallb (fun v => bool_decide (v ∈ entryOf (bName b))) (edgeReads (bName b) bt) &&
      bool_decide (entryOf t ∖ list_to_set (phiNames bt) ⊆ entryOf (bName b))
  end.

Definition closedb : bool :=
  forallb (fun b => forallb (fun v => bool_decide (v ∈ entryOf (bName b))) (liveReads b) &&
                    forallb (edgeClosed b) (Successors (bTerminator b))) (fBlocks fn).

Lemma blockNamed_in x b : blockNamed fn x = Some b -> b ∈ fBlocks fn /\ bName b = x.
Proof. intros H. apply blocksByName_from in H as [H|H]; [rewrite lookup_empty in H; discriminate | exact H]. Qed.

Lemma edge_closed x b t bt :
  closedb = true -> blockNamed fn x = Some b -> t ∈ Successors (bTerminator b) -> blockNamed fn t = Some bt ->
  (forall v, v ∈ edgeReads x bt -> v ∈ entryOf x) /\ entryOf t ∖ list_to_set (phiNames bt) ⊆ entryOf x.
Proof.
  intros H Hx Ht Hbt. destruct (blockNamed_in x b Hx) as [Hb <-]. apply (forallb_elem _ _ b H), andb_true_iff in Hb as [_ Hb].
  apply (forallb_elem _ _ t Hb) in Ht. unfold edgeClosed in Ht. rewrite Hbt in Ht. apply andb_true_iff in Ht as [H1 H2].
  apply bool_decide_eq_true in H2. split; [|exact H2]. intros v Hv. apply (forallb_elem _ _ v H1) in Hv.
  apply bool_decide_eq_true in Hv. exact Hv.
Qed.

Lemma needs_table x v : closedb = true -> needs fn x v -> v ∈ entryOf x.
Proof.
  intros H. induction 1 as [x v b Hx Hv|x v b t bt Hx Ht Hbt Hv|x v b t bt Hx Ht Hbt _ IH Hv].
  - destruct (blockNamed_in x b Hx) as [Hb <-]. apply (forallb_elem _ _ b H), andb_true_iff in Hb as [Hb _].
    apply (forallb_elem _ _ v Hb) in Hv. apply bool_decide_eq_true in Hv. exact Hv.
  - apply (proj1 (edge_closed x b t bt H Hx Ht Hbt)), Hv.
  - apply (proj2 (edge_closed x b t bt H Hx Ht Hbt)). apply elem_of_difference. split; [exact IH|].
    rewrite elem_of_list_to_set. exact Hv.
Qed.

(** A table bounds what is read where an arm is left.  Which blocks are under
    the arm is read off the structure. *)
Definition exitsOf (s : structure) (x other : string) : list (string * string) :=
  if isBackEdge s x other || bool_decide (other ∈ sMerges s) then [(x, other)]
  else flat_map (fun y =>
    match sBlocks s !! y, sDominates s other y with
    | Some b, Some true =>
        map (fun z => (y, z)) (List.filter (fun z => negb (bool_decide (sDominates s other z = Some true))) (Successors (bTerminator b)))
    | _, _ => []
    end) (sOrder s).

Definition quietExit (header : Block) (z : string) : bool :=
  match blockNamed fn z with
  | None => true
  | Some bz => forallb (fun v => negb (bool_decide (v ∈ entryOf z)) || bool_decide (v ∈ phiNames bz)) (phiNames header)
  end.

Definition quietArm (s : structure) (x back other : string) : bool :=
  String.eqb back other || negb (bool_decide (sDominates s back x = Some true)) ||
  match blockNamed fn back with
  | None => true
  | Some header => forallb (fun edge => quietExit header edge.2) (exitsOf s x other)
  end.

Definition quietb (s : structure) : bool :=
  closedb && forallb (fun x =>
    match sBlocks s !! x with
    | None => true
    | Some b => negb (String.eqb (tOp (bTerminator b)) "branch") ||
        (quietArm s x (tTarget (bTerminator b)) (tElse (bTerminator b)) &&
         quietArm s x (tElse (bTerminator b)) (tTarget (bTerminator b)))
    end) (sOrder s).

Section Quiet.
Context {NB : NamedBlocks fn} {EM : Emittable module fn} (s : structure) {ST : Structured fn s}.

Lemma exitsOf_leaves x back other y z : loopBranch fn x back other -> leaves fn x other y z -> (y, z) ∈ exitsOf s x other.
Proof.
  intros (b & Hx & Hb & Hop & Hne & Harm & _) Hl. destruct (blockNamed_in x b Hb) as [Hbin _].
  apply (sd_reached (fn := fn) (s := s)) in Hx. assert (Hb' : sBlocks s !! x = Some b) by (rewrite (sd_blocks (fn := fn)); exact Hb).
  destruct (branch_targets (module := module) b Hbin Hop) as [HsT HsE].
  assert (He : edge s x other) by (split; [exact Hx|]; exists b; split; [exact Hb'|]; destruct Harm as [[_ ->]|[_ ->]]; assumption).
  pose proof (sd_edge (fn := fn) x other He) as Ho.
  pose proof (arm_entered x b other He Hb' (branch_once (module := module) b back other Hop Hbin Hne Harm)) as Honce.
  unfold exitsOf. destruct Hl as [Hnot|y z c Hyes Hy Hd Hc Hz Hout]; rewrite Honce in *.
  - destruct (isBackEdge s x other); [left|]. destruct (bool_decide_reflect (other ∈ sMerges s)) as [|Hm]; [left | tauto].
  - destruct Hyes as [-> Hm]. rewrite bool_decide_eq_false_2 by exact Hm. cbn [orb].
    pose proof Hy as Hy'. apply (sd_reached (fn := fn) (s := s)) in Hy'.
    assert (Hc' : sBlocks s !! y = Some c) by (rewrite (sd_blocks (fn := fn)); exact Hc).
    apply (sd_dominance (fn := fn) other y Ho Hy') in Hd. unfold above in Hd.
    apply list_elem_of_In, in_flat_map. exists y. split; [apply list_elem_of_In, Hy'|]. rewrite Hc', Hd.
    apply in_map_iff. exists z. split; [reflexivity|]. apply filter_In. split; [apply list_elem_of_In, Hz|].
    apply negb_true_iff, bool_decide_eq_false. intros E. apply Hout, (sd_dominance (fn := fn) other z Ho); [|exact E].
    apply (sd_edge (fn := fn) y). split; [exact Hy' | eauto].
Qed.

Lemma quietb_sound : quietb s = true -> QuietLoops fn.
Proof.
  unfold quietb. rewrite andb_true_iff. intros [Hc H] x back other header y z bz v Hl Hh Hv Hleave Hz Hn.
  pose proof (exitsOf_leaves x back other y z Hl Hleave) as Hexit.
  destruct Hl as (b & Hx & Hb & Hop & Hne & Harm & Hback). pose proof Hx as Hx'. apply (sd_reached (fn := fn) (s := s)) in Hx'.
  apply (forallb_elem _ _ x H) in Hx'. rewrite (sd_blocks (fn := fn)) in Hx'. unfold blockNamed in Hb. rewrite Hb, Hop in Hx'.
  change (String.eqb "branch" "branch") with true in Hx'. cbn [negb orb] in Hx'. apply andb_true_iff in Hx' as [HT HE].
  assert (Ha : quietArm s x back other = true) by (destruct Harm as [[-> ->]|[-> ->]]; assumption).
  apply (sd_reached (fn := fn) (s := s)) in Hx.
  assert (Hbo : back ∈ sOrder s).
  { apply (sd_edge (fn := fn) x). split; [exact Hx|]. exists b. rewrite (sd_blocks (fn := fn)). split; [exact Hb|].
    destruct (blockNamed_in x b Hb) as [Hbin _]. destruct (branch_targets (module := module) b Hbin Hop).
    destruct Harm as [[-> _]|[-> _]]; assumption. }
  apply (sd_dominance (fn := fn) back x Hbo Hx) in Hback. unfold above in Hback.
  unfold quietArm in Ha. rewrite (proj2 (String.eqb_neq back other) Hne), (bool_decide_eq_true_2 _ Hback), Hh in Ha. cbn [negb orb] in Ha.
  apply (forallb_elem _ _ _ Ha) in Hexit. unfold quietExit in Hexit. cbn [snd] in Hexit. rewrite Hz in Hexit.
  apply (forallb_elem _ _ v Hexit) in Hv. apply orb_implies in Hv; [apply bool_decide_eq_true in Hv; exact Hv|].
  apply bool_decide_eq_true, (needs_table z v Hc Hn).
Qed.
End Quiet.
End Function.

(** * Theorems about structured control flow ([internal/wasm])

    [analyze] accepts exactly the reducible graphs, and on them finds the
    dominator tree; what the writer makes of a function runs as the function
    does.  The last example is a function it changes the result of, which the
    test for loop branches does not see. *)

#[local] Open Scope string_scope.

(** C18. For a function that has blocks, whose block names are distinct and not
    empty and whose branches and jumps name blocks of it (anything else the
    verifier refuses, and the code would panic on a missing target), [analyze]
    accepts the function exactly when its control flow is reducible: when the
    target of every edge that goes back in reverse postorder dominates the block
    it comes from.  It neither panics nor runs on, and when it refuses it names
    such an edge. *)
Theorem analyze_reducible fn :
  NamedBlocks fn ->
  (is_ok (analyze fn) = true <->
   forall i j p q, order fn !! i = Some p -> order fn !! j = Some q -> q ∈ succs fn p -> j <= i ->
     dominated_by (succs fn) q p) /\
  forall e, analyze fn = Err e -> exists p q, e = Irreducible (nameAt (fn := fn) p) (nameAt (fn := fn) q) /\
    q ∈ succs fn p /\ ~ dominated_by (succs fn) q p.
Proof.
  intros NB. pose proof (analyze_spec (fn := fn)) as H. destruct (analyze fn) as [s|e].
  - destruct H as (_ & _ & Hr). split; [|discriminate]. split; [|reflexivity].
    intros _ i j p q Hp Hq Hs Hle. destruct (Hr i j) as (q' & p' & Hq' & Hp' & Hd).
    { split; [exact Hle|]. exists p, q. auto. }
    assert (q' = q) as -> by congruence. assert (p' = p) as -> by congruence. exact Hd.
  - destruct H as (i & j & p & q & -> & Hle & Hp & Hq & Hs & Hnd). split.
    + split; [discriminate|]. intros Hall. exfalso. apply Hnd. apply (Hall i j p q Hp Hq Hs Hle).
    + intros e [= <-]. exists p, q. auto.
Qed.

(** Two blocks that jump to each other, entered at both: no order makes one
    dominate the other. *)
Definition sample_irreducible : Function :=
  mkFunction "f" [mkParam "%c" "bool" PassValue] "void"
    [mkBlock "entry" [] (branch (mkValue "%c" "bool") "a" "b");
     mkBlock "a" [] (branch (mkValue "%c" "bool") "b" "end");
     mkBlock "b" [] (jump "a");
     mkBlock "end" [] (ret (mkValue "" "void"))] "" "".

Lemma analyze_reducible_witness :
  analyze sample_irreducible = Err (Irreducible "b" "a") /\
  exists p q, q ∈ succs sample_irreducible p /\ ~ dominated_by (succs sample_irreducible) q p.
Proof.
  assert (NB : NamedBlocks sample_irreducible) by (apply namedBlocksb_sound; vm_compute; reflexivity).
  assert (E : analyze sample_irreducible = Err (Irreducible "b" "a")) by (vm_compute; reflexivity).
  split; [exact E|]. destruct (analyze_reducible sample_irreducible NB) as [_ H].
  destruct (H _ E) as (p & q & _ & Hs & Hd). eauto.
Defined.


(** Sums what is below [p], skipping the sum at two: a loop with a merge inside,
    whose back edge is taken with a [br_if]. *)
Definition sample_structured : Function :=
  let v x := mkValue x "i64" in
  let b x := mkValue x "bool" in
  mkFunction "sum" [mkParam "%p" "i64" PassValue] "i64"
    [mkBlock "entry" [] (jump "head");
     mkBlock "head" [phi (v "%i") [mkIncoming "entry" (v "0"); mkIncoming "join" (v "%j")];
                     phi (v "%a") [mkIncoming "entry" (v "0"); mkIncoming "join" (v "%s")];
                     instr (b "%c") "binary.==" [v "%i"; v "2"] ""]
       (branch (b "%c") "join" "add");
     mkBlock "add" [instr (v "%t") "binary.+" [v "%a"; v "%i"] ""] (jump "join");
     mkBlock "join" [phi (v "%s") [mkIncoming "head" (v "%a"); mkIncoming "add" (v "%t")];
                     instr (v "%j") "binary.+" [v "%i"; v "1"] "";
                     instr (b "%d") "binary.<" [v "%j"; v "%p"] ""]
       (branch (b "%d") "head" "out");
     mkBlock "out" [] (ret (v "%s"))] "" "".

Definition sample_reads : gmap string (gset string) :=
  let all : gset string := list_to_set ["%i"; "%a"; "%s"; "%j"; "%t"; "%p"; "%c"; "%d"; "0"; "1"; "2"; ""] in
  list_to_map [("entry", all); ("head", all); ("add", all); ("join", all); ("out", {["%s"; ""]})].

Definition no_values : string -> gmap string string := fun _ => ∅.


(** The condition on loop branches is needed.  The test [writeLoopBranch] makes
    looks at the code written under the other arm; a block that is reached there
    by a branch, because it is a merge, is not looked at.  Here the loop counts
    [%x] up and leaves either way to [end], which returns [%x]: the copy for the
    next round is made before the loop is left, and the result is one too many. *)
Definition sample_early : Function :=
  let v x := mkValue x "i64" in
  let b x := mkValue x "bool" in
  mkFunction "count" [mkParam "%q" "bool" PassValue] "i64"
    [mkBlock "entry" [] (jump "head");
     mkBlock "head" [phi (v "%x") [mkIncoming "entry" (v "0"); mkIncoming "body" (v "%y")];
                     instr (b "%c") "binary.<" [v "%x"; v "10"] ""]
       (branch (b "%c") "body" "end");
     mkBlock "body" [instr (v "%y") "binary.+" [v "%x"; v "1"] ""]
       (branch (b "%q") "end" "head");
     mkBlock "end" [] (ret (v "%x"))] "" "".

Example early_copy_reaches_a_merge :
  verifyFunction (mkModule ∅ ∅ ∅ ∅ [sample_early] ∅) ∅ sample_early = Ok tt /\
  runFunction (machine := logMachine) 5 sample_early [1%Z] [] = Returned (Some 0%Z) [] /\
  exists code, writeFunctionBody (mkModule ∅ ∅ ∅ ∅ [sample_early] ∅) no_values sample_early = Ok code /\
    wrun (machine := logMachine) 30 (wstart code sample_early [1%Z] []) = Returned (Some 1%Z) [].
Proof.
  split; [vm_compute; reflexivity|]. split; [vm_compute; reflexivity|].
  assert (H : match writeFunctionBody (mkModule ∅ ∅ ∅ ∅ [sample_early] ∅) no_values sample_early with
              | Ok code => wrun (machine := logMachine) 30 (wstart code sample_early [1%Z] [])
              | Err _ => Stuck
              end = Returned (Some 1%Z) []) by (vm_compute; reflexivity).
  destruct (writeFunctionBody (mkModule ∅ ∅ ∅ ∅ [sample_early] ∅) no_values sample_early) as [code|e]; [|discriminate].
  exists code. auto.
Qed.
