(* ===== verification/WasmText.v ===== *)
(** * The WebAssembly text the emitter writes, and what it means

    The emitter of [internal/wasm] writes folded expressions, [(i64.add a b)], as
    strings.  Here is a reader of that text, the meaning of the integer
    instructions it can name, and of [local.set] on the locals of a function.  It
    models no file: it is what WebAssembly gives the text.  Integers are held by
    their unsigned value, as the standard does.  Text outside this subset, a
    comment, a string, an instruction on floats or memory, has no meaning here. *)

From stdpp Require Import base list strings gmap.
From Stdlib Require Import ZArith Lia String Ascii.
From S2P Require Import Prelude GoStd WasmControl.

#[local] Open Scope string_scope.
#[local] Open Scope Z_scope.
#[local] Open Scope list_scope.

(** ** Expressions *)

Inductive sexp : Type :=
  | Atom (s : string)
  | Node (l : list sexp).

Fixpoint sexp_ind' (P : sexp -> Prop) (HA : forall s, P (Atom s)) (HN : forall l, Forall P l -> P (Node l))
  (t : sexp) : P t :=
  match t with
  | Atom s => HA s
  | Node l => HN l (list_ind (Forall P) (Forall_nil_2 P) (fun t l IH => Forall_cons_2 P t l (sexp_ind' P HA HN t) IH) l)
  end.

(** One space between the parts, as the emitter writes it. *)
Fixpoint join (l : list string) : string :=
  match l with
  | [] => ""
  | [s] => s
  | s :: rest => s +:+ " " +:+ join rest
  end.

Fixpoint print (t : sexp) : string :=
  match t with
  | Atom s => s
  | Node l => "(" +:+ join (map print l) +:+ ")"
  end.

(** ** Reading *)

Definition isSpace (c : ascii) : bool := Ascii.eqb c " " || Ascii.eqb c "010".

(** What an atom is made of. *)
Definition isAtomChar (c : ascii) : bool :=
  negb (isSpace c) && negb (Ascii.eqb c "(") && negb (Ascii.eqb c ")") &&
  negb (Ascii.eqb c ";") && negb (Ascii.eqb c "034").

Definition isAtom (s : string) : bool := negb (String.eqb s "") && sall isAtomChar s.

(** An atom not yet ended, what has been read of the innermost open expression,
    the last part first, and of those around it. *)
Record reading : Type := mkReading { rdAtom : string; rdTop : list sexp; rdBelow : list (list sexp) }.

Definition endAtom (r : reading) : reading :=
  if String.eqb (rdAtom r) "" then r else mkReading "" (Atom (rdAtom r) :: rdTop r) (rdBelow r).

Definition takeChar (r : reading) (c : ascii) : option reading :=
  if isSpace c then Some (endAtom r)
  else if Ascii.eqb c "(" then
    let r := endAtom r in Some (mkReading "" [] (rdTop r :: rdBelow r))
  else if Ascii.eqb c ")" then
    let r := endAtom r in
    match rdBelow r with
    | outer :: below => Some (mkReading "" (Node (reverse (rdTop r)) :: outer) below)
    | [] => None
    end
  else if isAtomChar c then Some (mkReading (rdAtom r +:+ String c "") (rdTop r) (rdBelow r))
  else None.

Fixpoint takeChars (r : reading) (s : string) : option reading :=
  match s with
  | "" => Some r
  | String c s => match takeChar r c with Some r => takeChars r s | None => None end
  end.

(** All the expressions of a text. *)
Definition readText (s : string) : option (list sexp) :=
  match takeChars (mkReading "" [] []) s with
  | Some r => match rdBelow (endAtom r) with [] => Some (reverse (rdTop (endAtom r))) | _ => None end
  | None => None
  end.

(** *** What is printed is read back *)

Fixpoint wellSpelled (t : sexp) : bool :=
  match t with
  | Atom s => isAtom s
  | Node l => forallb wellSpelled l
  end.

Definition isNode (t : sexp) : bool := match t with Node _ => true | Atom _ => false end.

Lemma takeChars_app r a b :
  takeChars r (a +:+ b) = match takeChars r a with Some r => takeChars r b | None => None end.
Proof.
  revert r. induction a as [|c a IH]; intros r; [reflexivity|]. cbn [append takeChars].
  destruct (takeChar r c); [apply IH | reflexivity].
Qed.

Lemma takeChars_atom r s :
  sall isAtomChar s = true -> takeChars r s = Some (mkReading (rdAtom r +:+ s) (rdTop r) (rdBelow r)).
Proof.
  revert r. induction s as [|c s IH]; intros [a top below] H; [cbn; rewrite sapp_nil_r; reflexivity|].
  cbn [sall] in H. apply andb_true_iff in H as [Hc Hs]. cbn [takeChars]. unfold takeChar.
  assert (E : isSpace c = false /\ Ascii.eqb c "(" = false /\ Ascii.eqb c ")" = false).
  { unfold isAtomChar in Hc. rewrite !andb_true_iff, !negb_true_iff in Hc. tauto. }
  destruct E as (-> & -> & ->). rewrite Hc, IH by exact Hs. cbn [rdAtom rdTop rdBelow]. rewrite sapp_assoc. reflexivity.
Qed.

(** Reading what is printed at the start of a part leaves it to be ended. *)
Lemma read_print t top below :
  wellSpelled t = true ->
  exists r, takeChars (mkReading "" top below) (print t) = Some r /\ endAtom r = mkReading "" (t :: top) below /\
    (isNode t = true -> r = mkReading "" (t :: top) below).
Proof.
  revert top below. induction t as [s|l IH] using sexp_ind'; intros top below H.
  - cbn [wellSpelled print] in *. unfold isAtom in H. apply andb_true_iff in H as [Hne Hs].
    exists (mkReading s top below). rewrite takeChars_atom by exact Hs. split; [reflexivity|].
    unfold endAtom. cbn [rdAtom rdTop rdBelow]. apply negb_true_iff in Hne. rewrite Hne. split; [reflexivity | discriminate].
  - cbn [wellSpelled print] in *. exists (mkReading "" (Node l :: top) below). split; [|split; reflexivity].
    cbn [append takeChars]. change (takeChar (mkReading "" top below) "(") with (Some (mkReading "" [] (top :: below))). cbn match.
    assert (Hl : forall done, exists r, takeChars (mkReading "" done (top :: below)) (join (map print l)) = Some r /\
              endAtom r = mkReading "" (reverse l ++ done) (top :: below)).
    { induction IH as [|t l Ht Hl IHl]; intros done; [exists (mkReading "" done (top :: below)); auto|].
      cbn [forallb] in H. apply andb_true_iff in H as [H1 H2]. destruct (Ht done (top :: below) H1) as (r & Hr & Hend & _).
      rewrite reverse_cons, <- app_assoc. destruct l as [|t' l]; [exists r; auto|].
      change (join (map print (t :: t' :: l))) with (print t +:+ " " +:+ join (map print (t' :: l))).
      rewrite takeChars_app, Hr. cbn [append takeChars].
      change (takeChar r " ") with (Some (endAtom r)). cbn match. rewrite Hend. apply (IHl H2). }
    destruct (Hl []) as (r & Hr & Hend). rewrite takeChars_app, Hr. cbn [takeChars].
    change (takeChar r ")") with (let r := endAtom r in match rdBelow r with
      | outer :: below => Some (mkReading "" (Node (reverse (rdTop r)) :: outer) below) | [] => None end).
    cbv zeta. rewrite Hend. cbn [rdBelow rdTop]. rewrite app_nil_r, reverse_involutive. reflexivity.
Qed.

Theorem readText_print t : wellSpelled t = true -> readText (print t) = Some [t].
Proof.
  intros H. destruct (read_print t [] [] H) as (r & Hr & Hend & _). unfold readText. rewrite Hr, Hend. reflexivity.
Qed.

(** ** Integer instructions *)

Inductive wval : Type := I32 (n : Z) | I64 (n : Z).

Inductive wfault : Type :=
  | Trap                      (** the instruction traps *)
  | Invalid.                  (** not an expression of this subset *)

#[export] Instance wval_eq_dec : EqDecision wval.
Proof. solve_decision. Defined.

Definition unsigned (bits z : Z) : Z := z mod 2 ^ bits.
Definition signed (bits z : Z) : Z := if z <? 2 ^ (bits - 1) then z else z - 2 ^ bits.
Definition truth32 (b : bool) : wval := I32 (if b then 1 else 0).

(** Arithmetic of [i64] on unsigned values. *)
Definition i64Arithmetic (op : string) (a b : Z) : result wfault Z :=
  let u := unsigned 64 in
  let s := signed 64 in
  let count := unsigned 6 b in
  if String.eqb op "i64.add" then Ok (u (a + b))
  else if String.eqb op "i64.sub" then Ok (u (a - b))
  else if String.eqb op "i64.mul" then Ok (u (a * b))
  else if String.eqb op "i64.div_u" then if b =? 0 then Err Trap else Ok (a / b)
  else if String.eqb op "i64.div_s" then
    if (b =? 0) || ((s a =? - 2 ^ 63) && (s b =? -1)) then Err Trap else Ok (u (Z.quot (s a) (s b)))
  else if String.eqb op "i64.rem_u" then if b =? 0 then Err Trap else Ok (a mod b)
  else if String.eqb op "i64.rem_s" then if b =? 0 then Err Trap else Ok (u (Z.rem (s a) (s b)))
  else if String.eqb op "i64.and" then Ok (Z.land a b)
  else if String.eqb op "i64.or" then Ok (Z.lor a b)
  else if String.eqb op "i64.xor" then Ok (Z.lxor a b)
  else if String.eqb op "i64.shl" then Ok (u (Z.shiftl a count))
  else if String.eqb op "i64.shr_u" then Ok (Z.shiftr a count)
  else if String.eqb op "i64.shr_s" then Ok (u (Z.shiftr (s a) count))
  else Err Invalid.

Definition i64Comparison (op : string) (a b : Z) : option bool :=
  let s := signed 64 in
  if String.eqb op "i64.eq" then Some (a =? b)
  else if String.eqb op "i64.ne" then Some (negb (a =? b))
  else if String.eqb op "i64.lt_u" then Some (a <? b)
  else if String.eqb op "i64.le_u" then Some (a <=? b)
  else if String.eqb op "i64.gt_u" then Some (b <? a)
  else if String.eqb op "i64.ge_u" then Some (b <=? a)
  else if String.eqb op "i64.lt_s" then Some (s a <? s b)
  else if String.eqb op "i64.le_s" then Some (s a <=? s b)
  else if String.eqb op "i64.gt_s" then Some (s b <? s a)
  else if String.eqb op "i64.ge_s" then Some (s b <=? s a)
  else None.

Definition i64Unary (op : string) (a : Z) : option wval :=
  let extend bits := I64 (unsigned 64 (signed bits (unsigned bits a))) in
  if String.eqb op "i64.extend8_s" then Some (extend 8)
  else if String.eqb op "i64.extend16_s" then Some (extend 16)
  else if String.eqb op "i64.extend32_s" then Some (extend 32)
  else if String.eqb op "i32.wrap_i64" then Some (I32 (unsigned 32 a))
  else None.

Definition i32Instruction (op : string) (args : list Z) : option wval :=
  match args with
  | [a] =>
      if String.eqb op "i32.eqz" then Some (truth32 (a =? 0))
      else if String.eqb op "i64.extend_i32_u" then Some (I64 a)
      else None
  | [a; b] =>
      if String.eqb op "i32.eq" then Some (truth32 (a =? b))
      else if String.eqb op "i32.ne" then Some (truth32 (negb (a =? b)))
      else if String.eqb op "i32.add" then Some (I32 (unsigned 32 (a + b)))
      else None
  | _ => None
  end.

Definition orInvalid {A} (o : option A) : result wfault A :=
  match o with Some a => Ok a | None => Err Invalid end.

(** An instruction on the values of its operands. *)
Definition applyOp (op : string) (args : list wval) : result wfault wval :=
  match args with
  | [I64 a; I64 b] =>
      match i64Comparison op a b with
      | Some c => Ok (truth32 c)
      | None => let* r := i64Arithmetic op a b in Ok (I64 r)
      end
  | [I64 a] => orInvalid (i64Unary op a)
  | [I32 a] => orInvalid (i32Instruction op [a])
  | [I32 a; I32 b] => orInvalid (i32Instruction op [a; b])
  | [I64 a; I64 b; I32 c] => if String.eqb op "select" then Ok (I64 (if c =? 0 then b else a)) else Err Invalid
  | [I32 a; I32 b; I32 c] => if String.eqb op "select" then Ok (I32 (if c =? 0 then b else a)) else Err Invalid
  | _ => Err Invalid
  end.

(** The number of a [const], of either reading of its bits. *)
Definition constValue (bits : Z) (s : string) : option Z :=
  let value := match s with
               | String "-" digits => Z.opp <$> parse_uint digits
               | String "+" digits => parse_uint digits
               | _ => parse_uint s
               end in
  match value with
  | Some n => if (- 2 ^ (bits - 1) <=? n) && (n <? 2 ^ bits) then Some (unsigned bits n) else None
  | None => None
  end.

(** Instructions that read their first operand as it is spelled. *)
Definition immediate (op : string) : bool := existsb (String.eqb op) ["local.get"; "i64.const"; "i32.const"].

Definition readImmediate (ρ : gmap string wval) (op s : string) : option wval :=
  if String.eqb op "local.get" then ρ !! s
  else if String.eqb op "i64.const" then I64 <$> constValue 64 s
  else I32 <$> constValue 32 s.

(** Operands are evaluated first, in order, also those of a [select]. *)
Fixpoint eval (ρ : gmap string wval) (t : sexp) : result wfault wval :=
  match t with
  | Node (Atom op :: args) =>
      if immediate op then
        match args with
        | [Atom s] => orInvalid (readImmediate ρ op s)
        | _ => Err Invalid
        end
      else
        let* vs := map_ok (eval ρ) args in
        applyOp op vs
  | _ => Err Invalid
  end.

(** The value of an expression, and the locals after a text of [local.set]s. *)
Definition evalText (ρ : gmap string wval) (s : string) : result wfault wval :=
  match readText s with
  | Some [t] => eval ρ t
  | _ => Err Invalid
  end.

Definition runSet (ρ : gmap string wval) (t : sexp) : result wfault (gmap string wval) :=
  match t with
  | Node [Atom op; Atom x; t] =>
      if String.eqb op "local.set" then let* v := eval ρ t in Ok (<[x := v]> ρ) else Err Invalid
  | _ => Err Invalid
  end.

Fixpoint runSets (ρ : gmap string wval) (l : list sexp) : result wfault (gmap string wval) :=
  match l with
  | [] => Ok ρ
  | t :: l => let* ρ := runSet ρ t in runSets ρ l
  end.

Definition runText (ρ : gmap string wval) (s : string) : result wfault (gmap string wval) :=
  match readText s with
  | Some l => runSets ρ l
  | None => Err Invalid
  end.

(** A text that is one expression, spelled as the emitter spells it. *)
Definition oneExpression (s : string) : bool :=
  match readText s with
  | Some [t] => wellSpelled t && isNode t && String.eqb (print t) s
  | _ => false
  end.

Lemma oneExpression_print s :
  oneExpression s = true -> exists t, s = print t /\ wellSpelled t = true /\ isNode t = true.
Proof.
  unfold oneExpression. destruct (readText s) as [[|t [|]]|]; try discriminate.
  rewrite !andb_true_iff. intros [[Hw Hn] He]. apply String.eqb_eq in He. eauto.
Qed.

Lemma evalText_print ρ t : wellSpelled t = true -> evalText ρ (print t) = eval ρ t.
Proof. intros H. unfold evalText. rewrite readText_print by exact H. reflexivity. Qed.

Lemma print_oneExpression t : wellSpelled t = true -> isNode t = true -> oneExpression (print t) = true.
Proof. intros H Hn. unfold oneExpression. rewrite readText_print, H, Hn, String.eqb_refl by exact H. reflexivity. Qed.

(** Lines of assignments are read one after the other. *)
Definition indent : string := "            ".

Definition setLine (x e : string) : string := indent +:+ "(local.set " +:+ x +:+ " " +:+ e +:+ ")" +:+ String "010" "".

Lemma takeChars_setLine x t done :
  isAtom x = true -> wellSpelled t = true ->
  takeChars (mkReading "" done []) (setLine x (print t)) =
  Some (mkReading "" (Node [Atom "local.set"; Atom x; t] :: done) []).
Proof.
  intros Hx Ht.
  assert (Hw : wellSpelled (Node [Atom "local.set"; Atom x; t]) = true) by (cbn [wellSpelled forallb]; rewrite Hx, Ht; reflexivity).
  assert (E : setLine x (print t) = indent +:+ (print (Node [Atom "local.set"; Atom x; t]) +:+ String "010" "")).
  { unfold setLine. cbn [print map join]. rewrite !sapp_assoc. reflexivity. }
  rewrite E, takeChars_app. change (takeChars (mkReading "" done []) indent) with (Some (mkReading "" done [])). cbn match.
  destruct (read_print _ done [] Hw) as (r & Hr & _ & Hnode). rewrite takeChars_app, Hr, (Hnode eq_refl). reflexivity.
Qed.

(** A text of lines, each given by its local and its expression. *)
Definition setLines (l : list (string * string)) : string :=
  foldr (fun p s => setLine (fst p) (snd p) +:+ s) "" l.

Lemma runText_setLines ρ (l : list (string * sexp)) :
  Forall (fun p => isAtom (fst p) = true /\ wellSpelled (snd p) = true) l ->
  runText ρ (setLines (map (fun p => (fst p, print (snd p))) l)) =
  runSets ρ (map (fun p => Node [Atom "local.set"; Atom (fst p); snd p]) l).
Proof.
  intros H. unfold runText, readText.
  assert (E : forall done, takeChars (mkReading "" done []) (setLines (map (fun p => (fst p, print (snd p))) l)) =
            Some (mkReading "" (reverse (map (fun p => Node [Atom "local.set"; Atom (fst p); snd p]) l) ++ done) [])).
  { induction H as [|[x t] l [Hx Ht] _ IH]; intros done; [reflexivity|]. cbn [map setLines foldr fst snd].
    rewrite takeChars_app, takeChars_setLine by assumption. cbn match. fold (setLines (map (fun p => (fst p, print (snd p))) l)).
    rewrite IH, reverse_cons, <- app_assoc. reflexivity. }
  rewrite E. cbn match. unfold endAtom. cbn [rdAtom rdBelow rdTop String.eqb]. rewrite app_nil_r, reverse_involutive. reflexivity.
Qed.

(** ** What an expression reads *)

(** Whether the local [x] is read. *)
Fixpoint readsLocal (x : string) (t : sexp) : bool :=
  match t with
  | Atom _ => false
  | Node l =>
      match l with
      | [Atom op; Atom y] => String.eqb op "local.get" && String.eqb y x
      | _ => false
      end || existsb (readsLocal x) l
  end.

Lemma map_ok_ext {E A B} (f g : A -> result E B) l : Forall (fun x => f x = g x) l -> map_ok f l = map_ok g l.
Proof. induction 1 as [|x l H _ IH]; [reflexivity|]. cbn [map_ok]. rewrite H, IH. reflexivity. Qed.

Lemma eval_frame ρ x v t : readsLocal x t = false -> eval (<[x := v]> ρ) t = eval ρ t.
Proof.
  induction t as [s|l IH] using sexp_ind'; intros H; [reflexivity|]. cbn [readsLocal] in H.
  apply orb_false_iff in H as [Hhere Hl]. destruct l as [|[op|?] args]; [reflexivity | | reflexivity]. cbn [eval].
  assert (Hargs : map_ok (eval (<[x := v]> ρ)) args = map_ok (eval ρ) args).
  { apply map_ok_ext. apply Forall_forall. intros t Ht. rewrite Forall_forall in IH. apply IH; [right; exact Ht|].
    destruct (readsLocal x t) eqn:E; [|reflexivity]. rewrite <- Hl. cbn [existsb]. symmetry. apply orb_true_iff. right.
    apply existsb_exists. exists t. rewrite <- list_elem_of_In. auto. }
  destruct (immediate op); [|rewrite Hargs; reflexivity].
  destruct args as [|[y|?] [|? ?]]; try reflexivity. unfold readImmediate.
  destruct (String.eqb op "local.get"); [|reflexivity]. cbn [andb] in Hhere. apply String.eqb_neq in Hhere.
  rewrite lookup_insert_ne by congruence. reflexivity.
Qed.

Lemma Contains_app_r s t sub : Contains t sub = true -> Contains (s +:+ t) sub = true.
Proof. intros H. induction s as [|c s IH]; [exact H|]. cbn [append Contains]. rewrite IH. apply orb_true_r. Qed.

Lemma Contains_prefix sub rest : Contains (sub +:+ rest) sub = true.
Proof.
  assert (H : HasPrefix (sub +:+ rest) sub = true) by (apply HasPrefix_true; exists rest; reflexivity).
  destruct (sub +:+ rest) eqn:E; cbn [Contains]; rewrite H; reflexivity.
Qed.

Lemma Contains_app_l s t sub : Contains s sub = true -> Contains (s +:+ t) sub = true.
Proof.
  induction s as [|c s IH]; cbn [Contains append]; intros H.
  - rewrite orb_false_r in H. apply HasPrefix_true in H as [rest E]. destruct sub; [|discriminate].
    destruct t; reflexivity.
  - apply orb_true_iff in H as [H|H]; [|rewrite (IH H); apply orb_true_r]. apply HasPrefix_true in H as [rest E].
    assert (E' : String c (s +:+ t) = sub +:+ (rest +:+ t)) by (rewrite <- sapp_assoc, <- E; reflexivity).
    pose proof (Contains_prefix sub (rest +:+ t)) as H. rewrite <- E' in H. exact H.
Qed.

Lemma Contains_join l s sub : s ∈ l -> Contains s sub = true -> Contains (join l) sub = true.
Proof.
  intros Hs H. induction l as [|s' l IH]; [inversion Hs|]. destruct l as [|s'' l].
  - apply list_elem_of_singleton in Hs as <-. exact H.
  - change (join (s' :: s'' :: l)) with (s' +:+ " " +:+ join (s'' :: l)). apply elem_of_cons in Hs as [<-|Hs].
    + apply Contains_app_l, H.
    + apply Contains_app_r. apply (Contains_app_r " "). apply IH, Hs.
Qed.

(** What is read shows in the text. *)
Lemma readsLocal_Contains x t :
  readsLocal x t = true -> Contains (print t) ("(local.get " +:+ x +:+ ")") = true.
Proof.
  induction t as [s|l IH] using sexp_ind'; intros H; [discriminate|]. cbn [readsLocal] in H.
  apply orb_true_iff in H as [H|H].
  - destruct l as [|[op|?] [|[y|?] [|? ?]]]; try discriminate. apply andb_true_iff in H as [H1 H2].
    apply String.eqb_eq in H1 as ->, H2 as ->. change (print (Node [Atom "local.get"; Atom x])) with ("(local.get " +:+ x +:+ ")").
    pose proof (Contains_prefix ("(local.get " +:+ x +:+ ")") "") as E. rewrite sapp_nil_r in E. exact E.
  - apply existsb_exists in H as (t & Ht & H). apply list_elem_of_In in Ht. rewrite Forall_forall in IH.
    cbn [print]. apply (Contains_app_r "("). apply Contains_app_l. apply (Contains_join _ (print t)).
    + apply list_elem_of_fmap. exists t. auto.
    + apply (IH t Ht H).
Qed.

(** Setting a local an expression does not name leaves its value. *)
Lemma evalText_frame ρ x v s :
  oneExpression s = true -> Contains s ("(local.get " +:+ x +:+ ")") = false -> evalText (<[x := v]> ρ) s = evalText ρ s.
Proof.
  intros Hs Hc. destruct (oneExpression_print s Hs) as (t & -> & Hw & _). rewrite !evalText_print by exact Hw.
  apply eval_frame. destruct (readsLocal x t) eqn:E; [|reflexivity]. rewrite (readsLocal_Contains x t E) in Hc. discriminate.
Qed.

(** *** A read of one local *)

Definition getText (x : string) : string := "(local.get " +:+ x +:+ ")".

Lemma Contains_sub s sub : Contains s sub = true -> exists a b, s = a +:+ (sub +:+ b).
Proof.
  induction s as [|c s IH]; cbn [Contains]; intros H.
  - rewrite orb_false_r in H. apply HasPrefix_true in H as [b ->]. exists "", b. reflexivity.
  - apply orb_true_iff in H as [H|H].
    + apply HasPrefix_true in H as [b ->]. exists "", b. reflexivity.
    + destruct (IH H) as (a & b & ->). exists (String c a), b. reflexivity.
Qed.

Definition isOpen (c : ascii) : bool := Ascii.eqb c "(".
Definition notClose (c : ascii) : bool := negb (Ascii.eqb c ")").

Lemma atom_chars x : isAtom x = true -> sall notClose x = true /\ sall (fun c => negb (isOpen c)) x = true.
Proof.
  unfold isAtom. intros H. apply andb_true_iff in H as [_ H]. induction x as [|c x IH]; [auto|]. cbn [sall] in *.
  apply andb_true_iff in H as [Hc H]. destruct (IH H) as [-> ->]. unfold isAtomChar in Hc. unfold notClose, isOpen.
  rewrite !andb_true_iff, !negb_true_iff in Hc. rewrite !andb_true_r, !negb_true_iff. tauto.
Qed.

Lemma close_inj x y a : sall notClose x = true -> sall notClose y = true -> x +:+ ")" = y +:+ String ")" a -> x = y.
Proof.
  revert y. induction x as [|c x IH]; intros [|d y] Hx Hy E; cbn [append sall] in *; [reflexivity | | |].
  - injection E as <- _. discriminate Hy.
  - injection E as -> _. discriminate Hx.
  - injection E as -> E. apply andb_true_iff in Hx as [_ Hx], Hy as [_ Hy]. f_equal. apply (IH y); assumption.
Qed.

Lemma sall_tail p a b : sall p (a +:+ b) = true -> sall p b = true.
Proof. rewrite sall_app. intros H. apply andb_true_iff in H. tauto. Qed.

(** One read shows in another only when it is the same. *)
Lemma Contains_getText x y : isAtom x = true -> isAtom y = true -> Contains (getText x) (getText y) = true -> x = y.
Proof.
  intros Hx Hy H. apply Contains_sub in H as (a & b & E). destruct (atom_chars x Hx) as [Hcx Hox]. destruct (atom_chars y Hy) as [Hcy _].
  unfold getText in E. destruct a as [|c a].
  - cbn [append] in E. injection E as E. rewrite sapp_assoc in E. apply (close_inj x y b Hcx Hcy E).
  - exfalso. cbn [append] in E. injection E as _ E.
    assert (Hs : sall (fun c => negb (isOpen c)) ("local.get " +:+ (x +:+ ")")) = true) by (rewrite !sall_app, Hox; reflexivity).
    cbn [append] in Hs, E. rewrite E in Hs. apply sall_tail in Hs. discriminate Hs.
Qed.

Lemma getText_one x : isAtom x = true -> oneExpression (getText x) = true.
Proof.
  intros H. change (getText x) with (print (Node [Atom "local.get"; Atom x])). apply print_oneExpression; [|reflexivity].
  cbn [wellSpelled forallb]. rewrite H. reflexivity.
Qed.

Lemma evalText_getText ρ x : isAtom x = true -> evalText ρ (getText x) = orInvalid (ρ !! x).
Proof.
  intros H. change (getText x) with (print (Node [Atom "local.get"; Atom x])). rewrite evalText_print; [reflexivity|].
  cbn [wellSpelled forallb]. rewrite H. reflexivity.
Qed.

(** ** A text of lines that runs *)

Definition linesRun (ρ : gmap string wval) (text : string) (ρ' : gmap string wval) : Prop :=
  exists lines, text = setLines (map (fun p => (fst p, print (snd p))) lines) /\
    Forall (fun p => isAtom (fst p) = true /\ wellSpelled (snd p) = true) lines /\
    runSets ρ (map (fun p => Node [Atom "local.set"; Atom (fst p); snd p]) lines) = Ok ρ'.

Lemma linesRun_nil ρ : linesRun ρ "" ρ.
Proof. exists []. repeat split. constructor. Qed.

Lemma linesRun_cons ρ x e v rest ρ' :
  isAtom x = true -> oneExpression e = true -> evalText ρ e = Ok v -> linesRun (<[x := v]> ρ) rest ρ' ->
  linesRun ρ (setLine x e +:+ rest) ρ'.
Proof.
  intros Hx He Hv (lines & -> & Hl & Hr). destruct (oneExpression_print e He) as (t & -> & Hw & _).
  rewrite evalText_print in Hv by exact Hw. exists ((x, t) :: lines). split; [reflexivity|].
  split; [constructor; [split; assumption | exact Hl]|].
  cbn [map fst snd runSets runSet String.eqb Ascii.eqb Bool.eqb]. rewrite Hv. exact Hr.
Qed.

Lemma linesRun_runText ρ text ρ' : linesRun ρ text ρ' -> runText ρ text = Ok ρ'.
Proof. intros (lines & -> & Hl & Hr). rewrite runText_setLines by exact Hl. exact Hr. Qed.
