(* ===== verification/WasmScalar.v ===== *)
(** * Scalar instructions of the wasm backend ([internal/wasm/types.go], [control.go])

    Arithmetic, comparisons, shifts, negation and casts: the text each instruction
    becomes, and what the emitter records as the expression of its result.  Every
    integer, of any width, is one [i64]. *)

From stdpp Require Import base list strings gmap.
From Stdlib Require Import ZArith String Ascii.
From S2P Require Import Prelude GoStd Typ IR Layout WasmControl.

#[local] Open Scope string_scope.
#[local] Open Scope list_scope.

(** Whether [s] is one of [l], as a [switch] on strings asks. *)
Definition oneOf (s : string) (l : list string) : bool := existsb (String.eqb s) l.

(** ** Types ([types.go]) *)

Definition isFloatType (typ : string) : bool := oneOf typ ["f32"; "f64"].

Definition isIntegerType (typ : string) : bool :=
  oneOf typ ["i8"; "i16"; "i32"; "i64"; "u8"; "u16"; "u32"; "u64"; "usize"; "isize"].

Definition isUnsignedIntegerType (typ : string) : bool := HasPrefix typ "u".

(** [integerBitWidth] *)
Definition integerBitWidth (typ : string) : option Z :=
  if oneOf typ ["i8"; "u8"] then Some 8%Z
  else if oneOf typ ["i16"; "u16"] then Some 16%Z
  else if oneOf typ ["i32"; "u32"] then Some 32%Z
  else if oneOf typ ["i64"; "u64"; "usize"; "isize"] then Some 64%Z
  else None.

(** [wasmType] *)
Definition wasmType (module : Module_) (typ : string) : string :=
  if isIntegerType typ || isNamedI64Type module typ then "i64"
  else if isFloatType typ then typ
  else if IsVector typ then "v128"
  else "i32".

(** ** The instruction for an operator *)

Definition wasmFloatBinaryOp (op typ : string) : string :=
  if String.eqb op "-" then typ +:+ ".sub"
  else if String.eqb op "*" then typ +:+ ".mul"
  else if String.eqb op "/" then typ +:+ ".div"
  else typ +:+ ".add".

(** [wasmVectorBinaryOp] of [vector.go] *)
Definition wasmVectorBinaryOp (op typ : string) : string :=
  if String.eqb op "-" then typ +:+ ".sub"
  else if String.eqb op "*" then typ +:+ ".mul"
  else if String.eqb op "/" then typ +:+ ".div"
  else typ +:+ ".add".

Definition wasmFloatCompareOp (op typ : string) : string :=
  if String.eqb op "!=" then typ +:+ ".ne"
  else if String.eqb op "<" then typ +:+ ".lt"
  else if String.eqb op "<=" then typ +:+ ".le"
  else if String.eqb op ">" then typ +:+ ".gt"
  else if String.eqb op ">=" then typ +:+ ".ge"
  else typ +:+ ".eq".

Definition wasmBinaryOp (op typ : string) : string :=
  if String.eqb op "+" then "i64.add"
  else if String.eqb op "-" then "i64.sub"
  else if String.eqb op "*" then "i64.mul"
  else if String.eqb op "/" then if isUnsignedIntegerType typ then "i64.div_u" else "i64.div_s"
  else if String.eqb op "%" then if isUnsignedIntegerType typ then "i64.rem_u" else "i64.rem_s"
  else if String.eqb op "&" then "i64.and"
  else if String.eqb op "|" then "i64.or"
  else if String.eqb op "^" then "i64.xor"
  else "i64.add".

Definition wasmCompareOp (op typ : string) : string :=
  let sign := if isUnsignedIntegerType typ then "_u" else "_s" in
  if String.eqb op "==" then "i64.eq"
  else if String.eqb op "!=" then "i64.ne"
  else if String.eqb op "<" then "i64.lt" +:+ sign
  else if String.eqb op "<=" then "i64.le" +:+ sign
  else if String.eqb op ">" then "i64.gt" +:+ sign
  else if String.eqb op ">=" then "i64.ge" +:+ sign
  else "i64.eq".

Definition wrapsResult (op : string) : bool := oneOf op ["+"; "-"; "*"; "<<"].

Definition narrowResult (typ expr : string) : string :=
  if String.eqb typ "u8" then "(i64.and " +:+ expr +:+ " (i64.const 255))"
  else if String.eqb typ "u16" then "(i64.and " +:+ expr +:+ " (i64.const 65535))"
  else if String.eqb typ "u32" then "(i64.and " +:+ expr +:+ " (i64.const 4294967295))"
  else if String.eqb typ "i8" then "(i64.extend8_s " +:+ expr +:+ ")"
  else if String.eqb typ "i16" then "(i64.extend16_s " +:+ expr +:+ ")"
  else if String.eqb typ "i32" then "(i64.extend32_s " +:+ expr +:+ ")"
  else expr.

(** ** Instructions ([control.go]) *)

Inductive EmitError : Type :=
  | ExpectsArgs (op : string) (count : nat)
  | ByteSliceOperator
  | AggregateResult (typ : string)
  | UnaryExpects (op : string)
  | UnsupportedUnary (op : string)
  | ShiftExpectsInteger (typ : string).

(** The text written, and the expressions recorded from then on. *)
Definition emitted : Type := result EmitError (string * gmap string string).

Section Emitter.
Context (module : Module_) (values : gmap string string).

(** A [local.set] of the result, read back from its local. *)
Definition setResult (result : Value) (expr : string) : emitted :=
  Ok ("            (local.set " +:+ symbolName (vName result) +:+ " " +:+ expr +:+ ")" +:+ String "010"%char "",
      <[vName result := "(local.get " +:+ symbolName (vName result) +:+ ")"]> values).

(** [writeScalarResult] of [slice.go] *)
Definition writeScalarResult (result : Value) (expr : string) : emitted :=
  if isMemoryType module (vType result) then Err (AggregateResult (vType result))
  else setResult result expr.

(** [addressAt] of [memory.go], the offset as it is printed. *)
Definition addressAt (base : string) (offset : Z) : string :=
  if (offset =? 0)%Z then base else "(i32.add " +:+ base +:+ " (i32.const " +:+ FormatInt offset +:+ "))".

(** [byteSliceParts] of [bytes.go] *)
Definition byteSliceParts (descriptor : string) : string * string :=
  ("(i32.load " +:+ descriptor +:+ ")", "(i32.load " +:+ addressAt descriptor 4 +:+ ")").

(** [writeByteEquality] of [bytes.go] *)
Definition writeByteEquality (i : Instr) (left right : Value) (op : string) : emitted :=
  if negb (String.eqb (vType (iResult i)) "bool") || negb (String.eqb (vType right) "[]u8") ||
     negb (oneOf op ["=="; "!="])
  then Err ByteSliceOperator
  else
    let '(leftPtr, leftLen) := byteSliceParts (valueExpr values left) in
    let '(rightPtr, rightLen) := byteSliceParts (valueExpr values right) in
    let expr := "(call $__bytes_equal " +:+ leftPtr +:+ " " +:+ leftLen +:+ " " +:+ rightPtr +:+ " " +:+ rightLen +:+ ")" in
    writeScalarResult (iResult i) (if String.eqb op "!=" then "(i32.eqz " +:+ expr +:+ ")" else expr).

(** [writeShift] *)
Definition writeShift (i : Instr) (op left right : string) : emitted :=
  let typ := vType (iResult i) in
  match integerBitWidth typ with
  | None => Err (ShiftExpectsInteger typ)
  | Some bits =>
      let inRange := "(i64.lt_u " +:+ right +:+ " (i64.const " +:+ FormatInt bits +:+ "))" in
      let '(shiftOp, past) :=
        if String.eqb op ">>" then
          if negb (isUnsignedIntegerType typ) then ("i64.shr_s", "(i64.shr_s " +:+ left +:+ " (i64.const 63))")
          else ("i64.shr_u", "(i64.const 0)")
        else ("i64.shl", "(i64.const 0)") in
      let expr := "(select (" +:+ shiftOp +:+ " " +:+ left +:+ " " +:+ right +:+ ") " +:+ past +:+ " " +:+ inRange +:+ ")" in
      setResult (iResult i) (if String.eqb op "<<" then narrowResult typ expr else expr)
  end.

(** The instruction [writeBinary] chooses. *)
Definition binaryInstruction (op resultType leftType : string) : string :=
  let wasmOp := wasmBinaryOp op resultType in
  let wasmOp := if isFloatType resultType then wasmFloatBinaryOp op resultType else wasmOp in
  let wasmOp := if IsVector resultType then wasmVectorBinaryOp op resultType else wasmOp in
  if String.eqb resultType "bool" then
    let wasmOp := wasmCompareOp op leftType in
    let wasmOp :=
      if String.eqb leftType "bool" then
        if String.eqb op "==" then "i32.eq" else if String.eqb op "!=" then "i32.ne" else wasmOp
      else wasmOp in
    if isFloatType leftType then wasmFloatCompareOp op leftType else wasmOp
  else wasmOp.

(** [writeBinary] *)
Definition writeBinary (i : Instr) : emitted :=
  match iArgs i with
  | [leftArg; rightArg] =>
      let op := TrimPrefix (iOp i) "binary." in
      if String.eqb (vType leftArg) "[]u8" then writeByteEquality i leftArg rightArg op
      else
        let left := valueExpr values leftArg in
        let right := valueExpr values rightArg in
        if oneOf op ["<<"; ">>"] then writeShift i op left right
        else
          let typ := vType (iResult i) in
          let expr := "(" +:+ binaryInstruction op typ (vType leftArg) +:+ " " +:+ left +:+ " " +:+ right +:+ ")" in
          setResult (iResult i) (if wrapsResult op && negb (isFloatType typ) then narrowResult typ expr else expr)
  | _ => Err (ExpectsArgs "binary" 2)
  end.

(** The expression of [writeUnary]. *)
Definition unaryExpr (op typ value : string) : result EmitError string :=
  if String.eqb op "!" then
    if String.eqb typ "bool" then Ok ("(i32.eqz " +:+ value +:+ ")") else Err (UnaryExpects op)
  else if String.eqb op "-" then
    if isFloatType typ || IsVector typ then Ok ("(" +:+ typ +:+ ".neg " +:+ value +:+ ")")
    else if isIntegerType typ then Ok (narrowResult typ ("(i64.sub (i64.const 0) " +:+ value +:+ ")"))
    else Err (UnaryExpects op)
  else if String.eqb op "~" then
    if isIntegerType typ then Ok (narrowResult typ ("(i64.xor " +:+ value +:+ " (i64.const -1))"))
    else Err (UnaryExpects op)
  else Err (UnsupportedUnary op).

(** [writeUnary] *)
Definition writeUnary (i : Instr) : emitted :=
  match iArgs i with
  | [arg] =>
      let* expr := unaryExpr (TrimPrefix (iOp i) "unary.") (vType (iResult i)) (valueExpr values arg) in
      setResult (iResult i) expr
  | _ => Err (ExpectsArgs "unary" 1)
  end.

(** The bounds of [clampToIntegerRange]. *)
Definition clampBounds (typ : string) : option (Z * Z) :=
  if String.eqb typ "i8" then Some (-128, 127)%Z
  else if String.eqb typ "i16" then Some (-32768, 32767)%Z
  else if String.eqb typ "i32" then Some (-2147483648, 2147483647)%Z
  else if String.eqb typ "u8" then Some (0, 255)%Z
  else if String.eqb typ "u16" then Some (0, 65535)%Z
  else if String.eqb typ "u32" then Some (0, 4294967295)%Z
  else None.

(** [clampToIntegerRange] *)
Definition clampToIntegerRange (typ value : string) : string :=
  match clampBounds typ with
  | None => value
  | Some (low, high) =>
      let clampedLow := "(select (i64.const " +:+ FormatInt low +:+ ") " +:+ value +:+ " (i64.lt_s " +:+ value +:+ " (i64.const " +:+ FormatInt low +:+ ")))" in
      "(select (i64.const " +:+ FormatInt high +:+ ") " +:+ clampedLow +:+ " (i64.gt_s " +:+ clampedLow +:+ " (i64.const " +:+ FormatInt high +:+ ")))"
  end.

(** [floatCastExpr] *)
Definition floatCastExpr (source target value : string) : string :=
  if String.eqb source target then value
  else if isFloatType source && isFloatType target then
    if String.eqb target "f32" then "(f32.demote_f64 " +:+ value +:+ ")" else "(f64.promote_f32 " +:+ value +:+ ")"
  else if isFloatType source then
    let sign := if isUnsignedIntegerType target then "_u" else "_s" in
    clampToIntegerRange target ("(i64.trunc_sat_" +:+ source +:+ sign +:+ " " +:+ value +:+ ")")
  else
    let sign := if isUnsignedIntegerType source then "_u" else "_s" in
    "(" +:+ target +:+ ".convert_i64" +:+ sign +:+ " " +:+ value +:+ ")".

(** [writeCast]: nothing is written, the result is an expression of the operand. *)
Definition writeCast (i : Instr) : result EmitError (gmap string string) :=
  match iArgs i with
  | [arg] =>
      let value := valueExpr values arg in
      let source := vType arg in
      let target := vType (iResult i) in
      if isFloatType source || isFloatType target
      then Ok (<[vName (iResult i) := floatCastExpr source target value]> values)
      else
        let sourceType := wasmType module source in
        let targetType := wasmType module target in
        let expr :=
          if String.eqb sourceType "i64" && String.eqb targetType "i32" then "(i32.wrap_i64 " +:+ value +:+ ")"
          else if String.eqb sourceType "i32" && String.eqb targetType "i64" then "(i64.extend_i32_u " +:+ value +:+ ")"
          else value in
        Ok (<[vName (iResult i) := expr]> values)
  | _ => Err (ExpectsArgs "cast" 1)
  end.
End Emitter.
