(* ===== verification/WasmScalarTheorems.v ===== *)
(** * What scalar instructions compute ([internal/wasm/types.go], [control.go])

    First what the text of an instruction computes, at the width the backend gives
    each type: 64 bits for [usize] and [isize].  Then the rules of [SPEC.md]: the
    widths it gives the types, 32 bits for [usize] and [isize] on this target, and
    what an operation is worth on mathematical integers; a result that does not
    leave those 32 bits is the same at either width. *)

From stdpp Require Import base list strings gmap.
From Stdlib Require Import ZArith Lia String Ascii.
From S2P Require Import Prelude GoStd Typ IR Verify Semantics Layout WasmControl WasmText WasmScalar.

#[local] Open Scope string_scope.
#[local] Open Scope Z_scope.
#[local] Open Scope list_scope.

(** ** What an [i64] holds *)

(** The range of [n] bits, unsigned or not. *)
Definition inBits (uns : bool) (n v : Z) : Prop :=
  if uns then 0 <= v < 2 ^ n else - 2 ^ (n - 1) <= v < 2 ^ (n - 1).

(** The remainder of the division by [2 ^ n], read in that range. *)
Definition wrapBits (uns : bool) (n z : Z) : Z :=
  let m := z mod 2 ^ n in
  if uns || (m <? 2 ^ (n - 1)) then m else m - 2 ^ n.

(** The width the backend works at. *)
Definition width (typ : string) : Z := default 64 (integerBitWidth typ).

Definition wrapTo (typ : string) (z : Z) : Z := wrapBits (isUnsignedIntegerType typ) (width typ) z.

(** The values of a scalar type; a [bool] is 0 or 1. *)
Definition inRange (typ : string) (v : Z) : Prop :=
  if String.eqb typ "bool" then v = 0 \/ v = 1
  else isIntegerType typ = true /\ inBits (isUnsignedIntegerType typ) (width typ) v.

Definition least (typ : string) : Z := - 2 ^ (width typ - 1).

(** Division by 0, of the least value by -1 and shifts by a negative amount are
    not defined. *)
Definition integerOp (op typ : string) (a b : Z) : option Z :=
  if String.eqb op "+" then Some (wrapTo typ (a + b))
  else if String.eqb op "-" then Some (wrapTo typ (a - b))
  else if String.eqb op "*" then Some (wrapTo typ (a * b))
  else if oneOf op ["/"; "%"] then
    if (b =? 0) || (negb (isUnsignedIntegerType typ) && (a =? least typ) && (b =? -1)) then None
    else Some (if String.eqb op "/" then Z.quot a b else Z.rem a b)
  else if String.eqb op "&" then Some (Z.land a b)
  else if String.eqb op "|" then Some (Z.lor a b)
  else if String.eqb op "^" then Some (Z.lxor a b)
  else if b <? 0 then None
  else if String.eqb op "<<" then Some (if width typ <=? b then 0 else wrapTo typ (a * 2 ^ b))
  else if String.eqb op ">>" then
    Some (if width typ <=? b then if a <? 0 then -1 else 0 else a / 2 ^ b)
  else None.

Definition compareOp (op : string) (a b : Z) : option bool :=
  if String.eqb op "==" then Some (a =? b)
  else if String.eqb op "!=" then Some (negb (a =? b))
  else if String.eqb op "<" then Some (a <? b)
  else if String.eqb op "<=" then Some (a <=? b)
  else if String.eqb op ">" then Some (b <? a)
  else if String.eqb op ">=" then Some (b <=? a)
  else None.

(** What an instruction on operands of one scalar type computes. *)
Definition binaryMeaning (op typ resultType : string) (a b : Z) : option Z :=
  if isIntegerType typ && String.eqb resultType typ then integerOp op typ a b
  else if (isIntegerType typ || (String.eqb typ "bool" && oneOf op ["=="; "!="])) && String.eqb resultType "bool"
  then Z.b2z <$> compareOp op a b
  else None.

Definition unaryMeaning (op typ resultType : string) (a : Z) : option Z :=
  if negb (String.eqb resultType typ) then None
  else if String.eqb typ "bool" then if String.eqb op "!" then Some (1 - a) else None
  else if isIntegerType typ then
    if String.eqb op "-" then Some (wrapTo typ (- a))
    else if String.eqb op "~" then Some (wrapTo typ (Z.lnot a))
    else None
  else None.

Definition scalarMeaning (i : Instr) (args : list Z) : option Z :=
  match iArgs i, args with
  | [x; y], [a; b] =>
      if HasPrefix (iOp i) "binary." && String.eqb (vType y) (vType x)
      then binaryMeaning (TrimPrefix (iOp i) "binary.") (vType x) (vType (iResult i)) a b else None
  | [x], [a] =>
      if HasPrefix (iOp i) "unary." then unaryMeaning (TrimPrefix (iOp i) "unary.") (vType x) (vType (iResult i)) a
      else None
  | _, _ => None
  end.

(** How a value is held. *)
Definition stored (typ : string) (v : Z) : wval := if String.eqb typ "bool" then I32 v else I64 (unsigned 64 v).

(** ** Integers modulo a power of two *)

Lemma signed_unsigned n v : 0 < n -> - 2 ^ (n - 1) <= v < 2 ^ (n - 1) -> signed n (unsigned n v) = v.
Proof.
  intros Hn Hv. unfold signed, unsigned. assert (Hp : 2 ^ n = 2 * 2 ^ (n - 1)).
  { rewrite <- Z.pow_succ_r by lia. f_equal. lia. }
  destruct (Z.le_gt_cases 0 v) as [H0|H0].
  - rewrite Z.mod_small by lia. rewrite (proj2 (Z.ltb_lt _ _)) by lia. reflexivity.
  - rewrite <- (Z.mod_add v 1) by lia. rewrite Z.mod_small by lia. rewrite (proj2 (Z.ltb_ge _ _)) by lia. lia.
Qed.

Lemma wrapBits_range uns n z : 0 < n -> inBits uns n (wrapBits uns n z).
Proof.
  intros Hn. unfold inBits, wrapBits. assert (Hp : 2 ^ n = 2 * 2 ^ (n - 1)).
  { rewrite <- Z.pow_succ_r by lia. f_equal. lia. }
  pose proof (Z.mod_pos_bound z (2 ^ n) ltac:(lia)). destruct uns; cbn [orb]; [lia|].
  destruct (Z.ltb_spec (z mod 2 ^ n) (2 ^ (n - 1))); lia.
Qed.

Lemma wrapBits_cong uns n z : exists k, wrapBits uns n z = z + k * 2 ^ n.
Proof.
  unfold wrapBits. pose proof (Z.mod_eq z (2 ^ n)) as H. destruct (Z.eq_dec (2 ^ n) 0) as [E|E].
  - rewrite E. exists 0. rewrite Z.mod_0_r. destruct (uns || _); lia.
  - destruct (uns || _); [exists (- (z / 2 ^ n)) | exists (- (z / 2 ^ n) - 1)]; rewrite H by exact E; lia.
Qed.

Lemma wrapBits_64 uns z : unsigned 64 (wrapBits uns 64 z) = unsigned 64 z.
Proof. destruct (wrapBits_cong uns 64 z) as [k ->]. unfold unsigned. apply Z.mod_add. lia. Qed.

Lemma mod_mod_pow n z : 0 <= n <= 64 -> unsigned 64 z mod 2 ^ n = z mod 2 ^ n.
Proof.
  intros Hn. unfold unsigned. replace (2 ^ 64) with (2 ^ n * 2 ^ (64 - n)) by (rewrite <- Z.pow_add_r by lia; f_equal; lia).
  rewrite Z.rem_mul_r by lia. rewrite Z.mul_comm, Z.mod_add by lia. apply Z.mod_mod. lia.
Qed.

Lemma unsigned_small uns n v : 0 < n <= 64 -> inBits uns n v -> 0 <= v -> unsigned 64 v = v.
Proof.
  intros Hn Hv H0. apply Z.mod_small. split; [exact H0|]. unfold inBits in Hv.
  assert (2 ^ n <= 2 ^ 64) by (apply Z.pow_le_mono_r; lia). assert (2 ^ (n - 1) <= 2 ^ 64) by (apply Z.pow_le_mono_r; lia).
  destruct uns; lia.
Qed.

Lemma signed_inBits n v : 0 < n <= 64 -> inBits false n v -> signed 64 (unsigned 64 v) = v.
Proof.
  intros Hn Hv. apply signed_unsigned; [lia|]. unfold inBits in Hv.
  assert (2 ^ (n - 1) <= 2 ^ (64 - 1)) by (apply Z.pow_le_mono_r; lia). lia.
Qed.

(** Equal values are held alike, unequal ones are not. *)
Lemma unsigned_inj uns n a b :
  0 < n <= 64 -> inBits uns n a -> inBits uns n b -> unsigned 64 a = unsigned 64 b -> a = b.
Proof.
  intros Hn Ha Hb H. destruct uns.
  - unfold inBits in Ha, Hb. rewrite (unsigned_small true n a), (unsigned_small true n b) in H; unfold inBits; auto; lia.
  - rewrite <- (signed_inBits n a), <- (signed_inBits n b) by assumption. f_equal. exact H.
Qed.

(** *** Bits *)

Lemma inBits_shiftr uns n v :
  0 < n -> inBits uns n v <-> (if uns then Z.shiftr v n = 0 else Z.shiftr v (n - 1) = 0 \/ Z.shiftr v (n - 1) = -1).
Proof.
  intros Hn. unfold inBits. rewrite !Z.shiftr_div_pow2 by lia.
  assert (Hp : forall m, 0 <= m -> 0 < 2 ^ m) by (intros; lia).
  destruct uns.
  - specialize (Hp n ltac:(lia)). split; [intros H; apply Z.div_small; lia|]. intros H.
    pose proof (Z.div_mod v (2 ^ n)). pose proof (Z.mod_pos_bound v (2 ^ n)). lia.
  - specialize (Hp (n - 1) ltac:(lia)). split.
    + intros H. destruct (Z.le_gt_cases 0 v); [left; apply Z.div_small; lia|]. right.
      symmetry. apply (Z.div_unique v (2 ^ (n - 1)) (-1) (v + 2 ^ (n - 1))); lia.
    + pose proof (Z.div_mod v (2 ^ (n - 1))). pose proof (Z.mod_pos_bound v (2 ^ (n - 1))). intros [E|E]; rewrite E in *; lia.
Qed.

Lemma land_inBits uns n a b : 0 < n -> inBits uns n a -> inBits uns n b -> inBits uns n (Z.land a b).
Proof.
  intros Hn. rewrite !inBits_shiftr by exact Hn. destruct uns; rewrite Z.shiftr_land.
  - intros -> ->. reflexivity.
  - intros [->| ->] [->| ->]; auto.
Qed.

Lemma lor_inBits uns n a b : 0 < n -> inBits uns n a -> inBits uns n b -> inBits uns n (Z.lor a b).
Proof.
  intros Hn. rewrite !inBits_shiftr by exact Hn. destruct uns; rewrite Z.shiftr_lor.
  - intros -> ->. reflexivity.
  - intros [->| ->] [->| ->]; auto.
Qed.

Lemma lxor_inBits uns n a b : 0 < n -> inBits uns n a -> inBits uns n b -> inBits uns n (Z.lxor a b).
Proof.
  intros Hn. rewrite !inBits_shiftr by exact Hn. destruct uns; rewrite Z.shiftr_lxor.
  - intros -> ->. reflexivity.
  - intros [->| ->] [->| ->]; auto.
Qed.

Ltac bitwise :=
  unfold unsigned; rewrite <- !Z.land_ones by lia; apply Z.bits_inj'; intros k Hk;
  rewrite ?Z.land_spec, ?Z.lor_spec, ?Z.lxor_spec, ?Z.land_spec, ?Z.lor_spec, ?Z.lxor_spec;
  repeat match goal with |- context [Z.testbit ?x ?y] => destruct (Z.testbit x y) end; reflexivity.

Lemma land_unsigned a b : Z.land (unsigned 64 a) (unsigned 64 b) = unsigned 64 (Z.land a b).
Proof. bitwise. Qed.
Lemma lor_unsigned a b : Z.lor (unsigned 64 a) (unsigned 64 b) = unsigned 64 (Z.lor a b).
Proof. bitwise. Qed.
Lemma lxor_unsigned a b : Z.lxor (unsigned 64 a) (unsigned 64 b) = unsigned 64 (Z.lxor a b).
Proof. bitwise. Qed.

(** *** Types *)

Lemma oneOf_elem s l : oneOf s l = true <-> s ∈ l.
Proof.
  unfold oneOf. rewrite existsb_exists. setoid_rewrite <- list_elem_of_In. split.
  - intros (x & Hx & He). apply String.eqb_eq in He. subst. exact Hx.
  - intros H. exists s. split; [exact H | apply String.eqb_refl].
Qed.

(** [integer_cases H] goes through the integer types. *)
Ltac integer_cases H :=
  let E := fresh "Hty" in
  pose proof (proj1 (oneOf_elem _ _) H) as E;
  repeat (apply elem_of_cons in E as [->|E]); [.. | inversion E].

Lemma width_bound typ : isIntegerType typ = true -> 0 < width typ <= 64.
Proof. intros H. integer_cases H; vm_compute; split; (reflexivity || discriminate). Qed.

Lemma integer_not_bool typ : isIntegerType typ = true -> String.eqb typ "bool" = false.
Proof. intros H. integer_cases H; reflexivity. Qed.

Lemma integer_inRange typ v :
  isIntegerType typ = true -> inRange typ v <-> inBits (isUnsignedIntegerType typ) (width typ) v.
Proof. intros H. unfold inRange. rewrite (integer_not_bool typ H). tauto. Qed.

Lemma integer_stored typ v : isIntegerType typ = true -> stored typ v = I64 (unsigned 64 v).
Proof. intros H. unfold stored. rewrite (integer_not_bool typ H). reflexivity. Qed.

Lemma wrapTo_range typ z : isIntegerType typ = true -> inRange typ (wrapTo typ z).
Proof. intros H. apply integer_inRange; [exact H|]. apply wrapBits_range. apply width_bound, H. Qed.

(** ** Expressions as trees *)

Definition node (op : string) (ts : list sexp) : sexp := Node (Atom op :: ts).
Definition const (digits : string) : sexp := node "i64.const" [Atom digits].

Section Trees.
Context (ρ : gmap string wval).

Lemma eval_node op ts vs :
  immediate op = false -> map_ok (eval ρ) ts = Ok vs -> eval ρ (node op ts) = applyOp op vs.
Proof. intros H Hv. unfold node. cbn [eval]. rewrite H, Hv. reflexivity. Qed.

Lemma eval_node1 op t v : immediate op = false -> eval ρ t = Ok v -> eval ρ (node op [t]) = applyOp op [v].
Proof. intros H Hv. apply eval_node; [exact H|]. cbn [map_ok]. rewrite Hv. reflexivity. Qed.

Lemma eval_node2 op t1 t2 v1 v2 :
  immediate op = false -> eval ρ t1 = Ok v1 -> eval ρ t2 = Ok v2 -> eval ρ (node op [t1; t2]) = applyOp op [v1; v2].
Proof. intros H H1 H2. apply eval_node; [exact H|]. cbn [map_ok]. rewrite H1, H2. reflexivity. Qed.

Lemma eval_node3 op t1 t2 t3 v1 v2 v3 :
  immediate op = false -> eval ρ t1 = Ok v1 -> eval ρ t2 = Ok v2 -> eval ρ t3 = Ok v3 ->
  eval ρ (node op [t1; t2; t3]) = applyOp op [v1; v2; v3].
Proof. intros H H1 H2 H3. apply eval_node; [exact H|]. cbn [map_ok]. rewrite H1, H2, H3. reflexivity. Qed.
End Trees.

(** A tree spelled as [e]. *)
Definition spells (e : string) (t : sexp) : Prop := e = print t /\ wellSpelled t = true /\ isNode t = true.

(** [spell] proves that a text built from texts of trees is the text of a tree. *)
Ltac spell :=
  repeat match goal with H : spells _ _ |- _ => destruct H as (-> & ? & _) end;
  split; [unfold const, node; cbn [print map join]; rewrite ?sapp_assoc; reflexivity
         | split; [|reflexivity]; unfold const, node; cbn [wellSpelled forallb];
           repeat match goal with |- _ && _ = true => apply andb_true_iff; split end; try assumption; reflexivity].

(** *** Narrowing *)

Definition narrowTree (typ : string) (t : sexp) : sexp :=
  if String.eqb typ "u8" then node "i64.and" [t; const "255"]
  else if String.eqb typ "u16" then node "i64.and" [t; const "65535"]
  else if String.eqb typ "u32" then node "i64.and" [t; const "4294967295"]
  else if String.eqb typ "i8" then node "i64.extend8_s" [t]
  else if String.eqb typ "i16" then node "i64.extend16_s" [t]
  else if String.eqb typ "i32" then node "i64.extend32_s" [t]
  else t.

Lemma narrow_spells typ e t : spells e t -> spells (narrowResult typ e) (narrowTree typ t).
Proof. intros H. unfold narrowResult, narrowTree. repeat (destruct (String.eqb typ _); [spell|]). exact H. Qed.

Lemma mask_wraps n z : 0 < n <= 64 -> Z.land (unsigned 64 z) (Z.ones n) = unsigned 64 (wrapBits true n z).
Proof.
  intros Hn. rewrite Z.land_ones, mod_mod_pow by lia. unfold wrapBits. cbn [orb].
  symmetry. apply Z.mod_small. pose proof (Z.mod_pos_bound z (2 ^ n)).
  assert (2 ^ n <= 2 ^ 64) by (apply Z.pow_le_mono_r; lia). lia.
Qed.

Lemma extend_wraps n z : 0 < n <= 64 -> signed n (unsigned n (unsigned 64 z)) = wrapBits false n z.
Proof. intros Hn. unfold unsigned at 1. rewrite mod_mod_pow by lia. reflexivity. Qed.

(** What a width does to a result held in an [i64]. *)
Lemma narrow_eval ρ typ t z :
  isIntegerType typ = true -> eval ρ t = Ok (I64 (unsigned 64 z)) ->
  eval ρ (narrowTree typ t) = Ok (stored typ (wrapTo typ z)).
Proof.
  intros Hty Ht. rewrite integer_stored by exact Hty. integer_cases Hty;
    match goal with |- context [narrowTree ?T t] => let n := eval vm_compute in (narrowTree T t) in change (narrowTree T t) with n end;
    unfold wrapTo; cbn [isUnsignedIntegerType];
    match goal with |- context [wrapBits ?u ?w z] =>
      let u' := eval vm_compute in u in let w' := eval vm_compute in w in change u with u'; change w with w' end;
    try (rewrite wrapBits_64; exact Ht);
    try (rewrite <- extend_wraps by lia;
         match goal with |- eval _ (Node [Atom ?op; t]) = _ => apply (eval_node1 ρ op t _ eq_refl Ht) end);
    rewrite <- mask_wraps by lia;
    match goal with |- eval _ (Node [Atom ?op; t; ?c]) = _ =>
      etransitivity; [apply (eval_node2 ρ op t c _ _ eq_refl Ht eq_refl) | reflexivity] end.
Qed.

(** *** Division *)

Lemma quot_abs_le a b : b <> 0 -> Z.abs (Z.quot a b) <= Z.abs a /\ (2 <= Z.abs b -> 2 * Z.abs (Z.quot a b) <= Z.abs a).
Proof.
  intros Hb. rewrite <- Z.quot_abs by exact Hb. rewrite Z.quot_div_nonneg by lia.
  pose proof (Z.div_mod (Z.abs a) (Z.abs b) ltac:(lia)). pose proof (Z.mod_pos_bound (Z.abs a) (Z.abs b) ltac:(lia)).
  assert (0 <= Z.abs a / Z.abs b) by (apply Z.div_pos; lia). split; [nia|]. intros Hb2. nia.
Qed.

Lemma quot_inBits uns n a b :
  0 < n -> inBits uns n a -> inBits uns n b -> b <> 0 -> (uns || negb (a =? - 2 ^ (n - 1)) || negb (b =? -1)) = true ->
  inBits uns n (Z.quot a b).
Proof.
  intros Hn Ha Hb Hb0 Hd. destruct (quot_abs_le a b Hb0) as [H1 H2]. unfold inBits in *. destruct uns.
  - rewrite Z.quot_div_nonneg in * by lia. assert (0 <= a / b) by (apply Z.div_pos; lia). lia.
  - cbn [orb] in Hd. destruct (Z.eqb_spec a (- 2 ^ (n - 1))) as [E|E]; destruct (Z.eqb_spec b (-1)) as [E'|E']; cbn [negb orb] in Hd; [discriminate|..].
    + destruct (Z.eq_dec b 1) as [->|]; [rewrite Z.quot_1_r; lia|]. specialize (H2 ltac:(lia)). lia.
    + lia.
    + destruct (Z.eq_dec b 1) as [->|]; [rewrite Z.quot_1_r; lia|]. specialize (H2 ltac:(lia)). lia.
Qed.

Lemma rem_inBits uns n a b : 0 < n -> inBits uns n a -> b <> 0 -> inBits uns n (Z.rem a b).
Proof.
  intros Hn Ha Hb0. pose proof (quot_abs_le a b Hb0) as [H1 _]. unfold inBits in *.
  pose proof (Z.quot_rem' a b). pose proof (Z.rem_sign_mul a b Hb0).
  assert (Z.abs (Z.rem a b) <= Z.abs a); [|destruct uns; nia].
  rewrite <- Z.rem_abs by exact Hb0. rewrite Z.rem_mod_nonneg by lia. apply Z.mod_le; lia.
Qed.

Lemma unsigned_zero uns n b : 0 < n <= 64 -> inBits uns n b -> (unsigned 64 b =? 0) = (b =? 0).
Proof.
  intros Hn Hb. apply eq_true_iff_eq. rewrite !Z.eqb_eq. split; [|intros ->; reflexivity].
  intros H. apply (unsigned_inj uns n); [exact Hn | exact Hb | | exact H].
  unfold inBits. destruct uns; split; lia.
Qed.

(** ** Binary instructions *)

Section Binary.
Context (typ : string) (a b : Z).
Context (Hty : isIntegerType typ = true) (Ha : inRange typ a) (Hb : inRange typ b).

Abbreviation uns := (isUnsignedIntegerType typ).

#[local] Lemma a_bits : inBits uns (width typ) a.
Proof. apply integer_inRange; assumption. Qed.
#[local] Lemma b_bits : inBits uns (width typ) b.
Proof. apply integer_inRange; assumption. Qed.
#[local] Lemma width_typ : 0 < width typ <= 64.
Proof. apply width_bound, Hty. Qed.

(** The bits of the operands determine them. *)
Lemma signed_operand v : uns = false -> inBits uns (width typ) v -> signed 64 (unsigned 64 v) = v.
Proof. intros Hu Hv. rewrite Hu in Hv. apply (signed_inBits (width typ)); [exact width_typ | exact Hv]. Qed.

Lemma unsigned_operand v : uns = true -> inBits uns (width typ) v -> unsigned 64 v = v.
Proof.
  intros Hu Hv. apply (unsigned_small uns (width typ)); [exact width_typ | exact Hv|].
  rewrite Hu in Hv. unfold inBits in Hv. lia.
Qed.

Lemma divides_runs :
  b <> 0 -> negb uns && (a =? least typ) && (b =? -1) = false ->
  applyOp (if uns then "i64.div_u" else "i64.div_s") [I64 (unsigned 64 a); I64 (unsigned 64 b)] = Ok (I64 (unsigned 64 (Z.quot a b))) /\
  applyOp (if uns then "i64.rem_u" else "i64.rem_s") [I64 (unsigned 64 a); I64 (unsigned 64 b)] = Ok (I64 (unsigned 64 (Z.rem a b))).
Proof.
  intros Hb0 Hd. pose proof a_bits as A. pose proof b_bits as B. pose proof width_typ as W.
  pose proof (unsigned_zero uns _ b W B) as Hz. rewrite (proj2 (Z.eqb_neq b 0) Hb0) in Hz.
  assert (Hq : inBits uns (width typ) (Z.quot a b)).
  { apply quot_inBits; try assumption; [lia|]. unfold least in Hd. destruct uns, (a =? _), (b =? _); cbn in *; congruence. }
  assert (Hr : inBits uns (width typ) (Z.rem a b)) by (apply rem_inBits; try assumption; lia).
  pose proof (signed_operand) as S. pose proof (unsigned_operand) as U.
  destruct uns eqn:Hu; cbn [applyOp i64Comparison i64Arithmetic String.eqb Ascii.eqb Bool.eqb]; cbv zeta; rewrite Hz.
  - rewrite !U by (reflexivity || assumption). unfold inBits in A, B.
    rewrite <- Z.quot_div_nonneg, <- Z.rem_mod_nonneg by lia. auto.
  - rewrite !S by (reflexivity || assumption). cbn [orb]. split; [|reflexivity].
    destruct (Z.eqb_spec a (- 2 ^ 63)) as [E|E]; [|reflexivity]. destruct (Z.eqb_spec b (-1)) as [E'|E']; [|reflexivity].
    exfalso. cbn [negb andb] in Hd. apply andb_false_iff in Hd. rewrite !Z.eqb_neq in Hd. unfold least, inBits in *.
    assert (2 ^ (width typ - 1) <= 2 ^ 63) by (apply Z.pow_le_mono_r; lia). lia.
Qed.

#[local] Ltac wraps z :=
  intros; match goal with H : Some _ = Some _ |- _ => injection H as <- end;
  exists z; split; [|split; [reflexivity | apply wrapTo_range, Hty]];
  cbn [applyOp i64Comparison i64Arithmetic String.eqb Ascii.eqb Bool.eqb]; unfold unsigned.

Lemma binary_applies op r :
  oneOf op ["<<"; ">>"] = false -> integerOp op typ a b = Some r ->
  exists z, applyOp (wasmBinaryOp op typ) [I64 (unsigned 64 a); I64 (unsigned 64 b)] = Ok (I64 (unsigned 64 z)) /\
    r = (if wrapsResult op then wrapTo typ z else z) /\ inRange typ r.
Proof.
  intros Hop H. pose proof a_bits as A. pose proof b_bits as B. pose proof width_typ as W.
  unfold integerOp in H. unfold wasmBinaryOp.
  destruct (String.eqb_spec op "+") as [->|_]; [wraps (a + b); rewrite <- Z.add_mod by lia; reflexivity|].
  destruct (String.eqb_spec op "-") as [->|_]; [wraps (a - b); rewrite <- Zminus_mod; reflexivity|].
  destruct (String.eqb_spec op "*") as [->|_]; [wraps (a * b); rewrite <- Z.mul_mod by lia; reflexivity|].
  destruct (oneOf op ["/"; "%"]) eqn:Hdiv.
  { destruct (Z.eqb_spec b 0) as [->|Hb0]; [discriminate|]. cbn [orb] in H.
    destruct (negb uns && (a =? least typ) && (b =? -1)) eqn:Hd; [discriminate|]. injection H as <-.
    destruct (divides_runs Hb0 Hd) as [Hq Hr].
    apply oneOf_elem in Hdiv. apply elem_of_cons in Hdiv as [->|Hdiv]; [|apply list_elem_of_singleton in Hdiv as ->].
    - exists (Z.quot a b). split; [exact Hq|]. split; [reflexivity|]. apply integer_inRange; [exact Hty|].
      apply quot_inBits; try assumption; [lia|]. unfold least in Hd. destruct uns, (a =? _), (b =? _); cbn in *; congruence.
    - exists (Z.rem a b). split; [exact Hr|]. split; [reflexivity|]. apply integer_inRange; [exact Hty|].
      apply rem_inBits; try assumption; lia. }
  cbn [oneOf existsb] in Hdiv. rewrite orb_false_r, orb_false_iff in Hdiv. destruct Hdiv as [-> ->].
  destruct (String.eqb_spec op "&") as [->|_].
  { injection H as <-. exists (Z.land a b). rewrite <- land_unsigned. split; [reflexivity|]. split; [reflexivity|].
    apply integer_inRange, land_inBits; auto; lia. }
  destruct (String.eqb_spec op "|") as [->|_].
  { injection H as <-. exists (Z.lor a b). rewrite <- lor_unsigned. split; [reflexivity|]. split; [reflexivity|].
    apply integer_inRange, lor_inBits; auto; lia. }
  destruct (String.eqb_spec op "^") as [->|_].
  { injection H as <-. exists (Z.lxor a b). rewrite <- lxor_unsigned. split; [reflexivity|]. split; [reflexivity|].
    apply integer_inRange, lxor_inBits; auto; lia. }
  exfalso. cbn [oneOf existsb] in Hop. rewrite orb_false_r, orb_false_iff in Hop. destruct Hop as [H1 H2].
  rewrite H1, H2 in H. destruct (b <? 0); discriminate.
Qed.

(** Ordering reads the sign of the type. *)
Lemma order_applies :
  applyOp (if uns then "i64.lt_u" else "i64.lt_s") [I64 (unsigned 64 a); I64 (unsigned 64 b)] = Ok (truth32 (a <? b)) /\
  applyOp (if uns then "i64.le_u" else "i64.le_s") [I64 (unsigned 64 a); I64 (unsigned 64 b)] = Ok (truth32 (a <=? b)) /\
  applyOp (if uns then "i64.gt_u" else "i64.gt_s") [I64 (unsigned 64 a); I64 (unsigned 64 b)] = Ok (truth32 (b <? a)) /\
  applyOp (if uns then "i64.ge_u" else "i64.ge_s") [I64 (unsigned 64 a); I64 (unsigned 64 b)] = Ok (truth32 (b <=? a)).
Proof.
  pose proof a_bits as A. pose proof b_bits as B. pose proof signed_operand as S. pose proof unsigned_operand as U.
  destruct uns eqn:Hu; cbn [applyOp i64Comparison String.eqb Ascii.eqb Bool.eqb]; cbv zeta.
  - rewrite !U by (reflexivity || assumption). auto.
  - rewrite !S by (reflexivity || assumption). auto.
Qed.

Lemma equal_applies :
  applyOp "i64.eq" [I64 (unsigned 64 a); I64 (unsigned 64 b)] = Ok (truth32 (a =? b)) /\
  applyOp "i64.ne" [I64 (unsigned 64 a); I64 (unsigned 64 b)] = Ok (truth32 (negb (a =? b))).
Proof.
  pose proof a_bits as A. pose proof b_bits as B. pose proof width_typ as W.
  assert (E : (unsigned 64 a =? unsigned 64 b) = (a =? b)).
  { apply eq_true_iff_eq. rewrite !Z.eqb_eq. split; [apply (unsigned_inj uns (width typ)); assumption | congruence]. }
  cbn [applyOp i64Comparison String.eqb Ascii.eqb Bool.eqb]. rewrite E. auto.
Qed.

Lemma compare_applies op c :
  compareOp op a b = Some c ->
  applyOp (wasmCompareOp op typ) [I64 (unsigned 64 a); I64 (unsigned 64 b)] = Ok (truth32 c).
Proof.
  destruct order_applies as (H1 & H2 & H3 & H4). destruct equal_applies as (H5 & H6).
  unfold compareOp, wasmCompareOp. cbv zeta.
  repeat (destruct (String.eqb op _); [intros [= <-]; destruct uns; assumption|]). discriminate.
Qed.
End Binary.

(** ** Shifts *)

Definition shiftTree (op typ : string) (left right : sexp) : sexp :=
  let '(shiftOp, past) :=
    if String.eqb op ">>" then
      if negb (isUnsignedIntegerType typ) then ("i64.shr_s", node "i64.shr_s" [left; const "63"])
      else ("i64.shr_u", const "0")
    else ("i64.shl", const "0") in
  let shifted := node "select" [node shiftOp [left; right]; past; node "i64.lt_u" [right; const (FormatInt (width typ))]] in
  if String.eqb op "<<" then narrowTree typ shifted else shifted.

Lemma width_spelled typ :
  isIntegerType typ = true ->
  integerBitWidth typ = Some (width typ) /\ isAtom (FormatInt (width typ)) = true /\
  forall ρ, eval ρ (const (FormatInt (width typ))) = Ok (I64 (width typ)).
Proof. intros H. integer_cases H; (split; [|split]); reflexivity. Qed.

Section Shift.
Context (ρ : gmap string wval) (typ : string) (a b : Z) (left right : sexp).
Context (Hty : isIntegerType typ = true) (Ha : inRange typ a) (Hb : inRange typ b) (Hpos : 0 <= b).
Context (Hl : eval ρ left = Ok (I64 (unsigned 64 a))) (Hr : eval ρ right = Ok (I64 (unsigned 64 b))).

#[local] Lemma amount_unsigned : unsigned 64 b = b.
Proof.
  apply (unsigned_small (isUnsignedIntegerType typ) (width typ)); [apply width_bound, Hty | apply integer_inRange; assumption | exact Hpos].
Qed.

#[local] Lemma amount_count : b < width typ -> unsigned 6 (unsigned 64 b) = b.
Proof. intros H. rewrite amount_unsigned. apply Z.mod_small. pose proof (width_bound typ Hty). lia. Qed.

(** The shift inside the width, what is past it otherwise. *)
Lemma select_shift shiftOp past p z :
  immediate shiftOp = false -> eval ρ past = Ok (I64 p) ->
  applyOp shiftOp [I64 (unsigned 64 a); I64 (unsigned 64 b)] = Ok (I64 z) ->
  eval ρ (node "select" [node shiftOp [left; right]; past; node "i64.lt_u" [right; const (FormatInt (width typ))]]) =
  Ok (I64 (if width typ <=? b then p else z)).
Proof.
  intros Hi Hp Hz. destruct (width_spelled typ Hty) as (_ & _ & Hw).
  erewrite eval_node3; [| reflexivity | rewrite (eval_node2 ρ shiftOp left right _ _ Hi Hl Hr); exact Hz | exact Hp
    | rewrite (eval_node2 ρ "i64.lt_u" right _ _ _ eq_refl Hr (Hw ρ)); reflexivity].
  rewrite amount_unsigned. cbn [applyOp]. destruct (Z.ltb_spec b (width typ)), (Z.leb_spec (width typ) b); try lia; reflexivity.
Qed.

Lemma shift_left r :
  integerOp "<<" typ a b = Some r -> eval ρ (shiftTree "<<" typ left right) = Ok (stored typ r) /\ inRange typ r.
Proof.
  intros H. unfold integerOp in H. cbn [String.eqb Ascii.eqb Bool.eqb oneOf existsb orb] in H.
  rewrite (proj2 (Z.ltb_ge b 0) Hpos) in H. injection H as <-. unfold shiftTree. pose proof (width_bound typ Hty) as W.
  cbn [String.eqb Ascii.eqb Bool.eqb].
  pose proof (select_shift "i64.shl" (const "0") 0 (unsigned 64 (Z.shiftl (unsigned 64 a) (unsigned 6 (unsigned 64 b)))) eq_refl eq_refl eq_refl) as E.
  destruct (Z.leb_spec (width typ) b) as [Hw|Hw].
  - assert (E0 : 0 = wrapTo typ 0) by (unfold wrapTo, wrapBits; rewrite Z.mod_0_l by lia; destruct (_ || _) eqn:E0; [reflexivity|];
      apply orb_false_iff in E0 as [_ E0]; apply Z.ltb_ge in E0; lia).
    rewrite E0 at 1 2. split; [|apply wrapTo_range, Hty]. apply narrow_eval; [exact Hty | exact E].
  - split; [|apply wrapTo_range, Hty]. apply narrow_eval; [exact Hty|]. rewrite E, amount_count by exact Hw.
    unfold unsigned. rewrite Z.shiftl_mul_pow2 by exact Hpos. rewrite Z.mul_mod_idemp_l by lia. reflexivity.
Qed.

Lemma shiftr_inBits uns n : 0 < n -> inBits uns n a -> inBits uns n (a / 2 ^ b).
Proof.
  intros Hn. unfold inBits. assert (0 < 2 ^ b) by lia. assert (0 < 2 ^ (n - 1)) by lia.
  pose proof (Z.div_mod a (2 ^ b) ltac:(lia)). pose proof (Z.mod_pos_bound a (2 ^ b) ltac:(lia)). destruct uns; nia.
Qed.

Lemma shift_right r :
  integerOp ">>" typ a b = Some r -> eval ρ (shiftTree ">>" typ left right) = Ok (stored typ r) /\ inRange typ r.
Proof.
  intros H. unfold integerOp in H. cbn [String.eqb Ascii.eqb Bool.eqb oneOf existsb orb] in H.
  rewrite (proj2 (Z.ltb_ge b 0) Hpos) in H. injection H as <-. unfold shiftTree. cbn [String.eqb Ascii.eqb Bool.eqb].
  pose proof (width_bound typ Hty) as W. pose proof (proj1 (integer_inRange typ a Hty) Ha) as A.
  rewrite integer_stored, integer_inRange by exact Hty.
  destruct (isUnsignedIntegerType typ) eqn:Hu; cbn [negb].
  - rewrite (select_shift "i64.shr_u" (const "0") 0 (Z.shiftr (unsigned 64 a) (unsigned 6 (unsigned 64 b))) eq_refl eq_refl eq_refl).
    rewrite (unsigned_small true (width typ) a W A) by (unfold inBits in A; lia).
    unfold inBits in A. rewrite (proj2 (Z.ltb_ge a 0)) by lia.
    destruct (Z.leb_spec (width typ) b) as [Hw|Hw]; [split; [reflexivity | unfold inBits; lia]|].
    rewrite amount_count, Z.shiftr_div_pow2 by lia. pose proof (shiftr_inBits true (width typ) ltac:(lia) A) as R.
    rewrite (unsigned_small true (width typ) (a / 2 ^ b) W R) by (unfold inBits in R; lia). auto.
  - assert (S : signed 64 (unsigned 64 a) = a) by (apply (signed_inBits (width typ)); assumption).
    rewrite (select_shift "i64.shr_s" (node "i64.shr_s" [left; const "63"]) (unsigned 64 (Z.shiftr (signed 64 (unsigned 64 a)) 63)) (unsigned 64 (Z.shiftr (signed 64 (unsigned 64 a)) (unsigned 6 (unsigned 64 b)))) eq_refl);
      [| apply (eval_node2 ρ "i64.shr_s" left (const "63") _ _ eq_refl Hl eq_refl) | reflexivity].
    rewrite S. destruct (Z.leb_spec (width typ) b) as [Hw|Hw].
    + assert (E : Z.shiftr a 63 = if a <? 0 then -1 else 0).
      { rewrite Z.shiftr_div_pow2 by lia. unfold inBits in A. assert (2 ^ (width typ - 1) <= 2 ^ 63) by (apply Z.pow_le_mono_r; lia).
        destruct (Z.ltb_spec a 0); [symmetry; apply (Z.div_unique a (2 ^ 63) (-1) (a + 2 ^ 63)); lia | apply Z.div_small; lia]. }
      rewrite E. split; [reflexivity|]. assert (0 < 2 ^ (width typ - 1)) by lia. unfold inBits. destruct (a <? 0); lia.
    + rewrite amount_count, Z.shiftr_div_pow2 by lia. split; [reflexivity | apply shiftr_inBits; [lia | exact A]].
Qed.
End Shift.

(** ** Instructions *)

(** The value [v] is recorded as an expression that is [a] now. *)
Definition held64 (values : gmap string string) (ρ : gmap string wval) (v : Value) (a : Z) : Prop :=
  oneExpression (valueExpr values v) = true /\ evalText ρ (valueExpr values v) = Ok (stored (vType v) a) /\
  inRange (vType v) a.

(** The writer of an operator, chosen as [writeInstr] does. *)
Definition writeScalar (module : Module_) (values : gmap string string) (i : Instr) : emitted :=
  if HasPrefix (iOp i) "unary." then writeUnary values i else writeBinary module values i.

(** A text that is the expression of a value. *)
Definition computes (ρ : gmap string wval) (typ e : string) (r : Z) : Prop :=
  exists t, spells e t /\ eval ρ t = Ok (stored typ r) /\ inRange typ r.

Lemma held64_tree values ρ v a :
  held64 values ρ v a -> exists t, spells (valueExpr values v) t /\ eval ρ t = Ok (stored (vType v) a).
Proof.
  intros (H1 & H2 & _). destruct (oneExpression_print _ H1) as (t & E & Hw & Hn). exists t.
  split; [split; auto|]. rewrite E, evalText_print in H2 by exact Hw. exact H2.
Qed.

Lemma b2z_stored c : truth32 c = stored "bool" (Z.b2z c) /\ inRange "bool" (Z.b2z c).
Proof. destruct c; split; (reflexivity || (cbn; auto)). Qed.

Lemma integer_binaryInstruction op typ : isIntegerType typ = true ->
  binaryInstruction op typ typ = wasmBinaryOp op typ /\ binaryInstruction op "bool" typ = wasmCompareOp op typ /\
  isFloatType typ = false /\ String.eqb typ "[]u8" = false.
Proof.
  intros H. unfold binaryInstruction. rewrite (integer_not_bool typ H). cbv zeta.
  integer_cases H; cbn [String.eqb Ascii.eqb Bool.eqb]; (split; [|split; [|split]]); reflexivity.
Qed.

Lemma wasmBinaryOp_atom op typ : immediate (wasmBinaryOp op typ) = false /\ isAtom (wasmBinaryOp op typ) = true.
Proof.
  unfold wasmBinaryOp. repeat (destruct (String.eqb op _); [destruct (isUnsignedIntegerType typ); split; reflexivity|]).
  split; reflexivity.
Qed.

Lemma wasmCompareOp_atom op typ : immediate (wasmCompareOp op typ) = false /\ isAtom (wasmCompareOp op typ) = true.
Proof.
  unfold wasmCompareOp. cbv zeta.
  repeat (destruct (String.eqb op _); [destruct (isUnsignedIntegerType typ); split; reflexivity|]). split; reflexivity.
Qed.

(** An instruction of two operands. *)
Lemma node2_spells op e1 e2 t1 t2 :
  isAtom op = true -> spells e1 t1 -> spells e2 t2 ->
  spells ("(" +:+ op +:+ " " +:+ e1 +:+ " " +:+ e2 +:+ ")") (node op [t1; t2]).
Proof. intros. spell. Qed.

Section Operands.
Context (ρ : gmap string wval) (typ left right : string) (a b : Z) (tl tr : sexp).
Context (Sl : spells left tl) (Sr : spells right tr).
Context (El : eval ρ tl = Ok (stored typ a)) (Er : eval ρ tr = Ok (stored typ b)).
Context (Ha : inRange typ a) (Hb : inRange typ b).

Lemma shift_spells op : isIntegerType typ = true -> oneOf op ["<<"; ">>"] = true ->
  exists e, spells e (shiftTree op typ tl tr) /\
    forall values i, vType (iResult i) = typ -> writeShift values i op left right = setResult values (iResult i) e.
Proof.
  intros Hty Hop. destruct (width_spelled typ Hty) as (Hw & Hatom & _). eexists. split; cycle 1.
  - intros values i Hi. unfold writeShift. rewrite Hi, Hw. cbv zeta.
    instantiate (1 := let '(shiftOp, past) := if String.eqb op ">>" then if negb (isUnsignedIntegerType typ)
      then ("i64.shr_s", "(i64.shr_s " +:+ left +:+ " (i64.const 63))") else ("i64.shr_u", "(i64.const 0)") else ("i64.shl", "(i64.const 0)") in
      if String.eqb op "<<" then narrowResult typ ("(select (" +:+ shiftOp +:+ " " +:+ left +:+ " " +:+ right +:+ ") " +:+ past +:+ " " +:+
        ("(i64.lt_u " +:+ right +:+ " (i64.const " +:+ FormatInt (width typ) +:+ "))") +:+ ")")
      else "(select (" +:+ shiftOp +:+ " " +:+ left +:+ " " +:+ right +:+ ") " +:+ past +:+ " " +:+
        ("(i64.lt_u " +:+ right +:+ " (i64.const " +:+ FormatInt (width typ) +:+ "))") +:+ ")").
    destruct (String.eqb op ">>"), (negb (isUnsignedIntegerType typ)); reflexivity.
  - unfold shiftTree. apply oneOf_elem in Hop. repeat (apply elem_of_cons in Hop as [->|Hop]); [.. | inversion Hop];
      cbn [String.eqb Ascii.eqb Bool.eqb].
    + apply narrow_spells. spell.
    + destruct (negb (isUnsignedIntegerType typ)); spell.
Qed.

(** What [writeBinary] makes of two operands of an integer type, and of two
    booleans. *)
Lemma arithmetic_computes op r :
  isIntegerType typ = true -> oneOf op ["<<"; ">>"] = false -> integerOp op typ a b = Some r ->
  computes ρ typ (if wrapsResult op && negb (isFloatType typ)
                  then narrowResult typ ("(" +:+ binaryInstruction op typ typ +:+ " " +:+ left +:+ " " +:+ right +:+ ")")
                  else "(" +:+ binaryInstruction op typ typ +:+ " " +:+ left +:+ " " +:+ right +:+ ")") r.
Proof.
  intros Hty Hop H. destruct (integer_binaryInstruction op typ Hty) as (-> & _ & -> & _). rewrite andb_true_r.
  destruct (wasmBinaryOp_atom op typ) as [Hi Hat]. rewrite integer_stored in El, Er by exact Hty.
  destruct (binary_applies typ a b Hty Ha Hb op r Hop H) as (z & Hz & -> & Hr).
  pose proof (node2_spells (wasmBinaryOp op typ) left right tl tr Hat Sl Sr) as Sp.
  pose proof (eval_node2 ρ (wasmBinaryOp op typ) tl tr _ _ Hi El Er) as Ev. rewrite Hz in Ev.
  destruct (wrapsResult op).
  - exists (narrowTree typ (node (wasmBinaryOp op typ) [tl; tr])). split; [apply narrow_spells, Sp|]. split; [|exact Hr].
    apply narrow_eval; assumption.
  - exists (node (wasmBinaryOp op typ) [tl; tr]). split; [exact Sp|]. split; [|exact Hr].
    rewrite integer_stored by exact Hty. exact Ev.
Qed.

Lemma comparison_computes op c :
  isIntegerType typ = true \/ typ = "bool" /\ oneOf op ["=="; "!="] = true -> compareOp op a b = Some c ->
  computes ρ "bool" ("(" +:+ binaryInstruction op "bool" typ +:+ " " +:+ left +:+ " " +:+ right +:+ ")") (Z.b2z c).
Proof.
  intros Hty H. destruct (b2z_stored c) as [Hs Hr].
  enough (E : exists o, binaryInstruction op "bool" typ = o /\ immediate o = false /\ isAtom o = true /\
                applyOp o [stored typ a; stored typ b] = Ok (truth32 c)).
  { destruct E as (o & -> & Hi & Hat & Ho). exists (node o [tl; tr]). split; [apply node2_spells; assumption|].
    split; [|exact Hr]. rewrite (eval_node2 ρ o tl tr _ _ Hi El Er), Ho, Hs. reflexivity. }
  destruct Hty as [Hty|[-> Hop]].
  - exists (wasmCompareOp op typ). split; [apply integer_binaryInstruction, Hty|]. rewrite !integer_stored by exact Hty.
    destruct (wasmCompareOp_atom op typ) as [H1 H2]. split; [exact H1|]. split; [exact H2|].
    apply compare_applies; assumption.
  - apply oneOf_elem in Hop. apply elem_of_cons in Hop as [->|Hop]; [|apply list_elem_of_singleton in Hop as ->];
      injection H as <-; [exists "i32.eq" | exists "i32.ne"]; repeat split.
Qed.
End Operands.

Lemma unary_computes ρ typ value t a op r :
  spells value t -> eval ρ t = Ok (stored typ a) -> inRange typ a -> unaryMeaning op typ typ a = Some r ->
  exists e, unaryExpr op typ value = Ok e /\ computes ρ typ e r.
Proof.
  intros Sp Ev Ha H. unfold unaryMeaning in H. rewrite String.eqb_refl in H. cbn [negb] in H.
  destruct (String.eqb_spec typ "bool") as [->|Hnb].
  { destruct (String.eqb_spec op "!") as [->|]; [|discriminate]. injection H as <-. eexists. split; [reflexivity|].
    exists (node "i32.eqz" [t]). split; [spell|]. rewrite (eval_node1 ρ "i32.eqz" t _ eq_refl Ev).
    destruct Ha as [-> | ->]; split; reflexivity || (cbn; auto). }
  destruct (isIntegerType typ) eqn:Hty; [|discriminate]. rewrite integer_stored in Ev by exact Hty.
  unfold unaryExpr. rewrite Hty. destruct (integer_binaryInstruction op typ Hty) as (_ & _ & -> & _).
  assert (Hv : IsVector typ = false) by (integer_cases Hty; reflexivity). rewrite Hv.
  destruct (String.eqb_spec op "-") as [->|_]; [|destruct (String.eqb_spec op "~") as [->|_]; [|discriminate]];
    injection H as <-; (eexists; split; [reflexivity|]).
  - exists (narrowTree typ (node "i64.sub" [const "0"; t])). split; [apply narrow_spells; spell|].
    split; [|apply wrapTo_range, Hty]. apply narrow_eval; [exact Hty|].
    rewrite (eval_node2 ρ "i64.sub" (const "0") t _ _ eq_refl eq_refl Ev).
    cbn [applyOp i64Comparison i64Arithmetic String.eqb Ascii.eqb Bool.eqb]. unfold unsigned.
    rewrite Zminus_mod_idemp_r. reflexivity.
  - exists (narrowTree typ (node "i64.xor" [t; const "-1"])). split; [apply narrow_spells; spell|].
    split; [|apply wrapTo_range, Hty]. apply narrow_eval; [exact Hty|].
    rewrite (eval_node2 ρ "i64.xor" t (const "-1") _ (I64 (unsigned 64 (-1))) eq_refl Ev eq_refl).
    change (applyOp "i64.xor" [I64 (unsigned 64 a); I64 (unsigned 64 (-1))]) with (@Ok wfault wval (I64 (Z.lxor (unsigned 64 a) (unsigned 64 (-1))))).
    rewrite lxor_unsigned, Z.lxor_m1_r. reflexivity.
Qed.

(** The part of [writeBinary] that compares no byte slices. *)
Lemma binary_writes ρ values i typ left right a b tl tr op r :
  spells left tl -> spells right tr -> eval ρ tl = Ok (stored typ a) -> eval ρ tr = Ok (stored typ b) ->
  inRange typ a -> inRange typ b -> binaryMeaning op typ (vType (iResult i)) a b = Some r ->
  String.eqb typ "[]u8" = false /\
  exists e, (if oneOf op ["<<"; ">>"] then writeShift values i op left right
             else setResult values (iResult i)
               (if wrapsResult op && negb (isFloatType (vType (iResult i)))
                then narrowResult (vType (iResult i)) ("(" +:+ binaryInstruction op (vType (iResult i)) typ +:+ " " +:+ left +:+ " " +:+ right +:+ ")")
                else "(" +:+ binaryInstruction op (vType (iResult i)) typ +:+ " " +:+ left +:+ " " +:+ right +:+ ")"))
            = setResult values (iResult i) e /\ computes ρ (vType (iResult i)) e r.
Proof.
  intros Sl Sr El Er Ha Hb H. unfold binaryMeaning in H.
  destruct (isIntegerType typ && String.eqb (vType (iResult i)) typ) eqn:Harith.
  - apply andb_true_iff in Harith as [Hty Hres]. apply String.eqb_eq in Hres. rewrite Hres in *.
    split; [apply (integer_binaryInstruction op typ Hty)|]. destruct (oneOf op ["<<"; ">>"]) eqn:Hop.
    + destruct (shift_spells typ left right tl tr Sl Sr op Hty Hop) as (e & Hsp & Hw). exists e.
      split; [apply Hw, Hres|]. exists (shiftTree op typ tl tr). split; [exact Hsp|].
      rewrite integer_stored in El, Er by exact Hty.
      assert (Hpos : 0 <= b).
      { apply oneOf_elem in Hop. repeat (apply elem_of_cons in Hop as [->|Hop]); [.. | inversion Hop];
          unfold integerOp in H; cbn [String.eqb Ascii.eqb Bool.eqb oneOf existsb orb] in H;
          destruct (Z.ltb_spec b 0); (discriminate || lia). }
      apply oneOf_elem in Hop. repeat (apply elem_of_cons in Hop as [->|Hop]); [.. | inversion Hop].
      * apply (shift_left ρ typ a b); assumption.
      * apply (shift_right ρ typ a b); assumption.
    + eexists. split; [reflexivity|]. apply (arithmetic_computes ρ typ left right a b tl tr); assumption.
  - destruct ((isIntegerType typ || (String.eqb typ "bool" && oneOf op ["=="; "!="])) && String.eqb (vType (iResult i)) "bool") eqn:Hcmp; [|discriminate].
    apply andb_true_iff in Hcmp as [Hty Hres]. apply String.eqb_eq in Hres. rewrite Hres in *.
    destruct (compareOp op a b) as [c|] eqn:Hc; [|discriminate]. injection H as <-.
    assert (Hty' : isIntegerType typ = true \/ typ = "bool" /\ oneOf op ["=="; "!="] = true).
    { apply orb_true_iff in Hty as [Hty|Hty]; [auto|]. apply andb_true_iff in Hty as [Hty Ho]. apply String.eqb_eq in Hty. auto. }
    assert (Hno : oneOf op ["<<"; ">>"] = false).
    { destruct (oneOf op ["<<"; ">>"]) eqn:Hop; [|reflexivity]. apply oneOf_elem in Hop.
      repeat (apply elem_of_cons in Hop as [->|Hop]); [discriminate | discriminate | inversion Hop]. }
    split; [destruct Hty' as [Hty'|[-> _]]; [apply (integer_binaryInstruction op typ Hty') | reflexivity]|].
    rewrite Hno. eexists. split; [reflexivity|].
    replace (if wrapsResult op && negb (isFloatType "bool") then _ else _)
      with ("(" +:+ binaryInstruction op "bool" typ +:+ " " +:+ left +:+ " " +:+ right +:+ ")")
      by (destruct (wrapsResult op && negb (isFloatType "bool")); reflexivity).
    apply (comparison_computes ρ typ left right a b tl tr); assumption.
Qed.

(** What [writeScalar] writes for an instruction with a meaning. *)
Lemma scalar_computes module values ρ i args r :
  Forall2 (held64 values ρ) (iArgs i) args -> scalarMeaning i args = Some r ->
  exists e, writeScalar module values i = setResult values (iResult i) e /\ computes ρ (vType (iResult i)) e r.
Proof.
  intros Hargs H. unfold scalarMeaning in H. unfold writeScalar.
  destruct (iArgs i) as [|x [|y [|? ?]]] eqn:Eargs; [discriminate | | | discriminate].
  - apply Forall2_cons_inv_l in Hargs as (a & l & Hx & Hl & ->). apply Forall2_nil_inv_l in Hl as ->.
    destruct (HasPrefix (iOp i) "unary."); [|discriminate]. unfold writeUnary. rewrite Eargs.
    destruct (held64_tree _ _ _ _ Hx) as (t & Sp & Ev). destruct Hx as (_ & _ & Ha).
    assert (Et : vType (iResult i) = vType x).
    { unfold unaryMeaning in H. destruct (String.eqb_spec (vType (iResult i)) (vType x)); [assumption | discriminate]. }
    rewrite Et in *. destruct (unary_computes ρ (vType x) _ t a _ r Sp Ev Ha H) as (e & He & Hc).
    exists e. rewrite He. auto.
  - apply Forall2_cons_inv_l in Hargs as (a & l & Hx & Hl & ->). apply Forall2_cons_inv_l in Hl as (b & l' & Hy & Hl & ->).
    apply Forall2_nil_inv_l in Hl as ->.
    destruct (HasPrefix (iOp i) "binary.") eqn:Hpre; [|discriminate]. cbn [andb] in H.
    destruct (String.eqb_spec (vType y) (vType x)) as [Ey|]; [|discriminate].
    assert (Hun : HasPrefix (iOp i) "unary." = false).
    { apply HasPrefix_true in Hpre as [rest ->]. reflexivity. }
    rewrite Hun. unfold writeBinary. rewrite Eargs. cbv zeta.
    destruct (held64_tree _ _ _ _ Hx) as (tl & Sl & El). destruct (held64_tree _ _ _ _ Hy) as (tr & Sr & Er).
    destruct Hx as (_ & _ & Ha). destruct Hy as (_ & _ & Hb). rewrite Ey in *.
    destruct (binary_writes ρ values i (vType x) _ _ a b tl tr _ r Sl Sr El Er Ha Hb H) as [-> Hw]. exact Hw.
Qed.

(** ** The rules of the language

    Nothing here is taken from the backend: the integer types with their sign and
    width ([SPEC.md] 6.9.2; 12.1 gives [usize] and [isize] the 32 bits of this
    target), and what an operation on values of one type is worth. *)

Definition languageTypes : list (string * (bool * Z)) :=
  [("i8", (false, 8)); ("i16", (false, 16)); ("i32", (false, 32)); ("i64", (false, 64)); ("isize", (false, 32));
   ("u8", (true, 8)); ("u16", (true, 16)); ("u32", (true, 32)); ("u64", (true, 64)); ("usize", (true, 32))].

Definition languageType (typ : string) : option (bool * Z) :=
  snd <$> List.find (fun entry => String.eqb (fst entry) typ) languageTypes.

(** The values of a scalar type; a [bool] is 0 or 1. *)
Definition languageRange (typ : string) (v : Z) : Prop :=
  if String.eqb typ "bool" then v = 0 \/ v = 1
  else match languageType typ with Some (uns, n) => inBits uns n v | None => False end.

(** Results wrap at the width; a shift by the width or more leaves nothing but
    the sign; division by 0, of the least value by -1 and shifts by a negative
    amount are not defined. *)
Definition languageOp (op : string) (uns : bool) (n a b : Z) : option Z :=
  if String.eqb op "+" then Some (wrapBits uns n (a + b))
  else if String.eqb op "-" then Some (wrapBits uns n (a - b))
  else if String.eqb op "*" then Some (wrapBits uns n (a * b))
  else if String.eqb op "/" || String.eqb op "%" then
    if (b =? 0) || (negb uns && (a =? - 2 ^ (n - 1)) && (b =? -1)) then None
    else Some (if String.eqb op "/" then Z.quot a b else Z.rem a b)
  else if String.eqb op "&" then Some (Z.land a b)
  else if String.eqb op "|" then Some (Z.lor a b)
  else if String.eqb op "^" then Some (Z.lxor a b)
  else if b <? 0 then None
  else if String.eqb op "<<" then Some (if n <=? b then 0 else wrapBits uns n (a * 2 ^ b))
  else if String.eqb op ">>" then Some (if n <=? b then if a <? 0 then -1 else 0 else a / 2 ^ b)
  else None.

Definition languageBinary (op typ resultType : string) (a b : Z) : option Z :=
  match languageType typ with
  | Some (uns, n) =>
      if String.eqb resultType typ then languageOp op uns n a b
      else if String.eqb resultType "bool" then Z.b2z <$> compareOp op a b
      else None
  | None =>
      if String.eqb typ "bool" && String.eqb resultType "bool" && (String.eqb op "==" || String.eqb op "!=")
      then Z.b2z <$> compareOp op a b else None
  end.

Definition languageUnary (op typ resultType : string) (a : Z) : option Z :=
  if negb (String.eqb resultType typ) then None
  else match languageType typ with
  | Some (uns, n) =>
      if String.eqb op "-" then Some (wrapBits uns n (- a))
      else if String.eqb op "~" then Some (wrapBits uns n (Z.lnot a))
      else None
  | None => if String.eqb typ "bool" && String.eqb op "!" then Some (1 - a) else None
  end.

Definition languageMeaning (i : Instr) (args : list Z) : option Z :=
  match iArgs i, args with
  | [x; y], [a; b] =>
      if HasPrefix (iOp i) "binary." && String.eqb (vType y) (vType x)
      then languageBinary (TrimPrefix (iOp i) "binary.") (vType x) (vType (iResult i)) a b else None
  | [x], [a] =>
      if HasPrefix (iOp i) "unary." then languageUnary (TrimPrefix (iOp i) "unary.") (vType x) (vType (iResult i)) a
      else None
  | _, _ => None
  end.

(** *** [usize] and [isize] *)

(** What an operation that can leave a width is worth before it is wrapped. *)
Definition exactBinary (op : string) (a b : Z) : option Z :=
  if String.eqb op "+" then Some (a + b)
  else if String.eqb op "-" then Some (a - b)
  else if String.eqb op "*" then Some (a * b)
  else if String.eqb op "<<" then Some (a * 2 ^ b)
  else None.

Definition exactResult (op : string) (args : list Z) : option Z :=
  match args with
  | [a; b] => exactBinary (TrimPrefix op "binary.") a b
  | [a] => if String.eqb op "unary.-" then Some (- a) else if String.eqb op "unary.~" then Some (Z.lnot a) else None
  | _ => None
  end.

Definition fits (typ : string) (z : Z) : bool :=
  if String.eqb typ "usize" then (0 <=? z) && (z <? 2 ^ 32)
  else if String.eqb typ "isize" then (- 2 ^ 31 <=? z) && (z <? 2 ^ 31)
  else true.

(** Where the width of the target does not show: an operation on [usize] or
    [isize] whose exact result is within 32 bits. *)
Definition settled (i : Instr) (args : list Z) : bool :=
  match exactResult (iOp i) args with Some z => fits (vType (iResult i)) z | None => true end.

(** *** The widths compared *)

Lemma wrapBits_small uns n z : 0 < n -> inBits uns n z -> wrapBits uns n z = z.
Proof.
  intros Hn Hz. destruct uns; [apply Z.mod_small; exact Hz|]. unfold wrapBits. cbn [orb].
  apply (signed_unsigned n z Hn Hz).
Qed.

Lemma inBits_wider uns n m z : 0 < n <= m -> inBits uns n z -> inBits uns m z.
Proof.
  intros Hn. unfold inBits. assert (2 ^ n <= 2 ^ m) by (apply Z.pow_le_mono_r; lia).
  assert (2 ^ (n - 1) <= 2 ^ (m - 1)) by (apply Z.pow_le_mono_r; lia). destruct uns; lia.
Qed.

(** What the backend takes a type for. *)
Lemma languageType_spec typ uns n : languageType typ = Some (uns, n) ->
  isIntegerType typ = true /\ isUnsignedIntegerType typ = uns /\ 0 < n <= width typ /\ width typ <= 64 /\
  (n = width typ \/ forall z, fits typ z = true -> inBits uns n z).
Proof.
  unfold languageType. intros H. destruct (List.find _ languageTypes) as [[t k]|] eqn:E; [|discriminate].
  injection H as ->. apply List.find_some in E as [Hin Ht]. apply String.eqb_eq in Ht. cbn [fst] in Ht. subst t.
  repeat (destruct Hin as [[= <- <- <-]|Hin];
    [split; [reflexivity|]; split; [reflexivity|]; split; [vm_compute; split; (reflexivity || discriminate)|];
     split; [vm_compute; discriminate|]; (left; reflexivity) ||
     (right; intros z; unfold fits; cbn [String.eqb Ascii.eqb Bool.eqb]; rewrite andb_true_iff; unfold inBits; lia) |]).
  destruct Hin.
Qed.

Section Widths.
Context (typ : string) (uns : bool) (n : Z) (Hty : languageType typ = Some (uns, n)).

#[local] Lemma wrap_agrees z : fits typ z = true -> wrapTo typ z = wrapBits uns n z.
Proof.
  intros Hz. destruct (languageType_spec typ uns n Hty) as (_ & Hu & Hn & _ & [E|Hf]); unfold wrapTo; rewrite Hu.
  - rewrite <- E. reflexivity.
  - specialize (Hf z Hz). rewrite !wrapBits_small; [reflexivity | lia | exact Hf | lia | apply (inBits_wider uns n); [lia | exact Hf]].
Qed.

#[local] Lemma shift_agrees a b : 0 <= b -> fits typ (a * 2 ^ b) = true ->
  (if width typ <=? b then 0 else wrapTo typ (a * 2 ^ b)) = (if n <=? b then 0 else wrapBits uns n (a * 2 ^ b)).
Proof.
  intros Hb Hz. rewrite (wrap_agrees _ Hz). destruct (languageType_spec typ uns n Hty) as (_ & _ & Hn & _ & [E|Hf]); [rewrite <- E; reflexivity|].
  destruct (Z.leb_spec (width typ) b), (Z.leb_spec n b); try lia.
  specialize (Hf _ Hz). rewrite wrapBits_small by (lia || exact Hf).
  assert (2 ^ n <= 2 ^ b) by (apply Z.pow_le_mono_r; lia). assert (2 ^ (n - 1) < 2 ^ n) by (apply Z.pow_lt_mono_r; lia).
  assert (a = 0) as ->; [|reflexivity]. unfold inBits in Hf. destruct uns; nia.
Qed.

Lemma integerOp_language op a b r :
  inBits uns n a -> inBits uns n b -> languageOp op uns n a b = Some r ->
  (forall z, exactBinary op a b = Some z -> fits typ z = true) -> integerOp op typ a b = Some r /\ inBits uns n r.
Proof.
  intros Ha Hb H Hfit. destruct (languageType_spec typ uns n Hty) as (_ & Hu & Hn & Hw & _).
  unfold languageOp in H. unfold integerOp, exactBinary, least in *. rewrite Hu.
  replace (oneOf op ["/"; "%"]) with (String.eqb op "/" || String.eqb op "%") by (cbn [oneOf existsb]; rewrite orb_false_r; reflexivity).
  destruct (String.eqb op "+"); [injection H as <-; rewrite wrap_agrees by auto; split; [reflexivity | apply wrapBits_range; lia]|].
  destruct (String.eqb op "-"); [injection H as <-; rewrite wrap_agrees by auto; split; [reflexivity | apply wrapBits_range; lia]|].
  destruct (String.eqb op "*"); [injection H as <-; rewrite wrap_agrees by auto; split; [reflexivity | apply wrapBits_range; lia]|].
  destruct (String.eqb op "/" || String.eqb op "%").
  { destruct (Z.eqb_spec b 0) as [->|Hb0]; [discriminate|]. cbn [orb] in *.
    destruct (negb uns && (a =? - 2 ^ (n - 1)) && (b =? -1)) eqn:Hd; [discriminate|].
    assert (Hd' : negb uns && (a =? - 2 ^ (width typ - 1)) && (b =? -1) = false).
    { destruct uns; [reflexivity|]. cbn [negb andb] in *. destruct (Z.eqb_spec a (- 2 ^ (width typ - 1))) as [E|]; [|reflexivity].
      destruct (Z.eqb_spec b (-1)) as [->|]; [|reflexivity]. cbn [andb] in *. unfold inBits in Ha.
      assert (2 ^ (n - 1) <= 2 ^ (width typ - 1)) by (apply Z.pow_le_mono_r; lia).
      assert (a = - 2 ^ (n - 1)) as E' by lia. rewrite E', Z.eqb_refl in Hd. discriminate. }
    rewrite Hd'. split; [exact H|]. injection H as <-. destruct (String.eqb op "/").
    - apply quot_inBits; try assumption; [lia|]. destruct uns, (a =? _), (b =? _); cbn in *; congruence.
    - apply rem_inBits; try assumption; lia. }
  destruct (String.eqb op "&"); [injection H as <-; split; [reflexivity | apply land_inBits; auto; lia]|].
  destruct (String.eqb op "|"); [injection H as <-; split; [reflexivity | apply lor_inBits; auto; lia]|].
  destruct (String.eqb op "^"); [injection H as <-; split; [reflexivity | apply lxor_inBits; auto; lia]|].
  destruct (Z.ltb_spec b 0); [discriminate|].
  destruct (String.eqb op "<<").
  { injection H as <-. rewrite shift_agrees by auto. split; [reflexivity|].
    destruct (n <=? b); [|apply wrapBits_range; lia]. unfold inBits. assert (0 < 2 ^ (n - 1)) by lia. destruct uns; lia. }
  destruct (String.eqb op ">>"); [|discriminate]. injection H as <-.
  assert (Hsign : inBits uns n (if a <? 0 then -1 else 0)).
  { unfold inBits in *. assert (0 < 2 ^ (n - 1)) by lia. destruct (Z.ltb_spec a 0), uns; lia. }
  assert (Hfar : n <= b -> a / 2 ^ b = if a <? 0 then -1 else 0).
  { intros Hnb. assert (2 ^ n <= 2 ^ b) by (apply Z.pow_le_mono_r; lia). unfold inBits in Ha.
    assert (2 ^ (n - 1) < 2 ^ n) by (apply Z.pow_lt_mono_r; lia).
    destruct (Z.ltb_spec a 0); [symmetry; apply (Z.div_unique a (2 ^ b) (-1) (a + 2 ^ b)) | apply Z.div_small]; destruct uns; lia. }
  destruct (Z.leb_spec (width typ) b), (Z.leb_spec n b); try lia; [auto | rewrite Hfar by assumption; auto |].
  split; [reflexivity | apply shiftr_inBits; [assumption | lia | exact Ha]].
Qed.
End Widths.

Lemma languageRange_integer typ uns n v : languageType typ = Some (uns, n) -> languageRange typ v <-> inBits uns n v.
Proof.
  intros H. unfold languageRange. destruct (languageType_spec typ uns n H) as (Hty & _).
  rewrite (integer_not_bool typ Hty), H. tauto.
Qed.

(** A value of the language is one the backend holds. *)
Lemma languageRange_held typ v : languageRange typ v -> inRange typ v.
Proof.
  unfold languageRange, inRange. destruct (String.eqb typ "bool"); [auto|].
  destruct (languageType typ) as [[uns n]|] eqn:E; [|intros []]. destruct (languageType_spec typ uns n E) as (Hty & Hu & Hn & _ & _).
  rewrite Hu. intros H. split; [exact Hty | apply (inBits_wider uns n); assumption].
Qed.

Lemma bool_range c : languageRange "bool" (Z.b2z c).
Proof. destruct c; cbn; auto. Qed.

(** A settled operation means the same at either width. *)
Lemma language_scalarMeaning i args r :
  Forall2 (fun v a => languageRange (vType v) a) (iArgs i) args -> languageMeaning i args = Some r -> settled i args = true ->
  scalarMeaning i args = Some r /\ languageRange (vType (iResult i)) r.
Proof.
  intros Hargs H Hset. unfold languageMeaning in H. unfold scalarMeaning.
  destruct (iArgs i) as [|x [|y [|? ?]]]; [discriminate | | | discriminate].
  - apply Forall2_cons_inv_l in Hargs as (a & l & Ha & Hl & ->). apply Forall2_nil_inv_l in Hl as ->.
    destruct (HasPrefix (iOp i) "unary.") eqn:Hpre; [|discriminate]. apply HasPrefix_true in Hpre as [op Hop].
    rewrite Hop in *. change (TrimPrefix ("unary." +:+ op) "unary.") with op in *. unfold languageUnary in H. unfold unaryMeaning.
    destruct (String.eqb_spec (vType (iResult i)) (vType x)) as [E|]; [|discriminate]. cbn [negb] in *. rewrite E in *.
    unfold settled, exactResult in Hset. rewrite Hop, E in Hset.
    destruct (languageType (vType x)) as [[uns n]|] eqn:Ht.
    + destruct (languageType_spec _ _ _ Ht) as (Hty & Hu & Hn & _). rewrite (integer_not_bool _ Hty), Hty.
      rewrite (languageRange_integer _ _ _ r Ht).
      destruct (String.eqb_spec op "-") as [->|_]; [|destruct (String.eqb_spec op "~") as [->|_]; [|discriminate]];
        cbn [String.eqb Ascii.eqb Bool.eqb String.append] in Hset; injection H as <-;
        (split; [rewrite (wrap_agrees _ _ _ Ht) by exact Hset; reflexivity | apply wrapBits_range; lia]).
    + destruct (String.eqb_spec (vType x) "bool") as [Eb|]; [|discriminate]. cbn [andb] in H.
      destruct (String.eqb op "!"); [|discriminate]. injection H as <-. split; [reflexivity|].
      rewrite Eb in *. destruct Ha as [-> | ->]; [right | left]; reflexivity.
  - apply Forall2_cons_inv_l in Hargs as (a & l & Ha & Hl & ->). apply Forall2_cons_inv_l in Hl as (b & l' & Hb & Hl & ->).
    apply Forall2_nil_inv_l in Hl as ->. destruct (HasPrefix (iOp i) "binary."); [|discriminate]. cbn [andb] in *.
    destruct (String.eqb_spec (vType y) (vType x)) as [E|]; [|discriminate]. rewrite E in *.
    unfold settled, exactResult in Hset. set (op := TrimPrefix (iOp i) "binary.") in *.
    unfold languageBinary in H. unfold binaryMeaning. destruct (languageType (vType x)) as [[uns n]|] eqn:Ht.
    + destruct (languageType_spec _ _ _ Ht) as (Hty & _). rewrite Hty. cbn [andb orb].
      destruct (String.eqb_spec (vType (iResult i)) (vType x)) as [Er|_].
      * rewrite Er in *. rewrite (languageRange_integer _ _ _ r Ht). apply (languageRange_integer _ _ _ _ Ht) in Ha, Hb.
        apply (integerOp_language _ _ _ Ht op a b); [exact Ha | exact Hb | exact H |].
        intros z Hz. rewrite Hz in Hset. exact Hset.
      * destruct (String.eqb_spec (vType (iResult i)) "bool") as [->|]; [|discriminate]. split; [exact H|].
        destruct (compareOp op a b) as [c|]; [injection H as <-; apply bool_range | discriminate].
    + destruct (String.eqb_spec (vType x) "bool") as [Eb|]; [|discriminate].
      destruct (String.eqb_spec (vType (iResult i)) "bool") as [->|]; [|discriminate]. cbn [andb] in H. rewrite Eb.
      cbn [oneOf existsb]. rewrite orb_false_r. destruct (String.eqb op "==" || String.eqb op "!="); [|discriminate].
      split; [exact H|]. destruct (compareOp op a b) as [c|]; [injection H as <-; apply bool_range | discriminate].
Qed.

(** * Blocks of scalar instructions

    The text of a block's instructions, run on the locals, against the run of the
    instructions on the machine of [Semantics] that computes what the rules of the
    language say, and stops where a [usize] or an [isize] leaves its 32 bits. *)

#[export] Instance scalarMachine {M X : Type} : Machine Z M X := {
  literal v := ParseInt (vName v);
  operation i vs m :=
    match languageMeaning i vs with Some r => if settled i vs then Next r m else Undefined | None => Undefined end;
  truth v := Some (negb (v =? 0))
}.

Lemma languageMeaning_shape i args :
  languageMeaning (shape i) args = languageMeaning i args /\ settled (shape i) args = settled i args.
Proof.
  unfold languageMeaning, settled, shape. cbn [iArgs iOp iResult]. destruct (iArgs i) as [|x [|y [|]]]; auto.
Qed.

(** The value [v] is recorded as an expression that is [a] now, a value of its
    type. *)
Definition holds (values : gmap string string) (ρ : gmap string wval) (v : Value) (a : Z) : Prop :=
  oneExpression (valueExpr values v) = true /\ evalText ρ (valueExpr values v) = Ok (stored (vType v) a) /\
  languageRange (vType v) a.

Lemma holds_held64 values ρ v a : holds values ρ v a -> held64 values ρ v a.
Proof. intros (H1 & H2 & H3). split; [exact H1|]. split; [exact H2 | apply languageRange_held, H3]. Qed.

(** The loop of [writeNodeWithin], on scalar instructions. *)
Fixpoint writeScalars (module : Module_) (values : gmap string string) (instrs : list Instr) : emitted :=
  match instrs with
  | [] => Ok ("", values)
  | i :: rest =>
      let* (text, values) := writeScalar module values i in
      let* (text', values) := writeScalars module values rest in
      Ok (text +:+ text', values)
  end.

Definition resultLocal (i : Instr) : string := symbolName (vName (iResult i)).

(** A scalar instruction on the values of a block, and a result with a local. *)
Definition scalarInstr (scope : list Value) (i : Instr) : bool :=
  (HasPrefix (iOp i) "binary." || HasPrefix (iOp i) "unary.") &&
  bool_decide (readOperands i = iArgs i) && forallb (fun v => bool_decide (v ∈ scope)) (iArgs i) &&
  negb (String.eqb (vName (iResult i)) "") && isAtom (resultLocal i).

(** A value has one type, and no recorded expression reads the local of another
    value's instruction. *)
Definition keepsApart (values : gmap string string) (i : Instr) (v : Value) : bool :=
  if String.eqb (vName v) (vName (iResult i)) then String.eqb (vType v) (vType (iResult i))
  else negb (Contains (valueExpr values v) (getText (resultLocal i))).

Definition scalarBlock (scope : list Value) (values : gmap string string) (instrs : list Instr) : bool :=
  bool_decide (NoDup (map resultLocal instrs)) && forallb (scalarInstr scope) instrs &&
  forallb (fun v => forallb (fun i => keepsApart values i v) instrs) scope.

(** The values of a run, recorded and held. *)
Definition heldAll (scope : list Value) (values : gmap string string) (ρ : gmap string wval) (env : gmap string Z) : Prop :=
  forall v a, v ∈ scope -> operand (M := unit) (X := Empty_set) env v = Some a -> holds values ρ v a.

Lemma scalarInstr_spec scope i : scalarInstr scope i = true ->
  String.eqb (iOp i) "phi" = false /\ readOperands i = iArgs i /\ (forall v, v ∈ iArgs i -> v ∈ scope) /\
  String.eqb (vName (iResult i)) "" = false /\ isAtom (resultLocal i) = true.
Proof.
  unfold scalarInstr. rewrite !andb_true_iff, negb_true_iff, bool_decide_eq_true. intros [[[[Hop Hr] Hs] Hn] Ha].
  split; [|split; [exact Hr|split; [|auto]]].
  - apply String.eqb_neq. intros E. rewrite E in Hop. discriminate Hop.
  - intros v Hv. apply (forallb_elem _ _ v Hs) in Hv. apply bool_decide_eq_true in Hv. exact Hv.
Qed.

Lemma spells_one e t : spells e t -> oneExpression e = true.
Proof. intros (-> & Hw & Hn). apply print_oneExpression; assumption. Qed.

Lemma operands_hold scope values ρ env l vs :
  heldAll scope values ρ env -> (forall v, v ∈ l -> v ∈ scope) ->
  mapM (operand (M := unit) (X := Empty_set) env) l = Some vs -> Forall2 (holds values ρ) l vs.
Proof.
  intros Hall Hl H. apply mapM_Some in H. revert Hl. induction H as [|v a l vs Hv _ IH]; intros Hl; constructor.
  - apply (Hall v a); [apply Hl; left | exact Hv].
  - apply IH. intros w Hw. apply Hl. right. exact Hw.
Qed.

Lemma valueExpr_same values x e v : vName v = x -> valueExpr (<[x := e]> values) v = e.
Proof. intros <-. unfold valueExpr. rewrite lookup_insert_eq. reflexivity. Qed.

Lemma valueExpr_other values x e v : vName v <> x -> valueExpr (<[x := e]> values) v = valueExpr values v.
Proof. intros H. unfold valueExpr. rewrite lookup_insert_ne by congruence. reflexivity. Qed.

(** One instruction. *)
Lemma scalar_step module scope values ρ env i vs r :
  scalarInstr scope i = true -> forallb (keepsApart values i) scope = true -> heldAll scope values ρ env ->
  mapM (operand (M := unit) (X := Empty_set) env) (iArgs i) = Some vs -> languageMeaning i vs = Some r -> settled i vs = true ->
  exists e, writeScalar module values i = Ok (setLine (resultLocal i) e, <[vName (iResult i) := getText (resultLocal i)]> values) /\
    oneExpression e = true /\ evalText ρ e = Ok (stored (vType (iResult i)) r) /\
    heldAll scope (<[vName (iResult i) := getText (resultLocal i)]> values)
      (<[resultLocal i := stored (vType (iResult i)) r]> ρ) (assign env i r).
Proof.
  intros Hi Hk Hall Hvs Hr Hset. destruct (scalarInstr_spec scope i Hi) as (_ & _ & Hs & Hne & Hatom).
  pose proof (operands_hold scope values ρ env _ vs Hall Hs Hvs) as Hops.
  destruct (language_scalarMeaning i vs r) as [Hm Hin];
    [apply (Forall2_impl _ _ _ _ Hops); intros v a (_ & _ & Ha); exact Ha | exact Hr | exact Hset|].
  destruct (scalar_computes module values ρ i vs r (Forall2_impl _ _ _ _ Hops (holds_held64 values ρ)) Hm) as (e & Hw & t & Hsp & Hev & _).
  exists e. split; [rewrite Hw; reflexivity|]. split; [apply (spells_one e t Hsp)|].
  split; [destruct Hsp as (-> & Hws & _); rewrite evalText_print by exact Hws; exact Hev|].
  intros v a Hv Hop. unfold assign, operand in Hop. rewrite Hne in Hop.
  pose proof (forallb_elem _ _ v Hk Hv) as Hkv. unfold keepsApart in Hkv. destruct (String.eqb_spec (vName v) (vName (iResult i))) as [E|E].
  - apply String.eqb_eq in Hkv. rewrite E, lookup_insert_eq in Hop. injection Hop as <-. unfold holds.
    rewrite valueExpr_same by exact E. split; [apply getText_one, Hatom|]. rewrite evalText_getText by exact Hatom.
    rewrite lookup_insert_eq, Hkv. split; [reflexivity | exact Hin].
  - rewrite lookup_insert_ne in Hop by congruence. destruct (Hall v a Hv Hop) as (H1 & H2 & H3). unfold holds.
    rewrite valueExpr_other by exact E. split; [exact H1|]. split; [|exact H3].
    apply negb_true_iff in Hkv. rewrite evalText_frame by assumption. exact H2.
Qed.

Lemma keepsApart_step scope values i rest :
  NoDup (map resultLocal (i :: rest)) -> forallb (scalarInstr scope) (i :: rest) = true ->
  forallb (fun v => forallb (fun j => keepsApart values j v) (i :: rest)) scope = true ->
  forallb (fun v => forallb (fun j => keepsApart (<[vName (iResult i) := getText (resultLocal i)]> values) j v) rest) scope = true.
Proof.
  intros Hnd Hs Hk. apply forallb_forall. intros v Hv. apply forallb_forall. intros j Hj.
  apply list_elem_of_In in Hv, Hj. pose proof (forallb_elem _ _ v Hk Hv) as Hkv. cbv beta in Hkv.
  pose proof (forallb_elem _ _ j Hkv ltac:(right; exact Hj)) as Hkj. unfold keepsApart in *.
  destruct (String.eqb (vName v) (vName (iResult j))) eqn:Ej; [exact Hkj|].
  destruct (String.eqb_spec (vName v) (vName (iResult i))) as [E|E].
  - rewrite valueExpr_same by exact E. apply negb_true_iff.
    destruct (Contains (getText (resultLocal i)) (getText (resultLocal j))) eqn:Hc; [exfalso|reflexivity].
    assert (Ha : forall k, k ∈ i :: rest -> isAtom (resultLocal k) = true)
      by (intros k H; apply (scalarInstr_spec scope), (forallb_elem _ _ k Hs H)).
    apply Contains_getText in Hc; [|apply Ha; left | apply Ha; right; exact Hj].
    cbn [map] in Hnd. apply NoDup_cons in Hnd as [Hni _]. apply Hni. rewrite Hc. apply list_elem_of_fmap. exists j. auto.
  - rewrite valueExpr_other by exact E. exact Hkj.
Qed.

(** C16. Straight-line scalar code computes what the language says.  The rules
    are those of [SPEC.md] 6.9.2 at the widths it gives, 32 bits for [usize] and
    [isize] on this target.  When a run of the instructions is defined by them,
    and no [usize] or [isize] operation has an exact result outside its 32 bits
    (where the backend goes on at 64: the finding on [integerBitWidth]), the
    emitter writes their text, running it changes the locals, and every value is
    then recorded as an expression that evaluates to the value of the run, in the
    range of its type, although every integer is held in an [i64]. *)
Theorem scalar_block_runs module scope values ρ env m from entry instrs env' m' :
  scalarBlock scope values instrs = true -> heldAll scope values ρ env ->
  runInstrs (M := unit) (X := Empty_set) from entry env m instrs = inl (env', m') ->
  exists text values' ρ', writeScalars module values instrs = Ok (text, values') /\
    runText ρ text = Ok ρ' /\ heldAll scope values' ρ' env'.
Proof.
  intros Hb Hall Hrun. unfold scalarBlock in Hb. rewrite !andb_true_iff, bool_decide_eq_true in Hb. destruct Hb as [[Hnd Hs] Hk].
  enough (H : exists text values' ρ', writeScalars module values instrs = Ok (text, values') /\
      linesRun ρ text ρ' /\ heldAll scope values' ρ' env').
  { destruct H as (text & values' & ρ' & Hw & Hl & Hh). exists text, values', ρ'. split; [exact Hw|].
    split; [apply linesRun_runText, Hl | exact Hh]. }
  revert values ρ env Hk Hall Hrun. induction instrs as [|i rest IH]; intros values ρ env Hk Hall Hrun.
  - cbn [runInstrs] in Hrun. injection Hrun as <- <-. exists "", values, ρ.
    split; [reflexivity|]. split; [apply linesRun_nil | exact Hall].
  - pose proof (forallb_elem _ _ i Hs ltac:(left)) as Hi. destruct (scalarInstr_spec scope i Hi) as (Hphi & Hro & _ & _ & Hatom).
    cbn [runInstrs] in Hrun. unfold runInstr in Hrun. rewrite Hphi, Hro in Hrun.
    destruct (mapM (operand env) (iArgs i)) as [vs|] eqn:Hvs; [|discriminate].
    cbn [operation scalarMachine] in Hrun. destruct (languageMeaning_shape i vs) as [Em Es]. rewrite Em, Es in Hrun.
    destruct (languageMeaning i vs) as [r|] eqn:Hr; [|discriminate]. destruct (settled i vs) eqn:Hset; [|discriminate].
    assert (Hki : forallb (keepsApart values i) scope = true).
    { apply forallb_forall. intros v Hv. apply list_elem_of_In in Hv. apply (forallb_elem _ _ v Hk) in Hv. cbn [forallb] in Hv.
      apply andb_true_iff in Hv. tauto. }
    destruct (scalar_step module scope values ρ env i vs r Hi Hki Hall Hvs Hr Hset) as (e & Hw & Hone & Hev & Hall').
    pose proof (keepsApart_step scope values i rest Hnd Hs Hk) as Hk'.
    cbn [map] in Hnd. apply NoDup_cons in Hnd as [_ Hnd]. cbn [forallb] in Hs. apply andb_true_iff in Hs as [_ Hs].
    destruct (IH Hnd Hs _ _ _ Hk' Hall' Hrun) as (text & values' & ρ' & Hws & Hl & Hh).
    exists (setLine (resultLocal i) e +:+ text), values', ρ'. split; [cbn [writeScalars]; rewrite Hw, Hws; reflexivity|].
    split; [apply (linesRun_cons ρ _ e _ text ρ' Hatom Hone Hev Hl) | exact Hh].
Qed.

(** Two [u8]s whose sum is past 255, and what the sum is compared with. *)
Definition sample_scalars : list Instr :=
  let v x := mkValue x "u8" in
  [instr (v "%t") "binary.+" [v "%a"; v "%b"] "";
   instr (mkValue "%c" "bool") "binary.<" [v "%t"; v "%a"] "";
   instr (v "%n") "unary.~" [v "%t"] ""].

Definition sample_scope : list Value :=
  [mkValue "%a" "u8"; mkValue "%b" "u8"; mkValue "%t" "u8"; mkValue "%c" "bool"; mkValue "%n" "u8"].

Lemma scalar_block_runs_witness :
  exists text values' ρ',
    writeScalars (mkModule ∅ ∅ ∅ ∅ [] ∅) ∅ sample_scalars = Ok (text, values') /\
    runText (list_to_map [("$a", I64 200); ("$b", I64 100)]) text = Ok ρ' /\
    holds values' ρ' (mkValue "%t" "u8") 44 /\ holds values' ρ' (mkValue "%c" "bool") 1 /\
    holds values' ρ' (mkValue "%n" "u8") 211.
Proof.
  assert (Hall : heldAll sample_scope ∅ (list_to_map [("$a", I64 200); ("$b", I64 100)]) (list_to_map [("%a", 200); ("%b", 100)])).
  { intros v a Hv H. unfold sample_scope in Hv. repeat (apply elem_of_cons in Hv as [->|Hv]); [.. | inversion Hv];
      vm_compute in H; try discriminate; injection H as <-; repeat split; vm_compute; (reflexivity || discriminate). }
  destruct (scalar_block_runs (mkModule ∅ ∅ ∅ ∅ [] ∅) sample_scope ∅ (list_to_map [("$a", I64 200); ("$b", I64 100)])
    (list_to_map [("%a", 200); ("%b", 100)]) tt "" ∅ sample_scalars
    (list_to_map [("%a", 200); ("%b", 100); ("%t", 44); ("%c", 1); ("%n", 211)]) tt) as (text & values' & ρ' & Hw & Hr & Hh).
  - vm_compute. reflexivity.
  - exact Hall.
  - vm_compute. reflexivity.
  - exists text, values', ρ'. split; [exact Hw|]. split; [exact Hr|].
    split; [|split]; apply Hh; (vm_compute; reflexivity) || (unfold sample_scope; rewrite !elem_of_cons; tauto).
Defined.

(** The condition on [usize] and [isize] is needed: past 32 bits the backend goes
    on at 64, where the language wraps. *)
Example usize_goes_on :
  let next := instr (mkValue "%t" "usize") "binary.+" [mkValue "%a" "usize"; mkValue "1" "usize"] "" in
  languageMeaning next [2 ^ 32 - 1; 1] = Some 0 /\ settled next [2 ^ 32 - 1; 1] = false /\
  exists text values, writeScalar (mkModule ∅ ∅ ∅ ∅ [] ∅) ∅ next = Ok (text, values) /\
    runText {["$a" := I64 (2 ^ 32 - 1)]} text = Ok (<["$t" := I64 (2 ^ 32)]> {["$a" := I64 (2 ^ 32 - 1)]}).
Proof.
  split; [vm_compute; reflexivity|]. split; [vm_compute; reflexivity|]. do 2 eexists.
  split; [reflexivity|]. vm_compute. reflexivity.
Qed.

(** * Casts *)

Definition clampTo (low high n : Z) : Z := Z.min high (Z.max low n).

Definition clampTree (low high : string) (t : sexp) : sexp :=
  let lower := node "select" [const low; t; node "i64.lt_s" [t; const low]] in
  node "select" [const high; lower; node "i64.gt_s" [lower; const high]].

Lemma signed_range n : 0 <= n < 2 ^ 64 -> - 2 ^ 63 <= signed 64 n < 2 ^ 63.
Proof. intros H. unfold signed. destruct (Z.ltb_spec n (2 ^ (64 - 1))); lia. Qed.

Lemma unsigned_signed n : 0 <= n < 2 ^ 64 -> unsigned 64 (signed 64 n) = n.
Proof.
  intros H. unfold unsigned, signed. destruct (n <? 2 ^ (64 - 1)); [apply Z.mod_small, H|].
  rewrite <- (Z.mod_add (n - 2 ^ 64) 1) by lia. replace (n - 2 ^ 64 + 1 * 2 ^ 64) with n by lia. apply Z.mod_small, H.
Qed.

Lemma clamp_tree_eval ρ low high l h t n :
  eval ρ (const low) = Ok (I64 (unsigned 64 l)) -> eval ρ (const high) = Ok (I64 (unsigned 64 h)) ->
  - 2 ^ 63 <= l < 2 ^ 63 -> - 2 ^ 63 <= h < 2 ^ 63 -> 0 <= n < 2 ^ 64 -> l <= h -> eval ρ t = Ok (I64 n) ->
  eval ρ (clampTree low high t) = Ok (I64 (unsigned 64 (clampTo l h (signed 64 n)))).
Proof.
  intros El Eh Hl Hh Hn Hle Ht. pose proof (signed_range n Hn) as Hs.
  assert (Sl : signed 64 (unsigned 64 l) = l) by (apply signed_unsigned; [lia | exact Hl]).
  assert (Sh : signed 64 (unsigned 64 h) = h) by (apply signed_unsigned; [lia | exact Hh]).
  assert (E1 : eval ρ (node "select" [const low; t; node "i64.lt_s" [t; const low]]) = Ok (I64 (unsigned 64 (Z.max l (signed 64 n))))).
  { erewrite eval_node3; [| reflexivity | exact El | exact Ht
      | rewrite (eval_node2 ρ "i64.lt_s" t (const low) _ _ eq_refl Ht El); reflexivity].
    cbn [applyOp]. rewrite Sl. destruct (Z.ltb_spec (signed 64 n) l).
    - rewrite Z.max_l by lia. reflexivity.
    - rewrite Z.max_r, unsigned_signed by lia. reflexivity. }
  unfold clampTree, clampTo. cbv zeta.
  erewrite eval_node3; [| reflexivity | exact Eh | exact E1
    | rewrite (eval_node2 ρ "i64.gt_s" _ (const high) _ _ eq_refl E1 Eh); reflexivity].
  cbn [applyOp]. rewrite Sh, signed_unsigned by lia. destruct (Z.ltb_spec h (Z.max l (signed 64 n))).
  - rewrite Z.min_l by lia. reflexivity.
  - rewrite Z.min_r by lia. reflexivity.
Qed.

Lemma clampBounds_spec typ low high : clampBounds typ = Some (low, high) ->
  isIntegerType typ = true /\ isAtom (FormatInt low) = true /\ isAtom (FormatInt high) = true /\
  (forall ρ, eval ρ (const (FormatInt low)) = Ok (I64 (unsigned 64 low)) /\
             eval ρ (const (FormatInt high)) = Ok (I64 (unsigned 64 high))) /\
  - 2 ^ 63 <= low <= high /\ high < 2 ^ 63 /\ forall v, inRange typ v <-> low <= v <= high.
Proof.
  assert (R : forall uns n l h, (inBits uns n = inBits uns n) -> (if uns then l = 0 /\ h + 1 = 2 ^ n else l = - 2 ^ (n - 1) /\ h + 1 = 2 ^ (n - 1)) ->
            forall v, inBits uns n v <-> l <= v <= h) by (intros [] n l h _ [-> Hh] v; unfold inBits; lia).
  unfold clampBounds.
  repeat (match goal with |- context [String.eqb typ ?s] => destruct (String.eqb_spec typ s) as [->|_] end;
    [intros [= <- <-]; split; [reflexivity|]; split; [reflexivity|]; split; [reflexivity|]; split; [intros ρ; split; reflexivity|];
     split; [lia|]; split; [lia|]; intros v; rewrite integer_inRange by reflexivity; apply R; [reflexivity | split; reflexivity] |]).
  discriminate.
Qed.

(** [clampToIntegerRange] saturates an [i64] into the range of a narrower
    integer type, reading it as a signed number: the result is in range, and it is
    the nearest value of the type to the signed one. *)
Theorem clamp_saturates ρ typ value n low high :
  clampBounds typ = Some (low, high) -> oneExpression value = true ->
  evalText ρ value = Ok (I64 n) -> 0 <= n < 2 ^ 64 ->
  evalText ρ (clampToIntegerRange typ value) = Ok (stored typ (clampTo low high (signed 64 n))) /\
  inRange typ (clampTo low high (signed 64 n)) /\
  (inRange typ (signed 64 n) -> clampTo low high (signed 64 n) = signed 64 n).
Proof.
  intros Hb Hone Hv Hn. destruct (oneExpression_print value Hone) as (t & -> & Hw & Hnode).
  rewrite evalText_print in Hv by exact Hw. unfold clampToIntegerRange. rewrite Hb.
  destruct (clampBounds_spec typ low high Hb) as (Hty & Hla & Hha & Hc & Hl & Hh & Hrange). destruct (Hc ρ) as [El Eh].
  assert (Sp : spells _ (clampTree (FormatInt low) (FormatInt high) t)) by (unfold clampTree; cbv zeta; spell).
  rewrite !Hrange. split; [|unfold clampTo; split; lia]. rewrite integer_stored by exact Hty.
  rewrite <- (clamp_tree_eval ρ _ _ low high t n El Eh) by (assumption || lia).
  destruct Sp as (Sp & Hws & _). rewrite <- evalText_print by exact Hws. f_equal.
  unfold clampTree. cbv zeta. unfold const, node. cbn [print map join]. rewrite !sapp_assoc. reflexivity.
Qed.

Lemma clamp_saturates_witness :
  evalText (list_to_map [("$v", I64 (unsigned 64 (-300)))]) (clampToIntegerRange "i8" "(local.get $v)") =
  Ok (stored "i8" (-128)).
Proof.
  destruct (clamp_saturates (list_to_map [("$v", I64 (unsigned 64 (-300)))]) "i8" "(local.get $v)" (unsigned 64 (-300)) (-128) 127) as (H & _).
  - reflexivity.
  - vm_compute. reflexivity.
  - vm_compute. reflexivity.
  - vm_compute. split; [discriminate | reflexivity].
  - exact H.
Defined.

(** A float is first truncated by [i64.trunc_sat_f64_u] when the target is
    unsigned, whose results above the range of [i64] are then read as negative:
    what is infinite, [2 ^ 64 - 1] after the truncation, becomes 0, and so does
    [1e19]. *)
Example unsigned_clamp_reads_signed :
  floatCastExpr "f64" "u8" "(local.get $f)" = clampToIntegerRange "u8" "(i64.trunc_sat_f64_u (local.get $f))" /\
  evalText (list_to_map [("$v", I64 (2 ^ 64 - 1))]) (clampToIntegerRange "u8" "(local.get $v)") = Ok (stored "u8" 0) /\
  evalText (list_to_map [("$v", I64 (10 ^ 19))]) (clampToIntegerRange "u32" "(local.get $v)") = Ok (stored "u32" 0).
Proof. split; [reflexivity|]. split; vm_compute; reflexivity. Qed.

(** A cast of integers records the operand's own expression, so that it is right
    exactly when the value is in the range of both types. *)
Lemma integer_cast_records module values source target x y :
  isIntegerType source = true -> isIntegerType target = true ->
  writeCast module values (instr (mkValue y target) "cast" [mkValue x source] "") =
  Ok (<[y := valueExpr values (mkValue x source)]> values).
Proof.
  intros Hs Ht. unfold writeCast, wasmType. cbn [iArgs iResult instr vType vName].
  destruct (integer_binaryInstruction "" source Hs) as (_ & _ & -> & _).
  destruct (integer_binaryInstruction "" target Ht) as (_ & _ & -> & _). rewrite Hs, Ht. reflexivity.
Qed.

(** A narrowing cast does not narrow: 300 stays 300 as a [u8], and then
    [cast<u8>(x) == 44] is false. *)
Example cast_does_not_narrow :
  exists values' text values'',
    writeCast (mkModule ∅ ∅ ∅ ∅ [] ∅) ∅ (instr (mkValue "%b" "u8") "cast" [mkValue "%x" "i64"] "") = Ok values' /\
    evalText (list_to_map [("$x", I64 300)]) (valueExpr values' (mkValue "%b" "u8")) = Ok (I64 300) /\
    ~ inRange "u8" 300 /\ wrapTo "u8" 300 = 44 /\
    writeScalar (mkModule ∅ ∅ ∅ ∅ [] ∅) values'
      (instr (mkValue "%c" "bool") "binary.==" [mkValue "%b" "u8"; mkValue "44" "u8"] "") = Ok (text, values'') /\
    runText (list_to_map [("$x", I64 300)]) text = Ok (list_to_map [("$c", I32 0); ("$x", I64 300)]).
Proof.
  do 3 eexists. split; [reflexivity|]. split; [vm_compute; reflexivity|].
  split; [intros (_ & H); vm_compute in H; destruct H; discriminate|]. split; [reflexivity|].
  split; [reflexivity|]. vm_compute. reflexivity.
Qed.
