(* ===== verification/WasmPhis.v ===== *)
(** * The copies of an edge ([internal/wasm/control.go], [frame.go], [memory.go])

    The phis of a block take their values at once; [writePhiCopies] writes the
    assignments one after the other, so that none reads a phi already assigned,
    and parks a value in a temporary when each waits for another.  The theorem is
    that this is the parallel assignment, and that the loop ends, for phis held in
    locals.  The last example is a set of copies on which it does not end. *)

From stdpp Require Import base list strings gmap.
From Stdlib Require Import ZArith Lia String Ascii.
From S2P Require Import Prelude GoStd IR Verify Layout WasmStructure WasmControl WasmText WasmScalar.

#[local] Open Scope string_scope.
#[local] Open Scope list_scope.

(** ** Copies of memory ([memory.go]) *)

Definition inlineCopyLimit : Z := 64.

(** [isPlainAddress] *)
Definition isPlainAddress (expr : string) : bool :=
  negb (Contains expr "load") && negb (Contains expr "call") && negb (Contains expr "global").

(** [copyChunk] *)
Definition copyChunk (left : Z) : Z * string * string :=
  if (8 <=? left)%Z then (8%Z, "i64.load", "i64.store")
  else if (4 <=? left)%Z then (4%Z, "i32.load", "i32.store")
  else (1%Z, "i32.load8_u", "i32.store8").

(** The loop of [writeMemoryCopy]: each round moves a byte at least. *)
Fixpoint copyWords (fuel : nat) (dst src : string) (offset size : Z) : string :=
  match fuel with
  | O => ""
  | S fuel =>
      if (offset <? size)%Z then
        let '(width, load, store) := copyChunk (size - offset) in
        "            (" +:+ store +:+ " " +:+ addressAt dst offset +:+ " (" +:+ load +:+ " " +:+ addressAt src offset +:+ "))" +:+
        String "010"%char (copyWords fuel dst src (offset + width) size)
      else ""
  end.

(** [writeMemoryCopy] *)
Definition writeMemoryCopy (dst src : string) (size : Z) : string :=
  if (size =? 0)%Z then ""
  else if (inlineCopyLimit <? size)%Z || negb (isPlainAddress dst) || negb (isPlainAddress src)
  then "            (memory.copy " +:+ dst +:+ " " +:+ src +:+ " (i32.const " +:+ FormatInt size +:+ "))" +:+ String "010"%char ""
  else copyWords (Z.to_nat size) dst src 0 size.

(** ** The copies that wait *)

(** [phiCell] of [frame.go] *)
Record phiCell : Type := mkCell { cellSlot : string; cellPark : string; cellSize : Z }.

(** A copy with the text of what it reads. *)
Record pendingCopy : Type := mkPending { pdDst : Value; pdSrc : string }.

(** [phiTempLocal] *)
Definition phiTempLocal (wasmType : string) : string := "$__kizu_phi_" +:+ wasmType.

(** [phiCopyRead] *)
Definition phiCopyRead (pending : list pendingCopy) (index : nat) : bool :=
  match pending !! index with
  | None => false
  | Some copy =>
      existsb id (imap (fun other candidate =>
        negb (Nat.eqb other index) && Contains (pdSrc candidate) (localGet (vName (pdDst copy)))) pending)
  end.

(** The first copy no other one waits for. *)
Definition readyIndex (pending : list pendingCopy) : option nat :=
  List.find (fun index => negb (phiCopyRead pending index)) (seq 0 (List.length pending)).

Section Copies.
Context (module : Module_) (cells : gmap string phiCell).

Definition tempOf (dst : Value) : string := phiTempLocal (wasmType module (vType dst)).

(** The text that parks the value of a phi, and what reads it from then on. *)
Definition parkCopy (parked : Value) : string * string :=
  let read := localGet (vName parked) in
  match cells !! vName parked with
  | Some cell => (writeMemoryCopy (cellPark cell) read (cellSize cell), cellPark cell)
  | None =>
      ("            (local.set " +:+ tempOf parked +:+ " " +:+ read +:+ ")" +:+ String "010"%char "",
       "(local.get " +:+ tempOf parked +:+ ")")
  end.

Definition readHeld (read held : string) (copy : pendingCopy) : pendingCopy :=
  if String.eqb (pdSrc copy) read then mkPending (pdDst copy) held else copy.

(** The text of one copy. *)
Definition writeCopy (next : pendingCopy) : string :=
  let '(text, src) := match cells !! vName (pdDst next) with
                      | Some cell => (writeMemoryCopy (cellSlot cell) (pdSrc next) (cellSize cell), cellSlot cell)
                      | None => ("", pdSrc next)
                      end in
  text +:+ "            (local.set " +:+ symbolName (vName (pdDst next)) +:+ " " +:+ src +:+ ")" +:+ String "010"%char "".

(** The loop of [writePhiCopies]: [None] when the rounds granted are used up. *)
Fixpoint writePending (fuel : nat) (values : gmap string string) (pending : list pendingCopy)
  : option (string * gmap string string) :=
  match pending, fuel with
  | [], _ => Some ("", values)
  | _, O => None
  | first :: _, S fuel =>
      match readyIndex pending with
      | None =>
          let '(text, held) := parkCopy (pdDst first) in
          '(rest, values) ← writePending fuel values (map (readHeld (localGet (vName (pdDst first))) held) pending);
          Some (text +:+ rest, values)
      | Some ready =>
          next ← pending !! ready;
          '(rest, values) ← writePending fuel (<[vName (pdDst next) := localGet (vName (pdDst next))]> values)
                              (delete ready pending);
          Some (writeCopy next +:+ rest, values)
      end
  end.

Definition pendingOf (values : gmap string string) (copies : list phiCopy) : list pendingCopy :=
  map (fun c => mkPending (pcDst c) (valueExpr values (pcSrc c))) copies.

(** [writePhiCopies] *)
Definition writePhiCopies (fuel : nat) (s : structure) (values : gmap string string) (source target : string)
  : option (string * gmap string string) :=
  writePending fuel values (pendingOf values (edgeCopies s source target)).
End Copies.

(** [phiTempTypes] *)
Definition phiTempTypes (module : Module_) (fn : Function) : list string :=
  foldl (fun types block =>
    let phis := map (fun i => vName (iResult i)) (List.filter isPhi (bInstrs block)) in
    foldl (fun types i =>
      if isPhi i then
        foldl (fun types inc =>
          let name := vName (inValue inc) in
          if negb (oneOf name phis) || String.eqb name (vName (iResult i)) then types
          else
            let t := wasmType module (vType (inValue inc)) in
            if oneOf t types then types else types ++ [t]) types (iIncoming i)
      else types) types (bInstrs block)) [] (fBlocks fn).

(** ** Readers *)

(** The sum of a rank over a list that each element of another one bounds. *)
Definition total {A} (f : A -> nat) (l : list A) : nat := foldr (fun x n => f x + n) 0 l.

Lemma total_perm {A} (f : A -> nat) l l' : Permutation l l' -> total f l = total f l'.
Proof. induction 1; cbn [total foldr] in *; unfold total in *; cbn [foldr]; lia. Qed.

Lemma total_le {A} (f : A -> nat) l l' : Forall2 (fun x y => f x <= f y) l l' -> total f l <= total f l'.
Proof. induction 1; unfold total in *; cbn [foldr]; lia. Qed.

Lemma total_eq {A} (f : A -> nat) l l' :
  Forall2 (fun x y => f x <= f y) l l' -> total f l = total f l' -> Forall2 (fun x y => f x = f y) l l'.
Proof.
  induction 1 as [|x y l l' H Hl IH]; intros E; [constructor|]. pose proof (total_le f l l' Hl).
  unfold total in *. cbn [foldr] in E. constructor; [lia | apply IH; lia].
Qed.

Definition localOf (c : pendingCopy) : string := symbolName (vName (pdDst c)).

(** [c] reads the local [x]. *)
Definition mentions (c : pendingCopy) (x : string) : bool := Contains (pdSrc c) (getText x).

Lemma readyIndex_Some pending i :
  readyIndex pending = Some i ->
  exists c, pending !! i = Some c /\ forall j d, pending !! j = Some d -> j <> i -> mentions d (localOf c) = false.
Proof.
  intros H. apply List.find_some in H as [Hin Hr]. apply in_seq in Hin as [_ Hlt].
  destruct (lookup_lt_is_Some_2 pending i) as [c Hc]; [cbn in Hlt; exact Hlt|]. exists c. split; [exact Hc|].
  intros j d Hd Hne. destruct (mentions d (localOf c)) eqn:E; [exfalso|reflexivity].
  apply negb_true_iff, not_true_iff_false in Hr. apply Hr. unfold phiCopyRead. rewrite Hc. apply existsb_exists.
  exists true. split; [|reflexivity]. apply list_elem_of_In, elem_of_lookup_imap. exists j, d. split; [|exact Hd].
  rewrite (proj2 (Nat.eqb_neq j i) Hne). symmetry. exact E.
Qed.

Lemma readyIndex_None pending i c :
  readyIndex pending = None -> pending !! i = Some c ->
  exists j d, pending !! j = Some d /\ j <> i /\ mentions d (localOf c) = true.
Proof.
  intros H Hc. pose proof (List.find_none _ _ H i) as Hr. cbv beta in Hr.
  rewrite negb_false_iff in Hr. assert (Hin : In i (seq 0 (List.length pending))).
  { apply in_seq. apply lookup_lt_Some in Hc. cbn. lia. }
  specialize (Hr Hin). unfold phiCopyRead in Hr. rewrite Hc in Hr. apply existsb_exists in Hr as (b & Hb & E).
  apply list_elem_of_In, elem_of_lookup_imap in Hb as (j & d & -> & Hd). unfold id in E. apply andb_true_iff in E as [E1 E2].
  exists j, d. split; [exact Hd|]. split; [|exact E2]. apply negb_true_iff, Nat.eqb_neq in E1. exact E1.
Qed.

(** A block's copies: each reads at most one local that the copies assign or park
    in, and what it reads inside a larger expression comes later in some order,
    so that a cycle has only plain reads. *)
Section Schedulable.
Context (temps : list string) (rank : string -> nat).

Record schedulable (pending : list pendingCopy) : Prop := {
  sc_locals : NoDup (map localOf pending);
  sc_atoms x : x ∈ map localOf pending ++ temps -> isAtom x = true;
  sc_apart x : x ∈ temps -> x ∉ map localOf pending;
  sc_sources c : c ∈ pending -> oneExpression (pdSrc c) = true;
  sc_single c x y : c ∈ pending -> x ∈ map localOf pending ++ temps -> y ∈ map localOf pending ++ temps ->
    mentions c x = true -> mentions c y = true -> x = y;
  sc_rank c d : c ∈ pending -> d ∈ pending -> mentions c (localOf d) = true ->
    (pdSrc c = getText (localOf d) /\ rank (localOf d) <= rank (localOf c)) \/ rank (localOf d) < rank (localOf c)
}.

Lemma schedulable_local pending c : c ∈ pending -> localOf c ∈ map localOf pending ++ temps.
Proof. intros H. apply elem_of_app. left. apply list_elem_of_fmap. eauto. Qed.

Lemma localOf_inj pending c d : schedulable pending -> c ∈ pending -> d ∈ pending -> localOf c = localOf d -> c = d.
Proof.
  intros S Hc Hd E. apply list_elem_of_lookup in Hc as [i Hi], Hd as [j Hj].
  assert (i = j) as <-; [|congruence]. apply (NoDup_lookup (map localOf pending) i j (localOf c) (sc_locals _ S)).
  - rewrite list_lookup_fmap, Hi. reflexivity.
  - rewrite list_lookup_fmap, Hj, E. reflexivity.
Qed.

(** When every copy is waited for, the reads are a permutation of the copies, and
    each is a plain one. *)
Lemma stuck_exact pending :
  schedulable pending -> readyIndex pending = None ->
  forall c, c ∈ pending -> exists d, d ∈ pending /\ pdSrc c = getText (localOf d) /\ c <> d.
Proof.
  intros S H.
  assert (Hr : forall c, c ∈ pending -> exists d, d ∈ pending /\ mentions d (localOf c) = true /\ d <> c).
  { intros c Hc. apply list_elem_of_lookup in Hc as [i Hi]. destruct (readyIndex_None pending i c H Hi) as (j & d & Hd & Hne & Hm).
    exists d. split; [apply list_elem_of_lookup; eauto|]. split; [exact Hm|]. intros ->. apply Hne.
    apply (NoDup_lookup (map localOf pending) j i (localOf c) (sc_locals _ S)); rewrite list_lookup_fmap; [rewrite Hd | rewrite Hi]; reflexivity. }
  assert (Hl : forall l, (forall c, c ∈ l -> c ∈ pending) ->
            exists rs, Forall2 (fun c d => c ∈ pending /\ d ∈ pending /\ mentions d (localOf c) = true /\ d <> c) l rs).
  { induction l as [|c l IH]; intros Hsub; [exists []; constructor|].
    destruct IH as [rs Hrs]; [intros; apply Hsub; right; assumption|]. destruct (Hr c) as [d Hd]; [apply Hsub; left|].
    exists (d :: rs). constructor; [split; [apply Hsub; left | exact Hd] | exact Hrs]. }
  destruct (Hl pending) as [rs Hrs]; [auto|]. clear Hl Hr.
  assert (Hnd : NoDup rs).
  { apply NoDup_alt. intros i j d Hi Hj. destruct (Forall2_lookup_r _ _ _ _ _ Hrs Hi) as (c & Hc & _ & Hd & Hm & _).
    destruct (Forall2_lookup_r _ _ _ _ _ Hrs Hj) as (c' & Hc' & _ & _ & Hm' & _).
    assert (E : localOf c = localOf c').
    { apply (sc_single _ S d); try assumption; apply schedulable_local, list_elem_of_lookup; eauto. }
    apply (NoDup_lookup (map localOf pending) i j (localOf c) (sc_locals _ S)); rewrite list_lookup_fmap; [rewrite Hc | rewrite Hc', E]; reflexivity. }
  assert (Hin : forall d, d ∈ rs -> d ∈ pending).
  { intros d Hd. apply list_elem_of_lookup in Hd as [i Hi]. destruct (Forall2_lookup_r _ _ _ _ _ Hrs Hi) as (c & _ & _ & Hd & _). exact Hd. }
  assert (Hp : Permutation rs pending).
  { apply submseteq_length_Permutation; [apply NoDup_submseteq; assumption|]. rewrite (Forall2_length _ _ _ Hrs). lia. }
  assert (Hle : Forall2 (fun c d => rank (localOf c) <= rank (localOf d)) pending rs).
  { apply (Forall2_impl _ _ _ _ Hrs). intros c d (Hc & Hd & Hm & _). destruct (sc_rank _ S d c Hd Hc Hm) as [[_ Hk]|Hk]; lia. }
  pose proof (total_eq (fun c => rank (localOf c)) pending rs Hle (eq_sym (total_perm _ _ _ Hp))) as Heq.
  intros c Hc. rewrite <- Hp in Hc. apply list_elem_of_lookup in Hc as [i Hi].
  destruct (Forall2_lookup_r _ _ _ _ _ Hrs Hi) as (d & Hd & Hdin & Hcin & Hm & Hne).
  destruct (Forall2_lookup_r _ _ _ _ _ Heq Hi) as (d' & Hd' & Hk). assert (d' = d) as -> by congruence.
  exists d. split; [exact Hdin|]. split; [|exact Hne].
  destruct (sc_rank _ S c d Hcin Hdin Hm) as [[Hx _]|Hx]; [exact Hx | lia].
Qed.
End Schedulable.

(** ** The loop *)

Section Loop.
Context (module : Module_) (cells : gmap string phiCell) (temps : list string) (rank : string -> nat).

Lemma schedulable_sub pending rest :
  sublist rest pending -> schedulable temps rank pending -> schedulable temps rank rest.
Proof.
  intros Hsub S. pose proof (fun c H => elem_of_sublist _ _ c H Hsub) as Hin.
  assert (Hloc : sublist (map localOf rest) (map localOf pending)) by (apply fmap_sublist, Hsub).
  assert (Hx : forall x, x ∈ map localOf rest ++ temps -> x ∈ map localOf pending ++ temps).
  { intros x. rewrite !elem_of_app. intros [H|H]; [left; apply (elem_of_sublist _ _ x H Hloc) | auto]. }
  constructor.
  - apply (sublist_NoDup _ _ (sc_locals _ _ _ S) Hloc).
  - intros x H. apply (sc_atoms _ _ _ S), Hx, H.
  - intros x H H'. apply (sc_apart _ _ _ S x H), (elem_of_sublist _ _ x H' Hloc).
  - intros c H. apply (sc_sources _ _ _ S), Hin, H.
  - intros c x y Hc H H'. apply (sc_single _ _ _ S); auto.
  - intros c d Hc Hd. apply (sc_rank _ _ _ S); auto.
Qed.

(** Parking leaves the copies schedulable. *)
Lemma schedulable_park pending first temp :
  schedulable temps rank pending -> temp ∈ temps ->
  schedulable temps rank (map (readHeld (getText (localOf first)) (getText temp)) pending).
Proof.
  intros S Ht. set (f := readHeld (getText (localOf first)) (getText temp)).
  assert (Hloc : map localOf (map f pending) = map localOf pending).
  { rewrite map_map. apply map_ext. intros c. unfold f, readHeld. destruct (String.eqb _ _); reflexivity. }
  assert (Hta : isAtom temp = true) by (apply (sc_atoms _ _ _ S), elem_of_app; auto).
  assert (Hf : forall c', c' ∈ map f pending -> exists c, c ∈ pending /\ localOf c' = localOf c /\
            (pdSrc c' = getText temp \/ c' = c)).
  { intros c' H. apply list_elem_of_fmap in H as (c & -> & Hc). exists c. split; [exact Hc|].
    unfold f, readHeld. destruct (String.eqb _ _); auto. }
  constructor; rewrite ?Hloc.
  - apply (sc_locals _ _ _ S).
  - apply (sc_atoms _ _ _ S).
  - apply (sc_apart _ _ _ S).
  - intros c' H. destruct (Hf c' H) as (c & Hc & _ & [->| ->]); [apply getText_one, Hta | apply (sc_sources _ _ _ S), Hc].
  - intros c' x y H Hx Hy Mx My. destruct (Hf c' H) as (c & Hc & _ & [E| ->]); [|apply (sc_single _ _ _ S c); assumption].
    unfold mentions in Mx, My. rewrite E in Mx, My.
    apply Contains_getText in Mx, My; [congruence | try assumption ..]; apply (sc_atoms _ _ _ S); assumption.
  - intros c' d' H H' M. destruct (Hf c' H) as (c & Hc & Ec & Hs). destruct (Hf d' H') as (d & Hd & Ed & _).
    rewrite Ed in *. rewrite Ec. destruct Hs as [E| ->]; [|apply (sc_rank _ _ _ S); assumption].
    exfalso. unfold mentions in M. rewrite E in M. assert (Hdl : localOf d ∈ map localOf pending) by (apply list_elem_of_fmap; eauto).
    apply Contains_getText in M; [|exact Hta|apply (sc_atoms _ _ _ S), elem_of_app; auto].
    apply (sc_apart _ _ _ S temp Ht). rewrite M. exact Hdl.
Qed.

(** Once one of them is parked, a copy is ready. *)
Lemma park_ready first rest temp :
  schedulable temps rank (first :: rest) -> temp ∈ temps -> readyIndex (first :: rest) = None ->
  readyIndex (map (readHeld (getText (localOf first)) (getText temp)) (first :: rest)) <> None.
Proof.
  intros S Ht H E. set (f := readHeld (getText (localOf first)) (getText temp)) in *.
  destruct (readyIndex_None _ 0 (f first) E eq_refl) as (j & d' & Hd' & Hj & Hm).
  change (map f (first :: rest)) with (f <$> (first :: rest)) in Hd'.
  rewrite list_lookup_fmap in Hd'. destruct ((first :: rest) !! j) as [d|] eqn:Hd; [|discriminate]. injection Hd' as <-.
  assert (Hf : localOf (f first) = localOf first) by (unfold f, readHeld; destruct (String.eqb _ _); reflexivity).
  assert (Hfl : localOf first ∈ map localOf (first :: rest)) by (left).
  rewrite Hf in Hm. assert (Hdin : d ∈ first :: rest) by (apply list_elem_of_lookup; eauto).
  destruct (stuck_exact temps rank _ S H d Hdin) as (e & He & Hsrc & _). unfold f, readHeld in Hm.
  assert (A : forall x, x ∈ map localOf (first :: rest) ++ temps -> isAtom x = true) by apply (sc_atoms _ _ _ S).
  destruct (String.eqb_spec (pdSrc d) (getText (localOf first))) as [Eq|Ne].
  - unfold mentions in Hm. cbn [pdSrc] in Hm. apply Contains_getText in Hm; [|apply A, elem_of_app; auto ..].
    apply (sc_apart _ _ _ S temp Ht). rewrite Hm. exact Hfl.
  - unfold mentions in Hm. rewrite Hsrc in Hm. apply Contains_getText in Hm; [|apply A, elem_of_app; left ..].
    + apply Ne. rewrite Hsrc, Hm. reflexivity.
    + apply list_elem_of_fmap. eauto.
    + exact Hfl.
Qed.

(** What is evaluated, and where it goes. *)
Record ready (ρ : gmap string wval) (val : string -> wval) (pending : list pendingCopy) : Prop := {
  rd_schedulable : schedulable temps rank pending;
  rd_temps c : c ∈ pending -> tempOf module (pdDst c) ∈ temps;
  rd_locals c : c ∈ pending -> cells !! vName (pdDst c) = None;
  rd_sources c : c ∈ pending -> evalText ρ (pdSrc c) = Ok (val (localOf c));
  rd_declared c : c ∈ pending -> is_Some (ρ !! localOf c)
}.

Lemma ready_write ρ val pending i c :
  ready ρ val pending -> readyIndex pending = Some i -> pending !! i = Some c ->
  ready (<[localOf c := val (localOf c)]> ρ) val (delete i pending) /\ localOf c ∉ map localOf (delete i pending).
Proof.
  intros R Hi Hc. pose proof (rd_schedulable _ _ _ R) as S. pose proof (sublist_delete pending i) as Hsub.
  assert (Hin : forall d, d ∈ delete i pending -> d ∈ pending) by (intros d Hd; apply (elem_of_sublist _ _ d Hd Hsub)).
  destruct (readyIndex_Some pending i Hi) as (c' & Hc' & Hno). assert (c' = c) as -> by congruence.
  assert (Hne : forall d, d ∈ delete i pending -> mentions d (localOf c) = false /\ localOf d <> localOf c).
  { intros d Hd. apply list_elem_of_lookup in Hd as [k Hk]. rewrite list_lookup_delete in Hk.
    assert (Hj : exists j, pending !! j = Some d /\ j <> i) by (case_decide; eexists; (split; [exact Hk | lia])).
    destruct Hj as (j & Hj & Hji). split; [apply (Hno j d Hj Hji)|]. intros E. apply Hji.
    apply (NoDup_lookup (map localOf pending) j i (localOf d) (sc_locals _ _ _ S)); rewrite list_lookup_fmap; [rewrite Hj | rewrite Hc, E]; reflexivity. }
  split; [|intros H; apply list_elem_of_fmap in H as (d & E & Hd); destruct (Hne d Hd); congruence]. constructor.
  - apply (schedulable_sub pending); assumption.
  - intros d Hd. apply (rd_temps _ _ _ R), Hin, Hd.
  - intros d Hd. apply (rd_locals _ _ _ R), Hin, Hd.
  - intros d Hd. destruct (Hne d Hd) as [Hm _]. rewrite evalText_frame; [apply (rd_sources _ _ _ R), Hin, Hd | apply (sc_sources _ _ _ S), Hin, Hd | exact Hm].
  - intros d Hd. destruct (Hne d Hd) as [_ Hl]. rewrite lookup_insert_ne by congruence. apply (rd_declared _ _ _ R), Hin, Hd.
Qed.

Lemma ready_park ρ val first rest v :
  ready ρ val (first :: rest) -> readyIndex (first :: rest) = None -> ρ !! localOf first = Some v ->
  let temp := tempOf module (pdDst first) in
  ready (<[temp := v]> ρ) val (map (readHeld (getText (localOf first)) (getText temp)) (first :: rest)).
Proof.
  intros R H Hv temp. pose proof (rd_schedulable _ _ _ R) as S.
  assert (Ht : temp ∈ temps) by (apply (rd_temps _ _ _ R); left).
  assert (Hta : isAtom temp = true) by (apply (sc_atoms _ _ _ S), elem_of_app; auto).
  assert (Hfa : isAtom (localOf first) = true) by (apply (sc_atoms _ _ _ S), elem_of_app; left; left).
  set (f := readHeld (getText (localOf first)) (getText temp)).
  assert (Hf : forall c', c' ∈ map f (first :: rest) -> exists c, c ∈ first :: rest /\ c' = f c /\ pdDst c' = pdDst c).
  { intros c' H'. apply list_elem_of_fmap in H' as (c & -> & Hc). exists c. split; [exact Hc|]. split; [reflexivity|].
    unfold f, readHeld. destruct (String.eqb _ _); reflexivity. }
  constructor.
  - apply schedulable_park; assumption.
  - intros c' H'. destruct (Hf c' H') as (c & Hc & _ & ->). apply (rd_temps _ _ _ R), Hc.
  - intros c' H'. destruct (Hf c' H') as (c & Hc & _ & ->). apply (rd_locals _ _ _ R), Hc.
  - intros c' H'. destruct (Hf c' H') as (c & Hc & -> & E). unfold localOf. rewrite E. fold (localOf c).
    pose proof (rd_sources _ _ _ R c Hc) as Hsrc. unfold f, readHeld. destruct (String.eqb_spec (pdSrc c) (getText (localOf first))) as [Eq|Ne]; cbn [pdSrc].
    + rewrite evalText_getText, lookup_insert_eq by exact Hta. rewrite Eq, evalText_getText, Hv in Hsrc by exact Hfa. exact Hsrc.
    + rewrite evalText_frame; [exact Hsrc | apply (sc_sources _ _ _ S), Hc|]. change (mentions c temp = false).
      destruct (mentions c temp) eqn:Hm; [exfalso|reflexivity]. destruct (stuck_exact temps rank _ S H c Hc) as (d & Hd & Hsd & _).
      assert (Hdl : localOf d ∈ map localOf (first :: rest)) by (apply list_elem_of_fmap; eauto).
      unfold mentions in Hm. rewrite Hsd in Hm. apply Contains_getText in Hm; [|apply (sc_atoms _ _ _ S), elem_of_app; auto | exact Hta].
      apply (sc_apart _ _ _ S temp Ht). rewrite <- Hm. exact Hdl.
  - intros c' H'. destruct (Hf c' H') as (c & Hc & _ & E). unfold localOf. rewrite E. fold (localOf c).
    rewrite lookup_insert_ne; [apply (rd_declared _ _ _ R), Hc|]. intros El. apply (sc_apart _ _ _ S temp Ht). rewrite El.
    apply list_elem_of_fmap. eauto.
Qed.

(** The rounds left are enough: two a copy, one less when a copy is ready. *)
Definition rounds (pending : list pendingCopy) : nat :=
  match readyIndex pending with
  | None => 2 * List.length pending
  | Some _ => 2 * List.length pending - 1
  end.

(** What the loop leaves. *)
Record copied (values values' : gmap string string) (ρ ρ' : gmap string wval) (val : string -> wval)
    (pending : list pendingCopy) : Prop := {
  cp_value c : c ∈ pending -> ρ' !! localOf c = Some (val (localOf c));
  cp_other x : x ∉ map localOf pending ++ temps -> ρ' !! x = ρ !! x;
  cp_recorded c : c ∈ pending -> values' !! vName (pdDst c) = Some (localGet (vName (pdDst c)));
  cp_unrecorded x : x ∉ map (fun c => vName (pdDst c)) pending -> values' !! x = values !! x
}.

Lemma copied_write values values' ρ ρ' val pending i c :
  pending !! i = Some c -> localOf c ∉ map localOf (delete i pending) -> localOf c ∉ temps ->
  copied (<[vName (pdDst c) := localGet (vName (pdDst c))]> values) values' (<[localOf c := val (localOf c)]> ρ) ρ' val (delete i pending) ->
  copied values values' ρ ρ' val pending.
Proof.
  intros Hc Hl Ht K. pose proof (sublist_delete pending i) as Hsub.
  assert (Hd : forall d, d ∈ pending -> d = c \/ d ∈ delete i pending).
  { intros d Hd. apply list_elem_of_lookup in Hd as [j Hj]. destruct (decide (j = i)) as [->|Hne]; [left; congruence|]. right.
    destruct (decide (j < i)).
    - apply list_elem_of_lookup. exists j. rewrite list_lookup_delete_lt by lia. exact Hj.
    - apply list_elem_of_lookup. exists (j - 1). rewrite list_lookup_delete_ge by lia. replace (S (j - 1)) with j by lia. exact Hj. }
  assert (Hci : c ∈ pending) by (apply list_elem_of_lookup; eauto).
  assert (Hv : vName (pdDst c) ∉ map (fun c => vName (pdDst c)) (delete i pending)).
  { intros H. apply list_elem_of_fmap in H as (d & E & H). apply Hl. apply list_elem_of_fmap. exists d. unfold localOf. rewrite <- E. auto. }
  constructor.
  - intros d H. destruct (Hd d H) as [->|H']; [|apply (cp_value _ _ _ _ _ _ K), H'].
    rewrite (cp_other _ _ _ _ _ _ K) by (rewrite elem_of_app; tauto). apply lookup_insert_eq.
  - intros x Hx. rewrite elem_of_app in Hx. rewrite (cp_other _ _ _ _ _ _ K), lookup_insert_ne; [reflexivity| |].
    + intros <-. apply Hx. left. apply list_elem_of_fmap. eauto.
    + rewrite elem_of_app. intros [H|H]; [apply Hx; left; apply (elem_of_sublist _ _ _ H), fmap_sublist, Hsub | apply Hx; auto].
  - intros d H. destruct (Hd d H) as [->|H']; [|apply (cp_recorded _ _ _ _ _ _ K), H'].
    rewrite (cp_unrecorded _ _ _ _ _ _ K) by exact Hv. apply lookup_insert_eq.
  - intros x Hx. rewrite (cp_unrecorded _ _ _ _ _ _ K), lookup_insert_ne; [reflexivity| |].
    + intros <-. apply Hx, list_elem_of_fmap. eauto.
    + intros H. apply Hx, (elem_of_sublist _ _ _ H), fmap_sublist, Hsub.
Qed.

Lemma copied_park values values' ρ ρ' val pending (f : pendingCopy -> pendingCopy) v temp :
  (forall c, pdDst (f c) = pdDst c) -> temp ∈ temps ->
  copied values values' (<[temp := v]> ρ) ρ' val (map f pending) -> copied values values' ρ ρ' val pending.
Proof.
  intros Hf Ht K. assert (Hl : map localOf (map f pending) = map localOf pending).
  { rewrite map_map. apply map_ext. intros c. unfold localOf. rewrite Hf. reflexivity. }
  assert (Hv : map (fun c => vName (pdDst c)) (map f pending) = map (fun c => vName (pdDst c)) pending).
  { rewrite map_map. apply map_ext. intros c. rewrite Hf. reflexivity. }
  constructor.
  - intros c Hc. pose proof (cp_value _ _ _ _ _ _ K (f c)) as H. unfold localOf in H. rewrite Hf in H.
    apply H, list_elem_of_fmap. eauto.
  - intros x Hx. rewrite (cp_other _ _ _ _ _ _ K) by (rewrite Hl; exact Hx). apply lookup_insert_ne. intros <-.
    apply Hx, elem_of_app. auto.
  - intros c Hc. pose proof (cp_recorded _ _ _ _ _ _ K (f c)) as H. rewrite Hf in H. apply H, list_elem_of_fmap. eauto.
  - intros x Hx. apply (cp_unrecorded _ _ _ _ _ _ K). rewrite Hv. exact Hx.
Qed.

Lemma writePending_copies fuel : forall values pending ρ val,
  ready ρ val pending -> rounds pending <= fuel ->
  exists text values' ρ', writePending module cells fuel values pending = Some (text, values') /\
    linesRun ρ text ρ' /\ copied values values' ρ ρ' val pending.
Proof.
  induction fuel as [|fuel IH]; intros values pending ρ val R Hf; destruct pending as [|first rest].
  1, 3: exists "", values, ρ; split; [reflexivity|]; split; [apply linesRun_nil|]; constructor; try reflexivity; intros c H; inversion H.
  { exfalso. unfold rounds in Hf. cbn [List.length] in Hf. destruct (readyIndex _); lia. }
  pose proof (rd_schedulable _ _ _ R) as S. cbn [writePending]. unfold rounds in Hf.
  destruct (readyIndex (first :: rest)) as [i|] eqn:Hi.
  - destruct (readyIndex_Some _ i Hi) as (c & Hc & _). rewrite Hc. cbn [mbind option_bind].
    assert (Hcin : c ∈ first :: rest) by (apply list_elem_of_lookup; eauto).
    destruct (ready_write ρ val _ i c R Hi Hc) as [R' Hl].
    assert (Hlen : List.length (delete i (first :: rest)) = List.length rest).
    { rewrite length_delete by eauto. cbn [List.length]. lia. }
    destruct (IH (<[vName (pdDst c) := localGet (vName (pdDst c))]> values) _ _ val R') as (text & values' & ρ' & -> & Hrun & K).
    { unfold rounds. rewrite Hlen. cbn [List.length] in Hf. destruct (readyIndex (delete i (first :: rest))); lia. }
    cbn [mbind option_bind]. exists (setLine (localOf c) (pdSrc c) +:+ text), values', ρ'. split; [|split].
    + unfold writeCopy. rewrite (rd_locals _ _ _ R c Hcin). reflexivity.
    + apply (linesRun_cons ρ _ _ (val (localOf c))); [apply (sc_atoms _ _ _ S), schedulable_local, Hcin
        | apply (sc_sources _ _ _ S), Hcin | apply (rd_sources _ _ _ R), Hcin | exact Hrun].
    + apply (copied_write _ _ _ _ _ _ i c Hc Hl); [|exact K]. intros H. apply (sc_apart _ _ _ S _ H), list_elem_of_fmap. eauto.
  - destruct (rd_declared _ _ _ R first ltac:(left)) as [v Hv]. unfold parkCopy. rewrite (rd_locals _ _ _ R first) by left.
    assert (Ht : tempOf module (pdDst first) ∈ temps) by (apply (rd_temps _ _ _ R); left).
    pose proof (ready_park ρ val first rest v R Hi Hv) as R'. pose proof (park_ready first rest _ S Ht Hi) as Hready. cbv zeta in R'.
    assert (Hta : isAtom (tempOf module (pdDst first)) = true) by (apply (sc_atoms _ _ _ S), elem_of_app; auto).
    assert (Hfa : isAtom (localOf first) = true) by (apply (sc_atoms _ _ _ S), elem_of_app; left; left).
    change (localGet (vName (pdDst first))) with (getText (localOf first)).
    change ("(local.get " +:+ tempOf module (pdDst first) +:+ ")") with (getText (tempOf module (pdDst first))).
    set (f := readHeld (getText (localOf first)) (getText (tempOf module (pdDst first)))) in *.
    destruct (IH values _ _ val R') as (text & values' & ρ' & -> & Hrun & K).
    { unfold rounds. rewrite length_map. cbn [List.length] in *. destruct (readyIndex (map f (first :: rest))); [lia | contradiction]. }
    cbn [mbind option_bind]. exists (setLine (tempOf module (pdDst first)) (getText (localOf first)) +:+ text), values', ρ'.
    split; [reflexivity|]. split.
    + apply (linesRun_cons ρ _ _ v _ _ Hta (getText_one _ Hfa)); [rewrite evalText_getText, Hv by exact Hfa; reflexivity | exact Hrun].
    + apply (copied_park values values' ρ ρ' val (first :: rest) f v (tempOf module (pdDst first))); auto.
      intros c. unfold f, readHeld. destruct (String.eqb _ _); reflexivity.
Qed.
End Loop.

(** ** Checking the conditions *)

Definition schedulableb (temps : list string) (rank : string -> nat) (pending : list pendingCopy) : bool :=
  let locals := map localOf pending in
  bool_decide (NoDup locals) && forallb isAtom (locals ++ temps) &&
  forallb (fun x => negb (bool_decide (x ∈ locals))) temps && forallb (fun c => oneExpression (pdSrc c)) pending &&
  forallb (fun c => forallb (fun x => forallb (fun y =>
    negb (mentions c x && mentions c y) || String.eqb x y) (locals ++ temps)) (locals ++ temps)) pending &&
  forallb (fun c => forallb (fun d => negb (mentions c (localOf d)) ||
    (String.eqb (pdSrc c) (getText (localOf d)) && Nat.leb (rank (localOf d)) (rank (localOf c))) ||
    Nat.ltb (rank (localOf d)) (rank (localOf c))) pending) pending.

Lemma schedulableb_sound temps rank pending : schedulableb temps rank pending = true -> schedulable temps rank pending.
Proof.
  unfold schedulableb. cbv zeta. rewrite !andb_true_iff, bool_decide_eq_true. intros [[[[[H1 H2] H3] H4] H5] H6]. constructor.
  - exact H1.
  - intros x Hx. apply (forallb_elem _ _ x H2 Hx).
  - intros x Hx. apply (forallb_elem _ _ x H3) in Hx. apply negb_true_iff, bool_decide_eq_false in Hx. exact Hx.
  - intros c Hc. apply (forallb_elem _ _ c H4 Hc).
  - intros c x y Hc Hx Hy Mx My. pose proof (forallb_elem _ _ c H5 Hc) as A. pose proof (forallb_elem _ _ x A Hx) as B.
    pose proof (forallb_elem _ _ y B Hy) as C. cbv beta in C. rewrite Mx, My in C. apply String.eqb_eq, C.
  - intros c d Hc Hd M. pose proof (forallb_elem _ _ c H6 Hc) as A. pose proof (forallb_elem _ _ d A Hd) as B. cbv beta in B.
    rewrite M in B. cbn [negb orb] in B. apply orb_true_iff in B as [B|B].
    + left. apply andb_true_iff in B as [B1 B2]. apply String.eqb_eq in B1. apply Nat.leb_le in B2. auto.
    + right. apply Nat.ltb_lt, B.
Qed.

(** C17. The copies of an edge take effect at once when they can be put in an
    order: the phis are held in distinct declared locals and not in memory, each
    source is one expression that has a value and reads at most one of the locals
    the edge assigns or parks in, and a rank of the locals never rises along a
    plain read and falls along a read inside a larger expression, so that every
    cycle of copies has plain reads only.  Then the loop of [writePhiCopies] ends
    within two rounds a copy; the text it has written leaves in the local of each
    phi what its source was worth before any of them was assigned, changes no
    other local but the temporaries, and the emitter records each phi as a read
    of its local.  Without the last condition the loop need not end
    ([cast_cycle_never_written]). *)
Theorem phi_copies_at_once module cells temps rank s values source target ρ val :
  let copies := edgeCopies s source target in
  ready module cells temps rank ρ val (pendingOf values copies) ->
  exists text values' ρ',
    writePhiCopies module cells (2 * List.length copies) s values source target = Some (text, values') /\
    runText ρ text = Ok ρ' /\
    (forall c, c ∈ copies -> exists v, evalText ρ (valueExpr values (pcSrc c)) = Ok v /\
       ρ' !! symbolName (vName (pcDst c)) = Some v /\ valueExpr values' (pcDst c) = localGet (vName (pcDst c))) /\
    (forall x, x ∉ map (fun c => symbolName (vName (pcDst c))) copies ++ temps -> ρ' !! x = ρ !! x).
Proof.
  intros copies R. destruct (writePending_copies module cells temps rank (2 * List.length copies) values _ ρ val R)
    as (text & values' & ρ' & Hw & Hrun & K).
  { unfold rounds, pendingOf. rewrite length_map. destruct (readyIndex _); lia. }
  exists text, values', ρ'. split; [exact Hw|]. split; [apply linesRun_runText, Hrun|]. split.
  - intros c Hc. assert (Hp : mkPending (pcDst c) (valueExpr values (pcSrc c)) ∈ pendingOf values copies)
      by (apply list_elem_of_fmap; eauto).
    exists (val (symbolName (vName (pcDst c)))). split; [apply (rd_sources _ _ _ _ _ _ _ R _ Hp)|].
    split; [apply (cp_value _ _ _ _ _ _ _ K _ Hp)|]. pose proof (cp_recorded _ _ _ _ _ _ _ K _ Hp) as E. cbn [pdDst] in E.
    unfold valueExpr. rewrite E. reflexivity.
  - intros x Hx. apply (cp_other _ _ _ _ _ _ _ K). unfold pendingOf. rewrite map_map. exact Hx.
Qed.

(** Two phis that trade values, and one that takes a cast of the first. *)
Definition sample_edge : Block :=
  let v x := mkValue x "i64" in
  mkBlock "head" [phi (v "%a") [mkIncoming "body" (v "%b")]; phi (v "%b") [mkIncoming "body" (v "%a")];
                  phi (mkValue "%n" "ptr<u8>") [mkIncoming "body" (mkValue "%k" "ptr<u8>")]] (jump "body").

Definition structureOf (b : Block) : structure := mkStructure {[bName b := b]} [] ∅ ∅ ∅ ∅ ∅ ∅.

Definition sample_recorded : gmap string string := {["%k" := "(i32.wrap_i64 (local.get $a))"]}.

Lemma phi_copies_at_once_witness :
  exists text values' ρ',
    writePhiCopies (mkModule ∅ ∅ ∅ ∅ [] ∅) ∅ 6 (structureOf sample_edge) sample_recorded "body" "head" = Some (text, values') /\
    runText (list_to_map [("$a", I64 5); ("$b", I64 7); ("$n", I32 0); ("$c", I64 9)]) text = Ok ρ' /\
    ρ' !! "$a" = Some (I64 7) /\ ρ' !! "$b" = Some (I64 5) /\ ρ' !! "$n" = Some (I32 5) /\ ρ' !! "$c" = Some (I64 9).
Proof.
  set (ρ := list_to_map [("$a", I64 5); ("$b", I64 7); ("$n", I32 0); ("$c", I64 9)]).
  set (temps := ["$__kizu_phi_i64"; "$__kizu_phi_i32"]).
  set (val := fun x => if String.eqb x "$a" then I64 7 else if String.eqb x "$b" then I64 5 else I32 5).
  destruct (phi_copies_at_once (mkModule ∅ ∅ ∅ ∅ [] ∅) ∅ temps (fun x => if String.eqb x "$n" then 1 else 0)
    (structureOf sample_edge) sample_recorded "body" "head" ρ val) as (text & values' & ρ' & Hw & Hr & Hv & Ho).
  - constructor.
    + apply schedulableb_sound. vm_compute. reflexivity.
    + apply Forall_forall. repeat constructor; apply (bool_decide_unpack _); vm_compute; exact I.
    + apply Forall_forall. repeat constructor.
    + apply Forall_forall. repeat constructor.
    + apply Forall_forall. repeat constructor; vm_compute; eauto.
  - exists text, values', ρ'. split; [exact Hw|]. split; [exact Hr|].
    assert (H : forall c v, c ∈ edgeCopies (structureOf sample_edge) "body" "head" ->
              evalText ρ (valueExpr sample_recorded (pcSrc c)) = Ok v -> ρ' !! symbolName (vName (pcDst c)) = Some v).
    { intros c v Hc E. destruct (Hv c Hc) as (v' & E' & H & _). congruence. }
    split; [|split; [|split]].
    + apply (H (mkPhiCopy (mkValue "%a" "i64") (mkValue "%b" "i64"))); [left | vm_compute; reflexivity].
    + apply (H (mkPhiCopy (mkValue "%b" "i64") (mkValue "%a" "i64"))); [right; left | vm_compute; reflexivity].
    + apply (H (mkPhiCopy (mkValue "%n" "ptr<u8>") (mkValue "%k" "ptr<u8>"))); [right; right; left | vm_compute; reflexivity].
    + rewrite Ho; [vm_compute; reflexivity|]. apply (bool_decide_unpack _). vm_compute. exact I.
Defined.

(** The conditions are needed.  A loop that trades two values through casts: the
    casts are recorded as expressions of their operands. *)
Definition cast_loop (left right : string) : Function :=
  let a := mkValue "%a" left in
  let b := mkValue "%b" right in
  mkFunction "trade" [mkParam "%x" left PassValue; mkParam "%y" right PassValue; mkParam "%c" "bool" PassValue] left
    [mkBlock "entry" [] (jump "head");
     mkBlock "head" [phi a [mkIncoming "entry" (mkValue "%x" left); mkIncoming "body" (mkValue "%t" left)];
                     phi b [mkIncoming "entry" (mkValue "%y" right); mkIncoming "body" (mkValue "%u" right)]]
       (branch (mkValue "%c" "bool") "body" "end");
     mkBlock "body" [instr (mkValue "%t" left) "cast" [b] ""; instr (mkValue "%u" right) "cast" [a] ""] (jump "head");
     mkBlock "end" [] (ret a)] "" "".

Definition no_module : Module_ := mkModule ∅ ∅ ∅ ∅ [] ∅.

(** What [writeCast] records in the body of that loop. *)
Definition cast_loop_values (left right : string) : result EmitError (gmap string string) :=
  let* values := writeCast no_module ∅ (instr (mkValue "%t" left) "cast" [mkValue "%b" right] "") in
  writeCast no_module values (instr (mkValue "%u" right) "cast" [mkValue "%a" left] "").

Definition cast_loop_copies (left right : string) (fuel : nat) : option (string * gmap string string) :=
  match analyze (cast_loop left right), cast_loop_values left right with
  | Ok s, Ok values => writePhiCopies no_module ∅ fuel s values "body" "head"
  | _, _ => Some ("", ∅)
  end.

(** Between a float and an integer each copy reads the other phi inside a larger
    expression: parking changes nothing, and the loop goes on writing. *)
Example cast_cycle_never_written :
  verifyFunction no_module ∅ (cast_loop "f64" "i64") = Ok tt /\
  forall fuel, cast_loop_copies "f64" "i64" fuel = None.
Proof.
  split; [vm_compute; reflexivity|]. intros fuel. unfold cast_loop_copies.
  destruct (analyze (cast_loop "f64" "i64")) as [s|] eqn:Hs; [|vm_compute in Hs; discriminate].
  destruct (cast_loop_values "f64" "i64") as [values|] eqn:Hv; [|vm_compute in Hv; discriminate]. unfold writePhiCopies.
  assert (E : pendingOf values (edgeCopies s "body" "head") =
    [mkPending (mkValue "%a" "f64") "(f64.convert_i64_s (local.get $b))";
     mkPending (mkValue "%b" "i64") "(i64.trunc_sat_f64_s (local.get $a))"]).
  { assert (H : match analyze (cast_loop "f64" "i64"), cast_loop_values "f64" "i64" with
                | Ok s, Ok values => pendingOf values (edgeCopies s "body" "head")
                | _, _ => []
                end = [mkPending (mkValue "%a" "f64") "(f64.convert_i64_s (local.get $b))";
                       mkPending (mkValue "%b" "i64") "(i64.trunc_sat_f64_s (local.get $a))"]) by (vm_compute; reflexivity).
    rewrite Hs, Hv in H. exact H. }
  rewrite E. clear. induction fuel as [|fuel IH]; [reflexivity|]. cbn [writePending].
  match goal with |- context [readyIndex ?l] => assert (readyIndex l = None) as -> by (vm_compute; reflexivity) end.
  match goal with |- context [parkCopy ?m ?c ?d] => destruct (parkCopy m c d) as [text held] end.
  match goal with |- context [map (readHeld ?r held) ?l] => assert (map (readHeld r held) l = l) as -> by reflexivity end.
  rewrite IH. reflexivity.
Qed.

(** Between two integers the casts are plain reads, and a value is parked; but
    [phiTempTypes] looks for a phi among the names of the incoming values, where
    it finds those of the casts, and the temporary is not declared. *)
Example temporary_not_declared :
  verifyFunction no_module ∅ (cast_loop "i64" "u8") = Ok tt /\
  phiTempTypes no_module (cast_loop "i64" "u8") = [] /\
  exists text values, cast_loop_copies "i64" "u8" 4 = Some (text, values) /\
    Contains text "(local.set $__kizu_phi_i64 (local.get $a))" = true.
Proof.
  split; [vm_compute; reflexivity|]. split; [vm_compute; reflexivity|].
  assert (H : match cast_loop_copies "i64" "u8" 4 with
              | Some (text, _) => Contains text "(local.set $__kizu_phi_i64 (local.get $a))"
              | None => false
              end = true) by (vm_compute; reflexivity).
  destruct (cast_loop_copies "i64" "u8" 4) as [[text values]|]; [|discriminate]. exists text, values. auto.
Qed.
