(* ===== verification/WasmMemory.v ===== *)
(** * Memory of a call ([internal/wasm/frame.go], [memory.go])

    The frame of a call gives every value held in memory a slot of its own; loads
    and stores move a scalar between its slot and its local.  The theorems are
    that the slots of a frame are apart, aligned and all there when the body is
    written, and that a store writes exactly the bytes the layout of the type has
    and a load reads the value back, for every type held in a local.  What a
    store or a load instruction does to memory is WebAssembly's, from tables that
    know nothing of the emitter. *)

From stdpp Require Import base list strings gmap.
From Stdlib Require Import ZArith Lia String Ascii.
From S2P Require Import Prelude GoStd Typ IR Verify Layout LayoutTheorems WasmControl WasmText WasmScalar WasmScalarTheorems WasmPhis.

#[local] Open Scope string_scope.
#[local] Open Scope Z_scope.
#[local] Open Scope list_scope.

(** ** Frames ([frame.go]) *)

Record frameLayout : Type := mkFrameLayout { fmSize : Z; fmSlots : gmap string Z }.

(** [frameLayout.allocate] *)
Definition allocate (f : frameLayout) (key : string) (layout : wasmLayout) : frameLayout :=
  match fmSlots f !! key with
  | Some _ => f
  | None =>
      let offset := alignUp (fmSize f) (lAlign layout) in
      mkFrameLayout (wrap64 (offset + maxInt (lSize layout) 1)) (<[key := offset]> (fmSlots f))
  end.

(** The keys of the slots. *)
Definition resultSlotKey (name : string) : string := "result:" +:+ name.
Definition localSlotKey (name : string) : string := "local:" +:+ name.
Definition phiSlotKey (name : string) : string := "phi:" +:+ name.
Definition phiParkSlotKey (name : string) : string := "phi-park:" +:+ name.
Definition mapTempSlotKey (name : string) : string := "map-temp:" +:+ name.
Definition callCopySlotKey (result : string) (index : nat) : string :=
  "call-copy:" +:+ result +:+ ":" +:+ FormatInt (Z.of_nat index).

(** [mapInstrNeedsTemp] and [mapTempSize] of [map.go] *)
Definition mapInstrNeedsTemp (op : string) : bool :=
  oneOf op ["map.insert"; "map.get"; "map.at"; "map.at_mut"; "map.contains"; "map.remove"].
Definition mapTempSize : Z := 16.

(** [phisReadByPhis] *)
Definition phisReadByPhis (block : Block) : gset string :=
  let phis := map (fun i => vName (iResult i)) (List.filter isPhi (bInstrs block)) in
  list_to_set (flat_map (fun i =>
    if isPhi i
    then List.filter (fun name => oneOf name phis && negb (String.eqb name (vName (iResult i))))
           (map (fun inc => vName (inValue inc)) (iIncoming i))
    else []) (bInstrs block)).

(** What the emitter knows about the function: the layouts, the parameters of the
    module's functions, and which results are held in locals instead of memory. *)
Section Emitter.
Context (module : Module_) (fuel : nat) (paramsByFunction : gmap string (list Param)).
Context (flagResults optionLocals : gset string).

Definition layoutOf (typ : string) : result LayoutError wasmLayout := typeLayout module fuel typ.

(** [hasPhiCell] *)
Definition hasPhiCell (result : Value) : bool :=
  isMemoryType module (vType result) && negb (bool_decide (vName result ∈ flagResults)) &&
  negb (bool_decide (vName result ∈ optionLocals)).

(** The test [planFrame] and [registerFrameValues] make of a result. *)
Definition hasResultSlot (i : Instr) : bool :=
  isMemoryType module (vType (iResult i)) && negb (isPhi i) &&
  negb (bool_decide (vName (iResult i) ∈ flagResults)) && negb (bool_decide (vName (iResult i) ∈ optionLocals)).

(** [callArgsAndParams] *)
Definition callArgsAndParams (i : Instr) : list Value * list Param :=
  if String.eqb (iOp i) "call.indirect" then
    match iArgs i with
    | [] => ([], iCallParams i)
    | _ :: args => (args, iCallParams i)
    end
  else match CutPrefix (iOp i) "call." with
  | None => ([], [])
  | Some name =>
      match paramsByFunction !! name with
      | None => ([], [])
      | Some params => (iArgs i, params)
      end
  end.

(** [callNeedsCopySlot] *)
Definition callNeedsCopySlot (param : Param) (arg : Value) : bool :=
  TakesAddressOf param (vType arg) && negb (isMemoryType module (vType arg)).

(** The loop of [planCallCopySlots], from the argument at [index]. *)
Fixpoint planCopies (frame : frameLayout) (result : string) (index : nat) (args : list Value) (params : list Param)
  : Prelude.result LayoutError frameLayout :=
  match args, params with
  | arg :: args, param :: params =>
      if callNeedsCopySlot param arg then
        let* layout := layoutOf (vType arg) in
        planCopies (allocate frame (callCopySlotKey result index) layout) result (S index) args params
      else planCopies frame result (S index) args params
  | _, _ => Ok frame
  end.

(** [planCallCopySlots] *)
Definition planCallCopySlots (frame : frameLayout) (i : Instr) : Prelude.result LayoutError frameLayout :=
  let '(args, params) := callArgsAndParams i in
  planCopies frame (vName (iResult i)) 0 args params.

(** The body of the loop of [planFrame]. *)
Definition planInstr (frame : frameLayout) (i : Instr) : Prelude.result LayoutError frameLayout :=
  let frame := if mapInstrNeedsTemp (iOp i)
               then allocate frame (mapTempSlotKey (vName (iResult i))) (mkLayout mapTempSize 8) else frame in
  let* frame := planCallCopySlots frame i in
  let* frame := if hasResultSlot i
                then let* layout := layoutOf (vType (iResult i)) in
                     Ok (allocate frame (resultSlotKey (vName (iResult i))) layout)
                else Ok frame in
  if String.eqb (iOp i) "local.slot"
  then let* layout := layoutOf (derefWasmType (vType (iResult i))) in
       Ok (allocate frame (localSlotKey (vName (iResult i))) layout)
  else Ok frame.

(** The body of the loop of [planPhiCells]. *)
Definition planPhi (read : gset string) (frame : frameLayout) (i : Instr) : Prelude.result LayoutError frameLayout :=
  if isPhi i && hasPhiCell (iResult i) then
    let* layout := layoutOf (vType (iResult i)) in
    let frame := allocate frame (phiSlotKey (vName (iResult i))) layout in
    Ok (if bool_decide (vName (iResult i) ∈ read)
        then allocate frame (phiParkSlotKey (vName (iResult i))) layout else frame)
  else Ok frame.

(** [for x := range l] over a step that may fail. *)
Definition fold_ok {E A B} (step : A -> B -> Prelude.result E A) : A -> list B -> Prelude.result E A :=
  fix go a l := match l with
  | [] => Ok a
  | x :: rest => let* a := step a x in go a rest
  end.

(** [planPhiCells] *)
Definition planPhiCells (frame : frameLayout) (fn : Function) : Prelude.result LayoutError frameLayout :=
  fold_ok (fun frame b => fold_ok (planPhi (phisReadByPhis b)) frame (bInstrs b)) frame (fBlocks fn).

(** [planFrame] *)
Definition planFrame (fn : Function) : Prelude.result LayoutError frameLayout :=
  let* frame := fold_ok (fun frame b => fold_ok planInstr frame (bInstrs b)) (mkFrameLayout 0 ∅) (fBlocks fn) in
  let* frame := planPhiCells frame fn in
  Ok (mkFrameLayout (alignUp (fmSize frame) 8) (fmSlots frame)).

(** *** Reading the slots back *)

Inductive FrameError : Type :=
  | NoFrameSlot (key : string)
  | FrameLayoutError (e : LayoutError).

(** [frameSlot] *)
Definition frameSlot (frame : frameLayout) (key : string) : Prelude.result FrameError string :=
  match fmSlots frame !! key with
  | None => Err (NoFrameSlot key)
  | Some offset =>
      if offset =? 0 then Ok "(local.get $__kizu_frame)"
      else Ok ("(i32.add (local.get $__kizu_frame) (i32.const " +:+ FormatInt offset +:+ "))")
  end.

(** [resultSlot], [localSlot] and [callCopySlot], and [mapTempSlot] of [map.go] *)
Definition resultSlot (frame : frameLayout) (result : Value) : Prelude.result FrameError string :=
  frameSlot frame (resultSlotKey (vName result)).
Definition localSlot (frame : frameLayout) (result : Value) : Prelude.result FrameError string :=
  frameSlot frame (localSlotKey (vName result)).
Definition callCopySlot (frame : frameLayout) (result : Value) (index : nat) : Prelude.result FrameError string :=
  frameSlot frame (callCopySlotKey (vName result) index).
Definition mapTempSlot (frame : frameLayout) (result : Value) : Prelude.result FrameError string :=
  frameSlot frame (mapTempSlotKey (vName result)).

Definition frameLayoutOf (typ : string) : Prelude.result FrameError wasmLayout :=
  match layoutOf typ with Ok layout => Ok layout | Err e => Err (FrameLayoutError e) end.

(** The body of the loop of [registerPhiCells]. *)
Definition registerPhi (frame : frameLayout) (read : gset string) (cells : gmap string phiCell) (i : Instr)
  : Prelude.result FrameError (gmap string phiCell) :=
  if isPhi i && hasPhiCell (iResult i) then
    let* layout := frameLayoutOf (vType (iResult i)) in
    let* slot := frameSlot frame (phiSlotKey (vName (iResult i))) in
    let* park := if bool_decide (vName (iResult i) ∈ read)
                 then frameSlot frame (phiParkSlotKey (vName (iResult i))) else Ok "" in
    Ok (<[vName (iResult i) := mkCell slot park (lSize layout)]> cells)
  else Ok cells.

(** [registerPhiCells] *)
Definition registerPhiCells (frame : frameLayout) (fn : Function) : Prelude.result FrameError (gmap string phiCell) :=
  fold_ok (fun cells b => fold_ok (registerPhi frame (phisReadByPhis b)) cells (bInstrs b)) ∅ (fBlocks fn).

(** The body of the loop of [registerFrameValues]. *)
Definition registerInstr (frame : frameLayout) (values : gmap string string) (i : Instr)
  : Prelude.result FrameError (gmap string string) :=
  let* values := if hasResultSlot i
                 then let* slot := resultSlot frame (iResult i) in
                      Ok (<[vName (iResult i) := slot]> values)
                 else Ok values in
  if String.eqb (iOp i) "local.slot"
  then let* slot := localSlot frame (iResult i) in
       Ok (<[vName (iResult i) := slot]> values)
  else Ok values.

(** [registerFrameValues]: the cells of the phis, and what is recorded. *)
Definition registerFrameValues (frame : frameLayout) (values : gmap string string) (fn : Function)
  : Prelude.result FrameError (gmap string phiCell * gmap string string) :=
  let* cells := registerPhiCells frame fn in
  let* values := fold_ok (fun values b => fold_ok (registerInstr frame) values (bInstrs b)) values (fBlocks fn) in
  Ok (cells, values).
End Emitter.

(** ** Which slots a function needs *)

Section Slots.
Context (module : Module_) (fuel : nat) (paramsByFunction : gmap string (list Param)).
Context (flagResults optionLocals : gset string).

(** The slots of one instruction, by key, with the layout each is for. *)
Inductive instrNeeds (i : Instr) : string -> wasmLayout -> Prop :=
  | needs_temp : mapInstrNeedsTemp (iOp i) = true ->
      instrNeeds i (mapTempSlotKey (vName (iResult i))) (mkLayout mapTempSize 8)
  | needs_copy n arg param l :
      fst (callArgsAndParams paramsByFunction i) !! n = Some arg ->
      snd (callArgsAndParams paramsByFunction i) !! n = Some param ->
      callNeedsCopySlot module param arg = true -> layoutOf module fuel (vType arg) = Ok l ->
      instrNeeds i (callCopySlotKey (vName (iResult i)) n) l
  | needs_result l : hasResultSlot module flagResults optionLocals i = true -> layoutOf module fuel (vType (iResult i)) = Ok l ->
      instrNeeds i (resultSlotKey (vName (iResult i))) l
  | needs_local l : iOp i = "local.slot" -> layoutOf module fuel (derefWasmType (vType (iResult i))) = Ok l ->
      instrNeeds i (localSlotKey (vName (iResult i))) l.

(** Those of a phi of a block where the phis [read] are read by others. *)
Inductive phiNeeds (read : gset string) (i : Instr) : string -> wasmLayout -> Prop :=
  | needs_cell l : isPhi i = true -> hasPhiCell module flagResults optionLocals (iResult i) = true ->
      layoutOf module fuel (vType (iResult i)) = Ok l -> phiNeeds read i (phiSlotKey (vName (iResult i))) l
  | needs_park l : isPhi i = true -> hasPhiCell module flagResults optionLocals (iResult i) = true ->
      vName (iResult i) ∈ read -> layoutOf module fuel (vType (iResult i)) = Ok l ->
      phiNeeds read i (phiParkSlotKey (vName (iResult i))) l.

Definition needsSlot (fn : Function) (k : string) (l : wasmLayout) : Prop :=
  exists b i, b ∈ fBlocks fn /\ i ∈ bInstrs b /\ (instrNeeds i k l \/ phiNeeds (phisReadByPhis b) i k l).

(** *** Planning allocates exactly those *)

Definition allocs : frameLayout -> list (string * wasmLayout) -> frameLayout :=
  foldl (fun f r => allocate f (fst r) (snd r)).

(** [f'] is [f] with slots for what [P] names. *)
Definition grows (f f' : frameLayout) (P : string -> wasmLayout -> Prop) : Prop :=
  exists reqs, f' = allocs f reqs /\ forall k l, (k, l) ∈ reqs <-> P k l.

Lemma grows_none f (P : string -> wasmLayout -> Prop) : (forall k l, ~ P k l) -> grows f f P.
Proof. intros H. exists []. split; [reflexivity|]. intros k l. split; [intros E; inversion E | intros E; contradiction (H k l E)]. Qed.

Lemma grows_one f k l (P : string -> wasmLayout -> Prop) :
  (forall k' l', P k' l' <-> k' = k /\ l' = l) -> grows f (allocate f k l) P.
Proof.
  intros H. exists [(k, l)]. split; [reflexivity|]. intros k' l'. rewrite list_elem_of_singleton, H.
  split; [intros [= -> ->]; auto | intros [-> ->]; reflexivity].
Qed.

Lemma grows_then f f' f'' P Q (R : string -> wasmLayout -> Prop) :
  grows f f' P -> grows f' f'' Q -> (forall k l, R k l <-> P k l \/ Q k l) -> grows f f'' R.
Proof.
  intros (r1 & -> & H1) (r2 & -> & H2) HR. exists (r1 ++ r2). split; [unfold allocs; rewrite foldl_app; reflexivity|].
  intros k l. rewrite elem_of_app, H1, H2, HR. reflexivity.
Qed.

Lemma fold_grows {B} (step : frameLayout -> B -> result LayoutError frameLayout) (P : B -> string -> wasmLayout -> Prop) l f f' :
  (forall f x f', x ∈ l -> step f x = Ok f' -> grows f f' (P x)) -> fold_ok step f l = Ok f' ->
  grows f f' (fun k y => exists x, x ∈ l /\ P x k y).
Proof.
  intros Hs. revert f. induction l as [|x l IH]; intros f H; cbn [fold_ok] in H.
  - injection H as <-. apply grows_none. intros k y (x & Hx & _). inversion Hx.
  - destruct (step f x) as [f1|] eqn:E; [|discriminate].
    apply (grows_then _ _ _ _ _ _ (Hs f x f1 ltac:(left) E) (IH (fun f x f' Hx => Hs f x f' ltac:(right; exact Hx)) f1 H)).
    intros k y. setoid_rewrite elem_of_cons. split; [intros (z & [->|Hz] & Hp); eauto | intros [Hp|(z & Hz & Hp)]; eauto].
Qed.

Lemma planCopies_grows args : forall params f name n f',
  planCopies module fuel f name n args params = Ok f' ->
  grows f f' (fun k l => exists m arg param, args !! m = Some arg /\ params !! m = Some param /\
    callNeedsCopySlot module param arg = true /\ layoutOf module fuel (vType arg) = Ok l /\ k = callCopySlotKey name (n + m)%nat).
Proof.
  induction args as [|arg args IH]; intros [|param params] f name n f' H; cbn [planCopies] in H.
  1-3: injection H as <-; apply grows_none; intros k l (m & a & p & Ha & Hp & _); rewrite ?lookup_nil in *; discriminate.
  assert (Hrest : forall k l (P : Prop), (P -> callNeedsCopySlot module param arg = true /\ layoutOf module fuel (vType arg) = Ok l /\ k = callCopySlotKey name (n + 0)%nat) ->
      ((callNeedsCopySlot module param arg = true /\ layoutOf module fuel (vType arg) = Ok l /\ k = callCopySlotKey name (n + 0)%nat) -> P) ->
      (exists m a p, (arg :: args) !! m = Some a /\ (param :: params) !! m = Some p /\ callNeedsCopySlot module p a = true /\
         layoutOf module fuel (vType a) = Ok l /\ k = callCopySlotKey name (n + m)%nat) <->
      P \/ exists m a p, args !! m = Some a /\ params !! m = Some p /\ callNeedsCopySlot module p a = true /\
         layoutOf module fuel (vType a) = Ok l /\ k = callCopySlotKey name (S n + m)%nat).
  { intros k l P H1 H2. split.
    - intros ([|m] & a & p & Ha & Hp & Hc); [left; injection Ha as <-; injection Hp as <-; apply H2, Hc|].
      right. exists m, a, p. replace (S n + m)%nat with (n + S m)%nat by lia. auto.
    - intros [HP|(m & a & p & Ha & Hp & Hc)]; [exists 0%nat, arg, param; split; [reflexivity|]; split; [reflexivity|]; apply H1, HP|].
      exists (S m), a, p. replace (n + S m)%nat with (S n + m)%nat by lia. auto. }
  destruct (callNeedsCopySlot module param arg) eqn:Hc.
  - destruct (layoutOf module fuel (vType arg)) as [l0|] eqn:Hl; [|discriminate].
    apply (grows_then _ _ _ (fun k l => k = callCopySlotKey name n /\ l = l0) _ _ (grows_one f (callCopySlotKey name n) l0 _ (fun k l => iff_refl _)) (IH _ _ _ _ _ H)).
    intros k l. apply Hrest; rewrite Nat.add_0_r.
    + intros [-> ->]. auto.
    + intros (_ & [= ->] & ->). auto.
  - apply (grows_then _ _ _ (fun _ _ => False) _ _ (grows_none f _ (fun k l E => E)) (IH _ _ _ _ _ H)).
    intros k l. apply Hrest; [tauto|]. intros [E _]. discriminate.
Qed.

Lemma planInstr_grows f i f' :
  planInstr module fuel paramsByFunction flagResults optionLocals f i = Ok f' -> grows f f' (instrNeeds i).
Proof.
  unfold planInstr. intros H. cbv zeta in H.
  set (f0 := if mapInstrNeedsTemp (iOp i) then _ else f) in H.
  assert (G0 : grows f f0 (fun k l => mapInstrNeedsTemp (iOp i) = true /\ k = mapTempSlotKey (vName (iResult i)) /\ l = mkLayout mapTempSize 8)).
  { unfold f0. destruct (mapInstrNeedsTemp (iOp i)); [apply grows_one; tauto|]. apply grows_none. intros k l [E _]. discriminate. }
  destruct (planCallCopySlots _ _ _ f0 i) as [f1|] eqn:H1; [|discriminate]. unfold planCallCopySlots in H1.
  destruct (callArgsAndParams paramsByFunction i) as [args params] eqn:Hargs. apply planCopies_grows in H1 as G1.
  match type of H with match ?e with Ok _ => _ | Err _ => _ end = _ => destruct e as [f2|] eqn:H2; [|discriminate] end.
  assert (G2 : grows f1 f2 (fun k l => hasResultSlot module flagResults optionLocals i = true /\
            layoutOf module fuel (vType (iResult i)) = Ok l /\ k = resultSlotKey (vName (iResult i)))).
  { destruct (hasResultSlot _ _ _ i); [|injection H2 as <-; apply grows_none; intros k l [E _]; discriminate].
    destruct (layoutOf module fuel (vType (iResult i))) as [l0|]; [|discriminate]. injection H2 as <-.
    apply grows_one. intros k l. split; [intros (_ & [= ->] & ->); auto | intros [-> ->]; auto]. }
  assert (G3 : grows f2 f' (fun k l => iOp i = "local.slot" /\
            layoutOf module fuel (derefWasmType (vType (iResult i))) = Ok l /\ k = localSlotKey (vName (iResult i)))).
  { destruct (String.eqb_spec (iOp i) "local.slot") as [E|E]; [|injection H as <-; apply grows_none; intros k l [E' _]; contradiction].
    destruct (layoutOf module fuel (derefWasmType _)) as [l0|]; [|discriminate]. injection H as <-.
    apply grows_one. intros k l. split; [intros (_ & [= ->] & ->); auto | intros [-> ->]; auto]. }
  refine (grows_then _ _ _ _ _ _ (grows_then _ _ _ _ _ _ (grows_then _ _ _ _ _ _ G0 G1 (fun k l => iff_refl _)) G2 (fun k l => iff_refl _)) G3 _).
  intros k l. split.
  - intros [Hm|n arg param l' Ha Hp Hc Hl|l' Hr Hl|l' Ho Hl]; [tauto | | tauto | tauto].
    rewrite Hargs in Ha, Hp. left; left; right. exists n, arg, param. auto.
  - intros [[[(Hm & -> & ->)|(n & arg & param & Ha & Hp & Hc & Hl & ->)]|(Hr & Hl & ->)]|(Ho & Hl & ->)].
    + apply needs_temp, Hm.
    + apply (needs_copy i n arg param l); rewrite ?Hargs; assumption.
    + apply needs_result; assumption.
    + apply needs_local; assumption.
Qed.

Lemma planPhi_grows read f i f' :
  planPhi module fuel flagResults optionLocals read f i = Ok f' -> grows f f' (phiNeeds read i).
Proof.
  unfold planPhi. intros H. destruct (isPhi i && hasPhiCell module flagResults optionLocals (iResult i)) eqn:Hc.
  - apply andb_true_iff in Hc as [Hp Hc].
    destruct (layoutOf module fuel (vType (iResult i))) as [l0|] eqn:Hl; [|discriminate]. injection H as <-.
    assert (G1 : grows f (allocate f (phiSlotKey (vName (iResult i))) l0) (fun k l => k = phiSlotKey (vName (iResult i)) /\ l = l0))
      by (apply grows_one; tauto).
    case_bool_decide as Hr.
    + refine (grows_then _ _ _ _ (fun k l => k = phiParkSlotKey (vName (iResult i)) /\ l = l0) _ G1 (grows_one _ _ _ _ _) _); [tauto|].
      intros k l. split; [intros [l' _ _ E|l' _ _ _ E]; (assert (l' = l0) by congruence); auto|].
      intros [[-> ->]|[-> ->]]; [apply needs_cell | apply needs_park]; assumption.
    + destruct G1 as (reqs & E & G1). exists reqs. split; [exact E|]. intros k l. rewrite G1.
      split; [intros [-> ->]; apply needs_cell; assumption | intros [l' _ _ E'|l' _ _ Hin _]; [split; congruence | contradiction]].
  - injection H as <-. apply grows_none. intros k l [l' Hp Hh _|l' Hp Hh _ _]; rewrite Hp, Hh in Hc; discriminate.
Qed.

Lemma planFrame_grows fn frame :
  planFrame module fuel paramsByFunction flagResults optionLocals fn = Ok frame ->
  exists f, grows (mkFrameLayout 0 ∅) f (needsSlot fn) /\ frame = mkFrameLayout (alignUp (fmSize f) 8) (fmSlots f).
Proof.
  unfold planFrame. intros H. match type of H with match ?e with Ok _ => _ | Err _ => _ end = _ => destruct e as [f1|] eqn:H1; [|discriminate] end.
  match type of H with match ?e with Ok _ => _ | Err _ => _ end = _ => destruct e as [f2|] eqn:H2; [|discriminate] end.
  injection H as <-. exists f2. split; [|reflexivity]. unfold planPhiCells in H2.
  pose proof (fold_grows _ (fun b k l => exists i, i ∈ bInstrs b /\ instrNeeds i k l) _ _ _
    (fun f b f' _ E => fold_grows _ instrNeeds _ _ _ (fun f i f' _ => planInstr_grows f i f') E) H1) as G1.
  pose proof (fold_grows _ (fun b k l => exists i, i ∈ bInstrs b /\ phiNeeds (phisReadByPhis b) i k l) _ _ _
    (fun f b f' _ E => fold_grows _ (phiNeeds (phisReadByPhis b)) _ _ _ (fun f i f' _ => planPhi_grows _ f i f') E) H2) as G2.
  apply (grows_then _ _ _ _ _ _ G1 G2). intros k l. split.
  - intros (b & i & Hb & Hi & [H|H]); [left | right]; exists b; eauto.
  - intros [(b & Hb & i & Hi & H)|(b & Hb & i & Hi & H)]; exists b, i; auto.
Qed.
End Slots.

(** *** Keys *)

Lemma last_colon_inj a a' d d' :
  sall is_digit d = true -> sall is_digit d' = true -> a +:+ String ":" d = a' +:+ String ":" d' -> a = a' /\ d = d'.
Proof.
  assert (Hno : forall x y, sall is_digit x = true -> x <> y +:+ String ":" d').
  { intros x y Hx ->. rewrite sall_app in Hx. apply andb_true_iff in Hx as [_ Hx]. discriminate Hx. }
  intros Hd Hd'. revert a'. induction a as [|c a IH]; intros [|c' a'] E; cbn [append] in E.
  - injection E as ->. auto.
  - injection E as <- E. contradiction (Hno d a' Hd E).
  - injection E as -> E. exfalso. clear -Hd' E. apply (f_equal (sall is_digit)) in E. rewrite sall_app, Hd' in E.
    rewrite andb_comm in E. discriminate E.
  - injection E as -> E. destruct (IH a' E) as [-> ->]. auto.
Qed.

Lemma callCopySlotKey_inj name name' n n' :
  callCopySlotKey name n = callCopySlotKey name' n' -> name = name' /\ n = n'.
Proof.
  unfold callCopySlotKey. intros E. cbn [append] in E. injection E as E.
  assert (Hf : forall m, FormatInt (Z.of_nat m) = format_uint (Z.of_nat m)).
  { intros m. unfold FormatInt. rewrite (proj2 (Z.ltb_ge _ _)) by lia. reflexivity. }
  rewrite !Hf in E. apply last_colon_inj in E as [-> E]; [|apply sall_format_uint; lia ..]. split; [reflexivity|].
  destruct (format_uint_spec (Z.of_nat n) ltac:(lia)) as [H _]. destruct (format_uint_spec (Z.of_nat n') ltac:(lia)) as [H' _].
  rewrite E in H. rewrite H in H'. injection H' as H'. lia.
Qed.

(** *** Slots are apart *)

Section Apart.
Context (module : Module_) (fuel : nat) (paramsByFunction : gmap string (list Param)).
Context (flagResults optionLocals : gset string) (fn : Function).

Abbreviation needsSlot := (needsSlot module fuel paramsByFunction flagResults optionLocals).

(** Whether an instruction can ask for a slot: calls, map instructions, local
    variables, and what has a result in memory.  A [ref.store], as one of those
    [bounds.go] writes without a result name, asks for none. *)
Definition asks (i : Instr) : bool :=
  HasPrefix (iOp i) "call." || mapInstrNeedsTemp (iOp i) || String.eqb (iOp i) "local.slot" ||
  isMemoryType module (vType (iResult i)).

(** What can ask for a slot has a result name of its own, as in SSA form. *)
Definition distinctResults : Prop :=
  NoDup (map (fun i => vName (iResult i)) (List.filter asks (flat_map bInstrs (fBlocks fn)))).

Lemma instrNeeds_asks i k l :
  instrNeeds module fuel paramsByFunction flagResults optionLocals i k l -> asks i = true.
Proof.
  unfold asks. intros [Hm|n arg param l' Ha _ _ _|l' Hr _|l' Hl _]; rewrite !orb_true_iff.
  - auto.
  - left. left. left. unfold callArgsAndParams in Ha. destruct (String.eqb_spec (iOp i) "call.indirect") as [->|_]; [reflexivity|].
    rewrite HasPrefix_CutPrefix. apply bool_decide_eq_true_2.
    destruct (CutPrefix (iOp i) "call."); [eauto | discriminate].
  - right. unfold hasResultSlot in Hr. rewrite !andb_true_iff in Hr. tauto.
  - left. right. apply String.eqb_eq, Hl.
Qed.

Lemma phiNeeds_asks read i k l : phiNeeds module fuel flagResults optionLocals read i k l -> asks i = true.
Proof.
  unfold asks. intros [l' _ Hc _|l' _ Hc _ _]; unfold hasPhiCell in Hc; rewrite !andb_true_iff in Hc; rewrite !orb_true_iff; tauto.
Qed.

Lemma same_result b i b' i' :
  distinctResults -> b ∈ fBlocks fn -> i ∈ bInstrs b -> b' ∈ fBlocks fn -> i' ∈ bInstrs b' ->
  asks i = true -> asks i' = true -> vName (iResult i) = vName (iResult i') -> i = i'.
Proof.
  intros Hd Hb Hi Hb' Hi' Ha Ha' E.
  assert (H : forall b i, b ∈ fBlocks fn -> i ∈ bInstrs b -> asks i = true -> i ∈ List.filter asks (flat_map bInstrs (fBlocks fn))).
  { intros b0 i0 H0 H1 H2. apply list_elem_of_In, filter_In. split; [|exact H2]. apply in_flat_map. exists b0.
    rewrite <- !list_elem_of_In. auto. }
  apply (H b' i' Hb' Hi') in Ha'. apply list_elem_of_lookup in Ha' as [k' Hk'].
  apply (H b i Hb Hi) in Ha. apply list_elem_of_lookup in Ha as [k Hk0].
  assert (k = k') as <-; [|congruence].
  apply (NoDup_lookup _ k k' (vName (iResult i)) Hd); rewrite list_lookup_fmap; [rewrite Hk0 | rewrite Hk', E]; reflexivity.
Qed.

Lemma instrNeeds_unique i i' k l l' :
  (vName (iResult i) = vName (iResult i') -> i = i') ->
  instrNeeds module fuel paramsByFunction flagResults optionLocals i k l ->
  instrNeeds module fuel paramsByFunction flagResults optionLocals i' k l' -> l = l'.
Proof.
  intros S H H'. destruct H; inversion H'; clear H'; try reflexivity.
  2-3: (assert (i = i') as <- by (apply S; congruence)); congruence.
  match goal with E : append _ _ = append _ _ |- _ => apply (f_equal (append "call-copy:")), callCopySlotKey_inj in E as [En ->] end.
  assert (i = i') as <- by (apply S; congruence). congruence.
Qed.

Lemma phiNeeds_unique read read' i i' k l l' :
  (vName (iResult i) = vName (iResult i') -> i = i') ->
  phiNeeds module fuel flagResults optionLocals read i k l ->
  phiNeeds module fuel flagResults optionLocals read' i' k l' -> l = l'.
Proof.
  intros S H H'. destruct H; inversion H'; clear H';
    (assert (i = i') as <- by (apply S; congruence)); congruence.
Qed.

Lemma kinds_apart read i i' k l l' :
  instrNeeds module fuel paramsByFunction flagResults optionLocals i k l ->
  phiNeeds module fuel flagResults optionLocals read i' k l' -> False.
Proof. intros H H'. destruct H; inversion H'. Qed.

(** A slot is for one layout. *)
Lemma needsSlot_unique k l l' : distinctResults -> needsSlot fn k l -> needsSlot fn k l' -> l = l'.
Proof.
  intros Hd (b & i & Hb & Hi & H) (b' & i' & Hb' & Hi' & H').
  pose proof (same_result b i b' i' Hd Hb Hi Hb' Hi') as S.
  assert (Ha : asks i = true) by (destruct H as [H|H]; [apply (instrNeeds_asks i k l H) | apply (phiNeeds_asks _ i k l H)]).
  assert (Ha' : asks i' = true) by (destruct H' as [H'|H']; [apply (instrNeeds_asks i' k l' H') | apply (phiNeeds_asks _ i' k l' H')]).
  specialize (S Ha Ha'). destruct H as [H|H], H' as [H'|H'].
  - apply (instrNeeds_unique i i' k l l' S H H').
  - contradiction (kinds_apart _ i i' k l l' H H').
  - contradiction (kinds_apart _ i' i k l' l H' H).
  - apply (phiNeeds_unique _ _ i i' k l l' S H H').
Qed.

(** *** The frame as it is filled *)

Definition slotSpace : Z := 2 ^ 32 + 32.

Record placed (f : frameLayout) (P : string -> wasmLayout -> Prop) : Prop := {
  pl_size : 0 <= fmSize f <= Z.of_nat (base.size (fmSlots f)) * slotSpace;
  pl_slot k l : P k l -> exists off, fmSlots f !! k = Some off /\ 0 <= off /\ (lAlign l | off) /\ off + lSize l <= fmSize f;
  pl_known k off : fmSlots f !! k = Some off -> exists l, P k l;
  pl_apart k k' l l' off off' : P k l -> P k' l' -> k <> k' -> fmSlots f !! k = Some off -> fmSlots f !! k' = Some off' ->
    off + lSize l <= off' \/ off' + lSize l' <= off
}.

Definition fits (l : wasmLayout) : Prop := okLayout l /\ 0 <= lSize l <= 2 ^ 32.

Lemma allocate_new f key l :
  fmSlots f !! key = None -> fits l -> 0 <= fmSize f -> fmSize f + slotSpace <= max_int64 ->
  exists off, allocate f key l = mkFrameLayout (off + maxInt (lSize l) 1) (<[key := off]> (fmSlots f)) /\
    fmSize f <= off < fmSize f + 16 /\ (lAlign l | off).
Proof.
  intros Hnone [[Ha Hdiv] Hsize] H0 Hmax. unfold allocate. rewrite Hnone. exists (alignUp (fmSize f) (lAlign l)).
  unfold slotSpace, max_int64 in Hmax. pose proof (okAlign_pos _ Ha).
  pose proof (alignUp_next (fmSize f) (lAlign l) Ha H0 ltac:(unfold max_int64; lia)).
  pose proof (maxInt_le (lSize l) 1 (2 ^ 32) ltac:(lia) ltac:(lia)). pose proof (maxInt_ge (lSize l) 1).
  split; [|split; [lia | apply alignUp_divides, Ha]]. f_equal. apply wrap64_id. unfold in_int64, min_int64, max_int64. lia.
Qed.

Lemma placed_step f P key l :
  placed f P -> fits l -> (forall l', P key l' -> l' = l) -> Z.of_nat (base.size (fmSlots f)) <= 2 ^ 24 ->
  placed (allocate f key l) (fun k l' => P k l' \/ (k = key /\ l' = l)).
Proof.
  intros I Hl Hu Hn. destruct (pl_size _ _ I) as [S0 S1].
  destruct (fmSlots f !! key) as [off0|] eqn:Hkey.
  - unfold allocate. rewrite Hkey. destruct (pl_known _ _ I _ _ Hkey) as [l0 H0]. pose proof (Hu _ H0) as ->.
    assert (E : forall k l', (P k l' \/ k = key /\ l' = l) -> P k l') by (intros k l' [H|[-> ->]]; assumption).
    constructor; [split; assumption | | |].
    + intros k l' H. apply (pl_slot _ _ I), E, H.
    + intros k off H. destruct (pl_known _ _ I k off H) as [l' H']. eauto.
    + intros k k' l1 l2 o1 o2 H1 H2. apply (pl_apart _ _ I); auto.
  - destruct (allocate_new f key l Hkey Hl S0 ltac:(unfold slotSpace, max_int64 in *; nia)) as (off & -> & Hoff & Hdiv).
    destruct Hl as [_ Hsize]. pose proof (maxInt_ge (lSize l) 1). pose proof (maxInt_le (lSize l) 1 (2 ^ 32) ltac:(lia) ltac:(lia)).
    assert (Hold : forall k l', P k l' -> k <> key) by (intros k l' H' ->; destruct (pl_slot _ _ I key l' H') as (o & Ho & _); congruence).
    constructor; cbn [fmSize fmSlots].
    + rewrite map_size_insert_None by exact Hkey. unfold slotSpace in *. lia.
    + intros k l' [H'|[-> ->]].
      * destruct (pl_slot _ _ I k l' H') as (o & Ho & Hp & Hd & Hle). exists o.
        rewrite lookup_insert_ne by (symmetry; apply (Hold k l' H')). repeat split; try assumption. lia.
      * exists off. rewrite lookup_insert_eq. repeat split; try assumption; lia.
    + intros k o. rewrite lookup_insert_Some. intros [[<- _]|[_ Ho]]; [eauto|]. destruct (pl_known _ _ I k o Ho) as [l' H']. eauto.
    + assert (Hnew : forall k l' o, P k l' -> <[key := off]> (fmSlots f) !! k = Some o -> o + lSize l' <= off).
      { intros k l' o H' Ho. rewrite lookup_insert_ne in Ho by (symmetry; apply (Hold k l' H')).
        destruct (pl_slot _ _ I k l' H') as (o' & Ho' & _ & _ & Hle). assert (o' = o) as -> by congruence. lia. }
      intros k k' l1 l2 o1 o2 [H1|[-> ->]] [H2|[-> ->]] Hne Ho1 Ho2.
      * rewrite lookup_insert_ne in Ho1 by (symmetry; apply (Hold k l1 H1)). rewrite lookup_insert_ne in Ho2 by (symmetry; apply (Hold k' l2 H2)).
        apply (pl_apart _ _ I k k' l1 l2); assumption.
      * left. rewrite lookup_insert_eq in Ho2. injection Ho2 as <-. apply (Hnew k l1 o1 H1 Ho1).
      * right. rewrite lookup_insert_eq in Ho1. injection Ho1 as <-. apply (Hnew k' l2 o2 H2 Ho2).
      * contradiction.
Qed.

Lemma allocate_grows f key l : (base.size (fmSlots f) <= base.size (fmSlots (allocate f key l)))%nat.
Proof.
  unfold allocate. destruct (fmSlots f !! key) eqn:E; [lia|]. cbn [fmSlots]. rewrite map_size_insert_None by exact E. lia.
Qed.

Lemma placed_allocs reqs :
  (forall k l, (k, l) ∈ reqs -> fits l) -> (forall k l l', (k, l) ∈ reqs -> (k, l') ∈ reqs -> l' = l) ->
  Z.of_nat (base.size (fmSlots (allocs (mkFrameLayout 0 ∅) reqs))) <= 2 ^ 24 ->
  placed (allocs (mkFrameLayout 0 ∅) reqs) (fun k l => (k, l) ∈ reqs).
Proof.
  induction reqs as [|[key l] reqs IH] using rev_ind; intros Hfit Hu Hn.
  - unfold allocs. cbn [foldl]. constructor; cbn [fmSize fmSlots].
    + rewrite map_size_empty. lia.
    + intros k l H. inversion H.
    + intros k off H. rewrite lookup_empty in H. discriminate.
    + intros k k' l l' off off' H. inversion H.
  - unfold allocs in *. rewrite foldl_snoc in *. cbn [fst snd] in *. pose proof (allocate_grows (allocs (mkFrameLayout 0 ∅) reqs) key l) as G. unfold allocs in G.
    assert (I : placed (foldl (fun f r => allocate f (fst r) (snd r)) (mkFrameLayout 0 ∅) reqs) (fun k l => (k, l) ∈ reqs)).
    { apply IH; [| |lia].
      - intros k l' H. apply (Hfit k), elem_of_app. auto.
      - intros k l1 l2 H1 H2. apply (Hu k); apply elem_of_app; auto. }
    assert (Hin : forall k l', (k, l') ∈ reqs ++ [(key, l)] <-> ((k, l') ∈ reqs \/ (k = key /\ l' = l))).
    { intros k l'. rewrite elem_of_app, list_elem_of_singleton. split; intros [H|H]; auto; [injection H as -> ->; auto | right; destruct H as [-> ->]; reflexivity]. }
    pose proof (placed_step _ _ key l I (Hfit key l (proj2 (Hin key l) (or_intror (conj eq_refl eq_refl))))
      (fun l' H => Hu key l l' (proj2 (Hin key l) (or_intror (conj eq_refl eq_refl))) (proj2 (Hin key l') (or_introl H))) ltac:(lia)) as [P1 P2 P3 P4].
    constructor; [exact P1 | | |].
    + intros k l' H. apply P2, Hin, H.
    + intros k off H. destruct (P3 k off H) as [l' H']. exists l'. apply Hin, H'.
    + intros k k' l1 l2 o1 o2 H1 H2. apply P4; apply Hin; assumption.
Qed.

Lemma needsSlot_layout k l : needsSlot fn k l -> okLayout l.
Proof.
  assert (T : forall typ l, layoutOf module fuel typ = Ok l -> okLayout l) by (intros typ l0; apply layoutIn_ok).
  intros (b & i & _ & _ & [[_|n a p l' _ _ _ Hl|l' _ Hl|l' _ Hl]|[l' _ _ Hl|l' _ _ _ Hl]]); try (apply (T _ _ Hl)).
  split; [right; right; right; left; reflexivity | exists 2; reflexivity].
Qed.

Lemma planFrame_placed frame :
  distinctResults -> planFrame module fuel paramsByFunction flagResults optionLocals fn = Ok frame ->
  (forall k l, needsSlot fn k l -> 0 <= lSize l <= 2 ^ 32) -> Z.of_nat (base.size (fmSlots frame)) <= 2 ^ 24 ->
  exists f, placed f (needsSlot fn) /\ fmSlots frame = fmSlots f /\ fmSize f <= fmSize frame /\ (8 | fmSize frame).
Proof.
  intros Hd Hp Hsize Hn. destruct (planFrame_grows _ _ _ _ _ _ _ Hp) as (f & (reqs & -> & Hr) & ->).
  exists (allocs (mkFrameLayout 0 ∅) reqs). cbn [fmSlots fmSize] in *.
  assert (I : placed (allocs (mkFrameLayout 0 ∅) reqs) (fun k l => (k, l) ∈ reqs)).
  { apply placed_allocs; [| |exact Hn].
    - intros k l H. apply Hr in H. split; [apply (needsSlot_layout k l H) | apply (Hsize k l H)].
    - intros k l l' H H'. apply Hr in H, H'. apply (needsSlot_unique k l' l Hd H' H). }
  destruct I as [S0 P2 P3 P4]. split; [|split; [reflexivity|]].
  - constructor; [exact S0 | | |].
    + intros k l H. apply P2, Hr, H.
    + intros k off H. destruct (P3 k off H) as [l Hl]. exists l. apply Hr, Hl.
    + intros k k' l l' off off' H H'. apply P4; apply Hr; assumption.
  - split; [|apply alignUp_divides; right; right; right; left; reflexivity].
    apply alignUp_next; [right; right; right; left; reflexivity | lia | unfold slotSpace, max_int64 in *; nia].
Qed.

(** *** Every slot the body reads is there *)

Lemma fold_ok_succeeds {E A B} (step : A -> B -> result E A) l :
  (forall a x, x ∈ l -> exists a', step a x = Ok a') -> forall a, exists a', fold_ok step a l = Ok a'.
Proof.
  intros H. induction l as [|x l IH]; intros a; [exists a; reflexivity|]. cbn [fold_ok].
  destruct (H a x ltac:(left)) as [a' ->]. apply IH. intros b y Hy. apply H. right. exact Hy.
Qed.

Lemma frameSlot_there frame k : is_Some (fmSlots frame !! k) -> exists e, frameSlot frame k = Ok e.
Proof. intros [off H]. unfold frameSlot. rewrite H. destruct (off =? 0); eauto. Qed.

Lemma fold_ok_each {E A B} (step : A -> B -> result E A) l a a' x :
  fold_ok step a l = Ok a' -> x ∈ l -> exists b b', step b x = Ok b'.
Proof.
  revert a. induction l as [|y l IH]; intros a H Hx; [inversion Hx|]. cbn [fold_ok] in H.
  destruct (step a y) as [a1|] eqn:Ey; [|discriminate]. apply elem_of_cons in Hx as [->|Hx]; [eauto | apply (IH a1 H Hx)].
Qed.

(** A frame is planned only when what is put in it has a layout. *)
Lemma planned_layouts frame b i :
  planFrame module fuel paramsByFunction flagResults optionLocals fn = Ok frame -> b ∈ fBlocks fn -> i ∈ bInstrs b ->
  (hasResultSlot module flagResults optionLocals i = true \/
   isPhi i && hasPhiCell module flagResults optionLocals (iResult i) = true -> exists l, layoutOf module fuel (vType (iResult i)) = Ok l) /\
  (iOp i = "local.slot" -> exists l, layoutOf module fuel (derefWasmType (vType (iResult i))) = Ok l).
Proof.
  unfold planFrame. intros H Hb Hi.
  match type of H with match ?e with Ok _ => _ | Err _ => _ end = _ => destruct e as [f1|] eqn:H1; [|discriminate] end.
  match type of H with match ?e with Ok _ => _ | Err _ => _ end = _ => destruct e as [f2|] eqn:H2; [|discriminate] end. clear H.
  destruct (fold_ok_each _ _ _ _ b H1 Hb) as (g & g' & G). destruct (fold_ok_each _ _ _ _ i G Hi) as (h & h' & P). clear H1 G.
  unfold planPhiCells in H2. destruct (fold_ok_each _ _ _ _ b H2 Hb) as (g2 & g2' & G). destruct (fold_ok_each _ _ _ _ i G Hi) as (h2 & h2' & Q).
  clear H2 G. unfold planInstr in P. cbv zeta in P. destruct (planCallCopySlots _ _ _ _ i); [|discriminate]. unfold planPhi in Q.
  split.
  - intros [E|E].
    + rewrite E in P. destruct (layoutOf module fuel (vType (iResult i))); [eauto | discriminate].
    + rewrite E in Q. destruct (layoutOf module fuel (vType (iResult i))); [eauto | discriminate].
  - intros E. rewrite E in P. cbn [String.eqb Ascii.eqb Bool.eqb] in P.
    match type of P with match ?e with Ok _ => _ | Err _ => _ end = _ => destruct e; [|discriminate] end.
    destruct (layoutOf module fuel (derefWasmType (vType (iResult i)))); [eauto | discriminate].
Qed.

Lemma registers frame values :
  (forall k l, needsSlot fn k l -> is_Some (fmSlots frame !! k)) ->
  planFrame module fuel paramsByFunction flagResults optionLocals fn = Ok frame ->
  exists cells values', registerFrameValues module fuel flagResults optionLocals frame values fn = Ok (cells, values').
Proof.
  intros Hs Hp. unfold registerFrameValues.
  assert (Hcells : exists cells, registerPhiCells module fuel flagResults optionLocals frame fn = Ok cells).
  { apply fold_ok_succeeds. intros cells b Hb. apply fold_ok_succeeds. clear cells. intros cells i Hi. unfold registerPhi.
    destruct (isPhi i && hasPhiCell module flagResults optionLocals (iResult i)) eqn:E; [|eauto].
    destruct (proj1 (planned_layouts frame b i Hp Hb Hi) (or_intror E)) as [l Hl]. unfold frameLayoutOf. rewrite Hl.
    apply andb_true_iff in E as [E1 E2].
    destruct (frameSlot_there frame (phiSlotKey (vName (iResult i)))) as [e ->].
    { apply (Hs _ l). exists b, i. split; [exact Hb|]. split; [exact Hi|]. right. apply needs_cell; assumption. }
    case_bool_decide as Hr; [|eauto]. destruct (frameSlot_there frame (phiParkSlotKey (vName (iResult i)))) as [e' ->]; [|eauto].
    apply (Hs _ l). exists b, i. split; [exact Hb|]. split; [exact Hi|]. right. apply needs_park; assumption. }
  destruct Hcells as [cells ->].
  assert (Hvalues : exists values', fold_ok (fun values b => fold_ok (registerInstr module flagResults optionLocals frame) values (bInstrs b)) values (fBlocks fn) = Ok values').
  { apply fold_ok_succeeds. intros vs b Hb. apply fold_ok_succeeds. clear vs. intros vs i Hi. unfold registerInstr.
    destruct (planned_layouts frame b i Hp Hb Hi) as [L1 L2].
    assert (R : exists vs', (if hasResultSlot module flagResults optionLocals i
                 then let* slot := resultSlot frame (iResult i) in Ok (<[vName (iResult i) := slot]> vs)
                 else Ok vs) = Ok vs').
    { destruct (hasResultSlot module flagResults optionLocals i) eqn:E; [|eauto].
      destruct (L1 (or_introl eq_refl)) as [l Hl].
      unfold resultSlot. destruct (frameSlot_there frame (resultSlotKey (vName (iResult i)))) as [e ->]; [|eauto].
      apply (Hs _ l). exists b, i. split; [exact Hb|]. split; [exact Hi|]. left. apply needs_result; assumption. }
    destruct R as [vs' ->]. destruct (String.eqb_spec (iOp i) "local.slot") as [E|E]; [|eauto]. destruct (L2 E) as [l Hl].
    unfold localSlot. destruct (frameSlot_there frame (localSlotKey (vName (iResult i)))) as [e ->]; [|eauto].
    apply (Hs _ l). exists b, i. split; [exact Hb|]. split; [exact Hi|]. left. apply needs_local; assumption. }
  destruct Hvalues as [values' ->]. eauto.
Qed.

Lemma planCopies_layouts args : forall params f name n f' m arg param,
  planCopies module fuel f name n args params = Ok f' -> args !! m = Some arg -> params !! m = Some param ->
  callNeedsCopySlot module param arg = true -> exists l, layoutOf module fuel (vType arg) = Ok l.
Proof.
  induction args as [|a args IH]; intros [|p params] f name n f' m arg param H Ha Hp Hc; try discriminate.
  cbn [planCopies] in H. destruct m as [|m].
  - injection Ha as ->. injection Hp as ->. rewrite Hc in H. destruct (layoutOf module fuel (vType arg)); [eauto | discriminate].
  - destruct (callNeedsCopySlot module p a); [destruct (layoutOf module fuel (vType a)); [|discriminate]|];
      apply (IH _ _ _ _ _ m arg param H Ha Hp Hc).
Qed.

(** The cells of map instructions and the copies handed to calls. *)
Lemma cells_there frame b i :
  (forall k l, needsSlot fn k l -> is_Some (fmSlots frame !! k)) ->
  planFrame module fuel paramsByFunction flagResults optionLocals fn = Ok frame -> b ∈ fBlocks fn -> i ∈ bInstrs b ->
  (mapInstrNeedsTemp (iOp i) = true -> exists e, mapTempSlot frame (iResult i) = Ok e) /\
  forall n arg param, fst (callArgsAndParams paramsByFunction i) !! n = Some arg ->
    snd (callArgsAndParams paramsByFunction i) !! n = Some param -> callNeedsCopySlot module param arg = true ->
    exists e, callCopySlot frame (iResult i) n = Ok e.
Proof.
  intros Hs Hp Hb Hi. split.
  - intros Hm. apply frameSlot_there. apply (Hs _ (mkLayout mapTempSize 8)). exists b, i. auto using needs_temp.
  - intros n arg param Ha Hpar Hc. apply frameSlot_there. unfold planFrame in Hp.
    match type of Hp with match ?e with Ok _ => _ | Err _ => _ end = _ => destruct e as [f1|] eqn:H1; [|discriminate] end.
    destruct (fold_ok_each _ _ _ _ b H1 Hb) as (g & g' & G). destruct (fold_ok_each _ _ _ _ i G Hi) as (h & h' & P).
    unfold planInstr in P. cbv zeta in P.
    match type of P with match ?e with Ok _ => _ | Err _ => _ end = _ => destruct e as [f2|] eqn:H2; [|discriminate] end.
    unfold planCallCopySlots in H2. destruct (callArgsAndParams paramsByFunction i) as [args params] eqn:Hargs. cbn [fst snd] in *.
    destruct (planCopies_layouts args params _ _ _ _ n arg param H2 Ha Hpar Hc) as [l Hl].
    apply (Hs _ l). exists b, i. split; [exact Hb|]. split; [exact Hi|]. left.
    apply (needs_copy _ _ _ _ _ _ n arg param l); rewrite ?Hargs; assumption.
Qed.

End Apart.

(** A struct built and kept in a local cell, two phis of it that trade places, a
    lookup in a map, and two stores without a result name. *)
Definition sample_frame_module : Module_ :=
  mkModule {["Pair" := mkStruct "Pair" [mkField "a" "i64"; mkField "b" "u8"]]} ∅ ∅ ∅ [] ∅.

Definition sample_frame : Function :=
  let v x := mkValue x "Pair" in
  mkFunction "f" [mkParam "%p" "Pair" PassValue; mkParam "%c" "bool" PassValue] "void"
    [mkBlock "entry" [instr (v "%n") "struct.new" [] ""; instr (mkValue "%l" "&var Pair") "local.slot" [v "%n"] "";
                      instr (mkValue "%g" "bool") "map.contains" [] ""; instr (mkValue "" "void") "ref.store" [] "";
                      instr (mkValue "" "void") "ref.store" [] ""] (jump "head");
     mkBlock "head" [phi (v "%x") [mkIncoming "entry" (v "%p"); mkIncoming "head" (v "%y")];
                     phi (v "%y") [mkIncoming "entry" (v "%n"); mkIncoming "head" (v "%x")]]
       (branch (mkValue "%c" "bool") "head" "end");
     mkBlock "end" [] (ret (mkValue "" "void"))] "" "".

(** Every layout an instruction can ask for is within the address space. *)
Definition fitsb (module : Module_) (fuel : nat) (typ : string) : bool :=
  match layoutOf module fuel typ with
  | Ok l => (0 <=? lSize l) && (lSize l <=? 2 ^ 32)
  | Err _ => true
  end.

Definition slotsFitb (module : Module_) (fuel : nat) (fn : Function) : bool :=
  forallb (fun b => forallb (fun i =>
    fitsb module fuel (derefWasmType (vType (iResult i))) &&
    forallb (fun v => fitsb module fuel (vType v)) (iResult i :: iArgs i)) (bInstrs b)) (fBlocks fn).

Lemma fitsb_sound module fuel typ l : fitsb module fuel typ = true -> layoutOf module fuel typ = Ok l -> 0 <= lSize l <= 2 ^ 32.
Proof. unfold fitsb. intros H E. rewrite E in H. apply andb_true_iff in H as [H1 H2]. lia. Qed.

Lemma slotsFitb_sound module fuel params flags options fn k l :
  slotsFitb module fuel fn = true -> needsSlot module fuel params flags options fn k l -> 0 <= lSize l <= 2 ^ 32.
Proof.
  intros H (b & i & Hb & Hi & Hn). pose proof (forallb_elem _ _ b H Hb) as H1. pose proof (forallb_elem _ _ i H1 Hi) as H2.
  apply andb_true_iff in H2 as [Hd Hv].
  assert (A : forall v l, v ∈ iResult i :: iArgs i -> layoutOf module fuel (vType v) = Ok l -> 0 <= lSize l <= 2 ^ 32)
    by (intros v l0 Hin; apply fitsb_sound, (forallb_elem _ _ v Hv Hin)).
  destruct Hn as [[_|n a p l' Ha _ _ Hl|l' _ Hl|l' _ Hl]|[l' _ _ Hl|l' _ _ _ Hl]].
  - cbn. unfold mapTempSize. lia.
  - apply (A a); [|exact Hl]. right. apply list_elem_of_lookup_2 in Ha. revert Ha. unfold callArgsAndParams.
    destruct (String.eqb (iOp i) "call.indirect"); [destruct (iArgs i) as [|x args]; [intros Ha; inversion Ha | intros Ha; right; exact Ha]|].
    destruct (CutPrefix (iOp i) "call."); [|intros Ha; inversion Ha]. destruct (params !! _); intros Ha; [exact Ha | inversion Ha].
  - apply (A (iResult i)); [left | exact Hl].
  - apply (fitsb_sound _ _ _ _ Hd Hl).
  - apply (A (iResult i)); [left | exact Hl].
  - apply (A (iResult i)); [left | exact Hl].
Qed.


(** * Loads and stores ([memory.go]) *)

Section Access.
Context (module : Module_).

(** [isAddressValueType] *)
Definition isAddressValueType (typ : string) : bool :=
  isReferenceType typ || isRawPointerType typ || isFunctionPointerType typ || isBoxWasmType typ.

(** [storeOp]: [None] for a type that cannot be stored. *)
Definition storeOp (typ : string) : option string :=
  if isNamedI64Type module typ then Some "i64.store"
  else if String.eqb typ "bool" then Some "i32.store8"
  else if oneOf typ ["i8"; "u8"] then Some "i64.store8"
  else if oneOf typ ["i16"; "u16"] then Some "i64.store16"
  else if oneOf typ ["i32"; "u32"; "usize"; "isize"] then Some "i64.store32"
  else if oneOf typ ["i64"; "u64"] then Some "i64.store"
  else if String.eqb typ "f32" then Some "f32.store"
  else if String.eqb typ "f64" then Some "f64.store"
  else if oneOf typ ["Allocator"; "Io"] then Some "i32.store"
  else if IsVector typ then Some "v128.store"
  else if isAddressValueType typ then Some "i32.store"
  else None.

(** [loadOp] *)
Definition loadOp (typ : string) : option string :=
  if isNamedI64Type module typ then Some "i64.load"
  else if String.eqb typ "bool" then Some "i32.load8_u"
  else if String.eqb typ "i8" then Some "i64.load8_s"
  else if String.eqb typ "u8" then Some "i64.load8_u"
  else if String.eqb typ "i16" then Some "i64.load16_s"
  else if String.eqb typ "u16" then Some "i64.load16_u"
  else if oneOf typ ["i32"; "isize"] then Some "i64.load32_s"
  else if oneOf typ ["u32"; "usize"] then Some "i64.load32_u"
  else if oneOf typ ["i64"; "u64"] then Some "i64.load"
  else if String.eqb typ "f32" then Some "f32.load"
  else if String.eqb typ "f64" then Some "f64.load"
  else if oneOf typ ["Allocator"; "Io"] then Some "i32.load"
  else if IsVector typ then Some "v128.load"
  else if isAddressValueType typ then Some "i32.load"
  else None.
(** *** Text of the accesses *)

Inductive MemoryError : Type :=
  | NoAccess (typ : string)
  | RequiresStorage (typ : string)
  | SlotMissing (e : FrameError)
  | NoLayout (e : LayoutError).

Definition memoryLine (text : string) : string := "            " +:+ text +:+ String "010"%char "".

(** [writeStoreValue] *)
Definition writeStoreValue (fuel : nat) (base : string) (offset : Z) (typ expr : string) : Prelude.result MemoryError string :=
  let address := addressAt base offset in
  if isMemoryType module typ then
    match layoutOf module fuel typ with
    | Ok layout => Ok (writeMemoryCopy address expr (lSize layout))
    | Err e => Err (NoLayout e)
    end
  else match storeOp typ with
  | Some op => Ok (memoryLine ("(" +:+ op +:+ " " +:+ address +:+ " " +:+ expr +:+ ")"))
  | None => Err (NoAccess typ)
  end.

(** [loadExpr] *)
Definition loadExpr (base : string) (offset : Z) (typ : string) : Prelude.result MemoryError string :=
  if isMemoryType module typ then Err (RequiresStorage typ)
  else match loadOp typ with
  | Some op => Ok ("(" +:+ op +:+ " " +:+ addressAt base offset +:+ ")")
  | None => Err (NoAccess typ)
  end.

(** [writeLoadValue]: the text, and what is recorded. *)
Definition writeLoadValue (fuel : nat) (frame : frameLayout) (values : gmap string string) (result : Value) (base : string) (offset : Z)
  : Prelude.result MemoryError (string * gmap string string) :=
  if isMemoryType module (vType result) then
    match resultSlot frame result with
    | Err e => Err (SlotMissing e)
    | Ok slot =>
        match layoutOf module fuel (vType result) with
        | Err e => Err (NoLayout e)
        | Ok layout =>
            Ok (writeMemoryCopy slot (addressAt base offset) (lSize layout), <[vName result := slot]> values)
        end
    end
  else
    let* expr := loadExpr base offset (vType result) in
    let symbol := symbolName (vName result) in
    Ok (memoryLine ("(local.set " +:+ symbol +:+ " " +:+ expr +:+ ")"),
        <[vName result := "(local.get " +:+ symbol +:+ ")"]> values).

(** [writeCallArg] of [control.go]: the text, and the argument to pass. *)
Definition writeCallArg (fuel : nat) (frame : frameLayout) (values : gmap string string) (i : Instr) (arg : Value) (param : Param) (index : nat)
  : Prelude.result MemoryError (string * string) :=
  let value := valueExpr values arg in
  if negb (callNeedsCopySlot module param arg) then Ok ("", value)
  else match callCopySlot frame (iResult i) index with
  | Err e => Err (SlotMissing e)
  | Ok slot =>
      let* text := writeStoreValue fuel slot 0 (vType arg) value in
      Ok (text, slot)
  end.
End Access.

(** ** Linear memory, as WebAssembly has it

    The accesses of the WebAssembly specification: the type of what they move
    between the stack and memory, how many bytes, and whether a load extends the
    sign.  A value of any type is its bits. *)

Definition storeAccesses : list (string * (string * Z)) :=
  [("i32.store8", ("i32", 1)); ("i32.store", ("i32", 4));
   ("i64.store8", ("i64", 1)); ("i64.store16", ("i64", 2)); ("i64.store32", ("i64", 4)); ("i64.store", ("i64", 8));
   ("f32.store", ("f32", 4)); ("f64.store", ("f64", 8)); ("v128.store", ("v128", 16))].

Definition loadAccesses : list (string * (string * Z * bool)) :=
  [("i32.load8_u", ("i32", 1, false)); ("i32.load", ("i32", 4, false));
   ("i64.load8_s", ("i64", 1, true)); ("i64.load8_u", ("i64", 1, false));
   ("i64.load16_s", ("i64", 2, true)); ("i64.load16_u", ("i64", 2, false));
   ("i64.load32_s", ("i64", 4, true)); ("i64.load32_u", ("i64", 4, false)); ("i64.load", ("i64", 8, false));
   ("f32.load", ("f32", 4, false)); ("f64.load", ("f64", 8, false)); ("v128.load", ("v128", 16, false))].

Definition accessOf {A} (table : list (string * A)) (op : string) : option A :=
  snd <$> List.find (fun entry => String.eqb (fst entry) op) table.

Definition typeBits (wasm : string) : Z :=
  if oneOf wasm ["i32"; "f32"] then 32 else if oneOf wasm ["i64"; "f64"] then 64 else 128.

(** Bytes by address; little-endian, from [a] on. *)
Definition putBytes (m : Z -> Z) (a : Z) (count v : Z) : Z -> Z :=
  fun b => if (a <=? b) && (b <? a + count) then v / 2 ^ (8 * (b - a)) mod 256 else m b.

Fixpoint getBytes (m : Z -> Z) (a : Z) (count : nat) : Z :=
  match count with
  | O => 0
  | S n => getBytes m a n + m (a + Z.of_nat n) * 2 ^ (8 * Z.of_nat n)
  end.

(** A store of the bits of a value of a type, and a load: the type of what is
    loaded and its bits. *)
Definition store (op : string) (m : Z -> Z) (a : Z) (wasm : string) (bits : Z) : option (Z -> Z) :=
  match accessOf storeAccesses op with
  | Some (t, c) => if String.eqb t wasm then Some (putBytes m a c bits) else None
  | None => None
  end.

Definition load (op : string) (m : Z -> Z) (a : Z) : option (string * Z) :=
  match accessOf loadAccesses op with
  | Some (t, c, sign) =>
      let raw := getBytes m a (Z.to_nat c) in
      Some (t, if sign : bool then unsigned (typeBits t) (signed (8 * c) raw) else raw)
  | None => None
  end.

Lemma get_put m a c v n :
  Z.of_nat n <= c -> getBytes (putBytes m a c v) a n = v mod 2 ^ (8 * Z.of_nat n).
Proof.
  induction n as [|n IH]; intros H; [cbn [getBytes]; rewrite Z.mul_0_r, Z.pow_0_r, Z.mod_1_r; reflexivity|].
  cbn [getBytes]. rewrite IH by lia. unfold putBytes. rewrite (proj2 (Z.leb_le _ _)), (proj2 (Z.ltb_lt _ _)) by lia. cbn [andb].
  replace (a + Z.of_nat n - a) with (Z.of_nat n) by lia. set (p := 2 ^ (8 * Z.of_nat n)).
  assert (Hp : 0 < p) by (unfold p; lia). replace (2 ^ (8 * Z.of_nat (S n))) with (p * 256).
  - rewrite Z.rem_mul_r by lia. lia.
  - unfold p. change 256 with (2 ^ 8). rewrite <- Z.pow_add_r by lia. f_equal. lia.
Qed.

Lemma put_other m a c v b : b < a \/ a + c <= b -> putBytes m a c v b = m b.
Proof.
  intros H. unfold putBytes. destruct (Z.leb_spec a b), (Z.ltb_spec b (a + c)); try reflexivity. lia.
Qed.

Lemma getBytes_agree m m' a n :
  (forall b, a <= b < a + Z.of_nat n -> m b = m' b) -> getBytes m a n = getBytes m' a n.
Proof.
  induction n as [|n IH]; intros H; [reflexivity|]. cbn [getBytes].
  rewrite IH by (intros b Hb; apply H; lia). rewrite H by lia. reflexivity.
Qed.

(** What a local of a type holds: of a [bool] 0 or 1, of an integer a value of
    the language extended to 64 bits, of anything else (floats and vectors, tags
    and handles, addresses) any bits of its WebAssembly type. *)
Definition represents (module : Module_) (typ : string) (bits : Z) : Prop :=
  if String.eqb typ "bool" then bits = 0 \/ bits = 1
  else match languageType typ with
  | Some (uns, n) => exists v, inBits uns n v /\ bits = unsigned 64 v
  | None => 0 <= bits < 2 ^ typeBits (wasmType module typ)
  end.

(** *** An access moves the bytes of the layout *)

(** A declared tag type is not spelled like a built-in one. *)
Definition plainTags (module : Module_) : Prop :=
  forall typ, isTagType module typ = true ->
    directLayout typ = None /\ optionalElemWasm typ = None /\ errorUnionPartsWasm typ = None.

(** [not_listed] decides the tests against literals of a text that starts
    otherwise. *)
Ltac not_listed :=
  repeat (rewrite bool_decide_eq_false_2 by
    (rewrite ?elem_of_cons, ?elem_of_nil; cbn [append]; intros Hin; repeat destruct Hin as [Hin|Hin]; first [discriminate Hin | exact Hin])).

Lemma tag_access module fuel typ l :
  plainTags module -> isNamedI64Type module typ = true -> typeLayout module fuel typ = Ok l -> lSize l = 8.
Proof.
  intros Hp Hn Hl. destruct fuel as [|fuel]; [discriminate|]. unfold typeLayout in Hl. cbn [typeLayoutVisiting] in Hl.
  unfold isNamedI64Type in Hn. destruct (isTagType module typ) eqn:Ht.
  - destruct (Hp typ Ht) as (E1 & E2 & E3). rewrite E1, E2, E3 in Hl. injection Hl as <-. reflexivity.
  - cbn [orb] in Hn. assert (E : directLayout typ = Some (mkLayout 8 8)); [|rewrite E in Hl; injection Hl as <-; reflexivity].
    unfold isArenaHandleWasmType, wrapped in Hn. apply andb_true_iff in Hn as [Hpre Hsuf]. apply HasPrefix_true in Hpre as [rest ->].
    assert (E : primitiveLayout ("std::arena::Handle<" +:+ rest) = None)
      by (unfold primitiveLayout; not_listed; reflexivity).
    unfold directLayout. rewrite E. unfold isArrayWasmType, isMapWasmType, isArenaWasmType, isArenaHandleWasmType, wrapped.
    rewrite Hsuf, (proj2 (HasPrefix_true ("std::arena::Handle<" +:+ rest) "std::arena::Handle<")) by eauto. reflexivity.
Qed.

Lemma prefix_app p rest : HasPrefix (p +:+ rest) p = true.
Proof. apply HasPrefix_true. eauto. Qed.

Lemma address_layout typ : isAddressValueType typ = true -> directLayout typ = Some (mkLayout 4 4).
Proof.
  assert (P : forall typ, primitiveLayout typ = Some (mkLayout 4 4) -> directLayout typ = Some (mkLayout 4 4))
    by (intros t E; unfold directLayout; rewrite E; reflexivity).
  unfold isAddressValueType. rewrite !orb_true_iff. intros [[[H|H]|H]|H].
  - apply P. unfold isReferenceType in H. apply HasPrefix_true in H as [rest ->]. unfold primitiveLayout. not_listed.
    change (IsVector ("&" +:+ rest)) with false. unfold isReferenceType. rewrite prefix_app. reflexivity.
  - apply P. pose proof H as H0. unfold isRawPointerType, wrapped in H0. apply andb_true_iff in H0 as [H0 _].
    apply HasPrefix_true in H0 as [rest ->]. unfold primitiveLayout. not_listed. change (IsVector ("ptr<" +:+ rest)) with false.
    rewrite H, !orb_true_r. reflexivity.
  - apply P. pose proof H as H0. unfold isFunctionPointerType in H0. apply orb_true_iff in H0 as [H0|H0];
      apply HasPrefix_true in H0 as [rest ->]; unfold primitiveLayout; not_listed.
    + change (IsVector ("fn(" +:+ rest)) with false. rewrite H, !orb_true_r. reflexivity.
    + change (IsVector ("unsafe fn(" +:+ rest)) with false. rewrite H, !orb_true_r. reflexivity.
  - pose proof H as H0. unfold isBoxWasmType, wrapped in H0. apply andb_true_iff in H0 as [H0 Hsuf].
    apply HasPrefix_true in H0 as [rest ->].
    assert (E : primitiveLayout ("std::mem::Box<" +:+ rest) = None) by (unfold primitiveLayout; not_listed; reflexivity).
    unfold directLayout. rewrite E, H. reflexivity.
Qed.

Lemma vector_layout typ : IsVector typ = true -> directLayout typ = Some (mkLayout 16 16).
Proof.
  unfold IsVector. intros H. apply bool_decide_eq_true in H as [x H]. unfold VectorOf in H.
  repeat match type of H with context [String.eqb typ ?s] => destruct (String.eqb_spec typ s) as [->|_]; [reflexivity|] end.
  discriminate.
Qed.

Lemma direct_size module fuel typ l d : directLayout typ = Some d -> typeLayout module fuel typ = Ok l -> l = d.
Proof.
  intros E H. destruct fuel as [|fuel]; [discriminate|]. unfold typeLayout in H. cbn [typeLayoutVisiting] in H.
  rewrite E in H. injection H as <-. reflexivity.
Qed.

(** What a width keeps of a value held in an [i64]. *)
Lemma narrow_load uns n v :
  0 < n <= 64 -> inBits uns n v ->
  (if uns then unsigned 64 v mod 2 ^ n else unsigned 64 (signed n (unsigned 64 v mod 2 ^ n))) = unsigned 64 v.
Proof.
  intros Hn Hv. rewrite mod_mod_pow by lia. destruct uns.
  - rewrite (unsigned_small true n v Hn Hv) by (unfold inBits in Hv; lia). apply Z.mod_small. exact Hv.
  - fold (unsigned n v). rewrite signed_unsigned by (unfold inBits in Hv; lia). reflexivity.
Qed.

(** An access of [c] bytes of the WebAssembly type [w]: the two instructions, of
    the size of the layout, and that what is stored comes back. *)
Definition accesses (module : Module_) (typ w : string) (c : Z) (sign : bool) (st ld : string) : Prop :=
  accessOf storeAccesses st = Some (w, c) /\ accessOf loadAccesses ld = Some (w, c, sign) /\ wasmType module typ = w /\ 0 < c /\
  forall bits, represents module typ bits ->
    (if sign then unsigned (typeBits w) (signed (8 * c) (bits mod 2 ^ (8 * c))) else bits mod 2 ^ (8 * c)) = bits.

(** A tag or a handle is no built-in type. *)
Lemma named_not_built_in module typ :
  plainTags module -> isNamedI64Type module typ = true -> typ <> "bool" /\ isIntegerType typ = false.
Proof.
  intros Hp Hn.
  assert (Ht : forall t, isNamedI64Type module t = true -> directLayout t <> None -> HasPrefix t "std::arena::Handle<" = true).
  { intros t H Hd. unfold isNamedI64Type in H. destruct (isTagType module t) eqn:E; [destruct (Hp t E); contradiction|].
    unfold isArenaHandleWasmType, wrapped in H. cbn [orb] in H. apply andb_true_iff in H. tauto. }
  split; [intros ->; specialize (Ht "bool" Hn ltac:(discriminate)); discriminate|].
  apply not_true_is_false. intros Hty. integer_cases Hty; specialize (Ht _ Hn ltac:(discriminate)); discriminate.
Qed.

Lemma languageType_integer typ : isIntegerType typ = false -> languageType typ = None.
Proof.
  intros H. destruct (languageType typ) as [[uns n]|] eqn:E; [|reflexivity].
  destruct (languageType_spec typ uns n E) as (Hty & _). congruence.
Qed.

(** Types whose locals hold any bits. *)
Lemma accesses_bits module typ w c st ld :
  String.eqb typ "bool" = false -> languageType typ = None -> wasmType module typ = w -> typeBits w = 8 * c -> 0 < c ->
  accessOf storeAccesses st = Some (w, c) -> accessOf loadAccesses ld = Some (w, c, false) ->
  accesses module typ w c false st ld.
Proof.
  intros Hb Hl Hw Hc H0 Hs Hd. split; [exact Hs|]. split; [exact Hd|]. split; [exact Hw|]. split; [exact H0|]. intros bits.
  unfold represents. rewrite Hb, Hl, Hw, Hc. apply Z.mod_small.
Qed.

Lemma accesses_integer module typ uns n c sign st ld :
  languageType typ = Some (uns, n) -> n = 8 * c -> 0 < c <= 8 -> (uns = negb sign \/ c = 8 /\ sign = false) ->
  accessOf storeAccesses st = Some ("i64", c) -> accessOf loadAccesses ld = Some ("i64", c, sign) ->
  accesses module typ "i64" c sign st ld.
Proof.
  intros Hl -> Hc Hsign Hs Hd. destruct (languageType_spec typ _ _ Hl) as (Hty & _).
  split; [exact Hs|]. split; [exact Hd|]. split; [unfold wasmType; rewrite Hty; reflexivity|]. split; [lia|]. intros bits.
  unfold represents. rewrite (integer_not_bool typ Hty), Hl. change (typeBits "i64") with 64.
  intros (v & Hv & ->). destruct Hsign as [->|[-> ->]].
  - pose proof (narrow_load (negb sign) (8 * c) v ltac:(lia) Hv) as H. destruct sign; exact H.
  - unfold unsigned. apply Z.mod_mod. lia.
Qed.

Lemma accesses_bool module : plainTags module -> accesses module "bool" "i32" 1 false "i32.store8" "i32.load8_u".
Proof.
  intros Hp. split; [reflexivity|]. split; [reflexivity|]. split.
  - unfold wasmType. destruct (isNamedI64Type module "bool") eqn:E; [|reflexivity].
    destruct (named_not_built_in module "bool" Hp E); contradiction.
  - split; [lia|]. intros bits [-> | ->]; reflexivity.
Qed.

(** Stores and loads of one type are of its size. *)
Lemma access_size module fuel typ st l :
  plainTags module -> storeOp module typ = Some st -> typeLayout module fuel typ = Ok l ->
  exists ld w sign, loadOp module typ = Some ld /\ accesses module typ w (lSize l) sign st ld.
Proof.
  intros Hp Hs Hl. unfold storeOp in Hs. unfold loadOp. destruct (isNamedI64Type module typ) eqn:Hn.
  { injection Hs as <-. exists "i64.load", "i64", false. split; [reflexivity|].
    rewrite (tag_access module fuel typ l Hp Hn Hl). destruct (named_not_built_in module typ Hp Hn) as [Hb Hi].
    apply accesses_bits; auto using languageType_integer; [apply String.eqb_neq, Hb | | lia].
    unfold wasmType. rewrite Hn, orb_true_r. reflexivity. }
  assert (C : forall d, directLayout typ = Some d -> l = d) by (intros d E; apply (direct_size module fuel typ l d E Hl)).
  assert (W : forall w, isIntegerType typ = false -> (if isFloatType typ then typ else if IsVector typ then "v128" else "i32") = w ->
            wasmType module typ = w) by (intros w Hi <-; unfold wasmType; rewrite Hi, Hn; reflexivity).
  unfold oneOf in *. cbn [existsb] in *.
  repeat match type of Hs with
  | context [String.eqb typ ?s] => destruct (String.eqb_spec typ s) as [->|?];
      [injection Hs as <-; rewrite (C _ eq_refl); do 3 eexists; (split; [reflexivity|]);
       first [apply accesses_bool; exact Hp
             | eapply accesses_integer; [reflexivity | reflexivity | cbn [lSize]; lia | | reflexivity | reflexivity];
               solve [left; reflexivity | right; split; reflexivity]
             | eapply accesses_bits; [reflexivity | reflexivity | | | | reflexivity | reflexivity];
               solve [apply W; reflexivity | reflexivity]]|]
  end.
    assert (Hb : String.eqb typ "bool" = false) by (apply String.eqb_neq; assumption).
  assert (Hi : isIntegerType typ = false).
  { apply not_true_is_false. intros Hty. integer_cases Hty; contradiction. }
  assert (Hf : isFloatType typ = false).
  { unfold isFloatType, oneOf. cbn [existsb]. rewrite (proj2 (String.eqb_neq typ "f32")), (proj2 (String.eqb_neq typ "f64")) by assumption. reflexivity. }
  cbn [orb] in Hs |- *. destruct (IsVector typ) eqn:Hv.
  { injection Hs as <-. rewrite (C _ (vector_layout typ Hv)). do 3 eexists. split; [reflexivity|].
    eapply (accesses_bits module typ "v128" 16); [exact Hb | apply languageType_integer, Hi | apply W; [exact Hi|]; rewrite Hf; reflexivity | reflexivity ..]. }
  destruct (isAddressValueType typ) eqn:Ha; [|discriminate].
  injection Hs as <-. rewrite (C _ (address_layout typ Ha)). do 3 eexists. split; [reflexivity|].
  eapply (accesses_bits module typ "i32" 4); [exact Hb | apply languageType_integer, Hi | apply W; [exact Hi|]; rewrite Hf; reflexivity | reflexivity ..].
Qed.

(** C29. A load gives back what a store of the same type put in memory, for every
    type [storeOp] names an instruction for: both instructions are of the
    WebAssembly type of the type's local and move exactly the bytes of its
    layout.  What comes back are the same bits: for a [bool], for an integer of
    any sign in the range [SPEC.md] gives its type (32 bits for [usize] and
    [isize]; the backend's 64-bit arithmetic can leave it), and for any bits of a
    float, a vector, a tag, an arena handle or an address.  No other byte of
    memory changes, and none is read. *)
Theorem store_load_round_trip module fuel typ st l :
  plainTags module -> storeOp module typ = Some st -> typeLayout module fuel typ = Ok l ->
  exists ld, loadOp module typ = Some ld /\
    forall m a bits, represents module typ bits ->
      exists m', store st m a (wasmType module typ) bits = Some m' /\
        load ld m' a = Some (wasmType module typ, bits) /\
        (forall b, b < a \/ a + lSize l <= b -> m' b = m b) /\
        forall m2, (forall b, a <= b < a + lSize l -> m2 b = m' b) -> load ld m2 a = load ld m' a.
Proof.
  intros Hp Hs Hl. destruct (access_size module fuel typ st l Hp Hs Hl) as (ld & w & sign & Hld & Hst & Hlo & Hw & H0 & Hback).
  exists ld. split; [exact Hld|]. intros m a bits Hr. exists (putBytes m a (lSize l) bits).
  unfold store, load. rewrite Hst, Hlo, Hw, String.eqb_refl. split; [reflexivity|]. split; [|split].
  - cbv zeta. rewrite get_put, Z2Nat.id by lia. do 2 f_equal. apply Hback, Hr.
  - apply put_other.
  - intros m2 H2. cbv zeta. rewrite (getBytes_agree m2 (putBytes m a (lSize l) bits)); [reflexivity|].
    intros b Hb. apply H2. lia.
Qed.

Lemma store_load_round_trip_witness :
  exists ld, loadOp (mkModule ∅ ∅ ∅ ∅ [] ∅) "i16" = Some ld /\
    exists m', store "i64.store16" (fun _ => 7) 100 "i64" (2 ^ 64 - 2) = Some m' /\
      load ld m' 100 = Some ("i64", 2 ^ 64 - 2) /\ m' 102 = 7.
Proof.
  destruct (store_load_round_trip (mkModule ∅ ∅ ∅ ∅ [] ∅) 5 "i16" "i64.store16" (mkLayout 2 2)) as (ld & Hld & H).
  - intros typ Ht. vm_compute in Ht. discriminate.
  - reflexivity.
  - vm_compute. reflexivity.
  - exists ld. split; [exact Hld|].
    destruct (H (fun _ => 7) 100 (2 ^ 64 - 2)) as (m' & H1 & H2 & H3 & _).
    + exists (-2). split; [vm_compute; split; [discriminate | reflexivity] | reflexivity].
    + exists m'. split; [exact H1|]. split; [exact H2|]. apply H3. right. vm_compute. discriminate.
Defined.

(** The range of [usize] is needed: in a local its arithmetic wraps at 64 bits, in
    memory it has 32, so what is below 0 or past [2 ^ 32] changes when a field is
    written and read. *)
Example usize_loses_bits :
  integerOp "-" "usize" 0 1 = Some (2 ^ 64 - 1) /\
  exists m', store "i64.store32" (fun _ => 0) 0 "i64" (2 ^ 64 - 1) = Some m' /\
    load "i64.load32_u" m' 0 = Some ("i64", 2 ^ 32 - 1).
Proof. split; [reflexivity|]. eexists. split; [reflexivity|]. vm_compute. reflexivity. Qed.
