(* ===== verification/WasmModule.v ===== *)
(** * The parsed wasm module ([internal/wasm/module.go])

    The wasm backend writes a module as WebAssembly text, and [parseModule] reads
    that text back into a table of nodes: atoms, quoted byte strings and lists,
    each a span of the text or the indices of its children.  Both renderers work
    on the result, [WAT] by giving the text out, [Binary] ([WasmBinary]) by
    walking the nodes.

    [written] says which texts spell which trees, without a parser; [represents]
    which tree the nodes hold at an index.  [WasmModuleFacts] shows that the
    parser relates the two, and that it always answers. *)

From stdpp Require Import base list strings.
From Stdlib Require Import ZArith Lia String Ascii.
From S2P Require Import Prelude GoStd.

#[local] Open Scope list_scope.

(** ** Errors

    [fmt.Errorf] is not called: an error keeps its format and its arguments.  An
    index out of range is a [Panic]; [Unfinished] is a bound that ran out. *)
Inductive fault : Type :=
  | Panic
  | Unfinished
  | Errorf (format : string) (args : list string)
  | Wrapf (format : string) (inner : fault)
  | Located (start : nat) (format : string) (args : list string).

Definition shown (n : nat) : string := FormatInt (Z.of_nat n).

(** What the Go code returns as an error, not a panic and not our bound. *)
Fixpoint isError (f : fault) : bool :=
  match f with
  | Panic | Unfinished => false
  | Errorf _ _ | Located _ _ _ => true
  | Wrapf _ inner => isError inner
  end.

(** ** Nodes *)

Inductive moduleNodeKind : Type := moduleAtom | moduleString | moduleList.

#[export] Instance moduleNodeKind_eq : EqDecision moduleNodeKind.
Proof. solve_decision. Defined.

Record moduleNode : Type := mkNode {
  kind : moduleNodeKind;
  start : nat;
  stop : nat;  (* [end] *)
  children : list nat
}.

Record WatModule : Type := mkModule {
  text : string;
  nodes : list moduleNode;
  root : nat
}.

(** [WAT] *)
Definition WAT (m : WatModule) : string := text m.

(** [m.nodes[index]] *)
Definition node (m : WatModule) (index : nat) : result fault moduleNode :=
  match nodes m !! index with Some n => Ok n | None => Err Panic end.

(** [m.text[start:end]] *)
Definition slice (s : string) (start stop : nat) : result fault string :=
  if (start <=? stop)%nat && (stop <=? String.length s)%nat
  then Ok (stake (stop - start) (sdrop start s)) else Err Panic.

(** [nodeText] *)
Definition nodeText (m : WatModule) (index : nat) : result fault string :=
  let* n := node m index in slice (text m) (start n) (stop n).

(** [nodeKind] *)
Definition nodeKind (m : WatModule) (index : nat) : result fault moduleNodeKind :=
  let* n := node m index in Ok (kind n).

(** [m.nodes[index].children] *)
Definition childrenOf (m : WatModule) (index : nat) : result fault (list nat) :=
  let* n := node m index in Ok (children n).

(** [listHead] *)
Definition listHead (m : WatModule) (index : nat) : result fault string :=
  let* k := nodeKind m index in
  if decide (k <> moduleList) then Ok "" else
  let* cs := childrenOf m index in
  match cs with
  | [] => Ok ""
  | c :: _ =>
      let* k := nodeKind m c in
      if decide (k <> moduleAtom) then Ok "" else nodeText m c
  end.

(** ** Byte strings

    A [[]byte] is the list of its bytes as integers. *)

Definition byteOf (c : ascii) : Z := Z.of_nat (nat_of_ascii c).

Fixpoint bytesOf (s : string) : list Z :=
  match s with EmptyString => [] | String c rest => byteOf c :: bytesOf rest end.

(** [hexNibble] *)
Definition hexNibble (c : ascii) : option Z :=
  let value := byteOf c in
  if (48 <=? value)%Z && (value <=? 57)%Z then Some (value - 48)%Z
  else if (97 <=? value)%Z && (value <=? 102)%Z then Some (value - 97 + 10)%Z
  else if (65 <=? value)%Z && (value <=? 70)%Z then Some (value - 65 + 10)%Z
  else None.

(** The last switch of [ModuleStringBytes]: an escape of one character. *)
Definition simpleEscape (c : ascii) : option Z :=
  if Ascii.eqb c "n" then Some 10%Z
  else if Ascii.eqb c "r" then Some 13%Z
  else if Ascii.eqb c "t" then Some 9%Z
  else if Ascii.eqb c "\" || Ascii.eqb c "034" then Some (byteOf c)
  else None.

(** The loop of [ModuleStringBytes], from a position of the text on. *)
Fixpoint decodeBytes (s : string) : result fault (list Z) :=
  match s with
  | EmptyString => Ok []
  | String c rest =>
      if negb (Ascii.eqb c "\") then let* out := decodeBytes rest in Ok (byteOf c :: out) else
      match rest with
      | EmptyString => Err (Errorf "wasm error: invalid generated WAT: unclosed string escape" [])
      | String c1 rest1 =>
          let single :=
            match simpleEscape c1 with
            | Some b => let* out := decodeBytes rest1 in Ok (b :: out)
            | None => Err (Errorf "wasm error: invalid generated WAT: invalid string escape" [])
            end in
          match rest1 with
          | EmptyString => single
          | String c2 rest2 =>
              match hexNibble c1, hexNibble c2 with
              | Some high, Some low =>
                  let* out := decodeBytes rest2 in Ok (Z.lor (Z.shiftl high 4) low :: out)
              | _, _ => single
              end
          end
      end
  end.

(** [stringBytes], the method *)
Definition ModuleStringBytes (m : WatModule) (index : nat) : result fault (list Z) :=
  let* k := nodeKind m index in
  if decide (k <> moduleString) then Err (Errorf "wasm error: invalid generated WAT: expected string" []) else
  let* t := nodeText m index in decodeBytes t.

(** ** Writing byte strings ([types.go]) *)

Definition hexDigits : string := "0123456789abcdef".

(** [hexByte] *)
Definition hexByte (value : Z) : string :=
  let digit n := match String.get (Z.to_nat n) hexDigits with Some c => String c "" | None => "" end in
  digit (Z.shiftr value 4) +:+ digit (Z.land value 15).

(** [stringBytes], the function: the bytes of a data segment, escaped. *)
Fixpoint stringBytes (value : string) : string :=
  match value with
  | EmptyString => ""
  | String c rest =>
      let b := byteOf c in
      (if Ascii.eqb c "\" || Ascii.eqb c "034" then "\" +:+ hexByte b
       else if Ascii.eqb c "010" then "\0a"
       else if Ascii.eqb c "009" then "\09"
       else if (b <? 32)%Z || (127 <=? b)%Z then "\" +:+ hexByte b
       else String c "") +:+ stringBytes rest
  end.

(** ** The parser *)

Record moduleParser : Type := mkParser { ptext : string; position : nat; pnodes : list moduleNode }.

(** [moduleSpace] *)
Definition moduleSpace (c : ascii) : bool :=
  Ascii.eqb c " " || Ascii.eqb c "009" || Ascii.eqb c "013" || Ascii.eqb c "010".

(** The characters [parseAtom] passes. *)
Definition atomChar (c : ascii) : bool :=
  negb (moduleSpace c || Ascii.eqb c "(" || Ascii.eqb c ")").

Definition isQuote (c : ascii) : bool := Ascii.eqb c "034".

(** [p.text[p.position:]] *)
Definition left (p : moduleParser) : string := sdrop (position p) (ptext p).

Definition advance (p : moduleParser) (n : nat) : moduleParser :=
  mkParser (ptext p) (position p + n) (pnodes p).

(** [skipSpace] *)
Definition skipSpace (p : moduleParser) : moduleParser :=
  advance p (String.length (fst (sspan moduleSpace (left p)))).

(** [addNode] *)
Definition addNode (p : moduleParser) (n : moduleNode) : nat * moduleParser :=
  (List.length (pnodes p), mkParser (ptext p) (position p) (pnodes p ++ [n])).

(** [parseAtom] *)
Definition parseAtom (p : moduleParser) : result fault (nat * moduleParser) :=
  let n := String.length (fst (sspan atomChar (left p))) in
  if (n =? 0)%nat then Err (Errorf "expected atom at byte %d" [shown (position p)])
  else Ok (addNode (advance p n) (mkNode moduleAtom (position p) (position p + n) [])).

(** The loop of [parseString]: where the closing quote is. *)
Fixpoint closingQuote (s : string) (position : nat) : result fault nat :=
  match s with
  | EmptyString => Err (Errorf "unclosed string" [])
  | String c rest =>
      if isQuote c then Ok position
      else if Ascii.eqb c "\" then
        match rest with
        | EmptyString => Err (Errorf "unclosed string" [])
        | String _ rest => closingQuote rest (position + 2)
        end
      else closingQuote rest (position + 1)
  end.

(** [parseString] *)
Definition parseString (p : moduleParser) : result fault (nat * moduleParser) :=
  let p := advance p 1 in
  let* stop := closingQuote (left p) (position p) in
  Ok (addNode (mkParser (ptext p) (stop + 1) (pnodes p)) (mkNode moduleString (position p) stop [])).

(** [parseNode] and the loop of [parseList], which has its children so far. *)
Fixpoint parseNode (fuel : nat) (p : moduleParser) {struct fuel} : result fault (nat * moduleParser) :=
  match fuel with
  | O => Err Unfinished
  | S fuel =>
      let p := skipSpace p in
      match left p with
      | EmptyString => Err (Errorf "expected node at byte %d" [shown (position p)])
      | String c _ =>
          if Ascii.eqb c "(" then parseListFrom fuel (advance p 1) []
          else if Ascii.eqb c ")" then Err (Errorf "unexpected `)` at byte %d" [shown (position p)])
          else if isQuote c then parseString p
          else parseAtom p
      end
  end
with parseListFrom (fuel : nat) (p : moduleParser) (children : list nat) {struct fuel}
    : result fault (nat * moduleParser) :=
  match fuel with
  | O => Err Unfinished
  | S fuel =>
      let p := skipSpace p in
      match left p with
      | EmptyString => Err (Errorf "unclosed list" [])
      | String c _ =>
          if Ascii.eqb c ")" then Ok (addNode (advance p 1) (mkNode moduleList 0 0 children))
          else
            let* (child, p) := parseNode fuel p in
            parseListFrom fuel p (children ++ [child])
      end
  end.

(** [parseList] *)
Definition parseList (fuel : nat) (p : moduleParser) : result fault (nat * moduleParser) :=
  parseListFrom fuel (advance p 1) [].

(** Two rounds for each byte: one of the loop and one of the node it starts. *)
Definition parseBound (text : string) : nat := 2 * String.length text + 1.

Definition invalid : string := "wasm error: invalid generated WAT: %w".

(** [parseModule] *)
Definition parseModule (text : string) : result fault WatModule :=
  match parseNode (parseBound text) (mkParser text 0 []) with
  | Err e => Err (Wrapf invalid e)
  | Ok (root, p) =>
      let p := skipSpace p in
      if negb (position p =? String.length text)%nat then
        Err (Errorf "wasm error: invalid generated WAT: trailing text at byte %d" [shown (position p)])
      else
        let m := mkModule text (pnodes p) root in
        let expected := Err (Errorf "wasm error: invalid generated WAT: expected module" []) in
        let* rootNode := node m root in
        if decide (kind rootNode <> moduleList) then expected else
        match children rootNode with
        | [] => expected
        | c :: _ =>
            let* head := node m c in
            if decide (kind head <> moduleAtom) then expected else
            let* t := nodeText m c in
            if negb (String.eqb t "module") then expected else Ok m
        end
  end.

(** ** What is read *)

(** The tree of a text: [Quoted] keeps its escapes. *)
Inductive wat : Type :=
  | Atom (t : string)
  | Quoted (raw : string)
  | Group (items : list wat).

Definition isAtom (x : wat) : bool := match x with Atom _ => true | _ => false end.

(** A text that a quote can close: no quote of its own, and no escape cut short. *)
Fixpoint quotable (s : string) : bool :=
  match s with
  | EmptyString => true
  | String c rest =>
      if isQuote c then false
      else if Ascii.eqb c "\" then match rest with EmptyString => false | String _ rest => quotable rest end
      else quotable rest
  end.

Definition quoteMark : string := String "034" "".

(** The texts that spell a tree, and the inside of a list.  An atom ends before
    white space, a parenthesis or the end, as nothing else separates it. *)
Inductive written : wat -> string -> Prop :=
  | written_atom t : t <> "" -> sall atomChar t = true -> starts isQuote t = false -> written (Atom t) t
  | written_quoted raw : quotable raw = true -> written (Quoted raw) (quoteMark +:+ raw +:+ quoteMark)
  | written_group items body : writtenItems items body -> written (Group items) ("(" +:+ body +:+ ")")
with writtenItems : list wat -> string -> Prop :=
  | written_nil sp : sall moduleSpace sp = true -> writtenItems [] sp
  | written_cons sp x s items rest :
      sall moduleSpace sp = true -> written x s ->
      (isAtom x = true -> starts atomChar rest = false) ->
      writtenItems items rest -> writtenItems (x :: items) (sp +:+ s +:+ rest).

(** A whole text: a list headed [module], with white space around it. *)
Definition writtenModule (items : list wat) (text : string) : Prop :=
  exists sp body sp', sall moduleSpace sp = true /\ sall moduleSpace sp' = true /\
    writtenItems (Atom "module" :: items) body /\ text = sp +:+ "(" +:+ body +:+ ")" +:+ sp'.

(** The tree the nodes hold at an index.  Children come before their list. *)
Inductive represents (m : WatModule) : nat -> wat -> Prop :=
  | represents_atom i a b t :
      nodes m !! i = Some (mkNode moduleAtom a b []) -> slice (text m) a b = Ok t -> represents m i (Atom t)
  | represents_quoted i a b t :
      nodes m !! i = Some (mkNode moduleString a b []) -> slice (text m) a b = Ok t -> represents m i (Quoted t)
  | represents_group i cs items :
      nodes m !! i = Some (mkNode moduleList 0 0 cs) -> Forall (fun c => (c < i)%nat) cs ->
      representsAll m cs items -> represents m i (Group items)
with representsAll (m : WatModule) : list nat -> list wat -> Prop :=
  | represents_nil : representsAll m [] []
  | represents_cons c cs x items :
      represents m c x -> representsAll m cs items -> representsAll m (c :: cs) (x :: items).

Scheme written_mut := Minimality for written Sort Prop
  with writtenItems_mut := Minimality for writtenItems Sort Prop.
Combined Scheme written_both from written_mut, writtenItems_mut.

Scheme represents_mut := Minimality for represents Sort Prop
  with representsAll_mut := Minimality for representsAll Sort Prop.
Combined Scheme represents_both from represents_mut, representsAll_mut.
