(* ===== verification/WasmModuleFacts.v ===== *)
(** * The module parser reads what is written ([internal/wasm/module.go])

    [parseModule] accepts exactly the texts of [written] with a head [module], and
    its nodes then represent the tree that was written; it never panics and its
    bound is never reached.  The escapes a data segment is written with read back
    as its bytes. *)

From stdpp Require Import base list strings.
From Stdlib Require Import ZArith Lia String Ascii.
From S2P Require Import Prelude GoStd WasmModule.

#[local] Open Scope list_scope.

(** ** Positions and suffixes *)

Lemma sdrop_app a b : sdrop (String.length a) (a +:+ b) = b.
Proof. induction a as [|c a IH]; [reflexivity | exact IH]. Qed.

Lemma sdrop_sdrop n k s : sdrop (n + k) s = sdrop k (sdrop n s).
Proof.
  revert s. induction n as [|n IH]; intros [|c s]; try reflexivity; [destruct k; reflexivity | apply IH].
Qed.

Lemma sdrop_length n s : String.length (sdrop n s) = (String.length s - n)%nat.
Proof. revert s. induction n as [|n IH]; intros [|c s]; simpl; auto. Qed.

Lemma stake_app a b : stake (String.length a) (a +:+ b) = a.
Proof. induction a as [|c a IH]; simpl; [reflexivity|]. f_equal. exact IH. Qed.

Lemma stake_sdrop n s : stake n s +:+ sdrop n s = s.
Proof. revert s. induction n as [|n IH]; intros [|c s]; simpl; auto. f_equal. apply IH. Qed.

Lemma sapp_cancel s a b : s +:+ a = s +:+ b -> a = b.
Proof. induction s as [|c s IH]; cbn [append]; [auto | intros [= E]; auto]. Qed.

(** A span that the suffix from its start begins with. *)
Lemma slice_at s a t rest :
  (a <= String.length s)%nat -> sdrop a s = t +:+ rest -> slice s a (a + String.length t) = Ok t.
Proof.
  intros Ha Hs. unfold slice.
  assert (Hlen : String.length (sdrop a s) = (String.length t + String.length rest)%nat)
    by (rewrite Hs; apply slength_app).
  rewrite sdrop_length in Hlen.
  rewrite (proj2 (Nat.leb_le _ _)), (proj2 (Nat.leb_le _ _)) by lia. cbn [andb].
  replace (a + String.length t - a)%nat with (String.length t) by lia. rewrite Hs, stake_app. reflexivity.
Qed.

(** [p] has passed [s] and is [p'], with nodes added. *)
Definition consumes (p : moduleParser) (s : string) (p' : moduleParser) : Prop :=
  ptext p' = ptext p /\ left p = s +:+ left p' /\ position p' = (position p + String.length s)%nat /\
  exists extra, pnodes p' = pnodes p ++ extra.

Definition inside (p : moduleParser) : Prop := (position p <= String.length (ptext p))%nat.

Lemma left_length p : String.length (left p) = (String.length (ptext p) - position p)%nat.
Proof. apply sdrop_length. Qed.

Lemma consumes_trans p s q t r : consumes p s q -> consumes q t r -> consumes p (s +:+ t) r.
Proof.
  intros (Ht & Hl & Hp & e & He) (Ht' & Hl' & Hp' & e' & He').
  split; [congruence|]. split; [rewrite Hl, Hl', sapp_assoc; reflexivity|].
  split; [rewrite slength_app; lia|]. exists (e ++ e'). rewrite He', He, app_assoc. reflexivity.
Qed.

Lemma consumes_inside p s q : inside p -> consumes p s q -> inside q.
Proof.
  unfold inside. intros Hin (Ht & Hl & Hp & _).
  assert (H : String.length (left p) = (String.length s + String.length (left q))%nat)
    by (rewrite Hl; apply slength_app).
  rewrite !left_length, Ht in H. rewrite Ht. lia.
Qed.

Lemma consumes_left p s q : consumes p s q -> (String.length s + String.length (left q) = String.length (left p))%nat.
Proof. intros (_ & Hl & _). rewrite Hl, slength_app. reflexivity. Qed.

Lemma advance_consumes p s rest : left p = s +:+ rest -> consumes p s (advance p (String.length s)).
Proof.
  intros H. unfold consumes, advance, left in *. cbn. split; [reflexivity|].
  rewrite sdrop_sdrop, H, sdrop_app. split; [reflexivity|]. split; [reflexivity|].
  exists []. rewrite app_nil_r. reflexivity.
Qed.

Lemma advance_one p c rest : left p = String c rest -> consumes p (String c "") (advance p 1).
Proof. intros H. apply (advance_consumes p (String c "") rest H). Qed.

Lemma left_advance p s rest : left p = s +:+ rest -> left (advance p (String.length s)) = rest.
Proof. intros H. unfold left, advance in *. cbn. rewrite sdrop_sdrop, H. apply sdrop_app. Qed.

(** White space before a node. *)
Lemma skipSpace_sound p :
  sall moduleSpace (fst (sspan moduleSpace (left p))) = true /\
  consumes p (fst (sspan moduleSpace (left p))) (skipSpace p) /\
  starts moduleSpace (left (skipSpace p)) = false.
Proof.
  split; [apply sspan_all|].
  pose proof (sspan_eq moduleSpace (left p)) as Heq.
  split; [exact (advance_consumes _ _ _ Heq)|].
  unfold skipSpace. rewrite (left_advance _ _ _ Heq). apply sspan_starts.
Qed.

Lemma skipSpace_left p sp rest :
  left p = sp +:+ rest -> sall moduleSpace sp = true -> starts moduleSpace rest = false ->
  left (skipSpace p) = rest /\ ptext (skipSpace p) = ptext p /\ pnodes (skipSpace p) = pnodes p /\
  position (skipSpace p) = (position p + String.length sp)%nat.
Proof.
  intros H Hsp Hr. unfold skipSpace. rewrite H, sspan_app by assumption. cbn [fst].
  rewrite (left_advance p sp rest H). auto.
Qed.

(** ** Nodes that are added later leave a tree as it is *)

Lemma represents_grow m m' :
  text m' = text m -> (exists extra, nodes m' = nodes m ++ extra) ->
  (forall i x, represents m i x -> represents m' i x) /\
  (forall cs l, representsAll m cs l -> representsAll m' cs l).
Proof.
  intros Ht [extra He].
  assert (Hn : forall i n, nodes m !! i = Some n -> nodes m' !! i = Some n).
  { intros i n Hi. rewrite He. apply lookup_app_l_Some. exact Hi. }
  apply represents_both.
  - intros i a b t Hi Hs. econstructor; [apply Hn, Hi | rewrite Ht; exact Hs].
  - intros i a b t Hi Hs. eapply represents_quoted; [apply Hn, Hi | rewrite Ht; exact Hs].
  - intros i cs items Hi Hlt _ Hall. econstructor; eauto.
  - constructor.
  - intros c cs x items _ Hx _ Hall. constructor; assumption.
Qed.

Lemma representsAll_app m cs cs' l l' :
  representsAll m cs l -> representsAll m cs' l' -> representsAll m (cs ++ cs') (l ++ l').
Proof. intros H. revert cs' l'. induction H; intros; cbn [app]; [assumption | constructor; auto]. Qed.

Lemma representsAll_Forall2 m cs l : representsAll m cs l <-> Forall2 (represents m) cs l.
Proof. split; (induction 1; constructor; assumption). Qed.

(** The module a parser has made so far. *)
Definition held (p : moduleParser) : WatModule := mkModule (ptext p) (pnodes p) 0.

Lemma represents_consumes p s q i x : consumes p s q -> represents (held p) i x -> represents (held q) i x.
Proof. intros (Ht & _ & _ & He). apply represents_grow; assumption. Qed.

Lemma representsAll_consumes p s q cs l :
  consumes p s q -> representsAll (held p) cs l -> representsAll (held q) cs l.
Proof. intros (Ht & _ & _ & He). apply represents_grow; assumption. Qed.

Lemma addNode_sound p s q n i r :
  consumes p s q -> addNode q n = (i, r) ->
  consumes p s r /\ left r = left q /\ (i < List.length (pnodes r))%nat /\ pnodes r !! i = Some n.
Proof.
  intros (Ht & Hl & Hp & e & He) [= <- <-]. cbn. split; [|split; [reflexivity|]].
  - split; [exact Ht|]. split; [exact Hl|]. split; [exact Hp|].
    exists (e ++ [n]). cbn. rewrite He, app_assoc. reflexivity.
  - rewrite length_app. cbn. split; [lia|]. apply list_lookup_middle. reflexivity.
Qed.

(** ** What the parser returns is written *)

Lemma closingQuote_sound s n stop :
  closingQuote s n = Ok stop ->
  exists raw rest, quotable raw = true /\ s = raw +:+ quoteMark +:+ rest /\ stop = (n + String.length raw)%nat.
Proof.
  revert n. induction s as [s IH] using (Wf_nat.induction_ltof1 _ String.length). unfold ltof in IH.
  intros n H. destruct s as [|c s]; [discriminate|]. cbn [closingQuote] in H.
  destruct (isQuote c) eqn:Hq.
  { injection H as <-. apply Ascii.eqb_eq in Hq. subst c. exists "", s. auto. }
  destruct (Ascii.eqb c "\") eqn:Hb.
  - destruct s as [|d s]; [discriminate|].
    destruct (IH s ltac:(cbn; lia) _ H) as (raw & rest & Hraw & Hs & Hstop).
    exists (String c (String d raw)), rest. cbn [quotable append String.length]. rewrite Hq, Hb.
    split; [exact Hraw|]. split; [rewrite Hs; reflexivity | lia].
  - destruct (IH s ltac:(cbn; lia) _ H) as (raw & rest & Hraw & Hs & Hstop).
    exists (String c raw), rest. cbn [quotable append String.length]. rewrite Hq, Hb.
    split; [exact Hraw|]. split; [rewrite Hs; reflexivity | lia].
Qed.

Lemma closingQuote_complete raw n rest :
  quotable raw = true -> closingQuote (raw +:+ quoteMark +:+ rest) n = Ok (n + String.length raw)%nat.
Proof.
  revert n. induction raw as [raw IH] using (Wf_nat.induction_ltof1 _ String.length). unfold ltof in IH.
  intros n H. destruct raw as [|c raw]; [cbn; f_equal; lia|]. cbn [quotable] in H.
  destruct (isQuote c) eqn:Hq; [discriminate|]. cbn [append closingQuote String.length]. rewrite Hq.
  destruct (Ascii.eqb c "\") eqn:Hb.
  - destruct raw as [|d raw]; [discriminate|]. cbn [append String.length].
    rewrite (IH raw ltac:(cbn; lia) _ H). f_equal. lia.
  - rewrite (IH raw ltac:(cbn; lia) _ H). f_equal. lia.
Qed.

(** What [parseNode] promises of the node it has read. *)
Definition readNode (p : moduleParser) (i : nat) (q : moduleParser) : Prop :=
  exists sp s x, sall moduleSpace sp = true /\ written x s /\ consumes p (sp +:+ s) q /\
    (isAtom x = true -> starts atomChar (left q) = false) /\
    (i < List.length (pnodes q))%nat /\ represents (held q) i x.

Lemma parseAtom_sound p i q :
  inside p -> starts isQuote (left p) = false -> parseAtom p = Ok (i, q) ->
  exists t, t <> "" /\ written (Atom t) t /\ consumes p t q /\ starts atomChar (left q) = false /\
    (i < List.length (pnodes q))%nat /\ represents (held q) i (Atom t).
Proof.
  intros Hin Hq H. unfold parseAtom in H. cbv zeta in H.
  set (t := fst (sspan atomChar (left p))) in *.
  pose proof (sspan_eq atomChar (left p)) as Heq. fold t in Heq.
  step_if; [discriminate|]. apply Nat.eqb_neq in Hif.
  assert (Hne : t <> "") by (intros E; rewrite E in Hif; apply Hif; reflexivity).
  assert (Hadd : addNode (advance p (String.length t)) (mkNode moduleAtom (position p) (position p + String.length t) []) = (i, q))
    by congruence.
  destruct (addNode_sound _ _ _ _ _ _ (advance_consumes p t _ Heq) Hadd) as (Hc & Hleft & Hlt & Hl).
  exists t. split; [exact Hne|]. split.
  { constructor; [exact Hne | apply sspan_all|]. rewrite Heq in Hq. destruct t; [congruence | exact Hq]. }
  split; [exact Hc|]. split.
  { rewrite Hleft, (left_advance _ _ _ Heq). apply sspan_starts. }
  split; [exact Hlt|]. econstructor; [exact Hl|]. destruct Hc as (Ht & _). cbn [text held]. rewrite Ht.
  exact (slice_at _ _ _ _ Hin Heq).
Qed.

Lemma parseString_sound p i q rest :
  inside p -> left p = String "034" rest -> parseString p = Ok (i, q) ->
  exists raw, quotable raw = true /\ consumes p (quoteMark +:+ raw +:+ quoteMark) q /\
    (i < List.length (pnodes q))%nat /\ represents (held q) i (Quoted raw).
Proof.
  intros Hin Hl H. unfold parseString in H. cbv zeta in H.
  pose proof (advance_one p _ _ Hl) as H1.
  pose proof (consumes_inside _ _ _ Hin H1) as Hin1.
  set (p1 := advance p 1) in *.
  destruct (closingQuote (left p1) (position p1)) as [stop|] eqn:Hc; [|discriminate].
  apply closingQuote_sound in Hc as (raw & rest' & Hraw & Hs & ->).
  set (n := mkNode moduleString (position p1) (position p1 + String.length raw) []) in *.
  set (p2 := mkParser (ptext p1) (position p1 + String.length raw + 1) (pnodes p1)) in *.
  assert (H2 : consumes p1 (raw +:+ quoteMark) p2).
  { rewrite <- sapp_assoc in Hs. replace p2 with (advance p1 (String.length (raw +:+ quoteMark))).
    - exact (advance_consumes _ _ _ Hs).
    - unfold advance, p2. rewrite slength_app, Nat.add_assoc. reflexivity. }
  assert (Hadd : addNode p2 n = (i, q)) by congruence.
  destruct (addNode_sound _ _ _ _ _ _ (consumes_trans _ _ _ _ _ H1 H2) Hadd) as (Hcons & _ & Hlt & Hlk).
  exists raw. split; [exact Hraw|]. split; [exact Hcons|]. split; [exact Hlt|].
  eapply represents_quoted; [exact Hlk|].
  destruct Hcons as (Ht & _). cbn [text held]. rewrite Ht. exact (slice_at _ _ _ _ Hin1 Hs).
Qed.

Lemma parse_sound fuel :
  (forall p i q, inside p -> parseNode fuel p = Ok (i, q) -> readNode p i q) /\
  (forall p cs i q, inside p -> parseListFrom fuel p cs = Ok (i, q) ->
     Forall (fun c => (c < List.length (pnodes p))%nat) cs ->
     exists items body, writtenItems items body /\ consumes p (body +:+ ")") q /\
       (i < List.length (pnodes q))%nat /\
       forall before, representsAll (held p) cs before -> represents (held q) i (Group (before ++ items))).
Proof.
  induction fuel as [|fuel [IHn IHl]]; [split; discriminate|].
  assert (Hskip : forall p, inside p ->
    exists sp, sall moduleSpace sp = true /\ consumes p sp (skipSpace p) /\ inside (skipSpace p)).
  { intros p Hin. destruct (skipSpace_sound p) as (Hsp & Hc & _). eauto using consumes_inside. }
  split.
  - intros p i q Hin H. cbn [parseNode] in H. cbv zeta in H.
    destruct (Hskip p Hin) as (sp & Hsp & Hcs & Hin1). set (p1 := skipSpace p) in *.
    destruct (left p1) as [|c rest] eqn:Hl; [discriminate|].
    destruct (Ascii.eqb_spec c "(") as [->|_].
    { pose proof (advance_one p1 _ _ Hl) as H1.
      destruct (IHl _ _ _ _ (consumes_inside _ _ _ Hin1 H1) H (Forall_nil_2 _))
        as (items & body & Hw & Hc & Hi & Hrep).
      exists sp, ("(" +:+ body +:+ ")"), (Group items). split; [exact Hsp|].
      split; [constructor; exact Hw|]. split.
      { eapply consumes_trans; [exact Hcs|]. exact (consumes_trans _ _ _ _ _ H1 Hc). }
      split; [discriminate|]. split; [exact Hi|]. apply (Hrep []). constructor. }
    destruct (Ascii.eqb c ")"); [discriminate|].
    destruct (isQuote c) eqn:Hq.
    + apply Ascii.eqb_eq in Hq as ->.
      destruct (parseString_sound _ _ _ _ Hin1 Hl H) as (raw & Hraw & Hc & Hi & Hrep).
      exists sp, (quoteMark +:+ raw +:+ quoteMark), (Quoted raw).
      split; [exact Hsp|]. split; [constructor; exact Hraw|].
      split; [exact (consumes_trans _ _ _ _ _ Hcs Hc)|]. split; [discriminate|]. auto.
    + destruct (parseAtom_sound p1 i q Hin1) as (t & Hne & Hw & Hc & Hend & Hi & Hrep);
        [rewrite Hl; exact Hq | exact H |].
      exists sp, t, (Atom t). split; [exact Hsp|]. split; [exact Hw|].
      split; [exact (consumes_trans _ _ _ _ _ Hcs Hc)|]. auto.
  - intros p cs i q Hin H Hcs. cbn [parseListFrom] in H. cbv zeta in H.
    destruct (Hskip p Hin) as (sp & Hsp & Hcsp & Hin1). set (p1 := skipSpace p) in *.
    destruct (left p1) as [|c rest] eqn:Hl; [discriminate|].
    destruct (Ascii.eqb_spec c ")") as [->|_].
    { assert (Hadd : addNode (advance p1 1) (mkNode moduleList 0 0 cs) = (i, q)) by congruence.
      pose proof (advance_one p1 _ _ Hl) as H1.
      destruct (addNode_sound _ _ _ _ _ _ (consumes_trans _ _ _ _ _ Hcsp H1) Hadd) as (Hc & _ & Hi & Hlk).
      exists [], sp. split; [constructor; exact Hsp|]. split; [exact Hc|]. split; [exact Hi|].
      intros before Hb. rewrite app_nil_r. eapply represents_group; [exact Hlk| |].
      - replace i with (List.length (pnodes p)); [exact Hcs|]. injection Hadd as <- _. reflexivity.
      - exact (representsAll_consumes _ _ _ _ _ Hc Hb). }
    destruct (parseNode fuel p1) as [[child p2]|] eqn:Hn; [|discriminate].
    destruct (IHn _ _ _ Hin1 Hn) as (sp' & s & x & Hsp' & Hw & Hc2 & Hatom & Hi2 & Hrep2).
    assert (Hgrow : (List.length (pnodes p) <= List.length (pnodes p2))%nat).
    { destruct (consumes_trans _ _ _ _ _ Hcsp Hc2) as (_ & _ & _ & e & ->). rewrite length_app. lia. }
    destruct (IHl _ _ _ _ (consumes_inside _ _ _ Hin1 Hc2) H) as (items & body & Hwi & Hc3 & Hi3 & Hrep3).
    { apply Forall_app. split; [|constructor; [exact Hi2 | constructor]].
      eapply Forall_impl; [exact Hcs|]. cbn. intros; lia. }
    exists (x :: items), ((sp +:+ sp') +:+ s +:+ body). split.
    { constructor; [rewrite sall_app, Hsp; exact Hsp' | exact Hw | | exact Hwi].
      intros Hx. specialize (Hatom Hx). destruct Hc3 as (_ & Hl3 & _). rewrite Hl3 in Hatom.
      destruct body; [reflexivity | exact Hatom]. }
    split.
    { pose proof (consumes_trans _ _ _ _ _ Hcsp (consumes_trans _ _ _ _ _ Hc2 Hc3)) as Hc.
      rewrite !sapp_assoc in Hc. rewrite !sapp_assoc. exact Hc. }
    split; [exact Hi3|]. intros before Hb.
    rewrite cons_middle, app_assoc. apply Hrep3. apply representsAll_app.
    + exact (representsAll_consumes _ _ _ _ _ (consumes_trans _ _ _ _ _ Hcsp Hc2) Hb).
    + constructor; [exact Hrep2 | constructor].
Qed.

(** ** What is written is read *)

Lemma written_starts x s : written x s -> exists c rest, s = String c rest /\ moduleSpace c = false /\ Ascii.eqb c ")" = false.
Proof.
  destruct 1 as [t Hne Hall Hq | raw _ | items body _].
  - destruct t as [|c t]; [congruence|]. cbn [sall] in Hall. apply andb_true_iff in Hall as [Hc _].
    exists c, t. unfold atomChar in Hc. apply negb_true_iff in Hc.
    apply orb_false_iff in Hc as [Hc ?]. apply orb_false_iff in Hc as [? ?]. auto.
  - eexists _, _. split; [reflexivity|]. split; reflexivity.
  - eexists _, _. split; [reflexivity|]. split; reflexivity.
Qed.

Lemma writtenItems_space items body : writtenItems items body -> items <> [] \/ sall moduleSpace body = true.
Proof. destruct 1; [right; assumption | left; discriminate]. Qed.

(** A read that ends with [rest] left, and with [x] held. *)
Definition reads (x : wat) (p : moduleParser) (rest : string) (r : result fault (nat * moduleParser)) : Prop :=
  exists i q, r = Ok (i, q) /\ left q = rest /\ ptext q = ptext p /\ represents (held q) i x.

Lemma skip_to p sp s :
  inside p -> left p = sp +:+ s -> sall moduleSpace sp = true -> starts moduleSpace s = false ->
  left (skipSpace p) = s /\ inside (skipSpace p) /\ consumes p sp (skipSpace p).
Proof.
  intros Hin Hl Hsp Hs. pose proof (skipSpace_left p sp s Hl Hsp Hs) as (Hl' & Ht & Hn & Hp).
  assert (Hc : consumes p sp (skipSpace p)).
  { split; [exact Ht|]. split; [rewrite Hl'; exact Hl|]. split; [exact Hp|]. exists []. rewrite Hn, app_nil_r. reflexivity. }
  split; [exact Hl'|]. split; [exact (consumes_inside _ _ _ Hin Hc) | exact Hc].
Qed.

Lemma parseAtom_complete p t rest :
  inside p -> left p = t +:+ rest -> t <> "" -> sall atomChar t = true -> starts isQuote t = false ->
  starts atomChar rest = false -> reads (Atom t) p rest (parseAtom p).
Proof.
  intros Hin Hl Hne Hall Hq Hend. destruct (parseAtom p) as [[i q]|e] eqn:H.
  - assert (Hs : sspan atomChar (left p) = (t, rest)) by (rewrite Hl; apply sspan_app; assumption).
    unfold parseAtom in H. rewrite Hs in H. cbn [fst] in H. cbv zeta in H. step_if; [discriminate|].
    assert (Hadd : addNode (advance p (String.length t)) (mkNode moduleAtom (position p) (position p + String.length t) []) = (i, q))
      by congruence.
    destruct (addNode_sound _ _ _ _ _ _ (advance_consumes p t _ Hl) Hadd) as ((Ht & _) & Hleft & _ & Hlk).
    exists i, q. split; [reflexivity|]. rewrite Hleft, (left_advance _ _ _ Hl). split; [reflexivity|].
    split; [exact Ht|]. econstructor; [exact Hlk|]. cbn [text held]. rewrite Ht. exact (slice_at _ _ _ _ Hin Hl).
  - unfold parseAtom in H. rewrite Hl, sspan_app in H by assumption. cbn [fst] in H. cbv zeta in H.
    destruct t as [|c t]; [congruence|]. discriminate.
Qed.

Lemma parseString_complete p raw rest :
  inside p -> left p = quoteMark +:+ raw +:+ quoteMark +:+ rest -> quotable raw = true ->
  reads (Quoted raw) p rest (parseString p).
Proof.
  intros Hin Hl Hraw. unfold parseString. cbv zeta.
  pose proof (advance_one p _ _ Hl) as H1. pose proof (consumes_inside _ _ _ Hin H1) as Hin1.
  pose proof (left_advance p quoteMark _ Hl) as Hl1. cbn [quoteMark String.length] in Hl1.
  set (p1 := advance p 1) in *.
  rewrite Hl1, closingQuote_complete by exact Hraw.
  destruct (addNode _ _) as [i q] eqn:Hadd.
  assert (H2 : consumes p1 (raw +:+ quoteMark) (mkParser (ptext p1) (position p1 + String.length raw + 1) (pnodes p1))).
  { replace (mkParser _ _ _) with (advance p1 (String.length (raw +:+ quoteMark))).
    - rewrite <- sapp_assoc in Hl1. exact (advance_consumes _ _ _ Hl1).
    - unfold advance. rewrite slength_app, Nat.add_assoc. reflexivity. }
  destruct (addNode_sound _ _ _ _ _ _ (consumes_trans _ _ _ _ _ H1 H2) Hadd) as (Hc & Hleft & _ & Hlk).
  exists i, q. split; [reflexivity|]. split.
  { rewrite Hleft. destruct H2 as (_ & H2 & _). rewrite Hl1 in H2. rewrite <- sapp_assoc in H2.
    symmetry. exact (sapp_cancel _ _ _ H2). }
  destruct Hc as (Ht & _). split; [exact Ht|].
  eapply represents_quoted; [exact Hlk|]. cbn [text held]. rewrite Ht. exact (slice_at _ _ _ _ Hin1 Hl1).
Qed.

Lemma parse_complete_both :
  (forall x s, written x s -> forall p sp rest fuel,
     inside p -> left p = sp +:+ s +:+ rest -> sall moduleSpace sp = true ->
     (isAtom x = true -> starts atomChar rest = false) ->
     (2 * String.length (left p) + 1 <= fuel)%nat -> reads x p rest (parseNode fuel p)) /\
  (forall items body, writtenItems items body -> forall p cs before rest fuel,
     inside p -> left p = body +:+ ")" +:+ rest -> (2 * String.length (left p) + 2 <= fuel)%nat ->
     Forall (fun c => (c < List.length (pnodes p))%nat) cs -> representsAll (held p) cs before ->
     reads (Group (before ++ items)) p rest (parseListFrom fuel p cs)).
Proof.
  apply written_both.
  - intros t Hne Hall Hq p sp rest fuel Hin Hl Hsp Hend Hf. destruct fuel as [|fuel]; [lia|].
    destruct (written_starts _ _ (written_atom t Hne Hall Hq)) as (c & t' & Ht & Hc & Hp).
    destruct (skip_to p sp (t +:+ rest) Hin Hl Hsp) as (Hl1 & Hin1 & Hcs); [rewrite Ht; exact Hc|].
    pose proof (parseAtom_complete _ t rest Hin1 Hl1 Hne Hall Hq (Hend eq_refl)) as (i & q & Hr & Hlq & Htq & Hrep).
    exists i, q. split; [|split; [exact Hlq|]; split; [exact (eq_trans Htq (proj1 Hcs)) | exact Hrep]].
    cbn [parseNode]. cbv zeta. rewrite Hl1, Ht. cbn [append]. rewrite Hp.
    rewrite Ht in Hall, Hq. cbn [sall starts] in Hall, Hq. apply andb_true_iff in Hall as [Hc' _].
    rewrite Hq. unfold atomChar in Hc'. apply negb_true_iff in Hc'. apply orb_false_iff in Hc' as [Hc' _].
    apply orb_false_iff in Hc' as [_ ->]. exact Hr.
  - intros raw Hraw p sp rest fuel Hin Hl Hsp _ Hf. destruct fuel as [|fuel]; [lia|].
    rewrite !sapp_assoc in Hl.
    destruct (skip_to p sp _ Hin Hl Hsp eq_refl) as (Hl1 & Hin1 & Hcs).
    pose proof (parseString_complete _ raw rest Hin1 Hl1 Hraw) as (i & q & Hr & Hlq & Htq & Hrep).
    exists i, q. split; [|split; [exact Hlq|]; split; [exact (eq_trans Htq (proj1 Hcs)) | exact Hrep]].
    cbn [parseNode]. cbv zeta. rewrite Hl1. cbn [append quoteMark]. exact Hr.
  - intros items body _ IH p sp rest fuel Hin Hl Hsp _ Hf. destruct fuel as [|fuel]; [lia|].
    rewrite !sapp_assoc in Hl. cbn [append] in Hl.
    destruct (skip_to p sp _ Hin Hl Hsp eq_refl) as (Hl1 & Hin1 & Hcs).
    pose proof (advance_one _ _ _ Hl1) as H1. pose proof (consumes_left _ _ _ H1) as Hlen.
    pose proof (consumes_left _ _ _ Hcs) as Hlen0. cbn [String.length] in Hlen.
    destruct (IH (advance (skipSpace p) 1) [] [] rest fuel) as (i & q & Hr & Hlq & Htq & Hrep).
    + exact (consumes_inside _ _ _ Hin1 H1).
    + exact (left_advance _ "(" _ Hl1).
    + lia.
    + constructor.
    + constructor.
    + exists i, q. split; [|split; [exact Hlq|]; split; [exact (eq_trans Htq (proj1 Hcs)) | exact Hrep]].
      cbn [parseNode]. cbv zeta. rewrite Hl1. exact Hr.
  - intros sp Hsp p cs before rest fuel Hin Hl Hf Hlt Hb. destruct fuel as [|fuel]; [lia|].
    destruct (skip_to p sp _ Hin Hl Hsp eq_refl) as (Hl1 & Hin1 & Hcs).
    cbn [parseListFrom]. cbv zeta. rewrite Hl1. cbn [append].
    destruct (addNode _ _) as [i q] eqn:Hadd. exists i, q. split; [reflexivity|].
    pose proof (consumes_trans _ _ _ _ _ Hcs (advance_one _ _ _ Hl1)) as Hc.
    destruct (addNode_sound _ _ _ _ _ _ Hc Hadd) as (Hcq & Hleft & _ & Hlk).
    split; [exact (eq_trans Hleft (left_advance (skipSpace p) ")" rest Hl1))|].
    split; [exact (proj1 Hcq)|]. rewrite app_nil_r. eapply represents_group; [exact Hlk| |].
    + replace i with (List.length (pnodes p)); [exact Hlt|]. injection Hadd as <- _. reflexivity.
    + exact (representsAll_consumes _ _ _ _ _ Hcq Hb).
  - intros sp x s items body Hsp Hx IHx Hend _ IHl p cs before rest fuel Hin Hl Hf Hlt Hb.
    destruct fuel as [|fuel]; [lia|]. rewrite !sapp_assoc in Hl.
    destruct (written_starts x s Hx) as (c & s' & Hs & Hc & Hp).
    destruct (skip_to p sp _ Hin Hl Hsp) as (Hl1 & Hin1 & Hcs); [rewrite Hs; exact Hc|].
    pose proof (consumes_left _ _ _ Hcs) as Hlen0.
    destruct (IHx (skipSpace p) "" (body +:+ ")" +:+ rest) fuel Hin1 Hl1 eq_refl) as (child & p2 & Hr & Hl2 & Ht2 & Hrep2).
    { intros Ha. specialize (Hend Ha). destruct body; [reflexivity | exact Hend]. }
    { lia. }
    destruct (proj1 (parse_sound fuel) _ _ _ Hin1 Hr) as (sp2 & s2 & x2 & _ & Hw2 & Hc2 & _ & Hi2 & _).
    assert (Hgrow : (List.length (pnodes p) <= List.length (pnodes p2))%nat).
    { destruct (consumes_trans _ _ _ _ _ Hcs Hc2) as (_ & _ & _ & e & ->). rewrite length_app. lia. }
    assert (Hlen2 : (String.length (left p2) < String.length (left (skipSpace p)))%nat).
    { rewrite Hl1, Hl2, Hs, !slength_app. cbn [String.length]. lia. }
    destruct (IHl p2 (cs ++ [child]) (before ++ [x]) rest fuel) as (i & q & Hrq & Hlq & Htq & Hrepq).
    + exact (consumes_inside _ _ _ Hin1 Hc2).
    + exact Hl2.
    + lia.
    + apply Forall_app. split; [|constructor; [exact Hi2 | constructor]].
      eapply Forall_impl; [exact Hlt|]. cbn. intros; lia.
    + apply representsAll_app; [|constructor; [exact Hrep2 | constructor]].
      exact (representsAll_consumes _ _ _ _ _ (consumes_trans _ _ _ _ _ Hcs Hc2) Hb).
    + exists i, q. rewrite <- app_assoc in Hrepq. split; [|split; [exact Hlq|]; split; [|exact Hrepq]].
      * cbn [parseListFrom]. cbv zeta. rewrite Hl1, Hs. cbn [append]. rewrite Hp, Hr. exact Hrq.
      * exact (eq_trans Htq (eq_trans Ht2 (proj1 Hcs))).
Qed.

(** ** The parser always answers *)

Definition answers {A} (r : result fault A) : Prop := match r with Ok _ => True | Err e => isError e = true end.

Lemma parse_answers fuel :
  (forall p, inside p -> (2 * String.length (left p) + 1 <= fuel)%nat -> answers (parseNode fuel p)) /\
  (forall p cs, inside p -> (2 * String.length (left p) + 2 <= fuel)%nat -> answers (parseListFrom fuel p cs)).
Proof.
  induction fuel as [|fuel [IHn IHl]]; [split; intros; lia|]. split.
  - intros p Hin Hf. cbn [parseNode]. cbv zeta. destruct (skipSpace_sound p) as (_ & Hcs & _).
    pose proof (consumes_inside _ _ _ Hin Hcs) as Hin1. pose proof (consumes_left _ _ _ Hcs) as Hlen.
    destruct (left (skipSpace p)) as [|c rest] eqn:Hl; [reflexivity|].
    pose proof (advance_one _ _ _ Hl) as H1. pose proof (consumes_left _ _ _ H1) as Hlen1.
    rewrite Hl in Hlen1. cbn [String.length] in Hlen, Hlen1.
    destruct (Ascii.eqb c "("); [|destruct (Ascii.eqb c ")"); [reflexivity|]; destruct (isQuote c)].
    + apply IHl; [exact (consumes_inside _ _ _ Hin1 H1) | lia].
    + unfold parseString. cbv zeta.
      destruct (closingQuote _ _) as [stop|e] eqn:Hc; [exact I|]. revert Hc.
      generalize (left (advance (skipSpace p) 1)) (position (advance (skipSpace p) 1)). clear.
      intros s. induction s as [s IH] using (Wf_nat.induction_ltof1 _ String.length). unfold ltof in IH.
      intros n H. destruct s as [|c s]; [injection H as <-; reflexivity|]. cbn [closingQuote] in H.
      destruct (isQuote c); [discriminate|]. destruct (Ascii.eqb c "\").
      * destruct s as [|d s]; [injection H as <-; reflexivity|]. eapply IH; [|exact H]. cbn. lia.
      * eapply IH; [|exact H]. cbn. lia.
    + unfold parseAtom. cbv zeta. step_if; [reflexivity | exact I].
  - intros p cs Hin Hf. cbn [parseListFrom]. cbv zeta. destruct (skipSpace_sound p) as (_ & Hcs & _).
    pose proof (consumes_inside _ _ _ Hin Hcs) as Hin1. pose proof (consumes_left _ _ _ Hcs) as Hlen.
    destruct (left (skipSpace p)) as [|c rest] eqn:Hl; [reflexivity|].
    destruct (Ascii.eqb c ")"); [exact I|].
    pose proof (IHn (skipSpace p) Hin1 ltac:(rewrite Hl; lia)) as Hn.
    destruct (parseNode fuel (skipSpace p)) as [[child p2]|e] eqn:Hr; [|exact Hn].
    destruct (proj1 (parse_sound fuel) _ _ _ Hin1 Hr) as (sp2 & s2 & x2 & _ & Hw2 & Hc2 & _).
    destruct (written_starts _ _ Hw2) as (c' & s' & -> & _).
    pose proof (consumes_left _ _ _ Hc2) as Hlen2. rewrite slength_app, Hl in Hlen2. cbn [String.length] in Hlen, Hlen2.
    apply IHl; [exact (consumes_inside _ _ _ Hin1 Hc2) | lia].
Qed.

(** ** The module *)

Lemma inside_start text : inside (mkParser text 0 []).
Proof. unfold inside. cbn. lia. Qed.

Lemma start_bound text : (2 * String.length (left (mkParser text 0 [])) + 1 <= parseBound text)%nat.
Proof. reflexivity. Qed.

Lemma left_end p : inside p -> position p = String.length (ptext p) <-> left p = "".
Proof.
  unfold inside. intros Hin. pose proof (left_length p) as Hl. split; intros H.
  - destruct (left p); [reflexivity|]. cbn in Hl. lia.
  - rewrite H in Hl. cbn in Hl. lia.
Qed.

Lemma represents_root m i r r' x :
  represents (mkModule (text m) (nodes m) r) i x -> represents (mkModule (text m) (nodes m) r') i x.
Proof.
  apply (proj1 (represents_grow (mkModule (text m) (nodes m) r) (mkModule (text m) (nodes m) r') eq_refl
    (ex_intro _ [] (eq_sym (app_nil_r _))))).
Qed.

Lemma represents_held p r i x : represents (held p) i x -> represents (mkModule (ptext p) (pnodes p) r) i x.
Proof. apply (represents_root (held p)). Qed.

(** What the accessors answer on a node that represents a tree. *)
Definition treeKind (x : wat) : moduleNodeKind :=
  match x with Atom _ => moduleAtom | Quoted _ => moduleString | Group _ => moduleList end.

Definition treeText (x : wat) : string :=
  match x with Atom t => t | Quoted t => t | Group _ => "" end.

Definition treeHead (x : wat) : string :=
  match x with Group (Atom t :: _) => t | _ => "" end.

Lemma node_represents m i x : represents m i x -> exists n, node m i = Ok n /\ kind n = treeKind x.
Proof. unfold node. destruct 1 as [i a b t H _|i a b t H _|i cs items H _ _]; rewrite H; eauto. Qed.

Lemma nodeKind_represents m i x : represents m i x -> nodeKind m i = Ok (treeKind x).
Proof. intros H. destruct (node_represents m i x H) as (n & Hn & Hk). unfold nodeKind. rewrite Hn, Hk. reflexivity. Qed.

Lemma nodeText_represents m i x : represents m i x -> nodeText m i = Ok (treeText x).
Proof.
  unfold nodeText, node. destruct 1 as [i a b t H Ht|i a b t H Ht|i cs items H _ _]; rewrite H; cbn; [exact Ht | exact Ht |].
  unfold slice. cbn. reflexivity.
Qed.

Lemma childrenOf_represents m i items :
  represents m i (Group items) ->
  exists cs, childrenOf m i = Ok cs /\ Forall2 (represents m) cs items /\ Forall (fun c => (c < i)%nat) cs.
Proof.
  inversion 1 as [| |? cs ? H1 H2 H3]; subst. exists cs. unfold childrenOf, node. rewrite H1. cbn.
  split; [reflexivity|]. split; [apply representsAll_Forall2; exact H3 | exact H2].
Qed.

Lemma node_group m i items n :
  represents m i (Group items) -> node m i = Ok n -> Forall2 (represents m) (children n) items.
Proof.
  intros H Hn. destruct (childrenOf_represents m i items H) as (cs & Hcs & Hall & _).
  unfold childrenOf in Hcs. rewrite Hn in Hcs. injection Hcs as <-. exact Hall.
Qed.

Lemma childrenOf_leaf m i x : represents m i x -> isAtom x = true \/ treeKind x = moduleString -> childrenOf m i = Ok [].
Proof.
  unfold childrenOf, node. destruct 1 as [i a b t H _|i a b t H _|i cs items H _ _]; rewrite H; [auto | auto |].
  intros [|]; discriminate.
Qed.

Lemma listHead_represents m i x : represents m i x -> listHead m i = Ok (treeHead x).
Proof.
  intros H. unfold listHead. rewrite (nodeKind_represents _ _ _ H). cbn beta iota.
  destruct x as [t|t|items]; try reflexivity. cbn [treeKind treeHead].
  destruct (childrenOf_represents _ _ _ H) as (cs & -> & Hall & _).
  inversion Hall as [|c x cs' items' Hx _]; subst; [reflexivity|]. cbn.
  rewrite (nodeKind_represents _ _ _ Hx). destruct x; cbn; [|reflexivity|reflexivity].
  apply (nodeText_represents _ _ _ Hx).
Qed.

Lemma parseModule_sound source m :
  parseModule source = Ok m ->
  WAT m = source /\ exists items, writtenModule items source /\
    represents m (root m) (Group (Atom "module" :: items)).
Proof.
  unfold parseModule. intros H.
  destruct (parseNode (parseBound source) (mkParser source 0 [])) as [[i q]|] eqn:Hn; [|discriminate].
  destruct (proj1 (parse_sound _) _ _ _ (inside_start source) Hn) as (sp & s & x & Hsp & Hw & Hc & _ & _ & Hrep).
  pose proof (consumes_inside _ _ _ (inside_start source) Hc) as Hin.
  destruct (skipSpace_sound q) as (Hsp' & Hcs & _). cbv zeta in H. set (q' := skipSpace q) in *.
  step_if; [discriminate|]. apply negb_false_iff, Nat.eqb_eq in Hif.
  pose proof (consumes_trans _ _ _ _ _ Hc Hcs) as (Ht & Hl & _).
  cbn [ptext] in Ht. rewrite <- Ht in Hif. apply left_end in Hif; [|exact (consumes_inside _ _ _ Hin Hcs)].
  unfold left in Hl at 1. cbn [position ptext sdrop] in Hl. rewrite Hif, sapp_nil_r in Hl.
  apply (represents_consumes _ _ _ _ _ Hcs), (represents_held _ i) in Hrep. rewrite Ht in Hrep.
  set (m0 := mkModule source (pnodes q') i) in *.
  destruct (node_represents _ _ _ Hrep) as (n & Hnode & Hk). rewrite Hnode in H.
  destruct x as [t|t|l]; cbn [treeKind] in Hk; try (rewrite Hk in H; discriminate).
  rewrite decide_False in H by congruence.
  pose proof (node_group _ _ _ _ Hrep Hnode) as Hall.
  destruct Hall as [|c y cs' l' Hy _]; [discriminate|].
  destruct (node_represents _ _ _ Hy) as (n' & Hnode' & Hk'). rewrite Hnode' in H.
  destruct y as [t|t|l]; cbn [treeKind] in Hk'; try (rewrite Hk' in H; discriminate).
  rewrite decide_False, (nodeText_represents _ _ _ Hy) in H by congruence. cbn [treeText] in H.
  destruct (String.eqb_spec t "module") as [E|_]; [rewrite E in *|discriminate]. injection H as <-.
  split; [reflexivity|]. exists l'. split; [|exact Hrep].
  inversion Hw as [| |? body Hitems E1 E2]. subst s. exists sp, body, (fst (sspan moduleSpace (left q))).
  split; [exact Hsp|]. split; [exact Hsp'|]. split; [exact Hitems|].
  rewrite Hl. rewrite !sapp_assoc. reflexivity.
Qed.

Lemma parseModule_complete items source :
  writtenModule items source ->
  exists m, parseModule source = Ok m /\ WAT m = source /\ represents m (root m) (Group (Atom "module" :: items)).
Proof.
  intros (sp & body & sp' & Hsp & Hsp' & Hitems & Hsrc).
  destruct (proj1 parse_complete_both _ _ (written_group _ _ Hitems) (mkParser source 0 []) sp sp' (parseBound source)
    (inside_start source)) as (i & q & Hr & Hl & Ht & Hrep).
  { unfold left. cbn. rewrite Hsrc. cbn [append]. rewrite !sapp_assoc. reflexivity. }
  { exact Hsp. } { discriminate. } { apply start_bound. }
  destruct (proj1 (parse_sound _) _ _ _ (inside_start source) Hr) as (sp1 & s1 & x1 & _ & _ & Hc & _).
  pose proof (consumes_inside _ _ _ (inside_start source) Hc) as Hin. cbn [ptext] in Ht.
  destruct (skip_to q sp' "" Hin) as (Hl' & Hin' & Hcs); [rewrite sapp_nil_r; exact Hl | exact Hsp' | reflexivity |].
  apply (represents_consumes _ _ _ _ _ Hcs), (represents_held _ i) in Hrep.
  assert (Ht' : ptext (skipSpace q) = source) by exact (eq_trans (proj1 Hcs) Ht). rewrite Ht' in Hrep.
  exists (mkModule source (pnodes (skipSpace q)) i). split; [|split; [reflexivity | exact Hrep]].
  unfold parseModule. rewrite Hr. cbv zeta.
  rewrite (proj2 (left_end _ Hin') Hl'), Ht', Nat.eqb_refl. cbn [negb].
  set (m0 := mkModule source (pnodes (skipSpace q)) i) in *.
  destruct (node_represents _ _ _ Hrep) as (n & Hnode & Hk). rewrite Hnode, decide_False by (rewrite Hk; auto).
  pose proof (node_group _ _ _ _ Hrep Hnode) as Hall.
  inversion Hall as [|c y cs' l' Hy _ Hc'].
  destruct (node_represents _ _ _ Hy) as (n' & Hnode' & Hk'). rewrite Hnode', decide_False by (rewrite Hk'; auto).
  rewrite (nodeText_represents _ _ _ Hy). reflexivity.
Qed.

Lemma parseModule_answers source : answers (parseModule source).
Proof.
  destruct (parseModule source) as [m|e] eqn:H; [exact I|]. unfold parseModule in H.
  pose proof (proj1 (parse_answers _) _ (inside_start source) (start_bound source)) as Ha.
  destruct (parseNode (parseBound source) (mkParser source 0 [])) as [[i q]|e'] eqn:Hn;
    [|injection H as <-; exact Ha].
  destruct (proj1 (parse_sound _) _ _ _ (inside_start source) Hn) as (sp & s & x & _ & _ & Hc & _ & _ & Hrep).
  cbv zeta in H. step_if; [injection H as <-; reflexivity|].
  destruct (skipSpace_sound q) as (_ & Hcs & _).
  apply (represents_consumes _ _ _ _ _ Hcs), (represents_held _ i) in Hrep.
  assert (Ht' : ptext (skipSpace q) = source) by exact (eq_trans (proj1 Hcs) (proj1 Hc)). rewrite Ht' in Hrep.
  set (m0 := mkModule source (pnodes (skipSpace q)) i) in *.
  destruct (node_represents _ _ _ Hrep) as (n & Hnode & Hk). rewrite Hnode in H.
  destruct (decide (kind n <> moduleList)) as [|Hk']; [injection H as <-; reflexivity|].
  destruct x as [t|t|l]; cbn [treeKind] in Hk; try (rewrite Hk in Hk'; exfalso; apply Hk'; discriminate).
  pose proof (node_group _ _ _ _ Hrep Hnode) as Hall.
  destruct Hall as [|c y cs' l' Hy _]; [injection H as <-; reflexivity|].
  destruct (node_represents _ _ _ Hy) as (n' & Hnode' & _). rewrite Hnode' in H.
  destruct (decide (kind n' <> moduleAtom)); [injection H as <-; reflexivity|].
  rewrite (nodeText_represents _ _ _ Hy) in H. step_if; [injection H as <-; reflexivity | discriminate].
Qed.

Lemma represents_det m :
  (forall i x, represents m i x -> forall y, represents m i y -> x = y) /\
  (forall cs l, representsAll m cs l -> forall l', representsAll m cs l' -> l = l').
Proof.
  apply represents_both.
  - intros i a b t Hi Hs y Hy. inversion Hy; subst; congruence.
  - intros i a b t Hi Hs y Hy. inversion Hy; subst; congruence.
  - intros i cs items Hi _ _ IH y Hy. inversion Hy as [| |? cs' items' Hi' _ Hall]; subst; try congruence.
    f_equal. apply IH. congruence.
  - intros l' Hl. inversion Hl. reflexivity.
  - intros c cs x items _ IHx _ IHl l' Hl. inversion Hl; subst. f_equal; auto.
Qed.

(** C13. Reading the generated text is exact: [parseModule] answers on every text; a
    module it returns gives back the text and holds the one tree the text spells;
    and a text it refuses spells no module. *)
Theorem wat_parse_exact source :
  match parseModule source with
  | Ok m => WAT m = source /\ exists items,
      represents m (root m) (Group (Atom "module" :: items)) /\
      forall items', writtenModule items' source <-> items' = items
  | Err e => isError e = true /\ forall items, ~ writtenModule items source
  end.
Proof.
  pose proof (parseModule_answers source) as Ha. destruct (parseModule source) as [m|e] eqn:H.
  - destruct (parseModule_sound _ _ H) as (Ht & items & Hw & Hrep). split; [exact Ht|].
    exists items. split; [exact Hrep|]. intros items'. split; [|intros ->; exact Hw].
    intros Hw'. destruct (parseModule_complete _ _ Hw') as (m' & Hm' & _ & Hrep').
    assert (m' = m) by congruence. subst m'.
    pose proof (proj1 (represents_det m) _ _ Hrep' _ Hrep). congruence.
  - split; [exact Ha|]. intros items Hw. destruct (parseModule_complete _ _ Hw) as (m' & Hm' & _). congruence.
Qed.

(** ** Byte strings *)

Lemma decodeBytes_escape c rest :
  decodeBytes (stringBytes (String c "") +:+ rest) = (let* out := decodeBytes rest in Ok (byteOf c :: out)) /\
  quotable (stringBytes (String c "") +:+ rest) = quotable rest.
Proof. destruct c as [[] [] [] [] [] [] [] []]; split; reflexivity. Qed.

Lemma stringBytes_cons c s : stringBytes (String c s) = stringBytes (String c "") +:+ stringBytes s.
Proof. cbn [stringBytes]. rewrite sapp_nil_r. reflexivity. Qed.

(** C15. The bytes of a data segment survive the text: what [stringBytes] writes closes
    at its own quote, and reads back as the bytes it was given. *)
Theorem data_string_round_trip value :
  quotable (stringBytes value) = true /\ decodeBytes (stringBytes value) = Ok (bytesOf value).
Proof.
  induction value as [|c s [IHq IHd]]; [split; reflexivity|]. rewrite stringBytes_cons.
  destruct (decodeBytes_escape c (stringBytes s)) as [Hd Hq]. rewrite Hd, Hq, IHd. split; [exact IHq | reflexivity].
Qed.
