(* ===== verification/WasmBytes.v ===== *)
(** * LEB128 numbers and byte vectors ([internal/wasm/binary.go])

    The integers of a wasm binary are LEB128: groups of seven bits, least
    significant first, the last without the high bit.  [appendU32] and
    [appendSigned] write them; [decodeU] and [decodeS] read them as the
    WebAssembly specification defines [uN] and [sN].  [decodes] is the interface
    between writers and readers: a reader that finds a value at the front of the
    input and leaves the rest.  The theorem is that the two are inverse at every
    width and that no shorter text reads as the same number. *)

From stdpp Require Import base list.
From Stdlib Require Import ZArith Lia.
From S2P Require Import Prelude GoStd.

#[local] Open Scope Z_scope.
#[local] Open Scope list_scope.

(** ** Writers *)

Definition u32 (z : Z) : Z := z mod 2 ^ 32.

(** Go's [int32(value)]. *)
Definition wrap32 (z : Z) : Z := (z + 2 ^ 31) mod 2 ^ 32 - 2 ^ 31.

(** The loop of [appendU32], a round for each byte. *)
Fixpoint u32Bytes (rounds : nat) (value : Z) : list Z :=
  match rounds with
  | O => []
  | S rounds =>
      let current := Z.land value 127 in
      let value := Z.shiftr value 7 in
      if value =? 0 then [current] else Z.lor current 128 :: u32Bytes rounds value
  end.

(** [appendU32]: 32 bits are five groups. *)
Definition appendU32 (out : list Z) (value : Z) : list Z := out ++ u32Bytes 5 value.

(** The loop of [appendSigned], which stops when [bits] is used up. *)
Fixpoint signedBytes (rounds : nat) (remaining bits : Z) : list Z :=
  match rounds with
  | O => []
  | S rounds =>
      let current := Z.land remaining 127 in
      let remaining := Z.shiftr remaining 7 in
      let done := ((remaining =? 0) && (Z.land current 64 =? 0)) ||
                  ((remaining =? -1) && negb (Z.land current 64 =? 0)) in
      let current := if done then current else Z.lor current 128 in
      if done then [current]
      else if bits - 7 <=? 0 then [current]
      else current :: signedBytes rounds remaining (bits - 7)
  end.

(** [appendSigned] *)
Definition appendSigned (out : list Z) (value bits : Z) : list Z :=
  out ++ signedBytes (Z.to_nat bits) value bits.

(** [appendI32] and [appendI64] *)
Definition appendI32 (out : list Z) (value : Z) : list Z := appendSigned out value 32.
Definition appendI64 (out : list Z) (value : Z) : list Z := appendSigned out value 64.

(** [appendName] *)
Definition appendName (out value : list Z) : list Z :=
  appendU32 out (u32 (Z.of_nat (List.length value))) ++ value.

(** [appendSection] *)
Definition appendSection (out : list Z) (id : Z) (payload : list Z) : list Z :=
  match payload with
  | [] => out
  | _ => appendU32 (out ++ [id]) (u32 (Z.of_nat (List.length payload))) ++ payload
  end.

(** ** Readers *)

Definition decoder (A : Type) : Type := list Z -> option (A * list Z).

(** [bytes] is a way of writing [a], whatever follows. *)
Definition decodes {A} (d : decoder A) (a : A) (bytes : list Z) : Prop :=
  forall rest, d (bytes ++ rest) = Some (a, rest).

Definition decodeRet {A} (a : A) : decoder A := fun bs => Some (a, bs).

Definition decodeBind {A B} (d : decoder A) (k : A -> decoder B) : decoder B :=
  fun bs => match d bs with Some (a, bs) => k a bs | None => None end.

Definition decodeByte : decoder Z :=
  fun bs => match bs with b :: rest => Some (b, rest) | [] => None end.

(** A byte that must be there. *)
Definition expectByte (b : Z) : decoder unit :=
  decodeBind decodeByte (fun c => if c =? b then decodeRet tt else fun _ => None).

Fixpoint expectBytes (l : list Z) : decoder unit :=
  match l with [] => decodeRet tt | b :: l => decodeBind (expectByte b) (fun _ => expectBytes l) end.

(** [uN] *)
Fixpoint decodeU (rounds : nat) (bits : Z) (bs : list Z) : option (Z * list Z) :=
  match rounds, bs with
  | S rounds, n :: rest =>
      if n <? 128 then if n <? 2 ^ bits then Some (n, rest) else None
      else if 7 <? bits then
        match decodeU rounds (bits - 7) rest with
        | Some (m, rest) => Some (128 * m + (n - 128), rest)
        | None => None
        end
      else None
  | _, _ => None
  end.

(** [sN] *)
Fixpoint decodeS (rounds : nat) (bits : Z) (bs : list Z) : option (Z * list Z) :=
  match rounds, bs with
  | S rounds, n :: rest =>
      if n <? 64 then if n <? 2 ^ (bits - 1) then Some (n, rest) else None
      else if n <? 128 then if 128 - 2 ^ (bits - 1) <=? n then Some (n - 128, rest) else None
      else if 7 <? bits then
        match decodeS rounds (bits - 7) rest with
        | Some (m, rest) => Some (128 * m + (n - 128), rest)
        | None => None
        end
      else None
  | _, _ => None
  end.

Definition decodeU32 : decoder Z := decodeU 5 32.
Definition decodeS32 : decoder Z := decodeS 5 32.
Definition decodeS64 : decoder Z := decodeS 10 64.

(** The bytes of a [vec(byte)]. *)
Definition takeBytes (n : nat) : decoder (list Z) :=
  fun bs => if (n <=? List.length bs)%nat then Some (take n bs, drop n bs) else None.

Definition decodeName : decoder (list Z) := decodeBind decodeU32 (fun n => takeBytes (Z.to_nat n)).

Fixpoint decodeTimes {A} (d : decoder A) (n : nat) : decoder (list A) :=
  match n with
  | O => decodeRet []
  | S n => decodeBind d (fun a => decodeBind (decodeTimes d n) (fun l => decodeRet (a :: l)))
  end.

(** [vec] *)
Definition decodeVec {A} (d : decoder A) : decoder (list A) :=
  decodeBind decodeU32 (fun n => decodeTimes d (Z.to_nat n)).

(** A reader that must use up a text of its own. *)
Definition decodeWhole {A} (d : decoder A) (bs : list Z) : option A :=
  match d bs with Some (a, []) => Some a | _ => None end.

(** ** The interface *)

Section Interface.
Context {A B : Type}.

Lemma decodes_ret (a : A) : decodes (decodeRet a) a [].
Proof. intros rest. reflexivity. Qed.

Lemma decodes_bind (d : decoder A) (k : A -> decoder B) a b bs cs :
  decodes d a bs -> decodes (k a) b cs -> decodes (decodeBind d k) b (bs ++ cs).
Proof. intros Hd Hk rest. unfold decodeBind. rewrite <- app_assoc, Hd. apply Hk. Qed.

Lemma decodes_bind_ret (d : decoder A) (f : A -> B) a bs :
  decodes d a bs -> decodes (decodeBind d (fun a => decodeRet (f a))) (f a) bs.
Proof. intros Hd rest. unfold decodeBind. rewrite Hd. reflexivity. Qed.

Lemma decodes_whole (d : decoder A) a bs : decodes d a bs -> decodeWhole d bs = Some a.
Proof. intros H. specialize (H []). rewrite app_nil_r in H. unfold decodeWhole. rewrite H. reflexivity. Qed.

End Interface.

Lemma decodes_times {A} (d : decoder A) l bss :
  Forall2 (decodes d) l bss -> decodes (decodeTimes d (List.length l)) l (concat bss).
Proof.
  induction 1 as [|a bs l bss Ha _ IH]; [intros rest; reflexivity|].
  cbn [List.length decodeTimes concat]. apply (decodes_bind _ _ _ _ _ _ Ha), (decodes_bind_ret _ (fun l => a :: l)), IH.
Qed.

Lemma decodes_byte b : decodes decodeByte b [b].
Proof. intros rest. reflexivity. Qed.

Lemma decodes_expect b : decodes (expectByte b) tt [b].
Proof. intros rest. unfold expectByte, decodeBind. cbn. rewrite Z.eqb_refl. reflexivity. Qed.

Lemma decodes_expects l : decodes (expectBytes l) tt l.
Proof.
  induction l as [|b l IH]; [apply decodes_ret|].
  apply (decodes_bind _ _ _ _ [b] l (decodes_expect b) IH).
Qed.

Lemma decodes_take l : decodes (takeBytes (List.length l)) l l.
Proof.
  intros rest. unfold takeBytes. rewrite length_app, (proj2 (Nat.leb_le _ _)) by lia.
  rewrite take_app_length, drop_app_length. reflexivity.
Qed.

(** ** Numbers *)

Lemma low_group v : Z.land v 127 = v mod 128.
Proof. change 127 with (Z.ones 7). rewrite Z.land_ones by lia. reflexivity. Qed.

Lemma shift_group v : Z.shiftr v 7 = v / 128.
Proof. rewrite Z.shiftr_div_pow2 by lia. reflexivity. Qed.

(** The 128 groups, with the bit that says more follow and the sign bit. *)
Lemma group_bits n : 0 <= n < 128 -> Z.lor n 128 = n + 128 /\ (Z.land n 64 =? 0) = (n <? 64).
Proof.
  intros Hn.
  assert (Hall : forallb (fun k => let n := Z.of_nat k in
    (Z.lor n 128 =? n + 128) && Bool.eqb (Z.land n 64 =? 0) (n <? 64)) (seq 0 128) = true) by (vm_compute; reflexivity).
  rewrite forallb_forall in Hall. specialize (Hall (Z.to_nat n)). cbv zeta in Hall. rewrite Z2Nat.id in Hall by lia.
  apply andb_true_iff in Hall as [H1 H2]; [|apply in_seq; lia].
  apply Z.eqb_eq in H1. apply Bool.eqb_prop in H2. auto.
Qed.

Lemma more_group v : Z.lor (v mod 128) 128 = v mod 128 + 128.
Proof. apply group_bits, Z.mod_pos_bound. lia. Qed.

Lemma sign_group v : (Z.land (v mod 128) 64 =? 0) = (v mod 128 <? 64).
Proof. apply group_bits, Z.mod_pos_bound. lia. Qed.

Lemma split_group v : v = 128 * (v / 128) + v mod 128.
Proof. apply Z.div_mod. lia. Qed.

Lemma pow_group bits : 7 <= bits -> 2 ^ bits = 128 * 2 ^ (bits - 7).
Proof. intros H. change 128 with (2 ^ 7). rewrite <- Z.pow_add_r by lia. f_equal. lia. Qed.

Lemma pow_small bits k : 0 <= k -> bits <= k -> 2 ^ bits <= 2 ^ k.
Proof. intros Hk H. apply Z.pow_le_mono_r; lia. Qed.

Lemma u32Bytes_decode rounds bits v rest :
  1 <= bits <= 7 * Z.of_nat rounds -> 0 <= v < 2 ^ bits ->
  decodeU rounds bits (u32Bytes rounds v ++ rest) = Some (v, rest).
Proof.
  revert bits v. induction rounds as [|rounds IH]; intros bits v Hb Hv; [lia|].
  pose proof (Z.mod_pos_bound v 128 ltac:(lia)) as Hm. pose proof (split_group v) as Hs.
  cbn [u32Bytes]. rewrite low_group, shift_group. destruct (Z.eqb_spec (v / 128) 0) as [Hz|Hz]; cbn [app decodeU].
  - rewrite (proj2 (Z.ltb_lt _ 128)) by lia. rewrite (proj2 (Z.ltb_lt _ (2 ^ bits))) by lia.
    repeat f_equal. lia.
  - rewrite more_group. rewrite (proj2 (Z.ltb_ge _ 128)) by lia.
    assert (7 < bits) as H7.
    { destruct (Z.lt_ge_cases 7 bits); [assumption|]. pose proof (pow_small bits 7 ltac:(lia) ltac:(lia)) as Hp.
      change (2 ^ 7) with 128 in Hp. lia. }
    rewrite (proj2 (Z.ltb_lt 7 bits)) by lia. rewrite IH.
    + repeat f_equal. lia.
    + lia.
    + rewrite (pow_group bits) in Hv by lia. lia.
Qed.

(** The loop is done when one group holds the number, sign included. *)
Lemma signed_done v :
  ((v / 128 =? 0) && (v mod 128 <? 64)) || ((v / 128 =? -1) && negb (v mod 128 <? 64)) = (-64 <=? v) && (v <? 64).
Proof.
  pose proof (Z.mod_pos_bound v 128 ltac:(lia)) as Hm. pose proof (split_group v) as Hs.
  destruct (Z.eqb_spec (v / 128) 0), (Z.eqb_spec (v / 128) (-1)), (Z.ltb_spec (v mod 128) 64),
    (Z.leb_spec (-64) v), (Z.ltb_spec v 64); cbn; try reflexivity; lia.
Qed.

Lemma signedBytes_S rounds v bits :
  signedBytes (S rounds) v bits =
  if (-64 <=? v) && (v <? 64) then [v mod 128]
  else if bits - 7 <=? 0 then [v mod 128 + 128]
  else v mod 128 + 128 :: signedBytes rounds (v / 128) (bits - 7).
Proof.
  cbn [signedBytes]. cbv zeta. rewrite low_group, shift_group, sign_group, signed_done, more_group.
  step_if; reflexivity.
Qed.

Lemma signedBytes_decode rounds more bits v rest :
  1 <= bits <= 7 * Z.of_nat rounds -> - 2 ^ (bits - 1) <= v < 2 ^ (bits - 1) ->
  decodeS rounds bits (signedBytes (rounds + more) v bits ++ rest) = Some (v, rest).
Proof.
  revert bits v. induction rounds as [|rounds IH]; intros bits v Hb Hv; [lia|].
  pose proof (Z.mod_pos_bound v 128 ltac:(lia)) as Hm. pose proof (split_group v) as Hs.
  cbn [Nat.add]. rewrite signedBytes_S.
  destruct (Z.leb_spec (-64) v), (Z.ltb_spec v 64); cbn [andb app decodeS].
  1: { destruct (Z.lt_ge_cases v 0).
       - assert (v mod 128 = v + 128) as -> by (symmetry; apply (Z.mod_unique v 128 (-1)); lia).
         rewrite (proj2 (Z.ltb_ge _ 64)), (proj2 (Z.ltb_lt _ 128)), (proj2 (Z.leb_le _ _)) by lia.
         repeat f_equal. lia.
       - rewrite Z.mod_small by lia. rewrite (proj2 (Z.ltb_lt _ 64)), (proj2 (Z.ltb_lt _ (2 ^ (bits - 1)))) by lia.
         reflexivity. }
  all: assert (7 < bits) as H7
    by (destruct (Z.lt_ge_cases 7 bits); [assumption|]; pose proof (pow_small (bits - 1) 6 ltac:(lia) ltac:(lia)) as Hp;
        change (2 ^ 6) with 64 in Hp; lia).
  all: rewrite (proj2 (Z.leb_gt (bits - 7) 0)) by lia; cbn [app].
  all: rewrite (proj2 (Z.ltb_ge _ 64)), (proj2 (Z.ltb_ge _ 128)), (proj2 (Z.ltb_lt 7 bits)) by lia.
  all: rewrite IH; [repeat f_equal; lia | lia |].
  all: rewrite (pow_group (bits - 1)) in Hv by lia; replace (bits - 7 - 1) with (bits - 1 - 7) by lia; lia.
Qed.

Definition isByte (b : Z) : Prop := 0 <= b < 256.

(** No text is shorter: each group of a number takes a byte of any text. *)
Lemma decodeU_shortest rounds bits bs v rest :
  Forall isByte bs -> decodeU rounds bits bs = Some (v, rest) ->
  0 <= v /\ forall k, (List.length (u32Bytes k v) + List.length rest <= List.length bs)%nat.
Proof.
  revert bits bs v rest. induction rounds as [|rounds IH]; intros bits [|n bs] v rest Hbs H; try discriminate.
  inversion Hbs as [|? ? Hn Hbs']; subst. unfold isByte in Hn. cbn [decodeU] in H.
  destruct (Z.ltb_spec n 128) as [Hl|Hl].
  - step_if; [|discriminate]. injection H as <- <-. split; [lia|]. intros [|k]; cbn [u32Bytes]; [cbn; lia|].
    rewrite low_group, shift_group, Z.div_small by lia. cbn. lia.
  - step_if; [|discriminate]. destruct (decodeU rounds (bits - 7) bs) as [[m r]|] eqn:Hd; [|discriminate].
    injection H as <- <-. destruct (IH _ _ _ _ Hbs' Hd) as [Hm Hlen]. split; [lia|].
    intros [|k]; cbn [u32Bytes]; [specialize (Hlen 0%nat); cbn in *; lia|].
    rewrite low_group, shift_group.
    assert ((128 * m + (n - 128)) / 128 = m) as -> by (symmetry; apply (Z.div_unique _ 128 m (n - 128)); lia).
    specialize (Hlen k). step_if; cbn; lia.
Qed.

Lemma decodeS_shortest rounds bits bs v rest :
  Forall isByte bs -> decodeS rounds bits bs = Some (v, rest) ->
  forall k b, (List.length (signedBytes k v b) + List.length rest <= List.length bs)%nat.
Proof.
  revert bits bs v rest. induction rounds as [|rounds IH]; intros bits [|n bs] v rest Hbs H; try discriminate.
  inversion Hbs as [|? ? Hn Hbs']; subst. unfold isByte in Hn. cbn [decodeS] in H.
  assert (Hone : forall k b, (-64 <= v < 64) -> (List.length (signedBytes k v b) <= 1)%nat).
  { intros [|k] b Hv; [cbn; lia|]. rewrite signedBytes_S.
    rewrite (proj2 (Z.leb_le _ _)), (proj2 (Z.ltb_lt _ _)) by lia. cbn. lia. }
  destruct (Z.ltb_spec n 64) as [Hl|Hl]; [|destruct (Z.ltb_spec n 128) as [Hl2|Hl2]].
  - step_if; [|discriminate]. injection H as Hv <-. intros k b. specialize (Hone k b ltac:(lia)). cbn. lia.
  - step_if; [|discriminate]. injection H as Hv <-. intros k b. specialize (Hone k b ltac:(lia)). cbn. lia.
  - step_if; [|discriminate]. destruct (decodeS rounds (bits - 7) bs) as [[m r]|] eqn:Hd; [|discriminate].
    injection H as Hv <-. specialize (IH _ _ _ _ Hbs' Hd). intros [|k] b.
    { specialize (IH 0%nat 0). cbn in *. lia. }
    rewrite signedBytes_S.
    assert (v / 128 = m) as -> by (symmetry; apply (Z.div_unique _ 128 m (n - 128)); lia).
    specialize (IH k (b - 7)). repeat step_if; cbn; lia.
Qed.

Lemma u32Bytes_bytes rounds v : 0 <= v -> Forall isByte (u32Bytes rounds v).
Proof.
  revert v. induction rounds as [|rounds IH]; intros v Hv; [constructor|]. cbn [u32Bytes].
  pose proof (Z.mod_pos_bound v 128 ltac:(lia)) as Hm. rewrite low_group, shift_group, more_group.
  step_if; constructor; try (unfold isByte; lia); [constructor | apply IH, Z.div_pos; lia].
Qed.

Lemma signedBytes_bytes rounds v bits : Forall isByte (signedBytes rounds v bits).
Proof.
  revert v bits. induction rounds as [|rounds IH]; intros v bits; [constructor|]. rewrite signedBytes_S.
  pose proof (Z.mod_pos_bound v 128 ltac:(lia)) as Hm.
  repeat step_if; constructor; try (unfold isByte; lia); auto.
Qed.

Lemma u32_range z : 0 <= u32 z < 2 ^ 32.
Proof. apply Z.mod_pos_bound. lia. Qed.

Lemma u32_small z : 0 <= z < 2 ^ 32 -> u32 z = z.
Proof. apply Z.mod_small. Qed.

Lemma wrap32_range z : - 2 ^ 31 <= wrap32 z < 2 ^ 31.
Proof. unfold wrap32. pose proof (Z.mod_pos_bound (z + 2 ^ 31) (2 ^ 32) ltac:(lia)). lia. Qed.

Lemma decodes_u32 v : 0 <= v < 2 ^ 32 -> decodes decodeU32 v (appendU32 [] v).
Proof. intros Hv rest. apply u32Bytes_decode; lia. Qed.

Lemma decodes_s32 v : - 2 ^ 31 <= v < 2 ^ 31 -> decodes decodeS32 v (appendI32 [] v).
Proof. intros Hv rest. apply (signedBytes_decode 5 27 32); lia. Qed.

Lemma decodes_s64 v : in_int64 v -> decodes decodeS64 v (appendI64 [] v).
Proof. unfold in_int64, min_int64, max_int64. intros Hv rest. apply (signedBytes_decode 10 54 64); lia. Qed.

(** C14. Numbers survive the encoding: what is appended for a 32-bit unsigned, 32-bit
    signed or 64-bit signed number are bytes that read back as that number by the
    WebAssembly rules, whatever follows, and no shorter bytes do. *)
Theorem leb_round_trip :
  (forall v out, 0 <= v < 2 ^ 32 -> exists bs, appendU32 out v = out ++ bs /\ Forall isByte bs /\
     decodes decodeU32 v bs /\
     forall bs', Forall isByte bs' -> decodes decodeU32 v bs' -> (List.length bs <= List.length bs')%nat) /\
  (forall v out, - 2 ^ 31 <= v < 2 ^ 31 -> exists bs, appendI32 out v = out ++ bs /\ Forall isByte bs /\
     decodes decodeS32 v bs /\
     forall bs', Forall isByte bs' -> decodes decodeS32 v bs' -> (List.length bs <= List.length bs')%nat) /\
  (forall v out, - 2 ^ 63 <= v < 2 ^ 63 -> exists bs, appendI64 out v = out ++ bs /\ Forall isByte bs /\
     decodes decodeS64 v bs /\
     forall bs', Forall isByte bs' -> decodes decodeS64 v bs' -> (List.length bs <= List.length bs')%nat).
Proof.
  assert (Hend : forall (d : decoder Z) v bs, decodes d v bs -> d bs = Some (v, [])).
  { intros d v bs H. specialize (H []). rewrite app_nil_r in H. exact H. }
  split; [|split]; intros v out Hv.
  - exists (u32Bytes 5 v). split; [reflexivity|]. split; [apply u32Bytes_bytes; lia|].
    split; [exact (decodes_u32 v Hv)|]. intros bs' Hb Hd.
    destruct (decodeU_shortest _ _ _ _ _ Hb (Hend _ _ _ Hd)) as [_ Hlen]. specialize (Hlen 5%nat).
    change (@List.length Z []) with 0%nat in Hlen. lia.
  - exists (signedBytes 32 v 32). split; [reflexivity|]. split; [apply signedBytes_bytes|].
    split; [exact (decodes_s32 v Hv)|]. intros bs' Hb Hd.
    pose proof (decodeS_shortest _ _ _ _ _ Hb (Hend _ _ _ Hd) 32%nat 32) as Hlen.
    change (@List.length Z []) with 0%nat in Hlen. lia.
  - exists (signedBytes 64 v 64). split; [reflexivity|]. split; [apply signedBytes_bytes|].
    split; [apply (decodes_s64 v); unfold in_int64, min_int64, max_int64; lia|]. intros bs' Hb Hd.
    pose proof (decodeS_shortest _ _ _ _ _ Hb (Hend _ _ _ Hd) 64%nat 64) as Hlen.
    change (@List.length Z []) with 0%nat in Hlen. lia.
Qed.

(** The extremes of each width. *)
Lemma leb_round_trip_witness :
  appendU32 [] 4294967295 = [255; 255; 255; 255; 15] /\
  appendI32 [] (-2147483648) = [128; 128; 128; 128; 120] /\
  appendI64 [] (-2 ^ 63) = [128; 128; 128; 128; 128; 128; 128; 128; 128; 127] /\
  exists bs, appendU32 [7] 4294967295 = [7] ++ bs /\ decodes decodeU32 4294967295 bs.
Proof.
  split; [vm_compute; reflexivity|]. split; [vm_compute; reflexivity|]. split; [vm_compute; reflexivity|].
  destruct (proj1 leb_round_trip 4294967295 [7]) as (bs & H & _ & Hd & _); [lia|]. exists bs. auto.
Defined.
