(* ===== verification/WasmFormat.v ===== *)
(** * The WebAssembly binary format

    The binary format of the WebAssembly specification, as far as a module of the
    Kizu backend goes: no custom sections, functions as the only imports, active
    segments.  It stands for no file: it is what a wasm runtime reads, and the
    specification of the encoder.  Instructions carry the names of the text format;
    the tables list them in the order of their opcodes.

    [codes] is the grammar of instruction sequences and [decodeInstrs] its reader;
    [decodeModule] reads a whole module.  Names are byte strings: the reader does
    not ask that they be UTF-8. *)

From stdpp Require Import base list strings.
From Stdlib Require Import ZArith Lia String.
From S2P Require Import Prelude GoStd WasmBytes.

#[local] Open Scope Z_scope.
#[local] Open Scope list_scope.

(** ** Abstract syntax *)

Inductive valtype : Type := VI32 | VI64 | VF32 | VF64 | VV128.

#[export] Instance valtype_eq : EqDecision valtype.
Proof. solve_decision. Defined.

Inductive winstr : Type :=
  | Plain (name : string)                                (* no immediate *)
  | Access (name : string) (align offset : Z)            (* a load or a store *)
  | Lane (name : string) (lane : Z)
  | ConstI32 (n : Z)
  | ConstI64 (n : Z)
  | Indexed (name : string) (n : Z)                      (* a label, local, global or function *)
  | CallIndirect (typ table : Z)
  | Nested (name : string) (t : option valtype) (body : list winstr)
  | IfElse (t : option valtype) (yes : list winstr) (no : option (list winstr)).

Record functype : Type := mkFunctype { ftParams : list valtype; ftResults : list valtype }.
Record wimport : Type := mkWimport { wiModule : list Z; wiName : list Z; wiType : Z }.
Record wglobal : Type := mkWglobal { wgType : valtype; wgMutable : bool; wgInit : list winstr }.
Record wexport : Type := mkWexport { weName : list Z; weKind : Z; weIndex : Z }.
Record welement : Type := mkWelement { wmOffset : list winstr; wmFunctions : list Z }.
Record wdata : Type := mkWdata { wdOffset : list winstr; wdBytes : list Z }.
Record wbody : Type := mkWcode { wcLocals : list (Z * valtype); wcBody : list winstr }.

Record wmodule : Type := mkWmodule {
  wTypes : list functype;
  wImports : list wimport;
  wFuncs : list Z;
  wTables : list Z;
  wMems : list Z;
  wGlobals : list wglobal;
  wExports : list wexport;
  wElements : list welement;
  wCodes : list wbody;
  wDatas : list wdata
}.

(** ** Opcodes *)

(** The names from an opcode on. *)
Definition nameAt (base : Z) (names : list string) (b : Z) : option string :=
  if base <=? b then names !! Z.to_nat (b - base) else None.

Definition numericNames : list string :=
  ["i32.eqz"; "i32.eq"; "i32.ne"; "i32.lt_s"; "i32.lt_u"; "i32.gt_s"; "i32.gt_u"; "i32.le_s"; "i32.le_u"; "i32.ge_s"; "i32.ge_u";
   "i64.eqz"; "i64.eq"; "i64.ne"; "i64.lt_s"; "i64.lt_u"; "i64.gt_s"; "i64.gt_u"; "i64.le_s"; "i64.le_u"; "i64.ge_s"; "i64.ge_u";
   "f32.eq"; "f32.ne"; "f32.lt"; "f32.gt"; "f32.le"; "f32.ge"; "f64.eq"; "f64.ne"; "f64.lt"; "f64.gt"; "f64.le"; "f64.ge";
   "i32.clz"; "i32.ctz"; "i32.popcnt"; "i32.add"; "i32.sub"; "i32.mul"; "i32.div_s"; "i32.div_u"; "i32.rem_s"; "i32.rem_u";
   "i32.and"; "i32.or"; "i32.xor"; "i32.shl"; "i32.shr_s"; "i32.shr_u"; "i32.rotl"; "i32.rotr";
   "i64.clz"; "i64.ctz"; "i64.popcnt"; "i64.add"; "i64.sub"; "i64.mul"; "i64.div_s"; "i64.div_u"; "i64.rem_s"; "i64.rem_u";
   "i64.and"; "i64.or"; "i64.xor"; "i64.shl"; "i64.shr_s"; "i64.shr_u"; "i64.rotl"; "i64.rotr";
   "f32.abs"; "f32.neg"; "f32.ceil"; "f32.floor"; "f32.trunc"; "f32.nearest"; "f32.sqrt"; "f32.add"; "f32.sub"; "f32.mul"; "f32.div";
   "f32.min"; "f32.max"; "f32.copysign";
   "f64.abs"; "f64.neg"; "f64.ceil"; "f64.floor"; "f64.trunc"; "f64.nearest"; "f64.sqrt"; "f64.add"; "f64.sub"; "f64.mul"; "f64.div";
   "f64.min"; "f64.max"; "f64.copysign";
   "i32.wrap_i64"; "i32.trunc_f32_s"; "i32.trunc_f32_u"; "i32.trunc_f64_s"; "i32.trunc_f64_u"; "i64.extend_i32_s"; "i64.extend_i32_u";
   "i64.trunc_f32_s"; "i64.trunc_f32_u"; "i64.trunc_f64_s"; "i64.trunc_f64_u"; "f32.convert_i32_s"; "f32.convert_i32_u";
   "f32.convert_i64_s"; "f32.convert_i64_u"; "f32.demote_f64"; "f64.convert_i32_s"; "f64.convert_i32_u"; "f64.convert_i64_s";
   "f64.convert_i64_u"; "f64.promote_f32"; "i32.reinterpret_f32"; "i64.reinterpret_f64"; "f32.reinterpret_i32"; "f64.reinterpret_i64";
   "i32.extend8_s"; "i32.extend16_s"; "i64.extend8_s"; "i64.extend16_s"; "i64.extend32_s"].

Definition accessNames : list string :=
  ["i32.load"; "i64.load"; "f32.load"; "f64.load"; "i32.load8_s"; "i32.load8_u"; "i32.load16_s"; "i32.load16_u";
   "i64.load8_s"; "i64.load8_u"; "i64.load16_s"; "i64.load16_u"; "i64.load32_s"; "i64.load32_u";
   "i32.store"; "i64.store"; "f32.store"; "f64.store"; "i32.store8"; "i32.store16"; "i64.store8"; "i64.store16"; "i64.store32"].

Definition truncNames : list string :=
  ["i32.trunc_sat_f32_s"; "i32.trunc_sat_f32_u"; "i32.trunc_sat_f64_s"; "i32.trunc_sat_f64_u";
   "i64.trunc_sat_f32_s"; "i64.trunc_sat_f32_u"; "i64.trunc_sat_f64_s"; "i64.trunc_sat_f64_u"].

Definition laneNames : list string :=
  ["i8x16.extract_lane_s"; "i8x16.extract_lane_u"; "i8x16.replace_lane"; "i16x8.extract_lane_s"; "i16x8.extract_lane_u";
   "i16x8.replace_lane"; "i32x4.extract_lane"; "i32x4.replace_lane"; "i64x2.extract_lane"; "i64x2.replace_lane";
   "f32x4.extract_lane"; "f32x4.replace_lane"; "f64x2.extract_lane"; "f64x2.replace_lane"].

Definition splatNames : list string :=
  ["i8x16.splat"; "i16x8.splat"; "i32x4.splat"; "i64x2.splat"; "f32x4.splat"; "f64x2.splat"].

(** The lane-wise arithmetic, by its number. *)
Definition vectorName (n : Z) : option string :=
  match n with
  | 97 => Some "i8x16.neg" | 110 => Some "i8x16.add" | 113 => Some "i8x16.sub"
  | 129 => Some "i16x8.neg" | 142 => Some "i16x8.add" | 145 => Some "i16x8.sub" | 149 => Some "i16x8.mul"
  | 161 => Some "i32x4.neg" | 174 => Some "i32x4.add" | 177 => Some "i32x4.sub" | 181 => Some "i32x4.mul"
  | 193 => Some "i64x2.neg" | 206 => Some "i64x2.add" | 209 => Some "i64x2.sub" | 213 => Some "i64x2.mul"
  | 225 => Some "f32x4.neg" | 228 => Some "f32x4.add" | 229 => Some "f32x4.sub" | 230 => Some "f32x4.mul" | 231 => Some "f32x4.div"
  | 237 => Some "f64x2.neg" | 240 => Some "f64x2.add" | 241 => Some "f64x2.sub" | 242 => Some "f64x2.mul" | 243 => Some "f64x2.div"
  | _ => nameAt 15 splatNames n
  end.

(** An opcode of one byte and the reserved bytes after it. *)
Definition plainName (b : Z) : option (string * list Z) :=
  match b with
  | 0 => Some ("unreachable", []) | 1 => Some ("nop", []) | 15 => Some ("return", [])
  | 26 => Some ("drop", []) | 27 => Some ("select", [])
  | 63 => Some ("memory.size", [0]) | 64 => Some ("memory.grow", [0])
  | _ => match nameAt 69 numericNames b with Some name => Some (name, []) | None => None end
  end.

(** The same behind the prefix [0xfc] or [0xfd]. *)
Definition prefixedName (prefix n : Z) : option (string * list Z) :=
  if prefix =? 252 then
    match n with
    | 10 => Some ("memory.copy", [0; 0]) | 11 => Some ("memory.fill", [0])
    | _ => match nameAt 0 truncNames n with Some name => Some (name, []) | None => None end
    end
  else if prefix =? 253 then match vectorName n with Some name => Some (name, []) | None => None end
  else None.

Definition accessName (b : Z) : option string := nameAt 40 accessNames b.

Definition vectorAccessName (n : Z) : option string :=
  match n with 0 => Some "v128.load" | 11 => Some "v128.store" | _ => None end.

Definition laneName (n : Z) : option string := nameAt 21 laneNames n.

Definition indexedName (b : Z) : option string :=
  match b with
  | 12 => Some "br" | 13 => Some "br_if" | 16 => Some "call"
  | 32 => Some "local.get" | 33 => Some "local.set" | 34 => Some "local.tee"
  | 35 => Some "global.get" | 36 => Some "global.set"
  | _ => None
  end.

Definition nestedName (b : Z) : option string :=
  match b with 2 => Some "block" | 3 => Some "loop" | _ => None end.

Definition valtypeOf (b : Z) : option valtype :=
  match b with 127 => Some VI32 | 126 => Some VI64 | 125 => Some VF32 | 124 => Some VF64 | 123 => Some VV128 | _ => None end.

Definition blocktypeOf (b : Z) : option (option valtype) :=
  if b =? 64 then Some None else match valtypeOf b with Some t => Some (Some t) | None => None end.

(** ** The grammar of instructions *)

Inductive code1 : winstr -> list Z -> Prop :=
  | code_plain b name tail : plainName b = Some (name, tail) -> code1 (Plain name) (b :: tail)
  | code_prefixed p n bs name tail :
      decodes decodeU32 n bs -> prefixedName p n = Some (name, tail) -> code1 (Plain name) (p :: bs ++ tail)
  | code_access b name align offset bs cs :
      accessName b = Some name -> decodes decodeU32 align bs -> decodes decodeU32 offset cs ->
      code1 (Access name align offset) (b :: bs ++ cs)
  | code_vector_access n ns name align offset bs cs :
      decodes decodeU32 n ns -> vectorAccessName n = Some name ->
      decodes decodeU32 align bs -> decodes decodeU32 offset cs ->
      code1 (Access name align offset) (253 :: ns ++ bs ++ cs)
  | code_lane n ns name lane :
      decodes decodeU32 n ns -> laneName n = Some name -> code1 (Lane name lane) (253 :: ns ++ [lane])
  | code_i32 n bs : decodes decodeS32 n bs -> code1 (ConstI32 n) (65 :: bs)
  | code_i64 n bs : decodes decodeS64 n bs -> code1 (ConstI64 n) (66 :: bs)
  | code_indexed b name n bs :
      indexedName b = Some name -> decodes decodeU32 n bs -> code1 (Indexed name n) (b :: bs)
  | code_indirect t table bs cs :
      decodes decodeU32 t bs -> decodes decodeU32 table cs -> code1 (CallIndirect t table) (17 :: bs ++ cs)
  | code_nested b name tb t body bs :
      nestedName b = Some name -> blocktypeOf tb = Some t -> codes body bs ->
      code1 (Nested name t body) (b :: tb :: bs ++ [11])
  | code_if tb t yes bs :
      blocktypeOf tb = Some t -> codes yes bs -> code1 (IfElse t yes None) (4 :: tb :: bs ++ [11])
  | code_if_else tb t yes no bs cs :
      blocktypeOf tb = Some t -> codes yes bs -> codes no cs ->
      code1 (IfElse t yes (Some no)) (4 :: tb :: bs ++ 5 :: cs ++ [11])
with codes : list winstr -> list Z -> Prop :=
  | codes_nil : codes [] []
  | codes_cons i il bs cs : code1 i bs -> codes il cs -> codes (i :: il) (bs ++ cs).

Scheme code1_mut := Minimality for code1 Sort Prop
  with codes_mut := Minimality for codes Sort Prop.
Combined Scheme codes_both from code1_mut, codes_mut.

Lemma codes_app il jl bs cs : codes il bs -> codes jl cs -> codes (il ++ jl) (bs ++ cs).
Proof.
  induction 1 as [|i il bs ds Hi _ IH]; intros H; [exact H|]. cbn [app]. rewrite <- app_assoc.
  constructor; [exact Hi | apply IH, H].
Qed.

Lemma codes_one i bs : code1 i bs -> codes [i] bs.
Proof. intros H. rewrite <- (app_nil_r bs). constructor; [exact H | constructor]. Qed.

(** ** The reader of instructions *)

Definition decodeValtype : decoder valtype :=
  decodeBind decodeByte (fun b bs => match valtypeOf b with Some t => Some (t, bs) | None => None end).

Definition decodeBlocktype : decoder (option valtype) :=
  decodeBind decodeByte (fun b bs => match blocktypeOf b with Some t => Some (t, bs) | None => None end).

Definition decodeAccess (name : string) : decoder winstr :=
  decodeBind decodeU32 (fun align => decodeBind decodeU32 (fun offset => decodeRet (Access name align offset))).

(** What follows the prefix [0xfc] or [0xfd]. *)
Definition decodePrefixed (prefix : Z) : decoder winstr :=
  decodeBind decodeU32 (fun n =>
    match prefixedName prefix n with
    | Some (name, tail) => decodeBind (expectBytes tail) (fun _ => decodeRet (Plain name))
    | None =>
        if negb (prefix =? 253) then fun _ => None else
        match vectorAccessName n, laneName n with
        | Some name, _ => decodeAccess name
        | None, Some name => decodeBind decodeByte (fun lane => decodeRet (Lane name lane))
        | None, None => fun _ => None
        end
    end).

(** A sequence, with the byte that ends it: [0x0b] or [0x05]. *)
Definition sequenceDecoder : Type := decoder (list winstr * Z).

Definition decodeNested (name : string) (sequence : sequenceDecoder) : decoder winstr :=
  decodeBind decodeBlocktype (fun t => decodeBind sequence (fun '(body, stop) =>
    if stop =? 11 then decodeRet (Nested name t body) else fun _ => None)).

Definition decodeIf (sequence : sequenceDecoder) : decoder winstr :=
  decodeBind decodeBlocktype (fun t => decodeBind sequence (fun '(yes, stop) =>
    if stop =? 11 then decodeRet (IfElse t yes None)
    else decodeBind sequence (fun '(no, stop) =>
      if stop =? 11 then decodeRet (IfElse t yes (Some no)) else fun _ => None))).

(** One instruction, from its opcode on. *)
Definition decodeInstr (sequence : sequenceDecoder) (b : Z) : decoder winstr :=
  match plainName b, indexedName b, accessName b, nestedName b with
  | Some (name, tail), _, _, _ => decodeBind (expectBytes tail) (fun _ => decodeRet (Plain name))
  | _, Some name, _, _ => decodeBind decodeU32 (fun n => decodeRet (Indexed name n))
  | _, _, Some name, _ => decodeAccess name
  | _, _, _, Some name => decodeNested name sequence
  | None, None, None, None =>
      if b =? 4 then decodeIf sequence
      else if b =? 17 then
        decodeBind decodeU32 (fun t => decodeBind decodeU32 (fun table => decodeRet (CallIndirect t table)))
      else if b =? 65 then decodeBind decodeS32 (fun n => decodeRet (ConstI32 n))
      else if b =? 66 then decodeBind decodeS64 (fun n => decodeRet (ConstI64 n))
      else decodePrefixed b
  end.

Fixpoint decodeInstrs (fuel : nat) (bs : list Z) : option ((list winstr * Z) * list Z) :=
  match fuel, bs with
  | S fuel, b :: rest =>
      if (b =? 11) || (b =? 5) then Some (([], b), rest) else
      match decodeInstr (decodeInstrs fuel) b rest with
      | Some (i, rest) =>
          match decodeInstrs fuel rest with
          | Some ((il, stop), rest) => Some ((i :: il, stop), rest)
          | None => None
          end
      | None => None
      end
  | _, _ => None
  end.

(** [expr]: no instruction is longer than the input. *)
Definition decodeExpr : decoder (list winstr) :=
  fun bs =>
    match decodeInstrs (S (List.length bs)) bs with
    | Some ((il, stop), rest) => if stop =? 11 then Some (il, rest) else None
    | None => None
    end.

(** ** The reader of modules *)

Notation "x <-- d ; k" := (decodeBind d (fun x => k)) (at level 100, d at next level, right associativity, only parsing).

Definition decodeFunctype : decoder functype :=
  _ <-- expectByte 96; params <-- decodeVec decodeValtype; results <-- decodeVec decodeValtype;
  decodeRet (mkFunctype params results).

Definition decodeImport : decoder wimport :=
  m <-- decodeName; n <-- decodeName; _ <-- expectByte 0; t <-- decodeU32; decodeRet (mkWimport m n t).

Definition decodeTable : decoder Z := _ <-- expectBytes [112; 0]; decodeU32.
Definition decodeMemory : decoder Z := _ <-- expectByte 0; decodeU32.

Definition decodeMutable : decoder bool :=
  b <-- decodeByte;
  if b =? 0 then decodeRet false else if b =? 1 then decodeRet true else fun _ => None.

Definition decodeGlobal : decoder wglobal :=
  t <-- decodeValtype; mutable <-- decodeMutable; init <-- decodeExpr; decodeRet (mkWglobal t mutable init).

Definition decodeExport : decoder wexport :=
  n <-- decodeName; kind <-- decodeByte; index <-- decodeU32;
  if (0 <=? kind) && (kind <=? 3) then decodeRet (mkWexport n kind index) else fun _ => None.

Definition decodeElement : decoder welement :=
  _ <-- expectByte 0; offset <-- decodeExpr; functions <-- decodeVec decodeU32; decodeRet (mkWelement offset functions).

Definition decodeLocals : decoder (Z * valtype) := n <-- decodeU32; t <-- decodeValtype; decodeRet (n, t).

Definition decodeBody : decoder wbody :=
  locals <-- decodeVec decodeLocals; body <-- decodeExpr; decodeRet (mkWcode locals body).

(** A text of a size of its own, used up. *)
Definition decodeSized {A} (d : decoder A) : decoder A :=
  bytes <-- decodeName;
  match decodeWhole d bytes with Some a => decodeRet a | None => fun _ => None end.

Definition decodeCode : decoder wbody := decodeSized decodeBody.

Definition decodeData : decoder wdata :=
  _ <-- expectByte 0; offset <-- decodeExpr; bytes <-- decodeName; decodeRet (mkWdata offset bytes).

(** A section may be left out. *)
Definition decodeSection {A} (id : Z) (d : decoder A) : decoder (list A) :=
  fun bs =>
    match bs with
    | b :: rest => if b =? id then decodeSized (decodeVec d) rest else Some ([], bs)
    | [] => Some ([], [])
    end.

Definition magic : list Z := [0; 97; 115; 109; 1; 0; 0; 0].

Definition decodeModule (bs : list Z) : option wmodule :=
  decodeWhole
   (_ <-- expectBytes magic;
    types <-- decodeSection 1 decodeFunctype;
    imports <-- decodeSection 2 decodeImport;
    funcs <-- decodeSection 3 decodeU32;
    tables <-- decodeSection 4 decodeTable;
    mems <-- decodeSection 5 decodeMemory;
    globals <-- decodeSection 6 decodeGlobal;
    exports <-- decodeSection 7 decodeExport;
    elements <-- decodeSection 9 decodeElement;
    codes <-- decodeSection 10 decodeCode;
    datas <-- decodeSection 11 decodeData;
    decodeRet (mkWmodule types imports funcs tables mems globals exports elements codes datas)) bs.

(** ** The reader reads the grammar *)

Lemma nameAt_range base names b name :
  nameAt base names b = Some name -> base <= b < base + Z.of_nat (List.length names).
Proof.
  unfold nameAt. destruct (Z.leb_spec base b); [|discriminate]. intros Hl. apply lookup_lt_Some in Hl. lia.
Qed.

Definition ends (b : Z) : bool := (b =? 11) || (b =? 5).

(** A load or a store is in no other table. *)
Lemma access_apart b name :
  accessName b = Some name -> plainName b = None /\ indexedName b = None /\ ends b = false.
Proof.
  intros H. apply nameAt_range in H. cbn [List.length accessNames] in H.
  assert (Hall : forallb (fun k => let b := Z.of_nat k in
    match plainName b, indexedName b with None, None => negb (ends b) | _, _ => false end) (seq 40 23) = true)
    by (vm_compute; reflexivity).
  rewrite forallb_forall in Hall. specialize (Hall (Z.to_nat b)). cbv zeta in Hall. rewrite Z2Nat.id in Hall by lia.
  specialize (Hall ltac:(apply in_seq; lia)).
  destruct (plainName b); [discriminate|]. destruct (indexedName b); [discriminate|].
  apply negb_true_iff in Hall. auto.
Qed.

(** What a grammar rule means for the reader: an opcode that ends nothing, and the
    instruction after it. *)
Definition reads1 (sequence : sequenceDecoder) (i : winstr) (bs : list Z) : Prop :=
  exists b tl, bs = b :: tl /\ ends b = false /\ decodes (decodeInstr sequence b) i tl.

Lemma decodes_access name align offset bs cs :
  decodes decodeU32 align bs -> decodes decodeU32 offset cs ->
  decodes (decodeAccess name) (Access name align offset) (bs ++ cs).
Proof.
  intros Ha Ho. apply (decodes_bind _ _ _ _ _ _ Ha), (decodes_bind_ret _ (fun offset => Access name align offset)), Ho.
Qed.

Lemma decodes_tail {A} tail (a : A) : decodes (decodeBind (expectBytes tail) (fun _ => decodeRet a)) a tail.
Proof. apply (decodes_bind_ret _ (fun _ => a) tt), decodes_expects. Qed.

Lemma decodes_blocktype tb t : blocktypeOf tb = Some t -> decodes decodeBlocktype t [tb].
Proof. intros H rest. unfold decodeBlocktype, decodeBind. cbn. rewrite H. reflexivity. Qed.

(** A sequence reader that has read [il] up to the byte [stop]. *)
Definition readsSequence (sequence : sequenceDecoder) (il : list winstr) (bs : list Z) : Prop :=
  forall stop, ends stop = true -> decodes sequence (il, stop) (bs ++ [stop]).

Lemma decodes_nested sequence name tb t body bs :
  blocktypeOf tb = Some t -> readsSequence sequence body bs ->
  decodes (decodeNested name sequence) (Nested name t body) (tb :: bs ++ [11]).
Proof.
  intros Ht Hs. apply (decodes_bind _ _ _ _ [tb] _ (decodes_blocktype _ _ Ht)).
  rewrite <- (app_nil_r (bs ++ [11])). apply (decodes_bind _ _ _ _ _ _ (Hs 11 eq_refl)), decodes_ret.
Qed.

Lemma decodes_if sequence tb t yes bs :
  blocktypeOf tb = Some t -> readsSequence sequence yes bs ->
  decodes (decodeIf sequence) (IfElse t yes None) (tb :: bs ++ [11]).
Proof.
  intros Ht Hs. apply (decodes_bind _ _ _ _ [tb] _ (decodes_blocktype _ _ Ht)).
  rewrite <- (app_nil_r (bs ++ [11])). apply (decodes_bind _ _ _ _ _ _ (Hs 11 eq_refl)), decodes_ret.
Qed.

Lemma decodes_if_else sequence tb t yes no bs cs :
  blocktypeOf tb = Some t -> readsSequence sequence yes bs -> readsSequence sequence no cs ->
  decodes (decodeIf sequence) (IfElse t yes (Some no)) (tb :: bs ++ 5 :: cs ++ [11]).
Proof.
  intros Ht Hy Hn. apply (decodes_bind _ _ _ _ [tb] _ (decodes_blocktype _ _ Ht)).
  replace (bs ++ 5 :: cs ++ [11]) with ((bs ++ [5]) ++ (cs ++ [11]) ++ []) by (rewrite <- !app_assoc; reflexivity).
  apply (decodes_bind _ _ _ _ _ _ (Hy 5 eq_refl)). cbn. apply (decodes_bind _ _ _ _ _ _ (Hn 11 eq_refl)), decodes_ret.
Qed.

(** One rule of the grammar each. *)
Section Rules.
Variable sequence : sequenceDecoder.

Lemma reads_plain b name tail : plainName b = Some (name, tail) -> reads1 sequence (Plain name) (b :: tail).
Proof.
  intros H. exists b, tail. split; [reflexivity|]. split.
  - unfold ends. destruct (Z.eqb_spec b 11) as [->|_]; [discriminate H|].
    destruct (Z.eqb_spec b 5) as [->|_]; [discriminate H | reflexivity].
  - unfold decodeInstr. rewrite H. apply decodes_tail.
Qed.

Lemma reads_access b name align offset bs cs :
  accessName b = Some name -> decodes decodeU32 align bs -> decodes decodeU32 offset cs ->
  reads1 sequence (Access name align offset) (b :: bs ++ cs).
Proof.
  intros H Ha Ho. destruct (access_apart b name H) as (Hp & Hi & He).
  exists b, (bs ++ cs). split; [reflexivity|]. split; [exact He|]. unfold decodeInstr. rewrite Hp, Hi, H.
  apply decodes_access; assumption.
Qed.

Lemma reads_prefixed p n ns i tl :
  (p = 252 \/ p = 253) -> decodes decodeU32 n ns ->
  decodes (match prefixedName p n with
           | Some (name, tail) => decodeBind (expectBytes tail) (fun _ => decodeRet (Plain name))
           | None =>
               if negb (p =? 253) then fun _ => None else
               match vectorAccessName n, laneName n with
               | Some name, _ => decodeAccess name
               | None, Some name => decodeBind decodeByte (fun lane => decodeRet (Lane name lane))
               | None, None => fun _ => None
               end
           end) i tl ->
  reads1 sequence i (p :: ns ++ tl).
Proof.
  intros Hp Hn Hi. exists p, (ns ++ tl). split; [reflexivity|].
  split; [destruct Hp as [->| ->]; reflexivity|].
  assert (decodeInstr sequence p = decodePrefixed p) as -> by (destruct Hp as [->| ->]; reflexivity).
  exact (decodes_bind _ _ _ _ _ _ Hn Hi).
Qed.

Lemma prefixed_prefix p n name tail : prefixedName p n = Some (name, tail) -> p = 252 \/ p = 253.
Proof.
  unfold prefixedName. destruct (Z.eqb_spec p 252); [auto|]. destruct (Z.eqb_spec p 253); [auto | discriminate].
Qed.

Lemma reads_indexed b name n bs :
  indexedName b = Some name -> decodes decodeU32 n bs -> reads1 sequence (Indexed name n) (b :: bs).
Proof.
  intros H Hn. exists b, bs. split; [reflexivity|]. unfold indexedName in H.
  repeat case_match; try discriminate; injection H as <-; (split; [reflexivity|]);
    apply (decodes_bind_ret _ (fun n => Indexed _ n)), Hn.
Qed.

Lemma reads_nested b name tb t body bs :
  nestedName b = Some name -> blocktypeOf tb = Some t -> readsSequence sequence body bs ->
  reads1 sequence (Nested name t body) (b :: tb :: bs ++ [11]).
Proof.
  intros H Ht Hs. exists b, (tb :: bs ++ [11]). split; [reflexivity|]. unfold nestedName in H.
  repeat case_match; try discriminate; injection H as <-; (split; [reflexivity|]); apply decodes_nested; assumption.
Qed.

Lemma reads_opcode b i tl : ends b = false -> decodes (decodeInstr sequence b) i tl -> reads1 sequence i (b :: tl).
Proof. intros He Hd. exists b, tl. auto. Qed.
End Rules.

Lemma codes_decode :
  (forall i bs, code1 i bs -> forall fuel, (List.length bs <= fuel)%nat -> reads1 (decodeInstrs fuel) i bs) /\
  (forall il bs, codes il bs -> forall fuel, (List.length bs < fuel)%nat -> readsSequence (decodeInstrs fuel) il bs).
Proof.
  apply codes_both.
  - intros b name tail H fuel _. apply reads_plain, H.
  - intros p n bs name tail Hn H fuel _. apply (reads_prefixed _ p n).
    + exact (prefixed_prefix _ _ _ _ H).
    + exact Hn.
    + rewrite H. apply decodes_tail.
  - intros b name align offset bs cs H Ha Ho fuel _. apply reads_access; assumption.
  - intros n ns name align offset bs cs Hn H Ha Ho fuel _. apply (reads_prefixed _ 253 n); [auto | exact Hn|].
    assert (n = 0 /\ name = "v128.load" \/ n = 11 /\ name = "v128.store") as [[-> ->]|[-> ->]];
      [|apply decodes_access; assumption..].
    revert H. unfold vectorAccessName. repeat case_match; try discriminate; intros [= <-]; auto.
  - intros n ns name lane Hn H fuel _. apply (reads_prefixed _ 253 n); [auto | exact Hn|].
    pose proof (nameAt_range _ _ _ _ H) as Hr. cbn [List.length laneNames] in Hr.
    assert (prefixedName 253 n = None /\ vectorAccessName n = None) as [-> ->].
    { assert (Hall : forallb (fun k => let n := Z.of_nat k in
        match prefixedName 253 n, vectorAccessName n with None, None => true | _, _ => false end) (seq 21 14) = true)
        by (vm_compute; reflexivity).
      rewrite forallb_forall in Hall. specialize (Hall (Z.to_nat n)). cbv zeta in Hall. rewrite Z2Nat.id in Hall by lia.
      specialize (Hall ltac:(apply in_seq; lia)).
      destruct (prefixedName 253 n); [discriminate|]. destruct (vectorAccessName n); [discriminate | auto]. }
    rewrite H. apply (decodes_bind_ret _ (fun lane => Lane name lane)), decodes_byte.
  - intros n bs Hn fuel _. apply reads_opcode; [reflexivity|]. apply (decodes_bind_ret _ (fun n => ConstI32 n)), Hn.
  - intros n bs Hn fuel _. apply reads_opcode; [reflexivity|]. apply (decodes_bind_ret _ (fun n => ConstI64 n)), Hn.
  - intros b name n bs H Hn fuel _. apply reads_indexed; assumption.
  - intros t table bs cs Ht Htable fuel _. apply reads_opcode; [reflexivity|].
    apply (decodes_bind _ _ _ _ _ _ Ht), (decodes_bind_ret _ (fun table => CallIndirect t table)), Htable.
  - intros b name tb t body bs H Ht _ IH fuel Hf. apply (reads_nested _ _ _ _ t); [exact H | exact Ht |].
    apply IH. cbn in Hf. rewrite length_app in Hf. cbn in Hf. lia.
  - intros tb t yes bs Ht _ IH fuel Hf. apply reads_opcode; [reflexivity|]. apply decodes_if; [exact Ht|].
    apply IH. cbn in Hf. rewrite length_app in Hf. cbn in Hf. lia.
  - intros tb t yes no bs cs Ht _ IHy _ IHn fuel Hf. apply reads_opcode; [reflexivity|].
    cbn in Hf. rewrite !length_app in Hf. cbn in Hf. rewrite length_app in Hf.
    apply decodes_if_else; [exact Ht | apply IHy; lia | apply IHn; lia].
  - intros fuel Hf stop Hs rest. destruct fuel as [|fuel]; [lia|]. cbn [app decodeInstrs].
    unfold ends in Hs. rewrite Hs. reflexivity.
  - intros i il bs cs _ IHi _ IHs fuel Hf stop Hs rest. destruct fuel as [|fuel]; [lia|]. rewrite length_app in Hf.
    destruct (IHi fuel ltac:(lia)) as (b & tl & -> & He & Hd). cbn [List.length] in Hf.
    cbn [app decodeInstrs]. unfold ends in He. rewrite He, <- !app_assoc, Hd.
    rewrite (app_assoc cs [stop]), (IHs fuel ltac:(lia) stop Hs). reflexivity.
Qed.

Lemma decodes_expr il bs : codes il bs -> decodes decodeExpr il (bs ++ [11]).
Proof.
  intros H rest. unfold decodeExpr.
  rewrite (proj2 codes_decode _ _ H (S (List.length ((bs ++ [11]) ++ rest)))); [reflexivity | | reflexivity].
  rewrite !length_app. lia.
Qed.

(** ** Vectors, names and sections *)

Lemma decodes_name l : Z.of_nat (List.length l) < 2 ^ 32 -> decodes decodeName l (appendName [] l).
Proof.
  intros Hl. unfold appendName. rewrite u32_small by lia. apply (decodes_bind _ _ (Z.of_nat (List.length l))).
  - apply decodes_u32. lia.
  - rewrite Nat2Z.id. apply decodes_take.
Qed.

Lemma decodes_vec {A} (d : decoder A) l bss :
  Forall2 (decodes d) l bss -> Z.of_nat (List.length l) < 2 ^ 32 ->
  decodes (decodeVec d) l (appendU32 [] (Z.of_nat (List.length l)) ++ List.concat bss).
Proof.
  intros H Hl. apply (decodes_bind _ _ (Z.of_nat (List.length l))).
  - apply decodes_u32. lia.
  - rewrite Nat2Z.id. apply decodes_times, H.
Qed.

Lemma decodes_sized {A} (d : decoder A) a bs :
  decodes d a bs -> Z.of_nat (List.length bs) < 2 ^ 32 -> decodes (decodeSized d) a (appendName [] bs).
Proof.
  intros Hd Hl. rewrite <- (app_nil_r (appendName [] bs)). apply (decodes_bind _ _ bs _ _ _ (decodes_name _ Hl)).
  rewrite (decodes_whole _ _ _ Hd). apply decodes_ret.
Qed.

(** The sections that are still to come have higher numbers. *)
Definition above (id : Z) (bs : list Z) : Prop := match bs with [] => True | b :: _ => id < b end.

Definition sectionReads {A} (id : Z) (d : decoder A) (l : list A) (bs : list Z) : Prop :=
  forall rest, above id rest ->
    decodeSection id d (bs ++ rest) = Some (l, rest) /\ forall id', id' < id -> above id' (bs ++ rest).

Lemma above_le id id' bs : id' < id -> above id bs -> above id' bs.
Proof. destruct bs; cbn; lia. Qed.

Lemma section_reads {A} id (d : decoder A) l payload :
  (payload = [] -> l = []) -> (payload <> [] -> decodes (decodeVec d) l payload) ->
  Z.of_nat (List.length payload) < 2 ^ 32 -> sectionReads id d l (appendSection [] id payload).
Proof.
  intros Hnil Hd Hl rest Hr. destruct payload as [|b payload].
  - rewrite (Hnil eq_refl). cbn [appendSection app]. split; [|intros id' Hid; exact (above_le _ _ _ Hid Hr)].
    destruct rest as [|c rest]; [reflexivity|]. cbn in Hr |- *. rewrite (proj2 (Z.eqb_neq _ _)) by lia. reflexivity.
  - set (p := b :: payload) in *.
    assert (appendSection [] id p = id :: appendName [] p) as -> by reflexivity.
    split; [|intros id' Hid; exact Hid]. cbn [app decodeSection]. rewrite Z.eqb_refl.
    apply (decodes_sized (decodeVec d)); [apply Hd; discriminate | exact Hl].
Qed.
