(* ===== verification/WasmBinary.v ===== *)
(** * The index spaces of a wasm binary ([internal/wasm/binary.go])

    [lowerBinaryModule] walks the declarations of a parsed module four times: the
    types, the imports, the functions, and all that can refer to them.  Names are
    resolved to indices in maps; signatures that are not declared are interned.
    [errorf] keeps the start of its node, the format and the arguments.

    The instructions, the sections and [Binary] are in [WasmInstruction]. *)

From stdpp Require Import base list strings gmap.
From Stdlib Require Import ZArith Lia String Ascii.
From S2P Require Import Prelude GoStd WasmModule WasmBytes.

#[local] Open Scope list_scope.

(** ** State *)

Definition wasmI32 : Z := 127.
Definition wasmI64 : Z := 126.
Definition wasmF32 : Z := 125.
Definition wasmF64 : Z := 124.
Definition wasmV128 : Z := 123.
Definition wasmFuncRef : Z := 112.

Record binaryFuncType : Type := mkFuncType { params : list Z; results : list Z }.
Record binaryImport : Type := mkImport { impModule : list Z; impName : list Z; impType : Z }.
Record binaryNamedType : Type := mkNamedType { ntName : string; ntCode : Z }.
Record binaryFunction : Type := mkFunction {
  fnNode : nat; fnName : string; fnType : Z; fnParams : list binaryNamedType; fnLocals : list binaryNamedType }.
Record binaryGlobal : Type := mkGlobal { glName : string; glCode : Z; glMutable : bool; glInit : nat }.
Record binaryExport : Type := mkExport { exName : list Z; exKind : Z; exIndex : Z }.
Record binaryElement : Type := mkElement { elOffset : nat; elFunctions : list Z }.
Record binaryData : Type := mkData { daOffset : nat; daBytes : list Z }.

(** A table or a memory is its minimum. *)
Record binaryModule : Type := mkBinary {
  bTypes : list binaryFuncType;
  bTypeNames : gmap string Z;
  bImports : list binaryImport;
  bFunctions : list binaryFunction;
  bFunctionNames : gmap string Z;
  bTables : list Z;
  bMemories : list Z;
  bGlobals : list binaryGlobal;
  bGlobalNames : gmap string Z;
  bExports : list binaryExport;
  bElements : list binaryElement;
  bData : list binaryData
}.

Definition emptyBinary : binaryModule := mkBinary [] ∅ [] [] ∅ [] [] [] ∅ [] [] [].

(** [m.types = append(m.types, …)], [m.typeNames[name] = …] and so on. *)
Definition putType (m : binaryModule) (t : binaryFuncType) : binaryModule :=
  mkBinary (bTypes m ++ [t]) (bTypeNames m) (bImports m) (bFunctions m) (bFunctionNames m) (bTables m) (bMemories m) (bGlobals m) (bGlobalNames m) (bExports m) (bElements m) (bData m).
Definition putTypeName (m : binaryModule) (name : string) (index : Z) : binaryModule :=
  mkBinary (bTypes m) (<[name := index]> (bTypeNames m)) (bImports m) (bFunctions m) (bFunctionNames m) (bTables m) (bMemories m) (bGlobals m) (bGlobalNames m) (bExports m) (bElements m) (bData m).
Definition putImport (m : binaryModule) (i : binaryImport) : binaryModule :=
  mkBinary (bTypes m) (bTypeNames m) (bImports m ++ [i]) (bFunctions m) (bFunctionNames m) (bTables m) (bMemories m) (bGlobals m) (bGlobalNames m) (bExports m) (bElements m) (bData m).
Definition putFunction (m : binaryModule) (f : binaryFunction) : binaryModule :=
  mkBinary (bTypes m) (bTypeNames m) (bImports m) (bFunctions m ++ [f]) (bFunctionNames m) (bTables m) (bMemories m) (bGlobals m) (bGlobalNames m) (bExports m) (bElements m) (bData m).
Definition putFunctionName (m : binaryModule) (name : string) (index : Z) : binaryModule :=
  mkBinary (bTypes m) (bTypeNames m) (bImports m) (bFunctions m) (<[name := index]> (bFunctionNames m)) (bTables m) (bMemories m) (bGlobals m) (bGlobalNames m) (bExports m) (bElements m) (bData m).
Definition putTable (m : binaryModule) (minimum : Z) : binaryModule :=
  mkBinary (bTypes m) (bTypeNames m) (bImports m) (bFunctions m) (bFunctionNames m) (bTables m ++ [minimum]) (bMemories m) (bGlobals m) (bGlobalNames m) (bExports m) (bElements m) (bData m).
Definition putMemory (m : binaryModule) (minimum : Z) : binaryModule :=
  mkBinary (bTypes m) (bTypeNames m) (bImports m) (bFunctions m) (bFunctionNames m) (bTables m) (bMemories m ++ [minimum]) (bGlobals m) (bGlobalNames m) (bExports m) (bElements m) (bData m).
Definition putGlobal (m : binaryModule) (g : binaryGlobal) : binaryModule :=
  mkBinary (bTypes m) (bTypeNames m) (bImports m) (bFunctions m) (bFunctionNames m) (bTables m) (bMemories m) (bGlobals m ++ [g]) (bGlobalNames m) (bExports m) (bElements m) (bData m).
Definition putGlobalName (m : binaryModule) (name : string) (index : Z) : binaryModule :=
  mkBinary (bTypes m) (bTypeNames m) (bImports m) (bFunctions m) (bFunctionNames m) (bTables m) (bMemories m) (bGlobals m) (<[name := index]> (bGlobalNames m)) (bExports m) (bElements m) (bData m).
Definition putExport (m : binaryModule) (e : binaryExport) : binaryModule :=
  mkBinary (bTypes m) (bTypeNames m) (bImports m) (bFunctions m) (bFunctionNames m) (bTables m) (bMemories m) (bGlobals m) (bGlobalNames m) (bExports m ++ [e]) (bElements m) (bData m).
Definition putElement (m : binaryModule) (e : binaryElement) : binaryModule :=
  mkBinary (bTypes m) (bTypeNames m) (bImports m) (bFunctions m) (bFunctionNames m) (bTables m) (bMemories m) (bGlobals m) (bGlobalNames m) (bExports m) (bElements m ++ [e]) (bData m).
Definition putData (m : binaryModule) (d : binaryData) : binaryModule :=
  mkBinary (bTypes m) (bTypeNames m) (bImports m) (bFunctions m) (bFunctionNames m) (bTables m) (bMemories m) (bGlobals m) (bGlobalNames m) (bExports m) (bElements m) (bData m ++ [d]).

Definition count {A} (l : list A) : Z := u32 (Z.of_nat (List.length l)).

(** ** Reading nodes *)

Section Source.
Variable source : WatModule.

(** [errorf] *)
Definition errorf {A} (index : nat) (format : string) (args : list string) : result fault A :=
  let* n := node source index in Err (Located (start n) format args).

Definition isKind (index : nat) (k : moduleNodeKind) : result fault bool :=
  let* k' := nodeKind source index in Ok (bool_decide (k' = k)).

(** [strings.HasPrefix(name, "$")] *)
Definition symbolic (name : string) : bool := HasPrefix name "$".

(** [valueType] *)
Definition valueType (index : nat) : result fault Z :=
  let* atom := isKind index moduleAtom in
  if negb atom then errorf index "expected value type" [] else
  let* t := nodeText source index in
  if String.eqb t "i32" then Ok wasmI32
  else if String.eqb t "i64" then Ok wasmI64
  else if String.eqb t "f32" then Ok wasmF32
  else if String.eqb t "f64" then Ok wasmF64
  else if String.eqb t "v128" then Ok wasmV128
  else errorf index "unsupported value type" [].

(** [unsigned] *)
Definition unsigned (index : nat) : result fault Z :=
  let* atom := isKind index moduleAtom in
  if negb atom then errorf index "expected unsigned integer" [] else
  let* t := nodeText source index in
  match ParseUint t 32 with
  | Some value => Ok value
  | None => errorf index "invalid unsigned integer" []
  end.

(** [signed]; every call asks for 64 bits. *)
Definition signed (index : nat) : result fault Z :=
  let* atom := isKind index moduleAtom in
  if negb atom then errorf index "expected signed integer" [] else
  let* t := nodeText source index in
  match ParseInt0 t, ParseUint0 t 64 with
  | Some value, _ => Ok value
  | None, Some value => Ok (wrap64 value)
  | None, None => errorf index "invalid signed integer %q" [t]
  end.

(** [functionIndex], [globalIndex] and [typeIndex], which differ in their map and
    their messages. *)
Definition lookupIndex (expected unknown : string) (names : gmap string Z) (index : nat) : result fault Z :=
  let* atom := isKind index moduleAtom in
  if negb atom then errorf index expected [] else
  let* t := nodeText source index in
  if symbolic t then
    match names !! t with Some value => Ok value | None => errorf index unknown [t] end
  else unsigned index.

Definition functionIndex (m : binaryModule) : nat -> result fault Z :=
  lookupIndex "expected function reference" "unknown function %s" (bFunctionNames m).

Definition globalIndex (m : binaryModule) : nat -> result fault Z :=
  lookupIndex "expected global reference" "unknown global %s" (bGlobalNames m).

Definition typeIndex (m : binaryModule) : nat -> result fault Z :=
  lookupIndex "expected type reference" "unknown type %s" (bTypeNames m).

(** [inlineExportName] *)
Definition inlineExportName (index : nat) : result fault (list Z) :=
  let* cs := childrenOf source index in
  match cs with
  | [_; name] =>
      let* quoted := isKind name moduleString in
      if quoted then ModuleStringBytes source name else errorf index "invalid inline export" []
  | _ => errorf index "invalid inline export" []
  end.

(** The loop of [parseNamedTypes]. *)
Fixpoint namedTypes (name : string) (cs : list nat) : result fault (list binaryNamedType) :=
  match cs with
  | [] => Ok []
  | c :: cs =>
      let* atom := isKind c moduleAtom in
      if negb atom then errorf c "expected value type" [] else
      let* typeCode := valueType c in
      let* values := namedTypes name cs in
      Ok (mkNamedType name typeCode :: values)
  end.

(** [parseNamedTypes] *)
Definition parseNamedTypes (index : nat) (allowName : bool) : result fault (list binaryNamedType) :=
  let* cs := childrenOf source index in
  match cs with
  | _ :: c :: cs =>
      let* atom := if allowName then isKind c moduleAtom else Ok false in
      let* named := if atom then let* t := nodeText source c in Ok (symbolic t) else Ok false in
      if named then
        let* name := nodeText source c in
        if negb (List.length cs =? 1)%nat then errorf index "named value must have one type" []
        else namedTypes name cs
      else namedTypes "" (c :: cs)
  | _ => let* head := listHead source index in errorf index "empty %s declaration" [head]
  end.

(** What [parseFunctionType] has read so far: parameters, results and locals. *)
Record signature : Type := mkSignature {
  sgParams : list binaryNamedType; sgResults : list Z; sgLocals : list binaryNamedType }.

(** The loop of [parseFunctionType]. *)
Fixpoint functionParts (s : signature) (cs : list nat) : result fault signature :=
  match cs with
  | [] => Ok s
  | c :: cs =>
      let* head := listHead source c in
      if String.eqb head "param" then
        let* values := parseNamedTypes c true in
        functionParts (mkSignature (sgParams s ++ values) (sgResults s) (sgLocals s)) cs
      else if String.eqb head "result" then
        let* values := parseNamedTypes c false in
        functionParts (mkSignature (sgParams s) (sgResults s ++ map ntCode values) (sgLocals s)) cs
      else if String.eqb head "local" then
        let* values := parseNamedTypes c true in
        functionParts (mkSignature (sgParams s) (sgResults s) (sgLocals s ++ values)) cs
      else functionParts s cs
  end.

(** [parseFunctionType] *)
Definition parseFunctionType (index : nat)
    : result fault (binaryFuncType * list binaryNamedType * list binaryNamedType) :=
  let* head := listHead source index in
  if negb (String.eqb head "func") then errorf index "expected func" [] else
  let* cs := childrenOf source index in
  let* s := functionParts (mkSignature [] [] []) (tail cs) in
  Ok (mkFuncType (map ntCode (sgParams s)) (sgResults s), sgParams s, sgLocals s).

(** ** Types, imports and functions *)

Definition sameType (t t' : binaryFuncType) : bool :=
  bool_decide (params t = params t') && bool_decide (results t = results t').

(** The loop of [internType]: where an equal signature is. *)
Fixpoint findType (types : list binaryFuncType) (t : binaryFuncType) (index : nat) : option nat :=
  match types with
  | [] => None
  | t' :: types => if sameType t' t then Some index else findType types t (S index)
  end.

(** [internType] *)
Definition internType (m : binaryModule) (t : binaryFuncType) : Z * binaryModule :=
  match findType (bTypes m) t 0 with
  | Some index => (u32 (Z.of_nat index), m)
  | None => (count (bTypes m), putType m t)
  end.

(** [addTypeDeclaration] *)
Definition addTypeDeclaration (m : binaryModule) (index : nat) : result fault binaryModule :=
  let* cs := childrenOf source index in
  match cs with
  | [_; nameNode; func] =>
      let* atom := isKind nameNode moduleAtom in
      let* list := isKind func moduleList in
      let* head := listHead source func in
      if negb atom || negb list || negb (String.eqb head "func") then errorf index "invalid type declaration" [] else
      let* name := nodeText source nameNode in
      if negb (symbolic name) then errorf nameNode "type name must start with `$`" [] else
      match bTypeNames m !! name with
      | Some _ => errorf nameNode "duplicate type %s" [name]
      | None =>
          let* (t, _, _) := parseFunctionType func in
          Ok (putType (putTypeName m name (count (bTypes m))) t)
      end
  | _ => errorf index "invalid type declaration" []
  end.

(** [addImport] *)
Definition addImport (m : binaryModule) (index : nat) : result fault binaryModule :=
  let* cs := childrenOf source index in
  match cs with
  | [_; moduleNode; fieldNode; func] =>
      let* quoted := isKind moduleNode moduleString in
      let* quoted' := isKind fieldNode moduleString in
      let* head := listHead source func in
      if negb quoted || negb quoted' || negb (String.eqb head "func") then errorf index "invalid function import" [] else
      let* moduleName := ModuleStringBytes source moduleNode in
      let* fieldName := ModuleStringBytes source fieldNode in
      let* (t, ps, _) := parseFunctionType func in
      let* funcChildren := childrenOf source func in
      match funcChildren with
      | _ :: nameNode :: _ =>
          let* atom := isKind nameNode moduleAtom in
          if negb atom then errorf func "imported function needs a name" [] else
          let* name := nodeText source nameNode in
          if negb (symbolic name) then errorf nameNode "function name must start with `$`" [] else
          if negb (List.length ps =? List.length (params t))%nat then errorf func "invalid imported function parameters" [] else
          match bFunctionNames m !! name with
          | Some _ => errorf nameNode "duplicate function %s" [name]
          | None =>
              let (typ, m) := internType m t in
              let m := putFunctionName m name (count (bImports m)) in
              Ok (putImport m (mkImport moduleName fieldName typ))
          end
      | _ => errorf func "imported function needs a name" []
      end
  | _ => errorf index "invalid function import" []
  end.

(** [addFunction] *)
Definition addFunction (m : binaryModule) (index : nat) : result fault binaryModule :=
  let* cs := childrenOf source index in
  match cs with
  | _ :: nameNode :: _ =>
      let* atom := isKind nameNode moduleAtom in
      if negb atom then errorf index "defined function needs a name" [] else
      let* name := nodeText source nameNode in
      if negb (symbolic name) then errorf nameNode "function name must start with `$`" [] else
      match bFunctionNames m !! name with
      | Some _ => errorf nameNode "duplicate function %s" [name]
      | None =>
          let* (t, ps, locals) := parseFunctionType index in
          let (typ, m) := internType m t in
          let functionIndex := u32 (Z.of_nat (List.length (bImports m) + List.length (bFunctions m))) in
          let m := putFunctionName m name functionIndex in
          Ok (putFunction m (mkFunction index name typ ps locals))
      end
  | _ => errorf index "defined function needs a name" []
  end.

(** ** What refers to them *)

Fixpoint functionExports (m : binaryModule) (function : Z) (cs : list nat) : result fault binaryModule :=
  match cs with
  | [] => Ok m
  | c :: cs =>
      let* head := listHead source c in
      if negb (String.eqb head "export") then functionExports m function cs else
      let* name := inlineExportName c in
      functionExports (putExport m (mkExport name 0 function)) function cs
  end.

(** [addFunctionExports] *)
Definition addFunctionExports (m : binaryModule) (index : nat) : result fault binaryModule :=
  let* cs := childrenOf source index in
  match cs with
  | _ :: nameNode :: cs =>
      let* function := functionIndex m nameNode in functionExports m function cs
  | _ => errorf index "defined function needs a name" []
  end.

(** [addTable] *)
Definition addTable (m : binaryModule) (index : nat) : result fault binaryModule :=
  let* cs := childrenOf source index in
  match cs with
  | [_; minimumNode; kindNode] =>
      let* t := nodeText source kindNode in
      if negb (String.eqb t "funcref") then errorf index "invalid table declaration" [] else
      let* minimum := unsigned minimumNode in Ok (putTable m minimum)
  | _ => errorf index "invalid table declaration" []
  end.

Fixpoint memoryParts (m : binaryModule) (memory : Z) (minimum : option Z) (cs : list nat)
    : result fault (binaryModule * option Z) :=
  match cs with
  | [] => Ok (m, minimum)
  | c :: cs =>
      let* head := listHead source c in
      if String.eqb head "export" then
        let* name := inlineExportName c in
        memoryParts (putExport m (mkExport name 2 memory)) memory minimum cs
      else
        let* atom := isKind c moduleAtom in
        if negb atom || bool_decide (is_Some minimum) then errorf c "invalid memory declaration" [] else
        let* value := unsigned c in
        memoryParts m memory (Some value) cs
  end.

(** [addMemory] *)
Definition addMemory (m : binaryModule) (index : nat) : result fault binaryModule :=
  let* cs := childrenOf source index in
  let* (m, minimum) := memoryParts m (count (bMemories m)) None (tail cs) in
  match minimum with
  | None => errorf index "memory needs a minimum" []
  | Some value => Ok (putMemory m value)
  end.

(** [addGlobal] *)
Definition addGlobal (m : binaryModule) (index : nat) : result fault binaryModule :=
  let* cs := childrenOf source index in
  match cs with
  | [_; nameNode; typeNode; init] =>
      let* atom := isKind nameNode moduleAtom in
      let* list := isKind init moduleList in
      if negb atom || negb list then errorf index "invalid global declaration" [] else
      let* name := nodeText source nameNode in
      if negb (symbolic name) then errorf nameNode "global name must start with `$`" [] else
      match bGlobalNames m !! name with
      | Some _ => errorf nameNode "duplicate global %s" [name]
      | None =>
          let* head := listHead source typeNode in
          let* (typeNode, mutable) :=
            if String.eqb head "mut" then
              let* typeChildren := childrenOf source typeNode in
              match typeChildren with
              | [_; t] => Ok (t, true)
              | _ => errorf typeNode "invalid mutable global type" []
              end
            else Ok (typeNode, false) in
          let* typeCode := valueType typeNode in
          let m := putGlobalName m name (count (bGlobals m)) in
          Ok (putGlobal m (mkGlobal name typeCode mutable init))
      end
  | _ => errorf index "invalid global declaration" []
  end.

(** [addExport] *)
Definition addExport (m : binaryModule) (index : nat) : result fault binaryModule :=
  let* cs := childrenOf source index in
  match cs with
  | [_; nameNode; referenceNode] =>
      let* quoted := isKind nameNode moduleString in
      let* list := isKind referenceNode moduleList in
      if negb quoted || negb list then errorf index "invalid export declaration" [] else
      let* name := ModuleStringBytes source nameNode in
      let* reference := childrenOf source referenceNode in
      match reference with
      | [kindNode; targetNode] =>
          let* atom := isKind targetNode moduleAtom in
          if negb atom then errorf referenceNode "invalid export reference" [] else
          let* k := nodeText source kindNode in
          let* (kind, target) :=
            if String.eqb k "func" then let* i := functionIndex m targetNode in Ok (0%Z, i)
            else if String.eqb k "table" then let* i := unsigned targetNode in Ok (1%Z, i)
            else if String.eqb k "memory" then let* i := unsigned targetNode in Ok (2%Z, i)
            else if String.eqb k "global" then let* i := globalIndex m targetNode in Ok (3%Z, i)
            else errorf referenceNode "unsupported export kind" [] in
          Ok (putExport m (mkExport name kind target))
      | _ => errorf referenceNode "invalid export reference" []
      end
  | _ => errorf index "invalid export declaration" []
  end.

(** [addElement] *)
Definition addElement (m : binaryModule) (index : nat) : result fault binaryModule :=
  let* cs := childrenOf source index in
  match cs with
  | _ :: offset :: cs =>
      let* list := isKind offset moduleList in
      if negb list then errorf index "invalid element segment" [] else
      let* functions := map_ok (functionIndex m) cs in
      Ok (putElement m (mkElement offset functions))
  | _ => errorf index "invalid element segment" []
  end.

Definition dataPart (c : nat) : result fault (list Z) :=
  let* quoted := isKind c moduleString in
  if negb quoted then errorf c "data segment expects byte strings" [] else ModuleStringBytes source c.

(** [addData] *)
Definition addData (m : binaryModule) (index : nat) : result fault binaryModule :=
  let* cs := childrenOf source index in
  match cs with
  | _ :: offset :: first :: rest =>
      let* list := isKind offset moduleList in
      if negb list then errorf index "invalid data segment" [] else
      let* parts := map_ok dataPart (first :: rest) in
      Ok (putData m (mkData offset (List.concat parts)))
  | _ => errorf index "invalid data segment" []
  end.

(** ** The four walks *)

(** [for _, declaration := range declarations { if listHead != head { continue } … }] *)
Fixpoint eachHeaded (head : string) (add : binaryModule -> nat -> result fault binaryModule)
    (m : binaryModule) (declarations : list nat) : result fault binaryModule :=
  match declarations with
  | [] => Ok m
  | d :: declarations =>
      let* h := listHead source d in
      if negb (String.eqb h head) then eachHeaded head add m declarations else
      let* m := add m d in eachHeaded head add m declarations
  end.

(** [addTypeDeclarations], [addImports] and [addFunctions] *)
Definition addTypeDeclarations : binaryModule -> list nat -> result fault binaryModule := eachHeaded "type" addTypeDeclaration.
Definition addImports : binaryModule -> list nat -> result fault binaryModule := eachHeaded "import" addImport.
Definition addFunctions : binaryModule -> list nat -> result fault binaryModule := eachHeaded "func" addFunction.

(** The switch of [addRemainingDeclarations]. *)
Definition addRemainingDeclaration (m : binaryModule) (d : nat) : result fault binaryModule :=
  let* head := listHead source d in
  if String.eqb head "type" || String.eqb head "import" then Ok m
  else if String.eqb head "func" then addFunctionExports m d
  else if String.eqb head "table" then addTable m d
  else if String.eqb head "memory" then addMemory m d
  else if String.eqb head "global" then addGlobal m d
  else if String.eqb head "export" then addExport m d
  else if String.eqb head "elem" then addElement m d
  else if String.eqb head "data" then addData m d
  else errorf d "unsupported module declaration" [].

(** [addRemainingDeclarations] *)
Fixpoint addRemainingDeclarations (m : binaryModule) (declarations : list nat) : result fault binaryModule :=
  match declarations with
  | [] => Ok m
  | d :: declarations => let* m := addRemainingDeclaration m d in addRemainingDeclarations m declarations
  end.

(** [lowerBinaryModule] *)
Definition lowerBinaryModule : result fault binaryModule :=
  let* cs := childrenOf source (root source) in
  match cs with
  | [] => Err Panic
  | _ :: declarations =>
      let* m := addTypeDeclarations emptyBinary declarations in
      let* m := addImports m declarations in
      let* m := addFunctions m declarations in
      addRemainingDeclarations m declarations
  end.
End Source.
