(* ===== verification/WasmInstruction.v ===== *)
(** * Instructions and sections of a wasm binary ([internal/wasm/binary_instruction.go], [binary.go])

    A folded instruction is written operands first, then its opcode and its
    immediates.  [encode] is one recursion over the nodes; the functions it calls
    take it as an argument ([rec]), as they call it.  Its receiver is the encoder of
    one function: the local indices, which do not change, are the variable [locals],
    and the stack of labels, which each construct pushes for its body and pops after
    it, is an argument.  A child of a node has a smaller index, so the index bounds
    the depth. *)

From stdpp Require Import base list strings gmap.
From Stdlib Require Import ZArith Lia String Ascii.
From S2P Require Import Prelude GoStd WasmModule WasmBytes WasmBinary.

#[local] Open Scope Z_scope.
#[local] Open Scope list_scope.

(** ** Opcodes *)

(** A switch over names that answers a number. *)
Fixpoint switch {A} (op : string) (cases : list (string * A)) : option A :=
  match cases with
  | [] => None
  | (name, a) :: cases => if String.eqb op name then Some a else switch op cases
  end.

Definition among (op : string) (names : list string) : bool := existsb (String.eqb op) names.

Definition simdPrefix : Z := 253.

(** [simdLaneOpcode] *)
Definition simdLaneOpcode (op : string) : option Z := switch op
  [("i16x8.extract_lane_s", 24); ("i16x8.extract_lane_u", 25); ("i16x8.replace_lane", 26);
   ("i32x4.extract_lane", 27); ("i32x4.replace_lane", 28); ("i64x2.extract_lane", 29); ("i64x2.replace_lane", 30);
   ("f32x4.extract_lane", 31); ("f32x4.replace_lane", 32); ("f64x2.extract_lane", 33); ("f64x2.replace_lane", 34)].

(** [simdOpcodes] *)
Definition simdOpcodes : list (string * Z) :=
  [("i16x8.splat", 16); ("i32x4.splat", 17); ("i64x2.splat", 18); ("f32x4.splat", 19); ("f64x2.splat", 20);
   ("i16x8.neg", 129); ("i16x8.add", 142); ("i16x8.sub", 145); ("i16x8.mul", 149);
   ("i32x4.neg", 161); ("i32x4.add", 174); ("i32x4.sub", 177); ("i32x4.mul", 181);
   ("i64x2.neg", 193); ("i64x2.add", 206); ("i64x2.sub", 209); ("i64x2.mul", 213);
   ("f32x4.neg", 225); ("f32x4.add", 228); ("f32x4.sub", 229); ("f32x4.mul", 230); ("f32x4.div", 231);
   ("f64x2.neg", 237); ("f64x2.add", 240); ("f64x2.sub", 241); ("f64x2.mul", 242); ("f64x2.div", 243)].

(** [simdOpcode] *)
Definition simdOpcode (op : string) : option Z := switch op simdOpcodes.

(** [wideMemoryInstruction]: the opcode and the natural alignment. *)
Definition wideMemoryInstruction (op : string) : option (Z * Z) := switch op
  [("i32.load", (40, 2)); ("i64.load", (41, 3)); ("i32.load8_u", (45, 0)); ("i64.load8_u", (49, 0));
   ("i32.store", (54, 2)); ("i64.store", (55, 3)); ("i32.store8", (58, 0)); ("i64.store8", (60, 0))].

(** [narrowMemoryInstruction] *)
Definition narrowMemoryInstruction (op : string) : option (Z * Z) := switch op
  [("i64.load8_s", (48, 0)); ("i64.load16_s", (50, 1)); ("i64.load16_u", (51, 1)); ("i64.load32_s", (52, 2));
   ("i64.load32_u", (53, 2)); ("i64.store16", (61, 1)); ("i64.store32", (62, 2))].

(** [floatMemoryInstruction] *)
Definition floatMemoryInstruction (op : string) : Z * Z :=
  default (0, 0) (switch op [("f32.load", (42, 2)); ("f64.load", (43, 3)); ("f32.store", (56, 2)); ("f64.store", (57, 3))]).

(** [memoryInstruction] *)
Definition memoryInstruction (op : string) : Z * Z :=
  match wideMemoryInstruction op, narrowMemoryInstruction op with
  | Some r, _ => r
  | None, Some r => r
  | None, None => floatMemoryInstruction op
  end.

(** [floatComparisonOpcode] *)
Definition floatComparisonOpcode (op : string) : option Z := switch op
  [("f32.eq", 91); ("f32.ne", 92); ("f32.lt", 93); ("f32.gt", 94); ("f32.le", 95); ("f32.ge", 96);
   ("f64.eq", 97); ("f64.ne", 98); ("f64.lt", 99); ("f64.gt", 100); ("f64.le", 101); ("f64.ge", 102)].

(** [floatArithmeticOpcode] *)
Definition floatArithmeticOpcode (op : string) : option Z := switch op
  [("f32.neg", 140); ("f32.add", 146); ("f32.sub", 147); ("f32.mul", 148); ("f32.div", 149);
   ("f64.neg", 154); ("f64.ceil", 155); ("f64.floor", 156); ("f64.trunc", 157); ("f64.sqrt", 159);
   ("f64.add", 160); ("f64.sub", 161); ("f64.mul", 162); ("f64.div", 163)].

(** [floatConversionOpcode] *)
Definition floatConversionOpcode (op : string) : option Z := switch op
  [("f32.convert_i64_s", 180); ("f32.convert_i64_u", 181); ("f32.demote_f64", 182);
   ("f64.convert_i64_s", 185); ("f64.convert_i64_u", 186); ("f64.promote_f32", 187);
   ("i32.reinterpret_f32", 188); ("i64.reinterpret_f64", 189); ("f32.reinterpret_i32", 190); ("f64.reinterpret_i64", 191)].

(** The first answer of two tables. *)
Definition orElse (a b : option Z) : option Z := match a with Some _ => a | None => b end.

(** [floatOpcode] *)
Definition floatOpcode (op : string) : option Z :=
  orElse (floatComparisonOpcode op) (orElse (floatArithmeticOpcode op) (floatConversionOpcode op)).

(** [basicInstructionOpcode] *)
Definition basicInstructionOpcode (op : string) : option Z := switch op
  [("unreachable", 0); ("nop", 1); ("drop", 26); ("select", 27)].

(** [i32ComparisonOpcode] *)
Definition i32ComparisonOpcode (op : string) : option Z := switch op
  [("i32.eqz", 69); ("i32.eq", 70); ("i32.ne", 71); ("i32.lt_s", 72); ("i32.lt_u", 73); ("i32.gt_s", 74);
   ("i32.gt_u", 75); ("i32.le_s", 76); ("i32.le_u", 77); ("i32.ge_s", 78); ("i32.ge_u", 79)].

(** [i64ComparisonOpcode] *)
Definition i64ComparisonOpcode (op : string) : option Z := switch op
  [("i64.eqz", 80); ("i64.eq", 81); ("i64.ne", 82); ("i64.lt_s", 83); ("i64.lt_u", 84); ("i64.gt_s", 85);
   ("i64.gt_u", 86); ("i64.le_s", 87); ("i64.le_u", 88); ("i64.ge_s", 89); ("i64.ge_u", 90)].

(** [i32ArithmeticOpcode] *)
Definition i32ArithmeticOpcode (op : string) : option Z := switch op
  [("i32.add", 106); ("i32.sub", 107); ("i32.mul", 108); ("i32.div_s", 109); ("i32.div_u", 110);
   ("i32.rem_s", 111); ("i32.rem_u", 112)].

(** [i32BitOpcode] *)
Definition i32BitOpcode (op : string) : option Z := switch op
  [("i32.and", 113); ("i32.or", 114); ("i32.xor", 115); ("i32.shl", 116); ("i32.shr_s", 117); ("i32.shr_u", 118);
   ("i32.rotl", 119); ("i32.rotr", 120)].

(** [i32NumericOpcode] *)
Definition i32NumericOpcode (op : string) : option Z := orElse (i32ArithmeticOpcode op) (i32BitOpcode op).

(** [i64ArithmeticOpcode] *)
Definition i64ArithmeticOpcode (op : string) : option Z := switch op
  [("i64.add", 124); ("i64.sub", 125); ("i64.mul", 126); ("i64.div_s", 127); ("i64.div_u", 128);
   ("i64.rem_s", 129); ("i64.rem_u", 130)].

(** [i64BitOpcode] *)
Definition i64BitOpcode (op : string) : option Z := switch op
  [("i64.and", 131); ("i64.or", 132); ("i64.xor", 133); ("i64.shl", 134); ("i64.shr_s", 135); ("i64.shr_u", 136);
   ("i64.rotl", 137); ("i64.rotr", 138); ("i64.ctz", 122)].

(** [i64NumericOpcode] *)
Definition i64NumericOpcode (op : string) : option Z := orElse (i64ArithmeticOpcode op) (i64BitOpcode op).

(** [conversionOpcode] *)
Definition conversionOpcode (op : string) : option Z := switch op
  [("i32.wrap_i64", 167); ("i64.extend_i32_s", 172); ("i64.extend8_s", 194); ("i64.extend16_s", 195);
   ("i64.extend32_s", 196); ("i64.extend_i32_u", 173)].

(** [simpleInstructionOpcode] *)
Definition simpleInstructionOpcode (op : string) : option Z :=
  orElse (basicInstructionOpcode op)
    (orElse (i32ComparisonOpcode op)
      (orElse (i64ComparisonOpcode op)
        (orElse (i32NumericOpcode op)
          (orElse (i64NumericOpcode op)
            (orElse (floatOpcode op) (conversionOpcode op)))))).

(** ** Classes of instructions *)

Inductive binaryInstructionKind : Type :=
  | binarySimpleInstruction | binaryControlInstruction | binaryReferenceInstruction | binaryImmediateInstruction.

Definition controlNames : list string := ["block"; "loop"; "if"; "br"; "br_if"; "return"; "then"; "else"].

Definition referenceNames : list string :=
  ["call"; "call_indirect"; "local.get"; "local.set"; "local.tee"; "global.get"; "global.set"].

Definition memoryNames : list string :=
  ["i32.load"; "i64.load"; "i32.load8_u"; "i64.load8_u"; "i64.load8_s"; "i64.load16_s"; "i64.load16_u"; "i64.load32_s";
   "i64.load32_u"; "f32.load"; "f64.load"; "i32.store"; "i64.store"; "i32.store8"; "i64.store8"; "i64.store16";
   "i64.store32"; "f32.store"; "f64.store"].

Definition saturatingNames : list string :=
  ["i64.trunc_sat_f32_s"; "i64.trunc_sat_f32_u"; "i64.trunc_sat_f64_s"; "i64.trunc_sat_f64_u"].

(** [classifyInstruction] *)
Definition classifyInstruction (op : string) : binaryInstructionKind :=
  if among op controlNames then binaryControlInstruction
  else if among op referenceNames then binaryReferenceInstruction
  else if among op ["i32.const"; "i64.const"] || among op saturatingNames || among op memoryNames ||
          among op ["memory.size"; "memory.grow"; "memory.copy"; "memory.fill"] ||
          among op ["v128.load"; "v128.store"] then binaryImmediateInstruction
  else match simdLaneOpcode op with Some _ => binaryImmediateInstruction | None => binarySimpleInstruction end.

(** ** One function's encoder *)

Section Encoder.
Variable source : WatModule.
Variable m : binaryModule.
Variable locals : gmap string Z.

Abbreviation errorf := (errorf source).
Abbreviation bytes := (result fault (list Z)).

(** [localIndex] *)
Definition localIndex : nat -> result fault Z :=
  lookupIndex source "expected local reference" "unknown local %s" locals.

(** The loop of [labelDepth], from the innermost label out. *)
Fixpoint labelDepthFrom (inner : list string) (text : string) (depth : nat) : option nat :=
  match inner with
  | [] => None
  | label :: inner => if String.eqb label text then Some depth else labelDepthFrom inner text (S depth)
  end.

(** [labelDepth] *)
Definition labelDepth (labels : list string) (index : nat) : result fault Z :=
  let* atom := isKind source index moduleAtom in
  if negb atom then errorf index "expected branch label" [] else
  let* t := nodeText source index in
  if negb (symbolic t) then unsigned source index else
  match labelDepthFrom (rev labels) t 0 with
  | Some depth => Ok (u32 (Z.of_nat depth))
  | None => errorf index "unknown branch label %s" [t]
  end.

(** [blockType], with the children from the position on and what it leaves of them. *)
Definition blockType (cs : list nat) : result fault (Z * list nat) :=
  match cs with
  | [] => Ok (64, [])
  | c :: rest =>
      let* head := listHead source c in
      if negb (String.eqb head "result") then Ok (64, cs) else
      let* parts := childrenOf source c in
      match parts with
      | [_; t] => let* typeCode := valueType source t in Ok (typeCode, rest)
      | _ => errorf c "invalid block result" []
      end
  end.

(** The shifts that take an alignment to its exponent. *)
Fixpoint alignmentExponent (fuel : nat) (value : Z) : Z :=
  match fuel with
  | O => 0
  | S fuel => if 1 <? value then 1 + alignmentExponent fuel (Z.shiftr value 1) else 0
  end.

Record memoryArguments : Type := mkArguments { maAlign : Z; maOffset : Z; maOperands : list nat }.

(** The loop of [encodeMemory] over the children. *)
Fixpoint memoryImmediates (a : memoryArguments) (cs : list nat) : result fault memoryArguments :=
  match cs with
  | [] => Ok a
  | c :: cs =>
      let operand := mkArguments (maAlign a) (maOffset a) (maOperands a ++ [c]) in
      let* atom := isKind source c moduleAtom in
      if negb atom then memoryImmediates operand cs else
      let* t := nodeText source c in
      if HasPrefix t "offset=" then
        match ParseUint (TrimPrefix t "offset=") 32 with
        | Some value => memoryImmediates (mkArguments (maAlign a) value (maOperands a)) cs
        | None => errorf c "invalid memory offset" []
        end
      else if HasPrefix t "align=" then
        match ParseUint (TrimPrefix t "align=") 32 with
        | Some value =>
            if (value =? 0) || negb (Z.land value (value - 1) =? 0) then errorf c "invalid memory alignment" []
            else memoryImmediates (mkArguments (alignmentExponent 32 value) (maOffset a) (maOperands a)) cs
        | None => errorf c "invalid memory alignment" []
        end
      else memoryImmediates operand cs
  end.

Section Step.
Variable rec : list string -> list Z -> nat -> bytes.

(** [encodeSequence] *)
Fixpoint encodeSequence (labels : list string) (out : list Z) (nodes : list nat) : bytes :=
  match nodes with
  | [] => Ok out
  | n :: nodes => let* out := rec labels out n in encodeSequence labels out nodes
  end.

(** [encodeWithOpcode] *)
Definition encodeWithOpcode labels out (operands : list nat) (opcode : Z) : bytes :=
  let* out := encodeSequence labels out operands in Ok (out ++ [opcode]).

(** [encodeWithSIMDOpcode] *)
Definition encodeWithSIMDOpcode labels out (operands : list nat) (subopcode : Z) : bytes :=
  let* out := encodeSequence labels out operands in Ok (appendU32 (out ++ [simdPrefix]) subopcode).

(** [encodeBlock]; [cs] is the children without the name of the instruction. *)
Definition encodeBlock labels out (cs : list nat) (opcode : Z) : bytes :=
  let* (label, cs) :=
    match cs with
    | c :: rest =>
        let* atom := isKind source c moduleAtom in
        if negb atom then Ok ("", cs) else
        let* t := nodeText source c in
        if symbolic t then Ok (t, rest) else Ok ("", cs)
    | [] => Ok ("", cs)
    end in
  let* (typ, cs) := blockType cs in
  let* out := encodeSequence (labels ++ [label]) (out ++ [opcode; typ]) cs in
  Ok (out ++ [11]).

(** [encodeIf] *)
Definition encodeIf labels out (index : nat) (cs : list nat) : bytes :=
  let invalid := errorf index "invalid if instruction" [] in
  match blockType cs with
  | Err f => if isError f then invalid else Err f
  | Ok (typ, cs) =>
      match cs with
      | condition :: yes :: rest =>
          let* head := listHead source yes in
          if negb (String.eqb head "then") then invalid else
          let* out := rec labels out condition in
          let labels := labels ++ [""] in
          let* out := rec labels (out ++ [4; typ]) yes in
          match rest with
          | [] => Ok (out ++ [11])
          | [no] =>
              let* head := listHead source no in
              if negb (String.eqb head "else") then errorf no "invalid else instruction" [] else
              let* out := rec labels (out ++ [5]) no in
              Ok (out ++ [11])
          | _ => invalid
          end
      | _ => invalid
      end
  end.

(** [encodeBranch] *)
Definition encodeBranch labels out (index : nat) (cs : list nat) (conditional : bool) : bytes :=
  match conditional, cs with
  | false, [target] =>
      let* depth := labelDepth labels target in Ok (appendU32 (out ++ [12]) depth)
  | true, [target; condition] =>
      let* out := rec labels out condition in
      let* depth := labelDepth labels target in Ok (appendU32 (out ++ [13]) depth)
  | _, _ => errorf index "invalid branch instruction" []
  end.

(** [encodeControl] *)
Definition encodeControl labels out (index : nat) (cs : list nat) (op : string) : bytes :=
  if String.eqb op "block" then encodeBlock labels out cs 2
  else if String.eqb op "loop" then encodeBlock labels out cs 3
  else if String.eqb op "if" then encodeIf labels out index cs
  else if String.eqb op "br" || String.eqb op "br_if" then encodeBranch labels out index cs (String.eqb op "br_if")
  else if String.eqb op "return" then encodeWithOpcode labels out cs 15
  else encodeSequence labels out cs.

(** [encodeCall] *)
Definition encodeCall labels out (index : nat) (cs : list nat) : bytes :=
  match cs with
  | f :: args =>
      let* out := encodeSequence labels out args in
      let* function := functionIndex source m f in
      Ok (appendU32 (out ++ [16]) function)
  | [] => errorf index "call needs a function" []
  end.

(** [encodeCallIndirect] *)
Definition encodeCallIndirect labels out (index : nat) (cs : list nat) : bytes :=
  let invalid := errorf index "call_indirect needs a type and table index" [] in
  match cs with
  | t :: (_ :: _) as args =>
      let* head := listHead source t in
      if negb (String.eqb head "type") then invalid else
      let* parts := childrenOf source t in
      match parts with
      | [_; name] =>
          let* out := encodeSequence labels out (tail cs) in
          let* typ := typeIndex source m name in
          Ok (appendU32 (appendU32 (out ++ [17]) typ) 0)
      | _ => errorf t "invalid call_indirect type" []
      end
  | _ => invalid
  end.

(** [encodeLocal] *)
Definition encodeLocal labels out (index : nat) (cs : list nat) (op : string) : bytes :=
  let* (out, name) :=
    match String.eqb op "local.get", cs with
    | true, [name] => Ok (out, name)
    | false, [name; value] => let* out := rec labels out value in Ok (out, name)
    | _, _ => errorf index "invalid %s instruction" [op]
    end in
  let* local := localIndex name in
  let opcode := if String.eqb op "local.get" then [32]
                else if String.eqb op "local.set" then [33]
                else if String.eqb op "local.tee" then [34] else [] in
  Ok (appendU32 (out ++ opcode) local).

(** [encodeGlobal] *)
Definition encodeGlobal labels out (index : nat) (cs : list nat) (op : string) : bytes :=
  let* (out, name) :=
    match String.eqb op "global.set", cs with
    | false, [name] => Ok (out, name)
    | true, [name; value] => let* out := rec labels out value in Ok (out, name)
    | _, _ => errorf index "invalid %s instruction" [op]
    end in
  let* global := globalIndex source m name in
  Ok (appendU32 (out ++ [if String.eqb op "global.get" then 35 else 36]) global).

(** [encodeReference] *)
Definition encodeReference labels out (index : nat) (cs : list nat) (op : string) : bytes :=
  if String.eqb op "call" then encodeCall labels out index cs
  else if String.eqb op "call_indirect" then encodeCallIndirect labels out index cs
  else if among op ["local.get"; "local.set"; "local.tee"] then encodeLocal labels out index cs op
  else encodeGlobal labels out index cs op.

(** [encodeConstant] *)
Definition encodeConstant out (index : nat) (cs : list nat) (op : string) : bytes :=
  match cs with
  | [c] =>
      let* value := signed source c in
      if String.eqb op "i32.const" then Ok (appendI32 (out ++ [65]) (wrap32 value))
      else Ok (appendI64 (out ++ [66]) value)
  | _ => errorf index "invalid %s instruction" [op]
  end.

(** [encodeSaturatingTruncation] *)
Definition encodeSaturatingTruncation labels out (index : nat) (cs : list nat) (op : string) : bytes :=
  match cs with
  | [operand] =>
      let* out := encodeSequence labels out [operand] in
      let number := if String.eqb op "i64.trunc_sat_f32_s" then 4
                    else if String.eqb op "i64.trunc_sat_f32_u" then 5
                    else if String.eqb op "i64.trunc_sat_f64_s" then 6 else 7 in
      Ok (appendU32 (out ++ [252]) number)
  | _ => errorf index "invalid %s instruction" [op]
  end.

(** [encodeVectorMemory] *)
Definition encodeVectorMemory labels out (cs : list nat) (op : string) : bytes :=
  let* out := encodeSequence labels out cs in
  let out := appendU32 (out ++ [simdPrefix]) (if String.eqb op "v128.store" then 11 else 0) in
  Ok (appendU32 (appendU32 out 4) 0).

(** [encodeSIMDLane] *)
Definition encodeSIMDLane labels out (index : nat) (cs : list nat) (subopcode : Z) : bytes :=
  match cs with
  | laneNode :: (_ :: _) as operands =>
      let* lane := unsigned source laneNode in
      let* out := encodeSequence labels out (tail cs) in
      Ok (appendU32 (out ++ [simdPrefix]) subopcode ++ [lane mod 256])
  | _ => errorf index "lane instruction expects a lane and operands" []
  end.

(** [encodeMemory] *)
Definition encodeMemory labels out (cs : list nat) (op : string) : bytes :=
  let (opcode, alignment) := memoryInstruction op in
  let* a := memoryImmediates (mkArguments alignment 0 []) cs in
  let* out := encodeSequence labels out (maOperands a) in
  Ok (appendU32 (appendU32 (out ++ [opcode]) (maAlign a)) (maOffset a)).

(** [encodeMemorySize] *)
Definition encodeMemorySize labels out (index : nat) (cs : list nat) (op : string) : bytes :=
  if String.eqb op "memory.size" then
    match cs with [] => Ok (out ++ [63; 0]) | _ => errorf index "invalid memory.size instruction" [] end
  else
    match cs with
    | [pages] => let* out := rec labels out pages in Ok (out ++ [64; 0])
    | _ => errorf index "invalid memory.grow instruction" []
    end.

(** [encodeBulkMemory] *)
Definition encodeBulkMemory labels out (index : nat) (cs : list nat) (op : string) : bytes :=
  if negb (List.length cs =? 3)%nat then errorf index "invalid %s instruction" [op] else
  let* out := encodeSequence labels out cs in
  if String.eqb op "memory.copy" then Ok (appendU32 (out ++ [252]) 10 ++ [0; 0])
  else Ok (appendU32 (out ++ [252]) 11 ++ [0]).

(** [encodeImmediateOperation] *)
Definition encodeImmediateOperation labels out (index : nat) (cs : list nat) (op : string) : bytes :=
  if among op ["i32.const"; "i64.const"] then encodeConstant out index cs op
  else if among op memoryNames then encodeMemory labels out cs op
  else if among op ["v128.load"; "v128.store"] then encodeVectorMemory labels out cs op
  else
    match simdLaneOpcode op with
    | Some subopcode => encodeSIMDLane labels out index cs subopcode
    | None =>
        if among op ["memory.size"; "memory.grow"] then encodeMemorySize labels out index cs op
        else if among op saturatingNames then encodeSaturatingTruncation labels out index cs op
        else encodeBulkMemory labels out index cs op
    end.

(** The body of [encode]. *)
Definition encodeNode (labels : list string) (out : list Z) (index : nat) : bytes :=
  let* list := isKind source index moduleList in
  if negb list then errorf index "instruction must be a list" [] else
  let* children := childrenOf source index in
  match children with
  | [] => errorf index "instruction cannot be empty" []
  | c :: cs =>
      let* op := nodeText source c in
      match classifyInstruction op with
      | binaryControlInstruction => encodeControl labels out index cs op
      | binaryReferenceInstruction => encodeReference labels out index cs op
      | binaryImmediateInstruction => encodeImmediateOperation labels out index cs op
      | binarySimpleInstruction =>
          match simdOpcode op, simpleInstructionOpcode op with
          | Some subopcode, _ => encodeWithSIMDOpcode labels out cs subopcode
          | None, Some opcode => encodeWithOpcode labels out cs opcode
          | None, None => errorf index "unsupported instruction %s" [op]
          end
      end
  end.
End Step.

(** [encode] *)
Fixpoint encode (fuel : nat) (labels : list string) (out : list Z) (index : nat) : bytes :=
  match fuel with
  | O => Err Unfinished
  | S fuel => encodeNode (encode fuel) labels out index
  end.

(** The loop of [encodeFunctionBody]. *)
Fixpoint bodyInstructions (body : list Z) (cs : list nat) : bytes :=
  match cs with
  | [] => Ok body
  | c :: cs =>
      let* head := listHead source c in
      if among head ["param"; "result"; "local"; "export"; "type"] then bodyInstructions body cs else
      let* atom := isKind source c moduleAtom in
      let* name := if atom then let* t := nodeText source c in Ok (symbolic t) else Ok false in
      if name then bodyInstructions body cs else
      let* body := encode (S c) [] body c in
      bodyInstructions body cs
  end.
End Encoder.

(** ** Functions *)

(** [addLocal]: the map and the count, and the root's place in an error. *)
Definition addLocal (source : WatModule) (e : gmap string Z * Z) (name : string) : result fault (gmap string Z * Z) :=
  let (locals, index) := e in
  let localCount := u32 (index + 1) in
  if String.eqb name "" then Ok (locals, localCount) else
  match locals !! name with
  | Some _ => errorf source (root source) "duplicate local %s" [name]
  | None => Ok (<[name := index]> locals, localCount)
  end.

Fixpoint addLocals (source : WatModule) (e : gmap string Z * Z) (l : list binaryNamedType)
    : result fault (gmap string Z * Z) :=
  match l with
  | [] => Ok e
  | t :: l => let* e := addLocal source e (ntName t) in addLocals source e l
  end.

(** The loop of [encodeLocalGroups]: the groups so far. *)
Definition addGroup (groups : list (Z * Z)) (t : binaryNamedType) : list (Z * Z) :=
  match last groups with
  | Some (n, code) =>
      if code =? ntCode t then take (List.length groups - 1) groups ++ [(u32 (n + 1), code)]
      else groups ++ [(1, ntCode t)]
  | None => groups ++ [(1, ntCode t)]
  end.

Definition localGroups (l : list binaryNamedType) : list (Z * Z) := fold_left addGroup l [].

(** [encodeLocalGroups] *)
Definition encodeLocalGroups (l : list binaryNamedType) : list Z :=
  match l with
  | [] => [0]
  | _ =>
      let groups := localGroups l in
      fold_left (fun out '(n, code) => appendU32 out n ++ [code]) groups (appendU32 [] (count groups))
  end.

(** [encodeFunctionBody] *)
Definition encodeFunctionBody (source : WatModule) (m : binaryModule) (f : binaryFunction) : result fault (list Z) :=
  let* e := addLocals source (∅, 0) (fnParams f) in
  let* e := addLocals source e (fnLocals f) in
  let* cs := childrenOf source (fnNode f) in
  match cs with
  | [] => Err Panic
  | _ :: cs =>
      let* body := bodyInstructions source m (fst e) (encodeLocalGroups (fnLocals f)) cs in
      Ok (body ++ [11])
  end.

(** ** Sections ([binary.go]) *)

(** [encodeConstExpression] *)
Definition encodeConstExpression (source : WatModule) (out : list Z) (index : nat) : result fault (list Z) :=
  let* list := isKind source index moduleList in
  if negb list then errorf source index "constant expression must be a list" [] else
  let* cs := childrenOf source index in
  match cs with
  | [_; c] =>
      let* value := signed source c in
      let* head := listHead source index in
      if String.eqb head "i32.const" then Ok (appendI32 (out ++ [65]) (wrap32 value) ++ [11])
      else if String.eqb head "i64.const" then Ok (appendI64 (out ++ [66]) value ++ [11])
      else errorf source index "unsupported constant expression" []
  | _ => errorf source index "invalid constant expression" []
  end.

(** A section: nothing for an empty list, else the number of elements and each in
    order. *)
Definition encodeEach {A} (put : list Z -> A -> result fault (list Z)) (l : list A) : result fault (list Z) :=
  let fix each out l :=
    match l with
    | [] => Ok out
    | a :: l => let* out := put out a in each out l
    end in
  match l with
  | [] => Ok []
  | _ => each (appendU32 [] (count l)) l
  end.

Definition putFuncType (out : list Z) (t : binaryFuncType) : list Z :=
  appendU32 (appendU32 (out ++ [96]) (count (params t)) ++ params t) (count (results t)) ++ results t.

(** [encodeTypes] *)
Definition encodeTypes (m : binaryModule) : result fault (list Z) :=
  encodeEach (fun out t => Ok (putFuncType out t)) (bTypes m).

(** [encodeImports] *)
Definition encodeImports (m : binaryModule) : result fault (list Z) :=
  encodeEach (fun out i => Ok (appendU32 (appendName (appendName out (impModule i)) (impName i) ++ [0]) (impType i))) (bImports m).

(** [encodeFunctionTypes] *)
Definition encodeFunctionTypes (m : binaryModule) : result fault (list Z) :=
  encodeEach (fun out f => Ok (appendU32 out (fnType f))) (bFunctions m).

(** [encodeTables] *)
Definition encodeTables (m : binaryModule) : result fault (list Z) :=
  encodeEach (fun out minimum => Ok (appendU32 (out ++ [wasmFuncRef; 0]) minimum)) (bTables m).

(** [encodeMemories] *)
Definition encodeMemories (m : binaryModule) : result fault (list Z) :=
  encodeEach (fun out minimum => Ok (appendU32 (out ++ [0]) minimum)) (bMemories m).

(** [encodeGlobals] *)
Definition encodeGlobals (source : WatModule) (m : binaryModule) : result fault (list Z) :=
  encodeEach (fun out g =>
    encodeConstExpression source (out ++ [glCode g; if glMutable g then 1 else 0]) (glInit g)) (bGlobals m).

(** [encodeExports] *)
Definition encodeExports (m : binaryModule) : result fault (list Z) :=
  encodeEach (fun out e => Ok (appendU32 (appendName out (exName e) ++ [exKind e]) (exIndex e))) (bExports m).

(** [encodeElements] *)
Definition encodeElements (source : WatModule) (m : binaryModule) : result fault (list Z) :=
  encodeEach (fun out e =>
    let* out := encodeConstExpression source (out ++ [0]) (elOffset e) in
    Ok (fold_left appendU32 (elFunctions e) (appendU32 out (count (elFunctions e))))) (bElements m).

(** [encodeData] *)
Definition encodeData (source : WatModule) (m : binaryModule) : result fault (list Z) :=
  encodeEach (fun out d =>
    let* out := encodeConstExpression source (out ++ [0]) (daOffset d) in
    Ok (appendName out (daBytes d))) (bData m).

(** [encodeCode] *)
Definition encodeCode (source : WatModule) (m : binaryModule) : result fault (list Z) :=
  encodeEach (fun out f => let* body := encodeFunctionBody source m f in Ok (appendName out body)) (bFunctions m).

(** [binaryModule.encode] *)
Definition encodeModule (source : WatModule) (m : binaryModule) : result fault (list Z) :=
  let out := [0; 97; 115; 109; 1; 0; 0; 0] in
  let* types := encodeTypes m in
  let out := appendSection out 1 types in
  let* imports := encodeImports m in
  let out := appendSection out 2 imports in
  let* functions := encodeFunctionTypes m in
  let out := appendSection out 3 functions in
  let* tables := encodeTables m in
  let out := appendSection out 4 tables in
  let* memories := encodeMemories m in
  let out := appendSection out 5 memories in
  let* globals := encodeGlobals source m in
  let out := appendSection out 6 globals in
  let* exports := encodeExports m in
  let out := appendSection out 7 exports in
  let* elements := encodeElements source m in
  let out := appendSection out 9 elements in
  let* code := encodeCode source m in
  let out := appendSection out 10 code in
  let* data := encodeData source m in
  Ok (appendSection out 11 data).

(** [Binary] *)
Definition Binary (source : WatModule) : result fault (list Z) :=
  let* lowered := lowerBinaryModule source in encodeModule source lowered.
