(* ===== verification/WasmMeaning.v ===== *)
(** * What the text of a wasm module means

    The text format of WebAssembly, as far as the Kizu backend writes it, as a
    relation between trees ([WasmModule.wat]) and the abstract syntax of
    [WasmFormat].  It stands for no file: it is the specification of [Binary].

    A folded instruction stands for its operands in order and then itself
    ([folded]); a name stands for its place among the declarations ([resolves]), a
    label for the number of constructs between the branch and its target
    ([targets]).  [moduleMeans] relates the declarations of a whole module to its
    abstract syntax.

    It admits what the encoder admits beyond the standard: numbers are Go's, so a
    decimal with a leading zero is octal, an [i32.const] wraps, and a bare [then]
    or [else] is a sequence. *)

From stdpp Require Import base list strings.
From Stdlib Require Import ZArith Lia String Ascii.
From S2P Require Import Prelude GoStd WasmModule WasmModuleFacts WasmBytes WasmFormat WasmBinary WasmInstruction.

#[local] Open Scope Z_scope.
#[local] Open Scope list_scope.

(** ** Names and numbers *)

(** The place of a name. *)
Definition indexOf (names : list string) (t : string) (n : Z) : Prop :=
  exists k, names !! k = Some t /\ n = Z.of_nat k.

(** A reference: a name with [$], or a number. *)
Definition resolves (names : list string) (x : wat) (n : Z) : Prop :=
  exists t, x = Atom t /\ if symbolic t then indexOf names t n else ParseUint t 32 = Some n.

(** A branch target, with the labels from the innermost out. *)
Definition targets (labels : list string) (x : wat) (n : Z) : Prop :=
  exists t, x = Atom t /\
    if symbolic t
    then exists k, labels !! k = Some t /\ n = Z.of_nat k /\ forall j, (j < k)%nat -> labels !! j <> Some t
    else ParseUint t 32 = Some n.

(** A 64-bit number, signed or unsigned. *)
Definition number (x : wat) (v : Z) : Prop :=
  exists t, x = Atom t /\
    (ParseInt0 t = Some v \/ ParseInt0 t = None /\ exists u, ParseUint0 t 64 = Some u /\ v = wrap64 u).

Definition treeValtype (x : wat) : option valtype :=
  match x with Atom t => switch t [("i32", VI32); ("i64", VI64); ("f32", VF32); ("f64", VF64); ("v128", VV128)] | _ => None end.

(** ** Instructions *)

Record scope : Type := mkScope {
  scTypes : list string;
  scFunctions : list string;
  scGlobals : list string;
  scLocals : list string
}.

(** An instruction without immediates. *)
Definition plainOp (op : string) : Prop :=
  (exists b tail, plainName b = Some (op, tail)) \/ (exists p n tail, prefixedName p n = Some (op, tail)).

(** The exponent of the natural alignment of a load or a store. *)
Definition naturalAlign (op : string) : option Z := switch op
  (zip (accessNames ++ ["v128.load"; "v128.store"])
       [2; 3; 2; 3; 0; 0; 1; 1; 0; 0; 1; 1; 2; 2; 2; 3; 2; 3; 0; 1; 0; 1; 2; 4; 4]).

Definition isMemarg (x : wat) : bool :=
  match x with Atom t => HasPrefix t "offset=" || HasPrefix t "align=" | _ => false end.

(** The operands of a load or store, and the alignment and offset written among them. *)
Inductive memargs : Z -> Z -> list wat -> Z -> Z -> list wat -> Prop :=
  | memargs_nil a o : memargs a o [] a o []
  | memargs_offset a o t o' cs a' o'' args :
      ParseUint t 32 = Some o' -> memargs a o' cs a' o'' args ->
      memargs a o (Atom ("offset=" +:+ t) :: cs) a' o'' args
  | memargs_align a o t e cs a' o' args :
      0 <= e < 32 -> ParseUint t 32 = Some (2 ^ e) -> memargs e o cs a' o' args ->
      memargs a o (Atom ("align=" +:+ t) :: cs) a' o' args
  | memargs_operand a o x cs a' o' args :
      isMemarg x = false -> memargs a o cs a' o' args -> memargs a o (x :: cs) a' o' (x :: args).

(** An optional result type in front of a body. *)
Inductive blockHeader : list wat -> option valtype -> list wat -> Prop :=
  | header_none cs : (forall x rest, cs = x :: rest -> treeHead x <> "result") -> blockHeader cs None cs
  | header_result h x t cs :
      treeHead (Group [h; x]) = "result" -> treeValtype x = Some t -> blockHeader (Group [h; x] :: cs) (Some t) cs.

(** An optional label in front of it. *)
Definition headLabel (cs : list wat) : string * list wat :=
  match cs with
  | Atom t :: rest => if symbolic t then (t, rest) else ("", cs)
  | _ => ("", cs)
  end.

Section Folded.
Variable sc : scope.

Inductive folded : list string -> wat -> list winstr -> Prop :=
  | folded_plain labels h op args il :
      treeText h = op -> plainOp op -> foldedAll labels args il -> folded labels (Group (h :: args)) (il ++ [Plain op])
  | folded_access labels h op cs natural align offset args il :
      treeText h = op -> naturalAlign op = Some natural -> memargs natural 0 cs align offset args ->
      foldedAll labels args il -> folded labels (Group (h :: cs)) (il ++ [Access op align offset])
  | folded_lane labels h op n lane v args il :
      treeText h = op -> laneName n = Some op -> ParseUint lane 32 = Some v -> foldedAll labels args il ->
      folded labels (Group (h :: Atom lane :: args)) (il ++ [Lane op (v mod 256)])
  | folded_i32 labels h x v : treeText h = "i32.const" -> number x v -> folded labels (Group [h; x]) [ConstI32 (wrap32 v)]
  | folded_i64 labels h x v : treeText h = "i64.const" -> number x v -> folded labels (Group [h; x]) [ConstI64 v]
  | folded_local labels h op x n args il :
      treeText h = op -> op = "local.get" \/ op = "local.set" \/ op = "local.tee" ->
      resolves (scLocals sc) x n -> foldedAll labels args il ->
      folded labels (Group (h :: x :: args)) (il ++ [Indexed op n])
  | folded_global labels h op x n args il :
      treeText h = op -> op = "global.get" \/ op = "global.set" ->
      resolves (scGlobals sc) x n -> foldedAll labels args il ->
      folded labels (Group (h :: x :: args)) (il ++ [Indexed op n])
  | folded_call labels h x n args il :
      treeText h = "call" -> resolves (scFunctions sc) x n -> foldedAll labels args il ->
      folded labels (Group (h :: x :: args)) (il ++ [Indexed "call" n])
  | folded_indirect labels h k x n args il :
      treeText h = "call_indirect" -> treeHead (Group [k; x]) = "type" -> resolves (scTypes sc) x n ->
      foldedAll labels args il ->
      folded labels (Group (h :: Group [k; x] :: args)) (il ++ [CallIndirect n 0])
  | folded_branch labels h op x n args il :
      treeText h = op -> op = "br" \/ op = "br_if" -> targets labels x n -> foldedAll labels args il ->
      folded labels (Group (h :: x :: args)) (il ++ [Indexed op n])
  | folded_nested labels h op cs label rest t body il :
      treeText h = op -> op = "block" \/ op = "loop" -> headLabel cs = (label, rest) -> blockHeader rest t body ->
      foldedAll (label :: labels) body il ->
      folded labels (Group (h :: cs)) [Nested op t il]
  | folded_if labels h cs t condition yes il jl :
      treeText h = "if" -> blockHeader cs t [condition; yes] -> treeHead yes = "then" ->
      folded labels condition il -> folded ("" :: labels) yes jl ->
      folded labels (Group (h :: cs)) (il ++ [IfElse t jl None])
  | folded_if_else labels h cs t condition yes no il jl kl :
      treeText h = "if" -> blockHeader cs t [condition; yes; no] -> treeHead yes = "then" -> treeHead no = "else" ->
      folded labels condition il -> folded ("" :: labels) yes jl -> folded ("" :: labels) no kl ->
      folded labels (Group (h :: cs)) (il ++ [IfElse t jl (Some kl)])
  | folded_sequence labels h body il :
      treeText h = "then" \/ treeText h = "else" -> foldedAll labels body il -> folded labels (Group (h :: body)) il
with foldedAll : list string -> list wat -> list winstr -> Prop :=
  | folded_nil labels : foldedAll labels [] []
  | folded_cons labels x cs il jl : folded labels x il -> foldedAll labels cs jl -> foldedAll labels (x :: cs) (il ++ jl).
End Folded.

(** ** Declarations *)

(** The types of a [param], [result] or [local], with the name of the value. *)
Definition treeNamed (allowName : bool) (items : list wat) : option (list (string * valtype)) :=
  let unnamed := mapM (fun x => match treeValtype x with Some t => Some ("", t) | None => None end) in
  match items with
  | [] => None
  | x :: rest =>
      if allowName && isAtom x && symbolic (treeText x) then
        match rest with
        | [t] => match treeValtype t with Some t => Some [(treeText x, t)] | None => None end
        | _ => None
        end
      else unnamed items
  end.

Record treeSignature : Type := mkTreeSignature {
  tsParams : list (string * valtype); tsResults : list valtype; tsLocals : list (string * valtype) }.

Definition itemsOf (x : wat) : list wat := match x with Group (_ :: items) => items | _ => [] end.

(** The signature of a [func], part by part. *)
Fixpoint signatureFrom (s : treeSignature) (parts : list wat) : option treeSignature :=
  match parts with
  | [] => Some s
  | x :: parts =>
      if String.eqb (treeHead x) "param" then
        match treeNamed true (itemsOf x) with
        | Some l => signatureFrom (mkTreeSignature (tsParams s ++ l) (tsResults s) (tsLocals s)) parts
        | None => None
        end
      else if String.eqb (treeHead x) "result" then
        match treeNamed false (itemsOf x) with
        | Some l => signatureFrom (mkTreeSignature (tsParams s) (tsResults s ++ map snd l) (tsLocals s)) parts
        | None => None
        end
      else if String.eqb (treeHead x) "local" then
        match treeNamed true (itemsOf x) with
        | Some l => signatureFrom (mkTreeSignature (tsParams s) (tsResults s) (tsLocals s ++ l)) parts
        | None => None
        end
      else signatureFrom s parts
  end.

Definition signatureTree (func : wat) : option treeSignature := signatureFrom (mkTreeSignature [] [] []) (itemsOf func).

Definition typeOfSignature (s : treeSignature) : functype := mkFunctype (map snd (tsParams s)) (tsResults s).

(** The declarations of a kind, and the names they declare. *)
Definition headed (head : string) (decls : list wat) : list wat := List.filter (fun d => String.eqb (treeHead d) head) decls.

Definition nameOf (d : wat) : string := match itemsOf d with x :: _ => treeText x | [] => "" end.

Definition importedName (d : wat) : string := match itemsOf d with [_; _; func] => nameOf func | _ => "" end.

Definition typeNamesOf (decls : list wat) : list string := map nameOf (headed "type" decls).
Definition functionNamesOf (decls : list wat) : list string :=
  map importedName (headed "import" decls) ++ map nameOf (headed "func" decls).
Definition globalNamesOf (decls : list wat) : list string := map nameOf (headed "global" decls).

(** Runs of locals written out. *)
Definition expandLocals (l : list (Z * valtype)) : list valtype := flat_map (fun '(n, t) => repeat t (Z.to_nat n)) l.

(** What of a function is an instruction. *)
Definition isInstruction (x : wat) : bool :=
  negb (among (treeHead x) ["param"; "result"; "local"; "export"; "type"]) && negb (isAtom x && symbolic (treeText x)).

(** A constant expression. *)
Inductive constExpr : wat -> list winstr -> Prop :=
  | const_i32 h x v : treeHead (Group [h; x]) = "i32.const" -> number x v -> constExpr (Group [h; x]) [ConstI32 (wrap32 v)]
  | const_i64 h x v : treeHead (Group [h; x]) = "i64.const" -> number x v -> constExpr (Group [h; x]) [ConstI64 v].

Definition quotedBytes (x : wat) (bs : list Z) : Prop := exists raw, x = Quoted raw /\ decodeBytes raw = Ok bs.

Section Module_.
Variable decls : list wat.
Variable M : wmodule.

Definition hasType (t : Z) (f : functype) : Prop := exists k, t = Z.of_nat k /\ wTypes M !! k = Some f.

Definition typeMeans (d : wat) (f : functype) : Prop :=
  exists h name func s, d = Group [h; Atom name; func] /\ treeHead func = "func" /\
    signatureTree func = Some s /\ f = typeOfSignature s.

Definition importMeans (d : wat) (i : wimport) : Prop :=
  exists h a b func s, d = Group [h; a; b; func] /\ treeHead func = "func" /\
    quotedBytes a (wiModule i) /\ quotedBytes b (wiName i) /\
    signatureTree func = Some s /\ hasType (wiType i) (typeOfSignature s).

Definition functionMeans (d : wat) (f : Z * wbody) : Prop :=
  exists s, signatureTree d = Some s /\ hasType (fst f) (typeOfSignature s) /\
    expandLocals (wcLocals (snd f)) = map snd (tsLocals s) /\
    let names := map fst (tsParams s ++ tsLocals s) in
    NoDup (List.filter (fun n => negb (String.eqb n "")) names) /\
    foldedAll (mkScope (typeNamesOf decls) (functionNamesOf decls) (globalNamesOf decls) names)
      [] (List.filter isInstruction (itemsOf d)) (wcBody (snd f)).

Definition tableMeans (d : wat) (n : Z) : Prop :=
  exists h t k, d = Group [h; Atom t; k] /\ treeText k = "funcref" /\ ParseUint t 32 = Some n.

Definition isExport (x : wat) : bool := String.eqb (treeHead x) "export".

Definition memoryMeans (d : wat) (n : Z) : Prop :=
  exists t, List.filter (fun x => negb (isExport x)) (itemsOf d) = [Atom t] /\ ParseUint t 32 = Some n.

Definition globalMeans (d : wat) (g : wglobal) : Prop :=
  exists h name t init, d = Group [h; Atom name; t; init] /\ constExpr init (wgInit g) /\
    if wgMutable g then exists k t', t = Group [k; t'] /\ treeHead t = "mut" /\ treeValtype t' = Some (wgType g)
    else treeHead t <> "mut" /\ treeValtype t = Some (wgType g).

Definition elementMeans (d : wat) (e : welement) : Prop :=
  exists h offset cs, d = Group (h :: offset :: cs) /\ constExpr offset (wmOffset e) /\
    Forall2 (resolves (functionNamesOf decls)) cs (wmFunctions e).

Definition dataMeans (d : wat) (s : wdata) : Prop :=
  exists h offset cs bss, d = Group (h :: offset :: cs) /\ constExpr offset (wdOffset s) /\
    Forall2 quotedBytes cs bss /\ wdBytes s = List.concat bss.

(** The exports a declaration makes, when there are so many memories before it. *)
Definition inlineExports (kind index : Z) (items : list wat) (es : list wexport) : Prop :=
  Forall2 (fun x e => exists h name, x = Group [h; name] /\ quotedBytes name (weName e) /\ weKind e = kind /\ weIndex e = index)
    (List.filter isExport items) es.

Definition exportTarget (k : string) (x : wat) (kind index : Z) : Prop :=
  k = "func" /\ kind = 0 /\ resolves (functionNamesOf decls) x index \/
  k = "table" /\ kind = 1 /\ (exists t, x = Atom t /\ ParseUint t 32 = Some index) \/
  k = "memory" /\ kind = 2 /\ (exists t, x = Atom t /\ ParseUint t 32 = Some index) \/
  k = "global" /\ kind = 3 /\ resolves (globalNamesOf decls) x index.

Definition declExports (memories : nat) (d : wat) (es : list wexport) : Prop :=
  if String.eqb (treeHead d) "func" then
    exists name rest function, itemsOf d = name :: rest /\ resolves (functionNamesOf decls) name function /\
      inlineExports 0 function rest es
  else if String.eqb (treeHead d) "memory" then inlineExports 2 (Z.of_nat memories) (itemsOf d) es
  else if String.eqb (treeHead d) "export" then
    exists h name k x e, d = Group [h; name; Group [k; x]] /\ es = [e] /\ quotedBytes name (weName e) /\
      exportTarget (treeText k) x (weKind e) (weIndex e)
  else es = [].

Inductive exportsFrom : nat -> list wat -> list wexport -> Prop :=
  | exports_nil memories : exportsFrom memories [] []
  | exports_cons memories d ds es es' :
      declExports memories d es ->
      exportsFrom (if String.eqb (treeHead d) "memory" then S memories else memories) ds es' ->
      exportsFrom memories (d :: ds) (es ++ es').

(** The module as a whole. *)
Record moduleMeans : Prop := {
  means_heads : Forall (fun d => among (treeHead d)
    ["type"; "import"; "func"; "table"; "memory"; "global"; "export"; "elem"; "data"] = true) decls;
  means_names : NoDup (typeNamesOf decls) /\ NoDup (functionNamesOf decls) /\ NoDup (globalNamesOf decls);
  means_types : exists more, exists declared, wTypes M = declared ++ more /\ Forall2 typeMeans (headed "type" decls) declared;
  means_imports : Forall2 importMeans (headed "import" decls) (wImports M);
  means_functions : List.length (wFuncs M) = List.length (wCodes M) /\
    Forall2 functionMeans (headed "func" decls) (zip (wFuncs M) (wCodes M));
  means_tables : Forall2 tableMeans (headed "table" decls) (wTables M);
  means_memories : Forall2 memoryMeans (headed "memory" decls) (wMems M);
  means_globals : Forall2 globalMeans (headed "global" decls) (wGlobals M);
  means_exports : exportsFrom 0 decls (wExports M);
  means_elements : Forall2 elementMeans (headed "elem" decls) (wElements M);
  means_datas : Forall2 dataMeans (headed "data" decls) (wDatas M)
}.
End Module_.
