(* ===== verification/WasmEncode.v ===== *)
(** * The encoder of instructions writes what they mean ([internal/wasm/binary_instruction.go])

    [encode_yields]: on a node of a parsed module the encoder ends, without a
    panic, with an error or with bytes that the grammar of the binary format gives
    to the instructions the node stands for, every name, label, opcode and
    immediate resolved. *)

From stdpp Require Import base list strings gmap.
From Stdlib Require Import ZArith Lia String Ascii.
From S2P Require Import Prelude GoStd WasmModule WasmModuleFacts WasmBytes WasmFormat WasmBinary WasmInstruction WasmMeaning.

#[local] Open Scope Z_scope.
#[local] Open Scope list_scope.

(** ** Outcomes

    [yields r P]: [r] is a value of [P] or an error of the Go code. *)
Definition yields {A} (r : result fault A) (P : A -> Prop) : Prop :=
  match r with Ok a => P a | Err f => isError f = true end.

Lemma outcome_bind {A B} (r : result fault A) (k : A -> result fault B) (P : A -> Prop) (Q : B -> Prop) :
  yields r P -> (forall a, P a -> yields (k a) Q) -> yields (match r with Ok a => k a | Err f => Err f end) Q.
Proof. destruct r; cbn; auto. Qed.

Lemma outcome_weaken {A} (r : result fault A) (P Q : A -> Prop) : yields r P -> (forall a, P a -> Q a) -> yields r Q.
Proof. destruct r; cbn; auto. Qed.

(** ** Tables *)

Lemma switch_check {A} (chk : string -> A -> bool) cases op a :
  forallb (fun '(n, a) => chk n a) cases = true -> switch op cases = Some a -> chk op a = true.
Proof.
  induction cases as [|[n b] cases IH]; [discriminate|]. cbn [forallb switch].
  rewrite andb_true_iff. intros [Hn Hrest]. destruct (String.eqb_spec op n) as [->|_]; [intros [= <-]; exact Hn | auto].
Qed.

Lemma among_check (chk : string -> bool) names op :
  forallb chk names = true -> among op names = true -> chk op = true.
Proof.
  intros Hall H. unfold among in H. apply existsb_exists in H as (n & Hn & He).
  apply String.eqb_eq in He as ->. rewrite forallb_forall in Hall. auto.
Qed.

Lemma orElse_check (chk : Z -> bool) a b :
  (forall n, a = Some n -> chk n = true) -> (forall n, b = Some n -> chk n = true) ->
  forall n, orElse a b = Some n -> chk n = true.
Proof. destruct a; cbn; intros Ha Hb n Hn; auto. Qed.

Definition plainCheck (op : string) (b : Z) : bool := bool_decide (plainName b = Some (op, [])).

(** Every opcode the encoder knows is the one of the specification. *)
Lemma simple_opcode op b : simpleInstructionOpcode op = Some b -> plainName b = Some (op, []).
Proof.
  intros H. apply (bool_decide_eq_true_1 (plainName b = Some (op, []))).
  change (plainCheck op b = true). revert b H.
  unfold simpleInstructionOpcode, i32NumericOpcode, i64NumericOpcode, floatOpcode.
  repeat apply orElse_check; intros b; apply (switch_check plainCheck); vm_compute; reflexivity.
Qed.

Definition simdCheck (op : string) (n : Z) : bool :=
  bool_decide (prefixedName 253 n = Some (op, [])) && (0 <=? n) && (n <? 2 ^ 32).

Lemma simd_opcode op n : simdOpcode op = Some n -> prefixedName 253 n = Some (op, []) /\ 0 <= n < 2 ^ 32.
Proof.
  intros H. assert (Hc : simdCheck op n = true) by (refine (switch_check simdCheck simdOpcodes op n _ H); vm_compute; reflexivity).
  unfold simdCheck in Hc. rewrite !andb_true_iff, bool_decide_eq_true, Z.leb_le, Z.ltb_lt in Hc. tauto.
Qed.

Definition laneCheck (op : string) (n : Z) : bool := bool_decide (laneName n = Some op) && (0 <=? n) && (n <? 2 ^ 32).

Lemma lane_opcode op n : simdLaneOpcode op = Some n -> laneName n = Some op /\ 0 <= n < 2 ^ 32.
Proof.
  intros H. assert (Hc : laneCheck op n = true) by (refine (switch_check laneCheck _ op n _ H); vm_compute; reflexivity).
  unfold laneCheck in Hc. rewrite !andb_true_iff, bool_decide_eq_true, Z.leb_le, Z.ltb_lt in Hc. tauto.
Qed.

Definition memoryCheck (op : string) : bool :=
  let (b, a) := memoryInstruction op in
  bool_decide (accessName b = Some op) && bool_decide (naturalAlign op = Some a) && (0 <=? a) && (a <? 32).

Lemma memory_opcode op :
  among op memoryNames = true ->
  exists b a, memoryInstruction op = (b, a) /\ accessName b = Some op /\ naturalAlign op = Some a /\ 0 <= a < 32.
Proof.
  intros H. assert (Hc : memoryCheck op = true) by (refine (among_check memoryCheck _ op _ H); vm_compute; reflexivity).
  unfold memoryCheck in Hc. destruct (memoryInstruction op) as [b a]. exists b, a.
  rewrite !andb_true_iff, !bool_decide_eq_true, Z.leb_le, Z.ltb_lt in Hc. tauto.
Qed.

Lemma among_cases op names : among op names = true -> In op names.
Proof. intros H. apply existsb_exists in H as (n & Hn & He). apply String.eqb_eq in He as ->. exact Hn. Qed.

(** ** Numbers *)

Lemma ParseUint_range t bits n : ParseUint t bits = Some n -> 0 <= n < 2 ^ bits.
Proof.
  unfold ParseUint, within, parse_uint. destruct t as [|c t]; [discriminate|].
  destruct (parse_digits 0 (String c t)) as [v|] eqn:H; [|discriminate].
  apply parse_digits_nonneg in H; [|lia]. destruct (Z.ltb_spec v (2 ^ bits)); [|discriminate]. intros [= <-]. lia.
Qed.

Lemma ParseInt0_range t n : ParseInt0 t = Some n -> in_int64 n.
Proof. destruct t as [|c t]; [discriminate|]. cbn [ParseInt0]. repeat step_if; apply signed_value_range. Qed.

Lemma number_range x v : number x v -> in_int64 v.
Proof. intros (t & _ & [H|(_ & u & _ & ->)]); [exact (ParseInt0_range _ _ H) | apply wrap64_range]. Qed.

(** A number that shares no bit with the one before it is a power of two, and the
    shifts count its exponent. *)
Lemma alignment_power fuel v :
  0 < v < 2 ^ Z.of_nat fuel -> Z.land v (v - 1) = 0 ->
  v = 2 ^ alignmentExponent fuel v /\ 0 <= alignmentExponent fuel v < Z.max 1 (Z.of_nat fuel).
Proof.
  revert v. induction fuel as [|fuel IH]; intros v Hv Hl; [cbn in Hv; lia|]. cbn [alignmentExponent].
  destruct (Z.ltb_spec 1 v) as [H1|H1]; [|assert (v = 1) as -> by lia; cbn; lia].
  rewrite Z.shiftr_div_pow2 by lia. change (2 ^ 1) with 2.
  pose proof (Z.div_mod v 2 ltac:(lia)) as Hd. pose proof (Z.mod_pos_bound v 2 ltac:(lia)) as Hm.
  assert (He : v mod 2 = 0).
  { destruct (Z.eq_dec (v mod 2) 0) as [|Hne]; [assumption|]. exfalso.
    assert (v mod 2 = 1) as Ho by lia.
    assert (Hb : Z.testbit (Z.land v (v - 1)) (Z.log2 v) = true); [|rewrite Hl, Z.bits_0 in Hb; discriminate].
    rewrite Z.land_spec, Z.bit_log2 by lia. cbn [andb].
    assert (Z.log2 (v - 1) = Z.log2 v) as <-; [|apply Z.bit_log2; lia].
    apply Z.log2_unique; [apply Z.log2_nonneg|]. pose proof (Z.log2_spec v ltac:(lia)) as Hs.
    split; [|lia].
    assert (2 ^ Z.log2 v <> v); [|lia]. intros E.
    assert (0 < Z.log2 v) by (apply Z.log2_pos; lia).
    rewrite <- E in Ho. replace (Z.log2 v) with (1 + (Z.log2 v - 1)) in Ho by lia.
    rewrite Z.pow_add_r, Z.mul_comm, Z.mod_mul in Ho by lia. lia. }
  assert (Hv2 : v = 2 * (v / 2)) by lia.
  assert (Hl2 : Z.land (v / 2) (v / 2 - 1) = 0).
  { apply Z.bits_inj'. intros k Hk. rewrite Z.bits_0.
    assert (Hb : Z.testbit (Z.land v (v - 1)) (k + 1) = false) by (rewrite Hl; apply Z.bits_0).
    rewrite Z.land_spec in Hb |- *.
    assert (E1 : Z.testbit v (k + 1) = Z.testbit (v / 2) k).
    { change 2 with (2 ^ 1). rewrite <- Z.shiftr_div_pow2, Z.shiftr_spec by lia. reflexivity. }
    assert (E2 : Z.testbit (v - 1) (k + 1) = Z.testbit (v / 2 - 1) k).
    { replace (v / 2 - 1) with ((v - 1) / 2).
      - change 2 with (2 ^ 1). rewrite <- Z.shiftr_div_pow2, Z.shiftr_spec by lia. reflexivity.
      - symmetry. apply (Z.div_unique (v - 1) 2 (v / 2 - 1) 1); lia. }
    rewrite E1, E2 in Hb. exact Hb. }
  rewrite Nat2Z.inj_succ, Z.pow_succ_r in Hv by lia.
  destruct (IH (v / 2) ltac:(lia) Hl2) as [Hp He2].
  rewrite Z.pow_add_r by lia. rewrite <- Hp. split; [lia|].
  destruct fuel as [|fuel]; [cbn in Hv; lia | lia].
Qed.

(** ** Reading nodes that represent trees *)

Section Nodes.
Variable source : WatModule.

Lemma errorf_yields {A} i x f args (P : A -> Prop) : represents source i x -> yields (errorf source i f args) P.
Proof. intros H. destruct (node_represents _ _ _ H) as (n & Hn & _). unfold errorf. rewrite Hn. reflexivity. Qed.

Lemma isKind_represents i x k : represents source i x -> isKind source i k = Ok (bool_decide (treeKind x = k)).
Proof. intros H. unfold isKind. rewrite (nodeKind_represents _ _ _ H). reflexivity. Qed.

Lemma isAtom_represents i x : represents source i x -> isKind source i moduleAtom = Ok (isAtom x).
Proof. intros H. rewrite (isKind_represents _ _ _ H). destruct x; reflexivity. Qed.

Lemma valueType_yields i x :
  represents source i x -> yields (valueType source i) (fun b => exists t, treeValtype x = Some t /\ valtypeOf b = Some t).
Proof.
  intros H. unfold valueType. rewrite (isAtom_represents _ _ H), (nodeText_represents _ _ _ H).
  destruct x as [t|t|l]; cbn [isAtom negb treeText]; try exact (errorf_yields _ _ _ _ _ H).
  cbn [treeValtype switch]. repeat step_if; try (cbn; eauto; fail). exact (errorf_yields _ _ _ _ _ H).
Qed.

Lemma unsigned_yields i x :
  represents source i x -> yields (unsigned source i) (fun n => exists t, x = Atom t /\ ParseUint t 32 = Some n).
Proof.
  intros H. unfold unsigned. rewrite (isAtom_represents _ _ H), (nodeText_represents _ _ _ H).
  destruct x as [t|t|l]; cbn [isAtom negb treeText]; try exact (errorf_yields _ _ _ _ _ H).
  destruct (ParseUint t 32) eqn:Hp; [cbn; eauto | exact (errorf_yields _ _ _ _ _ H)].
Qed.

Lemma signed_yields i x : represents source i x -> yields (signed source i) (number x).
Proof.
  intros H. unfold signed. rewrite (isAtom_represents _ _ H), (nodeText_represents _ _ _ H).
  destruct x as [t|t|l]; cbn [isAtom negb treeText]; try exact (errorf_yields _ _ _ _ _ H).
  destruct (ParseInt0 t) as [v|] eqn:Hp; [exists t; auto|].
  destruct (ParseUint0 t 64) as [u|] eqn:Hu; [exists t; eauto 6 | exact (errorf_yields _ _ _ _ _ H)].
Qed.

(** A map from names to places. *)
Definition placed (names : list string) (table : gmap string Z) : Prop :=
  forall t n, table !! t = Some n -> indexOf names t n /\ 0 <= n < 2 ^ 32.

Lemma lookupIndex_yields expected unknown table names i x :
  placed names table -> represents source i x ->
  yields (lookupIndex source expected unknown table i) (fun n => resolves names x n /\ 0 <= n < 2 ^ 32).
Proof.
  intros Hp H. unfold lookupIndex. rewrite (isAtom_represents _ _ H), (nodeText_represents _ _ _ H).
  destruct x as [t|t|l]; cbn [isAtom negb treeText]; try exact (errorf_yields _ _ _ _ _ H).
  destruct (symbolic t) eqn:Hs.
  - destruct (table !! t) as [n|] eqn:Hn; [|exact (errorf_yields _ _ _ _ _ H)].
    destruct (Hp _ _ Hn) as [Hi Hr]. split; [|exact Hr]. exists t. rewrite Hs. auto.
  - eapply outcome_weaken; [exact (unsigned_yields _ _ H)|]. intros n (t' & E & Hn). injection E as <-.
    split; [|exact (ParseUint_range _ _ _ Hn)]. exists t. rewrite Hs. auto.
Qed.

Lemma blockType_yields i cs xs :
  Forall2 (represents source) cs xs -> Forall (fun c => (c < i)%nat) cs ->
  yields (blockType source cs) (fun '(b, rest) => exists t ys,
    blockHeader xs t ys /\ blocktypeOf b = Some t /\ Forall2 (represents source) rest ys /\ Forall (fun c => (c < i)%nat) rest).
Proof.
  intros Hall Hlt. unfold blockType. destruct Hall as [|c x cs xs Hx Hall].
  { cbn. exists None, []. split; [constructor; discriminate|]. auto. }
  rewrite (listHead_represents _ _ _ Hx). inversion Hlt as [|? ? Hc Hlt']; subst.
  destruct (String.eqb_spec (treeHead x) "result") as [Hh|Hh]; cbn [negb].
  - destruct x as [t|t|l]; try discriminate Hh.
    destruct (childrenOf_represents _ _ _ Hx) as (parts & -> & Hparts & _).
    destruct Hparts as [|p y parts l Hy Hparts]; [exact (errorf_yields _ _ _ _ _ Hx)|].
    destruct Hparts as [|q z parts l Hz Hparts]; [exact (errorf_yields _ _ _ _ _ Hx)|].
    destruct Hparts; [|exact (errorf_yields _ _ _ _ _ Hx)].
    eapply outcome_bind; [exact (valueType_yields _ _ Hz)|]. intros b (t & Ht & Hb). cbn.
    exists (Some t), xs. split; [constructor; assumption|]. split; [|auto].
    unfold blocktypeOf. destruct (Z.eqb_spec b 64) as [->|_]; [discriminate Hb | rewrite Hb; reflexivity].
  - cbn. exists None, (x :: xs). split; [constructor; intros ? ? [= <- <-]; exact Hh|].
    split; [reflexivity|]. split; [constructor; assumption | exact Hlt].
Qed.

Lemma memoryImmediates_yields i a cs xs :
  Forall2 (represents source) cs xs -> Forall (fun c => (c < i)%nat) cs ->
  0 <= maAlign a < 32 -> 0 <= maOffset a < 2 ^ 32 ->
  yields (memoryImmediates source a cs) (fun a' => exists ns args,
    maOperands a' = maOperands a ++ ns /\ Forall2 (represents source) ns args /\ Forall (fun c => (c < i)%nat) ns /\
    memargs (maAlign a) (maOffset a) xs (maAlign a') (maOffset a') args /\
    0 <= maAlign a' < 32 /\ 0 <= maOffset a' < 2 ^ 32).
Proof.
  intros Hall. revert a. induction Hall as [|c x cs xs Hx Hall IH]; intros a Hlt Ha Ho; cbn [memoryImmediates].
  { cbn. exists [], []. rewrite app_nil_r. repeat split; try constructor; lia. }
  inversion Hlt as [|? ? Hc Hlt']; subst.
  assert (Hoperand : isMemarg x = false -> yields
    (memoryImmediates source (mkArguments (maAlign a) (maOffset a) (maOperands a ++ [c])) cs)
    (fun a' => exists ns args, maOperands a' = maOperands a ++ ns /\ Forall2 (represents source) ns args /\
       Forall (fun c => (c < i)%nat) ns /\ memargs (maAlign a) (maOffset a) (x :: xs) (maAlign a') (maOffset a') args /\
       0 <= maAlign a' < 32 /\ 0 <= maOffset a' < 2 ^ 32)).
  { intros Hm. eapply outcome_weaken; [apply IH; assumption|]. cbn [maAlign maOffset maOperands].
    intros a' (ns & args & Hops & Hrep & Hns & Hargs & Hr). exists (c :: ns), (x :: args).
    split; [rewrite Hops, <- app_assoc; reflexivity|]. split; [constructor; assumption|].
    split; [constructor; assumption|]. split; [constructor; assumption | exact Hr]. }
  rewrite (isAtom_represents _ _ Hx), (nodeText_represents _ _ _ Hx).
  destruct x as [t|t|l]; cbn [isAtom negb treeText]; [|apply Hoperand; reflexivity..].
  destruct (HasPrefix t "offset=") eqn:Hp; [|destruct (HasPrefix t "align=") eqn:Hq].
  - apply HasPrefix_true in Hp as [rest ->]. unfold TrimPrefix. rewrite CutPrefix_app.
    destruct (ParseUint rest 32) as [v|] eqn:Hv; [|exact (errorf_yields _ _ _ _ _ Hx)].
    eapply outcome_weaken; [apply IH; cbn; try assumption; exact (ParseUint_range _ _ _ Hv)|].
    cbn [maAlign maOffset maOperands]. intros a' (ns & args & Hops & Hrep & Hns & Hargs & Hr).
    exists ns, args. repeat (split; [first [assumption | econstructor; eassumption]|]). exact Hr.
  - apply HasPrefix_true in Hq as [rest ->]. unfold TrimPrefix. rewrite CutPrefix_app.
    destruct (ParseUint rest 32) as [v|] eqn:Hv; [|exact (errorf_yields _ _ _ _ _ Hx)].
    destruct (_ || _) eqn:Hbad; [exact (errorf_yields _ _ _ _ _ Hx)|].
    apply orb_false_iff in Hbad as [Hz Hl]. apply Z.eqb_neq in Hz. apply negb_false_iff, Z.eqb_eq in Hl.
    pose proof (ParseUint_range _ _ _ Hv) as Hr.
    destruct (alignment_power 32 v ltac:(change (Z.of_nat 32) with 32; lia) Hl) as [Hpow He].
    change (Z.of_nat 32) with 32 in He. set (e := alignmentExponent 32 v) in *.
    eapply outcome_weaken; [apply IH; cbn [maAlign maOffset]; try assumption; lia|].
    cbn [maAlign maOffset maOperands]. intros a' (ns & args & Hops & Hrep & Hns & Hargs & Hrr).
    exists ns, args. split; [exact Hops|]. split; [exact Hrep|]. split; [exact Hns|]. split; [|exact Hrr].
    apply (memargs_align _ _ _ e); [lia | rewrite Hv; congruence | exact Hargs].
  - apply Hoperand. cbn. rewrite Hp, Hq. reflexivity.
Qed.
End Nodes.

(** ** One instruction, given its operands *)

Lemma appendU32_out out n : appendU32 out n = out ++ appendU32 [] n.
Proof. reflexivity. Qed.

Lemma append_op (out : list Z) b bs : (out ++ [b]) ++ bs = out ++ b :: bs.
Proof. rewrite <- app_assoc. reflexivity. Qed.

Section Encoding.
Variable source : WatModule.
Variable m : binaryModule.
Variable locals : gmap string Z.
Variable sc : scope.
Hypothesis Htypes : placed (scTypes sc) (bTypeNames m).
Hypothesis Hfunctions : placed (scFunctions sc) (bFunctionNames m).
Hypothesis Hglobals : placed (scGlobals sc) (bGlobalNames m).
Hypothesis Hlocals : placed (scLocals sc) locals.

(** [out'] adds to [out] the code of what a node, or a list of nodes, stands for. *)
Definition writes1 (labels : list string) (out : list Z) (x : wat) (out' : list Z) : Prop :=
  exists il bs, out' = out ++ bs /\ folded sc (rev labels) x il /\ codes il bs.

Definition writesAll (labels : list string) (out : list Z) (xs : list wat) (out' : list Z) : Prop :=
  exists il bs, out' = out ++ bs /\ foldedAll sc (rev labels) xs il /\ codes il bs.

Lemma writes_nil labels out : writesAll labels out [] out.
Proof. exists [], []. rewrite app_nil_r. split; [reflexivity|]. split; constructor. Qed.

Lemma writes_cons labels out x xs out1 out2 :
  writes1 labels out x out1 -> writesAll labels out1 xs out2 -> writesAll labels out (x :: xs) out2.
Proof.
  intros (il & bs & -> & Hf & Hc) (jl & cs & -> & Hf' & Hc'). exists (il ++ jl), (bs ++ cs).
  split; [rewrite app_assoc; reflexivity|]. split; [constructor; assumption | apply codes_app; assumption].
Qed.

(** Operands and then an instruction. *)
Lemma writes_op labels out args out1 i bs x :
  writesAll labels out args out1 -> code1 i bs ->
  (forall il, foldedAll sc (rev labels) args il -> folded sc (rev labels) x (il ++ [i])) ->
  writes1 labels out x (out1 ++ bs).
Proof.
  intros (il & cs & -> & Hf & Hc) Hi Hx. exists (il ++ [i]), (cs ++ bs).
  split; [rewrite app_assoc; reflexivity|]. split; [apply Hx, Hf|]. apply codes_app; [exact Hc | apply codes_one, Hi].
Qed.

(** An instruction of its own. *)
Lemma writes_leaf labels out i bs x : code1 i bs -> folded sc (rev labels) x [i] -> writes1 labels out x (out ++ bs).
Proof. intros Hi Hx. exists [i], bs. split; [reflexivity|]. split; [exact Hx | apply codes_one, Hi]. Qed.

Section Step.
Variable rec : list string -> list Z -> nat -> result fault (list Z).
Variable i : nat.

(** There is room for a label for each node below. *)
Definition room (labels : list string) (n : nat) : Prop := Z.of_nat (List.length labels + n) < 2 ^ 32.

Hypothesis IH : forall labels out n x,
  (n < i)%nat -> represents source n x -> room labels n -> yields (rec labels out n) (writes1 labels out x).

Definition below (cs : list nat) : Prop := Forall (fun c => (c < i)%nat) cs.

Lemma room_below labels n : room labels i -> (n < i)%nat -> room labels n.
Proof. unfold room. lia. Qed.

Lemma room_push labels label n : room labels i -> (n < i)%nat -> room (labels ++ [label]) n.
Proof. unfold room. rewrite length_app. cbn. lia. Qed.

Lemma encodeSequence_yields labels out ns xs :
  (forall n, (n < i)%nat -> room labels n) -> Forall2 (represents source) ns xs -> below ns ->
  yields (encodeSequence rec labels out ns) (writesAll labels out xs).
Proof.
  intros Hr Hall. revert out. induction Hall as [|n x ns xs Hx _ IHs]; intros out Hlt; [apply writes_nil|].
  inversion Hlt as [|? ? Hn Hlt']; subst. cbn [encodeSequence].
  eapply outcome_bind; [exact (IH labels out n x Hn Hx (Hr n Hn))|]. intros out1 H1.
  eapply outcome_weaken; [exact (IHs out1 Hlt')|]. intros out2. exact (writes_cons _ _ _ _ _ _ H1).
Qed.

(** The node: [(op args…)]. *)
Section Node.
Variable labels : list string.
Hypothesis Hroom : room labels i.

(** The node holds a name and operands. *)
Record holds (h : wat) (xs : list wat) (cs : list nat) : Prop := {
  holds_node : represents source i (Group (h :: xs));
  holds_children : Forall2 (represents source) cs xs;
  holds_below : below cs
}.

Lemma fails {A} h xs cs f args (P : A -> Prop) : holds h xs cs -> yields (errorf source i f args) P.
Proof. intros H. exact (errorf_yields _ _ _ _ _ _ (holds_node _ _ _ H)). Qed.

Lemma operands out ns args :
  Forall2 (represents source) ns args -> below ns -> yields (encodeSequence rec labels out ns) (writesAll labels out args).
Proof. apply encodeSequence_yields. intros n. apply room_below, Hroom. Qed.

Lemma operand out n x : represents source n x -> (n < i)%nat -> yields (rec labels out n) (writesAll labels out [x]).
Proof.
  intros Hx Hn. eapply outcome_weaken; [exact (IH labels out n x Hn Hx (room_below _ _ Hroom Hn))|].
  intros out' H. eapply writes_cons; [exact H | apply writes_nil].
Qed.

Lemma encodeWithOpcode_yields h xs cs out opcode :
  holds h xs cs -> plainName opcode = Some (treeText h, []) -> yields (encodeWithOpcode rec labels out cs opcode) (writes1 labels out (Group (h :: xs))).
Proof.
  intros H Hp. eapply outcome_bind; [exact (operands out cs xs (holds_children _ _ _ H) (holds_below _ _ _ H))|]. intros out1 H1.
  eapply writes_op; [exact H1 | apply code_plain, Hp|].
  intros il Hil. eapply folded_plain; [reflexivity | left; eauto | exact Hil].
Qed.

Lemma encodeWithSIMDOpcode_yields h xs cs out n :
  holds h xs cs -> simdOpcode (treeText h) = Some n -> yields (encodeWithSIMDOpcode rec labels out cs n) (writes1 labels out (Group (h :: xs))).
Proof.
  intros H Hs. destruct (simd_opcode _ _ Hs) as [Hp Hn]. eapply outcome_bind; [exact (operands out cs xs (holds_children _ _ _ H) (holds_below _ _ _ H))|].
  intros out1 H1. cbn [yields]. rewrite appendU32_out, append_op. eapply writes_op; [exact H1 | |].
  - rewrite <- (app_nil_r (appendU32 [] n)). eapply code_prefixed; [exact (decodes_u32 n Hn) | exact Hp].
  - intros il Hil. eapply folded_plain; [reflexivity | right; eauto | exact Hil].
Qed.

Lemma encodeCall_yields h xs cs out :
  holds h xs cs -> treeText h = "call" -> yields (encodeCall source m rec labels out i cs) (writes1 labels out (Group (h :: xs))).
Proof.
  intros H Hh. unfold encodeCall. pose proof (holds_children _ _ _ H) as Hcs. pose proof (holds_below _ _ _ H) as Hlt.
  inversion Hcs as [|f x args ys Hx Hargs]; subst; [exact (fails _ _ _ _ _ _ H)|].
  inversion Hlt as [|? ? Hf Hlt']; subst. eapply outcome_bind; [exact (operands out args ys Hargs Hlt')|]. intros out1 H1.
  eapply outcome_bind; [exact (lookupIndex_yields _ _ _ _ _ _ _ Hfunctions Hx)|]. intros n [Hn Hr].
  cbn [yields]. rewrite appendU32_out, append_op. eapply writes_op; [exact H1 | |].
  - apply code_indexed; [reflexivity | exact (decodes_u32 n Hr)].
  - intros il Hil. apply folded_call; assumption.
Qed.

Lemma encodeCallIndirect_yields h xs cs out :
  holds h xs cs -> treeText h = "call_indirect" -> yields (encodeCallIndirect source m rec labels out i cs) (writes1 labels out (Group (h :: xs))).
Proof.
  intros H Hh. unfold encodeCallIndirect. cbv zeta.
  pose proof (holds_children _ _ _ H) as Hcs. pose proof (holds_below _ _ _ H) as Hlt.
  inversion Hcs as [|t x args ys Hx Hargs]; subst; [exact (fails _ _ _ _ _ _ H)|].
  inversion Hlt as [|? ? _ Hlt']; subst. destruct args as [|a args]; [exact (fails _ _ _ _ _ _ H)|].
  rewrite (listHead_represents _ _ _ Hx). destruct (String.eqb_spec (treeHead x) "type") as [Hty|]; [|exact (fails _ _ _ _ _ _ H)].
  cbn [negb tail]. destruct x as [s|s|l]; try discriminate Hty.
  destruct (childrenOf_represents _ _ _ Hx) as (parts & -> & Hparts & _).
  destruct Hparts as [|p y parts l _ Hparts]; [exact (errorf_yields _ _ _ _ _ _ Hx)|].
  destruct Hparts as [|q z parts l Hz Hparts]; [exact (errorf_yields _ _ _ _ _ _ Hx)|].
  destruct Hparts; [|exact (errorf_yields _ _ _ _ _ _ Hx)].
  eapply outcome_bind; [exact (operands out _ ys Hargs Hlt')|]. intros out1 H1.
  eapply outcome_bind; [exact (lookupIndex_yields _ _ _ _ _ _ _ Htypes Hz)|]. intros n [Hn Hr].
  cbn [yields]. rewrite (appendU32_out (appendU32 _ n)), (appendU32_out (out1 ++ [17])), append_op, <- app_assoc.
  eapply writes_op; [exact H1 | |].
  - apply code_indirect; [exact (decodes_u32 n Hr) | apply (decodes_u32 0); lia].
  - intros il Hil. apply folded_indirect; assumption.
Qed.

(** [local.get x], or an operand in front of [local.set x] and [local.tee x]. *)
Lemma encodeLocal_yields h xs cs out :
  holds h xs cs -> treeText h = "local.get" \/ treeText h = "local.set" \/ treeText h = "local.tee" ->
  yields (encodeLocal source locals rec labels out i cs (treeText h)) (writes1 labels out (Group (h :: xs))).
Proof.
  intros H Hop. unfold encodeLocal. cbv zeta.
  apply (outcome_bind _ _ (fun '(out1, name) => exists x args,
    xs = x :: args /\ represents source name x /\ writesAll labels out args out1)).
  - pose proof (holds_children _ _ _ H) as Hcs. pose proof (holds_below _ _ _ H) as Hlt.
  inversion Hcs as [|c x cs' ys Hx Hcs']; subst; [destruct (String.eqb _ _); exact (fails _ _ _ _ _ _ H)|].
    inversion Hlt as [|? ? _ Hlt']; subst.
    destruct Hcs' as [|d y cs' ys Hy Hcs'].
    { destruct (String.eqb _ _); [|exact (fails _ _ _ _ _ _ H)]. cbn. exists x, []. split; [reflexivity|]. split; [exact Hx | apply writes_nil]. }
    inversion Hlt' as [|? ? Hd _]; subst.
    destruct Hcs'; [|destruct (String.eqb _ _); exact (fails _ _ _ _ _ _ H)]. destruct (String.eqb _ _); [exact (fails _ _ _ _ _ _ H)|].
    eapply outcome_bind; [exact (operand out d y Hy Hd)|]. intros out1 H1. cbn. eauto.
  - intros [out1 name] (x & args & E & Hx & H1).
    eapply outcome_bind; [exact (lookupIndex_yields _ _ _ _ _ _ _ Hlocals Hx)|]. intros n [Hn Hr].
    cbn [yields]. rewrite appendU32_out, E.
    assert (Hf : forall il, foldedAll sc (rev labels) args il ->
      folded sc (rev labels) (Group (h :: x :: args)) (il ++ [Indexed (treeText h) n])).
    { intros il Hil. eapply folded_local; [reflexivity | exact Hop | exact Hn | exact Hil]. }
    destruct Hop as [Hop|[Hop|Hop]]; rewrite Hop in Hf |- *; cbn [String.eqb Ascii.eqb Bool.eqb]; rewrite append_op;
      (eapply writes_op; [exact H1 | apply code_indexed; [reflexivity | exact (decodes_u32 n Hr)] | exact Hf]).
Qed.

Lemma encodeGlobal_yields h xs cs out :
  holds h xs cs -> treeText h = "global.get" \/ treeText h = "global.set" ->
  yields (encodeGlobal source m rec labels out i cs (treeText h)) (writes1 labels out (Group (h :: xs))).
Proof.
  intros H Hop. unfold encodeGlobal.
  apply (outcome_bind _ _ (fun '(out1, name) => exists x args,
    xs = x :: args /\ represents source name x /\ writesAll labels out args out1)).
  - pose proof (holds_children _ _ _ H) as Hcs. pose proof (holds_below _ _ _ H) as Hlt.
  inversion Hcs as [|c x cs' ys Hx Hcs']; subst; [destruct (String.eqb _ _); exact (fails _ _ _ _ _ _ H)|].
    inversion Hlt as [|? ? _ Hlt']; subst.
    destruct Hcs' as [|d y cs' ys Hy Hcs'].
    { destruct (String.eqb _ _); [exact (fails _ _ _ _ _ _ H)|]. cbn. exists x, []. split; [reflexivity|]. split; [exact Hx | apply writes_nil]. }
    inversion Hlt' as [|? ? Hd _]; subst.
    destruct Hcs'; [|destruct (String.eqb _ _); exact (fails _ _ _ _ _ _ H)]. destruct (String.eqb _ _); [|exact (fails _ _ _ _ _ _ H)].
    eapply outcome_bind; [exact (operand out d y Hy Hd)|]. intros out1 H1. cbn. eauto.
  - intros [out1 name] (x & args & E & Hx & H1).
    eapply outcome_bind; [exact (lookupIndex_yields _ _ _ _ _ _ _ Hglobals Hx)|]. intros n [Hn Hr].
    cbn [yields]. rewrite appendU32_out, E.
    assert (Hf : forall il, foldedAll sc (rev labels) args il ->
      folded sc (rev labels) (Group (h :: x :: args)) (il ++ [Indexed (treeText h) n])).
    { intros il Hil. eapply folded_global; [reflexivity | exact Hop | exact Hn | exact Hil]. }
    destruct Hop as [Hop|Hop]; rewrite Hop in Hf |- *; cbn [String.eqb Ascii.eqb Bool.eqb]; rewrite append_op;
      (eapply writes_op; [exact H1 | apply code_indexed; [reflexivity | exact (decodes_u32 n Hr)] | exact Hf]).
Qed.

Lemma encodeReference_yields h xs cs out :
  holds h xs cs -> among (treeText h) referenceNames = true ->
  yields (encodeReference source m locals rec labels out i cs (treeText h)) (writes1 labels out (Group (h :: xs))).
Proof.
  intros H Hop. apply among_cases in Hop. unfold encodeReference.
  destruct (String.eqb_spec (treeText h) "call") as [E|]; [exact (encodeCall_yields _ _ _ _ H E)|].
  destruct (String.eqb_spec (treeText h) "call_indirect") as [E|]; [exact (encodeCallIndirect_yields _ _ _ _ H E)|].
  destruct (among _ _) eqn:Hl.
  - apply among_cases in Hl. apply encodeLocal_yields; [exact H|]. cbn in Hl. intuition congruence.
  - apply encodeGlobal_yields; [exact H|]. cbn in Hop.
    destruct Hop as [E|[E|[E|[E|[E|[E|[E|[]]]]]]]]; try congruence; try (rewrite <- E in Hl; discriminate); auto.
Qed.

Lemma encodeConstant_yields h xs cs out :
  holds h xs cs -> treeText h = "i32.const" \/ treeText h = "i64.const" ->
  yields (encodeConstant source out i cs (treeText h)) (writes1 labels out (Group (h :: xs))).
Proof.
  intros H Hop. unfold encodeConstant. pose proof (holds_children _ _ _ H) as Hcs.
  inversion Hcs as [|c x cs' ys Hx Hcs']; subst; [exact (fails _ _ _ _ _ _ H)|].
  destruct Hcs'; [|exact (fails _ _ _ _ _ _ H)].
  eapply outcome_bind; [exact (signed_yields _ _ _ Hx)|]. intros v Hv.
  destruct Hop as [E|E]; rewrite E; cbn [String.eqb Ascii.eqb Bool.eqb yields]; unfold appendI32, appendI64, appendSigned;
    rewrite append_op.
  - apply (writes_leaf _ _ (ConstI32 (wrap32 v))); [exact (code_i32 _ _ (decodes_s32 _ (wrap32_range v)))|].
    apply folded_i32; assumption.
  - apply (writes_leaf _ _ (ConstI64 v)); [exact (code_i64 _ _ (decodes_s64 _ (number_range _ _ Hv)))|].
    apply folded_i64; assumption.
Qed.

(** An instruction behind a prefix, after its operands. *)
Lemma writes_prefixed h xs out out1 p n tail :
  writesAll labels out xs out1 -> 0 <= n < 2 ^ 32 -> prefixedName p n = Some (treeText h, tail) ->
  writes1 labels out (Group (h :: xs)) (appendU32 (out1 ++ [p]) n ++ tail).
Proof.
  intros H1 Hn Hp. rewrite appendU32_out, append_op, <- app_assoc. cbn [app]. eapply writes_op; [exact H1 | |].
  - eapply code_prefixed; [exact (decodes_u32 n Hn) | exact Hp].
  - intros il Hil. eapply folded_plain; [reflexivity | right; eauto | exact Hil].
Qed.

Lemma encodeSaturatingTruncation_yields h xs cs out :
  holds h xs cs -> among (treeText h) saturatingNames = true ->
  yields (encodeSaturatingTruncation source rec labels out i cs (treeText h)) (writes1 labels out (Group (h :: xs))).
Proof.
  intros H Hop. unfold encodeSaturatingTruncation. cbv zeta.
  destruct (holds_children _ _ _ H) as [|c x cs' ys Hx Hcs'] eqn:E; [exact (fails _ _ _ _ _ _ H)|].
  destruct Hcs' as [|]; [|exact (fails _ _ _ _ _ _ H)].
  eapply outcome_bind; [exact (operands out _ _ (holds_children _ _ _ H) (holds_below _ _ _ H))|]. intros out1 H1.
  cbn [yields]. rewrite <- (app_nil_r (appendU32 _ _)). apply among_cases in Hop. cbn in Hop.
  destruct Hop as [Eh|[Eh|[Eh|[Eh|[]]]]]; rewrite <- Eh; cbn [String.eqb Ascii.eqb Bool.eqb];
    (apply writes_prefixed; [exact H1 | lia | rewrite <- Eh; reflexivity]).
Qed.

Lemma encodeBulkMemory_yields h xs cs out :
  holds h xs cs -> treeText h = "memory.copy" \/ treeText h = "memory.fill" ->
  yields (encodeBulkMemory source rec labels out i cs (treeText h)) (writes1 labels out (Group (h :: xs))).
Proof.
  intros H Hop. unfold encodeBulkMemory. step_if; [exact (fails _ _ _ _ _ _ H)|].
  eapply outcome_bind; [exact (operands out _ _ (holds_children _ _ _ H) (holds_below _ _ _ H))|]. intros out1 H1.
  destruct Hop as [Eh|Eh]; rewrite Eh; cbn [String.eqb Ascii.eqb Bool.eqb yields];
    (apply writes_prefixed; [exact H1 | lia | rewrite Eh; reflexivity]).
Qed.

Lemma encodeMemorySize_yields h xs cs out :
  holds h xs cs -> treeText h = "memory.size" \/ treeText h = "memory.grow" ->
  yields (encodeMemorySize source rec labels out i cs (treeText h)) (writes1 labels out (Group (h :: xs))).
Proof.
  intros H Hop. unfold encodeMemorySize. pose proof (holds_children _ _ _ H) as Hcs. pose proof (holds_below _ _ _ H) as Hlt.
  assert (Hplain : forall b tail args out1, plainName b = Some (treeText h, tail) -> writesAll labels out args out1 ->
    writes1 labels out (Group (h :: args)) (out1 ++ b :: tail)).
  { intros b tail args out1 Hp H1. eapply writes_op; [exact H1 | apply code_plain, Hp|].
    intros il Hil. eapply folded_plain; [reflexivity | left; eauto | exact Hil]. }
  destruct Hop as [E|E]; rewrite E in Hplain |- *; cbn [String.eqb Ascii.eqb Bool.eqb].
  - inversion Hcs; subst; [|exact (fails _ _ _ _ _ _ H)]. apply Hplain; [reflexivity | apply writes_nil].
  - inversion Hcs as [|c x cs' ys Hx Hcs']; subst; [exact (fails _ _ _ _ _ _ H)|].
    destruct Hcs'; [|exact (fails _ _ _ _ _ _ H)]. inversion Hlt as [|? ? Hc _]; subst.
    eapply outcome_bind; [exact (operand out c x Hx Hc)|]. intros out1 H1. apply Hplain; [reflexivity | exact H1].
Qed.

(** Instructions among the operands are no immediates. *)
Lemma folded_memargs ls xs il a o : foldedAll sc ls xs il -> memargs a o xs a o xs.
Proof.
  intros H. induction H as [ls|ls x xs il jl Hx _ IHx]; [constructor|]. constructor; [|exact IHx].
  destruct Hx; reflexivity.
Qed.

Lemma encodeVectorMemory_yields h xs cs out :
  holds h xs cs -> treeText h = "v128.load" \/ treeText h = "v128.store" ->
  yields (encodeVectorMemory rec labels out cs (treeText h)) (writes1 labels out (Group (h :: xs))).
Proof.
  intros H Hop. unfold encodeVectorMemory. cbv zeta.
  eapply outcome_bind; [exact (operands out _ _ (holds_children _ _ _ H) (holds_below _ _ _ H))|]. intros out1 H1.
  assert (Hn : exists n, (if String.eqb (treeText h) "v128.store" then 11 else 0) = n /\ 0 <= n < 2 ^ 32 /\
    vectorAccessName n = Some (treeText h) /\ naturalAlign (treeText h) = Some 4).
  { destruct Hop as [E|E]; rewrite E; [exists 0 | exists 11]; repeat split; lia. }
  destruct Hn as (n & -> & Hn & Hv & Ha). cbn [yields].
  rewrite (appendU32_out (appendU32 _ 4)), (appendU32_out (appendU32 _ n)), (appendU32_out (out1 ++ _)), append_op, <- !app_assoc.
  cbn [app]. eapply writes_op; [exact H1 | |].
  - eapply code_vector_access; [exact (decodes_u32 n Hn) | exact Hv | apply (decodes_u32 4); lia | apply (decodes_u32 0); lia].
  - intros il Hil. eapply folded_access; [reflexivity | exact Ha | exact (folded_memargs _ _ _ _ _ Hil) | exact Hil].
Qed.

Lemma encodeMemory_yields h xs cs out :
  holds h xs cs -> among (treeText h) memoryNames = true ->
  yields (encodeMemory source rec labels out cs (treeText h)) (writes1 labels out (Group (h :: xs))).
Proof.
  intros H Hop. unfold encodeMemory. destruct (memory_opcode _ Hop) as (b & a & -> & Hb & Ha & Hr).
  eapply outcome_bind.
  { exact (memoryImmediates_yields source i (mkArguments a 0 []) cs xs (holds_children _ _ _ H) (holds_below _ _ _ H)
      Hr (conj (Z.le_refl 0) eq_refl)). }
  intros args (ns & ys & Hops & Hrep & Hns & Hargs & Hra & Hro). cbn [maOperands maAlign maOffset app] in Hops, Hargs.
  rewrite Hops. eapply outcome_bind; [exact (operands out ns ys Hrep Hns)|]. intros out1 H1. cbn [yields].
  rewrite (appendU32_out (appendU32 _ _)), (appendU32_out (out1 ++ _)), append_op, <- app_assoc. cbn [app].
  eapply writes_op; [exact H1 | |].
  - apply code_access; [exact Hb | apply decodes_u32; lia | exact (decodes_u32 _ Hro)].
  - intros il Hil. eapply folded_access; [reflexivity | exact Ha | exact Hargs | exact Hil].
Qed.

Lemma encodeSIMDLane_yields h xs cs out n :
  holds h xs cs -> simdLaneOpcode (treeText h) = Some n ->
  yields (encodeSIMDLane source rec labels out i cs n) (writes1 labels out (Group (h :: xs))).
Proof.
  intros H Hop. unfold encodeSIMDLane. pose proof (holds_children _ _ _ H) as Hcs. pose proof (holds_below _ _ _ H) as Hlt.
  inversion Hcs as [|c x cs' ys Hx Hcs']; subst; [exact (fails _ _ _ _ _ _ H)|].
  destruct cs' as [|d cs']; [exact (fails _ _ _ _ _ _ H)|]. inversion Hlt as [|? ? _ Hlt']; subst. cbn [tail].
  eapply outcome_bind; [exact (unsigned_yields _ _ _ Hx)|]. intros v (t & E & Hv). subst x.
  eapply outcome_bind; [exact (operands out _ _ Hcs' Hlt')|]. intros out1 H1. cbn [yields].
  destruct (lane_opcode _ _ Hop) as [Hn Hr].
  rewrite appendU32_out, append_op, <- app_assoc. cbn [app]. eapply writes_op; [exact H1 | |].
  - eapply code_lane; [exact (decodes_u32 n Hr) | exact Hn].
  - intros il Hil. eapply folded_lane; [reflexivity | exact Hn | exact Hv | exact Hil].
Qed.

Lemma encodeImmediateOperation_yields h xs cs out :
  holds h xs cs -> classifyInstruction (treeText h) = binaryImmediateInstruction ->
  yields (encodeImmediateOperation source rec labels out i cs (treeText h)) (writes1 labels out (Group (h :: xs))).
Proof.
  intros H Hop. unfold encodeImmediateOperation.
  destruct (among (treeText h) ["i32.const"; "i64.const"]) eqn:H1.
  { apply among_cases in H1. cbn in H1. apply (encodeConstant_yields _ xs); [exact H | intuition congruence]. }
  destruct (among (treeText h) memoryNames) eqn:H2; [exact (encodeMemory_yields _ _ _ _ H H2)|].
  destruct (among (treeText h) ["v128.load"; "v128.store"]) eqn:H3.
  { apply among_cases in H3. cbn in H3. apply (encodeVectorMemory_yields _ xs); [exact H | intuition congruence]. }
  destruct (simdLaneOpcode (treeText h)) as [n|] eqn:H4; [exact (encodeSIMDLane_yields _ _ _ _ _ H H4)|].
  destruct (among (treeText h) ["memory.size"; "memory.grow"]) eqn:H5.
  { apply among_cases in H5. cbn in H5. apply encodeMemorySize_yields; [exact H | intuition congruence]. }
  destruct (among (treeText h) saturatingNames) eqn:H6; [exact (encodeSaturatingTruncation_yields _ _ _ _ H H6)|].
  apply encodeBulkMemory_yields; [exact H|]. unfold classifyInstruction in Hop. rewrite H1, H2, H3, H4, H6 in Hop.
  cbn [orb] in Hop. repeat (step_if; [discriminate Hop|]).
  destruct (among (treeText h) ["memory.size"; "memory.grow"; "memory.copy"; "memory.fill"]) eqn:H7; [|discriminate Hop].
  apply among_cases in H7. cbn in H7. destruct H7 as [E|[E|[E|[E|[]]]]]; auto; rewrite <- E in H5; discriminate.
Qed.

(** ** Control *)

Lemma labelDepthFrom_spec l t d n :
  labelDepthFrom l t d = Some n ->
  exists k, n = (d + k)%nat /\ l !! k = Some t /\ forall j, (j < k)%nat -> l !! j <> Some t.
Proof.
  revert d. induction l as [|x l IHl]; intros d H; [discriminate|]. cbn [labelDepthFrom] in H.
  destruct (String.eqb_spec x t) as [->|Hne].
  - injection H as <-. exists 0%nat. split; [lia|]. split; [reflexivity|]. intros j Hj; lia.
  - destruct (IHl (S d) H) as (k & -> & Hk & Hj). exists (S k). split; [lia|]. split; [exact Hk|].
    intros [|j] Hlt'; [cbn; congruence | apply Hj; lia].
Qed.

Lemma labelDepth_yields n x :
  represents source n x -> yields (labelDepth source labels n) (fun d => targets (rev labels) x d /\ 0 <= d < 2 ^ 32).
Proof.
  intros H. unfold labelDepth. rewrite (isAtom_represents _ _ _ H), (nodeText_represents _ _ _ H).
  destruct x as [t|t|l]; cbn [isAtom negb treeText]; try exact (errorf_yields _ _ _ _ _ _ H).
  destruct (symbolic t) eqn:Hs; cbn [negb].
  - destruct (labelDepthFrom (rev labels) t 0) as [d|] eqn:Hd; [|exact (errorf_yields _ _ _ _ _ _ H)].
    apply labelDepthFrom_spec in Hd as (k & -> & Hk & Hj).
    pose proof (lookup_lt_Some _ _ _ Hk) as Hlen. rewrite length_rev in Hlen.
    assert (Hr : 0 <= Z.of_nat (0 + k) < 2 ^ 32) by (unfold room in Hroom; lia).
    cbn [yields]. rewrite u32_small by exact Hr. split; [|exact Hr]. exists t. split; [reflexivity|]. rewrite Hs.
    exists k. auto.
  - eapply outcome_weaken; [exact (unsigned_yields _ _ _ H)|]. intros d (t' & E & Hd). injection E as <-.
    split; [|exact (ParseUint_range _ _ _ Hd)]. exists t. rewrite Hs. auto.
Qed.

Lemma encodeBranch_yields h xs cs out :
  holds h xs cs -> treeText h = "br" \/ treeText h = "br_if" ->
  yields (encodeBranch source rec labels out i cs (String.eqb (treeText h) "br_if")) (writes1 labels out (Group (h :: xs))).
Proof.
  intros H Hop. unfold encodeBranch. pose proof (holds_children _ _ _ H) as Hcs. pose proof (holds_below _ _ _ H) as Hlt.
  assert (Hbranch : forall b x args out1 d, indexedName b = Some (treeText h) -> writesAll labels out args out1 ->
    targets (rev labels) x d /\ 0 <= d < 2 ^ 32 ->
    writes1 labels out (Group (h :: x :: args)) (appendU32 (out1 ++ [b]) d)).
  { intros b x args out1 d Hb H1 [Hd Hr]. rewrite appendU32_out, append_op. eapply writes_op; [exact H1 | |].
    - apply code_indexed; [exact Hb | exact (decodes_u32 d Hr)].
    - intros il Hil. eapply folded_branch; [reflexivity | exact Hop | exact Hd | exact Hil]. }
  destruct Hop as [E|E]; rewrite E in Hbranch |- *; cbn [String.eqb Ascii.eqb Bool.eqb].
  - inversion Hcs as [|c x cs' ys Hx Hcs']; subst; [exact (fails _ _ _ _ _ _ H)|].
    destruct Hcs'; [|exact (fails _ _ _ _ _ _ H)].
    eapply outcome_bind; [exact (labelDepth_yields _ _ Hx)|]. intros d Hd. apply Hbranch; [reflexivity | apply writes_nil | exact Hd].
  - inversion Hcs as [|c x cs' ys Hx Hcs']; subst; [exact (fails _ _ _ _ _ _ H)|].
    inversion Hlt as [|? ? _ Hlt']; subst.
    destruct Hcs' as [|c' y cs' ys Hy Hcs']; [exact (fails _ _ _ _ _ _ H)|]. inversion Hlt' as [|? ? Hc' _]; subst.
    destruct Hcs'; [|exact (fails _ _ _ _ _ _ H)].
    eapply outcome_bind; [exact (operand out c' y Hy Hc')|]. intros out1 H1.
    eapply outcome_bind; [exact (labelDepth_yields _ _ Hx)|]. intros d Hd. apply Hbranch; [reflexivity | exact H1 | exact Hd].
Qed.

(** A body under one more label. *)
Lemma body_yields label out ns args :
  Forall2 (represents source) ns args -> below ns ->
  yields (encodeSequence rec (labels ++ [label]) out ns) (writesAll (labels ++ [label]) out args).
Proof. apply encodeSequence_yields. intros n. apply room_push, Hroom. Qed.

Lemma encodeBlock_yields h xs cs out opcode :
  holds h xs cs -> nestedName opcode = Some (treeText h) ->
  yields (encodeBlock source rec labels out cs opcode) (writes1 labels out (Group (h :: xs))).
Proof.
  intros H Hop. unfold encodeBlock. pose proof (holds_children _ _ _ H) as Hcs. pose proof (holds_below _ _ _ H) as Hlt.
  apply (outcome_bind _ _ (fun '(label, rest) => exists ys, headLabel xs = (label, ys) /\
    Forall2 (represents source) rest ys /\ below rest)).
  - destruct Hcs as [|c x cs xs Hx Hcs]; [cbn; exists []; auto|]. inversion Hlt as [|? ? Hc Hlt']; subst.
    rewrite (isAtom_represents _ _ _ Hx), (nodeText_represents _ _ _ Hx).
    destruct x as [t|t|l]; cbn [isAtom negb treeText headLabel]; [|cbn; eauto..].
    destruct (symbolic t); cbn; eauto.
  - intros [label rest] (ys & Hlabel & Hys & Hrest).
    eapply outcome_bind; [exact (blockType_yields _ i _ _ Hys Hrest)|]. intros [b body] (t & zs & Hhead & Hb & Hzs & Hbody).
    eapply outcome_bind; [exact (body_yields label _ _ _ Hzs Hbody)|]. intros out1 (il & bs & -> & Hf & Hc).
    rewrite rev_unit in Hf. cbn [yields]. rewrite <- !app_assoc. cbn [app].
    apply (writes_leaf _ _ (Nested (treeText h) t il)).
    + apply code_nested; assumption.
    + eapply folded_nested; [reflexivity | | exact Hlabel | exact Hhead | exact Hf].
      revert Hop. unfold nestedName. repeat case_match; try discriminate; intros [= <-]; auto.
Qed.

Lemma writes_if h xs out out1 tb t condition yes rest jl bs bs' no :
  treeText h = "if" -> blockHeader xs t (condition :: yes :: rest) -> treeHead yes = "then" ->
  writesAll labels out [condition] out1 -> blocktypeOf tb = Some t ->
  folded sc ("" :: rev labels) yes jl -> codes jl bs ->
  match no, rest with
  | None, [] => bs' = [11]
  | Some (kl, cs), [x] => treeHead x = "else" /\ folded sc ("" :: rev labels) x kl /\ codes kl cs /\ bs' = 5 :: cs ++ [11]
  | _, _ => False
  end ->
  writes1 labels out (Group (h :: xs)) (out1 ++ 4 :: tb :: bs ++ bs').
Proof.
  intros Hh Hhead Hyes (il & ds & -> & Hf & Hc) Htb Hjl Hbs Hno.
  assert (Hcond : folded sc (rev labels) condition il).
  { inversion Hf as [|? ? ? il' jl' Hx Hnil]; subst. inversion Hnil; subst. rewrite app_nil_r. exact Hx. }
  destruct no as [[kl cs]|]; destruct rest as [|x [|]]; try contradiction.
  - destruct Hno as (Hx & Hkl & Hcs & ->). exists (il ++ [IfElse t jl (Some kl)]), (ds ++ 4 :: tb :: bs ++ 5 :: cs ++ [11]).
    split; [rewrite <- !app_assoc; reflexivity|]. split; [eapply folded_if_else; eassumption|].
    apply codes_app; [exact Hc|]. apply codes_one. apply code_if_else; assumption.
  - subst bs'. exists (il ++ [IfElse t jl None]), (ds ++ 4 :: tb :: bs ++ [11]).
    split; [rewrite <- !app_assoc; reflexivity|]. split; [eapply folded_if; eassumption|].
    apply codes_app; [exact Hc|]. apply codes_one. apply code_if; assumption.
Qed.

Lemma encodeIf_yields h xs cs out :
  holds h xs cs -> treeText h = "if" -> yields (encodeIf source rec labels out i cs) (writes1 labels out (Group (h :: xs))).
Proof.
  intros H Hh. unfold encodeIf. cbv zeta.
  pose proof (blockType_yields source i cs xs (holds_children _ _ _ H) (holds_below _ _ _ H)) as Hbt.
  destruct (blockType source cs) as [[tb body]|f]; [|cbn in Hbt; rewrite Hbt; exact (fails _ _ _ _ _ _ H)].
  destruct Hbt as (t & ys & Hhead & Htb & Hys & Hbody).
  destruct Hys as [|n condition body ys Hx Hys]; [exact (fails _ _ _ _ _ _ H)|].
  destruct Hys as [|n' yes body ys Hy Hys]; [exact (fails _ _ _ _ _ _ H)|].
  inversion Hbody as [|? ? Hn Hbody']; subst. inversion Hbody' as [|? ? Hn' Hbody'']; subst.
  rewrite (listHead_represents _ _ _ Hy). destruct (String.eqb_spec (treeHead yes) "then") as [Hyes|]; [|exact (fails _ _ _ _ _ _ H)].
  cbn [negb]. eapply outcome_bind; [exact (operand out n condition Hx Hn)|]. intros out1 H1.
  eapply outcome_bind; [exact (IH _ _ n' yes Hn' Hy (room_push _ "" _ Hroom Hn'))|]. intros out2 (jl & bs & -> & Hjl & Hbs).
  rewrite rev_unit in Hjl.
  destruct Hys as [|n'' no body ys Hz Hys].
  { cbn [yields]. rewrite <- !app_assoc. cbn [app]. eapply (writes_if h xs out out1 tb t _ _ [] jl bs [11] None); eauto. }
  destruct Hys; [|exact (fails _ _ _ _ _ _ H)]. inversion Hbody'' as [|? ? Hn'' _]; subst.
  rewrite (listHead_represents _ _ _ Hz).
  destruct (String.eqb_spec (treeHead no) "else") as [Hno|]; [|exact (errorf_yields _ _ _ _ _ _ Hz)]. cbn [negb].
  eapply outcome_bind; [exact (IH _ _ n'' no Hn'' Hz (room_push _ "" _ Hroom Hn''))|]. intros out3 (kl & cs' & -> & Hkl & Hcs').
  rewrite rev_unit in Hkl. cbn [yields]. rewrite <- !app_assoc. cbn [app].
  eapply (writes_if h xs out out1 tb t _ _ [no] jl bs (5 :: cs' ++ [11]) (Some (kl, cs'))); eauto.
Qed.

Lemma encodeControl_yields h xs cs out :
  holds h xs cs -> among (treeText h) controlNames = true ->
  yields (encodeControl source rec labels out i cs (treeText h)) (writes1 labels out (Group (h :: xs))).
Proof.
  intros H Hop. unfold encodeControl.
  destruct (String.eqb_spec (treeText h) "block") as [E|];
    [apply encodeBlock_yields; [exact H | rewrite E; reflexivity]|].
  destruct (String.eqb_spec (treeText h) "loop") as [E|];
    [apply encodeBlock_yields; [exact H | rewrite E; reflexivity]|].
  destruct (String.eqb_spec (treeText h) "if") as [E|]; [exact (encodeIf_yields _ _ _ _ H E)|].
  destruct (String.eqb (treeText h) "br" || String.eqb (treeText h) "br_if") eqn:Hb.
  { apply (encodeBranch_yields _ _ _ _ H). apply orb_true_iff in Hb. rewrite !String.eqb_eq in Hb. exact Hb. }
  apply orb_false_iff in Hb as [Hb1 Hb2]. apply String.eqb_neq in Hb1, Hb2.
  destruct (String.eqb_spec (treeText h) "return") as [E|];
    [apply encodeWithOpcode_yields; [exact H | rewrite E; reflexivity]|].
  eapply outcome_weaken; [exact (operands out _ _ (holds_children _ _ _ H) (holds_below _ _ _ H))|].
  intros out1 (il & bs & -> & Hf & Hc). exists il, bs. split; [reflexivity|]. split; [|exact Hc].
  apply folded_sequence; [|exact Hf]. apply among_cases in Hop. cbn in Hop. intuition congruence.
Qed.
End Node.

Lemma encodeNode_yields labels out x :
  room labels i -> represents source i x -> yields (encodeNode source m locals rec labels out i) (writes1 labels out x).
Proof.
  intros Hroom Hx. unfold encodeNode. rewrite (isKind_represents _ _ _ _ Hx).
  destruct x as [t|t|l]; try exact (errorf_yields _ _ _ _ _ _ Hx). cbn [treeKind negb].
  rewrite bool_decide_eq_true_2 by reflexivity. cbn [negb].
  destruct (childrenOf_represents _ _ _ Hx) as (cs & -> & Hcs & Hlt).
  destruct Hcs as [|c h cs xs Hh Hcs]; [exact (errorf_yields _ _ _ _ _ _ Hx)|].
  inversion Hlt as [|? ? _ Hlt']; subst.
  assert (H : holds h xs cs) by (constructor; assumption).
  rewrite (nodeText_represents _ _ _ Hh).
  destruct (classifyInstruction (treeText h)) eqn:Hk.
  - destruct (simdOpcode (treeText h)) as [n|] eqn:Hs; [exact (encodeWithSIMDOpcode_yields labels Hroom _ _ _ _ _ H Hs)|].
    destruct (simpleInstructionOpcode (treeText h)) as [n|] eqn:Hs'; [|exact (errorf_yields _ _ _ _ _ _ Hx)].
    exact (encodeWithOpcode_yields labels Hroom _ _ _ _ _ H (simple_opcode _ _ Hs')).
  - apply encodeControl_yields; [exact Hroom | exact H|]. unfold classifyInstruction in Hk.
    destruct (among (treeText h) controlNames); [reflexivity|].
    repeat (step_if; [discriminate Hk|]). destruct (simdLaneOpcode _); discriminate Hk.
  - apply encodeReference_yields; [exact Hroom | exact H|]. unfold classifyInstruction in Hk.
    destruct (among (treeText h) controlNames); [discriminate Hk|].
    destruct (among (treeText h) referenceNames); [reflexivity|].
    repeat (step_if; [discriminate Hk|]). destruct (simdLaneOpcode _); discriminate Hk.
  - exact (encodeImmediateOperation_yields labels Hroom _ _ _ _ H Hk).
Qed.
End Step.

Lemma encode_yields fuel labels out i x :
  (i < fuel)%nat -> represents source i x -> room labels i ->
  yields (encode source m locals fuel labels out i) (writes1 labels out x).
Proof.
  revert labels out i x. induction fuel as [|fuel IHf]; intros labels out i x Hf Hx Hr; [lia|].
  cbn [encode]. apply encodeNode_yields; [|exact Hr | exact Hx].
  intros labels' out' n y Hn Hy Hr'. apply IHf; [lia | exact Hy | exact Hr'].
Qed.

(** The instructions of a body, between its declarations. *)
Lemma bodyInstructions_yields out cs xs n :
  Forall2 (represents source) cs xs -> Forall (fun c => (c < n)%nat) cs -> Z.of_nat n < 2 ^ 32 ->
  yields (bodyInstructions source m locals out cs) (writesAll [] out (List.filter isInstruction xs)).
Proof.
  intros Hall. revert out. induction Hall as [|c x cs xs Hx _ IH]; intros out Hlt Hn; [apply writes_nil|].
  inversion Hlt as [|? ? Hc Hlt']; subst. cbn [bodyInstructions List.filter].
  rewrite (listHead_represents _ _ _ Hx), (isAtom_represents _ _ _ Hx), (nodeText_represents _ _ _ Hx).
  unfold isInstruction at 1. destruct (among (treeHead x) _); cbn [negb andb]; [exact (IH out Hlt' Hn)|].
  assert (Hname : (if isAtom x then Ok (symbolic (treeText x)) else Ok (E := fault) false) = Ok (isAtom x && symbolic (treeText x)))
    by (destruct (isAtom x); reflexivity).
  rewrite Hname. destruct (isAtom x && symbolic (treeText x)); cbn [negb]; [exact (IH out Hlt' Hn)|].
  eapply outcome_bind; [apply (encode_yields (S c) [] out c x); [lia | exact Hx | unfold room; cbn; lia]|].
  intros out1 H1. eapply outcome_weaken; [exact (IH out1 Hlt' Hn)|]. intros out2. exact (writes_cons _ _ _ _ _ _ H1).
Qed.
End Encoding.
