(* ===== verification/WasmLower.v ===== *)
(** * The index spaces say what the declarations mean ([internal/wasm/binary.go])

    [lowerBinaryModule] on a parsed module: it ends without a panic, and the lists
    and maps it builds hold each declaration, its names and its references as
    [WasmMeaning] reads them.  The encoding of those lists is in
    [WasmBinaryTheorems]. *)

From stdpp Require Import base list strings gmap.
From Stdlib Require Import ZArith Lia String Ascii.
From S2P Require Import Prelude GoStd WasmModule WasmModuleFacts WasmBytes WasmFormat WasmBinary WasmInstruction WasmMeaning WasmEncode.

#[local] Open Scope Z_scope.
#[local] Open Scope list_scope.

(** A shape the code refuses with an error at a node. *)
Ltac wrong H := exact (errorf_yields _ _ _ _ _ _ H).

(** ** Names in a map *)

(** The map holds each name at its place, once. *)
Record named (table : gmap string Z) (names : list string) : Prop := {
  named_nodup : NoDup names;
  named_index : forall t n, table !! t = Some n -> indexOf names t n;
  named_in : forall t, t ∈ names -> is_Some (table !! t)
}.

Lemma named_empty : named ∅ [].
Proof.
  split; [constructor| |].
  - intros t n H. rewrite lookup_empty in H. discriminate.
  - intros t H. inversion H.
Qed.

Lemma indexOf_app names more t n : indexOf names t n -> indexOf (names ++ more) t n.
Proof. intros (k & Hk & ->). exists k. split; [apply lookup_app_l_Some; exact Hk | reflexivity]. Qed.

Lemma named_insert table names t n :
  named table names -> table !! t = None -> n = Z.of_nat (List.length names) ->
  named (<[t := n]> table) (names ++ [t]).
Proof.
  intros [Hnd Hix Hin] Hnew ->. split.
  - apply NoDup_app. split; [exact Hnd|]. split; [|apply NoDup_singleton].
    intros x Hx Hx'. apply list_elem_of_singleton in Hx' as ->. destruct (Hin _ Hx). congruence.
  - intros x k Hx. destruct (decide (x = t)) as [->|Hne].
    + rewrite lookup_insert_eq in Hx. injection Hx as <-. exists (List.length names).
      split; [apply list_lookup_middle; reflexivity | reflexivity].
    + rewrite lookup_insert_ne in Hx by congruence. apply indexOf_app, Hix, Hx.
  - intros x Hx. destruct (decide (x = t)) as [->|Hne]; [rewrite lookup_insert_eq; eauto|].
    rewrite lookup_insert_ne by congruence. apply Hin. apply elem_of_app in Hx as [Hx|Hx]; [exact Hx|].
    apply list_elem_of_singleton in Hx. congruence.
Qed.

Lemma named_placed table names : named table names -> Z.of_nat (List.length names) <= 2 ^ 32 -> placed names table.
Proof.
  intros H Hlen t n Hn. pose proof (named_index _ _ H _ _ Hn) as Hi. split; [exact Hi|].
  destruct Hi as (k & Hk & ->). apply lookup_lt_Some in Hk. lia.
Qed.

Lemma resolves_app names more x n : resolves names x n -> resolves (names ++ more) x n.
Proof. intros (t & -> & H). exists t. split; [reflexivity|]. destruct (symbolic t); [apply indexOf_app, H | exact H]. Qed.

(** ** Signatures *)

Definition namedCoded (t : binaryNamedType) (p : string * valtype) : Prop :=
  ntName t = fst p /\ valtypeOf (ntCode t) = Some (snd p).

Definition codedTypes : list Z -> list valtype -> Prop := Forall2 (fun b t => valtypeOf b = Some t).

Definition typeCoded (t : binaryFuncType) (f : functype) : Prop :=
  codedTypes (params t) (ftParams f) /\ codedTypes (results t) (ftResults f).

Lemma codedTypes_named l ps : Forall2 namedCoded l ps -> codedTypes (map ntCode l) (map snd ps).
Proof. induction 1 as [|t p l ps [_ H] _ IH]; constructor; assumption. Qed.

Section Signatures.
Variable source : WatModule.

Lemma namedTypes_yields name cs xs :
  Forall2 (represents source) cs xs ->
  yields (namedTypes source name cs) (fun l => exists ps,
    mapM (fun x => match treeValtype x with Some t => Some (name, t) | None => None end) xs = Some ps /\
    Forall2 namedCoded l ps).
Proof.
  induction 1 as [|c x cs xs Hx _ IH]; cbn [namedTypes]; [cbn; exists []; split; [reflexivity | constructor]|].
  rewrite (isAtom_represents _ _ _ Hx).
  destruct (isAtom x); cbn [negb]; [|exact (errorf_yields _ _ _ _ _ _ Hx)].
  eapply outcome_bind; [exact (valueType_yields _ _ _ Hx)|]. intros b (t & Ht & Hb).
  eapply outcome_bind; [exact IH|]. intros l (ps & Hps & Hl). cbn [yields]. exists ((name, t) :: ps).
  split; [cbn; rewrite Ht; cbn; cbn in Hps; rewrite Hps; reflexivity|]. constructor; [split; [reflexivity | exact Hb] | exact Hl].
Qed.

Lemma parseNamedTypes_yields i l allowName :
  represents source i (Group l) ->
  yields (parseNamedTypes source i allowName) (fun nts => exists ps,
    treeNamed allowName (tail l) = Some ps /\ Forall2 namedCoded nts ps).
Proof.
  intros Hi. unfold parseNamedTypes. destruct (childrenOf_represents _ _ _ Hi) as (cs & -> & Hcs & _).
  assert (Hempty : yields (let* head := listHead source i in errorf source i "empty %s declaration" [head])
    (fun nts => exists ps, treeNamed allowName (tail l) = Some ps /\ Forall2 namedCoded nts ps)).
  { rewrite (listHead_represents _ _ _ Hi). exact (errorf_yields _ _ _ _ _ _ Hi). }
  destruct Hcs as [|c0 x0 cs l _ Hcs]; [exact Hempty|]. destruct Hcs as [|c x cs xs Hx Hcs]; [exact Hempty|].
  cbn [tail treeNamed]. rewrite (isAtom_represents _ _ _ Hx), (nodeText_represents _ _ _ Hx).
  assert (Hnamed : (if allowName then Ok (isAtom x) else Ok (E := fault) false) = Ok (allowName && isAtom x))
    by (destruct allowName; reflexivity). rewrite Hnamed.
  assert (Hsym : (if allowName && isAtom x then Ok (symbolic (treeText x)) else Ok (E := fault) false) =
    Ok (allowName && isAtom x && symbolic (treeText x))) by (destruct (allowName && isAtom x); reflexivity).
  rewrite Hsym. destruct (allowName && isAtom x && symbolic (treeText x)).
  - destruct Hcs as [|d y cs xs Hy Hcs]; [exact (errorf_yields _ _ _ _ _ _ Hi)|].
    destruct Hcs; [|exact (errorf_yields _ _ _ _ _ _ Hi)]. cbn [List.length Nat.eqb negb].
    eapply outcome_weaken; [exact (namedTypes_yields (treeText x) [d] [y] (List.Forall2_cons _ _ Hy (List.Forall2_nil _)))|].
    intros nts (ps & Hps & Hnts). exists ps. split; [|exact Hnts]. cbn in Hps. destruct (treeValtype y); [|discriminate].
    exact Hps.
  - exact (namedTypes_yields "" _ _ (List.Forall2_cons _ _ Hx Hcs)).
Qed.

(** What has been read agrees with the signature of the tree. *)
Definition signatureCoded (s : signature) (t : treeSignature) : Prop :=
  Forall2 namedCoded (sgParams s) (tsParams t) /\ codedTypes (sgResults s) (tsResults t) /\
  Forall2 namedCoded (sgLocals s) (tsLocals t).

Lemma functionParts_yields s t cs xs :
  Forall2 (represents source) cs xs -> signatureCoded s t ->
  yields (functionParts source s cs) (fun s' => exists t', signatureFrom t xs = Some t' /\ signatureCoded s' t').
Proof.
  intros Hall. revert s t. induction Hall as [|c x cs xs Hx _ IH]; intros s t (Hp & Hr & Hl); cbn [functionParts signatureFrom].
  { cbn. exists t. split; [reflexivity | exact (conj Hp (conj Hr Hl))]. }
  rewrite (listHead_represents _ _ _ Hx).
  assert (Hgroup : forall allow head, treeHead x = head -> head <> "" ->
    yields (parseNamedTypes source c allow) (fun nts => exists ps, treeNamed allow (itemsOf x) = Some ps /\ Forall2 namedCoded nts ps)).
  { intros allow head Hh Hne. destruct x as [u|u|l]; try (cbn in Hh; congruence).
    pose proof (parseNamedTypes_yields c l allow Hx) as H. destruct l; exact H. }
  destruct (String.eqb_spec (treeHead x) "param") as [E|_].
  { eapply outcome_bind; [exact (Hgroup true _ E ltac:(discriminate))|]. intros nts (ps & -> & Hnts).
    apply IH. split; [apply Forall2_app; assumption | auto]. }
  destruct (String.eqb_spec (treeHead x) "result") as [E|_].
  { eapply outcome_bind; [exact (Hgroup false _ E ltac:(discriminate))|]. intros nts (ps & -> & Hnts).
    apply IH. split; [exact Hp|]. split; [|exact Hl]. apply Forall2_app; [exact Hr | apply codedTypes_named, Hnts]. }
  destruct (String.eqb_spec (treeHead x) "local") as [E|_].
  { eapply outcome_bind; [exact (Hgroup true _ E ltac:(discriminate))|]. intros nts (ps & -> & Hnts).
    apply IH. split; [exact Hp|]. split; [exact Hr | apply Forall2_app; assumption]. }
  apply IH. exact (conj Hp (conj Hr Hl)).
Qed.

Definition functionCoded (x : wat) (r : binaryFuncType * list binaryNamedType * list binaryNamedType) : Prop :=
  let '(t, ps, ls) := r in
  exists s, signatureTree x = Some s /\ typeCoded t (typeOfSignature s) /\
    Forall2 namedCoded ps (tsParams s) /\ Forall2 namedCoded ls (tsLocals s) /\ List.length ps = List.length (params t).

Lemma parseFunctionType_yields i x :
  represents source i x -> yields (parseFunctionType source i) (fun r => treeHead x = "func" /\ functionCoded x r).
Proof.
  intros Hx. unfold parseFunctionType. rewrite (listHead_represents _ _ _ Hx).
  destruct (String.eqb_spec (treeHead x) "func") as [E|]; [|exact (errorf_yields _ _ _ _ _ _ Hx)]. cbn [negb].
  destruct x as [u|u|l]; try discriminate E.
  destruct (childrenOf_represents _ _ _ Hx) as (cs & -> & Hcs & _).
  destruct Hcs as [|c h cs xs _ Hcs]; [discriminate E|]. cbn [tail].
  eapply outcome_bind.
  { apply (functionParts_yields (mkSignature [] [] []) (mkTreeSignature [] [] []) cs xs Hcs). repeat split; constructor. }
  intros s (t & Ht & Hp & Hr & Hl). cbn [yields]. split; [exact E|]. exists t. split; [exact Ht|].
  split; [split; [apply codedTypes_named, Hp | exact Hr]|]. split; [exact Hp|]. split; [exact Hl|].
  cbn. rewrite length_map. reflexivity.
Qed.
End Signatures.

(** ** The walk over the declarations of a kind *)

Lemma headed_split head l l' : headed head (l ++ l') = headed head l ++ headed head l'.
Proof. apply List.filter_app. Qed.

Lemma eachHeaded_yields source head add ds xs (P : list wat -> binaryModule -> Prop) :
  Forall2 (represents source) ds xs ->
  (forall d x done m, represents source d x -> treeHead x = head ->
     (List.length done < List.length (headed head xs))%nat -> P done m -> yields (add m d) (P (done ++ [x]))) ->
  forall m, P [] m -> yields (eachHeaded source head add m ds) (P (headed head xs)).
Proof.
  intros Hall Hadd m Hm.
  assert (Hgen : forall ds xs', Forall2 (represents source) ds xs' -> forall done m, done ++ headed head xs' = headed head xs ->
    P done m -> yields (eachHeaded source head add m ds) (P (headed head xs))).
  { clear m Hm Hall ds. intros ds xs' Hall. induction Hall as [|d x ds xs' Hx _ IH]; intros done m Hsplit Hm.
    { cbn in *. rewrite app_nil_r in Hsplit. subst done. exact Hm. }
    cbn [eachHeaded headed List.filter] in *. rewrite (listHead_represents _ _ _ Hx).
    destruct (String.eqb_spec (treeHead x) head) as [E|_]; cbn [negb]; [|exact (IH done m Hsplit Hm)].
    eapply outcome_bind.
    { apply (Hadd d x done m Hx E); [|exact Hm]. rewrite <- Hsplit, length_app. cbn. lia. }
    intros m' Hm'. apply (IH (done ++ [x])); [rewrite <- app_assoc; exact Hsplit | exact Hm']. }
  exact (Hgen ds xs Hall [] m eq_refl Hm).
Qed.

(** The kinds are apart. *)
Lemma headed_count l :
  (List.length (headed "type" l) + List.length (headed "import" l) + List.length (headed "func" l) <= List.length l)%nat.
Proof.
  induction l as [|x l IH]; [apply Nat.le_refl|]. cbn [headed List.filter List.length] in *.
  destruct (String.eqb_spec (treeHead x) "type") as [E|_], (String.eqb_spec (treeHead x) "import") as [E'|_],
    (String.eqb_spec (treeHead x) "func") as [E''|_]; try congruence; cbn [List.length]; unfold headed in IH; lia.
Qed.

(** ** The first three walks *)

Definition hasTypeB (types : list binaryFuncType) (n : Z) (s : treeSignature) : Prop :=
  exists k t, n = Z.of_nat k /\ types !! k = Some t /\ typeCoded t (typeOfSignature s).

Lemma hasTypeB_app types more n s : hasTypeB types n s -> hasTypeB (types ++ more) n s.
Proof. intros (k & t & -> & Hk & Ht). exists k, t. split; [reflexivity|]. split; [apply lookup_app_l_Some, Hk | exact Ht]. Qed.

Section Walks.
Variable source : WatModule.
Variable decls : list wat.
Hypothesis Hsize : Z.of_nat (List.length decls) < 2 ^ 32.

Definition typeB (d : wat) (t : binaryFuncType) : Prop :=
  exists h name func s, d = Group [h; Atom name; func] /\ treeHead func = "func" /\
    signatureTree func = Some s /\ typeCoded t (typeOfSignature s).

Definition importB (types : list binaryFuncType) (d : wat) (i : binaryImport) : Prop :=
  exists h a b func s, d = Group [h; a; b; func] /\ treeHead func = "func" /\
    quotedBytes a (impModule i) /\ quotedBytes b (impName i) /\ signatureTree func = Some s /\ hasTypeB types (impType i) s.

Definition functionB (types : list binaryFuncType) (d : wat) (f : binaryFunction) : Prop :=
  represents source (fnNode f) d /\ exists s, signatureTree d = Some s /\ hasTypeB types (fnType f) s /\
    Forall2 namedCoded (fnParams f) (tsParams s) /\ Forall2 namedCoded (fnLocals f) (tsLocals s).

(** What the lists hold when these types, imports and functions have been read. *)
Record indexed (Ty Im Fn : list wat) (m : binaryModule) : Prop := {
  ix_types : named (bTypeNames m) (map nameOf Ty);
  ix_declared : exists declared more, bTypes m = declared ++ more /\ Forall2 typeB Ty declared;
  ix_coded : Forall (fun t => exists f, typeCoded t f) (bTypes m);
  ix_count : (List.length (bTypes m) <= List.length Ty + List.length Im + List.length Fn)%nat;
  ix_functions : named (bFunctionNames m) (map importedName Im ++ map nameOf Fn);
  ix_imports : Forall2 (importB (bTypes m)) Im (bImports m);
  ix_defined : Forall2 (functionB (bTypes m)) Fn (bFunctions m);
  ix_rest : bTables m = [] /\ bMemories m = [] /\ bGlobals m = [] /\ bGlobalNames m = ∅ /\ bExports m = [] /\
            bElements m = [] /\ bData m = []
}.

Lemma importB_app types more d i : importB types d i -> importB (types ++ more) d i.
Proof.
  intros (h & a & b & func & s & -> & Hf & Ha & Hb & Hs & Ht). exists h, a, b, func, s.
  repeat (split; [assumption || reflexivity|]). apply hasTypeB_app, Ht.
Qed.

Lemma functionB_app types more d f : functionB types d f -> functionB (types ++ more) d f.
Proof. intros (Hr & s & Hs & Ht & Hrest). split; [exact Hr|]. exists s. split; [exact Hs|]. split; [apply hasTypeB_app, Ht | exact Hrest]. Qed.

Lemma indexed_empty : indexed [] [] [] emptyBinary.
Proof.
  constructor.
  - exact named_empty.
  - exists [], []. split; [reflexivity | constructor].
  - constructor.
  - apply Nat.le_refl.
  - exact named_empty.
  - constructor.
  - constructor.
  - cbn. auto 10.
Qed.

(** A headed declaration and its children. *)
Lemma headed_children head d x :
  represents source d x -> treeHead x = head -> head <> "" ->
  exists c cs xs, x = Group (Atom head :: xs) /\ childrenOf source d = Ok (c :: cs) /\
    represents source c (Atom head) /\ Forall2 (represents source) cs xs.
Proof.
  intros Hx Hh Hne. destruct x as [t|t|l]; try (cbn in Hh; congruence).
  destruct (childrenOf_represents _ _ _ Hx) as (cs & Hcs & Hall & _).
  destruct Hall as [|c y cs l Hy Hall]; [cbn in Hh; congruence|].
  destruct y as [t|t|l']; try (cbn in Hh; congruence). cbn in Hh. subst t. exists c, cs, l. auto.
Qed.

Lemma addTypeDeclaration_yields d x done m :
  represents source d x -> treeHead x = "type" -> Z.of_nat (List.length done) < 2 ^ 32 ->
  indexed done [] [] m /\ List.length (bTypes m) = List.length done ->
  yields (addTypeDeclaration source m d) (fun m' =>
    indexed (done ++ [x]) [] [] m' /\ List.length (bTypes m') = List.length (done ++ [x])).
Proof.
  intros Hx Hh Hlen [Hm Hcount]. unfold addTypeDeclaration.
  destruct (headed_children _ _ _ Hx Hh ltac:(discriminate)) as (c & cs & xs & -> & -> & _ & Hall).
  destruct Hall as [|n y cs xs Hy Hall]; [wrong Hx|]. destruct Hall as [|f z cs xs Hz Hall]; [wrong Hx|].
  destruct Hall; [|wrong Hx].
  rewrite (isAtom_represents _ _ _ Hy), (isKind_represents _ _ _ _ Hz), (listHead_represents _ _ _ Hz), (nodeText_represents _ _ _ Hy).
  step_if; [wrong Hx|]. apply orb_false_iff in Hif as [Hif Hf]. apply orb_false_iff in Hif as [Hatom _].
  apply negb_false_iff in Hatom, Hf. apply String.eqb_eq in Hf.
  destruct y as [t|t|l]; try discriminate Hatom. cbn [treeText].
  step_if; [wrong Hy|]. destruct (bTypeNames m !! t) as [k|] eqn:Hnew; [wrong Hy|].
  eapply outcome_bind; [exact (parseFunctionType_yields _ _ _ Hz)|]. intros [[ft ps] ls] [_ (s & Hs & Hft & _)].
  cbn [yields]. destruct Hm as [H1 (declared & more & H2 & H2') H0 H3 H4 H5 H6 H7].
  assert (Hmore : more = []).
  { apply Forall2_length in H2'. apply (f_equal (@List.length _)) in H2. rewrite length_app in H2.
    destruct more; [reflexivity | cbn in H2; lia]. }
  subst more. rewrite app_nil_r in H2. rewrite !length_app. cbn [List.length putType putTypeName bTypes].
  rewrite length_app, Hcount. split; [|reflexivity]. constructor; cbn [putType putTypeName bTypes bTypeNames bFunctionNames bImports
    bFunctions bTables bMemories bGlobals bGlobalNames bExports bElements bData].
  - rewrite map_app. apply named_insert; [exact H1 | exact Hnew|]. rewrite length_map, <- Hcount.
    unfold count. apply u32_small. lia.
  - exists (declared ++ [ft]), []. rewrite H2, app_nil_r. split; [reflexivity|]. apply Forall2_app; [exact H2'|].
    constructor; [|constructor]. exists (Atom "type"), t, z, s. auto.
  - apply Forall_app. split; [exact H0|]. constructor; [eauto | constructor].
  - rewrite length_app, Hcount, length_app. cbn. lia.
  - exact H4.
  - inversion H5. constructor.
  - inversion H6. constructor.
  - exact H7.
Qed.

Lemma findType_spec types t i k :
  findType types t i = Some k -> exists j, k = (i + j)%nat /\ types !! j = Some t.
Proof.
  revert i. induction types as [|t' types IH]; intros i H; [discriminate|]. cbn [findType] in H.
  destruct (sameType t' t) eqn:Hs.
  - injection H as <-. exists 0%nat. split; [lia|]. unfold sameType in Hs.
    rewrite andb_true_iff, !bool_decide_eq_true in Hs. destruct t, t'. cbn in Hs. destruct Hs as [-> ->]. reflexivity.
  - destruct (IH _ H) as (j & -> & Hj). exists (S j). split; [lia | exact Hj].
Qed.

Lemma internType_spec m t n m' :
  internType m t = (n, m') -> Z.of_nat (List.length (bTypes m)) < 2 ^ 32 ->
  (m' = m \/ m' = putType m t) /\ exists k, n = Z.of_nat k /\ bTypes m' !! k = Some t.
Proof.
  unfold internType. intros H Hlen. destruct (findType (bTypes m) t 0) as [k|] eqn:Hf; injection H as <- <-.
  - apply findType_spec in Hf as (j & -> & Hj). pose proof (lookup_lt_Some _ _ _ Hj) as Hlt.
    split; [auto|]. exists j. split; [apply u32_small; cbn; lia | exact Hj].
  - split; [auto|]. exists (List.length (bTypes m)). split; [apply u32_small; lia|]. cbn. apply list_lookup_middle. reflexivity.
Qed.

(** An interned signature leaves everything but the types as it is. *)
Lemma indexed_intern Ty Im Fn m t n m' s :
  indexed Ty Im Fn m -> internType m t = (n, m') -> Z.of_nat (List.length (bTypes m)) < 2 ^ 32 ->
  typeCoded t (typeOfSignature s) ->
  hasTypeB (bTypes m') n s /\ named (bTypeNames m') (map nameOf Ty) /\
  (exists declared more, bTypes m' = declared ++ more /\ Forall2 typeB Ty declared) /\
  Forall (fun t => exists f, typeCoded t f) (bTypes m') /\
  (List.length (bTypes m') <= S (List.length Ty + List.length Im + List.length Fn))%nat /\
  bFunctionNames m' = bFunctionNames m /\ bImports m' = bImports m /\ bFunctions m' = bFunctions m /\
  Forall2 (importB (bTypes m')) Im (bImports m) /\ Forall2 (functionB (bTypes m')) Fn (bFunctions m) /\
  (bTables m' = [] /\ bMemories m' = [] /\ bGlobals m' = [] /\ bGlobalNames m' = ∅ /\ bExports m' = [] /\
   bElements m' = [] /\ bData m' = []).
Proof.
  intros [H1 (declared & more & H2 & H2') H0 H3 H4 H5 H6 H7] Hi Hlen Ht.
  destruct (internType_spec _ _ _ _ Hi Hlen) as [Hm (k & Hn & Hk)].
  split; [exists k, t; auto|]. destruct Hm as [->| ->].
  - split; [exact H1|]. split; [exists declared, more; auto|]. split; [exact H0|]. split; [lia|]. auto 10.
  - cbn [putType bTypes bTypeNames bFunctionNames bImports bFunctions bTables bMemories bGlobals bGlobalNames bExports bElements bData].
    split; [exact H1|]. split; [exists declared, (more ++ [t]); rewrite H2, app_assoc; auto|].
    split; [apply Forall_app; split; [exact H0 | constructor; [eauto | constructor]]|].
    split; [rewrite length_app; cbn; lia|].
    split; [reflexivity|]. split; [reflexivity|]. split; [reflexivity|].
    split; [eapply Forall2_impl; [exact H5|]; intros; apply importB_app; assumption|].
    split; [eapply Forall2_impl; [exact H6|]; intros; apply functionB_app; assumption|]. exact H7.
Qed.

Lemma decodeBytes_answers t : yields (decodeBytes t) (fun _ => True).
Proof.
  induction t as [t IH] using (Wf_nat.induction_ltof1 _ String.length). unfold ltof in IH.
  assert (Hthen : forall u b, (String.length u < String.length t)%nat ->
    yields (let* out := decodeBytes u in Ok (b :: out)) (fun _ => True)).
  { intros u b Hu. eapply outcome_bind; [exact (IH u Hu) | intros; exact I]. }
  destruct t as [|c t]; [exact I|]. cbn [decodeBytes String.length] in *.
  destruct (negb (Ascii.eqb c "\")); [apply Hthen; lia|]. destruct t as [|c1 t]; [reflexivity|]. cbn [String.length] in *.
  assert (Hsingle : yields match simpleEscape c1 with
    | Some b => let* out := decodeBytes t in Ok (b :: out)
    | None => Err (Errorf "wasm error: invalid generated WAT: invalid string escape" []) end (fun _ => True)).
  { destruct (simpleEscape c1); [apply Hthen; lia | reflexivity]. }
  destruct t as [|c2 t]; [exact Hsingle|]. cbn [String.length] in *.
  destruct (hexNibble c1), (hexNibble c2); try exact Hsingle. apply Hthen. lia.
Qed.

Lemma quotedBytes_yields i x : represents source i x -> yields (ModuleStringBytes source i) (quotedBytes x).
Proof.
  intros H. unfold ModuleStringBytes. rewrite (nodeKind_represents _ _ _ H).
  destruct x as [t|t|l]; try reflexivity. rewrite decide_False by (cbn; auto). rewrite (nodeText_represents _ _ _ H).
  cbn [treeText]. pose proof (decodeBytes_answers t) as Ha. destruct (decodeBytes t) as [bs|e] eqn:Hd; [exists t; auto | exact Ha].
Qed.

Lemma addImport_yields Ty done d x m :
  represents source d x -> treeHead x = "import" ->
  Z.of_nat (List.length Ty + List.length done) < 2 ^ 32 ->
  indexed Ty done [] m -> yields (addImport source m d) (indexed Ty (done ++ [x]) []).
Proof.
  intros Hx Hh Hlen Hm. unfold addImport.
  destruct (headed_children _ _ _ Hx Hh ltac:(discriminate)) as (c & cs & xs & -> & -> & _ & Hall).
  destruct Hall as [|a y cs xs Hy Hall]; [wrong Hx|]. destruct Hall as [|b z cs xs Hz Hall]; [wrong Hx|].
  destruct Hall as [|f w cs xs Hw Hall]; [wrong Hx|]. destruct Hall; [|wrong Hx].
  rewrite !(isKind_represents _ _ _ _ Hy), !(isKind_represents _ _ _ _ Hz), (listHead_represents _ _ _ Hw).
  step_if; [wrong Hx|].
  eapply outcome_bind; [exact (quotedBytes_yields _ _ Hy)|]. intros mb Hmb.
  eapply outcome_bind; [exact (quotedBytes_yields _ _ Hz)|]. intros nb Hnb.
  eapply outcome_bind; [exact (parseFunctionType_yields _ _ _ Hw)|]. intros [[ft ps] ls] [Hfunc (s & Hs & Hft & Hps & _ & Hpl)].
  destruct (headed_children _ _ _ Hw Hfunc ltac:(discriminate)) as (c' & cs' & ws & -> & -> & _ & Hws).
  destruct Hws as [|n v cs' ws Hv Hws]; [wrong Hw|].
  rewrite (isAtom_represents _ _ _ Hv), (nodeText_represents _ _ _ Hv).
  step_if; [wrong Hw|]. step_if; [wrong Hv|]. step_if; [wrong Hw|].
  destruct (bFunctionNames m !! treeText v) as [k|] eqn:Hnew; [wrong Hv|].
  destruct (internType m ft) as [typ m'] eqn:Hi. cbn [yields].
  pose proof (ix_count _ _ _ _ Hm) as Hcount. cbn [List.length] in Hcount.
  destruct (indexed_intern _ _ _ _ _ _ _ s Hm Hi ltac:(lia) Hft) as (Ht & H1 & H2 & H0 & H3 & E1 & E2 & E3 & H4 & H5 & H6).
  assert (Himp : List.length (bImports m) = List.length done).
  { pose proof (Forall2_length _ _ _ (ix_imports _ _ _ _ Hm)). congruence. }
  assert (Hnone : bFunctions m = []) by (pose proof (ix_defined _ _ _ _ Hm) as Hd; inversion Hd; reflexivity).
  constructor; cbn [putImport putFunctionName bTypes bTypeNames bFunctionNames bImports
    bFunctions bTables bMemories bGlobals bGlobalNames bExports bElements bData].
  - exact H1.
  - exact H2.
  - exact H0.
  - rewrite length_app. cbn [List.length]. cbn [List.length] in H3. lia.
  - cbn [map]. rewrite app_nil_r, map_app, E1, E2. apply named_insert; [|exact Hnew|].
    + pose proof (ix_functions _ _ _ _ Hm) as Hf. cbn [map] in Hf. rewrite app_nil_r in Hf. exact Hf.
    + rewrite length_map. unfold count. rewrite Himp. apply u32_small. lia.
  - rewrite E2. apply Forall2_app; [exact H4|]. constructor; [|constructor].
    exists (Atom "import"), y, z, (Group (Atom "func" :: v :: ws)), s. auto 10.
  - rewrite E3, Hnone. constructor.
  - exact H6.
Qed.

Lemma addFunction_yields Ty Im done d x m :
  represents source d x -> treeHead x = "func" ->
  Z.of_nat (List.length Ty + List.length Im + List.length done) < 2 ^ 32 ->
  indexed Ty Im done m -> yields (addFunction source m d) (indexed Ty Im (done ++ [x])).
Proof.
  intros Hx Hh Hlen Hm. unfold addFunction.
  destruct (headed_children _ _ _ Hx Hh ltac:(discriminate)) as (c & cs & xs & Ex & Ecs & _ & Hall). rewrite Ecs.
  destruct Hall as [|n v cs xs Hv Hall]; [wrong Hx|].
  rewrite (isAtom_represents _ _ _ Hv), (nodeText_represents _ _ _ Hv).
  step_if; [wrong Hx|]. step_if; [wrong Hv|].
  destruct (bFunctionNames m !! treeText v) as [k|] eqn:Hnew; [wrong Hv|].
  eapply outcome_bind; [exact (parseFunctionType_yields _ _ _ Hx)|]. intros [[ft ps] ls] [_ (s & Hs & Hft & Hps & Hls & _)].
  destruct (internType m ft) as [typ m'] eqn:Hi. cbn [yields].
  pose proof (ix_count _ _ _ _ Hm) as Hcount.
  destruct (indexed_intern _ _ _ _ _ _ _ s Hm Hi ltac:(lia) Hft) as (Ht & H1 & H2 & H0 & H3 & E1 & E2 & E3 & H4 & H5 & H6).
  assert (Himp : List.length (bImports m) = List.length Im).
  { pose proof (Forall2_length _ _ _ (ix_imports _ _ _ _ Hm)). congruence. }
  assert (Hfns : List.length (bFunctions m) = List.length done).
  { pose proof (Forall2_length _ _ _ (ix_defined _ _ _ _ Hm)). congruence. }
  constructor; cbn [putFunction putFunctionName bTypes bTypeNames bFunctionNames bImports
    bFunctions bTables bMemories bGlobals bGlobalNames bExports bElements bData].
  - exact H1.
  - exact H2.
  - exact H0.
  - rewrite length_app. cbn [List.length]. lia.
  - rewrite map_app, app_assoc, E1, E2, E3. cbn [map].
    replace (nameOf x) with (treeText v) by (rewrite Ex; reflexivity).
    apply named_insert; [exact (ix_functions _ _ _ _ Hm) | exact Hnew|].
    rewrite length_app, !length_map, Himp, Hfns. apply u32_small. lia.
  - rewrite E2. exact H4.
  - rewrite E3. apply Forall2_app; [exact H5|]. constructor; [|constructor]. split; [exact Hx|]. exists s. auto.
  - exact H6.
Qed.

Abbreviation Types := (headed "type" decls).
Abbreviation Imports := (headed "import" decls).
Abbreviation Functions := (headed "func" decls).

Lemma walks_yields ds :
  Forall2 (represents source) ds decls ->
  yields (let* m := addTypeDeclarations source emptyBinary ds in
          let* m := addImports source m ds in addFunctions source m ds) (indexed Types Imports Functions).
Proof.
  intros Hall. pose proof (headed_count decls) as Hcount.
  eapply outcome_bind.
  { apply (eachHeaded_yields source "type" _ ds decls
      (fun done m => indexed done [] [] m /\ List.length (bTypes m) = List.length done) Hall).
    - intros d x done m Hx Hh Hlen Hm. apply addTypeDeclaration_yields; [exact Hx | exact Hh | lia | exact Hm].
    - split; [exact indexed_empty | reflexivity]. }
  intros m1 [H1 _]. eapply outcome_bind.
  { apply (eachHeaded_yields source "import" _ ds decls (fun done m => indexed Types done [] m) Hall).
    - intros d x done m Hx Hh Hlen Hm. apply addImport_yields; [exact Hx | exact Hh | lia | exact Hm].
    - exact H1. }
  intros m2 H2. apply (eachHeaded_yields source "func" _ ds decls (fun done m => indexed Types Imports done m) Hall).
  - intros d x done m Hx Hh Hlen Hm. apply addFunction_yields; [exact Hx | exact Hh | lia | exact Hm].
  - exact H2.
Qed.

(** ** The last walk *)

Definition globalB (d : wat) (g : binaryGlobal) : Prop :=
  exists h name t init v, d = Group [h; Atom name; t; init] /\ represents source (glInit g) init /\
    valtypeOf (glCode g) = Some v /\
    if glMutable g then exists k t', t = Group [k; t'] /\ treeHead t = "mut" /\ treeValtype t' = Some v
    else treeHead t <> "mut" /\ treeValtype t = Some v.

Definition elementB (d : wat) (e : binaryElement) : Prop :=
  exists h offset cs, d = Group (h :: offset :: cs) /\ represents source (elOffset e) offset /\
    Forall2 (resolves (functionNamesOf decls)) cs (elFunctions e) /\ Forall (fun n => 0 <= n < 2 ^ 32) (elFunctions e).

Definition dataB (d : wat) (s : binaryData) : Prop :=
  exists h offset cs bss, d = Group (h :: offset :: cs) /\ represents source (daOffset s) offset /\
    Forall2 quotedBytes cs bss /\ daBytes s = List.concat bss.

Definition exportOf (e : binaryExport) : wexport := mkWexport (exName e) (exKind e) (exIndex e).

Definition exportFits (e : binaryExport) : Prop := 0 <= exKind e <= 3 /\ 0 <= exIndex e < 2 ^ 32.

Variable m0 : binaryModule.
Hypothesis Hm0 : indexed Types Imports Functions m0.

(** What the lists hold when these declarations have been read. *)
Record recorded (done : list wat) (m : binaryModule) : Prop := {
  rc_base : bTypes m = bTypes m0 /\ bTypeNames m = bTypeNames m0 /\ bImports m = bImports m0 /\
            bFunctions m = bFunctions m0 /\ bFunctionNames m = bFunctionNames m0;
  rc_heads : Forall (fun d => among (treeHead d)
    ["type"; "import"; "func"; "table"; "memory"; "global"; "export"; "elem"; "data"] = true) done;
  rc_tables : Forall2 tableMeans (headed "table" done) (bTables m);
  rc_memories : Forall2 memoryMeans (headed "memory" done) (bMemories m);
  rc_globals : Forall2 globalB (headed "global" done) (bGlobals m);
  rc_globalNames : named (bGlobalNames m) (globalNamesOf done);
  rc_exports : exportsFrom decls 0 done (map exportOf (bExports m));
  rc_fits : Forall exportFits (bExports m);
  rc_elements : Forall2 elementB (headed "elem" done) (bElements m);
  rc_datas : Forall2 dataB (headed "data" done) (bData m)
}.

Lemma exportsFrom_snoc k ds es d es' :
  exportsFrom decls k ds es -> declExports decls (k + List.length (headed "memory" ds)) d es' ->
  exportsFrom decls k (ds ++ [d]) (es ++ es').
Proof.
  induction 1 as [k|k x ds es es1 Hx _ IH]; intros Hd.
  - cbn in *. rewrite Nat.add_0_r in Hd. rewrite <- (app_nil_r es'). econstructor; [exact Hd | constructor].
  - cbn [app]. rewrite <- app_assoc. econstructor; [exact Hx|]. apply IH.
    cbn [headed List.filter] in Hd. destruct (String.eqb (treeHead x) "memory"); [|exact Hd].
    cbn [List.length] in Hd. rewrite <- Nat.add_succ_comm in Hd. exact Hd.
Qed.

Lemma headed_snoc h done x :
  headed h (done ++ [x]) = headed h done ++ (if String.eqb (treeHead x) h then [x] else []).
Proof. rewrite headed_split. cbn. destruct (String.eqb (treeHead x) h); reflexivity. Qed.

(** A declaration that is not a global, adds no export and fills at most one list. *)
Lemma recorded_quiet done x m m' :
  recorded done m -> among (treeHead x) ["type"; "import"; "table"; "elem"; "data"] = true ->
  (bTypes m' = bTypes m /\ bTypeNames m' = bTypeNames m /\ bImports m' = bImports m /\ bFunctions m' = bFunctions m /\
   bFunctionNames m' = bFunctionNames m) ->
  bMemories m' = bMemories m -> bGlobals m' = bGlobals m -> bGlobalNames m' = bGlobalNames m -> bExports m' = bExports m ->
  Forall2 tableMeans (headed "table" (done ++ [x])) (bTables m') ->
  Forall2 elementB (headed "elem" (done ++ [x])) (bElements m') ->
  Forall2 dataB (headed "data" (done ++ [x])) (bData m') ->
  recorded (done ++ [x]) m'.
Proof.
  intros [H1 H2 H3 H4 H5 H6 H7 H8 H9 H10] Hh (B1 & B2 & B3 & B4 & B5) E1 E2 E3 E4 F1 F2 F3.
  assert (Hother : forall h, among h ["func"; "memory"; "global"; "export"] = true -> String.eqb (treeHead x) h = false).
  { intros h Hh'. destruct (String.eqb_spec (treeHead x) h) as [E|]; [|reflexivity]. exfalso. rewrite E in Hh.
    apply among_cases in Hh, Hh'. cbn in Hh, Hh'. intuition congruence. }
  constructor; try assumption.
  - rewrite B1, B2, B3, B4, B5. exact H1.
  - apply Forall_app. split; [exact H2|]. constructor; [|constructor].
    refine (among_check (fun op => among op _) _ _ _ Hh). vm_compute. reflexivity.
  - rewrite headed_snoc, (Hother "memory"), app_nil_r, E1 by reflexivity. exact H4.
  - rewrite headed_snoc, (Hother "global"), app_nil_r, E2 by reflexivity. exact H5.
  - unfold globalNamesOf. rewrite headed_snoc, (Hother "global"), app_nil_r, E3 by reflexivity. exact H6.
  - rewrite E4, <- (app_nil_r (map _ _)). apply exportsFrom_snoc; [exact H7|].
    unfold declExports. rewrite !Hother by reflexivity. reflexivity.
  - rewrite E4. exact H8.
Qed.

Lemma functionIndex_yields m i x :
  bFunctionNames m = bFunctionNames m0 -> represents source i x ->
  yields (functionIndex source m i) (fun n => resolves (functionNamesOf decls) x n /\ 0 <= n < 2 ^ 32).
Proof.
  intros E Hx. unfold functionIndex. rewrite E. apply lookupIndex_yields; [|exact Hx].
  apply named_placed; [exact (ix_functions _ _ _ _ Hm0)|]. unfold functionNamesOf. rewrite length_app, !length_map.
  pose proof (headed_count decls). lia.
Qed.

Lemma globalNames_sub done rest : decls = done ++ rest -> globalNamesOf decls = globalNamesOf done ++ globalNamesOf rest.
Proof. intros ->. unfold globalNamesOf. rewrite headed_split, map_app. reflexivity. Qed.

Lemma globalIndex_yields done rest m i x :
  decls = done ++ rest -> named (bGlobalNames m) (globalNamesOf done) -> represents source i x ->
  yields (globalIndex source m i) (fun n => resolves (globalNamesOf decls) x n /\ 0 <= n < 2 ^ 32).
Proof.
  intros E Hn Hx. eapply outcome_weaken; [apply (lookupIndex_yields source _ _ _ (globalNamesOf done)); [|exact Hx]|].
  - apply named_placed; [exact Hn|]. unfold globalNamesOf. rewrite length_map.
    assert (List.length (headed "global" done) <= List.length decls)%nat; [|lia].
    rewrite E, length_app. unfold headed. pose proof (filter_length_le (fun d => String.eqb (treeHead d) "global") done). lia.
  - intros n [H Hr]. split; [|exact Hr]. rewrite (globalNames_sub _ _ E). apply resolves_app, H.
Qed.

Lemma inlineExportName_yields c x :
  represents source c x -> isExport x = true ->
  yields (inlineExportName source c) (fun bs => exists h name, x = Group [h; name] /\ quotedBytes name bs).
Proof.
  intros Hx Hh. unfold isExport in Hh. apply String.eqb_eq in Hh. unfold inlineExportName.
  destruct (headed_children _ _ _ Hx Hh ltac:(discriminate)) as (c' & cs & xs & -> & -> & _ & Hall).
  destruct Hall as [|n y cs xs Hy Hall]; [wrong Hx|]. destruct Hall; [|wrong Hx].
  rewrite (isKind_represents _ _ _ _ Hy). destruct (bool_decide _); [|wrong Hx].
  eapply outcome_weaken; [exact (quotedBytes_yields _ _ Hy)|]. intros bs Hbs. eauto.
Qed.

(** A change of nothing but the exports. *)
Definition onlyExports (m m' : binaryModule) (es : list binaryExport) : Prop :=
  bTypes m' = bTypes m /\ bTypeNames m' = bTypeNames m /\ bImports m' = bImports m /\ bFunctions m' = bFunctions m /\
  bFunctionNames m' = bFunctionNames m /\ bTables m' = bTables m /\ bMemories m' = bMemories m /\
  bGlobals m' = bGlobals m /\ bGlobalNames m' = bGlobalNames m /\ bElements m' = bElements m /\ bData m' = bData m /\
  bExports m' = bExports m ++ es.

Lemma onlyExports_refl m : onlyExports m m [].
Proof. unfold onlyExports. rewrite app_nil_r. auto 15. Qed.

Lemma onlyExports_put m e m' es : onlyExports (putExport m e) m' es -> onlyExports m m' (e :: es).
Proof.
  intros (E1 & E2 & E3 & E4 & E5 & E6 & E7 & E8 & E9 & E10 & E11 & E12). cbn in *.
  repeat (split; [assumption|]). rewrite E12, <- app_assoc. reflexivity.
Qed.

Lemma functionExports_yields m function cs xs :
  Forall2 (represents source) cs xs -> 0 <= function < 2 ^ 32 ->
  yields (functionExports source m function cs) (fun m' => exists es,
    onlyExports m m' es /\ inlineExports 0 function xs (map exportOf es) /\ Forall exportFits es).
Proof.
  intros Hall Hf. revert m. induction Hall as [|c x cs xs Hx _ IH]; intros m; cbn [functionExports].
  { cbn. exists []. split; [apply onlyExports_refl|]. split; constructor. }
  rewrite (listHead_represents _ _ _ Hx). unfold inlineExports in *. cbn [List.filter].
  change (String.eqb (treeHead x) "export") with (isExport x). destruct (isExport x) eqn:He; cbn [negb]; [|apply IH].
  eapply outcome_bind; [exact (inlineExportName_yields _ _ Hx He)|]. intros bs (h & name & -> & Hbs).
  eapply outcome_weaken; [apply IH|]. intros m' (es & Hm & Hes & Hfit). exists (mkExport bs 0 function :: es).
  split; [apply onlyExports_put, Hm|]. split; [constructor; [exists h, name; auto | exact Hes]|].
  constructor; [split; cbn; lia | exact Hfit].
Qed.

Lemma memoryParts_yields m memory minimum cs xs :
  Forall2 (represents source) cs xs -> 0 <= memory < 2 ^ 32 ->
  yields (memoryParts source m memory minimum cs) (fun '(m', min') => exists es,
    onlyExports m m' es /\ inlineExports 2 memory xs (map exportOf es) /\ Forall exportFits es /\
    match minimum, List.filter (fun x => negb (isExport x)) xs with
    | None, [Atom t] => exists n, ParseUint t 32 = Some n /\ min' = Some n
    | _, [] => min' = minimum
    | _, _ => False
    end).
Proof.
  intros Hall Hf. revert m minimum. induction Hall as [|c x cs xs Hx _ IH]; intros m minimum; cbn [memoryParts].
  { cbn. exists []. split; [apply onlyExports_refl|]. split; [constructor|]. split; [constructor|]. destruct minimum; reflexivity. }
  rewrite (listHead_represents _ _ _ Hx). unfold inlineExports in *. cbn [List.filter].
  change (String.eqb (treeHead x) "export") with (isExport x). destruct (isExport x) eqn:He; cbn [negb].
  - eapply outcome_bind; [exact (inlineExportName_yields _ _ Hx He)|]. intros bs (h & name & -> & Hbs).
    eapply outcome_weaken; [apply IH|]. intros [m' min'] (es & Hm & Hes & Hfit & Hmin). exists (mkExport bs 2 memory :: es).
    split; [apply onlyExports_put, Hm|]. split; [constructor; [exists h, name; auto | exact Hes]|].
    split; [constructor; [split; cbn; lia | exact Hfit] | exact Hmin].
  - rewrite (isAtom_represents _ _ _ Hx). step_if; [wrong Hx|]. apply orb_false_iff in Hif as [_ Hnone].
    apply bool_decide_eq_false in Hnone. destruct minimum as [k|]; [exfalso; apply Hnone; eauto|].
    eapply outcome_bind; [exact (unsigned_yields _ _ _ Hx)|]. intros v (t & -> & Hv).
    eapply outcome_weaken; [apply IH|]. intros [m' min'] (es & Hm & Hes & Hfit & Hmin). exists es.
    split; [exact Hm|]. split; [exact Hes|]. split; [exact Hfit|].
    destruct (List.filter (fun x => negb (isExport x)) xs) as [|y l]; [exists v; auto | contradiction].
Qed.

(** A declaration that adds exports, a memory or nothing else. *)
Lemma recorded_exports done x m m' es mems :
  recorded done m -> among (treeHead x) ["func"; "memory"; "export"] = true ->
  onlyExports m m' es -> Forall exportFits es ->
  declExports decls (List.length (headed "memory" done)) x (map exportOf es) ->
  Forall2 memoryMeans (headed "memory" (done ++ [x])) (bMemories m ++ mems) ->
  forall m'', bMemories m'' = bMemories m' ++ mems ->
  (bTypes m'' = bTypes m' /\ bTypeNames m'' = bTypeNames m' /\ bImports m'' = bImports m' /\ bFunctions m'' = bFunctions m' /\
   bFunctionNames m'' = bFunctionNames m' /\ bTables m'' = bTables m' /\ bGlobals m'' = bGlobals m' /\
   bGlobalNames m'' = bGlobalNames m' /\ bElements m'' = bElements m' /\ bData m'' = bData m' /\ bExports m'' = bExports m') ->
  recorded (done ++ [x]) m''.
Proof.
  intros [H1 H2 H3 H4 H5 H6 H7 H8 H9 H10] Hh (E1 & E2 & E3 & E4 & E5 & E6 & E7 & E8 & E9 & E10 & E11 & E12) Hfit Hd Hmem
    m'' M1 (G1 & G2 & G3 & G4 & G5 & G6 & G7 & G8 & G9 & G10 & G11).
  assert (Hother : forall h, among h ["table"; "global"; "elem"; "data"] = true -> String.eqb (treeHead x) h = false).
  { intros h Hh'. destruct (String.eqb_spec (treeHead x) h) as [E|]; [|reflexivity]. exfalso. rewrite E in Hh.
    apply among_cases in Hh, Hh'. cbn in Hh, Hh'. intuition congruence. }
  constructor.
  - rewrite G1, G2, G3, G4, G5, E1, E2, E3, E4, E5. exact H1.
  - apply Forall_app. split; [exact H2|]. constructor; [|constructor].
    refine (among_check (fun op => among op _) _ _ _ Hh). vm_compute. reflexivity.
  - rewrite headed_snoc, (Hother "table"), app_nil_r, G6, E6 by reflexivity. exact H3.
  - rewrite M1, E7. exact Hmem.
  - rewrite headed_snoc, (Hother "global"), app_nil_r, G7, E8 by reflexivity. exact H5.
  - unfold globalNamesOf. rewrite headed_snoc, (Hother "global"), app_nil_r, G8, E9 by reflexivity. exact H6.
  - rewrite G11, E12, map_app. apply exportsFrom_snoc; [exact H7 | exact Hd].
  - rewrite G11, E12. apply Forall_app. auto.
  - rewrite headed_snoc, (Hother "elem"), app_nil_r, G9, E10 by reflexivity. exact H9.
  - rewrite headed_snoc, (Hother "data"), app_nil_r, G10, E11 by reflexivity. exact H10.
Qed.

(** The same when no memory is added. *)
Lemma recorded_exports_only done x m m' es :
  recorded done m -> treeHead x = "func" \/ treeHead x = "export" ->
  onlyExports m m' es -> Forall exportFits es ->
  declExports decls (List.length (headed "memory" done)) x (map exportOf es) -> recorded (done ++ [x]) m'.
Proof.
  intros Hm Hh He Hfit Hd. apply (recorded_exports done x m m' es []) with (m'' := m'); try assumption.
  - destruct Hh as [->| ->]; reflexivity.
  - rewrite app_nil_r, headed_snoc. replace (String.eqb (treeHead x) "memory") with false by (destruct Hh as [->| ->]; reflexivity).
    rewrite app_nil_r. exact (rc_memories _ _ Hm).
  - rewrite app_nil_r. reflexivity.
  - auto 15.
Qed.

(** Nothing else of the module changes: the conjunctions of equal fields. *)
Ltac same := cbn; auto 15.

Section Record_.
Variable done rest : list wat.
Variable x : wat.
Variable m : binaryModule.
Variable d : nat.
Hypothesis Hsplit : decls = done ++ x :: rest.
Hypothesis Hm : recorded done m.
Hypothesis Hx : represents source d x.

Lemma base_names : bFunctionNames m = bFunctionNames m0.
Proof. apply (rc_base _ _ Hm). Qed.

Lemma addFunctionExports_yields :
  treeHead x = "func" -> yields (addFunctionExports source m d) (recorded (done ++ [x])).
Proof.
  intros Hh. unfold addFunctionExports.
  destruct (headed_children _ _ _ Hx Hh ltac:(discriminate)) as (c & cs & xs & E & -> & _ & Hall).
  destruct Hall as [|n y cs xs Hy Hall]; [wrong Hx|].
  eapply outcome_bind; [exact (functionIndex_yields m _ _ base_names Hy)|]. intros f [Hf Hr].
  eapply outcome_weaken; [exact (functionExports_yields m f cs xs Hall Hr)|]. intros m' (es & He & Hes & Hfit).
  apply (recorded_exports_only done x m m' es); auto.
  unfold declExports. rewrite Hh. cbn [String.eqb Ascii.eqb Bool.eqb]. exists y, xs, f. rewrite E. auto.
Qed.

Lemma addTable_yields : treeHead x = "table" -> yields (addTable source m d) (recorded (done ++ [x])).
Proof.
  intros Hh. unfold addTable.
  destruct (headed_children _ _ _ Hx Hh ltac:(discriminate)) as (c & cs & xs & E & -> & _ & Hall).
  destruct Hall as [|n y cs xs Hy Hall]; [wrong Hx|]. destruct Hall as [|k z cs xs Hz Hall]; [wrong Hx|].
  destruct Hall; [|wrong Hx]. rewrite (nodeText_represents _ _ _ Hz).
  destruct (String.eqb_spec (treeText z) "funcref") as [Ef|]; [|wrong Hx]. cbn [negb].
  eapply outcome_bind; [exact (unsigned_yields _ _ _ Hy)|]. intros v (t & Et & Hv). subst y. cbn [yields].
  apply (recorded_quiet done x m); try reflexivity; try exact Hm.
  - rewrite Hh. reflexivity.
  - same.
  - rewrite headed_snoc, Hh. cbn. apply Forall2_app; [exact (rc_tables _ _ Hm)|]. constructor; [|constructor].
    exists (Atom "table"), t, z. rewrite E. auto.
  - rewrite headed_snoc, Hh. cbn. rewrite app_nil_r. exact (rc_elements _ _ Hm).
  - rewrite headed_snoc, Hh. cbn. rewrite app_nil_r. exact (rc_datas _ _ Hm).
Qed.

Lemma headed_done h : (List.length (headed h done) < List.length decls)%nat.
Proof.
  rewrite Hsplit, length_app. cbn [List.length]. unfold headed.
  pose proof (filter_length_le (fun d => String.eqb (treeHead d) h) done). lia.
Qed.

Lemma addMemory_yields : treeHead x = "memory" -> yields (addMemory source m d) (recorded (done ++ [x])).
Proof.
  intros Hh. unfold addMemory.
  destruct (headed_children _ _ _ Hx Hh ltac:(discriminate)) as (c & cs & xs & E & -> & _ & Hall). cbn [tail].
  assert (Hlen : List.length (bMemories m) = List.length (headed "memory" done)).
  { pose proof (Forall2_length _ _ _ (rc_memories _ _ Hm)). congruence. }
  pose proof (headed_done "memory") as Hlt.
  assert (Hcount : count (bMemories m) = Z.of_nat (List.length (headed "memory" done)))
    by (unfold count; rewrite Hlen; apply u32_small; lia).
  eapply outcome_bind; [apply (memoryParts_yields m (count (bMemories m)) None cs xs Hall); rewrite Hcount; lia|].
  intros [m' min'] (es & He & Hes & Hfit & Hmin).
  destruct (List.filter (fun x => negb (isExport x)) xs) as [|y l] eqn:Hf; [subst min'; wrong Hx|].
  destruct y as [t|t|ys]; try contradiction. destruct l; [|contradiction]. destruct Hmin as (n & Hn & ->). cbn [yields].
  apply (recorded_exports done x m m' es [n]); try assumption.
  - rewrite Hh. reflexivity.
  - unfold declExports. rewrite Hh. cbn [String.eqb Ascii.eqb Bool.eqb]. rewrite <- Hcount, E. exact Hes.
  - rewrite headed_snoc, Hh. cbn [String.eqb Ascii.eqb Bool.eqb]. apply Forall2_app; [exact (rc_memories _ _ Hm)|].
    constructor; [|constructor]. exists t. rewrite E. auto.
  - reflexivity.
  - same.
Qed.

Lemma addGlobal_yields : treeHead x = "global" -> yields (addGlobal source m d) (recorded (done ++ [x])).
Proof.
  intros Hh. unfold addGlobal.
  destruct (headed_children _ _ _ Hx Hh ltac:(discriminate)) as (c & cs & xs & E & -> & _ & Hall).
  destruct Hall as [|n y cs xs Hy Hall]; [wrong Hx|]. destruct Hall as [|k z cs xs Hz Hall]; [wrong Hx|].
  destruct Hall as [|i w cs xs Hw Hall]; [wrong Hx|]. destruct Hall; [|wrong Hx].
  rewrite (isAtom_represents _ _ _ Hy), (isKind_represents _ _ _ _ Hw), (nodeText_represents _ _ _ Hy), (listHead_represents _ _ _ Hz).
  step_if; [wrong Hx|]. apply orb_false_iff in Hif as [Hatom _]. apply negb_false_iff in Hatom.
  step_if; [wrong Hy|]. destruct y as [t|t|l]; try discriminate Hatom. cbn [treeText].
  destruct (bGlobalNames m !! t) as [g|] eqn:Hnew; [wrong Hy|].
  eapply (outcome_bind _ _ (fun '(i', mutable) => exists z', represents source i' z' /\
    if (mutable : bool) then exists k, z = Group [k; z'] /\ treeHead z = "mut" else treeHead z <> "mut" /\ z' = z)).
  { destruct (String.eqb_spec (treeHead z) "mut") as [Em|Em]; [|exists z; auto].
    destruct (headed_children _ _ _ Hz Em ltac:(discriminate)) as (c' & cs' & zs & -> & -> & _ & Hzs).
    destruct Hzs as [|j u cs' zs Hu Hzs]; [wrong Hz|]. destruct Hzs; [|wrong Hz].
    exists u. split; [exact Hu|]. exists (Atom "mut"). auto. }
  intros [i' mutable] (z' & Hz' & Hmut).
  eapply outcome_bind; [exact (valueType_yields _ _ _ Hz')|]. intros b (v & Hv & Hb). cbn [yields].
  pose proof (headed_done "global") as Hlt.
  assert (Hlen : List.length (bGlobals m) = List.length (headed "global" done)).
  { pose proof (Forall2_length _ _ _ (rc_globals _ _ Hm)). congruence. }
  destruct Hm as [H1 H2 H3 H4 H5 H6 H7 H8 H9 H10].
  constructor; cbn [putGlobal putGlobalName bTypes bTypeNames bFunctionNames bImports
    bFunctions bTables bMemories bGlobals bGlobalNames bExports bElements bData].
  - exact H1.
  - apply Forall_app. split; [exact H2|]. constructor; [rewrite Hh; reflexivity | constructor].
  - rewrite headed_snoc, Hh. cbn [String.eqb Ascii.eqb Bool.eqb]. rewrite app_nil_r. exact H3.
  - rewrite headed_snoc, Hh. cbn [String.eqb Ascii.eqb Bool.eqb]. rewrite app_nil_r. exact H4.
  - rewrite headed_snoc, Hh. cbn [String.eqb Ascii.eqb Bool.eqb]. apply Forall2_app; [exact H5|].
    constructor; [|constructor]. exists (Atom "global"), t, z, w, v. cbn. rewrite E.
    split; [reflexivity|]. split; [exact Hw|]. split; [exact Hb|].
    destruct mutable; [destruct Hmut as (k' & -> & Hk'); eauto|]. destruct Hmut as [Hne ->]. auto.
  - unfold globalNamesOf. rewrite headed_snoc, Hh. cbn [String.eqb Ascii.eqb Bool.eqb]. rewrite map_app. cbn [map].
    replace (nameOf x) with t by (rewrite E; reflexivity). apply named_insert; [exact H6 | exact Hnew|].
    rewrite length_map. unfold count. rewrite Hlen. apply u32_small. lia.
  - rewrite <- (app_nil_r (map _ _)). apply exportsFrom_snoc; [exact H7|]. unfold declExports. rewrite Hh. reflexivity.
  - exact H8.
  - rewrite headed_snoc, Hh. cbn [String.eqb Ascii.eqb Bool.eqb]. rewrite app_nil_r. exact H9.
  - rewrite headed_snoc, Hh. cbn [String.eqb Ascii.eqb Bool.eqb]. rewrite app_nil_r. exact H10.
Qed.

Lemma addExport_yields : treeHead x = "export" -> yields (addExport source m d) (recorded (done ++ [x])).
Proof.
  intros Hh. unfold addExport.
  destruct (headed_children _ _ _ Hx Hh ltac:(discriminate)) as (c & cs & xs & E & -> & _ & Hall).
  destruct Hall as [|n y cs xs Hy Hall]; [wrong Hx|]. destruct Hall as [|r z cs xs Hz Hall]; [wrong Hx|].
  destruct Hall; [|wrong Hx]. rewrite (isKind_represents _ _ _ _ Hy), (isKind_represents _ _ _ _ Hz).
  step_if; [wrong Hx|]. apply orb_false_iff in Hif as [_ Hlist]. apply negb_false_iff, bool_decide_eq_true in Hlist.
  eapply outcome_bind; [exact (quotedBytes_yields _ _ Hy)|]. intros bs Hbs.
  destruct z as [t|t|zs]; try discriminate Hlist.
  destruct (childrenOf_represents _ _ _ Hz) as (rs & -> & Hrs & _).
  destruct Hrs as [|k u rs zs Hu Hrs]; [wrong Hz|]. destruct Hrs as [|g w rs zs Hw Hrs]; [wrong Hz|].
  destruct Hrs; [|wrong Hz]. rewrite (isAtom_represents _ _ _ Hw), (nodeText_represents _ _ _ Hu).
  step_if; [wrong Hz|].
  eapply (outcome_bind _ _ (fun '(kind, index) => exportTarget decls (treeText u) w kind index /\ 0 <= kind <= 3 /\ 0 <= index < 2 ^ 32)).
  { pose proof (functionIndex_yields m _ _ base_names Hw) as Hfun. pose proof (unsigned_yields _ _ _ Hw) as Hun.
    pose proof (globalIndex_yields done (x :: rest) m _ _ Hsplit (rc_globalNames _ _ Hm) Hw) as Hglob.
    destruct (String.eqb_spec (treeText u) "func") as [Ek|_].
    { eapply outcome_bind; [exact Hfun|]. intros j [Hj Hr]. cbn. split; [left; auto | lia]. }
    destruct (String.eqb_spec (treeText u) "table") as [Ek|_].
    { eapply outcome_bind; [exact Hun|]. intros j (t & Et & Hj). pose proof (ParseUint_range _ _ _ Hj).
      cbn. split; [right; left; eauto | lia]. }
    destruct (String.eqb_spec (treeText u) "memory") as [Ek|_].
    { eapply outcome_bind; [exact Hun|]. intros j (t & Et & Hj). pose proof (ParseUint_range _ _ _ Hj).
      cbn. split; [right; right; left; eauto | lia]. }
    destruct (String.eqb_spec (treeText u) "global") as [Ek|_]; [|wrong Hz].
    eapply outcome_bind; [exact Hglob|]. intros j [Hj Hr]. cbn. split; [right; right; right; auto | lia]. }
  intros [kind index] (Ht & Hk & Hi). cbn [yields].
  apply (recorded_exports_only done x m _ [mkExport bs kind index]); try assumption.
  - auto.
  - unfold onlyExports. same.
  - constructor; [split; cbn; lia | constructor].
  - unfold declExports. rewrite Hh. cbn [String.eqb Ascii.eqb Bool.eqb map].
    exists (Atom "export"), y, u, w, (mkWexport bs kind index). rewrite E. auto.
Qed.

Lemma addElement_yields : treeHead x = "elem" -> yields (addElement source m d) (recorded (done ++ [x])).
Proof.
  intros Hh. unfold addElement.
  destruct (headed_children _ _ _ Hx Hh ltac:(discriminate)) as (c & cs & xs & E & -> & _ & Hall).
  destruct Hall as [|o y cs xs Hy Hall]; [wrong Hx|]. rewrite (isKind_represents _ _ _ _ Hy).
  step_if; [wrong Hx|].
  eapply (outcome_bind _ _ (fun l => Forall2 (resolves (functionNamesOf decls)) xs l /\ Forall (fun n => 0 <= n < 2 ^ 32) l)).
  { clear E Hif. induction Hall as [|f z cs xs Hz _ IH]; [split; constructor|]. cbn [map_ok].
    eapply outcome_bind; [exact (functionIndex_yields m _ _ base_names Hz)|]. intros j [Hj Hr].
    eapply outcome_bind; [exact IH|]. intros l [Hl Hl']. split; constructor; assumption. }
  intros l [Hl Hl']. cbn [yields]. apply (recorded_quiet done x m); try reflexivity; try exact Hm.
  - rewrite Hh. reflexivity.
  - same.
  - rewrite headed_snoc, Hh. cbn. rewrite app_nil_r. exact (rc_tables _ _ Hm).
  - rewrite headed_snoc, Hh. cbn. apply Forall2_app; [exact (rc_elements _ _ Hm)|]. constructor; [|constructor].
    exists (Atom "elem"), y, xs. rewrite E. auto.
  - rewrite headed_snoc, Hh. cbn. rewrite app_nil_r. exact (rc_datas _ _ Hm).
Qed.

Lemma dataParts_yields cs xs :
  Forall2 (represents source) cs xs -> yields (map_ok (dataPart source) cs) (fun bss => Forall2 quotedBytes xs bss).
Proof.
  induction 1 as [|f z cs xs Hz _ IH]; [constructor|]. cbn [map_ok].
  eapply (outcome_bind _ _ (quotedBytes z)).
  { unfold dataPart. rewrite (isKind_represents _ _ _ _ Hz). step_if; [wrong Hz | exact (quotedBytes_yields _ _ Hz)]. }
  intros bs Hbs. eapply outcome_bind; [exact IH|]. intros l Hl. constructor; assumption.
Qed.

Lemma addData_yields : treeHead x = "data" -> yields (addData source m d) (recorded (done ++ [x])).
Proof.
  intros Hh. unfold addData.
  destruct (headed_children _ _ _ Hx Hh ltac:(discriminate)) as (c & cs & xs & E & -> & _ & Hall).
  destruct Hall as [|o y cs xs Hy Hall]; [wrong Hx|].
  destruct Hall as [|f z cs xs Hz Hall]; [wrong Hx|].
  rewrite (isKind_represents _ _ _ _ Hy). step_if; [wrong Hx|].
  eapply outcome_bind; [exact (dataParts_yields _ _ (List.Forall2_cons _ _ Hz Hall))|].
  intros bss Hbss. cbn [yields]. apply (recorded_quiet done x m); try reflexivity; try exact Hm.
  - rewrite Hh. reflexivity.
  - same.
  - rewrite headed_snoc, Hh. cbn. rewrite app_nil_r. exact (rc_tables _ _ Hm).
  - rewrite headed_snoc, Hh. cbn. rewrite app_nil_r. exact (rc_elements _ _ Hm).
  - rewrite headed_snoc, Hh. cbn. apply Forall2_app; [exact (rc_datas _ _ Hm)|]. constructor; [|constructor].
    exists (Atom "data"), y, (z :: xs), bss. rewrite E. auto.
Qed.

Lemma addRemainingDeclaration_yields : yields (addRemainingDeclaration source m d) (recorded (done ++ [x])).
Proof.
  unfold addRemainingDeclaration. rewrite (listHead_represents _ _ _ Hx).
  destruct (String.eqb (treeHead x) "type" || String.eqb (treeHead x) "import") eqn:Hti.
  { assert (Hq : treeHead x = "type" \/ treeHead x = "import") by (rewrite orb_true_iff, !String.eqb_eq in Hti; exact Hti).
    cbn [yields]. apply (recorded_quiet done x m); try reflexivity; try exact Hm.
    - destruct Hq as [->| ->]; reflexivity.
    - same.
    - rewrite headed_snoc. destruct Hq as [->| ->]; cbn; rewrite app_nil_r; exact (rc_tables _ _ Hm).
    - rewrite headed_snoc. destruct Hq as [->| ->]; cbn; rewrite app_nil_r; exact (rc_elements _ _ Hm).
    - rewrite headed_snoc. destruct Hq as [->| ->]; cbn; rewrite app_nil_r; exact (rc_datas _ _ Hm). }
  destruct (String.eqb_spec (treeHead x) "func") as [E|_]; [exact (addFunctionExports_yields E)|].
  destruct (String.eqb_spec (treeHead x) "table") as [E|_]; [exact (addTable_yields E)|].
  destruct (String.eqb_spec (treeHead x) "memory") as [E|_]; [exact (addMemory_yields E)|].
  destruct (String.eqb_spec (treeHead x) "global") as [E|_]; [exact (addGlobal_yields E)|].
  destruct (String.eqb_spec (treeHead x) "export") as [E|_]; [exact (addExport_yields E)|].
  destruct (String.eqb_spec (treeHead x) "elem") as [E|_]; [exact (addElement_yields E)|].
  destruct (String.eqb_spec (treeHead x) "data") as [E|_]; [exact (addData_yields E)|]. wrong Hx.
Qed.
End Record_.

Lemma recorded_start : recorded [] m0.
Proof.
  destruct (ix_rest _ _ _ _ Hm0) as (E1 & E2 & E3 & E4 & E5 & E6 & E7). constructor; rewrite ?E1, ?E2, ?E3, ?E4, ?E5, ?E6, ?E7.
  - auto 10.
  - constructor.
  - constructor.
  - constructor.
  - constructor.
  - exact named_empty.
  - constructor.
  - constructor.
  - constructor.
  - constructor.
Qed.

Lemma addRemainingDeclarations_yields ds :
  Forall2 (represents source) ds decls -> yields (addRemainingDeclarations source m0 ds) (recorded decls).
Proof.
  intros Hall.
  assert (Hgen : forall ds rest done m, Forall2 (represents source) ds rest -> decls = done ++ rest -> recorded done m ->
    yields (addRemainingDeclarations source m ds) (recorded decls)).
  { clear ds Hall. intros ds rest done m Hall. revert done m. induction Hall as [|d x ds rest Hx _ IH]; intros done m Hsplit Hm.
    - rewrite app_nil_r in Hsplit. subst done. exact Hm.
    - cbn [addRemainingDeclarations].
      eapply outcome_bind; [exact (addRemainingDeclaration_yields done rest x m d Hsplit Hm Hx)|]. intros m' Hm'.
      apply (IH (done ++ [x])); [rewrite <- app_assoc; exact Hsplit | exact Hm']. }
  exact (Hgen ds decls [] m0 Hall eq_refl recorded_start).
Qed.
End Walks.

(** The lists of a lowered module hold the declarations. *)
Definition loweredAs (source : WatModule) (decls : list wat) (m : binaryModule) : Prop :=
  exists m0, indexed source (headed "type" decls) (headed "import" decls) (headed "func" decls) m0 /\
    recorded source decls m0 decls m.

Lemma lowerBinaryModule_yields source decls :
  represents source (root source) (Group (Atom "module" :: decls)) -> Z.of_nat (List.length decls) < 2 ^ 32 ->
  yields (lowerBinaryModule source) (loweredAs source decls).
Proof.
  intros Hroot Hsize. unfold lowerBinaryModule.
  destruct (childrenOf_represents _ _ _ Hroot) as (cs & -> & Hall & _).
  inversion Hall as [|c y ds xs _ Hds]; subst.
  pose proof (walks_yields source decls Hsize ds Hds) as Hw.
  destruct (addTypeDeclarations source emptyBinary ds) as [m1|]; [|exact Hw].
  destruct (addImports source m1 ds) as [m2|]; [|exact Hw].
  eapply outcome_bind; [exact Hw|]. intros m0 Hm0.
  eapply outcome_weaken; [exact (addRemainingDeclarations_yields source decls Hsize m0 Hm0 ds Hds)|].
  intros m Hm. exists m0. auto.
Qed.
