(* ===== verification/WasmBinaryTheorems.v ===== *)
(** * A wasm binary means what its text means ([internal/wasm/binary.go], [binary_instruction.go])

    The bodies and the sections, and the theorem about [Binary]: on a module
    [parseModule] returned it ends with an error, or with bytes that
    [WasmFormat.decodeModule] reads as a module that means what the text says. *)

From stdpp Require Import base list strings gmap.
From Stdlib Require Import ZArith Lia String Ascii.
From S2P Require Import Prelude GoStd WasmModule WasmModuleFacts WasmBytes WasmFormat WasmBinary WasmInstruction WasmMeaning WasmEncode WasmLower.

#[local] Open Scope Z_scope.
#[local] Open Scope list_scope.

(** ** Nothing is larger than the text *)

Fixpoint treeSize (x : wat) : nat :=
  match x with Group items => S (sum_list_with treeSize items) | _ => 1 end.

Lemma written_size :
  (forall x s, written x s -> (treeSize x <= String.length s)%nat) /\
  (forall items body, writtenItems items body -> (sum_list_with treeSize items <= String.length body)%nat).
Proof.
  apply written_both.
  - intros t Hne _ _. destruct t; [congruence|]. cbn. lia.
  - intros raw _. cbn. lia.
  - intros items body _ IH. rewrite !slength_app. cbn. lia.
  - intros sp _. cbn. lia.
  - intros sp x s items rest _ _ IHx _ _ IHi. rewrite !slength_app. cbn [sum_list_with]. lia.
Qed.

Lemma treeSize_pos x : (1 <= treeSize x)%nat.
Proof. destruct x; cbn; lia. Qed.

Lemma sum_size_length l : (List.length l <= sum_list_with treeSize l)%nat.
Proof. induction l as [|x l IH]; [apply Nat.le_refl|]. cbn. pose proof (treeSize_pos x). lia. Qed.

Lemma sum_size_in x l : x ∈ l -> (treeSize x <= sum_list_with treeSize l)%nat.
Proof. induction 1 as [|x y l _ IH]; cbn; lia. Qed.

(** Each node takes a byte. *)
Definition grown (p q : moduleParser) : Prop :=
  (List.length (pnodes q) + position p <= List.length (pnodes p) + position q)%nat.

Lemma closingQuote_le s n stop : closingQuote s n = Ok stop -> (n <= stop)%nat.
Proof. intros H. destruct (closingQuote_sound _ _ _ H) as (raw & rest & _ & _ & ->). lia. Qed.

Lemma parse_grown fuel :
  (forall p i q, parseNode fuel p = Ok (i, q) -> grown p q) /\
  (forall p cs i q, parseListFrom fuel p cs = Ok (i, q) -> grown p q).
Proof.
  unfold grown. induction fuel as [|fuel [IHn IHl]]; [split; discriminate|]. split.
  - intros p i q H. cbn [parseNode] in H. cbv zeta in H.
    destruct (left (skipSpace p)) as [|c rest]; [discriminate|].
    destruct (Ascii.eqb c "("); [|destruct (Ascii.eqb c ")"); [discriminate|]; destruct (isQuote c)].
    + apply IHl in H. cbn in H. lia.
    + unfold parseString in H. cbv zeta in H. destruct (closingQuote _ _) as [stop|] eqn:Hc; [|discriminate].
      apply closingQuote_le in Hc. injection H as <- <-. cbn in *. rewrite length_app. cbn. lia.
    + unfold parseAtom in H. cbv zeta in H. step_if; [discriminate|]. apply Nat.eqb_neq in Hif.
      injection H as <- <-. cbn in *. rewrite length_app. cbn. lia.
  - intros p cs i q H. cbn [parseListFrom] in H. cbv zeta in H.
    destruct (left (skipSpace p)) as [|c rest]; [discriminate|]. destruct (Ascii.eqb c ")").
    + injection H as <- <-. cbn. rewrite length_app. cbn. lia.
    + destruct (parseNode fuel (skipSpace p)) as [[child p2]|] eqn:Hn; [|discriminate].
      apply IHn in Hn. apply IHl in H. cbn in Hn. lia.
Qed.

Lemma parseModule_nodes source m : parseModule source = Ok m -> (List.length (nodes m) <= String.length source)%nat.
Proof.
  unfold parseModule. intros H.
  destruct (parseNode (parseBound source) (mkParser source 0 [])) as [[i q]|] eqn:Hn; [|discriminate].
  destruct (proj1 (parse_sound _) _ _ _ (inside_start source) Hn) as (sp & s & x & _ & _ & Hc & _).
  pose proof (consumes_inside _ _ _ (inside_start source) Hc) as Hin. unfold inside in Hin.
  destruct Hc as (Ht & _). cbn in Ht. rewrite Ht in Hin.
  apply (proj1 (parse_grown _)) in Hn. unfold grown in Hn. cbn in Hn. cbv zeta in H.
  assert (List.length (pnodes (skipSpace q)) = List.length (pnodes q)) as E by reflexivity.
  step_if; [discriminate|]. destruct (node _ _) as [n|]; [|discriminate].
  destruct (decide _); [discriminate|]. destruct (children n) as [|c cs]; [discriminate|].
  destruct (node _ c) as [n'|]; [|discriminate]. destruct (decide _); [discriminate|].
  destruct (nodeText _ c); [|discriminate]. step_if; [discriminate|]. injection H as <-. cbn [nodes]. lia.
Qed.

Lemma signatureFrom_size parts s s' :
  signatureFrom s parts = Some s' ->
  (List.length (tsParams s') + List.length (tsLocals s') <=
   List.length (tsParams s) + List.length (tsLocals s) + sum_list_with treeSize parts)%nat.
Proof.
  assert (Hnamed : forall allow x l, treeNamed allow (itemsOf x) = Some l -> (List.length l <= treeSize x)%nat).
  { intros allow x l H. assert (Hitems : (List.length (itemsOf x) <= treeSize x)%nat).
    { destruct x as [t|t|[|h items]]; cbn; try lia. pose proof (sum_size_length items). lia. }
    unfold treeNamed in H. destruct (itemsOf x) as [|y items]; [discriminate|]. cbv zeta in H. step_if.
    - destruct items as [|z [|]]; try discriminate. destruct (treeValtype z); [|discriminate]. injection H as <-. cbn in *. lia.
    - apply mapM_Some, Forall2_length in H. cbn in *. lia. }
  revert s. induction parts as [|x parts IH]; intros s H; [injection H as <-; cbn; lia|].
  cbn [signatureFrom sum_list_with] in *. pose proof (treeSize_pos x).
  repeat step_if; try (destruct (treeNamed _ _) as [l|] eqn:Hl; [|discriminate]; apply Hnamed in Hl);
    apply IH in H; cbn in H; rewrite ?length_app in H; lia.
Qed.

Lemma signatureTree_size x s :
  signatureTree x = Some s -> (List.length (tsParams s) + List.length (tsLocals s) <= treeSize x)%nat.
Proof.
  intros H. apply signatureFrom_size in H. cbn in H. destruct x as [t|t|[|h items]]; cbn in *; lia.
Qed.

(** ** Locals *)

Definition nonempty (t : string) : bool := negb (String.eqb t "").

Record localsIn (e : gmap string Z * Z) (names : list string) : Prop := {
  li_count : snd e = Z.of_nat (List.length names);
  li_index : forall t n, fst e !! t = Some n -> indexOf names t n;
  li_in : forall t, t ∈ names -> t <> "" -> is_Some (fst e !! t);
  li_nodup : NoDup (List.filter nonempty names)
}.

Lemma addLocal_yields source e names t x :
  represents source (root source) x -> Z.of_nat (S (List.length names)) < 2 ^ 32 -> localsIn e names ->
  yields (addLocal source e t) (fun e' => localsIn e' (names ++ [t])).
Proof.
  intros Hroot Hlen [Hc Hi Hin Hnd]. unfold addLocal. destruct e as [table index]. cbn [fst snd] in *. cbv zeta.
  assert (Hcount : u32 (index + 1) = Z.of_nat (List.length (names ++ [t]))).
  { rewrite u32_small, length_app by lia. cbn. lia. }
  destruct (String.eqb_spec t "") as [->|Hne].
  - cbn [yields]. constructor; cbn [fst snd].
    + exact Hcount.
    + intros u n Hu. apply indexOf_app, Hi, Hu.
    + intros u Hu Hne. apply Hin; [|exact Hne]. apply elem_of_app in Hu as [Hu|Hu]; [exact Hu|].
      apply list_elem_of_singleton in Hu. congruence.
    + rewrite List.filter_app. cbn. rewrite app_nil_r. exact Hnd.
  - destruct (table !! t) as [k|] eqn:Hnew; [exact (errorf_yields _ _ _ _ _ _ Hroot)|]. cbn [yields].
    constructor; cbn [fst snd].
    + exact Hcount.
    + intros u n Hu. destruct (decide (u = t)) as [->|Hut].
      * rewrite lookup_insert_eq in Hu. injection Hu as <-. exists (List.length names).
        split; [apply list_lookup_middle; reflexivity | exact Hc].
      * rewrite lookup_insert_ne in Hu by congruence. apply indexOf_app, Hi, Hu.
    + intros u Hu Hu'. destruct (decide (u = t)) as [->|Hut]; [rewrite lookup_insert_eq; eauto|].
      rewrite lookup_insert_ne by congruence. apply Hin; [|exact Hu']. apply elem_of_app in Hu as [Hu|Hu]; [exact Hu|].
      apply list_elem_of_singleton in Hu. congruence.
    + rewrite List.filter_app. cbn. unfold nonempty at 2. rewrite (proj2 (String.eqb_neq _ _) Hne). cbn [negb].
      apply NoDup_app. split; [exact Hnd|]. split; [|apply NoDup_singleton]. intros u Hu Hu'.
      apply list_elem_of_singleton in Hu' as ->. apply list_elem_of_In, filter_In in Hu as [Hu _].
      destruct (Hin t (proj2 (list_elem_of_In _ _) Hu) Hne). congruence.
Qed.

Lemma addLocals_yields source e names l x :
  represents source (root source) x -> Z.of_nat (List.length names + List.length l) < 2 ^ 32 -> localsIn e names ->
  yields (addLocals source e l) (fun e' => localsIn e' (names ++ map ntName l)).
Proof.
  intros Hroot. revert e names. induction l as [|t l IH]; intros e names Hlen He; cbn [addLocals map].
  { rewrite app_nil_r. exact He. }
  cbn [List.length] in Hlen. eapply outcome_bind; [apply (addLocal_yields _ _ names _ _ Hroot); [lia | exact He]|].
  intros e' He'. eapply outcome_weaken; [apply (IH e' (names ++ [ntName t]))|].
  - rewrite length_app. cbn. lia.
  - exact He'.
  - intros e''. rewrite <- app_assoc. exact (fun H => H).
Qed.

Lemma localsIn_empty : localsIn (∅, 0) [].
Proof.
  constructor; cbn; [reflexivity | | | constructor].
  - intros t n H. rewrite lookup_empty in H. discriminate.
  - intros t H. inversion H.
Qed.

(** ** Runs of locals *)

Definition expandGroups (l : list (Z * Z)) : list Z := flat_map (fun '(n, code) => repeat code (Z.to_nat n)) l.

Lemma addGroup_expand groups t n :
  Forall (fun '(k, _) => 0 <= k <= Z.of_nat n) groups -> Z.of_nat (S n) < 2 ^ 32 ->
  expandGroups (addGroup groups t) = expandGroups groups ++ [ntCode t] /\
  Forall (fun '(k, _) => 0 <= k <= Z.of_nat (S n)) (addGroup groups t) /\
  (List.length (addGroup groups t) <= S (List.length groups))%nat /\
  (forall code, In code (map snd (addGroup groups t)) -> In code (map snd groups) \/ code = ntCode t).
Proof.
  intros Hg Hn. unfold addGroup.
  assert (Hweak : Forall (fun '(k, _) => 0 <= k <= Z.of_nat (S n)) groups).
  { eapply Forall_impl; [exact Hg|]. intros [k c]; cbn. lia. }
  assert (Hnew : expandGroups (groups ++ [(1%Z, ntCode t)]) = expandGroups groups ++ [ntCode t] /\
    Forall (fun '(k, _) => 0 <= k <= Z.of_nat (S n)) (groups ++ [(1%Z, ntCode t)]) /\
    (List.length (groups ++ [(1%Z, ntCode t)]) <= S (List.length groups))%nat /\
    (forall code, In code (map snd (groups ++ [(1%Z, ntCode t)])) -> In code (map snd groups) \/ code = ntCode t)).
  { unfold expandGroups. rewrite flat_map_app, length_app, map_app. cbn. split; [reflexivity|].
    split; [apply Forall_app; split; [exact Hweak | constructor; [lia | constructor]]|]. split; [lia|].
    intros code H. apply in_app_or in H as [H|[H|[]]]; auto. }
  destruct (last groups) as [[k code]|] eqn:Hl; [|exact Hnew].
  destruct (Z.eqb_spec code (ntCode t)) as [->|_]; [|exact Hnew].
  apply last_Some in Hl as [l' ->]. rewrite length_app. cbn [List.length].
  replace (List.length l' + 1 - 1)%nat with (List.length l') by lia. rewrite take_app_length.
  apply Forall_app in Hg as [Hg Hk]. inversion Hk as [|? ? Hk' _]; subst. apply Forall_app in Hweak as [Hweak _].
  rewrite u32_small by lia. unfold expandGroups. rewrite !flat_map_app, !map_app, length_app. cbn.
  split; [|split; [apply Forall_app; split; [exact Hweak | constructor; [lia | constructor]]|split; [lia|]]].
  - rewrite !app_nil_r, <- app_assoc. f_equal. rewrite Z2Nat.inj_add, repeat_app by lia. reflexivity.
  - intros code H. left. exact H.
Qed.

Lemma localGroups_expand l :
  Z.of_nat (List.length l) < 2 ^ 32 ->
  expandGroups (localGroups l) = map ntCode l /\
  Forall (fun '(k, _) => 0 <= k < 2 ^ 32) (localGroups l) /\ (List.length (localGroups l) <= List.length l)%nat /\
  (forall code, In code (map snd (localGroups l)) -> In code (map ntCode l)).
Proof.
  intros Hlen. unfold localGroups.
  assert (Hgen : forall l groups n, Z.of_nat (n + List.length l) < 2 ^ 32 ->
    Forall (fun '(k, _) => 0 <= k <= Z.of_nat n) groups ->
    expandGroups (fold_left addGroup l groups) = expandGroups groups ++ map ntCode l /\
    Forall (fun '(k, _) => 0 <= k < 2 ^ 32) (fold_left addGroup l groups) /\
    (List.length (fold_left addGroup l groups) <= List.length groups + List.length l)%nat /\
    (forall code, In code (map snd (fold_left addGroup l groups)) -> In code (map snd groups) \/ In code (map ntCode l))).
  { clear l Hlen. induction l as [|t l IH]; intros groups n Hn Hg; cbn [fold_left map List.length] in *.
    - rewrite app_nil_r. split; [reflexivity|]. split; [|split; [lia | auto]].
      eapply Forall_impl; [exact Hg|]. intros [k c]; cbn. lia.
    - destruct (addGroup_expand groups t n Hg ltac:(lia)) as (E & Hg' & Hl & Hin).
      destruct (IH (addGroup groups t) (S n) ltac:(lia) Hg') as (E' & Hf & Hl' & Hin').
      split; [rewrite E', E, <- app_assoc; reflexivity|]. split; [exact Hf|]. split; [lia|].
      intros code Hc. apply Hin' in Hc as [Hc|Hc]; [|right; right; exact Hc].
      apply Hin in Hc as [Hc|Hc]; [left; exact Hc | right; left; congruence]. }
  destruct (Hgen l [] 0%nat ltac:(lia) (List.Forall_nil _)) as (E & Hf & Hl & Hin).
  split; [exact E|]. split; [exact Hf|]. split; [exact Hl|]. intros code Hc. apply Hin in Hc as [[]|Hc]. exact Hc.
Qed.

(** ** Vectors and sections *)

(** What is added for an element reads as what it means, if it is not too long. *)
Definition adds {A W} (d : decoder W) (R : A -> W -> Prop) (a : A) (bs : list Z) : Prop :=
  bs <> [] /\ (Z.of_nat (List.length bs) < 2 ^ 32 -> exists w, R a w /\ decodes d w bs).

(** The same of a whole section. *)
Definition payloadReads {A W} (d : decoder W) (R : A -> W -> Prop) (l : list A) (payload : list Z) : Prop :=
  Z.of_nat (List.length payload) < 2 ^ 32 ->
  exists ws, Forall2 R l ws /\ (payload = [] -> ws = []) /\ (payload <> [] -> decodes (decodeVec d) ws payload).

Lemma appendU32_pos v : (0 < List.length (appendU32 [] v))%nat.
Proof. unfold appendU32. cbn. step_if; cbn; lia. Qed.

Lemma adds_vec {A W} (d : decoder W) (R : A -> W -> Prop) l bss :
  Forall2 (adds d R) l bss -> Z.of_nat (List.length (List.concat bss)) < 2 ^ 32 ->
  Z.of_nat (List.length l) < 2 ^ 32 /\
  exists ws, Forall2 R l ws /\ decodes (decodeVec d) ws (appendU32 [] (count l) ++ List.concat bss).
Proof.
  intros Hall Hlen.
  assert (Hgen : (List.length l <= List.length (List.concat bss))%nat /\ exists ws, Forall2 R l ws /\ Forall2 (decodes d) ws bss).
  { induction Hall as [|a bs l bss [Hne Ha] _ IH]; [split; [apply Nat.le_refl|]; exists []; split; constructor|].
    cbn [List.concat] in Hlen |- *. rewrite length_app in Hlen |- *.
    destruct (IH ltac:(lia)) as [Hle (ws & Hws & Hds)]. destruct (Ha ltac:(lia)) as (w & Hw & Hd).
    split; [destruct bs; [congruence|]; cbn; lia|]. exists (w :: ws). split; constructor; assumption. }
  destruct Hgen as [Hle (ws & Hws & Hds)]. split; [lia|]. exists ws. split; [exact Hws|].
  unfold count. rewrite u32_small by lia. rewrite (Forall2_length _ _ _ Hws). apply decodes_vec; [exact Hds|].
  rewrite <- (Forall2_length _ _ _ Hws). lia.
Qed.

Lemma encodeEach_yields {A W} (d : decoder W) (P : A -> Prop) (R : A -> W -> Prop) put l :
  (forall out a, P a -> yields (put out a) (fun out' => exists bs, out' = out ++ bs /\ adds d R a bs)) ->
  Forall P l -> yields (encodeEach put l) (payloadReads d R l).
Proof.
  intros Hput Hl.
  set (each := fix each out l := match l with [] => Ok out | a :: l => let* out := put out a in each out l end).
  assert (Hcase : l = [] \/ encodeEach put l = each (appendU32 [] (count l)) l) by (destruct l; auto).
  assert (Heach : forall l, Forall P l -> forall out, yields (each out l)
    (fun out' => exists bss, out' = out ++ List.concat bss /\ Forall2 (adds d R) l bss)).
  { clear l Hl Hcase. induction 1 as [|a l Ha _ IH]; intros out; cbn [each].
    - exists []. cbn. rewrite app_nil_r. split; [reflexivity | constructor].
    - eapply outcome_bind; [exact (Hput out a Ha)|]. intros out' (bs & -> & Hbs).
      eapply outcome_weaken; [exact (IH _)|]. intros out'' (bss & -> & Hbss). exists (bs :: bss).
      cbn. rewrite app_assoc. split; [reflexivity | constructor; assumption]. }
  destruct Hcase as [->| ->].
  { cbn. intros _. exists []. split; [constructor|]. split; congruence. }
  eapply outcome_weaken; [exact (Heach l Hl _)|]. intros payload (bss & -> & Hbss) Hlen.
  rewrite length_app in Hlen. pose proof (appendU32_pos (count l)) as Hpos. assert (Hc : Z.of_nat (List.length (List.concat bss)) < 2 ^ 32) by lia.
  destruct (adds_vec d R l bss Hbss Hc) as [_ (ws & Hws & Hd)].
  exists ws. split; [exact Hws|]. split; [|auto]. intros E. apply (f_equal (@List.length Z)) in E.
  rewrite length_app in E. change (List.length (@nil Z)) with 0%nat in E. lia.
Qed.

(** The rest of a binary, from a section on. *)
Definition finishes {B} (id : Z) (d : decoder B) (b : B) (bs : list Z) : Prop := d bs = Some (b, []) /\ above id bs.

Lemma finishes_section {A B} id id' (d : decoder A) l bs (k : list A -> decoder B) b rest :
  sectionReads id d l bs -> id' < id -> finishes id (k l) b rest ->
  finishes id' (decodeBind (decodeSection id d) k) b (bs ++ rest).
Proof.
  intros Hs Hid [Hk Hr]. destruct (Hs rest Hr) as [Hd Ha]. split; [|exact (Ha id' Hid)].
  unfold decodeBind. rewrite Hd. exact Hk.
Qed.

Lemma appendSection_out out id payload : appendSection out id payload = out ++ appendSection [] id payload.
Proof.
  destruct payload as [|b payload]; [cbn; rewrite app_nil_r; reflexivity|]. unfold appendSection.
  rewrite appendU32_out, (appendU32_out ([] ++ [id])), <- !app_assoc. reflexivity.
Qed.

Lemma appendSection_length id payload : (List.length payload <= List.length (appendSection [] id payload))%nat.
Proof. destruct payload as [|b payload]; [cbn; lia|]. unfold appendSection. rewrite length_app. lia. Qed.

(** ** The elements of the sections *)

Lemma adds_one {A W} (d : decoder W) (R : A -> W -> Prop) (out : list Z) a bs w :
  bs <> [] -> R a w -> (Z.of_nat (List.length bs) < 2 ^ 32 -> decodes d w bs) ->
  exists bs', out ++ bs = out ++ bs' /\ adds d R a bs'.
Proof. intros Hne Hw Hd. exists bs. split; [reflexivity|]. split; [exact Hne|]. intros Hlen. exists w. auto. Qed.

Lemma appendName_out out value : appendName out value = out ++ appendName [] value.
Proof. unfold appendName. rewrite appendU32_out, <- app_assoc. reflexivity. Qed.

Lemma appendName_length value : (List.length value < List.length (appendName [] value))%nat.
Proof. unfold appendName. rewrite length_app. pose proof (appendU32_pos (u32 (Z.of_nat (List.length value)))). lia. Qed.

Lemma append_nonempty (bs cs : list Z) : (0 < List.length cs)%nat -> bs ++ cs <> [].
Proof. intros H E. apply app_eq_nil in E as [_ ->]. cbn in H. lia. Qed.

Lemma codedTypes_decode l ts : codedTypes l ts -> Forall2 (decodes decodeValtype) ts (map (fun b => [b]) l).
Proof.
  induction 1 as [|b t l ts Hb _ IH]; constructor; [|exact IH]. intros rest.
  unfold decodeValtype, decodeBind. cbn. rewrite Hb. reflexivity.
Qed.

Lemma concat_singles {A} (l : list A) : List.concat (map (fun b => [b]) l) = l.
Proof. induction l; cbn; congruence. Qed.

Lemma decodes_valtypes l ts :
  codedTypes l ts -> Z.of_nat (List.length l) < 2 ^ 32 -> decodes (decodeVec decodeValtype) ts (appendU32 [] (count l) ++ l).
Proof.
  intros H Hl. pose proof (Forall2_length _ _ _ H) as E. unfold count. rewrite u32_small, E by lia.
  rewrite <- (concat_singles l) at 1. apply decodes_vec; [apply codedTypes_decode, H | lia].
Qed.

Lemma valtypes_functional l ts ts' : codedTypes l ts -> codedTypes l ts' -> ts = ts'.
Proof.
  intros H. revert ts'. induction H as [|b t l ts Hb _ IH]; intros ts' H'; inversion H'; subst; [reflexivity|].
  f_equal; [congruence | auto].
Qed.

Lemma typeCoded_functional t f f' : typeCoded t f -> typeCoded t f' -> f = f'.
Proof.
  intros [Hp Hr] [Hp' Hr']. destruct f as [ps rs], f' as [ps' rs']. cbn in *.
  f_equal; eapply valtypes_functional; eassumption.
Qed.

Lemma encodeTypes_yields m :
  Forall (fun t => exists f, typeCoded t f) (bTypes m) ->
  yields (encodeTypes m) (payloadReads decodeFunctype typeCoded (bTypes m)).
Proof.
  apply encodeEach_yields. intros out t (f & Hp & Hr). cbn [yields]. unfold putFuncType.
  rewrite (appendU32_out (out ++ [96])), appendU32_out, <- !app_assoc. cbn [app].
  apply (adds_one _ _ _ _ _ f); [discriminate | split; assumption|].
  intros Hlen. cbn [List.length] in Hlen. rewrite !length_app in Hlen. destruct f as [ps rs]. cbn in Hp, Hr.
  apply (decodes_bind (expectByte 96) _ tt _ [96] _ (decodes_expect 96)).
  rewrite (app_assoc _ (params t)). apply (decodes_bind _ _ _ _ _ _ (decodes_valtypes _ _ Hp ltac:(lia))).
  apply (decodes_bind_ret _ (fun rs => mkFunctype ps rs)), decodes_valtypes; [exact Hr | lia].
Qed.

Lemma encodeImports_yields m :
  Forall (fun i => 0 <= impType i < 2 ^ 32) (bImports m) ->
  yields (encodeImports m)
    (payloadReads decodeImport (fun i w => w = mkWimport (impModule i) (impName i) (impType i)) (bImports m)).
Proof.
  apply encodeEach_yields. intros out i Hi. cbn [yields].
  rewrite appendU32_out, (appendName_out (appendName out _)), appendName_out, <- !app_assoc.
  pose proof (appendName_length (impModule i)). pose proof (appendName_length (impName i)).
  apply (adds_one _ _ _ _ _ (mkWimport (impModule i) (impName i) (impType i))).
  - intros E. apply (f_equal (@List.length Z)) in E. rewrite length_app in E. cbn [List.length] in E. lia.
  - reflexivity.
  - intros Hlen. rewrite !length_app in Hlen.
    apply (decodes_bind _ _ _ _ _ _ (decodes_name (impModule i) ltac:(lia))).
    apply (decodes_bind _ _ _ _ _ _ (decodes_name (impName i) ltac:(lia))).
    apply (decodes_bind (expectByte 0) _ tt _ [0] _ (decodes_expect 0)).
    apply (decodes_bind_ret _ (fun t => mkWimport (impModule i) (impName i) t)), decodes_u32, Hi.
Qed.

(** A section of indices or minima. *)
Lemma encodeIndices_yields {A} (d : decoder Z) (f : A -> Z) prefix (l : list A) :
  (forall v, 0 <= v < 2 ^ 32 -> decodes d v (prefix ++ appendU32 [] v)) ->
  Forall (fun a => 0 <= f a < 2 ^ 32) l ->
  yields (encodeEach (fun out a => Ok (appendU32 (out ++ prefix) (f a))) l) (payloadReads d (fun a n => n = f a) l).
Proof.
  intros Hd. apply encodeEach_yields. intros out a Ha. cbn [yields].
  rewrite appendU32_out, <- app_assoc.
  apply (adds_one _ _ _ _ _ (f a)); [apply append_nonempty, appendU32_pos | reflexivity | intros _; exact (Hd _ Ha)].
Qed.

Lemma encodeFunctionTypes_yields m :
  Forall (fun f => 0 <= fnType f < 2 ^ 32) (bFunctions m) ->
  yields (encodeFunctionTypes m) (payloadReads decodeU32 (fun f n => n = fnType f) (bFunctions m)).
Proof.
  apply encodeEach_yields. intros out f Hf. cbn [yields]. rewrite appendU32_out.
  apply (adds_one _ _ _ _ _ (fnType f)); [apply (append_nonempty []), appendU32_pos | reflexivity | intros _; exact (decodes_u32 _ Hf)].
Qed.

Lemma decodes_table v : 0 <= v < 2 ^ 32 -> decodes decodeTable v ([wasmFuncRef; 0] ++ appendU32 [] v).
Proof. intros Hv. exact (decodes_bind _ _ _ _ _ _ (decodes_expects [112; 0]) (decodes_u32 v Hv)). Qed.

Lemma decodes_memory v : 0 <= v < 2 ^ 32 -> decodes decodeMemory v ([0] ++ appendU32 [] v).
Proof. intros Hv. exact (decodes_bind _ _ _ _ _ _ (decodes_expect 0) (decodes_u32 v Hv)). Qed.

Lemma encodeTables_yields m :
  Forall (fun n => 0 <= n < 2 ^ 32) (bTables m) -> yields (encodeTables m) (payloadReads decodeTable (fun a n => n = a) (bTables m)).
Proof. exact (encodeIndices_yields decodeTable (fun n => n) [wasmFuncRef; 0] (bTables m) decodes_table). Qed.

Lemma encodeMemories_yields m :
  Forall (fun n => 0 <= n < 2 ^ 32) (bMemories m) -> yields (encodeMemories m) (payloadReads decodeMemory (fun a n => n = a) (bMemories m)).
Proof. exact (encodeIndices_yields decodeMemory (fun n => n) [0] (bMemories m) decodes_memory). Qed.

Lemma encodeExports_yields m :
  Forall exportFits (bExports m) -> yields (encodeExports m) (payloadReads decodeExport (fun e w => w = exportOf e) (bExports m)).
Proof.
  apply encodeEach_yields. intros out e [Hk Hi]. cbn [yields].
  rewrite appendU32_out, appendName_out, <- !app_assoc. pose proof (appendName_length (exName e)).
  apply (adds_one _ _ _ _ _ (exportOf e)); [apply append_nonempty; cbn [app List.length]; lia | reflexivity|].
  intros Hlen. rewrite !length_app in Hlen.
  apply (decodes_bind _ _ _ _ _ _ (decodes_name (exName e) ltac:(lia))).
  apply (decodes_bind _ _ _ _ [exKind e] _ (decodes_byte _)).
  rewrite <- (app_nil_r (appendU32 [] _)). apply (decodes_bind _ _ _ _ _ _ (decodes_u32 _ Hi)).
  rewrite (proj2 (Z.leb_le 0 _)), (proj2 (Z.leb_le _ 3)) by lia. apply decodes_ret.
Qed.

Section Encoded.
Variable source : WatModule.

(** The constant expression at a node. *)
Definition constAt (i : nat) (il : list winstr) : Prop := exists x, represents source i x /\ constExpr x il.

Lemma encodeConstExpression_yields out i x :
  represents source i x ->
  yields (encodeConstExpression source out i) (fun out' => exists bs il,
    out' = out ++ bs /\ constAt i il /\ decodes decodeExpr il bs).
Proof.
  intros Hx. unfold encodeConstExpression. rewrite (isKind_represents _ _ _ _ Hx), (listHead_represents _ _ _ Hx).
  destruct x as [t|t|l]; try exact (errorf_yields _ _ _ _ _ _ Hx).
  cbn [treeKind]. rewrite bool_decide_eq_true_2 by reflexivity. cbn [negb].
  destruct (childrenOf_represents _ _ _ Hx) as (cs & -> & Hcs & _).
  destruct Hcs as [|c h cs l _ Hcs]; [wrong Hx|]. destruct Hcs as [|c' y cs l Hy Hcs]; [wrong Hx|].
  destruct Hcs; [|wrong Hx]. eapply outcome_bind; [exact (signed_yields _ _ _ Hy)|]. intros v Hv.
  destruct (String.eqb_spec (treeHead (Group [h; y])) "i32.const") as [E|_];
    [|destruct (String.eqb_spec (treeHead (Group [h; y])) "i64.const") as [E|_]; [|wrong Hx]]; cbn [yields].
  - exists ((65 :: appendI32 [] (wrap32 v)) ++ [11]), [ConstI32 (wrap32 v)].
    split; [unfold appendI32, appendSigned; rewrite <- !app_assoc; reflexivity|].
    split; [exists (Group [h; y]); split; [exact Hx | apply const_i32; assumption]|].
    apply decodes_expr, codes_one, code_i32, decodes_s32, wrap32_range.
  - exists ((66 :: appendI64 [] v) ++ [11]), [ConstI64 v].
    split; [unfold appendI64, appendSigned; rewrite <- !app_assoc; reflexivity|].
    split; [exists (Group [h; y]); split; [exact Hx | apply const_i64; assumption]|].
    apply decodes_expr, codes_one, code_i64, decodes_s64, (number_range y), Hv.
Qed.

Definition inTable (i : nat) : Prop := exists x, represents source i x.

Lemma encodeGlobals_yields m :
  Forall (fun g => inTable (glInit g) /\ exists v, valtypeOf (glCode g) = Some v) (bGlobals m) ->
  yields (encodeGlobals source m) (payloadReads decodeGlobal (fun g w =>
    valtypeOf (glCode g) = Some (wgType w) /\ wgMutable w = glMutable g /\ constAt (glInit g) (wgInit w)) (bGlobals m)).
Proof.
  apply encodeEach_yields. intros out g [(x & Hx) (v & Hv)].
  eapply outcome_weaken; [exact (encodeConstExpression_yields _ _ _ Hx)|].
  intros out' (bs & il & -> & Hil & Hd). rewrite <- app_assoc. cbn [app].
  apply (adds_one _ _ _ _ _ (mkWglobal v (glMutable g) il)); [discriminate | auto|]. intros _.
  apply (decodes_bind _ _ v _ [glCode g]); [intros rest; unfold decodeValtype, decodeBind; cbn; rewrite Hv; reflexivity|].
  apply (decodes_bind _ _ (glMutable g) _ [if glMutable g then 1 else 0]); [intros rest; destruct (glMutable g); reflexivity|].
  apply (decodes_bind_ret _ (fun il => mkWglobal v (glMutable g) il)), Hd.
Qed.

Lemma appendU32s out l : fold_left appendU32 l out = out ++ List.concat (map (appendU32 []) l).
Proof.
  revert out. induction l as [|n l IH]; intros out; cbn [fold_left map List.concat]; [rewrite app_nil_r; reflexivity|].
  rewrite IH, appendU32_out, <- app_assoc. reflexivity.
Qed.

Lemma decodes_indices l :
  Forall (fun n => 0 <= n < 2 ^ 32) l -> Z.of_nat (List.length (List.concat (map (appendU32 []) l))) < 2 ^ 32 ->
  decodes (decodeVec decodeU32) l (appendU32 [] (count l) ++ List.concat (map (appendU32 []) l)).
Proof.
  intros Hl Hlen.
  destruct (adds_vec decodeU32 eq l (map (appendU32 []) l)) as [_ (ws & Hws & Hd)]; [|exact Hlen|].
  - clear Hlen. induction Hl as [|n l Hn _ IH]; constructor; [|exact IH].
    split; [apply (append_nonempty []), appendU32_pos|]. intros _. exists n. split; [reflexivity | exact (decodes_u32 n Hn)].
  - apply list_eq_Forall2 in Hws as <-. exact Hd.
Qed.

Lemma encodeElements_yields m :
  Forall (fun e => inTable (elOffset e) /\ Forall (fun n => 0 <= n < 2 ^ 32) (elFunctions e)) (bElements m) ->
  yields (encodeElements source m) (payloadReads decodeElement (fun e w =>
    constAt (elOffset e) (wmOffset w) /\ wmFunctions w = elFunctions e) (bElements m)).
Proof.
  apply encodeEach_yields. intros out e [(x & Hx) Hfs].
  eapply outcome_bind; [exact (encodeConstExpression_yields _ _ _ Hx)|].
  intros out' (bs & il & -> & Hil & Hd). cbn [yields].
  rewrite appendU32s, appendU32_out, <- !app_assoc. cbn [app].
  apply (adds_one _ _ _ _ _ (mkWelement il (elFunctions e))); [discriminate | auto|]. intros Hlen.
  cbn [List.length] in Hlen. rewrite !length_app in Hlen.
  apply (decodes_bind (expectByte 0) _ tt _ [0] _ (decodes_expect 0)). apply (decodes_bind _ _ _ _ _ _ Hd).
  apply (decodes_bind_ret _ (fun l => mkWelement il l)), decodes_indices; [exact Hfs | lia].
Qed.

Lemma encodeData_yields m :
  Forall (fun s => inTable (daOffset s)) (bData m) ->
  yields (encodeData source m) (payloadReads decodeData (fun s w =>
    constAt (daOffset s) (wdOffset w) /\ wdBytes w = daBytes s) (bData m)).
Proof.
  apply encodeEach_yields. intros out s (x & Hx).
  eapply outcome_bind; [exact (encodeConstExpression_yields _ _ _ Hx)|].
  intros out' (bs & il & -> & Hil & Hd). cbn [yields].
  rewrite appendName_out, <- !app_assoc. cbn [app]. pose proof (appendName_length (daBytes s)).
  apply (adds_one _ _ _ _ _ (mkWdata il (daBytes s))); [discriminate | auto|]. intros Hlen.
  cbn [List.length] in Hlen. rewrite !length_app in Hlen.
  apply (decodes_bind (expectByte 0) _ tt _ [0] _ (decodes_expect 0)). apply (decodes_bind _ _ _ _ _ _ Hd).
  apply (decodes_bind_ret _ (fun bs => mkWdata il bs)), decodes_name. lia.
Qed.

(** ** Bodies *)

Definition groupCoded (g : Z * Z) (w : Z * valtype) : Prop := fst g = fst w /\ valtypeOf (snd g) = Some (snd w).

Lemma groups_coded groups l ps :
  Forall2 namedCoded l ps -> (forall code, In code (map snd groups) -> In code (map ntCode l)) ->
  exists ws, Forall2 groupCoded groups ws.
Proof.
  intros Hl Hin.
  assert (Hcode : forall code, In code (map ntCode l) -> exists t, valtypeOf code = Some t).
  { clear Hin. induction Hl as [|t p l ps [_ Hp] _ IH]; [intros code []|]. intros code [<-|Hc]; eauto. }
  clear Hl. induction groups as [|[n code] groups IH]; [exists []; constructor|].
  destruct (Hcode code ltac:(apply Hin; left; reflexivity)) as [t Ht].
  destruct IH as [ws Hws]; [intros c Hc; apply Hin; right; exact Hc|].
  exists ((n, t) :: ws). constructor; [split; [reflexivity | exact Ht] | exact Hws].
Qed.

Lemma expand_coded groups ws : Forall2 groupCoded groups ws -> codedTypes (expandGroups groups) (expandLocals ws).
Proof.
  unfold expandGroups, expandLocals. induction 1 as [|[n b] [k t] groups ws [E Hb] _ IH]; [constructor|]. cbn in E, Hb. subst k.
  cbn [flat_map]. apply Forall2_app; [|exact IH]. induction (Z.to_nat n); constructor; assumption.
Qed.

Definition groupBytes (g : Z * Z) : list Z := appendU32 [] (fst g) ++ [snd g].

Lemma groups_fold groups out :
  fold_left (fun out '(n, code) => appendU32 out n ++ [code]) groups out = out ++ List.concat (map groupBytes groups).
Proof.
  revert out. induction groups as [|[n code] groups IH]; intros out; cbn [fold_left map List.concat];
    [rewrite app_nil_r; reflexivity|].
  rewrite IH, appendU32_out. unfold groupBytes. cbn [fst snd]. rewrite <- !app_assoc. reflexivity.
Qed.

Lemma groups_decode groups ws :
  Forall2 groupCoded groups ws -> Forall (fun '(k, _) => 0 <= k < 2 ^ 32) groups ->
  Forall2 (decodes decodeLocals) ws (map groupBytes groups).
Proof.
  induction 1 as [|[n b] [k t] groups ws [E Hb] _ IH]; intros Hr; inversion Hr as [|? ? Hn Hr']; subst; constructor;
    [|exact (IH Hr')]. cbn in E, Hb. subst k. unfold groupBytes. cbn [fst snd].
  apply (decodes_bind _ _ _ _ _ _ (decodes_u32 n Hn)).
  intros rest. unfold decodeValtype, decodeBind. cbn. rewrite Hb. reflexivity.
Qed.

Lemma encodeLocalGroups_decodes l ps :
  Forall2 namedCoded l ps -> Z.of_nat (List.length l) < 2 ^ 32 ->
  exists ws, expandLocals ws = map snd ps /\ decodes (decodeVec decodeLocals) ws (encodeLocalGroups l).
Proof.
  intros Hl Hlen. destruct (localGroups_expand l Hlen) as (E & Hr & Hle & Hin).
  destruct (groups_coded _ _ _ Hl Hin) as [ws Hws]. exists ws. split.
  - apply (valtypes_functional (map ntCode l)); [rewrite <- E; apply expand_coded, Hws | apply codedTypes_named, Hl].
  - assert (encodeLocalGroups l = appendU32 [] (count (localGroups l)) ++ List.concat (map groupBytes (localGroups l))) as ->.
    { unfold encodeLocalGroups. destruct l as [|t l]; [reflexivity | apply groups_fold]. }
    unfold count. rewrite u32_small, (Forall2_length _ _ _ Hws) by lia. apply decodes_vec; [exact (groups_decode _ _ Hws Hr)|].
    rewrite <- (Forall2_length _ _ _ Hws). lia.
Qed.
End Encoded.

Lemma represents_inside m i x : represents m i x -> (i < List.length (nodes m))%nat.
Proof. destruct 1 as [i a b t H _|i a b t H _|i cs items H _ _]; exact (lookup_lt_Some _ _ _ H). Qed.

Lemma namedCoded_names l ps : Forall2 namedCoded l ps -> map ntName l = map fst ps.
Proof. induction 1 as [|t p l ps [E _] _ IH]; [reflexivity|]. cbn. congruence. Qed.

Lemma localsIn_placed e names :
  localsIn e names -> Z.of_nat (List.length names) < 2 ^ 32 -> placed names (fst e).
Proof.
  intros H Hlen t n Ht. pose proof (li_index _ _ H _ _ Ht) as Hi. split; [exact Hi|].
  destruct Hi as (k & Hk & ->). apply lookup_lt_Some in Hk. lia.
Qed.

Section Functions.
Variable source : WatModule.
Variable decls : list wat.
Variable m : binaryModule.
Hypothesis Hroot : represents source (root source) (Group (Atom "module" :: decls)).
Hypothesis Hnodes : Z.of_nat (List.length (nodes source)) < 2 ^ 32.
Hypothesis Htypes : placed (typeNamesOf decls) (bTypeNames m).
Hypothesis Hfunctions : placed (functionNamesOf decls) (bFunctionNames m).
Hypothesis Hglobals : placed (globalNamesOf decls) (bGlobalNames m).

(** What the code of a function declared by [d] means. *)
Definition bodyMeans (d : wat) (s : treeSignature) (c : wbody) : Prop :=
  expandLocals (wcLocals c) = map snd (tsLocals s) /\
  let names := map fst (tsParams s ++ tsLocals s) in
  NoDup (List.filter (fun n => negb (String.eqb n "")) names) /\
  foldedAll (mkScope (typeNamesOf decls) (functionNamesOf decls) (globalNamesOf decls) names)
    [] (List.filter isInstruction (itemsOf d)) (wcBody c).

Definition declared (f : binaryFunction) (d : wat) (s : treeSignature) : Prop :=
  represents source (fnNode f) d /\ signatureTree d = Some s /\
  Forall2 namedCoded (fnParams f) (tsParams s) /\ Forall2 namedCoded (fnLocals f) (tsLocals s).

Definition functionCode (f : binaryFunction) (c : wbody) : Prop := exists d s, declared f d s /\ bodyMeans d s c.

Lemma encodeFunctionBody_yields f d s :
  declared f d s -> treeHead d = "func" -> Z.of_nat (treeSize d) < 2 ^ 32 ->
  yields (encodeFunctionBody source m f) (fun bs => exists c, bodyMeans d s c /\ decodes decodeBody c bs).
Proof.
  intros (Hd & Hs & Hps & Hls) Hh Hsize. unfold encodeFunctionBody. pose proof (signatureTree_size _ _ Hs) as Hcount.
  pose proof (Forall2_length _ _ _ Hps) as Hplen. pose proof (Forall2_length _ _ _ Hls) as Hllen.
  eapply outcome_bind; [apply (addLocals_yields source _ [] _ _ Hroot); [cbn; lia | exact localsIn_empty]|].
  intros e1 He1. cbn [app] in He1.
  eapply outcome_bind; [apply (addLocals_yields source e1 (map ntName (fnParams f)) _ _ Hroot); [rewrite length_map; lia | exact He1]|].
  intros e He. rewrite <- map_app, (namedCoded_names _ (tsParams s ++ tsLocals s)) in He by (apply Forall2_app; assumption).
  destruct (headed_children source "func" _ _ Hd Hh ltac:(discriminate)) as (c & cs & xs & Ed & Ecs & _ & Hall).
  rewrite Ecs.
  assert (Hbelow : Forall (fun c => (c < fnNode f)%nat) cs).
  { destruct (childrenOf_represents source (fnNode f) (Atom "func" :: xs)) as (cs' & Ecs' & _ & Hlt); [congruence|].
    rewrite Ecs in Ecs'. injection Ecs' as <-. inversion Hlt. assumption. }
  pose proof (represents_inside _ _ _ Hd) as Hin.
  set (names := map fst (tsParams s ++ tsLocals s)) in *.
  eapply outcome_bind.
  { apply (bodyInstructions_yields source m (fst e)
      (mkScope (typeNamesOf decls) (functionNamesOf decls) (globalNamesOf decls) names) Htypes Hfunctions Hglobals) with (n := fnNode f);
      [|exact Hall | exact Hbelow | lia].
    apply (localsIn_placed e names); [exact He|]. unfold names. rewrite length_map, length_app. lia. }
  intros out (il & bs & -> & Hf & Hc). cbn [yields]. rewrite <- app_assoc.
  destruct (encodeLocalGroups_decodes _ _ Hls ltac:(lia)) as (ws & Hws & Hd').
  exists (mkWcode ws il). split.
  - split; [exact Hws|]. cbv zeta. split; [exact (li_nodup _ _ He)|]. rewrite Ed. exact Hf.
  - apply (decodes_bind _ _ _ _ _ _ Hd'). apply (decodes_bind_ret _ (fun il => mkWcode ws il)), decodes_expr, Hc.
Qed.

Lemma encodeCode_yields :
  Forall (fun f => exists d s, declared f d s /\ treeHead d = "func" /\ Z.of_nat (treeSize d) < 2 ^ 32) (bFunctions m) ->
  yields (encodeCode source m) (payloadReads decodeCode functionCode (bFunctions m)).
Proof.
  apply encodeEach_yields. intros out f (d & s & Hf & Hh & Hsize).
  eapply outcome_bind; [exact (encodeFunctionBody_yields f d s Hf Hh Hsize)|]. intros bs (c & Hc & Hd). cbn [yields].
  rewrite appendName_out. pose proof (appendName_length bs) as Hlt.
  apply (adds_one _ _ _ _ _ c); [intros E; rewrite E in Hlt; cbn in Hlt; lia | exists d, s; auto|]. intros Hlen.
  apply (decodes_sized decodeBody); [exact Hd | lia].
Qed.
End Functions.

(** ** The binary as a whole *)

Section Whole.
Variable source : WatModule.
Variable decls : list wat.
Variable m : binaryModule.

(** What the encoder needs of a lowered module. *)
Record encodable : Prop := {
  en_root : represents source (root source) (Group (Atom "module" :: decls));
  en_nodes : Z.of_nat (List.length (nodes source)) < 2 ^ 32;
  en_typeNames : placed (typeNamesOf decls) (bTypeNames m);
  en_functionNames : placed (functionNamesOf decls) (bFunctionNames m);
  en_globalNames : placed (globalNamesOf decls) (bGlobalNames m);
  en_types : Forall (fun t => exists f, typeCoded t f) (bTypes m);
  en_imports : Forall (fun i => 0 <= impType i < 2 ^ 32) (bImports m);
  en_functions : Forall (fun f => 0 <= fnType f < 2 ^ 32) (bFunctions m);
  en_tables : Forall (fun n => 0 <= n < 2 ^ 32) (bTables m);
  en_memories : Forall (fun n => 0 <= n < 2 ^ 32) (bMemories m);
  en_globals : Forall (fun g => inTable source (glInit g) /\ exists v, valtypeOf (glCode g) = Some v) (bGlobals m);
  en_exports : Forall exportFits (bExports m);
  en_elements : Forall (fun e => inTable source (elOffset e) /\ Forall (fun n => 0 <= n < 2 ^ 32) (elFunctions e)) (bElements m);
  en_codes : Forall (fun f => exists d s, declared source f d s /\ treeHead d = "func" /\ Z.of_nat (treeSize d) < 2 ^ 32) (bFunctions m);
  en_datas : Forall (fun s => inTable source (daOffset s)) (bData m)
}.

(** What is read back from the encoding of a lowered module. *)
Record encodedAs (M : wmodule) : Prop := {
  ea_types : Forall2 typeCoded (bTypes m) (wTypes M);
  ea_imports : Forall2 (fun i w => w = mkWimport (impModule i) (impName i) (impType i)) (bImports m) (wImports M);
  ea_functions : Forall2 (fun f n => n = fnType f) (bFunctions m) (wFuncs M);
  ea_tables : Forall2 (fun a n => n = a) (bTables m) (wTables M);
  ea_memories : Forall2 (fun a n => n = a) (bMemories m) (wMems M);
  ea_globals : Forall2 (fun g w => valtypeOf (glCode g) = Some (wgType w) /\ wgMutable w = glMutable g /\
    constAt source (glInit g) (wgInit w)) (bGlobals m) (wGlobals M);
  ea_exports : Forall2 (fun e w => w = exportOf e) (bExports m) (wExports M);
  ea_elements : Forall2 (fun e w => constAt source (elOffset e) (wmOffset w) /\ wmFunctions w = elFunctions e) (bElements m) (wElements M);
  ea_codes : Forall2 (functionCode source decls) (bFunctions m) (wCodes M);
  ea_datas : Forall2 (fun s w => constAt source (daOffset s) (wdOffset w) /\ wdBytes w = daBytes s) (bData m) (wDatas M)
}.

Lemma payload_section {A W} id (d : decoder W) (R : A -> W -> Prop) l payload rest total :
  payloadReads d R l payload ->
  (total = List.length (appendSection [] id payload ++ rest))%nat -> Z.of_nat total < 2 ^ 32 ->
  Z.of_nat (List.length rest) < 2 ^ 32 /\
  exists ws, Forall2 R l ws /\ sectionReads id d ws (appendSection [] id payload).
Proof.
  intros Hp -> Hlen. rewrite length_app in Hlen. pose proof (appendSection_length id payload).
  split; [lia|]. destruct (Hp ltac:(lia)) as (ws & Hws & Hnil & Hd). exists ws. split; [exact Hws|].
  apply section_reads; [exact Hnil | exact Hd | lia].
Qed.

Lemma tail_bound a b c : Z.of_nat a + Z.of_nat b < c -> Z.of_nat b < c.
Proof. lia. Qed.

Lemma encodeModule_yields :
  encodable ->
  yields (encodeModule source m) (fun bytes => Z.of_nat (List.length bytes) < 2 ^ 32 ->
    exists M, decodeModule bytes = Some M /\ encodedAs M).
Proof.
  intros H. unfold encodeModule. cbv zeta.
  eapply outcome_bind; [exact (encodeTypes_yields m (en_types H))|]. intros p1 H1.
  eapply outcome_bind; [exact (encodeImports_yields m (en_imports H))|]. intros p2 H2.
  eapply outcome_bind; [exact (encodeFunctionTypes_yields m (en_functions H))|]. intros p3 H3.
  eapply outcome_bind; [exact (encodeTables_yields m (en_tables H))|]. intros p4 H4.
  eapply outcome_bind; [exact (encodeMemories_yields m (en_memories H))|]. intros p5 H5.
  eapply outcome_bind; [exact (encodeGlobals_yields source m (en_globals H))|]. intros p6 H6.
  eapply outcome_bind; [exact (encodeExports_yields m (en_exports H))|]. intros p7 H7.
  eapply outcome_bind; [exact (encodeElements_yields source m (en_elements H))|]. intros p8 H8.
  eapply outcome_bind; [exact (encodeCode_yields source decls m (en_root H) (en_nodes H) (en_typeNames H) (en_functionNames H)
    (en_globalNames H) (en_codes H))|]. intros p9 H9.
  eapply outcome_bind; [exact (encodeData_yields source m (en_datas H))|]. intros p10 H10.
  cbn [yields]. rewrite (appendSection_out _ 11), (appendSection_out _ 10), (appendSection_out _ 9), (appendSection_out _ 7),
    (appendSection_out _ 6), (appendSection_out _ 5), (appendSection_out _ 4), (appendSection_out _ 3), (appendSection_out _ 2),
    (appendSection_out _ 1), <- !app_assoc. rewrite <- (app_nil_r (appendSection [] 11 p10)).
  intros Hlen. rewrite length_app, Nat2Z.inj_add in Hlen. pose proof (tail_bound _ _ _ Hlen) as L0.
  destruct (payload_section _ _ _ _ _ _ _ H1 eq_refl L0) as [L1 (w1 & R1 & S1)].
  destruct (payload_section _ _ _ _ _ _ _ H2 eq_refl L1) as [L2 (w2 & R2 & S2)].
  destruct (payload_section _ _ _ _ _ _ _ H3 eq_refl L2) as [L3 (w3 & R3 & S3)].
  destruct (payload_section _ _ _ _ _ _ _ H4 eq_refl L3) as [L4 (w4 & R4 & S4)].
  destruct (payload_section _ _ _ _ _ _ _ H5 eq_refl L4) as [L5 (w5 & R5 & S5)].
  destruct (payload_section _ _ _ _ _ _ _ H6 eq_refl L5) as [L6 (w6 & R6 & S6)].
  destruct (payload_section _ _ _ _ _ _ _ H7 eq_refl L6) as [L7 (w7 & R7 & S7)].
  destruct (payload_section _ _ _ _ _ _ _ H8 eq_refl L7) as [L8 (w8 & R8 & S8)].
  destruct (payload_section _ _ _ _ _ _ _ H9 eq_refl L8) as [L9 (w9 & R9 & S9)].
  destruct (payload_section _ _ _ _ _ _ _ H10 eq_refl L9) as [_ (w10 & R10 & S10)].
  exists (mkWmodule w1 w2 w3 w4 w5 w6 w7 w8 w9 w10). split; [|constructor; assumption].
  unfold decodeModule, decodeWhole. unfold decodeBind at 1.
  rewrite (decodes_expects magic).
  match goal with |- match ?r with _ => _ end = _ => enough (E : r = Some (mkWmodule w1 w2 w3 w4 w5 w6 w7 w8 w9 w10, [])) by (rewrite E; reflexivity) end.
  enough (F : finishes 0 _ (mkWmodule w1 w2 w3 w4 w5 w6 w7 w8 w9 w10) _) by exact (proj1 F).
  do 10 (eapply finishes_section; [eassumption | lia|]). split; reflexivity.
Qed.
End Whole.

(** ** From the lowered lists to the module *)

Lemma Forall2_Forall_r {A B} (R : A -> B -> Prop) (P : A -> Prop) (Q : B -> Prop) l k :
  Forall2 R l k -> Forall P l -> (forall a b, R a b -> P a -> Q b) -> Forall Q k.
Proof. intros H Hl Himp. induction H; inversion Hl; subst; constructor; eauto. Qed.

Lemma Forall2_compose {A B C} (R : A -> B -> Prop) (S : B -> C -> Prop) (T : A -> C -> Prop) l k n :
  Forall2 R l k -> Forall2 S k n -> (forall a b c, R a b -> S b c -> T a c) -> Forall2 T l n.
Proof. intros H. revert n. induction H; intros n Hn Himp; inversion Hn; subst; constructor; eauto. Qed.

Lemma Forall_headed (P : wat -> Prop) head l :
  Forall P l -> Forall (fun d => treeHead d = head /\ P d) (headed head l).
Proof.
  rewrite !List.Forall_forall. intros H d Hd. apply filter_In in Hd as [Hd He]. apply String.eqb_eq in He. auto.
Qed.

Section Lowered.
Variable source : WatModule.
Variable decls : list wat.
Variable m : binaryModule.
Hypothesis Hroot : represents source (root source) (Group (Atom "module" :: decls)).
Hypothesis Hnodes : Z.of_nat (List.length (nodes source)) < 2 ^ 32.
Hypothesis Hsize : Z.of_nat (List.length decls) < 2 ^ 32.
Hypothesis Htrees : Forall (fun d => Z.of_nat (treeSize d) < 2 ^ 32) decls.
Hypothesis Hlowered : loweredAs source decls m.

Lemma all_true {A} (l : list A) : Forall (fun _ => True) l.
Proof. induction l; constructor; auto. Qed.

Lemma hasTypeB_range types n s : hasTypeB types n s -> Z.of_nat (List.length types) < 2 ^ 32 -> 0 <= n < 2 ^ 32.
Proof. intros (k & t & -> & Hk & _) Hlen. apply lookup_lt_Some in Hk. lia. Qed.

Lemma lowered_encodable : encodable source decls m.
Proof.
  destruct Hlowered as (m0 & Hm0 & Hm).
  destruct (rc_base _ _ _ _ _ Hm) as (E1 & E2 & E3 & E4 & E5).
  pose proof (headed_count decls) as Hcount.
  assert (Htypes : Z.of_nat (List.length (bTypes m0)) < 2 ^ 32) by (pose proof (ix_count _ _ _ _ _ Hm0); lia).
  constructor.
  - exact Hroot.
  - exact Hnodes.
  - rewrite E2. apply named_placed; [exact (ix_types _ _ _ _ _ Hm0)|]. unfold typeNamesOf. rewrite length_map. lia.
  - rewrite E5. apply named_placed; [exact (ix_functions _ _ _ _ _ Hm0)|].
    unfold functionNamesOf. rewrite length_app, !length_map. lia.
  - apply named_placed; [exact (rc_globalNames _ _ _ _ _ Hm)|]. unfold globalNamesOf, headed. rewrite length_map.
    pose proof (filter_length_le (fun d => String.eqb (treeHead d) "global") decls). lia.
  - rewrite E1. exact (ix_coded _ _ _ _ _ Hm0).
  - rewrite E3. apply (Forall2_Forall_r _ _ _ _ _ (ix_imports _ _ _ _ _ Hm0) (all_true _)).
    intros d i (h & a & b & func & s & _ & _ & _ & _ & _ & Ht) _. exact (hasTypeB_range _ _ _ Ht Htypes).
  - rewrite E4. apply (Forall2_Forall_r _ _ _ _ _ (ix_defined _ _ _ _ _ Hm0) (all_true _)).
    intros d f (_ & s & _ & Ht & _) _. exact (hasTypeB_range _ _ _ Ht Htypes).
  - apply (Forall2_Forall_r _ _ _ _ _ (rc_tables _ _ _ _ _ Hm) (all_true _)).
    intros d n (h & t & k & _ & _ & Hn) _. exact (ParseUint_range _ _ _ Hn).
  - apply (Forall2_Forall_r _ _ _ _ _ (rc_memories _ _ _ _ _ Hm) (all_true _)).
    intros d n (t & _ & Hn) _. exact (ParseUint_range _ _ _ Hn).
  - apply (Forall2_Forall_r _ _ _ _ _ (rc_globals _ _ _ _ _ Hm) (all_true _)).
    intros d g (h & name & t & init & v & _ & Hi & Hv & _) _. split; [exists init; exact Hi | exists v; exact Hv].
  - exact (rc_fits _ _ _ _ _ Hm).
  - apply (Forall2_Forall_r _ _ _ _ _ (rc_elements _ _ _ _ _ Hm) (all_true _)).
    intros d e (h & offset & cs & _ & Ho & _ & Hr) _. split; [exists offset; exact Ho | exact Hr].
  - rewrite E4. apply (Forall2_Forall_r _ _ _ _ _ (ix_defined _ _ _ _ _ Hm0) (Forall_headed _ "func" _ Htrees)).
    intros d f (Hd & s & Hs & _ & Hps & Hls) [Hh Hd']. exists d, s. repeat split; assumption.
  - apply (Forall2_Forall_r _ _ _ _ _ (rc_datas _ _ _ _ _ Hm) (all_true _)).
    intros d s (h & offset & cs & bss & _ & Ho & _) _. exists offset. exact Ho.
Qed.

Lemma constAt_at i x il : represents source i x -> constAt source i il -> constExpr x il.
Proof. intros Hx (y & Hy & H). rewrite (proj1 (represents_det source) _ _ Hx _ Hy). exact H. Qed.

Lemma hasTypeB_means types M n s :
  hasTypeB types n s -> Forall2 typeCoded types (wTypes M) -> hasType M n (typeOfSignature s).
Proof.
  intros (k & t & -> & Hk & Ht) Hall. destruct (Forall2_lookup_l _ _ _ _ _ Hall Hk) as (f & Hf & Htf).
  exists k. split; [reflexivity|]. rewrite Hf. f_equal. exact (typeCoded_functional _ _ _ Htf Ht).
Qed.

Lemma functions_mean types M ds fs ns cs :
  Forall2 typeCoded types (wTypes M) ->
  Forall2 (functionB source types) ds fs -> Forall2 (fun f n => n = fnType f) fs ns ->
  Forall2 (functionCode source decls) fs cs -> Forall2 (functionMeans decls M) ds (zip ns cs).
Proof.
  intros Htypes H. revert ns cs. induction H as [|d f ds fs (Hd & s & Hs & Ht & _) _ IH]; intros ns cs Hns Hcs.
  { inversion Hns. constructor. }
  inversion Hns as [|? n ? ns' E Hns']; subst. inversion Hcs as [|? c ? cs' (d' & s' & (Hd' & Hs' & _) & Hc) Hcs']; subst.
  constructor; [|exact (IH _ _ Hns' Hcs')].
  pose proof (proj1 (represents_det source) _ _ Hd' _ Hd) as ->. assert (s' = s) as -> by congruence.
  destruct Hc as [Hl Hbody]. exists s. split; [exact Hs|]. split; [exact (hasTypeB_means _ _ _ _ Ht Htypes)|]. split; [exact Hl | exact Hbody].
Qed.

Lemma lowered_means M : encodedAs source decls m M -> moduleMeans decls M.
Proof.
  destruct Hlowered as (m0 & Hm0 & Hm).
  destruct (rc_base _ _ _ _ _ Hm) as (E1 & E2 & E3 & E4 & E5).
  intros [M1 M2 M3 M4 M5 M6 M7 M8 M9 M10]. constructor.
  - exact (rc_heads _ _ _ _ _ Hm).
  - split; [exact (named_nodup _ _ (ix_types _ _ _ _ _ Hm0))|].
    split; [exact (named_nodup _ _ (ix_functions _ _ _ _ _ Hm0)) | exact (named_nodup _ _ (rc_globalNames _ _ _ _ _ Hm))].
  - destruct (ix_declared _ _ _ _ _ Hm0) as (declared & more & E & Hd). rewrite E1, E in M1.
    apply Forall2_app_inv_l in M1 as (ts & ts' & Hts & _ & ->). exists ts', ts. split; [reflexivity|].
    apply (Forall2_compose _ _ _ _ _ _ Hd Hts). intros d t f (h & name & func & s & Ed & Hf & Hs & Ht) Htf.
    exists h, name, func, s. split; [exact Ed|]. split; [exact Hf|]. split; [exact Hs|].
    exact (typeCoded_functional _ _ _ Htf Ht).
  - rewrite E3 in M2. rewrite E1 in M1. apply (Forall2_compose _ _ _ _ _ _ (ix_imports _ _ _ _ _ Hm0) M2).
    intros d i w (h & a & b & func & s & Ed & Hf & Ha & Hb & Hs & Ht) ->. exists h, a, b, func, s.
    repeat (split; [assumption|]). exact (hasTypeB_means _ _ _ _ Ht M1).
  - rewrite E4 in M3, M9. rewrite E1 in M1. split.
    + rewrite <- (Forall2_length _ _ _ M3). exact (Forall2_length _ _ _ M9).
    + exact (functions_mean _ _ _ _ _ _ M1 (ix_defined _ _ _ _ _ Hm0) M3 M9).
  - apply (Forall2_compose _ _ _ _ _ _ (rc_tables _ _ _ _ _ Hm) M4). intros d a n H ->. exact H.
  - apply (Forall2_compose _ _ _ _ _ _ (rc_memories _ _ _ _ _ Hm) M5). intros d a n H ->. exact H.
  - apply (Forall2_compose _ _ _ _ _ _ (rc_globals _ _ _ _ _ Hm) M6).
    intros d g w (h & name & t & init & v & Ed & Hi & Hv & Ht) (Hv' & Hmut & Hc).
    exists h, name, t, init. split; [exact Ed|]. split; [exact (constAt_at _ _ _ Hi Hc)|].
    assert (wgType w = v) as -> by congruence. rewrite Hmut. exact Ht.
  - replace (wExports M) with (map exportOf (bExports m)); [exact (rc_exports _ _ _ _ _ Hm)|].
    clear - M7. induction M7 as [|e w es ws -> _ IH]; [reflexivity|]. cbn. congruence.
  - apply (Forall2_compose _ _ _ _ _ _ (rc_elements _ _ _ _ _ Hm) M8).
    intros d e w (h & offset & cs & Ed & Ho & Hfs & _) [Hc E]. exists h, offset, cs. split; [exact Ed|].
    split; [exact (constAt_at _ _ _ Ho Hc)|]. rewrite E. exact Hfs.
  - apply (Forall2_compose _ _ _ _ _ _ (rc_datas _ _ _ _ _ Hm) M10).
    intros d s w (h & offset & cs & bss & Ed & Ho & Hb & E) [Hc E']. exists h, offset, cs, bss. split; [exact Ed|].
    split; [exact (constAt_at _ _ _ Ho Hc)|]. split; [exact Hb | congruence].
Qed.
End Lowered.

(** C12. Rendering a module as a binary means what its text means.  On the parse of a
    text of less than 4 GiB, [Binary] ends, and without a panic: with an error of
    the Go code, or with bytes that, as long as they too are less than 4 GiB, the
    reader of the WebAssembly specification takes whole as a module, and that
    module is the one the declarations of the text stand for: names resolved,
    folded instructions unfolded, labels counted, types interned, locals grouped. *)
Theorem binary_means_text source m :
  parseModule source = Ok m -> Z.of_nat (String.length source) < 2 ^ 32 ->
  yields (Binary m) (fun bytes => Z.of_nat (List.length bytes) < 2 ^ 32 ->
    exists decls M, writtenModule decls source /\ decodeModule bytes = Some M /\ moduleMeans decls M).
Proof.
  intros Hm Hsize. pose proof (parseModule_nodes _ _ Hm) as Hnodes.
  destruct (parseModule_sound _ _ Hm) as (_ & decls & Hw & Hroot).
  assert (Hsum : (sum_list_with treeSize decls <= String.length source)%nat).
  { destruct Hw as (sp & body & sp' & _ & _ & Hitems & ->). apply (proj2 written_size) in Hitems.
    rewrite !slength_app. cbn [sum_list_with treeSize] in Hitems. lia. }
  assert (Htrees : Forall (fun d => Z.of_nat (treeSize d) < 2 ^ 32) decls).
  { apply Forall_forall. intros d Hd. apply sum_size_in in Hd. lia. }
  pose proof (sum_size_length decls) as Hlen. assert (Hdecls : Z.of_nat (List.length decls) < 2 ^ 32) by lia.
  unfold Binary. eapply outcome_bind; [exact (lowerBinaryModule_yields m decls Hroot Hdecls)|]. intros b Hb.
  eapply outcome_weaken; [exact (encodeModule_yields m decls b (lowered_encodable m decls b Hroot ltac:(lia) Hdecls Htrees Hb))|].
  intros bytes H Hbytes. destruct (H Hbytes) as (M & HM & Hea). exists decls, M.
  split; [exact Hw|]. split; [exact HM | exact (lowered_means m decls b Hb M Hea)].
Qed.

(** A module with an import, a loop, a named local and a global. *)
Definition sampleWat : string :=
  "(module (import " +:+ quoteMark +:+ "host" +:+ quoteMark +:+ " " +:+ quoteMark +:+ "put" +:+ quoteMark +:+
  " (func $put (param i32))) (memory (export " +:+ quoteMark +:+ "memory" +:+ quoteMark +:+ ") 1) " +:+
  "(global $top (mut i32) (i32.const 1024)) " +:+
  "(func $run (export " +:+ quoteMark +:+ "run" +:+ quoteMark +:+ ") (param $n i32) (local $i i32) " +:+
  "(block $done (loop $next (br_if $done (i32.ge_u (local.get $i) (local.get $n))) (call $put (local.get $i)) " +:+
  "(local.set $i (i32.add (local.get $i) (i32.const 1))) (br $next)))) " +:+
  "(data (i32.const 16) " +:+ quoteMark +:+ "a\0ab" +:+ quoteMark +:+ "))".

Lemma binary_means_text_witness :
  exists m bytes decls M, parseModule sampleWat = Ok m /\ Binary m = Ok bytes /\
    writtenModule decls sampleWat /\ decodeModule bytes = Some M /\ moduleMeans decls M /\
    map wcBody (wCodes M) =
      [[Nested "block" None [Nested "loop" None
          [Indexed "local.get" 1; Indexed "local.get" 0; Plain "i32.ge_u"; Indexed "br_if" 1;
           Indexed "local.get" 1; Indexed "call" 0;
           Indexed "local.get" 1; ConstI32 1; Plain "i32.add"; Indexed "local.set" 1; Indexed "br" 0]]]].
Proof.
  destruct (parseModule sampleWat) as [m|] eqn:Hm; [|vm_compute in Hm; discriminate].
  destruct (Binary m) as [bytes|] eqn:Hb; [|vm_compute in Hm; injection Hm as <-; vm_compute in Hb; discriminate].
  pose proof (binary_means_text sampleWat m Hm ltac:(vm_compute; reflexivity)) as H. rewrite Hb in H.
  vm_compute in Hm. injection Hm as <-. vm_compute in Hb. injection Hb as <-.
  destruct H as (decls & M & Hw & HM & Hmeans); [vm_compute; reflexivity|].
  eexists _, _, decls, M. split; [reflexivity|]. split; [vm_compute; reflexivity|].
  split; [exact Hw|]. split; [exact HM|]. split; [exact Hmeans|].
  vm_compute in HM. injection HM as <-. reflexivity.
Defined.
